(* ===== verification/_CoqProject ===== *)
-Q . S2P
Prelude.v
Text.v
Hashids.v
Endian.v
Buffer.v
BuddyTree.v
Buddy.v
Dict.v
Trie.v
Tst.v
DictClient.v
Md5.v
Uuid.v
Expr.v
Calculator.v
ExpTree.v
Router.v
ConnPool.v
RcString.v
Bucket.v
Backoff.v
Multipart.v
Threads.v
LightMutex.v
TimerQueue.v
Bloom.v
Signals.v
Poller.v
EventLoop.v
Socks5.v
Relay.v
Server.v
LockfreeStack.v
Topt.v
Monitor.v
Containers.v
SharedCells.v
ThreadRc.v
Murmur.v
Socks4a.v
Dates.v
TwoLock.v
Pools.v
Designs.v
Decimal.v
SortedData.v
TreeCodec.v
Psl.v
Chat.v
Subprocess.v
ActiveThread.v
Observers.v
LaborMonitor.v
HttpServer.v
Coroutines.v
Awaitable.v
HierMutex.v
Algorithms.v
CompileTime.v
Scans.v
Searches.v
Cgroups.v
Murmur64.v
LinkedLists.v
