(* ===== verification/Prelude.v ===== *)
(** * Eureka: a verification library for its data structures and protocols

    Eureka is a collection of C++ projects.  This library models the ones with program
    logic of their own and proves what makes them correct.  Every project is a
    component with a file of its own; the components share only this prelude and the
    few files that several need.

    ** Components

    - [Hashids.v] (hashids/hashids/hashids.cpp): reversible short ids: the salted
      shuffle, the positional encoding, the padding, the constructor, and
      [encode]/[decode] with their hexadecimal variants.
    - [Endian.v], [Buffer.v] (NetworkInfra/src/endian_utils.h, buffer.h, buffer.cpp): the
      network buffer with its two indices, and integers in network byte order.
    - [BuddyTree.v], [Buddy.v] (BuddyAllocator/src): the buddy allocator: the array of
      [BinManager] with the unsigned arithmetic of its indices, and the byte interface on
      top.  [BuddyTree.v] is the abstract tree of blocks it implements.
    - [Dict.v], [Trie.v], [Tst.v], [DictClient.v] (TrieFoDict/src,
      TernarySearchTree/src): two dictionaries over the same alphabet; [Dict.v] is the
      interface (classes [Dict] and [DictOk]) that both implement and clients use.
    - [Text.v], [Md5.v], [Uuid.v] (uuid/uuid): the incremental MD5 of md5.cpp against the
      algorithm of RFC 1321, and the identifiers of versions 1 to 4 built on it.
    - [Expr.v], [Calculator.v], [ExpTree.v] (ExpressionCalculator, "Expression Tree"): two
      evaluators of infix texts, against the precedence grammar and the values of [Expr.v].
    - [Router.v] (learn-cxx/beast/http_router/tree.h): the radix tree of routes with
      wildcards, priorities and splits.
    - [ConnPool.v] (conn-pool/conn_pool/pool.h): the connection pool; its critical sections
      are interleaved by a step relation.
    - [RcString.v] (RCString/src/rc_string.cpp): copy-on-write strings in a heap of shared
      buffers.
    - [Topt.v] (learn-topt/topt): the text of a shared secret and the time-based password.
    - [Bucket.v] (token-bucket-rate-limit/ratelimit): the token bucket.
    - [Backoff.v] (backoff-retry/backoff): backoff policies (class [Policy], with what they
      promise in [PolicyOk]) and the retry loop.
    - [Multipart.v] (http-multipart/multipart): the reader of multipart forms.

    - [Threads.v], [LightMutex.v] (LightweightMutex/light_mutex): programs of atomic accesses
      and their interleaving; the lightweight mutex and its recursive variant.
    - [LockfreeStack.v] (LockfreeStack/lstack.h): the lock-free stack with its two tagged heads.
    - [TwoLock.v] (ConcurrentQueue/two_lock.h): the queue with a lock for each end.
    - [Monitor.v], [Containers.v] (BlockingQueue/src/blocking_queue.h, CountDownLatch/src,
      TinyThreadPool/src): objects guarded by one mutex with condition variables, as a step
      relation over their critical sections, labelled with what the calls return; the blocking queue, the latch and the thread
      pool are its instances.
    - [SharedCells.v], [ThreadRc.v] (RCString/src/thread_safe_rc_string.cpp): programs of
      atomic and plain accesses to a shared heap, with the races between them; the
      thread-safe reference-counted string.
    - [TimerQueue.v], [EventLoop.v], [Poller.v] (NetworkInfra/src/timer_queue.cpp,
      event_loop.cpp, poller.cpp, channel.cpp): the timers of the event loop, its task
      queue with the wakeup of the loop thread, and the entries and channels it polls.
    - [Server.v] (NetworkInfra/src/tcp_connection.cpp, tcp_server.cpp): connections and their
      server, on top of the models of the buffer and of the poller.
    - [Bloom.v] (bloom-filter/bloom-filter): the bloom filter and its hash.
    - [Signals.v] (Signal-Slot/src/signals.h): signals with copy-on-write vectors of slots,
      and emissions that run on snapshots.
    - [Socks5.v], [Relay.v] (learn-cxx/asio/socks5/tunnel.cpp): the tunnel of the SOCKS5 proxy:
      the handshake as a program over asynchronous operations, and the two forwarding loops.
    - [Socks4a.v] (learn-cxx/asio/socks4a/tunnel.cpp): the handshake of the SOCKS4a proxy.
    - [Murmur.v], [Murmur64.v] (bloom-filter/bloom-filter/MurmurHash2.cpp): the variants of the
      hash, 32 bits and 64 bits wide.
    - [Dates.v] ("Date Functions"): the difference of two dates and the printed calendar.
    - [Pools.v] (Object_Pool/src/object_pool.h, stock_pool.h): the pool that lends its objects
      and the factory with one object per key; the deleters of their clients are interleaved.
    - [ActiveThread.v] (ActiveThread/src/active_thread.cpp): the thread that runs the tasks of a
      blocking queue (that of [Containers.v]) until it is destroyed.
    - [Observers.v] (Thread_Safe_Observer/src/observer_list.h): the list of weak pointers to
      observers, and notifications during which observers let go of others.
    - [Chat.v] (learn-cxx/asio/use-with-coroutine/chat): the sessions of the chat server, two
      coroutines each, and the set of them that its messages go to.
    - [Subprocess.v] (Lumper/base/subprocess.cpp): parent and child with their tables of
      descriptors, the pipe that reports errors, and exit codes.
    - [Psl.v] (esld/esld/psl.cpp): the order of the rules of the public suffix list, and the
      look-up of a domain in them.
    - [Designs.v], [Decimal.v], [SortedData.v], [TreeCodec.v]
      (crack-data-structures-and-algorithms/leetcode): the exercises that design a class (the
      LRU cache, the random set, the circular queue, the hash map), those on decimal texts, on
      sorted data and permutations, and the codecs of trees.
    - [Scans.v], [Searches.v] (the same directory): exercises that scan an array with one or
      two pointers, on brackets, and searches by bisection or by swaps.
    - [LinkedLists.v] (the same directory): exercises that relink the nodes of lists in a heap:
      reversals, a removal, merges, a sum.
    - [LaborMonitor.v] (hey-i-am-still-working/himsw/labor_monitor.cpp): the states of the monitor
      of idle users, its ticks, breaks and hooks.
    - [HttpServer.v] (ConcurrentHttpServer/ConcurrentHttpServerLinux): the connections of an HTTP
      server: requests that arrive in pieces, responses, percent-encoding.
    - [Coroutines.v] (learn-cxx/coroutine/thread_pool): tasks that await each other and move to the
      workers of a pool, and a thread that waits for one of them.
    - [Awaitable.v] (learn-cxx/coroutine/awaitable_event): events that coroutines await, on top of
      eventfd and epoll.
    - [HierMutex.v] (Books/CPPConcurrencyInAction): mutexes that are locked from high to low.
    - [Algorithms.v] (StablePartitionAndSubrangeSort, lower-bound-inserter, parallel_accumulate of
      Books/CPPConcurrencyInAction): algorithms on ranges.
    - [CompileTime.v] (CompileTimeContainers, typelist, learn-cxx/ranges): strings and sorting at
      compile time, lists of types, the chained view.
    - [Cgroups.v] (Lumper/lumper): the control groups of containers.

    Within a file the definitions keep the names of the code, in its order: a class is a
    [Record] of its members, a member function a definition that takes the object and
    returns it changed, a loop a [Fixpoint], a nested loop one of its own.

    ** How C++ is modelled

    Integers are [Z]; unsigned arithmetic wraps ([wrap w]), signed arithmetic that
    leaves its type is undefined.  A call has an [outcome]: a result, an exception, undefined
    behaviour, or no fuel.  Undefined behaviour is what the language leaves undefined and
    the code can run into: accesses out of range, overflow, division by zero, failed
    assertions (where a component's behaviour in a build with NDEBUG matters, a parameter
    [ndebug] removes them).  Operations that change an object before they throw return the
    object together with the exception ([Trie.v], [Router.v]).  An owned tree is a value;
    shared objects live in a heap ([RcString.v]), as do linked nodes ([LinkedLists.v]).  Code outside of the repository (the
    esl and fmt libraries, random engines, the traits of the pool, the semaphores of the
    operating system, floating-point arithmetic) is a parameter with its
    documented behaviour as a class, and every such class has an instance.

    ** What is shown

    - Round trips: decoding undoes encoding ([Hashids.v]), integers survive the network
      buffer, a form survives printing and parsing ([Multipart.v]), an identifier its text
      ([Uuid.v]), a secret its text ([Topt.v]), an escaped URL ([HttpServer.v]), a tree its text by levels or in preorder ([TreeCodec.v]).
    - Refinements: the buffer is a queue of bytes, the allocator a table of disjoint
      blocks, the dictionaries sets of words, the router (without wildcards) a table of
      routes, the strings values (when an uninitialised member holds 0), the MD5 context a message, the
      bloom filter the set of the positions it was given, a signal a list of slots, the poller a table of descriptors;
      the operations of the lock-free stack and of the two-lock queue take effect one by one
      as those of a stack and of a queue; the thread-safe strings are values of their threads;
      the LRU cache is a list by time of use, the other designs a set, a queue and a map.
    - Functional correctness: the two evaluators against one grammar, the answers of
      the SOCKS handshakes and that nothing but a request opens a tunnel, the days between
      two dates and the columns of a calendar; the variants of the hash agree; the next
      permutation is the least greater one; the rules of the suffix list are sorted; the
      responses of the HTTP server are those to the requests, however their bytes arrive;
      the 64-bit hashes separate keys that differ in one place; the results of the
      exercises are what their statements ask for.
    - Invariants under interleaving: the accounting of the connection pool, mutual
      exclusion and the counts of the mutexes, the snapshots of a signal, the connections
      of a server and their bytes, the tasks of the event loop (none waits while the loop
      sleeps), the timers (each runs once, in time), the bytes of a tunnel; no waiter of a
      queue, a latch or a pool sleeps while it could go on; accesses to shared strings
      do not race, and those to the two-lock queue do in one case only; the live
      objects of the stock factory have different keys; every client of the chat gets
      all its messages in one order; a constructor of a child process leaks no descriptor;
      the parts of a task run one at a time, in the order of the program; no signal of
      an event is lost; a container leaves no process in its group.
    - Liveness: the threads that only give a mutex back are at rest after a bounded number
      of steps in every schedule; a tunnel whose ends have closed delivers what it has and
      ends; an operation of the lock-free stack that runs alone finishes; the
      destructor of an active thread returns; the coroutines of a closed chat session end;
      the thread that waits for a task goes on after a number of steps that the task fixes;
      threads that lock hierarchical mutexes in scopes do not wait in a circle.
    - Bounds and termination: the token rate, the delays and calls of a retry, the parser
      of forms, the array indices and sizes of the allocator, the look-up of a domain, the
      time between two keys that the monitor presses.
    - Errors: what is thrown and when, and the inputs on which the code breaks its own
      contract (each with a theorem that exhibits it).

    ** Fuel

    Structural recursion is used where the code's recursion or loop has it.  Elsewhere the
    fuel is a bound the code cannot exceed, and a theorem shows that it returns: the
    length of the text for loops that consume it (parts of a form, groups of an
    identifier, levels of the radix tree: each consumes a character), 66 for paths in the
    allocator's tree (indices are 64 bits wide), twice the number of nodes for the
    traversal of a trie, the number of retries plus one for [attempt].

    ** Not modelled

    Destructors that only free memory, logging and printing, the text of exceptions, and the
    operating system.  What is left of the repository has no model: code that others wrote
    (Boost's examples, the crow framework, parts of libstdc++, the reference code of the
    RFC); calls of Windows, of its completion ports and of its user interface, which have no
    logic of their own between them; the accepting of connections, the command lines and the
    small programs that show one feature of C++; templates that only wrap a type; the
    programs in Go, Java, C# and Python.  Of the exercises the rest is like those that are
    modelled: independent functions of a few lines, on tables, trees and lists.

    This file holds what the components share: integers and wrap-around, outcomes with
    their monad and tactics, bit fields, characters and strings, vectors indexed by
    [size_t], and lemmas on lists. *)

From Stdlib Require Export ZArith Lia Bool Ascii.
From stdpp Require Export strings option base list_numbers list.

#[global] Open Scope Z_scope.

(** ** Machine integers

    C++ unsigned arithmetic is arithmetic modulo [2^w]; signed arithmetic that
    leaves the range of its type is undefined. *)

Definition modulus (w : Z) : Z := 2 ^ w.
Definition wrap (w x : Z) : Z := x mod 2 ^ w.
Definition in_u (w x : Z) : Prop := 0 <= x < 2 ^ w.
Definition in_i (w x : Z) : Prop := - 2 ^ (w - 1) <= x < 2 ^ (w - 1).

Notation u64 := (in_u 64).
Notation u32 := (in_u 32).
Notation u16 := (in_u 16).
Notation u8 := (in_u 8).
Notation i32 := (in_i 32).
Notation i64 := (in_i 64).

(** The value of [static_cast<size_t>(-1)]: [std::string::npos] and the like. *)
Definition size_max : Z := 2 ^ 64 - 1.

#[global] Instance in_u_dec w x : Decision (in_u w x).
Proof. unfold in_u; apply _. Defined.
#[global] Instance in_i_dec w x : Decision (in_i w x).
Proof. unfold in_i; apply _. Defined.

(** ** Outcomes of C++ code

    A call returns, throws, runs into undefined behaviour (an out-of-range
    access, a failed assertion, a signed overflow, a division by zero), or is cut
    off because a loop used up the fuel of the model.  The last case is always
    excluded by a theorem. *)

Inductive exn :=
| logic_error
| invalid_argument
| out_of_range
| length_error
| runtime_error
| pool_exhausted
| bad_function_call
| check_failure.

#[global] Instance exn_eq_dec : EqDecision exn.
Proof. solve_decision. Defined.

Inductive outcome (A : Type) :=
| Ok (a : A)
| Throw (e : exn)
| Undef
| OutOfFuel.
Arguments Ok {A} a.
Arguments Throw {A} e.
Arguments Undef {A}.
Arguments OutOfFuel {A}.

#[global] Instance outcome_ret : MRet outcome := @Ok.
#[global] Instance outcome_bind : MBind outcome := fun A B k m =>
  match m with
  | Ok a => k a
  | Throw e => Throw e
  | Undef => Undef
  | OutOfFuel => OutOfFuel
  end.

(** An access that is undefined when it is out of range. *)
Definition the {A} (o : option A) : outcome A :=
  match o with Some a => Ok a | None => Undef end.

(** [assert(cond)] in a debug build. *)
Definition assert (cond : bool) : outcome unit := if cond then Ok tt else Undef.

(** [ENSURE(CHECK, cond).Require()] of the kbase library: a failed check is reported by an exception. *)
Definition ensure_check (cond : bool) : outcome unit :=
  if cond then Ok tt else Throw check_failure.

Definition is_ok {A} (m : outcome A) : bool :=
  match m with Ok _ => true | _ => false end.

Lemma bind_ok {A B} (a : A) (k : A -> outcome B) : (Ok a ≫= k) = k a.
Proof. reflexivity. Qed.

Lemma ensure_check_true b : b = true -> ensure_check b = Ok tt.
Proof. by intros ->. Qed.

Lemma bind_inv {A B} (m : outcome A) (k : A -> outcome B) b :
  (m ≫= k) = Ok b -> exists a, m = Ok a /\ k a = Ok b.
Proof. destruct m; simpl; try discriminate; eauto. Qed.

Lemma the_inv {A} (o : option A) a : the o = Ok a <-> o = Some a.
Proof. destruct o; simpl; split; congruence. Qed.

(** Splits a hypothesis [m ≫= k = Ok b] into its steps. *)
Ltac inv_ok H :=
  repeat match type of H with
  | (_ ≫= _) = Ok _ =>
      let a := fresh "a" in let Ha := fresh "Ha" in
      apply bind_inv in H; destruct H as (a & Ha & H)
  end.

(** The result of a signed 64-bit operation: undefined outside of the type. *)
Definition int64 (x : Z) : outcome Z := if decide (i64 x) then Ok x else Undef.

Lemma int64_ok x : - 2 ^ 63 <= x < 2 ^ 63 -> int64 x = Ok x.
Proof. intros H. unfold int64. by rewrite decide_True. Qed.

(** Turns boolean comparisons on [Z] into propositions. *)
Ltac zify_bool :=
  repeat match goal with
  | H : (_ <? _) = true |- _ => apply Z.ltb_lt in H
  | H : (_ <? _) = false |- _ => apply Z.ltb_ge in H
  | H : (_ <=? _) = true |- _ => apply Z.leb_le in H
  | H : (_ <=? _) = false |- _ => apply Z.leb_gt in H
  | H : (_ =? _) = true |- _ => apply Z.eqb_eq in H
  | H : (_ =? _) = false |- _ => apply Z.eqb_neq in H
  end.

Ltac case_bool :=
  match goal with
  | |- context [if ?b then _ else _] =>
      let E := fresh "E" in destruct b eqn:E; zify_bool
  end.

Lemma wrap_small w x : in_u w x -> wrap w x = x.
Proof. apply Z.mod_small. Qed.

Lemma wrap_range w x : 0 <= w -> in_u w (wrap w x).
Proof. intros Hw. apply Z.mod_pos_bound. by apply Z.pow_pos_nonneg. Qed.

(** Removes the wrap-arounds that [lia] shows not to happen, innermost first. *)
Ltac unwrap :=
  repeat match goal with
  | |- context [wrap ?w ?x] =>
      lazymatch x with
      | context [wrap _ _] => fail
      | _ => rewrite (wrap_small w x) by (unfold in_u in *; lia)
      end
  end.

(** ** Bit fields *)

Lemma lor_add k x y : 0 <= k -> 0 <= y < 2 ^ k -> Z.lor (x * 2 ^ k) y = x * 2 ^ k + y.
Proof.
  intros Hk Hy. assert (Hland : Z.land (x * 2 ^ k) y = 0).
  { apply Z.bits_inj'. intros n Hn. rewrite Z.land_spec, Z.bits_0.
    destruct (Z.lt_ge_cases n k).
    - by rewrite Z.mul_pow2_bits_low.
    - rewrite <- (Z.mod_small y (2 ^ k)), Z.mod_pow2_bits_high, andb_false_r by lia. done. }
  pose proof (Z.add_lor_land (x * 2 ^ k) y). lia.
Qed.

(** A mask of [w] ones from bit [k]. *)
Lemma land_mask x k w :
  0 <= k -> 0 <= w -> Z.land x (Z.shiftl (Z.ones w) k) = (x / 2 ^ k) mod 2 ^ w * 2 ^ k.
Proof.
  intros Hk Hw. rewrite <- Z.land_ones, <- Z.shiftr_div_pow2, <- Z.shiftl_mul_pow2 by lia.
  apply Z.bits_inj'. intros n Hn. rewrite Z.land_spec.
  destruct (Z.lt_ge_cases n k).
  - by rewrite !Z.shiftl_spec_low, andb_false_r by lia.
  - rewrite !Z.shiftl_spec, Z.land_spec, Z.shiftr_spec by lia.
    by replace (n - k + k) with n by lia.
Qed.

(** ** Characters and strings

    A [char] is an [ascii]; a [std::string] or [std::string_view] is the list of
    its characters. *)

Notation str := (list ascii).
Definition lit (s : String.string) : str := String.list_ascii_of_string s.

(** [static_cast<unsigned char>(c)] *)
Definition uchar (c : ascii) : Z := Z.of_N (N_of_ascii c).
Definition chr (z : Z) : ascii := ascii_of_N (Z.to_N z).

Lemma uchar_range c : 0 <= uchar c < 256.
Proof. unfold uchar. pose proof (N_ascii_bounded c). lia. Qed.

Lemma chr_uchar c : chr (uchar c) = c.
Proof. unfold chr, uchar. rewrite N2Z.id. apply ascii_N_embedding. Qed.

Lemma uchar_chr z : u8 z -> uchar (chr z) = z.
Proof.
  unfold in_u, chr, uchar; intros Hz. rewrite N_ascii_embedding; lia.
Qed.

#[global] Instance uchar_inj : Inj (=) (=) uchar.
Proof. intros a b H. rewrite <- (chr_uchar a), H. apply chr_uchar. Qed.

(** [std::string::find(char)]: the first index of [c], [None] for [npos]. *)
Fixpoint find_char (c : ascii) (s : str) : option nat :=
  match s with
  | [] => None
  | x :: s' => if decide (x = c) then Some 0%nat else S <$> find_char c s'
  end.

Lemma find_char_lookup c s i : find_char c s = Some i -> s !! i = Some c.
Proof.
  revert i; induction s as [|x s IH]; intros i; simpl; [discriminate|].
  case_decide; [intros [= <-]; simpl; congruence|].
  destruct (find_char c s) as [k|]; simpl; [intros [= <-]; simpl; auto|discriminate].
Qed.

Lemma find_char_None c s : find_char c s = None <-> c ∉ s.
Proof.
  induction s as [|x s IH]; simpl; [split; [intros _; apply not_elem_of_nil|done]|].
  rewrite not_elem_of_cons. case_decide; [split; [done|naive_solver]|].
  rewrite fmap_None, IH. naive_solver.
Qed.

Lemma find_char_NoDup c s i : NoDup s -> s !! i = Some c -> find_char c s = Some i.
Proof.
  intros Hnd Hi. destruct (find_char c s) as [k|] eqn:E.
  - apply find_char_lookup in E. f_equal. by eapply NoDup_lookup.
  - apply find_char_None in E. exfalso. apply E, list_elem_of_lookup; eauto.
Qed.

(** [s.starts_with(p)] of [std::string_view]. *)
Fixpoint has_prefix (s p : str) : bool :=
  match p, s with
  | [], _ => true
  | a :: p, b :: s => bool_decide (a = b) && has_prefix s p
  | _ :: _, [] => false
  end.

Lemma has_prefix_spec s : forall p, has_prefix s p = true <-> p `prefix_of` s.
Proof.
  induction s as [|b s IH]; intros [|a p]; simpl.
  - split; [intros _; apply prefix_nil|done].
  - split; [done|]. by intros ?%prefix_nil_inv.
  - split; [intros _; apply prefix_nil|done].
  - rewrite andb_true_iff, bool_decide_eq_true, IH. split.
    + intros [-> H]. by apply prefix_cons.
    + intros H. split; [by eapply prefix_cons_inv_1|by eapply prefix_cons_inv_2].
Qed.

Lemma has_prefix_app p s : has_prefix (p ++ s) p = true.
Proof. apply has_prefix_spec. by exists s. Qed.

Lemma has_prefix_extend p : forall s t, (length p <= length s)%nat -> has_prefix (s ++ t) p = has_prefix s p.
Proof.
  induction p as [|a p IH]; intros [|b s] t Hl; simpl in *; [by destruct t|done|lia|].
  by rewrite IH by lia.
Qed.

(** ** Lists updated in place *)

(** [std::swap(s[i], s[j])]: undefined when an index is out of range. *)
Definition swap_at {A} (i j : nat) (s : list A) : outcome (list A) :=
  x ← the (s !! i); y ← the (s !! j); Ok (<[i := y]> (<[j := x]> s)).

Lemma swap_at_perm {A} i j (s s' : list A) : swap_at i j s = Ok s' -> s' ≡ₚ s.
Proof.
  unfold swap_at; intros H. destruct (s !! i) as [x|] eqn:Hi; [|discriminate].
  destruct (s !! j) as [y|] eqn:Hj; [|discriminate]. simpl in H. injection H as <-.
  destruct (decide (i = j)) as [->|Hij].
  { rewrite Hi in Hj; injection Hj as ->. rewrite list_insert_insert_eq.
    by rewrite list_insert_id. }
  apply Permutation_inj. split; [by rewrite !length_insert|].
  exists (fun k => if decide (k = i) then j else if decide (k = j) then i else k).
  split.
  - intros a b. repeat case_decide; congruence.
  - intros k. case_decide; [subst k|case_decide; [subst k|]].
    + rewrite list_lookup_insert_eq; [congruence|].
      rewrite length_insert. by eapply lookup_lt_Some.
    + rewrite list_lookup_insert_ne by congruence.
      rewrite list_lookup_insert_eq; [congruence|]. by eapply lookup_lt_Some.
    + by rewrite !list_lookup_insert_ne by congruence.
Qed.

Lemma swap_at_total {A} i j (s : list A) :
  (i < length s)%nat -> (j < length s)%nat -> exists s', swap_at i j s = Ok s'.
Proof.
  intros [x Hx]%lookup_lt_is_Some [y Hy]%lookup_lt_is_Some.
  unfold swap_at. rewrite Hx, Hy. simpl. eauto.
Qed.

Lemma elem_of_take {A} (x : A) n l : x ∈ take n l -> x ∈ l.
Proof.
  intros H. rewrite <- (take_drop n l). apply elem_of_app. by left.
Qed.

Lemma elem_of_drop {A} (x : A) n l : x ∈ drop n l -> x ∈ l.
Proof.
  intros H. rewrite <- (take_drop n l). apply elem_of_app. by right.
Qed.

Lemma filter_nil_Forall {A} (P : A -> Prop) `{!forall x, Decision (P x)} (l : list A) :
  filter P l = [] <-> Forall (fun x => ~ P x) l.
Proof.
  induction l as [|x l IH]; simpl; [by split|].
  rewrite filter_cons, Forall_cons. case_decide; naive_solver.
Qed.

Lemma nonempty_length {A} (l : list A) : (0 < length l)%nat -> l <> [].
Proof. destruct l; simpl; [lia|done]. Qed.

Lemma elem_of_flat_map {A B} (f : A -> list B) l b :
  b ∈ flat_map f l <-> exists i x, l !! i = Some x /\ b ∈ f x.
Proof.
  rewrite list_elem_of_In, in_flat_map. setoid_rewrite <- list_elem_of_In.
  setoid_rewrite list_elem_of_lookup. naive_solver.
Qed.

Lemma NoDup_flat_map {A B} (f : A -> list B) l :
  (forall i x, l !! i = Some x -> NoDup (f x)) ->
  (forall i j x y b, l !! i = Some x -> l !! j = Some y -> b ∈ f x -> b ∈ f y -> i = j) ->
  NoDup (flat_map f l).
Proof.
  induction l as [|x l IH]; intros Hnd Hd; simpl; [constructor|].
  apply NoDup_app. split_and!.
  - by apply (Hnd 0%nat).
  - intros b Hb (j & y & Hj & Hy)%elem_of_flat_map.
    by specialize (Hd 0%nat (S j) x y b eq_refl Hj Hb Hy).
  - apply IH; [intros i; apply (Hnd (S i))|]. intros i j y z b Hi Hj Hy Hz.
    specialize (Hd (S i) (S j) y z b Hi Hj Hy Hz). lia.
Qed.

(** ** Vectors indexed by [size_t] *)

Definition vat {A} (v : list A) (i : Z) : option A :=
  if 0 <=? i then v !! Z.to_nat i else None.

(** [v[i]] and [v[i] = x]: undefined when [i] is out of range. *)
Definition vec_get {A} (v : list A) (i : Z) : outcome A := the (vat v i).
Definition vec_set {A} (v : list A) (i : Z) (x : A) : outcome (list A) :=
  match vat v i with Some _ => Ok (<[Z.to_nat i := x]> v) | None => Undef end.

Lemma vat_range {A} (v : list A) i : is_Some (vat v i) <-> 0 <= i < Z.of_nat (length v).
Proof.
  unfold vat. case_bool; [|split; [intros [? ?]; discriminate|lia]].
  rewrite lookup_lt_is_Some. lia.
Qed.

Lemma vat_lt {A} (v : list A) i x : vat v i = Some x -> 0 <= i < Z.of_nat (length v).
Proof. intros H. apply vat_range. eauto. Qed.

Lemma vat_nat {A} (v : list A) (i : nat) : vat v (Z.of_nat i) = v !! i.
Proof. unfold vat. rewrite Nat2Z.id. case_bool; [done|lia]. Qed.

Lemma vat_pos {A} (v : list A) i : 0 <= i -> vat v i = v !! Z.to_nat i.
Proof. intros H. unfold vat. case_bool; [done|lia]. Qed.

Lemma vec_get_ok {A} (v : list A) i x : vat v i = Some x -> vec_get v i = Ok x.
Proof. unfold vec_get. by intros ->. Qed.

Lemma vec_set_ok {A} (v : list A) i x :
  0 <= i < Z.of_nat (length v) -> vec_set v i x = Ok (<[Z.to_nat i := x]> v).
Proof. intros H. unfold vec_set. apply vat_range in H as [y ->]. done. Qed.

Lemma vec_get_undef {A} (v : list A) i : Z.of_nat (length v) <= i -> vec_get v i = Undef.
Proof.
  intros H. unfold vec_get. destruct (vat v i) eqn:E; [|done]. apply vat_lt in E. lia.
Qed.

Lemma vat_set_eq {A} (v : list A) i x :
  0 <= i < Z.of_nat (length v) -> vat (<[Z.to_nat i := x]> v) i = Some x.
Proof. intros H. rewrite vat_pos by lia. apply list_lookup_insert_eq. lia. Qed.

Lemma vat_set_ne {A} (v : list A) i j x :
  0 <= i -> i <> j -> vat (<[Z.to_nat i := x]> v) j = vat v j.
Proof. intros H Hij. unfold vat. case_bool; [|done]. apply list_lookup_insert_ne. lia. Qed.

(** ** Automation *)

Create HintDb eureka.
#[export] Hint Resolve uchar_range elem_of_take elem_of_drop : eureka.
#[export] Hint Rewrite @bind_ok : eureka.
