(* ===== verification/Text.v ===== *)
(** * Text: hexadecimal numbers

    What the components use of the C++ library for hexadecimal text: the digits,
    [std::stoull] in base 16 and [printf]'s [%0*llx]. *)

From S2P Require Import Prelude.

(** The digits [std::stoull(_, _, 16)] accepts. *)
Definition hex_value (c : ascii) : option Z :=
  let n := uchar c in
  if (48 <=? n) && (n <=? 57) then Some (n - 48)
  else if (97 <=? n) && (n <=? 102) then Some (n - 87)
  else if (65 <=? n) && (n <=? 70) then Some (n - 55)
  else None.

(** The value of the longest prefix of hexadecimal digits and its length. *)
Fixpoint hex_prefix (s : str) (acc : Z) : Z * nat :=
  match s with
  | [] => (acc, 0%nat)
  | c :: s =>
      match hex_value c with
      | None => (acc, 0%nat)
      | Some d => let '(v, n) := hex_prefix s (acc * 16 + d) in (v, S n)
      end
  end.

Fixpoint hex_digits_value (digits : str) (acc : Z) : Z :=
  match digits with
  | [] => acc
  | c :: rest => hex_digits_value rest (acc * 16 + default 0 (hex_value c))
  end.

Definition lower_hex (c : ascii) : Prop :=
  48 <= uchar c <= 57 \/ 97 <= uchar c <= 102.

Definition hex_digit (d : Z) : ascii := chr (if d <? 10 then d + 48 else d + 87).

(** ** Parsing *)

(** The white space [strtoull] skips. *)
Definition is_space (c : ascii) : bool :=
  let n := uchar c in (n =? 32) || ((9 <=? n) && (n <=? 13)).

Fixpoint skip_space (s : str) : str :=
  match s with c :: s' => if is_space c then skip_space s' else s | [] => [] end.

(** [0x] is skipped when a digit follows. *)
Definition skip_0x (s : str) : str :=
  match s with
  | z :: x :: c :: s' =>
      if bool_decide (z = chr 48) && bool_decide (x = chr 120 \/ x = chr 88) &&
         bool_decide (is_Some (hex_value c))
      then c :: s' else s
  | _ => s
  end.

(** [std::stoull(s, nullptr, 16)]: white space, an optional sign, an optional [0x],
    and the longest prefix of digits; a minus sign negates modulo 2^64. *)
Definition stoull_hex (s : str) : outcome Z :=
  let s := skip_space s in
  let '(negative, s) :=
    match s with
    | c :: s' => if decide (c = chr 45) then (true, s')
                 else if decide (c = chr 43) then (false, s') else (false, s)
    | [] => (false, [])
    end in
  let '(v, n) := hex_prefix (skip_0x s) 0 in
  if decide (n = 0%nat) then Throw invalid_argument
  else if decide (u64 v) then Ok (if negative : bool then wrap 64 (- v) else v)
  else Throw out_of_range.

(** ** Printing *)

(** The digits of [n], none for 0; 16 digits are enough for 64 bits. *)
Fixpoint hex_digits (fuel : nat) (n : Z) : str :=
  match fuel with
  | O => []
  | S fuel => if n =? 0 then [] else hex_digits fuel (n / 16) ++ [hex_digit (n mod 16)]
  end.

(** [printf("%0*llx", width, n)] *)
Definition print_hex (width : nat) (n : Z) : str :=
  let digits := if n =? 0 then [chr 48] else hex_digits 16 n in
  replicate (width - length digits) (chr 48) ++ digits.

(** ** Lemmas *)

Lemma lower_hex_digit c :
  lower_hex c -> exists d, hex_value c = Some d /\
    (0 <= d < 10 /\ uchar c = d + 48 \/ 10 <= d < 16 /\ uchar c = d + 87).
Proof.
  unfold lower_hex, hex_value. intros H.
  destruct H as [H|H].
  - exists (uchar c - 48). rewrite (proj2 (Z.leb_le 48 _)), (proj2 (Z.leb_le _ 57)) by lia.
    split; [done|lia].
  - exists (uchar c - 87). rewrite (proj2 (Z.leb_gt _ 57)), andb_false_r by lia.
    rewrite (proj2 (Z.leb_le 97 _)), (proj2 (Z.leb_le _ 102)) by lia. split; [done|lia].
Qed.

Lemma lower_hex_value c : lower_hex c -> exists d, hex_value c = Some d /\ 0 <= d < 16.
Proof. intros (d & Hd & ?)%lower_hex_digit. exists d. split; [done|lia]. Qed.

Lemma hex_prefix_spec s acc :
  Forall lower_hex s -> 0 <= acc ->
  hex_prefix s acc = (hex_digits_value s acc, length s) /\
  0 <= hex_digits_value s acc < (acc + 1) * 16 ^ Z.of_nat (length s).
Proof.
  intros Hs. revert acc. induction Hs as [|c s Hc Hs IH]; intros acc Hacc.
  { simpl. split; [done|lia]. }
  destruct (lower_hex_value c Hc) as (d & Hd & Hr).
  cbn [hex_prefix hex_digits_value]. rewrite Hd. cbn [default].
  destruct (IH (acc * 16 + d) ltac:(lia)) as [-> Hb]. split; [done|].
  simpl length. rewrite Nat2Z.inj_succ, Z.pow_succ_r by lia.
  assert (0 < 16 ^ Z.of_nat (length s)) by (apply Z.pow_pos_nonneg; lia). simpl. nia.
Qed.

Lemma hex_digit_value c :
  lower_hex c -> hex_digit (default 0 (hex_value c)) = c.
Proof.
  intros (d & -> & Hd)%lower_hex_digit. simpl. unfold hex_digit.
  rewrite <- (chr_uchar c). f_equal. case_bool; lia.
Qed.

Lemma hex_digits_value_app s t acc :
  hex_digits_value (s ++ t) acc = hex_digits_value t (hex_digits_value s acc).
Proof. revert acc. induction s; intros; simpl; auto. Qed.


(** A number in exactly [w] digits. *)
Fixpoint fixed_hex (w : nat) (n : Z) : str :=
  match w with
  | O => []
  | S w => fixed_hex w (n / 16) ++ [hex_digit (n mod 16)]
  end.

Lemma hex_digit_ok d : 0 <= d < 16 -> lower_hex (hex_digit d) /\ hex_value (hex_digit d) = Some d.
Proof.
  intros Hd. unfold lower_hex, hex_value, hex_digit.
  rewrite uchar_chr by (unfold in_u; case_bool; lia). case_bool.
  - split; [lia|]. rewrite (proj2 (Z.leb_le 48 _)), (proj2 (Z.leb_le _ 57)) by lia. simpl. f_equal. lia.
  - split; [lia|]. rewrite (proj2 (Z.leb_gt _ 57)), andb_false_r by lia.
    rewrite (proj2 (Z.leb_le 97 _)), (proj2 (Z.leb_le _ 102)) by lia. simpl. f_equal. lia.
Qed.

Lemma length_fixed_hex w n : length (fixed_hex w n) = w.
Proof. revert n. induction w; intros n; simpl; [done|]. rewrite length_app, IHw. simpl. lia. Qed.

Lemma fixed_hex_lower w n : Forall lower_hex (fixed_hex w n).
Proof.
  revert n. induction w as [|w IH]; intros n; simpl; [constructor|].
  apply Forall_app. split; [done|]. constructor; [|constructor].
  apply hex_digit_ok, Z.mod_pos_bound. lia.
Qed.

Lemma fixed_hex_value w n : 0 <= n < 16 ^ Z.of_nat w -> hex_digits_value (fixed_hex w n) 0 = n.
Proof.
  revert n. induction w as [|w IH]; intros n Hn; [simpl in *; lia|].
  rewrite Nat2Z.inj_succ, Z.pow_succ_r in Hn by lia. cbn [fixed_hex].
  rewrite hex_digits_value_app, IH by (Z.to_euclidean_division_equations; lia).
  cbn [hex_digits_value]. rewrite (proj2 (hex_digit_ok (n mod 16) ltac:(apply Z.mod_pos_bound; lia))).
  simpl. pose proof (Z.div_mod n 16). lia.
Qed.

Lemma fixed_hex_0 w : fixed_hex w 0 = replicate w (chr 48).
Proof.
  induction w as [|w IH]; [done|]. cbn [fixed_hex]. rewrite Z.div_0_l, IH by lia.
  change (hex_digit (0 mod 16)) with (chr 48). by rewrite replicate_S_end.
Qed.

Lemma hex_digits_fixed fuel w n :
  0 <= n < 16 ^ Z.of_nat w -> (w <= fuel)%nat ->
  (length (hex_digits fuel n) <= w)%nat /\
  fixed_hex w n = replicate (w - length (hex_digits fuel n)) (chr 48) ++ hex_digits fuel n.
Proof.
  revert w n. induction fuel as [|fuel IH]; intros w n Hn Hw.
  { assert (w = 0%nat) as -> by lia. done. }
  cbn [hex_digits]. destruct (Z.eqb_spec n 0) as [->|Hne].
  { rewrite fixed_hex_0, app_nil_r. simpl. rewrite Nat.sub_0_r. split; [lia|done]. }
  destruct w as [|w]; [simpl in Hn; lia|].
  rewrite Nat2Z.inj_succ, Z.pow_succ_r in Hn by lia.
  destruct (IH w (n / 16)) as [Hl He]; [Z.to_euclidean_division_equations; lia|lia|].
  rewrite length_app. cbn [fixed_hex length]. split; [lia|]. rewrite He, <- app_assoc.
  do 2 f_equal. lia.
Qed.

(** A number that fits is printed in exactly [width] digits. *)
Lemma print_hex_fixed w n :
  (0 < w <= 16)%nat -> 0 <= n < 16 ^ Z.of_nat w -> print_hex w n = fixed_hex w n.
Proof.
  intros Hw Hn. unfold print_hex. destruct (Z.eqb_spec n 0) as [->|Hne].
  - rewrite fixed_hex_0. simpl. rewrite <- replicate_S_end. f_equal. lia.
  - symmetry. apply hex_digits_fixed; [done|lia].
Qed.

Lemma lower_hex_not c d : lower_hex c -> uchar d < 48 \/ 57 < uchar d < 97 \/ 102 < uchar d -> c <> d.
Proof. unfold lower_hex. intros H Hd ->. lia. Qed.

(** ... and read back, when followed by nothing. *)
Lemma stoull_hex_lower s :
  s <> [] -> Forall lower_hex s -> (length s <= 16)%nat -> stoull_hex s = Ok (hex_digits_value s 0).
Proof.
  intros Hne Hs Hl. unfold stoull_hex.
  assert (Hskip : skip_space s = s).
  { destruct Hs as [|c s Hc _]; [done|]. cbn [skip_space].
    replace (is_space c) with false; [done|]. unfold is_space, lower_hex in *.
    symmetry. apply orb_false_iff. split; [apply Z.eqb_neq; lia|].
    apply andb_false_iff. right. apply Z.leb_gt. lia. }
  rewrite Hskip. destruct Hs as [|c s Hc Hs]; [done|].
  rewrite decide_False by (apply (lower_hex_not c); [done|vm_compute; by left]).
  rewrite decide_False by (apply (lower_hex_not c); [done|vm_compute; by left]).
  assert (H0x : skip_0x (c :: s) = c :: s).
  { destruct Hs as [|x s Hx Hs']; [done|]. destruct s as [|y s]; [done|]. cbn [skip_0x].
    rewrite (bool_decide_false (x = _ \/ _)), andb_false_r; [done|].
    intros [H|H]; revert H; apply (lower_hex_not x); try done; vm_compute; auto. }
  rewrite H0x. assert (Hcs : Forall lower_hex (c :: s)) by (by constructor).
  destruct (hex_prefix_spec (c :: s) 0 Hcs ltac:(lia)) as [-> Hb].
  rewrite decide_False by done. rewrite decide_True; [done|].
  assert (16 ^ Z.of_nat (length (c :: s)) <= 16 ^ 16) by (apply Z.pow_le_mono_r; lia).
  unfold in_u. lia.
Qed.
