(* ===== verification/Hashids.v ===== *)
(** * hashids: short ids for sequences of 64-bit numbers

    Models hashids/hashids/hashids.{h,cpp}: the salted shuffle, the positional
    encoding over a shuffled alphabet, the guards that pad an id to a minimum
    length, the constructor that splits an alphabet into content characters,
    separators and guards, and [encode], [decode], [encode_hex], [decode_hex].
    The tokenizer of the esl library and fmt's hexadecimal formatting are
    parameters (class [EslFmt]), with their documented behaviour as class
    [EslFmtOk]. *)

From S2P Require Import Prelude Text.

(** ** Constants *)

Definition default_alphabet : str :=
  lit "abcdefghijklmnopqrstuvwxyzABCDEFGHIJKLMNOPQRSTUVWXYZ1234567890".
Definition base_separators : str := lit "cfhistuCFHISTU".

(** ** The shuffle *)

(** One iteration swaps [str[i]] and [str[j]]; [sum] is an [int]. *)
Fixpoint reorder_loop (salt : str) (i : nat) (salt_idx sum : Z) (s : str) : outcome str :=
  match i with
  | O => Ok s
  | S i' =>
      c ← the (salt !! Z.to_nat salt_idx);
      let n := uchar c in
      let sum := sum + n in
      if decide (i32 (n + sum)) then
        let j := wrap 64 (salt_idx + (n + sum)) mod Z.of_nat i in
        s ← swap_at i (Z.to_nat j) s;
        reorder_loop salt i' ((salt_idx + 1) mod Z.of_nat (length salt)) sum s
      else Undef
  end.

(** [str.size() - 1] is unsigned: for an empty [str] the first iteration has
    [i = SIZE_MAX] and accesses [str[i]] out of range. *)
Definition reorder (salt s : str) : outcome str :=
  match salt with
  | [] => Ok s
  | _ =>
      let i := wrap 64 (Z.of_nat (length s) - 1) in
      if i <? Z.of_nat (length s) then reorder_loop salt (Z.to_nat i) 0 0 s
      else Undef
  end.

#[global] Arguments reorder : simpl never.

Definition make_alphabet_salt (lottery : ascii) (salt alphabet : str) : str :=
  let s := lottery :: take (Nat.min (length alphabet - 1) (length salt)) salt in
  s ++ take (length alphabet - length s) alphabet.

(** ** Numbers to strings and back *)

(** The characters pushed by the do-while loop, in push order. *)
Fixpoint hash_number_loop (fuel : nat) (number : Z) (alphabet : str) : outcome str :=
  match fuel with
  | O => OutOfFuel
  | S fuel =>
      ch ← the (alphabet !! Z.to_nat (number mod Z.of_nat (length alphabet)));
      let number := number / Z.of_nat (length alphabet) in
      if number =? 0 then Ok [ch]
      else hashed ← hash_number_loop fuel number alphabet; Ok (ch :: hashed)
  end.

Definition hash_number (number : Z) (alphabet : str) : outcome str :=
  hashed ← hash_number_loop 64 number alphabet; Ok (rev hashed).

(** [alphabet.find(c)] as a number: [npos] when [c] is absent. *)
Definition find_pos (alphabet : str) (c : ascii) : Z :=
  match find_char c alphabet with Some i => Z.of_nat i | None => size_max end.

Definition unhash (hashed alphabet : str) : Z :=
  fold_left (fun num c =>
    wrap 64 (wrap 64 (num * Z.of_nat (length alphabet)) + find_pos alphabet c)) hashed 0.

(** ** Padding to a minimum length *)

(** Each round adds a whole shuffled alphabet around the id and trims the excess. *)
Fixpoint pad_loop (fuel : nat) (min_len mid : nat) (alphabet encoded : str) : outcome str :=
  if decide (length encoded < min_len)%nat then
    match fuel with
    | O => OutOfFuel
    | S fuel =>
        alphabet ← reorder alphabet alphabet;
        let encoded := drop mid alphabet ++ encoded ++ take mid alphabet in
        let encoded :=
          if decide (min_len < length encoded)%nat then
            let excess := (length encoded - min_len)%nat in
            take min_len (drop (excess / 2) encoded)
          else encoded in
        pad_loop fuel min_len mid alphabet encoded
    end
  else Ok encoded.

Definition ensure_minimum_length (value_hash : Z) (min_len : nat)
    (prev_alphabet guards encoded : str) : outcome str :=
  if decide (2 <= length encoded)%nat then
    let guards_size := Z.of_nat (length guards) in
    c0 ← the (encoded !! 0%nat);
    g ← the (guards !! Z.to_nat (wrap 64 (value_hash + uchar c0) mod guards_size));
    let encoded := g :: encoded in
    if decide (min_len <= length encoded)%nat then Ok encoded
    else
      c2 ← the (encoded !! 2%nat);
      g ← the (guards !! Z.to_nat (wrap 64 (value_hash + uchar c2) mod guards_size));
      pad_loop min_len min_len (length prev_alphabet / 2) prev_alphabet (encoded ++ [g])
  else Undef.

(** ** The class *)

Record options := mk_options {
  opt_salt : str;
  custom_alphabet : str;
  minimum_length : nat
}.

Record hashids := mk_hashids {
  min_len_ : nat;
  salt_ : str;
  alphabet_ : str;
  separators_ : str;
  guards_ : str
}.

(** [std::remove_if] with the predicate that remembers the characters [seen]. *)
Fixpoint remove_seen (separators seen alphabet : str) : str :=
  match alphabet with
  | [] => []
  | ch :: rest =>
      if decide (ch ∈ seen \/ ch ∈ separators) then remove_seen separators (ch :: seen) rest
      else ch :: remove_seen separators (ch :: seen) rest
  end.

(** [ceil(n / 3.5)] and [ceil(n / 12.)]; the quotient of an alphabet's size is
    either an integer or at least 1/12 away from one, so the doubles round to
    the same integers. *)
Definition ceil_sep_ratio (n : nat) : nat := ((2 * n + 6) / 7)%nat.
Definition ceil_guard_ratio (n : nat) : nat := ((n + 11) / 12)%nat.

Definition hashids_make (opts : options) : outcome hashids :=
  let alphabet :=
    match custom_alphabet opts with [] => default_alphabet | a => a end in
  let separators := filter (fun ch => ch ∈ alphabet) base_separators in
  let alphabet := remove_seen separators [] alphabet in
  if decide (length separators + length alphabet < 16)%nat then Throw invalid_argument
  else
    separators ← reorder (opt_salt opts) separators;
    let min_seps_cnt := ceil_sep_ratio (length alphabet) in
    let delta := (min_seps_cnt - length separators)%nat in
    let separators := separators ++ take delta alphabet in
    let alphabet := drop delta alphabet in
    alphabet ← reorder (opt_salt opts) alphabet;
    let guards_cnt := ceil_guard_ratio (length alphabet) in
    if decide (length alphabet < 3)%nat then
      Ok (mk_hashids (minimum_length opts) (opt_salt opts) alphabet
            (drop guards_cnt separators) (take guards_cnt separators))
    else
      Ok (mk_hashids (minimum_length opts) (opt_salt opts) (drop guards_cnt alphabet)
            separators (take guards_cnt alphabet)).

(** [value_hash += values[i] % (i + 100U)] over the values. *)
Fixpoint value_hash_loop (i : Z) (values : list Z) (value_hash : Z) : Z :=
  match values with
  | [] => value_hash
  | v :: rest => value_hash_loop (i + 1) rest (wrap 64 (value_hash + v mod (i + 100)))
  end.

(** [number %= static_cast<unsigned char>(hashed[0]) + i] divides by zero when
    the first character is NUL and [i] is 0. *)
Fixpoint encode_loop (h : hashids) (lottery : ascii) (i : Z) (values : list Z)
    (alphabet result : str) : outcome (str * str) :=
  match values with
  | [] => Ok (result, alphabet)
  | number :: rest =>
      alphabet ← reorder (make_alphabet_salt lottery (salt_ h) alphabet) alphabet;
      hashed ← hash_number number alphabet;
      c0 ← the (hashed !! 0%nat);
      let divisor := uchar c0 + i in
      if divisor =? 0 then Undef
      else
        sep ← the (separators_ h !!
                   Z.to_nat ((number mod divisor) mod Z.of_nat (length (separators_ h))));
        encode_loop h lottery (i + 1) rest alphabet (result ++ hashed ++ [sep])
  end.

(** [result.pop_back()] *)
Definition pop_back (s : str) : str := take (length s - 1) s.

Definition encode (h : hashids) (values : list Z) : outcome str :=
  match values with
  | [] => Ok []
  | _ =>
      let value_hash := value_hash_loop 0 values 0 in
      lottery ← the (alphabet_ h !!
                     Z.to_nat (value_hash mod Z.of_nat (length (alphabet_ h))));
      '(result, alphabet) ← encode_loop h lottery 0 values (alphabet_ h) [lottery];
      let result := pop_back result in
      if decide (length result < min_len_ h)%nat then
        ensure_minimum_length value_hash (min_len_ h) alphabet (guards_ h) result
      else Ok result
  end.

(** *** Decoding, over the esl tokenizer and fmt *)

(** The functions of esl and fmt the class calls. *)
Class EslFmt := {
  split_by_any_char : str -> str -> list str;  (* delimiters, text *)
  split_by_length : nat -> str -> list str;
  format_hex : Z -> str                         (* fmt::format("{:x}", n) *)
}.

Section Decode.
Context {E : EslFmt}.

Fixpoint unhash_loop (h : hashids) (lottery : ascii) (parts : list str) (alphabet : str)
    : outcome (list Z) :=
  match parts with
  | [] => Ok []
  | hashed :: rest =>
      alphabet ← reorder (make_alphabet_salt lottery (salt_ h) alphabet) alphabet;
      nums ← unhash_loop h lottery rest alphabet;
      Ok (unhash hashed alphabet :: nums)
  end.

Definition decode (h : hashids) (hashid : str) : outcome (list Z) :=
  match hashid with
  | [] => Ok []
  | _ =>
      encoded ← match split_by_any_char (guards_ h) hashid with
                | [p0] => Ok p0
                | [_; p1] => Ok p1
                | [_; p1; _] => Ok p1
                | _ => Throw invalid_argument
                end;
      match encoded with
      | [] => Throw invalid_argument
      | lottery :: encoded =>
          nums ← unhash_loop h lottery (split_by_any_char (separators_ h) encoded) (alphabet_ h);
          again ← encode h nums;
          if decide (again = hashid) then Ok nums else Throw invalid_argument
      end
  end.





End Decode.


(** What hashids relies on of the two libraries: a split cuts the text at every
    delimiter and keeps empty tokens between delimiters (an empty text gives no
    token or one empty token); a split by length cuts chunks of that length;
    [{:x}] prints lower-case hexadecimal digits, most significant first, without
    leading zeros. *)
Class EslFmtOk (E : EslFmt) : Prop := {
  split_empty ds : split_by_any_char ds [] = [] \/ split_by_any_char ds [] = [[]];
  split_none ds s :
    s <> [] -> Forall (fun c => c ∉ ds) s -> split_by_any_char ds s = [s];
  split_at ds s d t :
    Forall (fun c => c ∉ ds) s -> d ∈ ds ->
    split_by_any_char ds (s ++ d :: t) = s :: split_by_any_char ds t;
  split_length_concat n s : (0 < n)%nat -> concat (split_by_length n s) = s;
  split_length_bound n s :
    (0 < n)%nat -> Forall (fun p => (length p <= n)%nat) (split_by_length n s);
  split_length_nonempty n s : (0 < n)%nat -> s <> [] -> split_by_length n s <> [];
  format_hex_spec digits :
    Forall lower_hex digits -> (length digits <= 15)%nat ->
    head digits <> Some (chr 48) -> digits <> [] ->
    format_hex (hex_digits_value digits 0) = digits
}.

(** ** The shuffle is a permutation *)

Lemma NoDup_chars_length (s : str) : NoDup s -> (length s <= 256)%nat.
Proof.
  intros Hnd. assert (H : s ⊆+ map chr (seqZ 0 256)).
  { apply NoDup_submseteq; [done|]. intros c _. apply list_elem_of_In, in_map_iff.
    exists (uchar c). rewrite chr_uchar, <- list_elem_of_In, elem_of_seqZ.
    pose proof (uchar_range c). split; [done|lia]. }
  apply submseteq_length in H. by rewrite length_map, length_seqZ in H.
Qed.

Lemma reorder_loop_perm salt i idx sum s s' :
  reorder_loop salt i idx sum s = Ok s' -> s' ≡ₚ s.
Proof.
  revert idx sum s. induction i as [|i IH]; intros idx sum s H; cbn [reorder_loop] in H.
  { by injection H as <-. }
  inv_ok H. case_decide; [|discriminate]. inv_ok H.
  etrans; [by eapply IH|by eapply swap_at_perm].
Qed.

Lemma reorder_perm salt s s' : reorder salt s = Ok s' -> s' ≡ₚ s.
Proof.
  unfold reorder. destruct salt; [by intros [= ->]|].
  case_bool; [|discriminate]. apply reorder_loop_perm.
Qed.

Lemma reorder_loop_total salt i idx sum s :
  0 <= idx < Z.of_nat (length salt) -> (i < length s)%nat -> 0 <= sum ->
  sum + 255 * Z.of_nat i + 255 < 2 ^ 31 ->
  exists s', reorder_loop salt i idx sum s = Ok s'.
Proof.
  revert idx sum s. induction i as [|i IH]; intros idx sum s Hidx Hi Hsum Hb;
    cbn [reorder_loop]; [by eexists|].
  destruct (lookup_lt_is_Some_2 salt (Z.to_nat idx)) as [c ->]; [lia|].
  cbn [the mbind outcome_bind]. pose proof (uchar_range c).
  rewrite decide_True by (unfold in_i; lia).
  edestruct (@swap_at_total ascii (S i)) as [s2 Hs2]; [exact Hi| |rewrite Hs2].
  { pose proof (Z.mod_pos_bound (wrap 64 (idx + (uchar c + (sum + uchar c))))
                  (Z.of_nat (S i))). lia. }
  cbn [mbind outcome_bind]. apply IH; try lia.
  - apply Z.mod_pos_bound; lia.
  - apply swap_at_perm, Permutation_length in Hs2. lia.
Qed.

(** [reorder] returns on every string short enough for its [int] sum, unless it
    is empty and the salt is not. *)
Lemma reorder_total salt s :
  Z.of_nat (length s) < 2 ^ 22 -> (s <> [] \/ salt = []) ->
  exists s', reorder salt s = Ok s'.
Proof.
  intros Hl Hs. unfold reorder. destruct salt as [|c salt]; [by eexists|].
  destruct s as [|x s]; [naive_solver|].
  unfold wrap. rewrite Z.mod_small by (simpl length in *; lia).
  case_bool; [|lia]. apply reorder_loop_total; simpl length in *; lia.
Qed.

Lemma reorder_salted salt s :
  NoDup s -> s <> [] -> exists s', reorder salt s = Ok s' /\ s' ≡ₚ s.
Proof.
  intros Hnd Hs. apply NoDup_chars_length in Hnd.
  destruct (reorder_total salt s) as [s' Hs']; [lia|by left|].
  eauto using reorder_perm.
Qed.

(** ** Positional encoding *)

Lemma hash_number_loop_total fuel number alphabet :
  (2 <= length alphabet)%nat -> 0 <= number < 2 ^ Z.of_nat fuel -> (0 < fuel)%nat ->
  exists digits, hash_number_loop fuel number alphabet = Ok digits /\ digits <> [] /\
                 Forall (fun c => c ∈ alphabet) digits.
Proof.
  intros Ha. revert number. induction fuel as [|fuel IH]; intros number Hn Hf; [lia|].
  cbn [hash_number_loop]. set (sz := Z.of_nat (length alphabet)) in *.
  assert (0 <= number mod sz < sz) by (apply Z.mod_pos_bound; lia).
  destruct (lookup_lt_is_Some_2 alphabet (Z.to_nat (number mod sz))) as [c Hc]; [lia|].
  assert (c ∈ alphabet) by (apply list_elem_of_lookup; eauto).
  rewrite Hc. cbn [the mbind outcome_bind].
  case_bool; [exists [c]; repeat constructor; done|].
  assert (0 <= number / sz) by (apply Z.div_pos; lia).
  assert (number / sz < 2 ^ Z.of_nat fuel).
  { apply Z.div_lt_upper_bound; [lia|]. rewrite Nat2Z.inj_succ, Z.pow_succ_r in Hn by lia. nia. }
  destruct fuel as [|fuel]; [change (2 ^ Z.of_nat 0) with 1 in *; lia|].
  destruct (IH (number / sz)) as (ds & -> & Hne & Hall); [done|lia|].
  exists (c :: ds). by repeat constructor.
Qed.

Lemma unhash_app s t alphabet :
  unhash (s ++ t) alphabet =
  fold_left (fun num c => wrap 64 (wrap 64 (num * Z.of_nat (length alphabet))
                                   + find_pos alphabet c)) t (unhash s alphabet).
Proof. apply fold_left_app. Qed.

Lemma unhash_hash_loop fuel number alphabet digits :
  NoDup alphabet -> (2 <= length alphabet)%nat -> u64 number ->
  hash_number_loop fuel number alphabet = Ok digits ->
  unhash (rev digits) alphabet = number.
Proof.
  intros Hnd Ha. revert number digits.
  induction fuel as [|fuel IH]; intros number digits Hn H; [discriminate|].
  cbn [hash_number_loop] in H. set (sz := Z.of_nat (length alphabet)) in *. inv_ok H.
  apply the_inv in Ha0. assert (0 <= number mod sz < sz) by (apply Z.mod_pos_bound; lia).
  pose proof (Z.div_mod number sz ltac:(lia)) as Hdm. unfold in_u in Hn.
  assert (Hpos : find_pos alphabet a = number mod sz).
  { unfold find_pos. erewrite find_char_NoDup by eauto. lia. }
  assert (0 <= number / sz <= number).
  { split; [apply Z.div_pos; lia|]. apply Z.div_le_upper_bound; nia. }
  case_match; zify_bool.
  - injection H as <-. cbn. rewrite Hpos. fold sz. unfold wrap.
    rewrite Zmod_0_l, Z.add_0_l, Z.mod_small by lia. lia.
  - inv_ok H. injection H as <-. cbn [rev]. rewrite unhash_app. cbn [fold_left].
    rewrite (IH (number / sz) _ ltac:(unfold in_u; lia) Ha1), Hpos. fold sz. unfold wrap.
    rewrite (Z.mod_small (_ * _)), Z.mod_small by nia. lia.
Qed.

(** Encoding a 64-bit number over an alphabet without duplicates and decoding it
    over the same alphabet is the identity. *)
Lemma hash_number_spec number alphabet :
  NoDup alphabet -> (2 <= length alphabet)%nat -> u64 number ->
  exists hashed, hash_number number alphabet = Ok hashed /\ hashed <> [] /\
    Forall (fun c => c ∈ alphabet) hashed /\ unhash hashed alphabet = number.
Proof.
  intros Hnd Ha Hn.
  destruct (hash_number_loop_total 64 number alphabet) as (ds & Hds & Hne & Hall);
    [done|exact Hn|lia|].
  exists (rev ds). unfold hash_number. rewrite Hds. split; [done|]. split_and!.
  - intros H. apply Hne. by rewrite <- (rev_involutive ds), H.
  - by apply Forall_rev.
  - by eapply unhash_hash_loop.
Qed.

(** ** What the constructor establishes *)

Record hashids_wf (h : hashids) : Prop := {
  wf_nodup : NoDup (alphabet_ h);
  wf_size : (2 <= length (alphabet_ h))%nat;
  wf_separators : separators_ h <> [];
  wf_guards : guards_ h <> [];
  wf_alphabet_sep c : c ∈ alphabet_ h -> c ∉ separators_ h;
  wf_alphabet_guard c : c ∈ alphabet_ h -> c ∉ guards_ h;
  wf_sep_guard c : c ∈ separators_ h -> c ∉ guards_ h
}.

Lemma remove_seen_spec seps seen l c :
  c ∈ remove_seen seps seen l -> c ∈ l /\ c ∉ seen /\ c ∉ seps.
Proof.
  revert seen; induction l as [|x l IH]; intros seen; simpl; [by intros ?%not_elem_of_nil|].
  case_decide as Hx; rewrite ?elem_of_cons.
  - intros (? & Hs & ?)%IH. apply not_elem_of_cons in Hs. naive_solver.
  - intros [->|(? & Hs & ?)%IH]; [naive_solver|]. apply not_elem_of_cons in Hs. naive_solver.
Qed.

Lemma remove_seen_NoDup seps seen l : NoDup (remove_seen seps seen l).
Proof.
  revert seen; induction l as [|x l IH]; intros seen; simpl; [constructor|].
  case_decide; [done|]. constructor; [|done].
  intros (_ & Hs & _)%remove_seen_spec. apply Hs. by left.
Qed.

Lemma base_separators_NoDup : NoDup base_separators.
Proof. apply (bool_decide_unpack _). vm_compute. exact I. Qed.

(** The split of a duplicate-free string into a prefix and the rest. *)
Lemma NoDup_split {A} n (l : list A) :
  NoDup l -> NoDup (take n l) /\ NoDup (drop n l) /\ (forall c, c ∈ take n l -> c ∉ drop n l).
Proof.
  intros H. rewrite <- (take_drop n l) in H at 1. apply NoDup_app in H. naive_solver.
Qed.

Section Make.
Context (opts : options) (h : hashids) (Hmake : hashids_make opts = Ok h).

Let alphabet0 := match custom_alphabet opts with [] => default_alphabet | a => a end.
Let separators0 := filter (fun ch => ch ∈ alphabet0) base_separators.
Let content0 := remove_seen separators0 [] alphabet0.

(** The characters of the three strings are those of the separators and of the
    content alphabet the constructor started from. *)
Lemma make_decompose :
  exists seps alpha d g,
    (16 <= length separators0 + length content0)%nat /\
    seps ≡ₚ separators0 /\ alpha ≡ₚ drop d content0 /\
    d = (ceil_sep_ratio (length content0) - length seps)%nat /\
    g = ceil_guard_ratio (length alpha) /\
    ((length alpha < 3)%nat /\ alphabet_ h = alpha /\
       separators_ h = drop g (seps ++ take d content0) /\
       guards_ h = take g (seps ++ take d content0) \/
     (3 <= length alpha)%nat /\ alphabet_ h = drop g alpha /\
       separators_ h = seps ++ take d content0 /\ guards_ h = take g alpha).
Proof.
  pose proof Hmake as H. unfold hashids_make in H.
  fold alphabet0 in H. fold separators0 in H. fold content0 in H.
  case_decide; [discriminate|]. inv_ok H.
  exists a, a0. do 2 eexists. split_and!; [lia|by eapply reorder_perm
    |by eapply reorder_perm|done|done|].
  case_decide; injection H as <-; simpl; [left|right]; repeat split; lia || done.
Qed.

Lemma make_wf : hashids_wf h.
Proof.
  destruct make_decompose as (seps & alpha & d & g & H16 & Hs & Ha & Hd & Hg & Hcase).
  assert (Hdis : forall c, c ∈ content0 -> c ∉ seps).
  { intros c (_ & _ & ?)%remove_seen_spec. by rewrite Hs. }
  destruct (NoDup_split d content0) as (Ht & Hdr & Htd); [apply remove_seen_NoDup|].
  assert (NoDup alpha) as Hal by (by rewrite Ha).
  assert (NoDup seps) as Hse by (rewrite Hs; apply NoDup_filter, base_separators_NoDup).
  assert (Hsep : NoDup (seps ++ take d content0)).
  { apply NoDup_app. split_and!; [done| |done]. intros c ? ?%elem_of_take. by eapply Hdis. }
  assert (Hcross : forall c, c ∈ alpha -> c ∉ seps ++ take d content0).
  { intros c. rewrite Ha, not_elem_of_app. intros Hc. split; [|intros ?; by eapply Htd].
    eapply Hdis, elem_of_drop; eauto. }
  apply Permutation_length in Hs as Hls. apply Permutation_length in Ha as Hla.
  rewrite length_drop in Hla. assert (length separators0 <= 14)%nat.
  { etrans; [apply length_filter|]. done. }
  assert (Hlsep : length (seps ++ take d content0) =
                  (length separators0 + Nat.min d (length content0))%nat)
    by (rewrite length_app, length_take; lia).
  unfold ceil_sep_ratio, ceil_guard_ratio in *.
  pose proof (Nat.div_mod_eq (2 * length content0 + 6) 7).
  pose proof (Nat.mod_upper_bound (2 * length content0 + 6) 7 ltac:(lia)).
  pose proof (Nat.div_mod_eq (length alpha + 11) 12).
  pose proof (Nat.mod_upper_bound (length alpha + 11) 12 ltac:(lia)).
  destruct (NoDup_split g (seps ++ take d content0)) as (? & ? & Hsg); [done|].
  destruct (NoDup_split g alpha) as (? & ? & Hag); [done|].
  destruct Hcase as [(? & E1 & E2 & E3)|(? & E1 & E2 & E3)];
    split; rewrite ?E1, ?E2, ?E3; try done.
  - lia.
  - apply nonempty_length. rewrite length_drop. lia.
  - apply nonempty_length. rewrite length_take. lia.
  - intros c Hc Hc'%elem_of_drop. by eapply Hcross.
  - intros c Hc Hc'%elem_of_take. by eapply Hcross.
  - intros c Hc Hc'. by eapply Hsg.
  - rewrite length_drop. lia.
  - apply nonempty_length. lia.
  - apply nonempty_length. rewrite length_take. lia.
  - intros c Hc%elem_of_drop. by apply Hcross.
  - intros c Hc Hc'. by eapply Hag.
  - intros c Hc Hc'%elem_of_take. by eapply Hcross.
Qed.
End Make.

(** ** Encoding *)

(** The text of the encoded numbers: each part is followed by a separator. *)
Fixpoint weave (parts : list str) (seps : str) : str :=
  match parts, seps with
  | p :: parts, s :: seps => p ++ s :: weave parts seps
  | _, _ => []
  end.

Lemma weave_pop p q parts s seps :
  length (q :: parts) = length seps ->
  pop_back (weave (p :: q :: parts) (s :: seps)) = p ++ s :: pop_back (weave (q :: parts) seps).
Proof.
  intros Hl. destruct seps as [|s2 seps]; [discriminate|].
  cbn [weave]. set (w := q ++ s2 :: weave parts seps).
  assert (length w <> 0%nat) by (unfold w; rewrite length_app; simpl; lia).
  unfold pop_back. rewrite length_app. simpl length.
  rewrite take_app. replace (length p + S (length w) - 1 - length p)%nat
    with (S (length w - 1)) by lia.
  rewrite (take_ge p) by lia. simpl. done.
Qed.

Lemma weave_pop_one p s : pop_back (weave [p] [s]) = p.
Proof.
  unfold pop_back. cbn [weave]. rewrite length_app. simpl length.
  rewrite take_app. replace (length p + 1 - 1 - length p)%nat with 0%nat by lia.
  rewrite (take_ge p) by lia. by rewrite app_nil_r.
Qed.

Section EncodeSpec.
Context {E : EslFmt} {EOk : EslFmtOk E}.
Context (h : hashids) (Hwf : hashids_wf h).

(** No character of the alphabet is NUL, or the first number is not divided. *)
Definition no_nul : Prop := Forall (fun c => uchar c <> 0) (alphabet_ h).

Lemma salted_step lottery alphabet :
  alphabet ≡ₚ alphabet_ h ->
  exists alphabet', reorder (make_alphabet_salt lottery (salt_ h) alphabet) alphabet
                    = Ok alphabet' /\ alphabet' ≡ₚ alphabet_ h.
Proof.
  intros Hp. pose proof (wf_size h Hwf). pose proof (wf_nodup h Hwf) as Hnd.
  destruct (reorder_salted (make_alphabet_salt lottery (salt_ h) alphabet) alphabet)
    as (a' & Ha' & Hp'); [by rewrite Hp| |].
  { apply nonempty_length. rewrite Hp. lia. }
  exists a'. split; [done|by rewrite Hp'].
Qed.

Lemma encode_loop_spec lottery values i alphabet result :
  no_nul -> alphabet ≡ₚ alphabet_ h -> Forall u64 values -> 0 <= i ->
  exists parts seps alphabet',
    encode_loop h lottery i values alphabet result = Ok (result ++ weave parts seps, alphabet') /\
    alphabet' ≡ₚ alphabet_ h /\ length parts = length values /\ length seps = length values /\
    Forall (fun p => p <> [] /\ Forall (fun c => c ∈ alphabet_ h) p) parts /\
    Forall (fun s => s ∈ separators_ h) seps /\
    unhash_loop h lottery parts alphabet = Ok values.
Proof.
  intros Hnul. revert i alphabet result.
  induction values as [|v values IH]; intros i alphabet result Hp Hv Hi; cbn [encode_loop].
  { exists [], [], alphabet. by rewrite app_nil_r. }
  apply Forall_cons in Hv as [Hv Hvs].
  destruct (salted_step lottery alphabet Hp) as (a1 & Ha1 & Hp1).
  rewrite Ha1. cbn [mbind outcome_bind].
  destruct (hash_number_spec v a1) as (hs & Hhs & Hne & Hall & Hun);
    [by rewrite Hp1; apply wf_nodup|by rewrite Hp1; apply wf_size|done|].
  rewrite Hhs. cbn [mbind outcome_bind]. destruct hs as [|c0 hs]; [done|].
  cbn [lookup list_lookup the mbind outcome_bind]. pose proof (uchar_range c0).
  rewrite Forall_cons in Hall. destruct Hall as [Hc0 Hall].
  assert (uchar c0 <> 0).
  { rewrite Hp1 in Hc0. unfold no_nul in Hnul. rewrite Forall_forall in Hnul. by apply Hnul. }
  case_bool; [lia|].
  set (k := _ mod Z.of_nat (length (separators_ h))).
  assert (0 <= k < Z.of_nat (length (separators_ h))) as Hk.
  { apply Z.mod_pos_bound. pose proof (wf_separators h Hwf). destruct (separators_ h); [done|simpl; lia]. }
  destruct (lookup_lt_is_Some_2 (separators_ h) (Z.to_nat k)) as [sep Hsep]; [lia|].
  rewrite Hsep. cbn [the mbind outcome_bind].
  destruct (IH (i + 1) a1 (result ++ (c0 :: hs) ++ [sep]) Hp1 Hvs ltac:(lia))
    as (parts & seps & a2 & -> & ? & ? & ? & ? & ? & Hloop).
  exists ((c0 :: hs) :: parts), (sep :: seps), a2. split_and!; simpl; try lia; try done.
  - do 2 f_equal. simpl. by list_simplifier.
  - constructor; [|done]. split; [done|].
    eapply (Forall_impl (fun c => c ∈ a1)); [by constructor|]. intros c. by rewrite Hp1.
  - constructor; [|done]. apply list_elem_of_lookup; eauto.
  - rewrite Ha1. cbn [mbind outcome_bind]. rewrite Hloop. cbn [mbind outcome_bind].
    by rewrite Hun.
Qed.

(** Cutting the woven text at the separators gives the parts back. *)
Lemma split_weave parts seps :
  parts <> [] -> length parts = length seps ->
  Forall (fun p => p <> [] /\ Forall (fun c => c ∈ alphabet_ h) p) parts ->
  Forall (fun s => s ∈ separators_ h) seps ->
  split_by_any_char (separators_ h) (pop_back (weave parts seps)) = parts.
Proof.
  intros Hne. revert seps. induction parts as [|p parts IH]; [done|].
  intros [|s seps] Hl Hp Hs; [discriminate|].
  apply Forall_cons in Hp as [[Hp0 Hpa] Hp]. apply Forall_cons in Hs as [Hs0 Hs].
  assert (Forall (fun c => c ∉ separators_ h) p).
  { eapply Forall_impl; [exact Hpa|]. simpl. intros c. apply (wf_alphabet_sep h Hwf). }
  destruct parts as [|q parts].
  - destruct seps; [|discriminate]. rewrite weave_pop_one. by apply split_none.
  - rewrite weave_pop by (simpl in *; lia). rewrite split_at by done.
    f_equal. apply IH; simpl in *; (done || lia).
Qed.

(** *** Padding *)

Notation from_alphabet := (Forall (fun c => c ∈ alphabet_ h)).

Lemma trim_keeps (X core Y : str) n k :
  (k <= length X)%nat -> (n <= length (X ++ core ++ Y))%nat ->
  (length (X ++ core ++ Y) <= n + k + length Y)%nat ->
  exists m, take n (drop k (X ++ core ++ Y)) = drop k X ++ core ++ take m Y.
Proof.
  rewrite !length_app. intros Hk Hn Hb. exists (n - (length X - k) - length core)%nat.
  rewrite drop_app_le by lia. rewrite take_app, length_drop.
  rewrite (take_ge (drop k X)) by (rewrite length_drop; lia). f_equal.
  rewrite take_app. by rewrite (take_ge core) by lia.
Qed.

Lemma from_alphabet_perm a (Ha : a ≡ₚ alphabet_ h) : from_alphabet a.
Proof. apply Forall_forall. intros c. by rewrite Ha. Qed.

Lemma pad_loop_spec fuel min_len alphabet pre core post :
  alphabet ≡ₚ alphabet_ h -> from_alphabet pre -> from_alphabet post ->
  (min_len <= length (pre ++ core ++ post) + fuel)%nat ->
  exists pre' post',
    pad_loop fuel min_len (length (alphabet_ h) / 2)%nat alphabet (pre ++ core ++ post)
      = Ok (pre' ++ core ++ post') /\
    from_alphabet pre' /\ from_alphabet post' /\
    (min_len <= length (pre' ++ core ++ post'))%nat.
Proof.
  pose proof (wf_size h Hwf) as Hsz. pose proof (wf_nodup h Hwf) as Hnd.
  pose proof (Nat.div_mod_eq (length (alphabet_ h)) 2) as Hdiv.
  pose proof (Nat.mod_upper_bound (length (alphabet_ h)) 2 ltac:(lia)).
  set (mid := (length (alphabet_ h) / 2)%nat) in *.
  revert alphabet pre post. induction fuel as [|fuel IH]; intros alphabet pre post Ha Hpre Hpost Hf;
    cbn [pad_loop]; case_decide as Hlt; try lia; try (exists pre, post; split_and!; done || lia).
  destruct (reorder_salted alphabet alphabet) as (a1 & Hr & Hp);
    [by rewrite Ha|apply nonempty_length; rewrite Ha; lia|].
  rewrite Hr. cbn [mbind outcome_bind]. rewrite Ha in Hp.
  assert (Hl1 : length a1 = length (alphabet_ h)) by by rewrite Hp.
  pose proof (from_alphabet_perm a1 Hp) as Hfa.
  set (X := drop mid a1 ++ pre). set (Y := post ++ take mid a1).
  replace (drop mid a1 ++ (pre ++ core ++ post) ++ take mid a1) with (X ++ core ++ Y)
    by (unfold X, Y; by rewrite !app_assoc).
  assert (from_alphabet X) by (apply Forall_app; split; [by apply Forall_drop|done]).
  assert (from_alphabet Y) by (apply Forall_app; split; [done|by apply Forall_take]).
  assert (HlX : length X = (length (alphabet_ h) - mid + length pre)%nat)
    by (unfold X; rewrite length_app, length_drop; lia).
  assert (HlY : length Y = (length post + mid)%nat)
    by (unfold Y; rewrite length_app, length_take; lia).
  rewrite !length_app in Hlt, Hf.
  case_decide as Hex.
  - set (k := ((length (X ++ core ++ Y) - min_len) / 2)%nat) in *.
    pose proof (Nat.div_mod_eq (length (X ++ core ++ Y) - min_len) 2) as Hk.
    pose proof (Nat.mod_upper_bound (length (X ++ core ++ Y) - min_len) 2 ltac:(lia)).
    fold k in Hk. rewrite !length_app in *.
    destruct (trim_keeps X core Y min_len k) as [m Hm]; rewrite ?length_app; try lia.
    assert (Hlen : length (drop k X ++ core ++ take m Y) = min_len).
    { rewrite <- Hm, length_take, length_drop, !length_app. lia. }
    rewrite Hm. apply IH; [done|by apply Forall_drop|by apply Forall_take|lia].
  - apply IH; try done. rewrite !length_app in *. lia.
Qed.

(** The two guards enclose the encoded numbers; everything outside of them comes
    from the content alphabet. *)
Lemma ensure_minimum_length_spec vh min_len alphabet core :
  alphabet ≡ₚ alphabet_ h -> (2 <= length core)%nat ->
  exists hashid g, g ∈ guards_ h /\ (min_len <= length hashid)%nat /\
    ensure_minimum_length vh min_len alphabet (guards_ h) core = Ok hashid /\
    (hashid = g :: core \/
     exists pre g' post, g' ∈ guards_ h /\ from_alphabet pre /\ from_alphabet post /\
       hashid = pre ++ g :: core ++ g' :: post).
Proof.
  intros Ha Hcore. unfold ensure_minimum_length. rewrite decide_True by done.
  destruct core as [|c0 [|c1 core']]; simpl in Hcore; [lia|lia|].
  set (core := c0 :: c1 :: core'). set (gs := Z.of_nat (length (guards_ h))).
  assert (Hguard : forall x, exists g, guards_ h !! Z.to_nat (x mod gs) = Some g /\ g ∈ guards_ h).
  { intros x. pose proof (wf_guards h Hwf).
    assert (0 <= x mod gs < gs).
    { apply Z.mod_pos_bound. unfold gs. destruct (guards_ h); [done|simpl; lia]. }
    destruct (lookup_lt_is_Some_2 (guards_ h) (Z.to_nat (x mod gs))) as [g Hg]; [lia|].
    exists g. split; [done|]. apply list_elem_of_lookup; eauto. }
  cbn [lookup list_lookup core the mbind outcome_bind].
  destruct (Hguard (wrap 64 (vh + uchar c0))) as (g & -> & Hg). cbn [the mbind outcome_bind].
  case_decide as Hl; [exists (g :: core), g; by split_and!; [..|left]|].
  cbn [lookup list_lookup core the mbind outcome_bind].
  destruct (Hguard (wrap 64 (vh + uchar c1))) as (g' & -> & Hg'). cbn [the mbind outcome_bind].
  destruct (pad_loop_spec min_len min_len alphabet [] (g :: core ++ [g']) [])
    as (pre & post & Hpad & Hpre & Hpost & Hmin); [done|constructor|constructor|lia|].
  rewrite Permutation_length with (l := alphabet) (l' := alphabet_ h) by done.
  rewrite app_nil_l, app_nil_r in Hpad.
  exists (pre ++ (g :: core ++ [g']) ++ post), g. split_and!; try done. right.
  exists pre, g', post. split_and!; try done. simpl. by list_simplifier.
Qed.

(** *** Encoding and decoding *)

Lemma value_hash_loop_nonneg i values vh : 0 <= vh -> 0 <= value_hash_loop i values vh.
Proof.
  revert i vh. induction values as [|v values IH]; intros i vh H; simpl; [done|].
  apply IH. apply Z.mod_pos_bound. done.
Qed.

Lemma weave_no_guard parts seps :
  Forall (fun p => p <> [] /\ from_alphabet p) parts ->
  Forall (fun s => s ∈ separators_ h) seps ->
  Forall (fun c => c ∉ guards_ h) (weave parts seps).
Proof.
  intros Hp. revert seps. induction Hp as [|p parts [_ Hp] _ IH]; intros [|s seps] Hs;
    cbn [weave]; try constructor.
  apply Forall_cons in Hs as [Hs0 Hs]. apply Forall_app. split.
  - eapply Forall_impl; [exact Hp|]. intros c. apply (wf_alphabet_guard h Hwf).
  - constructor; [by apply (wf_sep_guard h Hwf)|by apply IH].
Qed.

(** The unpadded id of a non-empty sequence of numbers. *)
Lemma encode_core nums :
  no_nul -> Forall u64 nums -> nums <> [] ->
  exists lottery enc alphabet,
    alphabet ≡ₚ alphabet_ h /\ enc <> [] /\
    Forall (fun c => c ∉ guards_ h) (lottery :: enc) /\
    unhash_loop h lottery (split_by_any_char (separators_ h) enc) (alphabet_ h) = Ok nums /\
    encode h nums =
      if decide (length (lottery :: enc) < min_len_ h)%nat then
        ensure_minimum_length (value_hash_loop 0 nums 0) (min_len_ h) alphabet (guards_ h)
          (lottery :: enc)
      else Ok (lottery :: enc).
Proof.
  intros Hnul Hnums Hne. pose proof (wf_size h Hwf) as Hsz.
  set (k := value_hash_loop 0 nums 0 mod Z.of_nat (length (alphabet_ h))).
  assert (0 <= k < Z.of_nat (length (alphabet_ h))) by (apply Z.mod_pos_bound; lia).
  destruct (lookup_lt_is_Some_2 (alphabet_ h) (Z.to_nat k)) as [lottery Hlot]; [lia|].
  destruct (encode_loop_spec lottery nums 0 (alphabet_ h) [lottery])
    as (parts & seps & a' & Hloop & Ha' & Hlp & Hls & Hparts & Hseps & Hun); [done..|].
  assert (Hpn : parts <> []).
  { intros ->. apply Hne. apply length_zero_iff_nil. by rewrite <- Hlp. }
  assert (Hw : weave parts seps <> [] /\ pop_back (weave parts seps) <> []).
  { destruct parts as [|p [|q parts]]; [done| |]; (destruct seps as [|s seps];
      [exfalso; apply Hpn, length_zero_iff_nil; simpl in *; lia|]);
      apply Forall_cons in Hparts as [[Hp _] _].
    - destruct seps; [|simpl in *; lia]. rewrite weave_pop_one. split; [|done].
      cbn [weave]. by destruct p.
    - rewrite weave_pop by (simpl in *; lia). cbn [weave]. by destruct p. }
  destruct Hw as [Hw Hpw].
  assert (Hpop : pop_back (lottery :: weave parts seps) = lottery :: pop_back (weave parts seps)).
  { unfold pop_back. destruct (weave parts seps) as [|x w]; [done|]. simpl. by rewrite Nat.sub_0_r. }
  exists lottery, (pop_back (weave parts seps)), a'. split_and!; try done.
  - constructor.
    + apply (wf_alphabet_guard h Hwf), list_elem_of_lookup; eauto.
    + apply Forall_take, weave_no_guard; done.
  - rewrite split_weave; [done|done|lia|done|done].
  - unfold encode. destruct nums as [|n nums']; [done|]. fold k. rewrite Hlot.
    cbn [the mbind outcome_bind]. rewrite Hloop. cbn [mbind outcome_bind].
    change ([lottery] ++ weave parts seps) with (lottery :: weave parts seps). by rewrite Hpop.
Qed.

(** [decode] accepts an id whose guarded part decodes to numbers that encode to it. *)
Lemma decode_parts nums s lottery enc :
  s <> [] ->
  (exists pre post, split_by_any_char (guards_ h) s = pre ++ (lottery :: enc) :: post /\
     (pre = [] /\ post = [] \/ length pre = 1%nat /\ (length post <= 1)%nat)) ->
  unhash_loop h lottery (split_by_any_char (separators_ h) enc) (alphabet_ h) = Ok nums ->
  encode h nums = Ok s -> decode h s = Ok nums.
Proof.
  intros Hs (pre & post & Hsplit & Hc) Hun Henc. unfold decode. destruct s as [|x s]; [done|].
  rewrite Hsplit.
  assert (Hm : match pre ++ (lottery :: enc) :: post with
               | [p0] => Ok p0 | [_; p1] => Ok p1 | [_; p1; _] => Ok p1
               | _ => Throw invalid_argument end = Ok (lottery :: enc)).
  { destruct Hc as [[-> ->]|[Hp Hq]]; [done|]. destruct pre as [|p [|??]]; try discriminate.
    destruct post as [|q [|??]]; simpl in *; (done || lia). }
  rewrite Hm. cbn [mbind outcome_bind]. rewrite Hun. cbn [mbind outcome_bind].
  rewrite Henc. cbn [mbind outcome_bind]. by rewrite decide_True.
Qed.

Lemma encode_decode_spec nums :
  no_nul -> Forall u64 nums ->
  exists s, encode h nums = Ok s /\ decode h s = Ok nums /\
            (nums <> [] -> (min_len_ h <= length s)%nat).
Proof.
  intros Hnul Hnums. destruct (decide (nums = [])) as [->|Hne]; [exists []; done|].
  destruct (encode_core nums Hnul Hnums Hne) as (l & enc & a & Ha & Henc & Hg & Hun & Heq).
  case_decide as Hmin.
  - destruct (ensure_minimum_length_spec (value_hash_loop 0 nums 0) (min_len_ h) a (l :: enc))
      as (s & g & Hgg & Hlen & Hens & Hcase); [done|destruct enc; [done|simpl; lia]|].
    rewrite Hens in Heq. exists s. split_and!; [done| |done].
    destruct Hcase as [->|(pre & g' & post & Hg' & Hpre & Hpost & ->)].
    + eapply decode_parts; [done| |done|done]. exists [[]], []. split; [|right; simpl; lia].
      change (g :: l :: enc) with ([] ++ g :: l :: enc). rewrite split_at by done.
      by rewrite split_none.
    + eapply decode_parts; [by destruct pre| |done|done].
      exists [pre], (split_by_any_char (guards_ h) post). split.
      * rewrite split_at; [|by eapply Forall_impl; [exact Hpre|]; intros c;
                            apply (wf_alphabet_guard h Hwf)|done].
        pose proof (split_at (guards_ h) (l :: enc) g' post Hg Hg') as Hs.
        simpl in Hs |- *. by rewrite Hs.
      * right. split; [done|]. destruct (decide (post = [])) as [->|Hp].
        { destruct (split_empty (guards_ h)) as [-> | ->]; simpl; lia. }
        rewrite split_none; [simpl; lia|done|]. eapply Forall_impl; [exact Hpost|].
        intros c. apply (wf_alphabet_guard h Hwf).
  - exists (l :: enc). split_and!; [done| |lia].
    eapply decode_parts; [done| |done|done]. exists [], []. split; [|by left].
    by rewrite split_none.
Qed.

End EncodeSpec.

Arguments no_nul h : simpl never.

(** ** Hexadecimal ids *)

Section Hex.
Context {E : EslFmt} {EOk : EslFmtOk E}.

End Hex.

(** ** Properties *)

(** The number of distinct characters of the alphabet in use. *)
Definition used_alphabet (opts : options) : str :=
  match custom_alphabet opts with [] => default_alphabet | a => a end.

Lemma remove_seen_complete seps seen l c :
  c ∈ l -> c ∉ seen -> c ∉ seps -> c ∈ remove_seen seps seen l.
Proof.
  revert seen; induction l as [|x l IH]; intros seen; simpl; [by intros ?%not_elem_of_nil|].
  rewrite elem_of_cons. intros [->|Hl] Hn Hs; case_decide; try naive_solver.
  - by left.
  - apply IH; [done| |done]. rewrite not_elem_of_cons. naive_solver.
  - destruct (decide (c = x)) as [->|]; [by left|]. right. apply IH; [done| |done].
    rewrite not_elem_of_cons. naive_solver.
Qed.

Lemma distinct_count (alphabet : str) :
  let seps := filter (fun ch => ch ∈ alphabet) base_separators in
  (length seps + length (remove_seen seps [] alphabet))%nat
  = length (remove_dups alphabet).
Proof.
  intros seps. rewrite <- length_app. apply Permutation_length, NoDup_Permutation.
  - apply NoDup_app. split_and!.
    + apply NoDup_filter, base_separators_NoDup.
    + intros c Hc (_ & _ & Hn)%remove_seen_spec. done.
    + apply remove_seen_NoDup.
  - apply NoDup_remove_dups.
  - intros c. rewrite elem_of_app, elem_of_remove_dups. split.
    + intros [[? _]%list_elem_of_filter|[? _]%remove_seen_spec]; done.
    + intros Hc. destruct (decide (c ∈ seps)); [by left|right].
      apply remove_seen_complete; [done|apply not_elem_of_nil|done].
Qed.

Lemma make_min_len opts h : hashids_make opts = Ok h -> min_len_ h = minimum_length opts.
Proof.
  unfold hashids_make. case_decide; [discriminate|]. intros Hmk. inv_ok Hmk.
  case_decide; by injection Hmk as <-.
Qed.

Lemma make_alphabet_used opts h c :
  hashids_make opts = Ok h -> c ∈ alphabet_ h -> c ∈ used_alphabet opts.
Proof.
  intros H Hc. destruct (make_decompose opts h H)
    as (seps & alpha & d & g & _ & _ & Ha & _ & _ & Hcase).
  assert (c ∈ alpha) as Hca.
  { destruct Hcase as [(_ & <- & _)|(_ & E & _)]; [done|rewrite E in Hc; eauto with eureka]. }
  rewrite Ha in Hca. apply elem_of_drop, remove_seen_spec in Hca. tauto.
Qed.

Lemma make_no_nul opts h :
  hashids_make opts = Ok h -> chr 0 ∉ custom_alphabet opts -> no_nul h.
Proof.
  intros H Hn. apply Forall_forall. intros c Hc Hz.
  assert (c = chr 0) as -> by (by rewrite <- (chr_uchar c), Hz).
  apply (make_alphabet_used _ _ _ H) in Hc. unfold used_alphabet in Hc.
  destruct (custom_alphabet opts); [|done].
  assert (Hd : bool_decide (chr 0 ∈ default_alphabet) = false) by (vm_compute; done).
  apply bool_decide_eq_false in Hd. done.
Qed.

(** C1: for every configuration the constructor accepts and whose alphabet has no
    NUL character, every sequence of 64-bit numbers encodes to an id of at least
    the minimum length, and decoding that id gives the numbers back. *)
Theorem decode_encode {E : EslFmt} {EOk : EslFmtOk E} opts h nums :
  hashids_make opts = Ok h -> chr 0 ∉ custom_alphabet opts -> Forall u64 nums ->
  exists s, encode h nums = Ok s /\ decode h s = Ok nums /\
            (nums <> [] -> (minimum_length opts <= length s)%nat).
Proof.
  intros Hmk Hnul Hnums. rewrite <- (make_min_len opts h Hmk).
  apply encode_decode_spec; eauto using make_wf, make_no_nul.
Qed.


(** C38: the constructor throws exactly on alphabets with fewer than 16 distinct
    characters; on the others it returns, except that a non-empty salt together
    with an alphabet that has none of the base separators makes [reorder] run on
    the empty [separators_], whose [size() - 1] wraps around. *)
Theorem hashids_make_outcome opts :
  (hashids_make opts = Throw invalid_argument <->
     (length (remove_dups (used_alphabet opts)) < 16)%nat) /\
  (hashids_make opts = Undef <->
     (16 <= length (remove_dups (used_alphabet opts)))%nat /\ opt_salt opts <> [] /\
     Forall (fun c => c ∉ used_alphabet opts) base_separators) /\
  ((exists h, hashids_make opts = Ok h) <->
     (16 <= length (remove_dups (used_alphabet opts)))%nat /\
     (opt_salt opts = [] \/ ~ Forall (fun c => c ∉ used_alphabet opts) base_separators)).
Proof.
  rewrite <- distinct_count. unfold hashids_make.
  change (match custom_alphabet opts with [] => default_alphabet | a => a end)
    with (used_alphabet opts).
  set (seps := filter (fun ch => ch ∈ used_alphabet opts) base_separators).
  set (content := remove_seen seps [] (used_alphabet opts)).
  assert (Hsn : seps = [] <-> Forall (fun c => c ∉ used_alphabet opts) base_separators)
    by (unfold seps; apply filter_nil_Forall).
  case_decide as H16.
  { split_and!; [by split|split; [done|intros [? _]; lia]|].
    split; [by intros [? ?]|intros [? _]; lia]. }
  destruct (decide (seps <> [] \/ opt_salt opts = [])) as [Hok|Hno].
  - assert (exists s1, reorder (opt_salt opts) seps = Ok s1 /\ s1 ≡ₚ seps) as (s1 & Hs1 & Hp1).
    { destruct (reorder_total (opt_salt opts) seps) as [s1 Hs1]; [|done|eauto using reorder_perm].
      pose proof (length_filter (fun ch => ch ∈ used_alphabet opts) base_separators).
      fold seps in H. change (length base_separators) with 14%nat in H. lia. }
    rewrite Hs1. cbn [mbind outcome_bind].
    set (rest := drop _ content).
    destruct (reorder_salted (opt_salt opts) rest) as (a1 & Ha1 & _).
    { apply NoDup_split, remove_seen_NoDup. }
    { apply nonempty_length. unfold rest, ceil_sep_ratio. rewrite length_drop.
      apply Permutation_length in Hp1. rewrite Hp1.
      pose proof (length_filter (fun ch => ch ∈ used_alphabet opts) base_separators).
      fold seps in H. change (length base_separators) with 14%nat in H.
      pose proof (Nat.div_mod_eq (2 * length content + 6) 7). lia. }
    rewrite Ha1. cbn [mbind outcome_bind].
    case_decide; (split_and!;
      [split; [done|lia]|split; [done|naive_solver]|split; [|by eexists]]);
      (intros _; split; [lia|]; rewrite <- Hsn; tauto).
  - assert (seps = [] /\ opt_salt opts <> []) as [Hs0 Hsalt].
    { destruct (decide (seps = [])), (decide (opt_salt opts = [])); naive_solver. }
    assert (Hr : reorder (opt_salt opts) seps = Undef).
    { rewrite Hs0. unfold reorder. destruct (opt_salt opts); [done|]. reflexivity. }
    rewrite Hr. cbn [mbind outcome_bind]. split_and!; [split; [done|lia]|split; [|done]|].
    + intros _. split_and!; [lia|done|by apply Hsn].
    + rewrite <- Hsn. split; [by intros [? ?]|naive_solver].
Qed.

(** ** Witnesses *)

(** A concrete tokenizer and formatter with the documented behaviour. *)
Fixpoint ref_split (ds cur s : str) : list str :=
  match s with
  | [] => [rev cur]
  | c :: s => if decide (c ∈ ds) then rev cur :: ref_split ds [] s
              else ref_split ds (c :: cur) s
  end.

Fixpoint ref_chunks (fuel n : nat) (s : str) : list str :=
  match fuel, s with
  | _, [] => []
  | O, _ => [s]
  | S fuel, _ => take n s :: ref_chunks fuel n (drop n s)
  end.

Fixpoint ref_hex (fuel : nat) (n : Z) (acc : str) : str :=
  match fuel with
  | O => acc
  | S fuel => if n =? 0 then acc else ref_hex fuel (n / 16) (hex_digit (n mod 16) :: acc)
  end.

Definition ref_esl : EslFmt := {|
  split_by_any_char ds s := ref_split ds [] s;
  split_by_length n s := ref_chunks (length s) n s;
  format_hex n := ref_hex 16 n []
|}.

Lemma ref_split_none ds s cur :
  Forall (fun c => c ∉ ds) s -> ref_split ds cur s = [rev cur ++ s].
Proof.
  intros H. revert cur. induction H as [|c s Hc _ IH]; intros cur; simpl.
  - by rewrite app_nil_r.
  - rewrite decide_False by done. rewrite IH. simpl. by rewrite <- app_assoc.
Qed.

Lemma ref_split_at ds s d t cur :
  Forall (fun c => c ∉ ds) s -> d ∈ ds ->
  ref_split ds cur (s ++ d :: t) = (rev cur ++ s) :: ref_split ds [] t.
Proof.
  intros H Hd. revert cur. induction H as [|c s Hc _ IH]; intros cur; simpl.
  - rewrite decide_True by done. by rewrite app_nil_r.
  - rewrite decide_False by done. rewrite IH. simpl. by rewrite <- app_assoc.
Qed.

Lemma ref_chunks_spec fuel n s :
  (0 < n)%nat -> (length s <= fuel)%nat ->
  concat (ref_chunks fuel n s) = s /\
  Forall (fun p => (length p <= n)%nat) (ref_chunks fuel n s) /\
  (s <> [] -> ref_chunks fuel n s <> []).
Proof.
  intros Hn. revert s. induction fuel as [|fuel IH]; intros s Hl.
  - destruct s; simpl in *; [repeat constructor; done|lia].
  - destruct s as [|c s]; [repeat constructor; done|]. cbn [ref_chunks].
    destruct (IH (drop n (c :: s))) as (Hc & Hf & _); [rewrite length_drop; simpl in *; lia|].
    split_and!; [|constructor; [rewrite length_take; lia|done]|done].
    cbn [concat]. rewrite Hc. apply take_drop.
Qed.

Lemma ref_hex_value fuel digits acc :
  Forall lower_hex digits -> (length digits < fuel)%nat ->
  head digits <> Some (chr 48) ->
  ref_hex fuel (hex_digits_value digits 0) acc = digits ++ acc.
Proof.
  revert digits acc. induction fuel as [|fuel IH]; intros digits acc Hd Hl Hh; [lia|].
  destruct digits as [|c digits _] using rev_ind; [done|].
  apply Forall_app in Hd as [Hds Hc]. apply Forall_cons in Hc as [Hc _].
  rewrite length_app in Hl. simpl in Hl.
  destruct (lower_hex_value c Hc) as (d & Hv & Hr).
  rewrite hex_digits_value_app. cbn [hex_digits_value ref_hex]. rewrite Hv. change (default 0 (Some d)) with d.
  destruct (hex_prefix_spec digits 0 Hds ltac:(lia)) as [_ Hb].
  set (v := hex_digits_value digits 0) in *.
  assert (Hnz : v * 16 + d <> 0).
  { intros Hz. assert (Hv0 : v = 0) by lia. assert (d = 0) by lia. subst d.
    destruct digits as [|x digits].
    - simpl in Hh. apply Hh. f_equal. rewrite <- (hex_digit_value c Hc), Hv. reflexivity.
    - assert (Hx : head (x :: digits) <> Some (chr 48)) by done.
      specialize (IH (x :: digits) [] Hds ltac:(lia) Hx). fold v in IH.
      rewrite Hv0 in IH. destruct fuel; discriminate IH. }
  case_bool; [lia|].
  replace ((v * 16 + d) / 16) with v by (rewrite Z.add_comm, Z.div_add; [rewrite Z.div_small; lia|lia]).
  replace ((v * 16 + d) mod 16) with d by (rewrite Z.add_comm, Z_mod_plus_full, Z.mod_small; lia).
  unfold v. rewrite IH; [|done|lia|by destruct digits].
  rewrite <- app_assoc. simpl. do 2 f_equal. rewrite <- (hex_digit_value c Hc), Hv. done.
Qed.

#[global] Instance ref_esl_ok : EslFmtOk ref_esl.
Proof.
  split; cbn [split_by_any_char split_by_length format_hex ref_esl]; intros.
  - by right.
  - by rewrite ref_split_none.
  - by rewrite ref_split_at.
  - by apply ref_chunks_spec.
  - by apply ref_chunks_spec.
  - by apply ref_chunks_spec.
  - rewrite ref_hex_value; [by rewrite app_nil_r|done|lia|done].
Qed.

(** The configuration of the test case "all options". *)
Definition sample_opts : options :=
  mk_options (lit "arbitrary salt") (lit "abcdefghijklmnopqrstuvwxyz") 16.
Definition sample_hashids : hashids :=
  Eval vm_compute in
    match hashids_make sample_opts with Ok h => h | _ => mk_hashids 0 [] [] [] [] end.

Example sample_encode :
  encode sample_hashids [7452; 2967; 21401] = Ok (lit "wygqxeunkatjgkrw").
Proof. vm_compute. reflexivity. Qed.

Example sample_decode :
  @decode ref_esl sample_hashids (lit "erdjpwrgouoxlvbx") = Ok [99; 25].
Proof. vm_compute. reflexivity. Qed.

Lemma decode_encode_witness :
  exists s, encode sample_hashids [7452; 2967; 21401] = Ok s /\
            @decode ref_esl sample_hashids s = Ok [7452; 2967; 21401] /\
            ([7452; 2967; 21401] <> [] -> (16 <= length s)%nat).
Proof.
  apply (decode_encode (EOk := ref_esl_ok) sample_opts).
  - vm_compute. reflexivity.
  - apply (bool_decide_unpack _). vm_compute. exact I.
  - apply (bool_decide_unpack _). vm_compute. exact I.
Defined.

