(* ===== verification/Endian.v ===== *)
(** * Byte order

    Models the endian_utils.h / endian.h headers of NetworkInfra, uuid and
    learn-topt: conversion of 16-, 32- and 64-bit integers between host and
    network byte order, and the object representation [memcpy] sees, on hosts of
    either byte order. *)

From S2P Require Import Prelude.

(** ** Integers and their bytes *)

(** The [k] low bytes of [z], least significant first. *)
Fixpoint le_bytes (k : nat) (z : Z) : str :=
  match k with
  | O => []
  | S k => chr (z mod 256) :: le_bytes k (z / 256)
  end.

Fixpoint le_value (bytes : str) : Z :=
  match bytes with
  | [] => 0
  | c :: rest => uchar c + 256 * le_value rest
  end.

Definition be_bytes (k : nat) (z : Z) : str := rev (le_bytes k z).
Definition be_value (bytes : str) : Z := le_value (rev bytes).

(** [_byteswap_*], [__builtin_bswap*]. *)
Definition bswap (k : nat) (z : Z) : Z := le_value (be_bytes k z).

(** Conversion of an unsigned value of [k] bytes to the signed type of the same
    width (two's complement), and back. *)
Definition to_signed (k : nat) (z : Z) : Z :=
  if z <? 2 ^ (8 * Z.of_nat k - 1) then z else z - 2 ^ (8 * Z.of_nat k).
Definition to_unsigned (k : nat) (z : Z) : Z := wrap (8 * Z.of_nat k) z.

(** ** The host *)

Inductive byte_order := little_endian | big_endian.

(** The object representation of an unsigned integer of [k] bytes: what [memcpy]
    reads from and writes to its address. *)
Definition host_store (host : byte_order) (k : nat) (z : Z) : str :=
  match host with little_endian => le_bytes k z | big_endian => be_bytes k z end.
Definition host_load (host : byte_order) (bytes : str) : Z :=
  match host with little_endian => le_value bytes | big_endian => be_value bytes end.

(** [htobe16/32/64] and [be16/32/64toh]. *)
Definition hton (host : byte_order) (k : nat) (z : Z) : Z :=
  match host with little_endian => bswap k z | big_endian => z end.

(** [HostToNetwork] and [NetworkToHost] on the unsigned and on the signed type of
    [k] bytes; the signed versions convert through the unsigned argument and
    result of the swap. *)
Definition HostToNetwork_u (host : byte_order) (k : nat) (n : Z) : Z := hton host k n.
Definition NetworkToHost_u (host : byte_order) (k : nat) (n : Z) : Z := hton host k n.
Definition HostToNetwork (host : byte_order) (k : nat) (n : Z) : Z :=
  to_signed k (hton host k (to_unsigned k n)).
Definition NetworkToHost (host : byte_order) (k : nat) (n : Z) : Z :=
  to_signed k (hton host k (to_unsigned k n)).

(** ** Lemmas *)

Lemma pow256 (k : nat) : 2 ^ (8 * Z.of_nat k) = 256 ^ Z.of_nat k.
Proof. rewrite Z.pow_mul_r by lia. reflexivity. Qed.

Lemma pow256_pos (k : nat) : 0 < 256 ^ Z.of_nat k.
Proof. apply Z.pow_pos_nonneg; lia. Qed.

Lemma pow256_S (k : nat) : 256 ^ Z.of_nat (S k) = 256 * 256 ^ Z.of_nat k.
Proof. rewrite Nat2Z.inj_succ, Z.pow_succ_r; lia. Qed.

Lemma length_le_bytes k z : length (le_bytes k z) = k.
Proof. revert z; induction k; simpl; auto. Qed.

Lemma length_be_bytes k z : length (be_bytes k z) = k.
Proof. unfold be_bytes. by rewrite length_rev, length_le_bytes. Qed.

Lemma le_value_bytes k z : le_value (le_bytes k z) = z mod 256 ^ Z.of_nat k.
Proof.
  revert z. induction k as [|k IH]; intros z; [by rewrite Z.mod_1_r|].
  cbn [le_bytes le_value].
  rewrite uchar_chr by (apply Z.mod_pos_bound; lia).
  rewrite IH, pow256_S, Z.rem_mul_r by (pose proof (pow256_pos k); lia). done.
Qed.

Lemma le_value_bound l : 0 <= le_value l < 256 ^ Z.of_nat (length l).
Proof.
  induction l as [|c l IH]; [simpl; lia|]. cbn [le_value length].
  rewrite pow256_S. pose proof (uchar_range c). lia.
Qed.

Lemma le_bytes_value l : le_bytes (length l) (le_value l) = l.
Proof.
  induction l as [|c l IH]; [done|]. cbn [length le_bytes le_value].
  pose proof (uchar_range c).
  rewrite (Z.mul_comm 256), Z_mod_plus_full, Z.mod_small, chr_uchar by lia.
  rewrite Z.div_add, Z.div_small, Z.add_0_l, IH by lia. done.
Qed.

Lemma le_bytes_of_value k l : length l = k -> le_bytes k (le_value l) = l.
Proof. intros <-. apply le_bytes_value. Qed.

Lemma be_value_bytes k z : be_value (be_bytes k z) = z mod 256 ^ Z.of_nat k.
Proof. unfold be_value, be_bytes. by rewrite rev_involutive, le_value_bytes. Qed.

Lemma be_bytes_of_value k l : length l = k -> be_bytes k (be_value l) = l.
Proof.
  intros Hl. unfold be_bytes, be_value.
  rewrite le_bytes_of_value by (by rewrite length_rev). apply rev_involutive.
Qed.

Lemma bswap_bound k z : 0 <= bswap k z < 256 ^ Z.of_nat k.
Proof. pose proof (le_value_bound (be_bytes k z)) as H. by rewrite length_be_bytes in H. Qed.

Lemma bswap_involutive k z : bswap k (bswap k z) = z mod 256 ^ Z.of_nat k.
Proof.
  unfold bswap at 1. unfold be_bytes. unfold bswap.
  rewrite le_bytes_of_value by apply length_be_bytes.
  unfold be_bytes. by rewrite rev_involutive, le_value_bytes.
Qed.

Lemma to_unsigned_signed k z :
  (0 < k)%nat -> 0 <= z < 256 ^ Z.of_nat k -> to_unsigned k (to_signed k z) = z.
Proof.
  intros Hk Hz. unfold to_unsigned, to_signed, wrap. rewrite !pow256.
  case_bool; [by rewrite Z.mod_small|].
  rewrite <- (Z.mod_add _ 1) by (pose proof (pow256_pos k); lia).
  rewrite Z.mod_small; lia.
Qed.

Lemma to_signed_unsigned k z :
  (0 < k)%nat -> in_i (8 * Z.of_nat k) z -> to_signed k (to_unsigned k z) = z.
Proof.
  intros Hk Hz. unfold in_i in Hz. unfold to_unsigned, to_signed, wrap.
  assert (Hp : 2 ^ (8 * Z.of_nat k) = 2 * 2 ^ (8 * Z.of_nat k - 1)).
  { rewrite <- Z.pow_succ_r by lia. f_equal. lia. }
  set (h := 2 ^ (8 * Z.of_nat k - 1)) in *. rewrite Hp.
  destruct (Z.neg_nonneg_cases z) as [Hn|Hn].
  - replace (z mod (2 * h)) with (z + 2 * h)
      by (rewrite <- (Z.mod_add z 1) by lia; rewrite Z.mod_small; lia).
    case_bool; lia.
  - rewrite Z.mod_small by lia. case_bool; lia.
Qed.

Lemma to_unsigned_bound k z : 0 <= to_unsigned k z < 256 ^ Z.of_nat k.
Proof.
  unfold to_unsigned, wrap. rewrite pow256. apply Z.mod_pos_bound, pow256_pos.
Qed.

Lemma hton_bound host k z :
  0 <= z < 256 ^ Z.of_nat k -> 0 <= hton host k z < 256 ^ Z.of_nat k.
Proof. destruct host; [intros _; apply bswap_bound|done]. Qed.

(** Whatever the host, the object representation of an integer in network order
    is its bytes, most significant first. *)
Lemma host_store_hton host k z :
  host_store host k (hton host k z) = be_bytes k z.
Proof.
  destruct host; simpl; [|done]. unfold bswap. apply le_bytes_of_value, length_be_bytes.
Qed.

Lemma hton_host_load host k bytes :
  length bytes = k -> hton host k (host_load host bytes) = be_value bytes.
Proof.
  intros Hl. destruct host; simpl; [|done].
  unfold bswap, be_bytes. by rewrite le_bytes_of_value.
Qed.

Lemma host_load_bound host bytes : 0 <= host_load host bytes < 256 ^ Z.of_nat (length bytes).
Proof.
  destruct host; simpl; [apply le_value_bound|]. unfold be_value.
  rewrite <- length_rev. apply le_value_bound.
Qed.

#[export] Hint Resolve pow256_pos le_value_bound bswap_bound to_unsigned_bound : eureka.
#[export] Hint Rewrite length_le_bytes length_be_bytes : eureka.

Lemma le_value_app x y : le_value (x ++ y) = le_value x + 256 ^ Z.of_nat (length x) * le_value y.
Proof.
  induction x as [|c x IH]; [simpl; lia|]. cbn [app le_value length].
  rewrite IH, pow256_S. lia.
Qed.

Lemma le_bytes_add i j z : le_bytes (i + j) z = le_bytes i z ++ le_bytes j (z / 256 ^ Z.of_nat i).
Proof.
  revert z. induction i as [|i IH]; intros z; [by rewrite Z.div_1_r|].
  cbn [Nat.add le_bytes app]. rewrite IH, pow256_S, Z.div_div by (pose proof (pow256_pos i); lia).
  done.
Qed.
