(* ===== verification/Buffer.v ===== *)
(** * The network buffer

    Models NetworkInfra/src/buffer.{h,cpp}: a byte vector with a reader and a
    writer index, eight bytes of head room, integers in network order, [ReadFD],
    and the iterator.  The abstract specification is a queue of bytes. *)

From S2P Require Import Prelude Endian.

(** ** The buffer *)

Definition kDefaultPrependSize : nat := 8.
Definition kDefaultInitialSize : nat := 1024.

Record buffer := mk_buffer {
  buf_ : str;
  reader_index_ : nat;
  writer_index_ : nat
}.

Definition make_buffer (initial_size : nat) : buffer :=
  mk_buffer (replicate (initial_size + kDefaultPrependSize) (chr 0))
            kDefaultPrependSize kDefaultPrependSize.
Definition default_buffer : buffer := make_buffer kDefaultInitialSize.

(** The unsigned subtractions do not wrap on well-formed buffers ([buffer_wf]). *)
Definition prependable_size (b : buffer) : nat := reader_index_ b.
Definition readable_size (b : buffer) : nat := (writer_index_ b - reader_index_ b)%nat.
Definition writable_size (b : buffer) : nat := (length (buf_ b) - writer_index_ b)%nat.

(** The characters between [begin()] and [end()]. *)
Definition contents (b : buffer) : str :=
  take (readable_size b) (drop (reader_index_ b) (buf_ b)).

(** [memcpy] / [memmove] of [data] to offset [off] of the vector's storage. *)
Definition memcpy_at (l : str) (off : nat) (data : str) : outcome str :=
  if decide (off + length data <= length l)%nat
  then Ok (take off l ++ data ++ drop (off + length data) l)
  else Undef.

(** Reading [n] bytes from offset [off] of the storage. *)
Definition mem_read (l : str) (off n : nat) : outcome str :=
  if decide (off + n <= length l)%nat then Ok (take n (drop off l)) else Undef.

(** [vector::resize]: cuts or value-initialises. *)
Definition resize (l : str) (n : nat) : str := take n l ++ replicate (n - length l) (chr 0).

Definition ConsumeAll (b : buffer) : buffer :=
  mk_buffer (buf_ b) kDefaultPrependSize kDefaultPrependSize.

Definition ReserveWritable (b : buffer) (new_size : nat) : outcome buffer :=
  if decide (new_size <= writable_size b)%nat then Ok b
  else if decide (prependable_size b + writable_size b < kDefaultPrependSize + new_size)%nat
  then Ok (mk_buffer (resize (buf_ b) (writer_index_ b + new_size))
                     (reader_index_ b) (writer_index_ b))
  else
    let data_size := readable_size b in
    data ← mem_read (buf_ b) (reader_index_ b) data_size;
    buf ← memcpy_at (buf_ b) kDefaultPrependSize data;
    Ok (mk_buffer buf kDefaultPrependSize (kDefaultPrependSize + data_size)).

(** The offset of the first writable byte. *)
Definition BeginWrite (b : buffer) : nat := writer_index_ b.

Definition EndWrite (b : buffer) (written_size : nat) : outcome buffer :=
  ensure_check (bool_decide (written_size <= writable_size b)%nat);;
  Ok (mk_buffer (buf_ b) (reader_index_ b) (writer_index_ b + written_size)).

Definition Write (b : buffer) (data : str) : outcome buffer :=
  b ← ReserveWritable b (length data);
  ensure_check (bool_decide (length data <= writable_size b)%nat);;
  buf ← memcpy_at (buf_ b) (BeginWrite b) data;
  EndWrite (mk_buffer buf (reader_index_ b) (writer_index_ b)) (length data).

Definition Consume (b : buffer) (data_size : nat) : outcome buffer :=
  ensure_check (bool_decide (data_size <= readable_size b)%nat);;
  if decide (data_size < readable_size b)%nat
  then Ok (mk_buffer (buf_ b) (reader_index_ b + data_size) (writer_index_ b))
  else Ok (ConsumeAll b).

Definition Prepend (b : buffer) (data : str) : outcome buffer :=
  ensure_check (bool_decide (length data <= prependable_size b)%nat);;
  let start := (reader_index_ b - length data)%nat in
  buf ← memcpy_at (buf_ b) start data;
  Ok (mk_buffer buf start (writer_index_ b)).

Definition ReadAsString (b : buffer) (len : nat) : outcome (str * buffer) :=
  ensure_check (bool_decide (len <= readable_size b)%nat);;
  s ← mem_read (buf_ b) (reader_index_ b) len;
  b ← Consume b len;
  Ok (s, b).

Definition ReadAllAsString (b : buffer) : outcome (str * buffer) :=
  s ← mem_read (buf_ b) (reader_index_ b) (readable_size b);
  Ok (s, ConsumeAll b).

Section Integers.
Context (host : byte_order).

(** [Write(intN_t)], [PeekAsIntN], [ReadAsIntN] and [Prepend(intN_t)] for a type of
    [k] bytes ([k] is 1, 2, 4 or 8; [int8_t] is copied as it is). *)
Definition to_wire (k : nat) (n : Z) : str :=
  host_store host k (to_unsigned k (if decide (k = 1%nat) then n else HostToNetwork host k n)).

Definition from_wire (k : nat) (bytes : str) : Z :=
  let be := to_signed k (host_load host bytes) in
  if decide (k = 1%nat) then be else NetworkToHost host k be.

Definition WriteInt (k : nat) (b : buffer) (n : Z) : outcome buffer := Write b (to_wire k n).

Definition PeekAsInt (k : nat) (b : buffer) : outcome Z :=
  ensure_check (bool_decide (k <= readable_size b)%nat);;
  be ← mem_read (buf_ b) (reader_index_ b) k;
  Ok (from_wire k be).

Definition ReadAsInt (k : nat) (b : buffer) : outcome (Z * buffer) :=
  n ← PeekAsInt k b;
  b ← Consume b k;
  Ok (n, b).

Definition PrependInt (k : nat) (b : buffer) (n : Z) : outcome buffer := Prepend b (to_wire k n).
End Integers.

(** [ReadFD]: [received] is what [readv] put into the two regions, [None] for an
    error.  [readv] fills the writable region of the buffer first. *)
Definition kExtraBufSize : nat := Z.to_nat 65535.

Definition readv_capacity (b : buffer) : nat :=
  if decide (writable_size b < kExtraBufSize)%nat
  then (writable_size b + kExtraBufSize)%nat else writable_size b.

Definition ReadFD (b : buffer) (received : option str) : outcome (Z * buffer) :=
  match received with
  | None => Ok (-1, b)
  | Some data =>
      let writable := writable_size b in
      buf ← memcpy_at (buf_ b) (BeginWrite b) (take writable data);
      let extra_buf := drop writable data in
      let b := mk_buffer buf (reader_index_ b) (writer_index_ b) in
      let size_read := length data in
      b ← (if decide (size_read <= writable)%nat then EndWrite b size_read
           else b ← EndWrite b writable; Write b (take (size_read - writable) extra_buf));
      Ok (Z.of_nat size_read, b)
  end.

(** ** The iterator: a position in the storage *)

Record iterator := mk_iterator { ptr_ : Z }.

Definition iter_pre_incr (it : iterator) : iterator := mk_iterator (ptr_ it + 1).
Definition iter_post_incr (it : iterator) : iterator * iterator := (it, iter_pre_incr it).
Definition iter_pre_decr (it : iterator) : iterator := mk_iterator (ptr_ it - 1).
Definition iter_post_decr (it : iterator) : iterator * iterator := (it, iter_pre_decr it).
Definition iter_add_assign (it : iterator) (n : Z) : iterator := mk_iterator (ptr_ it + n).
Definition iter_sub_assign (it : iterator) (n : Z) : iterator := mk_iterator (ptr_ it - n).
Definition iter_diff (lhs rhs : iterator) : Z := ptr_ lhs - ptr_ rhs.
Definition iter_eq (lhs rhs : iterator) : bool := ptr_ lhs =? ptr_ rhs.
Definition iter_ne (lhs rhs : iterator) : bool := negb (iter_eq lhs rhs).
Definition iter_deref (b : buffer) (it : iterator) : outcome ascii :=
  if 0 <=? ptr_ it then the (buf_ b !! Z.to_nat (ptr_ it)) else Undef.
Definition iter_index (b : buffer) (it : iterator) (n : Z) : outcome ascii :=
  iter_deref b (mk_iterator (ptr_ it + n)).
Definition cbegin (b : buffer) : iterator := mk_iterator (Z.of_nat (reader_index_ b)).
Definition cend (b : buffer) : iterator := mk_iterator (Z.of_nat (writer_index_ b)).

(** [operator+] returns the moved copy [temp]. *)
Definition iter_plus (it : iterator) (n : Z) : iterator :=
  let temp := it in let temp := iter_add_assign temp n in temp.

(** [operator-] moves its parameter [it] and returns the unmoved copy [temp]. *)
Definition iter_minus (it : iterator) (n : Z) : iterator :=
  let temp := it in let it := iter_sub_assign it n in temp.

(** The same operator in NetworkInfraWin/src/buffer.h moves [temp]. *)
Definition iter_minus_win (it : iterator) (n : Z) : iterator :=
  let temp := it in let temp := iter_sub_assign temp n in temp.

Definition iter_lt (lhs rhs : iterator) : bool := 0 <? iter_diff rhs lhs.
Definition iter_gt (lhs rhs : iterator) : bool := iter_lt rhs lhs.
Definition iter_le (lhs rhs : iterator) : bool := negb (iter_gt lhs rhs).
Definition iter_ge (lhs rhs : iterator) : bool := negb (iter_lt lhs rhs).

(** ** Well-formed buffers *)

Record buffer_wf (b : buffer) : Prop := {
  wf_order : (reader_index_ b <= writer_index_ b)%nat;
  wf_end : (writer_index_ b <= length (buf_ b))%nat;
  wf_room : (kDefaultPrependSize <= length (buf_ b))%nat
}.

Lemma make_buffer_wf n : buffer_wf (make_buffer n) /\ contents (make_buffer n) = [].
Proof.
  split; [|done]. split; simpl; rewrite ?length_replicate; unfold kDefaultPrependSize; lia.
Qed.

Lemma length_contents b : buffer_wf b -> length (contents b) = readable_size b.
Proof.
  intros [? ? ?]. unfold contents, readable_size. rewrite length_take, length_drop. lia.
Qed.

Lemma memcpy_at_ok l off data :
  (off + length data <= length l)%nat ->
  memcpy_at l off data = Ok (take off l ++ data ++ drop (off + length data) l).
Proof. intros H. unfold memcpy_at. by rewrite decide_True. Qed.

Lemma mem_read_ok l off n :
  (off + n <= length l)%nat -> mem_read l off n = Ok (take n (drop off l)).
Proof. intros H. unfold mem_read. by rewrite decide_True. Qed.

(** What a copy leaves in the region [r, w) and just behind it. *)
Lemma slice_append (l data : str) r w :
  (r <= w)%nat -> (w + length data <= length l)%nat ->
  take (w + length data - r) (drop r (take w l ++ data ++ drop (w + length data) l))
  = take (w - r) (drop r l) ++ data.
Proof.
  intros Hr Hl. rewrite drop_app_le by (rewrite length_take; lia).
  rewrite take_app, length_drop, length_take.
  rewrite take_ge by (rewrite length_drop, length_take; lia).
  replace (w + length data - r - (w `min` length l - r))%nat with (length data) by lia.
  rewrite take_app_length. f_equal.
  rewrite take_drop_commute. do 2 f_equal. lia.
Qed.

Lemma slice_prepend (l data : str) r w :
  (r <= w)%nat -> (w <= length l)%nat -> (length data <= r)%nat ->
  take (w - (r - length data))
       (drop (r - length data) (take (r - length data) l ++ data ++
                                drop (r - length data + length data) l))
  = data ++ take (w - r) (drop r l).
Proof.
  intros Hr Hw Hd. rewrite drop_app_length' by (rewrite length_take; lia).
  replace (r - length data + length data)%nat with r by lia.
  rewrite take_app. rewrite take_ge by lia. do 2 f_equal. lia.
Qed.

Lemma length_memcpy (l data : str) off :
  (off + length data <= length l)%nat ->
  length (take off l ++ data ++ drop (off + length data) l) = length l.
Proof. intros H. rewrite !length_app, length_take, length_drop. lia. Qed.

(** *** Each operation against the queue of its contents *)

Lemma ReserveWritable_spec b n :
  buffer_wf b ->
  exists b', ReserveWritable b n = Ok b' /\ buffer_wf b' /\ contents b' = contents b /\
             (n <= writable_size b')%nat.
Proof.
  intros Hwf. pose proof Hwf as [Ho He Hr]. unfold ReserveWritable.
  case_decide as H1; [exists b; by split_and!|].
  case_decide as H2.
  - eexists. split; [done|].
    assert (Hlen : length (resize (buf_ b) (writer_index_ b + n)) = (writer_index_ b + n)%nat).
    { unfold resize. rewrite length_app, length_take, length_replicate.
      unfold writable_size in H1. lia. }
    split_and!; [split; simpl; rewrite ?Hlen; unfold kDefaultPrependSize, writable_size in *; lia| |].
    + unfold contents, readable_size, resize; simpl.
      unfold writable_size in H1. rewrite (take_ge (buf_ b)) by lia.
      rewrite drop_app_le by lia. rewrite take_app_le by (rewrite length_drop; lia). done.
    + unfold writable_size; simpl. rewrite Hlen. lia.
  - unfold prependable_size, writable_size, readable_size, kDefaultPrependSize in *.
    rewrite mem_read_ok by lia. cbn [mbind outcome_bind].
    assert (Hd : length (take (writer_index_ b - reader_index_ b)
                           (drop (reader_index_ b) (buf_ b)))
                 = (writer_index_ b - reader_index_ b)%nat)
      by (rewrite length_take, length_drop; lia).
    rewrite memcpy_at_ok by lia. cbn [mbind outcome_bind]. eexists. split; [done|].
    split_and!; [split; simpl; rewrite ?length_memcpy; unfold kDefaultPrependSize; lia| |].
    + unfold contents, readable_size; simpl.
      rewrite drop_app_length' by (rewrite length_take; lia).
      rewrite take_app_length'; [done|lia].
    + simpl. rewrite length_memcpy by lia. lia.
Qed.

Lemma Write_spec b data :
  buffer_wf b ->
  exists b', Write b data = Ok b' /\ buffer_wf b' /\ contents b' = contents b ++ data.
Proof.
  intros Hwf. unfold Write.
  destruct (ReserveWritable_spec b (length data) Hwf) as (b1 & -> & Hwf1 & Hc & Hn).
  cbn [mbind outcome_bind]. rewrite bool_decide_true by done.
  cbn [ensure_check mbind outcome_bind]. pose proof Hwf1 as [Ho He Hr].
  unfold writable_size, BeginWrite in *. rewrite memcpy_at_ok by lia.
  cbn [mbind outcome_bind]. unfold EndWrite, writable_size. cbn [buf_ writer_index_].
  rewrite length_memcpy, bool_decide_true by lia. cbn [ensure_check mbind outcome_bind].
  eexists. split; [done|]. split.
  - split; simpl; rewrite ?length_memcpy by lia; unfold kDefaultPrependSize in *; lia.
  - rewrite <- Hc. unfold contents, readable_size; simpl. by apply slice_append; lia.
Qed.

Lemma Consume_spec b n :
  buffer_wf b ->
  match Consume b n with
  | Ok b' => (n <= length (contents b))%nat /\ buffer_wf b' /\ contents b' = drop n (contents b)
  | Throw e => e = check_failure /\ (length (contents b) < n)%nat
  | _ => False
  end.
Proof.
  intros Hwf. rewrite length_contents by done. pose proof Hwf as [Ho He Hr].
  unfold Consume. case_bool_decide; cbn [ensure_check mbind outcome_bind]; [|split; [done|lia]].
  case_decide; (split; [done|]); (split; [split; simpl|]);
    unfold readable_size, kDefaultPrependSize in *; try lia.
  - unfold contents, readable_size; simpl. rewrite skipn_firstn_comm, drop_drop.
    f_equal; lia.
  - symmetry. apply drop_ge. rewrite length_contents by done. unfold readable_size. lia.
Qed.

Lemma mem_read_contents b n :
  buffer_wf b -> (n <= length (contents b))%nat ->
  mem_read (buf_ b) (reader_index_ b) n = Ok (take n (contents b)).
Proof.
  intros Hwf Hn. rewrite length_contents in Hn by done. pose proof Hwf as [Ho He Hr].
  unfold readable_size in Hn. rewrite mem_read_ok by lia.
  unfold contents. rewrite take_take. do 2 f_equal. unfold readable_size. lia.
Qed.

Lemma ReadAsString_spec b n :
  buffer_wf b ->
  match ReadAsString b n with
  | Ok (s, b') => (n <= length (contents b))%nat /\ buffer_wf b' /\
                  s = take n (contents b) /\ contents b' = drop n (contents b)
  | Throw e => e = check_failure /\ (length (contents b) < n)%nat
  | _ => False
  end.
Proof.
  intros Hwf. unfold ReadAsString.
  case_bool_decide as Hn; rewrite <- length_contents in Hn by done;
    cbn [ensure_check mbind outcome_bind]; [|split; [done|lia]].
  rewrite mem_read_contents by done. cbn [mbind outcome_bind].
  pose proof (Consume_spec b n Hwf) as Hc.
  destruct (Consume b n); cbn [mbind outcome_bind]; naive_solver lia.
Qed.

Lemma ReadAllAsString_spec b :
  buffer_wf b ->
  ReadAllAsString b = Ok (contents b, ConsumeAll b) /\
  buffer_wf (ConsumeAll b) /\ contents (ConsumeAll b) = [].
Proof.
  intros Hwf. pose proof Hwf as [Ho He Hr]. unfold ReadAllAsString. split_and!; [| |done].
  - rewrite <- length_contents, mem_read_contents, take_ge by done. done.
  - split; simpl; unfold kDefaultPrependSize in *; lia.
Qed.

Lemma Prepend_spec b data :
  buffer_wf b ->
  match Prepend b data with
  | Ok b' => buffer_wf b' /\ contents b' = data ++ contents b /\
             (prependable_size b' = prependable_size b - length data)%nat
  | Throw e => e = check_failure /\ (prependable_size b < length data)%nat
  | _ => False
  end.
Proof.
  intros Hwf. pose proof Hwf as [Ho He Hr]. unfold Prepend, prependable_size in *.
  case_bool_decide; cbn [ensure_check mbind outcome_bind]; [|split; [done|lia]].
  rewrite memcpy_at_ok by lia. cbn [mbind outcome_bind]. split_and!; [|by apply slice_prepend|done].
  split; simpl; rewrite ?length_memcpy by lia; lia.
Qed.

Lemma PeekAsInt_spec host k b :
  buffer_wf b ->
  PeekAsInt host k b =
    if decide (k <= length (contents b))%nat
    then Ok (from_wire host k (take k (contents b))) else Throw check_failure.
Proof.
  intros Hwf. unfold PeekAsInt.
  case_bool_decide as Hn; rewrite <- length_contents in Hn by done;
    cbn [ensure_check mbind outcome_bind]; [|by rewrite decide_False by lia].
  rewrite mem_read_contents, decide_True by done. done.
Qed.

Lemma ReadAsInt_spec host k b :
  buffer_wf b ->
  match ReadAsInt host k b with
  | Ok (n, b') => (k <= length (contents b))%nat /\ buffer_wf b' /\
                  n = from_wire host k (take k (contents b)) /\
                  contents b' = drop k (contents b)
  | Throw e => e = check_failure /\ (length (contents b) < k)%nat
  | _ => False
  end.
Proof.
  intros Hwf. unfold ReadAsInt. rewrite PeekAsInt_spec by done.
  case_decide; cbn [mbind outcome_bind]; [|split; [done|lia]].
  pose proof (Consume_spec b k Hwf) as Hc.
  destruct (Consume b k); cbn [mbind outcome_bind]; naive_solver lia.
Qed.

(** *** Integers on the wire *)

(** On either host the written bytes are the integer's bytes, most significant
    first, and reading such bytes gives the integer. *)
Lemma to_wire_spec host k n :
  (0 < k)%nat -> to_wire host k n = be_bytes k (to_unsigned k n).
Proof.
  intros Hk. unfold to_wire. case_decide as H1.
  - subst k. destruct host; reflexivity.
  - unfold HostToNetwork.
    rewrite to_unsigned_signed; [apply host_store_hton|done|].
    apply hton_bound, to_unsigned_bound.
Qed.

Lemma from_wire_spec host k bytes :
  (0 < k)%nat -> length bytes = k -> from_wire host k bytes = to_signed k (be_value bytes).
Proof.
  intros Hk Hl. unfold from_wire. case_decide as H1.
  - subst k. destruct bytes as [|c [|??]]; try discriminate. destruct host; reflexivity.
  - unfold NetworkToHost. pose proof (host_load_bound host bytes) as Hb. rewrite Hl in Hb.
    rewrite to_unsigned_signed by done. by rewrite hton_host_load.
Qed.

Lemma from_to_wire host host' k n :
  (0 < k)%nat -> in_i (8 * Z.of_nat k) n -> from_wire host' k (to_wire host k n) = n.
Proof.
  intros Hk Hn. rewrite to_wire_spec, from_wire_spec by (done || apply length_be_bytes).
  rewrite be_value_bytes, Z.mod_small by apply to_unsigned_bound.
  by apply to_signed_unsigned.
Qed.

Lemma length_to_wire host k n : (0 < k)%nat -> length (to_wire host k n) = k.
Proof. intros. rewrite to_wire_spec by done. apply length_be_bytes. Qed.

(** *** Receiving *)

Lemma ReadFD_spec b data :
  buffer_wf b -> (length data <= readv_capacity b)%nat ->
  exists b', ReadFD b (Some data) = Ok (Z.of_nat (length data), b') /\
             buffer_wf b' /\ contents b' = contents b ++ data.
Proof.
  intros Hwf Hcap. pose proof Hwf as [Ho He Hr]. unfold ReadFD, BeginWrite.
  set (w := writable_size b). set (d := take w data).
  assert (Hd : length d = (w `min` length data)%nat) by (unfold d; by rewrite length_take).
  assert (Hw : (writer_index_ b + w = length (buf_ b))%nat) by (unfold w, writable_size; lia).
  rewrite memcpy_at_ok by lia. cbn [mbind outcome_bind].
  set (buf := take _ _ ++ d ++ _).
  assert (Hbuf : length buf = length (buf_ b)) by (apply length_memcpy; lia).
  assert (Hend : forall m, (m <= w)%nat ->
    EndWrite (mk_buffer buf (reader_index_ b) (writer_index_ b)) m =
    Ok (mk_buffer buf (reader_index_ b) (writer_index_ b + m))).
  { intros m Hm. unfold EndWrite, writable_size. cbn [buf_ writer_index_].
    by rewrite bool_decide_true by lia. }
  assert (Hwf' : forall m, (m <= w)%nat ->
    buffer_wf (mk_buffer buf (reader_index_ b) (writer_index_ b + m)))
    by (intros m Hm; split; simpl; lia).
  assert (Hc : contents (mk_buffer buf (reader_index_ b) (writer_index_ b + length d))
               = contents b ++ d).
  { unfold contents, readable_size; simpl. apply slice_append; lia. }
  case_decide as Hle.
  - rewrite Hend by lia. cbn [mbind outcome_bind].
    assert (Hdd : d = data) by (apply take_ge; lia). rewrite Hdd in Hc.
    eexists. split_and!; [done|by apply Hwf'|done].
  - rewrite Hend by lia. cbn [mbind outcome_bind].
    replace (writer_index_ b + w)%nat with (writer_index_ b + length d)%nat by lia.
    destruct (Write_spec (mk_buffer buf (reader_index_ b) (writer_index_ b + length d))
                (take (length data - w) (drop w data))) as (b' & -> & Hb' & Hc');
      [apply Hwf'; lia|].
    cbn [mbind outcome_bind]. eexists. split_and!; [done|done|].
    rewrite Hc', Hc, <- app_assoc. f_equal. unfold d.
    rewrite (take_ge (drop w data)) by (rewrite length_drop; lia). apply take_drop.
Qed.

(** ** The abstract specification: a queue of bytes *)

Inductive int_width := W8 | W16 | W32 | W64.
Definition width_bytes (w : int_width) : nat :=
  match w with W8 => 1 | W16 => 2 | W32 => 4 | W64 => 8 end.

Inductive op :=
| OWrite (data : str)
| OWriteInt (w : int_width) (n : Z)
| OPeekInt (w : int_width)
| OReadInt (w : int_width)
| OReadString (len : nat)
| OReadAll
| OConsume (len : nat)
| OConsumeAll
| OPrepend (data : str)
| OPrependInt (w : int_width) (n : Z).

Inductive output := NoOutput | IntOutput (n : Z) | StrOutput (s : str).

Definition exec_op (host : byte_order) (b : buffer) (o : op) : outcome (output * buffer) :=
  match o with
  | OWrite data => b ← Write b data; Ok (NoOutput, b)
  | OWriteInt w n => b ← WriteInt host (width_bytes w) b n; Ok (NoOutput, b)
  | OPeekInt w => n ← PeekAsInt host (width_bytes w) b; Ok (IntOutput n, b)
  | OReadInt w => '(n, b) ← ReadAsInt host (width_bytes w) b; Ok (IntOutput n, b)
  | OReadString len => '(s, b) ← ReadAsString b len; Ok (StrOutput s, b)
  | OReadAll => '(s, b) ← ReadAllAsString b; Ok (StrOutput s, b)
  | OConsume len => b ← Consume b len; Ok (NoOutput, b)
  | OConsumeAll => Ok (NoOutput, ConsumeAll b)
  | OPrepend data => b ← Prepend b data; Ok (NoOutput, b)
  | OPrependInt w n => b ← PrependInt host (width_bytes w) b n; Ok (NoOutput, b)
  end.

Fixpoint run_ops (host : byte_order) (b : buffer) (ops : list op)
    : outcome (list output * buffer) :=
  match ops with
  | [] => Ok ([], b)
  | o :: ops =>
      '(x, b) ← exec_op host b o;
      '(xs, b) ← run_ops host b ops;
      Ok (x :: xs, b)
  end.

(** The queue does not know about hosts, indices or storage. *)
Definition wire (w : int_width) (n : Z) : str :=
  be_bytes (width_bytes w) (to_unsigned (width_bytes w) n).
Definition unwire (w : int_width) (bytes : str) : Z :=
  to_signed (width_bytes w) (be_value bytes).

Definition queue_op (q : str) (o : op) : option (output * str) :=
  match o with
  | OWrite data => Some (NoOutput, q ++ data)
  | OWriteInt w n => Some (NoOutput, q ++ wire w n)
  | OPeekInt w =>
      if decide (width_bytes w <= length q)%nat
      then Some (IntOutput (unwire w (take (width_bytes w) q)), q) else None
  | OReadInt w =>
      if decide (width_bytes w <= length q)%nat
      then Some (IntOutput (unwire w (take (width_bytes w) q)), drop (width_bytes w) q) else None
  | OReadString len =>
      if decide (len <= length q)%nat then Some (StrOutput (take len q), drop len q) else None
  | OReadAll => Some (StrOutput q, [])
  | OConsume len => if decide (len <= length q)%nat then Some (NoOutput, drop len q) else None
  | OConsumeAll => Some (NoOutput, [])
  | OPrepend data => Some (NoOutput, data ++ q)
  | OPrependInt w n => Some (NoOutput, wire w n ++ q)
  end.

Fixpoint queue_ops (q : str) (ops : list op) : option (list output * str) :=
  match ops with
  | [] => Some ([], q)
  | o :: ops =>
      '(x, q) ← queue_op q o;
      '(xs, q) ← queue_ops q ops;
      Some (x :: xs, q)
  end.

(** Only prepending can fail where the queue succeeds: the head room is finite. *)
Definition prepend_length (o : op) : nat :=
  match o with
  | OPrepend data => length data
  | OPrependInt w _ => width_bytes w
  | _ => 0
  end.

(** Why a CHECK fails: too few bytes, or too little head room. *)
Definition op_fails (b : buffer) (o : op) : Prop :=
  queue_op (contents b) o = None \/ (prependable_size b < prepend_length o)%nat.

Definition refines (o : op) (b : buffer) (r : outcome (output * buffer)) : Prop :=
  match r with
  | Ok (x, b') => buffer_wf b' /\ queue_op (contents b) o = Some (x, contents b')
  | Throw e => e = check_failure /\ op_fails b o
  | _ => False
  end.

Lemma width_bytes_pos w : (0 < width_bytes w)%nat.
Proof. destruct w; simpl; lia. Qed.
#[export] Hint Resolve width_bytes_pos : eureka.

Lemma exec_op_refines host b o : buffer_wf b -> refines o b (exec_op host b o).
Proof.
  intros Hwf. unfold refines, op_fails.
  destruct o as [data|w n|w|w|len| |len| |data|w n]; cbn [exec_op queue_op prepend_length].
  - destruct (Write_spec b data Hwf) as (b' & -> & Hb & Hc). simpl. by rewrite Hc.
  - unfold WriteInt. destruct (Write_spec b (to_wire host (width_bytes w) n) Hwf)
      as (b' & -> & Hb & Hc). simpl.
    by rewrite Hc, to_wire_spec by apply width_bytes_pos.
  - rewrite PeekAsInt_spec by done. case_decide; cbn [mbind outcome_bind]; [|by split; [|left]].
    split; [done|]. rewrite from_wire_spec; [done|apply width_bytes_pos|].
    rewrite length_take; lia.
  - pose proof (ReadAsInt_spec host (width_bytes w) b Hwf) as H.
    destruct (ReadAsInt _ _ _) as [[n b']|e| |]; cbn [mbind outcome_bind]; try done.
    + destruct H as (Hl & Hb & -> & ->). rewrite decide_True by done. split; [done|].
      rewrite from_wire_spec; [done|apply width_bytes_pos|]. rewrite length_take; lia.
    + destruct H as [-> H]. rewrite decide_False by lia. by split; [|left].
  - pose proof (ReadAsString_spec b len Hwf) as H.
    destruct (ReadAsString _ _) as [[s b']|e| |]; cbn [mbind outcome_bind]; try done.
    + destruct H as (Hl & Hb & -> & ->). by rewrite decide_True by done.
    + destruct H as [-> H]. rewrite decide_False by lia. by split; [|left].
  - destruct (ReadAllAsString_spec b Hwf) as (-> & Hb & Hc).
    cbn [mbind outcome_bind]. by rewrite Hc.
  - pose proof (Consume_spec b len Hwf) as H.
    destruct (Consume _ _) as [b'|e| |]; cbn [mbind outcome_bind]; try done.
    + destruct H as (Hl & Hb & ->). by rewrite decide_True by done.
    + destruct H as [-> H]. rewrite decide_False by lia. by split; [|left].
  - destruct (ReadAllAsString_spec b Hwf) as (_ & Hb & Hc). by rewrite Hc.
  - pose proof (Prepend_spec b data Hwf) as H.
    destruct (Prepend _ _) as [b'|e| |]; cbn [mbind outcome_bind]; try done.
    + destruct H as (Hb & -> & _). done.
    + destruct H as [-> H]. by split; [|right].
  - unfold PrependInt. pose proof (Prepend_spec b (to_wire host (width_bytes w) n) Hwf) as H.
    destruct (Prepend _ _) as [b'|e| |]; cbn [mbind outcome_bind]; try done.
    + destruct H as (Hb & -> & _). by rewrite to_wire_spec by apply width_bytes_pos.
    + destruct H as [-> H]. rewrite length_to_wire in H by apply width_bytes_pos.
      by split; [|right].
Qed.

(** ** Properties *)

(** C2: every sequence of buffer operations refines the same sequence on a queue of
    bytes: it returns what the queue returns and holds the queue's bytes, it never
    touches storage out of range, and a CHECK fails only at an operation that finds
    too few bytes in the queue or, if it prepends, too little head room. *)
Theorem buffer_refines_queue host b ops :
  buffer_wf b ->
  match run_ops host b ops with
  | Ok (xs, b') => buffer_wf b' /\ queue_ops (contents b) ops = Some (xs, contents b')
  | Throw e =>
      e = check_failure /\
      exists before o after xs b',
        ops = before ++ o :: after /\ run_ops host b before = Ok (xs, b') /\
        queue_ops (contents b) before = Some (xs, contents b') /\ op_fails b' o
  | _ => False
  end.
Proof.
  revert b. induction ops as [|o ops IH]; intros b Hwf; [done|].
  cbn [run_ops queue_ops]. pose proof (exec_op_refines host b o Hwf) as H. unfold refines in H.
  destruct (exec_op host b o) as [[x b1]|e| |] eqn:E; cbn [mbind outcome_bind]; try done.
  - destruct H as [Hb1 Hq]. rewrite Hq. cbn [mbind option_bind]. specialize (IH b1 Hb1).
    destruct (run_ops host b1 ops) as [[xs b2]|e| |]; cbn [mbind outcome_bind]; try done.
    + destruct IH as [Hb2 ->]. done.
    + destruct IH as (-> & before & o' & after & xs & b' & -> & Hr & Hq' & Hf). split; [done|].
      exists (o :: before), o', after, (x :: xs), b'. split_and!; [done| | |done]; simpl.
      * by rewrite E; cbn [mbind outcome_bind]; rewrite Hr.
      * by rewrite Hq; cbn [mbind option_bind]; rewrite Hq'.
  - destruct H as [-> Hf]. split; [done|]. by exists [], o, ops, [], b.
Qed.

(** C33: an integer written on one host, received by another host through [ReadFD]
    into an empty buffer and read there is the same integer, whatever the byte
    orders of the two hosts. *)
Theorem int_transfer sender receiver w n b b' :
  buffer_wf b -> contents b = [] -> buffer_wf b' -> contents b' = [] ->
  in_i (8 * Z.of_nat (width_bytes w)) n ->
  exists b1 b2 b3,
    WriteInt sender (width_bytes w) b n = Ok b1 /\
    ReadFD b' (Some (contents b1)) = Ok (Z.of_nat (width_bytes w), b2) /\
    ReadAsInt receiver (width_bytes w) b2 = Ok (n, b3) /\
    buffer_wf b3 /\ contents b3 = [].
Proof.
  intros Hwf Hc Hwf' Hc' Hn. pose proof (width_bytes_pos w) as Hk.
  unfold WriteInt. set (k := width_bytes w) in *.
  destruct (Write_spec b (to_wire sender k n) Hwf) as (b1 & -> & Hb1 & Hc1).
  rewrite Hc in Hc1. simpl in Hc1.
  assert (Hl : length (contents b1) = k) by (rewrite Hc1; by apply length_to_wire).
  destruct (ReadFD_spec b' (contents b1) Hwf') as (b2 & HR & Hb2 & Hc2).
  { rewrite Hl. unfold readv_capacity, kExtraBufSize.
    assert (k <= 8)%nat by (unfold k; destruct w; simpl; lia). case_decide; lia. }
  rewrite Hc', Hc1 in Hc2. simpl in Hc2. rewrite Hl in HR.
  pose proof (ReadAsInt_spec receiver k b2 Hb2) as H.
  destruct (ReadAsInt receiver k b2) as [[m b3]|e| |] eqn:E.
  - destruct H as (_ & Hb3 & -> & Hc3). exists b1, b2, b3.
    rewrite Hc2, take_ge, from_to_wire in E by (done || by rewrite length_to_wire).
    split_and!; try done. rewrite Hc3, Hc2. apply drop_ge. by rewrite length_to_wire.
  - rewrite Hc2, length_to_wire in H by done. destruct H; lia.
  - done.
  - done.
Qed.

(** The buffer's [operator-] on iterators does not move the iterator, while the
    Windows copy of the same operator undoes [operator+]. *)
Theorem iter_minus_stuck it n :
  iter_minus it n = it /\
  (n <> 0 -> iter_minus (iter_plus it n) n <> it) /\
  iter_minus_win (iter_plus it n) n = it.
Proof.
  destruct it as [p]. split_and!; [done| |].
  - unfold iter_minus, iter_plus; simpl. intros Hn [= H]. lia.
  - unfold iter_minus_win, iter_sub_assign, iter_plus; simpl. f_equal. lia.
Qed.

Definition sample_ops : list op :=
  [OWrite (lit "hello"); OPrependInt W32 5; OReadInt W32; OReadString 2; OWriteInt W64 (-2);
   OReadInt W64; OConsume 9].

Example sample_ops_fail : run_ops little_endian (make_buffer 4) sample_ops = Throw check_failure.
Proof. vm_compute. reflexivity. Qed.

Lemma buffer_refines_queue_witness :
  exists before o after xs b',
    sample_ops = before ++ o :: after /\ run_ops little_endian (make_buffer 4) before = Ok (xs, b') /\
    queue_ops (contents (make_buffer 4)) before = Some (xs, contents b') /\ op_fails b' o.
Proof.
  pose proof (buffer_refines_queue little_endian (make_buffer 4) sample_ops
                (proj1 (make_buffer_wf 4))) as H.
  rewrite sample_ops_fail in H. exact (proj2 H).
Defined.

Example sample_ops_ok :
  run_ops little_endian (make_buffer 4) (take 4 sample_ops)
  = Ok ([NoOutput; NoOutput; IntOutput 5; StrOutput (lit "he")],
        mk_buffer (replicate 4 (chr 0) ++ map chr [0; 0; 0; 5] ++ lit "hello") 10 13).
Proof. vm_compute. reflexivity. Qed.

Lemma int_transfer_witness :
  exists b1 b2 b3,
    WriteInt little_endian 4 default_buffer (-123456) = Ok b1 /\
    ReadFD (make_buffer 2) (Some (contents b1)) = Ok (4, b2) /\
    ReadAsInt big_endian 4 b2 = Ok (-123456, b3) /\
    buffer_wf b3 /\ contents b3 = [].
Proof.
  apply (int_transfer little_endian big_endian W32); try apply make_buffer_wf.
  unfold in_i. simpl. lia.
Defined.
