(* ===== verification/BuddyTree.v ===== *)
(** * Buddy trees: the specification level of the bin manager

    A tree of level [k] covers [2^k] slots; it is free, one allocated bin, or split
    into two trees of level [k - 1].  Allocation and release are functions on
    trees, related here to the list of allocated blocks [(offset, size)]. *)

From S2P Require Import Prelude.

Definition p2 (k : nat) : Z := 2 ^ Z.of_nat k.
#[global] Arguments p2 : simpl never.

Lemma p2_S k : p2 (S k) = 2 * p2 k.
Proof. unfold p2. rewrite Nat2Z.inj_succ, Z.pow_succ_r; lia. Qed.

Lemma p2_pos k : 0 < p2 k.
Proof. apply Z.pow_pos_nonneg; lia. Qed.

Lemma p2_le j k : (j <= k)%nat -> p2 j <= p2 k.
Proof. intros H. apply Z.pow_le_mono_r; lia. Qed.

Lemma p2_lt j k : (j < k)%nat -> 2 * p2 j <= p2 k.
Proof. intros H. rewrite <- p2_S. apply p2_le. lia. Qed.

Lemma p2_divide j k : (j <= k)%nat -> (p2 j | p2 k).
Proof.
  intros H. exists (p2 (k - j)). unfold p2. rewrite <- Z.pow_add_r by lia. f_equal. lia.
Qed.

Inductive tree := TFree | TUsed | TSplit (l r : tree).

#[global] Instance tree_eq_dec : EqDecision tree.
Proof. solve_decision. Defined.

(** Free buddies are merged. *)
Fixpoint wf_tree (k : nat) (t : tree) {struct t} : Prop :=
  match t with
  | TSplit l r =>
      match k with
      | O => False
      | S k => ~ (l = TFree /\ r = TFree) /\ wf_tree k l /\ wf_tree k r
      end
  | _ => True
  end.

(** The size of the largest free block. *)
Fixpoint maxfree (k : nat) (t : tree) : Z :=
  match t with
  | TFree => p2 k
  | TUsed => 0
  | TSplit l r => Z.max (maxfree (pred k) l) (maxfree (pred k) r)
  end.

Definition halves (t : tree) : tree * tree :=
  match t with TSplit l r => (l, r) | _ => (TFree, TFree) end.

(** Allocates the leftmost block of level [j] in the left-first descent. *)
Fixpoint alloc_in (j k : nat) (t : tree) : tree * Z :=
  if decide (k = j) then (TUsed, 0)
  else match k with
  | O => (t, 0)
  | S k =>
      let '(l, r) := halves t in
      if p2 j <=? maxfree k l
      then let '(l', o) := alloc_in j k l in (TSplit l' r, o)
      else let '(r', o) := alloc_in j k r in (TSplit l r', p2 k + o)
  end.

Definition join_tree (l r : tree) : tree :=
  if decide (l = TFree /\ r = TFree) then TFree else TSplit l r.

(** The level of the allocated bin that covers slot [o]. *)
Fixpoint find_used (k : nat) (o : Z) (t : tree) : option nat :=
  match t with
  | TFree => None
  | TUsed => Some k
  | TSplit l r =>
      if o <? p2 (pred k) then find_used (pred k) o l
      else find_used (pred k) (o - p2 (pred k)) r
  end.

(** Releases the bin that covers slot [o]. *)
Fixpoint free_at (k : nat) (o : Z) (t : tree) : tree :=
  match t with
  | TFree | TUsed => TFree
  | TSplit l r =>
      if o <? p2 (pred k) then join_tree (free_at (pred k) o l) r
      else join_tree l (free_at (pred k) (o - p2 (pred k)) r)
  end.

(** The allocated blocks of a tree that starts at slot [off]. *)
Fixpoint blocks (k : nat) (off : Z) (t : tree) : list (Z * Z) :=
  match t with
  | TFree => []
  | TUsed => [(off, p2 k)]
  | TSplit l r => blocks (pred k) off l ++ blocks (pred k) (off + p2 (pred k)) r
  end.

Definition disjoint_blocks (a b : Z * Z) : Prop := a.1 + a.2 <= b.1 \/ b.1 + b.2 <= a.1.

#[global] Instance disjoint_blocks_dec a b : Decision (disjoint_blocks a b).
Proof. unfold disjoint_blocks. apply _. Defined.

(** ** Maxima *)

Lemma maxfree_bounds k t : wf_tree k t -> 0 <= maxfree k t <= p2 k.
Proof.
  revert k. induction t as [| |l IHl r IHr]; intros k Hwf; simpl;
    try (pose proof (p2_pos k); lia).
  destruct k as [|k]; simpl in Hwf; [done|]. destruct Hwf as (_ & Hl & Hr).
  specialize (IHl k Hl). specialize (IHr k Hr). rewrite p2_S. simpl. lia.
Qed.

Lemma maxfree_full k t : wf_tree k t -> maxfree k t = p2 k <-> t = TFree.
Proof.
  intros Hwf. split; [|intros ->; done].
  destruct t as [| |l r]; [done| |]; simpl; [pose proof (p2_pos k); lia|].
  destruct k as [|k]; simpl in Hwf; [done|]. destruct Hwf as (_ & Hl & Hr).
  pose proof (maxfree_bounds k l Hl). pose proof (maxfree_bounds k r Hr).
  pose proof (p2_pos k). rewrite p2_S. simpl. lia.
Qed.

Lemma maxfree_sum k l r :
  wf_tree k l -> wf_tree k r ->
  maxfree k l + maxfree k r = p2 (S k) <-> l = TFree /\ r = TFree.
Proof.
  intros Hl Hr. rewrite <- (maxfree_full k l), <- (maxfree_full k r) by done.
  pose proof (maxfree_bounds k l Hl). pose proof (maxfree_bounds k r Hr).
  rewrite p2_S. lia.
Qed.

(** What the merging loop stores is the maximum of the joined tree. *)
Lemma maxfree_join k l r :
  wf_tree k l -> wf_tree k r ->
  maxfree (S k) (join_tree l r) =
    if maxfree k l + maxfree k r =? p2 (S k) then p2 (S k)
    else Z.max (maxfree k l) (maxfree k r).
Proof.
  intros Hl Hr. pose proof (maxfree_sum k l r Hl Hr) as H. unfold join_tree.
  case_decide as H1; case_bool; try done; apply H in H1 || (exfalso; apply H1, H); lia.
Qed.

Lemma wf_join k l r : wf_tree k l -> wf_tree k r -> wf_tree (S k) (join_tree l r).
Proof. intros. unfold join_tree. case_decide; simpl; [done|]. done. Qed.

Lemma halves_wf k t : wf_tree (S k) t -> wf_tree k (halves t).1 /\ wf_tree k (halves t).2.
Proof. destruct t; simpl; naive_solver. Qed.

Lemma blocks_halves k off t :
  t <> TUsed ->
  blocks (S k) off t = blocks k off (halves t).1 ++ blocks k (off + p2 k) (halves t).2.
Proof. destruct t; done. Qed.

Lemma maxfree_halves k t n :
  t <> TUsed -> n <= p2 k -> n <= maxfree (S k) t ->
  n <= maxfree k (halves t).1 \/ n <= maxfree k (halves t).2.
Proof. intros Ht Hn. destruct t; simpl; [|done|lia]. lia. Qed.

(** ** Allocation *)

Lemma alloc_in_step j k t :
  (j <= k)%nat ->
  alloc_in j (S k) t =
    if p2 j <=? maxfree k (halves t).1
    then (TSplit (alloc_in j k (halves t).1).1 (halves t).2, (alloc_in j k (halves t).1).2)
    else (TSplit (halves t).1 (alloc_in j k (halves t).2).1,
          p2 k + (alloc_in j k (halves t).2).2).
Proof.
  intros Hj. cbn [alloc_in]. rewrite decide_False by lia.
  destruct (halves t) as [l r]; simpl. case_bool; by destruct (alloc_in _ _ _).
Qed.

Lemma alloc_in_same j t : alloc_in j j t = (TUsed, 0).
Proof. destruct j; cbn [alloc_in]; by rewrite decide_True. Qed.

Lemma usable_not_used j k t : p2 j <= maxfree k t -> t <> TUsed.
Proof. intros H ->. simpl in H. pose proof (p2_pos j). lia. Qed.

Lemma same_level_free k t : wf_tree k t -> p2 k <= maxfree k t -> t = TFree.
Proof. intros Hwf H. apply (maxfree_full k); [done|]. pose proof (maxfree_bounds k t Hwf). lia. Qed.

Record alloc_ok (j k : nat) (t t' : tree) (o : Z) : Prop := {
  ao_wf : wf_tree k t';
  ao_used : t' <> TFree;
  ao_range : 0 <= o /\ o + p2 j <= p2 k;
  ao_aligned : (p2 j | o);
  ao_blocks : forall off, blocks k off t' ≡ₚ (off + o, p2 j) :: blocks k off t
}.

Lemma alloc_in_ok j k t :
  wf_tree k t -> (j <= k)%nat -> p2 j <= maxfree k t ->
  alloc_ok j k t (alloc_in j k t).1 (alloc_in j k t).2.
Proof.
  revert t. induction k as [|k IH]; intros t Hwf Hj Hm.
  - assert (j = 0%nat) as -> by lia. rewrite alloc_in_same.
    rewrite (same_level_free 0 t) by done.
    split; simpl; try done; [apply Z.divide_0_r|]. intros off. by rewrite Z.add_0_r.
  - destruct (decide (j = S k)) as [->|Hne].
    { rewrite alloc_in_same, (same_level_free (S k) t) by done.
      split; simpl; try done; [apply Z.divide_0_r|]. intros off. by rewrite Z.add_0_r. }
    rewrite alloc_in_step by lia. destruct (halves_wf k t Hwf) as [Hl Hr].
    pose proof (usable_not_used j (S k) t Hm) as Hu.
    pose proof (maxfree_halves k t (p2 j) Hu (p2_le j k ltac:(lia)) Hm) as Hh.
    case_bool; simpl.
    + destruct (IH _ Hl ltac:(lia) E) as [? ? ? ? Hb]. split; simpl; [tauto|done| |done|].
      * pose proof (p2_pos k). rewrite p2_S. lia.
      * intros off. rewrite (blocks_halves k off t) by done. by rewrite Hb.
    + destruct (IH _ Hr ltac:(lia) ltac:(lia)) as [? ? ? ? Hb]. split; simpl; [tauto|done| | |].
      * rewrite p2_S. pose proof (p2_pos k). lia.
      * apply Z.divide_add_r; [apply p2_divide; lia|done].
      * intros off. rewrite (blocks_halves k off t) by done. rewrite Hb.
        rewrite Z.add_assoc. symmetry. apply Permutation_middle.
Qed.

(** ** The blocks of a tree *)

Lemma blocks_inside k off t b :
  wf_tree k t -> b ∈ blocks k off t ->
  exists j, (j <= k)%nat /\ b.2 = p2 j /\ off <= b.1 /\ b.1 + b.2 <= off + p2 k /\ (p2 j | b.1 - off).
Proof.
  revert k off. induction t as [| |l IHl r IHr]; intros k off Hwf Hb; simpl in Hb.
  - by apply not_elem_of_nil in Hb.
  - apply list_elem_of_singleton in Hb as ->. exists k. simpl. split_and!; try lia.
    rewrite Z.sub_diag. apply Z.divide_0_r.
  - destruct k as [|k]; simpl in Hwf; [done|]. destruct Hwf as (_ & Hl & Hr).
    simpl in Hb. rewrite p2_S. pose proof (p2_pos k).
    apply elem_of_app in Hb as [Hb|Hb].
    + destruct (IHl k off Hl Hb) as (j & ? & ? & ? & ? & ?). exists j. split_and!; auto; lia.
    + destruct (IHr k (off + p2 k) Hr Hb) as (j & ? & ? & ? & ? & ?).
      exists j. split_and!; auto; try lia.
      replace (b.1 - off) with (b.1 - (off + p2 k) + p2 k) by lia.
      apply Z.divide_add_r; [done|apply p2_divide; lia].
Qed.

Lemma blocks_disjoint k off t :
  wf_tree k t ->
  forall i1 i2 b1 b2, blocks k off t !! i1 = Some b1 -> blocks k off t !! i2 = Some b2 ->
  i1 <> i2 -> disjoint_blocks b1 b2.
Proof.
  revert k off. induction t as [| |l IHl r IHr]; intros k off Hwf i1 i2 b1 b2 H1 H2 Hne; simpl in *.
  - discriminate.
  - apply lookup_lt_Some in H1, H2. simpl in *. lia.
  - destruct k as [|k]; [done|]. destruct Hwf as (_ & Hl & Hr). simpl in *.
    assert (Hx : forall b b', b ∈ blocks k off l -> b' ∈ blocks k (off + p2 k) r ->
                              b.1 + b.2 <= b'.1).
    { intros b b' Hb Hb'. destruct (blocks_inside _ _ _ _ Hl Hb) as (?&?&?&?&?&?).
      destruct (blocks_inside _ _ _ _ Hr Hb') as (?&?&?&?&?&?). lia. }
    apply lookup_app_Some in H1 as [H1|[Hi1 H1]]; apply lookup_app_Some in H2 as [H2|[Hi2 H2]].
    + by eapply IHl.
    + left. apply Hx; apply list_elem_of_lookup; eauto.
    + right. apply Hx; apply list_elem_of_lookup; eauto.
    + eapply IHr; [exact Hr|exact H1|exact H2|lia].
Qed.

Lemma blocks_nil k off t : wf_tree k t -> blocks k off t = [] -> t = TFree.
Proof.
  revert k off. induction t as [| |l IHl r IHr]; intros k off Hwf Hb; simpl in *; try done.
  destruct k as [|k]; [done|]. destruct Hwf as (Hn & Hl & Hr).
  apply app_nil in Hb as [H1 H2]. exfalso. apply Hn. split; [by eapply IHl|by eapply IHr].
Qed.

(** A free aligned block is found: the maxima miss none. *)
Lemma maxfree_complete j k off t q :
  wf_tree k t -> (j <= k)%nat -> 0 <= q -> (q + 1) * p2 j <= p2 k ->
  (forall b, b ∈ blocks k off t -> disjoint_blocks b (off + q * p2 j, p2 j)) ->
  p2 j <= maxfree k t.
Proof.
  revert k off q. induction t as [| |l IHl r IHr]; intros k off q Hwf Hj Hq Hr Hb.
  - by apply p2_le.
  - exfalso. specialize (Hb (off, p2 k)). pose proof (p2_pos j). pose proof (p2_pos k).
    destruct Hb as [H1|H1]; [by apply list_elem_of_singleton|simpl in H1; nia|simpl in H1; nia].
  - destruct k as [|k]; simpl in Hwf; [done|]. destruct Hwf as (Hn & Hwl & Hwr).
    cbn [maxfree pred]. pose proof (p2_pos j). simpl in Hb.
    assert (Hb1 : forall b, b ∈ blocks k off l -> disjoint_blocks b (off + q * p2 j, p2 j))
      by (intros b Hin; apply Hb, elem_of_app; by left).
    assert (Hb2 : forall b, b ∈ blocks k (off + p2 k) r ->
                    disjoint_blocks b (off + q * p2 j, p2 j))
      by (intros b Hin; apply Hb, elem_of_app; by right).
    destruct (decide (j = S k)) as [->|Hne].
    + exfalso. assert (q = 0) as -> by nia. rewrite p2_S in *.
      apply Hn. split; [apply (blocks_nil k off l Hwl)|apply (blocks_nil k (off + p2 k) r Hwr)].
      * destruct (blocks k off l) as [|b bs] eqn:E; [done|]. exfalso.
        assert (Hin : b ∈ blocks k off l) by (rewrite ?E; left).
        destruct (blocks_inside _ _ _ _ Hwl Hin) as (i & ? & Hs & ?).
        pose proof (p2_pos i). destruct (Hb1 b) as [Hd|Hd]; [by rewrite ?E; left| |]; simpl in Hd; lia.
      * destruct (blocks k (off + p2 k) r) as [|b bs] eqn:E; [done|]. exfalso.
        assert (Hin : b ∈ blocks k (off + p2 k) r) by (rewrite ?E; left).
        destruct (blocks_inside _ _ _ _ Hwr Hin) as (i & ? & Hs & ?).
        pose proof (p2_pos i). destruct (Hb2 b) as [Hd|Hd]; [by rewrite ?E; left| |]; simpl in Hd; lia.
    + assert (Hk : p2 k = p2 (k - j) * p2 j)
        by (unfold p2; rewrite <- Z.pow_add_r by lia; f_equal; lia).
      rewrite p2_S in Hr.
      destruct (Z.lt_ge_cases q (p2 (k - j))) as [Hlt|Hge].
      * enough (p2 j <= maxfree k l) by lia. apply (IHl k off q); auto; [lia|nia].
      * enough (p2 j <= maxfree k r) by lia.
        apply (IHr k (off + p2 k) (q - p2 (k - j))); auto; [lia|lia|nia|].
        intros b Hin. specialize (Hb2 b Hin).
        replace (off + p2 k + (q - p2 (k - j)) * p2 j) with (off + q * p2 j) by lia. done.
Qed.

(** ** Release *)

Definition covers (b : Z * Z) (o : Z) : Prop := b.1 <= o < b.1 + b.2.

Lemma find_used_range k o t j : wf_tree k t -> find_used k o t = Some j -> (j <= k)%nat.
Proof.
  revert k o. induction t as [| |l IHl r IHr]; intros k o Hwf H; simpl in *; [done|naive_solver|].
  destruct k as [|k]; [done|]. destruct Hwf as (_ & ? & ?). simpl in H.
  destruct (o <? p2 k); [specialize (IHl k o)|specialize (IHr k (o - p2 k))]; naive_solver lia.
Qed.

Lemma free_at_wf k o t : wf_tree k t -> wf_tree k (free_at k o t).
Proof.
  revert k o. induction t as [| |l IHl r IHr]; intros k o Hwf; try done.
  destruct k as [|k]; simpl in Hwf; [done|]. destruct Hwf as (Hn & Hl & Hr). cbn [free_at pred].
  case_bool; apply wf_join; auto.
Qed.

Lemma blocks_join k off l r :
  blocks (S k) off (join_tree l r) = blocks k off l ++ blocks k (off + p2 k) r.
Proof. unfold join_tree. case_decide as H; [destruct H as [-> ->]|]; done. Qed.

(** Releasing a covered slot removes its block, releasing another changes nothing. *)
Lemma free_at_blocks k off o t :
  wf_tree k t -> 0 <= o < p2 k ->
  match find_used k o t with
  | Some j => exists b, b.2 = p2 j /\ covers b (off + o) /\
                        blocks k off t ≡ₚ b :: blocks k off (free_at k o t)
  | None => free_at k o t = t /\ forall b, b ∈ blocks k off t -> ~ covers b (off + o)
  end.
Proof.
  revert k off o. induction t as [| |l IHl r IHr]; intros k off o Hwf Ho; cbn [find_used free_at].
  - split; [done|]. intros b Hb. by apply not_elem_of_nil in Hb.
  - exists (off, p2 k). split_and!; try done; unfold covers; simpl; lia.
  - destruct k as [|k]; simpl in Hwf; [done|]. destruct Hwf as (Hn & Hl & Hr).
    cbn [pred blocks]. rewrite p2_S in Ho.
    assert (Hjoin : join_tree l r = TSplit l r) by (unfold join_tree; by rewrite decide_False).
    case_bool.
    + specialize (IHl k off o Hl ltac:(lia)). destruct (find_used k o l) as [j|].
      * destruct IHl as (b & ? & ? & Hp). exists b. rewrite blocks_join, Hp. done.
      * destruct IHl as [-> Hc]. split; [done|]. intros b [Hb|Hb]%elem_of_app; [auto|].
        destruct (blocks_inside _ _ _ _ Hr Hb) as (?&?&?&?&?&?). unfold covers. lia.
    + specialize (IHr k (off + p2 k) (o - p2 k) Hr ltac:(lia)).
      replace (off + p2 k + (o - p2 k)) with (off + o) in IHr by lia.
      destruct (find_used k (o - p2 k) r) as [j|].
      * destruct IHr as (b & ? & ? & Hp). exists b. split_and!; [done|done|].
        rewrite blocks_join, Hp. symmetry. apply Permutation_middle.
      * destruct IHr as [-> Hc]. split; [done|]. intros b [Hb|Hb]%elem_of_app; [|auto].
        destruct (blocks_inside _ _ _ _ Hl Hb) as (?&?&?&?&?&?). unfold covers. lia.
Qed.

Lemma find_used_None_maxfree k o t :
  wf_tree k t -> 0 <= o < p2 k -> find_used k o t = None -> 0 < maxfree k t.
Proof.
  revert k o. induction t as [| |l IHl r IHr]; intros k o Hwf Ho Hf; [apply p2_pos|done|].
  destruct k as [|k]; simpl in Hwf; [done|]. destruct Hwf as (_ & Hl & Hr).
  cbn [find_used maxfree Nat.pred] in *. rewrite p2_S in Ho.
  destruct (o <? p2 k) eqn:E; zify_bool.
  - specialize (IHl k o Hl ltac:(lia) Hf). lia.
  - specialize (IHr k (o - p2 k) Hr ltac:(lia) Hf). lia.
Qed.

Lemma p2_lt_64 k : (k <= 61)%nat -> 1 <= p2 k < 2 ^ 62.
Proof.
  intros H. pose proof (p2_pos k). split; [lia|]. apply Z.pow_lt_mono_r; lia.
Qed.

Lemma blocks_unique k off t b1 b2 x :
  wf_tree k t -> b1 ∈ blocks k off t -> b2 ∈ blocks k off t -> covers b1 x -> covers b2 x -> b1 = b2.
Proof.
  intros Hwf [i1 H1]%list_elem_of_lookup [i2 H2]%list_elem_of_lookup Hc1 Hc2.
  destruct (decide (i1 = i2)) as [->|Hne]; [congruence|]. exfalso.
  destruct (blocks_disjoint k off t Hwf i1 i2 b1 b2 H1 H2 Hne); unfold covers in *; lia.
Qed.

(** An allocated block is found from any of its slots, and released. *)
Lemma find_used_block k b x t :
  wf_tree k t -> b ∈ blocks k 0 t -> covers b x ->
  exists j, find_used k x t = Some j /\ b.2 = p2 j /\
            blocks k 0 t ≡ₚ b :: blocks k 0 (free_at k x t).
Proof.
  intros Hwf Hb Hx. destruct (blocks_inside k 0 t b Hwf Hb) as (i & _ & _ & ? & ? & _).
  assert (Hr : 0 <= x < p2 k) by (unfold covers in Hx; lia).
  pose proof (free_at_blocks k 0 x t Hwf Hr) as Hf. rewrite Z.add_0_l in Hf.
  destruct (find_used k x t) as [j|]; [|by destruct Hf as [_ Hf]; exfalso; apply (Hf b)].
  destruct Hf as (b' & Hs & Hc & Hp). exists j.
  assert (b' = b) as ->; [|done].
  apply (blocks_unique k 0 t _ _ x Hwf); [rewrite Hp; left|done|done|done].
Qed.

(** A block added to the blocks of a tree is disjoint from them. *)
Lemma blocks_cons_disjoint k t t' nb b :
  wf_tree k t' -> blocks k 0 t' ≡ₚ nb :: blocks k 0 t -> b ∈ blocks k 0 t -> disjoint_blocks b nb.
Proof.
  intros Hwf Hp [i Hi]%list_elem_of_lookup. symmetry in Hp.
  apply Permutation_inj in Hp as [_ (f & Hinj & Hf)].
  pose proof (Hf 0%nat) as H0. pose proof (Hf (S i)) as HS. simpl in H0, HS. rewrite Hi in HS.
  apply (blocks_disjoint k 0 t' Hwf (f (S i)) (f 0%nat)); [done|done|].
  intros H%Hinj. done.
Qed.
