(* ===== verification/Buddy.v ===== *)
(** * The buddy allocator

    Models BuddyAllocator/src: the index arithmetic of buddy_util.h, the bin
    manager (a complete binary tree of free-slot counts in a vector), the memory
    bin and the allocator with its table of live allocations.  The specification
    is the table alone: disjoint, aligned blocks, and a failing allocation only
    when no aligned block of the size is free. *)

From S2P Require Import Prelude BuddyTree.
From stdpp Require Import gmap.
#[local] Open Scope Z_scope.

(** ** buddy_util.h *)

Definition IsPowerOf2 (number : Z) : bool :=
  negb (number =? 0) && (Z.land number (wrap 64 (number - 1)) =? 0).

(** [for (i = 1; i != half_bit_space; i <<= 1) number |= number >> i;] *)
Fixpoint smear (fuel : nat) (half_bit_space i number : Z) : Z :=
  match fuel with
  | O => number
  | S fuel =>
      if i =? half_bit_space then number
      else smear fuel half_bit_space (Z.shiftl i 1) (Z.lor number (Z.shiftr number i))
  end.

Definition sizeof_size_t : Z := 8.

Definition NearestUpperPowerOf2 (number : Z) : Z :=
  let number := wrap 64 (number - 1) in
  let half_bit_space := Z.shiftl sizeof_size_t 2 in
  wrap 64 (smear 64 half_bit_space 1 number + 1).

Definition Parent (i : Z) : Z := wrap 64 (Z.shiftr (wrap 64 (i + 1)) 1 - 1).
Definition LeftChild (i : Z) : Z := wrap 64 (wrap 64 (Z.shiftl (wrap 64 (i + 1)) 1) - 1).
Definition RightChild (i : Z) : Z := wrap 64 (Z.shiftl (wrap 64 (i + 1)) 1).

(** ** BinManager *)

Record bin_manager := mk_bin_manager {
  total_slot_count_ : Z;
  max_consecutive_slot_ : list Z
}.

Definition noffset : Z := size_max.

(** The longest vector of 8-byte elements: [resize] throws beyond it. *)
Definition vector_max_size : Z := 2 ^ 60 - 1.

(** The constructor's loop; [todo] counts the nodes that are left. *)
Fixpoint init_loop (todo : nat) (i node_slot_count : Z) (v : list Z) : outcome (list Z) :=
  match todo with
  | O => Ok v
  | S todo =>
      let node_slot_count :=
        if IsPowerOf2 (wrap 64 (i + 1)) then Z.shiftr node_slot_count 1 else node_slot_count in
      v ← vec_set v i node_slot_count;
      init_loop todo (i + 1) node_slot_count v
  end.

Definition make_bin_manager (total_slot_count : Z) : outcome bin_manager :=
  (if IsPowerOf2 total_slot_count then Ok tt else Throw runtime_error);;
  let node_count := wrap 64 (wrap 64 (Z.shiftl total_slot_count 1) - 1) in
  (if node_count <=? vector_max_size then Ok tt else Throw length_error);;
  v ← init_loop (Z.to_nat node_count) 0 (wrap 64 (Z.shiftl total_slot_count 1))
        (replicate (Z.to_nat node_count) 0);
  Ok (mk_bin_manager total_slot_count v).

(** The move constructor: the new object, and what is left of [other]. *)
Definition move_bin_manager (other : bin_manager) : bin_manager * bin_manager :=
  (other, mk_bin_manager (total_slot_count_ other) []).

Section Asserts.
(** Whether the code is compiled with [NDEBUG]. *)
Context (ndebug : bool).

Definition assert_ (cond : bool) : outcome unit := if ndebug || cond then Ok tt else Undef.

(** [for (node_slots = total; node_slots != slots_needed; node_slots >>= 1)] *)
Fixpoint descend (fuel : nat) (v : list Z) (slots_needed node_slots index : Z) : outcome Z :=
  match fuel with
  | O => OutOfFuel
  | S fuel =>
      if node_slots =? slots_needed then Ok index
      else
        lc ← vec_get v (LeftChild index);
        let index := if slots_needed <=? lc then LeftChild index else RightChild index in
        descend fuel v slots_needed (Z.shiftr node_slots 1) index
  end.

(** [while (index)]: recompute the maxima up to the root. *)
Fixpoint refresh (fuel : nat) (v : list Z) (index : Z) : outcome (list Z) :=
  match fuel with
  | O => OutOfFuel
  | S fuel =>
      if index =? 0 then Ok v
      else
        let index := Parent index in
        lc ← vec_get v (LeftChild index);
        rc ← vec_get v (RightChild index);
        v ← vec_set v index (Z.max lc rc);
        refresh fuel v index
  end.

(** Enough for every loop: a path has at most 64 nodes. *)
Definition path_fuel : nat := 66.

Definition Allocate (bm : bin_manager) (slots_required : Z) : outcome (Z * bin_manager) :=
  assert_ (negb (slots_required =? 0));;
  if slots_required =? 0 then Ok (noffset, bm)
  else
    let slots_needed := NearestUpperPowerOf2 slots_required in
    let v := max_consecutive_slot_ bm in
    root ← vec_get v 0;
    if root <? slots_needed then Ok (noffset, bm)
    else
      index ← descend path_fuel v slots_needed (total_slot_count_ bm) 0;
      let offset := wrap 64 (wrap 64 (wrap 64 (index + 1) * slots_needed) - total_slot_count_ bm) in
      v ← vec_set v index 0;
      v ← refresh path_fuel v index;
      Ok (offset, mk_bin_manager (total_slot_count_ bm) v).

(** The first loop of [Free]; [None] is the early return at the root. *)
Fixpoint backtrace (fuel : nat) (v : list Z) (index node_slot_count : Z)
    : outcome (option (Z * Z)) :=
  match fuel with
  | O => OutOfFuel
  | S fuel =>
      x ← vec_get v index;
      if x =? 0 then Ok (Some (index, node_slot_count))
      else if index =? 0 then Ok None
      else backtrace fuel v (Parent index) (wrap 64 (Z.shiftl node_slot_count 1))
  end.

(** The second loop of [Free]: merge adjacent bins if possible. *)
Fixpoint merge (fuel : nat) (v : list Z) (index node_slot_count : Z) : outcome (list Z) :=
  match fuel with
  | O => OutOfFuel
  | S fuel =>
      if index =? 0 then Ok v
      else
        let index := Parent index in
        let node_slot_count := wrap 64 (Z.shiftl node_slot_count 1) in
        lc_slots ← vec_get v (LeftChild index);
        rc_slots ← vec_get v (RightChild index);
        v ← vec_set v index (if wrap 64 (lc_slots + rc_slots) =? node_slot_count
                             then node_slot_count else Z.max lc_slots rc_slots);
        merge fuel v index node_slot_count
  end.

Definition Free (bm : bin_manager) (offset : Z) : outcome bin_manager :=
  assert_ (offset <? total_slot_count_ bm);;
  if total_slot_count_ bm <=? offset then Ok bm
  else
    let v := max_consecutive_slot_ bm in
    let index := wrap 64 (wrap 64 (offset + total_slot_count_ bm) - 1) in
    found ← backtrace path_fuel v index 1;
    match found with
    | None => Ok bm
    | Some (index, node_slot_count) =>
        v ← vec_set v index node_slot_count;
        v ← merge path_fuel v index node_slot_count;
        Ok (mk_bin_manager (total_slot_count_ bm) v)
    end.

Fixpoint slot_loop (fuel : nat) (v : list Z) (i node_slot_count : Z) : outcome Z :=
  match fuel with
  | O => OutOfFuel
  | S fuel =>
      x ← vec_get v i;
      if x =? 0 then Ok node_slot_count
      else slot_loop fuel v (Parent i) (wrap 64 (Z.shiftl node_slot_count 1))
  end.

Definition SlotCountFor (bm : bin_manager) (offset : Z) : outcome Z :=
  assert_ (offset <? total_slot_count_ bm);;
  if total_slot_count_ bm <=? offset then Ok 0
  else slot_loop path_fuel (max_consecutive_slot_ bm)
         (wrap 64 (wrap 64 (offset + total_slot_count_ bm) - 1)) 1.

(** ** MemoryBin: the address of its slots and their number *)

Definition slot_granularity : Z := 4096.

Record memory_bin := mk_memory_bin { slots_ : Z; slot_count_ : Z }.

(** [base] is the address [make_unique] returns. *)
Definition make_memory_bin (base slot_count : Z) : outcome memory_bin :=
  (if IsPowerOf2 slot_count then Ok tt else Throw runtime_error);;
  Ok (mk_memory_bin base slot_count).

Definition move_memory_bin (other : memory_bin) : memory_bin * memory_bin :=
  (other, mk_memory_bin 0 0).

Definition Map (mb : memory_bin) (offset : Z) : outcome Z :=
  if offset <? slot_count_ mb then Ok (slots_ mb + slot_granularity * offset)
  else Throw runtime_error.

(** ** BuddyAllocator *)

Definition BytesToSlots (size_in_bytes : Z) (strict_mode : bool) : outcome Z :=
  (if strict_mode && negb (size_in_bytes mod slot_granularity =? 0)
   then Throw runtime_error else Ok tt);;
  Ok (wrap 64 (wrap 64 (size_in_bytes + slot_granularity) - 1) / slot_granularity).

Record buddy_allocator := mk_buddy_allocator {
  bin_manager_ : bin_manager;
  memory_bin_ : memory_bin;
  allocation_table_ : gmap Z (Z * Z);
  capacity_ : Z
}.

Definition DEFAULT_CAPACITY : Z := 64 * 1024.

Definition make_buddy_allocator (base max_byte : Z) : outcome buddy_allocator :=
  slots ← BytesToSlots max_byte true;
  bm ← make_bin_manager slots;
  mb ← make_memory_bin base slots;
  Ok (mk_buddy_allocator bm mb ∅ max_byte).

Definition AddAllocationRecord (a : buddy_allocator) (ptr offset : Z) : outcome buddy_allocator :=
  slot_count ← SlotCountFor (bin_manager_ a) offset;
  Ok (mk_buddy_allocator (bin_manager_ a) (memory_bin_ a)
        (<[ptr := (slot_count, offset)]> (allocation_table_ a)) (capacity_ a)).

(** The result is the address (0 is [nullptr]), [*bytes_allocated] and the
    allocator; [want] says whether the caller passes a [bytes_allocated]. *)
Definition allocate (a : buddy_allocator) (number_of_bytes : Z) (want : bool)
    : outcome (Z * option Z * buddy_allocator) :=
  slots_required ← BytesToSlots number_of_bytes false;
  '(offset, bm) ← Allocate (bin_manager_ a) slots_required;
  let a := mk_buddy_allocator bm (memory_bin_ a) (allocation_table_ a) (capacity_ a) in
  if offset =? noffset then Ok (0, None, a)
  else
    bytes_allocated ← (if want then
                         slots ← SlotCountFor (bin_manager_ a) offset;
                         Ok (Some (wrap 64 (slots * slot_granularity)))
                       else Ok None);
    addr ← Map (memory_bin_ a) offset;
    a ← AddAllocationRecord a addr offset;
    Ok (addr, bytes_allocated, a).

(** The result is the new value of the caller's pointer and the allocator. *)
Definition Deallocate (a : buddy_allocator) (ptr : Z) : outcome (Z * buddy_allocator) :=
  match allocation_table_ a !! ptr with
  | None => Ok (ptr, a)
  | Some (_, offset) =>
      bm ← Free (bin_manager_ a) offset;
      Ok (0, mk_buddy_allocator bm (memory_bin_ a) (delete ptr (allocation_table_ a))
               (capacity_ a))
  end.

Definition QueryAllocatedSize (a : buddy_allocator) (ptr : Z) : Z :=
  match allocation_table_ a !! ptr with
  | None => 0
  | Some (slot_count, _) => wrap 64 (slot_count * slot_granularity)
  end.
End Asserts.

(** The vectors of the unit tests. *)
Definition slots_after (ndebug : bool) (total : Z) (reqs : list Z) : outcome (list Z) :=
  bm ← make_bin_manager total;
  r ← foldl (fun bm n => bm ← bm; '(_, bm) ← Allocate ndebug bm n; Ok bm) (Ok bm) reqs;
  Ok (max_consecutive_slot_ r).
Example test_construction :
  slots_after false 4 [] = Ok [4; 2; 2; 1; 1; 1; 1].
Proof. vm_compute. reflexivity. Qed.
Example test_allocate :
  slots_after false 8 [3; 2; 2; 1] = Ok [0; 0; 0; 2; 2; 0; 0; 1; 1; 1; 1; 1; 1; 1; 1].
Proof. vm_compute. reflexivity. Qed.

(** ** Arithmetic of the utilities *)

Lemma IsPowerOf2_spec x : u64 x -> IsPowerOf2 x = true <-> 0 < x /\ x = 2 ^ Z.log2 x.
Proof.
  unfold in_u, IsPowerOf2. intros Hx. destruct (Z.eqb_spec x 0) as [->|Hne]; simpl; [lia|].
  unfold wrap. rewrite Z.mod_small by lia. rewrite Z.eqb_eq.
  destruct (Z.log2_spec x ltac:(lia)) as [Hl Hu]. pose proof (Z.log2_nonneg x).
  rewrite Z.pow_succ_r in Hu by lia. split.
  - intros Hz. split; [lia|]. destruct (decide (x = 2 ^ Z.log2 x)) as [|Hx2]; [done|exfalso].
    assert (Hb : Z.testbit (Z.land x (x - 1)) (Z.log2 x) = true).
    { rewrite Z.land_spec, Z.bit_log2 by lia. simpl.
      rewrite Z.testbit_true by lia.
      replace ((x - 1) / 2 ^ Z.log2 x) with 1; [done|].
      apply Z.div_unique with (x - 1 - 2 ^ Z.log2 x); lia. }
    rewrite Hz, Z.bits_0 in Hb. done.
  - intros [_ Hp]. set (k := Z.log2 x) in *. rewrite Hp.
    replace (2 ^ k - 1) with (Z.ones k) by (rewrite Z.ones_equiv; lia).
    rewrite Z.land_ones by lia. by apply Z.mod_same; lia.
Qed.

(** [r] has a bit wherever [m] has one less than [w] places higher. *)
Definition smeared (w m r : Z) : Prop :=
  forall b, 0 <= b -> Z.testbit r b = true <-> exists d, 0 <= d < w /\ Z.testbit m (b + d) = true.

Lemma smeared_step w m r :
  0 < w -> smeared w m r -> smeared (2 * w) m (Z.lor r (Z.shiftr r w)).
Proof.
  intros Hw H b Hb. rewrite Z.lor_spec, orb_true_iff, Z.shiftr_spec by lia.
  rewrite (H b Hb), (H (b + w)) by lia. split.
  - intros [(d & ? & ?)|(d & ? & ?)]; [exists d; split; [lia|done]|].
    exists (w + d). split; [lia|]. by rewrite Z.add_assoc.
  - intros (d & Hd & Hm). destruct (Z.lt_ge_cases d w); [left; exists d; split; [lia|done]|].
    right. exists (d - w). split; [lia|]. by replace (b + w + (d - w)) with (b + d) by lia.
Qed.

Lemma smear_smeared m : smeared 32 m (smear 64 32 1 m).
Proof.
  assert (H1 : smeared 1 m m).
  { intros b Hb. split; [intros ?; exists 0; split; [lia|by rewrite Z.add_0_r]|].
    intros (d & Hd & Hm). by replace (b + d) with b in Hm by lia. }
  apply smeared_step in H1; [|lia]. apply smeared_step in H1; [|lia].
  apply smeared_step in H1; [|lia]. apply smeared_step in H1; [|lia].
  apply smeared_step in H1; [|lia]. exact H1.
Qed.

Lemma smeared_ones m r : 0 < m < 2 ^ 32 -> smeared 32 m r -> r = Z.ones (Z.log2 m + 1).
Proof.
  intros Hm H. pose proof (Z.log2_nonneg m).
  assert (Z.log2 m < 32) by (apply Z.log2_lt_pow2; lia).
  apply Z.bits_inj'. intros b Hb. apply eq_true_iff_eq. rewrite (H b Hb).
  destruct (Z.lt_ge_cases (Z.log2 m) b) as [Hlt|Hge].
  - rewrite Z.ones_spec_high by lia. split; [|done].
    intros (d & Hd & Hbit). rewrite Z.bits_above_log2 in Hbit by lia. done.
  - rewrite Z.ones_spec_low by lia. split; [done|]. intros _.
    exists (Z.log2 m - b). split; [lia|]. replace (b + (Z.log2 m - b)) with (Z.log2 m) by lia.
    apply Z.bit_log2. lia.
Qed.

(** The level of the bin for a request. *)
Definition level_of (n : Z) : nat := Z.to_nat (Z.log2_up n).

Lemma NearestUpperPowerOf2_spec n :
  0 < n <= 2 ^ 32 -> NearestUpperPowerOf2 n = p2 (level_of n).
Proof.
  intros Hn. unfold NearestUpperPowerOf2, level_of, p2.
  rewrite (wrap_small 64 (n - 1)) by (unfold in_u; lia).
  change (Z.shiftl sizeof_size_t 2) with 32.
  destruct (decide (n = 1)) as [->|H1]; [reflexivity|].
  rewrite (smeared_ones (n - 1) (smear 64 32 1 (n - 1))) by (lia || apply smear_smeared).
  pose proof (Z.log2_nonneg (n - 1)).
  assert (Z.log2 (n - 1) < 32) by (apply Z.log2_lt_pow2; lia).
  rewrite Z2Nat.id by apply Z.log2_up_nonneg.
  rewrite Z.log2_up_eqn by lia. replace (Z.pred n) with (n - 1) by lia.
  rewrite Z.ones_equiv. unfold Z.succ.
  assert (2 ^ (Z.log2 (n - 1) + 1) <= 2 ^ 32) by (apply Z.pow_le_mono_r; lia).
  rewrite wrap_small; [lia|]. unfold in_u.
  pose proof (Z.pow_pos_nonneg 2 (Z.log2 (n - 1) + 1) ltac:(lia) ltac:(lia)). lia.
Qed.

Lemma level_of_bounds n : 0 < n -> n <= p2 (level_of n).
Proof.
  intros Hn. unfold level_of, p2. rewrite Z2Nat.id by apply Z.log2_up_nonneg.
  destruct (decide (n = 1)) as [->|]; [done|].
  pose proof (Z.log2_up_spec n ltac:(lia)). lia.
Qed.

(** Indices are one less than node numbers: node [n] has children [2n], [2n+1]. *)
Lemma LeftChild_node n : 1 <= n < 2 ^ 62 -> LeftChild (n - 1) = 2 * n - 1.
Proof.
  intros H. unfold LeftChild. rewrite Z.shiftl_mul_pow2 by lia.
  unwrap. lia.
Qed.

Lemma RightChild_node n : 1 <= n < 2 ^ 62 -> RightChild (n - 1) = 2 * n + 1 - 1.
Proof.
  intros H. unfold RightChild. rewrite Z.shiftl_mul_pow2 by lia.
  unwrap. lia.
Qed.

Lemma Parent_node n c : 1 <= n < 2 ^ 62 -> c = 2 * n \/ c = 2 * n + 1 -> Parent (c - 1) = n - 1.
Proof.
  intros H Hc. unfold Parent. unwrap.
  rewrite Z.shiftr_div_pow2 by lia.
  replace ((c - 1 + 1) / 2 ^ 1) with n.
  - apply wrap_small. unfold in_u. lia.
  - apply Z.div_unique with (c - 2 * n); lia.
Qed.

(** ** Trees in the vector *)

(** The count of node [n] (the root is node 1), and its update. *)
Definition at_ (v : list Z) (n : Z) : option Z := vat v (n - 1).
Definition upd (v : list Z) (n x : Z) : list Z := <[Z.to_nat (n - 1) := x]> v.

Definition small (v : list Z) : Prop := Z.of_nat (length v) < 2 ^ 61.

(** Below a free or allocated bin every count is its full size. *)
Fixpoint full_below (k : nat) (n : Z) (v : list Z) : Prop :=
  match k with
  | O => True
  | S k =>
      (at_ v (2 * n) = Some (p2 k) /\ full_below k (2 * n) v) /\
      (at_ v (2 * n + 1) = Some (p2 k) /\ full_below k (2 * n + 1) v)
  end.

Fixpoint rep (k : nat) (n : Z) (t : tree) (v : list Z) {struct t} : Prop :=
  at_ v n = Some (maxfree k t) /\
  match t with
  | TFree | TUsed => full_below k n v
  | TSplit l r => rep (pred k) (2 * n) l v /\ rep (pred k) (2 * n + 1) r v
  end.

Lemma rep_root k n t v : rep k n t v -> at_ v n = Some (maxfree k t).
Proof. destruct t; simpl; tauto. Qed.

Lemma rep_halves k n t v :
  rep (S k) n t v -> rep k (2 * n) (halves t).1 v /\ rep k (2 * n + 1) (halves t).2 v.
Proof. destruct t; simpl; tauto. Qed.

Lemma at_lt v n x : at_ v n = Some x -> 1 <= n <= Z.of_nat (length v).
Proof. unfold at_. intros H%vat_lt. lia. Qed.

Lemma at_upd_eq v n x y : at_ v n = Some y -> at_ (upd v n x) n = Some x.
Proof. intros H%at_lt. apply vat_set_eq. lia. Qed.

Lemma at_upd_ne v n m x : 1 <= n -> m <> n -> at_ (upd v n x) m = at_ v m.
Proof. intros H Hne. apply vat_set_ne; lia. Qed.

Lemma length_upd v n x : length (upd v n x) = length v.
Proof. apply length_insert. Qed.

(** *** Subtrees *)

Definition in_sub (k : nat) (n m : Z) : Prop := exists j, (j <= k)%nat /\ m / p2 j = n.

Definition outside (k : nat) (n : Z) (v v' : list Z) : Prop :=
  length v' = length v /\ forall m, ~ in_sub k n m -> at_ v' m = at_ v m.

Lemma in_sub_root k n : in_sub k n n.
Proof. exists 0%nat. split; [lia|]. apply Z.div_1_r. Qed.

Lemma in_sub_child k n c m : c / 2 = n -> in_sub k c m -> in_sub (S k) n m.
Proof.
  intros Hc (j & Hj & <-). exists (S j). split; [lia|].
  rewrite p2_S, (Z.mul_comm 2), <- Z.div_div by (pose proof (p2_pos j); lia). done.
Qed.

Lemma not_in_sub_parent k n c : 1 <= n -> c / 2 = n -> ~ in_sub k c n.
Proof.
  intros Hn Hc (j & Hj & Hd).
  pose proof (p2_pos j). assert (n / p2 j <= n) by (apply Z.div_le_upper_bound; nia).
  pose proof (Z.mul_div_le c 2). lia.
Qed.

Lemma sub_siblings k k' n m :
  1 <= n -> in_sub k (2 * n) m -> in_sub k' (2 * n + 1) m -> False.
Proof.
  intros Hn (j & _ & H1) (j' & _ & H2).
  assert (Hm : 0 <= m).
  { destruct (Z.lt_ge_cases m 0); [|done]. pose proof (p2_pos j).
    assert (m / p2 j < 0) by (apply Z.div_lt_upper_bound; lia). lia. }
  assert (Hcmp : forall a b, (a < b)%nat -> m / p2 b <= m / p2 a / 2).
  { intros a b Hab. pose proof (p2_pos a). rewrite Z.div_div by lia.
    apply Z.div_le_compat_l; [lia|]. pose proof (p2_lt a b Hab). lia. }
  destruct (Nat.lt_trichotomy j j') as [H|[->|H]]; [|lia|]; apply Hcmp in H;
    rewrite H1, H2 in H.
  - assert (2 * n / 2 = n) by (symmetry; apply Z.div_unique with 0; lia). lia.
  - assert ((2 * n + 1) / 2 = n) by (symmetry; apply Z.div_unique with 1; lia). lia.
Qed.

Lemma half_even n : 2 * n / 2 = n.
Proof. symmetry. apply Z.div_unique with 0; lia. Qed.
Lemma half_odd n : (2 * n + 1) / 2 = n.
Proof. symmetry. apply Z.div_unique with 1; lia. Qed.

Lemma outside_refl k n v : outside k n v v.
Proof. done. Qed.

Lemma outside_upd k n m v x : in_sub k n m -> 1 <= m -> outside k n v (upd v m x).
Proof.
  intros Hs Hm. split; [apply length_upd|]. intros i Hi. apply at_upd_ne; [done|].
  intros ->. done.
Qed.

Lemma outside_child k n c v v' : c / 2 = n -> outside k c v v' -> outside (S k) n v v'.
Proof.
  intros Hc [Hl H]. split; [done|]. intros m Hm. apply H. intros Hin.
  apply Hm. by eapply in_sub_child.
Qed.

Lemma outside_trans k n v1 v2 v3 : outside k n v1 v2 -> outside k n v2 v3 -> outside k n v1 v3.
Proof.
  intros [Hl1 H1] [Hl2 H2]. split; [congruence|]. intros m Hm. by rewrite H2, H1.
Qed.

Definition agree (k : nat) (n : Z) (v v' : list Z) : Prop :=
  forall m, in_sub k n m -> at_ v' m = at_ v m.

Lemma agree_child k n c v v' : c / 2 = n -> agree (S k) n v v' -> agree k c v v'.
Proof. intros Hc H m Hm. apply H. by eapply in_sub_child. Qed.

Lemma full_below_agree k n v v' : agree k n v v' -> full_below k n v -> full_below k n v'.
Proof.
  revert n. induction k as [|k IH]; intros n Ha; [done|]. simpl.
  pose proof (agree_child k n (2 * n) v v' (half_even n) Ha) as Hl.
  pose proof (agree_child k n (2 * n + 1) v v' (half_odd n) Ha) as Hr.
  rewrite (Hl (2 * n)), (Hr (2 * n + 1)) by apply in_sub_root. naive_solver.
Qed.

Lemma rep_agree k n t v v' : wf_tree k t -> agree k n v v' -> rep k n t v -> rep k n t v'.
Proof.
  revert k n. induction t as [| |l IHl r IHr]; intros k n Hwf Ha [Hn Hr];
    (split; [by rewrite (Ha n) by apply in_sub_root|]); try by eapply full_below_agree.
  destruct k as [|k]; [done|]. simpl in *. destruct Hwf as (_ & ? & ?), Hr as [? ?].
  split; [apply IHl|apply IHr]; auto;
    by eapply agree_child; [apply half_even || apply half_odd|].
Qed.

Lemma full_below_root k n v x : 1 <= n -> full_below k n v -> full_below k n (upd v n x).
Proof.
  intros Hn. destruct k as [|k]; [done|]. simpl.
  rewrite !at_upd_ne by lia. intros ((? & ?) & ? & ?). split_and!; try done;
    eapply full_below_agree; eauto; intros m Hm; apply at_upd_ne; auto; intros ->;
    (eapply not_in_sub_parent; [exact Hn| |exact Hm]); apply half_even || apply half_odd.
Qed.

(** A node set to 0 or to its size is an allocated or a free bin. *)
Lemma rep_used k n v y : at_ v n = Some y -> full_below k n v -> rep k n TUsed (upd v n 0).
Proof.
  intros H Hf. pose proof (at_lt _ _ _ H). split; [by eapply at_upd_eq|].
  apply full_below_root; [lia|done].
Qed.

Lemma rep_free k n v y : at_ v n = Some y -> full_below k n v -> rep k n TFree (upd v n (p2 k)).
Proof.
  intros H Hf. pose proof (at_lt _ _ _ H). split; [by eapply at_upd_eq|].
  apply full_below_root; [lia|done].
Qed.

(** The counts of the subtree of child [c] have changed, from [v] to [v'], so that
    the children hold [l'] and [r']; then the count of [n] is set to [x]. *)
Lemma lift_child k n c l r l' r' v v' y x :
  1 <= n -> wf_tree k l' -> wf_tree k r' ->
  rep k (2 * n) l v -> rep k (2 * n + 1) r v -> at_ v n = Some y -> outside k c v v' ->
  (c = 2 * n /\ r' = r /\ rep k (2 * n) l' v') \/
  (c = 2 * n + 1 /\ l' = l /\ rep k (2 * n + 1) r' v') ->
  (at_ v' n = Some y /\ at_ v' (2 * n) = Some (maxfree k l') /\
   at_ v' (2 * n + 1) = Some (maxfree k r')) /\
  rep k (2 * n) l' (upd v' n x) /\ rep k (2 * n + 1) r' (upd v' n x) /\
  at_ (upd v' n x) n = Some x /\ outside (S k) n v (upd v' n x).
Proof.
  intros Hn Hwl Hwr Hl Hr Hy Ho Hc.
  assert (Hhalf : c / 2 = n)
    by (destruct Hc as [(-> & _)|(-> & _)]; [apply half_even|apply half_odd]).
  assert (Hy' : at_ v' n = Some y).
  { rewrite <- Hy. apply Ho. by apply not_in_sub_parent. }
  assert (Hl' : rep k (2 * n) l' v' /\ rep k (2 * n + 1) r' v').
  { destruct Hc as [(-> & -> & H)|(-> & -> & H)]; (split; [|done] || (split; [done|]));
      eapply rep_agree; eauto; intros m Hm; apply Ho; intros Hin.
    - by eapply (sub_siblings k k n m).
    - by eapply (sub_siblings k k n m). }
  destruct Hl' as [Hl' Hr']. split_and!; [done|by apply rep_root|by apply rep_root| | | |].
  - eapply rep_agree; eauto. intros m Hm. apply at_upd_ne; [done|]. intros ->.
    eapply not_in_sub_parent; [exact Hn|apply half_even|exact Hm].
  - eapply rep_agree; eauto. intros m Hm. apply at_upd_ne; [done|]. intros ->.
    eapply not_in_sub_parent; [exact Hn|apply half_odd|exact Hm].
  - by eapply at_upd_eq.
  - apply (outside_trans _ _ _ v'); [by eapply outside_child|].
    apply outside_upd; [apply in_sub_root|done].
Qed.

Lemma rep_split k n l r v :
  at_ v n = Some (maxfree (S k) (TSplit l r)) -> rep k (2 * n) l v -> rep k (2 * n + 1) r v ->
  rep (S k) n (TSplit l r) v.
Proof. done. Qed.

Lemma rep_join k n l r v :
  wf_tree k l -> wf_tree k r ->
  at_ v n = Some (maxfree (S k) (join_tree l r)) -> rep k (2 * n) l v -> rep k (2 * n + 1) r v ->
  rep (S k) n (join_tree l r) v.
Proof.
  unfold join_tree. case_decide as H; [destruct H as [-> ->]|]; intros Hwl Hwr Hn Hl Hr; [|done].
  simpl in *. tauto.
Qed.

(** ** One level of each loop *)

Lemma refresh_step fuel v n c a b y :
  small v -> 1 <= n -> c = 2 * n \/ c = 2 * n + 1 ->
  at_ v (2 * n) = Some a -> at_ v (2 * n + 1) = Some b -> at_ v n = Some y ->
  refresh (S fuel) v (c - 1) = refresh fuel (upd v n (Z.max a b)) (n - 1).
Proof.
  intros Hs Hn Hc Ha Hb Hy. unfold small in Hs. pose proof (at_lt _ _ _ Hb).
  cbn [refresh]. rewrite (proj2 (Z.eqb_neq _ _)) by lia.
  rewrite (Parent_node n c), LeftChild_node, RightChild_node by lia.
  rewrite (vec_get_ok _ _ _ Ha), (vec_get_ok _ _ _ Hb). cbn [mbind outcome_bind].
  rewrite vec_set_ok by lia. done.
Qed.

Lemma merge_step fuel v n c a b y s :
  small v -> 1 <= n -> c = 2 * n \/ c = 2 * n + 1 -> 0 <= a <= s -> 0 <= b <= s -> s < 2 ^ 62 ->
  at_ v (2 * n) = Some a -> at_ v (2 * n + 1) = Some b -> at_ v n = Some y ->
  merge (S fuel) v (c - 1) s =
    merge fuel (upd v n (if a + b =? 2 * s then 2 * s else Z.max a b)) (n - 1) (2 * s).
Proof.
  intros Hs Hn Hc Hra Hrb Hrs Ha Hb Hy. unfold small in Hs. pose proof (at_lt _ _ _ Hb).
  cbn [merge]. rewrite (proj2 (Z.eqb_neq _ _)) by lia.
  rewrite (Parent_node n c), LeftChild_node, RightChild_node by lia.
  rewrite (vec_get_ok _ _ _ Ha), (vec_get_ok _ _ _ Hb). cbn [mbind outcome_bind].
  rewrite Z.shiftl_mul_pow2 by lia. unwrap. replace (s * 2 ^ 1) with (2 * s) by lia.
  rewrite vec_set_ok by lia. done.
Qed.

Lemma descend_step fuel v n j k a :
  small v -> 1 <= n -> n < 2 ^ 61 -> (j <= k)%nat -> at_ v (2 * n) = Some a ->
  descend (S fuel) v (p2 j) (p2 (S k)) (n - 1) =
    descend fuel v (p2 j) (p2 k) ((if p2 j <=? a then 2 * n else 2 * n + 1) - 1).
Proof.
  intros Hs Hn Hn' Hj Ha. cbn [descend]. pose proof (p2_lt j (S k) ltac:(lia)).
  pose proof (p2_pos j). rewrite (proj2 (Z.eqb_neq _ _)) by lia.
  rewrite LeftChild_node, RightChild_node by lia. rewrite (vec_get_ok _ _ _ Ha).
  cbn [mbind outcome_bind].
  replace (Z.shiftr (p2 (S k)) 1) with (p2 k).
  - by case_bool.
  - rewrite Z.shiftr_div_pow2, p2_S by lia. symmetry. apply half_even.
Qed.

(** ** Allocation *)

(** What [Allocate] does in the subtree of node [n]: it stops at node [m], and the
    upward pass from [m] arrives at [n] with the subtree updated. *)
Definition alloc_sim_at (j k : nat) (n : Z) (t : tree) (v : list Z) (m : Z) (v' : list Z) : Prop :=
  m * p2 j = n * p2 k + (alloc_in j k t).2 /\ is_Some (at_ v m) /\
  (forall fuel, descend (k - j + S fuel) v (p2 j) (p2 k) (n - 1) = Ok (m - 1)) /\
  (forall fuel, refresh (k - j + fuel) (upd v m 0) (m - 1) = refresh fuel v' (n - 1)) /\
  rep k n (alloc_in j k t).1 v' /\ outside k n v v'.

Lemma alloc_sim_here j n t v :
  wf_tree j t -> rep j n t v -> p2 j <= maxfree j t -> alloc_sim_at j j n t v n (upd v n 0).
Proof.
  intros Hwf Hr Hm. pose proof (same_level_free j t Hwf Hm) as ->. destruct Hr as [Ha Hf].
  unfold alloc_sim_at. rewrite alloc_in_same, Nat.sub_diag. cbn [fst snd].
  split_and!; [lia|eauto| | |by eapply rep_used|].
  - intros fuel. cbn [descend Nat.add]. by rewrite Z.eqb_refl.
  - done.
  - apply outside_upd; [apply in_sub_root|]. apply at_lt in Ha. lia.
Qed.

(** From the simulation of a child to that of its parent. *)
Lemma alloc_sim_child j k n c l r l' r' o m t v v' :
  alloc_in j (S k) t = (TSplit l' r', o) ->
  (j <= k)%nat -> 1 <= n -> small v -> at_ v n = Some (maxfree (S k) t) ->
  wf_tree k l' -> wf_tree k r' -> rep k (2 * n) l v -> rep k (2 * n + 1) r v ->
  c = (if p2 j <=? maxfree k l then 2 * n else 2 * n + 1) ->
  (c = 2 * n /\ r' = r /\ rep k (2 * n) l' v') \/
  (c = 2 * n + 1 /\ l' = l /\ rep k (2 * n + 1) r' v') ->
  m * p2 j = n * p2 (S k) + o -> is_Some (at_ v m) ->
  (forall fuel, descend (k - j + S fuel) v (p2 j) (p2 k) (c - 1) = Ok (m - 1)) ->
  (forall fuel, refresh (k - j + fuel) (upd v m 0) (m - 1) = refresh fuel v' (c - 1)) ->
  outside k c v v' ->
  alloc_sim_at j (S k) n t v m (upd v' n (Z.max (maxfree k l') (maxfree k r'))).
Proof.
  intros Ha Hj Hn Hs Hroot Hwl Hwr Hl Hr Hc Hside Hm1 Hm2 Hd Hf Ho.
  set (x := Z.max (maxfree k l') (maxfree k r')).
  destruct (lift_child k n c l r l' r' v v' _ x Hn Hwl Hwr Hl Hr Hroot Ho Hside)
    as ((H1 & H2 & H3) & H4 & H5 & H6 & H7).
  pose proof (rep_root _ _ _ _ Hl) as Hlroot. pose proof (rep_root _ _ _ _ Hr) as Hrroot.
  pose proof (at_lt _ _ _ Hrroot) as Hlen. pose proof Hs as Hs'. unfold small in Hs'.
  unfold alloc_sim_at. rewrite Ha. replace (S k - j)%nat with (S (k - j)) by lia. cbn [fst snd].
  split_and!; [done|done| | |done|done].
  - intros fuel. cbn [Nat.add]. rewrite (descend_step _ v n j k _ Hs Hn) by (done || lia).
    rewrite <- Hc. apply Hd.
  - intros fuel. replace (S (k - j) + fuel)%nat with (k - j + S fuel)%nat by lia.
    rewrite Hf. apply (refresh_step fuel v' n c _ _ (maxfree (S k) t)); try done.
    + unfold small. by destruct Ho as [-> _].
    + destruct Hside as [(-> & _)|(-> & _)]; auto.
Qed.

Lemma alloc_sim j k n t v :
  wf_tree k t -> rep k n t v -> 1 <= n -> small v -> (j <= k)%nat -> p2 j <= maxfree k t ->
  exists m v', alloc_sim_at j k n t v m v'.
Proof.
  revert n t. induction k as [|k IH]; intros n t Hwf Hr Hn Hs Hj Hm.
  { assert (j = 0%nat) as -> by lia. do 2 eexists. by apply alloc_sim_here. }
  destruct (decide (j = S k)) as [->|Hne]; [do 2 eexists; by apply alloc_sim_here|].
  destruct (halves_wf k t Hwf) as [Hwl Hwr]. destruct (rep_halves k n t v Hr) as [Hl Hrr].
  pose proof (usable_not_used j (S k) t Hm) as Hu.
  pose proof (maxfree_halves k t (p2 j) Hu (p2_le j k ltac:(lia)) Hm) as Hh.
  pose proof (rep_root _ _ _ _ Hr) as Hroot. pose proof (alloc_in_step j k t ltac:(lia)) as Ha.
  destruct (p2 j <=? maxfree k (halves t).1) eqn:E.
  - pose proof (proj1 (Z.leb_le _ _) E) as E'.
    destruct (IH (2 * n) _ Hwl Hl ltac:(lia) Hs ltac:(lia) E')
      as (m & v' & Hm1 & Hm2 & Hd & Hf & Hr' & Ho).
    destruct (alloc_in_ok j k (halves t).1 Hwl ltac:(lia) E') as [Hwf' _ _ _ _].
    do 2 eexists. eapply (alloc_sim_child j k n (2 * n) (halves t).1 (halves t).2 _ _ _ _ _ _ _ Ha); eauto; [lia|by rewrite E|].
    rewrite p2_S. lia.
  - pose proof (proj1 (Z.leb_gt _ _) E) as E'.
    assert (Hm2 : p2 j <= maxfree k (halves t).2) by lia.
    destruct (IH (2 * n + 1) _ Hwr Hrr ltac:(lia) Hs ltac:(lia) Hm2)
      as (m & v' & Hm1 & Hm3 & Hd & Hf & Hr' & Ho).
    destruct (alloc_in_ok j k (halves t).2 Hwr ltac:(lia) Hm2) as [Hwf' _ _ _ _].
    do 2 eexists. eapply (alloc_sim_child j k n (2 * n + 1) (halves t).1 (halves t).2 _ _ _ _ _ _ _ Ha); eauto; [lia|by rewrite E|].
    rewrite p2_S. lia.
Qed.

(** ** Release *)

Lemma backtrace_up fuel v n c k x :
  small v -> 1 <= n < 2 ^ 61 -> (k <= 60)%nat -> c = 2 * n \/ c = 2 * n + 1 ->
  at_ v c = Some x -> x <> 0 ->
  backtrace (S fuel) v (c - 1) (p2 k) = backtrace fuel v (n - 1) (p2 (S k)).
Proof.
  intros Hs Hn Hk Hc Hx Hne. cbn [backtrace]. unfold at_ in Hx.
  rewrite (vec_get_ok _ _ _ Hx). cbn [mbind outcome_bind].
  rewrite (proj2 (Z.eqb_neq x 0)), (proj2 (Z.eqb_neq _ _)) by lia.
  rewrite (Parent_node n c) by lia. rewrite Z.shiftl_mul_pow2 by lia.
  pose proof (p2_lt_64 k ltac:(lia)). unwrap. rewrite p2_S. f_equal. lia.
Qed.

Lemma node_lt k n v : small v -> rep k n TFree v \/ rep k n TUsed v -> n < 2 ^ 61.
Proof. unfold small. intros Hs [H|H]; apply rep_root, at_lt in H; lia. Qed.

Lemma backtrace_full k n v o :
  small v -> 1 <= n < 2 ^ 61 -> (k <= 60)%nat -> full_below k n v -> 0 <= o < p2 k ->
  forall fuel, backtrace (k + S fuel) v (n * p2 k + o - 1) 1 = backtrace (S fuel) v (n - 1) (p2 k).
Proof.
  intros Hs. revert n o. induction k as [|k IH]; intros n o Hn Hk Hf Ho fuel.
  { change (p2 0) with 1 in *. replace (n * 1 + o - 1) with (n - 1) by lia. done. }
  destruct Hf as [[H1 H2] [H3 H4]]. rewrite p2_S in Ho.
  pose proof (at_lt _ _ _ H3). pose proof Hs as Hs'. unfold small in Hs'. pose proof (p2_pos k).
  replace (S k + S fuel)%nat with (k + S (S fuel))%nat by lia. rewrite p2_S.
  destruct (Z.lt_ge_cases o (p2 k)).
  - replace (n * (2 * p2 k) + o - 1) with ((2 * n) * p2 k + o - 1) by lia.
    rewrite IH by (done || lia). rewrite <- p2_S.
    apply (backtrace_up _ v n (2 * n) k (p2 k)); auto; lia.
  - replace (n * (2 * p2 k) + o - 1) with ((2 * n + 1) * p2 k + (o - p2 k) - 1) by lia.
    rewrite IH by (done || lia). rewrite <- p2_S.
    apply (backtrace_up _ v n (2 * n + 1) k (p2 k)); auto; lia.
Qed.

(** The search for a bin that is not there arrives at node [n]. *)
Lemma backtrace_none k n t v o :
  wf_tree k t -> rep k n t v -> small v -> 1 <= n -> (k <= 60)%nat -> 0 <= o < p2 k ->
  find_used k o t = None ->
  forall fuel, backtrace (k + S fuel) v (n * p2 k + o - 1) 1 = backtrace (S fuel) v (n - 1) (p2 k).
Proof.
  intros Hwf Hr Hs Hn Hk Ho Hf. pose proof Hs as Hs'. unfold small in Hs'.
  revert n k o Hwf Hr Hn Hk Ho Hf.
  induction t as [| |l IHl r IHr]; intros n k o Hwf Hr Hn Hk Ho Hf fuel; [|done|].
  { pose proof (at_lt _ _ _ (rep_root _ _ _ _ Hr)). apply backtrace_full; try done; [lia|].
    apply Hr. }
  destruct k as [|k]; simpl in Hwf; [done|]. destruct Hwf as (_ & Hwl & Hwr).
  destruct Hr as (_ & Hl & Hr). cbn [find_used Nat.pred] in *. rewrite p2_S in *.
  pose proof (rep_root _ _ _ _ Hl) as Hl'. pose proof (rep_root _ _ _ _ Hr) as Hr'.
  pose proof (at_lt _ _ _ Hr').
  replace (S k + S fuel)%nat with (k + S (S fuel))%nat by lia.
  destruct (o <? p2 k) eqn:E; zify_bool.
  - replace (n * (2 * p2 k) + o - 1) with ((2 * n) * p2 k + o - 1) by lia.
    rewrite IHl by (done || lia). rewrite <- p2_S.
    apply (backtrace_up _ v n (2 * n) k (maxfree k l)); auto; try lia.
    pose proof (find_used_None_maxfree k o l Hwl ltac:(lia) Hf). lia.
  - replace (n * (2 * p2 k) + o - 1) with ((2 * n + 1) * p2 k + (o - p2 k) - 1) by lia.
    rewrite IHr by (done || lia). rewrite <- p2_S.
    apply (backtrace_up _ v n (2 * n + 1) k (maxfree k r)); auto; try lia.
    pose proof (find_used_None_maxfree k (o - p2 k) r Hwr ltac:(lia) Hf). lia.
Qed.

(** What [Free] does in the subtree of node [n] when the slot [o] is in a bin of
    level [j]: the search stops at the bin's node [b], and the upward pass from [b]
    arrives at [n] with the subtree updated. *)
Definition free_sim_at (j k : nat) (n : Z) (o : Z) (t : tree) (v : list Z) (b : Z) (v' : list Z)
    : Prop :=
  is_Some (at_ v b) /\
  (forall fuel, backtrace (k + S fuel) v (n * p2 k + o - 1) 1 = Ok (Some (b - 1, p2 j))) /\
  (forall fuel, merge (k - j + fuel) (upd v b (p2 j)) (b - 1) (p2 j) = merge fuel v' (n - 1) (p2 k)) /\
  rep k n (free_at k o t) v' /\ outside k n v v'.

Lemma free_sim_child j k n c l r l' r' o o' t v v' b y :
  free_at (S k) o t = join_tree l' r' -> (j <= k)%nat -> (k <= 60)%nat ->
  1 <= n -> small v -> at_ v n = Some y ->
  wf_tree k l' -> wf_tree k r' -> rep k (2 * n) l v -> rep k (2 * n + 1) r v ->
  (c = 2 * n /\ r' = r /\ rep k (2 * n) l' v') \/
  (c = 2 * n + 1 /\ l' = l /\ rep k (2 * n + 1) r' v') ->
  n * p2 (S k) + o = c * p2 k + o' -> is_Some (at_ v b) ->
  (forall fuel, backtrace (k + S fuel) v (c * p2 k + o' - 1) 1 = Ok (Some (b - 1, p2 j))) ->
  (forall fuel, merge (k - j + fuel) (upd v b (p2 j)) (b - 1) (p2 j) = merge fuel v' (c - 1) (p2 k)) ->
  outside k c v v' ->
  exists v'', free_sim_at j (S k) n o t v b v''.
Proof.
  intros Ht Hj Hk Hn Hs Hroot Hwl Hwr Hl Hr Hside Ho' Hb Hbt Hm Ho.
  set (x := maxfree (S k) (join_tree l' r')). exists (upd v' n x).
  destruct (lift_child k n c l r l' r' v v' _ x Hn Hwl Hwr Hl Hr Hroot Ho Hside)
    as ((H1 & H2 & H3) & H4 & H5 & H6 & H7).
  unfold free_sim_at. rewrite Ht. replace (S k - j)%nat with (S (k - j)) by lia.
  split_and!; [done| | |by apply rep_join|done].
  - intros fuel. replace (S k + S fuel)%nat with (k + S (S fuel))%nat by lia.
    rewrite Ho'. apply Hbt.
  - intros fuel. replace (S (k - j) + fuel)%nat with (k - j + S fuel)%nat by lia.
    rewrite Hm. unfold x. rewrite maxfree_join, p2_S by done.
    pose proof (maxfree_bounds k l' Hwl). pose proof (maxfree_bounds k r' Hwr).
    apply (merge_step fuel v' n c _ _ y); auto.
    + unfold small. by destruct Ho as [-> _].
    + destruct Hside as [(-> & _)|(-> & _)]; auto.
    + apply p2_lt_64. lia.
Qed.

Lemma free_sim j k n t v o :
  wf_tree k t -> rep k n t v -> small v -> 1 <= n -> (k <= 60)%nat -> 0 <= o < p2 k ->
  find_used k o t = Some j -> exists b v', free_sim_at j k n o t v b v'.
Proof.
  intros Hwf Hr Hs. revert n k o Hwf Hr.
  induction t as [| |l IHl r IHr]; intros n k o Hwf Hr Hn Hk Ho Hf; [done| |].
  - cbn [find_used] in Hf. injection Hf as ->. destruct Hr as [Ha Hb].
    pose proof (at_lt _ _ _ Ha) as Hlt. pose proof Hs as Hs'. unfold small in Hs'.
    exists n, (upd v n (p2 j)). unfold free_sim_at. rewrite Nat.sub_diag.
    split_and!; [by eauto| | |by eapply rep_free|apply outside_upd; [apply in_sub_root|done]].
    + intros fuel. rewrite backtrace_full by (done || lia). cbn [backtrace].
      rewrite (vec_get_ok _ _ _ Ha). done.
    + done.
  - pose proof (find_used_range _ _ _ _ Hwf Hf) as Hj.
    destruct k as [|k]; [done|]. pose proof Hwf as (_ & Hwl & Hwr).
    pose proof (free_at_wf (S k) o _ Hwf) as Hwf'.
    destruct Hr as (Hroot & Hl & Hr). cbn [find_used Nat.pred] in *. rewrite p2_S in Ho.
    destruct (o <? p2 k) eqn:E.
    + pose proof (proj1 (Z.ltb_lt _ _) E) as E'.
      destruct (IHl (2 * n) k o Hwl Hl) as (b & v' & Hb & Hbt & Hm & Hr' & Hout); try (done || lia).
      exists b. eapply (free_sim_child j k n (2 * n) l r (free_at k o l) r o o _ v v'); eauto.
      * cbn [free_at Nat.pred]. by rewrite E.
      * exact (find_used_range _ _ _ _ Hwl Hf).
      * lia.
      * by apply free_at_wf.
      * rewrite p2_S. lia.
    + pose proof (proj1 (Z.ltb_ge _ _) E) as E'.
      destruct (IHr (2 * n + 1) k (o - p2 k) Hwr Hr) as (b & v' & Hb & Hbt & Hm & Hr' & Hout);
        try (done || lia).
      exists b. eapply (free_sim_child j k n (2 * n + 1) l r l (free_at k (o - p2 k) r) o (o - p2 k) _ v v'); eauto.
      * cbn [free_at Nat.pred]. by rewrite E.
      * exact (find_used_range _ _ _ _ Hwr Hf).
      * lia.
      * by apply free_at_wf.
      * rewrite p2_S. lia.
Qed.

Lemma backtrace_root fuel v s x :
  at_ v 1 = Some x -> x <> 0 -> backtrace (S fuel) v (1 - 1) s = Ok None.
Proof.
  unfold at_. intros Hx Hne. cbn [backtrace]. rewrite (vec_get_ok _ _ _ Hx).
  cbn [mbind outcome_bind]. by rewrite (proj2 (Z.eqb_neq x 0)).
Qed.

(** [SlotCountFor] walks as [Free] does, but past the root. *)
Lemma slot_loop_backtrace v : Z.of_nat (length v) <= size_max ->
  forall fuel i s r, backtrace fuel v i s = Ok r ->
  slot_loop (S fuel) v i s = match r with Some (_, s') => Ok s' | None => Undef end.
Proof.
  intros Hl fuel. induction fuel as [|fuel IH]; intros i s r Hb; [done|].
  cbn [backtrace] in Hb. apply bind_inv in Hb as (x & Hx & Hb).
  replace (slot_loop (S (S fuel)) v i s) with
    (if x =? 0 then Ok s else slot_loop (S fuel) v (Parent i) (wrap 64 (Z.shiftl s 1)))
    by (cbn [slot_loop]; by rewrite Hx).
  destruct (x =? 0); [by injection Hb as <-|].
  destruct (i =? 0) eqn:E; [|by apply IH]. injection Hb as <-. zify_bool. subst i.
  cbn [slot_loop]. rewrite vec_get_undef; [done|]. by change (Parent 0) with size_max.
Qed.

(** ** BinManager against its tree *)

Record bm_rep (K : nat) (bm : bin_manager) (t : tree) : Prop := {
  br_total : total_slot_count_ bm = p2 K;
  br_level : (K <= 59)%nat;
  br_length : Z.of_nat (length (max_consecutive_slot_ bm)) = 2 * p2 K - 1;
  br_wf : wf_tree K t;
  br_rep : rep K 1 t (max_consecutive_slot_ bm)
}.

Lemma p2_lt_60 K : (K <= 59)%nat -> 1 <= p2 K < 2 ^ 60.
Proof. intros H. pose proof (p2_pos K). split; [lia|]. apply Z.pow_lt_mono_r; lia. Qed.

Lemma br_small K bm t : bm_rep K bm t -> small (max_consecutive_slot_ bm).
Proof. intros [_ Hk Hl _ _]. pose proof (p2_lt_60 K Hk). unfold small. lia. Qed.

(** *** Construction *)

Lemma log2_step i :
  1 <= i < 2 ^ 62 ->
  IsPowerOf2 (i + 1) = true /\ Z.log2 (i + 1) = Z.log2 i + 1 \/
  IsPowerOf2 (i + 1) = false /\ Z.log2 (i + 1) = Z.log2 i.
Proof.
  intros Hi. pose proof (IsPowerOf2_spec (i + 1) ltac:(unfold in_u; lia)) as Hp.
  destruct (Z.log2_spec i ltac:(lia)) as [Hl Hu].
  destruct (Z.log2_spec (i + 1) ltac:(lia)) as [Hl' Hu'].
  pose proof (Z.log2_nonneg i). unfold Z.succ in *.
  destruct (Z.log2_succ_or i) as [Hs|Hs]; unfold Z.succ in Hs; rewrite Hs in *.
  - left. split; [|done]. apply Hp. split; [lia|]. lia.
  - right. split; [|done]. apply not_true_is_false. intros [_ Heq]%Hp. lia.
Qed.

Lemma shiftr_p2 a b : 0 <= b < a -> Z.shiftr (2 ^ (a - b)) 1 = 2 ^ (a - (b + 1)).
Proof.
  intros H. rewrite Z.shiftr_div_pow2 by lia. rewrite <- Z.pow_sub_r by lia. f_equal. lia.
Qed.

Definition init_inv (K i slot : Z) (v : list Z) : Prop :=
  (forall n, 1 <= n <= i -> at_ v n = Some (2 ^ (K - Z.log2 n))) /\
  slot = (if i =? 0 then 2 ^ (K + 1) else 2 ^ (K - Z.log2 i)).

Lemma init_loop_ok K todo i slot v :
  0 <= K <= 59 -> Z.of_nat (length v) = 2 ^ (K + 1) - 1 -> 0 <= i ->
  i + Z.of_nat todo = Z.of_nat (length v) -> init_inv K i slot v ->
  exists v', init_loop todo i slot v = Ok v' /\ length v' = length v /\
             forall n, 1 <= n <= Z.of_nat (length v) -> at_ v' n = Some (2 ^ (K - Z.log2 n)).
Proof.
  intros HK. revert i slot v. induction todo as [|todo IH]; intros i slot v Hlen Hi Ht [Hv Hs].
  { exists v. split_and!; [done|done|]. intros n Hn. apply Hv. lia. }
  assert (Hpow : 2 ^ (K + 1) <= 2 ^ 60) by (apply Z.pow_le_mono_r; lia).
  cbn [init_loop]. rewrite (wrap_small 64 (i + 1)) by (unfold in_u; lia).
  set (slot' := if IsPowerOf2 (i + 1) then Z.shiftr slot 1 else slot).
  assert (Hslot : slot' = 2 ^ (K - Z.log2 (i + 1))).
  { unfold slot'. destruct (decide (i = 0)) as [->|Hne].
    - subst slot. change (IsPowerOf2 (0 + 1)) with true. change (Z.log2 (0 + 1)) with 0. simpl.
      replace (K + 1) with (K + 1 - 0) by lia. rewrite shiftr_p2 by lia. f_equal. lia.
    - rewrite (proj2 (Z.eqb_neq i 0)) in Hs by lia.
      assert (Z.log2 (i + 1) < K + 1) by (apply Z.log2_lt_pow2; lia).
      pose proof (Z.log2_nonneg i).
      destruct (log2_step i ltac:(lia)) as [[-> Hl2]|[-> Hl2]]; rewrite Hl2 in *; rewrite Hs; [|done].
      apply shiftr_p2. lia. }
  rewrite vec_set_ok by lia. cbn [mbind outcome_bind].
  destruct (IH (i + 1) slot' (<[Z.to_nat i := slot']> v)) as (v' & H1 & H2 & H3);
    rewrite ?length_insert; try lia.
  - split.
    + intros n Hn. unfold at_. destruct (decide (n = i + 1)) as [->|].
      * replace (i + 1 - 1) with i by lia. rewrite vat_set_eq by lia. by rewrite Hslot.
      * rewrite vat_set_ne by lia. apply Hv. lia.
    + by rewrite (proj2 (Z.eqb_neq (i + 1) 0)) by lia.
  - exists v'. rewrite length_insert in H2, H3. done.
Qed.

(** Counts that depend on the level alone are those of a free tree. *)
Lemma full_by_level K k n v :
  1 <= n -> Z.of_nat k + Z.log2 n = K -> Z.of_nat (length v) = 2 ^ (K + 1) - 1 ->
  (forall m, 1 <= m <= Z.of_nat (length v) -> at_ v m = Some (2 ^ (K - Z.log2 m))) ->
  at_ v n = Some (p2 k) /\ full_below k n v.
Proof.
  intros Hn Hk Hl Hv. revert n Hn Hk. induction k as [|k IH]; intros n Hn Hk.
  - split; [|done]. destruct (Z.log2_spec n ltac:(lia)) as [_ Hu]. rewrite Hv; [unfold p2; do 2 f_equal; lia|].
    assert (2 ^ Z.succ (Z.log2 n) <= 2 ^ (K + 1)) by (apply Z.pow_le_mono_r; lia). lia.
  - destruct (Z.log2_spec n ltac:(lia)) as [_ Hu].
    assert (2 ^ Z.succ (Z.log2 n) <= 2 ^ (K + 1)) by (apply Z.pow_le_mono_r; lia).
    split; [rewrite Hv by lia; unfold p2; do 2 f_equal; lia|].
    split; apply IH; try lia.
    + rewrite Z.log2_double by lia. lia.
    + rewrite Z.log2_succ_double by lia. lia.
Qed.

Lemma make_bin_manager_spec total :
  u64 total ->
  match make_bin_manager total with
  | Ok bm => exists K, total = p2 K /\ bm_rep K bm TFree
  | Throw e => (e = runtime_error /\ ~ exists K, total = p2 K) \/
               (e = length_error /\ 2 ^ 60 <= total)
  | _ => False
  end.
Proof.
  intros Ht. unfold make_bin_manager. pose proof (IsPowerOf2_spec total Ht) as Hp.
  destruct (IsPowerOf2 total); cbn [mbind outcome_bind].
  2: { left. split; [done|]. intros [K ->]. enough (false = true) by done. apply Hp.
       split; [apply p2_pos|]. unfold p2. rewrite Z.log2_pow2 by lia. done. }
  destruct (proj1 Hp eq_refl) as [Hpos Heq]. pose proof (Z.log2_nonneg total).
  unfold in_u in Ht. rewrite Z.shiftl_mul_pow2, Z.pow_1_r by lia.
  case_bool; cbn [mbind outcome_bind].
  2: { right. split; [done|]. destruct (Z.lt_ge_cases total (2 ^ 60)); [exfalso|done].
       revert E. unfold vector_max_size. unwrap.
       assert (Z.log2 total < 60) by (apply Z.log2_lt_pow2; lia).
       assert (total <= 2 ^ 59) by (rewrite Heq; apply Z.pow_le_mono_r; lia). lia. }
  assert (Hsmall : total < 2 ^ 60).
  { destruct (Z.lt_ge_cases total (2 ^ 60)) as [|Hge]; [done|exfalso].
    unfold vector_max_size in E. destruct (Z.lt_ge_cases total (2 ^ 63)).
    - revert E. unwrap. lia.
    - assert (Z.log2 total < 64) by (apply Z.log2_lt_pow2; lia).
      assert (63 <= Z.log2 total) by (apply Z.log2_le_pow2; lia).
      assert (Hl : Z.log2 total = 63) by lia. rewrite Hl in Heq. subst total.
      vm_compute in E. by apply E. }
  set (K := Z.log2 total) in *. assert (0 <= K < 60) by (split; [lia|apply Z.log2_lt_pow2; lia]).
  unwrap. replace (total * 2) with (2 ^ (K + 1)) by (rewrite Z.pow_add_r by lia; lia).
  assert (1 <= 2 ^ (K + 1)) by (pose proof (Z.pow_pos_nonneg 2 (K + 1)); lia).
  destruct (init_loop_ok K (Z.to_nat (2 ^ (K + 1) - 1)) 0 (2 ^ (K + 1))
              (replicate (Z.to_nat (2 ^ (K + 1) - 1)) 0)) as (v & -> & Hlen & Hv);
    rewrite ?length_replicate; try lia.
  { split; [|done]. intros n ?. lia. }
  cbn [mbind outcome_bind]. rewrite length_replicate in *.
  assert (Hp2 : p2 (Z.to_nat K) = total) by (unfold p2; rewrite Z2Nat.id by lia; lia).
  exists (Z.to_nat K). split; [done|].
  assert (2 ^ (K + 1) = 2 * total) by (rewrite Z.pow_add_r by lia; lia).
  split; cbn [total_slot_count_ max_consecutive_slot_]; [done|lia|lia|done|].
  apply (full_by_level K); [lia| |lia|].
  - rewrite Z2Nat.id by lia. change (Z.log2 1) with 0. lia.
  - intros m Hm. apply Hv. lia.
Qed.

(** *** Requests above 2^32 slots *)

Lemma NearestUpperPowerOf2_ge n : 0 < n <= 2 ^ 63 -> n <= NearestUpperPowerOf2 n.
Proof.
  intros Hn. unfold NearestUpperPowerOf2. rewrite (wrap_small 64 (n - 1)) by (unfold in_u; lia).
  change (Z.shiftl sizeof_size_t 2) with 32. pose proof (smear_smeared (n - 1)) as H.
  set (r := smear 64 32 1 (n - 1)) in *.
  destruct (decide (n = 1)) as [->|Hne]; [by vm_compute|].
  assert (Hr0 : 0 <= r).
  { apply Z.bits_iff_nonneg_ex. exists 63. intros b Hb.
    apply not_true_is_false. intros (d & Hd & Hbit)%(H b ltac:(lia)).
    assert (Z.log2 (n - 1) < 63) by (apply Z.log2_lt_pow2; lia).
    rewrite Z.bits_above_log2 in Hbit by lia. done. }
  assert (Hge : n - 1 <= r).
  { apply Z.ldiff_le; [done|]. apply Z.bits_inj'. intros b Hb.
    rewrite Z.ldiff_spec, Z.bits_0. destruct (Z.testbit (n - 1) b) eqn:E; [|done].
    rewrite (proj2 (H b Hb)); [done|]. exists 0. rewrite Z.add_0_r. split; [lia|done]. }
  assert (Hlt : r < 2 ^ 63).
  { destruct (Z.lt_ge_cases r (2 ^ 63)) as [|Hbig]; [done|exfalso].
    pose proof (Z.bit_log2 r ltac:(lia)) as Hbit.
    assert (63 <= Z.log2 r) by (apply Z.log2_le_pow2; lia).
    apply H in Hbit as (d & Hd & Hbit); [|lia].
    assert (Z.log2 (n - 1) < 63) by (apply Z.log2_lt_pow2; lia).
    rewrite Z.bits_above_log2 in Hbit by lia. done. }
  unwrap. lia.
Qed.

Lemma level_of_le n K : 0 < n <= p2 K -> (level_of n <= K)%nat.
Proof.
  intros [Hn Hk]. unfold level_of. assert (Z.log2_up n <= Z.of_nat K); [|lia].
  apply Z.log2_up_le_pow2; [lia|done].
Qed.

(** *** The operations *)

Section Operations.
Context (ndebug : bool).

Lemma Allocate_spec K bm t req :
  bm_rep K bm t -> (K <= 32)%nat -> 0 < req <= 2 ^ 63 ->
  if decide (p2 (level_of req) <= maxfree K t)
  then exists bm', Allocate ndebug bm req = Ok ((alloc_in (level_of req) K t).2, bm') /\
                   bm_rep K bm' (alloc_in (level_of req) K t).1
  else Allocate ndebug bm req = Ok (noffset, bm).
Proof.
  intros Hb HK Hreq. pose proof (br_small K bm t Hb) as Hs. destruct Hb as [Ht Hlev Hlen Hwf Hr].
  pose proof (rep_root _ _ _ _ Hr) as Hroot. unfold at_ in Hroot.
  change (1 - 1) with 0 in Hroot.
  pose proof (maxfree_bounds K t Hwf) as Hmf. pose proof (level_of_bounds req ltac:(lia)) as Hge.
  pose proof (p2_le K 32 HK) as HK32. pose proof (p2_lt_60 K Hlev).
  unfold Allocate. rewrite (proj2 (Z.eqb_neq req 0)) by lia.
  unfold assert_. rewrite orb_true_r. cbn [mbind outcome_bind].
  rewrite (vec_get_ok _ _ _ Hroot). cbn [mbind outcome_bind].
  destruct (Z.le_gt_cases req (2 ^ 32)) as [Hsmall|Hbig].
  2: { change (2 ^ 32) with (p2 32) in Hbig. pose proof (NearestUpperPowerOf2_ge req Hreq).
       rewrite decide_False by lia. by rewrite (proj2 (Z.ltb_lt _ _)) by lia. }
  rewrite NearestUpperPowerOf2_spec by lia. set (j := level_of req) in *.
  case_decide as Hm.
  2: { by rewrite (proj2 (Z.ltb_lt _ _)) by lia. }
  rewrite (proj2 (Z.ltb_ge _ _)) by lia.
  assert (Hj : (j <= K)%nat) by (apply level_of_le; lia).
  destruct (alloc_sim j K 1 t _ Hwf Hr ltac:(lia) Hs Hj Hm) as (m & v' & Hoff & Hm' & Hd & Hf & Hr' & Ho).
  destruct (alloc_in_ok j K t Hwf Hj Hm) as [Hwf' _ [Ho1 Ho2] _ _]. pose proof (p2_pos j).
  specialize (Hd (65 - (K - j))%nat). specialize (Hf (66 - (K - j))%nat).
  replace (K - j + S (65 - (K - j)))%nat with path_fuel in Hd by (unfold path_fuel; lia).
  replace (K - j + (66 - (K - j)))%nat with path_fuel in Hf by (unfold path_fuel; lia).
  change (1 - 1) with 0 in Hd, Hf. rewrite Ht, Hd. cbn [mbind outcome_bind].
  assert (Hmlt : 1 <= m <= Z.of_nat (length (max_consecutive_slot_ bm)))
    by (destruct Hm' as [? Hm']; by eapply at_lt).
  rewrite vec_set_ok by lia. cbn [mbind outcome_bind].
  fold (upd (max_consecutive_slot_ bm) m 0). rewrite Hf.
  replace (66 - (K - j))%nat with (S (65 - (K - j)))%nat by lia.
  cbn [refresh Z.eqb mbind outcome_bind].
  exists (mk_bin_manager (p2 K) v'). split.
  - do 2 f_equal. replace (m - 1 + 1) with m by lia. unwrap. lia.
  - destruct Ho as [Hl' _]. split; simpl; try done. lia.
Qed.

Lemma leaf_index K bm t off :
  bm_rep K bm t -> 0 <= off < p2 K ->
  wrap 64 (wrap 64 (off + total_slot_count_ bm) - 1) = 1 * p2 K + off - 1.
Proof.
  intros [-> Hk _ _ _] Ho. pose proof (p2_lt_60 K Hk). unwrap. lia.
Qed.

Lemma Free_spec K bm t off :
  bm_rep K bm t -> 0 <= off < p2 K ->
  exists bm', Free ndebug bm off = Ok bm' /\ bm_rep K bm' (free_at K off t).
Proof.
  intros Hb Ho. pose proof (br_small K bm t Hb) as Hs. unfold Free.
  rewrite (leaf_index K bm t) by done. pose proof Hb as [Ht Hlev Hlen Hwf Hr]. rewrite Ht.
  rewrite (proj2 (Z.ltb_lt _ _)), (proj2 (Z.leb_gt _ _)) by lia.
  unfold assert_. rewrite orb_true_r. cbn [mbind outcome_bind].
  assert (Hfuel : path_fuel = (K + S (65 - K))%nat) by (unfold path_fuel; lia).
  pose proof (free_at_blocks K 0 off t Hwf Ho) as Hfb.
  destruct (find_used K off t) as [j|] eqn:E.
  - destruct (free_sim j K 1 t _ off Hwf Hr Hs ltac:(lia) ltac:(lia) Ho E)
      as (b & v' & Hat & Hbt & Hm & Hr' & Hout).
    rewrite Hfuel, Hbt, <- Hfuel. cbn [mbind outcome_bind]. destruct Hat as [y Hat]. apply at_lt in Hat.
    rewrite vec_set_ok by lia. cbn [mbind outcome_bind].
    pose proof (find_used_range _ _ _ _ Hwf E).
    replace path_fuel with (K - j + S (65 - (K - j)))%nat by (unfold path_fuel; lia).
    fold (upd (max_consecutive_slot_ bm) b (p2 j)). rewrite Hm. change (1 - 1) with 0.
    cbn [merge Z.eqb mbind outcome_bind]. eexists. split; [done|].
    destruct Hout as [Hl' _]. split; simpl; try done; [lia|]. by apply free_at_wf.
  - rewrite Hfuel, (backtrace_none K 1 t) by (done || lia). destruct Hfb as [-> _].
    pose proof (find_used_None_maxfree K off t Hwf Ho E).
    rewrite (backtrace_root _ _ _ _ (rep_root _ _ _ _ Hr)) by lia.
    cbn [mbind outcome_bind]. eauto.
Qed.

Lemma SlotCountFor_spec K bm t off :
  bm_rep K bm t -> 0 <= off < p2 K ->
  SlotCountFor ndebug bm off =
    match find_used K off t with Some j => Ok (p2 j) | None => Undef end.
Proof.
  intros Hb Ho. pose proof (br_small K bm t Hb) as Hs. unfold SlotCountFor.
  rewrite (leaf_index K bm t) by done. pose proof Hb as [Ht Hlev Hlen Hwf Hr]. rewrite Ht.
  rewrite (proj2 (Z.ltb_lt _ _)), (proj2 (Z.leb_gt _ _)) by lia.
  unfold assert_. rewrite orb_true_r. cbn [mbind outcome_bind].
  assert (Hsz : Z.of_nat (length (max_consecutive_slot_ bm)) <= size_max)
    by (unfold small, size_max in *; lia).
  change path_fuel with (S 65). destruct (find_used K off t) as [j|] eqn:E.
  - destruct (free_sim j K 1 t _ off Hwf Hr Hs ltac:(lia) ltac:(lia) Ho E)
      as (b & v' & _ & Hbt & _ & _ & _).
    specialize (Hbt (64 - K)%nat). replace (K + S (64 - K))%nat with 65%nat in Hbt by lia.
    by rewrite (slot_loop_backtrace _ Hsz _ _ _ _ Hbt).
  - pose proof (backtrace_none K 1 t _ off Hwf Hr Hs ltac:(lia) ltac:(lia) Ho E (64 - K)%nat) as Hbt.
    replace (K + S (64 - K))%nat with 65%nat in Hbt by lia.
    pose proof (find_used_None_maxfree K off t Hwf Ho E).
    rewrite (backtrace_root _ _ _ _ (rep_root _ _ _ _ Hr)) in Hbt by lia.
    by rewrite (slot_loop_backtrace _ Hsz _ _ _ _ Hbt).
Qed.
End Operations.

(** ** The allocator against its table *)

Inductive alloc_op :=
| OpAllocate (number_of_bytes : Z) (want : bool)
| OpDeallocate (ptr : Z)
| OpQuery (ptr : Z).

Inductive alloc_result :=
| RPointer (ptr : Z) (bytes_allocated : option Z)
| RDeallocated (ptr : Z)
| RSize (bytes : Z).

Definition exec_alloc (ndebug : bool) (a : buddy_allocator) (o : alloc_op)
    : outcome (alloc_result * buddy_allocator) :=
  match o with
  | OpAllocate n want => '(p, s, a) ← allocate ndebug a n want; Ok (RPointer p s, a)
  | OpDeallocate p => '(p, a) ← Deallocate ndebug a p; Ok (RDeallocated p, a)
  | OpQuery p => Ok (RSize (QueryAllocatedSize a p), a)
  end.

Fixpoint exec_allocs (ndebug : bool) (a : buddy_allocator) (ops : list alloc_op)
    : outcome (list alloc_result * buddy_allocator) :=
  match ops with
  | [] => Ok ([], a)
  | o :: ops =>
      '(r, a) ← exec_alloc ndebug a o;
      '(rs, a) ← exec_allocs ndebug a ops;
      Ok (r :: rs, a)
  end.

(** The slots a request is rounded up to. *)
Definition slots_for (number_of_bytes : Z) : Z := (number_of_bytes + 4095) / 4096.
Definition bin_for (number_of_bytes : Z) : Z := p2 (level_of (slots_for number_of_bytes)).

(** A size of at least one byte, that [BytesToSlots] rounds up without overflow. *)
Definition sized (n : Z) : Prop := 0 < n <= 2 ^ 64 - 4096.
#[global] Instance sized_dec n : Decision (sized n).
Proof. unfold sized. apply _. Defined.

(** The specification: [live] maps an address to the (slots, offset) of its bin. *)
Section AllocatorSpec.
Context (base : Z) (K : nat).

Definition address (offset : Z) : Z := base + 4096 * offset.

Definition bin_free (live : gmap Z (Z * Z)) (size offset : Z) : Prop :=
  (size | offset) /\ 0 <= offset /\ offset + size <= p2 K /\
  forall p s o, live !! p = Some (s, o) -> disjoint_blocks (o, s) (offset, size).

Inductive alloc_step (live : gmap Z (Z * Z)) : alloc_op -> alloc_result -> gmap Z (Z * Z) -> Prop :=
| step_allocate n want offset :
    sized n -> bin_free live (bin_for n) offset ->
    alloc_step live (OpAllocate n want)
      (RPointer (address offset) (if want then Some (bin_for n * 4096) else None))
      (<[address offset := (bin_for n, offset)]> live)
| step_no_bin n want :
    sized n -> (forall offset, ~ bin_free live (bin_for n) offset) ->
    alloc_step live (OpAllocate n want) (RPointer 0 None) live
| step_no_slots n want :
    ~ sized n -> alloc_step live (OpAllocate n want) (RPointer 0 None) live
| step_deallocate p s o :
    live !! p = Some (s, o) ->
    alloc_step live (OpDeallocate p) (RDeallocated 0) (delete p live)
| step_deallocate_unknown p :
    live !! p = None ->
    alloc_step live (OpDeallocate p) (RDeallocated p) live
| step_query p :
    alloc_step live (OpQuery p)
      (RSize (match live !! p with Some (s, _) => s * 4096 | None => 0 end)) live.

Inductive alloc_steps : gmap Z (Z * Z) -> list alloc_op -> list alloc_result -> gmap Z (Z * Z) -> Prop :=
| steps_nil live : alloc_steps live [] [] live
| steps_cons live live1 live2 o r ops rs :
    alloc_step live o r live1 -> alloc_steps live1 ops rs live2 ->
    alloc_steps live (o :: ops) (r :: rs) live2.

Definition valid_op (o : alloc_op) : Prop :=
  match o with OpAllocate n _ => sized n | _ => True end.

(** What a build accepts: without assertions any [size_t], with them only what asks for a slot. *)
Definition accepted_op (ndebug : bool) (o : alloc_op) : Prop :=
  match o with OpAllocate n _ => if ndebug then in_u 64 n else sized n | _ => True end.

Lemma valid_accepted ndebug o : valid_op o -> accepted_op ndebug o.
Proof. destruct o, ndebug; try done. cbn. unfold sized, in_u. lia. Qed.

Definition record_of (b : Z * Z) : Z * (Z * Z) := (address b.1, (b.2, b.1)).

Record alloc_rep (a : buddy_allocator) (t : tree) : Prop := {
  ar_bins : bm_rep K (bin_manager_ a) t;
  ar_memory : memory_bin_ a = mk_memory_bin base (p2 K);
  ar_table : map_to_list (allocation_table_ a) ≡ₚ record_of <$> blocks K 0 t
}.

Lemma table_blocks a t p s o :
  alloc_rep a t -> allocation_table_ a !! p = Some (s, o) <-> p = address o /\ (o, s) ∈ blocks K 0 t.
Proof.
  intros [_ _ Ht]. rewrite <- elem_of_map_to_list, Ht, list_elem_of_fmap. split.
  - intros ([o' s'] & [= -> -> ->] & Hb). done.
  - intros [-> Hb]. by exists (o, s).
Qed.

Lemma bin_free_maxfree a t n :
  alloc_rep a t -> 0 < n ->
  p2 (level_of (slots_for n)) <= maxfree K t <-> exists offset, bin_free (allocation_table_ a) (bin_for n) offset.
Proof.
  intros Ha Hn. unfold bin_for. set (j := level_of (slots_for n)).
  pose proof (br_wf _ _ _ (ar_bins _ _ Ha)) as Hwf. split.
  - intros Hm. assert (Hj : (j <= K)%nat).
    { destruct (decide (j <= K)%nat); [done|]. pose proof (p2_lt K j ltac:(lia)).
      pose proof (p2_pos K). pose proof (maxfree_bounds K t Hwf). lia. }
    destruct (alloc_in_ok j K t Hwf Hj Hm) as [Hwf' _ [? ?] ? Hb].
    exists (alloc_in j K t).2. split_and!; try done. intros p s o [_ Hin]%(table_blocks a t); [|done].
    apply (blocks_cons_disjoint K t (alloc_in j K t).1); [done| |done].
    by rewrite (Hb 0), Z.add_0_l.
  - intros (offset & [q Hq] & H0 & H1 & Hd). pose proof (p2_pos j).
    assert (Hj : (j <= K)%nat).
    { destruct (decide (j <= K)%nat); [done|]. pose proof (p2_lt K j ltac:(lia)).
      pose proof (p2_pos K). lia. }
    apply (maxfree_complete j K 0 t q Hwf Hj); [nia|nia|]. intros [o s] Hb.
    rewrite Z.add_0_l, <- Hq. apply (Hd (address o)). by apply (table_blocks a t).
Qed.
End AllocatorSpec.

Lemma allocate_zero debug a n want :
  n = 0 \/ 2 ^ 64 - 4096 < n < 2 ^ 64 ->
  allocate debug a n want = if debug then Ok (0, None, a) else Undef.
Proof.
  intros Hn. assert (Hs : BytesToSlots n false = Ok 0).
  { unfold BytesToSlots, slot_granularity. cbn [andb mbind outcome_bind]. f_equal.
    destruct Hn as [->|Hn]; [reflexivity|].
    unfold wrap. rewrite Zminus_mod_idemp_l.
    rewrite <- (Z.mod_add _ (-1)), Z.mod_small by lia. apply Z.div_small. lia. }
  unfold allocate, Allocate, assert_. rewrite Hs. cbn [mbind outcome_bind].
  destruct debug, a; done.
Qed.

Section Refinement.
Context (ndebug : bool) (base : Z) (K : nat) (HK : (K <= 32)%nat).

Lemma BytesToSlots_spec n :
  0 < n <= 2 ^ 64 - 4096 -> BytesToSlots n false = Ok (slots_for n) /\ 0 < slots_for n <= 2 ^ 63.
Proof.
  intros Hn. unfold BytesToSlots, slots_for, slot_granularity. cbn [andb mbind outcome_bind]. split.
  - unfold wrap. rewrite Zminus_mod_idemp_l, Z.mod_small by lia. do 2 f_equal. lia.
  - split; [apply Z.div_str_pos; lia|]. apply Z.div_le_upper_bound; lia.
Qed.

Lemma SlotCountFor_block bm t o s :
  bm_rep K bm t -> (o, s) ∈ blocks K 0 t -> SlotCountFor ndebug bm o = Ok s.
Proof.
  intros Hb Hin. pose proof (br_wf _ _ _ Hb) as Hwf.
  destruct (blocks_inside K 0 t _ Hwf Hin) as (i & _ & Hs & ? & ? & _). simpl in *. subst s.
  pose proof (p2_pos i). rewrite (SlotCountFor_spec ndebug K bm t o Hb) by lia.
  destruct (find_used_block K (o, p2 i) o t Hwf Hin) as (j & -> & Hj & _); [unfold covers; simpl; lia|].
  simpl in Hj. by rewrite Hj.
Qed.

Lemma allocate_refines a t n want :
  alloc_rep base K a t -> 0 < n <= 2 ^ 64 - 4096 ->
  exists r a' t', exec_alloc ndebug a (OpAllocate n want) = Ok (r, a') /\ alloc_rep base K a' t' /\
    capacity_ a' = capacity_ a /\
    alloc_step base K (allocation_table_ a) (OpAllocate n want) r (allocation_table_ a').
Proof.
  intros Ha Hn. destruct (BytesToSlots_spec n Hn) as [Hs Hs']. pose proof Ha as [Hbm Hmem Htab].
  pose proof (Allocate_spec ndebug K _ t (slots_for n) Hbm HK Hs') as Hal.
  pose proof (bin_free_maxfree base K a t n Ha ltac:(lia)) as Hfree.
  unfold exec_alloc, allocate. rewrite Hs. cbn [mbind outcome_bind].
  case_decide as Hm.
  2: { rewrite Hal. cbn [mbind outcome_bind]. rewrite Z.eqb_refl. cbn [mbind outcome_bind].
       eexists _, _, t. split_and!; [done|done|done|]. apply step_no_bin; [exact Hn|]. intros off Hoff.
       apply Hm, Hfree. eauto. }
  destruct Hal as (bm' & Hal & Hbm'). rewrite Hal. cbn [mbind outcome_bind].
  set (j := level_of (slots_for n)) in *.
  pose proof (br_wf _ _ _ Hbm) as Hwf. pose proof (maxfree_bounds K t Hwf) as Hmb.
  assert (Hj : (j <= K)%nat).
  { destruct (decide (j <= K)%nat); [done|]. pose proof (p2_lt K j ltac:(lia)).
    pose proof (p2_pos K). lia. }
  destruct (alloc_in_ok j K t Hwf Hj Hm) as [Hwf' _ [Ho1 Ho2] Hdiv Hb].
  set (off := (alloc_in j K t).2) in *. set (t' := (alloc_in j K t).1) in *.
  specialize (Hb 0). rewrite Z.add_0_l in Hb. pose proof (p2_pos j).
  pose proof (p2_lt_60 K (br_level _ _ _ Hbm)) as HK60.
  rewrite (proj2 (Z.eqb_neq off noffset)) by (unfold noffset, size_max; lia).
  assert (Hcount : SlotCountFor ndebug bm' off = Ok (p2 j)).
  { apply (SlotCountFor_block bm' t'); [done|]. rewrite Hb. left. }
  cbn [bin_manager_ memory_bin_]. unfold AddAllocationRecord, Map. cbn [bin_manager_ memory_bin_].
  rewrite Hmem, Hcount. cbn [slots_ slot_count_ mbind outcome_bind].
  rewrite (proj2 (Z.ltb_lt off (p2 K))) by lia.
  assert (Hbytes : wrap 64 (p2 j * slot_granularity) = bin_for n * 4096).
  { unfold bin_for. fold j. pose proof (p2_le j K Hj). pose proof (p2_le K 32 HK) as HK32.
    change (p2 32) with (2 ^ 32) in HK32. unfold slot_granularity. apply wrap_small. unfold in_u. lia. }
  assert (Hbf : bin_free K (allocation_table_ a) (bin_for n) off).
  { split_and!; try done. intros p s o [_ Hin]%(table_blocks base K a t); [|done].
    by apply (blocks_cons_disjoint K t t'). }
  assert (Hif : (if want then Ok (Some (wrap 64 (p2 j * slot_granularity))) else Ok None) =
                Ok (if want then Some (bin_for n * 4096) else None))
    by (destruct want; by rewrite ?Hbytes).
  rewrite Hif. cbn [mbind outcome_bind]. eexists _, _, t'. split_and!; [done| |done|].
  - split; cbn [bin_manager_ memory_bin_ allocation_table_]; [done|done|].
    rewrite Hb. rewrite map_to_list_insert; [by rewrite Htab|].
    destruct (allocation_table_ a !! _) as [[s o]|] eqn:E; [exfalso|done].
    apply (table_blocks base K a t) in E as [Heq Hin]; [|done].
    assert (o = off) as -> by (unfold address, slot_granularity in Heq; lia).
    destruct (blocks_inside K 0 t _ Hwf Hin) as (i & _ & Hsz & _ & _ & _). pose proof (p2_pos i).
    destruct (blocks_cons_disjoint K t t' _ _ Hwf' Hb Hin) as [Hd|Hd]; simpl in *; lia.
  - cbn [allocation_table_]. by apply (step_allocate base K _ n want off Hn).
Qed.

Lemma allocate_refines_any a t n want :
  alloc_rep base K a t -> accepted_op ndebug (OpAllocate n want) ->
  exists r a' t', exec_alloc ndebug a (OpAllocate n want) = Ok (r, a') /\ alloc_rep base K a' t' /\
    capacity_ a' = capacity_ a /\
    alloc_step base K (allocation_table_ a) (OpAllocate n want) r (allocation_table_ a').
Proof.
  intros Ha Hn. destruct (decide (sized n)) as [Hs|Hs]; [exact (allocate_refines a t n want Ha Hs)|]. destruct ndebug eqn:En; [|done].
  exists (RPointer 0 None), a, t. cbn in Hn. unfold in_u in Hn. unfold sized in Hs. split_and!; [|done|done|by apply step_no_slots].
  unfold exec_alloc. rewrite (allocate_zero true) by lia. done.
Qed.

Lemma deallocate_refines a t p :
  alloc_rep base K a t ->
  exists r a' t', exec_alloc ndebug a (OpDeallocate p) = Ok (r, a') /\ alloc_rep base K a' t' /\
    capacity_ a' = capacity_ a /\
    alloc_step base K (allocation_table_ a) (OpDeallocate p) r (allocation_table_ a').
Proof.
  intros Ha. pose proof Ha as [Hbm Hmem Htab]. unfold exec_alloc, Deallocate.
  destruct (allocation_table_ a !! p) as [[s o]|] eqn:E; cbn [mbind outcome_bind].
  2: { eexists _, a, t. split_and!; try done. by apply step_deallocate_unknown. }
  pose proof (proj1 (table_blocks base K a t p s o Ha) E) as [-> Hin].
  pose proof (br_wf _ _ _ Hbm) as Hwf.
  destruct (blocks_inside K 0 t _ Hwf Hin) as (i & _ & Hs & ? & ? & _). simpl in *. pose proof (p2_pos i).
  destruct (find_used_block K (o, s) o t Hwf Hin) as (j & _ & _ & Hp); [unfold covers; simpl; lia|].
  destruct (Free_spec ndebug K _ t o Hbm ltac:(lia)) as (bm' & -> & Hbm'). cbn [mbind outcome_bind].
  eexists _, _, _. split_and!; [done| |done|by eapply step_deallocate].
  split; cbn [bin_manager_ memory_bin_ allocation_table_]; [exact Hbm'|done|].
  apply (Permutation_cons_inv (a := (address base o, (s, o)))).
  rewrite map_to_list_delete by done. by rewrite Htab, Hp.
Qed.

Lemma query_refines a t p :
  alloc_rep base K a t ->
  alloc_step base K (allocation_table_ a) (OpQuery p) (RSize (QueryAllocatedSize a p)) (allocation_table_ a).
Proof.
  intros Ha. pose proof Ha as [Hbm Hmem Htab].
  replace (QueryAllocatedSize a p) with
    (match allocation_table_ a !! p with Some (s, _) => s * 4096 | None => 0 end);
    [by apply step_query|].
  unfold QueryAllocatedSize. destruct (allocation_table_ a !! p) as [[s o]|] eqn:E; [|done].
  pose proof (proj1 (table_blocks base K a t p s o Ha) E) as [-> Hin].
  destruct (blocks_inside K 0 t _ (br_wf _ _ _ Hbm) Hin) as (i & Hi & Hs & _). simpl in Hs.
  pose proof (p2_le i K Hi). pose proof (p2_le K 32 HK) as HK32. pose proof (p2_pos i).
  change (p2 32) with (2 ^ 32) in HK32. symmetry. apply wrap_small. unfold in_u, slot_granularity. lia.
Qed.

Lemma exec_allocs_refines ops : forall a t,
  alloc_rep base K a t -> Forall (accepted_op ndebug) ops ->
  exists rs a' t', exec_allocs ndebug a ops = Ok (rs, a') /\ alloc_rep base K a' t' /\
    capacity_ a' = capacity_ a /\
    alloc_steps base K (allocation_table_ a) ops rs (allocation_table_ a').
Proof.
  induction ops as [|o ops IH]; intros a t Ha Hv; [eexists _, a, t; split_and!; try done; constructor|].
  apply Forall_cons in Hv as [Ho Hv].
  assert (Hstep : exists r a1 t1, exec_alloc ndebug a o = Ok (r, a1) /\ alloc_rep base K a1 t1 /\
    capacity_ a1 = capacity_ a /\ alloc_step base K (allocation_table_ a) o r (allocation_table_ a1)).
  { destruct o as [n want| |]; [by eapply allocate_refines_any|by eapply deallocate_refines|].
    eexists _, a, t. split_and!; try done. by eapply query_refines. }
  destruct Hstep as (r & a1 & t1 & He & Ha1 & Hc1 & Hs1).
  destruct (IH a1 t1 Ha1 Hv) as (rs & a2 & t2 & Hes & Ha2 & Hc2 & Hs2).
  exists (r :: rs), a2, t2. cbn [exec_allocs]. rewrite He. cbn [mbind outcome_bind].
  rewrite Hes. cbn [mbind outcome_bind]. split_and!; [done|done|congruence|by econstructor].
Qed.
End Refinement.

(** ** Construction of the allocator *)

Lemma make_buddy_allocator_ok base max_byte a :
  0 <= max_byte <= 2 ^ 44 -> make_buddy_allocator base max_byte = Ok a ->
  exists K, (K <= 32)%nat /\ max_byte = 4096 * p2 K /\ alloc_rep base K a TFree /\
            allocation_table_ a = ∅ /\ capacity_ a = max_byte.
Proof.
  intros Hmax Hm. unfold make_buddy_allocator in Hm. inv_ok Hm.
  rename a0 into slots, a1 into bm, a2 into mb. injection Hm as <-.
  unfold BytesToSlots, slot_granularity in Ha. cbn [andb] in Ha.
  destruct (max_byte mod 4096 =? 0) eqn:E; cbn [negb mbind outcome_bind] in Ha; [|discriminate].
  injection Ha as Hs. revert Hs. unwrap. intros Hs. zify_bool.
  assert (Hslots : max_byte = 4096 * slots) by (subst slots; Z.to_euclidean_division_equations; lia).
  pose proof (make_bin_manager_spec slots ltac:(unfold in_u; lia)) as Hb. rewrite Ha0 in Hb.
  destruct Hb as (K & -> & Hb). unfold make_memory_bin in Ha1.
  assert (HK : (K <= 32)%nat).
  { destruct (decide (K <= 32)%nat); [done|]. pose proof (p2_lt 32 K ltac:(lia)) as H.
    change (p2 32) with (2 ^ 32) in H. lia. }
  destruct (IsPowerOf2 (p2 K)); [|discriminate]. injection Ha1 as <-.
  exists K. split_and!; done.
Qed.

(** ** Properties *)

(** C3: the allocator refines its table of live bins: on a fresh allocator of at most 2^44 bytes
    any sequence of releases, queries and requests (of at least one byte and at most 2^64 - 4096
    in a build with assertions, of any size in one without) runs to the end without undefined
    behaviour, and every step is a step of the specification: a request of such a size fails only
    when no aligned bin of its rounded size is free, and any other returns a null pointer and
    changes nothing. *)
Theorem allocator_refines_table ndebug base max_byte a ops :
  0 <= max_byte <= 2 ^ 44 -> make_buddy_allocator base max_byte = Ok a -> Forall (accepted_op ndebug) ops ->
  exists K rs a', max_byte = 4096 * p2 K /\ exec_allocs ndebug a ops = Ok (rs, a') /\
                  alloc_steps base K ∅ ops rs (allocation_table_ a').
Proof.
  intros Hmax Hm Hv. destruct (make_buddy_allocator_ok base max_byte a Hmax Hm)
    as (K & HK & HmK & Hr & He & _).
  destruct (exec_allocs_refines ndebug base K HK ops a TFree Hr Hv) as (rs & a' & t' & Hx & _ & _ & Hs).
  rewrite He in Hs. by exists K, rs, a'.
Qed.

(** C35: after any sequence of requests of at least one byte (and at most 2^64 - 4096),
    releases and queries on a fresh allocator the live allocations are disjoint ranges of whole
    slots inside the memory bin, each at a multiple of its own size. *)
Theorem allocator_live_disjoint ndebug base max_byte a ops rs a' :
  0 <= max_byte <= 2 ^ 44 -> make_buddy_allocator base max_byte = Ok a -> Forall valid_op ops ->
  exec_allocs ndebug a ops = Ok (rs, a') ->
  forall p s o, allocation_table_ a' !! p = Some (s, o) ->
  p = base + 4096 * o /\ 0 < s /\ (s | o) /\ base <= p /\ p + 4096 * s <= base + max_byte /\
  forall p' s' o', allocation_table_ a' !! p' = Some (s', o') -> p' <> p ->
  p + 4096 * s <= p' \/ p' + 4096 * s' <= p.
Proof.
  intros Hmax Hm Hv Hx p s o Hp. destruct (make_buddy_allocator_ok base max_byte a Hmax Hm)
    as (K & HK & -> & Hr & _).
  destruct (exec_allocs_refines ndebug base K HK ops a TFree Hr (Forall_impl _ _ _ Hv (valid_accepted ndebug)))
    as (rs' & a'' & t & Hx' & Ha & _ & _).
  rewrite Hx in Hx'. injection Hx' as <- <-.
  pose proof (br_wf _ _ _ (ar_bins _ _ _ _ Ha)) as Hwf.
  apply (table_blocks base K a' t) in Hp as [-> Hin]; [|done].
  destruct (blocks_inside K 0 t _ Hwf Hin) as (i & _ & Hs & H1 & H2 & Hd). unfold address.
  simpl in *. pose proof (p2_pos i). rewrite Z.sub_0_r in Hd. subst s.
  split_and!; try lia; [done|]. intros p' s' o' Hp' Hne.
  apply (table_blocks base K a' t) in Hp' as [-> Hin']; [|done]. unfold address in *.
  apply list_elem_of_lookup in Hin as [i1 Hi1]. apply list_elem_of_lookup in Hin' as [i2 Hi2].
  destruct (blocks_disjoint K 0 t Hwf i1 i2 _ _ Hi1 Hi2) as [H3|H3]; simpl in *; [|lia|lia].
  intros ->. rewrite Hi1 in Hi2. injection Hi2 as ->. done.
Qed.

(** [NearestUpperPowerOf2] is the least power of two that is not smaller for
    every number up to 2^32; its shifts stop at 16 bits, so beyond, as for
    [2^33 + 1], the result need not be a power of two. *)
Theorem NearestUpperPowerOf2_range :
  (forall n, 0 < n <= 2 ^ 32 ->
     IsPowerOf2 (NearestUpperPowerOf2 n) = true /\ n <= NearestUpperPowerOf2 n /\
     forall m, IsPowerOf2 m = true -> u64 m -> n <= m -> NearestUpperPowerOf2 n <= m) /\
  NearestUpperPowerOf2 (2 ^ 33 + 1) = 2 ^ 34 - 3 /\
  IsPowerOf2 (NearestUpperPowerOf2 (2 ^ 33 + 1)) = false.
Proof.
  split; [|by vm_compute]. intros n Hn. rewrite NearestUpperPowerOf2_spec by done.
  assert (Hl : (level_of n <= 32)%nat) by (apply level_of_le; change (p2 32) with (2 ^ 32); lia).
  pose proof (p2_pos (level_of n)). pose proof (p2_lt_60 (level_of n) ltac:(lia)).
  split_and!; [|apply level_of_bounds; lia|].
  - apply IsPowerOf2_spec; [unfold in_u; lia|]. split; [done|].
    unfold p2 at 2. by rewrite Z.log2_pow2 by lia.
  - intros m Hm Hu Hnm. apply IsPowerOf2_spec in Hm as [Hpos Hm]; [|done].
    pose proof (Z.log2_nonneg m). rewrite Hm. replace (Z.log2 m) with (Z.of_nat (Z.to_nat (Z.log2 m))) by lia.
    apply p2_le. apply level_of_le. unfold p2. rewrite Z2Nat.id by lia. lia.
Qed.

(** A request of zero bytes, and one so large that rounding it up overflows,
    reaches the bin manager as zero slots: the assertion fails, and a release build
    returns a null pointer and leaves the allocator as it is. *)
Theorem allocate_no_slots ndebug a n want :
  n = 0 \/ 2 ^ 64 - 4096 < n < 2 ^ 64 ->
  allocate ndebug a n want = if ndebug then Ok (0, None, a) else Undef.
Proof. apply allocate_zero. Qed.

Definition sample_allocs : list alloc_op :=
  [OpAllocate 9000 true; OpAllocate 100 false; OpQuery 16384; OpAllocate 8192 true;
   OpDeallocate 0; OpAllocate 16384 false; OpDeallocate 7; OpAllocate 8192 true].

Example sample_allocs_run :
  (a ← make_buddy_allocator 0 32768; r ← exec_allocs false a sample_allocs; Ok r.1) =
  Ok [RPointer 0 (Some 16384); RPointer 16384 None; RSize 4096; RPointer 24576 (Some 8192);
      RDeallocated 0; RPointer 0 None; RDeallocated 7; RPointer 0 None].
Proof. vm_compute. reflexivity. Qed.

Definition sample_allocator : buddy_allocator :=
  mk_buddy_allocator (mk_bin_manager 4 [4; 2; 2; 1; 1; 1; 1]) (mk_memory_bin 65536 4) ∅ 16384.

Lemma allocator_refines_table_witness :
  exists K rs a', 16384 = 4096 * p2 K /\
    exec_allocs true sample_allocator [OpAllocate 5000 true; OpAllocate 0 true; OpDeallocate 65536] = Ok (rs, a') /\
    alloc_steps 65536 K ∅ [OpAllocate 5000 true; OpAllocate 0 true; OpDeallocate 65536] rs (allocation_table_ a').
Proof.
  apply (allocator_refines_table true 65536 16384); [lia|reflexivity|].
  repeat constructor; simpl; lia.
Defined.

Lemma allocator_live_disjoint_witness :
  exists rs a', exec_allocs false sample_allocator [OpAllocate 4096 true; OpAllocate 8192 true] = Ok (rs, a') /\
  forall p s o, allocation_table_ a' !! p = Some (s, o) ->
  p = 65536 + 4096 * o /\ 0 < s /\ (s | o) /\ 65536 <= p /\ p + 4096 * s <= 65536 + 16384 /\
  forall p' s' o', allocation_table_ a' !! p' = Some (s', o') -> p' <> p ->
  p + 4096 * s <= p' \/ p' + 4096 * s' <= p.
Proof.
  eexists _, _. split; [vm_compute; reflexivity|].
  eapply (allocator_live_disjoint false 65536 16384 sample_allocator
            [OpAllocate 4096 true; OpAllocate 8192 true]);
    [lia|reflexivity|repeat constructor; simpl; lia|vm_compute; reflexivity].
Defined.

Lemma allocate_no_slots_witness :
  allocate false sample_allocator 0 true = Undef /\
  allocate true sample_allocator (2 ^ 64 - 1) true = Ok (0, None, sample_allocator).
Proof.
  split; [apply (allocate_no_slots false); by left|apply (allocate_no_slots true); right; lia].
Defined.
