(* ===== verification/Dict.v ===== *)
(** * The dictionary interface

    TrieFoDict and TernarySearchTree offer the same operations on a set of words
    over the same alphabet.  This file models that alphabet (alphabet.cpp of both
    projects), states the interface as a class and proves what a client may rely on;
    Trie.v and Tst.v are its instances. *)

From S2P Require Import Prelude.

(** ** The alphabet *)

Definition kAlphabet : str := lit "abcdefghijklmnopqrstuvwxyz-".
Definition npos : Z := size_max.
Definition NUL : ascii := chr 0.

(** [strchr] also finds the terminator of the array. *)
Definition strchr (s : str) (ch : ascii) : option nat := find_char ch (s ++ [NUL]).

Definition GetCharacterIndex (ch : ascii) : Z :=
  match strchr kAlphabet ch with None => npos | Some ptr => Z.of_nat ptr end.

Definition alphabet_length : Z := 27.

(** [assert(index < length())] and the access to the array. *)
Definition GetCharacter (index : Z) : outcome ascii :=
  if index <? alphabet_length then vec_get kAlphabet index else Undef.

Definition legal (ch : ascii) : Prop := ch ∈ kAlphabet.
#[global] Instance legal_dec ch : Decision (legal ch).
Proof. unfold legal. apply _. Defined.

Lemma kAlphabet_NoDup : NoDup kAlphabet.
Proof. apply (bool_decide_unpack _). vm_compute. exact I. Qed.

Lemma NUL_illegal : ~ legal NUL.
Proof. apply (bool_decide_unpack _). vm_compute. exact I. Qed.

Lemma strchr_None ch : strchr kAlphabet ch = None <-> ~ legal ch /\ ch <> NUL.
Proof.
  unfold strchr, legal. rewrite find_char_None, elem_of_app, list_elem_of_singleton. tauto.
Qed.

(** The index of a legal character, of the terminator, and of any other one. *)
Inductive index_spec (ch : ascii) : Z -> Prop :=
| index_legal i : kAlphabet !! i = Some ch -> (i < 27)%nat -> index_spec ch (Z.of_nat i)
| index_nul : ch = NUL -> index_spec ch 27
| index_none : ~ legal ch -> ch <> NUL -> index_spec ch npos.

Lemma GetCharacterIndex_spec ch : index_spec ch (GetCharacterIndex ch).
Proof.
  unfold GetCharacterIndex. destruct (strchr kAlphabet ch) as [i|] eqn:E.
  - pose proof E as Hi. unfold strchr in Hi. apply find_char_lookup in Hi.
    apply lookup_app_Some in Hi as [Hi|[Hlen Hi]].
    + apply index_legal; [done|]. apply lookup_lt_Some in Hi. exact Hi.
    + pose proof (lookup_lt_Some _ _ _ Hi) as Hlt. simpl in Hlt, Hlen.
      assert (i = 27%nat) as -> by lia. apply index_nul. simpl in Hi. congruence.
  - apply strchr_None in E as [? ?]. by apply index_none.
Qed.

Lemma GetCharacterIndex_lookup i ch :
  kAlphabet !! i = Some ch -> GetCharacterIndex ch = Z.of_nat i.
Proof.
  intros Hi. destruct (GetCharacterIndex_spec ch) as [j Hj _| -> |Hn _].
  - f_equal. by eapply NoDup_lookup; [apply kAlphabet_NoDup| |].
  - exfalso. apply NUL_illegal, list_elem_of_lookup. eauto.
  - exfalso. apply Hn, list_elem_of_lookup. eauto.
Qed.

(** Words with an embedded terminator are outside the contract. *)
Definition c_word (w : str) : Prop := NUL ∉ w.
#[global] Instance c_word_dec w : Decision (c_word w).
Proof. unfold c_word. apply _. Defined.

(** What the loops over a word without terminators see. *)
Lemma index_cases ch :
  ch <> NUL ->
  (~ legal ch /\ GetCharacterIndex ch = npos) \/
  (exists i, kAlphabet !! i = Some ch /\ (i < 27)%nat /\ GetCharacterIndex ch = Z.of_nat i /\
             (GetCharacterIndex ch =? npos) = false).
Proof.
  intros Hn. destruct (GetCharacterIndex_spec ch) as [i Hi Hlt| |]; [right|done|by left].
  exists i. split_and!; try done. apply Z.eqb_neq. unfold npos, size_max. lia.
Qed.

Lemma legal_index i ch : kAlphabet !! i = Some ch -> legal ch.
Proof. intros H. apply list_elem_of_lookup. eauto. Qed.

Lemma c_word_cons ch w : c_word (ch :: w) <-> ch <> NUL /\ c_word w.
Proof. unfold c_word. rewrite not_elem_of_cons. naive_solver. Qed.

Lemma GetCharacter_ok i ch : kAlphabet !! i = Some ch -> GetCharacter (Z.of_nat i) = Ok ch.
Proof.
  intros Hi. unfold GetCharacter, alphabet_length. pose proof (lookup_lt_Some _ _ _ Hi) as Hlt.
  simpl in Hlt. rewrite (proj2 (Z.ltb_lt _ _)) by lia. unfold vec_get. by rewrite vat_nat, Hi.
Qed.

(** ** The interface *)

(** An insertion that throws leaves a changed object behind: the result carries the
    object and what was thrown. *)
Class Dict (D : Type) := {
  dict_new : D;
  dict_insert : D -> str -> outcome (D * option exn);
  dict_contains : D -> str -> outcome bool;
  dict_search : D -> str -> outcome (list str)
}.

Definition legal_word (w : str) : Prop := Forall legal w.
#[global] Instance legal_word_dec w : Decision (legal_word w).
Proof. unfold legal_word. apply _. Defined.

Class DictOk (D : Type) `{Dict D} := {
  dict_inv : D -> Prop;
  has_word : D -> str -> Prop;
  new_inv : dict_inv dict_new;
  new_words w : ~ has_word dict_new w;
  words_legal d w : dict_inv d -> has_word d w -> legal_word w;
  insert_ok d w : dict_inv d -> c_word w ->
    exists d', dict_insert d w = Ok (d', if decide (legal_word w) then None else Some invalid_argument) /\
               dict_inv d' /\
               forall x, has_word d' x <-> has_word d x \/ (legal_word w /\ x = w);
  contains_ok d w : dict_inv d -> c_word w ->
    exists b, dict_contains d w = Ok b /\ (b = true <-> has_word d w);
  search_ok d p : dict_inv d -> c_word p ->
    exists ws, dict_search d p = Ok ws /\ NoDup ws /\
               forall w, w ∈ ws <-> has_word d w /\ p `prefix_of` w
}.

Lemma legal_word_c_word w : legal_word w -> c_word w.
Proof. intros H Hn. unfold legal_word in H. rewrite Forall_forall in H.
  by apply NUL_illegal, H. Qed.

(** ** A client: a history of insertions *)

Section Client.
Context `{DictOk D}.

Fixpoint insert_all (d : D) (ws : list str) : outcome (D * list (option exn)) :=
  match ws with
  | [] => Ok (d, [])
  | w :: ws => '(d, e) ← dict_insert d w; '(d, es) ← insert_all d ws; Ok (d, e :: es)
  end.

Lemma insert_all_ok ws : forall d, dict_inv d -> Forall c_word ws ->
  exists d', insert_all d ws =
      Ok (d', map (fun w => if decide (legal_word w) then None else Some invalid_argument) ws) /\
    dict_inv d' /\ forall x, has_word d' x <-> has_word d x \/ (legal_word x /\ x ∈ ws).
Proof.
  induction ws as [|w ws IH]; intros d Hd Hc.
  - exists d. split_and!; [done|done|]. intros x. split; [by left|].
    intros [?|[_ []%not_elem_of_nil]]. done.
  - apply Forall_cons in Hc as [Hw Hc].
    destruct (insert_ok d w Hd Hw) as (d1 & Hi & Hd1 & Hw1).
    destruct (IH d1 Hd1 Hc) as (d2 & Hia & Hd2 & Hw2).
    exists d2. cbn [insert_all map]. rewrite Hi. cbn [mbind outcome_bind]. rewrite Hia.
    split_and!; [done|done|]. intros x. rewrite Hw2, Hw1, elem_of_cons. naive_solver.
Qed.

(** The answers after a history of insertions into a new dictionary. *)
Definition answers (ws : list str) (q : str) : outcome (list (option exn) * bool * list str) :=
  '(d, es) ← insert_all dict_new ws;
  b ← dict_contains d q;
  r ← dict_search d q;
  Ok (es, b, r).

Lemma answers_ok ws q :
  Forall c_word ws -> c_word q ->
  exists b r, answers ws q =
      Ok (map (fun w => if decide (legal_word w) then None else Some invalid_argument) ws, b, r) /\
    (b = true <-> legal_word q /\ q ∈ ws) /\
    NoDup r /\ forall w, w ∈ r <-> (legal_word w /\ w ∈ ws) /\ q `prefix_of` w.
Proof.
  intros Hws Hq. destruct (insert_all_ok ws dict_new new_inv Hws) as (d & Hi & Hd & Hw).
  destruct (contains_ok d q Hd Hq) as (b & Hb & Hbw).
  destruct (search_ok d q Hd Hq) as (r & Hr & Hnd & Hrw).
  pose proof new_words as Hnew. exists b, r. unfold answers. rewrite Hi. cbn [mbind outcome_bind].
  rewrite Hb. cbn [mbind outcome_bind]. rewrite Hr. split_and!; [done| |done|].
  - rewrite Hbw, Hw. naive_solver.
  - intros w. rewrite Hrw, Hw. naive_solver.
Qed.
End Client.

(** Any two implementations give the same answers, up to the order of [Search]. *)
Lemma dictionaries_agree `{DictOk D1} `{DictOk D2} ws q :
  Forall c_word ws -> c_word q ->
  exists es b r1 r2, answers (D := D1) ws q = Ok (es, b, r1) /\ answers (D := D2) ws q = Ok (es, b, r2) /\
                     r1 ≡ₚ r2.
Proof.
  intros Hws Hq. destruct (answers_ok (D := D1) ws q Hws Hq) as (b1 & r1 & E1 & Hb1 & Hn1 & Hr1).
  destruct (answers_ok (D := D2) ws q Hws Hq) as (b2 & r2 & E2 & Hb2 & Hn2 & Hr2).
  assert (b2 = b1) as -> by (destruct b1, b2; naive_solver).
  eexists _, b1, r1, r2. split_and!; [done|done|].
  apply NoDup_Permutation; [done|done|]. intros w. by rewrite Hr1, Hr2.
Qed.
