(* ===== verification/Trie.v ===== *)
(** * The trie

    Models TrieFoDict/src/trie.cpp: nodes with a vector of children, [Insert],
    [Contains] and the explicit-stack traversal of [Search], and shows that it
    implements the dictionary interface. *)

From S2P Require Import Prelude Dict.

(** ** Nodes *)

Inductive trie_node :=
| TrieNode (character : ascii) (last_char_of_word : bool) (children : list (option trie_node)).

Definition character (n : trie_node) : ascii := let 'TrieNode c _ _ := n in c.
Definition last_char_of_word (n : trie_node) : bool := let 'TrieNode _ b _ := n in b.
Definition children (n : trie_node) : list (option trie_node) := let 'TrieNode _ _ cs := n in cs.

Definition new_node (c : ascii) : trie_node :=
  TrieNode c false (replicate (Z.to_nat alphabet_length) None).

(** [Trie::Trie] *)
Definition make_trie : trie_node := new_node (chr 0).

(** [Insert]: the loop over the word, on the subtree that [node] owns. *)
Fixpoint Insert (node : trie_node) (word : str) : outcome (trie_node * option exn) :=
  match word with
  | [] => Ok (TrieNode (character node) true (children node), None)
  | ch :: word =>
      let pos := GetCharacterIndex ch in
      if pos =? npos then Ok (node, Some invalid_argument)
      else
        slot ← vec_get (children node) pos;
        let child := match slot with Some c => c | None => new_node ch end in
        '(child, e) ← Insert child word;
        cs ← vec_set (children node) pos (Some child);
        Ok (TrieNode (character node) (last_char_of_word node) cs, e)
  end.

(** The loop that [Contains] and [Search] begin with: the node of the last
    character, or [None] for an early return. *)
Fixpoint locate (node : trie_node) (word : str) : outcome (option trie_node) :=
  match word with
  | [] => Ok (Some node)
  | ch :: word =>
      let pos := GetCharacterIndex ch in
      if pos =? npos then Ok None
      else
        child ← vec_get (children node) pos;
        match child with None => Ok None | Some child => locate child word end
  end.

Definition Contains (header : trie_node) (word : str) : outcome bool :=
  r ← locate header word;
  Ok (match r with None => false | Some node => last_char_of_word node end).

(** [Search]'s inner loop, on the children that are left from index [second]. *)
Fixpoint next_child (rest : list (option trie_node)) (second : nat) : option trie_node * nat :=
  match rest with
  | [] => (None, second)
  | Some child :: _ => (Some child, S second)
  | None :: rest => next_child rest (S second)
  end.

(** [prefix] and the characters of the stack above its bottom; the top of
    [processing_nodes] is the head of the list. *)
Definition stack_word (prefix : str) (processing_nodes : list (trie_node * nat)) : str :=
  prefix ++ map (fun clude_node => character clude_node.1) (tl (rev processing_nodes)).

Fixpoint search_loop (fuel : nat) (prefix : str) (words : list str)
    (processing_nodes : list (trie_node * nat)) : outcome (list str) :=
  match processing_nodes with
  | [] => Ok words
  | (first, second) :: below =>
      match fuel with
      | O => OutOfFuel
      | S fuel =>
          match next_child (drop second (children first)) second with
          | (Some child, second) =>
              search_loop fuel prefix words ((child, O) :: (first, second) :: below)
          | (None, second) =>
              let words := if last_char_of_word first
                           then words ++ [stack_word prefix ((first, second) :: below)] else words in
              search_loop fuel prefix words below
          end
      end
  end.

(** The nodes of a subtree. *)
Fixpoint node_count (n : trie_node) : nat :=
  let 'TrieNode _ _ cs := n in
  S (list_sum (map (fun c => match c with Some c => node_count c | None => O end) cs)).

(** Every node is pushed once and popped once. *)
Definition Search (header : trie_node) (prefix : str) : outcome (list str) :=
  r ← locate header prefix;
  match r with
  | None => Ok []
  | Some node => search_loop (2 * node_count node) prefix [] [(node, O)]
  end.

#[export] Instance trie_dict : Dict trie_node := {|
  dict_new := make_trie;
  dict_insert := Insert;
  dict_contains := Contains;
  dict_search := Search
|}.

Definition after_inserts (words : list str) : outcome trie_node :=
  foldl (fun t w => t ← t; '(t, _) ← Insert t w; Ok t) (Ok make_trie) words.
Example test_search :
  (t ← after_inserts [lit "hello"; lit "hell"; lit "here"]; Search t (lit "he")) =
  Ok [lit "hello"; lit "hell"; lit "here"].
Proof. vm_compute. reflexivity. Qed.

(** ** Well-formed tries *)

(** Child [i] is labelled with character [i] of the alphabet. *)
Inductive wf_node : trie_node -> Prop :=
| wf_intro c b cs :
    length cs = 27%nat ->
    (forall i child, cs !! i = Some (Some child) ->
       kAlphabet !! i = Some (character child) /\ wf_node child) ->
    wf_node (TrieNode c b cs).

Lemma wf_new c : wf_node (new_node c).
Proof.
  constructor; [done|]. intros i child H.
  apply lookup_replicate in H as [? _]. discriminate.
Qed.

Lemma wf_child n i child :
  wf_node n -> children n !! i = Some (Some child) ->
  kAlphabet !! i = Some (character child) /\ wf_node child.
Proof. intros [c b cs _ H] Hi. by apply H. Qed.

Lemma wf_length n : wf_node n -> length (children n) = 27%nat.
Proof. by intros [c b cs H _]. Qed.

Definition trie_word (n : trie_node) (w : str) : Prop :=
  exists m, locate n w = Ok (Some m) /\ last_char_of_word m = true.

Lemma locate_cons n i ch word :
  kAlphabet !! i = Some ch -> wf_node n ->
  exists slot, children n !! i = Some slot /\
    locate n (ch :: word) = match slot with None => Ok None | Some c => locate c word end.
Proof.
  intros Hi Hwf. pose proof (lookup_lt_Some _ _ _ Hi) as Hlt.
  destruct (children n !! i) as [slot|] eqn:Hs.
  2: { apply lookup_ge_None in Hs. rewrite wf_length in Hs by done. simpl in Hlt. lia. }
  exists slot. split; [done|]. cbn [locate]. rewrite (GetCharacterIndex_lookup i ch Hi).
  rewrite (proj2 (Z.eqb_neq _ _)) by (simpl in Hlt; unfold npos, size_max; lia).
  unfold vec_get. rewrite vat_nat, Hs. done.
Qed.

Lemma locate_illegal n ch word : ch <> NUL -> ~ legal ch -> locate n (ch :: word) = Ok None.
Proof.
  intros Hn Hl. destruct (index_cases ch Hn) as [[_ H]|(i & Hi & _)]; cbn [locate].
  - by rewrite H.
  - by apply legal_index in Hi.
Qed.

(** The node a word leads to is well-formed, and all its characters are legal. *)
Lemma locate_ok n w :
  wf_node n -> c_word w ->
  exists r, locate n w = Ok r /\ forall m, r = Some m -> wf_node m /\ legal_word w.
Proof.
  revert n. induction w as [|ch w IH]; intros n Hwf Hc.
  - exists (Some n). split; [done|]. intros m [= <-]. split; [done|constructor].
  - apply c_word_cons in Hc as [Hn Hc]. destruct (index_cases ch Hn) as [[Hl _]|(i & Hi & _)].
    + exists None. rewrite locate_illegal by done. naive_solver.
    + destruct (locate_cons n i ch w Hi Hwf) as (slot & Hs & ->).
      destruct slot as [c|]; [|exists None; naive_solver].
      destruct (IH c) as (r & Hr & Hm); [by eapply wf_child|done|].
      exists r. split; [done|]. intros m ->. destruct (Hm m eq_refl) as [? ?].
      split; [done|]. constructor; [by eapply legal_index|done].
Qed.

Lemma trie_word_nil n : trie_word n [] <-> last_char_of_word n = true.
Proof. unfold trie_word. simpl. split; [intros (m & [= <-] & H); done|eauto]. Qed.

Lemma trie_word_cons n ch w :
  wf_node n ->
  trie_word n (ch :: w) <->
  exists i c, kAlphabet !! i = Some ch /\ children n !! i = Some (Some c) /\ trie_word c w.
Proof.
  intros Hwf. split.
  - intros (m & Hm & Hl). destruct (GetCharacterIndex_spec ch) as [i Hi _|Hnul|Hill Hnn].
    + destruct (locate_cons n i ch w Hi Hwf) as (slot & Hs & Hlc). rewrite Hlc in Hm.
      destruct slot as [c|]; [|discriminate]. exists i, c. split_and!; [done|done|]. by exists m.
    + subst ch. exfalso. cbn [locate] in Hm. change (GetCharacterIndex NUL) with 27 in Hm.
      change (27 =? npos) with false in Hm. cbv iota in Hm.
      rewrite vec_get_undef in Hm by (rewrite wf_length by done; lia). discriminate.
    + rewrite locate_illegal in Hm by done. discriminate.
  - intros (i & c & Hi & Hc & m & Hm & Hl). exists m. split; [|done].
    destruct (locate_cons n i ch w Hi Hwf) as (slot & Hs & ->). rewrite Hc in Hs.
    injection Hs as <-. done.
Qed.

Lemma trie_word_new c w : ~ trie_word (new_node c) w.
Proof.
  destruct w as [|ch w]; [by rewrite trie_word_nil|].
  rewrite trie_word_cons by apply wf_new. intros (i & x & _ & Hx & _).
  apply lookup_replicate in Hx as [? _]. discriminate.
Qed.

(** ** Insertion *)

Lemma wf_set_child n i ch child b :
  wf_node n -> kAlphabet !! i = Some ch -> wf_node child -> character child = ch ->
  wf_node (TrieNode (character n) b (<[i := Some child]> (children n))).
Proof.
  intros Hwf Hi Hc Hch. constructor; [by rewrite length_insert, wf_length|].
  intros j x Hj. apply list_lookup_insert_Some in Hj as [(-> & [= ->] & _)|(_ & Hj)].
  - by rewrite Hch.
  - by apply (wf_child n).
Qed.

(** The words after child [i] has been replaced. *)
Lemma set_child_words n i ch slot child' w :
  wf_node n -> kAlphabet !! i = Some ch -> children n !! i = Some slot ->
  wf_node child' -> character child' = ch ->
  (forall x, trie_word child' x <-> (exists c, slot = Some c /\ trie_word c x) \/ (legal_word w /\ x = w)) ->
  forall x,
    trie_word (TrieNode (character n) (last_char_of_word n) (<[i := Some child']> (children n))) x <->
    trie_word n x \/ (legal_word (ch :: w) /\ x = ch :: w).
Proof.
  intros Hwf Hi Hs Hwf' Hch' Hw' [|x0 x]; [rewrite !trie_word_nil; naive_solver|].
  assert (Hnew : <[i := Some child']> (children n) !! i = Some (Some child'))
    by (apply list_lookup_insert_eq; by eapply lookup_lt_Some).
  rewrite !trie_word_cons by (done || by eapply wf_set_child). cbn [children]. split.
  - intros (j & c & Hj & Hcj & Hwx).
    apply list_lookup_insert_Some in Hcj as [(-> & [= ->] & _)|(Hij & Hcj)]; [|left; by exists j, c].
    assert (x0 = ch) as -> by congruence. apply Hw' in Hwx as [(c' & -> & Hwx)|[? ->]].
    + left. by exists j, c'.
    + right. split; [|done]. constructor; [by eapply legal_index|done].
  - intros [(j & c & Hj & Hcj & Hwx)|[[_ Hlw]%Forall_cons [= -> ->]]].
    + destruct (decide (j = i)) as [->|Hne].
      * exists i, child'. split_and!; [done|done|]. apply Hw'. left. exists c.
        rewrite Hs in Hcj. by injection Hcj as ->.
      * exists j, c. split_and!; [done| |done]. by rewrite list_lookup_insert_ne.
    + exists i, child'. split_and!; [done|done|]. apply Hw'. by right.
Qed.

Lemma Insert_ok w : forall n,
  wf_node n -> c_word w ->
  exists n', Insert n w = Ok (n', if decide (legal_word w) then None else Some invalid_argument) /\
    wf_node n' /\ character n' = character n /\
    forall x, trie_word n' x <-> trie_word n x \/ (legal_word w /\ x = w).
Proof.
  induction w as [|ch w IH]; intros n Hwf Hc.
  { exists (TrieNode (character n) true (children n)). cbn [Insert].
    rewrite decide_True by constructor.
    assert (Hwf' : wf_node (TrieNode (character n) true (children n)))
      by (destruct Hwf; by constructor).
    split_and!; [done|done|done|]. intros [|x0 x].
    - rewrite !trie_word_nil. split; [right; split; [constructor|done]|done].
    - rewrite !trie_word_cons by done. cbn [children]. split; [by left|]. intros [H|[_ [=]]]; done. }
  apply c_word_cons in Hc as [Hn Hc]. cbn [Insert].
  destruct (index_cases ch Hn) as [[Hl Hx]|(i & Hi & Hlt & Hx & Hne)].
  { rewrite Hx, Z.eqb_refl. exists n. rewrite decide_False by (intros [? _]%Forall_cons; done).
    split_and!; [done|done|done|]. intros x. split; [by left|].
    intros [?|[[? _]%Forall_cons _]]; done. }
  rewrite Hne, Hx. unfold vec_get. rewrite vat_nat.
  destruct (locate_cons n i ch w Hi Hwf) as (slot & Hs & _). rewrite Hs. cbn [the mbind outcome_bind].
  set (child := match slot with Some c => c | None => new_node ch end).
  assert (Hchild : wf_node child /\ character child = ch /\
                   forall x, trie_word child x <-> exists c, slot = Some c /\ trie_word c x).
  { destruct slot as [c|]; unfold child.
    - destruct (wf_child n i c Hwf Hs) as [Hi' ?]. split_and!; [done|congruence|]. naive_solver.
    - split_and!; [apply wf_new|done|]. intros x. split; [by intros ?%trie_word_new|naive_solver]. }
  destruct Hchild as (Hwc & Hcc & Hcw).
  destruct (IH child Hwc Hc) as (child' & -> & Hwf' & Hch' & Hw'). cbn [mbind outcome_bind].
  rewrite vec_set_ok by (rewrite wf_length by done; lia). cbn [mbind outcome_bind].
  rewrite Nat2Z.id.
  exists (TrieNode (character n) (last_char_of_word n) (<[i := Some child']> (children n))).
  split_and!; [| |done|].
  - apply f_equal, f_equal2; [reflexivity|]. apply decide_ext. unfold legal_word. rewrite Forall_cons.
    pose proof (legal_index i ch Hi). tauto.
  - eapply wf_set_child; eauto. congruence.
  - intros x. eapply (set_child_words n i ch slot); eauto; [congruence|].
    intros y. by rewrite Hw', Hcw.
Qed.

(** ** Search *)

Lemma trie_node_induction (P : trie_node -> Prop) :
  (forall c b cs, (forall i n, cs !! i = Some (Some n) -> P n) -> P (TrieNode c b cs)) ->
  forall n, P n.
Proof.
  intros H. fix F 1. intros [c b cs]. apply H. clear H. revert cs.
  fix G 1. intros [|[x|] cs] i n Hi; [discriminate| |]; (destruct i as [|i]; [|by apply (G cs i)]).
  - assert (n = x) as -> by (simpl in Hi; congruence). apply F.
  - discriminate.
Qed.

(** The words below a node, each node's own word last. *)
Fixpoint words_below (n : trie_node) : list str :=
  let 'TrieNode _ b cs := n in
  flat_map (fun oc => match oc with
                      | Some c => map (cons (character c)) (words_below c)
                      | None => []
                      end) cs ++ (if b then [[]] else []).

Definition words_of_children (cs : list (option trie_node)) : list str :=
  flat_map (fun oc => match oc with
                      | Some c => map (cons (character c)) (words_below c)
                      | None => []
                      end) cs.

Lemma words_below_eq n :
  words_below n = words_of_children (children n) ++ (if last_char_of_word n then [[]] else []).
Proof. by destruct n. Qed.

Definition steps_of_children (cs : list (option trie_node)) : nat :=
  list_sum (map (fun c => match c with Some c => 2 * node_count c | None => O end) cs)%nat.

Lemma node_count_steps n : (2 * node_count n = 2 + steps_of_children (children n))%nat.
Proof.
  destruct n as [c b cs]. unfold steps_of_children. cbn [node_count children].
  induction cs as [|[x|] cs IH]; simpl in *; lia.
Qed.

Lemma stack_word_push prefix x y st :
  stack_word prefix (x :: y :: st) = stack_word prefix (y :: st) ++ [character x.1].
Proof.
  unfold stack_word. rewrite <- app_assoc. f_equal.
  change (rev (x :: y :: st)) with (rev (y :: st) ++ [x]).
  destruct (rev (y :: st)) as [|z l] eqn:E.
  - apply (f_equal length) in E. rewrite length_rev in E. discriminate.
  - simpl. by rewrite map_app.
Qed.

Lemma stack_word_top prefix n s s' st : stack_word prefix ((n, s) :: st) = stack_word prefix ((n, s') :: st).
Proof.
  unfold stack_word. f_equal. simpl. destruct (rev st) as [|z l]; [done|]. simpl.
  by rewrite !map_app.
Qed.

Lemma search_step fuel prefix words n second below :
  search_loop (S fuel) prefix words ((n, second) :: below) =
  match next_child (drop second (children n)) second with
  | (Some child, second) => search_loop fuel prefix words ((child, O) :: (n, second) :: below)
  | (None, _) =>
      search_loop fuel prefix
        (words ++ (if last_char_of_word n then [stack_word prefix ((n, O) :: below)] else [])) below
  end.
Proof.
  cbn [search_loop]. destruct (next_child _ _) as [[c|] s]; [done|].
  rewrite (stack_word_top prefix n s 0). destruct (last_char_of_word n); [done|].
  by rewrite app_nil_r.
Qed.

(** The loop visits the subtree on top of the stack and then goes on below it. *)
Definition visits (n : trie_node) : Prop := forall fuel prefix words below,
  search_loop (2 * node_count n - 1 + fuel) prefix words ((n, O) :: below) =
  search_loop fuel prefix
    (words ++ map (app (stack_word prefix ((n, O) :: below))) (words_below n)) below.

Lemma drop_cons_inv {A} (l cs : list A) o k :
  o :: cs = drop k l -> cs = drop (S k) l /\ l !! k = Some o.
Proof.
  intros H. split.
  - replace (S k) with (k + 1)%nat by lia. by rewrite <- (drop_drop _ 1 k), <- H.
  - replace k with (k + 0)%nat by lia. by rewrite <- lookup_drop, <- H.
Qed.

Lemma search_children n prefix below :
  (forall i x, children n !! i = Some (Some x) -> visits x) ->
  forall cs second words fuel, cs = drop second (children n) ->
  search_loop (steps_of_children cs + S fuel) prefix words ((n, second) :: below) =
  search_loop fuel prefix
    (words ++ map (app (stack_word prefix ((n, O) :: below)))
                (words_of_children cs ++ (if last_char_of_word n then [[]] else []))) below.
Proof.
  intros IH. set (here := stack_word prefix ((n, O) :: below)).
  induction cs as [|o cs IHcs]; intros second words fuel Hcs.
  { cbn [steps_of_children list_sum map foldr Nat.add]. rewrite search_step, <- Hcs.
    cbn [next_child]. fold here. unfold words_of_children. simpl.
    destruct (last_char_of_word n); simpl; [by rewrite app_nil_r|done]. }
  destruct (drop_cons_inv _ _ _ _ Hcs) as [Hcs' Ho]. destruct o as [x|].
  - change (steps_of_children (Some x :: cs)) with (2 * node_count x + steps_of_children cs)%nat.
    assert (Hpos : (0 < node_count x)%nat) by (destruct x; simpl; lia).
    replace (2 * node_count x + steps_of_children cs + S fuel)%nat
      with (S (2 * node_count x - 1 + (steps_of_children cs + S fuel)))%nat by lia.
    rewrite search_step, <- Hcs. cbn [next_child]. rewrite (IH _ _ Ho), IHcs by done.
    f_equal. rewrite <- app_assoc. f_equal.
    change (words_of_children (Some x :: cs)) with
      (map (cons (character x)) (words_below x) ++ words_of_children cs).
    rewrite <- app_assoc, (map_app _ (map (cons _) _)). f_equal. rewrite map_map.
    apply map_ext. intros w. rewrite stack_word_push, (stack_word_top prefix n (S second) 0).
    fold here. by rewrite <- app_assoc.
  - change (steps_of_children (None :: cs)) with (steps_of_children cs).
    change (words_of_children (None :: cs)) with (words_of_children cs).
    rewrite <- (IHcs (S second) words fuel Hcs'). rewrite !Nat.add_succ_r, !search_step.
    by rewrite <- Hcs, <- Hcs'.
Qed.

Lemma search_subtree n : visits n.
Proof.
  induction n as [c b cs0 IH] using trie_node_induction. intros fuel prefix words below.
  pose proof (node_count_steps (TrieNode c b cs0)) as Hn. cbn [children] in Hn.
  replace (2 * node_count (TrieNode c b cs0) - 1 + fuel)%nat
    with (steps_of_children cs0 + S fuel)%nat by lia.
  rewrite (search_children (TrieNode c b cs0) prefix below IH cs0 0 words fuel eq_refl).
  by rewrite words_below_eq.
Qed.

Lemma words_below_spec n w : wf_node n -> w ∈ words_below n <-> trie_word n w.
Proof.
  revert n. induction w as [|ch w IH]; intros n Hwf; rewrite words_below_eq, elem_of_app;
    unfold words_of_children; rewrite elem_of_flat_map.
  - rewrite trie_word_nil. destruct (last_char_of_word n).
    + rewrite list_elem_of_singleton. naive_solver.
    + split; [|done]. intros [(i & [c|] & _ & H)|H]; [|by apply not_elem_of_nil in H..].
      apply list_elem_of_In, in_map_iff in H as (? & [=] & _).
  - rewrite trie_word_cons by done. split.
    + intros [(i & [c|] & Hi & H)|H].
      * apply list_elem_of_In, in_map_iff in H as (x & [= <- <-] & Hx%list_elem_of_In).
        destruct (wf_child n i c Hwf Hi) as [? Hwc]. exists i, c. by rewrite <- (IH c Hwc).
      * by apply not_elem_of_nil in H.
      * destruct (last_char_of_word n); [apply list_elem_of_singleton in H; discriminate|].
        by apply not_elem_of_nil in H.
    + intros (i & c & Hi & Hc & Hw). left. exists i, (Some c). split; [done|].
      destruct (wf_child n i c Hwf Hc) as [Hi' Hwc].
      assert (ch = character c) as -> by congruence.
      apply list_elem_of_In, in_map, list_elem_of_In. by apply IH.
Qed.

Lemma words_below_NoDup n : wf_node n -> NoDup (words_below n).
Proof.
  induction n as [c b cs IH] using trie_node_induction. intros Hwf.
  rewrite words_below_eq. apply NoDup_app. split_and!.
  - apply NoDup_flat_map.
    + intros i [x|] Hi; [|constructor]. destruct (wf_child _ i x Hwf Hi) as [_ Hx].
      apply NoDup_fmap_2; [|by eapply IH]. by intros ? ? [= ->].
    + intros i j [x|] [y|] w Hi Hj Hw Hw'; try (by apply not_elem_of_nil in Hw);
        try (by apply not_elem_of_nil in Hw').
      apply list_elem_of_In, in_map_iff in Hw as (u & <- & _).
      apply list_elem_of_In, in_map_iff in Hw' as (v & [= Hc _] & _).
      destruct (wf_child _ i x Hwf Hi) as [Hx _]. destruct (wf_child _ j y Hwf Hj) as [Hy _].
      rewrite Hc in Hy. by eapply NoDup_lookup; [apply kAlphabet_NoDup| |].
  - intros w (i & [x|] & _ & Hw)%elem_of_flat_map; [|by apply not_elem_of_nil in Hw].
    apply list_elem_of_In, in_map_iff in Hw as (u & <- & _). cbn [last_char_of_word].
    destruct b; [|apply not_elem_of_nil]. by intros [=]%list_elem_of_singleton.
  - cbn [last_char_of_word]. destruct b; [apply NoDup_singleton|constructor].
Qed.

Lemma locate_app p w : forall n,
  locate n (p ++ w) =
  (r ← locate n p; match r with None => Ok None | Some m => locate m w end).
Proof.
  induction p as [|ch p IH]; intros n; [done|]. cbn [app locate].
  destruct (_ =? npos); [done|].
  destruct (vec_get _ _) as [[c|]|e| |]; cbn [mbind outcome_bind]; try done.
Qed.

Lemma Search_spec n p :
  wf_node n -> c_word p ->
  Search n p = Ok (match locate n p with Ok (Some m) => map (app p) (words_below m) | _ => [] end) /\
  forall w, trie_word n (p ++ w) <-> exists m, locate n p = Ok (Some m) /\ trie_word m w.
Proof.
  intros Hwf Hc. destruct (locate_ok n p Hwf Hc) as (r & Hr & Hm). split.
  - unfold Search. rewrite Hr. cbn [mbind outcome_bind]. destruct r as [m|]; [|done].
    assert (Hpos : (0 < node_count m)%nat) by (destruct m; simpl; lia).
    replace (2 * node_count m)%nat with (2 * node_count m - 1 + 1)%nat by lia.
    rewrite search_subtree. cbn [search_loop app]. unfold stack_word. simpl.
    by rewrite app_nil_r.
  - intros w. unfold trie_word. rewrite locate_app, Hr. cbn [mbind outcome_bind].
    destruct r as [m|]; naive_solver.
Qed.

#[export] Instance trie_dict_ok : DictOk trie_node.
Proof.
  refine {| dict_inv := wf_node; has_word := trie_word |}.
  - apply wf_new.
  - apply trie_word_new.
  - intros d w Hwf Hw. destruct (decide (c_word w)) as [Hc|Hc].
    + destruct Hw as (m & Hm & _). destruct (locate_ok d w Hwf Hc) as (r & Hr & H).
      rewrite Hr in Hm. injection Hm as ->. by apply (H m).
    + exfalso. apply dec_stable in Hc. apply list_elem_of_split in Hc as (p & q & ->).
      revert d Hwf Hw. induction p as [|ch p IH]; intros d Hwf Hw; cbn [app] in Hw;
        apply trie_word_cons in Hw as (i & c & Hi & Hc & Hw); try done.
      * by apply NUL_illegal, (legal_index i).
      * apply (IH c); [by eapply wf_child|done].
  - intros d w Hwf Hc. destruct (Insert_ok w d Hwf Hc) as (d' & H & Hwf' & _ & Hw). eauto.
  - intros d w Hwf Hc. destruct (locate_ok d w Hwf Hc) as (r & Hr & _).
    cbn [dict_contains trie_dict]. unfold Contains, trie_word. rewrite Hr.
    cbn [mbind outcome_bind]. eexists. split; [done|]. destruct r; naive_solver.
  - intros d p Hwf Hc. destruct (Search_spec d p Hwf Hc) as [Hs Hw]. eexists. split; [exact Hs|].
    destruct (locate_ok d p Hwf Hc) as (r & Hr & Hm). rewrite Hr in *.
    destruct r as [m|]; [destruct (Hm m eq_refl) as [Hwm _]|].
    + split; [apply NoDup_fmap_2; [apply _|by apply words_below_NoDup]|]. intros w. split.
      * intros (x & <- & Hx%list_elem_of_In)%list_elem_of_In%in_map_iff.
        split; [|by exists x]. apply Hw. exists m. split; [done|]. by apply words_below_spec.
      * intros [Hd [x ->]]. apply list_elem_of_In, in_map, list_elem_of_In.
        apply Hw in Hd as (m' & [= <-] & Hd). by apply words_below_spec.
    + split; [constructor|]. intros w. split; [by intros ?%not_elem_of_nil|].
      intros [Hd [x ->]]. apply Hw in Hd as (m' & [=] & _).
Qed.
