(* ===== verification/Tst.v ===== *)
(** * The ternary search tree

    Models TernarySearchTree/src/ternary_search_tree.cpp: nodes with a character
    index and three children, [Insert], [Contains], [Search] with its recursive
    [SearchWord], and shows that it implements the dictionary interface. *)

From S2P Require Import Prelude Dict.

(** A [Node*]; [Null] is the null pointer. *)
Inductive tst :=
| Null
| Node (char_index : Z) (end_word : bool) (left middle right : tst).

(** [new Node(index)] and the sentinel root. *)
Definition new_tst_node (index : Z) : tst := Node index false Null Null Null.
Definition make_tree : tst := new_tst_node npos.

(** [TouchNodeChild]: the child, or a new node in its place. *)
Definition touch (child : tst) (char_index : Z) : tst :=
  match child with Null => new_tst_node char_index | _ => child end.

(** [Insert]'s inner loop, on the nodes of one level; [ins] goes on from the node
    with the index. *)
Fixpoint insert_level (ins : tst -> outcome (tst * option exn)) (index : Z) (next_node : tst)
    : outcome (tst * option exn) :=
  match next_node with
  | Null => ins (touch next_node index)
  | Node ci e l m r =>
      if index =? ci then ins next_node
      else if index <? ci
      then '(l, x) ← insert_level ins index l; Ok (Node ci e l m r, x)
      else '(r, x) ← insert_level ins index r; Ok (Node ci e l m r, x)
  end.

(** [Insert] on the subtree of [node]: the loop over the word. *)
Fixpoint Insert (word : str) (node : tst) : outcome (tst * option exn) :=
  match node with
  | Null => Undef
  | Node ci e l m r =>
      match word with
      | [] => Ok (Node ci true l m r, None)
      | ch :: word =>
          let index := GetCharacterIndex ch in
          if index =? npos then Ok (node, Some invalid_argument)
          else
            '(m, x) ← insert_level (Insert word) index m;
            Ok (Node ci e l m r, x)
      end
  end.

(** The inner loop of [Contains] and [Search]: the node of one level with the index. *)
Fixpoint find_level (index : Z) (next_node : tst) : tst :=
  match next_node with
  | Null => Null
  | Node ci e l m r =>
      if index =? ci then next_node
      else if index <? ci then find_level index l else find_level index r
  end.

(** The loop over the word: the node of the last character, [Null] for an early
    return. *)
Fixpoint locate (node : tst) (word : str) : tst :=
  match word with
  | [] => node
  | ch :: word =>
      let index := GetCharacterIndex ch in
      if index =? npos then Null
      else match node with
      | Null => Null
      | Node _ _ _ m _ =>
          match find_level index m with
          | Null => Null
          | next_node => locate next_node word
          end
      end
  end.

Definition end_word (node : tst) : bool := match node with Null => false | Node _ e _ _ _ => e end.
Definition middle (node : tst) : tst := match node with Null => Null | Node _ _ _ m _ => m end.

Definition Contains (root : tst) (word : str) : outcome bool := Ok (end_word (locate root word)).

(** The words and the sequence after the call; a null child is not visited. *)
Fixpoint SearchWord (node : tst) (words : list str) (seq prefix : str) : outcome (list str * str) :=
  match node with
  | Null => Ok (words, seq)
  | Node ci e l m r =>
      c ← GetCharacter ci;
      let seq := seq ++ [c] in
      let words := if e then words ++ [prefix ++ seq] else words in
      '(words, seq) ← SearchWord m words seq prefix;
      let seq := removelast seq in
      '(words, seq) ← SearchWord l words seq prefix;
      SearchWord r words seq prefix
  end.

Definition Search (root : tst) (prefix : str) : outcome (list str) :=
  match locate root prefix with
  | Null => Ok []
  | node =>
      let words := if end_word node then [prefix] else [] in
      '(words, _) ← SearchWord (middle node) words [] prefix;
      Ok words
  end.

#[export] Instance tst_dict : Dict tst := {|
  dict_new := make_tree;
  dict_insert := fun t w => Insert w t;
  dict_contains := Contains;
  dict_search := Search
|}.

Example tst_test_search :
  (t ← foldl (fun t w => t ← t; '(t, _) ← Insert w t; Ok t) (Ok make_tree)
         [lit "hello"; lit "here"; lit "world"; lit "he"]; Search t (lit "he")) =
  Ok [lit "he"; lit "hello"; lit "here"].
Proof. vm_compute. reflexivity. Qed.

(** ** Well-formed trees *)

(** The nodes of a level are ordered by index; [lo] and [hi] bound them. *)
Fixpoint level_ok (lo hi : Z) (t : tst) : Prop :=
  match t with
  | Null => True
  | Node ci e l m r => lo <= ci < hi /\ level_ok lo ci l /\ level_ok (ci + 1) hi r /\ level_ok 0 27 m
  end.

(** A node that stands for a prefix: what is below it is a level. *)
Definition node_ok (t : tst) : Prop :=
  match t with Null => False | Node _ _ _ m _ => level_ok 0 27 m end.

Definition tst_word (t : tst) (w : str) : Prop := end_word (locate t w) = true.

Lemma level_ok_node lo hi ci e l m r :
  level_ok lo hi (Node ci e l m r) -> node_ok (Node ci e l m r).
Proof. simpl. tauto. Qed.

Lemma tst_locate_cons ci e l m r i ch w :
  kAlphabet !! i = Some ch ->
  locate (Node ci e l m r) (ch :: w) = locate (find_level (Z.of_nat i) m) w.
Proof.
  intros Hi. pose proof (lookup_lt_Some _ _ _ Hi) as Hlt. simpl in Hlt. cbn [locate].
  rewrite (GetCharacterIndex_lookup i ch Hi).
  rewrite (proj2 (Z.eqb_neq _ _)) by (unfold npos, size_max; lia).
  destruct (find_level _ m) eqn:E; [|done]. destruct w as [|x w]; [done|]. cbn [locate].
  by destruct (_ =? npos).
Qed.

Lemma locate_Null w : locate Null w = Null.
Proof. destruct w; [done|]. cbn [locate]. by destruct (_ =? npos). Qed.

Lemma tst_locate_illegal t ch w : ch <> NUL -> ~ legal ch -> locate t (ch :: w) = Null.
Proof.
  intros Hn Hl. destruct (index_cases ch Hn) as [[_ H]|(i & Hi & _)]; cbn [locate].
  - by rewrite H.
  - by apply legal_index in Hi.
Qed.

Lemma find_level_ok lo hi i t :
  level_ok lo hi t -> find_level i t = Null \/ node_ok (find_level i t).
Proof.
  revert lo hi. induction t as [|ci e l IHl m _ r IHr]; intros lo hi Ht; [by left|].
  cbn [find_level]. simpl in Ht. destruct Ht as (_ & Hl & Hr & Hm).
  destruct (i =? ci); [by right|]. destruct (i <? ci); eauto.
Qed.

(** Words below a level: those of the node with the index of their first character. *)
Definition level_word (t : tst) (w : str) : Prop :=
  match w with
  | [] => False
  | ch :: w => exists i, kAlphabet !! i = Some ch /\ tst_word (find_level (Z.of_nat i) t) w
  end.

Lemma find_level_27 t : level_ok 0 27 t -> find_level 27 t = Null.
Proof.
  enough (H : forall lo hi, hi <= 27 -> level_ok lo hi t -> find_level 27 t = Null) by (by apply H).
  induction t as [|ci e l IHl m _ r IHr]; intros lo hi Hhi Ht; [done|]. cbn [find_level].
  simpl in Ht. destruct Ht as (Hb & Hl & Hr & _).
  rewrite (proj2 (Z.eqb_neq _ _)), (proj2 (Z.ltb_ge _ _)) by lia. by eapply IHr.
Qed.

Lemma tst_word_cons ci e l m r ch w :
  level_ok 0 27 m -> tst_word (Node ci e l m r) (ch :: w) <-> level_word m (ch :: w).
Proof.
  intros Hm. unfold tst_word at 1. destruct (decide (ch = NUL)) as [->|Hn].
  { cbn [locate]. change (GetCharacterIndex NUL) with 27. change (27 =? npos) with false.
    cbv iota. rewrite find_level_27 by done. split; [done|]. intros (i & Hi & _).
    by apply legal_index, NUL_illegal in Hi. }
  destruct (index_cases ch Hn) as [[Hl _]|(i & Hi & _)].
  - rewrite tst_locate_illegal by done. split; [done|]. intros (i & Hi & _).
    by apply legal_index in Hi.
  - rewrite (tst_locate_cons ci e l m r i ch w Hi). split; [by exists i|].
    intros (j & Hj & Hw). by assert (j = i) as -> by (by eapply NoDup_lookup; [apply kAlphabet_NoDup| |]).
Qed.

Lemma tst_word_Null w : ~ tst_word Null w.
Proof. unfold tst_word. by rewrite locate_Null. Qed.

(** A node's words depend on its mark and on the level below it. *)
Lemma tst_word_irrel ci e l m r ci' l' r' w :
  tst_word (Node ci e l m r) w <-> tst_word (Node ci' e l' m r') w.
Proof. destruct w; done. Qed.

Lemma tst_word_new i w : ~ tst_word (new_tst_node i) w.
Proof.
  destruct w as [|ch w]; [done|]. unfold new_tst_node. rewrite tst_word_cons by done.
  intros (j & _ & H). by apply tst_word_Null in H.
Qed.

Lemma tst_word_legal t w : node_ok t \/ t = Null -> tst_word t w -> legal_word w.
Proof.
  revert t. induction w as [|ch w IH]; intros t Ht Hw; [constructor|].
  destruct t as [|ci e l m r]; [by apply tst_word_Null in Hw|].
  destruct Ht as [Hm|]; [|done]. simpl in Hm. apply tst_word_cons in Hw as (i & Hi & Hw); [|done].
  constructor; [by eapply legal_index|]. apply (IH (find_level (Z.of_nat i) m)); [|done].
  destruct (find_level_ok 0 27 (Z.of_nat i) m Hm); tauto.
Qed.

(** ** Insertion *)

(** What the insertion of [w] does to a node; the rest of its level is untouched. *)
Definition inserts (w : str) (ins : tst -> outcome (tst * option exn)) : Prop :=
  forall ci e l m r, level_ok 0 27 m ->
  exists e' m', ins (Node ci e l m r) =
      Ok (Node ci e' l m' r, if decide (legal_word w) then None else Some invalid_argument) /\
    level_ok 0 27 m' /\
    forall y, tst_word (Node ci e' l m' r) y <-> tst_word (Node ci e l m r) y \/ (legal_word w /\ y = w).

Lemma insert_level_ok w ins i : inserts w ins ->
  forall t lo hi, level_ok lo hi t -> lo <= i < hi ->
  exists t', insert_level ins i t =
      Ok (t', if decide (legal_word w) then None else Some invalid_argument) /\
    level_ok lo hi t' /\
    forall j y, tst_word (find_level j t') y <->
                tst_word (find_level j t) y \/ (j = i /\ legal_word w /\ y = w).
Proof.
  intros Hins. induction t as [|ci e l IHl m _ r IHr]; intros lo hi Ht Hi; cbn [insert_level].
  - destruct (Hins i false Null Null Null) as (e' & m' & H & Hm' & Hw); [done|].
    eexists. split; [exact H|]. split; [by simpl|]. intros j y. cbn [find_level].
    destruct (Z.eqb_spec j i) as [->|Hne].
    + rewrite Hw. split; [intros [H'|H']|intros [H'|H']]; try tauto.
      * by apply (tst_word_new i) in H'.
      * by apply tst_word_Null in H'.
    + destruct (j <? i); cbn [find_level]; tauto.
  - pose proof Ht as (Hb & Hl & Hr & Hm). cbn [find_level].
    destruct (Z.eqb_spec i ci) as [->|Hne]; [|destruct (Z.ltb_spec i ci)].
    + destruct (Hins ci e l m r Hm) as (e' & m' & H & Hm' & Hw).
      eexists. split; [exact H|]. split; [by simpl|]. intros j y. cbn [find_level].
      destruct (Z.eqb_spec j ci) as [->|Hne]; [rewrite Hw; naive_solver|].
      destruct (j <? ci); naive_solver.
    + destruct (IHl lo ci Hl ltac:(lia)) as (l' & -> & Hl' & Hw). cbn [mbind outcome_bind].
      eexists. split; [done|]. split; [by simpl|]. intros j y. cbn [find_level].
      destruct (Z.eqb_spec j ci) as [->|Hne'].
      * rewrite (tst_word_irrel _ _ l' _ _ ci l r). split; [tauto|]. intros [?|[? _]]; [done|lia].
      * destruct (Z.ltb_spec j ci); [apply Hw|]. split; [tauto|]. intros [?|[? _]]; [done|lia].
    + destruct (IHr (ci + 1) hi Hr ltac:(lia)) as (r' & -> & Hr' & Hw). cbn [mbind outcome_bind].
      eexists. split; [done|]. split; [by simpl|]. intros j y. cbn [find_level].
      destruct (Z.eqb_spec j ci) as [->|Hne'].
      * rewrite (tst_word_irrel _ _ l _ r' ci l r). split; [tauto|]. intros [?|[? _]]; [done|lia].
      * destruct (Z.ltb_spec j ci); [|apply Hw]. split; [tauto|]. intros [?|[? _]]; [done|lia].
Qed.

Lemma tst_Insert_ok w : c_word w -> inserts w (Insert w).
Proof.
  induction w as [|ch w IH]; intros Hc ci e l m r Hm.
  { exists true, m. cbn [Insert]. rewrite decide_True by constructor. split_and!; [done|done|].
    intros [|y0 y]; [split; [right; split; [constructor|done]|done]|].
    rewrite !tst_word_cons by done. split; [by left|]. intros [?|[_ [=]]]. done. }
  apply c_word_cons in Hc as [Hn Hc]. cbn [Insert].
  destruct (index_cases ch Hn) as [[Hl Hx]|(i & Hi & Hlt & Hx & Hne)].
  { rewrite Hx, Z.eqb_refl. exists e, m. rewrite decide_False by (intros [? _]%Forall_cons; done).
    split_and!; [done|done|]. intros y. split; [by left|]. intros [?|[[? _]%Forall_cons _]]; done. }
  rewrite Hne, Hx.
  destruct (insert_level_ok w (Insert w) (Z.of_nat i) (IH Hc) m 0 27 Hm ltac:(lia))
    as (m' & -> & Hm' & Hw). cbn [mbind outcome_bind].
  pose proof (legal_index i ch Hi) as Hleg. exists e, m'. split_and!; [|done|].
  - apply f_equal, f_equal2; [reflexivity|]. apply decide_ext. unfold legal_word.
    rewrite Forall_cons. tauto.
  - intros [|y0 y]; [split; [by left|]; intros [?|[_ [=]]]; done|].
    rewrite !tst_word_cons by done. unfold level_word. setoid_rewrite Hw.
    unfold legal_word. rewrite Forall_cons. split.
    + intros (j & Hj & [Hy|(Hij & Hlw & ->)]); [left; eauto|]. apply Nat2Z.inj in Hij as ->. right.
      split; [done|]. congruence.
    + intros [(j & Hj & Hy)|[[_ Hlw] [= -> ->]]]; [eauto|]. exists i. split; [done|]. by right.
Qed.

(** ** Search *)

(** The words of a level, each node's own first, then those below it, to its left
    and to its right. *)
Definition char_at (i : Z) : ascii := default NUL (vat kAlphabet i).

Fixpoint level_words (t : tst) : list str :=
  match t with
  | Null => []
  | Node ci e l m r =>
      (if e then [[char_at ci]] else []) ++ map (cons (char_at ci)) (level_words m) ++
      level_words l ++ level_words r
  end.

Lemma char_at_spec i : 0 <= i < 27 -> kAlphabet !! Z.to_nat i = Some (char_at i).
Proof.
  intros Hi. unfold char_at. assert (H : is_Some (vat kAlphabet i)) by (apply vat_range; exact Hi).
  destruct H as [c Hc]. rewrite Hc. by rewrite vat_pos in Hc by lia.
Qed.

Lemma SearchWord_spec t : forall lo hi words seq prefix,
  0 <= lo -> hi <= 27 -> level_ok lo hi t ->
  SearchWord t words seq prefix = Ok (words ++ map (app (prefix ++ seq)) (level_words t), seq).
Proof.
  induction t as [|ci e l IHl m IHm r IHr]; intros lo hi words seq prefix Hlo Hhi Ht.
  { simpl. by rewrite app_nil_r. }
  destruct Ht as (Hb & Hl & Hr & Hm). cbn [SearchWord level_words].
  pose proof (char_at_spec ci ltac:(lia)) as Hc.
  replace (GetCharacter ci) with (Ok (char_at ci))
    by (symmetry; rewrite <- (Z2Nat.id ci) at 1 by lia; by apply GetCharacter_ok).
  cbn [mbind outcome_bind]. rewrite (IHm 0 27) by (done || lia). cbn [mbind outcome_bind].
  rewrite removelast_last, (IHl lo ci) by (done || lia). cbn [mbind outcome_bind].
  rewrite (IHr (ci + 1) hi) by (done || lia). f_equal. f_equal.
  rewrite !map_app, map_map, <- !app_assoc. destruct e; cbn [map app]; rewrite <- ?app_assoc; cbn [app];
    do 2 f_equal; try (apply map_ext; intros w; by rewrite <- !app_assoc); f_equal;
    apply map_ext; intros w; by rewrite <- !app_assoc.
Qed.

Lemma find_level_bounds lo hi i t : level_ok lo hi t -> find_level i t <> Null -> lo <= i < hi.
Proof.
  revert lo hi. induction t as [|ci e l IHl m _ r IHr]; intros lo hi Ht Hf; [done|].
  cbn [find_level] in Hf. simpl in Ht. destruct Ht as (Hb & Hl & Hr & _).
  destruct (Z.eqb_spec i ci); [lia|].
  destruct (Z.ltb_spec i ci); [specialize (IHl lo ci Hl Hf)|specialize (IHr (ci + 1) hi Hr Hf)]; lia.
Qed.

Lemma char_at_inj i j : 0 <= i < 27 -> 0 <= j < 27 -> char_at i = char_at j -> i = j.
Proof.
  intros Hi Hj H. pose proof (char_at_spec i Hi) as H1. pose proof (char_at_spec j Hj) as H2.
  rewrite H in H1. pose proof (NoDup_lookup _ _ _ _ kAlphabet_NoDup H1 H2). lia.
Qed.

(** The words of a level begin with the characters of its nodes. *)
Lemma level_words_head t w lo hi :
  level_ok lo hi t -> w ∈ level_words t -> exists i x, w = char_at i :: x /\ lo <= i < hi.
Proof.
  revert lo hi. induction t as [|ci e l IHl m _ r IHr]; intros lo hi Ht Hw; cbn [level_words] in Hw.
  { by apply not_elem_of_nil in Hw. }
  destruct Ht as (Hb & Hl & Hr & _). rewrite !elem_of_app in Hw.
  destruct Hw as [Hw|[Hw|[Hw|Hw]]].
  - destruct e; [|by apply not_elem_of_nil in Hw]. apply list_elem_of_singleton in Hw as ->. eauto.
  - apply list_elem_of_In, in_map_iff in Hw as (x & <- & _). eauto.
  - destruct (IHl lo ci Hl Hw) as (i & x & -> & ?). exists i, x. split; [done|lia].
  - destruct (IHr (ci + 1) hi Hr Hw) as (i & x & -> & ?). exists i, x. split; [done|lia].
Qed.

Lemma elem_of_map_cons c (l : list str) w : w ∈ map (cons c) l <-> exists x, w = c :: x /\ x ∈ l.
Proof.
  rewrite list_elem_of_In, in_map_iff. setoid_rewrite <- list_elem_of_In. naive_solver.
Qed.

Lemma tst_word_cases ci e l m r w :
  level_ok 0 27 m ->
  tst_word (Node ci e l m r) w <-> (w = [] /\ e = true) \/ level_word m w.
Proof.
  intros Hm. destruct w as [|ch w]; [unfold tst_word, level_word; simpl; tauto|].
  rewrite tst_word_cons by done. naive_solver.
Qed.

Lemma level_words_spec t : forall lo hi w,
  0 <= lo -> hi <= 27 -> level_ok lo hi t -> w ∈ level_words t <-> level_word t w.
Proof.
  induction t as [|ci e l IHl m IHm r IHr]; intros lo hi w Hlo Hhi Ht.
  { split; [by intros ?%not_elem_of_nil|]. destruct w; [done|]. intros (i & _ & H).
    by apply tst_word_Null in H. }
  pose proof Ht as (Hb & Hl & Hr & Hm). pose proof (char_at_spec ci ltac:(lia)) as Hc.
  cbn [level_words]. rewrite !elem_of_app, elem_of_map_cons. setoid_rewrite (IHm 0 27); [|done..].
  rewrite (IHl lo ci), (IHr (ci + 1) hi) by (done || lia). clear IHl IHm IHr.
  destruct w as [|ch w].
  { simpl. split; [|done]. intros [H|[(? & [=] & _)|[H|H]]]; try done.
    destruct e; [by apply list_elem_of_singleton in H|by apply not_elem_of_nil in H]. }
  assert (Hpos : forall i s, kAlphabet !! i = Some ch -> tst_word (find_level (Z.of_nat i) s) w ->
                 find_level (Z.of_nat i) s <> Null).
  { intros i s _ Hw Hnull. rewrite Hnull in Hw. by apply tst_word_Null in Hw. }
  cbn [level_word find_level]. split.
  - intros [H|[(x & [= -> ->] & H)|[(i & Hi & H)|(i & Hi & H)]]].
    + destruct e; [|by apply not_elem_of_nil in H]. apply list_elem_of_singleton in H as [= -> ->].
      exists (Z.to_nat ci). rewrite Z2Nat.id, Z.eqb_refl by lia. rewrite tst_word_cases by done. naive_solver.
    + exists (Z.to_nat ci). rewrite Z2Nat.id, Z.eqb_refl by lia. rewrite tst_word_cases by done. naive_solver.
    + pose proof (find_level_bounds _ _ _ _ Hl (Hpos _ _ Hi H)). exists i. split; [done|].
      rewrite (proj2 (Z.eqb_neq _ _)), (proj2 (Z.ltb_lt _ _)) by lia. done.
    + pose proof (find_level_bounds _ _ _ _ Hr (Hpos _ _ Hi H)). exists i. split; [done|].
      rewrite (proj2 (Z.eqb_neq _ _)), (proj2 (Z.ltb_ge _ _)) by lia. done.
  - intros (i & Hi & H). destruct (Z.eqb_spec (Z.of_nat i) ci) as [Heq|Hne].
    + subst ci. rewrite Nat2Z.id in Hc. assert (ch = char_at (Z.of_nat i)) as -> by congruence.
      apply tst_word_cases in H as [[-> ->]|H]; [|right; left; eauto|done].
      left. by apply list_elem_of_singleton.
    + destruct (Z.of_nat i <? ci); eauto 6.
Qed.

Lemma level_words_NoDup t : forall lo hi,
  0 <= lo -> hi <= 27 -> level_ok lo hi t -> NoDup (level_words t).
Proof.
  induction t as [|ci e l IHl m IHm r IHr]; intros lo hi Hlo Hhi Ht; [constructor|].
  destruct Ht as (Hb & Hl & Hr & Hm). cbn [level_words].
  assert (Hne : forall c i x y, lo <= i < hi -> i <> ci -> c = ci -> char_at c :: x <> char_at i :: y).
  { intros c i x y Hi Hn -> [= H _]. apply char_at_inj in H; lia. }
  apply NoDup_app. split_and!.
  - destruct e; [apply NoDup_singleton|constructor].
  - intros w Hw. destruct e; [|by apply not_elem_of_nil in Hw].
    apply list_elem_of_singleton in Hw as ->. rewrite !elem_of_app, elem_of_map_cons.
    intros [(x & [= <-] & H)|[H|H]].
    + destruct (level_words_head m _ 0 27 Hm H) as (? & ? & [=] & _).
    + destruct (level_words_head l _ lo ci Hl H) as (i & y & Heq & ?). by eapply (Hne ci i); [..|exact Heq]; lia.
    + destruct (level_words_head r _ (ci + 1) hi Hr H) as (i & y & Heq & ?).
      by eapply (Hne ci i); [..|exact Heq]; lia.
  - apply NoDup_app. split_and!.
    + apply NoDup_fmap_2; [by intros ? ? [= ->]|by eapply (IHm 0 27)].
    + intros w (x & -> & _)%elem_of_map_cons. rewrite elem_of_app. intros [H|H].
      * destruct (level_words_head l _ lo ci Hl H) as (i & y & Heq & ?).
        by eapply (Hne ci i); [..|exact Heq]; lia.
      * destruct (level_words_head r _ (ci + 1) hi Hr H) as (i & y & Heq & ?).
        by eapply (Hne ci i); [..|exact Heq]; lia.
    + apply NoDup_app. split_and!; [eapply (IHl lo ci)| |eapply (IHr (ci + 1) hi)]; try (done || lia).
      intros w H H'. destruct (level_words_head l _ lo ci Hl H) as (i & y & -> & ?).
      destruct (level_words_head r _ (ci + 1) hi Hr H') as (j & z & [= Heq _] & ?).
      apply char_at_inj in Heq; lia.
Qed.

Lemma tst_locate_ok t p : node_ok t -> locate t p = Null \/ node_ok (locate t p).
Proof.
  revert t. induction p as [|ch p IH]; intros t Ht; [by right|].
  destruct t as [|ci e l m r]; [done|]. simpl in Ht. cbn [locate].
  destruct (_ =? npos); [by left|]. destruct (find_level_ok 0 27 (GetCharacterIndex ch) m Ht) as [->|H];
    [by left|]. destruct (find_level _ m); [by left|]. by apply IH.
Qed.

Lemma tst_locate_app p w : forall t, locate t (p ++ w) = locate (locate t p) w.
Proof.
  induction p as [|ch p IH]; intros t; [done|]. cbn [app locate].
  destruct (_ =? npos); [by rewrite locate_Null|].
  destruct t; [by rewrite locate_Null|]. destruct (find_level _ _); [by rewrite locate_Null|].
  apply IH.
Qed.

Lemma tst_Search_spec t p :
  node_ok t ->
  exists ws, Search t p = Ok ws /\ NoDup ws /\ forall w, w ∈ ws <-> tst_word t w /\ p `prefix_of` w.
Proof.
  intros Ht. unfold Search.
  assert (Hw : forall w, tst_word t (p ++ w) <-> tst_word (locate t p) w)
    by (intros w; unfold tst_word; by rewrite tst_locate_app).
  destruct (tst_locate_ok t p Ht) as [Hl|Hl].
  { rewrite Hl in *. exists []. split_and!; [done|constructor|]. intros w.
    split; [by intros ?%not_elem_of_nil|]. intros [H [x ->]]. by apply Hw, tst_word_Null in H. }
  destruct (locate t p) as [|ci e l m r]; [done|]. simpl in Hl. cbn [end_word middle].
  rewrite (SearchWord_spec m 0 27) by done. cbn [mbind outcome_bind]. rewrite app_nil_r.
  assert (Hin : forall x, x ∈ map (app p) (level_words m) <-> exists w, x = p ++ w /\ level_word m w).
  { intros x. rewrite list_elem_of_In, in_map_iff. setoid_rewrite <- list_elem_of_In.
    setoid_rewrite (level_words_spec m 0 27); [|done..]. naive_solver. }
  eexists. split; [done|]. split.
  - apply NoDup_app. split_and!.
    + destruct e; [apply NoDup_singleton|constructor].
    + intros w H (x & -> & Hx)%Hin. destruct e; [|by apply not_elem_of_nil in H].
      apply list_elem_of_singleton in H. destruct x; [done|].
      apply (f_equal length) in H. rewrite length_app in H. simpl in H. lia.
    + apply NoDup_fmap_2; [apply _|by eapply (level_words_NoDup m 0 27)].
  - intros w. rewrite elem_of_app, Hin. split.
    + intros [H|(x & -> & H)].
      * destruct e; [|by apply not_elem_of_nil in H]. apply list_elem_of_singleton in H as ->.
        split; [|done]. rewrite <- (app_nil_r p). apply Hw. done.
      * split; [|by exists x]. apply Hw, tst_word_cases; [done|by right].
    + intros [H [x ->]]. apply Hw, tst_word_cases in H as [[-> ->]|H]; [|eauto|done].
      left. rewrite app_nil_r. by apply list_elem_of_singleton.
Qed.

#[export] Instance tst_dict_ok : DictOk tst.
Proof.
  refine {| dict_inv := node_ok; has_word := tst_word |}.
  - done.
  - intros w. apply tst_word_new.
  - intros d w Hd Hw. apply (tst_word_legal d); auto.
  - intros d w Hd Hc. destruct d as [|ci e l m r]; [done|].
    destruct (tst_Insert_ok w Hc ci e l m r Hd) as (e' & m' & H & Hm & Hw). eauto.
  - intros d w Hd Hc. eexists. split; [done|]. done.
  - intros d p Hd Hc. by apply tst_Search_spec.
Qed.
