(* ===== verification/DictClient.v ===== *)
(** * The two dictionaries against their interface

    The answers of the trie and of the ternary search tree after any history of
    insertions, through the interface of Dict.v. *)

From S2P Require Import Prelude Dict Trie Tst.

(** The client's history on each implementation: insert every word, then ask. *)
Definition trie_history (ws : list str) (q : str) := answers (D := trie_node) ws q.
Definition tst_history (ws : list str) (q : str) := answers (D := tst) ws q.

(** A C string of length one whose only character is the terminator. *)
Definition terminator_word : str := [NUL].

(** After inserting any words (without embedded terminators) into a new trie,
    exactly the words with a character outside the alphabet were rejected,
    [Contains] holds of exactly the others, and [Search] returns every inserted word
    with the prefix, once. *)
Theorem trie_answers ws q :
  Forall c_word ws -> c_word q ->
  exists b r, trie_history ws q =
      Ok (map (fun w => if decide (legal_word w) then None else Some invalid_argument) ws, b, r) /\
    (b = true <-> legal_word q /\ q ∈ ws) /\
    NoDup r /\ forall w, w ∈ r <-> (legal_word w /\ w ∈ ws) /\ q `prefix_of` w.
Proof. apply answers_ok. Qed.

(** C4: the trie and the ternary search tree are interchangeable for words and queries without
    an embedded terminator (on one they differ, see [embedded_terminator]): after the same
    insertions they have thrown at the same words, agree on [Contains] and return
    the same words from [Search], up to their order. *)
Theorem trie_tst_agree ws q :
  Forall c_word ws -> c_word q ->
  exists es b r1 r2,
    trie_history ws q = Ok (es, b, r1) /\
    tst_history ws q = Ok (es, b, r2) /\ r1 ≡ₚ r2.
Proof. apply dictionaries_agree. Qed.

(** An embedded terminator is taken for a character of the alphabet ([strchr]
    finds it): the trie accesses its children out of range, while the ternary search
    tree accepts the word and fails its assertion when [Search] comes across it. *)
Theorem embedded_terminator :
  GetCharacterIndex NUL = alphabet_length /\
  (forall w, Trie.Insert make_trie (terminator_word ++ w) = Undef) /\
  exists t, Tst.Insert terminator_word make_tree = Ok (t, None) /\ Tst.Contains t terminator_word = Ok true /\
            Tst.Search t [] = Undef.
Proof. split_and!; [reflexivity|reflexivity|]. eexists. split_and!; reflexivity. Qed.

Definition sample_words : list str := map lit ["hello"; "hell"; "no way"; "a-b"; ""; "here"]%string.

Lemma trie_answers_witness :
  exists b r, trie_history sample_words (lit "he") =
      Ok (map (fun w => if decide (legal_word w) then None else Some invalid_argument) sample_words, b, r) /\
    (b = true <-> legal_word (lit "he") /\ lit "he" ∈ sample_words) /\
    NoDup r /\ forall w, w ∈ r <-> (legal_word w /\ w ∈ sample_words) /\ lit "he" `prefix_of` w.
Proof.
  apply trie_answers; apply (bool_decide_unpack _); vm_compute; exact I.
Defined.

Lemma trie_tst_agree_witness :
  exists es b r1 r2,
    trie_history sample_words (lit "he") = Ok (es, b, r1) /\
    tst_history sample_words (lit "he") = Ok (es, b, r2) /\ r1 ≡ₚ r2.
Proof.
  apply trie_tst_agree; apply (bool_decide_unpack _); vm_compute; exact I.
Defined.

Example sample_search_order :
  (trie_history sample_words (lit "he"), tst_history sample_words (lit "he")) =
  (Ok ([None; None; Some invalid_argument; None; None; None], false, map lit ["hello"; "hell"; "here"]%string),
   Ok ([None; None; Some invalid_argument; None; None; None], false, map lit ["hell"; "hello"; "here"]%string)).
Proof. vm_compute. reflexivity. Qed.
