(* ===== verification/Md5.v ===== *)
(** * MD5

    Models uuid/uuid/md5.cpp: the block transformation as its 64 STEPs, the
    incremental context with its bit counters and partial block, and the digest's
    hexadecimal form.  The specification is RFC 1321: padding, the table of
    operations, and a fold over the blocks of the whole message. *)

From S2P Require Import Prelude Endian.

(** ** The basic functions and STEP *)

Inductive round_fn := fF | fG | fH | fI.

(** The macros; [~z] is the complement of a 32-bit integer. *)
Definition apply_fn (f : round_fn) (x y z : Z) : Z :=
  match f with
  | fF => Z.lxor z (Z.land x (Z.lxor y z))
  | fG => Z.lxor y (Z.land z (Z.lxor x y))
  | fH => Z.lxor (Z.lxor x y) z
  | fI => Z.lxor y (Z.lor x (wrap 32 (Z.lnot z)))
  end.

Inductive register := Ra | Rb | Rc | Rd.

Record registers := mk_registers { ra : Z; rb : Z; rc : Z; rd : Z }.

Definition get (r : registers) (n : register) : Z :=
  match n with Ra => ra r | Rb => rb r | Rc => rc r | Rd => rd r end.

Definition set (r : registers) (n : register) (v : Z) : registers :=
  match n with
  | Ra => mk_registers v (rb r) (rc r) (rd r)
  | Rb => mk_registers (ra r) v (rc r) (rd r)
  | Rc => mk_registers (ra r) (rb r) v (rd r)
  | Rd => mk_registers (ra r) (rb r) (rc r) v
  end.

(** [STEP(f, a, b, c, d, SET(n), t, s)] *)
Inductive step := STEP (f : round_fn) (w x y z : register) (n : nat) (t s : Z).

(** [SET(n)], [GET(n)]: the little-endian word [n] of the block. *)
Definition SET (block : str) (n : nat) : Z := le_value (take 4 (drop (n * 4) block)).

Definition exec_step (block : str) (r : registers) (st : step) : registers :=
  let 'STEP f w x y z n t s := st in
  let v := wrap 32 (get r w + (apply_fn f (get r x) (get r y) (get r z) + SET block n + t)) in
  let v := Z.lor (wrap 32 (Z.shiftl v s)) (Z.shiftr (Z.land v 0xffffffff) (32 - s)) in
  let v := wrap 32 (v + get r x) in
  set r w v.

Definition transform_steps : list step :=
  [
   STEP fF Ra Rb Rc Rd 0 0xd76aa478 7;
   STEP fF Rd Ra Rb Rc 1 0xe8c7b756 12;
   STEP fF Rc Rd Ra Rb 2 0x242070db 17;
   STEP fF Rb Rc Rd Ra 3 0xc1bdceee 22;
   STEP fF Ra Rb Rc Rd 4 0xf57c0faf 7;
   STEP fF Rd Ra Rb Rc 5 0x4787c62a 12;
   STEP fF Rc Rd Ra Rb 6 0xa8304613 17;
   STEP fF Rb Rc Rd Ra 7 0xfd469501 22;
   STEP fF Ra Rb Rc Rd 8 0x698098d8 7;
   STEP fF Rd Ra Rb Rc 9 0x8b44f7af 12;
   STEP fF Rc Rd Ra Rb 10 0xffff5bb1 17;
   STEP fF Rb Rc Rd Ra 11 0x895cd7be 22;
   STEP fF Ra Rb Rc Rd 12 0x6b901122 7;
   STEP fF Rd Ra Rb Rc 13 0xfd987193 12;
   STEP fF Rc Rd Ra Rb 14 0xa679438e 17;
   STEP fF Rb Rc Rd Ra 15 0x49b40821 22;
   STEP fG Ra Rb Rc Rd 1 0xf61e2562 5;
   STEP fG Rd Ra Rb Rc 6 0xc040b340 9;
   STEP fG Rc Rd Ra Rb 11 0x265e5a51 14;
   STEP fG Rb Rc Rd Ra 0 0xe9b6c7aa 20;
   STEP fG Ra Rb Rc Rd 5 0xd62f105d 5;
   STEP fG Rd Ra Rb Rc 10 0x02441453 9;
   STEP fG Rc Rd Ra Rb 15 0xd8a1e681 14;
   STEP fG Rb Rc Rd Ra 4 0xe7d3fbc8 20;
   STEP fG Ra Rb Rc Rd 9 0x21e1cde6 5;
   STEP fG Rd Ra Rb Rc 14 0xc33707d6 9;
   STEP fG Rc Rd Ra Rb 3 0xf4d50d87 14;
   STEP fG Rb Rc Rd Ra 8 0x455a14ed 20;
   STEP fG Ra Rb Rc Rd 13 0xa9e3e905 5;
   STEP fG Rd Ra Rb Rc 2 0xfcefa3f8 9;
   STEP fG Rc Rd Ra Rb 7 0x676f02d9 14;
   STEP fG Rb Rc Rd Ra 12 0x8d2a4c8a 20;
   STEP fH Ra Rb Rc Rd 5 0xfffa3942 4;
   STEP fH Rd Ra Rb Rc 8 0x8771f681 11;
   STEP fH Rc Rd Ra Rb 11 0x6d9d6122 16;
   STEP fH Rb Rc Rd Ra 14 0xfde5380c 23;
   STEP fH Ra Rb Rc Rd 1 0xa4beea44 4;
   STEP fH Rd Ra Rb Rc 4 0x4bdecfa9 11;
   STEP fH Rc Rd Ra Rb 7 0xf6bb4b60 16;
   STEP fH Rb Rc Rd Ra 10 0xbebfbc70 23;
   STEP fH Ra Rb Rc Rd 13 0x289b7ec6 4;
   STEP fH Rd Ra Rb Rc 0 0xeaa127fa 11;
   STEP fH Rc Rd Ra Rb 3 0xd4ef3085 16;
   STEP fH Rb Rc Rd Ra 6 0x04881d05 23;
   STEP fH Ra Rb Rc Rd 9 0xd9d4d039 4;
   STEP fH Rd Ra Rb Rc 12 0xe6db99e5 11;
   STEP fH Rc Rd Ra Rb 15 0x1fa27cf8 16;
   STEP fH Rb Rc Rd Ra 2 0xc4ac5665 23;
   STEP fI Ra Rb Rc Rd 0 0xf4292244 6;
   STEP fI Rd Ra Rb Rc 7 0x432aff97 10;
   STEP fI Rc Rd Ra Rb 14 0xab9423a7 15;
   STEP fI Rb Rc Rd Ra 5 0xfc93a039 21;
   STEP fI Ra Rb Rc Rd 12 0x655b59c3 6;
   STEP fI Rd Ra Rb Rc 3 0x8f0ccc92 10;
   STEP fI Rc Rd Ra Rb 10 0xffeff47d 15;
   STEP fI Rb Rc Rd Ra 1 0x85845dd1 21;
   STEP fI Ra Rb Rc Rd 8 0x6fa87e4f 6;
   STEP fI Rd Ra Rb Rc 15 0xfe2ce6e0 10;
   STEP fI Rc Rd Ra Rb 6 0xa3014314 15;
   STEP fI Rb Rc Rd Ra 13 0x4e0811a1 21;
   STEP fI Ra Rb Rc Rd 4 0xf7537e82 6;
   STEP fI Rd Ra Rb Rc 11 0xbd3af235 10;
   STEP fI Rc Rd Ra Rb 2 0x2ad7d2bb 15;
   STEP fI Rb Rc Rd Ra 9 0xeb86d391 21].

(** The body of [Transform]'s loop. *)
Definition transform_block (r : registers) (block : str) : registers :=
  let saved := r in
  let r := foldl (exec_step block) r transform_steps in
  mk_registers (wrap 32 (ra r + ra saved)) (wrap 32 (rb r + rb saved))
               (wrap 32 (rc r + rc saved)) (wrap 32 (rd r + rd saved)).

(** ** The context *)

Record MD5Context := mk_context { lo : Z; hi : Z; regs : registers; buffer : str }.

Fixpoint transform_loop (fuel : nat) (r : registers) (ptr : str) (size : Z)
    : outcome (registers * str) :=
  match fuel with
  | O => OutOfFuel
  | S fuel =>
      if decide (64 <= length ptr)%nat then
        let r := transform_block r (take 64 ptr) in
        let ptr := drop 64 ptr in
        let size := wrap 64 (size - 64) in
        if size =? 0 then Ok (r, ptr) else transform_loop fuel r ptr size
      else Undef
  end.

(** [Transform]: the context and the data behind the blocks. *)
Definition Transform (context : MD5Context) (data : str) (size : Z) : outcome (MD5Context * str) :=
  '(r, ptr) ← transform_loop (S (length data)) (regs context) data size;
  Ok (mk_context (lo context) (hi context) r (buffer context), ptr).

Definition MD5Init (context : MD5Context) : MD5Context :=
  mk_context 0 0 (mk_registers 0x67452301 0xefcdab89 0x98badcfe 0x10325476) (buffer context).

(** [memcpy(&context.buffer[off], data, size)] and [memset]. *)
Definition fill_buffer (buf : str) (off : Z) (data : str) : outcome str :=
  if decide (off + Z.of_nat (length data) <= Z.of_nat (length buf))
  then Ok (take (Z.to_nat off) buf ++ data ++ drop (Z.to_nat off + length data) buf)
  else Undef.

Definition with_buffer (context : MD5Context) (buf : str) : MD5Context :=
  mk_context (lo context) (hi context) (regs context) buf.

(** The end of [MD5Update]: whole blocks are transformed, the rest is kept. *)
Definition update_tail (context : MD5Context) (data : str) (size : Z) : outcome MD5Context :=
  '(context, data, size) ←
    (if 64 <=? size then
       '(context, data) ← Transform context data (Z.ldiff size 0x3f);
       Ok (context, data, Z.land size 0x3f)
     else Ok (context, data, size));
  buf ← fill_buffer (buffer context) 0 (take (Z.to_nat size) data);
  Ok (with_buffer context buf).

(** The bit counters after [size] more bytes. *)
Definition update_counters (context : MD5Context) (size : Z) : MD5Context :=
  let saved_lo := lo context in
  let lo' := wrap 32 (Z.land (wrap 64 (saved_lo + size)) 0x1fffffff) in
  let hi' := if lo' <? saved_lo then wrap 32 (hi context + 1) else hi context in
  let hi' := wrap 32 (hi' + wrap 32 (Z.shiftr size 29)) in
  mk_context lo' hi' (regs context) (buffer context).

Definition MD5Update (context : MD5Context) (data : str) : outcome MD5Context :=
  let size := Z.of_nat (length data) in
  let saved_lo := lo context in
  let context := update_counters context size in
  let used := Z.land saved_lo 0x3f in
  if negb (used =? 0) then
    let free := wrap 32 (64 - used) in
    if size <? free then
      buf ← fill_buffer (buffer context) used data;
      Ok (with_buffer context buf)
    else
      buf ← fill_buffer (buffer context) used (take (Z.to_nat free) data);
      let context := with_buffer context buf in
      let data := drop (Z.to_nat free) data in
      let size := size - free in
      '(context, _) ← Transform context (buffer context) 64;
      update_tail context data size
  else update_tail context data size.

(** [TuckInto(dest, src)] into a byte. *)
Definition TuckInto (src : Z) : ascii := chr (wrap 8 src).

Definition tuck_word (w : Z) : str :=
  [TuckInto w; TuckInto (Z.shiftr w 8); TuckInto (Z.shiftr w 16); TuckInto (Z.shiftr w 24)].

Definition cleared : MD5Context := mk_context 0 0 (mk_registers 0 0 0 0) (replicate 64 (chr 0)).

(** The digest and the cleared context. *)
Definition MD5Final (context : MD5Context) : outcome (str * MD5Context) :=
  let used := Z.land (lo context) 0x3f in
  buf ← fill_buffer (buffer context) used [chr 0x80];
  let context := with_buffer context buf in
  let used := used + 1 in
  let free := 64 - used in
  '(context, used, free) ←
    (if free <? 8 then
       buf ← fill_buffer (buffer context) used (replicate (Z.to_nat free) (chr 0));
       '(context, _) ← Transform (with_buffer context buf) buf 64;
       Ok (context, 0, 64)
     else Ok (context, used, free));
  buf ← fill_buffer (buffer context) used (replicate (Z.to_nat (free - 8)) (chr 0));
  let lo' := wrap 32 (Z.shiftl (lo context) 3) in
  let context := mk_context lo' (hi context) (regs context) buf in
  buf ← fill_buffer (buffer context) 56 (tuck_word (lo context) ++ tuck_word (hi context));
  '(context, _) ← Transform (with_buffer context buf) buf 64;
  let r := regs context in
  Ok (tuck_word (ra r) ++ tuck_word (rb r) ++ tuck_word (rc r) ++ tuck_word (rd r), cleared).

(** [garbage] is the uninitialised context on the stack. *)
Definition MD5Sum (garbage : MD5Context) (data : str) : outcome str :=
  context ← MD5Update (MD5Init garbage) data;
  '(digest, _) ← MD5Final context;
  Ok digest.

Definition kHexDigits : str := lit "0123456789abcdef".

(** [kHexDigits[n]] for a nibble. *)
Definition hex_digit (n : Z) : ascii := default (chr 0) (vat kHexDigits n).

Definition MD5DigestToString (digest : str) : str :=
  flat_map (fun n => [hex_digit (Z.land (Z.shiftr (uchar n) 4) 0x0f); hex_digit (Z.land (uchar n) 0x0f)])
           digest.

Definition MD5String (garbage : MD5Context) (s : str) : outcome str :=
  digest ← MD5Sum garbage s;
  Ok (MD5DigestToString digest).

Example test_md5_abc : MD5String cleared (lit "abc") = Ok (lit "900150983cd24fb0d6963f7d28e17f72").
Proof. vm_compute. reflexivity. Qed.
Example test_md5_empty : MD5String cleared [] = Ok (lit "d41d8cd98f00b204e9800998ecf8427e").
Proof. vm_compute. reflexivity. Qed.
Example test_md5_long :
  MD5String cleared
    (lit "12345678901234567890123456789012345678901234567890123456789012345678901234567890")
  = Ok (lit "57edf4a22be3c955ac49da2e2107b67a").
Proof. vm_compute. reflexivity. Qed.

(** ** RFC 1321 *)

Definition rfc_fn (round : nat) (x y z : Z) : Z :=
  match round with
  | 0 => Z.lor (Z.land x y) (Z.land (Z.lnot x) z)
  | 1 => Z.lor (Z.land x z) (Z.land y (Z.lnot z))
  | 2 => Z.lxor (Z.lxor x y) z
  | _ => Z.lxor y (Z.lor x (wrap 32 (Z.lnot z)))
  end%nat.

(** Which word operation [i] uses, its shift and its constant. *)
Definition rfc_word (i : nat) : nat :=
  match i / 16 with
  | 0 => i mod 16
  | 1 => (5 * i + 1) mod 16
  | 2 => (3 * i + 5) mod 16
  | _ => (7 * i) mod 16
  end%nat.

Definition rfc_shift (i : nat) : Z :=
  nth (i mod 4) (nth (i / 16) [[7; 12; 17; 22]; [5; 9; 14; 20]; [4; 11; 16; 23]; [6; 10; 15; 21]] []) 0.

(** [floor (2^32 * abs (sin (i + 1)))] *)
Definition rfc_table : list Z :=
  [
   0xd76aa478; 0xe8c7b756; 0x242070db; 0xc1bdceee; 0xf57c0faf; 0x4787c62a; 0xa8304613; 0xfd469501;
   0x698098d8; 0x8b44f7af; 0xffff5bb1; 0x895cd7be; 0x6b901122; 0xfd987193; 0xa679438e; 0x49b40821;
   0xf61e2562; 0xc040b340; 0x265e5a51; 0xe9b6c7aa; 0xd62f105d; 0x02441453; 0xd8a1e681; 0xe7d3fbc8;
   0x21e1cde6; 0xc33707d6; 0xf4d50d87; 0x455a14ed; 0xa9e3e905; 0xfcefa3f8; 0x676f02d9; 0x8d2a4c8a;
   0xfffa3942; 0x8771f681; 0x6d9d6122; 0xfde5380c; 0xa4beea44; 0x4bdecfa9; 0xf6bb4b60; 0xbebfbc70;
   0x289b7ec6; 0xeaa127fa; 0xd4ef3085; 0x04881d05; 0xd9d4d039; 0xe6db99e5; 0x1fa27cf8; 0xc4ac5665;
   0xf4292244; 0x432aff97; 0xab9423a7; 0xfc93a039; 0x655b59c3; 0x8f0ccc92; 0xffeff47d; 0x85845dd1;
   0x6fa87e4f; 0xfe2ce6e0; 0xa3014314; 0x4e0811a1; 0xf7537e82; 0xbd3af235; 0x2ad7d2bb; 0xeb86d391].

Definition rotate_left (x s : Z) : Z := wrap 32 (x * 2 ^ s) + x / 2 ^ (32 - s).

Definition rfc_operation (words : list Z) (st : Z * Z * Z * Z) (i : nat) : Z * Z * Z * Z :=
  let '(A, B, C, D) := st in
  let x := nth (rfc_word i) words 0 in
  (D, wrap 32 (B + rotate_left (wrap 32 (A + rfc_fn (i / 16) B C D + x + nth i rfc_table 0)) (rfc_shift i)),
   B, C).

(** The 16 words of a block. *)
Definition words_of (block : str) : list Z :=
  map (fun n => le_value (take 4 (drop (4 * n) block))) (seq 0 16).

Definition rfc_block (st : Z * Z * Z * Z) (block : str) : Z * Z * Z * Z :=
  let '(A, B, C, D) := st in
  let '(A', B', C', D') := foldl (rfc_operation (words_of block)) st (seq 0 64) in
  (wrap 32 (A' + A), wrap 32 (B' + B), wrap 32 (C' + C), wrap 32 (D' + D)).

(** The state after the first [n] blocks of [data]. *)
Fixpoint rfc_blocks (n : nat) (st : Z * Z * Z * Z) (data : str) : Z * Z * Z * Z :=
  match n with
  | O => st
  | S n => rfc_blocks n (rfc_block st (take 64 data)) (drop 64 data)
  end.

Definition rfc_init : Z * Z * Z * Z := (0x67452301, 0xefcdab89, 0x98badcfe, 0x10325476).

(** A one bit, zeros up to 56 bytes modulo 64, and the length in bits modulo 2^64. *)
Definition rfc_pad (message : str) : str :=
  let len := Z.of_nat (length message) in
  message ++ [chr 0x80] ++ replicate (Z.to_nat ((55 - len) mod 64)) (chr 0) ++ le_bytes 8 ((8 * len) mod 2 ^ 64).

Definition rfc_md5 (message : str) : str :=
  let padded := rfc_pad message in
  let '(A, B, C, D) := rfc_blocks (length padded / 64) rfc_init padded in
  le_bytes 4 A ++ le_bytes 4 B ++ le_bytes 4 C ++ le_bytes 4 D.

(** ** The block transformation *)

Lemma apply_fn_rfc f x y z :
  apply_fn f x y z = rfc_fn (match f with fF => 0 | fG => 1 | fH => 2 | fI => 3 end)%nat x y z.
Proof.
  destruct f; [| |done|done]; apply Z.bits_inj'; intros n Hn; cbn [apply_fn rfc_fn];
    rewrite ?Z.lor_spec, ?Z.lxor_spec, ?Z.land_spec, ?Z.lxor_spec, ?Z.lnot_spec by done;
    destruct (Z.testbit x n), (Z.testbit y n), (Z.testbit z n); done.
Qed.

Lemma rotate_spec v s :
  u32 v -> 0 < s < 32 ->
  Z.lor (wrap 32 (Z.shiftl v s)) (Z.shiftr (Z.land v 0xffffffff) (32 - s)) = rotate_left v s.
Proof.
  unfold in_u. intros Hv Hs. unfold rotate_left.
  change 0xffffffff with (Z.ones 32). rewrite Z.land_ones, Z.mod_small by lia.
  rewrite Z.shiftl_mul_pow2, Z.shiftr_div_pow2 by lia.
  set (x := wrap 32 (v * 2 ^ s)). set (y := v / 2 ^ (32 - s)).
  assert (Hland : Z.land x y = 0).
  { apply Z.bits_inj'. intros n Hn. rewrite Z.land_spec, Z.bits_0.
    destruct (Z.lt_ge_cases n s).
    - unfold x, wrap. rewrite Z.mod_pow2_bits_low, Z.mul_pow2_bits by lia.
      by rewrite Z.testbit_neg_r by lia.
    - assert (Hy : y = y mod 2 ^ s).
      { symmetry. apply Z.mod_small. unfold y. split; [apply Z.div_pos; lia|].
        apply Z.div_lt_upper_bound; [lia|]. rewrite <- Z.pow_add_r by lia.
        replace (32 - s + s) with 32 by lia. lia. }
      rewrite Hy, Z.mod_pow2_bits_high, andb_false_r by lia. done. }
  pose proof (Z.add_lor_land x y). lia.
Qed.

Definition order (i : nat) : register * register * register * register :=
  match (i mod 4)%nat with
  | 0 => (Ra, Rb, Rc, Rd)
  | 1 => (Rd, Ra, Rb, Rc)
  | 2 => (Rc, Rd, Ra, Rb)
  | _ => (Rb, Rc, Rd, Ra)
  end%nat.

Definition rfc_step (i : nat) : step :=
  let '(w, x, y, z) := order i in
  STEP (nth (i / 16) [fF; fG; fH; fI] fF) w x y z (rfc_word i) (nth i rfc_table 0) (rfc_shift i).

(** The 64 STEPs are the operations of the standard with the registers renamed. *)
Lemma transform_steps_rfc : transform_steps = map rfc_step (seq 0 64).
Proof. vm_compute. reflexivity. Qed.

Definition view (i : nat) (r : registers) : Z * Z * Z * Z :=
  let '(w, x, y, z) := order i in (get r w, get r x, get r y, get r z).

Definition tuple (r : registers) : Z * Z * Z * Z := (ra r, rb r, rc r, rd r).

Lemma SET_word block i : (i < 16)%nat -> nth i (words_of block) 0 = SET block i.
Proof.
  intros Hi. unfold words_of, SET. rewrite (nth_indep _ 0 (le_value (take 4 (drop (4 * 0) block))))
    by (by rewrite length_map, length_seq).
  rewrite (map_nth (fun n => le_value (take 4 (drop (4 * n) block)))), seq_nth by done.
  do 3 f_equal. lia.
Qed.

Lemma operation_in_range i :
  (i < 64)%nat -> 0 < rfc_shift i < 32 /\ (rfc_word i < 16)%nat /\
  nth (i / 16) [fF; fG; fH; fI] fF = match (i / 16)%nat with 0 => fF | 1 => fG | 2 => fH | _ => fI end%nat.
Proof.
  intros Hi. assert (Hin : i ∈ seq 0 64) by (apply elem_of_seq; lia).
  assert (Hall : Forall (fun i => 0 < rfc_shift i < 32 /\ (rfc_word i < 16)%nat /\
    nth (i / 16) [fF; fG; fH; fI] fF = match (i / 16)%nat with 0 => fF | 1 => fG | 2 => fH | _ => fI end%nat)
    (seq 0 64)) by (cbn [seq]; repeat constructor; vm_compute; lia).
  rewrite Forall_forall in Hall. by apply Hall.
Qed.

Lemma exec_step_rfc block i r :
  (i < 64)%nat ->
  view (S i) (exec_step block r (rfc_step i)) = rfc_operation (words_of block) (view i r) i.
Proof.
  intros Hi. destruct (operation_in_range i Hi) as (Hs & Hw & Hf).
  assert (Hq : (i / 16 < 4)%nat) by (apply Nat.Div0.div_lt_upper_bound; lia).
  assert (Hfn : forall x y z, apply_fn (nth (i / 16) [fF; fG; fH; fI] fF) x y z = rfc_fn (i / 16) x y z).
  { intros x y z. rewrite apply_fn_rfc, Hf.
    destruct (i / 16)%nat as [|[|[|[|]]]]; [done|done|done|done|lia]. }
  assert (Hm : (S i mod 4 = (i mod 4 + 1) mod 4)%nat)
    by (rewrite Nat.Div0.add_mod_idemp_l; f_equal; lia).
  pose proof (Nat.mod_upper_bound i 4 ltac:(lia)).
  unfold view, rfc_step, rfc_operation, order. rewrite Hm.
  destruct (i mod 4)%nat as [|[|[|[|]]]] eqn:E; [| | | |lia];
    cbn -[rotate_left wrap SET nth rfc_fn apply_fn rfc_word rfc_shift rfc_table words_of Nat.div];
    rewrite Hfn, SET_word, rotate_spec by (done || apply wrap_range; lia);
    rewrite (Z.add_comm (rotate_left _ _)), !Z.add_assoc; done.
Qed.

Lemma transform_block_rfc r block : tuple (transform_block r block) = rfc_block (tuple r) block.
Proof.
  assert (H : forall n i r, (i + n <= 64)%nat ->
    view (i + n) (foldl (exec_step block) r (map rfc_step (seq i n))) =
    foldl (rfc_operation (words_of block)) (view i r) (seq i n)).
  { induction n as [|n IH]; intros i r' Hn; [by rewrite Nat.add_0_r|].
    cbn [seq map foldl]. rewrite <- exec_step_rfc by lia.
    rewrite <- (IH (S i)) by lia. f_equal. lia. }
  specialize (H 64%nat 0%nat r ltac:(lia)). unfold transform_block, rfc_block.
  rewrite transform_steps_rfc. set (X := foldl _ _ (map _ _)) in *. clearbody X.
  change (view 0 r) with (tuple r) in H. change (0 + 64)%nat with 64%nat in H.
  assert (H64 : view 64 X = tuple X) by reflexivity. rewrite H64 in H.
  set (Y := foldl _ _ _) in *. clearbody Y. by subst Y.
Qed.

(** ** Blocks *)

Lemma rfc_blocks_app n m st x y :
  length x = (64 * n)%nat -> rfc_blocks (n + m) st (x ++ y) = rfc_blocks m (rfc_blocks n st x) y.
Proof.
  revert st x. induction n as [|n IH]; intros st x Hx.
  - assert (x = []) as -> by (destruct x; [done|simpl in Hx; lia]). done.
  - cbn [Nat.add rfc_blocks]. rewrite take_app_le, drop_app_le by lia.
    apply IH. rewrite length_drop. lia.
Qed.

Lemma rfc_blocks_take n st x : rfc_blocks n st (take (64 * n) x) = rfc_blocks n st x.
Proof.
  revert st x. induction n as [|n IH]; intros st x; [done|]. cbn [rfc_blocks].
  rewrite take_take, <- (IH _ (drop 64 x)). f_equal; [do 2 f_equal; lia|].
  rewrite skipn_firstn_comm. f_equal. lia.
Qed.

Lemma transform_loop_spec n : forall fuel r ptr,
  (0 < n)%nat -> (n <= fuel)%nat -> (64 * n <= length ptr)%nat -> Z.of_nat (64 * n) < 2 ^ 64 ->
  exists r', transform_loop fuel r ptr (Z.of_nat (64 * n)) = Ok (r', drop (64 * n) ptr) /\
             tuple r' = rfc_blocks n (tuple r) ptr.
Proof.
  induction n as [|n IH]; intros fuel r ptr Hn Hf Hl Hs; [lia|].
  destruct fuel as [|fuel]; [lia|]. cbn [transform_loop]. rewrite decide_True by lia.
  unwrap. destruct (decide (n = 0%nat)) as [->|Hne].
  - eexists. split; [reflexivity|]. cbn [rfc_blocks]. apply transform_block_rfc.
  - rewrite (proj2 (Z.eqb_neq _ _)) by lia.
    replace (Z.of_nat (64 * S n) - 64) with (Z.of_nat (64 * n)) by lia.
    destruct (IH fuel (transform_block r (take 64 ptr)) (drop 64 ptr)) as (r' & -> & Ht);
      [lia|lia|rewrite length_drop; lia|lia|].
    exists r'. rewrite drop_drop. split; [do 3 f_equal; lia|].
    cbn [rfc_blocks]. by rewrite <- transform_block_rfc.
Qed.

Lemma Transform_spec n ctx data :
  (0 < n)%nat -> (64 * n <= length data)%nat -> Z.of_nat (64 * n) < 2 ^ 64 ->
  exists r, Transform ctx data (Z.of_nat (64 * n)) =
              Ok (mk_context (lo ctx) (hi ctx) r (buffer ctx), drop (64 * n) data) /\
            tuple r = rfc_blocks n (tuple (regs ctx)) data.
Proof.
  intros Hn Hl Hs. destruct (transform_loop_spec n (S (length data)) (regs ctx) data)
    as (r & H & Ht); try lia.
  exists r. unfold Transform. rewrite H. done.
Qed.

(** ** The context after the bytes of a message *)

Record ctx_rep (ctx : MD5Context) (msg : str) : Prop := {
  cr_buffer : length (buffer ctx) = 64%nat;
  cr_lo : lo ctx = Z.of_nat (length msg) mod 2 ^ 29;
  cr_hi : hi ctx = (Z.of_nat (length msg) / 2 ^ 29) mod 2 ^ 32;
  cr_regs : tuple (regs ctx) = rfc_blocks (length msg / 64) rfc_init msg;
  cr_tail : take (length msg mod 64) (buffer ctx) = drop (64 * (length msg / 64)) msg
}.

Lemma MD5Init_rep garbage : length (buffer garbage) = 64%nat -> ctx_rep (MD5Init garbage) [].
Proof. intros H. by split. Qed.

Lemma update_counters_spec ctx n m :
  0 <= n -> 0 <= m < 2 ^ 64 -> lo ctx = n mod 2 ^ 29 -> hi ctx = (n / 2 ^ 29) mod 2 ^ 32 ->
  lo (update_counters ctx m) = (n + m) mod 2 ^ 29 /\
  hi (update_counters ctx m) = ((n + m) / 2 ^ 29) mod 2 ^ 32.
Proof.
  intros Hn Hm Hlo Hhi. unfold update_counters. cbn [lo hi].
  change 0x1fffffff with (Z.ones 29). rewrite Z.land_ones by lia.
  assert (H29 : wrap 64 (lo ctx + m) mod 2 ^ 29 = (n + m) mod 2 ^ 29).
  { unfold wrap. change (2 ^ 64) with (2 ^ 29 * 2 ^ 35). rewrite Z.rem_mul_r by lia.
    rewrite Z.mul_comm, Z_mod_plus_full, Z.mod_mod, Hlo, Zplus_mod_idemp_l by lia. done. }
  rewrite H29. pose proof (Z.mod_pos_bound (n + m) (2 ^ 29) ltac:(lia)).
  rewrite (wrap_small 32 ((n + m) mod 2 ^ 29)) by (unfold in_u; lia). split; [done|].
  rewrite Z.shiftr_div_pow2, Hlo, Hhi by lia. unfold wrap.
  rewrite Zplus_mod_idemp_r.
  assert (Hcarry : (n + m) / 2 ^ 29 =
    n / 2 ^ 29 + m / 2 ^ 29 + (if (n + m) mod 2 ^ 29 <? n mod 2 ^ 29 then 1 else 0)).
  { case_bool; Z.to_euclidean_division_equations; lia. }
  rewrite Hcarry. case_bool.
  - rewrite Zplus_mod_idemp_l, <- Z.add_assoc, Zplus_mod_idemp_l. f_equal. lia.
  - rewrite Zplus_mod_idemp_l. f_equal. lia.
Qed.

Lemma fill_buffer_ok buf off x :
  (off + length x <= length buf)%nat ->
  fill_buffer buf (Z.of_nat off) x = Ok (take off buf ++ x ++ drop (off + length x) buf).
Proof.
  intros H. unfold fill_buffer. rewrite decide_True by lia. by rewrite Nat2Z.id.
Qed.

Lemma length_filled (buf x : str) off :
  (off + length x <= length buf)%nat ->
  length (take off buf ++ x ++ drop (off + length x) buf) = length buf.
Proof. intros H. rewrite !length_app, length_take, length_drop. lia. Qed.

Lemma land_63 n : Z.land (Z.of_nat n) 0x3f = Z.of_nat (n mod 64).
Proof.
  change 0x3f with (Z.ones 6). rewrite Z.land_ones by lia. by rewrite Nat2Z.inj_mod.
Qed.

Lemma ldiff_63 n : Z.ldiff (Z.of_nat n) 0x3f = Z.of_nat (64 * (n / 64)).
Proof.
  change 0x3f with (Z.ones 6). rewrite Z.ldiff_ones_r by lia.
  rewrite Z.shiftl_mul_pow2, Z.shiftr_div_pow2 by lia.
  rewrite Nat2Z.inj_mul, Nat2Z.inj_div. change (2 ^ 6) with 64. lia.
Qed.

Lemma update_tail_spec ctx data :
  length (buffer ctx) = 64%nat -> Z.of_nat (length data) < 2 ^ 64 ->
  exists ctx', update_tail ctx data (Z.of_nat (length data)) = Ok ctx' /\
    lo ctx' = lo ctx /\ hi ctx' = hi ctx /\ length (buffer ctx') = 64%nat /\
    tuple (regs ctx') = rfc_blocks (length data / 64) (tuple (regs ctx)) data /\
    take (length data mod 64) (buffer ctx') = drop (64 * (length data / 64)) data.
Proof.
  intros Hb Hs. set (q := (length data / 64)%nat). set (r := (length data mod 64)%nat).
  assert (Hqr : length data = (64 * q + r)%nat) by apply Nat.div_mod_eq.
  assert (Hr : (r < 64)%nat) by (apply Nat.mod_upper_bound; lia).
  assert (Hrest : exists rg, tuple rg = rfc_blocks q (tuple (regs ctx)) data /\
    update_tail ctx data (Z.of_nat (length data)) =
      (buf ← fill_buffer (buffer ctx) 0 (take r (drop (64 * q) data));
       Ok (mk_context (lo ctx) (hi ctx) rg buf))).
  { unfold update_tail. case_bool.
    - rewrite ldiff_63, land_63. fold q r.
      destruct (Transform_spec q ctx data) as (rg & -> & Ht); try lia.
      exists rg. split; [done|]. cbn [mbind outcome_bind buffer]. by rewrite Nat2Z.id.
    - exists (regs ctx). assert (q = 0%nat) as Hq by lia. rewrite Hq in *. split; [done|].
      cbn [mbind outcome_bind]. rewrite Nat2Z.id. rewrite drop_0. do 2 f_equal. f_equal. lia. }
  destruct Hrest as (rg & Ht & ->).
  assert (Hlen : length (take r (drop (64 * q) data)) = r)
    by (rewrite length_take, length_drop; lia).
  change 0 with (Z.of_nat 0). rewrite fill_buffer_ok by lia. cbn [mbind outcome_bind].
  eexists. split; [done|]. cbn [lo hi buffer regs]. split_and!; [done|done| |done|].
  - rewrite length_filled; lia.
  - rewrite take_0, app_nil_l, take_app_length' by lia. apply take_ge. rewrite length_drop. lia.
Qed.

Lemma div_mod_blocks m k : ((64 * k + m) / 64 = k + m / 64 /\ (64 * k + m) mod 64 = m mod 64)%nat.
Proof.
  rewrite (Nat.mul_comm 64), Nat.add_comm, Nat.div_add, Nat.Div0.mod_add by lia. lia.
Qed.

(** Putting whole blocks and what follows them together. *)
Lemma rep_extend ctx ctx' msg whole data k :
  lo ctx' = Z.of_nat (length (msg ++ data)) mod 2 ^ 29 ->
  hi ctx' = (Z.of_nat (length (msg ++ data)) / 2 ^ 29) mod 2 ^ 32 ->
  msg ++ data = whole ++ ctx -> length whole = (64 * k)%nat ->
  length (buffer ctx') = 64%nat ->
  tuple (regs ctx') = rfc_blocks (length ctx / 64) (rfc_blocks k rfc_init whole) ctx ->
  take (length ctx mod 64) (buffer ctx') = drop (64 * (length ctx / 64)) ctx ->
  ctx_rep ctx' (msg ++ data).
Proof.
  intros Hlo Hhi Heq Hk Hb Ht Htl. rewrite Heq in *.
  destruct (div_mod_blocks (length ctx) k) as [Hd Hm].
  split; [done|done|done| |]; rewrite length_app, Hk, ?Hd, ?Hm.
  - rewrite rfc_blocks_app by done. done.
  - rewrite drop_app_ge by lia. rewrite Htl. f_equal. lia.
Qed.

Lemma MD5Update_rep ctx msg data :
  ctx_rep ctx msg -> Z.of_nat (length data) < 2 ^ 64 ->
  exists ctx', MD5Update ctx data = Ok ctx' /\ ctx_rep ctx' (msg ++ data).
Proof.
  intros [Hb Hlo Hhi Ht Htl] Hs.
  set (q := (length msg / 64)%nat) in *. set (r := (length msg mod 64)%nat) in *.
  assert (Hqr : length msg = (64 * q + r)%nat) by apply Nat.div_mod_eq.
  assert (Hr : (r < 64)%nat) by (apply Nat.mod_upper_bound; lia).
  destruct (update_counters_spec ctx (Z.of_nat (length msg)) (Z.of_nat (length data)))
    as [Hlo' Hhi']; try done; try lia.
  rewrite <- Nat2Z.inj_add, <- length_app in Hlo', Hhi'.
  unfold MD5Update. set (ctx1 := update_counters ctx _) in *.
  assert (Hb1 : buffer ctx1 = buffer ctx) by done. assert (Hr1 : regs ctx1 = regs ctx) by done.
  assert (Hused : Z.land (lo ctx) 0x3f = Z.of_nat r).
  { rewrite Hlo. change 0x3f with (Z.ones 6). rewrite Z.land_ones by lia. unfold r.
    rewrite Nat2Z.inj_mod. change (2 ^ 29) with (2 ^ 6 * 2 ^ 23). rewrite Z.rem_mul_r by lia.
    by rewrite Z.mul_comm, Z_mod_plus_full, Z.mod_mod by lia. }
  assert (Hsplit : msg = take (64 * q) msg ++ drop (64 * q) msg) by (by rewrite take_drop).
  assert (Hwl : length (take (64 * q) msg) = (64 * q)%nat) by (rewrite length_take; lia).
  assert (Htail : length (drop (64 * q) msg) = r) by (rewrite length_drop; lia).
  assert (Hwt : rfc_blocks q rfc_init (take (64 * q) msg) = rfc_blocks q rfc_init msg)
    by apply rfc_blocks_take.
  rewrite Hused. destruct (Z.eqb_spec (Z.of_nat r) 0) as [Hr0|Hr0]; cbn [negb].
  - destruct (update_tail_spec ctx1 data) as (ctx' & -> & H1 & H2 & H3 & H4 & H5); [done|done|].
    exists ctx'. split; [done|].
    assert (Hnil : drop (64 * q) msg = []) by (apply length_zero_iff_nil; lia).
    apply (rep_extend data ctx' msg (take (64 * q) msg) data q); try done; try congruence.
    rewrite Hsplit at 1. by rewrite Hnil, app_nil_r.
  - unwrap. destruct (Z.ltb_spec (Z.of_nat (length data)) (64 - Z.of_nat r)).
    + rewrite Hb1, fill_buffer_ok by lia. cbn [mbind outcome_bind]. eexists. split; [done|].
      apply (rep_extend (drop (64 * q) msg ++ data) _ msg (take (64 * q) msg) data q);
        cbn [with_buffer lo hi buffer regs]; try done.
      * by rewrite app_assoc, take_drop.
      * rewrite length_filled; lia.
      * rewrite length_app, Htail, Nat.div_small by lia. by rewrite Hr1, Ht, Hwt.
      * rewrite length_app, Htail, Nat.mod_small, Nat.div_small by lia.
        rewrite app_assoc, take_app_length' by (rewrite length_app, length_take; lia).
        by rewrite Htl.
    + rewrite Hb1. replace (Z.to_nat (64 - Z.of_nat r)) with (64 - r)%nat by lia.
      assert (Hfl : length (take (64 - r) data) = (64 - r)%nat) by (rewrite length_take; lia).
      rewrite fill_buffer_ok by lia. cbn [mbind outcome_bind].
      set (blk := take r (buffer ctx) ++ take (64 - r) data ++ _).
      assert (Hblk : blk = drop (64 * q) msg ++ take (64 - r) data).
      { unfold blk. rewrite Htl, (drop_ge (buffer ctx)) by lia. by rewrite app_nil_r. }
      assert (Hbl : length blk = 64%nat) by (rewrite Hblk, length_app; lia).
      destruct (Transform_spec 1 (with_buffer ctx1 blk) blk) as (rg & HT & Hrg); [lia|rewrite Hbl; lia|lia|].
      change (Z.of_nat (64 * 1)) with 64 in HT. cbn [with_buffer lo hi regs buffer] in *. rewrite HT.
      cbn [mbind outcome_bind].
      replace (Z.of_nat (length data) - (64 - Z.of_nat r))
        with (Z.of_nat (length (drop (64 - r) data))) by (rewrite length_drop; lia).
      destruct (update_tail_spec (mk_context (lo ctx1) (hi ctx1) rg blk) (drop (64 - r) data))
        as (ctx' & -> & H1 & H2 & H3 & H4 & H5); [done|rewrite length_drop; lia|].
      exists ctx'. split; [done|].
      apply (rep_extend (drop (64 - r) data) ctx' msg (take (64 * q) msg ++ blk) data (q + 1));
        [by rewrite H1|by rewrite H2| | |exact H3| |exact H5].
      * rewrite Hblk, <- !app_assoc, take_drop, app_assoc. by rewrite take_drop.
      * rewrite length_app. lia.
      * rewrite H4. cbn [regs]. rewrite Hrg, Hr1, Ht.
        by rewrite (rfc_blocks_app q 1), Hwt by exact Hwl.
Qed.

(** ** The end of the message *)

Lemma le_bytes_mod k z : le_bytes k (z mod 256 ^ Z.of_nat k) = le_bytes k z.
Proof. rewrite <- le_value_bytes. apply le_bytes_of_value, length_le_bytes. Qed.

Lemma tuck_word_le w : tuck_word w = le_bytes 4 w.
Proof.
  unfold tuck_word, TuckInto, wrap. rewrite !Z.shiftr_div_pow2 by lia. cbn [le_bytes].
  rewrite !Z.div_div by lia. reflexivity.
Qed.

Lemma length_tuck w : length (tuck_word w) = 4%nat.
Proof. done. Qed.

(** The counters hold the length in bits. *)
Lemma counters_length n :
  0 <= n ->
  tuck_word (wrap 32 (Z.shiftl (n mod 2 ^ 29) 3)) ++ tuck_word ((n / 2 ^ 29) mod 2 ^ 32) =
  le_bytes 8 ((8 * n) mod 2 ^ 64).
Proof.
  intros Hn. change 8%nat with (4 + 4)%nat. rewrite le_bytes_add, !tuck_word_le.
  change (256 ^ Z.of_nat 4) with (2 ^ 32). rewrite Z.shiftl_mul_pow2 by lia.
  assert (H1 : (8 * n) mod 2 ^ 64 = 8 * (n mod 2 ^ 29) + 2 ^ 32 * ((n / 2 ^ 29) mod 2 ^ 32)).
  { change (2 ^ 64) with (8 * 2 ^ 61). rewrite Z.mul_mod_distr_l by lia.
    change (2 ^ 61) with (2 ^ 29 * 2 ^ 32). rewrite Z.rem_mul_r by lia. lia. }
  pose proof (Z.mod_pos_bound n (2 ^ 29) ltac:(lia)). f_equal.
  - rewrite H1. rewrite <- (le_bytes_mod 4 (_ + _)). change (256 ^ Z.of_nat 4) with (2 ^ 32).
    rewrite (Z.mul_comm (2 ^ 32)), Z_mod_plus_full. f_equal. unfold wrap. f_equal. lia.
  - rewrite H1. f_equal. symmetry. rewrite (Z.mul_comm (2 ^ 32)), Z.div_add, Z.div_small by lia. lia.
Qed.

(** Transforming one full buffer, on which the digest then depends. *)
Lemma transform_buffer ctx :
  length (buffer ctx) = 64%nat ->
  exists r, Transform ctx (buffer ctx) 64 = Ok (mk_context (lo ctx) (hi ctx) r (buffer ctx), []) /\
            tuple r = rfc_block (tuple (regs ctx)) (buffer ctx).
Proof.
  intros Hb. destruct (Transform_spec 1 ctx (buffer ctx)) as (r & H & Ht); [lia|rewrite Hb; lia|lia|].
  change (Z.of_nat (64 * 1)) with 64 in H. exists r.
  rewrite H, drop_ge by (rewrite Hb; lia). split; [done|]. rewrite Ht. cbn [rfc_blocks].
  by rewrite take_ge by lia.
Qed.

Definition zeros (n : nat) : str := replicate n (chr 0).

Lemma length_zeros n : length (zeros n) = n.
Proof. apply length_replicate. Qed.

Lemma rfc_pad_split msg :
  rfc_pad msg = msg ++ [chr 0x80] ++
    zeros (if decide (length msg mod 64 <= 55)%nat then 55 - length msg mod 64 else 119 - length msg mod 64) ++
    le_bytes 8 ((8 * Z.of_nat (length msg)) mod 2 ^ 64).
Proof.
  unfold rfc_pad, zeros. do 3 f_equal. f_equal.
  pose proof (Nat.mod_upper_bound (length msg) 64 ltac:(lia)) as Hb.
  assert (Hm : Z.of_nat (length msg mod 64) = Z.of_nat (length msg) mod 64) by apply Nat2Z.inj_mod.
  rewrite Zminus_mod, <- Hm. change (55 mod 64) with 55. case_decide.
  - rewrite Z.mod_small by lia. lia.
  - rewrite <- (Z.mod_add _ 1), Z.mod_small by lia. lia.
Qed.

(** The blocks that end the message: what is left of it and the padding. *)
Lemma rfc_blocks_pad msg P :
  let q := (length msg / 64)%nat in
  length (drop (64 * q) msg ++ P) = 64%nat \/ length (drop (64 * q) msg ++ P) = 128%nat ->
  rfc_blocks (length (msg ++ P) / 64) rfc_init (msg ++ P) =
  rfc_blocks (length (drop (64 * q) msg ++ P) / 64) (rfc_blocks q rfc_init msg) (drop (64 * q) msg ++ P).
Proof.
  intros q _. assert (Hq : (64 * q <= length msg)%nat) by (apply Nat.Div0.mul_div_le).
  assert (Hw : length (take (64 * q) msg) = (64 * q)%nat) by (rewrite length_take; lia).
  assert (Heq : msg ++ P = take (64 * q) msg ++ (drop (64 * q) msg ++ P))
    by (by rewrite app_assoc, take_drop).
  rewrite Heq, length_app, Hw. destruct (div_mod_blocks (length (drop (64 * q) msg ++ P)) q) as [-> _].
  by rewrite rfc_blocks_app, rfc_blocks_take by done.
Qed.

Definition digest_of (st : Z * Z * Z * Z) : str :=
  let '(A, B, C, D) := st in le_bytes 4 A ++ le_bytes 4 B ++ le_bytes 4 C ++ le_bytes 4 D.

Lemma digest_of_regs r :
  tuck_word (ra r) ++ tuck_word (rb r) ++ tuck_word (rc r) ++ tuck_word (rd r) = digest_of (tuple r).
Proof. by rewrite !tuck_word_le. Qed.

Lemma fill_app (x y z w : str) :
  length y = length w ->
  fill_buffer (x ++ y ++ z) (Z.of_nat (length x)) w = Ok (x ++ w ++ z).
Proof.
  intros Hl. rewrite fill_buffer_ok by (rewrite !length_app; lia).
  rewrite take_app_length, drop_app, drop_ge by lia. cbn [app].
  replace (length x + length w - length x)%nat with (length y) by lia.
  by rewrite drop_app_length.
Qed.

(** The last block: zeros behind [x], then the two counters. *)
Lemma final_block ctx x n :
  length (buffer ctx) = 64%nat -> take (length x) (buffer ctx) = x -> (length x + n = 56)%nat ->
  exists r,
    (buf ← fill_buffer (buffer ctx) (Z.of_nat (length x)) (zeros n);
     let lo' := wrap 32 (Z.shiftl (lo ctx) 3) in
     let context := mk_context lo' (hi ctx) (regs ctx) buf in
     buf ← fill_buffer (buffer context) 56 (tuck_word (lo context) ++ tuck_word (hi context));
     '(context, _) ← Transform (with_buffer context buf) buf 64;
     let r := regs context in
     Ok (tuck_word (ra r) ++ tuck_word (rb r) ++ tuck_word (rc r) ++ tuck_word (rd r), cleared)) =
    Ok (digest_of (tuple r), cleared) /\
    tuple r = rfc_block (tuple (regs ctx))
                (x ++ zeros n ++ tuck_word (wrap 32 (Z.shiftl (lo ctx) 3)) ++ tuck_word (hi ctx)).
Proof.
  intros Hb Hx Hn.
  assert (Hz : length (zeros n) = n) by apply length_replicate.
  rewrite fill_buffer_ok by (rewrite Hb, Hz; lia). cbn [mbind outcome_bind buffer lo hi].
  rewrite Hx. set (y := drop _ _).
  assert (Hy : length y = 8%nat) by (unfold y; rewrite length_drop, Hb, Hz; lia).
  set (w := tuck_word _ ++ tuck_word _).
  replace 56 with (Z.of_nat (length (x ++ zeros n))) by (rewrite length_app, Hz; lia).
  replace (x ++ zeros n ++ y) with ((x ++ zeros n) ++ y ++ []) by (by rewrite app_nil_r, <- app_assoc).
  rewrite fill_app by (by rewrite Hy). cbn [mbind outcome_bind].
  destruct (transform_buffer (with_buffer (mk_context (wrap 32 (Z.shiftl (lo ctx) 3)) (hi ctx) (regs ctx)
              ((x ++ zeros n) ++ y ++ [])) ((x ++ zeros n) ++ w ++ []))) as (r & HT & Ht).
  { cbn [with_buffer buffer]. rewrite !length_app, Hz. change (length w) with 8%nat. simpl. lia. }
  cbn [with_buffer buffer lo hi regs] in *. rewrite HT. cbn [mbind outcome_bind regs].
  exists r. rewrite digest_of_regs. split; [done|]. rewrite Ht, app_nil_r. by rewrite <- app_assoc.
Qed.

Lemma MD5Final_spec ctx msg : ctx_rep ctx msg -> MD5Final ctx = Ok (rfc_md5 msg, cleared).
Proof.
  intros [Hb Hlo Hhi Ht Htl].
  set (q := (length msg / 64)%nat) in *. set (r := (length msg mod 64)%nat) in *.
  assert (Hr : (r < 64)%nat) by (apply Nat.mod_upper_bound; lia).
  assert (Hqr : length msg = (64 * q + r)%nat) by apply Nat.div_mod_eq.
  set (tail := drop (64 * q) msg) in *.
  assert (Htail : length tail = r) by (unfold tail; rewrite length_drop; lia).
  assert (Hused : Z.land (lo ctx) 0x3f = Z.of_nat r).
  { rewrite Hlo. change 0x3f with (Z.ones 6). rewrite Z.land_ones by lia. unfold r.
    rewrite Nat2Z.inj_mod. change (2 ^ 29) with (2 ^ 6 * 2 ^ 23). rewrite Z.rem_mul_r by lia.
    by rewrite Z.mul_comm, Z_mod_plus_full, Z.mod_mod by lia. }
  pose proof (counters_length (Z.of_nat (length msg)) ltac:(lia)) as Hcnt.
  rewrite <- Hlo, <- Hhi in Hcnt.
  unfold MD5Final. rewrite Hused. set (one := [chr 0x80]).
  rewrite fill_buffer_ok by (rewrite Hb; simpl; lia). cbn [mbind outcome_bind]. rewrite Htl.
  set (z := drop _ (buffer ctx)).
  assert (Hz : length z = (63 - r)%nat) by (unfold z; rewrite length_drop, Hb; simpl; lia).
  assert (Hx : length (tail ++ one) = (r + 1)%nat) by (rewrite length_app, Htail; done).
  replace (tail ++ one ++ z) with ((tail ++ one) ++ z) by (by rewrite <- app_assoc).
  replace (Z.of_nat r + 1) with (Z.of_nat (length (tail ++ one))) by lia.
  unfold rfc_md5. fold (digest_of (rfc_blocks (length (rfc_pad msg) / 64) rfc_init (rfc_pad msg))).
  rewrite rfc_pad_split. fold r one.
  destruct (Z.ltb_spec (64 - Z.of_nat (length (tail ++ one))) 8).
  - replace (Z.to_nat (64 - Z.of_nat (length (tail ++ one)))) with (63 - r)%nat by lia.
    rewrite decide_False by lia. cbn [with_buffer buffer].
    replace ((tail ++ one) ++ z) with ((tail ++ one) ++ z ++ []) by (by rewrite app_nil_r).
    rewrite fill_app by (by rewrite Hz, length_replicate). cbn [mbind outcome_bind]. rewrite !app_nil_r.
    fold (zeros (63 - r)). set (blk := (tail ++ one) ++ zeros (63 - r)).
    assert (Hblk : length blk = 64%nat) by (unfold blk; rewrite length_app, length_zeros; lia).
    destruct (transform_buffer (with_buffer (with_buffer ctx ((tail ++ one) ++ z)) blk))
      as (rg & HT & Hrg); [done|].
    cbn [with_buffer buffer lo hi regs] in *. rewrite HT. cbn [mbind outcome_bind].
    destruct (final_block (mk_context (lo ctx) (hi ctx) rg blk) [] 56) as (rg' & HF & Hrg');
      [exact Hblk|reflexivity|reflexivity|].
    cbn [buffer lo hi regs length] in HF, Hrg'. change (Z.of_nat 0) with 0 in HF.
    change (Z.to_nat (64 - 8)) with 56%nat. fold (zeros 56). cbn [buffer lo hi regs]. rewrite HF.
    do 3 f_equal. rewrite Hrg', Hrg, Ht, Hcnt, app_nil_l.
    rewrite rfc_blocks_pad; fold q tail.
    + set (L := le_bytes 8 _). assert (HL : length L = 8%nat) by apply length_le_bytes.
      assert (Hcat : tail ++ one ++ zeros (119 - r) ++ L = blk ++ (zeros 56 ++ L)).
      { unfold blk, zeros. replace (119 - r)%nat with (63 - r + 56)%nat by lia.
        by rewrite replicate_add, <- !app_assoc. }
      rewrite Hcat, !length_app, Hblk, length_zeros, HL. change ((64 + (56 + 8)) / 64)%nat with (1 + 1)%nat.
      rewrite (rfc_blocks_app 1 1) by exact Hblk. cbn [rfc_blocks].
      rewrite (take_ge blk) by lia. rewrite take_ge; [reflexivity|].
      rewrite length_app, length_zeros. lia.
    + right. rewrite !length_app, length_zeros, length_le_bytes, Htail. simpl. lia.
  - cbn [mbind outcome_bind]. rewrite decide_True by lia.
    replace (Z.to_nat (64 - Z.of_nat (length (tail ++ one)) - 8)) with (55 - r)%nat by lia.
    destruct (final_block (with_buffer ctx ((tail ++ one) ++ z)) (tail ++ one) (55 - r))
      as (rg & HF & Hrg).
    { cbn [with_buffer buffer]. rewrite length_app. lia. }
    { cbn [with_buffer buffer]. by rewrite take_app_length. }
    { lia. }
    cbn [with_buffer buffer lo hi regs] in HF, Hrg. fold (zeros (55 - r)).
    cbn [with_buffer buffer lo hi regs]. rewrite HF.
    do 3 f_equal. rewrite Hrg, Ht, Hcnt. rewrite rfc_blocks_pad; fold q tail.
    + set (L := le_bytes 8 _). assert (HL : length L = 8%nat) by apply length_le_bytes.
      assert (Hlen : length (tail ++ one ++ zeros (55 - r) ++ L) = 64%nat)
        by (rewrite !length_app, length_zeros, Htail, HL; simpl; lia).
      rewrite Hlen. change (64 / 64)%nat with 1%nat. cbn [rfc_blocks].
      rewrite take_ge by lia. by rewrite <- app_assoc.
    + left. rewrite !length_app, length_zeros, length_le_bytes, Htail. simpl. lia.
Qed.

(** ** Properties *)

Fixpoint update_all (ctx : MD5Context) (chunks : list str) : outcome MD5Context :=
  match chunks with
  | [] => Ok ctx
  | chunk :: chunks => ctx ← MD5Update ctx chunk; update_all ctx chunks
  end.

Lemma update_all_rep chunks : forall ctx msg,
  ctx_rep ctx msg -> Forall (fun x => Z.of_nat (length x) < 2 ^ 64) chunks ->
  exists ctx', update_all ctx chunks = Ok ctx' /\ ctx_rep ctx' (msg ++ concat chunks).
Proof.
  induction chunks as [|x chunks IH]; intros ctx msg Hc Hf.
  - exists ctx. by rewrite app_nil_r.
  - apply Forall_cons in Hf as [Hx Hf]. cbn [update_all concat].
    destruct (MD5Update_rep ctx msg x Hc Hx) as (ctx1 & -> & H1). cbn [mbind outcome_bind].
    rewrite app_assoc. by apply IH.
Qed.

(** C7: initialising any context, updating it with any chunks and finishing gives the
    RFC 1321 digest of their concatenation, and clears the context: how the message
    is cut does not matter, and the 61-bit byte count wraps as the standard's
    64-bit bit count does. *)
Theorem md5_incremental garbage chunks :
  length (buffer garbage) = 64%nat -> Forall (fun x => Z.of_nat (length x) < 2 ^ 64) chunks ->
  (ctx ← update_all (MD5Init garbage) chunks; MD5Final ctx) = Ok (rfc_md5 (concat chunks), cleared).
Proof.
  intros Hg Hc. destruct (update_all_rep chunks _ [] (MD5Init_rep garbage Hg) Hc) as (ctx & -> & Hr).
  cbn [mbind outcome_bind]. by apply MD5Final_spec.
Qed.

Lemma md5_incremental_witness :
  (ctx ← update_all (MD5Init cleared) [lit "message "; []; lit "digest"]; MD5Final ctx) =
  Ok (rfc_md5 (lit "message digest"), cleared).
Proof.
  apply (md5_incremental cleared [lit "message "; []; lit "digest"]); [reflexivity|].
  repeat constructor.
Defined.
