(* ===== verification/Uuid.v ===== *)
(** * UUIDs

    Models uuid/uuid/uuid.{h,cpp} and endian_utils.h: the five makers, the clock
    sequence, parsing and printing.  The wall clock, the random generators and the
    node fetcher are arguments. *)

From S2P Require Import Prelude Endian Text Md5.

(** ** endian_utils.h *)

(** Linux converts with [htobe*]; the Windows branch, for little-endian hosts, with
    [_byteswap_*]. *)
Definition HostToNetwork (windows : bool) (host : byte_order) (k : nat) (n : Z) : Z :=
  if windows then bswap k n else hton host k n.
Definition NetworkToHost (windows : bool) (host : byte_order) (k : nat) (n : Z) : Z :=
  if windows then bswap k n else hton host k n.

(** ** The clock sequence *)

(** 100ns intervals between 1582/10/15 and 1970/01/01. *)
Definition k_epoch_diff : Z := 122192928000000000.

(** [since_epoch] is the system clock's [time_since_epoch], in 100ns intervals. *)
Definition get_timestamp_since_epoch (since_epoch : Z) : Z := wrap 64 (k_epoch_diff + since_epoch).

Record clock_sequence := mk_clock_sequence { last_time_ : Z; seq_ : Z }.

(** [random] is what the random device returns. *)
Definition make_clock_sequence (random : Z) : clock_sequence := mk_clock_sequence 0 (wrap 16 random).

(** The body under the lock, on the timestamp [now] read before it. *)
Definition read (clock : clock_sequence) (now : Z) : (Z * Z) * clock_sequence :=
  let seq := if now <=? last_time_ clock then wrap 16 (seq_ clock + 1) else seq_ clock in
  ((now, seq), mk_clock_sequence now seq).

(** ** The node *)

Definition node_id := str.

(** [node_id_reader]: the adapter's address, or 6 random bytes with the multicast
    bit set. *)
Definition make_node_id (host : byte_order) (adapter : option node_id) (random : Z) : node_id :=
  match adapter with
  | Some id => id
  | None =>
      match take 6 (host_store host 8 random) with
      | c :: rest => chr (Z.lor (uchar c) 0x01) :: rest
      | [] => []
      end
  end.

(** ** uuid *)

Inductive version := v1 | v2 | v3 | v4 | v5.
Definition version_number (v : version) : Z :=
  match v with v1 => 1 | v2 => 2 | v3 => 3 | v4 => 4 | v5 => 5 end.

Inductive local_domain := person | group | org.
Definition domain_number (dm : local_domain) : Z := match dm with person => 0 | group => 1 | org => 2 end.

Record uuid := mk_uuid { data0 : Z; data1 : Z }.

#[global] Instance uuid_eq_dec : EqDecision uuid.
Proof. solve_decision. Defined.

Definition set_version (u : uuid) (ver : version) : uuid :=
  let ver_bits := wrap 64 (Z.shiftl (version_number ver) 12) in
  mk_uuid (Z.lor (Z.land (data0 u) 0xffffffffffff0fff) ver_bits) (data1 u).

Definition set_variant (u : uuid) : uuid :=
  mk_uuid (data0 u) (Z.lor (Z.land (data1 u) 0x3fffffffffffffff) 0x8000000000000000).

Section Host.
Context (windows : bool) (host : byte_order).

(** [make_v1], on the pair [read] returned and the fetched node: the node's bytes are
    stored in reverse at the lowest addresses of [data_[1]]. *)
Definition make_v1_from (time seq : Z) (id : node_id) : uuid :=
  let d0 := 0 in
  let d0 := Z.lor d0 (wrap 64 (Z.shiftl time 32)) in
  let d0 := Z.lor d0 (Z.shiftr (Z.land time 0x0000ffff00000000) 16) in
  let d0 := Z.lor d0 (Z.shiftr time 48) in
  let d1 := 0 in
  let d1 := Z.lor d1 (wrap 64 (Z.shiftl (Z.land seq 0xff00) 48)) in
  let d1 := Z.lor d1 (wrap 64 (Z.shiftl (Z.land seq 0xff) 48)) in
  let bytes := host_store host 8 d1 in
  let d1 := host_load host (rev id ++ drop (length id) bytes) in
  let u := set_variant (mk_uuid d0 d1) in
  set_version u v1.

Definition make_v1 (clock : clock_sequence) (now : Z) (id : node_id) : uuid * clock_sequence :=
  let '((time, seq), clock) := read clock now in
  (make_v1_from time seq id, clock).

Definition make_v2 (clock : clock_sequence) (now : Z) (node : node_id) (domain : local_domain) (id : Z)
    : uuid * clock_sequence :=
  let '(u, clock) := make_v1 clock now node in
  let d1 := Z.land (data1 u) 0xff00ffffffffffff in
  let d1 := Z.lor d1 (wrap 64 (Z.shiftl (domain_number domain) 48)) in
  let d0 := Z.land (data0 u) 0x00000000ffffffff in
  let d0 := Z.lor d0 (wrap 64 (Z.shiftl id 32)) in
  (set_version (mk_uuid d0 d1) v2, clock).

(** [garbage] is the uninitialised MD5 context on the stack. *)
Definition make_v3 (garbage : MD5Context) (ns : uuid) (name : str) : outcome uuid :=
  let part1 := HostToNetwork windows host 8 (data0 ns) in
  let part2 := HostToNetwork windows host 8 (data1 ns) in
  let ctx := MD5Init garbage in
  ctx ← MD5Update ctx (host_store host 8 part1);
  ctx ← MD5Update ctx (host_store host 8 part2);
  ctx ← MD5Update ctx name;
  '(digest, _) ← MD5Final ctx;
  let d0 := host_load host (take 8 digest) in
  let d1 := host_load host (drop 8 digest) in
  let d0 := NetworkToHost windows host 8 d0 in
  let d1 := NetworkToHost windows host 8 d1 in
  Ok (set_version (set_variant (mk_uuid d0 d1)) v3).
End Host.

(** [generator] steps a random generator with state [G]. *)
Definition make_v4 {G} (generator : G -> Z * G) (g : G) : uuid * G :=
  let '(r0, g) := generator g in
  let '(r1, g) := generator g in
  (set_version (set_variant (mk_uuid r0 r1)) v4, g).

(** [make_from]'s loop; [rest] is [src] from [start]. *)
Fixpoint parts_loop (fuel : nat) (rest : str) : outcome (list Z) :=
  match fuel with
  | O => OutOfFuel
  | S fuel =>
      match find_char (chr 45) rest with
      | None => part ← stoull_hex rest; Ok [part]
      | Some pos =>
          part ← stoull_hex (take pos rest);
          parts ← parts_loop fuel (drop (S pos) rest);
          Ok (part :: parts)
      end
  end.

(** Without the assertion, too few parts are accessed out of range. *)
Definition make_from (ndebug : bool) (src : str) : outcome uuid :=
  parts ← parts_loop (S (length src)) src;
  (if ndebug || bool_decide (length parts = 5%nat) then Ok tt else Undef);;
  p0 ← the (parts !! 0%nat); p1 ← the (parts !! 1%nat); p2 ← the (parts !! 2%nat);
  p3 ← the (parts !! 3%nat); p4 ← the (parts !! 4%nat);
  Ok (mk_uuid (Z.lor (Z.lor (Z.lor 0 (wrap 64 (Z.shiftl p0 32))) (wrap 64 (Z.shiftl p1 16))) p2)
              (Z.lor (Z.lor 0 (wrap 64 (Z.shiftl p3 48))) p4)).

Definition k_canonical_len : nat := 36.

(** [snprintf] writes at most 36 characters into the zeroed string. *)
Definition string_ (u : uuid) : str :=
  let printed :=
    print_hex 8 (Z.shiftr (data0 u) 32) ++ [chr 45] ++
    print_hex 4 (Z.land (Z.shiftr (data0 u) 16) 0xffff) ++ [chr 45] ++
    print_hex 4 (Z.land (data0 u) 0xffff) ++ [chr 45] ++
    print_hex 4 (Z.shiftr (data1 u) 48) ++ [chr 45] ++
    print_hex 12 (Z.land (data1 u) 0xffffffffffff) in
  take k_canonical_len (take k_canonical_len printed ++ replicate (k_canonical_len + 1) (chr 0)).

(** The DNS name space of RFC 4122 and a name-based identifier in it. *)
Definition ns_dns : uuid := mk_uuid 0x6ba7b8109dad11d1 0x80b400c04fd430c8.
Example test_v3 :
  (u ← make_v3 false little_endian cleared ns_dns (lit "www.widgets.com"); Ok (string_ u)) =
  Ok (lit "3d813cbb-47fb-32ba-91df-831e1593ac29").
Proof. vm_compute. reflexivity. Qed.
Example test_string : string_ ns_dns = lit "6ba7b810-9dad-11d1-80b4-00c04fd430c8".
Proof. vm_compute. reflexivity. Qed.
Example test_from :
  make_from false (lit "6BA7B810-9dad-11d1-80b4-00c04fd430c8") = Ok ns_dns.
Proof. vm_compute. reflexivity. Qed.

(** ** The layout *)

(** Two 64-bit halves. *)
Definition uuid_ok (u : uuid) : Prop := u64 (data0 u) /\ u64 (data1 u).

Lemma set_version_data u ver :
  u64 (data0 u) ->
  data0 (set_version u ver) =
    data0 u / 2 ^ 16 * 2 ^ 16 + version_number ver * 2 ^ 12 + data0 u mod 2 ^ 12.
Proof.
  unfold in_u. intros Hu. unfold set_version. cbn [data0].
  change 0xffffffffffff0fff with (Z.lor (Z.shiftl (Z.ones 48) 16) (Z.ones 12)).
  rewrite Z.land_lor_distr_r, land_mask, Z.land_ones by lia.
  rewrite (Z.mod_small (data0 u / 2 ^ 16)) by (Z.to_euclidean_division_equations; lia).
  replace (wrap 64 (Z.shiftl (version_number ver) 12)) with (version_number ver * 2 ^ 12)
    by (destruct ver; reflexivity).
  rewrite <- Z.lor_assoc, (Z.lor_comm _ (version_number ver * _)).
  pose proof (Z.mod_pos_bound (data0 u) (2 ^ 12) ltac:(lia)).
  assert (0 <= version_number ver < 2 ^ 4) by (destruct ver; simpl; lia).
  rewrite (lor_add 12), (lor_add 16) by lia. lia.
Qed.

Lemma set_variant_data u :
  u64 (data1 u) -> data1 (set_variant u) = 2 ^ 63 + data1 u mod 2 ^ 62.
Proof.
  intros Hu. unfold set_variant. cbn [data1].
  change 0x3fffffffffffffff with (Z.ones 62). rewrite Z.land_ones by lia.
  pose proof (Z.mod_pos_bound (data1 u) (2 ^ 62) ltac:(lia)).
  rewrite Z.lor_comm. change 0x8000000000000000 with (1 * 2 ^ 63). rewrite (lor_add 63) by lia. lia.
Qed.

(** The version and variant fields. *)
Definition version_field (u : uuid) : Z := data0 u / 2 ^ 12 mod 2 ^ 4.
Definition variant_field (u : uuid) : Z := data1 u / 2 ^ 62.

Lemma set_version_field u ver :
  u64 (data0 u) -> version_field (set_version u ver) = version_number ver /\
                   u64 (data0 (set_version u ver)).
Proof.
  intros Hu. unfold version_field. rewrite set_version_data by done. unfold in_u in *.
  assert (0 <= version_number ver < 16) by (destruct ver; simpl; lia).
  Z.to_euclidean_division_equations; lia.
Qed.

Lemma set_variant_field u :
  u64 (data1 u) -> variant_field (set_variant u) = 2 /\ u64 (data1 (set_variant u)).
Proof.
  intros Hu. unfold variant_field. rewrite set_variant_data by done. unfold in_u in *.
  Z.to_euclidean_division_equations; lia.
Qed.

Lemma make_v1_d0 time :
  u64 time ->
  Z.lor (Z.lor (Z.lor 0 (wrap 64 (Z.shiftl time 32))) (Z.shiftr (Z.land time 0x0000ffff00000000) 16))
        (Z.shiftr time 48) =
  time mod 2 ^ 32 * 2 ^ 32 + (time / 2 ^ 32) mod 2 ^ 16 * 2 ^ 16 + time / 2 ^ 48.
Proof.
  unfold in_u. intros Ht. rewrite Z.lor_0_l.
  change 0x0000ffff00000000 with (Z.shiftl (Z.ones 16) 32). rewrite land_mask by lia.
  rewrite !Z.shiftr_div_pow2, Z.shiftl_mul_pow2 by lia.
  assert (Hw : wrap 64 (time * 2 ^ 32) = time mod 2 ^ 32 * 2 ^ 32).
  { unfold wrap. change (2 ^ 64) with (2 ^ 32 * 2 ^ 32). by rewrite Z.mul_mod_distr_r by lia. }
  rewrite Hw. set (m := (time / 2 ^ 32) mod 2 ^ 16).
  replace (m * 2 ^ 32 / 2 ^ 16) with (m * 2 ^ 16)
    by (change (2 ^ 32) with (2 ^ 16 * 2 ^ 16); rewrite Z.mul_assoc, Z.div_mul by lia; lia).
  pose proof (Z.mod_pos_bound (time / 2 ^ 32) (2 ^ 16) ltac:(lia)).
  assert (0 <= time / 2 ^ 48 < 2 ^ 16) by (Z.to_euclidean_division_equations; lia).
  rewrite (lor_add 32) by lia.
  replace (time mod 2 ^ 32 * 2 ^ 32 + m * 2 ^ 16) with ((time mod 2 ^ 32 * 2 ^ 16 + m) * 2 ^ 16) by lia.
  rewrite (lor_add 16) by lia. lia.
Qed.

Lemma make_v1_seq seq :
  in_u 16 seq ->
  Z.lor (Z.lor 0 (wrap 64 (Z.shiftl (Z.land seq 0xff00) 48))) (wrap 64 (Z.shiftl (Z.land seq 0xff) 48)) =
  seq * 2 ^ 48.
Proof.
  unfold in_u. intros Hs. rewrite Z.lor_0_l.
  change 0xff00 with (Z.shiftl (Z.ones 8) 8). change 0xff with (Z.ones 8).
  rewrite land_mask, Z.land_ones, !Z.shiftl_mul_pow2 by lia.
  pose proof (Z.mod_pos_bound seq (2 ^ 8) ltac:(lia)).
  pose proof (Z.mod_pos_bound (seq / 2 ^ 8) (2 ^ 8) ltac:(lia)).
  unwrap. rewrite <- Z.mul_assoc, <- Z.pow_add_r by lia. rewrite (lor_add (8 + 48)) by lia.
  Z.to_euclidean_division_equations; lia.
Qed.

(** What the reversed copy leaves on a little-endian host. *)
Lemma store_node id d1 :
  length id = 6%nat -> u64 d1 ->
  host_load little_endian (rev id ++ drop (length id) (host_store little_endian 8 d1)) =
  d1 / 2 ^ 48 * 2 ^ 48 + be_value id.
Proof.
  intros Hid Hd. unfold in_u in Hd. rewrite Hid. cbn [host_load host_store].
  change 8%nat with (6 + 2)%nat. rewrite le_bytes_add.
  rewrite drop_app_length' by (by rewrite length_le_bytes).
  rewrite le_value_app, length_rev, Hid, le_value_bytes.
  change (256 ^ Z.of_nat 6) with (2 ^ 48). change (256 ^ Z.of_nat 2) with (2 ^ 16).
  rewrite Z.mod_small by (Z.to_euclidean_division_equations; lia). unfold be_value. lia.
Qed.

Lemma make_v1_layout time seq id :
  u64 time -> in_u 16 seq -> length id = 6%nat ->
  make_v1_from little_endian time seq id =
  mk_uuid (time mod 2 ^ 32 * 2 ^ 32 + (time / 2 ^ 32) mod 2 ^ 16 * 2 ^ 16 + 2 ^ 12 +
           (time / 2 ^ 48) mod 2 ^ 12)
          (2 ^ 63 + seq mod 2 ^ 14 * 2 ^ 48 + be_value id).
Proof.
  intros Ht Hs Hid. unfold make_v1_from. rewrite make_v1_d0, make_v1_seq by done.
  unfold in_u in *. pose proof (le_value_bound (rev id)) as Hb. rewrite length_rev, Hid in Hb.
  change (256 ^ Z.of_nat 6) with (2 ^ 48) in Hb. fold (be_value id) in Hb.
  rewrite store_node by (done || unfold in_u; lia). rewrite Z.div_mul by lia.
  set (d1 := seq * 2 ^ 48 + be_value id). set (d0 := _ + _).
  assert (Hd0 : u64 d0) by (unfold d0, in_u; Z.to_euclidean_division_equations; lia).
  assert (Hd1 : u64 d1) by (unfold d1, in_u; lia).
  pose proof (set_variant_data (mk_uuid d0 d1) Hd1) as Hvar.
  pose proof (set_version_data (set_variant (mk_uuid d0 d1)) v1 Hd0) as Hver.
  cbn [data0 data1] in *.
  transitivity (mk_uuid (data0 (set_version (set_variant (mk_uuid d0 d1)) v1))
                        (data1 (set_variant (mk_uuid d0 d1)))); [done|].
  rewrite Hver, Hvar. f_equal.
  - change (data0 (set_variant (mk_uuid d0 d1))) with d0. unfold d0. cbn [version_number].
    Z.to_euclidean_division_equations; lia.
  - unfold d1. Z.to_euclidean_division_equations; lia.
Qed.

(** ** Printing and parsing *)

Definition canonical (u : uuid) : str :=
  fixed_hex 8 (data0 u / 2 ^ 32) ++ [chr 45] ++ fixed_hex 4 (data0 u / 2 ^ 16 mod 2 ^ 16) ++ [chr 45] ++
  fixed_hex 4 (data0 u mod 2 ^ 16) ++ [chr 45] ++ fixed_hex 4 (data1 u / 2 ^ 48) ++ [chr 45] ++
  fixed_hex 12 (data1 u mod 2 ^ 48).

Lemma string_canonical u : uuid_ok u -> string_ u = canonical u.
Proof.
  unfold uuid_ok, in_u. intros [H0 H1]. unfold string_. change 0xffff with (Z.ones 16).
  change 0xffffffffffff with (Z.ones 48). rewrite !Z.land_ones, !Z.shiftr_div_pow2 by lia.
  rewrite !print_hex_fixed by
    (change (16 ^ Z.of_nat 8) with (2 ^ 32) || change (16 ^ Z.of_nat 4) with (2 ^ 16)
     || change (16 ^ Z.of_nat 12) with (2 ^ 48) || lia; Z.to_euclidean_division_equations; lia).
  fold (canonical u).
  assert (Hl : length (canonical u) = 36%nat)
    by (unfold canonical; rewrite !length_app, !length_fixed_hex; done).
  unfold k_canonical_len. rewrite (take_ge (canonical u)) by lia.
  rewrite take_app_le by lia. apply take_ge. lia.
Qed.

Lemma dash_not_hex w n : find_char (chr 45) (fixed_hex w n) = None.
Proof.
  apply find_char_None. intros Hin. pose proof (fixed_hex_lower w n) as H.
  rewrite Forall_forall in H. specialize (H _ Hin). unfold lower_hex in H.
  change (uchar (chr 45)) with 45 in H. lia.
Qed.

Lemma find_char_app_r c s t : find_char c s = None -> find_char c (s ++ c :: t) = Some (length s).
Proof.
  induction s as [|x s IH]; simpl; [by rewrite decide_True|].
  case_decide; [done|]. destruct (find_char c s); [done|]. intros _. by rewrite IH.
Qed.

Lemma stoull_fixed w n :
  (0 < w <= 16)%nat -> 0 <= n < 16 ^ Z.of_nat w -> stoull_hex (fixed_hex w n) = Ok n.
Proof.
  intros Hw Hn. rewrite stoull_hex_lower.
  - by rewrite fixed_hex_value.
  - intros H. apply (f_equal length) in H. rewrite length_fixed_hex in H. simpl in H. lia.
  - apply fixed_hex_lower.
  - rewrite length_fixed_hex. lia.
Qed.

Lemma parts_loop_dash fuel w n rest :
  (0 < w <= 16)%nat -> 0 <= n < 16 ^ Z.of_nat w ->
  parts_loop (S fuel) (fixed_hex w n ++ [chr 45] ++ rest) =
  (parts ← parts_loop fuel rest; Ok (n :: parts)).
Proof.
  intros Hw Hn. cbn [parts_loop app]. rewrite find_char_app_r by apply dash_not_hex.
  rewrite take_app_length, stoull_fixed by done. cbn [mbind outcome_bind].
  replace (fixed_hex w n ++ chr 45 :: rest) with ((fixed_hex w n ++ [chr 45]) ++ rest)
    by (by rewrite <- app_assoc).
  rewrite drop_app_length' by (rewrite length_app; simpl; lia). done.
Qed.

Lemma parts_loop_last fuel w n :
  (0 < w <= 16)%nat -> 0 <= n < 16 ^ Z.of_nat w -> parts_loop (S fuel) (fixed_hex w n) = Ok [n].
Proof.
  intros Hw Hn. cbn [parts_loop]. rewrite dash_not_hex, stoull_fixed by done. done.
Qed.

Lemma parts_canonical u fuel :
  uuid_ok u ->
  parts_loop (5 + fuel) (canonical u) =
  Ok [data0 u / 2 ^ 32; data0 u / 2 ^ 16 mod 2 ^ 16; data0 u mod 2 ^ 16; data1 u / 2 ^ 48;
      data1 u mod 2 ^ 48].
Proof.
  unfold uuid_ok, in_u. intros [H0 H1]. unfold canonical. cbn [Nat.add].
  assert (0 <= data0 u / 2 ^ 32 < 16 ^ Z.of_nat 8)
    by (change (16 ^ Z.of_nat 8) with (2 ^ 32); Z.to_euclidean_division_equations; lia).
  assert (0 <= data0 u / 2 ^ 16 mod 2 ^ 16 < 16 ^ Z.of_nat 4) by (apply Z.mod_pos_bound; lia).
  assert (0 <= data0 u mod 2 ^ 16 < 16 ^ Z.of_nat 4) by (apply Z.mod_pos_bound; lia).
  assert (0 <= data1 u / 2 ^ 48 < 16 ^ Z.of_nat 4)
    by (change (16 ^ Z.of_nat 4) with (2 ^ 16); Z.to_euclidean_division_equations; lia).
  assert (0 <= data1 u mod 2 ^ 48 < 16 ^ Z.of_nat 12) by (apply Z.mod_pos_bound; lia).
  rewrite !parts_loop_dash, parts_loop_last by (done || lia). done.
Qed.

(** ** Clock sequences *)

Fixpoint reads (clock : clock_sequence) (nows : list Z) : list (Z * Z) :=
  match nows with
  | [] => []
  | now :: nows => let '(r, clock) := read clock now in r :: reads clock nows
  end.

(** The increments of the sequence so far, without the wrap-around: successive pairs
    are lexicographically increasing. *)
Fixpoint counts (last count : Z) (nows : list Z) : list (Z * Z) :=
  match nows with
  | [] => []
  | now :: nows => let count := if now <=? last then count + 1 else count in
                   (now, count) :: counts now count nows
  end.

Lemma reads_counts clock nows count seq0 :
  seq_ clock = wrap 16 (seq0 + count) ->
  reads clock nows = map (fun r => (r.1, wrap 16 (seq0 + r.2))) (counts (last_time_ clock) count nows).
Proof.
  revert clock count. induction nows as [|now nows IH]; intros clock count Hs; [done|].
  cbn [reads read counts map fst snd].
  assert (Hseq : (if now <=? last_time_ clock then wrap 16 (seq_ clock + 1) else seq_ clock) =
                 wrap 16 (seq0 + (if now <=? last_time_ clock then count + 1 else count))).
  { case_bool; [|done]. rewrite Hs. unfold wrap. rewrite Zplus_mod_idemp_l. f_equal. lia. }
  rewrite Hseq. f_equal. by apply IH.
Qed.

Definition later (last count : Z) (r : Z * Z) : Prop :=
  count < r.2 \/ (r.2 = count /\ last < r.1).

Lemma counts_later nows : forall last count r,
  r ∈ counts last count nows -> later last count r /\ count <= r.2 <= count + Z.of_nat (length nows).
Proof.
  induction nows as [|now nows IH]; intros last count r Hr; [by apply not_elem_of_nil in Hr|].
  cbn [counts length] in *. unfold later in *. apply elem_of_cons in Hr as [->|Hr].
  - simpl. case_bool; lia.
  - apply IH in Hr. revert Hr. case_bool; lia.
Qed.

Lemma counts_NoDup nows : forall last count, NoDup (counts last count nows).
Proof.
  induction nows as [|now nows IH]; intros last count; [constructor|]. cbn [counts].
  constructor; [|apply IH]. intros [Hl _]%counts_later. unfold later in Hl. simpl in Hl. lia.
Qed.

Lemma counts_times (P : Z -> Prop) nows : forall last count r,
  Forall P nows -> r ∈ counts last count nows -> P r.1.
Proof.
  induction nows as [|now nows IH]; intros last count r Hn Hr; [by apply not_elem_of_nil in Hr|].
  apply Forall_cons in Hn as [H1 Hn]. cbn [counts] in Hr.
  apply elem_of_cons in Hr as [->|Hr]; [done|]. by eapply IH.
Qed.

Lemma mod_eq_window M lo x y :
  lo <= y < lo + M -> lo <= x < lo + M -> y mod M = x mod M -> y = x.
Proof.
  intros Hy Hx Hm. pose proof (Z.div_mod x M ltac:(lia)). pose proof (Z.div_mod y M ltac:(lia)).
  destruct (Z.lt_trichotomy (x / M) (y / M)) as [H'|[H'|H']]; nia.
Qed.

(** Sequence numbers of at most [2 ^ w] successive reads differ modulo [2 ^ w] as
    they differ without the wrap-around. *)
Lemma counts_mod_NoDup w nows last count :
  0 <= w -> Z.of_nat (length nows) <= 2 ^ w ->
  NoDup (map (fun r => (r.1, r.2 mod 2 ^ w)) (counts last count nows)).
Proof.
  intros Hw Hn. pose proof (counts_NoDup nows last count) as Hnd.
  destruct nows as [|now nows]; [constructor|].
  set (c0 := if now <=? last then count + 1 else count).
  assert (Hr : forall r, r ∈ counts last count (now :: nows) -> c0 <= r.2 < c0 + 2 ^ w).
  { intros r Hr. cbn [counts] in Hr. fold c0 in Hr. simpl in Hn.
    apply elem_of_cons in Hr as [->|Hr%counts_later]; simpl; lia. }
  clearbody c0. revert Hnd Hr. generalize (counts last count (now :: nows)). intros l Hnd Hr.
  induction Hnd as [|x l Hx _ IH]; [constructor|]. cbn [map]. constructor.
  - intros Hin. apply list_elem_of_In, in_map_iff in Hin as (y & Heq & Hy%list_elem_of_In).
    apply Hx. assert (y = x) as <-; [|done]. injection Heq as H1 H2. destruct x as [x1 x2], y as [y1 y2].
    pose proof (Hr (x1, x2) ltac:(left)) as Bx. pose proof (Hr (y1, y2) ltac:(by right)) as By.
    simpl in *. subst y1. f_equal. by apply (mod_eq_window (2 ^ w) c0).
  - apply IH. intros r Hin. apply Hr. by right.
Qed.

(** ** Makers *)

Lemma store_network windows host d :
  (windows = true -> host = little_endian) ->
  host_store host 8 (HostToNetwork windows host 8 d) = be_bytes 8 d.
Proof.
  intros Hw. unfold HostToNetwork. rewrite <- (host_store_hton host 8 d).
  destruct windows; [by rewrite (Hw eq_refl)|done].
Qed.

Lemma load_network windows host bytes :
  length bytes = 8%nat -> (windows = true -> host = little_endian) ->
  NetworkToHost windows host 8 (host_load host bytes) = be_value bytes.
Proof.
  intros Hl Hw. unfold NetworkToHost. rewrite <- (hton_host_load host 8 bytes) by done.
  destruct windows; [by rewrite (Hw eq_refl)|done].
Qed.

Lemma length_rfc_md5 m : length (rfc_md5 m) = 16%nat.
Proof.
  unfold rfc_md5. destruct (rfc_blocks _ _ _) as [[[A B] C] D].
  by rewrite !length_app, !length_le_bytes.
Qed.

Lemma be_value_u64 bytes : length bytes = 8%nat -> u64 (be_value bytes).
Proof.
  intros Hl. unfold be_value. pose proof (le_value_bound (rev bytes)) as H.
  rewrite length_rev, Hl in H. exact H.
Qed.

Lemma make_v1_variant host time seq id :
  u64 time -> in_u 16 seq -> length id = 6%nat ->
  let u := make_v1_from host time seq id in
  version_field u = 1 /\ variant_field u = 2 /\ uuid_ok u.
Proof.
  intros Ht Hs Hid. unfold make_v1_from. rewrite make_v1_d0, make_v1_seq by done.
  set (d0 := _ + _). set (d1 := host_load _ _). unfold in_u in Ht, Hs.
  assert (Hd0 : u64 d0) by (unfold d0, in_u; Z.to_euclidean_division_equations; lia).
  assert (Hd1 : u64 d1).
  { unfold d1. pose proof (host_load_bound host (rev id ++ drop (length id) (host_store host 8 (seq * 2 ^ 48)))) as H.
    rewrite length_app, length_rev, length_drop, Hid in H.
    replace (length (host_store host 8 (seq * 2 ^ 48))) with 8%nat in H
      by (destruct host; simpl; by rewrite ?length_be_bytes, ?length_le_bytes).
    rewrite Hid. exact H. }
  destruct (set_variant_field (mk_uuid d0 d1) Hd1) as [H1 H2].
  destruct (set_version_field (set_variant (mk_uuid d0 d1)) v1 Hd0) as [H3 H4].
  split_and!; [exact H3|exact H1|split; [exact H4|exact H2]].
Qed.

Lemma make_v2_fields u domain id :
  uuid_ok u -> variant_field u = 2 -> u32 id ->
  let d1 := Z.lor (Z.land (data1 u) 0xff00ffffffffffff) (wrap 64 (Z.shiftl (domain_number domain) 48)) in
  let d0 := Z.lor (Z.land (data0 u) 0x00000000ffffffff) (wrap 64 (Z.shiftl id 32)) in
  let u' := set_version (mk_uuid d0 d1) v2 in
  version_field u' = 2 /\ variant_field u' = 2 /\
  data0 u' / 2 ^ 32 = id /\ data1 u' / 2 ^ 48 mod 2 ^ 8 = domain_number domain.
Proof.
  intros [H0 H1] Hv Hid d1 d0 u'. unfold variant_field, in_u in *.
  assert (Hd1 : d1 = data1 u / 2 ^ 56 * 2 ^ 56 + domain_number domain * 2 ^ 48 + data1 u mod 2 ^ 48).
  { unfold d1. change 0xff00ffffffffffff with (Z.lor (Z.shiftl (Z.ones 8) 56) (Z.ones 48)).
    rewrite Z.land_lor_distr_r, land_mask, Z.land_ones by lia.
    rewrite (Z.mod_small (data1 u / 2 ^ 56)) by (Z.to_euclidean_division_equations; lia).
    replace (wrap 64 (Z.shiftl (domain_number domain) 48)) with (domain_number domain * 2 ^ 48)
      by (destruct domain; reflexivity).
    pose proof (Z.mod_pos_bound (data1 u) (2 ^ 48) ltac:(lia)).
    assert (0 <= domain_number domain < 4) by (destruct domain; simpl; lia).
    rewrite <- Z.lor_assoc, (Z.lor_comm _ (domain_number domain * _)).
    rewrite (lor_add 48), (lor_add 56) by lia. lia. }
  assert (Hd0 : d0 = id * 2 ^ 32 + data0 u mod 2 ^ 32).
  { unfold d0. change 0x00000000ffffffff with (Z.ones 32).
    rewrite Z.land_ones, Z.shiftl_mul_pow2, Z.lor_comm by lia.
    pose proof (Z.mod_pos_bound (data0 u) (2 ^ 32) ltac:(lia)). unwrap. by rewrite (lor_add 32) by lia. }
  assert (Hu0 : u64 d0) by (unfold in_u; Z.to_euclidean_division_equations; lia).
  assert (0 <= domain_number domain < 4) by (destruct domain; simpl; lia).
  destruct (set_version_field (mk_uuid d0 d1) v2 Hu0) as [Hver _].
  pose proof (set_version_data (mk_uuid d0 d1) v2 Hu0) as Hdat. fold u' in Hver, Hdat.
  cbn [data0 version_number] in Hver, Hdat. change (data1 u') with d1.
  split_and!; [exact Hver| | |]; clearbody u' d0 d1; Z.to_euclidean_division_equations; lia.
Qed.

(** A generator's successive identifiers. *)
Fixpoint v1_run (host : byte_order) (clock : clock_sequence) (nows : list Z) (id : node_id) : list uuid :=
  match nows with
  | [] => []
  | now :: nows => let '(u, clock) := make_v1 host clock now id in u :: v1_run host clock nows id
  end.

Lemma v1_run_reads host clock nows id :
  v1_run host clock nows id = map (fun r => make_v1_from host r.1 r.2 id) (reads clock nows).
Proof.
  revert clock. induction nows as [|now nows IH]; intros clock; [done|].
  cbn [v1_run reads]. unfold make_v1. destruct (read clock now) as [[time seq] clock'].
  cbn [map fst snd]. by rewrite IH.
Qed.

Lemma make_v1_inj time seq time' seq' id :
  0 <= time < 2 ^ 60 -> 0 <= time' < 2 ^ 60 -> in_u 16 seq -> in_u 16 seq' -> length id = 6%nat ->
  make_v1_from little_endian time seq id = make_v1_from little_endian time' seq' id ->
  time = time' /\ seq mod 2 ^ 14 = seq' mod 2 ^ 14.
Proof.
  intros Ht Ht' Hs Hs' Hid. rewrite !make_v1_layout by (done || unfold in_u; lia).
  intros [= H0 H1]. split; [|lia].
  assert (Hsplit : forall x, 0 <= x < 2 ^ 60 ->
    x = (x / 2 ^ 48) mod 2 ^ 12 * 2 ^ 48 + (x / 2 ^ 32) mod 2 ^ 16 * 2 ^ 32 + x mod 2 ^ 32).
  { intros x Hx. Z.to_euclidean_division_equations; lia. }
  rewrite (Hsplit time Ht), (Hsplit time' Ht'). clear Hsplit. revert H0.
  pose proof (Z.mod_pos_bound time (2 ^ 32) ltac:(lia)).
  pose proof (Z.mod_pos_bound time' (2 ^ 32) ltac:(lia)).
  pose proof (Z.mod_pos_bound (time / 2 ^ 32) (2 ^ 16) ltac:(lia)).
  pose proof (Z.mod_pos_bound (time' / 2 ^ 32) (2 ^ 16) ltac:(lia)).
  pose proof (Z.mod_pos_bound (time / 2 ^ 48) (2 ^ 12) ltac:(lia)).
  pose proof (Z.mod_pos_bound (time' / 2 ^ 48) (2 ^ 12) ltac:(lia)).
  generalize dependent (time mod 2 ^ 32). generalize dependent (time' mod 2 ^ 32).
  generalize dependent ((time / 2 ^ 32) mod 2 ^ 16). generalize dependent ((time' / 2 ^ 32) mod 2 ^ 16).
  generalize dependent ((time / 2 ^ 48) mod 2 ^ 12). generalize dependent ((time' / 2 ^ 48) mod 2 ^ 12).
  clear. intros. lia.
Qed.

(** ** Properties *)

(** The canonical text of an identifier has 36 characters and is parsed back to
    it. *)
Theorem make_from_string ndebug u :
  uuid_ok u -> length (string_ u) = 36%nat /\ make_from ndebug (string_ u) = Ok u.
Proof.
  intros Hu. rewrite string_canonical by done.
  assert (Hl : length (canonical u) = 36%nat)
    by (unfold canonical; rewrite !length_app, !length_fixed_hex; done).
  split; [done|]. unfold make_from. rewrite Hl. change (S 36) with (5 + 32)%nat. rewrite parts_canonical by done.
  cbn [mbind outcome_bind]. rewrite bool_decide_true, orb_true_r by done.
  cbn [mbind outcome_bind the lookup list_lookup]. unfold uuid_ok, in_u in Hu.
  destruct Hu as [H0 H1], u as [d0 d1]. cbn [data0 data1] in *.
  rewrite !Z.lor_0_l, !Z.shiftl_mul_pow2 by lia.
  pose proof (Z.mod_pos_bound d0 (2 ^ 16) ltac:(lia)). pose proof (Z.mod_pos_bound d1 (2 ^ 48) ltac:(lia)).
  pose proof (Z.mod_pos_bound (d0 / 2 ^ 16) (2 ^ 16) ltac:(lia)).
  assert (0 <= d0 / 2 ^ 32 < 2 ^ 32) by (Z.to_euclidean_division_equations; lia).
  assert (0 <= d1 / 2 ^ 48 < 2 ^ 16) by (Z.to_euclidean_division_equations; lia).
  unwrap. rewrite (lor_add 32), (lor_add 48) by lia. f_equal. f_equal.
  - replace (d0 / 2 ^ 32 * 2 ^ 32 + d0 / 2 ^ 16 mod 2 ^ 16 * 2 ^ 16)
      with ((d0 / 2 ^ 32 * 2 ^ 16 + d0 / 2 ^ 16 mod 2 ^ 16) * 2 ^ 16) by lia.
    rewrite (lor_add 16) by lia. Z.to_euclidean_division_equations; lia.
  - Z.to_euclidean_division_equations; lia.
Qed.

(** Identifiers made one after the other by one generator are distinct, wherever
    the clock jumps, as long as there are at most 2^14 of them (the variant leaves 14
    bits of the sequence) and the clock is below 2^60. *)
Theorem make_v1_distinct clock nows id :
  in_u 16 (seq_ clock) -> Forall (fun now => 0 <= now < 2 ^ 60) nows ->
  Z.of_nat (length nows) <= 2 ^ 14 -> length id = 6%nat ->
  NoDup (v1_run little_endian clock nows id).
Proof.
  intros Hs Hn Hl Hid. rewrite v1_run_reads.
  rewrite (reads_counts clock nows 0 (seq_ clock)) by (rewrite Z.add_0_r; by rewrite wrap_small).
  rewrite map_map. cbn [fst snd].
  pose proof (counts_mod_NoDup 14 nows (last_time_ clock) 0 ltac:(lia) Hl) as Hnd.
  assert (Ht : forall r, r ∈ counts (last_time_ clock) 0 nows -> 0 <= r.1 < 2 ^ 60).
  { intros r Hr. by apply (counts_times _ nows _ _ r Hn Hr). }
  revert Hnd Ht. generalize (counts (last_time_ clock) 0 nows). intros l Hnd Ht.
  induction l as [|x l IH]; [constructor|]. cbn [map] in *. apply NoDup_cons in Hnd as [Hx Hnd].
  constructor; [|apply IH; [done|]; intros r Hr; apply Ht; by right].
  intros Hin. apply Hx. apply list_elem_of_In, in_map_iff in Hin as (y & Heq & Hy%list_elem_of_In).
  apply list_elem_of_In, in_map_iff. exists y. split; [|by apply list_elem_of_In].
  apply make_v1_inj in Heq as [H1 H2]; try done; try (apply wrap_range; lia);
    [|apply Ht; by right|apply Ht; left].
  rewrite H1. f_equal. revert H2. unfold wrap. change (2 ^ 16) with (2 ^ 14 * 2 ^ 2).
  rewrite !Z.rem_mul_r by lia.
  rewrite !(Z.mul_comm (2 ^ 14)), !Z_mod_plus_full, !Z.mod_mod by lia.
  intros Hm. apply (f_equal (fun z => (z - seq_ clock) mod 2 ^ 14)) in Hm.
  rewrite !Zminus_mod_idemp_l in Hm.
  replace (seq_ clock + x.2 - seq_ clock) with x.2 in Hm by lia.
  by replace (seq_ clock + y.2 - seq_ clock) with y.2 in Hm by lia.
Qed.

(** A name-based identifier is the MD5 digest of the name space's 16 bytes in
    network order and the name, read big-endian, under the version and the variant:
    it does not depend on the byte order of the host. *)
Theorem make_v3_digest windows host garbage ns name :
  (windows = true -> host = little_endian) ->
  length (buffer garbage) = 64%nat -> Z.of_nat (length name) < 2 ^ 64 ->
  let digest := rfc_md5 (be_bytes 8 (data0 ns) ++ be_bytes 8 (data1 ns) ++ name) in
  make_v3 windows host garbage ns name =
  Ok (set_version (set_variant (mk_uuid (be_value (take 8 digest)) (be_value (drop 8 digest)))) v3).
Proof.
  intros Hw Hg Hn digest. unfold make_v3. rewrite !store_network by done.
  destruct (MD5Update_rep _ [] (be_bytes 8 (data0 ns)) (MD5Init_rep garbage Hg)) as (c1 & -> & H1);
    [by rewrite length_be_bytes|]. cbn [mbind outcome_bind].
  destruct (MD5Update_rep _ _ (be_bytes 8 (data1 ns)) H1) as (c2 & -> & H2);
    [by rewrite length_be_bytes|]. cbn [mbind outcome_bind].
  destruct (MD5Update_rep _ _ name H2 Hn) as (c3 & -> & H3). cbn [mbind outcome_bind].
  rewrite (MD5Final_spec _ _ H3). cbn [mbind outcome_bind]. rewrite app_nil_l, <- app_assoc. fold digest.
  assert (Hl : length digest = 16%nat) by apply length_rfc_md5.
  rewrite !load_network by (done || rewrite ?length_take, ?length_drop, Hl; done). done.
Qed.

(** Every maker sets its version and the RFC variant, and a DCE identifier also
    holds the local id and the domain. *)
Theorem version_and_variant :
  (forall host time seq id, u64 time -> in_u 16 seq -> length id = 6%nat ->
     let u := make_v1_from host time seq id in version_field u = 1 /\ variant_field u = 2) /\
  (forall host clock now node domain id, in_u 16 (seq_ clock) -> u64 now -> length node = 6%nat -> u32 id ->
     let u := (make_v2 host clock now node domain id).1 in
     version_field u = 2 /\ variant_field u = 2 /\
     data0 u / 2 ^ 32 = id /\ data1 u / 2 ^ 48 mod 2 ^ 8 = domain_number domain) /\
  (forall G (generator : G -> Z * G) g, (forall g, u64 (generator g).1) ->
     let u := (make_v4 generator g).1 in version_field u = 4 /\ variant_field u = 2).
Proof.
  split_and!.
  - intros host time seq id Ht Hs Hid. cbn zeta.
    destruct (make_v1_variant host time seq id Ht Hs Hid) as (H1 & H2 & _). done.
  - intros host clock now node domain id Hs Hnow Hnode Hid. unfold make_v2, make_v1, read.
    set (seq := if _ <=? _ then _ else _).
    assert (Hseq : in_u 16 seq) by (unfold seq; case_bool; [apply wrap_range; lia|done]).
    destruct (make_v1_variant host now seq node Hnow Hseq Hnode) as (_ & Hv & Hok).
    exact (make_v2_fields _ domain id Hok Hv Hid).
  - intros G generator g Hgen. unfold make_v4.
    pose proof (Hgen g) as H0. destruct (generator g) as [r0 g']. cbn [fst] in H0.
    pose proof (Hgen g') as H1. destruct (generator g') as [r1 g'']. cbn [fst] in *.
    destruct (set_variant_field (mk_uuid r0 r1) H1) as [Hvar _].
    destruct (set_version_field (set_variant (mk_uuid r0 r1)) v4 H0) as [Hver _]. done.
Qed.

Lemma make_from_string_witness :
  length (string_ ns_dns) = 36%nat /\ make_from false (string_ ns_dns) = Ok ns_dns.
Proof. apply make_from_string. split; unfold in_u; simpl; lia. Defined.

Lemma make_v1_distinct_witness :
  NoDup (v1_run little_endian (mk_clock_sequence 0 65535) [10; 10; 5; 10; 5; 6] (lit "macadr")).
Proof.
  apply make_v1_distinct; [unfold in_u; simpl; lia| |simpl; lia|reflexivity].
  repeat constructor; lia.
Defined.

Lemma make_v3_digest_witness :
  make_v3 true little_endian cleared ns_dns (lit "a") =
  Ok (set_version (set_variant
        (mk_uuid (be_value (take 8 (rfc_md5 (be_bytes 8 (data0 ns_dns) ++ be_bytes 8 (data1 ns_dns) ++ lit "a"))))
                 (be_value (drop 8 (rfc_md5 (be_bytes 8 (data0 ns_dns) ++ be_bytes 8 (data1 ns_dns) ++ lit "a")))))) v3).
Proof. apply make_v3_digest; [done|reflexivity|simpl; lia]. Defined.
