(* ===== verification/Expr.v ===== *)
(** * Arithmetic expressions: the reference semantics

    ExpressionCalculator evaluates an infix text directly; Expression Tree converts
    it to postfix, builds a tree and evaluates that.  Both call the same [Calculate].
    This file models [Calculate] and states what both promise: an abstract syntax,
    its infix text with the parentheses that the precedences demand, and its value. *)

From S2P Require Import Prelude.

(** A [wchar_t] is its code. *)
Notation wstr := (list Z).
Definition L (c : ascii) : Z := uchar c.
Definition wlit (s : String.string) : wstr := map L (lit s).

Definition INT_MIN : Z := - 2 ^ 31.

(** [int] arithmetic: undefined outside of the range of the type. *)
Definition int_ (x : Z) : outcome Z := if decide (i32 x) then Ok x else Undef.

Definition int_div (x y : Z) : outcome Z := if y =? 0 then Undef else int_ (Z.quot x y).

(** [assert(cond)]: nothing in a build with NDEBUG. *)
Definition assert_ (ndebug cond : bool) : outcome unit :=
  if ndebug || cond then Ok tt else Undef.

Section Calculate.
Context (ndebug : bool).

Definition Calculate (num num2 op : Z) : outcome Z :=
  ret ← (if op =? L "+" then int_ (num + num2)
         else if op =? L "-" then int_ (num - num2)
         else if op =? L "*" then int_ (num * num2)
         else if op =? L "/" then int_div num num2
         else Ok INT_MIN);
  assert_ ndebug (negb (ret =? INT_MIN));;
  Ok ret.
End Calculate.

(** [x.back(); x.pop_back();] on a stack kept with its top first. *)
Definition pop {A} (x : list A) : outcome (A * list A) :=
  match x with [] => Undef | a :: x => Ok (a, x) end.

(** ** Abstract syntax *)

Inductive binop := Add | Sub | Mul | Div.

Definition op_char (o : binop) : Z :=
  match o with Add => L "+" | Sub => L "-" | Mul => L "*" | Div => L "/" end.

(** How tightly an operator binds. *)
Definition rank (o : binop) : nat := match o with Add | Sub => 1 | Mul | Div => 2 end.

(** Literals carry the signs before them and their decimal digits; [Group] is a pair
    of parentheses of the author. *)
Inductive expr :=
| Num (signs : nat) (digits : list Z)
| Group (e : expr)
| Bin (o : binop) (l r : expr).

Definition digit (d : Z) : Prop := 0 <= d <= 9.
#[global] Instance digit_dec d : Decision (digit d).
Proof. unfold digit. apply _. Defined.

Definition digit_char (d : Z) : Z := L "0" + d.

Definition paren (s : wstr) : wstr := L "(" :: s ++ [L ")"].

(** The text of an operand of an operator of rank [p]: all operators associate to
    the left. *)
Fixpoint infix (p : nat) (e : expr) : wstr :=
  match e with
  | Num signs digits => replicate signs (L "-") ++ map digit_char digits
  | Group e => paren (infix 0 e)
  | Bin o l r =>
      let s := infix (rank o) l ++ op_char o :: infix (S (rank o)) r in
      if decide (rank o < p)%nat then paren s else s
  end.

Definition decimal (digits : list Z) : Z := fold_left (fun n d => 10 * n + d) digits 0.

Definition literal (signs : nat) (digits : list Z) : Z :=
  if Nat.odd signs then - decimal digits else decimal digits.

(** The value: operands from left to right, then the operation of the code. *)
Fixpoint value (ndebug : bool) (e : expr) : outcome Z :=
  match e with
  | Num signs digits => Ok (literal signs digits)
  | Group e => value ndebug e
  | Bin o l r =>
      x ← value ndebug l; y ← value ndebug r; Calculate ndebug x y (op_char o)
  end.

(** The literals of an expression. *)
Fixpoint lits_ok (P : nat -> list Z -> Prop) (e : expr) : Prop :=
  match e with
  | Num signs digits => P signs digits
  | Group e => lits_ok P e
  | Bin _ l r => lits_ok P l /\ lits_ok P r
  end.

#[global] Instance lits_ok_dec P `{forall s d, Decision (P s d)} e : Decision (lits_ok P e).
Proof. induction e; simpl; apply _. Defined.

(** ** Facts the two programs share *)

Lemma infix_bin p o l r :
  infix p (Bin o l r) =
  if decide (rank o < p)%nat then paren (infix 0 (Bin o l r)) else infix 0 (Bin o l r).
Proof. simpl. by repeat case_decide; try lia. Qed.

Lemma digit_char_range d : digit d -> 48 <= digit_char d <= 57.
Proof. unfold digit, digit_char. change (L "0") with 48. lia. Qed.

Lemma decimal_app l d : decimal (l ++ [d]) = 10 * decimal l + d.
Proof. unfold decimal. by rewrite fold_left_app. Qed.

Lemma decimal_range l : Forall digit l -> 0 <= decimal l < 10 ^ Z.of_nat (length l).
Proof.
  induction l as [|d l IH] using rev_ind; [unfold decimal; simpl; lia|].
  rewrite Forall_app, Forall_singleton. intros [Hl Hd]. specialize (IH Hl).
  rewrite decimal_app, length_app. simpl. rewrite Nat2Z.inj_add, Z.pow_add_r by lia.
  unfold digit in Hd. change (10 ^ Z.of_nat 1) with 10. lia.
Qed.

(** The code never throws here: its failures are undefined behaviour. *)
Lemma Calculate_cases ndebug x y op :
  Calculate ndebug x y op = Undef \/ exists v, Calculate ndebug x y op = Ok v.
Proof.
  unfold Calculate, int_div, int_, assert_.
  repeat (case_bool || case_decide); simpl; try (by left);
    destruct (_ || _); simpl; eauto.
Qed.

Definition op_class (tok : Z) : Prop := exists o, tok = op_char o.

Lemma op_char_not o :
  (48 <=? op_char o) && (op_char o <=? 57) = false /\
  op_char o =? L "(" = false /\ op_char o =? L ")" = false /\ op_char o <> 0.
Proof. by destruct o. Qed.
