(* ===== verification/Calculator.v ===== *)
(** * The expression calculator

    Models ExpressionCalculator/EvaluateExp.cpp: [EvaluateExpression] with its two
    stacks, the number being read and the sign mode, and [FormatNumtoInt],
    [Calculate] and [GetPriority].  The text ends with [#]. *)

From S2P Require Import Prelude Expr.

Definition NUM_LEN : nat := 10.

Record NumData := mk_NumData { sz : wstr; signal : bool; pos : nat }.

Definition new_NumData : NumData := mk_NumData (replicate NUM_LEN 0) false 0.

(** [_wtoi] of digits: the number up to the first other character, saturated; a text
    without one is read beyond its array. *)
Fixpoint wtoi_loop (s : wstr) (n : Z) : outcome Z :=
  match s with
  | [] => Undef
  | c :: s =>
      if (L "0" <=? c) && (c <=? L "9") then wtoi_loop s (10 * n + (c - L "0"))
      else Ok (Z.min n (2 ^ 31 - 1))
  end.
Definition wtoi (s : wstr) : outcome Z := wtoi_loop s 0.

Section Calculator.
Context (ndebug : bool).

Definition FormatNumtoInt (data : NumData) : outcome (Z * NumData) :=
  assert_ ndebug (negb (bool_decide (pos data = 0%nat)));;
  num ← wtoi (sz data);
  let num := if signal data then - num else num in
  Ok (num, new_NumData).

Definition GetPriority (op : Z) : outcome Z :=
  let priority :=
    if op =? L "#" then 0
    else if (op =? L "+") || (op =? L "-") then 2
    else if (op =? L "*") || (op =? L "/") then 3
    else if (op =? L "(") || (op =? L ")") then 1
    else -1 in
  assert_ ndebug (negb (priority =? -1));;
  Ok priority.

(** The locals of [EvaluateExpression]; the stacks have their top first. *)
Record state := mk_state {
  oprand : list Z; oprator : list Z; isNumbericMode : bool; data : NumData }.

Definition initial : state := mk_state [] [] true new_NumData.

(** [if (data.pos) num = FormatNumtoInt(data); else num = pop(oprand);] *)
Definition take_num (st : state) : outcome (Z * state) :=
  if negb (bool_decide (pos (data st) = 0%nat))
  then '(num, d) ← FormatNumtoInt (data st);
       Ok (num, mk_state (oprand st) (oprator st) (isNumbericMode st) d)
  else '(num, s) ← pop (oprand st);
       Ok (num, mk_state s (oprator st) (isNumbericMode st) (data st)).

(** The loop of the branch of [')']. *)
Fixpoint close_loop (oprator oprand : list Z) (num : Z) : outcome (list Z * list Z) :=
  match oprator with
  | [] => Undef
  | op :: oprator =>
      if L "(" =? op then Ok (oprator, num :: oprand)
      else
        '(num2, oprand) ← pop oprand;
        num ← Calculate ndebug num2 num op;
        close_loop oprator oprand num
  end.

(** The loop of the branch of the other operators. *)
Fixpoint reduce_loop (p : Z) (oprator oprand : list Z) (num : Z) : outcome (list Z * list Z) :=
  match oprator with
  | [] => Ok ([p], num :: oprand)
  | op :: below =>
      pp ← GetPriority p;
      pop_ ← GetPriority op;
      if pop_ <? pp then Ok (p :: oprator, num :: oprand)
      else
        '(num2, oprand) ← pop oprand;
        num ← Calculate ndebug num2 num op;
        reduce_loop p below oprand num
  end.

(** The branch of the operators but [(], after [num] was taken. *)
Definition finish (p num : Z) (st : state) : outcome state :=
  '(ops, nums) ← (if L ")" =? p then close_loop (oprator st) (oprand st) num
                  else reduce_loop p (oprator st) (oprand st) num);
  Ok (mk_state nums ops (isNumbericMode st) (data st)).

(** One iteration of the loop over the text. *)
Definition step (p : Z) (st : state) : outcome state :=
  if (L "0" <=? p) && (p <=? L "9") then
    sz ← vec_set (sz (data st)) (Z.of_nat (pos (data st))) p;
    Ok (mk_state (oprand st) (oprator st) false
                 (mk_NumData sz (signal (data st)) (S (pos (data st)))))
  else if (L "-" =? p) && isNumbericMode st then
    Ok (mk_state (oprand st) (oprator st) true
                 (mk_NumData (sz (data st)) (negb (signal (data st))) (pos (data st))))
  else
    let st := mk_state (oprand st) (oprator st) true (data st) in
    if L "(" =? p then Ok (mk_state (oprand st) (p :: oprator st) true (data st))
    else
      '(num, st) ← take_num st;
      finish p num st.

(** The loop ends at the terminator. *)
Fixpoint run (exp : wstr) (st : state) : outcome state :=
  match exp with
  | [] => Ok st
  | p :: exp => if p =? 0 then Ok st else st ← step p st; run exp st
  end.

Definition EvaluateExpression (pszExpression : wstr) : outcome Z :=
  st ← run pszExpression initial;
  the (head (oprand st)).
End Calculator.

#[global] Arguments Calculate : simpl never.
#[global] Arguments GetPriority : simpl never.
#[global] Arguments FormatNumtoInt : simpl never.

Example test_1 : EvaluateExpression false (wlit "1+2*3+(4*5+6)*7-8/4#") = Ok 187.
Proof. vm_compute. reflexivity. Qed.
Example test_2 : EvaluateExpression false (wlit "12-(32-4*3)/2+1#") = Ok 3.
Proof. vm_compute. reflexivity. Qed.
Example test_3 : EvaluateExpression false (wlit "3-(-(-(-6)))#") = Ok 9.
Proof. vm_compute. reflexivity. Qed.

(** ** The texts the calculator understands *)

(** A literal fits in [sz] with its terminator. *)
Definition lit_ok (signs : nat) (digits : list Z) : Prop :=
  digits <> [] /\ (length digits < NUM_LEN)%nat /\ Forall digit digits.
#[global] Instance lit_ok_dec s d : Decision (lit_ok s d).
Proof. unfold lit_ok. apply _. Defined.

(** Whether the text of an operand ends with [)]. *)
Fixpoint ends_paren (p : nat) (e : expr) : bool :=
  match e with
  | Num _ _ => false
  | Group _ => true
  | Bin o _ r => if decide (rank o < p)%nat then true else ends_paren (S (rank o)) r
  end.

(** No subtraction directly after a [)]: there the code takes [-] for a sign. *)
Fixpoint minus_ok (e : expr) : Prop :=
  match e with
  | Num _ _ => True
  | Group e => minus_ok e
  | Bin o l r => minus_ok l /\ minus_ok r /\
                 match o with Sub => ends_paren (rank o) l = false | _ => True end
  end.
#[global] Instance minus_ok_dec e : Decision (minus_ok e).
Proof. induction e as [| |[] ? ? ? ?]; simpl; apply _. Defined.

Lemma GetPriority_op ndebug o : GetPriority ndebug (op_char o) = Ok (Z.of_nat (S (rank o))).
Proof. destruct ndebug, o; reflexivity. Qed.

Lemma GetPriority_paren ndebug : GetPriority ndebug (L "(") = Ok 1.
Proof. by destruct ndebug. Qed.

(** What may follow an operand of an operator of rank [p]. *)
Inductive follower (p : nat) : Z -> Prop :=
| follow_close : follower p (L ")")
| follow_end : follower p (L "#")
| follow_op o : (rank o <= p)%nat -> follower p (op_char o).

(** What is on the operator stack when such an operand begins. *)
Inductive opens (p : nat) : list Z -> Prop :=
| opens_nil : opens p []
| opens_paren O : opens p (L "(" :: O)
| opens_op o O : (rank o < p)%nat -> opens p (op_char o :: O).

Lemma follower_mono p q tok : follower p tok -> (p <= q)%nat -> follower q tok.
Proof. intros [| |o Ho] Hq; constructor; lia. Qed.

Lemma opens_mono p q O : opens p O -> (p <= q)%nat -> opens q O.
Proof. intros [| |o O' Ho] Hq; constructor; lia. Qed.

Lemma follower_class p tok :
  follower p tok ->
  (48 <=? tok) && (tok <=? 57) = false /\ L "(" =? tok = false /\ tok =? 0 = false.
Proof. by intros [| |[] _]. Qed.

Lemma push_op ndebug o x S0 O m d :
  opens (rank o) O ->
  finish ndebug (op_char o) x (mk_state S0 O m d) = Ok (mk_state (x :: S0) (op_char o :: O) m d).
Proof.
  intros Ho. unfold finish. replace (L ")" =? op_char o) with false by (by destruct o).
  cbn [oprator oprand]. destruct Ho as [|O|o' O Ho]; cbn [reduce_loop]; [done| |].
  - rewrite GetPriority_op, GetPriority_paren. cbn [mbind outcome_bind].
    rewrite (proj2 (Z.ltb_lt _ _)) by (destruct o; simpl; lia). done.
  - rewrite !GetPriority_op. cbn [mbind outcome_bind].
    rewrite (proj2 (Z.ltb_lt _ _)) by lia. done.
Qed.

Lemma reduce_op ndebug tok o x y S0 O m d :
  follower (rank o) tok ->
  finish ndebug tok y (mk_state (x :: S0) (op_char o :: O) m d) =
  (v ← Calculate ndebug x y (op_char o); finish ndebug tok v (mk_state S0 O m d)).
Proof.
  intros Hf. unfold finish. cbn [oprator oprand isNumbericMode data].
  destruct Hf as [| |o' Ho].
  - replace (L ")" =? L ")") with true by done. cbn [close_loop pop].
    replace (L "(" =? op_char o) with false by (by destruct o). cbn [mbind outcome_bind].
    by destruct (Calculate _ _ _ _).
  - replace (L ")" =? L "#") with false by done. cbn [reduce_loop pop].
    rewrite GetPriority_op.
    replace (GetPriority ndebug (L "#")) with (Ok 0) by (by destruct ndebug).
    cbn [mbind outcome_bind]. rewrite (proj2 (Z.ltb_ge _ _)) by lia.
    by destruct (Calculate _ _ _ _).
  - replace (L ")" =? op_char o') with false by (by destruct o'). cbn [reduce_loop pop].
    rewrite !GetPriority_op. cbn [mbind outcome_bind]. rewrite (proj2 (Z.ltb_ge _ _)) by lia.
    by destruct (Calculate _ _ _ _).
Qed.

(** *** Literals *)

Definition reading (sign : bool) (ds : list Z) : NumData :=
  mk_NumData (map digit_char ds ++ replicate (NUM_LEN - length ds) 0) sign (length ds).

Lemma run_signs ndebug k rest S0 O b :
  run ndebug (replicate k (L "-") ++ rest) (mk_state S0 O true (reading b [])) =
  run ndebug rest (mk_state S0 O true (reading (xorb (Nat.odd k) b) [])).
Proof.
  revert b. induction k as [|k IH]; intros b; [by rewrite xorb_false_l|].
  change (replicate (S k) (L "-") ++ rest) with (L "-" :: replicate k (L "-") ++ rest).
  cbn [run]. replace (L "-" =? 0) with false by done.
  change (step ndebug (L "-") (mk_state S0 O true (reading b [])))
    with (Ok (mk_state S0 O true (reading (negb b) []))).
  cbn [mbind outcome_bind]. rewrite IH. do 2 f_equal. f_equal.
  rewrite Nat.odd_succ, <- Nat.negb_odd. by destruct (Nat.odd k), b.
Qed.

Lemma run_digits ndebug ds rest S0 O b :
  Forall digit ds -> forall pre m, (length (pre ++ ds) < NUM_LEN)%nat ->
  (m = match pre with [] => true | _ => false end) ->
  run ndebug (map digit_char ds ++ rest) (mk_state S0 O m (reading b pre)) =
  run ndebug rest (mk_state S0 O (match pre ++ ds with [] => true | _ => false end)
                            (reading b (pre ++ ds))).
Proof.
  induction 1 as [|d ds Hd Hds IH]; intros pre m Hlen Hm; [by rewrite app_nil_r, Hm|].
  cbn [map app run]. pose proof (digit_char_range d Hd).
  rewrite (proj2 (Z.eqb_neq _ _)) by lia. unfold step.
  change (L "0") with 48 at 1. change (L "9") with 57.
  rewrite (proj2 (Z.leb_le 48 _)), (proj2 (Z.leb_le _ 57)) by lia.
  cbn [andb data sz pos signal oprand oprator reading].
  rewrite length_app in Hlen. simpl in Hlen.
  rewrite vec_set_ok by (rewrite length_app, length_map, length_replicate; lia).
  cbn [mbind outcome_bind]. rewrite Nat2Z.id.
  replace (mk_NumData _ b (S (length pre))) with (reading b (pre ++ [d])).
  - rewrite IH by (rewrite ?length_app; simpl; try lia; by destruct pre).
    by rewrite <- (assoc_L (++)).
  - unfold reading. rewrite length_app, map_app. f_equal; [|simpl; lia].
    replace (NUM_LEN - length pre)%nat with (S (NUM_LEN - (length pre + 1))) by lia.
    rewrite <- (length_map digit_char pre) at 2. rewrite insert_app_r_alt by lia.
    rewrite Nat.sub_diag, <- (assoc_L (++)). done.
Qed.

Lemma wtoi_digits ds k n :
  Forall digit ds -> (0 < k)%nat ->
  wtoi_loop (map digit_char ds ++ replicate k 0) n =
  Ok (Z.min (fold_left (fun n d => 10 * n + d) ds n) (2 ^ 31 - 1)).
Proof.
  intros Hds Hk. revert n. induction Hds as [|d ds Hd Hds IH]; intros n.
  - destruct k; [lia|]. done.
  - cbn [map app wtoi_loop]. pose proof (digit_char_range d Hd).
    change (L "9") with 57. change (L "0") with 48.
    rewrite (proj2 (Z.leb_le 48 _)), (proj2 (Z.leb_le _ 57)) by lia. cbn [andb]. rewrite IH.
    simpl fold_left. do 3 f_equal. unfold digit_char. change (L "0") with 48. lia.
Qed.

Lemma take_literal ndebug signs ds S0 O m :
  lit_ok signs ds ->
  take_num ndebug (mk_state S0 O m (reading (Nat.odd signs) ds)) =
  Ok (literal signs ds, mk_state S0 O m new_NumData).
Proof.
  intros (Hne & Hlen & Hds). unfold take_num.
  cbn [data pos sz signal oprand oprator isNumbericMode reading].
  rewrite bool_decide_eq_false_2 by (by intros ->%nil_length_inv). cbn [negb].
  unfold FormatNumtoInt, assert_, wtoi. cbn [data pos sz signal reading].
  rewrite bool_decide_eq_false_2 by (by intros ->%nil_length_inv). rewrite orb_true_r.
  cbn [mbind outcome_bind]. rewrite wtoi_digits by (done || lia). cbn [mbind outcome_bind].
  unfold literal. fold (decimal ds). pose proof (decimal_range ds Hds) as Hr.
  assert (10 ^ Z.of_nat (length ds) <= 10 ^ 9).
  { apply Z.pow_le_mono_r; unfold NUM_LEN in Hlen; lia. }
  rewrite Z.min_l by lia. done.
Qed.

(** A follower with the number still in [data], or on top of the stack. *)
Lemma run_follower ndebug p tok rest st x st' :
  follower p tok -> (tok = L "-" -> isNumbericMode st = false) ->
  take_num ndebug (mk_state (oprand st) (oprator st) true (data st)) = Ok (x, st') ->
  run ndebug (tok :: rest) st = (st ← finish ndebug tok x st'; run ndebug rest st).
Proof.
  intros Hf Hm Ht. destruct (follower_class p tok Hf) as (Hd & Hp & H0).
  cbn [run]. rewrite H0. unfold step. change (L "0") with 48. change (L "9") with 57.
  rewrite Hd. replace ((L "-" =? tok) && isNumbericMode st) with false.
  - rewrite Hp. cbn [oprand oprator data]. rewrite Ht. done.
  - destruct (Z.eqb_spec (L "-") tok) as [<-|]; [by rewrite Hm|done].
Qed.

Lemma run_literal ndebug p tok rest signs ds S0 O :
  lit_ok signs ds -> follower p tok ->
  run ndebug (infix p (Num signs ds) ++ tok :: rest) (mk_state S0 O true new_NumData) =
  (st ← finish ndebug tok (literal signs ds) (mk_state S0 O true new_NumData); run ndebug rest st).
Proof.
  intros Hl Hf. cbn [infix]. rewrite <- (assoc_L (++)).
  change new_NumData with (reading false []) at 1. rewrite run_signs, xorb_false_r.
  pose proof Hl as (Hne & Hlen & Hds).
  rewrite (run_digits ndebug ds _ _ _ _ Hds [] true) by done. cbn [app].
  eapply run_follower; [done| |by apply take_literal]. by destruct ds.
Qed.

(** A parenthesised text, given what its inside does. *)
Lemma run_paren ndebug p tok rest body r S0 O :
  follower p tok -> tok <> L "-" ->
  (forall O rest', opens 0 O ->
     run ndebug (body ++ L ")" :: rest') (mk_state S0 O true new_NumData) =
     (v ← r; st ← finish ndebug (L ")") v (mk_state S0 O true new_NumData); run ndebug rest' st)) ->
  run ndebug (paren body ++ tok :: rest) (mk_state S0 O true new_NumData) =
  (v ← r; st ← finish ndebug tok v (mk_state S0 O true new_NumData); run ndebug rest st).
Proof.
  intros Hf Hm Hbody. unfold paren. cbn [app run].
  replace (L "(" =? 0) with false by done.
  change (step ndebug (L "(") (mk_state S0 O true new_NumData))
    with (Ok (mk_state S0 (L "(" :: O) true new_NumData)).
  rewrite bind_ok, <- (assoc_L (++)). cbn [app]. rewrite Hbody by constructor.
  destruct r as [v| | |]; try done. cbn [mbind outcome_bind].
  change (finish ndebug (L ")") v (mk_state S0 (L "(" :: O) true new_NumData))
    with (Ok (mk_state (v :: S0) O true new_NumData)). cbn [outcome_bind].
  eapply run_follower; [done|done|]. done.
Qed.

(** An operand, followed by [tok], does what its value does. *)
Lemma run_expr ndebug e : forall p S0 O tok rest,
  lits_ok lit_ok e -> minus_ok e -> follower p tok -> opens p O ->
  (tok = L "-" -> ends_paren p e = false) ->
  run ndebug (infix p e ++ tok :: rest) (mk_state S0 O true new_NumData) =
  (v ← value ndebug e; st ← finish ndebug tok v (mk_state S0 O true new_NumData);
   run ndebug rest st).
Proof.
  induction e as [signs ds|e IH|o l IHl r IHr]; intros p S0 O tok rest Hl Hm Hf Ho Hp.
  - by apply run_literal.
  - cbn [infix value]. eapply run_paren; [done|intros ->; by specialize (Hp eq_refl)|].
    intros O' rest' HO'. apply IH; try done. constructor.
  - assert (Hin : forall q tok rest O, follower q tok -> opens q O -> (q <= rank o)%nat ->
              (tok = L "-" -> ends_paren (S (rank o)) r = false) ->
              run ndebug (infix 0 (Bin o l r) ++ tok :: rest) (mk_state S0 O true new_NumData) =
              (v ← value ndebug (Bin o l r);
               st ← finish ndebug tok v (mk_state S0 O true new_NumData); run ndebug rest st)).
    { clear Hf Ho Hp tok rest O. intros q tok rest O Hf Ho Hq Hp.
      destruct Hl as [Hll Hlr], Hm as (Hml & Hmr & Hmo).
      cbn [infix value]. rewrite decide_False by lia. rewrite <- (assoc_L (++)). cbn [app].
      rewrite IHl; [|done|done|by constructor|by eapply opens_mono|by destruct o].
      destruct (value ndebug l) as [x| | |]; try done. cbn [mbind outcome_bind].
      rewrite push_op, bind_ok by (by eapply opens_mono).
      rewrite IHr; [|done|done|eapply follower_mono; [done|lia]|constructor; lia|done].
      destruct (value ndebug r) as [y| | |]; try done. cbn [mbind outcome_bind].
      rewrite reduce_op by (by eapply follower_mono).
      by destruct (Calculate _ _ _ _). }
    rewrite infix_bin. cbn [ends_paren] in Hp. case_decide.
    + eapply run_paren; [done|intros ->; by specialize (Hp eq_refl)|].
      intros O' rest' HO'. apply (Hin 0%nat); [constructor|done|lia|done].
    + apply (Hin p); [done|done|lia|done].
Qed.

(** C17: the calculator implements the precedence grammar: on the text of an expression
    with at most nine digits per literal, closed by [#], it returns the value of the
    expression, and runs into undefined behaviour exactly when that value does not exist
    (overflow, division by zero); the text may have no subtraction directly after
    a closing parenthesis. *)
Theorem EvaluateExpression_value ndebug e :
  lits_ok lit_ok e -> minus_ok e ->
  EvaluateExpression ndebug (infix 0 e ++ [L "#"]) = value ndebug e.
Proof.
  intros Hl Hm. unfold EvaluateExpression, initial.
  rewrite (run_expr ndebug e 0 [] [] (L "#") []); try done; [|constructor|constructor].
  by destruct (value ndebug e).
Qed.

Definition sample_expr : expr :=
  Bin Add (Bin Sub (Num 0 [1; 2]) (Bin Mul (Num 0 [3]) (Group (Bin Sub (Num 1 [4]) (Num 2 [5])))))
          (Bin Div (Num 0 [8; 0]) (Bin Mul (Num 0 [2]) (Num 0 [3]))).

Example sample_text : infix 0 sample_expr = wlit "12-3*(-4---5)+80/(2*3)".
Proof. vm_compute. reflexivity. Qed.

Lemma EvaluateExpression_value_witness :
  minus_ok (Bin Add sample_expr (Num 0 [1])) /\
  EvaluateExpression false (infix 0 (Bin Add sample_expr (Num 0 [1])) ++ [L "#"]) =
    value false (Bin Add sample_expr (Num 0 [1])).
Proof.
  split; [|apply EvaluateExpression_value]; apply (bool_decide_unpack _); vm_compute; exact I.
Defined.

Definition paren_minus (a b c : Z) : expr :=
  Bin Sub (Group (Bin Add (Num 0 [a]) (Num 0 [b]))) (Num 0 [c]).

Definition paren_minus_check (ndebug : bool) (abc : Z * Z * Z) : bool :=
  let '(a, b, c) := abc in
  match EvaluateExpression ndebug (infix 0 (paren_minus a b c) ++ [L "#"]),
        value ndebug (paren_minus a b c) with
  | Ok x, Ok y => (x =? - c) && (y =? a + b - c)
  | _, _ => false
  end.

Definition digit_triples : list (Z * Z * Z) :=
  a ← seqZ 0 10; b ← seqZ 0 10; c ← seqZ 0 10; [(a, b, c)].

Lemma paren_minus_checked : forallb (paren_minus_check true) digit_triples = true /\
                            forallb (paren_minus_check false) digit_triples = true.
Proof. vm_compute. done. Qed.

(** After a closing parenthesis the code reads [-] as a sign: [(a+b)-c] evaluates
    to [-c], for all single digits, while its value is [a+b-c]. *)
Theorem minus_after_paren ndebug a b c :
  digit a -> digit b -> digit c ->
  EvaluateExpression ndebug (infix 0 (paren_minus a b c) ++ [L "#"]) = Ok (- c) /\
  value ndebug (paren_minus a b c) = Ok (a + b - c).
Proof.
  unfold digit. intros Ha Hb Hc.
  assert (Hin : In (a, b, c) digit_triples).
  { unfold digit_triples. apply list_elem_of_In.
    apply list_elem_of_bind. exists a. split; [|apply elem_of_seqZ; lia].
    apply list_elem_of_bind. exists b. split; [|apply elem_of_seqZ; lia].
    apply list_elem_of_bind. exists c. split; [|apply elem_of_seqZ; lia].
    by apply list_elem_of_singleton. }
  destruct paren_minus_checked as [H1 H2]. rewrite forallb_forall in H1, H2.
  assert (H : paren_minus_check ndebug (a, b, c) = true) by (destruct ndebug; auto).
  unfold paren_minus_check in H.
  destruct (EvaluateExpression _ _), (value _ _); try discriminate.
  apply andb_true_iff in H as [H3 H4]. zify_bool. by subst.
Qed.

Lemma minus_after_paren_witness :
  EvaluateExpression false (wlit "(1+2)-3#") = Ok (- (3)) /\
  value false (paren_minus 1 2 3) = Ok (1 + 2 - 3).
Proof. apply (minus_after_paren false 1 2 3); by compute. Defined.
