(* ===== verification/ExpTree.v ===== *)
(** * The expression tree

    Models "Expression Tree/exptree.cpp": [InfixToPostfix], [ConstructExpTree] and
    [Eval], and [ExpEval], which composes them.  A node owns its children; the tree
    is destroyed after its evaluation, so it is a value here. *)

From S2P Require Import Prelude Expr.

Inductive node :=
| NULL
| Node (data : Z) (pLeftChild pRightChild : node).

Definition CreateTree (data : Z) (pLeftChild pRightChild : node) : node :=
  Node data pLeftChild pRightChild.

Fixpoint construct_loop (postfixExp : wstr) (nodeStack : list node) : outcome (list node) :=
  match postfixExp with
  | [] => Ok nodeStack
  | it :: postfixExp =>
      if (L "0" <=? it) && (it <=? L "9")
      then construct_loop postfixExp (CreateTree (it - L "0") NULL NULL :: nodeStack)
      else
        '(pRight, nodeStack) ← pop nodeStack;
        '(pLeft, nodeStack) ← pop nodeStack;
        construct_loop postfixExp (CreateTree it pLeft pRight :: nodeStack)
  end.

Definition ConstructExpTree (postfixExp : wstr) : outcome node :=
  nodeStack ← construct_loop postfixExp [];
  '(pRoot, _) ← pop nodeStack;
  Ok pRoot.

Section ExpTree.
Context (ndebug : bool).

Fixpoint Eval (pRoot : node) : outcome Z :=
  match pRoot with
  | NULL => Undef
  | Node data NULL NULL => Ok data
  | Node data pLeftChild pRightChild =>
      num1 ← Eval pLeftChild;
      num2 ← Eval pRightChild;
      Calculate ndebug num1 num2 data
  end.

Definition GetPriority (op : Z) : outcome Z :=
  let priority :=
    if (op =? L "+") || (op =? L "-") then 1
    else if (op =? L "*") || (op =? L "/") then 2
    else if (op =? L "(") || (op =? L ")") then 3
    else -1 in
  assert_ ndebug (negb (priority =? -1));;
  Ok priority.

(** The loop of the branch of [')'], on the stack (top first) and the output. *)
Fixpoint close_loop (stackOp : list Z) (postfixExp : wstr) : outcome (list Z * wstr) :=
  match stackOp with
  | [] => Undef
  | op :: stackOp =>
      if L "(" =? op then Ok (stackOp, postfixExp)
      else close_loop stackOp (postfixExp ++ [op])
  end.

(** The loop of the branch of the other operators. *)
Fixpoint reduce_loop (p : Z) (stackOp : list Z) (postfixExp : wstr) : outcome (list Z * wstr) :=
  match stackOp with
  | [] => Ok ([p], postfixExp)
  | op :: below =>
      if L "(" =? op then Ok (p :: stackOp, postfixExp)
      else
        pp ← GetPriority p;
        po ← GetPriority op;
        if po <? pp then Ok (p :: stackOp, postfixExp)
        else reduce_loop p below (postfixExp ++ [op])
  end.

Fixpoint infix_loop (exp : wstr) (stackOp : list Z) (postfixExp : wstr) : outcome (list Z * wstr) :=
  match exp with
  | [] => Ok (stackOp, postfixExp)
  | p :: exp =>
      if p =? 0 then Ok (stackOp, postfixExp)
      else if (L "0" <=? p) && (p <=? L "9") then infix_loop exp stackOp (postfixExp ++ [p])
      else if L "(" =? p then infix_loop exp (p :: stackOp) postfixExp
      else if L ")" =? p then
        '(stackOp, postfixExp) ← close_loop stackOp postfixExp;
        infix_loop exp stackOp postfixExp
      else
        '(stackOp, postfixExp) ← reduce_loop p stackOp postfixExp;
        infix_loop exp stackOp postfixExp
  end.

(** The remaining operators, from the top of the stack. *)
Definition InfixToPostfix (pszInfixExp : wstr) : outcome wstr :=
  '(stackOp, postfixExp) ← infix_loop pszInfixExp [] [];
  Ok (postfixExp ++ stackOp).

Definition ExpEval (pszExp : wstr) : outcome Z :=
  pexp ← InfixToPostfix pszExp;
  pR ← ConstructExpTree pexp;
  Eval pR.
End ExpTree.

#[global] Arguments GetPriority : simpl never.

Example exp_eval_1 : ExpEval false (wlit "(1+2)-3*4-5") = Ok (-14).
Proof. vm_compute. reflexivity. Qed.

(** ** The trees and postfix texts of expressions *)

Fixpoint postfix (e : expr) : wstr :=
  match e with
  | Num _ digits => map digit_char digits
  | Group e => postfix e
  | Bin o l r => postfix l ++ postfix r ++ [op_char o]
  end.

Fixpoint tree (e : expr) : node :=
  match e with
  | Num _ digits => Node (decimal digits) NULL NULL
  | Group e => tree e
  | Bin o l r => Node (op_char o) (tree l) (tree r)
  end.

(** The program knows operands of one digit, without signs. *)
Definition one_digit (signs : nat) (digits : list Z) : Prop :=
  signs = O /\ length digits = 1%nat /\ Forall digit digits.
#[global] Instance one_digit_dec s d : Decision (one_digit s d).
Proof. unfold one_digit. apply _. Defined.

Lemma one_digit_inv signs ds : one_digit signs ds -> signs = O /\ exists d, ds = [d] /\ digit d.
Proof.
  intros (-> & Hl & Hd). split; [done|]. destruct ds as [|d [|]]; try done.
  exists d. split; [done|]. by rewrite Forall_singleton in Hd.
Qed.

Lemma digit_char_class d : digit d -> (48 <=? digit_char d) && (digit_char d <=? 57) = true.
Proof.
  intros H%digit_char_range. apply andb_true_iff. split; apply Z.leb_le; lia.
Qed.

(** *** Postfix to tree *)

Lemma construct_digit d rest st :
  digit d -> construct_loop (digit_char d :: rest) st = construct_loop rest (Node d NULL NULL :: st).
Proof.
  intros Hd. cbn [construct_loop]. change (L "0") with 48. change (L "9") with 57.
  rewrite digit_char_class by done. unfold digit_char, CreateTree. change (L "0") with 48.
  by replace (48 + d - 48) with d by lia.
Qed.

Lemma construct_postfix e : forall rest st,
  lits_ok one_digit e -> construct_loop (postfix e ++ rest) st = construct_loop rest (tree e :: st).
Proof.
  induction e as [signs ds|e IH|o l IHl r IHr]; intros rest st Hl; cbn [postfix tree].
  - apply one_digit_inv in Hl as (_ & d & -> & Hd). cbn [map app construct_loop].
    change (L "0") with 48. change (L "9") with 57. rewrite digit_char_class by done.
    unfold digit_char, CreateTree, decimal. change (L "0") with 48. cbn [fold_left].
    by replace (48 + d - 48) with (10 * 0 + d) by lia.
  - by apply IH.
  - destruct Hl as [Hll Hlr]. rewrite <- !(assoc_L (++)), IHl, IHr by done.
    by destruct o.
Qed.

Lemma Eval_tree ndebug e : lits_ok one_digit e -> Eval ndebug (tree e) = value ndebug e.
Proof.
  induction e as [signs ds|e IH|o l IHl r IHr]; intros Hl; cbn [tree value].
  - apply one_digit_inv in Hl as (-> & d & -> & Hd). done.
  - by apply IH.
  - destruct Hl as [Hll Hlr]. rewrite <- IHl, <- IHr by done. cbn [Eval].
    destruct (tree l) eqn:E; [|done]. exfalso. clear -E. induction l; simpl in E; congruence.
Qed.

(** *** Infix to postfix *)

Lemma GetPriority_rank ndebug o : GetPriority ndebug (op_char o) = Ok (Z.of_nat (rank o)).
Proof. destruct ndebug, o; reflexivity. Qed.

(** What may follow an operand of an operator of rank [p]. *)
Inductive ends_operand (p : nat) : Z -> Prop :=
| end_close : ends_operand p (L ")")
| end_op o : (rank o <= p)%nat -> ends_operand p (op_char o).

Inductive stack_below (p : nat) : list Z -> Prop :=
| below_nil : stack_below p []
| below_paren O : stack_below p (L "(" :: O)
| below_op o O : (rank o < p)%nat -> stack_below p (op_char o :: O).

Lemma stack_below_mono p q O : stack_below p O -> (p <= q)%nat -> stack_below q O.
Proof. intros [| |o O' Ho] Hq; constructor; lia. Qed.

(** The rest of the text pops the operator [o]: it is at its end, or goes on with a
    token that ends its right operand. *)
Definition ends_rest (p : nat) (rest : wstr) : Prop :=
  match rest with [] => True | tok :: _ => ends_operand p tok end.

(** [infix_loop], with the stack emptied at the end of the text. *)
Definition to_postfix (ndebug : bool) (exp : wstr) (O : list Z) (out : wstr) : outcome wstr :=
  '(stackOp, postfixExp) ← infix_loop ndebug exp O out; Ok (postfixExp ++ stackOp).

Lemma to_postfix_digit ndebug d rest O out :
  digit d ->
  to_postfix ndebug (digit_char d :: rest) O out = to_postfix ndebug rest O (out ++ [digit_char d]).
Proof.
  intros Hd. unfold to_postfix. cbn [infix_loop]. pose proof (digit_char_range d Hd).
  rewrite (proj2 (Z.eqb_neq _ _)) by lia.
  change (L "0") with 48. change (L "9") with 57. by rewrite digit_char_class by done.
Qed.

Lemma to_postfix_pop ndebug o rest O out :
  ends_rest (rank o) rest ->
  to_postfix ndebug rest (op_char o :: O) out = to_postfix ndebug rest O (out ++ [op_char o]).
Proof.
  destruct rest as [|tok rest]; intros Hr; unfold to_postfix; cbn [infix_loop].
  { cbn [mbind outcome_bind]. by rewrite <- (assoc_L (++)). }
  destruct Hr as [|o' Ho].
  - cbn -[close_loop infix_loop]. cbn [close_loop]. by destruct o.
  - replace (op_char o' =? 0) with false by (by destruct o').
    replace ((L "0" <=? op_char o') && (op_char o' <=? L "9")) with false by (by destruct o').
    replace (L "(" =? op_char o') with false by (by destruct o').
    replace (L ")" =? op_char o') with false by (by destruct o').
    cbn [reduce_loop]. replace (L "(" =? op_char o) with false by (by destruct o).
    rewrite !GetPriority_rank. cbn [mbind outcome_bind]. by rewrite (proj2 (Z.ltb_ge _ _)) by lia.
Qed.

Lemma to_postfix_push ndebug o rest O out :
  stack_below (rank o) O ->
  to_postfix ndebug (op_char o :: rest) O out = to_postfix ndebug rest (op_char o :: O) out.
Proof.
  intros Ho. unfold to_postfix. cbn [infix_loop].
  replace (op_char o =? 0) with false by (by destruct o).
  replace ((L "0" <=? op_char o) && (op_char o <=? L "9")) with false by (by destruct o).
  replace (L "(" =? op_char o) with false by (by destruct o).
  replace (L ")" =? op_char o) with false by (by destruct o).
  destruct Ho as [|O|o' O Ho]; [done|done|]. cbn [reduce_loop].
  replace (L "(" =? op_char o') with false by (by destruct o').
  rewrite !GetPriority_rank. cbn [mbind outcome_bind]. by rewrite (proj2 (Z.ltb_lt _ _)) by lia.
Qed.

Lemma to_postfix_paren ndebug body rest O out out' :
  (forall O rest', stack_below 0 O ->
     to_postfix ndebug (body ++ L ")" :: rest') O out = to_postfix ndebug (L ")" :: rest') O out') ->
  to_postfix ndebug (paren body ++ rest) O out = to_postfix ndebug rest O out'.
Proof.
  intros Hb. unfold paren. cbn [app]. rewrite <- (assoc_L (++)). cbn [app].
  change (to_postfix ndebug (L "(" :: ?x) O out) with (to_postfix ndebug x (L "(" :: O) out).
  rewrite Hb by constructor. done.
Qed.

Lemma to_postfix_infix ndebug e : forall p rest O out,
  lits_ok one_digit e -> ends_rest p rest -> stack_below p O ->
  to_postfix ndebug (infix p e ++ rest) O out = to_postfix ndebug rest O (out ++ postfix e).
Proof.
  induction e as [signs ds|e IH|o l IHl r IHr]; intros p rest O out Hl Hr Ho.
  - apply one_digit_inv in Hl as (-> & d & -> & Hd). cbn [infix replicate map app postfix].
    by apply to_postfix_digit.
  - cbn [infix postfix]. apply to_postfix_paren. intros O' rest' HO'. apply IH; try done. constructor.
  - assert (Hin : forall q rest O, ends_rest q rest -> stack_below q O -> (q <= rank o)%nat ->
              to_postfix ndebug (infix 0 (Bin o l r) ++ rest) O out =
              to_postfix ndebug rest O (out ++ postfix (Bin o l r))).
    { clear Hr Ho rest O. intros q rest O Hr Ho Hq. destruct Hl as [Hll Hlr].
      cbn [infix postfix]. rewrite decide_False by lia. rewrite <- (assoc_L (++)). cbn [app].
      rewrite IHl; [|done|by constructor|by eapply stack_below_mono].
      rewrite to_postfix_push by (by eapply stack_below_mono).
      rewrite IHr; [|done| |constructor; lia].
      - rewrite to_postfix_pop, <- !(assoc_L (++)); [done|].
        destruct rest as [|? ?]; [done|]. destruct Hr; constructor; lia.
      - destruct rest as [|? ?]; [done|]. destruct Hr; constructor; lia. }
    rewrite infix_bin. case_decide.
    + apply to_postfix_paren. intros O' rest' HO'. apply (Hin 0%nat); [constructor|done|lia].
    + apply (Hin p); [done|done|lia].
Qed.

Lemma InfixToPostfix_infix ndebug e :
  lits_ok one_digit e -> InfixToPostfix ndebug (infix 0 e) = Ok (postfix e).
Proof.
  intros Hl. pose proof (to_postfix_infix ndebug e 0 [] [] [] Hl I ltac:(constructor)) as H.
  rewrite app_nil_r in H. unfold to_postfix in H. cbn in H. by rewrite app_nil_r in H.
Qed.

(** C19: converting the text of an expression to postfix gives its postfix text, the
    tree built from that is the expression's tree, and evaluating the whole gives the
    value of the expression: for operands of one digit, which is all the program reads. *)
Theorem ExpEval_value ndebug e :
  lits_ok one_digit e ->
  InfixToPostfix ndebug (infix 0 e) = Ok (postfix e) /\
  ConstructExpTree (postfix e) = Ok (tree e) /\
  ExpEval ndebug (infix 0 e) = value ndebug e.
Proof.
  intros Hl. assert (Hc : ConstructExpTree (postfix e) = Ok (tree e)).
  { unfold ConstructExpTree. rewrite <- (app_nil_r (postfix e)).
    by rewrite construct_postfix. }
  split_and!; [by apply InfixToPostfix_infix|done|].
  unfold ExpEval. rewrite InfixToPostfix_infix by done. cbn [mbind outcome_bind]. rewrite Hc.
  cbn [outcome_bind]. by apply Eval_tree.
Qed.

Definition sample_digits : expr :=
  Bin Sub (Bin Mul (Bin Add (Num 0 [1]) (Num 0 [2])) (Num 0 [3])) (Bin Sub (Num 0 [4]) (Num 0 [5])).

Lemma ExpEval_value_witness :
  InfixToPostfix false (wlit "(1+2)*3-(4-5)") = Ok (wlit "12+3*45--") /\
  ConstructExpTree (postfix sample_digits) = Ok (tree sample_digits) /\
  ExpEval false (infix 0 sample_digits) = Ok 10.
Proof. apply (ExpEval_value false sample_digits). apply (bool_decide_unpack _). vm_compute. exact I. Defined.

(** An operand of several digits is not read as a number: its digits become
    operands of their own, of which the tree keeps the last ones. *)
Theorem ExpEval_two_digits ndebug a b c :
  digit a -> digit b -> digit c ->
  ExpEval ndebug (map digit_char [a; b] ++ op_char Add :: [digit_char c]) = Ok (b + c).
Proof.
  intros Ha Hb Hc. unfold ExpEval, InfixToPostfix.
  fold (to_postfix ndebug (map digit_char [a; b] ++ op_char Add :: [digit_char c]) [] []).
  cbn [map app]. rewrite !to_postfix_digit, to_postfix_push, to_postfix_digit by (done || constructor).
  rewrite to_postfix_pop by done. unfold to_postfix. cbn [infix_loop app mbind outcome_bind].
  unfold ConstructExpTree. rewrite !construct_digit by done. cbn [construct_loop].
  change ((L "0" <=? op_char Add) && (op_char Add <=? L "9")) with false.
  cbn [pop mbind outcome_bind CreateTree Eval]. unfold digit in *.
  change (Calculate ndebug b c (op_char Add))
    with (ret ← int_ (b + c); assert_ ndebug (negb (ret =? INT_MIN));; Ok ret).
  unfold int_. rewrite decide_True by (unfold in_i; lia). cbn [mbind outcome_bind].
  rewrite (proj2 (Z.eqb_neq _ _)) by (unfold INT_MIN; lia).
  unfold assert_. by rewrite orb_true_r.
Qed.

Example two_digits : ExpEval true (wlit "12+3") = Ok (2 + 3).
Proof. apply (ExpEval_two_digits true 1 2 3); by compute. Defined.
