(* ===== verification/Router.v ===== *)
(** * The radix tree of the HTTP router

    Models learn-cxx/beast/http_router/tree.h: [find_wildcard],
    [longest_common_prefix] and the class [node] with [add_route], [locate],
    [insert_route], [insert_path] and [increment_child_priority].

    A node owns its children.  A registration that throws leaves the tree changed, so
    the operations return the node together with what was thrown; the text of the
    messages is not modelled.  The priorities are unbounded here ([int] in the code).
    A failed assertion is undefined. *)

From S2P Require Import Prelude.

Record param := mk_param { key : str; value : str }.

Record wildcard_result := mk_wildcard { name : str; wpos : option nat }.

Definition found (w : wildcard_result) : bool := if wpos w is Some _ then true else false.
Definition valid_name (w : wildcard_result) : bool := bool_decide (1 < length (name w))%nat.
Definition unknown_wildcard : wildcard_result := mk_wildcard [] None.

(** [s.find_first_of(set, from)] *)
Fixpoint find_first_of (set s : str) : option nat :=
  match s with
  | [] => None
  | c :: s => if decide (c ∈ set) then Some O else S <$> find_first_of set s
  end.
Definition find_first_of_from (set s : str) (from : nat) : option nat :=
  Nat.add from <$> find_first_of set (drop from s).

Definition find_wildcard (path : str) : wildcard_result :=
  match find_first_of (lit ":*") path with
  | None => unknown_wildcard
  | Some start =>
      match find_first_of_from (lit ":*/") path (start + 1) with
      | None => mk_wildcard (drop start path) (Some start)
      | Some stop =>
          if decide (path !! stop = Some "/"%char)
          then mk_wildcard (take (stop - start) (drop start path)) (Some start)
          else mk_wildcard [] (Some start)
      end
  end.

Fixpoint longest_common_prefix (s1 s2 : str) : nat :=
  match s1, s2 with
  | a :: s1, b :: s2 => if decide (a = b) then S (longest_common_prefix s1 s2) else O
  | _, _ => O
  end.

Definition ends_with (s : str) (c : ascii) : bool := bool_decide (last s = Some c).

Inductive type := plain | root | param_type | catch_all.
#[global] Instance type_eq_dec : EqDecision type.
Proof. solve_decision. Defined.

Section Tree.
Context {H : Type}.


(** [handler_t]: an empty function is [None]. *)
Notation handler_t := (option H).

Inductive node := mk_node {
  path_ : str;
  indices_ : str;
  has_wild_child_ : bool;
  type_ : type;
  priority_ : Z;
  children_ : list node;
  handler_ : handler_t
}.

Definition new_node : node := mk_node [] [] false plain 0 [] None.

Definition set_path p n := mk_node p (indices_ n) (has_wild_child_ n) (type_ n) (priority_ n) (children_ n) (handler_ n).
Definition set_type t n := mk_node (path_ n) (indices_ n) (has_wild_child_ n) t (priority_ n) (children_ n) (handler_ n).
Definition bump n := mk_node (path_ n) (indices_ n) (has_wild_child_ n) (type_ n) (priority_ n + 1) (children_ n) (handler_ n).
Definition set_children i cs n := mk_node (path_ n) i (has_wild_child_ n) (type_ n) (priority_ n) cs (handler_ n).
Definition set_handler h n := mk_node (path_ n) (indices_ n) (has_wild_child_ n) (type_ n) (priority_ n) (children_ n) h.

(** ** Looking up a path *)

(** [string_view::substr(pos)] *)
Definition substr (s : str) (pos : nat) : outcome str :=
  if decide (pos <= length s)%nat then Ok (drop pos s) else Throw out_of_range.

(** [h ? &h : nullptr] *)
Definition handler_ptr (h : handler_t) : option handler_t :=
  match h with Some _ => Some h | None => None end.

(** The result: the address of a handler, or null, and the parameters. *)
Fixpoint locate (n : node) (path : str) (params : list param)
    : outcome (option handler_t * list param) :=
  if decide (length path = length (path_ n)) then Ok (handler_ptr (handler_ n), params)
  else if bool_decide (length (path_ n) < length path)%nat && has_prefix path (path_ n) then
    let path := drop (length (path_ n)) path in
    if negb (has_wild_child_ n) then
      idxc ← the (head path);
      match find_char idxc (indices_ n) with
      | None => Ok (None, params)
      | Some pos =>
          child_locate ← the (map (fun c => locate c) (children_ n) !! pos);
          child_locate path params
      end
    else
      child ← the (head (children_ n));
      match type_ child with
      | param_type =>
          let param_end := find_char "/" path in
          key ← substr (path_ child) 1;
          let value := match param_end with Some e => take e path | None => path end in
          let params := params ++ [mk_param key value] in
          match param_end with
          | None => Ok (handler_ptr (handler_ child), params)
          | Some e =>
              match map (fun c => map (fun g => locate g) (children_ c)) (children_ n) with
              | (grand_child_locate :: _) :: _ => grand_child_locate (drop e path) params
              | _ => Ok (None, params)
              end
          end
      | catch_all =>
          key ← substr (path_ child) 2;
          Ok (Some (handler_ child), params ++ [mk_param key path])
      | _ => Throw runtime_error
      end
  else Ok (None, params).

(** ** Registering a path *)

(** [insert_path]; all calls pass [unknown_wildcard].  The argument shrinks with
    every wildcard; the fuel is its length. *)
Fixpoint insert_path (fuel : nat) (n : node) (path : str) (wildcard : wildcard_result)
    (handler : handler_t) : outcome (node * option exn) :=
  match fuel with
  | O => OutOfFuel
  | S fuel =>
      let scanned := if found wildcard then wildcard else find_wildcard path in
      match wpos scanned with
      | None => Ok (set_handler handler (set_path path n), None)
      | Some pos =>
          if negb (found wildcard) && negb (valid_name scanned) then Ok (n, Some invalid_argument)
          else if negb (found wildcard) && negb (bool_decide (children_ n = []))
          then Ok (n, Some invalid_argument)
          else if has_prefix (name scanned) (lit ":") then
            let plain_segments := take pos path in
            let '(n, path) :=
              if decide (plain_segments = []) then (n, path)
              else (set_path plain_segments n, drop (length plain_segments) path) in
            let with_child child :=
              mk_node (path_ n) (indices_ n) true (type_ n) (priority_ n)
                      (children_ n ++ [child]) (handler_ n) in
            let child cs h := mk_node (name scanned) [] false param_type 1 cs h in
            if decide (length path = length (name scanned))
            then Ok (with_child (child [] handler), None)
            else
              rest ← substr path (length (name scanned));
              '(grand_child, e) ← insert_path fuel (bump new_node) rest unknown_wildcard handler;
              Ok (with_child (child [grand_child] None), e)
          else if negb (bool_decide (pos + length (name scanned) = length path)%nat)
          then Ok (n, Some invalid_argument)
          else if negb (bool_decide (path_ n = [])) && ends_with (path_ n) "/"
          then Ok (n, Some invalid_argument)
          else
            assert (bool_decide (0 < pos)%nat);;
            let pos := (pos - 1)%nat in
            c ← the (path !! pos);
            if negb (bool_decide (c = "/"%char)) then Ok (n, Some invalid_argument)
            else
              let grand_child := mk_node (drop pos path) [] false catch_all 1 [] handler in
              let child := mk_node [] [] true catch_all 1 [grand_child] None in
              Ok (mk_node (take pos path) (lit "/") (has_wild_child_ n) (type_ n) (priority_ n)
                          (children_ n ++ [child]) (handler_ n), None)
      end
  end.

(** The loop of [increment_child_priority]. *)
Fixpoint settle (prio : Z) (cs : list node) (new_pos : nat) : outcome nat :=
  match new_pos with
  | O => Ok O
  | S below =>
      c ← the (cs !! below);
      if priority_ c <? prio then settle prio cs below else Ok new_pos
  end.

(** Takes the element at [pos] out, shifts [new_pos, pos) to the right and puts it at
    [new_pos]. *)
Definition move_to {A} (pos new_pos : nat) (x : A) (l : list A) : list A :=
  take new_pos l ++ x :: take (pos - new_pos) (drop new_pos l) ++ drop (S pos) l.

Definition increment_child_priority (n : node) (pos : nat) : outcome (nat * node) :=
  assert (bool_decide (length (indices_ n) = length (children_ n)));;
  child ← the (children_ n !! pos);
  let child := bump child in
  let cs := <[pos := child]> (children_ n) in
  new_pos ← settle (priority_ child) cs pos;
  idxc ← the (indices_ n !! pos);
  Ok (new_pos, set_children (move_to pos new_pos idxc (indices_ n))
                            (move_to pos new_pos child cs) n).

(** The split of a node at [len]. *)
Definition split_node (len : nat) (n : node) : node :=
  let child := mk_node (drop len (path_ n)) (indices_ n) (has_wild_child_ n) plain
                       (priority_ n - 1) (children_ n) (handler_ n) in
  mk_node (take len (path_ n)) (take 1 (drop len (path_ n))) false (type_ n) (priority_ n)
          [child] None.

(** What [insert_route] does with the rest of the path below [n]; [insert] is the
    call on a child. *)
Section InsertBelow.
Context (insert : node -> str -> handler_t -> outcome (node * option exn)).

Definition insert_into (pos : nat) (n : node) (path : str) (handler : handler_t)
    : outcome (node * option exn) :=
  child ← the (children_ n !! pos);
  '(child, e) ← insert child path handler;
  Ok (set_children (indices_ n) (<[pos := child]> (children_ n)) n, e).

Definition bump_front (n : node) : outcome node :=
  child ← the (head (children_ n));
  Ok (set_children (indices_ n) (<[0%nat := bump child]> (children_ n)) n).

Definition insert_below (n : node) (path : str) (handler : handler_t) : outcome (node * option exn) :=
  if has_wild_child_ n then
    child ← the (head (children_ n));
    n ← bump_front n;
    let fits := bool_decide (length (path_ child) = length path) ||
                bool_decide (path !! length (path_ child) = Some "/"%char) in
    if has_prefix path (path_ child) && negb (bool_decide (type_ child = catch_all)) && fits
    then insert_into 0 n path handler
    else Ok (n, Some invalid_argument)
  else
    idxc ← the (head path);
    if bool_decide (type_ n = param_type) && bool_decide (idxc = "/"%char) &&
       negb (bool_decide (children_ n = [])) then
      assert (bool_decide (length (children_ n) = 1%nat));;
      n ← bump_front n;
      insert_into 0 n path handler
    else
      match find_char idxc (indices_ n) with
      | Some i => '(i, n) ← increment_child_priority n i; insert_into i n path handler
      | None =>
          if negb (bool_decide (idxc = ":"%char)) && negb (bool_decide (idxc = "*"%char)) then
            let n := set_children (indices_ n ++ [idxc]) (children_ n ++ [new_node]) n in
            '(i, n) ← increment_child_priority n (length (indices_ n) - 1);
            child ← the (children_ n !! i);
            '(child, e) ← insert_path (S (length path)) child path unknown_wildcard handler;
            Ok (set_children (indices_ n) (<[i := child]> (children_ n)) n, e)
          else insert_path (S (length path)) n path unknown_wildcard handler
      end.
End InsertBelow.

Fixpoint insert_route (fuel : nat) (n : node) (path : str) (handler : handler_t)
    : outcome (node * option exn) :=
  match fuel with
  | O => OutOfFuel
  | S fuel =>
      let len := longest_common_prefix path (path_ n) in
      let n := if decide (len < length (path_ n))%nat then split_node len n else n in
      if decide (len = length path) then
        match handler_ n with
        | Some _ => Ok (n, Some invalid_argument)
        | None => Ok (set_handler handler n, None)
        end
      else insert_below (insert_route fuel) n (drop len path) handler
  end.

(** [add_route]; every level but the root consumes a character. *)
Definition add_route (n : node) (path : str) (handler : handler_t) : outcome (node * option exn) :=
  let n := bump n in
  if bool_decide (path_ n = []) && bool_decide (indices_ n = []) then
    '(n, e) ← insert_path (S (length path)) n path unknown_wildcard handler;
    Ok (match e with None => set_type root n | Some _ => n end, e)
  else insert_route (S (S (length path))) n path handler.
End Tree.

Arguments node : clear implicits.

(** ** Registrations and lookups of the project's tests *)

Fixpoint add_routes {H} (n : node H) (rs : list (str * H)) : outcome (node H * list (option exn)) :=
  match rs with
  | [] => Ok (n, [])
  | (r, h) :: rs => '(n, e) ← add_route n r (Some h); '(n, es) ← add_routes n rs; Ok (n, e :: es)
  end.

Definition numbered (rs : list String.string) : list (str * nat) :=
  zip (map lit rs) (seq 0 (length rs)).

Definition ask (rs : list String.string) (q : String.string) : outcome (option (option nat) * list param) :=
  '(n, _) ← add_routes new_node (numbered rs); locate n (lit q) [].

Definition conflicts (rs : list String.string) : outcome (list (option exn)) :=
  '(_, es) ← add_routes new_node (numbered rs); Ok es.

Example wildcard_conflicts :
  map conflicts [["/cmd/:tool/:sub"; "/cmd/vet"]; ["/con:tact"; "/conooo/xxx"]; ["/:foo*bar"];
                 ["/src/*filepath"; "/src/"]; ["/"; "/*filepath"]; ["/id/:id"; "/:id"; "/id:id"]]%string =
  [Ok [None; Some invalid_argument]; Ok [None; Some invalid_argument]; Ok [Some invalid_argument];
   Ok [None; Some invalid_argument]; Ok [None; Some invalid_argument];
   Ok [None; Some invalid_argument; Some invalid_argument]].
Proof. vm_compute. reflexivity. Qed.

Example wildcard_lookups :
  map (ask ["/"; "/cmd/:tool/:sub"; "/cmd/:tool/"; "/src/*filepath"; "/user_:name/about"]%string)
      ["/cmd/test/3"; "/cmd/test/"; "/src/some/file"; "/user_go/about"; "/cmd/test"]%string =
  [Ok (Some (Some 1%nat), [mk_param (lit "tool") (lit "test"); mk_param (lit "sub") (lit "3")]);
   Ok (Some (Some 2%nat), [mk_param (lit "tool") (lit "test")]);
   Ok (Some (Some 3%nat), [mk_param (lit "filepath") (lit "/some/file")]);
   Ok (Some (Some 4%nat), [mk_param (lit "name") (lit "go")]);
   Ok (None, [mk_param (lit "tool") (lit "test")])].
Proof. vm_compute. reflexivity. Qed.

(** ** Lemmas on the helpers *)

Lemma find_first_of_None set s : Forall (fun c => c ∉ set) s -> find_first_of set s = None.
Proof. induction 1 as [|c s Hc _ IH]; [done|]. simpl. by rewrite decide_False, IH. Qed.

(** A path without wildcards. *)
Definition static (path : str) : Prop := ":"%char ∉ path /\ "*"%char ∉ path.
#[global] Instance static_dec path : Decision (static path).
Proof. unfold static. apply _. Defined.

Lemma find_wildcard_static path : static path -> find_wildcard path = unknown_wildcard.
Proof.
  intros [H1 H2]. unfold find_wildcard. rewrite find_first_of_None; [done|].
  rewrite Forall_forall. intros c Hc Hin. change (lit ":*") with [":"; "*"]%char in Hin.
  apply elem_of_cons in Hin as [Hin|Hin%list_elem_of_singleton]; by subst.
Qed.

Lemma static_app p q : static (p ++ q) <-> static p /\ static q.
Proof. unfold static. rewrite !not_elem_of_app. tauto. Qed.

(** [longest_common_prefix] cuts both texts where they part. *)
Lemma lcp_view a b : exists p a' b',
  a = p ++ a' /\ b = p ++ b' /\ longest_common_prefix a b = length p /\
  (forall c, head a' = Some c -> head b' <> Some c).
Proof.
  revert b. induction a as [|x a IH]; intros b; [by exists [], [], b|].
  destruct b as [|y b]; [by exists [], (x :: a), []|]. simpl. case_decide as Hxy.
  - subst y. destruct (IH b) as (p & a' & b' & -> & -> & Hl & Hd).
    exists (x :: p), a', b'. split_and!; try done. simpl. by rewrite Hl.
  - exists [], (x :: a), (y :: b). split_and!; try done. simpl. congruence.
Qed.

Lemma move_to_perm {A} pos new (x : A) l :
  (new <= pos < length l)%nat -> move_to pos new x l ≡ₚ x :: take pos l ++ drop (S pos) l.
Proof.
  intros Hp. assert (E : take new l ++ take (pos - new) (drop new l) = take pos l)
    by (rewrite take_take_drop; f_equal; lia).
  unfold move_to. by rewrite <- Permutation_middle, (assoc_L (++)), E.
Qed.

Lemma move_to_insert {A} pos new (x y : A) l :
  (new <= pos < length l)%nat -> <[new := y]> (move_to pos new x l) = move_to pos new y l.
Proof.
  intros Hp. unfold move_to. rewrite insert_app_r_alt by (rewrite length_take; lia).
  rewrite length_take. by replace (new - new `min` length l)%nat with O by lia.
Qed.

Lemma move_to_lookup {A} pos new (x : A) l :
  (new <= pos < length l)%nat -> move_to pos new x l !! new = Some x.
Proof.
  intros Hp. unfold move_to. rewrite lookup_app_r by (rewrite length_take; lia).
  rewrite length_take. by replace (new - new `min` length l)%nat with O by lia.
Qed.

Lemma move_to_forget {A} pos new (x z : A) l :
  (new <= pos < length l)%nat -> move_to pos new x (<[pos := z]> l) = move_to pos new x l.
Proof.
  intros Hp. unfold move_to. rewrite (drop_insert_lt _ (S pos)) by lia.
  rewrite (take_insert_ge _ new), (drop_insert_ge _ new) by lia.
  by rewrite (take_insert_ge _ (pos - new)) by lia.
Qed.

Lemma move_to_Forall2 {A B} (P : A -> B -> Prop) pos new x y l k :
  Forall2 P l k -> P x y -> Forall2 P (move_to pos new x l) (move_to pos new y k).
Proof.
  intros Hlk Hxy. unfold move_to. apply Forall2_app; [by apply Forall2_take|].
  constructor; [done|]. apply Forall2_app; [by apply Forall2_take, Forall2_drop|by apply Forall2_drop].
Qed.

Lemma take_drop_perm {A} pos (x : A) l : l !! pos = Some x -> l ≡ₚ x :: take pos l ++ drop (S pos) l.
Proof. intros Hx. rewrite <- (take_drop_middle l pos x Hx) at 1. by rewrite Permutation_middle. Qed.

(** ** The routes of a tree without wildcards *)

Section Static.
Context {H : Type}.
Implicit Types (n c : node H) (path : str) (h : H).

Definition prefixed (p : str) (rs : list (str * H)) : list (str * H) :=
  map (fun r => (p ++ r.1, r.2)) rs.

Definition own (handler : option H) : list (str * H) :=
  match handler with Some h => [([], h)] | None => [] end.

(** The paths that lead to the handlers of a subtree, from its root on. *)
Fixpoint routes (n : node H) : list (str * H) :=
  prefixed (path_ n) (own (handler_ n) ++ flat_map routes (children_ n)).

(** The same without the path of [n] itself. *)
Definition below (n : node H) : list (str * H) := own (handler_ n) ++ flat_map routes (children_ n).

Definition keys (rs : list (str * H)) : list str := map fst rs.

(** The shape of the tree: every child is found by the first character of its path. *)
Inductive static_node : node H -> Prop :=
| static_intro n :
    has_wild_child_ n = false -> type_ n = plain \/ type_ n = root ->
    NoDup (indices_ n) ->
    Forall2 (fun i c => head (path_ c) = Some i /\ static_node c) (indices_ n) (children_ n) ->
    static_node n.

(** Every priority is the number of routes below. *)
Inductive counted : node H -> Prop :=
| counted_intro n :
    priority_ n = Z.of_nat (length (routes n)) -> Forall counted (children_ n) -> counted n.

Lemma routes_below n : routes n = prefixed (path_ n) (below n).
Proof. by destruct n. Qed.

Lemma prefixed_app p q rs : prefixed p (prefixed q rs) = prefixed (p ++ q) rs.
Proof.
  unfold prefixed. rewrite map_map. apply map_ext. intros r. simpl. by rewrite (assoc_L (++)).
Qed.

Lemma keys_prefixed p rs : keys (prefixed p rs) = map (app p) (keys rs).
Proof. unfold keys, prefixed. by rewrite !map_map. Qed.

Lemma elem_of_keys path rs : path ∈ keys rs <-> exists h, (path, h) ∈ rs.
Proof.
  unfold keys. rewrite list_elem_of_fmap. split.
  - intros ([p h] & -> & Hr). eauto.
  - intros [h Hr]. by exists (path, h).
Qed.

Lemma elem_of_prefixed p s h rs : (p ++ s, h) ∈ prefixed p rs <-> (s, h) ∈ rs.
Proof.
  unfold prefixed. rewrite list_elem_of_fmap. split.
  - intros ([s' h'] & E & Hr). simpl in E. by simplify_eq.
  - intros Hr. by exists (s, h).
Qed.

Lemma prefixed_inv p q h rs : (q, h) ∈ prefixed p rs -> exists s, q = p ++ s /\ (s, h) ∈ rs.
Proof. intros ([s h'] & E & Hr)%list_elem_of_fmap. simplify_eq/=. by exists s. Qed.

Lemma key_prefixed p s rs : p ++ s ∈ keys (prefixed p rs) <-> s ∈ keys rs.
Proof. rewrite !elem_of_keys. by setoid_rewrite elem_of_prefixed. Qed.

Lemma key_routes_inv q n : q ∈ keys (routes n) -> exists s, q = path_ n ++ s /\ s ∈ keys (below n).
Proof.
  rewrite routes_below, elem_of_keys. intros [h (s & -> & Hs)%prefixed_inv].
  exists s. split; [done|]. apply elem_of_keys. eauto.
Qed.

#[local] Instance prefixed_perm p : Proper ((≡ₚ) ==> (≡ₚ)) (prefixed p).
Proof. intros rs rs' E. unfold prefixed. by apply Permutation_map. Qed.

Lemma length_prefixed p rs : length (prefixed p rs) = length rs.
Proof. apply length_map. Qed.

Lemma static_bump n : static_node n -> static_node (bump n).
Proof. intros [? ? ? ? ?]. by constructor. Qed.

Lemma routes_bump n : routes (bump n) = routes n.
Proof. by destruct n. Qed.

Lemma static_child n i c :
  static_node n -> children_ n !! i = Some c ->
  exists x, indices_ n !! i = Some x /\ head (path_ c) = Some x /\ static_node c.
Proof.
  intros [? _ _ _ HF] Hc. destruct (Forall2_lookup_r _ _ _ _ _ HF Hc) as (x & ? & ? & ?). eauto.
Qed.

Lemma static_index n i x :
  static_node n -> indices_ n !! i = Some x ->
  exists c, children_ n !! i = Some c /\ head (path_ c) = Some x /\ static_node c.
Proof.
  intros [? _ _ _ HF] Hx. destruct (Forall2_lookup_l _ _ _ _ _ HF Hx) as (c & ? & ? & ?). eauto.
Qed.

Lemma head_app_Some {A} (p s : list A) x : head p = Some x -> head (p ++ s) = Some x.
Proof. by destruct p. Qed.

(** The keys below a child begin with its index. *)
Lemma key_head n x q : head (path_ n) = Some x -> q ∈ keys (routes n) -> head q = Some x.
Proof. intros Hx (s & -> & _)%key_routes_inv. by apply head_app_Some. Qed.

Lemma key_flat_map s cs : s ∈ keys (flat_map routes cs) <-> exists i c, cs !! i = Some c /\ s ∈ keys (routes c).
Proof.
  rewrite elem_of_keys. setoid_rewrite elem_of_flat_map. setoid_rewrite elem_of_keys. naive_solver.
Qed.

Lemma key_below s n :
  s ∈ keys (below n) <->
  (s = [] /\ is_Some (handler_ n)) \/ exists i c, children_ n !! i = Some c /\ s ∈ keys (routes c).
Proof.
  unfold below, keys. rewrite map_app, elem_of_app, <- key_flat_map. unfold own, keys.
  destruct (handler_ n); simpl.
  - rewrite list_elem_of_singleton. naive_solver.
  - rewrite elem_of_nil. split; [naive_solver|]. intros [[_ [? ?]]|?]; [done|by right].
Qed.

(** The child whose index begins the rest of the path is the only one that can hold
    it. *)
Lemma key_below_index n i x c a :
  static_node n -> indices_ n !! i = Some x -> children_ n !! i = Some c -> head a = Some x ->
  a ∈ keys (below n) <-> a ∈ keys (routes c).
Proof.
  intros Hn Hi Hc Ha. rewrite key_below. split; [|eauto].
  intros [[-> _]|(j & c' & Hc' & Hin)]; [done|].
  destruct (static_child n j c' Hn Hc') as (y & Hj & Hy & _).
  pose proof (key_head _ _ _ Hy Hin) as Hh. rewrite Ha in Hh. injection Hh as ->.
  destruct Hn as [n _ _ Hnd _].
  assert (j = i) as -> by (by eapply NoDup_lookup). congruence.
Qed.

Lemma key_below_none n x a :
  static_node n -> x ∉ indices_ n -> head a = Some x -> a ∉ keys (below n).
Proof.
  intros Hn Hx Ha. rewrite key_below. intros [[-> _]|(j & c' & Hc' & Hin)]; [done|].
  destruct (static_child n j c' Hn Hc') as (y & Hj & Hy & _).
  pose proof (key_head _ _ _ Hy Hin) as Hh. rewrite Ha in Hh. injection Hh as ->.
  apply Hx, list_elem_of_lookup. eauto.
Qed.

Lemma flat_map_perm (f : node H -> list (str * H)) l l' : l ≡ₚ l' -> flat_map f l ≡ₚ flat_map f l'.
Proof.
  induction 1 as [|x l l' _ IH|x y l|l1 l2 l3 _ IH1 _ IH2]; simpl; [done|by rewrite IH| |by rewrite IH1].
  rewrite !(assoc_L (++)). f_equiv. apply Permutation_app_comm.
Qed.
End Static.

(** ** Registering routes without wildcards *)

Section StaticInsert.
Context {H : Type}.
Implicit Types (n c : node H) (path a : str) (h : H).

(** What a registration of a static path does to a subtree: the path is rejected when
    it is there already and becomes one more route otherwise; a subtree whose root
    was just counted up ends up counted. *)
Definition inserted n path h (r : node H * option exn) : Prop :=
  static_node r.1 /\
  (forall x, head (path_ n) = Some x -> head path = Some x -> head (path_ r.1) = Some x) /\
  if decide (path ∈ keys (routes n)) then r.2 = Some invalid_argument /\ routes r.1 ≡ₚ routes n
  else r.2 = None /\ routes r.1 ≡ₚ (path, h) :: routes n /\
       (priority_ n = Z.of_nat (length (routes n)) + 1 -> Forall counted (children_ n) -> counted r.1).

(** The same for the rest [a] of the path below the root. *)
Definition inserted_below n a h (r : node H * option exn) : Prop :=
  static_node r.1 /\ path_ r.1 = path_ n /\
  if decide (a ∈ keys (below n)) then r.2 = Some invalid_argument /\ below r.1 ≡ₚ below n
  else r.2 = None /\ below r.1 ≡ₚ (a, h) :: below n /\ priority_ r.1 = priority_ n /\
       (Forall counted (children_ n) -> Forall counted (children_ r.1)).

Lemma settle_total prio (cs : list (node H)) k :
  (k <= length cs)%nat -> exists j, settle prio cs k = Ok j /\ (j <= k)%nat.
Proof.
  induction k as [|k IH]; intros Hk; [by exists O|]. cbn [settle].
  destruct (lookup_lt_is_Some_2 cs k ltac:(lia)) as [c Hc]. rewrite Hc. cbn [the mbind outcome_bind].
  case_bool; [|by exists (S k)]. destruct IH as (j & Hj & Hle); [lia|]. exists j. split; [done|lia].
Qed.

Lemma increment_child_priority_spec n i x c :
  length (indices_ n) = length (children_ n) ->
  indices_ n !! i = Some x -> children_ n !! i = Some c ->
  exists j, (j <= i < length (children_ n))%nat /\
    increment_child_priority n i =
    Ok (j, set_children (move_to i j x (indices_ n)) (move_to i j (bump c) (children_ n)) n).
Proof.
  intros Hlen Hx Hc. pose proof (lookup_lt_Some _ _ _ Hc) as Hi.
  unfold increment_child_priority, assert. rewrite bool_decide_eq_true_2 by done.
  cbn [mbind outcome_bind]. rewrite Hc. cbn [the mbind outcome_bind].
  destruct (settle_total (priority_ (bump c)) (<[i:=bump c]> (children_ n)) i) as (j & Hj & Hle).
  { rewrite length_insert. lia. }
  rewrite Hj, Hx. cbn [the mbind outcome_bind]. exists j. split; [lia|].
  by rewrite move_to_forget by lia.
Qed.

(** Moving the child [c] of index [x] to another place, as [c']. *)
Lemma move_child n i j x c c' :
  static_node n -> indices_ n !! i = Some x -> children_ n !! i = Some c -> (j <= i)%nat ->
  static_node c' -> head (path_ c') = Some x ->
  let n' := set_children (move_to i j x (indices_ n)) (move_to i j c' (children_ n)) n in
  static_node n' /\
  (forall extra, routes c' ≡ₚ extra ++ routes c -> below n' ≡ₚ extra ++ below n) /\
  (counted c' -> Forall counted (children_ n) -> Forall counted (children_ n')).
Proof.
  intros Hn Hx Hc Hj Hc' Hh. cbn zeta. pose proof (lookup_lt_Some _ _ _ Hc) as Hi.
  assert (Hxi : (i < length (indices_ n))%nat) by (by eapply lookup_lt_Some).
  pose proof (move_to_perm i j c' (children_ n) ltac:(lia)) as Hperm.
  pose proof (take_drop_perm i c (children_ n) Hc) as Hperm0.
  pose proof (move_to_perm i j x (indices_ n) ltac:(lia)) as Hpermi.
  split_and!.
  - destruct Hn as [n Hw Ht Hnd HF]. constructor; cbn [has_wild_child_ type_ indices_ children_ set_children];
      [done|done| |].
    + rewrite Hpermi. by rewrite <- (take_drop_perm i x _ Hx).
    + by apply move_to_Forall2.
  - intros extra He. unfold below. cbn [handler_ children_ set_children].
    rewrite (flat_map_perm _ _ _ Hperm), (flat_map_perm _ _ _ Hperm0). simpl. rewrite He.
    rewrite !(assoc_L (++)). do 2 f_equiv. apply Permutation_app_comm.
  - intros Hcc. cbn [children_ set_children]. intros HF. rewrite Hperm, Forall_cons. split; [done|].
    rewrite Hperm0, Forall_cons in HF. tauto.
Qed.

Lemma insert_path_static path h n fuel :
  static path ->
  insert_path (S fuel) n path unknown_wildcard (Some h) =
  Ok (set_handler (Some h) (set_path path n), None).
Proof. intros Hs. cbn [insert_path found unknown_wildcard wpos]. by rewrite find_wildcard_static. Qed.

(** The branch of a child that exists. *)
Lemma insert_below_child rec n i x c a h r :
  static_node n -> indices_ n !! i = Some x -> children_ n !! i = Some c -> head a = Some x ->
  rec (bump c) a (Some h) = Ok r -> inserted (bump c) a h r ->
  exists r', ('(i, n) ← increment_child_priority n i; insert_into rec i n a (Some h)) = Ok r' /\
             inserted_below n a h r'.
Proof.
  intros Hn Hx Hc Ha Hr (Hs & Hh & Hi). destruct (static_child n i c Hn Hc) as (y & Hy & Hhc & Hsc).
  rewrite Hx in Hy. injection Hy as <-.
  assert (Hlen : length (indices_ n) = length (children_ n)).
  { destruct Hn as [? _ _ _ HF]. by eapply Forall2_length. }
  destruct (increment_child_priority_spec n i x c Hlen Hx Hc) as (j & Hj & E). rewrite E.
  cbn [mbind outcome_bind]. unfold insert_into at 1. cbn [children_ set_children].
  rewrite move_to_lookup by lia. cbn [the mbind outcome_bind]. rewrite Hr. destruct r as [c' e].
  cbn [mbind outcome_bind fst snd] in *. rewrite move_to_insert by lia.
  destruct (move_child n i j x c c' Hn Hx Hc ltac:(lia) Hs (Hh x Hhc Ha)) as (H1 & H2 & H3).
  eexists. split; [done|]. split; [exact H1|]. split; [done|]. cbn [fst snd].
  rewrite routes_bump in Hi. pose proof (key_below_index n i x c a Hn Hx Hc Ha) as Hk.
  destruct (decide (a ∈ keys (routes c))), (decide (a ∈ keys (below n))); try tauto.
  - destruct Hi as [-> Hp]. split; [done|]. by apply (H2 []).
  - destruct Hi as (-> & Hp & Hcnt). split_and!; [done|by apply (H2 [(a, h)])|done|].
    intros HF. apply H3; [|done]. rewrite Forall_lookup in HF. pose proof (HF i c Hc) as Hcc.
    destruct Hcc as [c Hprio Hch]. apply Hcnt; [|done]. cbn [bump priority_]. lia.
Qed.

Definition leaf (p : nat) a h : node H := mk_node a [] false plain (Z.of_nat p) [] (Some h).

Lemma leaf_static a h : static_node (leaf 1 a h) /\ counted (leaf 1 a h) /\ routes (leaf 1 a h) = [(a, h)].
Proof.
  assert (Hr : routes (leaf 1 a h) = [(a, h)]) by (simpl; by rewrite app_nil_r).
  split_and!; [|by constructor; [rewrite Hr|constructor]|done].
  constructor; simpl; [done|by left|constructor|constructor].
Qed.

Lemma static_push n x c :
  static_node n -> x ∉ indices_ n -> static_node c -> head (path_ c) = Some x ->
  static_node (set_children (indices_ n ++ [x]) (children_ n ++ [c]) n).
Proof.
  intros [n' Hw Ht Hnd HF] Hx Hc Hh. constructor; cbn; [done|done| |].
  - apply NoDup_app. split_and!; [done| |apply NoDup_singleton].
    intros y Hy ->%list_elem_of_singleton. done.
  - apply Forall2_app; [done|by constructor].
Qed.

(** The branch of a new child. *)
Lemma insert_below_new n x a h :
  static_node n -> x ∉ indices_ n -> head a = Some x -> static a ->
  exists r',
    (let n := set_children (indices_ n ++ [x]) (children_ n ++ [new_node]) n in
     '(i, n) ← increment_child_priority n (length (indices_ n) - 1);
     child ← the (children_ n !! i);
     '(child, e) ← insert_path (S (length a)) child a unknown_wildcard (Some h);
     Ok (set_children (indices_ n) (<[i := child]> (children_ n)) n, e)) = Ok r' /\
    inserted_below n a h r'.
Proof.
  intros Hn Hx Ha Hs. cbn zeta. set (n1 := set_children _ _ n).
  assert (Hlen : length (indices_ n) = length (children_ n)).
  { destruct Hn as [? _ _ _ HF]. by eapply Forall2_length. }
  set (k := (length (indices_ n1) - 1)%nat).
  assert (Hk : k = length (indices_ n)) by (unfold k, n1; cbn; rewrite length_app; cbn; lia).
  clearbody k.
  destruct (increment_child_priority_spec n1 k x new_node) as (j & Hj & E).
  { unfold n1; cbn. rewrite !length_app. cbn. lia. }
  { unfold n1; cbn. rewrite Hk. by apply list_lookup_middle. }
  { unfold n1; cbn. rewrite Hk, Hlen. by apply list_lookup_middle. }
  rewrite E. cbn [mbind outcome_bind children_ set_children].
  rewrite move_to_lookup by lia. cbn [the mbind outcome_bind].
  rewrite insert_path_static by done. cbn [mbind outcome_bind]. rewrite move_to_insert by lia.
  destruct (leaf_static a h) as (Hl1 & Hl2 & Hl3).
  set (c := leaf 1 a h) in *. change (set_handler _ _) with c.
  set (n2 := set_children (indices_ n ++ [x]) (children_ n ++ [c]) n).
  assert (Hn2 : static_node n2) by (by apply static_push).
  assert (Hmv : move_to k j c (children_ n1) = move_to k j c (children_ n2)).
  { unfold n1, n2; cbn. rewrite <- (move_to_forget k j c c (_ ++ [new_node])).
    - rewrite Hk, Hlen. rewrite <- (Nat.add_0_r (length (children_ n))).
      by rewrite insert_app_r.
    - unfold n1 in Hj; cbn in Hj. lia. }
  rewrite Hmv. destruct (move_child n2 k j x c c Hn2) as (H1 & H2 & H3); try done.
  { unfold n2; cbn. rewrite Hk. by apply list_lookup_middle. }
  { unfold n2; cbn. rewrite Hk, Hlen. by apply list_lookup_middle. }
  { lia. }
  eexists. split; [done|]. split; [exact H1|]. split; [done|]. cbn [fst snd].
  rewrite decide_False by (by eapply key_below_none).
  split_and!; [done| |done|].
  - etrans; [by apply (H2 [])|]. unfold below, n2. cbn [app]. cbn [handler_ children_ set_children].
    rewrite flat_map_app, (assoc_L (++)). cbn [flat_map]. rewrite Hl3, app_nil_r.
    apply Permutation_app_comm.
  - intros HF. apply H3; [done|]. unfold n2; cbn. by rewrite Forall_app, Forall_singleton.
Qed.

(** Registering the rest of a path below a node whose path it begins with. *)
Lemma insert_below_static rec n a h :
  static_node n -> a <> [] -> static a ->
  (forall c, static_node c -> head (path_ c) = head a ->
     exists r, rec c a (Some h) = Ok r /\ inserted c a h r) ->
  exists r, insert_below rec n a (Some h) = Ok r /\ inserted_below n a h r.
Proof.
  intros Hn Ha Hs Hrec. unfold insert_below.
  assert (has_wild_child_ n = false /\ (type_ n = plain \/ type_ n = root)) as [Hw Ht]
    by (by destruct Hn). rewrite Hw.
  destruct (head a) as [x|] eqn:Hx; [|by destruct a]. cbn [the mbind outcome_bind].
  rewrite (bool_decide_eq_false_2 (type_ n = param_type)) by (destruct Ht; congruence).
  cbn [andb]. destruct (find_char x (indices_ n)) as [i|] eqn:Hi.
  - apply find_char_lookup in Hi. destruct (static_index n i x Hn Hi) as (c & Hc & Hhc & Hsc).
    destruct (Hrec (bump c) (static_bump c Hsc)) as (r & Hr & Hir); [cbn; congruence|].
    by apply (insert_below_child rec n i x c a h r).
  - apply find_char_None in Hi. assert (x ∈ a) by (destruct a; simplify_eq/=; constructor).
    destruct Hs as [Hs1 Hs2].
    rewrite !bool_decide_eq_false_2 by congruence. cbn [negb andb].
    by apply insert_below_new.
Qed.

(** A split keeps the routes: afterwards the path of the node is the common prefix. *)
Lemma split_static n p b :
  static_node n -> path_ n = p ++ b -> b <> [] ->
  let n1 := split_node (length p) n in
  static_node n1 /\ path_ n1 = p /\ routes n1 = routes n /\ handler_ n1 = None /\
  (forall x, head b <> Some x -> x ∉ indices_ n1) /\ priority_ n1 = priority_ n /\
  (priority_ n = Z.of_nat (length (routes n)) + 1 -> Forall counted (children_ n) ->
   Forall counted (children_ n1)).
Proof.
  intros Hn Hp Hb. cbn zeta. unfold split_node. rewrite Hp, take_app_length, drop_app_length.
  destruct b as [|y b]; [done|]. cbn [take].
  assert (Hr : routes (mk_node (y :: b) (indices_ n) (has_wild_child_ n) plain (priority_ n - 1)
                               (children_ n) (handler_ n)) = prefixed (y :: b) (below n))
    by (by rewrite routes_below).
  split_and!; try done.
  - destruct Hn as [n Hw Ht Hnd HF]. constructor; cbn; [done|done|apply NoDup_singleton|].
    constructor; [|constructor]. split; [done|]. constructor; cbn; [done|by left|done|done].
  - rewrite routes_below, (routes_below n), Hp. unfold below at 1. cbn [path_ handler_ children_ own app flat_map].
    by rewrite Hr, app_nil_r, prefixed_app.
  - intros x Hx Hin%list_elem_of_singleton. simpl in Hx. congruence.
  - intros Hpr HF. cbn [children_]. apply Forall_singleton. constructor; [|done].
    rewrite Hr, length_prefixed. cbn [priority_].
    rewrite routes_below, length_prefixed in Hpr. lia.
Qed.

(** What happens at a node whose path is exhausted, before or after a split. *)
Lemma insert_at_end n h :
  static_node n ->
  exists r, match handler_ n with
            | Some _ => Ok (n, Some invalid_argument)
            | None => Ok (set_handler (Some h) n, None)
            end = Ok r /\ inserted_below n [] h r.
Proof.
  intros Hn. assert (Hk : [] ∈ keys (below n) <-> is_Some (handler_ n)).
  { rewrite key_below. split; [|by left]. intros [[_ ?]|(i & c & Hc & Hin)]; [done|].
    destruct (static_child n i c Hn Hc) as (x & _ & Hx & _).
    by pose proof (key_head _ _ _ Hx Hin). }
  destruct (handler_ n) as [h'|] eqn:E; eexists; (split; [done|]).
  - split; [done|]. split; [done|]. rewrite decide_True by (apply Hk; eauto). done.
  - split; [by destruct Hn; constructor|]. split; [done|].
    rewrite decide_False by (rewrite Hk; by intros [? ?]).
    split_and!; [done| |done|done]. unfold below. by rewrite E.
Qed.

Lemma inserted_whole n n1 a h r :
  static_node n -> routes n1 = routes n -> priority_ n1 = priority_ n ->
  (priority_ n = Z.of_nat (length (routes n)) + 1 -> Forall counted (children_ n) ->
   Forall counted (children_ n1)) ->
  (forall x, head (path_ n) = Some x -> head (path_ n1 ++ a) = Some x -> head (path_ n1) = Some x) ->
  inserted_below n1 a h r -> inserted n (path_ n1 ++ a) h r.
Proof.
  intros Hn Hr Hprio Hcnt Hh (H1 & H2 & H3). split; [done|].
  split; [intros x Hx Ha; rewrite H2; by apply Hh|].
  pose proof (key_prefixed (path_ n1) a (below n1)) as Hk. rewrite <- routes_below, Hr in Hk.
  rewrite !(routes_below r.1), H2.
  destruct (decide (path_ n1 ++ a ∈ keys (routes n))), (decide (a ∈ keys (below n1))); try tauto.
  - destruct H3 as [? H3]. split; [done|].
    rewrite <- Hr, (routes_below n1). unfold prefixed. by apply Permutation_map.
  - destruct H3 as (? & H3 & H4 & H5). split; [done|].
    assert (Hp : prefixed (path_ n1) (below r.1) ≡ₚ (path_ n1 ++ a, h) :: routes n).
    { rewrite <- Hr, (routes_below n1). unfold prefixed.
      change (_ :: map ?f ?l) with (map f ((a, h) :: l)). by apply Permutation_map. }
    split; [done|]. intros Hpr HF. constructor; [|by apply H5, Hcnt].
    rewrite routes_below, H2, Hp, H4, Hprio, Hpr. simpl. lia.
Qed.

(** Every level but the first consumes a character, so the fuel is enough. *)
Lemma insert_route_static fuel : forall n path h,
  static_node n -> static path ->
  (length path < fuel)%nat -> (path <> [] /\ head (path_ n) = head path) \/ (S (length path) < fuel)%nat ->
  exists r, insert_route fuel n path (Some h) = Ok r /\ inserted n path h r.
Proof.
  induction fuel as [|fuel IH]; intros n path h Hn Hs Hf Hf'; [lia|]. cbn [insert_route].
  destruct (lcp_view path (path_ n)) as (p & a & b & Hpath & Hb & Hl & Hd). rewrite Hl.
  set (n1 := if decide (length p < length (path_ n))%nat then _ else _).
  assert (static_node n1 /\ path_ n1 = p /\ routes n1 = routes n /\ priority_ n1 = priority_ n /\
          (priority_ n = Z.of_nat (length (routes n)) + 1 -> Forall counted (children_ n) ->
           Forall counted (children_ n1))) as (Hn1 & Hp1 & Hr1 & Hpr1 & Hc1).
  { unfold n1. rewrite Hb, length_app. case_decide as Hlt.
    - destruct (split_static n p b Hn Hb) as (H1 & H2 & H3 & _ & _ & H4 & H5); [by intros ->; simpl in *; lia|done].
    - destruct b; [|simpl in Hlt; lia]. by rewrite app_nil_r in Hb. }
  assert (Hhead : forall x, head (path_ n) = Some x -> head (path_ n1 ++ a) = Some x ->
                            head (path_ n1) = Some x).
  { rewrite Hp1, Hb. intros x. destruct p as [|y p]; [|done]. simpl. intros Hx Hxa. by destruct (Hd x). }
  clearbody n1. clear Hl. subst p path. rewrite length_app in Hf, Hf'.
  case_decide as Hlen.
  - assert (a = []) as -> by (apply nil_length_inv; rewrite length_app in Hlen; lia).
    destruct (insert_at_end n1 h Hn1) as (r & Hr & Hir). exists r. split; [done|].
    by apply inserted_whole.
  - rewrite drop_app_length.
    destruct (insert_below_static (insert_route fuel) n1 a h) as (r & Hr & Hir); try done.
    + intros ->. apply Hlen. by rewrite app_nil_r.
    + by apply static_app in Hs as [_ ?].
    + intros c Hc Hhc. apply static_app in Hs as [_ Hs]. apply IH; [done|done| |].
      * destruct Hf' as [[_ Hf']|]; [|lia]. rewrite Hb in Hf'. destruct (path_ n1) as [|y p]; [|simpl in *; lia].
        simpl in Hf'. destruct (head a) as [x|] eqn:Hx; [by destruct (Hd x)|].
        destruct a; [|done]. simpl in *. lia.
      * left. split; [|done]. intros ->. apply Hlen. by rewrite app_nil_r.
    + exists r. split; [done|]. by apply inserted_whole.
Qed.
End StaticInsert.

Section StaticLocate.
Context {H : Type}.
Implicit Types (n c : node H) (path a : str) (h : H).








(** *** Histories of registrations *)

(** The routes that a history leaves, and what its registrations throw. *)
Fixpoint registered (kept rs : list (str * H)) : list (str * H) * list (option exn) :=
  match rs with
  | [] => (kept, [])
  | (r, h) :: rs =>
      let dup := decide (r ∈ keys kept) in
      let '(kept, es) := registered (if dup then kept else (r, h) :: kept) rs in
      (kept, (if dup then Some invalid_argument else None) :: es)
  end.

Definition route_ok (r : str) : Prop := r <> [] /\ static r.
#[global] Instance route_ok_dec r : Decision (route_ok r).
Proof. unfold route_ok. apply _. Defined.

(** A tree that holds the routes [kept]; all its priorities count them as long as
    no registration has thrown. *)
Definition holds n (kept : list (str * H)) (clean : bool) : Prop :=
  (n = new_node /\ kept = []) \/
  (static_node n /\ (path_ n <> [] \/ indices_ n <> []) /\ routes n ≡ₚ kept /\
   (clean = true -> counted n)).

Lemma not_empty n r kept :
  static_node n -> routes n ≡ₚ kept -> r ∈ keys kept -> r <> [] -> path_ n <> [] \/ indices_ n <> [].
Proof.
  intros Hn Hp Hr Hne. destruct (path_ n) eqn:E; [right|by left]. intros Hi.
  assert (Hc : children_ n = []).
  { destruct Hn as [n _ _ _ HF]. rewrite Hi in HF. by apply Forall2_nil_inv_l in HF. }
  apply elem_of_keys in Hr as [h Hr]. rewrite <- Hp, routes_below in Hr.
  apply prefixed_inv in Hr as (s & -> & Hs). rewrite E in Hne. unfold below in Hs.
  rewrite Hc, app_nil_r in Hs. destruct (handler_ n); simpl in Hs.
  - apply list_elem_of_singleton in Hs. by injection Hs as -> _.
  - by apply not_elem_of_nil in Hs.
Qed.

Lemma add_route_holds n kept clean r h :
  holds n kept clean -> route_ok r ->
  exists n', add_route n r (Some h) =
      Ok (n', if decide (r ∈ keys kept) then Some invalid_argument else None) /\
    holds n' (if decide (r ∈ keys kept) then kept else (r, h) :: kept)
          (if decide (r ∈ keys kept) then false else clean).
Proof.
  intros Hh [Hne Hs]. unfold add_route. destruct Hh as [[-> ->]|(Hn & He & Hp & Hcnt)].
  - cbn [bump new_node path_ indices_]. rewrite !bool_decide_eq_true_2 by done. cbn [andb].
    rewrite insert_path_static by done. cbn [mbind outcome_bind].
    rewrite !decide_False by (by intros ?%not_elem_of_nil). eexists. split; [done|]. right.
    cbn. rewrite app_nil_r. split_and!; [|by left|done|].
    + constructor; cbn; [done|by right|constructor|constructor].
    + intros _. constructor; [|constructor]. cbn. done.
  - replace (bool_decide (path_ (bump n) = []) && bool_decide (indices_ (bump n) = [])) with false.
    2:{ cbn. destruct He; [rewrite bool_decide_eq_false_2 by done; done|].
        rewrite (bool_decide_eq_false_2 (indices_ n = [])) by done. by rewrite andb_false_r. }
    destruct (insert_route_static (S (S (length r))) (bump n) r h (static_bump n Hn) Hs
                ltac:(lia) ltac:(lia)) as ([n' e] & Hr & Hn' & _ & Hi). rewrite Hr.
    rewrite routes_bump in Hi. cbn [fst snd] in *.
    assert (Hk : r ∈ keys (routes n) <-> r ∈ keys kept).
    { unfold keys. by rewrite (Permutation_map fst Hp). }
    destruct (decide (r ∈ keys (routes n))), (decide (r ∈ keys kept)); try tauto.
    + destruct Hi as [-> Hi]. exists n'. split; [done|]. right. rewrite Hi, Hp.
      split_and!; [done| |done|done]. apply (not_empty n' r kept); [done|by rewrite Hi|done|done].
    + destruct Hi as (-> & Hi & Hc). exists n'. split; [done|]. right. rewrite Hi, Hp.
      split_and!; [done| |done|].
      * apply (not_empty n' r ((r, h) :: kept)); [done|by rewrite Hi, Hp|by left|done].
      * intros Hcl. destruct (Hcnt Hcl) as [n Hpr HF]. apply Hc; [cbn; lia|done].
Qed.

Lemma add_routes_holds rs : forall n kept clean,
  holds n kept clean -> Forall (fun r => route_ok r.1) rs ->
  exists n', add_routes n rs = Ok (n', (registered kept rs).2) /\
    holds n' (registered kept rs).1
          (clean && forallb (fun e => negb (bool_decide (is_Some e))) (registered kept rs).2).
Proof.
  induction rs as [|[r h] rs IH]; intros n kept clean Hh HF.
  - exists n. split; [done|]. simpl. by rewrite andb_true_r.
  - apply Forall_cons in HF as [Hr HF]. cbn [add_routes registered].
    destruct (add_route_holds n kept clean r h Hh Hr) as (n1 & E1 & Hh1). rewrite E1.
    cbn [mbind outcome_bind]. destruct (IH n1 _ _ Hh1 HF) as (n2 & E2 & Hh2). rewrite E2.
    case_decide; destruct (registered _ rs) as [kept' es]; cbn [fst snd mbind outcome_bind] in *;
      exists n2; (split; [done|]); simpl; [by rewrite andb_false_r|done].
Qed.
End StaticLocate.

Lemma registered_NoDup {H} (kept rs : list (str * H)) :
  NoDup (map fst rs) -> (forall r, r ∈ map fst rs -> r ∉ keys kept) ->
  registered kept rs = (rev rs ++ kept, map (fun _ => None) rs).
Proof.
  revert kept. induction rs as [|[r h] rs IH]; intros kept Hn Hd; [done|].
  cbn [map] in Hn. apply NoDup_cons in Hn as [Hr Hn]. cbn [registered fst].
  rewrite !decide_False by (apply Hd; by left). rewrite IH; [|done|].
  - simpl. by rewrite <- (assoc_L (++)).
  - intros r' Hr' [->|Hin]%elem_of_cons; [done|]. by apply (Hd r'); [right|].
Qed.


(** C37: registering any non-empty list of different non-empty routes without wildcards throws
    nothing, and then every priority is the number of routes below its node (what
    [increment_child_priority] orders the children by). *)
Theorem priorities_count {H} (rs : list (str * H)) :
  Forall (fun r => route_ok r.1) rs -> NoDup (map fst rs) -> rs <> [] ->
  exists n, add_routes new_node rs = Ok (n, map (fun _ => None) rs) /\ routes n ≡ₚ rs /\ counted n.
Proof.
  intros HF Hnd Hne.
  destruct (add_routes_holds rs new_node [] true) as (n & E & Hh); [by left|done|].
  rewrite (registered_NoDup [] rs Hnd) in E, Hh by (intros r _ ?%not_elem_of_nil; done). cbn [fst snd] in *.
  rewrite app_nil_r in Hh. exists n. split; [done|].
  destruct Hh as [[_ Hnil]|(_ & _ & Hp & Hc)].
  { apply (f_equal length) in Hnil. rewrite length_rev in Hnil. by destruct rs. }
  split; [by rewrite Hp, Permutation_rev, rev_involutive|]. apply Hc. simpl.
  clear. by induction rs.
Qed.

Definition sample_routes : list (str * nat) :=
  numbered ["/hi"; "/contact"; "/co"; "/c"; "/a"; "/ab"; "/co"; "/doc/go_faq.html"]%string.


Lemma priorities_count_witness :
  exists n, add_routes new_node (take 6 sample_routes) = Ok (n, map (fun _ => None) (take 6 sample_routes)) /\
            routes n ≡ₚ take 6 sample_routes /\ counted n.
Proof. apply priorities_count; apply (bool_decide_unpack _); vm_compute; exact I. Defined.

(** [locate] compares only the length with the path of the last node, and a
    catch-all without a slash before it fails an assertion when the path up to it is
    registered, instead of the exception for that case. *)
Theorem router_bugs h :
  (forall c : ascii,
     exists n, add_routes (@new_node nat) [(lit "/a", h)] = Ok (n, [None]) /\
               locate n ["/"%char; c] [] = Ok (Some (Some h), [])) /\
  conflicts ["/src"; "/src*x"]%string = Undef.
Proof.
  split; [|vm_compute; reflexivity]. intros c. eexists. split; [reflexivity|]. reflexivity.
Qed.
