(* ===== verification/ConnPool.v ===== *)
(** * The connection pool

    Models conn-pool/conn_pool/pool.h: [ConnPool] with [Get], [Put] and
    [RetireTimeoutIdleConnections], and the [Conn] handles whose destructor puts the
    connection back.

    The mutex makes every critical section a step; between its sections a call of
    [Get] is somewhere else.  The operations below are the critical sections; the
    step relation interleaves them for any number of threads.  The traits ([NewConn])
    are outside of the source: a creation succeeds with some connection or throws.
    The times are microseconds of [system_clock]. *)

From S2P Require Import Prelude.
From stdpp Require Import sorting.

#[local] Open Scope Z_scope.

Section Pool.
Context {RawConnType : Type}.

Record IdleConn := mk_IdleConn { conn : RawConnType; created : Z; last_active : Z }.

(** A handle that is bound to the pool. *)
Record Conn := mk_Conn { raw_conn_ : RawConnType; raw_conn_creation_ : Z }.

Record ConnPool := mk_ConnPool {
  capacity_ : Z;
  max_idle_ : Z;
  idle_timeout_ : Z;
  size_ : Z;
  idle_list_ : list IdleConn
}.

Definition Make (capacity max_reused idle_timeout : Z) : ConnPool :=
  mk_ConnPool capacity max_reused idle_timeout 0 [].

Definition set_size (size : Z) (p : ConnPool) : ConnPool :=
  mk_ConnPool (capacity_ p) (max_idle_ p) (idle_timeout_ p) size (idle_list_ p).
Definition set_idle (l : list IdleConn) (p : ConnPool) : ConnPool :=
  mk_ConnPool (capacity_ p) (max_idle_ p) (idle_timeout_ p) (size_ p) l.

(** The loop of [RetireTimeoutIdleConnections]: what is left, and what was retired. *)
Fixpoint retire_loop (now timeout size : Z) (idle : list IdleConn)
    : Z * list IdleConn * list IdleConn :=
  match idle with
  | front :: rest =>
      if timeout <=? now - last_active front then
        let '(size, idle, to_retire) := retire_loop now timeout (wrap 64 (size - 1)) rest in
        (size, idle, front :: to_retire)
      else (size, idle, [])
  | [] => (size, [], [])
  end.

Definition RetireTimeoutIdleConnections (now : Z) (p : ConnPool) : ConnPool * list IdleConn :=
  let '(size, idle, to_retire) := retire_loop now (idle_timeout_ p) (size_ p) (idle_list_ p) in
  (set_idle idle (set_size size p), to_retire).

(** The first part of [Get]. *)
Definition get_retire (now : Z) (p : ConnPool) : ConnPool :=
  if 0 <? idle_timeout_ p then (RetireTimeoutIdleConnections now p).1 else p.

(** Its critical section: it reuses a connection, throws, or goes on to create one. *)
Inductive get_result := Reused (c : Conn) | Exhausted | Creating.

Definition get_locked (p : ConnPool) : ConnPool * get_result :=
  match last (idle_list_ p) with
  | Some back =>
      (set_idle (take (length (idle_list_ p) - 1) (idle_list_ p)) p,
       Reused (mk_Conn (conn back) (created back)))
  | None =>
      if capacity_ p <=? size_ p then (p, Exhausted)
      else (set_size (wrap 64 (size_ p + 1)) p, Creating)
  end.

(** The end of [Get] after a creation: the handle, or the clean-up of the handler. *)
Definition get_created (raw : RawConnType) (now : Z) : Conn := mk_Conn raw now.
Definition get_failed (p : ConnPool) : ConnPool := set_size (wrap 64 (size_ p - 1)) p.

(** [front] and [pop_front] of an empty deque are undefined. *)
Definition Put (raw_conn : RawConnType) (creation now : Z) (p : ConnPool)
    : outcome (ConnPool * option IdleConn) :=
  '(p, to_retire) ←
    (if Z.of_nat (length (idle_list_ p)) =? max_idle_ p then
       match idle_list_ p with
       | front :: rest => Ok (set_idle rest (set_size (wrap 64 (size_ p - 1)) p), Some front)
       | [] => Undef
       end
     else Ok (p, None));
  Ok (set_idle (idle_list_ p ++ [mk_IdleConn raw_conn creation now]) p, to_retire).

Definition reused (p : ConnPool) : Z := Z.of_nat (length (idle_list_ p)).

(** [Get] of a thread that no other one interferes with; [new_conn] is what
    [NewConn] returns, [None] when it throws. *)
Definition Get (now : Z) (new_conn : option RawConnType) (p : ConnPool)
    : ConnPool * outcome Conn :=
  let '(p, r) := get_locked (get_retire now p) in
  match r with
  | Reused c => (p, Ok c)
  | Exhausted => (p, Throw pool_exhausted)
  | Creating =>
      match new_conn with
      | Some raw => (p, Ok (get_created raw now))
      | None => (get_failed p, Throw runtime_error)
      end
  end.

(** ** Interleaved threads *)

(** The pool, the handles the program holds, the number of calls of [Get] that are
    creating a connection, and the connections that were overwritten: the move
    assignment of a handle is memberwise ([DEFAULT_MOVE]), so the connection the
    target held goes without [Put].  A [steady] clock does not go back; [system_clock]
    may. *)
Record world := mk_world {
  pool : ConnPool;
  live : list Conn;
  creating : nat;
  overwritten : list Conn;
  clock : Z
}.

Inductive step (steady : bool) : world -> world -> Prop :=
| step_tick w now :
    (steady = true -> clock w <= now) ->
    step steady w (mk_world (pool w) (live w) (creating w) (overwritten w) now)
| step_retire w :
    step steady w (mk_world (get_retire (clock w) (pool w)) (live w) (creating w) (overwritten w) (clock w))
| step_reuse w p c :
    get_locked (pool w) = (p, Reused c) ->
    step steady w (mk_world p (c :: live w) (creating w) (overwritten w) (clock w))
| step_exhausted w p :
    get_locked (pool w) = (p, Exhausted) ->
    step steady w (mk_world p (live w) (creating w) (overwritten w) (clock w))
| step_create w p :
    get_locked (pool w) = (p, Creating) ->
    step steady w (mk_world p (live w) (S (creating w)) (overwritten w) (clock w))
| step_created w k raw :
    creating w = S k ->
    step steady w (mk_world (pool w) (get_created raw (clock w) :: live w) k (overwritten w) (clock w))
| step_failed w k :
    creating w = S k ->
    step steady w (mk_world (get_failed (pool w)) (live w) k (overwritten w) (clock w))
| step_put w l1 c l2 p r :
    live w = l1 ++ c :: l2 ->
    Put (raw_conn_ c) (raw_conn_creation_ c) (clock w) (pool w) = Ok (p, r) ->
    step steady w (mk_world p (l1 ++ l2) (creating w) (overwritten w) (clock w))
| step_assign w l1 target l2 :
    live w = l1 ++ target :: l2 -> (1 < length (live w))%nat ->
    step steady w (mk_world (pool w) (l1 ++ l2) (creating w) (target :: overwritten w) (clock w)).

Inductive reachable (steady : bool) (p : ConnPool) : world -> Prop :=
| reachable_make now : reachable steady p (mk_world p [] 0 [] now)
| reachable_step w w' : reachable steady p w -> step steady w w' -> reachable steady p w'.
End Pool.

Arguments IdleConn : clear implicits.
Arguments Conn : clear implicits.
Arguments ConnPool : clear implicits.
Arguments world : clear implicits.

(** ** The accounting of the pool *)

Section Invariant.
Context {RawConnType : Type}.
Implicit Types (p : ConnPool RawConnType) (w : world RawConnType).

Definition in_use w : Z := Z.of_nat (length (live w) + creating w + length (overwritten w)).

Definition pool_ok capacity max_idle timeout w : Prop :=
  capacity_ (pool w) = capacity /\ max_idle_ (pool w) = max_idle /\
  idle_timeout_ (pool w) = timeout /\
  size_ (pool w) = reused (pool w) + in_use w /\
  size_ (pool w) <= capacity /\ reused (pool w) <= max_idle.

Lemma retire_loop_spec now timeout (idle : list (IdleConn RawConnType)) : forall size,
  u64 size -> Z.of_nat (length idle) <= size ->
  exists kept gone, idle = gone ++ kept /\
    retire_loop now timeout size idle = (size - Z.of_nat (length gone), kept, gone) /\
    Forall (fun i => timeout <= now - last_active i) gone /\
    (forall i, head kept = Some i -> now - last_active i < timeout).
Proof.
  induction idle as [|front idle IH]; intros size Hs Hl.
  - exists [], []. simpl. rewrite Z.sub_0_r. by split_and!.
  - cbn [retire_loop]. cbn [length] in Hl. case_bool.
    + assert (Hw : wrap 64 (size - 1) = size - 1) by (unwrap; lia). rewrite Hw.
      destruct (IH (size - 1)) as (kept & gone & -> & Hl' & H1 & H2); [unfold in_u in *; lia|lia|].
      exists kept, (front :: gone). rewrite Hl'. split_and!; [done| |by constructor|done].
      cbn [length]. do 2 f_equal. lia.
    + exists (front :: idle), []. simpl. rewrite Z.sub_0_r. split_and!; [done|done|done|].
      intros i [= <-]. lia.
Qed.

(** Retirement drops a prefix of the idle list and counts it off. *)
Lemma retire_spec now p :
  u64 (size_ p) -> reused p <= size_ p ->
  exists kept gone, idle_list_ p = gone ++ kept /\
    RetireTimeoutIdleConnections now p =
      (set_idle kept (set_size (size_ p - Z.of_nat (length gone)) p), gone) /\
    Forall (fun i => idle_timeout_ p <= now - last_active i) gone /\
    (forall i, head kept = Some i -> now - last_active i < idle_timeout_ p).
Proof.
  intros Hs Hl. unfold RetireTimeoutIdleConnections.
  destruct (retire_loop_spec now (idle_timeout_ p) (idle_list_ p) (size_ p) Hs Hl)
    as (kept & gone & Hi & E & H1 & H2). rewrite E. by exists kept, gone.
Qed.

Lemma last_split {A} (l : list A) x : last l = Some x -> l = take (length l - 1) l ++ [x].
Proof.
  intros H. apply last_Some in H as [l' ->]. rewrite length_app. simpl.
  by rewrite take_app_length' by lia.
Qed.

Lemma get_locked_spec p :
  match get_locked p with
  | (p', Reused c) => exists idle back, idle_list_ p = idle ++ [back] /\ p' = set_idle idle p /\
                                        c = mk_Conn (conn back) (created back)
  | (p', Exhausted) => idle_list_ p = [] /\ capacity_ p <= size_ p /\ p' = p
  | (p', Creating) => idle_list_ p = [] /\ size_ p < capacity_ p /\
                      p' = set_size (wrap 64 (size_ p + 1)) p
  end.
Proof.
  unfold get_locked. destruct (last (idle_list_ p)) as [back|] eqn:E.
  - apply last_split in E. eauto.
  - apply last_None in E. by case_bool.
Qed.

Lemma Put_spec raw creation now p :
  u64 (size_ p) -> 0 < reused p <= size_ p \/ max_idle_ p <> 0 -> reused p <= size_ p ->
  reused p <= max_idle_ p ->
  exists dropped rest, idle_list_ p = dropped ++ rest /\
    length dropped = (if reused p =? max_idle_ p then 1%nat else 0%nat) /\
    Put raw creation now p =
      Ok (set_idle (rest ++ [mk_IdleConn raw creation now])
                   (set_size (size_ p - Z.of_nat (length dropped)) p), head dropped).
Proof.
  intros Hs Hm Hr Hi. unfold Put, reused in *. case_bool.
  - destruct (idle_list_ p) as [|front rest] eqn:El; [simpl in *; lia|].
    exists [front], rest. split_and!; [done|done|]. cbn [mbind outcome_bind head].
    simpl in Hr. assert (wrap 64 (size_ p - 1) = size_ p - 1) as -> by (unwrap; lia). done.
  - exists [], (idle_list_ p). split_and!; [done|done|]. cbn [mbind outcome_bind head length].
    rewrite Z.sub_0_r. by destruct p.
Qed.

Lemma step_ok steady capacity max_idle timeout w w' :
  u64 capacity -> 0 < max_idle ->
  pool_ok capacity max_idle timeout w -> step steady w w' -> pool_ok capacity max_idle timeout w'.
Proof.
  intros Hcap Hmax (H1 & H2 & H3 & H4 & H5 & H6) Hst.
  assert (Hs : u64 (size_ (pool w))) by (unfold in_u, in_use, reused in *; lia).
  unfold pool_ok, in_use, reused in *.
  destruct Hst as [w now _|w|w p c E|w p E|w p E|w k raw E|w k E|w l1 c l2 p r E1 E2|w l1 c l2 E1 E2];
    cbn [pool live creating overwritten] in *; try done.
  - unfold get_retire. case_bool; [|done].
    destruct (retire_spec (clock w) (pool w) Hs) as (kept & gone & Hi & Hre & _); [unfold reused; lia|].
    rewrite Hre. rewrite Hi, length_app in *. cbn. lia.
  - pose proof (get_locked_spec (pool w)) as Hg. rewrite E in Hg.
    destruct Hg as (idle & back & Hi & -> & _). rewrite Hi, length_app in *. cbn in *. lia.
  - pose proof (get_locked_spec (pool w)) as Hg. rewrite E in Hg. by destruct Hg as (_ & _ & ->).
  - pose proof (get_locked_spec (pool w)) as Hg. rewrite E in Hg. destruct Hg as (_ & Hlt & ->).
    cbn. assert (wrap 64 (size_ (pool w) + 1) = size_ (pool w) + 1) as ->
      by (apply wrap_small; unfold in_u in *; lia). lia.
  - cbn. lia.
  - cbn. assert (wrap 64 (size_ (pool w) - 1) = size_ (pool w) - 1) as ->
      by (apply wrap_small; unfold in_u in *; lia). lia.
  - destruct (Put_spec (raw_conn_ c) (raw_conn_creation_ c) (clock w) (pool w))
      as (dropped & rest & Hi & Hd & E); unfold reused in *; try lia; [done|].
    rewrite E in E2. injection E2 as <- _. rewrite E1, Hi, !length_app in *. cbn in *.
    revert Hd. case_bool; intros Hd; rewrite length_app; simpl; lia.
  - rewrite E1, !length_app in *. cbn in *. lia.
Qed.


(** *** Idle connections by age *)

Definition by_age (l : list (IdleConn RawConnType)) : Prop :=
  StronglySorted Z.le (map last_active l).

Definition ages_ok w : Prop :=
  by_age (idle_list_ (pool w)) /\ Forall (fun i => last_active i <= clock w) (idle_list_ (pool w)).

Lemma by_age_app l k :
  by_age (l ++ k) -> by_age l /\ by_age k.
Proof. unfold by_age. rewrite map_app. rewrite StronglySorted_app. tauto. Qed.

Lemma by_age_snoc l i :
  by_age l -> Forall (fun j => last_active j <= last_active i) l -> by_age (l ++ [i]).
Proof.
  unfold by_age. rewrite map_app. intros Hl HF. apply StronglySorted_app.
  split_and!; [|done|by repeat constructor].
  intros x y (j & -> & Hj)%list_elem_of_fmap ->%list_elem_of_singleton.
  rewrite Forall_forall in HF. by apply HF.
Qed.

Lemma by_age_fresh now timeout l :
  by_age l -> (forall i, head l = Some i -> now - last_active i < timeout) ->
  Forall (fun i => now - last_active i < timeout) l.
Proof.
  unfold by_age. destruct l as [|i l]; [constructor|]. simpl. intros Hs Hh.
  apply StronglySorted_inv in Hs as [_ Hs]. specialize (Hh i eq_refl). constructor; [done|].
  rewrite Forall_map in Hs. eapply Forall_impl; [exact Hs|]. simpl. lia.
Qed.

Lemma ages_step capacity max_idle timeout w w' :
  u64 capacity -> 0 < max_idle -> pool_ok capacity max_idle timeout w ->
  ages_ok w -> step true w w' -> ages_ok w'.
Proof.
  intros Hcap Hmax (H1 & H2 & H3 & H4 & H5 & H6) [Ha Hc] Hst.
  assert (Hs : u64 (size_ (pool w))) by (unfold in_u, in_use, reused in *; lia).
  unfold ages_ok, in_use in *.
  destruct Hst as [w now Hn|w|w p c E|w p E|w p E|w k raw E|w k E|w l1 c l2 p r E1 E2|w l1 c l2 E1 E2];
    cbn [pool clock] in *; try done.
  - split; [done|]. eapply Forall_impl; [exact Hc|]. simpl. specialize (Hn eq_refl). lia.
  - unfold get_retire. case_bool; [|done].
    destruct (retire_spec (clock w) (pool w) Hs) as (kept & gone & Hi & Hre & _); [lia|].
    rewrite Hre. rewrite Hi in Ha, Hc. cbn. apply by_age_app in Ha as [_ Ha].
    by apply Forall_app in Hc as [_ Hc].
  - pose proof (get_locked_spec (pool w)) as Hg. rewrite E in Hg.
    destruct Hg as (idle & back & Hi & -> & _). rewrite Hi in Ha, Hc. cbn.
    apply by_age_app in Ha as [Ha _]. by apply Forall_app in Hc as [Hc _].
  - pose proof (get_locked_spec (pool w)) as Hg. rewrite E in Hg. by destruct Hg as (_ & _ & ->).
  - pose proof (get_locked_spec (pool w)) as Hg. rewrite E in Hg. by destruct Hg as (_ & _ & ->).
  - destruct (Put_spec (raw_conn_ c) (raw_conn_creation_ c) (clock w) (pool w))
      as (dropped & rest & Hi & Hd & Hput); try lia; [done|].
    rewrite Hput in E2. injection E2 as <- _. rewrite Hi in Ha, Hc. cbn.
    apply by_age_app in Ha as [_ Ha]. apply Forall_app in Hc as [_ Hc].
    split; [by apply by_age_snoc|]. apply Forall_app. split; [done|]. constructor; simpl; [lia|done].
Qed.

Lemma reachable_ages capacity max_idle timeout w :
  u64 capacity -> 0 < max_idle -> reachable true (Make capacity max_idle timeout) w ->
  pool_ok capacity max_idle timeout w /\ ages_ok w.
Proof.
  intros Hcap Hmax Hr. induction Hr as [now|w w' _ [IH1 IH2] Hs].
  - split; [|by split; constructor]. unfold pool_ok, in_use, reused. cbn. unfold in_u in Hcap. lia.
  - split; [by eapply step_ok|by eapply ages_step].
Qed.

(** With a steady clock [Get] never reuses a connection that has been idle for the
    timeout or longer: it retires all of those, and reuses the one that was put back
    last. *)
Theorem get_fresh capacity max_idle timeout w p c :
  u64 capacity -> 0 < max_idle -> 0 < timeout ->
  reachable true (Make capacity max_idle timeout) w ->
  get_locked (get_retire (clock w) (pool w)) = (p, Reused c) ->
  exists i, last (idle_list_ (pool w)) = Some i /\ c = mk_Conn (conn i) (created i) /\
            clock w - last_active i < timeout /\
            Forall (fun j => clock w - last_active j < timeout /\ last_active j <= last_active i)
                   (idle_list_ p).
Proof.
  intros Hcap Hmax Ht Hr Hg.
  destruct (reachable_ages _ _ _ _ Hcap Hmax Hr) as [(H1 & H2 & H3 & H4 & H5 & H6) [Ha Hc]].
  assert (Hs : u64 (size_ (pool w))) by (unfold in_u, in_use, reused in *; lia).
  revert Hg. unfold get_retire. rewrite H3, (proj2 (Z.ltb_lt _ _)) by done. intros Hg.
  destruct (retire_spec (clock w) (pool w) Hs) as (kept & gone & Hi & Hre & _ & Hfresh);
    [unfold in_use in *; lia|]. rewrite Hre in Hg. cbn [fst] in Hg.
  pose proof (get_locked_spec (set_idle kept (set_size (size_ (pool w) - Z.of_nat (length gone)) (pool w)))) as Hl.
  rewrite Hg in Hl. destruct Hl as (idle & i & Hk & -> & ->). cbn [idle_list_ set_idle] in *. subst kept.
  rewrite Hi in Ha. apply by_age_app in Ha as [_ Ha]. rewrite H3 in Hfresh.
  pose proof (by_age_fresh _ _ _ Ha Hfresh) as HF. apply Forall_app in HF as [HF1 HF2].
  exists i. split_and!; [|done|by rewrite Forall_singleton in HF2|].
  - rewrite Hi, (assoc_L (++)). apply last_snoc.
  - apply Forall_and. split; [done|]. unfold by_age in Ha. rewrite map_app in Ha.
    apply StronglySorted_app in Ha as (Ha & _ & _). apply Forall_forall. intros j Hj.
    apply Ha; [|by left]. apply list_elem_of_fmap. eauto.
Qed.
End Invariant.

(** ** Witnesses *)


(** One more step of a history. *)
Ltac advance H tac := eapply reachable_step in H; [|tac].

(** Two connections are taken; one is put back. *)
Definition sample_world : world nat :=
  mk_world (mk_ConnPool 2 1 10 2 [mk_IdleConn 7%nat 0 0]) [mk_Conn 8%nat 0] 0 [] 0.

Lemma sample_reachable : reachable true (Make 2 1 10) sample_world.
Proof.
  pose proof (reachable_make true (Make (RawConnType := nat) 2 1 10) 0) as H.
  advance H ltac:(eapply step_create; reflexivity).
  advance H ltac:(by eapply (step_created _ _ 0%nat 7%nat)).
  advance H ltac:(eapply step_create; reflexivity).
  advance H ltac:(by eapply (step_created _ _ 0%nat 8%nat)).
  advance H ltac:(by eapply (step_put _ _ [mk_Conn 8%nat 0] (mk_Conn 7%nat 0) [])).
  exact H.
Qed.


Lemma get_fresh_witness :
  exists i, last (idle_list_ (pool sample_world)) = Some i /\ mk_Conn 7%nat 0 = mk_Conn (conn i) (created i) /\
            clock sample_world - last_active i < 10 /\
            Forall (fun j : IdleConn nat => clock sample_world - last_active j < 10 /\ last_active j <= last_active i) [].
Proof.
  apply (get_fresh 2 1 10 sample_world (mk_ConnPool 2 1 10 2 []));
    [by compute|by compute|by compute|apply sample_reachable|reflexivity].
Defined.

(** Two ways to misuse the pool. A pool that reuses nothing ([max_reused] is 0) pops
    from an empty deque when the first connection returns; and the move assignment of
    a handle loses the slot of the connection it overwrites: of the two connections a pool still
    counts, with no handle left, only one can be reused. *)
Theorem pool_misuse :
  (forall capacity timeout (raw : nat) creation now,
     Put raw creation now (Make capacity 0 timeout) = Undef) /\
  (exists w : world nat, reachable true (Make 2 1 10) w /\ live w = [] /\ creating w = 0%nat /\
     size_ (pool w) = 2 /\ reused (pool w) = 1).
Proof.
  split; [done|].
  pose proof (reachable_make true (Make (RawConnType := nat) 2 1 10) 0) as H.
  advance H ltac:(eapply step_create; reflexivity).
  advance H ltac:(by eapply (step_created _ _ 0%nat 7%nat)).
  advance H ltac:(eapply step_create; reflexivity).
  advance H ltac:(by eapply (step_created _ _ 0%nat 8%nat)).
  advance H ltac:(eapply (step_assign _ _ [mk_Conn 8%nat 0] (mk_Conn 7%nat 0) []); simpl; [done|lia]).
  advance H ltac:(by eapply (step_put _ _ [] (mk_Conn 8%nat 0) [])).
  eexists. split; [exact H|]. by split_and!.
Qed.
