(* ===== verification/RcString.v ===== *)
(** * The reference-counted string

    Models RCString/src/rc_string.cpp: [StringData], a buffer that several strings
    share, and [RCString], a pointer to one, with copy on write and the mark that
    forbids sharing after a reference into the buffer was handed out.

    The shared objects live in a heap; a variable of type [RCString] is a name for a
    location.  [new char[n]] is filled with zeros here (the code never reads what it
    did not write); [capacity_] is not initialised by the constructor, so the value
    that [Reserve] finds there is a parameter. *)

From S2P Require Import Prelude.
From stdpp Require Import gmap fin_maps.

#[local] Open Scope Z_scope.

Definition kBaseSize : Z := 4.

Definition RoundToMultiple (num factor : Z) : Z :=
  if factor =? 0 then 0
  else wrap 64 (wrap 64 (wrap 64 (num - 1) - wrap 64 (num - 1) mod factor) + factor).

(** [buffer_] is empty for a null pointer. *)
Record StringData := mk_StringData {
  buffer_ : str;
  capacity_ : Z;
  size_ : Z;
  ref_count_ : Z
}.

Definition kUnsharedRefMark : Z := 2 ^ 32 - 1.

Definition set_ref (r : Z) (d : StringData) : StringData :=
  mk_StringData (buffer_ d) (capacity_ d) (size_ d) r.

Definition Unique (d : StringData) : bool :=
  (ref_count_ d =? 1) || (ref_count_ d =? kUnsharedRefMark).
Definition Unsharedable (d : StringData) : bool := ref_count_ d =? kUnsharedRefMark.

Definition MakeUnsharedable (d : StringData) : outcome StringData :=
  assert (Unique d);; Ok (set_ref kUnsharedRefMark d).
Definition ResetSharedable (d : StringData) : outcome StringData :=
  assert (Unique d);; Ok (set_ref 1 d).
Definition AddRef (d : StringData) : outcome StringData :=
  assert (0 <? ref_count_ d);; Ok (set_ref (wrap 32 (ref_count_ d + 1)) d).

Definition Release (d : StringData) : outcome (bool * StringData) :=
  assert (0 <? ref_count_ d);;
  if Unsharedable d then Ok (true, d)
  else let d := set_ref (wrap 32 (ref_count_ d - 1)) d in Ok (ref_count_ d =? 0, d).

(** [memcpy_s(buf + pos, destsz, src, length src)]: nothing to copy is always fine. *)
Definition memcpy_s (buf : str) (pos : nat) (destsz : Z) (src : str) : outcome str :=
  match src with
  | [] => Ok buf
  | _ =>
      if (Z.of_nat (length src) <=? destsz) && bool_decide (pos + length src <= length buf)%nat
      then Ok (take pos buf ++ src ++ drop (pos + length src) buf)
      else Undef
  end.

Definition Reserve (required_capacity : Z) (d : StringData) : outcome StringData :=
  if required_capacity <=? capacity_ d then Ok d
  else
    let new_base := Z.max (wrap 64 (capacity_ d * 3) / 2) required_capacity in
    let new_capacity := RoundToMultiple new_base kBaseSize in
    new_buf ← memcpy_s (replicate (Z.to_nat new_capacity) (chr 0)) 0 new_capacity
                       (take (Z.to_nat (size_ d)) (buffer_ d));
    Ok (mk_StringData new_buf new_capacity (size_ d) (ref_count_ d)).

Definition CopyData (s : str) (pos : Z) (d : StringData) : outcome StringData :=
  let len := Z.of_nat (length s) in
  assert (Unique d);;
  assert (pos <=? size_ d);;
  assert (wrap 64 (pos + len) <=? capacity_ d);;
  buf ← memcpy_s (buffer_ d) (Z.to_nat pos) (capacity_ d) s;
  Ok (mk_StringData buf (capacity_ d) (Z.max (wrap 64 (pos + len)) (size_ d)) (ref_count_ d)).

(** The content. *)
Definition content (d : StringData) : str := take (Z.to_nat (size_ d)) (buffer_ d).

Section Strings.
(** What [capacity_] holds before it is set. *)
Context (uninit : Z).

Definition new_StringData (capacity : Z) : outcome StringData :=
  Reserve capacity (mk_StringData [] uninit 0 1).

Definition Clone (new_capacity : Z) (d : StringData) : outcome StringData :=
  data ← new_StringData (Z.max new_capacity (capacity_ d));
  CopyData (content d) 0 data.

(** The heap and the variables. *)
Record mem := mk_mem {
  heap : gmap nat StringData;
  next : nat;
  vars : gmap nat nat
}.

Definition alloc (d : StringData) (m : mem) : nat * mem :=
  (next m, mk_mem (<[next m := d]> (heap m)) (S (next m)) (vars m)).
Definition bind_var (v l : nat) (m : mem) : mem := mk_mem (heap m) (next m) (<[v := l]> (vars m)).
Definition update (l : nat) (d : StringData) (m : mem) : mem :=
  mk_mem (<[l := d]> (heap m)) (next m) (vars m).

Definition data_ (v : nat) (m : mem) : outcome (nat * StringData) :=
  l ← the (vars m !! v); d ← the (heap m !! l); Ok (l, d).

(** The constructors. *)
Definition RCString_empty (v : nat) (m : mem) : outcome mem :=
  d ← new_StringData kBaseSize;
  let '(l, m) := alloc d m in Ok (bind_var v l m).

Definition RCString_from (v : nat) (s : str) (m : mem) : outcome mem :=
  d ← new_StringData (Z.of_nat (length s));
  d ← CopyData s 0 d;
  let '(l, m) := alloc d m in Ok (bind_var v l m).

Definition RCString_copy (v other : nat) (m : mem) : outcome mem :=
  '(l, d) ← data_ other m;
  if negb (Unsharedable d) then d ← AddRef d; Ok (bind_var v l (update l d m))
  else
    d ← Clone (size_ d) d;
    let '(l, m) := alloc d m in Ok (bind_var v l m).

(** The destructor, with the assertion of [~StringData]. *)
Definition destroy (v : nat) (m : mem) : outcome mem :=
  '(l, d) ← data_ v m;
  '(last, d) ← Release d;
  let m := mk_mem (heap m) (next m) (delete v (vars m)) in
  if (last : bool) then
    assert ((ref_count_ d =? 0) || (ref_count_ d =? kUnsharedRefMark));;
    Ok (mk_mem (delete l (heap m)) (next m) (vars m))
  else Ok (update l d m).

(** Its first half: the string gets a buffer of its own with enough room. *)
Definition make_unique (v : nat) (required_capacity : Z) (m : mem) : outcome (nat * StringData * mem) :=
  '(l, d) ← data_ v m;
  if negb (Unique d) then
    new_data ← Clone required_capacity d;
    '(_, d) ← Release d;
    let '(l', m) := alloc new_data (update l d m) in
    Ok (l', new_data, bind_var v l' m)
  else
    d ← Reserve required_capacity d;
    Ok (l, d, update l d m).

Definition PrepareToModify (v : nat) (required_capacity : Z) (make_unsharedable : bool) (m : mem)
    : outcome mem :=
  '(l, d, m) ← make_unique v required_capacity m;
  d ← (if make_unsharedable then MakeUnsharedable d else ResetSharedable d);
  Ok (update l d m).

Definition Append (v : nat) (s : str) (m : mem) : outcome mem :=
  '(_, d) ← data_ v m;
  let new_size := wrap 64 (size_ d + Z.of_nat (length s)) in
  m ← PrepareToModify v new_size false m;
  '(l, d) ← data_ v m;
  d ← CopyData s (size_ d) d;
  Ok (update l d m).

(** [operator[]] on a non-const string: a reference into the buffer. *)
Definition index_ref (v : nat) (pos : nat) (m : mem) : outcome (nat * nat * mem) :=
  '(_, d) ← data_ v m;
  m ← PrepareToModify v (size_ d) true m;
  '(l, d) ← data_ v m;
  if decide (pos < length (buffer_ d))%nat then Ok (l, pos, m) else Undef.

(** Writing through such a reference. *)
Definition store (ref : nat * nat) (ch : ascii) (m : mem) : outcome mem :=
  d ← the (heap m !! ref.1);
  if decide (ref.2 < length (buffer_ d))%nat
  then Ok (update ref.1 (mk_StringData (<[ref.2 := ch]> (buffer_ d)) (capacity_ d) (size_ d) (ref_count_ d)) m)
  else Undef.

(** The const [operator[]], and what [operator<<] writes. *)
Definition index_const (v : nat) (pos : nat) (m : mem) : outcome ascii :=
  '(_, d) ← data_ v m; the (buffer_ d !! pos).
Definition to_string (v : nat) (m : mem) : outcome str := '(_, d) ← data_ v m; Ok (content d).

(** ** Programs *)

Inductive op :=
| Empty (v : nat)
| From (v : nat) (s : str)
| Copy (v other : nat)
| Destroy (v : nat)
| Add (v : nat) (s : str)
| SetAt (v pos : nat) (ch : ascii).

Definition exec (o : op) (m : mem) : outcome mem :=
  match o with
  | Empty v => RCString_empty v m
  | From v s => RCString_from v s m
  | Copy v other => RCString_copy v other m
  | Destroy v => destroy v m
  | Add v s => Append v s m
  | SetAt v pos ch => '(l, p, m) ← index_ref v pos m; store (l, p) ch m
  end.

Fixpoint exec_all (os : list op) (m : mem) : outcome mem :=
  match os with [] => Ok m | o :: os => m ← exec o m; exec_all os m end.
End Strings.

Definition no_strings : mem := mk_mem ∅ 0 ∅.

(** ** Buffers *)

(** A buffer that holds [s]; the bounds keep the arithmetic of [size_t] exact. *)
Definition data_ok (d : StringData) (s : str) : Prop :=
  length (buffer_ d) = Z.to_nat (capacity_ d) /\ capacity_ d mod 4 = 0 /\
  0 <= capacity_ d <= 2 ^ 62 /\ size_ d = Z.of_nat (length s) /\ size_ d <= capacity_ d /\
  content d = s.

Lemma RoundToMultiple_spec num :
  0 <= num <= 2 ^ 62 ->
  RoundToMultiple num kBaseSize mod 4 = 0 /\ num <= RoundToMultiple num kBaseSize <= 2 ^ 62.
Proof.
  intros Hn. unfold RoundToMultiple, kBaseSize. change (4 =? 0) with false. cbv iota.
  destruct (Z.eqb_spec num 0) as [->|Hz]; [by vm_compute|].
  rewrite (wrap_small 64 (num - 1)) by (unfold in_u; lia).
  pose proof (Z.mod_pos_bound (num - 1) 4 ltac:(lia)) as Hm.
  pose proof (Z.div_mod (num - 1) 4 ltac:(lia)) as Hd.
  set (q := (num - 1) / 4) in *. set (r := (num - 1) mod 4) in *. clearbody q r.
  rewrite (wrap_small 64 (num - 1 - _)) by (unfold in_u; lia).
  rewrite wrap_small by (unfold in_u; lia).
  replace (num - 1 - r + 4) with ((q + 1) * 4) by lia. rewrite Z.mod_mul by lia. lia.
Qed.

Lemma memcpy_s_ok buf pos destsz src :
  (pos + length src <= length buf)%nat -> Z.of_nat (length src) <= destsz ->
  memcpy_s buf pos destsz src = Ok (take pos buf ++ src ++ drop (pos + length src) buf).
Proof.
  intros H1 H2. unfold memcpy_s. destruct src as [|c src].
  - simpl. by rewrite Nat.add_0_r, take_drop.
  - rewrite (proj2 (Z.leb_le _ _)), bool_decide_eq_true_2 by done. done.
Qed.

Lemma content_length d s : data_ok d s -> length s = Z.to_nat (size_ d).
Proof. intros (_ & _ & _ & -> & _). by rewrite Nat2Z.id. Qed.

Lemma Reserve_ok req d s :
  data_ok d s -> 0 <= req <= 2 ^ 62 -> capacity_ d = 0 \/ req <= 2 ^ 61 ->
  exists d', Reserve req d = Ok d' /\ data_ok d' s /\ ref_count_ d' = ref_count_ d /\ req <= capacity_ d'.
Proof.
  intros Hd Hreq Hsmall. pose proof Hd as (H1 & H2 & H3 & H4 & H5 & H6). unfold Reserve. case_bool; [by exists d|].
  assert (Hw : wrap 64 (capacity_ d * 3) = capacity_ d * 3) by (apply wrap_small; unfold in_u; lia).
  rewrite Hw. assert (0 <= capacity_ d * 3 / 2 <= 2 ^ 62).
  { split; [by apply Z.div_pos; lia|]. apply Z.div_le_upper_bound; lia. }
  set (base := Z.max (capacity_ d * 3 / 2) req).
  destruct (RoundToMultiple_spec base) as [Hr1 Hr2]; [unfold base; lia|].
  set (cap := RoundToMultiple base kBaseSize) in *. fold (content d). rewrite H6.
  assert (req <= base) by lia.
  assert (Z.of_nat (length s) <= cap) by lia. clearbody cap.
  rewrite memcpy_s_ok by (rewrite ?length_replicate; lia). cbn [mbind outcome_bind].
  eexists. split; [reflexivity|]. split; [|split; [done|cbn; lia]].
  split_and!; cbn; [|done|lia|lia|done|lia|].
  - rewrite !length_app, length_drop, length_replicate. simpl. lia.
  - unfold content. cbn [size_ buffer_]. rewrite H4, Nat2Z.id, take_0. cbn [app].
    by rewrite take_app_length.
Qed.

Lemma new_ok c :
  0 <= c <= 2 ^ 62 ->
  exists d, new_StringData 0 c = Ok d /\ data_ok d [] /\ ref_count_ d = 1 /\ c <= capacity_ d.
Proof.
  intros Hc. unfold new_StringData.
  destruct (Reserve_ok c (mk_StringData [] 0 0 1) []) as (d & E & Hd & Hr & Hcap);
    [by split_and!|done|by left|]. eauto.
Qed.

Lemma CopyData_ok d s t :
  data_ok d s -> Unique d = true -> Z.of_nat (length s + length t) <= capacity_ d ->
  exists d', CopyData t (size_ d) d = Ok d' /\ data_ok d' (s ++ t) /\ ref_count_ d' = ref_count_ d /\
             capacity_ d' = capacity_ d.
Proof.
  intros Hd Hu Hc. pose proof Hd as (H1 & H2 & H3 & H4 & H5 & H6). unfold CopyData, assert. rewrite Hu. cbn [mbind outcome_bind].
  rewrite Z.leb_refl. cbn [mbind outcome_bind].
  rewrite (wrap_small 64) by (unfold in_u; lia).
  rewrite (proj2 (Z.leb_le _ _)) by lia. cbn [mbind outcome_bind].
  rewrite memcpy_s_ok by lia. cbn [mbind outcome_bind]. eexists. split; [done|]. split; [|done].
  assert (Hlen : length (take (Z.to_nat (size_ d)) (buffer_ d)) = Z.to_nat (size_ d))
    by (rewrite length_take; lia).
  split_and!; cbn; [|done|lia|lia|rewrite length_app; lia|lia|].
  - rewrite !length_app, length_drop, Hlen. lia.
  - unfold content. cbn. unfold content in H6. rewrite H6, (assoc_L (++)).
    rewrite take_app_length' by (rewrite length_app; lia). done.
Qed.

Lemma Clone_ok c d s :
  data_ok d s -> 0 <= c <= 2 ^ 62 ->
  exists d', Clone 0 c d = Ok d' /\ data_ok d' s /\ ref_count_ d' = 1 /\ c <= capacity_ d'.
Proof.
  intros Hd Hc. pose proof Hd as (H1 & H2 & H3 & H4 & H5 & H6). unfold Clone.
  destruct (new_ok (Z.max c (capacity_ d))) as (n & E & Hn & Hr & Hcap); [lia|].
  rewrite E. cbn [mbind outcome_bind]. rewrite H6.
  destruct (CopyData_ok n [] s Hn) as (n' & E' & Hn' & Hr' & Hc').
  { unfold Unique. by rewrite Hr. }
  { simpl. lia. }
  pose proof Hn as (_ & _ & _ & Hsz & _). change (size_ n = 0) in Hsz. rewrite Hsz in E'. rewrite E'.
  exists n'. split_and!; [done|done|by rewrite Hr'|lia].
Qed.

(** ** The heap *)

(** How many variables point to [l]. *)
Definition owners (l : nat) (vars : gmap nat nat) : nat :=
  size (filter (fun p : nat * nat => p.2 = l) vars).

Lemma owners_insert l v k (vars : gmap nat nat) :
  vars !! v = None -> owners l (<[v := k]> vars) = ((if decide (k = l) then 1 else 0) + owners l vars)%nat.
Proof.
  intros Hv. unfold owners. case_decide as Hk.
  - rewrite map_filter_insert_True by done. rewrite map_size_insert_None; [done|].
    apply map_lookup_filter_None. by left.
  - rewrite map_filter_insert_False by done. by rewrite delete_id.
Qed.

Lemma owners_delete l v k (vars : gmap nat nat) :
  vars !! v = Some k -> owners l vars = ((if decide (k = l) then 1 else 0) + owners l (delete v vars))%nat.
Proof.
  intros Hv. rewrite <- (owners_insert l v k) by apply lookup_delete_eq.
  by rewrite insert_delete_id.
Qed.

Lemma owners_unique l v w (vars : gmap nat nat) :
  owners l vars = 1%nat -> vars !! v = Some l -> vars !! w = Some l -> v = w.
Proof.
  intros H1 Hv Hw. destruct (decide (v = w)) as [|Hne]; [done|].
  rewrite (owners_delete l v l) in H1 by done.
  rewrite (owners_delete l w l (delete v vars)) in H1 by (by rewrite lookup_delete_ne).
  rewrite decide_True in H1 by done. lia.
Qed.

Lemma owners_le l (vars : gmap nat nat) : (owners l vars <= size vars)%nat.
Proof. apply map_subseteq_size, map_filter_subseteq. Qed.

(** A buffer counts its owners, unless it is marked and has one. *)
Definition ref_ok (r : Z) (n : nat) : Prop :=
  (0 < n)%nat /\ (r = Z.of_nat n \/ (r = kUnsharedRefMark /\ n = 1%nat)).

(** The heap [m] represents the values [σ] of the variables. *)
Record represents (m : mem) (σ : gmap nat str) : Prop := {
  rep_var v s : σ !! v = Some s ->
    exists l d, vars m !! v = Some l /\ heap m !! l = Some d /\ data_ok d s;
  rep_dom v : σ !! v = None -> vars m !! v = None;
  rep_heap l d : heap m !! l = Some d -> (l < next m)%nat /\ ref_ok (ref_count_ d) (owners l (vars m));
  rep_few : Z.of_nat (size (vars m)) < kUnsharedRefMark
}.

Lemma rep_data m σ v s :
  represents m σ -> σ !! v = Some s ->
  exists l d, data_ v m = Ok (l, d) /\ vars m !! v = Some l /\ heap m !! l = Some d /\
              data_ok d s /\ ref_ok (ref_count_ d) (owners l (vars m)).
Proof.
  intros [Hv _ Hh _] Hs. destruct (Hv v s Hs) as (l & d & Hl & Hd & Hok).
  exists l, d. unfold data_. rewrite Hl. cbn [the mbind outcome_bind]. rewrite Hd.
  split_and!; try done. by apply Hh.
Qed.

Lemma Unique_owners m l d :
  Z.of_nat (size (vars m)) < kUnsharedRefMark ->
  ref_ok (ref_count_ d) (owners l (vars m)) -> Unique d = true <-> owners l (vars m) = 1%nat.
Proof.
  intros Hf [Hp Hr]. pose proof (owners_le l (vars m)). unfold Unique.
  rewrite orb_true_iff, !Z.eqb_eq. lia.
Qed.

(** A new variable with a buffer of its own. *)
Lemma rep_new m σ v s d :
  represents m σ -> σ !! v = None -> data_ok d s -> ref_count_ d = 1 ->
  Z.of_nat (size (vars m)) + 1 < kUnsharedRefMark ->
  let '(l, m') := alloc d m in represents (bind_var v l m') (<[v := s]> σ).
Proof.
  intros Hm Hv Hd Hr Hf. cbn. pose proof (rep_dom _ _ Hm v Hv) as Hvn.
  assert (Hfresh : heap m !! next m = None).
  { destruct (heap m !! next m) eqn:E; [|done]. apply (rep_heap _ _ Hm) in E. lia. }
  assert (Hno : forall w, vars m !! w <> Some (next m)).
  { intros w Hw. destruct (σ !! w) as [t|] eqn:Ht.
    - destruct (rep_var _ _ Hm w t Ht) as (l & e & Hl & He & _). naive_solver.
    - by rewrite (rep_dom _ _ Hm w Ht) in Hw. }
  assert (Hown : owners (next m) (vars m) = 0%nat).
  { unfold owners. apply map_size_empty_iff, map_empty. intros w.
    apply map_lookup_filter_None. right. intros l Hl Heq. simpl in Heq. subst l. by apply (Hno w). }
  split; cbn.
  - intros w t. destruct (decide (w = v)) as [->|Hne].
    + rewrite lookup_insert_eq. intros [= <-]. exists (next m), d. by rewrite !lookup_insert_eq.
    + rewrite lookup_insert_ne by done. intros Ht.
      destruct (rep_var _ _ Hm w t Ht) as (l & e & Hl & He & Hok). exists l, e.
      rewrite !lookup_insert_ne by naive_solver. done.
  - intros w [Hw Hne]%lookup_insert_None. rewrite lookup_insert_ne by done.
    by apply (rep_dom _ _ Hm).
  - intros l e. rewrite owners_insert by done. destruct (decide (l = next m)) as [->|Hne].
    + rewrite lookup_insert_eq. intros [= <-]. rewrite decide_True, Hown by done.
      split; [lia|]. rewrite Hr. split; [lia|by left].
    + rewrite lookup_insert_ne by done. intros He. rewrite decide_False by done.
      destruct (rep_heap _ _ Hm l e He) as [? ?]. split; [lia|done].
  - rewrite map_size_insert_None by done. lia.
Qed.

(** One more variable for a buffer that can be shared. *)
Lemma rep_share m σ v w l d s :
  represents m σ -> σ !! v = None -> σ !! w = Some s -> vars m !! w = Some l -> heap m !! l = Some d ->
  Unsharedable d = false -> Z.of_nat (size (vars m)) + 1 < kUnsharedRefMark ->
  represents (bind_var v l (update l (set_ref (ref_count_ d + 1) d) m)) (<[v := s]> σ).
Proof.
  intros Hm Hv Hw Hl Hd Hsh Hf. pose proof (rep_dom _ _ Hm v Hv) as Hvn.
  destruct (rep_data _ _ _ _ Hm Hw) as (l' & d' & _ & Hl' & Hd' & Hok & Href).
  assert (l' = l) as -> by congruence. assert (d' = d) as -> by congruence. clear Hl' Hd'.
  split; cbn.
  - assert (Hall : forall w t, σ !! w = Some t -> exists l' e, vars m !! w = Some l' /\
        <[l := set_ref (ref_count_ d + 1) d]> (heap m) !! l' = Some e /\ data_ok e t).
    { intros w' t Ht. destruct (rep_var _ _ Hm w' t Ht) as (l' & e & Hl' & He & Hok').
      destruct (decide (l' = l)) as [->|Hne].
      - exists l, (set_ref (ref_count_ d + 1) d). rewrite lookup_insert_eq.
        split_and!; [done|done|]. by assert (e = d) as -> by congruence.
      - exists l', e. by rewrite lookup_insert_ne. }
    intros w' t. destruct (decide (w' = v)) as [->|Hne].
    + rewrite lookup_insert_eq. intros [= <-]. destruct (Hall w s Hw) as (l' & e & Hl' & He & Hok').
      exists l', e. rewrite lookup_insert_eq. naive_solver.
    + rewrite !lookup_insert_ne by done. apply Hall.
  - intros w' [Hw' Hne]%lookup_insert_None. rewrite lookup_insert_ne by done.
    by apply (rep_dom _ _ Hm).
  - intros k e. rewrite owners_insert by done. destruct (decide (k = l)) as [->|Hne].
    + rewrite lookup_insert_eq, decide_True by done. intros [= <-].
      split; [by eapply rep_heap|]. cbn. destruct Href as [? [-> |[Hm' ?]]].
      * split; [lia|left; lia].
      * unfold Unsharedable in Hsh. rewrite Hm' in Hsh. done.
    + rewrite lookup_insert_ne, decide_False by done. by apply (rep_heap _ _ Hm).
  - rewrite map_size_insert_None by done. lia.
Qed.

(** The last variable of a buffer goes, or one of several. *)
Lemma rep_drop m σ v s l d :
  represents m σ -> σ !! v = Some s -> vars m !! v = Some l -> heap m !! l = Some d ->
  represents
    (mk_mem (if decide (owners l (vars m) = 1%nat) then delete l (heap m)
             else <[l := set_ref (ref_count_ d - 1) d]> (heap m)) (next m) (delete v (vars m)))
    (delete v σ).
Proof.
  intros Hm Hv Hl Hd. pose proof (rep_heap _ _ Hm l d Hd) as [Hlt [Hpos Href]].
  pose proof (owners_delete l v l (vars m) Hl) as Hown. rewrite decide_True in Hown by done.
  assert (Hother : forall k, k <> l -> owners k (delete v (vars m)) = owners k (vars m)).
  { intros k Hk. rewrite (owners_delete k v l (vars m) Hl). by rewrite decide_False by done. }
  split; cbn.
  - intros w t [Hne Ht]%lookup_delete_Some. destruct (rep_var _ _ Hm w t Ht) as (k & e & Hk & He & Hok).
    rewrite lookup_delete_ne by done. case_decide as H1.
    + exists k, e. assert (k <> l) by (intros ->; by apply Hne, (owners_unique l v w (vars m))).
      by rewrite lookup_delete_ne.
    + destruct (decide (k = l)) as [->|Hkl].
      * exists l, (set_ref (ref_count_ d - 1) d). rewrite lookup_insert_eq.
        split_and!; [done|done|]. by assert (e = d) as -> by congruence.
      * exists k, e. by rewrite lookup_insert_ne.
  - intros w Hw. apply lookup_delete_None. destruct (decide (v = w)) as [|Hne]; [by left|right].
    rewrite lookup_delete_ne in Hw by done. by apply (rep_dom _ _ Hm).
  - intros k e. case_decide as H1.
    + intros [Hne He]%lookup_delete_Some. rewrite Hother by done. by apply (rep_heap _ _ Hm).
    + destruct (decide (k = l)) as [->|Hkl].
      * rewrite lookup_insert_eq. intros [= <-]. split; [done|]. cbn. split; [lia|left; lia].
      * rewrite lookup_insert_ne by done. rewrite Hother by done. by apply (rep_heap _ _ Hm).
  - pose proof (rep_few _ _ Hm). rewrite map_size_delete_Some by eauto. lia.
Qed.

(** A buffer with one owner gets another content. *)
Lemma rep_modify m σ v l d' s' :
  represents m σ -> vars m !! v = Some l -> is_Some (heap m !! l) -> owners l (vars m) = 1%nat ->
  data_ok d' s' -> ref_count_ d' = 1 \/ ref_count_ d' = kUnsharedRefMark ->
  represents (update l d' m) (<[v := s']> σ).
Proof.
  intros Hm Hl [d Hd] Hown Hok Href. split; cbn.
  - intros w t. destruct (decide (w = v)) as [->|Hne].
    + rewrite lookup_insert_eq. intros [= <-]. exists l, d'. by rewrite lookup_insert_eq.
    + rewrite lookup_insert_ne by done. intros Ht.
      destruct (rep_var _ _ Hm w t Ht) as (k & e & Hk & He & Hok'). exists k, e.
      assert (k <> l) by (intros ->; by apply Hne, (owners_unique l w v (vars m))).
      by rewrite lookup_insert_ne.
  - intros w [Hw _]%lookup_insert_None. by apply (rep_dom _ _ Hm).
  - intros k e. destruct (decide (k = l)) as [->|Hkl].
    + rewrite lookup_insert_eq. intros [= <-]. split; [by eapply rep_heap|].
      rewrite Hown. split; [lia|]. destruct Href; [by left|by right].
    + rewrite lookup_insert_ne by done. by apply (rep_heap _ _ Hm).
  - apply (rep_few _ _ Hm).
Qed.

Lemma alloc_owner m σ l d :
  represents m σ -> heap m !! l = Some d -> ref_count_ d = 1 -> owners l (vars m) = 1%nat.
Proof. intros Hm Hd Hr. destruct (rep_heap _ _ Hm l d Hd) as [_ [? [?|[? ?]]]]; [lia|done]. Qed.

Lemma Release_ok m l d :
  Z.of_nat (size (vars m)) < kUnsharedRefMark -> ref_ok (ref_count_ d) (owners l (vars m)) ->
  exists d', Release d = Ok (bool_decide (owners l (vars m) = 1%nat), d') /\
    (owners l (vars m) <> 1%nat -> d' = set_ref (ref_count_ d - 1) d) /\
    (owners l (vars m) = 1%nat -> ref_count_ d' = 0 \/ ref_count_ d' = kUnsharedRefMark).
Proof.
  intros Hf [Hp Hr]. pose proof (owners_le l (vars m)). unfold Release, assert, Unsharedable, kUnsharedRefMark in *.
  rewrite (proj2 (Z.ltb_lt _ _)) by lia. cbn [mbind outcome_bind]. case_bool.
  - destruct Hr as [Hr|[_ Hr]]; [lia|]. exists d. rewrite bool_decide_eq_true_2 by done.
    split_and!; [done|by intros ?|by right].
  - destruct Hr as [Hr|[? _]]; [|lia]. eexists.
    rewrite (wrap_small 32) by (unfold in_u; lia). split; [|split; [done|]].
    + do 2 f_equal. cbn. case_bool_decide; [apply Z.eqb_eq|apply Z.eqb_neq]; lia.
    + cbn. lia.
Qed.

Lemma destroy_ok m σ v s :
  represents m σ -> σ !! v = Some s ->
  exists m', destroy v m = Ok m' /\ represents m' (delete v σ).
Proof.
  intros Hm Hv. destruct (rep_data _ _ _ _ Hm Hv) as (l & d & E & Hl & Hd & Hok & Href).
  pose proof (rep_drop m σ v s l d Hm Hv Hl Hd) as Hdrop.
  destruct (Release_ok m l d (rep_few _ _ Hm) Href) as (d' & Hrel & H1 & H2).
  unfold destroy. rewrite E. cbn [mbind outcome_bind]. rewrite Hrel. cbn [mbind outcome_bind].
  destruct (decide (owners l (vars m) = 1%nat)) as [Hone|Hone].
  - rewrite bool_decide_eq_true_2 by done. unfold assert.
    replace (_ || _) with true by (symmetry; rewrite orb_true_iff, !Z.eqb_eq; auto).
    cbn [mbind outcome_bind]. eauto.
  - rewrite bool_decide_eq_false_2 by done. rewrite (H1 Hone). eauto.
Qed.

(** Before a modification the string gets a buffer of its own with enough room. *)
Lemma make_unique_ok m σ v s req :
  represents m σ -> σ !! v = Some s -> 0 <= req <= 2 ^ 61 ->
  exists m1 l1 d1, make_unique 0 v req m = Ok (l1, d1, m1) /\
    represents m1 σ /\ vars m1 !! v = Some l1 /\ heap m1 !! l1 = Some d1 /\ data_ok d1 s /\
    owners l1 (vars m1) = 1%nat /\ req <= capacity_ d1 /\ Unique d1 = true.
Proof.
  intros Hm Hv Hreq. destruct (rep_data _ _ _ _ Hm Hv) as (l & d & E & Hl & Hd & Hok & Href).
  pose proof (Unique_owners m l d (rep_few _ _ Hm) Href) as Hu.
  unfold make_unique. rewrite E. cbn [mbind outcome_bind].
  destruct (Unique d) eqn:HU; cbn [negb].
  - assert (Hone : owners l (vars m) = 1%nat) by (by apply Hu).
    destruct (Reserve_ok req d s Hok) as (d1 & Hd1 & Hok1 & Hr1 & Hc1); [lia|lia|].
    rewrite Hd1. cbn [mbind outcome_bind]. exists (update l d1 m), l, d1.
    split_and!; try done; [|by cbn; rewrite lookup_insert_eq|by unfold Unique in *; rewrite Hr1].
    rewrite <- (insert_id σ v s Hv). apply rep_modify; try done.
    rewrite Hr1. unfold Unique in HU. rewrite orb_true_iff, !Z.eqb_eq in HU. lia.
  - assert (Hmany : owners l (vars m) <> 1%nat) by (intros H1; apply Hu in H1; congruence).
    destruct (Clone_ok req d s Hok) as (n & Hn & Hokn & Hrn & Hcn); [lia|].
    destruct (Release_ok m l d (rep_few _ _ Hm) Href) as (d' & Hrel & H1 & _).
    rewrite Hn. cbn [mbind outcome_bind]. rewrite Hrel, (H1 Hmany). cbn [mbind outcome_bind].
    pose proof (rep_drop m σ v s l d Hm Hv Hl Hd) as Hdrop. rewrite decide_False in Hdrop by done.
    pose proof (rep_few _ _ Hm) as Hf. pose proof (rep_new _ _ v s n Hdrop) as Hnew.
    cbn in Hnew. rewrite map_size_delete_Some in Hnew by eauto.
    assert (size (vars m) <> 0%nat) by (intros H0%map_size_empty_inv; by rewrite H0 in Hl).
    specialize (Hnew (lookup_delete_eq _ _) Hokn Hrn ltac:(lia)).
    unfold bind_var in Hnew. cbn in Hnew. rewrite !insert_delete_eq in Hnew.
    rewrite (insert_id σ v s Hv) in Hnew.
    eexists _, _, _. split; [reflexivity|]. split; [exact Hnew|].
    cbn. rewrite !lookup_insert_eq.
    split_and!; try done; [|by unfold Unique; rewrite Hrn].
    apply (alloc_owner _ _ _ n Hnew); [by cbn; rewrite lookup_insert_eq|done].
Qed.

Lemma PrepareToModify_ok m σ v s req mark :
  represents m σ -> σ !! v = Some s -> 0 <= req <= 2 ^ 61 ->
  exists m' l d, PrepareToModify 0 v req mark m = Ok m' /\ represents m' σ /\
    data_ v m' = Ok (l, d) /\ vars m' !! v = Some l /\ heap m' !! l = Some d /\
    data_ok d s /\ owners l (vars m') = 1%nat /\ req <= capacity_ d /\
    ref_count_ d = if mark then kUnsharedRefMark else 1.
Proof.
  intros Hm Hv Hreq. destruct (make_unique_ok m σ v s req Hm Hv Hreq)
    as (m1 & l1 & d1 & Emid & Hm1 & Hl1 & Hd1 & Hok1 & Hown1 & Hc1 & HU1).
  unfold PrepareToModify. rewrite Emid. cbn [mbind outcome_bind].
  set (d2 := set_ref (if mark then kUnsharedRefMark else 1) d1).
  assert ((if mark then MakeUnsharedable d1 else ResetSharedable d1) = Ok d2) as ->
    by (unfold MakeUnsharedable, ResetSharedable, assert, d2; rewrite HU1; by destruct mark).
  cbn [mbind outcome_bind]. exists (update l1 d2 m1), l1, d2.
  assert (Hrep : represents (update l1 d2 m1) σ).
  { rewrite <- (insert_id σ v s Hv). apply rep_modify; try done. cbn. destruct mark; auto. }
  split_and!; try done; [|by cbn; rewrite lookup_insert_eq].
  unfold data_. cbn. rewrite Hl1. cbn [the mbind outcome_bind]. by rewrite lookup_insert_eq.
Qed.

Lemma rep_size m σ : represents m σ -> size (vars m) = size σ.
Proof.
  intros Hm. rewrite <- !size_dom. f_equal. apply set_eq. intros v. rewrite !elem_of_dom. split.
  - intros [l Hl]. destruct (σ !! v) eqn:E; [by eexists|]. by rewrite (rep_dom _ _ Hm v E) in Hl.
  - intros [s Hs]. destruct (rep_var _ _ Hm v s Hs) as (l & d & Hl & _). by eexists.
Qed.

Lemma RCString_copy_ok m σ v w s :
  represents m σ -> σ !! v = None -> σ !! w = Some s ->
  Z.of_nat (size σ) + 1 < kUnsharedRefMark -> Z.of_nat (length s) <= 2 ^ 61 ->
  exists m', RCString_copy 0 v w m = Ok m' /\ represents m' (<[v := s]> σ).
Proof.
  intros Hm Hv Hw Hf Hs. rewrite <- (rep_size m σ Hm) in Hf.
  destruct (rep_data _ _ _ _ Hm Hw) as (l & d & E & Hl & Hd & Hok & Href).
  unfold RCString_copy. rewrite E. cbn [mbind outcome_bind].
  destruct (Unsharedable d) eqn:HU; cbn [negb].
  - pose proof Hok as (_ & _ & Hc & Hsz & Hle & _).
    destruct (Clone_ok (size_ d) d s Hok) as (n & Hn & Hokn & Hrn & Hcn); [lia|].
    rewrite Hn. cbn [mbind outcome_bind]. eexists. split; [reflexivity|].
    by apply (rep_new m σ v s n).
  - destruct Href as [Hp Href]. pose proof (owners_le l (vars m)).
    assert (0 < ref_count_ d < kUnsharedRefMark) by (unfold Unsharedable, kUnsharedRefMark in *; zify_bool; lia).
    unfold AddRef, assert. rewrite (proj2 (Z.ltb_lt _ _)) by lia. cbn [mbind outcome_bind].
    rewrite (wrap_small 32) by (unfold in_u, kUnsharedRefMark in *; lia).
    eexists. split; [reflexivity|]. by apply (rep_share m σ v w l d s).
Qed.

Lemma Append_ok m σ v s t :
  represents m σ -> σ !! v = Some s -> Z.of_nat (length (s ++ t)) <= 2 ^ 61 ->
  exists m', Append 0 v t m = Ok m' /\ represents m' (<[v := s ++ t]> σ).
Proof.
  intros Hm Hv Hs. rewrite length_app in Hs.
  destruct (rep_data _ _ _ _ Hm Hv) as (l & d & E & Hl & Hd & Hok & _).
  pose proof Hok as (_ & _ & _ & Hsz & _). unfold Append. rewrite E. cbn [mbind outcome_bind].
  rewrite (wrap_small 64) by (unfold in_u; lia).
  destruct (PrepareToModify_ok m σ v s (size_ d + Z.of_nat (length t)) false Hm Hv)
    as (m1 & l1 & d1 & E1 & Hm1 & Hdata & Hl1 & Hd1 & Hok1 & Hown & Hc & Hr); [lia|].
  rewrite E1. cbn [mbind outcome_bind]. rewrite Hdata. cbn [mbind outcome_bind].
  destruct (CopyData_ok d1 s t Hok1) as (d2 & E2 & Hok2 & Hr2 & _);
    [by unfold Unique; rewrite Hr|lia|].
  rewrite E2. cbn [mbind outcome_bind]. eexists. split; [reflexivity|].
  apply (rep_modify m1 σ v l1 d2); try done. left. by rewrite Hr2.
Qed.

(** A write through a reference reaches only the string it came from. *)
Lemma store_ok m σ v s l d pos ch :
  represents m σ -> σ !! v = Some s -> vars m !! v = Some l -> heap m !! l = Some d ->
  ref_count_ d = kUnsharedRefMark -> (pos < length s)%nat ->
  exists m', store (l, pos) ch m = Ok m' /\ represents m' (<[v := <[pos := ch]> s]> σ).
Proof.
  intros Hm Hv Hl Hd Hr Hpos. destruct (rep_data _ _ _ _ Hm Hv) as (l' & d' & _ & Hl' & Hd' & Hok & Href).
  assert (l' = l) as -> by congruence. assert (d' = d) as -> by congruence.
  pose proof Hok as (H1 & H2 & H3 & H4 & H5 & H6). unfold store. cbn [fst snd]. rewrite Hd.
  cbn [the mbind outcome_bind]. rewrite decide_True by lia. eexists. split; [reflexivity|].
  apply (rep_modify m σ v l); try done; [| |].
  - pose proof (rep_few _ _ Hm). apply (Unique_owners m l d); [done|done|].
    unfold Unique. rewrite Hr. done.
  - split_and!; cbn; try done; [by rewrite length_insert|lia|lia|by rewrite length_insert|].
    unfold content. cbn. unfold content in H6. rewrite take_insert_lt by lia. by rewrite H6.
  - cbn. by right.
Qed.

(** ** Strings as values *)

(** What a program means when every variable has a value of its own; a step has no
    meaning when it breaks a rule of C++ or leaves the bounds of the model (strings
    of at most 2^61 characters, fewer than 2^32 - 2 strings). *)
Definition room (σ : gmap nat str) : Prop := Z.of_nat (size σ) + 1 < kUnsharedRefMark.
Definition short (s : str) : Prop := Z.of_nat (length s) <= 2 ^ 61.

#[global] Instance room_dec σ : Decision (room σ).
Proof. unfold room. apply _. Defined.
#[global] Instance short_dec s : Decision (short s).
Proof. unfold short. apply _. Defined.

Definition declare (v : nat) (s : str) (σ : gmap nat str) : option (gmap nat str) :=
  guard (σ !! v = None /\ room σ /\ short s);; Some (<[v := s]> σ).

Definition meaning (o : op) (σ : gmap nat str) : option (gmap nat str) :=
  match o with
  | Empty v => declare v [] σ
  | From v s => declare v s σ
  | Copy v other => s ← σ !! other; declare v s σ
  | Destroy v => _ ← σ !! v; Some (delete v σ)
  | Add v t => s ← σ !! v; guard (short (s ++ t));; Some (<[v := s ++ t]> σ)
  | SetAt v pos ch =>
      s ← σ !! v; guard ((pos < length s)%nat /\ short s);; Some (<[v := <[pos := ch]> s]> σ)
  end.

Fixpoint meaning_all (os : list op) (σ : gmap nat str) : option (gmap nat str) :=
  match os with [] => Some σ | o :: os => σ ← meaning o σ; meaning_all os σ end.

Lemma declare_inv v s σ σ' :
  declare v s σ = Some σ' -> σ !! v = None /\ room σ /\ short s /\ σ' = <[v := s]> σ.
Proof. unfold declare. intros H. case_guard; simplify_eq/=. tauto. Qed.

Lemma exec_ok o m σ σ' :
  represents m σ -> meaning o σ = Some σ' -> exists m', exec 0 o m = Ok m' /\ represents m' σ'.
Proof.
  intros Hm Ho. destruct o as [v|v s|v w|v|v t|v pos ch]; cbn [meaning exec] in *.
  - apply declare_inv in Ho as (Hv & Hf & _ & ->). unfold room in Hf. rewrite <- (rep_size m σ Hm) in Hf.
    destruct (new_ok kBaseSize) as (d & E & Hd & Hr & _); [by unfold kBaseSize|].
    unfold RCString_empty. rewrite E. cbn [mbind outcome_bind]. eexists. split; [reflexivity|].
    by apply (rep_new m σ v [] d).
  - apply declare_inv in Ho as (Hv & Hf & Hs & ->). unfold room in Hf. rewrite <- (rep_size m σ Hm) in Hf.
    unfold short in Hs. unfold RCString_from.
    destruct (new_ok (Z.of_nat (length s))) as (d & E & Hd & Hr & Hc); [lia|].
    rewrite E. cbn [mbind outcome_bind].
    destruct (CopyData_ok d [] s Hd) as (d' & E' & Hd' & Hr' & _);
      [by unfold Unique; rewrite Hr|simpl; lia|].
    pose proof Hd as (_ & _ & _ & Hsz & _). change (size_ d = 0) in Hsz. rewrite Hsz in E'. rewrite E'.
    cbn [mbind outcome_bind]. eexists. split; [reflexivity|].
    apply (rep_new m σ v s d'); try done. by rewrite Hr'.
  - destruct (σ !! w) as [s|] eqn:Hw; [|done]. cbn in Ho.
    apply declare_inv in Ho as (Hv & Hf & Hs & ->). by apply (RCString_copy_ok m σ v w s).
  - destruct (σ !! v) as [s|] eqn:Hv; [|done]. cbn in Ho. injection Ho as <-.
    by apply (destroy_ok m σ v s).
  - destruct (σ !! v) as [s|] eqn:Hv; [|done]. cbn in Ho. case_guard; [|done]. simplify_eq/=.
    by apply Append_ok.
  - destruct (σ !! v) as [s|] eqn:Hv; [|done]. cbn in Ho. case_guard as Hg; [|done]. simplify_eq/=.
    destruct Hg as [Hpos Hs]. unfold short in Hs.
    destruct (rep_data _ _ _ _ Hm Hv) as (l & d & E & _ & _ & Hok & _).
    pose proof Hok as (_ & _ & _ & Hsz & _). unfold index_ref. rewrite E. cbn [mbind outcome_bind].
    destruct (PrepareToModify_ok m σ v s (size_ d) true Hm Hv)
      as (m1 & l1 & d1 & E1 & Hm1 & Hdata & Hl1 & Hd1 & Hok1 & Hown & Hc & Hr); [lia|].
    rewrite E1. cbn [mbind outcome_bind]. rewrite Hdata. cbn [mbind outcome_bind].
    pose proof Hok1 as (Hb & _ & _ & Hs1 & _). rewrite decide_True by lia. cbn [mbind outcome_bind].
    by apply (store_ok m1 σ v s l1 d1).
Qed.

(** C13: If [capacity_], which the constructor reads before anything was stored there, happens to
    hold 0 (else see [uninitialised_capacity]), copy on write is invisible: a
    program that constructs, copies, appends to, writes into and destroys strings, each only
    while it is alive and inside of its text (and with fewer than 2^32 - 2 strings, of at most
    2^61 characters), runs without undefined behaviour and every string has the
    value it would have if none shared its buffer (a write through [operator[]]
    included); and when the last string is gone, so is every buffer. *)
Theorem rcstring_values os σ :
  meaning_all os ∅ = Some σ ->
  exists m, exec_all 0 os no_strings = Ok m /\
    (forall v s, σ !! v = Some s -> to_string v m = Ok s) /\
    (σ = ∅ -> heap m = ∅).
Proof.
  assert (H0 : represents no_strings ∅) by (by split).
  revert H0. generalize no_strings, (∅ : gmap nat str) at 1 2.
  induction os as [|o os IH]; intros m σ0 Hm Hos; cbn [meaning_all exec_all] in *.
  - injection Hos as ->. exists m. split_and!; [done| |].
    + intros v s Hv. destruct (rep_data _ _ _ _ Hm Hv) as (l & d & E & _ & _ & Hok & _).
      unfold to_string. rewrite E. cbn [mbind outcome_bind]. by destruct Hok as (_ & _ & _ & _ & _ & ->).
    + intros ->. apply map_empty. intros l. destruct (heap m !! l) as [d|] eqn:Hd; [|done].
      destruct (rep_heap _ _ Hm l d Hd) as [_ [Hp _]]. pose proof (owners_le l (vars m)).
      rewrite (rep_size m ∅ Hm), map_size_empty in *. lia.
  - destruct (meaning o σ0) as [σ1|] eqn:Ho; [|done]. cbn in Hos.
    destruct (exec_ok o m σ0 σ1 Hm Ho) as (m1 & E & Hm1). rewrite E. cbn [mbind outcome_bind].
    by apply (IH m1 σ1).
Qed.

Definition sample_program : list op :=
  [From 0 (lit "hello"); Copy 1 0; Add 1 (lit ", world"); SetAt 0 0 "J"%char; Copy 2 0;
   SetAt 0 4 "y"%char; Destroy 1; Empty 3].

Lemma rcstring_values_witness :
  exists m, exec_all 0 sample_program no_strings = Ok m /\
    (forall v s, ({[0%nat := lit "Jelly"; 2%nat := lit "Jello"; 3%nat := []]} : gmap nat str) !! v = Some s ->
                 to_string v m = Ok s) /\
    (({[0%nat := lit "Jelly"; 2%nat := lit "Jello"; 3%nat := []]} : gmap nat str) = ∅ -> heap m = ∅).
Proof. apply rcstring_values. vm_compute. reflexivity. Defined.

(** The constructor of [StringData] calls [Reserve], which reads [capacity_] before
    anything was stored there: whatever the memory held, when that is at least the
    length of a (non-empty) text, no buffer is allocated and the text is copied to a
    null pointer. *)
Theorem uninitialised_capacity uninit v s m :
  s <> [] -> Z.of_nat (length s) <= uninit < 2 ^ 64 -> RCString_from uninit v s m = Undef.
Proof.
  intros Hs Hu. unfold RCString_from, new_StringData, Reserve. cbn [capacity_].
  rewrite (proj2 (Z.leb_le _ _)) by lia. cbn [mbind outcome_bind].
  unfold CopyData, assert. change (Unique _) with true.
  cbn [mbind outcome_bind size_ capacity_ buffer_]. change (0 <=? 0) with true. cbn [mbind outcome_bind].
  rewrite wrap_small by (unfold in_u; lia). rewrite (proj2 (Z.leb_le _ _)) by lia.
  cbn [mbind outcome_bind]. unfold memcpy_s. destruct s as [|c s]; [done|].
  rewrite bool_decide_eq_false_2 by (simpl; lia). by rewrite andb_false_r.
Qed.

Lemma uninitialised_capacity_witness : RCString_from (2 ^ 40) 0 (lit "a") no_strings = Undef.
Proof. apply uninitialised_capacity; [done|by compute]. Defined.
