(* ===== verification/Bucket.v ===== *)
(** * The token bucket

    Models token-bucket-rate-limit's [Bucket]: [Take], [TakeAvailable] and [Wait] with
    the critical sections [DoTake] and [DoTakeAvailable], which settle the tokens that
    the ticks since the last call brought.

    Durations and time points are [int64_t] counts of the clock's period; arithmetic
    that leaves [int64_t] is undefined.  The number of ticks is computed before the
    lock is taken, so the critical sections have it as an argument. *)

From S2P Require Import Prelude.

Definition div64 (x y : Z) : outcome Z := if y =? 0 then Undef else int64 (Z.quot x y).

Record Bucket := mk_Bucket {
  capacity_ : Z;
  available_ : Z;
  fill_tick_ : Z;
  quantum_ : Z;
  start_time_ : Z;
  latest_tick_ : Z
}.

Definition make_Bucket (cap fill_tick quantum now : Z) : outcome Bucket :=
  if cap <=? 0 then Throw invalid_argument
  else if (quantum <=? 0) || (cap <? quantum) then Throw invalid_argument
  else Ok (mk_Bucket cap cap fill_tick quantum now 0).

Definition set_available (a : Z) (b : Bucket) : Bucket :=
  mk_Bucket (capacity_ b) a (fill_tick_ b) (quantum_ b) (start_time_ b) (latest_tick_ b).
Definition set_tick (t : Z) (b : Bucket) : Bucket :=
  mk_Bucket (capacity_ b) (available_ b) (fill_tick_ b) (quantum_ b) (start_time_ b) t.

Definition AdjustAvailableTokens (current_tick : Z) (b : Bucket) : outcome Bucket :=
  assert (latest_tick_ b <=? current_tick);;
  let last_tick := latest_tick_ b in
  let b := set_tick current_tick b in
  if capacity_ b <=? available_ b then Ok b
  else
    ticks ← int64 (current_tick - last_tick);
    filled_tokens ← int64 (ticks * quantum_ b);
    sum ← int64 (available_ b + filled_tokens);
    Ok (set_available (Z.min sum (capacity_ b)) b).

Definition DoTakeAvailable (current_ticks count : Z) (b : Bucket) : outcome (Z * Bucket) :=
  b ← AdjustAvailableTokens current_ticks b;
  if available_ b <=? 0 then Ok (0, b)
  else
    let taken := Z.min count (available_ b) in
    Ok (taken, set_available (available_ b - taken) b).

Definition DoTake (current_ticks count : Z) (b : Bucket) : outcome (Z * Bucket) :=
  b ← AdjustAvailableTokens current_ticks b;
  remain ← int64 (available_ b - count);
  if 0 <=? remain then Ok (0, set_available remain b)
  else
    debt ← int64 (- remain);
    up ← int64 (debt + quantum_ b);
    wait_ticks ← div64 (up - 1) (quantum_ b);
    dur ← int64 (wait_ticks * fill_tick_ b);
    Ok (dur, set_available remain b).

Definition ticks_since_start (now : Z) (b : Bucket) : outcome Z :=
  d ← int64 (now - start_time_ b); div64 d (fill_tick_ b).

Definition Take (now count : Z) (b : Bucket) : outcome (Z * Bucket) :=
  assert (0 <=? count);;
  if count <=? 0 then Ok (0, b)
  else ticks ← ticks_since_start now b; DoTake ticks count b.

Definition TakeAvailable (now count : Z) (b : Bucket) : outcome (Z * Bucket) :=
  assert (0 <=? count);;
  if count <=? 0 then Ok (0, b)
  else ticks ← ticks_since_start now b; DoTakeAvailable ticks count b.

(** [Wait]: what the thread sleeps, zero for not at all. *)
Definition Wait (now count : Z) (b : Bucket) : outcome (Z * Bucket) :=
  '(dur, b) ← Take now count b; Ok (if 0 <? dur then dur else 0, b).

(** ** What the calls grant *)

(** A call with the time it reads. *)
Inductive request := Taking (now count : Z) | TakingAvailable (now count : Z).

Definition time (r : request) : Z := match r with Taking t _ | TakingAvailable t _ => t end.
Definition count (r : request) : Z := match r with Taking _ c | TakingAvailable _ c => c end.

(** The tokens a call obtains and the time from which it may use them. *)
Definition serve (r : request) (b : Bucket) : outcome (Z * Z * Bucket) :=
  match r with
  | Taking now count => '(dur, b) ← Take now count b; Ok (count, now + dur, b)
  | TakingAvailable now count => '(taken, b) ← TakeAvailable now count b; Ok (taken, now, b)
  end.

(** The tokens and times of a history of calls. *)
Fixpoint serve_all (rs : list request) (b : Bucket) : outcome (list (Z * Z) * Bucket) :=
  match rs with
  | [] => Ok ([], b)
  | r :: rs => '(n, t, b) ← serve r b; '(gs, b) ← serve_all rs b; Ok ((n, t) :: gs, b)
  end.

(** The tokens in use up to time [t]. *)
Fixpoint granted (t : Z) (gs : list (Z * Z)) : Z :=
  match gs with
  | [] => 0
  | (n, u) :: gs => (if u <=? t then n else 0) + granted t gs
  end.

(** ** The rate *)

Section Rate.
(** The parameters of a bucket, the end [T] of the history and a bound [CNT] of the
    tokens requested in all, such that no computation leaves [int64_t]. *)
Context (cap f q start T CNT : Z).

Record sane : Prop := {
  sane_q : 0 < q <= cap;
  sane_cap : cap <= 2 ^ 60;
  sane_f : 0 < f;
  sane_time : 0 <= T - start < 2 ^ 62;
  sane_fill : (T - start) / f * q <= 2 ^ 61;
  sane_count : 0 <= CNT <= 2 ^ 60;
  sane_wait : CNT * f <= 2 ^ 62
}.
Context (Hsane : sane).

Definition tick (t : Z) : Z := (t - start) / f.

(** What [T] and the bounds of the requests leave to the state; [N] tokens were
    granted. *)
Definition good (b : Bucket) (used N : Z) : Prop :=
  capacity_ b = cap /\ fill_tick_ b = f /\ quantum_ b = q /\ start_time_ b = start /\
  0 <= latest_tick_ b <= tick T /\ - used <= available_ b <= cap /\ 0 <= used /\
  N + available_ b <= cap + q * latest_tick_ b.

Lemma tick_mono t u : t <= u -> tick t <= tick u.
Proof. intros H. apply Z.div_le_mono; [apply (sane_f Hsane)|lia]. Qed.

Lemma tick_wait t w : tick (t + w * f) = tick t + w.
Proof.
  unfold tick. replace (t + w * f - start) with (t - start + w * f) by lia.
  apply Z.div_add. pose proof (sane_f Hsane). lia.
Qed.

Lemma ticks_ok b used N now :
  good b used N -> start <= now <= T -> ticks_since_start now b = Ok (tick now).
Proof.
  intros (_ & Hf & _ & Hs & _) Hn. pose proof (sane_time Hsane). pose proof (sane_f Hsane).
  unfold ticks_since_start, div64. rewrite Hf, Hs. rewrite int64_ok by lia. cbn [mbind outcome_bind].
  rewrite (proj2 (Z.eqb_neq _ _)) by lia. rewrite Z.quot_div_nonneg by lia.
  apply int64_ok. split; [transitivity 0; [lia|apply Z.div_pos; lia]|].
  assert (1 * (now - start) <= f * (now - start)) by (apply Z.mul_le_mono_nonneg_r; lia).
  apply Z.le_lt_trans with (now - start); [|lia]. apply Z.div_le_upper_bound; lia.
Qed.

Lemma adjust_ok b used N t :
  good b used N -> latest_tick_ b <= t <= tick T -> used <= CNT ->
  exists b', AdjustAvailableTokens t b = Ok b' /\ good b' used N /\ latest_tick_ b' = t.
Proof.
  intros (H1 & H2 & H3 & H4 & H5 & H6 & H7 & H8) Ht Hu. pose proof Hsane as [Hq Hc Hf Htm Hfl Hcn Hw].
  unfold AdjustAvailableTokens, assert. rewrite (proj2 (Z.leb_le (latest_tick_ b) t)) by lia. cbn [mbind outcome_bind].
  fold (tick T) in Hfl. cbn [capacity_ available_ quantum_ set_tick]. case_bool.
  - eexists. split; [reflexivity|]. split; [|done]. unfold good; cbn. split_and!; try lia. nia.
  - rewrite H3. assert (0 <= (t - latest_tick_ b) * q <= 2 ^ 61) by nia.
    rewrite !int64_ok by nia. cbn [mbind outcome_bind]. rewrite int64_ok by lia. cbn [mbind outcome_bind].
    rewrite int64_ok by lia. cbn [mbind outcome_bind].
    eexists. split; [reflexivity|]. split; [|done]. unfold good; cbn. split_and!; try lia; nia.
Qed.

(** The ticks to wait are the fewest that bring the debt in. *)
Lemma wait_ticks_spec debt :
  0 < debt -> 0 < q ->
  let w := (debt + q - 1) / q in debt <= w * q /\ 0 < w <= debt.
Proof.
  intros Hd Hq. cbn zeta. set (w := (debt + q - 1) / q).
  pose proof (Z.div_mod (debt + q - 1) q ltac:(lia)) as Hdm.
  pose proof (Z.mod_pos_bound (debt + q - 1) q ltac:(lia)) as Hm. fold w in Hdm. nia.
Qed.

(** A request of [n] tokens is granted [n], from the time [u] on. *)
Definition granting b' used N now n u : Prop :=
  good b' used (N + n) /\ latest_tick_ b' <= tick now /\ 0 <= n /\ now <= u /\
  (0 < n -> N + n <= cap + q * tick u).

Lemma DoTake_ok b used N now c :
  good b used N -> start <= now <= T -> latest_tick_ b <= tick now -> 0 < c -> used + c <= CNT ->
  exists dur b', DoTake (tick now) c b = Ok (dur, b') /\ granting b' (used + c) N now c (now + dur).
Proof.
  intros Hg Hn Hl Hc Hu. pose proof Hsane as [Hq Hcap Hf Htm Hfl Hcn Hw].
  pose proof (tick_mono now T ltac:(lia)) as Hnow.
  destruct (adjust_ok b used N (tick now) Hg) as (b1 & E & Hg1 & Hl1); [lia|lia|].
  destruct Hg1 as (H1 & H2 & H3 & H4 & H5 & H6 & H7 & H8).
  unfold DoTake. rewrite E. cbn [mbind outcome_bind]. rewrite int64_ok by lia. cbn [mbind outcome_bind].
  case_bool.
  - eexists _, _. split; [reflexivity|]. unfold granting, good. cbn. rewrite Z.add_0_r, Hl1 in *.
    split_and!; try lia.
  - rewrite int64_ok by lia. cbn [mbind outcome_bind]. rewrite int64_ok by lia. cbn [mbind outcome_bind].
    unfold div64. rewrite (proj2 (Z.eqb_neq _ _)) by lia. rewrite Z.quot_div_nonneg by lia. rewrite H3.
    destruct (wait_ticks_spec (- (available_ b1 - c))) as [Hw1 Hw2]; [lia|lia|].
    set (w := (- (available_ b1 - c) + q - 1) / q) in *. clearbody w.
    rewrite int64_ok by lia. cbn [mbind outcome_bind]. rewrite H2. rewrite int64_ok by nia.
    cbn [mbind outcome_bind]. eexists _, _. split; [reflexivity|]. unfold granting, good. cbn.
    rewrite tick_wait. rewrite Hl1 in *. split_and!; try lia; nia.
Qed.

Lemma DoTakeAvailable_ok b used N now c :
  good b used N -> start <= now <= T -> latest_tick_ b <= tick now -> 0 < c -> used + c <= CNT ->
  exists n b', DoTakeAvailable (tick now) c b = Ok (n, b') /\ granting b' (used + c) N now n now /\
               n <= c.
Proof.
  intros Hg Hn Hl Hc Hu. pose proof (tick_mono now T ltac:(lia)) as Hnow.
  destruct (adjust_ok b used N (tick now) Hg) as (b1 & E & Hg1 & Hl1); [lia|lia|].
  destruct Hg1 as (H1 & H2 & H3 & H4 & H5 & H6 & H7 & H8).
  unfold DoTakeAvailable. rewrite E. cbn [mbind outcome_bind]. case_bool.
  - eexists _, _. split; [reflexivity|]. unfold granting, good. rewrite Hl1 in *. split_and!; lia.
  - eexists _, _. split; [reflexivity|]. unfold granting, good. cbn. rewrite Hl1 in *.
    split_and!; lia.
Qed.

Lemma serve_ok r b used N :
  good b used N -> start <= time r <= T -> latest_tick_ b <= tick (time r) ->
  0 <= count r -> used + count r <= CNT ->
  exists n u b', serve r b = Ok (n, u, b') /\ granting b' (used + count r) N (time r) n u.
Proof.
  intros Hg Hn Hl Hc Hu. assert (Hzero : granting b (used + 0) N (time r) 0 (time r)).
  { unfold granting. rewrite !Z.add_0_r. split_and!; try lia. done. }
  destruct r as [now c|now c]; cbn [time count serve] in *.
  - unfold Take, assert. rewrite (proj2 (Z.leb_le 0 c)) by lia. cbn [mbind outcome_bind]. case_bool.
    + assert (c = 0) as -> by lia. cbn [mbind outcome_bind]. rewrite Z.add_0_r. eauto.
    + rewrite (ticks_ok b used N) by done. cbn [mbind outcome_bind].
      destruct (DoTake_ok b used N now c Hg) as (dur & b' & E1 & Hg1); try done.
      rewrite E1. cbn [mbind outcome_bind]. eauto 6.
  - unfold TakeAvailable, assert. rewrite (proj2 (Z.leb_le 0 c)) by lia. cbn [mbind outcome_bind].
    case_bool.
    + assert (c = 0) as -> by lia. cbn [mbind outcome_bind]. eauto.
    + rewrite (ticks_ok b used N) by done. cbn [mbind outcome_bind].
      destruct (DoTakeAvailable_ok b used N now c Hg) as (n & b' & E1 & Hg1 & _); try done.
      rewrite E1. cbn [mbind outcome_bind]. eauto 6.
Qed.

(** The calls come in the order of the times they read. *)
Fixpoint in_order (from : Z) (rs : list request) : Prop :=
  match rs with
  | [] => True
  | r :: rs => from <= time r <= T /\ 0 <= count r /\ in_order (time r) rs
  end.

Definition requested (rs : list request) : Z := fold_right (fun r n => count r + n) 0 rs.

Lemma granted_nonneg t gs : Forall (fun g => 0 <= g.1) gs -> 0 <= granted t gs.
Proof. induction 1 as [|[n u] gs Hn _ IH]; simpl in *; [lia|]. case_bool; lia. Qed.

Lemma serve_all_ok rs : forall from b used N,
  good b used N -> start <= from -> latest_tick_ b <= tick from -> in_order from rs ->
  used + requested rs <= CNT ->
  exists gs b', serve_all rs b = Ok (gs, b') /\ Forall (fun g => 0 <= g.1) gs /\
    forall t, 0 < granted t gs -> N + granted t gs <= cap + q * tick t.
Proof.
  induction rs as [|r rs IH]; intros from b used N Hg Hf Hl Ho Hu.
  - exists [], b. simpl. split_and!; [done|done|lia].
  - destruct Ho as (Ht & Hc & Ho). cbn [requested fold_right] in Hu. fold (requested rs) in Hu.
    assert (Hreq : 0 <= requested rs).
    { clear -Ho. revert Ho. generalize (time r). induction rs as [|r' rs IHr]; intros t Ho; [done|].
      destruct Ho as (_ & ? & Ho). cbn. fold (requested rs). specialize (IHr _ Ho). lia. }
    destruct (serve_ok r b used N Hg) as (n & u & b1 & E & Hg1 & Hl1 & Hn & Hnu & Hgr);
      [lia|pose proof (tick_mono from (time r)); lia|lia|lia|].
    cbn [serve_all]. rewrite E. cbn [mbind outcome_bind].
    destruct (IH (time r) b1 (used + count r) (N + n) Hg1) as (gs & b2 & E2 & HF & IH');
      [lia|lia|done|lia|].
    rewrite E2. cbn [mbind outcome_bind]. exists ((n, u) :: gs), b2. split; [done|].
    split; [by constructor|]. intros t. cbn [granted]. pose proof (granted_nonneg t gs HF) as H0.
    specialize (IH' t). case_bool; [|intros Hp; specialize (IH' ltac:(lia)); lia].
    intros Hp. destruct (Z.eq_dec (granted t gs) 0) as [Hz|Hz].
    + specialize (Hgr ltac:(lia)). pose proof (tick_mono u t ltac:(lia)).
      pose proof (sane_q Hsane). nia.
    + specialize (IH' ltac:(lia)). lia.
Qed.
End Rate.

(** C28: a bucket limits the rate: within the bounds of [sane] (a positive interval; capacity,
    times, and the tokens and the wait that all requests amount to far enough inside of
    [int64_t]; the code itself checks none of the latter), after any history of calls in the
    order of the times they read nothing has overflowed or failed an assertion, and at every time the tokens granted so far (a [Take] that has to
    wait gets its tokens when the wait is over) are at most the capacity and the quanta of
    the ticks that have passed. *)
Theorem bucket_rate cap f q start T CNT rs :
  sane cap f q start T CNT -> in_order T start rs -> requested rs <= CNT ->
  exists b gs b', make_Bucket cap f q start = Ok b /\ serve_all rs b = Ok (gs, b') /\
    forall t, start <= t -> granted t gs <= cap + q * ((t - start) / f).
Proof.
  intros Hs Ho Hu. pose proof Hs as [Hq Hcap Hf Htm Hfl Hcn Hw].
  unfold make_Bucket. rewrite (proj2 (Z.leb_gt _ _)) by lia.
  rewrite (proj2 (Z.leb_gt q _)), (proj2 (Z.ltb_ge cap _)) by lia. cbn [orb].
  eexists. assert (H0 : 0 <= (T - start) / f) by (apply Z.div_pos; lia).
  destruct (serve_all_ok cap f q start T CNT Hs rs start (mk_Bucket cap cap f q start 0) 0 0)
    as (gs & b' & E & HF & Hgr); [|lia| |done|done|].
  - unfold good, tick; cbn. split_and!; lia.
  - unfold tick. rewrite Z.sub_diag, Z.div_0_l by lia. done.
  - exists gs, b'. split_and!; [done|done|]. intros t Ht.
    destruct (Z.lt_ge_cases 0 (granted t gs)) as [Hp|Hp]; [by apply Hgr|].
    assert (0 <= (t - start) / f) by (apply Z.div_pos; lia). nia.
Qed.

Definition sample_requests : list request :=
  [TakingAvailable 1000 7; Taking 1000 5; TakingAvailable 1250 3; Taking 1900 0; Taking 2000 4].

Lemma bucket_rate_witness :
  exists b gs b', make_Bucket 10 100 2 1000 = Ok b /\ serve_all sample_requests b = Ok (gs, b') /\
    forall t, 1000 <= t -> granted t gs <= 10 + 2 * ((t - 1000) / 100).
Proof. apply (bucket_rate 10 100 2 1000 5000 19); [split; by compute| |by compute]. simpl; lia. Defined.

(** The second call waits one tick, for the debt of 2. *)
Example sample_grants :
  (b ← make_Bucket 10 100 2 1000; '(gs, b) ← serve_all sample_requests b; Ok (gs, available_ b)) =
  Ok ([(7, 1000); (5, 1100); (2, 1250); (0, 1900); (4, 2000)], 6).
Proof. vm_compute. reflexivity. Qed.

(** The number of ticks is computed outside of the lock, so a thread can enter the
    critical section with a number that another one has already passed; then the
    assertion of [AdjustAvailableTokens] fails. *)
Theorem stale_ticks b ticks count :
  ticks < latest_tick_ b ->
  DoTake ticks count b = Undef /\ DoTakeAvailable ticks count b = Undef.
Proof.
  intros H. unfold DoTake, DoTakeAvailable, AdjustAvailableTokens, assert.
  by rewrite (proj2 (Z.leb_gt (latest_tick_ b) ticks)).
Qed.

Lemma stale_ticks_witness :
  DoTake 1 3 (mk_Bucket 10 4 100 2 1000 2) = Undef /\
  DoTakeAvailable 1 3 (mk_Bucket 10 4 100 2 1000 2) = Undef.
Proof. apply stale_ticks. by compute. Defined.
