(* ===== verification/Backoff.v ===== *)
(** * Backoff and retry

    Models backoff-retry: the policies of backoff_policy.h, the class [backoff] of
    backoff.h and the loop [attempt] of backoff_attempt.h.

    A duration is an [int64_t] count of milliseconds.  A policy is an instance of the
    class [Policy]; the random engine with [std::uniform_int_distribution] is a
    parameter that draws from a range. *)

From S2P Require Import Prelude.

Definition rep_max : Z := 2 ^ 63 - 1.

(** [1 << n] in [int]: the sign bit is set for 31, beyond that it is undefined. *)
Definition shift_one (n : Z) : outcome Z :=
  if n <? 31 then Ok (2 ^ n) else if n =? 31 then Ok (- 2 ^ 31) else Undef.

(** ** Policies *)

Class Policy (P : Type) := {
  apply : P -> Z -> Z -> outcome (Z * P)
}.

Inductive constant := mk_constant.
#[export] Instance constant_policy : Policy constant := {
  apply p base done_retries := Ok (base, p)
}.

Record linear := mk_linear { increment_ : Z; linear_max : Z }.
Definition linear_apply (p : linear) (base done_retries : Z) : outcome (Z * linear) :=
  d ← int64 (done_retries * increment_ p);
  s ← int64 (base + d);
  Ok (Z.min s (linear_max p), p).
#[export] Instance linear_policy : Policy linear := { apply := linear_apply }.

Record exponential := mk_exponential { exponential_max : Z }.
Definition exponential_delay (max_dur base done_retries : Z) : outcome Z :=
  k ← shift_one done_retries;
  d ← int64 (base * k);
  Ok (Z.min d max_dur).
Definition exponential_apply (p : exponential) (base done_retries : Z) : outcome (Z * exponential) :=
  d ← exponential_delay (exponential_max p) base done_retries; Ok (d, p).
#[export] Instance exponential_policy : Policy exponential := { apply := exponential_apply }.

Section Jitter.
(** [rnd_(engine_, {lo, hi})], with the state of the engine. *)
Context {Engine : Type} (rnd : Z -> Z -> Engine -> Z * Engine).

(** The range of a distribution may not be empty. *)
Definition draw (lo hi : Z) (g : Engine) : outcome (Z * Engine) :=
  if lo <=? hi then Ok (rnd lo hi g) else Undef.

Record exponential_full_jitter := mk_full { full_engine : Engine; full_max : Z }.
Definition full_apply (p : exponential_full_jitter) (base done_retries : Z)
    : outcome (Z * exponential_full_jitter) :=
  dur ← exponential_delay (full_max p) base done_retries;
  '(r, g) ← draw 0 dur (full_engine p);
  Ok (r, mk_full g (full_max p)).

Record exponential_decorrelated_jitter :=
  mk_decorrelated { dec_engine : Engine; dec_max : Z; last_dur_ : Z }.
Definition decorrelated_apply (p : exponential_decorrelated_jitter) (base done_retries : Z)
    : outcome (Z * exponential_decorrelated_jitter) :=
  let last_dur := if last_dur_ p =? 0 then base else last_dur_ p in
  bound ← int64 (last_dur * 3);
  '(r, g) ← draw base bound (dec_engine p);
  let final := Z.min r (dec_max p) in
  Ok (final, mk_decorrelated g (dec_max p) final).
End Jitter.

(** The two jitters, for an engine that is fixed once and for all. *)
Class Random (Engine : Type) := rnd_ : Z -> Z -> Engine -> Z * Engine.

#[export] Instance full_policy `{Random Engine} : Policy (exponential_full_jitter (Engine := Engine)) :=
  { apply := full_apply rnd_ }.
#[export] Instance decorrelated_policy `{Random Engine} :
  Policy (exponential_decorrelated_jitter (Engine := Engine)) := { apply := decorrelated_apply rnd_ }.

(** ** [backoff] *)

Section Backoff.
Context `{Policy P}.

Record backoff := mk_backoff { policy : P; base_ : Z; max_retries_ : Z; done_retries_ : Z }.

Definition make_backoff (base max_retries : Z) (p : P) : backoff := mk_backoff p base max_retries 0.

Definition next_delay (b : backoff) : outcome (option Z * backoff) :=
  if done_retries_ b =? max_retries_ b then Ok (None, b)
  else
    '(d, p) ← apply (policy b) (base_ b) (done_retries_ b);
    Ok (Some d, mk_backoff p (base_ b) (max_retries_ b) (wrap 32 (done_retries_ b + 1))).

Definition reset (b : backoff) : backoff := mk_backoff (policy b) (base_ b) (max_retries_ b) 0.

(** ** [attempt] *)

Inductive attempt_result := success | attempt_failure | hard_error.

#[global] Instance attempt_result_dec : EqDecision attempt_result.
Proof. solve_decision. Defined.

(** The calls of the function return [fn 0], [fn 1], ...; the result, the number of
    calls made and the delays slept. *)
Fixpoint attempt (fuel : nat) (b : backoff) (fn : nat -> attempt_result) (calls : nat) (slept : list Z)
    : outcome (attempt_result * nat * list Z) :=
  match fuel with
  | O => OutOfFuel
  | S fuel =>
      let result := fn calls in
      if negb (bool_decide (result = attempt_failure)) then Ok (result, S calls, slept)
      else
        '(delay, b) ← next_delay b;
        match delay with
        | None => Ok (attempt_failure, S calls, slept)
        | Some d => attempt fuel b fn (S calls) (slept ++ [d])
        end
  end.
End Backoff.

Arguments backoff : clear implicits.

Definition make_constant (delay max_retries : Z) : backoff constant :=
  make_backoff delay max_retries mk_constant.
Definition make_linear (base max_retries increment max_delay : Z) : backoff linear :=
  make_backoff base max_retries (mk_linear increment max_delay).
Definition make_exponential (base max_retries max_delay : Z) : backoff exponential :=
  make_backoff base max_retries (mk_exponential max_delay).
Definition make_full {Engine} (base max_retries max_delay : Z) (g : Engine) :=
  make_backoff base max_retries (mk_full g max_delay).
Definition make_decorrelated {Engine} (base max_retries max_delay : Z) (g : Engine) :=
  make_backoff base max_retries (mk_decorrelated g max_delay 0).

(** ** What a policy promises to [backoff] *)

(** For the first [limit] retries [apply] returns, keeps [inv], and its delay after [k]
    retries satisfies [delay_ok k]. *)
Class PolicyOk (P : Type) `{Policy P} (base limit : Z) (inv : P -> Prop) (delay_ok : Z -> Z -> Prop) :=
  apply_ok p k : inv p -> 0 <= k < limit ->
    exists d p', apply p base k = Ok (d, p') /\ inv p' /\ delay_ok k d.

(** ** The loop *)

Section Loop.
Context `{HP : Policy P} (base limit : Z) (inv : P -> Prop) (delay_ok : Z -> Z -> Prop).
Context `{!PolicyOk P base limit inv delay_ok}.

(** The first call, at or after [i] and at most [n] later, that does not ask for a
    retry. *)
Fixpoint first_settled (fn : nat -> attempt_result) (i n : nat) : option nat :=
  if decide (fn i = attempt_failure) then
    match n with O => None | S n => first_settled fn (S i) n end
  else Some i.

Lemma attempt_ok fn n : forall b calls slept,
  base_ b = base -> inv (policy b) -> 0 <= done_retries_ b -> max_retries_ b <= limit ->
  u32 (max_retries_ b) -> max_retries_ b = done_retries_ b + Z.of_nat n ->
  Z.of_nat (length slept) = done_retries_ b -> length slept = calls ->
  (forall k d, slept !! k = Some d -> delay_ok (Z.of_nat k) d) ->
  exists r calls' slept', attempt (S n) b fn calls slept = Ok (r, calls', slept') /\
    (forall k d, slept' !! k = Some d -> delay_ok (Z.of_nat k) d) /\
    match first_settled fn calls n with
    | Some i => r = fn i /\ calls' = S i /\ length slept' = i
    | None => r = attempt_failure /\ calls' = S (calls + n) /\ length slept' = (calls + n)%nat
    end.
Proof.
  induction n as [|n IH]; intros b calls slept Hb Hi Hd Hl Hu Hm Hs Hc HF.
  - cbn [attempt first_settled]. destruct (decide (fn calls = attempt_failure)) as [E|E].
    + rewrite bool_decide_eq_true_2 by done. cbn [negb]. unfold next_delay.
      rewrite (proj2 (Z.eqb_eq _ _)) by lia. cbn [mbind outcome_bind].
      eexists _, _, _. split; [reflexivity|]. split; [done|]. split_and!; [done|lia|lia].
    + rewrite bool_decide_eq_false_2 by done. cbn [negb]. eexists _, _, _.
      split; [reflexivity|]. done.
  - cbn [first_settled]. change (attempt (S (S n)) b fn calls slept) with
      (if negb (bool_decide (fn calls = attempt_failure)) then Ok (fn calls, S calls, slept)
       else '(delay, b) ← next_delay b;
            match delay with
            | None => Ok (attempt_failure, S calls, slept)
            | Some d => attempt (S n) b fn (S calls) (slept ++ [d])
            end).
    destruct (decide (fn calls = attempt_failure)) as [E|E].
    2:{ rewrite bool_decide_eq_false_2 by done. eexists _, _, _. by split. }
    rewrite bool_decide_eq_true_2 by done. cbn [negb]. unfold next_delay.
    rewrite (proj2 (Z.eqb_neq _ _)) by lia.
    destruct (apply_ok (policy b) (done_retries_ b) Hi) as (d & p' & Ha & Hi' & Hg); [lia|].
    rewrite Hb, Ha. cbn [mbind outcome_bind]. rewrite (wrap_small 32) by (unfold in_u in *; lia).
    destruct (IH (mk_backoff p' base (max_retries_ b) (done_retries_ b + 1)) (S calls) (slept ++ [d]))
      as (r & calls' & slept' & E' & HF' & Hr); cbn; try done; try lia.
    + rewrite length_app. cbn. lia.
    + rewrite length_app. cbn. lia.
    + intros k d' [Hk|[Hk Hd']]%lookup_app_Some; [by apply HF|].
      apply list_lookup_singleton_Some in Hd' as [Hk' <-].
      assert (k = length slept) as -> by lia. by rewrite Hs.
    + exists r, calls', slept'. split; [exact E'|]. split; [done|].
      destruct (first_settled fn (S calls) n); [done|]. destruct Hr as (-> & -> & ->). split_and!; [done|lia|lia].
Qed.
End Loop.

(** C30: [attempt] terminates with every policy that keeps its promise: it calls the
    function until it succeeds, fails for good or has been called [max_retries + 1] times,
    returns what the last call returned, and sleeps once between two calls, each time
    for a delay of the policy. *)
Theorem attempt_bounded `{HP : Policy P} base limit inv delay_ok
    `{!PolicyOk P base limit inv delay_ok} p max_retries fn :
  inv p -> u32 max_retries -> max_retries <= limit ->
  exists r calls slept,
    attempt (S (Z.to_nat max_retries)) (make_backoff base max_retries p) fn 0 [] = Ok (r, calls, slept) /\
    (forall k d, slept !! k = Some d -> delay_ok (Z.of_nat k) d) /\
    match first_settled fn 0 (Z.to_nat max_retries) with
    | Some i => r = fn i /\ calls = S i /\ length slept = i
    | None => r = attempt_failure /\ Z.of_nat calls = max_retries + 1 /\
              Z.of_nat (length slept) = max_retries
    end.
Proof.
  intros Hi Hu Hl. unfold in_u in Hu.
  destruct (attempt_ok base limit inv delay_ok fn (Z.to_nat max_retries)
              (make_backoff base max_retries p) 0 []) as (r & calls & slept & E & HF & Hr);
    cbn; try done; try lia.
  exists r, calls, slept. split; [exact E|]. split; [done|].
  destruct (first_settled _ _ _); [done|]. destruct Hr as (-> & -> & ->). split_and!; [done|lia|lia].
Qed.

(** ** The policies *)

#[export] Instance constant_ok base limit : PolicyOk constant base limit (fun _ => True) (fun _ d => d = base).
Proof. intros p k _ _. by exists base, p. Qed.

(** No sum leaves the range: [limit] steps of the increment fit. *)
Lemma linear_ok base limit incr max_delay :
  0 <= base -> 0 <= incr -> base + limit * incr < 2 ^ 63 ->
  PolicyOk linear base limit (fun p => p = mk_linear incr max_delay)
           (fun k d => d = Z.min (base + k * incr) max_delay).
Proof.
  intros Hb Hi Hs p k -> Hk. cbn. unfold linear_apply. cbn.
  assert (0 <= k * incr <= limit * incr) by nia.
  rewrite int64_ok by lia. cbn [mbind outcome_bind]. rewrite int64_ok by lia. cbn [mbind outcome_bind]. eauto.
Qed.

Lemma exponential_delay_ok base k max_delay :
  0 <= base -> 0 <= k < 31 -> base < 2 ^ 32 ->
  exponential_delay max_delay base k = Ok (Z.min (base * 2 ^ k) max_delay).
Proof.
  intros Hb Hk Hs. unfold exponential_delay, shift_one. rewrite (proj2 (Z.ltb_lt _ _)) by lia.
  cbn [mbind outcome_bind]. assert (0 < 2 ^ k <= 2 ^ 30).
  { split; [apply Z.pow_pos_nonneg; lia|]. apply Z.pow_le_mono_r; lia. }
  rewrite int64_ok by nia. done.
Qed.

Lemma exponential_ok base max_delay :
  0 <= base < 2 ^ 32 ->
  PolicyOk exponential base 31 (fun p => p = mk_exponential max_delay)
           (fun k d => d = Z.min (base * 2 ^ k) max_delay).
Proof.
  intros Hb p k -> Hk. cbn. unfold exponential_apply. cbn.
  rewrite exponential_delay_ok by lia. cbn [mbind outcome_bind]. eauto.
Qed.

(** What the code relies on of [std::uniform_int_distribution]. *)
Class RandomOk (Engine : Type) `{Random Engine} :=
  rnd_range lo hi g : lo <= hi -> lo <= (rnd_ lo hi g).1 <= hi.

Lemma full_ok `{RandomOk Engine} base max_delay :
  0 <= base < 2 ^ 32 -> 0 <= max_delay ->
  PolicyOk (exponential_full_jitter (Engine := Engine)) base 31 (fun p => full_max p = max_delay)
           (fun k d => 0 <= d <= Z.min (base * 2 ^ k) max_delay).
Proof.
  intros Hb Hm p k <- Hk. cbn. unfold full_apply.
  rewrite exponential_delay_ok by lia. cbn [mbind outcome_bind].
  assert (0 < 2 ^ k) by (apply Z.pow_pos_nonneg; lia). unfold draw.
  rewrite (proj2 (Z.leb_le _ _)) by nia.
  pose proof (rnd_range 0 (Z.min (base * 2 ^ k) (full_max p)) (full_engine p) ltac:(nia)) as Hr.
  destruct (rnd_ _ _ _) as [r g]. cbn [mbind outcome_bind]. eexists _, _. split; [reflexivity|]. done.
Qed.

Lemma decorrelated_ok `{RandomOk Engine} base max_delay limit :
  0 < base <= max_delay -> max_delay * 3 < 2 ^ 63 ->
  PolicyOk (exponential_decorrelated_jitter (Engine := Engine)) base limit
           (fun p => dec_max p = max_delay /\ (last_dur_ p = 0 \/ base <= last_dur_ p <= max_delay))
           (fun k d => base <= d <= max_delay).
Proof.
  intros Hb Hm p k [Hmax Hl] Hk. cbn. unfold decorrelated_apply, draw.
  set (last := if last_dur_ p =? 0 then base else last_dur_ p).
  assert (base <= last <= max_delay) by (unfold last; case_bool; lia). clearbody last.
  rewrite int64_ok by lia. cbn [mbind outcome_bind]. rewrite (proj2 (Z.leb_le _ _)) by lia.
  pose proof (rnd_range base (last * 3) (dec_engine p) ltac:(lia)) as Hr.
  destruct (rnd_ _ _ _) as [r g]. cbn [mbind outcome_bind fst] in *. rewrite Hmax.
  eexists _, _. split; [reflexivity|]. cbn. split; [split; [done|right]|]; lia.
Qed.

(** The delays of the policies: as long as the sums fit, the linear one grows by its
    increment and the exponential one doubles, both up to the maximum; the full jitter
    stays below that and the decorrelated one between the base and the maximum. *)
Theorem policy_delays `{RandomOk Engine} base max_delay :
  0 < base < 2 ^ 32 -> base <= max_delay -> max_delay * 3 < 2 ^ 63 ->
  (forall limit incr, 0 <= incr -> base + limit * incr < 2 ^ 63 ->
     PolicyOk linear base limit (fun p => p = mk_linear incr max_delay)
              (fun k d => d = Z.min (base + k * incr) max_delay)) /\
  PolicyOk exponential base 31 (fun p => p = mk_exponential max_delay)
           (fun k d => d = Z.min (base * 2 ^ k) max_delay) /\
  PolicyOk (exponential_full_jitter (Engine := Engine)) base 31 (fun p => full_max p = max_delay)
           (fun k d => 0 <= d <= Z.min (base * 2 ^ k) max_delay) /\
  (forall limit, PolicyOk (exponential_decorrelated_jitter (Engine := Engine)) base limit
     (fun p => dec_max p = max_delay /\ (last_dur_ p = 0 \/ base <= last_dur_ p <= max_delay))
     (fun k d => base <= d <= max_delay)).
Proof.
  intros Hb Hm H3. split; [|split; [|split]].
  - intros. apply linear_ok; lia.
  - apply exponential_ok. lia.
  - apply full_ok; lia.
  - intros. apply decorrelated_ok; lia.
Qed.

(** [1 << done_retries] is an [int]: after 31 retries the factor is negative (for a
    positive base the delay is, whatever the maximum, and the full jitter draws from an
    empty range), and from 32 on the shift is undefined. *)
Theorem exponential_overflow `{Random Engine} base max_delay (g : Engine) :
  0 < base < 2 ^ 32 -> 0 <= max_delay ->
  exponential_apply (mk_exponential max_delay) base 31 = Ok (- (base * 2 ^ 31), mk_exponential max_delay) /\
  full_apply rnd_ (mk_full g max_delay) base 31 = Undef /\
  forall k, 32 <= k -> exponential_apply (mk_exponential max_delay) base k = Undef.
Proof.
  intros Hb Hm. assert (E : exponential_delay max_delay base 31 = Ok (- (base * 2 ^ 31))).
  { unfold exponential_delay. change (shift_one 31) with (Ok (- 2 ^ 31)). cbn [mbind outcome_bind].
    rewrite int64_ok by lia. cbn [mbind outcome_bind]. f_equal. lia. }
  split_and!.
  - unfold exponential_apply. cbn [exponential_max]. by rewrite E.
  - unfold full_apply. cbn [full_max]. rewrite E. cbn [mbind outcome_bind]. unfold draw.
    by rewrite (proj2 (Z.leb_gt _ _)) by lia.
  - intros k Hk. unfold exponential_apply, exponential_delay, shift_one.
    rewrite (proj2 (Z.ltb_ge _ _)), (proj2 (Z.eqb_neq _ _)) by lia. done.
Qed.

(** ** Witnesses *)

(** An engine that always draws the largest value. *)
#[local] Instance top_random : Random unit := fun lo hi g => (hi, g).
#[local] Instance top_random_ok : RandomOk unit.
Proof. intros lo hi g Hl. cbn. lia. Qed.

(** The function fails three times and then succeeds. *)
Definition third_time (i : nat) : attempt_result := if (i <? 3)%nat then attempt_failure else success.

Lemma attempt_bounded_witness :
  exists r calls slept,
    attempt 6 (make_backoff 10 5 (mk_exponential 35)) third_time 0 [] = Ok (r, calls, slept) /\
    (forall k d, slept !! k = Some d -> d = Z.min (10 * 2 ^ Z.of_nat k) 35) /\
    r = success /\ calls = 4%nat /\ length slept = 3%nat.
Proof.
  exact (@attempt_bounded exponential _ 10 31 _ _ (exponential_ok 10 35 ltac:(lia))
           (mk_exponential 35) 5 third_time eq_refl ltac:(by compute) ltac:(lia)).
Defined.

Lemma policy_delays_witness :
  PolicyOk exponential 10 31 (fun p => p = mk_exponential 35) (fun k d => d = Z.min (10 * 2 ^ k) 35).
Proof. apply (policy_delays (Engine := unit) 10 35); lia. Defined.

Lemma exponential_overflow_witness :
  exponential_apply (mk_exponential 35) 10 31 = Ok (- (10 * 2 ^ 31), mk_exponential 35).
Proof. apply (exponential_overflow (Engine := unit) 10 35 tt); lia. Defined.
