(* ===== verification/Multipart.v ===== *)
(** * The multipart form reader

    Models http-multipart: [multipart_reader] with [read_next_part] and its helpers,
    and [parse_multipart_form].  A [string_view] is the text it shows.  The string
    functions of the esl library are parameters (class [EslStrings]) with their
    documented behaviour as class [EslStringsOk]. *)

From S2P Require Import Prelude.
From stdpp Require Import gmap.

#[local] Open Scope Z_scope.

Definition crlf : str := [chr 13; chr 10].
Definition newline : str := crlf.
Definition dashes : str := lit "--".
Definition hdr_content_disposition : str := lit "Content-Disposition:".
Definition hdr_content_type : str := lit "Content-Type:".
Definition param_name : str := lit "name=".
Definition param_filename : str := lit "filename=".
Definition quote : ascii := chr 34.

Class EslStrings := {
  starts_with : str -> str -> bool;                    (* text, prefix *)
  starts_with_ignore_ascii_case : str -> str -> bool;
  equals_ignore_ascii_case : str -> str -> bool;
  trim : str -> str -> str;                            (* text, characters *)
  split : str -> ascii -> list str                     (* text, delimiter *)
}.

(** [string_view::find(pat)] and [find(pat, pos)] for a non-empty [pat]. *)
Fixpoint find (pat s : str) : option nat :=
  if has_prefix s pat then Some O
  else match s with [] => None | _ :: s => S <$> find pat s end.
Definition find_from (pat s : str) (pos : nat) : option nat := Nat.add pos <$> find pat (drop pos s).

Inductive read_status := ready | done_ | malformed.

Record content_header := mk_header { hdr_name : str; hdr_filename : str; hdr_type : str }.
Record content_part := mk_part { name : str; filename : str; content_type : str; data : str }.

Record multipart_form := mk_form { values : gmap str str; files : gmap str (str * str) }.

(** [unordered_map::emplace]: an existing entry stays. *)
Definition emplace {A} (k : str) (a : A) (m : gmap str A) : gmap str A :=
  match m !! k with Some _ => m | None => <[k := a]> m end.

Definition add_part (part : content_part) (form : multipart_form) : multipart_form :=
  if decide (filename part = [])
  then mk_form (emplace (name part) (data part) (values form)) (files form)
  else mk_form (values form) (emplace (name part) (filename part, data part) (files form)).

Record multipart_reader := mk_reader { body_ : str; boundary_ : str; status_ : read_status }.

Definition make_reader (body boundary : str) : outcome multipart_reader :=
  if decide (body = []) then Throw invalid_argument
  else if decide (boundary = []) then Throw invalid_argument
  else Ok (mk_reader body boundary ready).

Definition set_body (b : str) (r : multipart_reader) := mk_reader b (boundary_ r) (status_ r).
Definition set_status (s : read_status) (r : multipart_reader) := mk_reader (body_ r) (boundary_ r) s.

Section Reader.
Context {ES : EslStrings}.

(** The loop of [find_dashed_boundary]. *)
Fixpoint find_loop (fuel : nat) (s boundary : str) (pos : nat) : outcome (option nat) :=
  match fuel with
  | O => OutOfFuel
  | S fuel =>
      match find_from boundary s pos with
      | None => Ok None
      | Some xpos =>
          if decide (xpos < length (newline ++ dashes))%nat then Ok None
          else if starts_with (drop (xpos - length (newline ++ dashes)) s) (newline ++ dashes)
          then Ok (Some (xpos - length dashes)%nat)
          else find_loop fuel s boundary (xpos + length boundary)
      end
  end.

Definition find_dashed_boundary (s boundary : str) : outcome (option nat) :=
  find_loop (S (length s)) s boundary 0.

(** The two header readers; [None] for [false], which leaves the header as it was. *)
Definition read_header_content_type (header_line : str) (h : content_header) : option content_header :=
  let type_value := trim (drop (length hdr_content_type) header_line) (lit " ") in
  if decide (type_value = []) then None
  else Some (mk_header (hdr_name h) (hdr_filename h) type_value).

Definition read_header_content_disposition (header_line : str) (h : content_header)
    : option content_header :=
  let splitter := split (drop (length hdr_content_disposition) header_line) ";" in
  let params := map (fun token => trim token (lit " ")) splitter in
  let form_data p0 p1 :=
    equals_ignore_ascii_case p0 (lit "form-data") && starts_with p1 param_name in
  let value p key := trim (drop (length key) p) [quote] in
  match params with
  | [p0; p1] =>
      if form_data p0 p1 then Some (mk_header (value p1 param_name) (hdr_filename h) (hdr_type h))
      else None
  | [p0; p1; p2] =>
      if form_data p0 p1 && starts_with p2 param_filename
      then Some (mk_header (value p1 param_name) (value p2 param_filename) (hdr_type h))
      else None
  | _ => None
  end.

(** The members return what the code returns and the reader they leave. *)
Definition consume_any (s : str) (r : multipart_reader) : bool * multipart_reader :=
  if starts_with (body_ r) s then (true, set_body (drop (length s) (body_ r)) r) else (false, r).

Definition consume_content_header (h : content_header) (r : multipart_reader)
    : option content_header * multipart_reader :=
  match find newline (body_ r) with
  | None => (None, r)
  | Some pos =>
      let header_line := take pos (body_ r) in
      let read :=
        if starts_with_ignore_ascii_case header_line hdr_content_disposition
        then read_header_content_disposition header_line h
        else if starts_with_ignore_ascii_case header_line hdr_content_type
        then read_header_content_type header_line h
        else None in
      match read with
      | None => (None, r)
      | Some h => (Some h, set_body (drop (length header_line + length newline) (body_ r)) r)
      end
  end.

(** [remove_suffix] of more than there is would be undefined. *)
Definition consume_data_part (r : multipart_reader) : outcome (str * multipart_reader) :=
  pos ← find_dashed_boundary (body_ r) (boundary_ r);
  match pos with
  | None => Ok ([], r)
  | Some pos =>
      let data := take pos (body_ r) in
      if decide (length newline <= length data)%nat
      then Ok (take (length data - length newline) data, set_body (drop pos (body_ r)) r)
      else Undef
  end.

Definition is_ready (r : multipart_reader) : bool :=
  match status_ r with ready => true | _ => false end.

(** [read_next_part] after the boundary and its line break. *)
Definition read_part (r : multipart_reader) : outcome (option content_part * multipart_reader) :=
  match consume_content_header (mk_header [] [] []) r with
  | (None, r) => Ok (None, r)
  | (Some h, r) =>
      let '(h, r) :=
        if starts_with (body_ r) newline then (Some h, r) else consume_content_header h r in
      match h with
      | None => Ok (None, r)
      | Some h =>
          if decide (hdr_name h = []) then Ok (None, r)
          else
            let '(ok, r) := consume_any newline r in
            if negb ok then Ok (None, r)
            else
              '(part_data, r) ← consume_data_part r;
              if decide (part_data = []) then Ok (None, r)
              else Ok (Some (mk_part (hdr_name h) (hdr_filename h) (hdr_type h) part_data),
                       set_status ready r)
      end
  end.

Definition read_next_part (r : multipart_reader) : outcome (option content_part * multipart_reader) :=
  if negb (is_ready r) then Ok (None, r)
  else
    let r := set_status malformed r in
    let '(ok, r) := consume_any dashes r in
    if negb ok then Ok (None, r)
    else
      let '(ok, r) := consume_any (boundary_ r) r in
      if negb ok then Ok (None, r)
      else
        let '(last, r) := consume_any dashes r in
        if (last : bool) then
          Ok (None, if decide (body_ r = newline) then set_status done_ r else r)
        else
          let '(ok, r) := consume_any newline r in
          if negb ok then Ok (None, r) else read_part r.

Fixpoint read_all (fuel : nat) (r : multipart_reader) (form : multipart_form)
    : outcome (multipart_form * multipart_reader) :=
  match fuel with
  | O => OutOfFuel
  | S fuel =>
      '(part, r) ← read_next_part r;
      match part with
      | None => Ok (form, r)
      | Some part => read_all fuel r (add_part part form)
      end
  end.

(** Every part takes at least one character of the body. *)
Definition parse_multipart_form (body boundary : str) : outcome multipart_form :=
  reader ← make_reader body boundary;
  '(form, reader) ← read_all (S (length body)) reader (mk_form ∅ ∅);
  match status_ reader with done_ => Ok form | _ => Throw invalid_argument end.
End Reader.

(** What the reader relies on of esl. *)
Definition lower (c : ascii) : ascii :=
  if (65 <=? uchar c) && (uchar c <=? 90) then chr (uchar c + 32) else c.

Class EslStringsOk (E : EslStrings) : Prop := {
  starts_with_spec s p : starts_with s p = true <-> p `prefix_of` s;
  starts_with_icase_spec s p :
    starts_with_ignore_ascii_case s p = true <->
    exists u t, s = u ++ t /\ map lower u = map lower p;
  equals_icase_spec s t : equals_ignore_ascii_case s t = true <-> map lower s = map lower t;
  trim_spec cs l m r :
    Forall (fun c => c ∈ cs) l -> Forall (fun c => c ∈ cs) r ->
    (forall c, head m = Some c -> c ∉ cs) -> (forall c, last m = Some c -> c ∉ cs) ->
    trim (l ++ m ++ r) cs = m;
  split_none s d : s <> [] -> d ∉ s -> split s d = [s];
  split_at s d t : d ∉ s -> split (s ++ d :: t) d = s :: split t d
}.

(** ** Printing a form *)

Definition print_disposition (p : content_part) : str :=
  hdr_content_disposition ++ lit " form-data; name=" ++ [quote] ++ name p ++ [quote] ++
  match filename p with [] => [] | f => lit "; filename=" ++ [quote] ++ f ++ [quote] end.

Definition print_type (p : content_part) : str :=
  match content_type p with [] => [] | t => hdr_content_type ++ lit " " ++ t ++ newline end.

Definition print_part (boundary : str) (p : content_part) : str :=
  dashes ++ boundary ++ newline ++ print_disposition p ++ newline ++ print_type p ++ newline ++
  data p ++ newline.

Fixpoint print_form (boundary : str) (ps : list content_part) : str :=
  match ps with
  | [] => dashes ++ boundary ++ dashes ++ newline
  | p :: ps => print_part boundary p ++ print_form boundary ps
  end.

(** Values that need no escape; the boundary occurs first where the data ends. *)
Definition plain (s : str) : Prop := chr 13 ∉ s /\ ";"%char ∉ s /\ quote ∉ s.
Definition part_ok (boundary : str) (p : content_part) : Prop :=
  name p <> [] /\ plain (name p) /\ plain (filename p) /\
  chr 13 ∉ content_type p /\ head (content_type p) <> Some " "%char /\
  last (content_type p) <> Some " "%char /\
  data p <> [] /\
  find boundary (data p ++ newline ++ dashes ++ boundary) = Some (length (data p) + 4)%nat.

#[global] Instance plain_dec s : Decision (plain s).
Proof. unfold plain. apply _. Defined.
#[global] Instance part_ok_dec b p : Decision (part_ok b p).
Proof. unfold part_ok. apply _. Defined.

(** ** Searching *)

Lemma has_prefix_length s p : has_prefix s p = true -> (length p <= length s)%nat.
Proof. intros H%has_prefix_spec. by apply prefix_length. Qed.

Lemma find_length pat s i : find pat s = Some i -> (i + length pat <= length s)%nat.
Proof.
  revert i. induction s as [|c s IH]; intros i; cbn [find];
    destruct (has_prefix _ pat) eqn:E; try done.
  - intros [= <-]. by apply has_prefix_length in E.
  - intros [= <-]. by apply has_prefix_length in E.
  - destruct (find pat s) as [j|]; [|done]. intros [= <-]. specialize (IH j eq_refl). simpl. lia.
Qed.

Lemma find_app pat s t i : find pat s = Some i -> find pat (s ++ t) = Some i.
Proof.
  revert i. induction s as [|c s IH]; intros i Hf.
  - destruct pat; [|done]. cbn in Hf. injection Hf as <-. by destruct t.
  - pose proof (find_length _ _ _ Hf) as Hl. simpl in Hl. cbn [find] in Hf. cbn [app find].
    change (c :: s ++ t) with ((c :: s) ++ t). rewrite has_prefix_extend by (simpl; lia).
    destruct (has_prefix (c :: s) pat); [done|]. destruct (find pat s) as [j|]; [|done].
    by rewrite (IH j).
Qed.

Lemma find_newline line t : chr 13 ∉ line -> find newline (line ++ newline ++ t) = Some (length line).
Proof.
  induction line as [|c line IH]; intros Hn.
  - destruct t; reflexivity.
  - apply not_elem_of_cons in Hn as [Hc Hn]. cbn [app find length].
    cbn [newline crlf has_prefix]. rewrite bool_decide_eq_false_2 by done. cbn [andb].
    by rewrite IH.
Qed.

Lemma drop_two {A} (a b c : list A) : drop (length a + length b) (a ++ b ++ c) = c.
Proof. by rewrite (assoc_L (++)), <- length_app, drop_app_length. Qed.

Section Roundtrip.
Context `{EO : EslStringsOk}.

Lemma esl_starts_with_app p t : starts_with (p ++ t) p = true.
Proof. apply starts_with_spec. by exists t. Qed.

Lemma consume_ok p t b st : consume_any p (mk_reader (p ++ t) b st) = (true, mk_reader t b st).
Proof. unfold consume_any. cbn [body_]. by rewrite esl_starts_with_app, drop_app_length. Qed.

(** The texts differ at their first character. *)
Lemma consume_no a p c t b st :
  a <> c -> consume_any (a :: p) (mk_reader (c :: t) b st) = (false, mk_reader (c :: t) b st).
Proof.
  intros Hne. unfold consume_any. cbn [body_]. destruct (starts_with (c :: t) (a :: p)) eqn:Hs; [|done].
  apply starts_with_spec in Hs as [u Hs]. by injection Hs as ->.
Qed.

Lemma trim_both cs x m y :
  x ∈ cs -> y ∈ cs -> (forall c, head m = Some c -> c ∉ cs) -> (forall c, last m = Some c -> c ∉ cs) ->
  trim ([x] ++ m ++ [y]) cs = m.
Proof. intros Hx Hy H1 H2. apply trim_spec; [by constructor|by constructor|done|done]. Qed.

Lemma trim_left cs x m :
  x ∈ cs -> (forall c, head m = Some c -> c ∉ cs) -> (forall c, last m = Some c -> c ∉ cs) ->
  trim ([x] ++ m) cs = m.
Proof.
  intros Hx H1 H2. rewrite <- (app_nil_r m) at 1. by apply trim_spec; [constructor|constructor| |].
Qed.

(** A quoted value between quotes. *)
Lemma trim_quotes s : quote ∉ s -> trim ([quote] ++ s ++ [quote]) [quote] = s.
Proof.
  intros Hq. apply trim_both; [by left|by left| |]; intros c Hc ->%list_elem_of_singleton; apply Hq.
  - by destruct s; simplify_eq/=; left.
  - apply last_Some in Hc as [s' ->]. apply elem_of_app. right. by left.
Qed.

(** The parameter [key="value"] of the header, with its space. *)
Lemma trim_param key v c :
  head key = Some c -> c <> " "%char ->
  trim ([" "%char] ++ key ++ [quote] ++ v ++ [quote]) (lit " ") = key ++ [quote] ++ v ++ [quote].
Proof.
  intros Hk Hc. apply trim_left; [by left| |].
  - intros x Hx ->%list_elem_of_singleton. by destruct key; simplify_eq/=.
  - intros x. rewrite !(assoc_L (++)), last_snoc. intros [= <-] Hq.
    by apply list_elem_of_singleton in Hq.
Qed.

Lemma not_elem_quoted key v (c : ascii) :
  c ∉ key -> c <> quote -> c <> " "%char -> c ∉ v ->
  c ∉ [" "%char] ++ key ++ [quote] ++ v ++ [quote].
Proof.
  intros H1 H2 H3 H4. rewrite !not_elem_of_app, !not_elem_of_cons.
  split_and!; try done; apply not_elem_of_nil.
Qed.

Lemma read_disposition_ok p h :
  plain (name p) -> plain (filename p) ->
  read_header_content_disposition (print_disposition p) h =
  Some (mk_header (name p) (match filename p with [] => hdr_filename h | f => f end) (hdr_type h)).
Proof.
  intros (_ & Hn1 & Hn2) (_ & Hf1 & Hf2). unfold read_header_content_disposition, print_disposition.
  rewrite drop_app_length.
  replace (lit " form-data; name=" ++ [quote] ++ name p ++ [quote] ++ _)
    with (lit " form-data" ++ ";"%char :: ([" "%char] ++ param_name ++ [quote] ++ name p ++ [quote]) ++
          match filename p with [] => [] | f => lit "; filename=" ++ [quote] ++ f ++ [quote] end)
    by (by rewrite <- !(assoc_L (++))).
  rewrite split_at by (apply (bool_decide_unpack _); vm_compute; exact I).
  assert (Hform : trim (lit " form-data") (lit " ") = lit "form-data").
  { apply (trim_left (lit " ") " "%char (lit "form-data")); [by left| |];
      intros c [= <-]; apply (bool_decide_unpack _); vm_compute; exact I. }
  assert (Heq : equals_ignore_ascii_case (lit "form-data") (lit "form-data") = true)
    by (by apply equals_icase_spec).
  assert (Hp : ";"%char ∉ [" "%char] ++ param_name ++ [quote] ++ name p ++ [quote])
    by (apply not_elem_quoted; [apply (bool_decide_unpack _); vm_compute; exact I|done|done|done]).
  destruct (filename p) as [|f0 f] eqn:Ef.
  - rewrite app_nil_r, split_none by done. cbn [map]. rewrite Hform.
    rewrite (trim_param param_name (name p) "n"%char) by done.
    rewrite Heq, esl_starts_with_app. cbn [andb]. rewrite drop_app_length, trim_quotes by done. done.
  - change (lit "; filename=" ++ ?x) with (";"%char :: [" "%char] ++ param_filename ++ x).
    rewrite split_at by done.
    rewrite split_none; [|done|].
    2:{ apply not_elem_quoted; [apply (bool_decide_unpack _); vm_compute; exact I|done|done|done]. }
    cbn [map]. rewrite Hform. rewrite (trim_param param_name (name p) "n"%char) by done.
    rewrite (trim_param param_filename (f0 :: f) "f"%char) by done.
    rewrite Heq, !esl_starts_with_app. cbn [andb]. rewrite !drop_app_length, !trim_quotes by done. done.
Qed.

Lemma icase_app p t : starts_with_ignore_ascii_case (p ++ t) p = true.
Proof. apply starts_with_icase_spec. by exists p, t. Qed.

(** The two headers differ, whatever the case. *)
Lemma type_not_disposition t :
  starts_with_ignore_ascii_case (hdr_content_type ++ t) hdr_content_disposition = false.
Proof.
  destruct (starts_with_ignore_ascii_case _ _) eqn:Hs; [|done].
  apply starts_with_icase_spec in Hs as (u & r & Heq & Hu). exfalso.
  assert (Hlen : length u = 20%nat) by (apply (f_equal length) in Hu; by rewrite !length_map in Hu).
  apply (f_equal (fun l => lower <$> (l !! 8%nat))) in Heq.
  rewrite lookup_app_l in Heq by (simpl; lia). rewrite lookup_app_l in Heq by lia.
  assert (Hl : map lower u !! 8%nat = map lower hdr_content_disposition !! 8%nat) by (by rewrite Hu).
  rewrite list_lookup_fmap in Hl. rewrite Hl in Heq. vm_compute in Heq. discriminate.
Qed.

Lemma disposition_no_cr p : plain (name p) -> plain (filename p) -> chr 13 ∉ print_disposition p.
Proof.
  intros (Hn & _) (Hf & _). unfold print_disposition.
  rewrite !not_elem_of_app. split_and!; try done; try (apply (bool_decide_unpack _); vm_compute; exact I).
  destruct (filename p); [apply not_elem_of_nil|]. rewrite !not_elem_of_app.
  split_and!; try done; apply (bool_decide_unpack _); vm_compute; exact I.
Qed.

Lemma consume_disposition_ok p h rest b st :
  plain (name p) -> plain (filename p) ->
  consume_content_header h (mk_reader (print_disposition p ++ newline ++ rest) b st) =
  (Some (mk_header (name p) (match filename p with [] => hdr_filename h | f => f end) (hdr_type h)),
   mk_reader rest b st).
Proof.
  intros Hn Hf. unfold consume_content_header. cbn [body_].
  rewrite find_newline by (by apply disposition_no_cr). rewrite take_app_length.
  assert (Hi : starts_with_ignore_ascii_case (print_disposition p) hdr_content_disposition = true)
    by apply icase_app.
  rewrite Hi, read_disposition_ok by done. unfold set_body. cbn [body_ boundary_ status_].
  by rewrite drop_two.
Qed.

Lemma consume_type_ok t h rest b st :
  t <> [] -> chr 13 ∉ t -> head t <> Some " "%char -> last t <> Some " "%char ->
  consume_content_header h (mk_reader ((hdr_content_type ++ lit " " ++ t) ++ newline ++ rest) b st) =
  (Some (mk_header (hdr_name h) (hdr_filename h) t), mk_reader rest b st).
Proof.
  intros Hne Hcr Hh Hl. unfold consume_content_header. cbn [body_]. rewrite find_newline.
  2:{ rewrite !not_elem_of_app. split_and!; try done; apply (bool_decide_unpack _); vm_compute; exact I. }
  rewrite take_app_length, type_not_disposition, icase_app.
  unfold read_header_content_type. rewrite drop_app_length.
  assert (Ht : trim (lit " " ++ t) (lit " ") = t).
  { apply (trim_left (lit " ") " "%char t); [by left| |];
      intros c Hc ->%list_elem_of_singleton; done. }
  rewrite Ht, decide_False by done. unfold set_body. cbn [body_ boundary_ status_].
  by rewrite drop_two.
Qed.

(** The data up to the next boundary. *)
Lemma consume_data_ok d b rest st :
  b <> [] -> find b (d ++ newline ++ dashes ++ b) = Some (length d + 4)%nat ->
  consume_data_part (mk_reader (d ++ newline ++ dashes ++ b ++ rest) b st) =
  Ok (d, mk_reader (dashes ++ b ++ rest) b st).
Proof.
  intros Hb Hf. unfold consume_data_part, find_dashed_boundary. cbn [body_ boundary_ find_loop].
  apply (find_app _ _ rest) in Hf. rewrite <- !(assoc_L (++)) in Hf.
  unfold find_from. rewrite drop_0, Hf. cbn [fmap option_fmap option_map].
  change (length (newline ++ dashes)) with 4%nat. rewrite decide_False by lia.
  replace (0 + (length d + 4) - 4)%nat with (length d) by lia. rewrite drop_app_length.
  rewrite (assoc_L (++) newline dashes), esl_starts_with_app. cbn [mbind outcome_bind].
  change (length dashes) with 2%nat. replace (0 + (length d + 4) - 2)%nat with (length d + 2)%nat by lia.
  rewrite <- (assoc_L (++) newline), (assoc_L (++) d).
  assert (Hl : length (d ++ newline) = (length d + 2)%nat) by (by rewrite length_app).
  rewrite take_app_length' by lia. rewrite decide_True by (rewrite Hl; simpl; lia).
  rewrite Hl. change (length newline) with 2%nat. replace (length d + 2 - 2)%nat with (length d) by lia.
  rewrite take_app_length. unfold set_body. cbn [body_ boundary_ status_].
  by rewrite drop_app_length' by lia.
Qed.

Lemma read_part_ok b p rest :
  b <> [] -> part_ok b p ->
  read_part (mk_reader (print_disposition p ++ newline ++ print_type p ++ newline ++ data p ++ newline ++
                        dashes ++ b ++ rest) b malformed) =
  Ok (Some p, mk_reader (dashes ++ b ++ rest) b ready).
Proof.
  intros Hb (Hne & Hn & Hf & Hcr & Hh & Hl & Hd & Hfind). unfold read_part.
  rewrite consume_disposition_ok by done. cbn [hdr_filename hdr_type hdr_name body_].
  set (fname := match filename p with [] => [] | f => f end).
  assert (Hfn : fname = filename p) by (unfold fname; by destruct (filename p)). rewrite Hfn.
  assert (Hmid : exists r, (if starts_with (print_type p ++ newline ++ data p ++ newline ++ dashes ++ b ++ rest) newline
      then (Some (mk_header (name p) (filename p) []),
            mk_reader (print_type p ++ newline ++ data p ++ newline ++ dashes ++ b ++ rest) b malformed)
      else consume_content_header (mk_header (name p) (filename p) [])
             (mk_reader (print_type p ++ newline ++ data p ++ newline ++ dashes ++ b ++ rest) b malformed)) =
      (Some (mk_header (name p) (filename p) (content_type p)), r) /\
      r = mk_reader (newline ++ data p ++ newline ++ dashes ++ b ++ rest) b malformed).
  { eexists. split; [|reflexivity]. unfold print_type. destruct (content_type p) as [|t0 t] eqn:Et.
    - cbn [app]. by rewrite esl_starts_with_app.
    - destruct (starts_with _ newline) eqn:Hs.
      { apply starts_with_spec in Hs as [u Hs]. discriminate. }
      rewrite <- !(assoc_L (++)). rewrite !(assoc_L (++) hdr_content_type).
      rewrite !(assoc_L (++) (hdr_content_type ++ lit " ")). rewrite <- (assoc_L (++) hdr_content_type).
      by rewrite consume_type_ok. }
  destruct Hmid as (r & -> & ->). cbn [hdr_name hdr_filename hdr_type].
  rewrite decide_False by done. rewrite consume_ok. cbn [negb].
  rewrite consume_data_ok by done. cbn [mbind outcome_bind].
  rewrite decide_False by done. unfold set_status. by destruct p.
Qed.

Lemma consume_dashes_newline t b st :
  consume_any dashes (mk_reader (newline ++ t) b st) = (false, mk_reader (newline ++ t) b st).
Proof. by apply (consume_no "-"%char (lit "-") (chr 13) (chr 10 :: t)). Qed.

Lemma read_next_part_ok b p rest :
  b <> [] -> part_ok b p ->
  read_next_part (mk_reader (print_part b p ++ dashes ++ b ++ rest) b ready) =
  Ok (Some p, mk_reader (dashes ++ b ++ rest) b ready).
Proof.
  intros Hb Hp. unfold print_part. rewrite <- !(assoc_L (++)).
  unfold read_next_part, set_status. cbn [is_ready status_ negb body_ boundary_].
  rewrite consume_ok. cbn [negb boundary_]. rewrite consume_ok. cbn [negb].
  rewrite consume_dashes_newline.
  rewrite consume_ok. cbn [negb]. by apply read_part_ok.
Qed.

Lemma print_form_starts b ps : exists rest, print_form b ps = dashes ++ b ++ rest.
Proof.
  destruct ps as [|p ps]; cbn [print_form]; [by eexists|].
  unfold print_part. rewrite <- !(assoc_L (++)). by eexists.
Qed.

Lemma read_all_ok b ps : forall fuel form,
  b <> [] -> Forall (part_ok b) ps -> (length ps < fuel)%nat ->
  exists r, read_all fuel (mk_reader (print_form b ps) b ready) form =
            Ok (fold_left (fun form p => add_part p form) ps form, r) /\ status_ r = done_.
Proof.
  induction ps as [|p ps IH]; intros fuel form Hb HF Hfuel; (destruct fuel as [|fuel]; [lia|]).
  - cbn [read_all print_form fold_left]. unfold read_next_part, set_status.
    cbn [is_ready status_ negb body_ boundary_]. rewrite consume_ok. cbn [negb boundary_].
    rewrite consume_ok. cbn [negb]. rewrite consume_ok. cbn [body_]. rewrite decide_True by done.
    cbn [mbind outcome_bind]. by eexists.
  - apply Forall_cons in HF as [Hp HF]. cbn [print_form fold_left].
    destruct (print_form_starts b ps) as [rest Hrest]. cbn [read_all].
    rewrite Hrest, read_next_part_ok by done. cbn [mbind outcome_bind].
    rewrite <- Hrest. apply IH; [done|done|simpl in Hfuel; lia].
Qed.

Lemma print_form_length b ps : (length ps < length (print_form b ps))%nat.
Proof.
  induction ps as [|p ps IH]; cbn [print_form].
  - rewrite !length_app. simpl. lia.
  - unfold print_part. rewrite !length_app. simpl. lia.
Qed.

Lemma parse_print b ps :
  b <> [] -> Forall (part_ok b) ps ->
  parse_multipart_form (print_form b ps) b =
  Ok (fold_left (fun form p => add_part p form) ps (mk_form ∅ ∅)).
Proof.
  intros Hb HF. unfold parse_multipart_form, make_reader.
  pose proof (print_form_length b ps) as Hl.
  rewrite decide_False by (by apply nonempty_length; lia). rewrite decide_False by done.
  cbn [mbind outcome_bind].
  destruct (read_all_ok b ps (S (length (print_form b ps))) (mk_form ∅ ∅) Hb HF) as (r & Hr & Hst); [lia|].
  rewrite Hr. cbn [mbind outcome_bind]. by rewrite Hst.
Qed.
End Roundtrip.

(** ** The form *)

(** The first part with the name [n] that is a file, or that is none. *)
Fixpoint first_part (file : bool) (n : str) (ps : list content_part) : option content_part :=
  match ps with
  | [] => None
  | p :: ps =>
      if decide (name p = n) then
        if Bool.eqb file (negb (bool_decide (filename p = []))) then Some p else first_part file n ps
      else first_part file n ps
  end.

Lemma emplace_lookup {A} k (a : A) m n :
  emplace k a m !! n = match m !! n with Some x => Some x | None => if decide (k = n) then Some a else None end.
Proof.
  unfold emplace. destruct (decide (k = n)) as [->|Hne].
  - destruct (m !! n) eqn:E; [by rewrite E|apply lookup_insert_eq].
  - destruct (m !! k); [by destruct (m !! n)|]. rewrite lookup_insert_ne by done. by destruct (m !! n).
Qed.

Lemma form_lookup ps n : forall form,
  let form' := fold_left (fun form p => add_part p form) ps form in
  values form' !! n = match values form !! n with Some v => Some v | None => data <$> first_part false n ps end /\
  files form' !! n = match files form !! n with
                     | Some v => Some v
                     | None => (fun p => (filename p, data p)) <$> first_part true n ps
                     end.
Proof.
  induction ps as [|p ps IH]; intros form; cbn [fold_left first_part].
  - by destruct (values form !! n), (files form !! n).
  - destruct (IH (add_part p form)) as [-> ->]. unfold add_part.
    case_decide as Hf; cbn [values files]; rewrite emplace_lookup.
    + rewrite bool_decide_eq_true_2 by done. cbn [negb Bool.eqb].
      destruct (decide (name p = n)), (values form !! n), (files form !! n); done.
    + rewrite bool_decide_eq_false_2 by done. cbn [negb Bool.eqb].
      destruct (decide (name p = n)), (values form !! n), (files form !! n); done.
Qed.

(** C11: printing a form and parsing it gives the form back: [parse_multipart_form] succeeds
    on the text of any list of parts with a name and data that are not empty (an empty one
    is rejected, see [empty_field_rejected]), whose values need no escape and whose data the
    boundary does not run into ([part_ok]), and every name maps to the first part that has it,
    among the values or among the files. *)
Theorem multipart_roundtrip `{EO : EslStringsOk} b ps :
  b <> [] -> Forall (part_ok b) ps ->
  exists form, parse_multipart_form (print_form b ps) b = Ok form /\
    forall n, values form !! n = data <$> first_part false n ps /\
              files form !! n = (fun p => (filename p, data p)) <$> first_part true n ps.
Proof.
  intros Hb HF. eexists. split; [by apply parse_print|]. intros n.
  destruct (form_lookup ps n (mk_form ∅ ∅)) as [-> ->]. done.
Qed.

(** ** Termination *)

Section Total.
Context `{EO : EslStringsOk}.

Lemma find_loop_total s b : b <> [] -> forall fuel pos,
  (length s - pos < fuel)%nat ->
  exists r, find_loop fuel s b pos = Ok r /\
    forall i, r = Some i -> (2 <= i <= length s)%nat.
Proof.
  intros Hb. induction fuel as [|fuel IH]; intros pos Hf.
  - lia.
  - cbn [find_loop]. unfold find_from. destruct (find b (drop pos s)) as [j|] eqn:Hj; cbn [fmap option_fmap option_map];
      [|by eexists].
    apply find_length in Hj. rewrite length_drop in Hj.
    assert (0 < length b)%nat by (destruct b; simpl; [done|lia]).
    change (length (newline ++ dashes)) with 4%nat. change (length dashes) with 2%nat.
    case_decide; [by eexists|]. case_match.
    + eexists. split; [reflexivity|]. intros i [= <-]. lia.
    + destruct (IH (pos + j + length b)%nat) as (r & Hr & H'); [lia|]. by exists r.
Qed.

Lemma consume_any_spec p r ok r' :
  consume_any p r = (ok, r') ->
  boundary_ r' = boundary_ r /\ status_ r' = status_ r /\
  length (body_ r) = (length (body_ r') + if ok then length p else 0)%nat.
Proof.
  unfold consume_any. destruct (starts_with (body_ r) p) eqn:Hs; intros [= <- <-]; [|split_and!; [done|done|lia]].
  apply starts_with_spec in Hs as [t ->]. cbn. rewrite drop_app_length, length_app. split_and!; [done|done|lia].
Qed.

Lemma consume_content_header_spec h r h' r' :
  consume_content_header h r = (h', r') ->
  boundary_ r' = boundary_ r /\ status_ r' = status_ r /\ (length (body_ r') <= length (body_ r))%nat.
Proof.
  unfold consume_content_header. destruct (find newline (body_ r)); [|intros [= <- <-]; split_and!; done || lia].
  case_match; intros [= <- <-]; [|split_and!; done || lia].
  cbn. rewrite length_drop. split_and!; [done|done|lia].
Qed.

Lemma consume_data_total r :
  boundary_ r <> [] ->
  exists d r', consume_data_part r = Ok (d, r') /\ boundary_ r' = boundary_ r /\
               (length (body_ r') <= length (body_ r))%nat /\ status_ r' = status_ r.
Proof.
  intros Hb. unfold consume_data_part, find_dashed_boundary.
  destruct (find_loop_total (body_ r) (boundary_ r) Hb (S (length (body_ r))) 0) as (p & Hp & Hi); [lia|].
  rewrite Hp. cbn [mbind outcome_bind]. destruct p as [i|]; [|by eexists _, _].
  specialize (Hi i eq_refl). rewrite decide_True by (rewrite length_take; simpl; lia).
  eexists _, _. split; [reflexivity|]. cbn. rewrite length_drop. split_and!; [done|lia|done].
Qed.

(** A part that was read left less of the body, and the reader ready. *)
Definition shrinks (r : multipart_reader) (o : outcome (option content_part * multipart_reader)) : Prop :=
  exists p r', o = Ok (p, r') /\ boundary_ r' = boundary_ r /\ (length (body_ r') <= length (body_ r))%nat.

Lemma read_part_total r : boundary_ r <> [] -> shrinks r (read_part r).
Proof.
  intros Hb. unfold read_part, shrinks.
  destruct (consume_content_header _ r) as [[h|] r1] eqn:H1;
    apply consume_content_header_spec in H1 as (Hb1 & _ & Hl1); [|by eexists _, _].
  destruct (if starts_with _ _ then _ else _) as [h2 r2] eqn:H2.
  assert (boundary_ r2 = boundary_ r /\ (length (body_ r2) <= length (body_ r))%nat) as [Hb2 Hl2].
  { destruct (starts_with _ _); [by injection H2 as _ <-|].
    apply consume_content_header_spec in H2 as (? & _ & ?). split; [congruence|lia]. }
  destruct h2 as [h2|]; [|by eexists _, _]. case_decide; [by eexists _, _|].
  destruct (consume_any newline r2) as [ok r3] eqn:H3.
  apply consume_any_spec in H3 as (Hb3 & _ & Hl3).
  assert (length (body_ r3) <= length (body_ r))%nat by lia.
  destruct ok; cbn [negb]; [|eexists _, _; split_and!; [done|congruence|done]].
  destruct (consume_data_total r3) as (d & r4 & H4 & Hb4 & Hl4 & _); [congruence|].
  rewrite H4. cbn [mbind outcome_bind].
  case_decide; eexists _, _; (split; [reflexivity|]); cbn; split; first [congruence|lia].
Qed.

Lemma read_next_part_total r :
  boundary_ r <> [] ->
  exists p r', read_next_part r = Ok (p, r') /\ boundary_ r' = boundary_ r /\
    (is_Some p -> length (body_ r') < length (body_ r))%nat.
Proof.
  intros Hb. unfold read_next_part. destruct (is_ready r); cbn [negb];
    [|eexists _, _; split_and!; [done|done|by intros []]].
  destruct (consume_any dashes _) as [ok1 r1] eqn:H1. apply consume_any_spec in H1 as (Hb1 & _ & Hl1).
  cbn in Hb1, Hl1.
  destruct ok1; cbn [negb]; [|eexists _, _; split_and!; [done|done|by intros []]].
  destruct (consume_any (boundary_ r1) r1) as [ok2 r2] eqn:H2. apply consume_any_spec in H2 as (Hb2 & _ & Hl2).
  destruct ok2; cbn [negb]; [|eexists _, _; split_and!; [done|congruence|by intros []]].
  destruct (consume_any dashes r2) as [ok3 r3] eqn:H3. apply consume_any_spec in H3 as (Hb3 & _ & Hl3).
  destruct ok3.
  { case_decide; eexists _, _; split_and!; try done; cbn; try congruence; by intros []. }
  destruct (consume_any newline r3) as [ok4 r4] eqn:H4. apply consume_any_spec in H4 as (Hb4 & _ & Hl4).
  destruct ok4; cbn [negb]; [|eexists _, _; split_and!; [done|congruence|by intros []]].
  destruct (read_part_total r4) as (p & r5 & H5 & Hb5 & Hl5); [congruence|].
  exists p, r5. split_and!; [done|congruence|]. intros _. lia.
Qed.

Lemma read_all_total fuel : forall r form,
  boundary_ r <> [] -> (length (body_ r) < fuel)%nat -> exists x, read_all fuel r form = Ok x.
Proof.
  induction fuel as [|fuel IH]; intros r form Hb Hf; [lia|]. cbn [read_all].
  destruct (read_next_part_total r Hb) as (p & r' & Hr & Hb' & Hl). rewrite Hr. cbn [mbind outcome_bind].
  destruct p as [p|]; [|by eexists]. apply IH; [congruence|]. specialize (Hl ltac:(by eexists)). lia.
Qed.
End Total.

(** The parser is total: on every body and boundary it returns a form or throws
    [invalid_argument], which it does for an empty body or boundary. *)
Theorem multipart_total `{EO : EslStringsOk} body b :
  (exists form, parse_multipart_form body b = Ok form) \/
  parse_multipart_form body b = Throw invalid_argument.
Proof.
  unfold parse_multipart_form, make_reader. case_decide; [by right|]. case_decide; [by right|].
  cbn [mbind outcome_bind].
  destruct (read_all_total (S (length body)) (mk_reader body b ready) (mk_form ∅ ∅)) as ([form r] & Hr);
    [done|cbn; lia|].
  rewrite Hr. cbn [mbind outcome_bind]. destruct (status_ r); [by right|left; by eexists|by right].
Qed.

(** ** The parameters can be instantiated *)

Module Reference.
Fixpoint drop_while (cs s : str) : str :=
  match s with [] => [] | c :: t => if decide (c ∈ cs) then drop_while cs t else s end.

Fixpoint split_loop (d : ascii) (cur s : str) : list str :=
  match s with
  | [] => match cur with [] => [] | _ => [cur] end
  | c :: s => if decide (c = d) then cur :: split_loop d [] s else split_loop d (cur ++ [c]) s
  end.

#[export] Instance esl : EslStrings := {
  starts_with s p := has_prefix s p;
  starts_with_ignore_ascii_case s p := has_prefix (map lower s) (map lower p);
  equals_ignore_ascii_case s t := bool_decide (map lower s = map lower t);
  trim s cs := rev (drop_while cs (rev (drop_while cs s)));
  split s d := split_loop d [] s
}.

Lemma drop_while_app cs l s :
  Forall (fun c => c ∈ cs) l -> (forall c, head s = Some c -> c ∉ cs) -> drop_while cs (l ++ s) = s.
Proof.
  induction 1 as [|c l Hc _ IH]; intros Hs; simpl.
  - destruct s as [|c s]; [done|]. simpl. by rewrite decide_False by (by apply Hs).
  - rewrite decide_True by done. by apply IH.
Qed.

Lemma drop_while_all cs l : Forall (fun c => c ∈ cs) l -> drop_while cs l = [].
Proof. intros H. rewrite <- (app_nil_r l). by apply drop_while_app. Qed.

Lemma trim_ok cs l m r :
  Forall (fun c => c ∈ cs) l -> Forall (fun c => c ∈ cs) r ->
  (forall c, head m = Some c -> c ∉ cs) -> (forall c, last m = Some c -> c ∉ cs) ->
  rev (drop_while cs (rev (drop_while cs (l ++ m ++ r)))) = m.
Proof.
  intros Hl Hr Hh Hla. assert (Hrr : Forall (fun c => c ∈ cs) (rev r)) by (by apply List.Forall_rev).
  destruct m as [|c m].
  - rewrite (drop_while_all cs (l ++ [] ++ r)) by (rewrite app_nil_l; by apply Forall_app). done.
  - rewrite drop_while_app by (done || intros x [= <-]; by apply Hh).
    rewrite rev_app_distr, drop_while_app; [apply rev_involutive|done|].
    intros x Hx. apply Hla. rewrite rev_alt in Hx. change (rev_append ?l []) with (reverse l) in Hx.
    by rewrite head_reverse in Hx.
Qed.

Lemma split_loop_none d s cur : d ∉ s -> cur ++ s <> [] -> split_loop d cur s = [cur ++ s].
Proof.
  revert cur. induction s as [|c s IH]; intros cur Hd Hne; simpl.
  - rewrite app_nil_r in *. by destruct cur.
  - apply not_elem_of_cons in Hd as [Hc Hd]. rewrite decide_False by done.
    rewrite IH; [by rewrite <- (assoc_L (++))|done|by destruct cur].
Qed.

Lemma split_loop_at d s t cur : d ∉ s -> split_loop d cur (s ++ d :: t) = (cur ++ s) :: split_loop d [] t.
Proof.
  revert cur. induction s as [|c s IH]; intros cur Hd; simpl.
  - by rewrite decide_True, app_nil_r.
  - apply not_elem_of_cons in Hd as [Hc Hd]. rewrite decide_False by done.
    by rewrite IH, <- (assoc_L (++)).
Qed.

#[export] Instance esl_ok : EslStringsOk esl.
Proof.
  split; cbn.
  - intros s p. apply has_prefix_spec.
  - intros s p. rewrite has_prefix_spec. split.
    + intros [k Hk]. exists (take (length p) s), (drop (length p) s). rewrite take_drop. split; [done|].
      change (map lower (take (length p) s)) with (lower <$> take (length p) s).
      rewrite fmap_take. change (lower <$> s) with (map lower s). rewrite Hk.
      by rewrite take_app_length' by (by rewrite length_map).
    + intros (u & t & -> & Hu). exists (map lower t). by rewrite map_app, Hu.
  - intros s t. apply bool_decide_eq_true.
  - intros. by apply trim_ok.
  - intros s d Hs Hd. by apply split_loop_none.
  - intros s d t Hd. by apply split_loop_at.
Qed.
End Reference.

Definition sample_parts : list content_part :=
  [mk_part (lit "myfile") (lit "hello.txt") (lit "application/octet-stream") (lit "--xyz: hello");
   mk_part (lit "field1") [] [] (lit "value1"); mk_part (lit "field1") [] [] (lit "value2")].

Lemma multipart_roundtrip_witness :
  exists form, parse_multipart_form (ES := Reference.esl)
                 (print_form (lit "----xyz") sample_parts) (lit "----xyz") = Ok form /\
    forall n, values form !! n = data <$> first_part false n sample_parts /\
              files form !! n = (fun p => (filename p, data p)) <$> first_part true n sample_parts.
Proof. apply (multipart_roundtrip (EO := Reference.esl_ok)); apply (bool_decide_unpack _); vm_compute; exact I. Defined.

Lemma multipart_total_witness :
  (exists form, parse_multipart_form (ES := Reference.esl) (lit "--xyz") (lit "xyz") = Ok form) \/
  parse_multipart_form (ES := Reference.esl) (lit "--xyz") (lit "xyz") = Throw invalid_argument.
Proof. apply (multipart_total (EO := Reference.esl_ok)). Defined.

(** A part without data is rejected: an empty field makes the whole body malformed. *)
Theorem empty_field_rejected n :
  parse_multipart_form (ES := Reference.esl)
    (print_form (lit "xyz") [mk_part (lit "a") [] [] []; mk_part n [] [] (lit "v")]) (lit "xyz") =
  Throw invalid_argument.
Proof. reflexivity. Qed.
