(* ===== verification/Threads.v ===== *)
(** * Interleaved threads that use a lock

    The code of an operation of a lock is a [prog]: a sequence of atomic accesses to
    the shared state, of assertions and of a result.  A configuration is the shared
    state and the threads; a step lets one thread begin an operation or go one access
    further, so any interleaving of the accesses is a run.  Memory is sequentially
    consistent, as the interlocked operations of the code and x86 make it.

    The mutexes (LightMutex) instantiate [Lockable]; what is shared by the proofs about
    them is here: sums over the threads, the simulation of the threads by program
    counters, and runs in which the threads only give locks back. *)

From S2P Require Import Prelude.
From stdpp Require Import relations.

#[local] Open Scope Z_scope.

(** ** Programs *)

(** [Act f k]: one access, which blocks when [f] gives [None]. *)
Inductive prog (St : Type) :=
| Ret (result : bool)
| Act (f : St -> option (St * Z)) (k : Z -> prog St)
| Assert (cond : bool) (k : prog St).
Arguments Ret {St} result.
Arguments Act {St} f k.
Arguments Assert {St} cond k.

Inductive op := Lock | TryLock | Unlock.

(** The code of the operations, for the thread of the given id.  The result of
    [TryLock] counts, those of the others are void. *)
Class Lockable (St : Type) := {
  op_code : op -> Z -> prog St;
  initial : St
}.

Section Threads.
Context {St : Type} `{!Lockable St}.

(** How often the thread has the lock, and the operation it is in. *)
Record thread := mk_thread { tid : Z; depth : nat; call : option (op * prog St) }.

Definition begin (o : op) (t : thread) : thread :=
  mk_thread (tid t) (depth t) (Some (o, op_code o (tid t))).

Definition finish (o : op) (result : bool) (t : thread) : thread :=
  let d := match o with
           | Lock => S (depth t)
           | TryLock => if result then S (depth t) else depth t
           | Unlock => pred (depth t)
           end in
  mk_thread (tid t) d None.

Definition goto (o : op) (p : prog St) (t : thread) : thread :=
  mk_thread (tid t) (depth t) (Some (o, p)).

(** [ndebug]: whether the program is compiled without its assertions. *)
Context (ndebug : bool).

(** One access of a thread; [None] when it is in no operation or blocked. *)
Definition advance (s : St) (t : thread) : option (outcome (St * thread)) :=
  match call t with
  | None => None
  | Some (o, Ret v) => Some (Ok (s, finish o v t))
  | Some (o, Act f k) =>
      match f s with
      | Some (s, v) => Some (Ok (s, goto o (k v) t))
      | None => None
      end
  | Some (o, Assert cond k) =>
      Some (if cond || ndebug then Ok (s, goto o k t) else Undef)
  end.

(** What the program does with the lock: it only gives back what it has, and no
    thread nests more than [max_depth] acquisitions. *)
Context (max_depth : nat).

Definition may_call (uses : op -> bool) (o : op) (t : thread) : bool :=
  uses o && match o with Unlock => (0 <? depth t)%nat | _ => (depth t <? max_depth)%nat end.

(** A failed assertion ends the program, [Undef]. *)
Definition world : Type := outcome (St * list thread).

Definition update (i : nat) (ts : list thread) (r : outcome (St * thread)) : world :=
  '(s, t) ← r; Ok (s, <[i := t]> ts).

Inductive step (uses : op -> bool) : world -> world -> Prop :=
| step_call s ts i t o :
    ts !! i = Some t -> call t = None -> may_call uses o t = true ->
    step uses (Ok (s, ts)) (Ok (s, <[i := begin o t]> ts))
| step_run s ts i t r :
    ts !! i = Some t -> advance s t = Some r ->
    step uses (Ok (s, ts)) (update i ts r).

Definition start (tids : list Z) : world := Ok (initial, map (fun t => mk_thread t 0 None) tids).

Inductive reachable (uses : op -> bool) (tids : list Z) : world -> Prop :=
| reachable_start : reachable uses tids (start tids)
| reachable_step w w' : reachable uses tids w -> step uses w w' -> reachable uses tids w'.

(** A schedule: thread [i] begins an operation, or goes on with the one it is in. *)
Definition exec1 (uses : op -> bool) (e : nat * option op) (w : world) : option world :=
  match w, e with
  | Ok (s, ts), (i, Some o) =>
      match ts !! i with
      | Some t => match call t with
                  | None => if may_call uses o t then Some (Ok (s, <[i := begin o t]> ts)) else None
                  | Some _ => None
                  end
      | None => None
      end
  | Ok (s, ts), (i, None) =>
      match ts !! i with
      | Some t => match advance s t with Some r => Some (update i ts r) | None => None end
      | None => None
      end
  | _, _ => None
  end.

Fixpoint exec (uses : op -> bool) (l : list (nat * option op)) (w : world) : option world :=
  match l with
  | [] => Some w
  | e :: l => match exec1 uses e w with Some w => exec uses l w | None => None end
  end.

Lemma exec1_step uses e w w' : exec1 uses e w = Some w' -> step uses w w'.
Proof.
  unfold exec1. intros H. destruct w as [[s ts]| | |], e as [i [o|]]; try done;
    destruct (ts !! i) as [t|] eqn:Ht; try done.
  - destruct (call t) eqn:Hc; [done|]. destruct (may_call uses o t) eqn:Hm; [|done].
    injection H as <-. by eapply step_call.
  - destruct (advance s t) as [r|] eqn:Ha; [|done]. injection H as <-. by eapply step_run.
Qed.

Lemma exec_reachable uses tids l w w' :
  reachable uses tids w -> exec uses l w = Some w' -> reachable uses tids w'.
Proof.
  revert w; induction l as [|e l IH]; intros w Hw He; cbn in He; [by injection He as <-|].
  destruct (exec1 uses e w) as [w1|] eqn:H1; [|done].
  eapply IH, He. eapply reachable_step; [done|by eapply exec1_step].
Qed.

(** A run by a schedule is a sequence of as many steps. *)
Lemma exec_nsteps uses l w w' : exec uses l w = Some w' -> nsteps (step uses) (length l) w w'.
Proof.
  revert w; induction l as [|e l IH]; intros w He; cbn in *; [injection He as ->; constructor|].
  destruct (exec1 uses e w) as [w1|] eqn:H1; [|done]. econstructor; [by eapply exec1_step|by apply IH].
Qed.

(** Where a schedule leads from the start. *)
Definition after (uses : op -> bool) (l : list (nat * option op)) (tids : list Z) : world :=
  match exec uses l (start tids) with Some w => w | None => start tids end.

Lemma after_reachable uses l tids : reachable uses tids (after uses l tids).
Proof.
  unfold after. destruct (exec uses l (start tids)) as [w|] eqn:E; [|apply reachable_start].
  eapply exec_reachable, E. apply reachable_start.
Qed.

Lemma step_mono (uses uses' : op -> bool) w w' :
  (forall o, uses o = true -> uses' o = true) -> step uses w w' -> step uses' w w'.
Proof.
  intros Hu []; [|by eapply step_run]. eapply step_call; try done.
  unfold may_call in *. destruct (uses o) eqn:E; [|done]. by rewrite Hu.
Qed.

(** The thread has the lock and is not about to lose it. *)
Definition has_lock (t : thread) : bool :=
  match call t with
  | Some (Unlock, _) => (1 <? depth t)%nat
  | _ => (0 <? depth t)%nat
  end.

(** At most one thread of the configuration has the lock. *)
Definition exclusive (ts : list thread) : Prop :=
  forall i j t u, ts !! i = Some t -> ts !! j = Some u ->
    has_lock t = true -> has_lock u = true -> i = j.

(** The threads begin nothing but to give back what they have. *)
Definition only_unlock (o : op) : bool := match o with Unlock => true | _ => false end.

End Threads.
Arguments thread St : clear implicits.
Arguments world St : clear implicits.

(** Thread [i] begins an operation and makes [n] accesses. *)
Definition go (i : nat) (o : op) (n : nat) : list (nat * option op) := (i, Some o) :: repeat (i, None) n.

(** ** Sums over the threads *)

Fixpoint sum_of {A} (f : A -> Z) (l : list A) : Z :=
  match l with [] => 0 | x :: l => f x + sum_of f l end.

Lemma sum_of_insert {A} (f : A -> Z) (l : list A) : forall i x y,
  l !! i = Some x -> sum_of f (<[i := y]> l) = sum_of f l - f x + f y.
Proof.
  induction l as [|z l IH]; intros [|i] x y H; [done..| |].
  - injection H as ->. cbn. lia.
  - change (<[S i := y]> (z :: l)) with (z :: <[i := y]> l). cbn [sum_of]. rewrite (IH _ x y H). lia.
Qed.

Lemma sum_of_nonneg {A} (f : A -> Z) l : (forall x, 0 <= f x) -> 0 <= sum_of f l.
Proof. intros Hf. induction l as [|x l IH]; cbn; [lia|]. specialize (Hf x). lia. Qed.

Lemma sum_of_elem {A} (f : A -> Z) l : forall i x,
  (forall x, 0 <= f x) -> l !! i = Some x -> f x <= sum_of f l.
Proof.
  induction l as [|y l IH]; intros [|i] x Hf H; cbn in *; try done.
  - injection H as ->. pose proof (sum_of_nonneg f l Hf). lia.
  - specialize (IH i x Hf H). specialize (Hf y). lia.
Qed.

(** Two different threads weigh no more than the total. *)
Lemma sum_of_two {A} (f : A -> Z) l : forall i j x y, (forall x, 0 <= f x) ->
  l !! i = Some x -> l !! j = Some y -> i <> j -> f x + f y <= sum_of f l.
Proof.
  induction l as [|z l IH]; intros [|i] [|j] x y Hf Hi Hj Hne; cbn in *; try done.
  - injection Hi as ->. pose proof (sum_of_elem f l j y Hf Hj). lia.
  - injection Hj as ->. pose proof (sum_of_elem f l i x Hf Hi). lia.
  - assert (i <> j) by congruence. specialize (IH i j x y Hf Hi Hj). specialize (Hf z). lia.
Qed.

Lemma sum_of_le {A} (f g : A -> Z) l : (forall x, x ∈ l -> f x <= g x) -> sum_of f l <= sum_of g l.
Proof.
  induction l as [|x l IH]; cbn; intros H; [lia|].
  pose proof (H x ltac:(left)). assert (sum_of f l <= sum_of g l) by (apply IH; intros; apply H; by right). lia.
Qed.

Lemma sum_of_const {A} (f : A -> Z) l c : (forall x, x ∈ l -> f x <= c) -> sum_of f l <= c * Z.of_nat (length l).
Proof.
  induction l as [|x l IH]; cbn; intros H; [lia|].
  pose proof (H x ltac:(left)). assert (sum_of f l <= c * Z.of_nat (length l)) by (apply IH; intros; apply H; by right). lia.
Qed.

Lemma sum_of_pos {A} (f : A -> Z) l : 0 < sum_of f l -> exists i x, l !! i = Some x /\ 0 < f x.
Proof.
  induction l as [|x l IH]; cbn; [lia|]. intros H.
  destruct (decide (0 < f x)); [by exists 0%nat, x|].
  destruct IH as (i & y & Hi & Hy); [lia|]. by exists (S i), y.
Qed.

(** When only one thread can have a positive [f], and [g] is positive only there, the
    total of [g] is that thread's. *)
Lemma sum_of_single {A} (f g : A -> Z) l i x :
  (forall x, 0 <= f x) -> (forall x, f x = 0 -> g x = 0) ->
  sum_of f l <= f x -> l !! i = Some x -> sum_of g l = g x.
Proof.
  intros Hf Hg. revert i; induction l as [|y l IH]; intros [|i] Ht H; cbn in *; try done.
  - injection H as ->. assert (Hl : sum_of f l <= 0) by lia. clear -Hl Hf Hg.
    induction l as [|z l IH]; cbn in *; [lia|].
    pose proof (sum_of_nonneg f l Hf). pose proof (Hf z). rewrite (Hg z) by lia. lia.
  - pose proof (sum_of_elem f l i x Hf H). pose proof (Hf y). rewrite (Hg y) by lia.
    rewrite (IH i); [lia|lia|done].
Qed.

(** ** Simulation by program counters *)

Section Simulation.
Context {St : Type} `{!Lockable St} (ndebug : bool) (max_depth : nat) (uses : op -> bool).
Context {PC : Type} (thread_at : Z -> PC -> thread St) (Inv : St -> list PC -> Prop).
Context (measure : PC -> Z) (bound : Z) (tids : list Z) (pc0 : PC).

(** What a component shows of its program counters: every step of a thread is a step
    of its counter, keeps the invariant, and lowers the measure unless the thread
    begins to acquire; and some thread can go on while one is not at rest. *)
Record simulates : Prop := {
  sim_start t : thread_at t pc0 = mk_thread t 0 None;
  sim_init : Inv initial (map (fun _ => pc0) tids);
  sim_call s pcs i t pc o :
    Inv s pcs -> length pcs = length tids -> tids !! i = Some t -> pcs !! i = Some pc ->
    call (thread_at t pc) = None -> may_call max_depth uses o (thread_at t pc) = true ->
    exists pc', begin o (thread_at t pc) = thread_at t pc' /\ Inv s (<[i := pc']> pcs) /\
      (o = Unlock -> measure pc' < measure pc);
  sim_run s pcs i t pc r :
    Inv s pcs -> length pcs = length tids -> tids !! i = Some t -> pcs !! i = Some pc ->
    advance ndebug s (thread_at t pc) = Some r ->
    exists s' pc', r = Ok (s', thread_at t pc') /\ Inv s' (<[i := pc']> pcs) /\
      measure pc' < measure pc;
  sim_measure pc : 0 <= measure pc;
  sim_bound s pcs pc : Inv s pcs -> pc ∈ pcs -> measure pc <= bound;
  sim_progress s pcs :
    Inv s pcs -> length pcs = length tids -> (exists pc, pc ∈ pcs /\ pc <> pc0) ->
    exists i t pc, tids !! i = Some t /\ pcs !! i = Some pc /\
      (is_Some (advance ndebug s (thread_at t pc)) \/
       call (thread_at t pc) = None /\ (0 < depth (thread_at t pc))%nat)
}.

Definition simulated (w : world St) : Prop :=
  exists s pcs, w = Ok (s, zip_with thread_at tids pcs) /\ length pcs = length tids /\ Inv s pcs.

Lemma zip_lookup pcs i t :
  zip_with thread_at tids pcs !! i = Some t ->
  exists n pc, t = thread_at n pc /\ tids !! i = Some n /\ pcs !! i = Some pc.
Proof. intros H. apply lookup_zip_with_Some in H as (n & pc & -> & Hn & Hp). eauto. Qed.

Lemma map_tid_zip pcs :
  (forall t c, tid (thread_at t c) = t) -> length pcs = length tids -> map tid (zip_with thread_at tids pcs) = tids.
Proof.
  intros H. revert pcs; induction tids as [|t l IH]; intros [|c pcs] [=]; cbn; [done|]. by rewrite IH, H.
Qed.

Lemma zip_insert pcs i n pc :
  tids !! i = Some n ->
  <[i := thread_at n pc]> (zip_with thread_at tids pcs) = zip_with thread_at tids (<[i := pc]> pcs).
Proof. intros H. by rewrite insert_zip_with, (list_insert_id tids). Qed.

(** A step, with what it does to the measure. *)
Lemma simulated_measured uses' s pcs w' :
  simulates -> (forall o, uses' o = true -> uses o = true) ->
  length pcs = length tids -> Inv s pcs ->
  step ndebug max_depth uses' (Ok (s, zip_with thread_at tids pcs)) w' ->
  exists s' pcs', w' = Ok (s', zip_with thread_at tids pcs') /\ length pcs' = length tids /\ Inv s' pcs' /\
    ((forall o, uses' o = true -> o = Unlock) -> sum_of measure pcs' < sum_of measure pcs).
Proof.
  intros HS Hu Hl HI Hst.
  inversion Hst as [s0 ts i t o Ht Hc Hm E1 E2|s0 ts i t r Ht Ha E1 E2]; subst;
    apply zip_lookup in Ht as (n & pc & -> & Hn & Hp).
  - assert (Ho : uses' o = true) by (unfold may_call in Hm; by destruct (uses' o)).
    assert (Hm' : may_call max_depth uses o (thread_at n pc) = true)
      by (unfold may_call in *; rewrite Ho in Hm; by rewrite (Hu o Ho)).
    destruct (sim_call HS s pcs i n pc o HI Hl Hn Hp Hc Hm') as (pc' & -> & HI' & Hme).
    exists s, (<[i := pc']> pcs). rewrite zip_insert, length_insert, (sum_of_insert measure pcs i pc pc') by done.
    repeat split; try done. intros Hall. specialize (Hme (Hall o Ho)). lia.
  - destruct (sim_run HS s pcs i n pc r HI Hl Hn Hp Ha) as (s' & pc' & -> & HI' & Hme).
    exists s', (<[i := pc']> pcs). cbn. rewrite zip_insert, length_insert, (sum_of_insert measure pcs i pc pc') by done.
    repeat split; try done. lia.
Qed.

Lemma simulated_step w w' : simulates -> simulated w -> step ndebug max_depth uses w w' -> simulated w'.
Proof.
  intros HS (s & pcs & -> & Hl & HI) Hst.
  destruct (simulated_measured uses s pcs w' HS) as (s' & pcs' & ? & ? & ? & _); try done. by exists s', pcs'.
Qed.

Lemma simulated_reachable w : simulates -> reachable ndebug max_depth uses tids w -> simulated w.
Proof.
  intros HS. induction 1 as [|w w' _ IH Hst]; [|by eapply simulated_step].
  exists initial, (map (fun _ => pc0) tids). rewrite length_map. split; [|split; [done|apply (sim_init HS)]].
  unfold start. do 2 f_equal. pose proof (sim_start HS) as H0. clear -H0.
  induction tids as [|t l IH]; cbn; [done|]. by rewrite H0, IH.
Qed.

(** The threads are at rest: none is in an operation, none has the lock. *)
Definition at_rest (w : world St) : Prop :=
  exists s : St, w = Ok (s, map (fun t => mk_thread t 0 None) tids).

Lemma simulated_rest pcs :
  simulates -> length pcs = length tids -> (forall pc, pc ∈ pcs -> pc = pc0) ->
  zip_with thread_at tids pcs = map (fun t => mk_thread t 0 None) tids.
Proof.
  intros HS. pose proof (sim_start HS) as H0. clear -H0. revert pcs.
  induction tids as [|t l IH]; intros [|pc pcs] Hl Hr; try done. cbn.
  rewrite (Hr pc ltac:(left)), H0, IH; [done|by injection Hl|]. intros; apply Hr; by right.
Qed.

(** However the threads are scheduled, once they only give the lock back they are at
    rest after a bounded number of steps: nobody waits for ever. *)
Lemma simulated_drain `{!EqDecision PC} w n w' :
  simulates -> uses Unlock = true ->
  reachable ndebug max_depth uses tids w ->
  nsteps (step ndebug max_depth only_unlock) n w w' ->
  Z.of_nat n <= bound * Z.of_nat (length tids) /\
  (at_rest w' \/ exists w'', step ndebug max_depth only_unlock w' w'').
Proof.
  intros HS Hu Hr Hn.
  assert (Hsub : forall o, only_unlock o = true -> uses o = true) by (by intros []).
  assert (H : forall s pcs, w = Ok (s, zip_with thread_at tids pcs) -> length pcs = length tids -> Inv s pcs ->
    exists s' pcs', w' = Ok (s', zip_with thread_at tids pcs') /\ length pcs' = length tids /\ Inv s' pcs' /\
      sum_of measure pcs' + Z.of_nat n <= sum_of measure pcs).
  { clear Hr. induction Hn as [w|n w w1 w' Hst Hn IH]; intros s pcs -> Hl HI.
    - exists s, pcs. repeat split; try done. lia.
    - destruct (simulated_measured only_unlock s pcs w1 HS Hsub Hl HI Hst) as (s1 & p1 & E1 & Hl1 & HI1 & Hm1).
      specialize (Hm1 ltac:(by intros [])).
      destruct (IH s1 p1 E1 Hl1 HI1) as (s' & p' & ? & ? & ? & ?). exists s', p'. repeat split; try done. lia. }
  apply simulated_reachable in Hr as (s & pcs & -> & Hl & HI); [|done].
  destruct (H s pcs eq_refl Hl HI) as (s' & pcs' & -> & Hl' & HI' & Hm). split.
  - pose proof (sum_of_nonneg measure pcs' (sim_measure HS)).
    pose proof (sum_of_const measure pcs bound (fun pc => sim_bound HS s pcs pc HI)) as Hb. rewrite Hl in Hb. lia.
  - destruct (decide (Forall (fun pc => pc = pc0) pcs')) as [Hall|Hex].
    + left. exists s'. rewrite Forall_forall in Hall. by rewrite (simulated_rest pcs').
    + right. apply not_Forall_Exists in Hex; [|intros pc; apply _].
      apply Exists_exists in Hex.
      destruct (sim_progress HS s' pcs' HI' Hl' Hex) as (i & t & pc & Ht & Hp & [[r Hr]|[Hc Hd]]).
      * eexists. eapply step_run; [|exact Hr]. rewrite lookup_zip_with, Ht; cbn. by rewrite Hp.
      * eexists. eapply (step_call _ _ _ _ _ i _ Unlock); [|exact Hc|].
        { rewrite lookup_zip_with, Ht; cbn. by rewrite Hp. }
        unfold may_call. cbn. by destruct (depth (thread_at t pc)); [lia|].
Qed.

End Simulation.
