(* ===== verification/LightMutex.v ===== *)
(** * The lightweight mutexes

    Models LightweightMutex/light_mutex: [LightMutex] (light_mutex.h) and
    [RecursiveLightMutex] (recursive_light_mutex.h) over the semaphore of common.h.
    Each access to the shared state is a step; the threads are interleaved (Threads).
    The semaphore is the operating system's: [Win32Semaphore] states what its
    documentation promises.  A [long] has 32 bits. *)

From S2P Require Import Prelude Threads.
From stdpp Require Import relations.

#[local] Open Scope Z_scope.

(** ** What the code calls *)

(** A semaphore object; [wait] is [None] while the caller is blocked, [release] adds 1
    unless that would exceed the maximum. *)
Class Win32Semaphore := {
  semaphore : Type;
  count : semaphore -> Z;
  maximum : semaphore -> Z;
  create_semaphore : Z -> Z -> semaphore;
  wait : semaphore -> option semaphore;
  release : semaphore -> semaphore;
  count_create i m : 0 <= i <= m -> 0 < m -> count (create_semaphore i m) = i;
  maximum_create i m : 0 <= i <= m -> 0 < m -> maximum (create_semaphore i m) = m;
  wait_spec s :
    match wait s with
    | Some s' => 0 < count s /\ count s' = count s - 1 /\ maximum s' = maximum s
    | None => count s <= 0
    end;
  count_release s : count (release s) = if count s <? maximum s then count s + 1 else count s;
  maximum_release s : maximum (release s) = maximum s
}.

(** A [long] after an addition. *)
Definition wrap_long (x : Z) : Z := (x + 2 ^ 31) mod 2 ^ 32 - 2 ^ 31.

Lemma wrap_long_small x : - 2 ^ 31 <= x < 2 ^ 31 -> wrap_long x = x.
Proof. intros. unfold wrap_long. rewrite Z.mod_small; lia. Qed.

Section Accesses.
Context {St : Type} `{!Win32Semaphore}.

Definition Load (get : St -> Z) (k : Z -> prog St) : prog St := Act (fun s => Some (s, get s)) k.
Definition Store (set : Z -> St -> St) (v : Z) (k : prog St) : prog St :=
  Act (fun s => Some (set v s, 0)) (fun _ => k).

(** The intrinsics return the original value. *)
Definition InterlockedExchangeAdd (get : St -> Z) (set : Z -> St -> St) (v : Z) (k : Z -> prog St) :=
  Act (fun s => Some (set (wrap_long (get s + v)) s, get s)) k.
Definition InterlockedCompareExchange (get : St -> Z) (set : Z -> St -> St) (exchange comparand : Z)
    (k : Z -> prog St) :=
  Act (fun s => Some (if get s =? comparand then set exchange s else s, get s)) k.

Definition WaitForSingleObject (get : St -> semaphore) (set : semaphore -> St -> St) (k : prog St) :=
  Act (fun s => match wait (get s) with Some sem => Some (set sem s, 0) | None => None end) (fun _ => k).
Definition ReleaseSemaphore (get : St -> semaphore) (set : semaphore -> St -> St) (k : prog St) :=
  Act (fun s => Some (set (release (get s)) s, 0)) (fun _ => k).
End Accesses.

Definition MakeBenaphore `{!Win32Semaphore} : semaphore := create_semaphore 0 1.

(** What an operation has done when it returns. *)
Notation Return := (Ret true).

(** ** The accounts both mutexes keep

    [use]: the acquisitions and the waiters; [hold]: the threads that have the lock;
    [pending]: those that are about to release the semaphore.  The lock, or the right
    to it that a semaphore carries, is with exactly one of them while it is in use. *)
Definition accounted (use hold pending sem : Z) : Prop :=
  0 <= sem /\ 0 <= hold /\ 0 <= pending /\ 0 <= use /\
  hold + pending + sem = if 0 <? use then 1 else 0.

Lemma accounted_one use hold pending sem :
  accounted use hold pending sem -> hold <= 1 /\ pending <= 1 /\ sem <= 1 /\ (0 < hold -> sem = 0 /\ pending = 0).
Proof. unfold accounted. case_bool; lia. Qed.

(** While the mutex is in use the semaphore is there to be taken, or some thread has
    the lock or is about to release the semaphore. *)
Lemma accounted_someone {PC} (use hold pending : PC -> Z) pcs sem :
  accounted (sum_of use pcs) (sum_of hold pcs) (sum_of pending pcs) sem -> 0 < sum_of use pcs ->
  0 < sem \/ exists i c, pcs !! i = Some c /\ (0 < hold c \/ 0 < pending c).
Proof.
  unfold accounted. case_bool; [|lia]. intros Ha Hu.
  destruct (decide (0 < sem)); [by left|right].
  destruct (decide (0 < sum_of hold pcs)) as [Hh|].
  - destruct (sum_of_pos hold pcs Hh) as (i & c & Hc & H1). eauto.
  - destruct (sum_of_pos pending pcs ltac:(lia)) as (i & c & Hc & H1). eauto.
Qed.

Module LightMutex.
Section LightMutex.
Context `{!Win32Semaphore}.

Record state := mk_state { sem_ : semaphore; owner_tid_ : Z; use_count_ : Z }.
Definition set_sem (v : semaphore) (s : state) : state := mk_state v (owner_tid_ s) (use_count_ s).
Definition set_owner (v : Z) (s : state) : state := mk_state (sem_ s) v (use_count_ s).
Definition set_use (v : Z) (s : state) : state := mk_state (sem_ s) (owner_tid_ s) v.

Definition lock (tid : Z) : prog state :=
  InterlockedExchangeAdd use_count_ set_use 1 (fun old =>
    if 0 <? old then
      WaitForSingleObject sem_ set_sem (Store set_owner tid Return)
    else Store set_owner tid Return).

Definition try_lock (tid : Z) : prog state :=
  InterlockedCompareExchange use_count_ set_use 1 0 (fun old => Ret (old =? 0)).

Definition unlock (tid : Z) : prog state :=
  Load owner_tid_ (fun owner =>
  Assert (owner =? tid) (
  Store set_owner 0 (
  InterlockedExchangeAdd use_count_ set_use (-1) (fun old =>
    if 1 <? old then ReleaseSemaphore sem_ set_sem Return else Return)))).

Definition make : state := mk_state MakeBenaphore 0 0.

#[global] Instance lockable : Lockable state := {
  op_code o := match o with Lock => lock | TryLock => try_lock | Unlock => unlock end;
  initial := make
}.

(** *** Program counters *)

Inductive pc :=
| Out | In
| L_add | L_wait | L_own | L_ret
| T_cas | T_ret (v : bool)
| U_load | U_assert (owner : Z) | U_disown | U_add | U_release | U_ret.

(** The end of [unlock]. *)
Definition unlock_add : prog state :=
  InterlockedExchangeAdd use_count_ set_use (-1) (fun old =>
    if 1 <? old then ReleaseSemaphore sem_ set_sem Return else Return).

Definition code_at (t : Z) (c : pc) : nat * option (op * prog state) :=
  match c with
  | Out => (0%nat, None)
  | In => (1%nat, None)
  | L_add => (0%nat, Some (Lock, lock t))
  | L_wait => (0%nat, Some (Lock, WaitForSingleObject sem_ set_sem (Store set_owner t Return)))
  | L_own => (0%nat, Some (Lock, Store set_owner t Return))
  | L_ret => (0%nat, Some (Lock, Return))
  | T_cas => (0%nat, Some (TryLock, try_lock t))
  | T_ret v => (0%nat, Some (TryLock, Ret v))
  | U_load => (1%nat, Some (Unlock, unlock t))
  | U_assert o =>
      (1%nat, Some (Unlock, Assert (o =? t) (Store set_owner 0 unlock_add)))
  | U_disown => (1%nat, Some (Unlock, Store set_owner 0 unlock_add))
  | U_add => (1%nat, Some (Unlock, unlock_add))
  | U_release => (1%nat, Some (Unlock, ReleaseSemaphore sem_ set_sem Return))
  | U_ret => (1%nat, Some (Unlock, Return))
  end.

Definition thread_at (t : Z) (c : pc) : thread state := mk_thread t (code_at t c).1 (code_at t c).2.

Definition hold (c : pc) : Z :=
  match c with
  | In | L_own | L_ret | T_ret true | U_load | U_assert _ | U_disown | U_add => 1
  | _ => 0
  end.
Definition use (c : pc) : Z := match c with L_wait => 1 | _ => hold c end.
Definition pending (c : pc) : Z := match c with U_release => 1 | _ => 0 end.

(** How far the thread is from being at rest. *)
Definition measure (c : pc) : Z :=
  match c with
  | Out => 0 | U_ret | T_ret false => 1 | U_release => 2 | U_add => 3 | U_disown => 4
  | U_assert _ => 5 | U_load => 6 | In => 7 | L_ret | T_ret true => 8 | L_own | T_cas => 9
  | L_wait => 10 | L_add => 11
  end.

#[global] Instance pc_eq_dec : EqDecision pc.
Proof. solve_decision. Defined.

(** Where [owner_tid_] is the thread, when nobody uses [try_lock]. *)
Definition owns (t owner : Z) (c : pc) : Prop :=
  match c with
  | In | L_ret | U_load | U_disown => owner = t
  | U_assert o => o = t /\ owner = t
  | T_cas | T_ret _ => False
  | _ => True
  end.

Definition Inv (no_try : bool) (tids : list Z) (s : state) (pcs : list pc) : Prop :=
  maximum (sem_ s) = 1 /\ use_count_ s = sum_of use pcs /\
  accounted (sum_of use pcs) (sum_of hold pcs) (sum_of pending pcs) (count (sem_ s)) /\
  (no_try = true -> forall i t c, tids !! i = Some t -> pcs !! i = Some c -> owns t (owner_tid_ s) c).

(** *** The invariant *)

Section Proofs.
Context (ndebug : bool) (uses : op -> bool) (tids : list Z).
Context (Hsmall : Z.of_nat (length tids) < 2 ^ 31).
Context (Hassert : ndebug = true \/ uses TryLock = false).

Notation inv := (Inv (negb (uses TryLock)) tids).

Lemma hold_nonneg c : 0 <= hold c.
Proof. by destruct c as [| | | | | | |[]| | | | | |]. Qed.
Lemma use_nonneg c : 0 <= use c.
Proof. by destruct c as [| | | | | | |[]| | | | | |]. Qed.

Lemma use_small pcs : length pcs = length tids -> sum_of use pcs < 2 ^ 31.
Proof.
  intros Hl. pose proof (sum_of_const use pcs 1) as Hc. rewrite Hl in Hc.
  assert (forall x, x ∈ pcs -> use x <= 1) as Hx by (intros [| | | | | | |[]| | | | | |]; cbn; lia).
  specialize (Hc Hx). lia.
Qed.

(** The threads other than the one that holds the lock do not depend on the owner. *)
Lemma owns_other pcs i j t c c' o o' :
  sum_of hold pcs <= 1 -> pcs !! i = Some c -> hold c = 1 -> pcs !! j = Some c' -> i <> j ->
  owns t o c' -> owns t o' c'.
Proof.
  intros Ht Hi Hc Hj Hne. pose proof (sum_of_two hold pcs i j c c' hold_nonneg Hi Hj Hne).
  destruct c' as [| | | | | | |[]| | | | | |]; cbn in *; try done; lia.
Qed.

(** The counter of one thread changes, and the shared state with it. *)
Lemma inv_update s s' pcs i t c c' :
  inv s pcs -> tids !! i = Some t -> pcs !! i = Some c ->
  maximum (sem_ s') = 1 ->
  use_count_ s' = use_count_ s - use c + use c' ->
  (accounted (sum_of use pcs) (sum_of hold pcs) (sum_of pending pcs) (count (sem_ s)) ->
   accounted (sum_of use pcs - use c + use c') (sum_of hold pcs - hold c + hold c')
     (sum_of pending pcs - pending c + pending c') (count (sem_ s'))) ->
  owner_tid_ s' = owner_tid_ s \/ hold c = 1 ->
  (uses TryLock = false -> owns t (owner_tid_ s) c -> owns t (owner_tid_ s') c') ->
  inv s' (<[i := c']> pcs).
Proof.
  intros (Hm & Hu & Ha & Ho) Ht Hc Hm' Hu' Ha' Howner Hown. unfold Inv.
  rewrite !(sum_of_insert _ pcs i c c') by done.
  split; [done|]. split; [lia|]. split; [auto|].
  intros Hn j t' d Hj Hd. destruct (decide (i = j)) as [<-|Hne].
  - rewrite list_lookup_insert_eq in Hd by (eapply lookup_lt_Some; done).
    injection Hd as <-. rewrite Hj in Ht. injection Ht as ->. apply Hown; [by destruct (uses TryLock)|by eapply Ho].
  - rewrite list_lookup_insert_ne in Hd by done. destruct Howner as [->|H1]; [by eapply Ho|].
    eapply (owns_other pcs i j); [|done|done|done|done|by eapply Ho].
    apply accounted_one in Ha. lia.
Qed.

Ltac acct := unfold accounted; intros (? & ? & ? & ? & Hsum); revert Hsum; repeat case_bool; lia.
Ltac upd Hc := eapply inv_update; [done|done|exact Hc|..]; cbn; try done; try lia; try (by left); try (by right); try acct.

Ltac run Ha s c Hc := injection Ha as <-; exists s, c; split; [done|split; [|by cbn]]; upd Hc.

Lemma inv_init : inv make (map (fun _ => Out) tids).
Proof.
  unfold Inv, make, MakeBenaphore. cbn.
  assert (H0 : forall f : pc -> Z, f Out = 0 -> sum_of f (map (fun _ => Out) tids) = 0).
  { intros f Hf. clear -Hf. induction tids as [|t l IH]; cbn; [done|]. lia. }
  rewrite !H0, maximum_create, count_create by (done || lia). repeat split; try lia.
  intros _ i t c _ Hc. apply list_lookup_fmap_Some in Hc as (? & -> & _). done.
Qed.

Lemma inv_call s pcs i t c o :
  inv s pcs -> tids !! i = Some t -> pcs !! i = Some c ->
  call (thread_at t c) = None -> may_call 1 uses o (thread_at t c) = true ->
  exists c', begin o (thread_at t c) = thread_at t c' /\ inv s (<[i := c']> pcs) /\
    (o = Unlock -> measure c' < measure c).
Proof.
  intros HI Ht Hc Hcall Hmay.
  pose proof HI as (Hm & Hu & Hacc & Ho).
  destruct c; try done; destruct o; unfold may_call in Hmay; cbn in Hmay; rewrite ?andb_false_r in Hmay; try done.
  - exists L_add. split; [done|split; [|by cbn]]. upd Hc.
  - exists T_cas. split; [done|split; [|by cbn]]. upd Hc. intros Hn. by rewrite Hn in Hmay.
  - exists U_load. split; [done|split; [|by cbn]]. upd Hc.
Qed.

Lemma inv_run s pcs i t c r :
  inv s pcs -> length pcs = length tids -> tids !! i = Some t -> pcs !! i = Some c ->
  advance ndebug s (thread_at t c) = Some r ->
  exists s' c', r = Ok (s', thread_at t c') /\ inv s' (<[i := c']> pcs) /\ measure c' < measure c.
Proof.
  intros HI Hl Ht Hc Ha.
  pose proof HI as (Hm & Hu & Hacc & Ho). pose proof (use_small pcs Hl) as Hus.
  pose proof (sum_of_nonneg use pcs use_nonneg) as Hun.
  pose proof (sum_of_elem use pcs i c use_nonneg Hc) as Hui.
  pose proof (sum_of_elem hold pcs i c hold_nonneg Hc) as Hhi.
  destruct c as [| | | | | | |[]| |o| | | |]; cbn in Ha, Hhi, Hui; try done.
  - assert (sum_of use pcs + 1 < 2 ^ 31).
    { pose proof (use_small (<[i := L_wait]> pcs)) as Hs. rewrite length_insert in Hs.
      specialize (Hs Hl). rewrite (sum_of_insert use pcs i L_add) in Hs by done. cbn in Hs. lia. }
    rewrite wrap_long_small in Ha by lia. injection Ha as <-.
    case_bool; [exists (set_use (use_count_ s + 1) s), L_wait|exists (set_use (use_count_ s + 1) s), L_own];
      (split; [done|split; [|by cbn]]); upd Hc.
  - pose proof (wait_spec (sem_ s)) as Hw. destruct (wait (sem_ s)) as [s1|]; [|done].
    run Ha (set_sem s1 s) L_own Hc.
  - run Ha (set_owner t s) L_ret Hc.
  - run Ha s In Hc.
  - revert Ha; case_bool; intros Ha; [run Ha (set_use 1 s) (T_ret true) Hc|run Ha s (T_ret false) Hc]; by intros ? [].
  - run Ha s In Hc; by intros ? [].
  - run Ha s Out Hc.
  - run Ha s (U_assert (owner_tid_ s)) Hc.
  - assert (Hok : (o =? t) || ndebug = true).
    { destruct Hassert as [->|Hn]; [apply orb_true_r|].
      destruct (Ho ltac:(by rewrite Hn) i t _ Ht Hc) as [-> _]. by rewrite Z.eqb_refl. }
    rewrite Hok in Ha. run Ha s U_disown Hc.
  - run Ha (set_owner 0 s) U_add Hc.
  - rewrite wrap_long_small in Ha by lia. revert Ha.
    case_bool; intros Ha; [run Ha (set_use (use_count_ s - 1) s) U_release Hc|
                           run Ha (set_use (use_count_ s - 1) s) U_ret Hc].
  - pose proof (sum_of_elem pending pcs i _ ltac:(by intros [| | | | | | | | | | | | |]) Hc) as Hp.
    cbn in Hp. assert (count (release (sem_ s)) = count (sem_ s) + 1) as Hr.
    { rewrite count_release. unfold accounted in Hacc. revert Hacc. repeat case_bool; lia. }
    run Ha (set_sem (release (sem_ s)) s) U_ret Hc. by rewrite maximum_release.
  - run Ha s Out Hc.
Qed.


(** A thread that waits is let in: the lock or the semaphore is there. *)
Lemma inv_progress s pcs :
  inv s pcs -> length pcs = length tids -> (exists c, c ∈ pcs /\ c <> Out) ->
  exists i t c, tids !! i = Some t /\ pcs !! i = Some c /\
    (is_Some (advance ndebug s (thread_at t c)) \/
     call (thread_at t c) = None /\ (0 < depth (thread_at t c))%nat).
Proof.
  intros (Hm & Hu & Hacc & _) Hl (c & Hc & Hne). apply list_elem_of_lookup in Hc as [i Hc].
  assert (Hgo : forall i c, pcs !! i = Some c -> c <> Out -> (c = L_wait -> 0 < count (sem_ s)) ->
    exists i t c, tids !! i = Some t /\ pcs !! i = Some c /\
      (is_Some (advance ndebug s (thread_at t c)) \/
       call (thread_at t c) = None /\ (0 < depth (thread_at t c))%nat)).
  { intros j d Hd Hd0 Hw. destruct (lookup_lt_is_Some_2 tids j) as [t Ht].
    { rewrite <- Hl. by eapply lookup_lt_Some. }
    exists j, t, d. repeat split; [done|done|].
    destruct d; try done; cbn; eauto.
    pose proof (wait_spec (sem_ s)) as Hs. destruct (wait (sem_ s)); [eauto|]. specialize (Hw eq_refl). lia. }
  destruct (decide (c = L_wait)) as [->|Hw]; [|by apply (Hgo i c Hc Hne)].
  pose proof (sum_of_elem use pcs i _ use_nonneg Hc) as Hui. cbn in Hui.
  destruct (accounted_someone _ _ _ _ _ Hacc ltac:(lia)) as [Hs|(j & d & Hd & Hd1)]; [by apply (Hgo i _ Hc)|].
  apply (Hgo j d Hd); [by intros ->; cbn in Hd1; lia|by intros ->; cbn in Hd1; lia].
Qed.

Lemma mutex_simulates : simulates ndebug 1 uses thread_at inv measure 11 tids Out.
Proof.
  split.
  - done.
  - apply inv_init.
  - intros s pcs i t c o HI _. by apply inv_call.
  - apply inv_run.
  - by intros [| | | | | | |[]| | | | | |].
  - by intros s pcs [| | | | | | |[]| | | | | |].
  - apply inv_progress.
Qed.

Lemma has_lock_hold t c : has_lock (thread_at t c) = true -> hold c = 1.
Proof. by destruct c. Qed.

Lemma exclusive_pcs pcs : sum_of hold pcs <= 1 -> exclusive (zip_with thread_at tids pcs).
Proof.
  intros Hh i j t u Hi Hj Ht Hu'.
  apply zip_lookup in Hi as (n & c & -> & _ & Hc), Hj as (n' & c' & -> & _ & Hc').
  apply has_lock_hold in Ht, Hu'. destruct (decide (i = j)) as [|Hne]; [done|].
  pose proof (sum_of_two hold pcs i j c c' hold_nonneg Hc Hc' Hne). lia.
Qed.

Lemma rest_pcs pcs : length pcs = length tids ->
  Forall (fun t => call t = None /\ depth t = 0%nat) (zip_with thread_at tids pcs) ->
  sum_of use pcs = 0 /\ sum_of hold pcs = 0 /\ sum_of pending pcs = 0.
Proof.
  clear. revert pcs; induction tids as [|t l IH]; intros [|c pcs] Hl Hr; try done. cbn in Hr.
  apply Forall_cons in Hr as [[Hc Hd] Hr]. injection Hl as Hl. destruct (IH pcs Hl Hr) as (H1 & H2 & H3).
  by destruct c.
Qed.

End Proofs.
End LightMutex.

(** However the threads are interleaved, at most one of them has the mutex;
    the semaphore is at 0 or 1 and the count of the users never overflows; and when all have given the mutex back it is as it was made.  The
    assertion of [unlock] holds, provided that it is compiled out or that nobody uses
    [try_lock]. *)
Theorem light_mutex_exclusive `{!Win32Semaphore} ndebug uses tids w :
  Z.of_nat (length tids) < 2 ^ 31 -> ndebug = true \/ uses TryLock = false ->
  reachable ndebug 1 uses tids w ->
  exists s ts, w = Ok (s, ts) /\ map tid ts = tids /\ exclusive ts /\
    0 <= count (sem_ s) <= 1 /\ 0 <= use_count_ s <= Z.of_nat (length tids) /\
    (Forall (fun t => call t = None /\ depth t = 0%nat) ts ->
     use_count_ s = 0 /\ count (sem_ s) = 0).
Proof.
  intros Hn Hd Hr.
  apply (simulated_reachable _ _ _ _ _ _ _ _ _ _ (mutex_simulates ndebug uses tids Hn Hd)) in Hr
    as (s & pcs & -> & Hl & Hm & Hu & Hacc & _).
  exists s, (zip_with thread_at tids pcs). pose proof (accounted_one _ _ _ _ Hacc) as (Hh & _ & Hs & _).
  split; [done|]. split; [by apply map_tid_zip|split; [by apply exclusive_pcs|]].
  pose proof (sum_of_nonneg use pcs use_nonneg). pose proof (sum_of_const use pcs 1) as Hc.
  rewrite Hl in Hc. split; [unfold accounted in Hacc; lia|]. split.
  { rewrite Hu. split; [done|]. rewrite <-(Z.mul_1_l (Z.of_nat _)). apply Hc.
    by intros [| | | | | | |[]| | | | | |]. }
  intros Hrest. destruct (rest_pcs tids pcs Hl Hrest) as (H1 & H2 & H3).
  rewrite Hu, H1. split; [done|]. unfold accounted in Hacc. rewrite H1, H2, H3 in Hacc. cbn in Hacc. lia.
Qed.

(** Nobody waits for ever: from any state the threads reach, when they do nothing
    more than to give the mutex back they are all at rest after at most 11 steps each,
    in whatever order they are scheduled. *)
Theorem light_mutex_drains `{!Win32Semaphore} ndebug uses tids w n w' :
  Z.of_nat (length tids) < 2 ^ 31 -> ndebug = true \/ uses TryLock = false -> uses Unlock = true ->
  reachable ndebug 1 uses tids w ->
  nsteps (step ndebug 1 only_unlock) n w w' ->
  Z.of_nat n <= 11 * Z.of_nat (length tids) /\
  (at_rest tids w' \/ exists w'', step ndebug 1 only_unlock w' w'').
Proof. intros Hn Hd Hu. by apply (simulated_drain _ _ _ _ _ _ _ _ _ _ _ _ (mutex_simulates ndebug uses tids Hn Hd)). Qed.

(** [try_lock] does not record the owner: a thread that takes the mutex with it
    and gives it back fails the assertion of [unlock]. *)
Theorem try_lock_unlock_aborts `{!Win32Semaphore} t :
  t <> 0 -> reachable false 1 (fun _ => true) [t] Undef.
Proof.
  intros Ht. eapply (exec_reachable _ _ _ _
    [(0, Some TryLock); (0, None); (0, None); (0, Some Unlock); (0, None); (0, None)]%nat); [apply reachable_start|].
  cbn. by destruct t.
Qed.

End LightMutex.

Module RecursiveLightMutex.
Section RecursiveLightMutex.
Context `{!Win32Semaphore}.

Record state := mk_state { sem_ : semaphore; owner_tid_ : Z; use_count_ : Z; recursion_count_ : Z }.
Definition set_sem (v : semaphore) (s : state) : state :=
  mk_state v (owner_tid_ s) (use_count_ s) (recursion_count_ s).
Definition set_owner (v : Z) (s : state) : state :=
  mk_state (sem_ s) v (use_count_ s) (recursion_count_ s).
Definition set_use (v : Z) (s : state) : state :=
  mk_state (sem_ s) (owner_tid_ s) v (recursion_count_ s).
Definition set_recursion (v : Z) (s : state) : state :=
  mk_state (sem_ s) (owner_tid_ s) (use_count_ s) v.

(** [++recursion_count_], a load and a store, before the return. *)
Definition enter_recursion : prog state :=
  Load recursion_count_ (fun r => Store set_recursion (wrap_long (r + 1)) Return).

Definition lock (tid : Z) : prog state :=
  let gained := Store set_owner tid enter_recursion in
  InterlockedExchangeAdd use_count_ set_use 1 (fun old =>
    if 0 <? old then
      Load owner_tid_ (fun owner =>
        if owner =? tid then gained else WaitForSingleObject sem_ set_sem gained)
    else gained).

Definition try_lock (tid : Z) : prog state :=
  Load owner_tid_ (fun owner =>
    if owner =? tid then InterlockedExchangeAdd use_count_ set_use 1 (fun _ => enter_recursion)
    else
      InterlockedCompareExchange use_count_ set_use 1 0 (fun old =>
        if old =? 0 then Store set_owner tid enter_recursion else Ret false)).

(** The end of [unlock]. *)
Definition unlock_add (new_recur : Z) : prog state :=
  InterlockedExchangeAdd use_count_ set_use (-1) (fun old =>
    if 1 <? old then
      if new_recur =? 0 then ReleaseSemaphore sem_ set_sem Return else Return
    else Return).

Definition unlock (tid : Z) : prog state :=
  Load owner_tid_ (fun owner =>
  Assert (owner =? tid) (
  Load recursion_count_ (fun r =>
  let new_recur := wrap_long (r - 1) in
  Store set_recursion new_recur (
    if new_recur =? 0 then Store set_owner 0 (unlock_add new_recur) else unlock_add new_recur)))).

Definition make : state := mk_state MakeBenaphore 0 0 0.

#[global] Instance lockable : Lockable state := {
  op_code o := match o with Lock => lock | TryLock => try_lock | Unlock => unlock end;
  initial := make
}.

(** *** Program counters

    [d]: the acquisitions of the thread; in [unlock] (and past the test of the owner
    in [try_lock]) it has one more. *)
Inductive pc :=
| Rest (d : nat)
| L_add (d : nat) | L_load (d : nat) | L_wait | L_own (d : nat)
| L_rload (d : nat) | L_rstore (d : nat) | L_ret (d : nat)
| T_load (d : nat) | T_add (d : nat) | T_cas | T_own
| T_rload (d : nat) | T_rstore (d : nat) | T_ret (d : nat) | T_fail
| U_load (d : nat) | U_assert (d : nat) | U_rload (d : nat) | U_rstore (d : nat)
| U_disown | U_add (d : nat) | U_release | U_ret (d : nat).

#[global] Instance pc_eq_dec : EqDecision pc.
Proof. solve_decision. Defined.

Definition rstore (d : nat) : prog state := Store set_recursion (wrap_long (Z.of_nat d + 1)) Return.

Definition unlock_rload : prog state :=
  Load recursion_count_ (fun r =>
  let new_recur := wrap_long (r - 1) in
  Store set_recursion new_recur (
    if new_recur =? 0 then Store set_owner 0 (unlock_add new_recur) else unlock_add new_recur)).

Definition unlock_rstore (d : nat) : prog state :=
  Store set_recursion (Z.of_nat d) (
    if Z.of_nat d =? 0 then Store set_owner 0 (unlock_add (Z.of_nat d)) else unlock_add (Z.of_nat d)).

Definition code_at (t : Z) (c : pc) : nat * option (op * prog state) :=
  match c with
  | Rest d => (d, None)
  | L_add d => (d, Some (Lock, lock t))
  | L_load d =>
      (d, Some (Lock, Load owner_tid_ (fun owner =>
        if owner =? t then Store set_owner t enter_recursion
        else WaitForSingleObject sem_ set_sem (Store set_owner t enter_recursion))))
  | L_wait => (0%nat, Some (Lock, WaitForSingleObject sem_ set_sem (Store set_owner t enter_recursion)))
  | L_own d => (d, Some (Lock, Store set_owner t enter_recursion))
  | L_rload d => (d, Some (Lock, enter_recursion))
  | L_rstore d => (d, Some (Lock, rstore d))
  | L_ret d => (d, Some (Lock, Return))
  | T_load d => (d, Some (TryLock, try_lock t))
  | T_add d =>
      (S d, Some (TryLock, InterlockedExchangeAdd use_count_ set_use 1 (fun _ => enter_recursion)))
  | T_cas =>
      (0%nat, Some (TryLock, InterlockedCompareExchange use_count_ set_use 1 0 (fun old =>
        if old =? 0 then Store set_owner t enter_recursion else Ret false)))
  | T_own => (0%nat, Some (TryLock, Store set_owner t enter_recursion))
  | T_rload d => (d, Some (TryLock, enter_recursion))
  | T_rstore d => (d, Some (TryLock, rstore d))
  | T_ret d => (d, Some (TryLock, Return))
  | T_fail => (0%nat, Some (TryLock, Ret false))
  | U_load d => (S d, Some (Unlock, unlock t))
  | U_assert d => (S d, Some (Unlock, Assert (t =? t) unlock_rload))
  | U_rload d => (S d, Some (Unlock, unlock_rload))
  | U_rstore d => (S d, Some (Unlock, unlock_rstore d))
  | U_disown => (1%nat, Some (Unlock, Store set_owner 0 (unlock_add 0)))
  | U_add d => (S d, Some (Unlock, unlock_add (Z.of_nat d)))
  | U_release => (1%nat, Some (Unlock, ReleaseSemaphore sem_ set_sem Return))
  | U_ret d => (S d, Some (Unlock, Return))
  end.

Definition thread_at (t : Z) (c : pc) : thread state := mk_thread t (code_at t c).1 (code_at t c).2.

(** The acquisitions of the thread that [use_count_] counts, those that
    [recursion_count_] counts, and those that the operation may bring it to. *)
Definition use (c : pc) : Z :=
  match c with
  | Rest d | L_add d | T_load d | U_ret d => Z.of_nat d
  | L_load d | L_own d | L_rload d | L_rstore d | L_ret d
  | T_add d | T_rload d | T_rstore d | T_ret d
  | U_load d | U_assert d | U_rload d | U_rstore d | U_add d => Z.of_nat d + 1
  | L_wait | T_own | U_disown => 1
  | T_cas | T_fail | U_release => 0
  end.

Definition recursions (c : pc) : Z :=
  match c with
  | Rest d | L_add d | L_load d | L_own d | L_rload d | L_rstore d
  | T_load d | T_rload d | T_rstore d | U_add d | U_ret d => Z.of_nat d
  | L_ret d | T_add d | T_ret d | U_load d | U_assert d | U_rload d | U_rstore d => Z.of_nat d + 1
  | L_wait | T_cas | T_own | T_fail | U_disown | U_release => 0
  end.

Definition cap (c : pc) : Z :=
  match c with
  | Rest d | U_ret d => Z.of_nat d
  | T_add d => Z.of_nat d + 2
  | L_wait | T_cas | T_own | T_fail | U_disown | U_release => 1
  | L_add d | T_load d | L_load d | L_own d | L_rload d | L_rstore d | L_ret d
  | T_rload d | T_rstore d | T_ret d
  | U_load d | U_assert d | U_rload d | U_rstore d | U_add d => Z.of_nat d + 1
  end.

Definition positive (d : nat) : bool := (0 <? d)%nat.

Definition hold (c : pc) : Z :=
  match c with
  | Rest d | L_add d | L_load d | T_load d | U_ret d => Z.b2z (positive d)
  | L_wait | T_cas | T_fail | U_release => 0
  | _ => 1
  end.
Definition pending (c : pc) : Z := match c with U_release => 1 | _ => 0 end.

(** Whether [owner_tid_] is the thread. *)
Definition mine (c : pc) : bool :=
  match c with
  | Rest d | L_add d | L_load d | L_own d | T_load d | U_add d | U_ret d => positive d
  | L_wait | T_cas | T_own | T_fail | U_release => false
  | _ => true
  end.

Definition measure (c : pc) : Z :=
  match c with
  | Rest d => 10 * Z.of_nat d
  | L_add d => 10 * Z.of_nat d + 17 | L_load d => 10 * Z.of_nat d + 16 | L_wait => 15
  | L_own d => 10 * Z.of_nat d + 14 | L_rload d => 10 * Z.of_nat d + 13
  | L_rstore d => 10 * Z.of_nat d + 12 | L_ret d => 10 * Z.of_nat d + 11
  | T_load d => 10 * Z.of_nat d + 16 | T_add d => 10 * Z.of_nat d + 25 | T_cas => 15 | T_own => 14
  | T_rload d => 10 * Z.of_nat d + 13 | T_rstore d => 10 * Z.of_nat d + 12
  | T_ret d => 10 * Z.of_nat d + 11 | T_fail => 1
  | U_load d => 10 * Z.of_nat d + 9 | U_assert d => 10 * Z.of_nat d + 8
  | U_rload d => 10 * Z.of_nat d + 7 | U_rstore d => 10 * Z.of_nat d + 6
  | U_disown => 5 | U_add d => 10 * Z.of_nat d + 4 | U_release => 2 | U_ret d => 10 * Z.of_nat d + 1
  end.

Definition Inv (max_depth : Z) (tids : list Z) (s : state) (pcs : list pc) : Prop :=
  maximum (sem_ s) = 1 /\ use_count_ s = sum_of use pcs /\
  recursion_count_ s = sum_of recursions pcs /\
  accounted (sum_of use pcs) (sum_of hold pcs) (sum_of pending pcs) (count (sem_ s)) /\
  (forall c, c ∈ pcs -> cap c <= max_depth) /\
  (forall i t c, tids !! i = Some t -> pcs !! i = Some c -> (owner_tid_ s = t <-> mine c = true)).

(** *** The invariant *)

Lemma hold_range c : 0 <= hold c <= 1.
Proof. by destruct c as [[]|[]|[]| | | | | |[]| | | | | | | | | | | | | | |[]]. Qed.
Lemma rec_hold_nonneg c : 0 <= hold c.
Proof. apply hold_range. Qed.
Lemma pending_nonneg c : 0 <= pending c.
Proof. by destruct c. Qed.
Lemma rec_use_nonneg c : 0 <= use c <= cap c.
Proof. destruct c; cbn; lia. Qed.
Lemma recursions_hold c : hold c = 0 -> recursions c = 0.
Proof. by destruct c as [[]|[]|[]| | | | | |[]| | | | | | | | | | | | | | |[]]. Qed.
Lemma mine_hold c : mine c = true -> hold c = 1.
Proof. by destruct c as [[]|[]|[]| | | | | |[]| | | | | | | | | | | | | | |[]]. Qed.

Section Proofs.
Context (ndebug : bool) (uses : op -> bool) (max_depth : nat) (tids : list Z).
Context (Htids : NoDup tids) (Hzero : 0 ∉ tids).
Context (Hsmall : Z.of_nat max_depth * Z.of_nat (length tids) < 2 ^ 31).

Notation inv := (Inv (Z.of_nat max_depth) tids).

(** There is room for what a thread is about to add. *)
Lemma cap_small pcs i c :
  length pcs = length tids -> (forall c, c ∈ pcs -> cap c <= Z.of_nat max_depth) -> pcs !! i = Some c ->
  0 <= sum_of use pcs /\ sum_of use pcs - use c + cap c < 2 ^ 31.
Proof.
  intros Hl Hc Hi. pose proof (sum_of_const cap pcs _ Hc) as Hs. rewrite Hl in Hs.
  split; [apply sum_of_nonneg; apply rec_use_nonneg|].
  assert (H0 : sum_of use pcs - use c + cap c <= sum_of cap pcs); [|lia].
  clear -Hi. revert i Hi; induction pcs as [|d l IH]; intros [|i] Hi; try done; cbn.
  - injection Hi as ->. assert (sum_of use l <= sum_of cap l); [|lia]. apply sum_of_le. intros; apply rec_use_nonneg.
  - specialize (IH i Hi). pose proof (rec_use_nonneg d). lia.
Qed.

(** The thread that has the lock is the one that [recursion_count_] counts for. *)
Lemma recursion_holder s pcs i c :
  inv s pcs -> pcs !! i = Some c -> hold c = 1 -> recursion_count_ s = recursions c.
Proof.
  intros (_ & _ & -> & Ha & _) Hc H1. eapply (sum_of_single hold); [apply rec_hold_nonneg|apply recursions_hold| |done].
  apply accounted_one in Ha. lia.
Qed.

(** The counter of one thread changes, and the shared state with it. *)
Lemma rec_inv_update s s' pcs i t c c' :
  inv s pcs -> tids !! i = Some t -> pcs !! i = Some c ->
  maximum (sem_ s') = 1 ->
  use_count_ s' = use_count_ s - use c + use c' ->
  recursion_count_ s' = recursion_count_ s - recursions c + recursions c' ->
  (accounted (sum_of use pcs) (sum_of hold pcs) (sum_of pending pcs) (count (sem_ s)) ->
   accounted (sum_of use pcs - use c + use c') (sum_of hold pcs - hold c + hold c')
     (sum_of pending pcs - pending c + pending c') (count (sem_ s'))) ->
  cap c' <= Z.of_nat max_depth ->
  owner_tid_ s' = owner_tid_ s \/ hold c = 1 /\ (owner_tid_ s' = t \/ owner_tid_ s' = 0) ->
  (owner_tid_ s' = t <-> mine c' = true) ->
  inv s' (<[i := c']> pcs).
Proof.
  intros (Hm & Hu & Hr & Ha & Hcap & Ho) Ht Hc Hm' Hu' Hr' Ha' Hcap' Howner Hown. unfold Inv.
  rewrite !(sum_of_insert _ pcs i c c') by done.
  split; [done|]. split; [lia|]. split; [lia|]. split; [auto|]. split.
  { intros d Hd. apply list_elem_of_lookup in Hd as [j Hj]. destruct (decide (i = j)) as [<-|Hne].
    - rewrite list_lookup_insert_eq in Hj by (eapply lookup_lt_Some; done). by injection Hj as <-.
    - rewrite list_lookup_insert_ne in Hj by done. apply Hcap. by eapply list_elem_of_lookup_2. }
  intros j t' d Hj Hd. destruct (decide (i = j)) as [<-|Hne].
  - rewrite list_lookup_insert_eq in Hd by (eapply lookup_lt_Some; done).
    injection Hd as <-. rewrite Hj in Ht. injection Ht as ->. done.
  - rewrite list_lookup_insert_ne in Hd by done. destruct Howner as [->|[H1 Hw]]; [by eapply Ho|].
    pose proof (sum_of_two hold pcs i j c d rec_hold_nonneg Hc Hd Hne). apply accounted_one in Ha.
    assert (Hd0 : mine d <> true) by (intros Hmd; apply mine_hold in Hmd; lia).
    split; [intros E; exfalso|done].
    assert (t' ∈ tids) by by eapply list_elem_of_lookup_2.
    destruct Hw as [Hw|Hw]; [|congruence]. apply Hne. eapply NoDup_lookup; [exact Htids|exact Ht|congruence].
Qed.

Ltac acct := unfold accounted; intros (? & ? & ? & ? & Hsum); revert Hsum; repeat case_bool; lia.
Ltac upd Hc := eapply rec_inv_update; [done|done|exact Hc|..]; cbn; try done; try lia; try (by left); try (by right); try acct.
Ltac run Ha s c Hc := injection Ha as <-; exists s, c; split; [done|split; [|cbn; lia]]; upd Hc.

Lemma rec_inv_init : inv make (map (fun _ => Rest 0) tids).
Proof.
  unfold Inv, make, MakeBenaphore. cbn.
  assert (H0 : forall f : pc -> Z, f (Rest 0) = 0 -> sum_of f (map (fun _ => Rest 0) tids) = 0).
  { intros f Hf. clear -Hf. induction tids as [|t l IH]; cbn; [done|]. lia. }
  rewrite !H0, maximum_create, count_create by (done || lia).
  split; [done|split; [done|split; [done|split; [done|split]]]].
  - intros c Hc. apply list_elem_of_fmap in Hc as (? & -> & _). cbn. lia.
  - intros i t c Ht Hc. apply list_lookup_fmap_Some in Hc as (? & -> & _). cbn.
    split; [intros <-|done]. exfalso. apply Hzero. by eapply list_elem_of_lookup_2.
Qed.

Lemma rec_inv_call s pcs i t c o :
  inv s pcs -> tids !! i = Some t -> pcs !! i = Some c ->
  call (thread_at t c) = None -> may_call max_depth uses o (thread_at t c) = true ->
  exists c', begin o (thread_at t c) = thread_at t c' /\ inv s (<[i := c']> pcs) /\
    (o = Unlock -> measure c' < measure c).
Proof.
  intros HI Ht Hc Hcall Hmay. pose proof HI as (Hm & Hu & Hr & Hacc & Hcap & Ho).
  specialize (Ho i t c Ht Hc). pose proof (Hcap c ltac:(by eapply list_elem_of_lookup_2)) as Hci.
  destruct c as [d| | | | | | | | | | | | | | | | | | | | | | |]; try done.
  unfold may_call in Hmay. apply andb_true_iff in Hmay as [_ Hmay].
  destruct o; cbn -[Nat.ltb] in Hmay; apply Nat.ltb_lt in Hmay.
  - exists (L_add d). split; [done|split; [|done]]. upd Hc.
  - exists (T_load d). split; [done|split; [|done]]. upd Hc.
  - destruct d as [|d]; [lia|]. cbn in Hci. exists (U_load d). split; [done|split; [|cbn; lia]]. upd Hc.
Qed.

Lemma tid_nonzero i t : tids !! i = Some t -> t <> 0.
Proof. intros Ht ->. apply Hzero. by eapply list_elem_of_lookup_2. Qed.

(** What a step of a thread must do. *)
Definition run_ok s pcs i t c : Prop :=
  forall r, advance ndebug s (thread_at t c) = Some r ->
  exists s' c', r = Ok (s', thread_at t c') /\ inv s' (<[i := c']> pcs) /\ measure c' < measure c.

(** The facts a step starts from. *)
Ltac start_run :=
  intros HI Hl Ht Hc r Ha; pose proof HI as (Hm & Hu & Hr & Hacc & Hcap & Ho);
  specialize (Ho _ _ _ Ht Hc); pose proof (Hcap _ ltac:(by eapply list_elem_of_lookup_2)) as Hci;
  pose proof (cap_small _ _ _ Hl Hcap Hc) as [Hun Hus];
  pose proof (sum_of_elem use _ _ _ (fun c => proj1 (rec_use_nonneg c)) Hc) as Hui;
  pose proof (sum_of_elem hold _ _ _ rec_hold_nonneg Hc) as Hhi;
  pose proof (recursion_holder _ _ _ _ HI Hc) as Hrec;
  cbn in Ha, Hui, Hhi, Hci, Hus, Ho, Hrec; try specialize (Hrec eq_refl).

Lemma run_L_add s pcs i t d :
  inv s pcs -> length pcs = length tids -> tids !! i = Some t -> pcs !! i = Some (L_add d) -> run_ok s pcs i t (L_add d).
Proof.
  start_run. rewrite wrap_long_small in Ha by lia. revert Ha. case_bool; intros Ha.
  - run Ha (set_use (use_count_ s + 1) s) (L_load d) Hc.
  - assert (d = 0%nat) as -> by lia. run Ha (set_use (use_count_ s + 1) s) (L_own 0) Hc.
Qed.

Lemma run_L_load s pcs i t d :
  inv s pcs -> length pcs = length tids -> tids !! i = Some t -> pcs !! i = Some (L_load d) -> run_ok s pcs i t (L_load d).
Proof.
  start_run. destruct d as [|d].
  - destruct (owner_tid_ s =? t) eqn:E; zify_bool; [by apply Ho in E|]. run Ha s L_wait Hc.
  - rewrite (proj2 (Z.eqb_eq _ _)) in Ha by by apply Ho. run Ha s (L_own (S d)) Hc.
Qed.

Lemma run_lock s pcs i t d c :
  c ∈ [L_wait; L_own d; L_rload d; L_rstore d; L_ret d] ->
  inv s pcs -> length pcs = length tids -> tids !! i = Some t -> pcs !! i = Some c -> run_ok s pcs i t c.
Proof.
  intros Hin; repeat apply elem_of_cons in Hin as [->|Hin]; [..|by apply not_elem_of_nil in Hin]; start_run.
  - pose proof (wait_spec (sem_ s)) as Hw. destruct (wait (sem_ s)) as [s1|]; [|done].
    run Ha (set_sem s1 s) (L_own 0) Hc.
  - run Ha (set_owner t s) (L_rload d) Hc.
  - rewrite Hrec in Ha. run Ha s (L_rstore d) Hc.
  - rewrite wrap_long_small in Ha by lia. run Ha (set_recursion (Z.of_nat d + 1) s) (L_ret d) Hc.
  - run Ha s (Rest (S d)) Hc.
Qed.

Lemma run_T_load s pcs i t d :
  inv s pcs -> length pcs = length tids -> tids !! i = Some t -> pcs !! i = Some (T_load d) -> run_ok s pcs i t (T_load d).
Proof.
  start_run. destruct d as [|d].
  - destruct (owner_tid_ s =? t) eqn:E; zify_bool; [by apply Ho in E|]. run Ha s T_cas Hc.
  - rewrite (proj2 (Z.eqb_eq _ _)) in Ha by by apply Ho. run Ha s (T_add d) Hc.
Qed.

Lemma run_try s pcs i t d c :
  c ∈ [T_add d; T_cas; T_own; T_rload d; T_rstore d; T_ret d; T_fail] ->
  inv s pcs -> length pcs = length tids -> tids !! i = Some t -> pcs !! i = Some c -> run_ok s pcs i t c.
Proof.
  intros Hin; repeat apply elem_of_cons in Hin as [->|Hin]; [..|by apply not_elem_of_nil in Hin]; start_run.
  - rewrite wrap_long_small in Ha by lia. run Ha (set_use (use_count_ s + 1) s) (T_rload (S d)) Hc.
  - revert Ha; case_bool; intros Ha; [run Ha (set_use 1 s) T_own Hc|run Ha s T_fail Hc].
  - run Ha (set_owner t s) (T_rload 0) Hc.
  - rewrite Hrec in Ha. run Ha s (T_rstore d) Hc.
  - rewrite wrap_long_small in Ha by lia. run Ha (set_recursion (Z.of_nat d + 1) s) (T_ret d) Hc.
  - run Ha s (Rest (S d)) Hc.
  - run Ha s (Rest 0) Hc.
Qed.

Lemma run_unlock s pcs i t d c :
  c ∈ [U_load d; U_assert d; U_rload d; U_rstore d; U_disown; U_add d; U_release; U_ret d] ->
  inv s pcs -> length pcs = length tids -> tids !! i = Some t -> pcs !! i = Some c -> run_ok s pcs i t c.
Proof.
  intros Hin; repeat apply elem_of_cons in Hin as [->|Hin]; [..|by apply not_elem_of_nil in Hin]; start_run.
  - rewrite (proj2 Ho eq_refl) in Ha. run Ha s (U_assert d) Hc.
  - rewrite Z.eqb_refl in Ha. run Ha s (U_rload d) Hc.
  - rewrite Hrec in Ha. replace (Z.of_nat d + 1 - 1) with (Z.of_nat d) in Ha by lia.
    rewrite wrap_long_small in Ha by lia. run Ha s (U_rstore d) Hc.
  - destruct d as [|d]; [run Ha (set_recursion 0 s) U_disown Hc|run Ha (set_recursion (Z.of_nat (S d)) s) (U_add (S d)) Hc].
  - run Ha (set_owner 0 s) (U_add 0) Hc.
    split; [intros <-|done]. by apply tid_nonzero in Ht.
  - rewrite wrap_long_small in Ha by lia. destruct d as [|d]; cbn in Ha; revert Ha; case_bool; intros Ha.
    + run Ha (set_use (use_count_ s - 1) s) U_release Hc.
    + run Ha (set_use (use_count_ s - 1) s) (U_ret 0) Hc.
    + run Ha (set_use (use_count_ s - 1) s) (U_ret (S d)) Hc.
    + run Ha (set_use (use_count_ s - 1) s) (U_ret (S d)) Hc.
  - pose proof (sum_of_elem pending pcs i _ pending_nonneg Hc) as Hp. cbn in Hp.
    assert (count (release (sem_ s)) = count (sem_ s) + 1) as Hrl.
    { rewrite count_release. unfold accounted in Hacc. revert Hacc. repeat case_bool; lia. }
    run Ha (set_sem (release (sem_ s)) s) (U_ret 0) Hc. by rewrite maximum_release.
  - run Ha s (Rest d) Hc.
Qed.

Ltac member := first [apply list_elem_of_here|apply list_elem_of_further; member].
Ltac group d :=
  first [by apply (run_lock _ _ _ _ d); [member|..] | by apply (run_try _ _ _ _ d); [member|..]
        |by apply (run_unlock _ _ _ _ d); [member|..]].

Lemma rec_inv_run s pcs i t c r :
  inv s pcs -> length pcs = length tids -> tids !! i = Some t -> pcs !! i = Some c ->
  advance ndebug s (thread_at t c) = Some r ->
  exists s' c', r = Ok (s', thread_at t c') /\ inv s' (<[i := c']> pcs) /\ measure c' < measure c.
Proof.
  intros HI Hl Ht Hc. revert r. change (run_ok s pcs i t c).
  destruct c as [d|d|d| |d|d|d|d|d|d| | |d|d|d| |d|d|d|d| |d| |d];
    [done|by apply run_L_add|by apply run_L_load| | | | | |by apply run_T_load|..];
    first [group d|group 0%nat].
Qed.

(** A thread that waits is let in: the lock or the semaphore is there. *)
Lemma rec_inv_progress s pcs :
  inv s pcs -> length pcs = length tids -> (exists c, c ∈ pcs /\ c <> Rest 0) ->
  exists i t c, tids !! i = Some t /\ pcs !! i = Some c /\
    (is_Some (advance ndebug s (thread_at t c)) \/
     call (thread_at t c) = None /\ (0 < depth (thread_at t c))%nat).
Proof.
  intros (Hm & Hu & Hr & Hacc & _) Hl (c & Hc & Hne). apply list_elem_of_lookup in Hc as [i Hc].
  assert (Hgo : forall i c, pcs !! i = Some c -> c <> Rest 0 -> (c = L_wait -> 0 < count (sem_ s)) ->
    exists i t c, tids !! i = Some t /\ pcs !! i = Some c /\
      (is_Some (advance ndebug s (thread_at t c)) \/
       call (thread_at t c) = None /\ (0 < depth (thread_at t c))%nat)).
  { intros j d Hd Hd0 Hw. destruct (lookup_lt_is_Some_2 tids j) as [t Ht].
    { rewrite <- Hl. by eapply lookup_lt_Some. }
    exists j, t, d. repeat split; [done|done|].
    destruct d as [[]| | | | | | | | | | | | | | | | | | | | | | |]; try done; cbn; eauto with lia.
    left. pose proof (wait_spec (sem_ s)) as Hs. destruct (wait (sem_ s)); [eauto|]. specialize (Hw eq_refl). lia. }
  destruct (decide (c = L_wait)) as [->|Hw]; [|by apply (Hgo i c Hc Hne)].
  pose proof (sum_of_elem use pcs i _ (fun c => proj1 (rec_use_nonneg c)) Hc) as Hui. cbn in Hui.
  destruct (accounted_someone _ _ _ _ _ Hacc ltac:(lia)) as [Hs|(j & d & Hd & Hd1)]; [by apply (Hgo i _ Hc)|].
  apply (Hgo j d Hd); [by intros ->; cbn in Hd1; lia|by intros ->; cbn in Hd1; lia].
Qed.

Lemma recursive_simulates :
  simulates ndebug max_depth uses thread_at inv measure (10 * Z.of_nat max_depth + 7) tids (Rest 0).
Proof.
  split.
  - done.
  - apply rec_inv_init.
  - intros s pcs i t c o HI _. by apply rec_inv_call.
  - apply rec_inv_run.
  - intros c; destruct c; cbn; lia.
  - intros s pcs c (_ & _ & _ & _ & Hcap & _) Hc. specialize (Hcap c Hc). destruct c; cbn in *; lia.
  - apply rec_inv_progress.
Qed.

Lemma rec_has_lock_hold t c : has_lock (thread_at t c) = true -> hold c = 1.
Proof. by destruct c as [[]|[]|[]| | | | | |[]| | | | | | | | | | | | |[]| |[]]. Qed.

Lemma rec_exclusive_pcs pcs : sum_of hold pcs <= 1 -> exclusive (zip_with thread_at tids pcs).
Proof.
  intros Hh i j t u Hi Hj Ht Hu'.
  apply zip_lookup in Hi as (n & c & -> & _ & Hc), Hj as (n' & c' & -> & _ & Hc').
  apply rec_has_lock_hold in Ht, Hu'. destruct (decide (i = j)) as [|Hne]; [done|].
  pose proof (sum_of_two hold pcs i j c c' rec_hold_nonneg Hc Hc' Hne). lia.
Qed.

End Proofs.
End RecursiveLightMutex.

(** C12: However the threads are interleaved and nest their acquisitions, at most one
    of them has the mutex; the assertion of [unlock] never fails; while a thread that
    has it is in no operation, [owner_tid_] is that thread and [recursion_count_] the
    number of its acquisitions, all the waiters come on top of them in [use_count_],
    and [use_count_] does not overflow. *)
Theorem recursive_mutex_exclusive `{!Win32Semaphore} ndebug uses max_depth tids w :
  NoDup tids -> 0 ∉ tids -> Z.of_nat max_depth * Z.of_nat (length tids) < 2 ^ 31 ->
  reachable ndebug max_depth uses tids w ->
  exists s ts, w = Ok (s, ts) /\ map tid ts = tids /\ exclusive ts /\
    0 <= count (sem_ s) <= 1 /\
    (forall t, t ∈ ts -> call t = None -> (0 < depth t)%nat ->
       owner_tid_ s = tid t /\ recursion_count_ s = Z.of_nat (depth t) /\
       Z.of_nat (depth t) <= use_count_ s < 2 ^ 31).
Proof.
  intros Hnd H0 Hn Hr.
  apply (simulated_reachable _ _ _ _ _ _ _ _ _ _ (recursive_simulates ndebug uses max_depth tids Hnd H0 Hn)) in Hr
    as (s & pcs & -> & Hl & HI). pose proof HI as (Hm & Hu & Hrc & Hacc & Hcap & Ho).
  exists s, (zip_with thread_at tids pcs). pose proof (accounted_one _ _ _ _ Hacc) as (Hh & _ & Hs & _).
  split; [done|]. split; [by apply map_tid_zip|]. split; [by apply rec_exclusive_pcs|].
  split; [unfold accounted in Hacc; lia|].
  intros t Ht Hc Hd. apply list_elem_of_lookup in Ht as [i Ht].
  apply zip_lookup in Ht as (n & c & -> & Hn' & Hp).
  pose proof (cap_small max_depth tids Hn pcs i c Hl Hcap Hp) as [_ Hsmall].
  pose proof (sum_of_elem use pcs i c (fun c => proj1 (rec_use_nonneg c)) Hp) as Hui.
  pose proof (rec_use_nonneg c). specialize (Ho i n c Hn' Hp).
  destruct c as [[|d]| | | | | | | | | | | | | | | | | | | | | | |]; try done; [cbn in Hd; lia|].
  split; [by apply Ho|]. split; [|cbn in *; lia].
  by rewrite (recursion_holder _ _ s pcs i (Rest (S d)) HI Hp).
Qed.

(** C18: Nobody waits for ever, also with nested acquisitions: when the threads do
    nothing more than to give the mutex back, they are all at rest after a number of
    steps that the depth and the number of the threads bound. *)
Theorem recursive_mutex_drains `{!Win32Semaphore} ndebug uses max_depth tids w n w' :
  NoDup tids -> 0 ∉ tids -> Z.of_nat max_depth * Z.of_nat (length tids) < 2 ^ 31 ->
  uses Unlock = true -> reachable ndebug max_depth uses tids w ->
  nsteps (step ndebug max_depth only_unlock) n w w' ->
  Z.of_nat n <= (10 * Z.of_nat max_depth + 7) * Z.of_nat (length tids) /\
  (at_rest tids w' \/ exists w'', step ndebug max_depth only_unlock w' w'').
Proof.
  intros Hnd H0 Hn Hu.
  by apply (simulated_drain _ _ _ _ _ _ _ _ _ _ _ _ (recursive_simulates ndebug uses max_depth tids Hnd H0 Hn)).
Qed.

End RecursiveLightMutex.

(** ** Witnesses *)

(** A semaphore as its documentation has it. *)
#[local, refine] Instance counter : Win32Semaphore := {|
  semaphore := Z * Z;
  count := fst;
  maximum := snd;
  create_semaphore i m := (i, m);
  wait s := if 0 <? s.1 then Some (s.1 - 1, s.2) else None;
  release s := if s.1 <? s.2 then (s.1 + 1, s.2) else s;
  count_create i m _ _ := eq_refl;
  maximum_create i m _ _ := eq_refl
|}.
Proof.
  - intros [c m]; cbn. case_bool; cbn; lia.
  - intros [c m]; cbn. by case_bool.
  - intros [c m]; cbn. by case_bool.
Defined.

Definition depths {St} (w : world St) : list nat := match w with Ok (_, ts) => map depth ts | _ => [] end.

(** Thread 0 has the mutex, thread 1 waits for it. *)
Definition contended : list (nat * option op) := go 0 Lock 3 ++ go 1 Lock 1.
Definition no_try (o : op) : bool := match o with TryLock => false | _ => true end.

Lemma light_mutex_exclusive_witness :
  depths (after false 1 no_try contended [7; 9] : world LightMutex.state) = [1; 0]%nat /\
  exists s ts, after false 1 no_try contended [7; 9] = Ok (s, ts) /\ map tid ts = [7; 9] /\ exclusive ts /\
    0 <= count (LightMutex.sem_ s) <= 1 /\ 0 <= LightMutex.use_count_ s <= 2 /\
    (Forall (fun t => call t = None /\ depth t = 0%nat) ts ->
     LightMutex.use_count_ s = 0 /\ count (LightMutex.sem_ s) = 0).
Proof.
  split; [vm_compute; reflexivity|].
  apply (LightMutex.light_mutex_exclusive false no_try [7; 9]); [by cbn|by right|apply after_reachable].
Defined.

(** From there the two of them give the mutex back. *)
Definition given_back : list (nat * option op) := go 0 Unlock 6 ++ repeat (1%nat, None) 3 ++ go 1 Unlock 5.

Definition drained (w : option (world LightMutex.state)) : world LightMutex.state :=
  match w with Some w => w | None => Undef end.

Lemma light_mutex_drains_witness :
  let w' := drained (exec false 1 only_unlock given_back (after false 1 no_try contended [7; 9])) in
  at_rest [7; 9] w' /\ 16 <= 11 * 2 /\ (at_rest [7; 9] w' \/ exists w'', step false 1 only_unlock w' w'').
Proof.
  split; [by exists LightMutex.make|].
  apply (LightMutex.light_mutex_drains false no_try [7; 9] (after false 1 no_try contended [7; 9]) 16);
    [by cbn|by right|done|apply after_reachable|].
  apply (exec_nsteps false 1 only_unlock given_back). reflexivity.
Defined.

Lemma try_lock_unlock_aborts_witness : reachable false 1 (fun _ => true) [7] (Undef : world LightMutex.state).
Proof. by apply (LightMutex.try_lock_unlock_aborts 7). Defined.

(** Thread 0 has the mutex twice, thread 1 waits for it. *)
Definition nested : list (nat * option op) := go 0 Lock 5 ++ go 0 TryLock 5 ++ go 1 Lock 2.

Lemma recursive_mutex_exclusive_witness :
  depths (after false 2 (fun _ => true) nested [7; 9] : world RecursiveLightMutex.state) = [2; 0]%nat /\
  exists s ts, after false 2 (fun _ => true) nested [7; 9] = Ok (s, ts) /\ map tid ts = [7; 9] /\ exclusive ts /\
    0 <= count (RecursiveLightMutex.sem_ s) <= 1 /\
    (forall t, t ∈ ts -> call t = None -> (0 < depth t)%nat ->
       RecursiveLightMutex.owner_tid_ s = tid t /\
       RecursiveLightMutex.recursion_count_ s = Z.of_nat (depth t) /\
       Z.of_nat (depth t) <= RecursiveLightMutex.use_count_ s < 2 ^ 31).
Proof.
  split; [vm_compute; reflexivity|].
  apply (RecursiveLightMutex.recursive_mutex_exclusive false (fun _ => true) 2 [7; 9]);
    [by apply (bool_decide_unpack _); vm_compute|by apply (bool_decide_unpack _); vm_compute|by cbn|apply after_reachable].
Defined.

Definition nested_back : list (nat * option op) :=
  go 0 Unlock 6 ++ go 0 Unlock 8 ++ repeat (1%nat, None) 5 ++ go 1 Unlock 7.

Lemma recursive_mutex_drains_witness :
  exists w', at_rest [7; 9] (w' : world RecursiveLightMutex.state) /\
  Z.of_nat (length nested_back) <= 27 * 2 /\ (at_rest [7; 9] w' \/ exists w'', step false 2 only_unlock w' w'').
Proof.
  eexists. split; [|eapply (RecursiveLightMutex.recursive_mutex_drains false (fun _ => true) 2 [7; 9]
    (after false 2 (fun _ => true) nested [7; 9]) (length nested_back));
    [by apply (bool_decide_unpack _); vm_compute|by apply (bool_decide_unpack _); vm_compute|by cbn|done|apply after_reachable|]].
  - by exists RecursiveLightMutex.make.
  - apply (exec_nsteps false 2 only_unlock nested_back). reflexivity.
Defined.
