(* ===== verification/TimerQueue.v ===== *)
(** * The timer queue of the event loop

    Models NetworkInfra/src/timer_queue.cpp and timer.cpp: the timers in a multimap
    ordered by their expiration, the timer descriptor that is armed for the earliest of
    them, and [OnTick], which runs the handlers of the expired ones and puts the
    repeating ones back.

    Points of time are nanoseconds and intervals microseconds, 64 bits wide.  A handler
    may add timers while it runs; which, is a parameter ([calls]).  The descriptor is the
    operating system's: the model keeps how it was armed last. *)

From S2P Require Import Prelude.
From stdpp Require Import sorting.

#[local] Open Scope Z_scope.

(** ** timer.h, timer.cpp *)

Section Timer.
Context {EventHandler : Type}.

(** [static_cast<bool>(handler)] *)
Context (callable : EventHandler -> bool).

Record Timer := mk_Timer { timer_tick_handler_ : EventHandler; expiration_ : Z; interval_ : Z }.

Definition Timer_make (handler : EventHandler) (when interval : Z) : outcome Timer :=
  ensure_check (callable handler);; Ok (mk_Timer handler when interval).

Definition is_repeating (t : Timer) : bool := 0 <? interval_ t.

(** The sum of the point of time and the interval in nanoseconds. *)
Definition Restart (now : Z) (t : Timer) : outcome Timer :=
  ensure_check (is_repeating t);;
  nanoseconds ← int64 (interval_ t * 1000);
  expiration ← int64 (now + nanoseconds);
  Ok (mk_Timer (timer_tick_handler_ t) expiration (interval_ t)).

(** ** timer_queue.cpp *)

Record timespec := mk_timespec { tv_sec : Z; tv_nsec : Z }.

Definition kMinDuration : Z := 100.

Definition ConvertDurationToTimespec (duration : Z) : timespec :=
  let duration := if duration <? kMinDuration then kMinDuration else duration in
  let sec_part := Z.quot duration 1000000 in
  let nano_part := (duration - sec_part * 1000000) * 1000 in
  mk_timespec sec_part nano_part.

(** How the descriptor was armed: when, and for how long. *)
Record setting := mk_setting { set_at : Z; it_value : timespec }.

Definition nanoseconds (spec : timespec) : Z := tv_sec spec * 1000000000 + tv_nsec spec.
Definition due (s : setting) : Z := set_at s + nanoseconds (it_value s).

(** The multimap in its order; the owner of the loop is its thread. *)
Record TimerQueue := mk_TimerQueue {
  loop_thread : Z;
  timer_fd_ : option setting;
  timers_ : list (Z * Timer)
}.

Definition set_timer_fd (fd : option setting) (q : TimerQueue) : TimerQueue :=
  mk_TimerQueue (loop_thread q) fd (timers_ q).
Definition set_timers (l : list (Z * Timer)) (q : TimerQueue) : TimerQueue :=
  mk_TimerQueue (loop_thread q) (timer_fd_ q) l.

Definition TimerQueue_make (thread : Z) : TimerQueue := mk_TimerQueue thread None [].

(** [std::multimap]: a new element comes after those with the same key. *)
Fixpoint emplace (when : Z) (t : Timer) (l : list (Z * Timer)) : list (Z * Timer) :=
  match l with
  | (k, u) :: rest => if when <? k then (when, t) :: l else (k, u) :: emplace when t rest
  | [] => [(when, t)]
  end.

(** The number of elements before [lower_bound(time)]. *)
Fixpoint lower_bound (time : Z) (l : list (Z * Timer)) : nat :=
  match l with
  | (k, _) :: rest => if k <? time then S (lower_bound time rest) else 0
  | [] => 0
  end.

(** [now] is what [system_clock::now()] returns. *)
Definition ResetTimerFD (expiration now : Z) (q : TimerQueue) : outcome TimerQueue :=
  difference ← int64 (expiration - now);
  let duration := Z.quot difference 1000 in
  Ok (set_timer_fd (Some (mk_setting now (ConvertDurationToTimespec duration))) q).

(** The descriptor goes off once; reading it after that disarms it. *)
Definition ConsumeTimerFD (now : Z) (q : TimerQueue) : TimerQueue :=
  match timer_fd_ q with
  | Some s => if due s <=? now then set_timer_fd None q else q
  | None => q
  end.

Definition Insert (new_timer : Timer) (q : TimerQueue) : TimerQueue * bool :=
  let when := expiration_ new_timer in
  let earliest_changed := match timers_ q with (k, _) :: _ => when <? k | [] => true end in
  (set_timers (emplace when new_timer (timers_ q)) q, earliest_changed).

Definition AddTimer (thread : Z) (handler : EventHandler) (when interval now : Z) (q : TimerQueue)
    : outcome TimerQueue :=
  ensure_check (thread =? loop_thread q);;
  t ← Timer_make handler when interval;
  let '(q, new_earliest) := Insert t q in
  if new_earliest then ResetTimerFD when now q else Ok q.

Definition ExtractExpired (sentry_time : Z) (q : TimerQueue) : outcome (TimerQueue * list Timer) :=
  let end_ := lower_bound sentry_time (timers_ q) in
  ensure_check (match drop end_ (timers_ q) with (k, _) :: _ => sentry_time <? k | [] => true end);;
  Ok (set_timers (drop end_ (timers_ q)) q, map snd (take end_ (timers_ q))).

(** A call of [AddTimer] by a handler, and when it is made. *)
Record add_call := mk_add_call { handler : EventHandler; when : Z; interval : Z; call_time : Z }.

(** What a handler adds when it runs. *)
Context (calls : EventHandler -> list add_call).

Fixpoint run_calls (thread : Z) (l : list add_call) (q : TimerQueue) : outcome TimerQueue :=
  match l with
  | [] => Ok q
  | c :: l => q ← AddTimer thread (handler c) (when c) (interval c) (call_time c) q; run_calls thread l q
  end.

Definition Tick (thread : Z) (t : Timer) (q : TimerQueue) : outcome TimerQueue :=
  run_calls thread (calls (timer_tick_handler_ t)) q.

(** The loop of [OnTick]. *)
Fixpoint tick_loop (thread sentry : Z) (expired : list Timer) (q : TimerQueue) : outcome TimerQueue :=
  match expired with
  | [] => Ok q
  | t :: expired =>
      q ← Tick thread t q;
      q ← (if is_repeating t then
             t ← Restart sentry t;
             Ok (Insert t q).1
           else Ok q);
      tick_loop thread sentry expired q
  end.

(** [sentry] and [last] are the times of its two readings of the clock.  The timers it
    ran come with the result. *)
Definition OnTick (thread sentry last : Z) (q : TimerQueue) : outcome (TimerQueue * list Timer) :=
  ensure_check (thread =? loop_thread q);;
  let q := ConsumeTimerFD sentry q in
  '(q, expired) ← ExtractExpired sentry q;
  q ← tick_loop thread sentry expired q;
  q ← match timers_ q with
      | (k, _) :: _ => ResetTimerFD k last q
      | [] => Ok q
      end;
  Ok (q, expired).

(** ** The multimap *)

Definition key_le (e f : Z * Timer) : Prop := e.1 <= f.1.

(** The timers are in the order of their keys, which are their expirations. *)
Definition in_order (l : list (Z * Timer)) : Prop :=
  StronglySorted key_le l /\ Forall (fun e => e.1 = expiration_ e.2) l.

Lemma emplace_perm k t l : emplace k t l ≡ₚ (k, t) :: l.
Proof.
  induction l as [|[j u] l IH]; cbn; [done|]. case_bool; [done|]. rewrite IH. apply Permutation_swap.
Qed.

Lemma emplace_Forall (P : Z * Timer -> Prop) k t l : P (k, t) -> Forall P l -> Forall P (emplace k t l).
Proof. intros. rewrite emplace_perm. by constructor. Qed.

Lemma emplace_in_order k t l : k = expiration_ t -> in_order l -> in_order (emplace k t l).
Proof.
  intros Hk [Hs Hf]. split; [|by apply emplace_Forall].
  clear Hf. induction Hs as [|[j u] l Hs IH Hj]; cbn; [by repeat constructor|]. case_bool.
  - constructor; [by constructor|]. constructor; [unfold key_le; cbn; lia|].
    eapply Forall_impl; [exact Hj|]. unfold key_le; cbn. lia.
  - constructor; [done|]. apply emplace_Forall; [unfold key_le; cbn; lia|done].
Qed.

(** Timers that expire at the same time stay in the order they were put in. *)
Lemma emplace_stable k t l : StronglySorted key_le l ->
  filter (fun e => e.1 = k) (emplace k t l) = filter (fun e => e.1 = k) l ++ [(k, t)].
Proof.
  induction 1 as [|[j u] l Hs IH Hj]; cbn -[filter]; [by rewrite filter_cons_True|]. case_bool.
  - rewrite filter_cons_True by done. rewrite (proj2 (filter_nil_Forall _ ((j, u) :: l))); [done|].
    constructor; [cbn; lia|]. eapply Forall_impl; [exact Hj|]. unfold key_le; cbn; lia.
  - rewrite !filter_cons, IH. by case_decide.
Qed.

Lemma filter_id {A} (P : A -> Prop) `{!forall x, Decision (P x)} (l : list A) : Forall P l -> filter P l = l.
Proof. induction 1 as [|x l Hx Hl IH]; [done|]. by rewrite filter_cons_True, IH. Qed.

Lemma lower_bound_split time l : StronglySorted key_le l ->
  take (lower_bound time l) l = filter (fun e => e.1 < time) l /\
  drop (lower_bound time l) l = filter (fun e => time <= e.1) l.
Proof.
  induction 1 as [|[j u] l Hs [IH1 IH2] Hj]; cbn -[filter]; [done|]. rewrite !filter_cons. cbn [fst].
  case_bool.
  - rewrite decide_True by lia. rewrite decide_False by lia. cbn. by rewrite IH1, IH2.
  - rewrite decide_False by lia. rewrite decide_True by lia. cbn. split.
    + rewrite (proj2 (filter_nil_Forall _ l)); [done|]. eapply Forall_impl; [exact Hj|]. unfold key_le; cbn; lia.
    + f_equal. symmetry. apply filter_id. eapply Forall_impl; [exact Hj|].
      unfold key_le; cbn; lia.
Qed.

Lemma in_order_filter (P : Z * Timer -> Prop) `{!forall e, Decision (P e)} l : in_order l -> in_order (filter P l).
Proof.
  intros [Hs Hf]. split.
  2: { apply Forall_forall. intros e He. apply list_elem_of_filter in He as [_ He].
       rewrite Forall_forall in Hf. by apply Hf. }
  induction Hs as [|e l Hs IH He]; [constructor|]. apply Forall_cons in Hf as [_ Hf]. rewrite filter_cons.
  case_decide; [|by apply IH]. constructor; [by apply IH|].
  rewrite Forall_forall in He |- *. intros x Hx. apply list_elem_of_filter in Hx as [_ Hx]. by apply He.
Qed.

(** ** Arming the descriptor *)

(** The time that the descriptor gets is valid, not zero, and off by less than a
    microsecond, or [kMinDuration]. *)
Lemma convert_range d :
  let spec := ConvertDurationToTimespec (Z.quot d 1000) in
  0 <= tv_sec spec /\ 0 <= tv_nsec spec < 1000000000 /\ 0 < nanoseconds spec /\
  d - 1000 < nanoseconds spec <= Z.max d (1000 * kMinDuration).
Proof.
  unfold ConvertDurationToTimespec, nanoseconds, kMinDuration. cbn [tv_sec tv_nsec].
  set (x := Z.quot d 1000).
  assert (Hq : d < 1000 -> x <= 0).
  { intros. subst x. destruct (decide (0 <= d)); [rewrite Z.quot_small; lia|].
    pose proof (Z.quot_le_mono d 0 1000). rewrite Z.quot_0_l in *; lia. }
  assert (Hp : 0 <= d -> 1000 * x <= d < 1000 * x + 1000).
  { intros. subst x. rewrite Z.quot_div_nonneg by lia.
    pose proof (Z.div_mod d 1000). pose proof (Z.mod_pos_bound d 1000). lia. }
  clearbody x. case_bool.
  - change (Z.quot 100 1000000) with 0. lia.
  - rewrite Z.quot_div_nonneg by lia.
    pose proof (Z.div_mod x 1000000). pose proof (Z.mod_pos_bound x 1000000). lia.
Qed.

(** The descriptor is armed for the earliest timer. *)
Definition armed (now : Z) (q : TimerQueue) : Prop :=
  match timers_ q with
  | [] => True
  | (k, _) :: _ =>
      exists t0, t0 <= now /\
        timer_fd_ q = Some (mk_setting t0 (ConvertDurationToTimespec (Z.quot (k - t0) 1000)))
  end.

(** ** Adding and running timers *)

(** Times that the code can compute with: the points of time are not negative, and an
    interval ends within the range when it is added to a point of time below [2 ^ 62]. *)
Definition in_range (t : Timer) : Prop := 0 <= expiration_ t < 2 ^ 63 /\ interval_ t * 1000 < 2 ^ 62.

Definition queue_ok (q : TimerQueue) : Prop :=
  in_order (timers_ q) /\ Forall (fun e => in_range e.2) (timers_ q).

Definition call_timer (c : add_call) : Timer := mk_Timer (handler c) (when c) (interval c).

Definition call_ok (last : Z) (c : add_call) : Prop :=
  callable (handler c) = true /\ in_range (call_timer c) /\ 0 <= call_time c <= last.

Definition pending (q : TimerQueue) : list Timer := map snd (timers_ q).

Lemma insert_ok t q : queue_ok q -> in_range t ->
  queue_ok (Insert t q).1 /\ pending (Insert t q).1 ≡ₚ t :: pending q /\
  loop_thread (Insert t q).1 = loop_thread q.
Proof.
  intros [Ho Hr] Ht. cbn. split; [split; [by apply emplace_in_order|by apply emplace_Forall]|].
  split; [|done]. unfold pending; cbn. by rewrite emplace_perm.
Qed.

Lemma reset_ok k now q : 0 <= k < 2 ^ 63 -> 0 <= now < 2 ^ 63 ->
  ResetTimerFD k now q =
    Ok (set_timer_fd (Some (mk_setting now (ConvertDurationToTimespec (Z.quot (k - now) 1000)))) q).
Proof. intros. unfold ResetTimerFD. by rewrite int64_ok by lia. Qed.

(** [AddTimer] on the loop's thread: the timer is pending with the others, and the
    descriptor stays armed for the earliest one. *)
Lemma add_timer_ok last c q :
  queue_ok q -> call_ok last c -> last < 2 ^ 63 ->
  exists q', AddTimer (loop_thread q) (handler c) (when c) (interval c) (call_time c) q = Ok q' /\
    queue_ok q' /\ pending q' ≡ₚ call_timer c :: pending q /\ loop_thread q' = loop_thread q /\
    (armed (call_time c) q -> armed (call_time c) q').
Proof.
  intros Hq (Hc & Hr & Ht) Hl. unfold AddTimer, Timer_make. rewrite Z.eqb_refl, Hc. cbn [ensure_check].
  rewrite !bind_ok. destruct (insert_ok (call_timer c) q Hq Hr) as (H1 & H2 & H3).
  change (mk_Timer (handler c) (when c) (interval c)) with (call_timer c).
  destruct (Insert (call_timer c) q) as [q1 b] eqn:Ei. cbn [fst] in *.
  unfold Insert in Ei. injection Ei as <- <-. unfold armed. cbn [timers_ timer_fd_ set_timers expiration_ call_timer].
  destruct Hr as [Hr _]. cbn in Hr.
  destruct (timers_ q) as [|[k u] l] eqn:El; [|destruct (when c <? k) eqn:E];
    cbn [emplace] in *; rewrite ?E in *.
  1,2: eexists; split; [apply reset_ok; lia|]; (do 3 (split; [done|])); cbn; intros _; by exists (call_time c).
  eexists. split; [reflexivity|]. do 3 (split; [done|]). done.
Qed.

Lemma run_calls_ok last l q :
  queue_ok q -> Forall (call_ok last) l -> last < 2 ^ 63 ->
  exists q', run_calls (loop_thread q) l q = Ok q' /\ queue_ok q' /\
    pending q' ≡ₚ map call_timer l ++ pending q /\ loop_thread q' = loop_thread q.
Proof.
  intros Hq Hl Hlast. revert q Hq; induction Hl as [|c l Hc Hl IH]; intros q Hq; cbn; [by exists q|].
  destruct (add_timer_ok last c q Hq Hc Hlast) as (q1 & -> & H1 & H2 & H3 & _). cbn.
  destruct (IH q1 H1) as (q' & Hrun & H4 & H5 & H6). rewrite H3 in *. exists q'. rewrite Hrun.
  split; [done|]. split; [done|]. split; [|done]. rewrite H5, H2. symmetry. apply Permutation_middle.
Qed.

(** What a timer that fires leaves to be run: what its handler adds, and itself when it
    repeats. *)
Definition leaves (sentry : Z) (t : Timer) : list Timer :=
  map call_timer (calls (timer_tick_handler_ t)) ++
  if is_repeating t then [mk_Timer (timer_tick_handler_ t) (sentry + interval_ t * 1000) (interval_ t)] else [].

Lemma restart_ok sentry t : in_range t -> is_repeating t = true -> 0 <= sentry < 2 ^ 62 ->
  Restart sentry t = Ok (mk_Timer (timer_tick_handler_ t) (sentry + interval_ t * 1000) (interval_ t)) /\
  in_range (mk_Timer (timer_tick_handler_ t) (sentry + interval_ t * 1000) (interval_ t)).
Proof.
  intros [H1 H2] Hr Hs. unfold Restart. rewrite Hr. unfold is_repeating in Hr. zify_bool. cbn [ensure_check].
  rewrite bind_ok, int64_ok by lia. rewrite bind_ok, int64_ok by lia. split; [done|]. split; cbn; lia.
Qed.

Lemma tick_loop_ok sentry last expired q :
  queue_ok q -> Forall in_range expired -> 0 <= sentry < 2 ^ 62 -> last < 2 ^ 63 ->
  Forall (fun t => Forall (call_ok last) (calls (timer_tick_handler_ t))) expired ->
  exists q', tick_loop (loop_thread q) sentry expired q = Ok q' /\ queue_ok q' /\
    pending q' ≡ₚ flat_map (leaves sentry) expired ++ pending q /\ loop_thread q' = loop_thread q.
Proof.
  intros Hq Hr Hs Hl Hc. revert q Hq Hc; induction Hr as [|t l Ht Hr IH]; intros q Hq Hc; cbn [tick_loop flat_map]; [by exists q|].
  apply Forall_cons in Hc as [Hct Hc].
  destruct (run_calls_ok last _ q Hq Hct Hl) as (q1 & E1 & H1 & H2 & H3). unfold Tick. rewrite E1, bind_ok.
  assert (exists q2, (if is_repeating t then t ← Restart sentry t; Ok (Insert t q1).1 else Ok q1) = Ok q2 /\
    queue_ok q2 /\ pending q2 ≡ₚ leaves sentry t ++ pending q /\ loop_thread q2 = loop_thread q) as (q2 & E2 & H4 & H5 & H6).
  { unfold leaves. destruct (is_repeating t) eqn:Er.
    - destruct (restart_ok sentry t Ht Er Hs) as [-> Hn]. rewrite bind_ok.
      destruct (insert_ok _ q1 H1 Hn) as (H4 & H5 & H6). eexists. split; [reflexivity|].
      split; [done|]. split; [|congruence]. rewrite H5, H2. rewrite <- app_assoc. cbn. apply Permutation_middle.
    - exists q1. rewrite app_nil_r. done. }
  rewrite E2, bind_ok. destruct (IH q2 H4 Hc) as (q' & E & H7 & H8 & H9). rewrite H6 in *. exists q'.
  split; [done|]. split; [done|]. split; [|done]. rewrite H8, H5. rewrite !app_assoc. f_equiv. apply Permutation_app_comm.
Qed.

(** ** Ticks *)

(** The timers that expire before [sentry], in the order of their expirations, those
    with the same expiration in the order they were added; and the others. *)
Definition expired_before (sentry : Z) (q : TimerQueue) : list Timer :=
  map snd (filter (fun e => e.1 < sentry) (timers_ q)).
Definition not_before (sentry : Z) (q : TimerQueue) : list Timer :=
  map snd (filter (fun e => sentry <= e.1) (timers_ q)).

Lemma consume_timers now q :
  timers_ (ConsumeTimerFD now q) = timers_ q /\ loop_thread (ConsumeTimerFD now q) = loop_thread q.
Proof. unfold ConsumeTimerFD. destruct (timer_fd_ q); [|done]. by case_bool. Qed.

Lemma extract_ok sentry q : in_order (timers_ q) -> (forall e, e ∈ timers_ q -> e.1 <> sentry) ->
  ExtractExpired sentry q =
    Ok (set_timers (filter (fun e => sentry <= e.1) (timers_ q)) q, expired_before sentry q).
Proof.
  intros [Hs _] Hne. unfold ExtractExpired, expired_before. destruct (lower_bound_split sentry _ Hs) as [-> Hd].
  rewrite Hd. rewrite ensure_check_true; [done|].
  destruct (filter (fun e => sentry <= e.1) (timers_ q)) as [|[k t] l] eqn:E; [done|].
  assert ((k, t) ∈ filter (fun e => sentry <= e.1) (timers_ q)) as Hin by (rewrite E; left).
  apply list_elem_of_filter in Hin as [Hle Hin]. specialize (Hne _ Hin). cbn in *. apply Z.ltb_lt. lia.
Qed.

Lemma rearm_ok last q : queue_ok q -> 0 <= last < 2 ^ 63 ->
  exists q', match timers_ q with (k, _) :: _ => ResetTimerFD k last q | [] => Ok q end = Ok q' /\
    timers_ q' = timers_ q /\ loop_thread q' = loop_thread q /\ armed last q'.
Proof.
  intros [[_ Hk] Hr] Hl. unfold armed. destruct (timers_ q) as [|[k t] l] eqn:E.
  { exists q. rewrite E. done. }
  apply Forall_cons in Hr as [[Hr _] _], Hk as [Hk _]. cbn in *. rewrite reset_ok by lia.
  eexists. split; [reflexivity|]. cbn. rewrite E. split; [done|]. split; [done|]. by exists last.
Qed.

Lemma tick_ok sentry last q :
  queue_ok q -> 0 <= sentry < 2 ^ 62 -> 0 <= last < 2 ^ 63 ->
  (forall e, e ∈ timers_ q -> e.1 <> sentry) ->
  Forall (fun t => Forall (call_ok last) (calls (timer_tick_handler_ t))) (expired_before sentry q) ->
  exists q', OnTick (loop_thread q) sentry last q = Ok (q', expired_before sentry q) /\
    queue_ok q' /\ armed last q' /\
    pending q' ≡ₚ flat_map (leaves sentry) (expired_before sentry q) ++ not_before sentry q.
Proof.
  intros Hq Hs Hl Hne Hc. unfold OnTick. rewrite Z.eqb_refl. cbn [ensure_check]. rewrite bind_ok.
  destruct (consume_timers sentry q) as [Ht Hth]. set (q0 := ConsumeTimerFD sentry q) in *. clearbody q0.
  assert (Hx : expired_before sentry q0 = expired_before sentry q) by (unfold expired_before; by rewrite Ht).
  destruct Hq as [Ho Hr]. rewrite extract_ok, bind_ok by (rewrite Ht; done). rewrite Ht, Hx.
  set (q1 := set_timers (filter (fun e => sentry <= e.1) (timers_ q)) q0).
  assert (Hsub : forall (P : Z * Timer -> Prop) `{!forall e, Decision (P e)},
    Forall (fun e => in_range e.2) (filter P (timers_ q))).
  { intros P HP. apply Forall_forall. intros e He. apply list_elem_of_filter in He as [_ He].
    rewrite Forall_forall in Hr. by apply Hr. }
  destruct (tick_loop_ok sentry last (expired_before sentry q) q1) as (q2 & E2 & H1 & H2 & H3); [|..].
  { split; [by apply in_order_filter|by apply Hsub]. }
  { unfold expired_before. apply Forall_map. apply Hsub. }
  { done. } { lia. } { done. }
  change (loop_thread q1) with (loop_thread q0) in E2. rewrite Hth in E2. rewrite E2, bind_ok.
  destruct (rearm_ok last q2 H1 Hl) as (q' & -> & H4 & H5 & H6). rewrite bind_ok. exists q'.
  split; [done|]. unfold queue_ok, pending. rewrite H4. done.
Qed.

Lemma tick_at_expiration sentry last q e :
  in_order (timers_ q) -> e ∈ timers_ q -> e.1 = sentry ->
  OnTick (loop_thread q) sentry last q = Throw check_failure.
Proof.
  intros [Hs _] He Hk. unfold OnTick. rewrite Z.eqb_refl. cbn [ensure_check]. rewrite bind_ok.
  destruct (consume_timers sentry q) as [Ht _]. unfold ExtractExpired. rewrite Ht.
  destruct (lower_bound_split sentry _ Hs) as [_ ->].
  assert (He' : e ∈ filter (fun e => sentry <= e.1) (timers_ q)) by (apply list_elem_of_filter; split; [lia|done]).
  assert (Hs' : StronglySorted key_le (filter (fun e => sentry <= e.1) (timers_ q))).
  { clear -Hs. induction Hs as [|x l Hs IH Hx]; [constructor|]. rewrite filter_cons. case_decide; [|done].
    constructor; [done|]. rewrite Forall_forall in Hx |- *. intros y Hy. apply list_elem_of_filter in Hy as [_ Hy]. by apply Hx. }
  destruct (filter (fun e => sentry <= e.1) (timers_ q)) as [|[k t] l]; [by apply elem_of_nil in He'|].
  assert (Hle : k <= sentry).
  { apply elem_of_cons in He' as [->|He']; [cbn in *; lia|].
    inversion Hs' as [|? ? _ Hf]; subst. rewrite Forall_forall in Hf. specialize (Hf _ He'). unfold key_le in Hf. cbn in *. lia. }
  cbn. replace (sentry <? k) with false by (symmetry; apply Z.ltb_ge; lia). done.
Qed.

(** ** The timers of a loop over time *)

(** The time, the queue, the timers that were ever to be run, and those that ran with
    the time of their tick. *)
Record world := mk_world { clock : Z; queue : TimerQueue; scheduled : list Timer; ran : list (Timer * Z) }.

Inductive step : world -> world -> Prop :=
| step_add w c q :
    clock w <= call_time c < 2 ^ 62 -> call_ok (call_time c) c ->
    AddTimer (loop_thread (queue w)) (handler c) (when c) (interval c) (call_time c) (queue w) = Ok q ->
    step w (mk_world (call_time c) q (call_timer c :: scheduled w) (ran w))
| step_tick w sentry last q expired :
    clock w <= sentry <= last -> last < 2 ^ 62 ->
    Forall (fun t => Forall (call_ok last) (calls (timer_tick_handler_ t))) (expired_before sentry (queue w)) ->
    OnTick (loop_thread (queue w)) sentry last (queue w) = Ok (q, expired) ->
    step w (mk_world last q (flat_map (leaves sentry) expired ++ scheduled w)
              (map (fun t => (t, sentry)) expired ++ ran w)).

Inductive reachable : world -> Prop :=
| reachable_make thread t0 : 0 <= t0 < 2 ^ 62 -> reachable (mk_world t0 (TimerQueue_make thread) [] [])
| reachable_step w w' : reachable w -> step w w' -> reachable w'.

Definition world_ok (w : world) : Prop :=
  0 <= clock w < 2 ^ 62 /\ queue_ok (queue w) /\ armed (clock w) (queue w) /\
  scheduled w ≡ₚ map fst (ran w) ++ pending (queue w) /\
  Forall (fun r => expiration_ r.1 < r.2 <= clock w) (ran w).

Lemma armed_mono now now' q : now <= now' -> armed now q -> armed now' q.
Proof.
  unfold armed. destruct (timers_ q) as [|[k t] l]; [done|]. intros H (t0 & Ht & E). exists t0. split; [lia|done].
Qed.

Lemma expired_split sentry q :
  queue_ok q -> pending q ≡ₚ expired_before sentry q ++ not_before sentry q /\
  Forall (fun t => expiration_ t < sentry) (expired_before sentry q).
Proof.
  intros [[Hs Hk] _]. unfold pending, expired_before, not_before. split.
  - rewrite <- map_app. f_equiv. destruct (lower_bound_split sentry _ Hs) as [<- <-]. by rewrite take_drop.
  - apply Forall_map. apply Forall_forall. intros e He. apply list_elem_of_filter in He as [Hlt He].
    rewrite Forall_forall in Hk. cbn. rewrite <- Hk; done.
Qed.

Lemma reachable_ok w : reachable w -> world_ok w.
Proof.
  induction 1 as [thread t0 Ht|w w' _ (Hc & Hq & Ha & Hp & Hr) Hst].
  { repeat split; cbn; try done; try lia. by constructor. }
  destruct Hst as [w c q Hclk Hok E|w sentry last q expired Hs Hl Hcalls E].
  - destruct (add_timer_ok (call_time c) c (queue w) Hq Hok ltac:(lia)) as (q' & E' & H1 & H2 & H3 & H4).
    rewrite E in E'. injection E' as <-. split; [cbn; lia|]. split; [done|].
    split; [apply H4; eapply armed_mono, Ha; lia|]. cbn. split.
    + rewrite H2, Hp. apply Permutation_middle.
    + eapply Forall_impl; [exact Hr|]. cbn; intros; lia.
  - assert (Hne : forall e, e ∈ timers_ (queue w) -> e.1 <> sentry).
    { intros e He Hes. destruct Hq as [Ho _]. by rewrite (tick_at_expiration sentry last _ e) in E. }
    destruct (tick_ok sentry last (queue w) Hq ltac:(lia) ltac:(lia) Hne Hcalls) as (q' & E' & H1 & H2 & H3).
    rewrite E in E'. injection E' as <- ->. destruct (expired_split sentry (queue w) Hq) as [Hsp Hlt].
    split; [cbn; lia|]. split; [done|]. split; [done|]. cbn. split.
    + rewrite H3, Hp, Hsp. rewrite map_app, map_map. cbn. rewrite map_id.
      rewrite (app_assoc (map fst (ran w))), Permutation_app_swap_app. f_equiv. apply Permutation_app_comm.
    + apply Forall_app. split; [|eapply Forall_impl; [exact Hr|]; cbn; intros; lia].
      apply Forall_map. eapply Forall_impl; [exact Hlt|]. cbn. lia.
Qed.

(** C20: A timer runs exactly once for each time it is scheduled (by [AddTimer], a
    handler, or its repetition) or is still pending; it never runs before its expiration;
    and while timers are pending the descriptor is armed and goes off no later than the
    expiration of the earliest one, or [kMinDuration] from now: none is forgotten. *)
Theorem timers_run_once w :
  reachable w ->
  scheduled w ≡ₚ map fst (ran w) ++ pending (queue w) /\
  (forall t sentry, (t, sentry) ∈ ran w -> expiration_ t < sentry <= clock w) /\
  (forall t, t ∈ pending (queue w) ->
     exists s, timer_fd_ (queue w) = Some s /\ set_at s <= clock w /\
       due s <= Z.max (expiration_ t) (clock w + 1000 * kMinDuration)).
Proof.
  intros Hr. destruct (reachable_ok w Hr) as (Hclk & [[Hs Hk] Hrange] & Ha & Hp & Hran). split; [done|]. split.
  { intros t sentry Hin. rewrite Forall_forall in Hran. by apply (Hran _ Hin). }
  intros t Ht. unfold pending, armed in *. destruct (timers_ (queue w)) as [|[k u] l]; [by apply elem_of_nil in Ht|].
  destruct Ha as (t0 & Hle & ->). eexists. split; [reflexivity|]. split; [done|].
  assert (Hkt : k <= expiration_ t /\ 0 <= k).
  { apply Forall_cons in Hrange as [[Hu _] _], Hk as [Hku Hk]. cbn in Hku, Hu.
    split; [|lia]. apply elem_of_cons in Ht as [->|Ht]; [cbn in *; lia|].
    apply list_elem_of_fmap in Ht as (e & -> & He).
    inversion Hs as [|? ? _ Hf]; subst. rewrite Forall_forall in Hf, Hk. rewrite <- Hk by done.
    by apply (Hf e He). }
  unfold due. cbn [set_at it_value]. pose proof (convert_range (k - t0)) as (_ & _ & _ & _ & Hd). lia.
Qed.

(** A tick on the loop's thread runs exactly the timers that expired before it, in
    the order of their expirations.  What is left to be run are the timers that expire
    later, what the handlers added, and each repeating timer one interval after the tick;
    the descriptor is armed for the earliest of them. *)
Theorem on_tick_runs_expired sentry last q :
  queue_ok q -> 0 <= sentry < 2 ^ 62 -> 0 <= last < 2 ^ 63 ->
  (forall e, e ∈ timers_ q -> e.1 <> sentry) ->
  Forall (fun t => Forall (call_ok last) (calls (timer_tick_handler_ t))) (expired_before sentry q) ->
  exists q' expired, OnTick (loop_thread q) sentry last q = Ok (q', expired) /\
    pending q ≡ₚ expired ++ not_before sentry q /\
    Forall (fun t => expiration_ t < sentry) expired /\
    StronglySorted (fun t u => expiration_ t <= expiration_ u) expired /\
    Forall (fun t => sentry < expiration_ t) (not_before sentry q) /\
    pending q' ≡ₚ flat_map (leaves sentry) expired ++ not_before sentry q /\
    queue_ok q' /\ armed last q'.
Proof.
  intros Hq Hs Hl Hne Hc. destruct (tick_ok sentry last q Hq Hs Hl Hne Hc) as (q' & E & H1 & H2 & H3).
  exists q', (expired_before sentry q). destruct (expired_split sentry q Hq) as [H4 H5].
  do 3 (split; [done|]). destruct Hq as [Ho Hr]. split; [|split; [|done]].
  - unfold expired_before. destruct (in_order_filter (fun e => e.1 < sentry) _ Ho) as [Hso Hko].
    induction Hso as [|e l Hso IH He]; cbn; [constructor|]. apply Forall_cons in Hko as [Hke Hko].
    constructor; [by apply IH|]. apply Forall_map. rewrite Forall_forall in He, Hko |- *.
    intros f Hf. cbn. rewrite <- Hke, <- (Hko f Hf). by apply He.
  - unfold not_before. apply Forall_map. apply Forall_forall. intros e He. apply list_elem_of_filter in He as [Hle He].
    destruct Ho as [_ Hk]. rewrite Forall_forall in Hk. cbn. rewrite <- Hk by done. specialize (Hne e He). lia.
Qed.

(** A timer that expires at the very time of a tick is neither run nor left for the
    next tick: the check in [ExtractExpired] fails.  A nanosecond earlier the tick leaves
    it, a nanosecond later it runs it. *)
Theorem on_tick_at_expiration thread h when now :
  callable h = true -> calls h = [] -> 0 <= now <= when -> when < 2 ^ 62 - 1 ->
  exists q, AddTimer thread h when 0 now (TimerQueue_make thread) = Ok q /\
    (exists q', OnTick thread (when - 1) when q = Ok (q', []) /\ pending q' = [mk_Timer h when 0]) /\
    OnTick thread when when q = Throw check_failure /\
    (exists q', OnTick thread (when + 1) (when + 1) q = Ok (q', [mk_Timer h when 0]) /\ pending q' = []).
Proof.
  intros Hh Hc Hn Hw. unfold AddTimer, Timer_make. rewrite Z.eqb_refl, Hh. cbn [ensure_check]. rewrite !bind_ok.
  cbn [Insert TimerQueue_make timers_ emplace expiration_]. rewrite reset_ok by lia.
  eexists. split; [reflexivity|].
  match goal with |- context [OnTick thread (when - 1) when ?x] => set (q := x) end.
  assert (Hq : timers_ q = [(when, mk_Timer h when 0)] /\ loop_thread q = thread) by done.
  clearbody q. destruct Hq as [Hq Hth]. unfold OnTick. rewrite Hth, Z.eqb_refl. cbn [ensure_check]. rewrite !bind_ok.
  assert (Ht : forall t, timers_ (ConsumeTimerFD t q) = [(when, mk_Timer h when 0)])
    by (intros t; by rewrite (proj1 (consume_timers t q)), Hq).
  unfold ExtractExpired. split; [|split]; rewrite Ht; cbn [lower_bound].
  - replace (when <? when - 1) with false by (symmetry; apply Z.ltb_ge; lia). cbn [drop take map ensure_check].
    replace (when - 1 <? when) with true by (symmetry; apply Z.ltb_lt; lia). cbn [ensure_check].
    rewrite !bind_ok. cbn [tick_loop]. rewrite bind_ok. cbn [timers_ set_timers]. rewrite reset_ok by lia. rewrite bind_ok. eauto.
  - rewrite Z.ltb_irrefl. cbn [drop]. by rewrite Z.ltb_irrefl.
  - replace (when <? when + 1) with true by (symmetry; apply Z.ltb_lt; lia). cbn [drop take map ensure_check].
    rewrite !bind_ok. cbn [tick_loop snd]. unfold Tick. cbn [timer_tick_handler_]. rewrite Hc. cbn [run_calls].
    rewrite bind_ok. unfold is_repeating. cbn. eauto.
Qed.
End Timer.

(** ** Witnesses *)

(** Handler 0 is empty; handler 2 adds a timer for handler 3. *)
Definition sample_callable (h : nat) : bool := (0 <? h)%nat.
Definition sample_calls (h : nat) : list (@add_call nat) :=
  if decide (h = 2%nat) then [mk_add_call 3%nat 5000 0 4000] else [].

(** A repeating timer for handler 1, and a timer for handler 2 that is due before. *)
Definition added (h : nat) (when interval : Z) (q : TimerQueue) : TimerQueue :=
  match AddTimer sample_callable 7 h when interval 0 q with Ok q => q | _ => q end.
Definition sample_one : @TimerQueue nat := added 1 2000 1 (TimerQueue_make 7).
Definition sample_queue : @TimerQueue nat := added 2 1500 0 sample_one.

Lemma sample_queue_ok : queue_ok sample_queue.
Proof.
  split; [split|]; [repeat constructor; unfold key_le; cbn; lia|repeat constructor|].
  repeat constructor; cbn; lia.
Qed.

Lemma sample_calls_ok l last : 4000 <= last < 2 ^ 62 ->
  Forall (fun t => Forall (call_ok sample_callable last) (sample_calls (timer_tick_handler_ t))) l.
Proof.
  intros Hl. apply Forall_forall. intros t _. unfold sample_calls. case_decide; [|constructor].
  apply Forall_singleton. repeat split; cbn; lia.
Qed.

Lemma on_tick_runs_expired_witness :
  map timer_tick_handler_ (expired_before 3000 sample_queue) = [2; 1]%nat /\
  exists q' expired, OnTick sample_callable sample_calls 7 3000 4000 sample_queue = Ok (q', expired) /\
    pending sample_queue ≡ₚ expired ++ not_before 3000 sample_queue /\
    Forall (fun t => expiration_ t < 3000) expired /\
    StronglySorted (fun t u => expiration_ t <= expiration_ u) expired /\
    Forall (fun t => 3000 < expiration_ t) (not_before 3000 sample_queue) /\
    pending q' ≡ₚ flat_map (leaves sample_calls 3000) expired ++ not_before 3000 sample_queue /\
    queue_ok q' /\ armed 4000 q'.
Proof.
  split; [reflexivity|].
  apply (on_tick_runs_expired sample_callable sample_calls 3000 4000 sample_queue);
    [apply sample_queue_ok|lia|lia| |by apply sample_calls_ok].
  cbn. intros e He. repeat apply elem_of_cons in He as [->|He]; [by cbn..|by apply elem_of_nil in He].
Defined.

Lemma on_tick_at_expiration_witness :
  exists q, AddTimer sample_callable 7 1%nat 50 0 10 (TimerQueue_make 7) = Ok q /\
    (exists q', OnTick sample_callable sample_calls 7 49 50 q = Ok (q', []) /\ pending q' = [mk_Timer 1%nat 50 0]) /\
    OnTick sample_callable sample_calls 7 50 50 q = Throw check_failure /\
    (exists q', OnTick sample_callable sample_calls 7 51 51 q = Ok (q', [mk_Timer 1%nat 50 0]) /\ pending q' = []).
Proof. by apply (on_tick_at_expiration sample_callable sample_calls 7 1%nat 50 10). Defined.

(** The queue of above over time: a tick runs both timers. *)
Definition sample_result : @TimerQueue nat * list Timer :=
  match OnTick sample_callable sample_calls 7 3000 4000 sample_queue with
  | Ok r => r
  | _ => (sample_queue, [])
  end.

Definition sample_world : @world nat :=
  mk_world 4000 sample_result.1
    (flat_map (leaves sample_calls 3000) sample_result.2 ++ [mk_Timer 2%nat 1500 0; mk_Timer 1%nat 2000 1])
    (map (fun t => (t, 3000)) sample_result.2 ++ []).

(** Before the tick. *)
Definition sample_before : @world nat :=
  mk_world 0 sample_queue [mk_Timer 2%nat 1500 0; mk_Timer 1%nat 2000 1] [].

Lemma sample_before_reachable : reachable sample_callable sample_calls sample_before.
Proof.
  pose (w0 := mk_world 0 (TimerQueue_make 7) [] [] : @world nat).
  pose (w1 := mk_world 0 sample_one [mk_Timer 1%nat 2000 1] []).
  apply (reachable_step _ _ w1); [apply (reachable_step _ _ w0); [by apply reachable_make|]|].
  - apply (step_add _ _ w0 (mk_add_call 1%nat 2000 1 0) sample_one); [by cbn|by repeat split; cbn; lia|reflexivity].
  - apply (step_add _ _ w1 (mk_add_call 2%nat 1500 0 0) sample_queue); [by cbn|by repeat split; cbn; lia|reflexivity].
Qed.

Lemma sample_world_reachable : reachable sample_callable sample_calls sample_world.
Proof.
  eapply reachable_step; [apply sample_before_reachable|].
  apply (step_tick _ _ sample_before 3000 4000 sample_result.1 sample_result.2);
    [by cbn|by cbn|by apply sample_calls_ok|vm_compute; reflexivity].
Qed.

Lemma timers_run_once_witness :
  map (fun r => (timer_tick_handler_ r.1, r.2)) (ran sample_world) = [(2%nat, 3000); (1%nat, 3000)] /\
  scheduled sample_world ≡ₚ map fst (ran sample_world) ++ pending (queue sample_world) /\
  (forall t sentry, (t, sentry) ∈ ran sample_world -> expiration_ t < sentry <= clock sample_world) /\
  (forall t, t ∈ pending (queue sample_world) ->
     exists s, timer_fd_ (queue sample_world) = Some s /\ set_at s <= clock sample_world /\
       due s <= Z.max (expiration_ t) (clock sample_world + 1000 * kMinDuration)).
Proof.
  split; [reflexivity|]. apply (timers_run_once sample_callable sample_calls). apply sample_world_reachable.
Defined.
