(* ===== verification/Bloom.v ===== *)
(** * The bloom filter

    Models bloom-filter/bloom-filter: [bloom_filter] (bloom_filter.cpp) and the hash it
    uses (MurmurHash2.cpp).  The sizes of the filter come from a computation with
    [double]s; [Double] is what it uses of them.  The data of a call is the memory
    behind the pointer and the length. *)

From S2P Require Import Prelude.

#[local] Open Scope Z_scope.

(** ** MurmurHash2.cpp *)

Definition m : Z := 0x5bd1e995.

(** A word of four bytes, the lowest first. *)
Definition word (b0 b1 b2 b3 : ascii) : Z :=
  uchar b0 + uchar b1 * 2 ^ 8 + uchar b2 * 2 ^ 16 + uchar b3 * 2 ^ 24.

Definition mix (h k : Z) : Z :=
  let k := wrap 32 (k * m) in
  let k := Z.lxor k (Z.shiftr k 24) in
  let k := wrap 32 (k * m) in
  let h := wrap 32 (h * m) in
  Z.lxor h k.

(** The loop over the words, and the switch on the rest. *)
Fixpoint murmur_loop (h : Z) (data : str) : Z :=
  match data with
  | b0 :: b1 :: b2 :: b3 :: data => murmur_loop (mix h (word b0 b1 b2 b3)) data
  | [d0; d1; d2] =>
      let h := Z.lxor h (Z.shiftl (uchar d2) 16) in
      let h := Z.lxor h (Z.shiftl (uchar d1) 8) in
      let h := Z.lxor h (uchar d0) in
      wrap 32 (h * m)
  | [d0; d1] =>
      let h := Z.lxor h (Z.shiftl (uchar d1) 8) in
      let h := Z.lxor h (uchar d0) in
      wrap 32 (h * m)
  | [d0] => wrap 32 (Z.lxor h (uchar d0) * m)
  | [] => h
  end.

(** [key] are the [len] bytes of the call. *)
Definition MurmurHash2 (key : str) (seed : Z) : Z :=
  let h := Z.lxor seed (wrap 32 (Z.of_nat (length key))) in
  let h := murmur_loop h key in
  let h := Z.lxor h (Z.shiftr h 13) in
  let h := wrap 32 (h * m) in
  Z.lxor h (Z.shiftr h 15).

(** ** bloom_filter.cpp *)

Record hash_result := mk_hash_result { a : Z; b : Z }.

Definition calc_data_hash (data : str) : hash_result :=
  let ra := MurmurHash2 data 0x9747b28c in
  let rb := MurmurHash2 data ra in
  mk_hash_result ra rb.

(** What the code uses of [double]; [decimal d e] is the literal [d * 10 ^ - e].  The
    casts truncate, [d_logb] is the binary exponent. *)
Class Double := {
  double : Type;
  decimal : Z -> Z -> double;
  d_of_Z : Z -> double;
  d_lt : double -> double -> bool;
  d_le : double -> double -> bool;
  d_mul : double -> double -> double;
  d_div : double -> double -> double;
  d_opp : double -> double;
  d_log : double -> double;
  d_ceil : double -> double;
  d_logb : double -> double;
  d_trunc : double -> Z;
  (** A positive factor and one of at least 1 have a positive product; the least integer
      above a positive number is at least 1.  (A comparison with a NaN is false, so that
      [d_le x y] is not the negation of [d_lt y x].) *)
  d_mul_pos x y : d_lt (d_of_Z 0) x = true -> d_le (d_of_Z 1) y = true -> d_lt (d_of_Z 0) (d_mul x y) = true;
  d_ceil_pos x : d_lt (d_of_Z 0) x = true -> 1 <= d_trunc (d_ceil x);
  decimal_pos d e : 0 < d -> 0 <= e <= 15 -> d_lt (d_of_Z 0) (decimal d e) = true
}.

Section BloomFilter.
Context {D : Double}.

(** A cast to an unsigned type is undefined when the value does not fit. *)
Definition cast (w : Z) (x : double) : outcome Z :=
  if decide (in_u w (d_trunc x)) then Ok (d_trunc x) else Undef.

Definition calc_bits_per_entry (error : double) : outcome double :=
  let denom := decimal 480453013918201 15 in
  let num := d_log error in
  let bpe := d_opp (d_div num denom) in
  assert (d_lt (d_of_Z 0) bpe);;
  if d_lt bpe (d_of_Z 1) then Throw invalid_argument else Ok bpe.

Definition calc_optimal_hashes (bpe : double) : outcome Z :=
  assert (d_le (d_of_Z 1) bpe);;
  let base := decimal 693147180559945 15 in
  cast 32 (d_ceil (d_mul base bpe)).

Definition calc_capacity (estimated_entries : Z) (bpe : double) : outcome Z :=
  assert ((0 <? estimated_entries) && d_le (d_of_Z 1) bpe);;
  bit_num ← cast 32 (d_logb (d_mul (d_of_Z estimated_entries) bpe));
  if 52 <? bit_num then Throw length_error
  else
    let bit_num := bit_num + 1 in
    let bits := Z.shiftl 1 bit_num in
    Ok (if bits <? 8 then 8 else bits).

Record bloom_filter := mk_bloom_filter {
  error_ : double;
  bits_per_entry_ : double;
  hashes_ : Z;
  num_bits_ : Z;
  max_entries_ : Z;
  size_ : Z;
  bytes_ : list Z
}.

Definition set_bytes (bytes : list Z) (f : bloom_filter) : bloom_filter :=
  mk_bloom_filter (error_ f) (bits_per_entry_ f) (hashes_ f) (num_bits_ f) (max_entries_ f) (size_ f) bytes.
Definition set_size (size : Z) (f : bloom_filter) : bloom_filter :=
  mk_bloom_filter (error_ f) (bits_per_entry_ f) (hashes_ f) (num_bits_ f) (max_entries_ f) size (bytes_ f).

(** The constructor. *)
Definition make (estimated_max_entries : Z) (error : double) : outcome bloom_filter :=
  if estimated_max_entries =? 0 then Throw invalid_argument
  else if d_le error (d_of_Z 0) || d_le (d_of_Z 1) error then Throw invalid_argument
  else
    bits_per_entry ← calc_bits_per_entry error;
    hashes ← calc_optimal_hashes bits_per_entry;
    num_bits ← calc_capacity estimated_max_entries bits_per_entry;
    max_entries ← cast 64 (d_div (d_of_Z num_bits) bits_per_entry);
    Ok (mk_bloom_filter error bits_per_entry hashes num_bits max_entries 0
          (replicate (Z.to_nat (num_bits / 8)) 0)).

Inductive access_mode := read | write.

Definition test_set_bit (bit_index : Z) (mode : access_mode) (f : bloom_filter) : outcome (bool * bloom_filter) :=
  let byte_index := bit_index / 8 in
  let mask := Z.shiftl 1 (bit_index mod 8) in
  byte ← vec_get (bytes_ f) byte_index;
  if negb (Z.land byte mask =? 0) then Ok (true, f)
  else
    match mode with
    | write => bytes ← vec_set (bytes_ f) byte_index (Z.lor byte mask); Ok (false, set_bytes bytes f)
    | read => Ok (false, f)
    end.

(** The loop of [check_add_hash] from index [i], [n] rounds before its end. *)
Fixpoint check_loop (n : nat) (hv_a hv_b : Z) (mode : access_mode) (i : Z) (unset_found : bool) (f : bloom_filter)
    : outcome (bool * bloom_filter) :=
  match n with
  | O => Ok (match mode with read => true | write => unset_found end, f)
  | S n =>
      let idx := wrap 64 (hv_a + wrap 64 (i * hv_b)) mod num_bits_ f in
      r ← test_set_bit idx mode f;
      let '(was_set, f) := r : bool * bloom_filter in
      if was_set then check_loop n hv_a hv_b mode (i + 1) unset_found f
      else
        match mode with
        | read => Ok (false, f)
        | write => check_loop n hv_a hv_b mode (i + 1) true f
        end
  end.

Definition check_add_hash (hv_a hv_b : Z) (mode : access_mode) (f : bloom_filter) : outcome (bool * bloom_filter) :=
  check_loop (Z.to_nat (hashes_ f)) hv_a hv_b mode 0 false f.

Definition add (data : str) (f : bloom_filter) : outcome (bool * bloom_filter) :=
  if Z.of_nat (length data) <=? 0 then Throw invalid_argument
  else
    let hashval := calc_data_hash data in
    r ← check_add_hash (a hashval) (b hashval) write f;
    let '(added, f) := r : bool * bloom_filter in
    Ok (added, if added then set_size (wrap 64 (size_ f + 1)) f else f).

Definition may_contain (data : str) (f : bloom_filter) : outcome (bool * bloom_filter) :=
  if Z.of_nat (length data) <=? 0 then Throw invalid_argument
  else
    let hashval := calc_data_hash data in
    check_add_hash (a hashval) (b hashval) read f.

(** ** The bits of the filter *)

(** The positions that the hash of the data selects. *)
Definition probe (num_bits : Z) (h : hash_result) (i : Z) : Z := (a h + i * b h) mod num_bits.
Definition probes (f : bloom_filter) (data : str) : list Z :=
  map (fun i => probe (num_bits_ f) (calc_data_hash data) (Z.of_nat i)) (seq 0 (Z.to_nat (hashes_ f))).

Definition bit (f : bloom_filter) (idx : Z) : bool :=
  match vat (bytes_ f) (idx / 8) with Some byte => Z.testbit byte (idx mod 8) | None => false end.

(** The sizes of a filter: its bits are a power of two, at least a byte and at most
    [2 ^ 53], and there is at least one hash. *)
Definition filter_wf (f : bloom_filter) : Prop :=
  (exists k, 3 <= k <= 53 /\ num_bits_ f = 2 ^ k) /\ 1 <= hashes_ f < 2 ^ 32 /\
  Z.of_nat (length (bytes_ f)) = num_bits_ f / 8.

Lemma lxor_range w x y : 0 <= w -> in_u w x -> in_u w y -> in_u w (Z.lxor x y).
Proof.
  intros Hw [Hx Hx'] [Hy Hy']. assert (Hn : 0 <= Z.lxor x y) by by apply Z.lxor_nonneg. split; [done|].
  destruct (decide (Z.lxor x y = 0)) as [->|Hne]; [apply Z.pow_pos_nonneg; lia|].
  apply Z.log2_lt_pow2; [lia|]. pose proof (Z.log2_lxor x y Hx Hy) as Hl.
  assert (Hb : forall z, 0 <= z < 2 ^ w -> 0 < w -> Z.log2 z < w).
  { intros z Hz Hw0. destruct (decide (z = 0)) as [->|]; [cbn; lia|]. apply Z.log2_lt_pow2; lia. }
  destruct (decide (w = 0)) as [->|].
  { cbn in Hx', Hy'. exfalso. apply Hne. by replace x with 0 by lia; replace y with 0 by lia. }
  pose proof (Hb x ltac:(lia) ltac:(lia)). pose proof (Hb y ltac:(lia) ltac:(lia)). lia.
Qed.

Lemma shiftr_range w x k : 0 <= k -> in_u w x -> in_u w (Z.shiftr x k).
Proof.
  intros Hk [H1 H2]. rewrite Z.shiftr_div_pow2 by done. assert (0 < 2 ^ k) by by apply Z.pow_pos_nonneg.
  split; [by apply Z.div_pos|]. apply Z.div_lt_upper_bound; nia.
Qed.

Lemma mix_range h k : in_u 32 (mix h k).
Proof.
  unfold mix. apply lxor_range; [done|by apply wrap_range|by apply wrap_range].
Qed.

Lemma murmur_loop_range data : forall h, in_u 32 h -> in_u 32 (murmur_loop h data).
Proof.
  assert (H : forall n (data : str) h, (length data <= n)%nat -> in_u 32 h -> in_u 32 (murmur_loop h data)).
  { induction n as [|n IH]; intros [|d0 [|d1 [|d2 [|d3 d]]]] h Hn Hh; cbn in *; try lia; try done;
      try (by apply wrap_range). apply IH; [lia|]. apply mix_range. }
  intros h. by apply (H (length data)).
Qed.

Lemma murmur_range key seed : in_u 32 seed -> in_u 32 (MurmurHash2 key seed).
Proof.
  intros Hs. unfold MurmurHash2. cbv zeta.
  assert (H : in_u 32 (wrap 32 (Z.lxor (murmur_loop (Z.lxor seed (wrap 32 (Z.of_nat (length key)))) key)
    (Z.shiftr (murmur_loop (Z.lxor seed (wrap 32 (Z.of_nat (length key)))) key) 13) * m))) by by apply wrap_range.
  apply lxor_range; [done|done|]. by apply shiftr_range.
Qed.

Lemma hash_range data : in_u 32 (a (calc_data_hash data)) /\ in_u 32 (b (calc_data_hash data)).
Proof.
  assert (in_u 32 (MurmurHash2 data 0x9747b28c)) by (apply murmur_range; unfold in_u; lia).
  split; cbn; [done|by apply murmur_range].
Qed.

(** The 64 bits of the positions are enough: nothing overflows before the remainder. *)
Lemma no_overflow x y i : in_u 32 x -> in_u 32 y -> 0 <= i < 2 ^ 32 ->
  wrap 64 (x + wrap 64 (i * y)) = x + i * y.
Proof.
  unfold in_u. intros Hx Hy Hi. assert (i * y <= (2 ^ 32 - 1) * (2 ^ 32 - 1)) by nia. assert (0 <= i * y) by nia.
  rewrite (wrap_small 64 (i * y)) by (unfold in_u; lia). apply wrap_small. unfold in_u. lia.
Qed.

Lemma bloom_make_wf n error f : 0 <= n -> make n error = Ok f ->
  filter_wf f /\ size_ f = 0 /\ (forall i, bit f i = false).
Proof.
  intros Hn H. unfold make in H. destruct (n =? 0) eqn:E0; [done|]. zify_bool. destruct (_ || _); [done|].
  inv_ok H. injection H as <-.
  assert (Hb : d_le (d_of_Z 1) a0 = true) by (unfold calc_optimal_hashes in Ha0; by destruct (d_le (d_of_Z 1) a0)).
  assert (Hk : exists k, 3 <= k <= 53 /\ a2 = 2 ^ k).
  { unfold calc_capacity, cast in Ha1. destruct (_ && _) in Ha1; [|done]. cbn in Ha1.
    destruct (decide _) as [Hc|] in Ha1; [|done]. cbn in Ha1. destruct (52 <? _) eqn:E1 in Ha1; [done|].
    zify_bool. destruct Hc as [Hc _]. set (x := d_trunc _) in *. clearbody x.
    rewrite Z.shiftl_1_l in Ha1. destruct (decide (x + 1 < 3)) as [Hlt|Hge].
    + exists 3. split; [lia|]. assert (2 ^ (x + 1) <= 2 ^ 2) by (apply Z.pow_le_mono_r; lia).
      rewrite (proj2 (Z.ltb_lt (2 ^ (x + 1)) 8)) in Ha1 by lia. by injection Ha1 as <-.
    + exists (x + 1). split; [lia|]. assert (2 ^ 3 <= 2 ^ (x + 1)) by (apply Z.pow_le_mono_r; lia).
      rewrite (proj2 (Z.ltb_ge (2 ^ (x + 1)) 8)) in Ha1 by lia. by injection Ha1 as <-. }
  assert (Hpos : 0 <= a2 / 8) by (destruct Hk as (k & Hk & ->); apply Z.div_pos; [by apply Z.pow_nonneg|done]).
  split; [split; [done|split]|split]; cbn; [| |done|].
  - unfold calc_optimal_hashes, cast in Ha0. destruct (d_le _ _) in Ha0; [|done]. cbn in Ha0.
    destruct (decide _) as [Hc|] in Ha0; [|done]. injection Ha0 as <-. split; [|apply Hc].
    apply d_ceil_pos, d_mul_pos; [by apply decimal_pos; lia|done].
  - rewrite length_replicate. lia.
  - intros i. unfold bit. cbn. destruct (vat _ _) as [z|] eqn:Ez; [|done].
    pose proof (vat_lt _ _ _ Ez) as Hi. rewrite vat_pos in Ez by lia.
    apply lookup_replicate_1 in Ez as [-> _].
    apply Z.testbit_0_l.
Qed.

(** ** One bit *)

Lemma land_bit x k : 0 <= k -> (Z.land x (Z.shiftl 1 k) =? 0) = negb (Z.testbit x k).
Proof.
  intros Hk. rewrite Z.shiftl_1_l. destruct (Z.testbit x k) eqn:E; cbn.
  - apply Z.eqb_neq. intros H0. apply (f_equal (fun z => Z.testbit z k)) in H0.
    by rewrite Z.land_spec, E, Z.pow2_bits_true, Z.testbit_0_l in H0.
  - apply Z.eqb_eq, Z.bits_inj'. intros j Hj. rewrite Z.land_spec, Z.testbit_0_l.
    rewrite Z.pow2_bits_eqb by done. destruct (Z.eqb_spec k j) as [<-|]; [by rewrite E|apply andb_false_r].
Qed.

Definition same_sizes (f g : bloom_filter) : Prop :=
  num_bits_ f = num_bits_ g /\ hashes_ f = hashes_ g /\ length (bytes_ f) = length (bytes_ g) /\ size_ f = size_ g.

(** A position of a filter lies in its vector: no access is out of range. *)
Lemma test_set_bit_ok idx mode f : filter_wf f -> 0 <= idx < num_bits_ f ->
  exists g, test_set_bit idx mode f = Ok (bit f idx, g) /\ same_sizes f g /\
    (mode = read \/ bit f idx = true -> g = f) /\
    forall j, 0 <= j < num_bits_ f -> bit g j = bit f j || match mode with write => j =? idx | read => false end.
Proof.
  intros ((k & Hk & Hn) & _ & Hl) Hi.
  assert (Hk8 : 2 ^ k = 8 * 2 ^ (k - 3)) by (change 8 with (2 ^ 3); rewrite <- Z.pow_add_r by lia; f_equal; lia).
  assert (Hb : 0 <= idx / 8 < Z.of_nat (length (bytes_ f))).
  { rewrite Hl. split; [apply Z.div_pos; lia|]. rewrite Hn, Hk8, Z.mul_comm, Z.div_mul by lia.
    apply Z.div_lt_upper_bound; lia. }
  pose proof (Z.mod_pos_bound idx 8 ltac:(lia)) as Hm.
  destruct (proj2 (vat_range (bytes_ f) (idx / 8)) Hb) as [byte Hv].
  assert (Hbit : bit f idx = Z.testbit byte (idx mod 8)) by (unfold bit; by rewrite Hv). rewrite Hbit. clear Hbit.
  unfold test_set_bit. rewrite (vec_get_ok _ _ _ Hv), bind_ok, land_bit by lia. rewrite negb_involutive.
  destruct (Z.testbit byte (idx mod 8)) eqn:E.
  { exists f. do 3 (split; [done|]). intros j Hj. destruct mode; [by rewrite orb_false_r|].
    destruct (Z.eqb_spec j idx) as [->|]; [|by rewrite orb_false_r]. unfold bit. by rewrite Hv, E. }
  destruct mode; [exists f; do 3 (split; [done|]); intros; by rewrite orb_false_r|].
  rewrite vec_set_ok, bind_ok by done. eexists. split; [reflexivity|].
  split; [unfold same_sizes; cbn; by rewrite length_insert|]. split; [by intros [?|?]|].
  intros j Hj. unfold bit. cbn [bytes_ set_bytes].
  destruct (decide (j / 8 = idx / 8)) as [Ej|Ej].
  - rewrite Ej, vat_set_eq, Hv by done. rewrite Z.lor_spec, Z.shiftl_1_l, Z.pow2_bits_eqb by lia. f_equal.
    pose proof (Z.div_mod j 8). pose proof (Z.div_mod idx 8).
    destruct (Z.eqb_spec (idx mod 8) (j mod 8)), (Z.eqb_spec j idx); try done; [lia|congruence].
  - rewrite vat_set_ne by lia. destruct (Z.eqb_spec j idx) as [->|]; [done|]. by rewrite orb_false_r.
Qed.


Lemma filter_wf_sizes f g : same_sizes f g -> filter_wf f -> filter_wf g.
Proof. intros (E1 & E2 & E3 & _) (Hk & Hh & Hl). unfold filter_wf. by rewrite <- E1, <- E2, <- E3. Qed.

Lemma probes_sizes f g data : same_sizes f g -> probes g data = probes f data.
Proof. intros (E1 & E2 & _). unfold probes. by rewrite E1, E2. Qed.

Lemma probe_range f h i : filter_wf f -> 0 <= probe (num_bits_ f) h i < num_bits_ f.
Proof. intros ((k & Hk & Hn) & _). unfold probe. apply Z.mod_pos_bound. rewrite Hn. apply Z.pow_pos_nonneg; lia. Qed.

Lemma probes_range f data p : filter_wf f -> p ∈ probes f data -> 0 <= p < num_bits_ f.
Proof. intros Hf Hp. apply list_elem_of_fmap in Hp as (i & -> & _). by apply probe_range. Qed.

(** ** The loop over the positions *)

Definition all_set (f : bloom_filter) (ps : list Z) : bool := forallb (bit f) ps.
Definition among (j : Z) (ps : list Z) : bool := existsb (Z.eqb j) ps.

Lemma check_loop_ok h mode n : forall k u f,
  in_u 32 (a h) -> in_u 32 (b h) -> filter_wf f -> Z.of_nat (k + n) <= 2 ^ 32 ->
  let ps := map (fun i => probe (num_bits_ f) h (Z.of_nat i)) (seq k n) in
  exists g, check_loop n (a h) (b h) mode (Z.of_nat k) u f =
      Ok (match mode with read => all_set f ps | write => u || negb (all_set f ps) end, g) /\
    same_sizes f g /\ (mode = read \/ all_set f ps = true -> g = f) /\
    forall j, 0 <= j < num_bits_ f ->
      bit g j = bit f j || match mode with write => among j ps | read => false end.
Proof.
  induction n as [|n IH]; intros k u f Ha Hb Hf Hk; cbn [seq map check_loop].
  { exists f. split; [by destruct mode; cbn; rewrite ?orb_false_r|]. do 2 (split; [done|]).
    intros j _. by destruct mode; cbn; rewrite orb_false_r. }
  rewrite no_overflow by (done || lia). change ((a h + Z.of_nat k * b h) mod num_bits_ f) with (probe (num_bits_ f) h (Z.of_nat k)).
  set (p := probe (num_bits_ f) h (Z.of_nat k)).
  destruct (test_set_bit_ok p mode f Hf (probe_range f h (Z.of_nat k) Hf)) as (g & -> & Hs & Hsame & Hbit).
  rewrite bind_ok. replace (Z.of_nat k + 1) with (Z.of_nat (S k)) by lia. cbn [all_set forallb among existsb].
  pose proof (filter_wf_sizes f g Hs Hf) as Hg. destruct (bit f p) eqn:E; cbn [andb].
  - assert (g = f) as -> by auto. clear Hsame.
    destruct (IH (S k) u f Ha Hb Hf ltac:(lia)) as (g & -> & H1 & H2 & H3). exists g.
    do 3 (split; [done|]). intros j Hj. rewrite H3 by done. destruct mode; [done|].
    destruct (Z.eqb_spec j p) as [->|]; [by rewrite E|done].
  - destruct mode.
    { exists g. assert (g = f) as -> by auto. do 3 (split; [done|]). done. }
    destruct (IH (S k) true g Ha Hb Hg ltac:(lia)) as (g' & -> & H1 & H2 & H3). exists g'.
    split; [by rewrite orb_true_r|]. split; [unfold same_sizes in *; intuition congruence|].
    split; [by intros [|]|]. destruct Hs as (En & _). rewrite <- En in *.
    intros j Hj. rewrite H3, Hbit by done. by rewrite orb_assoc.
Qed.

Definition valid (data : str) : Prop := 0 < Z.of_nat (length data) < 2 ^ 31.

Lemma check_add_ok data mode f : filter_wf f ->
  exists g, check_add_hash (a (calc_data_hash data)) (b (calc_data_hash data)) mode f =
      Ok (match mode with read => all_set f (probes f data) | write => negb (all_set f (probes f data)) end, g) /\
    same_sizes f g /\ (mode = read \/ all_set f (probes f data) = true -> g = f) /\
    forall j, 0 <= j < num_bits_ f ->
      bit g j = bit f j || match mode with write => among j (probes f data) | read => false end.
Proof.
  intros Hf. destruct (hash_range data) as [Ha Hb]. unfold check_add_hash.
  apply (check_loop_ok (calc_data_hash data) mode (Z.to_nat (hashes_ f)) 0 false f Ha Hb Hf).
  destruct Hf as (_ & Hh & _). lia.
Qed.

Lemma may_contain_ok data f : filter_wf f -> valid data ->
  may_contain data f = Ok (all_set f (probes f data), f).
Proof.
  intros Hf Hv. unfold may_contain. rewrite (proj2 (Z.leb_gt _ 0)) by apply Hv.
  destruct (check_add_ok data read f Hf) as (g & -> & _ & Hg & _). by rewrite Hg by by left.
Qed.

Lemma add_ok data f : filter_wf f -> valid data ->
  exists g, add data f = Ok (negb (all_set f (probes f data)), g) /\ filter_wf g /\
    num_bits_ g = num_bits_ f /\ hashes_ g = hashes_ f /\
    size_ g = (if all_set f (probes f data) then size_ f else wrap 64 (size_ f + 1)) /\
    (all_set f (probes f data) = true -> g = f) /\
    forall j, 0 <= j < num_bits_ f -> bit g j = bit f j || among j (probes f data).
Proof.
  intros Hf Hv. unfold add. rewrite (proj2 (Z.leb_gt _ 0)) by apply Hv.
  destruct (check_add_ok data write f Hf) as (g & -> & Hs & Hg & Hbit). rewrite bind_ok.
  pose proof (filter_wf_sizes f g Hs Hf) as Hw. destruct Hs as (E1 & E2 & E3 & E4).
  destruct (all_set f (probes f data)) eqn:E; cbn [negb]; eexists; (split; [reflexivity|]).
  - split; [done|]. do 3 (split; [done|]). split; [intros; apply Hg; by right|done].
  - split; [exact Hw|]. cbn. do 2 (split; [done|]). split; [by rewrite E4|]. split; [done|exact Hbit].
Qed.

(** ** Sequences of additions *)

(** The additions in order, with their answers. *)
Fixpoint add_all (l : list str) (f : bloom_filter) : outcome (bloom_filter * list bool) :=
  match l with
  | [] => Ok (f, [])
  | data :: l =>
      r ← add data f;
      let '(added, f) := r : bool * bloom_filter in
      r ← add_all l f;
      let '(f, answers) := r : bloom_filter * list bool in
      Ok (f, added :: answers)
  end.

(** The filter's bits are those that the data in [l] selects. *)
Definition represents (f0 f : bloom_filter) (l : list str) : Prop :=
  filter_wf f /\ num_bits_ f = num_bits_ f0 /\ hashes_ f = hashes_ f0 /\
  forall j, 0 <= j < num_bits_ f0 -> bit f j = existsb (fun d => among j (probes f0 d)) l.

Lemma represents_probes f0 f l data : represents f0 f l -> probes f data = probes f0 data.
Proof. intros (_ & E1 & E2 & _). unfold probes. by rewrite E1, E2. Qed.

Lemma represents_add f0 f l data g :
  represents f0 f l -> filter_wf g -> num_bits_ g = num_bits_ f -> hashes_ g = hashes_ f ->
  (forall j, 0 <= j < num_bits_ f -> bit g j = bit f j || among j (probes f data)) ->
  represents f0 g (l ++ [data]).
Proof.
  intros Hr Hg E1 E2 Hb. pose proof (represents_probes _ _ _ data Hr) as Hp. destruct Hr as (Hf & E3 & E4 & Hbits).
  split; [done|]. split; [congruence|]. split; [congruence|]. intros j Hj.
  rewrite Hb, Hbits, existsb_app by congruence. cbn. by rewrite Hp, orb_false_r.
Qed.

(** How many additions were answered to be new. *)
Definition fresh (answers : list bool) : Z := Z.of_nat (length (filter (fun x => x = true) answers)).

Lemma add_all_ok f0 l : forall f l0, represents f0 f l0 -> Forall valid l -> 0 <= size_ f < 2 ^ 64 ->
  exists g answers, add_all l f = Ok (g, answers) /\ represents f0 g (l0 ++ l) /\
    length answers = length l /\ size_ g = wrap 64 (size_ f + fresh answers).
Proof.
  induction l as [|data l IH]; intros f l0 Hr Hl Hs; cbn [add_all].
  { exists f, []. rewrite app_nil_r. do 3 (split; [done|]). symmetry. rewrite Z.add_0_r. by apply wrap_small. }
  apply Forall_cons in Hl as [Hd Hl].
  destruct (add_ok data f (proj1 Hr) Hd) as (g & -> & Hg & E1 & E2 & Es & _ & Hb). rewrite bind_ok.
  destruct (IH g (l0 ++ [data])) as (g' & answers & -> & Hr' & Hlen & Hsz); [by eapply represents_add|done| |].
  { rewrite Es. destruct (all_set _ _); [done|by apply wrap_range]. }
  rewrite bind_ok. eexists g', _. split; [done|]. rewrite <- app_assoc in Hr'. split; [done|].
  split; [cbn; by rewrite Hlen|]. rewrite Hsz, Es. unfold fresh. rewrite filter_cons.
  destruct (all_set _ _); cbn [negb]; [by rewrite decide_False|]. rewrite decide_True by done. cbn [length]. unfold wrap. rewrite Z.add_mod_idemp_l by done. f_equal. lia.
Qed.

Lemma among_elem j ps : among j ps = true <-> j ∈ ps.
Proof.
  unfold among. rewrite existsb_exists. setoid_rewrite <- list_elem_of_In. split.
  - intros (x & Hx & E). apply Z.eqb_eq in E as ->. done.
  - intros Hj. exists j. by rewrite Z.eqb_refl.
Qed.

Lemma all_set_elem f ps : all_set f ps = true <-> forall p, p ∈ ps -> bit f p = true.
Proof. unfold all_set. rewrite forallb_forall. by setoid_rewrite <- list_elem_of_In. Qed.

(** The data whose positions are all selected by what was added. *)
Definition covered (f0 : bloom_filter) (l : list str) (data : str) : Prop :=
  forall p, p ∈ probes f0 data -> exists e, e ∈ l /\ p ∈ probes f0 e.

Lemma represents_covered f0 f l data : filter_wf f0 ->
  represents f0 f l -> all_set f (probes f data) = true <-> covered f0 l data.
Proof.
  intros Hf0 Hr. rewrite (represents_probes _ _ _ data Hr), all_set_elem. destruct Hr as (_ & _ & _ & Hb).
  unfold covered. split; intros H p Hp.
  - specialize (H p Hp). rewrite Hb in H by by eapply probes_range. apply existsb_exists in H as (e & He & Hpe).
    exists e. by rewrite list_elem_of_In, <- among_elem.
  - rewrite Hb by by eapply probes_range. apply existsb_exists. destruct (H p Hp) as (e & He & Hpe).
    exists e. by rewrite <- list_elem_of_In, among_elem.
Qed.

(** C5: No false negatives, and exactly the false positives the hash gives: a filter
    that is constructed takes any sequence of additions without an access out of range;
    then [may_contain] answers yes just when every position of the data was selected by
    some addition, so in particular for everything added; it leaves the filter as it is;
    [add] answers that the data is new just when [may_contain] said no, and after it
    [may_contain] says yes; [size] counts the additions that were new. *)
Theorem bloom_answers n error f0 l :
  0 <= n -> make n error = Ok f0 -> Forall valid l ->
  exists f answers, add_all l f0 = Ok (f, answers) /\ size_ f = wrap 64 (fresh answers) /\
    forall data, valid data ->
      exists c, may_contain data f = Ok (c, f) /\ (c = true <-> covered f0 l data) /\
        (data ∈ l -> c = true) /\
        exists g, add data f = Ok (negb c, g) /\ may_contain data g = Ok (true, g).
Proof.
  intros Hn Hmake Hl. destruct (bloom_make_wf n error f0 Hn Hmake) as (Hf0 & Hs & Hb).
  assert (Hr0 : represents f0 f0 []) by (do 3 (split; [done|]); intros j _; by rewrite Hb).
  destruct (add_all_ok f0 l f0 [] Hr0 Hl ltac:(by rewrite Hs)) as (f & answers & E & Hr & _ & Hsz).
  exists f, answers. split; [done|]. split; [by rewrite Hsz, Hs|]. intros data Hd.
  exists (all_set f (probes f data)). split; [apply may_contain_ok; [apply Hr|done]|].
  pose proof (represents_covered f0 f l data Hf0 Hr) as Hc. split; [done|]. split.
  { intros Hin. apply Hc. intros p Hp. by exists data. }
  destruct (add_ok data f (proj1 Hr) Hd) as (g & Ea & Hg & E1 & E2 & _ & _ & Hbit). exists g. split; [done|].
  rewrite may_contain_ok by done. repeat f_equal.
  pose proof (represents_add f0 f l data g Hr Hg E1 E2 Hbit) as Hr'.
  apply (represents_covered f0 g (l ++ [data]) data Hf0 Hr'). intros p Hp. exists data.
  split; [apply elem_of_app; right; by left|done].
Qed.

(** The constructor: what it rejects, and that a filter it makes has a power of two
    of bits between 8 and [2 ^ 53], in as many bytes, and at least one hash. *)
Theorem make_outcome n error :
  0 <= n ->
  match make n error with
  | Ok f => 0 < n /\ d_le error (d_of_Z 0) = false /\ d_le (d_of_Z 1) error = false /\ filter_wf f /\ size_ f = 0
  | Throw e => e = invalid_argument \/ e = length_error
  | Undef | OutOfFuel => 0 < n
  end.
Proof.
  intros Hn. destruct (make n error) as [f|e| |] eqn:E.
  - destruct (bloom_make_wf n error f Hn E) as (Hf & Hs & _). unfold make in E. destruct (n =? 0) eqn:E0; [done|].
    destruct (d_le error _ || _) eqn:E1; [done|]. apply orb_false_iff in E1 as [E1 E2].
    zify_bool. split; [lia|]. done.
  - unfold make in E. destruct (n =? 0); [injection E as <-; by left|].
    destruct (d_le error _ || _); [injection E as <-; by left|].
    unfold calc_bits_per_entry, calc_optimal_hashes, calc_capacity, cast, assert in E.
    repeat (case_match; cbn in E; try done; try (injection E as <-; by (left + right))).
  - unfold make in E. destruct (n =? 0) eqn:E0; [done|]. zify_bool. lia.
  - unfold make in E. destruct (n =? 0) eqn:E0; [done|]. zify_bool. lia.
Qed.
End BloomFilter.

(** ** Witnesses *)

(** Numbers with 15 decimals; the logarithm is rough. *)
Lemma fp_mul_pos x y : (0 * 10 ^ 15 <? x) = true -> (1 * 10 ^ 15 <=? y) = true ->
  (0 * 10 ^ 15 <? x * y / 10 ^ 15) = true.
Proof.
  intros Hx Hy. zify_bool. apply Z.ltb_lt.
  assert (x <= x * y / 10 ^ 15) by (apply Z.div_le_lower_bound; nia). lia.
Qed.

Lemma fp_ceil_pos x : (0 * 10 ^ 15 <? x) = true -> 1 <= Z.quot (- (- x / 10 ^ 15) * 10 ^ 15) (10 ^ 15).
Proof.
  intros Hx. zify_bool. rewrite Z.quot_mul by lia.
  assert (- x / 10 ^ 15 < 0) by (apply Z.div_lt_upper_bound; lia). lia.
Qed.

Lemma fp_decimal_pos d e : 0 < d -> 0 <= e <= 15 -> (0 * 10 ^ 15 <? d * 10 ^ (15 - e)) = true.
Proof. intros Hd He. apply Z.ltb_lt. assert (0 < 10 ^ (15 - e)) by (apply Z.pow_pos_nonneg; lia). nia. Qed.

#[local] Instance fixed_point : Double := {|
  double := Z;
  decimal d e := d * 10 ^ (15 - e);
  d_of_Z n := n * 10 ^ 15;
  d_lt := Z.ltb;
  d_le := Z.leb;
  d_mul x y := x * y / 10 ^ 15;
  d_div x y := x * 10 ^ 15 / y;
  d_opp := Z.opp;
  d_log x := (Z.log2 x - Z.log2 (10 ^ 15)) * 693147180559945;
  d_ceil x := - (- x / 10 ^ 15) * 10 ^ 15;
  d_logb x := Z.log2 (x / 10 ^ 15) * 10 ^ 15;
  d_trunc x := Z.quot x (10 ^ 15);
  d_mul_pos := fp_mul_pos;
  d_ceil_pos := fp_ceil_pos;
  decimal_pos := fp_decimal_pos
|}.

Definition sample : outcome bloom_filter := make 4 (decimal 1 2).
Definition sample_filter : bloom_filter :=
  match sample with Ok f => f | _ => mk_bloom_filter 0 0 0 0 0 0 [] end.
Definition sample_data : list str := [lit "Alfa"; lit "Bravo"; lit "Alfa"].

Lemma sample_ok : sample = Ok sample_filter.
Proof.
  assert (H : is_ok sample = true) by (vm_compute; reflexivity). unfold sample_filter. by destruct sample.
Qed.

Lemma bloom_answers_witness :
  (num_bits_ sample_filter, hashes_ sample_filter) = (64, 6) /\
  exists f answers, add_all sample_data sample_filter = Ok (f, answers) /\ size_ f = wrap 64 (fresh answers) /\
    forall data, valid data ->
      exists c, may_contain data f = Ok (c, f) /\ (c = true <-> covered sample_filter sample_data data) /\
        (data ∈ sample_data -> c = true) /\
        exists g, add data f = Ok (negb c, g) /\ may_contain data g = Ok (true, g).
Proof.
  split; [vm_compute; reflexivity|].
  apply (bloom_answers 4 (decimal 1 2) sample_filter sample_data); [lia|apply sample_ok|].
  unfold sample_data, valid. repeat (apply Forall_cons; split; [by vm_compute|]). constructor.
Defined.

Lemma make_outcome_witness :
  sample = Ok sample_filter /\
  match make 4 (decimal 1 2) with
  | Ok f => 0 < 4 /\ d_le (decimal 1 2) (d_of_Z 0) = false /\ d_le (d_of_Z 1) (decimal 1 2) = false /\
            filter_wf f /\ size_ f = 0
  | Throw e => e = invalid_argument \/ e = length_error
  | Undef | OutOfFuel => 0 < 4
  end.
Proof. split; [apply sample_ok|]. apply (make_outcome 4). lia. Defined.
