(* ===== verification/Signals.v ===== *)
(** * Signals and slots

    Models Signal-Slot/src/signals.h: a [Signal] with its shared vector of slots, the
    [Slot] handles, and emissions ([Invoke]), which run the functions of a snapshot of the
    vector without the mutex.

    One signal, with any number of threads: a function that runs under the mutex is one
    step, an emission takes a step for each test and for each call, so the functions it
    calls, and the other threads, connect, disconnect and emit in between.  The vectors
    are objects of a heap; a [shared_ptr] to one is a field of the signal or of a running
    emission, and a vector goes when the last of them does. *)

From S2P Require Import Prelude.
From stdpp Require Import gmap sets.

(** ** The state *)

(** A function bound weakly to an object runs only while the object is there. *)
Record SlotImpl := mk_SlotImpl { weakly_bound_object : nat; weakly_bound : bool }.

(** A running or finished call of [Invoke]: its vector, its position in it, and the slot
    whose test it has passed and that it is about to call.  The last three fields are for
    the statements: the vector when it began, the tests with their results, and the
    calls, with whether the bound object was there. *)
Record emission := mk_emission {
  em_slots : nat;
  em_pos : nat;
  em_calling : option nat;
  em_done : bool;
  em_begin : list nat;
  em_tested : list (nat * bool);
  em_called : list (nat * bool)
}.

(** The signal ([slots_] of its implementation, [None] when it is destroyed), the heap of
    vectors, the slots that were made, the objects that exist, and the emissions. *)
Record state := mk_state {
  slots_ : option nat;
  vectors : gmap nat (list nat);
  slot_table : gmap nat SlotImpl;
  objects : gset nat;
  emissions : list emission
}.

Definition set_slots (l : option nat) (w : state) : state :=
  mk_state l (vectors w) (slot_table w) (objects w) (emissions w).
Definition set_vectors (v : gmap nat (list nat)) (w : state) : state :=
  mk_state (slots_ w) v (slot_table w) (objects w) (emissions w).
Definition set_table (t : gmap nat SlotImpl) (w : state) : state :=
  mk_state (slots_ w) (vectors w) t (objects w) (emissions w).
Definition set_objects (o : gset nat) (w : state) : state :=
  mk_state (slots_ w) (vectors w) (slot_table w) o (emissions w).
Definition set_emissions (l : list emission) (w : state) : state :=
  mk_state (slots_ w) (vectors w) (slot_table w) (objects w) l.

(** ** Shared vectors *)

Definition refers (l : nat) (e : emission) : bool := negb (em_done e) && (em_slots e =? l)%nat.

(** [use_count] of the shared pointers to the vector [l]. *)
Definition use_count (l : nat) (w : state) : nat :=
  (if decide (slots_ w = Some l) then 1 else 0) + length (filter (fun e => refers l e = true) (emissions w)).

(** A vector that nothing refers to any more is destroyed. *)
Definition release (l : nat) (w : state) : state :=
  if decide (use_count l w = 0) then set_vectors (delete l (vectors w)) w else w.

Definition fresh_loc (w : state) : nat := fresh (dom (vectors w) : gset nat).

(** ** SignalImpl, under its mutex *)

(** The vector of the signal, and a state in which nobody else has it. *)
Definition CopyIfNeeded (w : state) : option (nat * list nat * state) :=
  match slots_ w with
  | Some l =>
      match vectors w !! l with
      | Some v =>
          if decide (use_count l w = 1) then Some (l, v, w)
          else
            let l' := fresh_loc w in
            Some (l', v, release l (set_slots (Some l') (set_vectors (<[l' := v]> (vectors w)) w)))
      | None => None
      end
  | None => None
  end.

Definition write_vector (l : nat) (v : list nat) (w : state) : state :=
  set_vectors (<[l := v]> (vectors w)) w.

Definition AddSlot (slot : nat) (w : state) : option state :=
  match CopyIfNeeded w with
  | Some (l, v, w) => Some (write_vector l (v ++ [slot]) w)
  | None => None
  end.

(** [find_if] with the comparison of owners, and [erase]. *)
Fixpoint erase_slot (slot : nat) (v : list nat) : list nat :=
  match v with
  | other :: v => if decide (other = slot) then v else other :: erase_slot slot v
  | [] => []
  end.

Definition RemoveSlot (slot : nat) (w : state) : option state :=
  match CopyIfNeeded w with
  | Some (l, v, w) => Some (write_vector l (erase_slot slot v) w)
  | None => None
  end.

Definition RemoveAllSlots (w : state) : option state :=
  match CopyIfNeeded w with
  | Some (l, v, w) => Some (write_vector l [] w)
  | None => None
  end.

(** [Invoke] takes its snapshot under the mutex. *)
Definition Invoke (w : state) : option state :=
  match slots_ w with
  | Some l =>
      match vectors w !! l with
      | Some v => Some (set_emissions (emissions w ++ [mk_emission l 0 None false v [] []]) w)
      | None => None
      end
  | None => None
  end.

(** ** The loop of [Invoke] *)

Definition bound_object_there (s : SlotImpl) (w : state) : bool :=
  if weakly_bound s then bool_decide (weakly_bound_object s ∈ objects w) else true.

(** The test of the slot at the position of emission [i]: the end of the loop, a slot whose
    object has gone, or one to be called.  The reference to the object that the test takes
    is dropped with it. *)
Definition invoke_test (i : nat) (w : state) : option state :=
  e ← emissions w !! i;
  match em_done e, em_calling e with
  | false, None =>
      v ← vectors w !! em_slots e;
      match v !! em_pos e with
      | None =>
          Some (release (em_slots e) (set_emissions
            (<[i := mk_emission (em_slots e) (em_pos e) None true (em_begin e) (em_tested e) (em_called e)]> (emissions w)) w))
      | Some slot =>
          s ← slot_table w !! slot;
          if bound_object_there s w then
            Some (set_emissions
              (<[i := mk_emission (em_slots e) (em_pos e) (Some slot) false (em_begin e)
                        (em_tested e ++ [(slot, true)]) (em_called e)]> (emissions w)) w)
          else
            Some (set_emissions
              (<[i := mk_emission (em_slots e) (S (em_pos e)) None false (em_begin e)
                        (em_tested e ++ [(slot, false)]) (em_called e)]> (emissions w)) w)
      end
  | _, _ => None
  end.

(** The call of the function. *)
Definition invoke_call (i : nat) (w : state) : option state :=
  e ← emissions w !! i;
  slot ← em_calling e;
  s ← slot_table w !! slot;
  Some (set_emissions
    (<[i := mk_emission (em_slots e) (S (em_pos e)) None (em_done e) (em_begin e) (em_tested e)
              (em_called e ++ [(slot, bound_object_there s w)])]> (emissions w)) w).

(** ** Signal and Slot *)

Definition make : state := mk_state (Some 0) {[0 := []]} ∅ ∅ [].

(** The new slot's address is that of an object that does not exist yet. *)
Definition Connect (slot : nat) (s : SlotImpl) (w : state) : option state :=
  if decide (slot_table w !! slot = None) then AddSlot slot (set_table (<[slot := s]> (slot_table w)) w) else None.

(** A slot is there while some vector has it. *)
Definition slot_there (slot : nat) (w : state) : bool :=
  bool_decide (map_Exists (fun _ v => slot ∈ v) (vectors w)).

(** [Slot::Disconnect] and [SlotImpl::Dispose], with their weak references. *)
Definition Disconnect (slot : nat) (w : state) : option state :=
  if slot_there slot w then
    match slots_ w with
    | Some _ => RemoveSlot slot w
    | None => Some w
    end
  else Some w.

Definition Destroy (w : state) : option state :=
  match slots_ w with
  | Some l => Some (release l (set_slots None w))
  | None => None
  end.

(** ** Interleaving *)

Inductive event :=
| Connects (slot : nat) (s : SlotImpl)
| Disconnects (slot : nat)
| DisconnectsAll
| Emits
| Tests (i : nat)
| Calls (i : nat)
| Destroys
| NewObject (o : nat)
| ObjectGoes (o : nat).

Definition happens (ev : event) (w : state) : option state :=
  match ev with
  | Connects slot s => Connect slot s w
  | Disconnects slot => Disconnect slot w
  | DisconnectsAll => RemoveAllSlots w
  | Emits => Invoke w
  | Tests i => invoke_test i w
  | Calls i => invoke_call i w
  | Destroys => Destroy w
  | NewObject o => Some (set_objects ({[o]} ∪ objects w) w)
  | ObjectGoes o => Some (set_objects (objects w ∖ {[o]}) w)
  end.

Fixpoint run (l : list event) (w : state) : option state :=
  match l with
  | [] => Some w
  | ev :: l => w ← happens ev w; run l w
  end.

(** ** The invariant *)

Definition running (e : emission) : Prop := em_done e = false.

(** What an emission has done so far: it has tested its slots in order, and called those
    that passed, except the one it is about to call. *)
Definition trace_ok (e : emission) : Prop :=
  map fst (em_tested e) = take (em_pos e + match em_calling e with Some _ => 1 | None => 0 end) (em_begin e) /\
  map fst (filter (fun t => t.2 = true) (em_tested e)) =
    map fst (em_called e) ++ match em_calling e with Some slot => [slot] | None => [] end /\
  (forall slot, em_calling e = Some slot -> em_begin e !! em_pos e = Some slot /\ running e) /\
  (em_done e = true -> length (em_begin e) <= em_pos e).

Definition vector_ok (w : state) (v : list nat) : Prop := NoDup v /\ Forall (fun s => s ∈ dom (slot_table w)) v.

(** No reference dangles, and an emission still finds the vector it began with. *)
Record Inv (w : state) : Prop := {
  inv_slots l : slots_ w = Some l -> is_Some (vectors w !! l);
  inv_running e : e ∈ emissions w -> running e -> vectors w !! em_slots e = Some (em_begin e);
  inv_trace e : e ∈ emissions w -> trace_ok e;
  inv_vectors l v : vectors w !! l = Some v -> vector_ok w v
}.

Lemma refers_true l e : refers l e = true <-> running e /\ em_slots e = l.
Proof. unfold refers, running. rewrite andb_true_iff, negb_true_iff, Nat.eqb_eq. done. Qed.

Lemma use_count_zero l w :
  use_count l w = 0 <-> slots_ w <> Some l /\ forall e, e ∈ emissions w -> running e -> em_slots e <> l.
Proof.
  unfold use_count. split.
  - intros Hc. destruct (decide (slots_ w = Some l)); [lia|]. split; [done|]. intros e He Hr Hl.
    assert (Hin : e ∈ filter (fun e => refers l e = true) (emissions w)).
    { apply list_elem_of_filter. split; [by apply refers_true|done]. }
    destruct (filter _ (emissions w)); [by apply elem_of_nil in Hin|cbn in Hc; lia].
  - intros [Hs He]. rewrite decide_False by done. cbn.
    rewrite (proj2 (filter_nil_Forall _ (emissions w))); [done|]. apply Forall_forall. intros e Hin Hr.
    apply refers_true in Hr as [Hr Hl]. by apply (He e).
Qed.

Lemma use_count_one l w :
  slots_ w = Some l -> use_count l w = 1 -> forall e, e ∈ emissions w -> running e -> em_slots e <> l.
Proof.
  unfold use_count. intros Hs Hc e He Hr Hl. rewrite decide_True in Hc by done.
  assert (Hin : e ∈ filter (fun e => refers l e = true) (emissions w)).
  { apply list_elem_of_filter. split; [by apply refers_true|done]. }
  destruct (filter _ (emissions w)); [by apply elem_of_nil in Hin|cbn in Hc; lia].
Qed.

(** Releasing a vector does not touch one that is referred to. *)
Lemma release_lookup l l' w :
  vectors (release l w) !! l' = if decide (l = l' /\ use_count l w = 0) then None else vectors w !! l'.
Proof.
  unfold release. destruct (decide (use_count l w = 0)) as [Hz|Hz].
  - cbn. destruct (decide (l = l')) as [->|Hne].
    + rewrite decide_True by done. apply lookup_delete_eq.
    + rewrite decide_False by naive_solver. by apply lookup_delete_ne.
  - rewrite decide_False by naive_solver. done.
Qed.

Lemma release_fields l w :
  slots_ (release l w) = slots_ w /\ slot_table (release l w) = slot_table w /\
  objects (release l w) = objects w /\ emissions (release l w) = emissions w.
Proof. unfold release. by case_decide. Qed.

Lemma release_inv l w : Inv w -> Inv (release l w).
Proof.
  intros [H1 H2 H3 H4]. destruct (release_fields l w) as (E1 & E2 & E3 & E4). split.
  - intros l' Hl. rewrite E1 in Hl. rewrite release_lookup. case_decide as Hd; [|by apply H1].
    destruct Hd as [-> Hz]. by apply use_count_zero in Hz as [Hz _].
  - intros e He Hr. rewrite E4 in He. rewrite release_lookup. case_decide as Hd; [|by apply H2].
    destruct Hd as [Hl Hz]. apply use_count_zero in Hz as [_ Hz]. by destruct (Hz e He Hr).
  - intros e He. rewrite E4 in He. by apply H3.
  - intros l' v. rewrite release_lookup. case_decide; [done|]. intros Hv. unfold vector_ok. rewrite E2. by eapply H4.
Qed.

Definition connected (w : state) : option (list nat) := l ← slots_ w; vectors w !! l.

(** After [CopyIfNeeded] the signal's vector is its own: no emission runs on it. *)
Lemma copy_ok w v : Inv w -> connected w = Some v ->
  exists l w', CopyIfNeeded w = Some (l, v, w') /\ Inv w' /\ slots_ w' = Some l /\ vectors w' !! l = Some v /\
    (forall e, e ∈ emissions w' -> running e -> em_slots e <> l) /\
    slot_table w' = slot_table w /\ objects w' = objects w /\ emissions w' = emissions w.
Proof.
  intros HI Hc. unfold connected in Hc. destruct (slots_ w) as [l|] eqn:Hs; [|done]. cbn in Hc.
  unfold CopyIfNeeded. rewrite Hs, Hc. destruct (decide (use_count l w = 1)) as [Hu|Hu].
  { exists l, w. do 4 (split; [done|]). split; [by apply use_count_one|done]. }
  assert (Hfresh : vectors w !! fresh_loc w = None) by (apply (not_elem_of_dom (D := gset nat)); unfold fresh_loc; apply is_fresh).
  set (w1 := set_slots (Some (fresh_loc w)) (set_vectors (<[fresh_loc w := v]> (vectors w)) w)).
  assert (HI1 : Inv w1).
  { destruct HI as [H1 H2 H3 H4]. split; cbn.
    - intros l' [= <-]. rewrite lookup_insert_eq. eauto.
    - intros e He Hr. rewrite lookup_insert_ne; [by apply H2|]. intros Hl. specialize (H2 e He Hr). by rewrite <- Hl, Hfresh in H2.
    - done.
    - intros l' v' Hv. apply lookup_insert_Some in Hv as [[_ <-]|[_ Hv]]; by eapply H4. }
  assert (Hown : forall e, e ∈ emissions w1 -> running e -> em_slots e <> fresh_loc w).
  { intros e He Hr Hl. destruct HI as [_ H2 _ _]. specialize (H2 e He Hr). by rewrite Hl, Hfresh in H2. }
  destruct (release_fields l w1) as (E1 & E2 & E3 & E4).
  exists (fresh_loc w), (release l w1). split; [done|]. split; [by apply release_inv|]. split; [by rewrite E1|].
  split; [|rewrite E2, E3, E4; done]. rewrite release_lookup, decide_False; [apply lookup_insert_eq|].
  intros [-> Hz]. apply use_count_zero in Hz as [Hz _]. by destruct Hz.
Qed.

Lemma write_inv l v w : Inv w -> slots_ w = Some l ->
  (forall e, e ∈ emissions w -> running e -> em_slots e <> l) -> vector_ok w v ->
  Inv (write_vector l v w).
Proof.
  intros [H1 H2 H3 H4] Hs He Hv. split; cbn.
  - intros l' Hl. rewrite Hs in Hl. injection Hl as ->. rewrite lookup_insert_eq. eauto.
  - intros e Hin Hr. rewrite lookup_insert_ne; [by apply H2|]. intros Hl. by apply (He e).
  - done.
  - intros l' v' Hv'. apply lookup_insert_Some in Hv' as [[_ <-]|[_ Hv']]; [done|by eapply H4].
Qed.

(** The changes of the signal under the mutex: a new list of the connected slots, and no
    effect on the emissions. *)
Lemma change_ok w v v' : Inv w -> connected w = Some v -> vector_ok w v' ->
  exists l w1, CopyIfNeeded w = Some (l, v, w1) /\ Inv (write_vector l v' w1) /\
    connected (write_vector l v' w1) = Some v' /\ emissions (write_vector l v' w1) = emissions w /\
    slot_table (write_vector l v' w1) = slot_table w /\ objects (write_vector l v' w1) = objects w.
Proof.
  intros HI Hc Hv. destruct (copy_ok w v HI Hc) as (l & w1 & E & HI1 & Hs & Hl & He & E2 & E3 & E4).
  exists l, w1. split; [done|]. split; [apply write_inv; try done; unfold vector_ok; by rewrite E2|].
  split; [|done]. unfold connected. cbn. rewrite Hs. cbn. apply lookup_insert_eq.
Qed.

Lemma connected_vector_ok w v : Inv w -> connected w = Some v -> vector_ok w v.
Proof.
  intros [_ _ _ H4] Hc. unfold connected in Hc. destruct (slots_ w) as [l|]; [|done]. by eapply H4.
Qed.

Lemma erase_filter slot v : NoDup v -> erase_slot slot v = filter (fun s => s <> slot) v.
Proof.
  induction 1 as [|s v Hs Hn IH]; cbn -[filter]; [done|]. rewrite filter_cons. destruct (decide (s = slot)) as [->|Hne].
  - rewrite decide_False by naive_solver. clear IH Hn. induction v as [|t v IH]; [done|].
    rewrite filter_cons, decide_True by set_solver. f_equal. apply IH. set_solver.
  - rewrite decide_True by done. by rewrite IH.
Qed.

Lemma table_insert_inv w slot s : Inv w -> slot_table w !! slot = None ->
  Inv (set_table (<[slot := s]> (slot_table w)) w).
Proof.
  intros [H1 H2 H3 H4] Hn. split; cbn; [done..|]. intros l v Hv. destruct (H4 l v Hv) as [Hd Hf]. split; [done|].
  eapply Forall_impl; [exact Hf|]. cbn. intros x Hx. rewrite dom_insert. set_solver.
Qed.

(** [Connect], [Disconnect] and [DisconnectAll] on the list of the connected slots. *)
Lemma connect_ok w v slot s : Inv w -> connected w = Some v -> slot_table w !! slot = None ->
  exists w', Connect slot s w = Some w' /\ Inv w' /\ connected w' = Some (v ++ [slot]) /\
    emissions w' = emissions w /\ objects w' = objects w /\ slot_table w' = <[slot := s]> (slot_table w).
Proof.
  intros HI Hc Hn. unfold Connect, AddSlot. rewrite decide_True by done.
  set (w0 := set_table (<[slot := s]> (slot_table w)) w).
  assert (HI0 : Inv w0) by by apply table_insert_inv.
  destruct (connected_vector_ok w v HI Hc) as [Hd Hf].
  assert (Hv : vector_ok w0 (v ++ [slot])).
  { split.
    - apply NoDup_app. split; [done|]. split; [|apply NoDup_singleton]. intros x Hx Hx'.
      apply list_elem_of_singleton in Hx' as ->. rewrite Forall_forall in Hf. specialize (Hf slot Hx).
      by apply elem_of_dom in Hf as [? Hf]; rewrite Hn in Hf.
    - apply Forall_app. split; [|constructor; [|constructor]].
      + eapply Forall_impl; [exact Hf|]. cbn. intros x Hx. rewrite dom_insert. set_solver.
      + cbn. rewrite dom_insert. set_solver. }
  destruct (change_ok w0 v (v ++ [slot]) HI0 Hc Hv) as (l & w1 & E & H1 & H2 & H3 & H4 & H5).
  rewrite E. eexists. split; [reflexivity|]. done.
Qed.

Lemma disconnect_ok w v slot : Inv w -> connected w = Some v ->
  exists w', Disconnect slot w = Some w' /\ Inv w' /\ connected w' = Some (filter (fun s => s <> slot) v) /\
    emissions w' = emissions w /\ objects w' = objects w /\ slot_table w' = slot_table w.
Proof.
  intros HI Hc. unfold Disconnect, RemoveSlot. destruct (connected_vector_ok w v HI Hc) as [Hd Hf].
  assert (Hs : exists l, slots_ w = Some l /\ vectors w !! l = Some v).
  { unfold connected in Hc. destruct (slots_ w) as [l|]; [|done]. by exists l. }
  destruct Hs as (l0 & Hs & Hl0). unfold slot_there. case_bool_decide as Hex.
  - assert (Hv : vector_ok w (filter (fun s => s <> slot) v)).
    { split; [by apply NoDup_filter|]. rewrite Forall_forall in Hf |- *. intros x Hx.
      apply list_elem_of_filter in Hx as [_ Hx]. by apply Hf. }
    destruct (change_ok w v _ HI Hc Hv) as (l & w1 & E & H1 & H2 & H3 & H4 & H5).
    rewrite Hs, E. rewrite erase_filter by done. eexists. split; [reflexivity|]. done.
  - exists w. do 2 (split; [done|]). split; [|done]. rewrite Hc. f_equal. symmetry.
    assert (Hnot : slot ∉ v) by (intros Hin; apply Hex; by exists l0, v).
    clear -Hnot. induction v as [|x v IH]; [done|]. rewrite filter_cons, decide_True by set_solver.
    f_equal. apply IH. set_solver.
Qed.

Lemma disconnect_all_ok w v : Inv w -> connected w = Some v ->
  exists w', RemoveAllSlots w = Some w' /\ Inv w' /\ connected w' = Some [] /\
    emissions w' = emissions w /\ objects w' = objects w /\ slot_table w' = slot_table w.
Proof.
  intros HI Hc. unfold RemoveAllSlots.
  destruct (change_ok w v [] HI Hc ltac:(split; constructor)) as (l & w1 & E & H1 & H2 & H3 & H4 & H5).
  rewrite E. eexists. split; [reflexivity|]. done.
Qed.

(** ** Emissions *)

Lemma emission_update w i e e' : Inv w -> emissions w !! i = Some e -> trace_ok e' ->
  (running e' -> running e /\ em_slots e' = em_slots e /\ em_begin e' = em_begin e) ->
  Inv (set_emissions (<[i := e']> (emissions w)) w).
Proof.
  intros [H1 H2 H3 H4] Hi Ht Hr.
  assert (Hin : forall x, x ∈ <[i := e']> (emissions w) -> x = e' \/ x ∈ emissions w).
  { intros x Hx. apply list_elem_of_lookup in Hx as [j Hj]. apply list_lookup_insert_Some in Hj as [(_ & <- & _)|[_ Hj]];
      [by left|right; by eapply list_elem_of_lookup_2]. }
  split; cbn; [done| | |done].
  - intros x Hx Hrx. destruct (Hin x Hx) as [->|Hx']; [|by apply H2]. destruct (Hr Hrx) as (Hre & -> & ->).
    apply H2; [by eapply list_elem_of_lookup_2|done].
  - intros x Hx. destruct (Hin x Hx) as [->|Hx']; [done|by apply H3].
Qed.

Lemma invoke_ok w v : Inv w -> connected w = Some v ->
  exists l, Invoke w = Some (set_emissions (emissions w ++ [mk_emission l 0 None false v [] []]) w) /\
    Inv (set_emissions (emissions w ++ [mk_emission l 0 None false v [] []]) w).
Proof.
  intros [H1 H2 H3 H4] Hc. unfold connected in Hc. unfold Invoke. destruct (slots_ w) as [l|] eqn:Hs; [|done].
  cbn in Hc. rewrite Hc. exists l. split; [done|]. split; cbn; [by rewrite Hs| | |done].
  - intros e He Hr. apply elem_of_app in He as [He|He]; [by apply H2|]. by apply list_elem_of_singleton in He as ->.
  - intros e He. apply elem_of_app in He as [He|He]; [by apply H3|]. apply list_elem_of_singleton in He as ->.
    by repeat split.
Qed.

(** The slot at the position of an emission, when it has been tested. *)
Lemma take_next {A} (l : list A) n x : l !! n = Some x -> take (n + 1) l = take n l ++ [x].
Proof. intros H. rewrite Nat.add_1_r. by apply take_S_r. Qed.

(** A test keeps the invariant; on a running emission it is never stuck. *)
Lemma invoke_test_ok w i e : Inv w -> emissions w !! i = Some e -> running e -> em_calling e = None ->
  exists w', invoke_test i w = Some w' /\ Inv w'.
Proof.
  intros HI Hi Hr Hc. pose proof (list_elem_of_lookup_2 _ _ _ Hi) as Hin.
  pose proof (inv_running w HI e Hin Hr) as Hv. pose proof (inv_trace w HI e Hin) as (T1 & T2 & T3 & T4).
  rewrite Hc in T1, T2. rewrite Nat.add_0_r in T1. rewrite app_nil_r in T2.
  unfold invoke_test. rewrite Hi. cbn. unfold running in Hr. rewrite Hr, Hc, Hv. cbn.
  destruct (em_begin e !! em_pos e) as [slot|] eqn:Hp.
  - assert (Hs : is_Some (slot_table w !! slot)).
    { destruct (inv_vectors w HI _ _ Hv) as [_ Hf]. rewrite Forall_forall in Hf. apply elem_of_dom, Hf.
      by eapply list_elem_of_lookup_2. }
    destruct Hs as [s ->]. cbn. case_match; eexists; (split; [reflexivity|]); (eapply emission_update; [done|exact Hi| |done]);
      (split; [|split; [|split]]); cbn -[filter]; rewrite ?map_app, ?filter_app, ?T1.
    + symmetry. by apply take_next.
    + by rewrite map_app, T2.
    + by intros ? [= <-].
    + done.
    + symmetry. rewrite Nat.add_0_r, <- Nat.add_1_r. by apply take_next.
    + rewrite map_app, T2. reflexivity.
    + done.
    + done.
  - eexists. split; [reflexivity|]. apply release_inv. eapply emission_update; [done|exact Hi| |done].
    split; [|split; [|split]]; cbn -[filter]; rewrite ?Nat.add_0_r, ?app_nil_r; try done.
    intros _. by apply lookup_ge_None.
Qed.

Lemma invoke_call_ok w i e slot : Inv w -> emissions w !! i = Some e -> em_calling e = Some slot ->
  exists w', invoke_call i w = Some w' /\ Inv w'.
Proof.
  intros HI Hi Hc. pose proof (list_elem_of_lookup_2 _ _ _ Hi) as Hin.
  pose proof (inv_trace w HI e Hin) as (T1 & T2 & T3 & T4). destruct (T3 slot Hc) as [Hp Hr].
  pose proof (inv_running w HI e Hin Hr) as Hv. rewrite Hc in T1, T2.
  assert (Hs : is_Some (slot_table w !! slot)).
  { destruct (inv_vectors w HI _ _ Hv) as [_ Hf]. rewrite Forall_forall in Hf. apply elem_of_dom, Hf.
    by eapply list_elem_of_lookup_2. }
  destruct Hs as [s Hs]. unfold invoke_call. rewrite Hi. cbn. rewrite Hc. cbn. rewrite Hs. cbn.
  eexists. split; [reflexivity|]. eapply emission_update; [done|exact Hi| |done].
  split; [|split; [|split]]; cbn -[filter].
  - rewrite T1. f_equal. lia.
  - by rewrite T2, map_app, app_nil_r.
  - done.
  - intros Hd. unfold running in Hr. congruence.
Qed.

(** ** Runs *)

(** The connected slots after an event: a list, or nothing once the signal is gone. *)
Definition spec (ev : event) (v : option (list nat)) : option (list nat) :=
  match ev, v with
  | Connects slot _, Some v => Some (v ++ [slot])
  | Disconnects slot, Some v => Some (filter (fun s => s <> slot) v)
  | DisconnectsAll, Some v => Some []
  | Destroys, _ => None
  | _, v => v
  end.

Lemma invoke_test_runs i w w' : invoke_test i w = Some w' ->
  exists e, emissions w !! i = Some e /\ running e /\ em_calling e = None.
Proof.
  unfold invoke_test. destruct (emissions w !! i) as [e|]; [|done]. cbn. intros Ht. exists e. split; [done|].
  unfold running. by destruct (em_done e), (em_calling e).
Qed.

Lemma invoke_test_fields i w w' : Inv w -> invoke_test i w = Some w' ->
  slots_ w' = slots_ w /\ connected w' = connected w.
Proof.
  intros HI Ht. unfold invoke_test in Ht. destruct (emissions w !! i) as [e|] eqn:Hi; [|done]. cbn in Ht.
  destruct (em_done e), (em_calling e); try done.
  destruct (vectors w !! em_slots e) as [v|] eqn:Hv; [|done]. cbn in Ht. destruct (v !! em_pos e) as [slot|].
  - destruct (slot_table w !! slot); [|done]. cbn in Ht. by case_match; injection Ht as <-.
  - injection Ht as <-. set (w1 := set_emissions _ w). destruct (release_fields (em_slots e) w1) as (E & _).
    split; [by rewrite E|]. unfold connected. rewrite E. cbn. destruct (slots_ w) as [l|] eqn:Hs; [|done]. cbn.
    rewrite release_lookup, decide_False; [done|]. intros [-> Hz]. by apply use_count_zero in Hz as [Hz _].
Qed.

Lemma happens_ok ev w w' : Inv w -> happens ev w = Some w' -> Inv w' /\ connected w' = spec ev (connected w).
Proof.
  intros HI Hh.
  assert (Hnone : connected w = None -> slots_ w = None).
  { unfold connected. destruct (slots_ w) as [l|] eqn:Hs; [|done]. destruct (inv_slots w HI l Hs) as [v Hv]. cbn. by rewrite Hv. }
  assert (Hcopy : slots_ w = None -> CopyIfNeeded w = None) by (unfold CopyIfNeeded; by intros ->).
  destruct ev as [slot s|slot| | |i|i| |o|o]; cbn in Hh; cbn [spec].
  - destruct (connected w) as [v|] eqn:Hc.
    + destruct (slot_table w !! slot) eqn:Hs; [by unfold Connect in Hh; rewrite Hs, decide_False in Hh|].
      destruct (connect_ok w v slot s HI Hc Hs) as (w1 & E & H1 & H2 & _). by rewrite Hh in E; injection E as <-.
    + unfold Connect, AddSlot, CopyIfNeeded in Hh. cbn in Hh. rewrite Hnone in Hh by done. by case_decide.
  - destruct (connected w) as [v|] eqn:Hc.
    + destruct (disconnect_ok w v slot HI Hc) as (w1 & E & H1 & H2 & _). by rewrite Hh in E; injection E as <-.
    + unfold Disconnect in Hh. rewrite Hnone in Hh by done. by case_match; injection Hh as <-.
  - destruct (connected w) as [v|] eqn:Hc.
    + destruct (disconnect_all_ok w v HI Hc) as (w1 & E & H1 & H2 & _). by rewrite Hh in E; injection E as <-.
    + unfold RemoveAllSlots in Hh. by rewrite Hcopy in Hh by auto.
  - destruct (connected w) as [v|] eqn:Hc.
    + destruct (invoke_ok w v HI Hc) as (l & E & H1). rewrite Hh in E. by injection E as ->.
    + unfold Invoke in Hh. by rewrite Hnone in Hh.
  - destruct (invoke_test_fields i w w' HI Hh) as [_ Hc]. split; [|by rewrite Hc; destruct (connected w)].
    destruct (invoke_test_runs i w w' Hh) as (e & Hi & Hd & Hca).
    destruct (invoke_test_ok w i e HI Hi Hd Hca) as (w1 & E & H1). by rewrite Hh in E; injection E as ->.
  - unfold invoke_call in Hh. destruct (emissions w !! i) as [e|] eqn:Hi; [|done]. cbn in Hh.
    destruct (em_calling e) as [slot|] eqn:Hca; [|done]. destruct (invoke_call_ok w i e slot HI Hi Hca) as (w1 & E & H1).
    unfold invoke_call in E. rewrite Hi in E. cbn in E. rewrite Hca in E. rewrite Hh in E. injection E as <-.
    split; [done|]. cbn in Hh. destruct (slot_table w !! slot); [|done]. injection Hh as <-. change (connected w = spec (Calls i) (connected w)). by destruct (connected w).
  - unfold Destroy in Hh. destruct (slots_ w) as [l|] eqn:Hs; [|done]. injection Hh as <-. split.
    + apply release_inv. destruct HI as [H1 H2 H3 H4]. by split.
    + destruct (release_fields l (set_slots None w)) as (E & _). unfold connected. by rewrite E.
  - injection Hh as <-. split; [|done]. destruct HI as [H1 H2 H3 H4]. by split.
  - injection Hh as <-. split; [|done]. destruct HI as [H1 H2 H3 H4]. by split.
Qed.

Lemma make_inv : Inv make.
Proof.
  split; cbn.
  - intros l [= <-]. rewrite lookup_singleton_eq. eauto.
  - intros e He. by apply elem_of_nil in He.
  - intros e He. by apply elem_of_nil in He.
  - intros l v Hv. apply lookup_singleton_Some in Hv as [_ <-]. split; constructor.
Qed.

Lemma run_ok l : forall w w', Inv w -> run l w = Some w' ->
  Inv w' /\ connected w' = fold_left (fun v ev => spec ev v) l (connected w).
Proof.
  induction l as [|ev l IH]; intros w w' HI Hr; cbn in *; [by injection Hr as <-|].
  destruct (happens ev w) as [w1|] eqn:E; [|done]. cbn in Hr.
  destruct (happens_ok ev w w1 HI E) as [H1 H2]. rewrite <- H2. by apply IH.
Qed.

(** An emission goes on with the vector it began with. *)
Definition same_begin (es es' : list emission) : Prop :=
  forall i e, es !! i = Some e -> exists e', es' !! i = Some e' /\ em_begin e' = em_begin e.

Lemma same_begin_insert es i e e' : es !! i = Some e -> em_begin e' = em_begin e -> same_begin es (<[i := e']> es).
Proof.
  intros Hi Hb j x Hj. destruct (decide (i = j)) as [<-|Hne].
  - rewrite list_lookup_insert_eq by (by eapply lookup_lt_Some). exists e'. split; [done|]. congruence.
  - rewrite list_lookup_insert_ne by done. eauto.
Qed.

Lemma copy_emissions w l v w' : CopyIfNeeded w = Some (l, v, w') -> emissions w' = emissions w.
Proof.
  unfold CopyIfNeeded. destruct (slots_ w) as [l0|]; [|done]. destruct (vectors w !! l0) as [v0|]; [|done].
  case_decide; intros [= <- <- <-]; [done|]. by rewrite (proj2 (proj2 (proj2 (release_fields _ _)))).
Qed.

Lemma happens_begin ev w w' : happens ev w = Some w' -> same_begin (emissions w) (emissions w').
Proof.
  assert (Hsame : forall es es', es' = es -> same_begin es es') by (intros es es' -> i e He; eauto).
  intros Hh. destruct ev as [slot s|slot| | |i|i| |o|o]; cbn in Hh.
  - apply Hsame. unfold Connect, AddSlot in Hh. case_decide; [|done].
    destruct (CopyIfNeeded _) as [[[l v] w1]|] eqn:E; [|done]. injection Hh as <-. by apply copy_emissions in E.
  - apply Hsame. unfold Disconnect, RemoveSlot in Hh. destruct (slot_there slot w); [|by injection Hh as <-].
    destruct (slots_ w); [|by injection Hh as <-].
    destruct (CopyIfNeeded w) as [[[l v] w1]|] eqn:E; [|done]. injection Hh as <-. by apply copy_emissions in E.
  - apply Hsame. unfold RemoveAllSlots in Hh.
    destruct (CopyIfNeeded w) as [[[l v] w1]|] eqn:E; [|done]. injection Hh as <-. by apply copy_emissions in E.
  - unfold Invoke in Hh. destruct (slots_ w) as [l|]; [|done]. destruct (vectors w !! l); [|done]. injection Hh as <-.
    intros i e He. exists e. split; [|done]. by apply lookup_app_l_Some.
  - unfold invoke_test in Hh. destruct (emissions w !! i) as [e|] eqn:Hi; [|done]. cbn in Hh.
    destruct (em_done e), (em_calling e); try done. destruct (vectors w !! em_slots e) as [v|]; [|done]. cbn in Hh.
    destruct (v !! em_pos e) as [slot|]; [destruct (slot_table w !! slot); [|done]; cbn in Hh; case_match|];
      injection Hh as <-; rewrite ?(proj2 (proj2 (proj2 (release_fields _ _)))); by eapply same_begin_insert.
  - unfold invoke_call in Hh. destruct (emissions w !! i) as [e|] eqn:Hi; [|done]. cbn in Hh.
    destruct (em_calling e) as [slot|]; [|done]. cbn in Hh. destruct (slot_table w !! slot); [|done]. injection Hh as <-.
    by eapply same_begin_insert.
  - unfold Destroy in Hh. destruct (slots_ w); [|done]. injection Hh as <-. apply Hsame.
    by rewrite (proj2 (proj2 (proj2 (release_fields _ _)))).
  - injection Hh as <-. by apply Hsame.
  - injection Hh as <-. by apply Hsame.
Qed.

Lemma run_begin l : forall w w', run l w = Some w' -> same_begin (emissions w) (emissions w').
Proof.
  induction l as [|ev l IH]; intros w w' Hr; cbn in Hr; [injection Hr as <-; intros i e; eauto|].
  destruct (happens ev w) as [w1|] eqn:E; [|done]. cbn in Hr. intros i e He.
  destruct (happens_begin ev w w1 E i e He) as (e1 & H1 & <-). by apply (IH w1 w' Hr i e1 H1).
Qed.

(** ** Properties *)

(** C29: Whatever runs in between (connections, disconnections, other emissions, the
    end of the signal), an emission tests the slots that were connected when it began,
    in that order and each once, and calls those that pass; while it runs, its vector is
    there unchanged; when it is done it has tested all of them and called all that
    passed. *)
Theorem emission_runs_snapshot before after w1 w2 :
  run before make = Some w1 -> run (Emits :: after) w1 = Some w2 ->
  exists v e, connected w1 = Some v /\ emissions w2 !! length (emissions w1) = Some e /\ em_begin e = v /\ NoDup v /\
    map fst (em_tested e) `prefix_of` v /\
    map fst (em_called e) `prefix_of` map fst (filter (fun t => t.2 = true) (em_tested e)) /\
    (running e -> vectors w2 !! em_slots e = Some v) /\
    (em_done e = true -> map fst (em_tested e) = v /\
       map fst (em_called e) = map fst (filter (fun t => t.2 = true) (em_tested e))).
Proof.
  intros H1 H2. destruct (run_ok before make w1 make_inv H1) as [HI1 _].
  cbn in H2. destruct (Invoke w1) as [w1'|] eqn:E; [|done]. cbn in H2.
  destruct (connected w1) as [v|] eqn:Hc.
  2: { unfold Invoke in E. unfold connected in Hc. destruct (slots_ w1); [|done]. cbn in Hc. by rewrite Hc in E. }
  destruct (invoke_ok w1 v HI1 Hc) as (l & E' & HI1'). rewrite E in E'. injection E' as ->.
  destruct (run_ok after _ w2 HI1' H2) as [HI2 _].
  destruct (run_begin after _ w2 H2 (length (emissions w1)) (mk_emission l 0 None false v [] [])) as (e & He & Hb).
  { cbn. by rewrite lookup_app_r, Nat.sub_diag by lia. }
  cbn in Hb. subst v. exists (em_begin e), e. do 3 (split; [done|]). split; [exact (proj1 (connected_vector_ok w1 _ HI1 Hc))|].
  pose proof (list_elem_of_lookup_2 _ _ _ He) as Hin.
  destruct (inv_trace w2 HI2 e Hin) as (T1 & T2 & T3 & T4).
  split; [rewrite T1; apply prefix_take|]. split; [rewrite T2; by apply prefix_app_r|].
  split; [by apply inv_running|]. intros Hd.
  destruct (em_calling e) as [slot|]; [destruct (T3 slot eq_refl) as [_ Hr]; unfold running in Hr; congruence|].
  rewrite T1, take_ge, T2, app_nil_r; [done|]. specialize (T4 Hd). lia.
Qed.

(** The copy-on-write vectors implement a list: after any run the connected slots
    are those that the connections and disconnections of the run leave, in order and
    without repetition, whatever emissions were running. *)
Theorem signal_refines_list l w :
  run l make = Some w ->
  connected w = fold_left (fun v ev => spec ev v) l (Some []) /\
  (forall v, connected w = Some v -> NoDup v).
Proof.
  intros Hr. destruct (run_ok l make w make_inv Hr) as [HI Hc]. split; [exact Hc|].
  intros v Hv. exact (proj1 (connected_vector_ok w v HI Hv)).
Qed.

(** No operation runs into a dangling reference: while the signal is there each of
    its operations has a result, and a running emission can always go on, also when the
    signal is gone. *)
Theorem signals_never_stuck l w :
  run l make = Some w ->
  (slots_ w <> None ->
     is_Some (Invoke w) /\ is_Some (RemoveAllSlots w) /\ (forall slot, is_Some (Disconnect slot w)) /\
     (forall slot s, slot_table w !! slot = None -> is_Some (Connect slot s w))) /\
  (forall i e, emissions w !! i = Some e -> running e ->
     is_Some (match em_calling e with Some _ => invoke_call i w | None => invoke_test i w end)).
Proof.
  intros Hr. destruct (run_ok l make w make_inv Hr) as [HI _]. split.
  - intros Hs. assert (exists v, connected w = Some v) as [v Hv].
    { unfold connected. destruct (slots_ w) as [l0|] eqn:E; [|done]. destruct (inv_slots w HI l0 E) as [v Hv]. by exists v. }
    split; [by destruct (invoke_ok w v HI Hv) as (? & -> & _)|].
    split; [by destruct (disconnect_all_ok w v HI Hv) as (? & -> & _)|].
    split; [intros slot; by destruct (disconnect_ok w v slot HI Hv) as (? & -> & _)|].
    intros slot s Hn. by destruct (connect_ok w v slot s HI Hv Hn) as (? & -> & _).
  - intros i e Hi Hrun. destruct (em_calling e) as [slot|] eqn:Hc.
    + by destruct (invoke_call_ok w i e slot HI Hi Hc) as (? & -> & _).
    + by destruct (invoke_test_ok w i e HI Hi Hrun Hc) as (? & -> & _).
Qed.

(** The reference that the test takes to a bound object is gone before the call: the
    object is there when nothing happens between the two, but another thread can end it
    in between, and the function runs without the object it is bound to. *)
Theorem bound_object_may_go w1 w2 w3 i e slot :
  invoke_test i w1 = Some w2 -> emissions w2 !! i = Some e -> em_calling e = Some slot ->
  (invoke_call i w2 = Some w3 -> exists e3, emissions w3 !! i = Some e3 /\ last (em_called e3) = Some (slot, true)) /\
  (forall s, slot_table w2 !! slot = Some s -> weakly_bound s = true ->
     exists w4 e4, run [ObjectGoes (weakly_bound_object s); Calls i] w2 = Some w4 /\
       emissions w4 !! i = Some e4 /\ last (em_called e4) = Some (slot, false)).
Proof.
  intros Ht Hi Hc. split.
  - intros Hcall. unfold invoke_call in Hcall. rewrite Hi in Hcall. cbn in Hcall. rewrite Hc in Hcall. cbn in Hcall.
    destruct (slot_table w2 !! slot) as [s|] eqn:Hs; [|done]. injection Hcall as <-.
    eexists. split; [apply list_lookup_insert_eq; by eapply lookup_lt_Some|]. cbn. rewrite last_snoc. do 2 f_equal.
    unfold invoke_test in Ht. destruct (emissions w1 !! i) as [e1|] eqn:Hi1; [|done]. cbn in Ht.
    destruct (em_done e1), (em_calling e1); try done. destruct (vectors w1 !! em_slots e1) as [v|]; [|done]. cbn in Ht.
    pose proof (lookup_lt_Some _ _ _ Hi1) as Hlt.
    destruct (v !! em_pos e1) as [slot1|].
    + destruct (slot_table w1 !! slot1) as [s1|] eqn:Hs1; [|done]. cbn in Ht.
      destruct (bound_object_there s1 w1) eqn:Hb; injection Ht as <-; cbn in *;
        rewrite list_lookup_insert_eq in Hi by done; injection Hi as <-; cbn in Hc; [|done].
      injection Hc as ->. rewrite Hs1 in Hs. by injection Hs as <-.
    + injection Ht as <-. rewrite (proj2 (proj2 (proj2 (release_fields _ _)))) in Hi. cbn in Hi.
      rewrite list_lookup_insert_eq in Hi by done. by injection Hi as <-.
  - intros s Hs Hb. cbn. unfold invoke_call. cbn. rewrite Hi. cbn. rewrite Hc. cbn. rewrite Hs. cbn.
    eexists _, _. split; [reflexivity|]. split; [apply list_lookup_insert_eq; by eapply lookup_lt_Some|].
    cbn. rewrite last_snoc. do 2 f_equal. unfold bound_object_there. rewrite Hb. apply bool_decide_eq_false. cbn. set_solver.
Qed.

(** ** Witnesses *)

(** Two slots, one of them bound to object 7. *)
Definition two_slots : list event :=
  [NewObject 7; Connects 1 (mk_SlotImpl 0 false); Connects 2 (mk_SlotImpl 7 true)].
(** An emission, while the first slot is disconnected, a third one connected, and the
    object goes. *)
Definition meanwhile : list event :=
  [Tests 0; Disconnects 1; Calls 0; Connects 3 (mk_SlotImpl 0 false); ObjectGoes 7; Tests 0; Tests 0].

Definition at_ (l : list event) : state := match run l make with Some w => w | None => make end.

Lemma emission_runs_snapshot_witness :
  connected (at_ (two_slots ++ Emits :: meanwhile)) = Some [2; 3] /\
  exists v e, connected (at_ two_slots) = Some v /\
    emissions (at_ (two_slots ++ Emits :: meanwhile)) !! length (emissions (at_ two_slots)) = Some e /\
    em_begin e = v /\ NoDup v /\ map fst (em_tested e) `prefix_of` v /\
    map fst (em_called e) `prefix_of` map fst (filter (fun t => t.2 = true) (em_tested e)) /\
    (running e -> vectors (at_ (two_slots ++ Emits :: meanwhile)) !! em_slots e = Some v) /\
    (em_done e = true -> map fst (em_tested e) = v /\
       map fst (em_called e) = map fst (filter (fun t => t.2 = true) (em_tested e))).
Proof.
  split; [reflexivity|]. by apply (emission_runs_snapshot two_slots meanwhile).
Defined.

Lemma signal_refines_list_witness :
  connected (at_ (two_slots ++ Emits :: meanwhile)) =
    fold_left (fun v ev => spec ev v) (two_slots ++ Emits :: meanwhile) (Some []) /\
  (forall v, connected (at_ (two_slots ++ Emits :: meanwhile)) = Some v -> NoDup v).
Proof. by apply (signal_refines_list (two_slots ++ Emits :: meanwhile)). Defined.

Lemma signals_never_stuck_witness :
  (slots_ (at_ (two_slots ++ [Emits; Destroys])) <> None -> False) /\
  is_Some (invoke_test 0 (at_ (two_slots ++ [Emits; Destroys]))).
Proof.
  split; [by intros H|].
  apply (proj2 (signals_never_stuck (two_slots ++ [Emits; Destroys]) (at_ (two_slots ++ [Emits; Destroys])) eq_refl) 0
    (mk_emission 0 0 None false [1; 2] [] []) eq_refl eq_refl).
Defined.

Lemma bound_object_may_go_witness :
  let w1 := at_ (two_slots ++ [Emits; Tests 0; Calls 0]) in
  let w2 := at_ (two_slots ++ [Emits; Tests 0; Calls 0; Tests 0]) in
  exists w4 e4, run [ObjectGoes 7; Calls 0] w2 = Some w4 /\
    emissions w4 !! 0 = Some e4 /\ last (em_called e4) = Some (2, false).
Proof.
  apply (proj2 (bound_object_may_go (at_ (two_slots ++ [Emits; Tests 0; Calls 0]))
    (at_ (two_slots ++ [Emits; Tests 0; Calls 0; Tests 0])) make 0
    (mk_emission 0 1 (Some 2) false [1; 2] [(1, true); (2, true)] [(1, true)]) 2 eq_refl eq_refl eq_refl)
    (mk_SlotImpl 7 true) eq_refl eq_refl).
Defined.
