(* ===== verification/Poller.v ===== *)
(** * The poller and its channels

    Models NetworkInfra/src/poller.cpp and channel.cpp (channel.h): the vector of
    [pollfd]s, the table from descriptors to channels, and the index each channel keeps of
    its entry.  Channels are objects that the loop and the poller share: the model keeps
    them in a table by their address.  What the system's [poll] reports is an argument. *)

From S2P Require Import Prelude.
From stdpp Require Import gmap.

#[local] Open Scope Z_scope.

(** ** channel.h, channel.cpp *)

(** The bits of [poll] (Linux), and [Channel::IOEvent]. *)
Definition POLLIN : Z := 0x1.
Definition POLLPRI : Z := 0x2.
Definition POLLOUT : Z := 0x4.
Definition POLLERR : Z := 0x8.
Definition POLLHUP : Z := 0x10.
Definition POLLNVAL : Z := 0x20.
Definition POLLRDHUP : Z := 0x2000.

Definition None_ : Z := 0.
Definition Read : Z := Z.lor POLLIN POLLPRI.
Definition Write : Z := POLLOUT.

Record Channel := mk_Channel { fd_ : Z; events_ : Z; received_events_ : Z; index_ : Z }.

Definition Channel_make (fd : Z) : Channel := mk_Channel fd None_ None_ (-1).

Definition set_events (e : Z) (c : Channel) : Channel := mk_Channel (fd_ c) e (received_events_ c) (index_ c).
Definition set_received_events (e : Z) (c : Channel) : Channel := mk_Channel (fd_ c) (events_ c) e (index_ c).
Definition set_poller_info_index (i : Z) (c : Channel) : Channel :=
  mk_Channel (fd_ c) (events_ c) (received_events_ c) i.

Definition none_event (c : Channel) : bool := events_ c =? None_.

(** The handlers that [HandleEvents] calls for the events it received, in order. *)
Inductive handler := close_handler | error_handler | read_handler | write_handler.

Definition has (e bits : Z) : bool := negb (Z.land e bits =? 0).

Definition HandleEvents (c : Channel) : list handler :=
  let e := received_events_ c in
  (if has e POLLHUP && negb (has e POLLIN) then [close_handler] else []) ++
  (if has e (Z.lor POLLERR POLLNVAL) then [error_handler] else []) ++
  (if has e (Z.lor (Z.lor POLLIN POLLPRI) POLLRDHUP) then [read_handler] else []) ++
  (if has e POLLOUT then [write_handler] else []).

(** ** poller.cpp *)

Record pollfd := mk_pollfd { fd : Z; events : Z; revents : Z }.

(** The poller, and the channels by their addresses. *)
Record Poller := mk_Poller {
  pfds_ : list pollfd;
  channel_table_ : gmap Z nat;
  channels : gmap nat Channel
}.

Definition make : Poller := mk_Poller [] ∅ ∅.

Definition set_pfds (l : list pollfd) (p : Poller) : Poller := mk_Poller l (channel_table_ p) (channels p).
Definition set_table (t : gmap Z nat) (p : Poller) : Poller := mk_Poller (pfds_ p) t (channels p).
Definition set_channel (id : nat) (c : Channel) (p : Poller) : Poller :=
  mk_Poller (pfds_ p) (channel_table_ p) (<[id := c]> (channels p)).

(** A descriptor that is ignored is stored as a negative number. *)
Definition flip (fd : Z) : Z := - fd - 1.

(** The cast to [short]. *)
Definition short (x : Z) : Z := (x + 2 ^ 15) mod 2 ^ 16 - 2 ^ 15.

(** Dereferencing the pointer to a channel. *)
Definition deref (id : nat) (p : Poller) : outcome Channel := the (channels p !! id).

Definition UpdateChannel (id : nat) (p : Poller) : outcome Poller :=
  channel ← deref id p;
  match channel_table_ p !! fd_ channel with
  | Some _ =>
      pfd ← vec_get (pfds_ p) (index_ channel);
      let pfd := mk_pollfd (fd pfd) (short (events_ channel)) 0 in
      let pfd := if none_event channel then mk_pollfd (flip (fd pfd)) (events pfd) (revents pfd) else pfd in
      pfds ← vec_set (pfds_ p) (index_ channel) pfd;
      Ok (set_pfds pfds p)
  | None =>
      let new_pfd := mk_pollfd (fd_ channel) (short (events_ channel)) 0 in
      let p := set_pfds (pfds_ p ++ [new_pfd]) p in
      let p := set_channel id (set_poller_info_index (Z.of_nat (length (pfds_ p)) - 1) channel) p in
      Ok (set_table (<[fd_ channel := id]> (channel_table_ p)) p)
  end.

Definition RemoveChannel (id : nat) (p : Poller) : outcome Poller :=
  channel ← deref id p;
  let index := index_ channel in
  let size := Z.of_nat (length (pfds_ p)) in
  ensure_check ((0 <=? index) && (index <? size));;
  ensure_check (match channel_table_ p !! fd_ channel with Some _ => true | None => false end);;
  let p := set_table (delete (fd_ channel) (channel_table_ p)) p in
  if index =? size - 1 then Ok (set_pfds (take (length (pfds_ p) - 1) (pfds_ p)) p)
  else
    back ← the (last (pfds_ p));
    let victim_fd := if fd back <? 0 then flip (fd back) else fd back in
    pfds ← swap_at (Z.to_nat index) (length (pfds_ p) - 1) (pfds_ p);
    let p := set_pfds pfds p in
    victim_id ← the (channel_table_ p !! victim_fd);
    victim ← deref victim_id p;
    let p := set_channel victim_id (set_poller_info_index index victim) p in
    Ok (set_pfds (take (length (pfds_ p) - 1) (pfds_ p)) p).

(** The system fills in the [revents]; the count it returns is a parameter. *)
Definition set_revents (r : list Z) (p : Poller) : Poller :=
  set_pfds (zip_with (fun e x => mk_pollfd (fd e) (events e) x) (pfds_ p) r) p.

(** The loop of [FillActiveChannels]. *)
Fixpoint fill_loop (pfds : list pollfd) (active_count : Z) (p : Poller) (active : list nat)
    : outcome (Poller * list nat) :=
  match pfds with
  | [] => Ok (p, active)
  | it :: pfds =>
      if 0 <? active_count then
        if negb (revents it =? None_) then
          ensure_check (match channel_table_ p !! fd it with Some _ => true | None => false end);;
          ch ← the (channel_table_ p !! fd it);
          channel ← deref ch p;
          ensure_check (fd_ channel =? fd it);;
          let p := set_channel ch (set_received_events (revents it) channel) p in
          fill_loop pfds (active_count - 1) p (active ++ [ch])
        else fill_loop pfds active_count p active
      else Ok (p, active)
  end.

Definition FillActiveChannels (active_count : Z) (p : Poller) : outcome (Poller * list nat) :=
  fill_loop (pfds_ p) active_count p [].

(** The operations of a channel: they change its events and update the poller. *)
Definition update_events (f : Z -> Z) (id : nat) (p : Poller) : outcome Poller :=
  channel ← deref id p;
  UpdateChannel id (set_channel id (set_events (f (events_ channel)) channel) p).

Definition EnableReading : nat -> Poller -> outcome Poller := update_events (fun e => Z.lor e Read).
Definition EnableWriting : nat -> Poller -> outcome Poller := update_events (fun e => Z.lor e Write).
Definition DisableWriting : nat -> Poller -> outcome Poller := update_events (fun e => Z.ldiff e Write).
Definition DisableAll : nat -> Poller -> outcome Poller := update_events (fun _ => None_).

(** ** The invariant *)

(** The descriptor of an entry, ignored or not. *)
Definition real (e : pollfd) : Z := if fd e <? 0 then flip (fd e) else fd e.

(** Every entry has its channel, which knows its index, and every channel of the table
    its entry. *)
Record wf (p : Poller) : Prop := {
  wf_entry i e : pfds_ p !! i = Some e ->
    exists id c, channel_table_ p !! real e = Some id /\ channels p !! id = Some c /\
      fd_ c = real e /\ index_ c = Z.of_nat i;
  wf_table f id : channel_table_ p !! f = Some id ->
    exists i e c, channels p !! id = Some c /\ fd_ c = f /\ index_ c = Z.of_nat i /\
      pfds_ p !! i = Some e /\ real e = f
}.

(** What the poller waits for: the events of a descriptor, and whether it is ignored. *)
Definition watches (p : Poller) (f ev : Z) (ignored : bool) : Prop :=
  exists i e, pfds_ p !! i = Some e /\ real e = f /\ events e = ev /\ (fd e <? 0) = ignored.

(** A channel with a descriptor that no other channel of the poller has. *)
Definition channel_ok (id : nat) (c : Channel) (p : Poller) : Prop :=
  channels p !! id = Some c /\ 0 <= fd_ c /\
  (channel_table_ p !! fd_ c = None \/ channel_table_ p !! fd_ c = Some id).

Lemma real_nonneg e : 0 <= real e.
Proof. unfold real, flip. case_bool; lia. Qed.

Lemma real_flip f ev rv : real (mk_pollfd (flip f) ev rv) = real (mk_pollfd f ev rv) /\
  (fd (mk_pollfd (flip f) ev rv) <? 0) = negb (f <? 0).
Proof. unfold real, flip; cbn. destruct (f <? 0) eqn:E1, (- f - 1 <? 0) eqn:E2; zify_bool; cbn; split; lia. Qed.

(** Different entries are of different descriptors. *)
Lemma real_inj p i j e e' : wf p -> pfds_ p !! i = Some e -> pfds_ p !! j = Some e' -> real e = real e' -> i = j.
Proof.
  intros Hw Hi Hj E. destruct (wf_entry p Hw i e Hi) as (id & c & H1 & H2 & _ & H3).
  destruct (wf_entry p Hw j e' Hj) as (id' & c' & H1' & H2' & _ & H3'). rewrite E in H1. rewrite H1 in H1'.
  injection H1' as <-. rewrite H2 in H2'. injection H2' as <-. lia.
Qed.

Lemma set_channel_wf id c c' p : wf p -> channels p !! id = Some c -> fd_ c' = fd_ c -> index_ c' = index_ c ->
  wf (set_channel id c' p).
Proof.
  intros [H1 H2] Hc Ef Ei. split; cbn.
  - intros i e He. destruct (H1 i e He) as (id' & d & Ht & Hd & Hf & Hx). exists id'.
    destruct (decide (id' = id)) as [->|Hne].
    + rewrite lookup_insert_eq. rewrite Hc in Hd. injection Hd as <-. exists c'. repeat split; congruence.
    + rewrite lookup_insert_ne by done. eauto.
  - intros f id' Ht. destruct (H2 f id' Ht) as (i & e & d & Hd & Hf & Hx & He & Hr). exists i, e.
    destruct (decide (id' = id)) as [->|Hne].
    + rewrite lookup_insert_eq. rewrite Hc in Hd. injection Hd as <-. exists c'. repeat split; congruence.
    + rewrite lookup_insert_ne by done. eauto 10.
Qed.

(** An entry replaced by one of the same descriptor. *)
Lemma set_entry_wf i e e' p : wf p -> pfds_ p !! i = Some e -> real e' = real e ->
  wf (set_pfds (<[i := e']> (pfds_ p)) p).
Proof.
  intros [H1 H2] Hi Er. pose proof (lookup_lt_Some _ _ _ Hi) as Hlt. split; cbn.
  - intros j d Hj. apply list_lookup_insert_Some in Hj as [(<- & <- & _)|[_ Hj]]; [rewrite Er; by apply H1|by apply H1].
  - intros f id Ht. destruct (H2 f id Ht) as (j & d & c & Hc & Hf & Hx & Hd & Hr).
    destruct (decide (i = j)) as [<-|Hne].
    + exists i, e', c. rewrite list_lookup_insert_eq by done. repeat split; try done. congruence.
    + exists j, d, c. by rewrite list_lookup_insert_ne.
Qed.

Lemma set_entry_watches i e e' p f ev ig : wf p -> pfds_ p !! i = Some e -> real e' = real e ->
  watches (set_pfds (<[i := e']> (pfds_ p)) p) f ev ig <->
  (f = real e /\ ev = events e' /\ ig = (fd e' <? 0)) \/ (f <> real e /\ watches p f ev ig).
Proof.
  intros Hw Hi Er. pose proof (lookup_lt_Some _ _ _ Hi) as Hlt. unfold watches; cbn. split.
  - intros (j & d & Hj & Hr & Hev & Hig). apply list_lookup_insert_Some in Hj as [(<- & <- & _)|[Hne Hj]].
    + left. repeat split; congruence.
    + right. split; [|by exists j, d]. intros ->. apply Hne. by eapply real_inj.
  - intros [(-> & -> & ->)|[Hne (j & d & Hj & Hr & Hev & Hig)]].
    + exists i, e'. by rewrite list_lookup_insert_eq.
    + exists j, d. rewrite list_lookup_insert_ne; [done|]. intros <-. rewrite Hi in Hj. congruence.
Qed.

(** A registered channel: its entry gets its events; the sign of the descriptor changes
    when it has none. *)
Lemma update_registered id c p : wf p -> channels p !! id = Some c -> channel_table_ p !! fd_ c = Some id ->
  exists i e p', pfds_ p !! i = Some e /\ real e = fd_ c /\ index_ c = Z.of_nat i /\
    UpdateChannel id p = Ok p' /\ wf p' /\ channels p' = channels p /\ channel_table_ p' = channel_table_ p /\
    forall f ev ig, watches p' f ev ig <->
      (f = fd_ c /\ ev = short (events_ c) /\ ig = xorb (none_event c) (fd e <? 0)) \/
      (f <> fd_ c /\ watches p f ev ig).
Proof.
  intros Hw Hc Ht. destruct (wf_table p Hw _ _ Ht) as (i & e & d & Hd & _ & Hx & Hi & Hr).
  rewrite Hc in Hd. injection Hd as <-. pose proof (lookup_lt_Some _ _ _ Hi) as Hlt.
  set (e' := if none_event c then mk_pollfd (flip (fd e)) (short (events_ c)) 0 else mk_pollfd (fd e) (short (events_ c)) 0).
  assert (Hr' : real e' = real e /\ (fd e' <? 0) = xorb (none_event c) (fd e <? 0) /\ events e' = short (events_ c)).
  { subst e'. destruct (none_event c); [|done]. destruct (real_flip (fd e) (short (events_ c)) 0) as [-> ->].
    split; [done|]. by destruct (fd e <? 0). }
  destruct Hr' as (Hr' & Hs & He).
  exists i, e, (set_pfds (<[i := e']> (pfds_ p)) p). do 3 (split; [done|]). split.
  { unfold UpdateChannel, deref. rewrite Hc. cbn [the]. rewrite bind_ok, Ht, Hx.
    rewrite (vec_get_ok _ _ e) by (by rewrite vat_nat). rewrite bind_ok.
    rewrite vec_set_ok by lia. rewrite bind_ok, Nat2Z.id. subst e'. by destruct (none_event c). }
  split; [by eapply set_entry_wf|]. do 2 (split; [done|]). intros f ev ig. rewrite (set_entry_watches i e) by done.
  by rewrite He, Hs, Hr.
Qed.

(** A new channel gets an entry at the end. *)
Lemma update_new id c p : wf p -> channels p !! id = Some c -> 0 <= fd_ c -> channel_table_ p !! fd_ c = None ->
  exists p', UpdateChannel id p = Ok p' /\ wf p' /\ channel_table_ p' = <[fd_ c := id]> (channel_table_ p) /\
    (exists c', channels p' = <[id := c']> (channels p) /\ fd_ c' = fd_ c /\ events_ c' = events_ c) /\
    forall f ev ig, watches p' f ev ig <->
      (f = fd_ c /\ ev = short (events_ c) /\ ig = false) \/ (f <> fd_ c /\ watches p f ev ig).
Proof.
  intros Hw Hc H0 Ht. unfold UpdateChannel, deref. rewrite Hc. cbn [the]. rewrite bind_ok, Ht.
  set (e := mk_pollfd (fd_ c) (short (events_ c)) 0). cbn [pfds_ set_pfds].
  rewrite length_app. cbn [length]. replace (Z.of_nat (length (pfds_ p) + 1) - 1) with (Z.of_nat (length (pfds_ p))) by lia.
  assert (Hre : real e = fd_ c) by (unfold real; cbn; case_bool; [lia|done]).
  destruct Hw as [H1 H2]. eexists. split; [reflexivity|].
  assert (Hnot : forall f, channel_table_ p !! f <> Some id).
  { intros f Hf. destruct (H2 f id Hf) as (_ & _ & d & Hd & Hfd & _). rewrite Hc in Hd. injection Hd as <-. congruence. }
  split; [split; cbn|].
  - intros i d Hi. apply lookup_app_Some in Hi as [Hi|[Hge Hi]].
    + destruct (H1 i d Hi) as (id' & ch & Hid & Hch & Hf & Hx).
      assert (id' <> id) by (intros ->; by apply (Hnot (real d))).
      exists id', ch. rewrite lookup_insert_ne by congruence. by rewrite lookup_insert_ne.
    + apply list_lookup_singleton_Some in Hi as [Hz <-]. rewrite Hre. exists id. eexists.
      rewrite !lookup_insert_eq. do 2 (split; [done|]). cbn. split; [done|]. f_equal. lia.
  - intros f id' Hf. apply lookup_insert_Some in Hf as [[<- <-]|[Hne Hf]].
    + exists (length (pfds_ p)), e. eexists. rewrite lookup_insert_eq. split; [done|]. cbn. split; [done|]. split; [done|].
      split; [|done]. by rewrite lookup_app_r, Nat.sub_diag by lia.
    + destruct (H2 f id' Hf) as (i & d & ch & Hch & Hfd & Hx & Hi & Hr). exists i, d, ch.
      rewrite lookup_insert_ne by (intros <-; by apply (Hnot f)). repeat split; try done. by apply lookup_app_l_Some.
  - split; [done|]. split; [eexists; by split|]. intros f ev ig. unfold watches; cbn. split.
    + intros (i & d & Hi & Hr & Hev & Hig). apply lookup_app_Some in Hi as [Hi|[_ Hi]].
      * right. split; [|by exists i, d]. intros ->. destruct (H1 i d Hi) as (id' & _ & Hid & _). by rewrite Hr, Ht in Hid.
      * apply list_lookup_singleton_Some in Hi as [_ <-]. left. cbn in *. split; [congruence|]. split; [done|].
        rewrite <- Hig. by apply Z.ltb_ge.
    + intros [(-> & -> & ->)|[_ (i & d & Hi & Hr & Hev & Hig)]].
      * exists (length (pfds_ p)), e. rewrite lookup_app_r, Nat.sub_diag by lia. repeat split; [done|]. by apply Z.ltb_ge.
      * exists i, d. repeat split; try done. by apply lookup_app_l_Some.
Qed.

(** ** Removal *)

(** The last entry takes the place of the removed one. *)
Definition remove_at {A} (i : nat) (l : list A) : list A :=
  match last l with
  | Some back => if decide (i = length l - 1)%nat then take (length l - 1) l else <[i := back]> (take (length l - 1) l)
  | None => l
  end.

Lemma remove_at_lookup {A} (l : list A) i back j x :
  last l = Some back -> (i < length l)%nat ->
  remove_at i l !! j = Some x <->
  (j < length l - 1)%nat /\ ((j = i /\ x = back) \/ (j <> i /\ l !! j = Some x)).
Proof.
  intros Hb Hi. unfold remove_at. rewrite Hb. case_decide as Hd.
  - rewrite lookup_take_Some. split; [intros [H1 H2]; split; [done|right; split; [lia|done]]|intros [H1 [[-> _]|[_ H2]]]; [lia|done]].
  - rewrite list_lookup_insert_Some, lookup_take_Some, length_take. split.
    + intros [(<- & <- & H1)|(Hne & H1 & H2)]; [split; [lia|by left]|split; [done|right; by split]].
    + intros [H1 [[-> ->]|[Hne H2]]]; [left; repeat split; lia|right; by repeat split].
Qed.

(** What [RemoveChannel] computes: the entries, and the channel of the last entry with
    its new index. *)
Lemma remove_runs id c p : wf p -> channels p !! id = Some c -> channel_table_ p !! fd_ c = Some id ->
  exists i back vid v, index_ c = Z.of_nat i /\ (i < length (pfds_ p))%nat /\ last (pfds_ p) = Some back /\
    channel_table_ p !! real back = Some vid /\ channels p !! vid = Some v /\
    index_ v = Z.of_nat (length (pfds_ p) - 1) /\
    RemoveChannel id p = Ok (mk_Poller (remove_at i (pfds_ p)) (delete (fd_ c) (channel_table_ p))
      (if decide (i = length (pfds_ p) - 1)%nat then channels p
       else <[vid := set_poller_info_index (Z.of_nat i) v]> (channels p))).
Proof.
  intros Hw Hc Ht. destruct (wf_table p Hw _ _ Ht) as (i & e & d & Hd & _ & Hx & Hi & Hr).
  rewrite Hc in Hd. injection Hd as <-. pose proof (lookup_lt_Some _ _ _ Hi) as Hlt.
  destruct (lookup_lt_is_Some_2 (pfds_ p) (length (pfds_ p) - 1)) as [back Hb]; [lia|].
  destruct (wf_entry p Hw _ _ Hb) as (vid & v & Hvt & Hvc & Hvf & Hvi).
  assert (Hlast : last (pfds_ p) = Some back) by (rewrite last_lookup; by replace (pred (length (pfds_ p))) with (length (pfds_ p) - 1)%nat by lia).
  exists i, back, vid, v. do 6 (split; [done|]). unfold RemoveChannel, deref. rewrite Hc. cbn [the]. rewrite bind_ok, Hx.
  rewrite (proj2 (Z.leb_le 0 (Z.of_nat i))) by lia. rewrite (proj2 (Z.ltb_lt (Z.of_nat i) _)) by lia.
  cbn [andb ensure_check]. rewrite bind_ok, Ht. cbn [ensure_check]. rewrite bind_ok. cbn [pfds_ set_table set_pfds].
  unfold remove_at. rewrite Hlast. case_decide as Hd.
  - rewrite (proj2 (Z.eqb_eq _ _)) by lia. done.
  - rewrite (proj2 (Z.eqb_neq _ _)) by lia. cbn [the]. rewrite bind_ok, Nat2Z.id.
    unfold swap_at. rewrite Hi, Hb. cbn [the]. rewrite !bind_ok. cbn [channel_table_ set_table set_pfds].
    change (if fd back <? 0 then flip (fd back) else fd back) with (real back).
    assert (Hne : real back <> fd_ c).
    { intros E. apply Hd. eapply real_inj; [done|exact Hi|exact Hb|congruence]. }
    rewrite lookup_delete_ne by congruence. rewrite Hvt. cbn [the]. rewrite bind_ok. cbn [channels set_pfds set_table].
    rewrite Hvc. cbn [the]. rewrite bind_ok. cbn [pfds_ set_channel set_pfds]. rewrite !length_insert.
    unfold set_pfds, set_channel, set_table. cbn. repeat f_equal.
    rewrite take_insert_lt by lia. f_equal. apply take_insert_ge. lia.
Qed.

(** Where the entry at [j] is after the removal of the one at [i]. *)
Definition moved (p : Poller) (i j : nat) : nat := if decide (j = length (pfds_ p) - 1)%nat then i else j.

Lemma last_entry (p : Poller) back : last (pfds_ p) = Some back -> pfds_ p !! (length (pfds_ p) - 1)%nat = Some back.
Proof. intros Hb. rewrite last_lookup in Hb. by replace (length (pfds_ p) - 1)%nat with (pred (length (pfds_ p))) by lia. Qed.

(** The other entries stay, at the place [moved]. *)
Lemma removed_entries p i e back : wf p -> pfds_ p !! i = Some e -> last (pfds_ p) = Some back ->
  (forall j x, pfds_ p !! j = Some x -> real x <> real e -> remove_at i (pfds_ p) !! moved p i j = Some x) /\
  (forall j x, remove_at i (pfds_ p) !! j = Some x ->
     real x <> real e /\ exists k, pfds_ p !! k = Some x /\ j = moved p i k).
Proof.
  intros Hw Hi Hb. pose proof (lookup_lt_Some _ _ _ Hi) as Hlt. pose proof (last_entry p back Hb) as Hlast.
  unfold moved. split; intros j x Hj.
  - intros Hne. pose proof (lookup_lt_Some _ _ _ Hj) as Hjl. assert (j <> i) by (intros ->; congruence).
    rewrite (remove_at_lookup _ _ back) by done. case_decide as Hd; [|split; [lia|by right]].
    subst j. rewrite Hlast in Hj. injection Hj as <-. split; [lia|by left].
  - apply (remove_at_lookup _ _ back) in Hj as [Hjl [[-> ->]|[Hne Hj]]]; [| |done|done].
    + split; [|by exists (length (pfds_ p) - 1)%nat; rewrite decide_True].
      intros E. assert (i = length (pfds_ p) - 1)%nat; [|lia]. eapply real_inj; [done|exact Hi|exact Hlast|congruence].
    + split; [|by exists j; rewrite decide_False by lia]. intros E. apply Hne. by eapply real_inj.
Qed.

(** The channels after the removal: the one of the last entry has a new index. *)
Lemma removed_channels p i vid v : channels p !! vid = Some v ->
  forall id c, channels p !! id = Some c ->
  exists d, (if decide (i = length (pfds_ p) - 1)%nat then channels p
             else <[vid := set_poller_info_index (Z.of_nat i) v]> (channels p)) !! id = Some d /\
    fd_ d = fd_ c /\ events_ d = events_ c /\
    index_ d = if decide (id = vid /\ i <> length (pfds_ p) - 1)%nat then Z.of_nat i else index_ c.
Proof.
  intros Hv id c Hc. destruct (decide (i = length (pfds_ p) - 1)%nat) as [Hd|Hd].
  - exists c. rewrite decide_False by tauto. done.
  - destruct (decide (id = vid)) as [->|Hne].
    + rewrite lookup_insert_eq, decide_True by done. rewrite Hv in Hc. injection Hc as <-. by eexists.
    + rewrite lookup_insert_ne by done. exists c. rewrite decide_False by tauto. done.
Qed.

Lemma remove_ok id c p : wf p -> channels p !! id = Some c -> channel_table_ p !! fd_ c = Some id ->
  exists p', RemoveChannel id p = Ok p' /\ wf p' /\ channel_table_ p' = delete (fd_ c) (channel_table_ p) /\
    (forall id' c', channels p !! id' = Some c' ->
       exists d, channels p' !! id' = Some d /\ fd_ d = fd_ c' /\ events_ d = events_ c') /\
    forall f ev ig, watches p' f ev ig <-> f <> fd_ c /\ watches p f ev ig.
Proof.
  intros Hw Hc Ht. destruct (remove_runs id c p Hw Hc Ht) as (i & back & vid & v & Hx & Hlt & Hb & Hvt & Hvc & Hvi & ->).
  set (p' := mk_Poller _ _ _). exists p'. split; [done|].
  destruct (wf_table p Hw _ _ Ht) as (i0 & e & d & Hd & _ & Hx0 & Hi & Hr). rewrite Hc in Hd. injection Hd as <-.
  assert (i0 = i) as -> by lia. clear Hx0. pose proof (last_entry p back Hb) as Hlast.
  destruct (removed_entries p i e back Hw Hi Hb) as [Hkeep Hback]. rewrite Hr in *.
  pose proof (removed_channels p i vid v Hvc) as Hchan.
  assert (Hvid : forall k x id' ch, pfds_ p !! k = Some x -> channel_table_ p !! real x = Some id' ->
    channels p !! id' = Some ch -> index_ ch = Z.of_nat k -> real x <> fd_ c ->
    (if decide (id' = vid /\ i <> length (pfds_ p) - 1)%nat then Z.of_nat i else index_ ch) = Z.of_nat (moved p i k)).
  { intros k x id' ch Hk Hid Hch Hxk Hne. unfold moved. destruct (decide (k = length (pfds_ p) - 1)%nat) as [->|Hkn].
    - rewrite Hlast in Hk. injection Hk as <-. rewrite Hvt in Hid. injection Hid as <-.
      rewrite decide_True; [done|]. split; [done|]. intros ->. rewrite Hlast in Hi. injection Hi as ->. congruence.
    - rewrite decide_False; [done|]. intros [-> _]. rewrite Hvc in Hch. injection Hch as <-. lia. }
  split; [split|split; [done|split]].
  - intros j x Hj. destruct (Hback j x Hj) as (Hne & k & Hk & ->).
    destruct (wf_entry p Hw k x Hk) as (id' & ch & Hid & Hch & Hf & Hxk).
    destruct (Hchan id' ch Hch) as (d & Hd & Hfd & _ & Hix). exists id', d. split; [by apply lookup_delete_Some|].
    split; [done|]. split; [congruence|]. rewrite Hix. by eapply Hvid.
  - intros f id' Hf. cbn in Hf. apply lookup_delete_Some in Hf as [Hne Hf].
    destruct (wf_table p Hw f id' Hf) as (k & x & ch & Hch & Hfc & Hxk & Hk & Hrx).
    pose proof (Hkeep k x Hk ltac:(congruence)) as Hj.
    destruct (Hchan id' ch Hch) as (d & Hd & Hfd & _ & Hix). eexists _, x, d. split; [done|]. split; [congruence|].
    split; [|by split]. rewrite Hix. eapply Hvid; try done; congruence.
  - intros id' c' Hc'. destruct (Hchan id' c' Hc') as (d & Hd & Hf & He & _). by exists d.
  - intros f ev ig. unfold watches. split.
    + intros (j & x & Hj & Hrx & Hev & Hig). destruct (Hback j x Hj) as (Hne & k & Hk & _).
      split; [congruence|by exists k, x].
    + intros (Hne & k & x & Hk & Hrx & Hev & Hig). pose proof (Hkeep k x Hk ltac:(congruence)) as Hj. by exists (moved p i k), x.
Qed.

(** ** Active channels *)

Definition active (e : pollfd) : Prop := revents e <> None_.
#[local] Instance active_dec e : Decision (active e).
Proof. unfold active. apply _. Defined.

Definition count_active (pfds : list pollfd) : Z := Z.of_nat (length (filter active pfds)).

(** The channel of an entry was told its events. *)
Definition told (p : Poller) (id : nat) (e : pollfd) : Prop :=
  channel_table_ p !! real e = Some id /\ exists c, channels p !! id = Some c /\ received_events_ c = revents e.

Lemma fill_loop_ok pfds : forall p l, wf p ->
  (forall e, e ∈ pfds -> e ∈ pfds_ p /\ (active e -> 0 <= fd e)) -> NoDup (map real pfds) ->
  exists p' ids, fill_loop pfds (count_active pfds) p l = Ok (p', l ++ ids) /\ wf p' /\
    pfds_ p' = pfds_ p /\ channel_table_ p' = channel_table_ p /\
    Forall2 (told p') ids (filter active pfds) /\
    (forall id c, channels p !! id = Some c -> exists c', channels p' !! id = Some c' /\
       fd_ c' = fd_ c /\ events_ c' = events_ c /\ index_ c' = index_ c /\ (id ∉ ids -> c' = c)).
Proof.
  induction pfds as [|it pfds IH]; intros p l Hw Hin Hnd; cbn [fill_loop].
  { exists p, []. rewrite app_nil_r. do 5 (split; [done || constructor|]). intros id c Hc. by exists c. }
  apply NoDup_cons in Hnd as [Hit Hnd].
  destruct (Hin it ltac:(left)) as [Hp Hfd]. unfold count_active. rewrite filter_cons.
  destruct (decide (active it)) as [Ha|Ha].
  - rewrite (proj2 (Z.ltb_lt _ _)) by (cbn [length]; lia). rewrite (proj2 (Z.eqb_neq _ _)) by exact Ha. cbn [negb].
    apply list_elem_of_lookup in Hp as [i Hp]. destruct (wf_entry p Hw i it Hp) as (id & c & Ht & Hc & Hf & Hx).
    assert (Hre : real it = fd it) by (unfold real; specialize (Hfd Ha); case_bool; [lia|done]).
    rewrite Hre in Ht, Hf. rewrite Ht. cbn [ensure_check the]. rewrite !bind_ok. unfold deref at 1. rewrite Hc. cbn [the].
    rewrite bind_ok, Hf, Z.eqb_refl. cbn [ensure_check]. rewrite bind_ok. cbn [length].
    set (c1 := set_received_events (revents it) c). set (p1 := set_channel id c1 p).
    replace (Z.of_nat (S (length (filter active pfds))) - 1) with (count_active pfds) by (unfold count_active; lia).
    assert (Hw1 : wf p1) by by eapply set_channel_wf.
    destruct (IH p1 (l ++ [id]) Hw1 ltac:(intros e He; apply Hin; by right) Hnd) as (p' & ids & -> & H1 & H2 & H3 & H4 & H5).
    exists p', (id :: ids). rewrite <- app_assoc. do 2 (split; [done|]). do 2 (split; [done|]).
    assert (Hid : id ∉ ids).
    { intros Hid. apply list_elem_of_lookup in Hid as [k Hk]. destruct (Forall2_lookup_l _ _ _ _ _ H4 Hk) as (e & He & Htold & _).
      rewrite H3 in Htold. cbn in Htold. apply list_elem_of_lookup_2, list_elem_of_filter in He as [_ He].
      assert (real e = real it).
      { destruct (wf_table p Hw _ _ Ht) as (_ & _ & d & Hd & Hfd1 & _). destruct (wf_table p Hw _ _ Htold) as (_ & _ & d' & Hd' & Hfd2 & _).
        rewrite Hd in Hd'. injection Hd' as <-. congruence. }
      apply Hit. apply list_elem_of_fmap. by exists e. }
    split.
    + constructor; [|done]. split; [by rewrite H3, Hre|].
      destruct (H5 id c1) as (c' & Hc' & _ & _ & _ & Hsame); [apply lookup_insert_eq|]. exists c'. split; [done|].
      by rewrite (Hsame Hid).
    + intros id' d Hd. destruct (decide (id' = id)) as [->|Hne].
      * rewrite Hc in Hd. injection Hd as <-. destruct (H5 id c1) as (c' & Hc' & E1 & E2 & E3 & _); [apply lookup_insert_eq|].
        exists c'. repeat (split; [done|]). intros Hn. exfalso. apply Hn. left.
      * destruct (H5 id' d) as (c' & Hc' & E1 & E2 & E3 & E4); [cbn; by rewrite lookup_insert_ne|].
        exists c'. do 4 (split; [done|]). intros Hn. apply E4. intros Hi. apply Hn. by right.
  - unfold active in Ha. assert (Hz : revents it = None_) by (destruct (decide (revents it = None_)); tauto).
    rewrite (proj2 (Z.eqb_eq _ _) Hz). cbn [negb].
    destruct (IH p l Hw ltac:(intros e He; apply Hin; by right) Hnd) as (p' & ids & E & H1 & H2 & H3 & H4 & H5).
    case_bool; [by exists p', ids|].
    assert (Hnil : filter active pfds = []) by (destruct (filter active pfds); [done|cbn in *; lia]).
    exists p, []. rewrite app_nil_r, Hnil. do 4 (split; [done|]). split; [constructor|]. intros id c Hc. by exists c.
Qed.

(** ** Programs that use a poller *)

(** [Channel_make], the operations that change the events, and [RemoveChannel].  A
    channel is at a new address, and its descriptor is not that of a registered one. *)
Inductive step : Poller -> Poller -> Prop :=
| step_make p id fd : channels p !! id = None -> 0 <= fd -> channel_table_ p !! fd = None ->
    step p (set_channel id (Channel_make fd) p)
| step_update p p' id c f : channel_ok id c p -> update_events f id p = Ok p' -> step p p'
| step_remove p p' id c : channel_ok id c p -> channel_table_ p !! fd_ c = Some id -> RemoveChannel id p = Ok p' -> step p p'.

Inductive reachable : Poller -> Prop :=
| reachable_make : reachable make
| reachable_step p p' : reachable p -> step p p' -> reachable p'.

Lemma new_channel_wf p id c : wf p -> channels p !! id = None -> wf (set_channel id c p).
Proof.
  intros [H1 H2] Hn. split; cbn.
  - intros i e He. destruct (H1 i e He) as (id' & d & Ht & Hd & Hf & Hx). exists id', d.
    by rewrite lookup_insert_ne by congruence.
  - intros f id' Ht. destruct (H2 f id' Ht) as (i & e & d & Hd & Hf & Hx & He & Hr). exists i, e, d.
    by rewrite lookup_insert_ne by congruence.
Qed.

(** The change of the events of a channel, and its update. *)
Lemma update_events_ok id c f p : wf p -> channel_ok id c p ->
  exists p', update_events f id p = Ok p' /\ wf p' /\ channel_table_ p' !! fd_ c = Some id /\
    (exists c', channels p' !! id = Some c' /\ fd_ c' = fd_ c /\ events_ c' = f (events_ c)) /\
    forall g ev ig, watches p' g ev ig <->
      (g = fd_ c /\ ev = short (f (events_ c)) /\
       match channel_table_ p !! fd_ c with
       | None => ig = false
       | Some _ => exists ev0 ig0, watches p (fd_ c) ev0 ig0 /\ ig = xorb (f (events_ c) =? None_) ig0
       end) \/ (g <> fd_ c /\ watches p g ev ig).
Proof.
  intros Hw (Hc & H0 & Ht). unfold update_events, deref. rewrite Hc. cbn [the]. rewrite bind_ok.
  set (c1 := set_events (f (events_ c)) c). set (p1 := set_channel id c1 p).
  assert (Hw1 : wf p1) by by eapply set_channel_wf.
  assert (Hc1 : channels p1 !! id = Some c1) by apply lookup_insert_eq.
  destruct Ht as [Ht|Ht]; rewrite Ht.
  - destruct (update_new id c1 p1 Hw1 Hc1 H0 Ht) as (p' & E & Hw' & Htab & (c' & Hch & Hf & He) & Hwat).
    exists p'. do 2 (split; [done|]). split; [rewrite Htab; apply lookup_insert_eq|]. split; [|done].
    exists c'. rewrite Hch. split; [apply lookup_insert_eq|done].
  - destruct (update_registered id c1 p1 Hw1 Hc1 Ht) as (i & e & p' & Hi & Hre & Hx & E & Hw' & Hch & Htab & Hwat).
    exists p'. do 2 (split; [done|]). split; [by rewrite Htab|]. split; [exists c1; by rewrite Hch|].
    change (fd_ c1) with (fd_ c) in Hre. intros g ev ig. rewrite Hwat. split; (intros [(-> & -> & H1)|H1]; [left|by right]); (split; [done|split; [done|]]).
    + exists (events e), (fd e <? 0). split; [by exists i, e|]. done.
    + destruct H1 as (ev0 & ig0 & (j & e' & Hj & Hrj & _ & <-) & ->).
      assert (j = i) as -> by (eapply (real_inj p); [done|exact Hj|exact Hi|congruence]).
      change (pfds_ p1) with (pfds_ p) in Hi. rewrite Hi in Hj. injection Hj as <-. done.
Qed.

(** The same with what a client keeps of the other channels: they do not change. *)
Lemma update_events_frame id c f p : wf p -> channel_ok id c p ->
  exists p', update_events f id p = Ok p' /\ wf p' /\ channel_table_ p' = <[fd_ c := id]> (channel_table_ p) /\
    (exists c', channels p' !! id = Some c' /\ fd_ c' = fd_ c /\ events_ c' = f (events_ c)) /\
    forall id', id' <> id -> channels p' !! id' = channels p !! id'.
Proof.
  intros Hw (Hc & H0 & Ht). unfold update_events, deref. rewrite Hc. cbn [the]. rewrite bind_ok.
  set (c1 := set_events (f (events_ c)) c). set (p1 := set_channel id c1 p).
  assert (Hw1 : wf p1) by by eapply set_channel_wf.
  assert (Hc1 : channels p1 !! id = Some c1) by apply lookup_insert_eq.
  assert (Hne : forall id', id' <> id -> channels p1 !! id' = channels p !! id') by (intros; by apply lookup_insert_ne).
  destruct Ht as [Ht|Ht].
  - destruct (update_new id c1 p1 Hw1 Hc1 H0 Ht) as (p' & E & Hw' & Htab & (c' & Hch & Hf & He) & _).
    exists p'. do 3 (split; [done|]). rewrite Hch. split; [exists c'; by rewrite lookup_insert_eq|].
    intros id' Hn. by rewrite lookup_insert_ne, Hne.
  - destruct (update_registered id c1 p1 Hw1 Hc1 Ht) as (i & e & p' & _ & _ & _ & E & Hw' & Hch & Htab & _).
    exists p'. do 2 (split; [done|]). rewrite Htab, Hch. split; [by rewrite insert_id|]. split; [by exists c1|done].
Qed.

(** A channel that is not in the table can be destroyed. *)
Definition drop_channel (id : nat) (p : Poller) : Poller := mk_Poller (pfds_ p) (channel_table_ p) (delete id (channels p)).

Lemma drop_channel_wf id p : wf p -> (forall f, channel_table_ p !! f <> Some id) -> wf (drop_channel id p).
Proof.
  intros [H1 H2] Hn. split; cbn.
  - intros i e He. destruct (H1 i e He) as (id' & d & Ht & Hd & Hf & Hx). exists id', d.
    rewrite lookup_delete_ne; [done|]. intros ->. by apply Hn in Ht.
  - intros f id' Ht. destruct (H2 f id' Ht) as (i & e & d & Hd & Hf & Hx & He & Hr). exists i, e, d.
    rewrite lookup_delete_ne; [done|]. intros ->. by apply Hn in Ht.
Qed.

Lemma reachable_wf p : reachable p -> wf p.
Proof.
  induction 1 as [|p p' _ Hw Hs]; [by split|]. destruct Hs as [p id fd Hn _ _|p p' id c f Hok E|p p' id c Hok Ht E].
  - by apply new_channel_wf.
  - destruct (update_events_ok id c f p Hw Hok) as (q & E' & Hq & _). rewrite E in E'. by injection E' as ->.
  - destruct Hok as (Hc & _). destruct (remove_ok id c p Hw Hc Ht) as (q & E' & Hq & _). rewrite E in E'. by injection E' as ->.
Qed.

(** The poller is a table from descriptors to the events it waits for: in any
    reachable state the operations of a channel are defined (no index out of range, no
    dangling entry); changing the events of a channel changes its entry and no other, and
    the entry is there; removing it removes its entry and no other, though the last entry
    moves into its place and its channel gets a new index. *)
Theorem poller_refines_table p id c :
  reachable p -> channel_ok id c p ->
  (forall f, exists p', update_events f id p = Ok p' /\ wf p' /\
     (exists ig, watches p' (fd_ c) (short (f (events_ c))) ig) /\
     forall g ev ig, g <> fd_ c -> (watches p' g ev ig <-> watches p g ev ig)) /\
  (channel_table_ p !! fd_ c = Some id ->
   exists p', RemoveChannel id p = Ok p' /\ wf p' /\ channel_table_ p' = delete (fd_ c) (channel_table_ p) /\
     forall g ev ig, watches p' g ev ig <-> g <> fd_ c /\ watches p g ev ig).
Proof.
  intros Hr Hok. pose proof (reachable_wf p Hr) as Hw. split.
  - intros f. destruct (update_events_ok id c f p Hw Hok) as (p' & E & Hw' & _ & _ & Hwat). exists p'.
    do 2 (split; [done|]). split.
    + destruct (channel_table_ p !! fd_ c) as [id'|] eqn:Ht.
      * destruct (wf_table p Hw _ _ Ht) as (i & e & d & _ & _ & _ & Hi & Hre).
        eexists. apply Hwat. left. do 2 (split; [done|]). exists (events e), (fd e <? 0). split; [by exists i, e|done].
      * exists false. apply Hwat. by left.
    + intros g ev ig Hg. rewrite Hwat. naive_solver.
  - intros Ht. destruct Hok as (Hc & _). destruct (remove_ok id c p Hw Hc Ht) as (p' & E & Hw' & Htab & _ & Hwat).
    exists p'. done.
Qed.

(** The active channels are those of the entries with events, in the order of the
    entries, each told its events; no check fails, provided that the system reports no
    event for an entry that is ignored. *)
Theorem fill_reports_active p r :
  reachable p -> length r = length (pfds_ p) ->
  (forall i e x, pfds_ p !! i = Some e -> r !! i = Some x -> fd e < 0 -> x = None_) ->
  exists p' ids, FillActiveChannels (count_active (pfds_ (set_revents r p))) (set_revents r p) = Ok (p', ids) /\
    wf p' /\ pfds_ p' = pfds_ (set_revents r p) /\ channel_table_ p' = channel_table_ p /\
    Forall2 (told p') ids (filter active (pfds_ p')).
Proof.
  intros Hr Hl Hneg. pose proof (reachable_wf p Hr) as Hw. set (q := set_revents r p).
  assert (Hlk : forall i e', pfds_ q !! i = Some e' -> exists e x, pfds_ p !! i = Some e /\ r !! i = Some x /\
    e' = mk_pollfd (fd e) (events e) x).
  { intros i e' He. apply lookup_zip_with_Some in He as (e & x & -> & He & Hx). eauto. }
  assert (Hq : wf q).
  { split; cbn.
    - intros i e' He. destruct (Hlk i e' He) as (e & x & Hi & _ & ->). by apply (wf_entry p Hw i e Hi).
    - intros f id Ht. destruct (wf_table p Hw f id Ht) as (i & e & c & Hc & Hf & Hx & Hi & Hre).
      destruct (lookup_lt_is_Some_2 r i) as [x Hx']; [rewrite Hl; by eapply lookup_lt_Some|].
      exists i, (mk_pollfd (fd e) (events e) x), c. repeat split; try done. rewrite lookup_zip_with, Hi. cbn. by rewrite Hx'. }
  assert (Hnd : NoDup (map real (pfds_ q))).
  { apply NoDup_alt. intros i j x Hi Hj. apply list_lookup_fmap_Some in Hi as (e & -> & Hi), Hj as (e' & Hx & Hj).
    by eapply (real_inj q). }
  destruct (fill_loop_ok (pfds_ q) q [] Hq) as (p' & ids & E & H1 & H2 & H3 & H4 & _); [|done|].
  - intros e He. split; [done|]. intros Ha. apply list_elem_of_lookup in He as [i He].
    destruct (Hlk i e He) as (e0 & x & Hi & Hx & ->). cbn. destruct (decide (fd e0 < 0)) as [Hlt|]; [|lia].
    exfalso. apply Ha. cbn. by eapply Hneg.
  - exists p', ids. rewrite H2. done.
Qed.

(** The sign that marks an ignored entry is flipped by each update without events
    and by no other: a channel that is disabled and enabled again stays ignored, and one
    that is disabled twice is polled again, for no events. *)
Theorem ignored_is_flipped p id c ev :
  reachable p -> channel_ok id c p -> channel_table_ p !! fd_ c = Some id -> watches p (fd_ c) ev false ->
  exists p1, DisableAll id p = Ok p1 /\ watches p1 (fd_ c) 0 true /\
    (exists p2, EnableReading id p1 = Ok p2 /\ watches p2 (fd_ c) Read true) /\
    (exists p2, DisableAll id p1 = Ok p2 /\ watches p2 (fd_ c) 0 false).
Proof.
  intros Hr Hok Ht Hwat. pose proof (reachable_wf p Hr) as Hw.
  destruct (update_events_ok id c (fun _ => None_) p Hw Hok) as (p1 & E & Hw1 & Ht1 & (c1 & Hc1 & Hf1 & He1) & H1).
  exists p1. split; [done|]. rewrite Ht in H1.
  assert (Hign : watches p1 (fd_ c) 0 true) by (apply H1; left; do 2 (split; [done|]); by exists ev, false).
  split; [done|].
  assert (Hok1 : channel_ok id c1 p1) by (split; [done|rewrite Hf1; split; [apply Hok|by right]]).
  split.
  - destruct (update_events_ok id c1 (fun e => Z.lor e Read) p1 Hw1 Hok1) as (p2 & E2 & _ & _ & _ & H2).
    exists p2. split; [done|]. apply H2. left. rewrite Hf1, He1, Ht1. do 2 (split; [done|]). by exists 0, true.
  - destruct (update_events_ok id c1 (fun _ => None_) p1 Hw1 Hok1) as (p2 & E2 & _ & _ & _ & H2).
    exists p2. split; [done|]. apply H2. left. rewrite Hf1, Ht1. do 2 (split; [done|]). by exists 0, true.
Qed.

(** ** Witnesses *)

Definition ok_or (p : Poller) (r : outcome Poller) : Poller := match r with Ok p => p | _ => p end.

(** Three channels that are read, the first of them removed again. *)
Definition sample_enabled (n : nat) (fd : Z) (p : Poller) : Poller :=
  ok_or p (EnableReading n (set_channel n (Channel_make fd) p)).
Definition sample3 : Poller := sample_enabled 3 7 (sample_enabled 2 6 (sample_enabled 1 5 make)).
Definition sample : Poller := ok_or sample3 (RemoveChannel 1 sample3).

Lemma sample_enabled_reachable n fd p :
  reachable p -> channels p !! n = None -> 0 <= fd -> channel_table_ p !! fd = None -> reachable (sample_enabled n fd p).
Proof.
  intros Hp Hn Hf Ht. unfold sample_enabled.
  assert (H1 : reachable (set_channel n (Channel_make fd) p)) by (eapply reachable_step; [done|by apply step_make]).
  assert (Hok : channel_ok n (Channel_make fd) (set_channel n (Channel_make fd) p)).
  { split; [apply lookup_insert_eq|]. split; [done|by left]. }
  destruct (update_events_ok _ _ (fun e => Z.lor e Read) _ (reachable_wf _ H1) Hok) as (p' & E & _).
  unfold EnableReading. rewrite E. eapply reachable_step; [exact H1|]. by eapply step_update.
Qed.

Lemma sample3_reachable : reachable sample3.
Proof. repeat (apply sample_enabled_reachable; [|vm_compute; reflexivity|lia|vm_compute; reflexivity]). apply reachable_make. Qed.

Lemma sample_reachable3 : reachable sample.
Proof.
  eapply reachable_step; [apply sample3_reachable|].
  apply (step_remove _ _ 1%nat (mk_Channel 5 Read 0 0)); [|vm_compute; reflexivity|vm_compute; reflexivity].
  split; [vm_compute; reflexivity|]. split; [by cbn|right; vm_compute; reflexivity].
Qed.

Definition second : Channel := mk_Channel 6 Read 0 1.

Lemma second_ok : channel_ok 2 second sample.
Proof. split; [vm_compute; reflexivity|]. split; [by cbn|right; vm_compute; reflexivity]. Qed.

Lemma poller_refines_table_witness :
  map fd (pfds_ sample) = [7; 6] /\
  (forall f, exists p', update_events f 2 sample = Ok p' /\ wf p' /\
     (exists ig, watches p' 6 (short (f Read)) ig) /\
     forall g ev ig, g <> 6 -> (watches p' g ev ig <-> watches sample g ev ig)) /\
  (channel_table_ sample !! 6 = Some 2%nat ->
   exists p', RemoveChannel 2 sample = Ok p' /\ wf p' /\ channel_table_ p' = delete 6 (channel_table_ sample) /\
     forall g ev ig, watches p' g ev ig <-> g <> 6 /\ watches sample g ev ig).
Proof. split; [vm_compute; reflexivity|]. apply (poller_refines_table sample 2 second sample_reachable3 second_ok). Defined.

Lemma fill_reports_active_witness :
  exists p' ids, FillActiveChannels (count_active (pfds_ (set_revents [0; 1] sample))) (set_revents [0; 1] sample) = Ok (p', ids) /\
    wf p' /\ pfds_ p' = pfds_ (set_revents [0; 1] sample) /\ channel_table_ p' = channel_table_ sample /\
    Forall2 (told p') ids (filter active (pfds_ p')).
Proof.
  apply (fill_reports_active sample [0; 1] sample_reachable3); [vm_compute; reflexivity|].
  intros [|[|i]] e x He Hx Hf; cbn in Hx; [by injection Hx as <-| |]; vm_compute in He; [by injection He as <-|discriminate He].
Defined.

Lemma ignored_is_flipped_witness :
  exists p1, DisableAll 2 sample = Ok p1 /\ watches p1 6 0 true /\
    (exists p2, EnableReading 2 p1 = Ok p2 /\ watches p2 6 Read true) /\
    (exists p2, DisableAll 2 p1 = Ok p2 /\ watches p2 6 0 false).
Proof.
  apply (ignored_is_flipped sample 2 second Read sample_reachable3 second_ok); [vm_compute; reflexivity|].
  by exists 1%nat, (mk_pollfd 6 Read 0).
Defined.
