(* ===== verification/EventLoop.v ===== *)
(** * The event loop

    Models NetworkInfra/src/event_loop.cpp: the loop thread ([Run], [ProcessPendingTasks],
    [OnWakeup]) and the calls of any thread ([QueueTask], [RunTask], [Quit]), interleaved.
    The list of the pending tasks is under its mutex; the other accesses are steps of
    their own.  The wakeup descriptor is an eventfd: a write adds to its counter, a read
    takes it, and the poller reports it while it is not zero.  What tasks and handlers do
    with their own loop is a parameter ([actions]). *)

From stdpp Require Import relations.
From S2P Require Import Prelude.

#[local] Open Scope Z_scope.

Section EventLoop.
Context {Task : Type}.

(** What code on the loop's thread calls. *)
Inductive action :=
| AQueueTask (task : Task)
| ARunTask (task : Task)
| AQuit
(** The end of [QueueTask], after the list is changed. *)
| AWakeupCheck.

(** An active channel that [Poll] reports: the wakeup descriptor, or another one with what
    its handler does. *)
Inductive channel := WakeupChannel | OtherChannel (handler : list action).

(** Where the loop's thread is: outside of [Run], at the condition of its loop, in [Poll],
    handling the active channels, about to take the pending tasks, or running the tasks
    it took.  A list of actions is what is left of the code that runs. *)
Inductive place :=
| Outside
| Condition
| Polling
| Handling (code : list action) (active : list channel)
| Processing
| Swapping
| Running (code : list action) (tasks : list Task).

(** The members, the counter of the eventfd, the loop's thread, and the calls of other
    threads that have changed the loop and not yet called [Wakeup].  For the statements:
    the tasks ever queued, and those that were taken and started. *)
Record EventLoop := mk_EventLoop {
  is_running_ : bool;
  executing_pending_task_ : bool;
  pending_tasks_ : list Task;
  wakeup_fd_ : Z;
  at_place : place;
  in_calls : nat;
  queued : list Task;
  started : list Task
}.

Definition set_running (b : bool) (l : EventLoop) : EventLoop :=
  mk_EventLoop b (executing_pending_task_ l) (pending_tasks_ l) (wakeup_fd_ l) (at_place l) (in_calls l) (queued l) (started l).
Definition set_executing (b : bool) (l : EventLoop) : EventLoop :=
  mk_EventLoop (is_running_ l) b (pending_tasks_ l) (wakeup_fd_ l) (at_place l) (in_calls l) (queued l) (started l).
Definition set_pending (p : list Task) (l : EventLoop) : EventLoop :=
  mk_EventLoop (is_running_ l) (executing_pending_task_ l) p (wakeup_fd_ l) (at_place l) (in_calls l) (queued l) (started l).
Definition set_wakeup (n : Z) (l : EventLoop) : EventLoop :=
  mk_EventLoop (is_running_ l) (executing_pending_task_ l) (pending_tasks_ l) n (at_place l) (in_calls l) (queued l) (started l).
Definition goto (p : place) (l : EventLoop) : EventLoop :=
  mk_EventLoop (is_running_ l) (executing_pending_task_ l) (pending_tasks_ l) (wakeup_fd_ l) p (in_calls l) (queued l) (started l).
Definition set_in_calls (n : nat) (l : EventLoop) : EventLoop :=
  mk_EventLoop (is_running_ l) (executing_pending_task_ l) (pending_tasks_ l) (wakeup_fd_ l) (at_place l) n (queued l) (started l).
Definition start_task (t : Task) (l : EventLoop) : EventLoop :=
  mk_EventLoop (is_running_ l) (executing_pending_task_ l) (pending_tasks_ l) (wakeup_fd_ l) (at_place l) (in_calls l) (queued l) (started l ++ [t]).

Definition make : EventLoop := mk_EventLoop false false [] 0 Outside 0 [] [].

(** ** The operations *)

Definition Wakeup (l : EventLoop) : EventLoop := set_wakeup (wakeup_fd_ l + 1) l.

(** The check demands that there is something to read. *)
Definition OnWakeup (l : EventLoop) : outcome EventLoop :=
  ensure_check (0 <? wakeup_fd_ l);; Ok (set_wakeup 0 l).

(** [QueueTask], under the mutex and after it; [belongs] is [BelongsToCurrentThread()]. *)
Definition QueueTask_push (task : Task) (l : EventLoop) : EventLoop :=
  mk_EventLoop (is_running_ l) (executing_pending_task_ l) (pending_tasks_ l ++ [task]) (wakeup_fd_ l) (at_place l)
    (in_calls l) (queued l ++ [task]) (started l).
Definition QueueTask_wakeup (belongs : bool) (l : EventLoop) : EventLoop :=
  if negb belongs || executing_pending_task_ l then Wakeup l else l.

(** [Quit], and its end in another thread. *)
Definition Quit (l : EventLoop) : EventLoop := set_running false l.
Definition Quit_wakeup (belongs : bool) (l : EventLoop) : EventLoop := if negb belongs then Wakeup l else l.

(** What a task does when it is called. *)
Context (actions : Task -> list action).

(** One action on the loop's thread, and the code that is then left.  [RunTask] calls the
    task at once. *)
Definition act (a : action) (rest : list action) (l : EventLoop) : list action * EventLoop :=
  match a with
  | AQueueTask task => (AWakeupCheck :: rest, QueueTask_push task l)
  | AWakeupCheck => (rest, QueueTask_wakeup true l)
  | ARunTask task => (actions task ++ rest, l)
  | AQuit => (rest, Quit_wakeup true (Quit l))
  end.

(** A step of [Run] and [ProcessPendingTasks], except for [Poll]. *)
Definition loop_step (l : EventLoop) : option (outcome EventLoop) :=
  match at_place l with
  | Outside => Some (ensure_check (negb (is_running_ l));; Ok (goto Condition (set_running true l)))
  | Condition => Some (Ok (goto (if is_running_ l then Polling else Outside) l))
  | Polling => None
  | Handling (a :: code) active => let '(code, l) := act a code l in Some (Ok (goto (Handling code active) l))
  | Handling [] (WakeupChannel :: active) => Some (l ← OnWakeup l; Ok (goto (Handling [] active) l))
  | Handling [] (OtherChannel code :: active) => Some (Ok (goto (Handling code active) l))
  | Handling [] [] => Some (Ok (goto Processing l))
  | Processing => Some (Ok (goto Swapping (set_executing true l)))
  | Swapping => Some (Ok (goto (Running [] (pending_tasks_ l)) (set_pending [] l)))
  | Running (a :: code) tasks => let '(code, l) := act a code l in Some (Ok (goto (Running code tasks) l))
  | Running [] (t :: tasks) => Some (Ok (goto (Running (actions t) tasks) (start_task t l)))
  | Running [] [] => Some (Ok (goto Condition (set_executing false l)))
  end.

(** [Poll] reports the wakeup descriptor, once, when its counter is not zero.  It returns
    when something is active or the time is over. *)
Definition wakeups (active : list channel) : nat :=
  length (List.filter (fun c => match c with WakeupChannel => true | _ => false end) active).

Definition reported (l : EventLoop) (active : list channel) : Prop :=
  wakeups active = if 0 <? wakeup_fd_ l then 1%nat else 0%nat.

(** [early]: whether the thread of the loop queues tasks before it calls [Run]. *)
Inductive step (early : bool) : EventLoop -> EventLoop -> Prop :=
| step_loop l l' : loop_step l = Some (Ok l') -> step early l l'
| step_poll l active : at_place l = Polling -> reported l active -> step early l (goto (Handling [] active) l)
| step_queue l task : step early l (set_in_calls (S (in_calls l)) (QueueTask_push task l))
| step_quit l : step early l (set_in_calls (S (in_calls l)) (Quit l))
| step_wakeup l n : in_calls l = S n -> step early l (set_in_calls n (Wakeup l))
| step_early l task :
    early = true -> at_place l = Outside -> step early l (QueueTask_wakeup true (QueueTask_push task l)).

Inductive reachable (early : bool) : EventLoop -> Prop :=
| reachable_make : reachable early make
| reachable_step l l' : reachable early l -> step early l l' -> reachable early l'.

(** ** The invariant *)

(** The tasks that were taken and are not started. *)
Definition taken (p : place) : list Task := match p with Running _ tasks => tasks | _ => [] end.

(** Someone will wake the loop: the descriptor is readable, or a call is about to write. *)
Definition awake (l : EventLoop) : Prop := 0 < wakeup_fd_ l \/ (0 < in_calls l)%nat.

(** A change by a task that has not come to its wakeup. *)
Definition checking (code : list action) : Prop := AWakeupCheck ∈ code.

Definition place_ok (l : EventLoop) : Prop :=
  match at_place l with
  | Outside => executing_pending_task_ l = false /\ is_running_ l = false /\ (pending_tasks_ l <> [] -> awake l)
  | Condition => executing_pending_task_ l = false /\ (pending_tasks_ l <> [] -> awake l)
  | Polling => executing_pending_task_ l = false /\ (pending_tasks_ l <> [] \/ is_running_ l = false -> awake l)
  | Handling code active =>
      executing_pending_task_ l = false /\
      (wakeups active <= 1)%nat /\ ((0 < wakeups active)%nat -> 0 < wakeup_fd_ l)
  | Processing => executing_pending_task_ l = false
  | Swapping => executing_pending_task_ l = true
  | Running code tasks =>
      executing_pending_task_ l = true /\ (pending_tasks_ l <> [] -> awake l \/ checking code)
  end.

Definition Inv (l : EventLoop) : Prop :=
  0 <= wakeup_fd_ l /\ queued l = started l ++ taken (at_place l) ++ pending_tasks_ l /\ place_ok l.

(** What other threads do keeps the invariant, wherever the loop is. *)
Lemma other_ok l l' : Inv l ->
  at_place l' = at_place l -> executing_pending_task_ l' = executing_pending_task_ l ->
  wakeup_fd_ l <= wakeup_fd_ l' -> (is_running_ l' = is_running_ l \/ is_running_ l' = false) ->
  awake l' ->
  queued l' = started l' ++ taken (at_place l') ++ pending_tasks_ l' -> Inv l'.
Proof.
  intros (Hw & _ & Hp) E1 E2 E3 E4 Ha Hq. split; [lia|]. split; [done|]. unfold place_ok in *. rewrite E1, E2.
  destruct (at_place l) as [| | |code active| | |code tasks]; try naive_solver lia.
  split; [apply Hp|]. split; [|done]. destruct Hp as (_ & Hp & _). destruct E4; congruence.
Qed.

(** An action of the loop's thread: what it does to the members. *)
Lemma act_ok a rest l code l' : act a rest l = (code, l') -> 0 <= wakeup_fd_ l ->
  at_place l' = at_place l /\ executing_pending_task_ l' = executing_pending_task_ l /\
  wakeup_fd_ l <= wakeup_fd_ l' /\ in_calls l' = in_calls l /\ started l' = started l /\
  (exists new, pending_tasks_ l' = pending_tasks_ l ++ new /\ queued l' = queued l ++ new) /\
  (executing_pending_task_ l = true -> (pending_tasks_ l <> [] -> awake l \/ checking (a :: rest)) ->
   pending_tasks_ l' <> [] -> awake l' \/ checking code).
Proof.
  intros Ha Hw. destruct a as [t|t| |]; cbn in Ha; injection Ha as <- <-.
  - cbn. do 5 (split; [done|]). split; [by exists [t]|]. intros _ _ _. right. left.
  - do 5 (split; [done|]). split; [exists []; by rewrite !app_nil_r|]. intros _ H Hp. destruct (H Hp) as [Hk|Hk]; [by left|].
    right. unfold checking in *. apply elem_of_cons in Hk as [|Hk]; [done|]. apply elem_of_app. by right.
  - cbn. do 5 (split; [done|]). split; [exists []; by rewrite !app_nil_r|]. intros _ H Hp. destruct (H Hp) as [Hk|Hk]; [by left|].
    right. unfold checking in *. by apply elem_of_cons in Hk as [|Hk].
  - unfold QueueTask_wakeup. cbn. destruct (executing_pending_task_ l) eqn:E; cbn.
    + do 5 (split; [done || lia|]). split; [exists []; by rewrite !app_nil_r|]. intros _ _ _. left. left. cbn. lia.
    + do 5 (split; [done || lia|]). split; [exists []; by rewrite !app_nil_r|]. done.
Qed.

Lemma poll_ok l active : Inv l -> at_place l = Polling -> reported l active -> Inv (goto (Handling [] active) l).
Proof.
  intros (Hw & Hq & Hp) Hl Hr. unfold place_ok in Hp. rewrite Hl in *. split; [done|]. split; [done|].
  unfold place_ok; cbn. split; [apply Hp|]. unfold reported in Hr. destruct (0 <? wakeup_fd_ l) eqn:E; zify_bool; lia.
Qed.

Lemma loop_step_ok l l' : Inv l -> loop_step l = Some (Ok l') -> Inv l'.
Proof.
  intros (Hw & Hq & Hp) Hs. unfold place_ok in Hp. unfold loop_step in Hs.
  destruct (at_place l) as [| | |[|a code] [|[|h] active]| | |[|a code] [|t tasks]] eqn:Hl.
  all: try (destruct (act a code l) as [code' l1] eqn:Ha; injection Hs as <-;
    destruct (act_ok a code l code' l1 Ha Hw) as (E1 & E2 & E3 & E4 & E5 & (new & E6 & E7) & Hc)).
  all: unfold Inv, place_ok; cbn.
  - destruct (is_running_ l); [done|]. cbn in Hs. injection Hs as <-. cbn in *. naive_solver.
  - injection Hs as <-. cbn in *. destruct (is_running_ l) eqn:Er; cbn; naive_solver.
  - done.
  - injection Hs as <-. cbn in *. naive_solver.
  - destruct (0 <? wakeup_fd_ l) eqn:E; [|by unfold OnWakeup in Hs; rewrite E in Hs].
    unfold OnWakeup in Hs. rewrite E in Hs. cbn in Hs. injection Hs as <-. cbn in *.
    split; [lia|]. split; [done|]. split; [apply Hp|]. unfold wakeups in *. cbn in Hp. lia.
  - injection Hs as <-. cbn in *. naive_solver.
  - rewrite E2, E5, E6, E7, Hq. cbn in *. split; [lia|]. split; [by rewrite app_assoc|]. naive_solver lia.
  - rewrite E2, E5, E6, E7, Hq. cbn in *. split; [lia|]. split; [by rewrite app_assoc|]. naive_solver lia.
  - rewrite E2, E5, E6, E7, Hq. cbn in *. split; [lia|]. split; [by rewrite app_assoc|]. naive_solver lia.
  - injection Hs as <-. cbn in *. naive_solver.
  - injection Hs as <-. cbn in *. rewrite app_nil_r. naive_solver.
  - injection Hs as <-. cbn in *. split; [done|]. split; [done|]. destruct Hp as [_ Hp].
    split; [done|]. intros Hne. destruct (Hp Hne) as [|Hk]; [done|]. by apply elem_of_nil in Hk.
  - injection Hs as <-. cbn in *. split; [done|]. split; [by rewrite <- app_assoc|]. destruct Hp as [He Hp].
    split; [done|]. intros Hne. destruct (Hp Hne) as [|Hk]; [by left|]. by apply elem_of_nil in Hk.
  - split; [lia|]. rewrite E5, E6, E7, Hq. split; [cbn [taken at_place goto]; by rewrite <- !app_assoc|]. rewrite E2. split; [apply Hp|].
    rewrite <- E6. apply Hc; apply Hp.
  - split; [lia|]. rewrite E5, E6, E7, Hq. split; [cbn [taken at_place goto]; by rewrite <- !app_assoc|]. rewrite E2. split; [apply Hp|].
    rewrite <- E6. apply Hc; apply Hp.
Qed.

Lemma event_step_ok l l' : Inv l -> step false l l' -> Inv l'.
Proof.
  intros HI Hs. destruct Hs as [l l' Hs|l active Hl Hr|l task|l|l n Hn|l task He]; [by eapply loop_step_ok|by apply poll_ok| | | |done];
    pose proof HI as (Hw & Hq & _); eapply other_ok; try done; try (cbn; lia); try (by right; cbn; lia); try (by left).
  - cbn. rewrite Hq, <- !app_assoc. done.
  - left. cbn. lia.
Qed.

Lemma loop_reachable_ok l : reachable false l -> Inv l.
Proof.
  induction 1 as [|l l' _ IH Hs]; [|by eapply event_step_ok]. by repeat split.
Qed.

(** The loop sleeps: [Poll] has nothing to report, and no call is about to wake it. *)
Definition asleep (l : EventLoop) : Prop := at_place l = Polling /\ wakeup_fd_ l = 0 /\ in_calls l = 0%nat.

(** C25: As long as the thread of the loop queues nothing itself before it calls [Run] (see
    [early_task_sleeps]), no task is lost, whatever the other threads do at whatever time: the
    tasks start in the order they were queued, each once; when the loop sleeps, all of them
    were started and its flag is still set, so that no [Quit] came since [Run] set it (one that
    comes before is lost, see [early_quit_sleeps]); and no check of the loop's thread fails. *)
Theorem no_lost_wakeup l :
  reachable false l ->
  queued l = started l ++ taken (at_place l) ++ pending_tasks_ l /\
  (asleep l -> started l = queued l /\ pending_tasks_ l = [] /\ is_running_ l = true) /\
  (forall r, loop_step l = Some r -> is_ok r = true).
Proof.
  intros Hr. destruct (loop_reachable_ok l Hr) as (Hw & Hq & Hp). split; [done|]. split.
  - intros (Hpl & Hz & Hc). unfold place_ok in Hp. rewrite Hpl in Hp, Hq. cbn in Hq. destruct Hp as [_ Hp].
    assert (Hna : ~ awake l) by (unfold awake; lia).
    destruct (pending_tasks_ l) as [|t p]; [|destruct Hna; apply Hp; by left].
    rewrite app_nil_r in Hq. split; [done|]. split; [done|]. destruct (is_running_ l); [done|]. destruct Hna. apply Hp. by right.
  - intros r Hs. unfold loop_step in Hs. unfold place_ok in Hp.
    destruct (at_place l) as [| | |[|a code] [|[|h] active]| | |[|a code] [|t tasks]];
      try (destruct (act a code l) as [code' l1]); try (by injection Hs as <-); [|done|].
    + destruct Hp as (_ & Hf & _). rewrite Hf in Hs. by injection Hs as <-.
    + destruct Hp as (_ & _ & Hk). unfold wakeups in Hk. cbn in Hk. unfold OnWakeup in Hs.
      rewrite (proj2 (Z.ltb_lt _ _)) in Hs by (apply Hk; lia). by injection Hs as <-.
Qed.

(** A task that the thread of the loop queues before it calls [Run] wakes nobody: the
    loop goes to sleep with the task pending. *)
Theorem early_task_sleeps task :
  exists l, reachable true l /\ asleep l /\ is_running_ l = true /\ pending_tasks_ l = [task] /\ started l = [].
Proof.
  exists (goto Polling (goto Condition (set_running true (QueueTask_wakeup true (QueueTask_push task make))))).
  split; [|by repeat split].
  eapply reachable_step; [eapply reachable_step; [eapply reachable_step; [apply reachable_make|by apply step_early]|]|];
    by apply step_loop.
Qed.

(** A [Quit] of another thread that comes before [Run] is forgotten: [Run] sets the flag again, the
    wakeup makes it poll once more, and then it sleeps. *)
Theorem early_quit_sleeps :
  let quit := set_in_calls 1 (Quit make) in
  step false make quit /\ exists l, rtc (step false) quit l /\ asleep l /\ is_running_ l = true.
Proof.
  split; [apply (step_quit false make)|].
  pose (woken := set_in_calls 0 (Wakeup (set_in_calls 1 (Quit make)))).
  pose (polling := goto Polling (goto Condition (set_running true woken))).
  pose (handled := goto (Handling [] []) (set_wakeup 0 (goto (Handling [] [WakeupChannel]) polling))).
  exists (goto Polling (goto Condition (set_executing false (goto (Running [] []) (set_pending [] (goto Swapping (set_executing true (goto Processing handled)))))))).
  split; [|by repeat split].
  eapply rtc_l; [by apply (step_wakeup false _ 0)|]. do 2 (eapply rtc_l; [by apply step_loop|]).
  eapply rtc_l; [by apply (step_poll false polling [WakeupChannel])|].
  do 5 (eapply rtc_l; [by apply step_loop|]). eapply rtc_l; [by apply step_loop|]. apply rtc_refl.
Qed.
End EventLoop.

(** ** Witnesses *)

(** Task 1 queues task 2. *)
Definition sample_actions (t : nat) : list (@action nat) := if decide (t = 1%nat) then [AQueueTask 2%nat] else [].

Fixpoint steps (n : nat) (l : @EventLoop nat) : @EventLoop nat :=
  match n with
  | O => l
  | S n => match loop_step sample_actions l with Some (Ok l) => steps n l | _ => l end
  end.

Lemma steps_reachable n : forall l, reachable sample_actions false l -> reachable sample_actions false (steps n l).
Proof.
  induction n as [|n IH]; intros l Hl; cbn; [done|]. destruct (loop_step sample_actions l) as [[l'| | |]|] eqn:E; try done.
  apply IH. eapply reachable_step; [done|by apply step_loop].
Qed.

(** Another thread queues task 1 while the loop polls; it polls again after each round. *)
Definition sample_poll (l : @EventLoop nat) : @EventLoop nat :=
  goto (Handling [] (if 0 <? wakeup_fd_ l then [WakeupChannel] else [])) l.
Definition sample_before : @EventLoop nat := steps 2 make.
Definition sample_queued : @EventLoop nat :=
  set_in_calls 0 (Wakeup (set_in_calls 1 (QueueTask_push 1%nat sample_before))).
Definition sample_loop : @EventLoop nat := steps 20 (sample_poll (steps 20 (sample_poll sample_queued))).

Lemma sample_poll_reachable l : at_place l = Polling ->
  reachable sample_actions false l -> reachable sample_actions false (sample_poll l).
Proof.
  intros Hp Hl. eapply reachable_step; [exact Hl|]. apply step_poll; [done|]. unfold reported.
  by destruct (0 <? wakeup_fd_ l).
Qed.

Lemma sample_loop_reachable : reachable sample_actions false sample_loop.
Proof.
  apply steps_reachable, sample_poll_reachable; [reflexivity|].
  apply steps_reachable, sample_poll_reachable; [reflexivity|].
  eapply reachable_step; [eapply reachable_step; [apply (steps_reachable 2 make), reachable_make|apply (step_queue _ _ _ 1%nat)]|].
  by apply step_wakeup.
Qed.

Lemma no_lost_wakeup_witness :
  asleep sample_loop /\ queued sample_loop = [1; 2]%nat /\
  queued sample_loop = started sample_loop ++ taken (at_place sample_loop) ++ pending_tasks_ sample_loop /\
  (asleep sample_loop ->
     started sample_loop = queued sample_loop /\ pending_tasks_ sample_loop = [] /\ is_running_ sample_loop = true) /\
  (forall r, loop_step sample_actions sample_loop = Some r -> is_ok r = true).
Proof.
  split; [by vm_compute|]. split; [by vm_compute|]. apply (no_lost_wakeup sample_actions), sample_loop_reachable.
Defined.
