(* ===== verification/Socks5.v ===== *)
(** * The SOCKS5 proxy's tunnel

    Models learn-cxx/asio/socks5/tunnel.cpp: the handshake of [Tunnel] (greeting, request,
    connection, replies) and the two forwarding loops.  An asynchronous operation of asio
    is a node of a program ([io]) with the handler as its continuation; a packet is built
    up from what is read.  The handshake is one chain of operations; the forwarding loops
    run side by side, so they are a step relation.  [byteswap], the network and the name
    resolution are not the proxy's code: they are parameters, and the methods of the client
    are read into a buffer that holds all of them.  The host is little-endian. *)

From S2P Require Import Prelude Endian.

#[local] Open Scope Z_scope.

(** ** Operations of asio *)

Inductive endpoint :=
| V4 (ip : Z) (port : Z)
| V6 (ip : str) (port : Z)
| Resolved (name : str) (number : nat) (port : Z).

(** [Read n k]: [async_read] of exactly [n] bytes from the client ([None]: an error code).
    [Write data k]: [async_write] to the client; the handler gets how many bytes went
    out, and an error code when some did not.  [ShutdownBoth] shuts both directions of the
    client's socket down.  [Tunneling]: both loops start. *)
Inductive io :=
| Read (n : nat) (k : option str -> io)
| Write (data : str) (k : bool -> nat -> io)
| Resolve (name : str) (port : Z) (k : option (list endpoint) -> io)
| Connect (endpoints : list endpoint) (k : option endpoint -> io)
| LocalPort (k : Z -> io)
| ShutdownBoth (k : io)
| Assert (cond : bool) (k : io)
| Tunneling (remote : endpoint)
| Stop.

(** ** The handshake *)

Definition bytes (l : list Z) : str := map chr l.

Definition kSocks5Ver : Z := 0x05.
Definition kCmdConnect : Z := 0x01.
Definition kAddrIPv4 : Z := 0x01.
Definition kAddrDomain : Z := 0x03.
Definition kAddrIPv6 : Z := 0x04.

Inductive RejectReason := GeneralFailure | HostUnreachable | CommandNotSupported.
Definition reason_code (r : RejectReason) : Z :=
  match r with GeneralFailure => 0x01 | HostUnreachable => 0x04 | CommandNotSupported => 0x07 end.

Record RequestPacket := mk_RequestPacket {
  ver : Z; cmd : Z; reserved : Z; addr_type : Z; dest_addr : str; dest_port : Z
}.

Section Tunnel.
(** [esl::byteswap] of an unsigned integer of [k] bytes. *)
Context (byteswap : nat -> Z -> Z).

Definition ShutdownClient : io := ShutdownBoth Stop.

Definition RejectClient (reason : RejectReason) : io :=
  Write (bytes [kSocks5Ver; reason_code reason; 0; kAddrIPv4; 0; 0; 0; 0; 0; 0]) (fun _ _ => ShutdownBoth Stop).

(** The reply has the port of the local end at offset 8. *)
Definition reply_bytes (port : Z) : str :=
  let reply := bytes [5; 0; 0; 1; 0; 0; 0; 0; 16; 16] in
  take 8 reply ++ le_bytes 2 (byteswap 2 port).

Definition ReplyRequest (remote : endpoint) : io :=
  LocalPort (fun port =>
  Write (reply_bytes port) (fun ok bytes => Assert (bytes =? 10)%nat (if ok then Tunneling remote else ShutdownClient))).

Definition do_connect (endpoints : list endpoint) : io :=
  Connect endpoints (fun remote =>
    match remote with Some remote => ReplyRequest remote | None => RejectClient HostUnreachable end).

Definition ConnetRemote (packet : RequestPacket) : io :=
  if addr_type packet =? kAddrIPv4 then
    do_connect [V4 (byteswap 4 (le_value (dest_addr packet))) (dest_port packet)]
  else if addr_type packet =? kAddrIPv6 then do_connect [V6 (dest_addr packet) (dest_port packet)]
  else
    Resolve (dest_addr packet) (dest_port packet) (fun results =>
      match results with Some endpoints => do_connect endpoints | None => RejectClient HostUnreachable end).

Definition set_addr (addr : str) (p : RequestPacket) : RequestPacket :=
  mk_RequestPacket (ver p) (cmd p) (reserved p) (addr_type p) addr (dest_port p).
Definition set_port (port : Z) (p : RequestPacket) : RequestPacket :=
  mk_RequestPacket (ver p) (cmd p) (reserved p) (addr_type p) (dest_addr p) port.

(** The stages of [ReadRequestpacket], the last one first. *)
Definition ReadDestPort (packet : RequestPacket) : io :=
  Read 2 (fun r =>
    match r with
    | None => RejectClient GeneralFailure
    | Some raw => ConnetRemote (set_port (byteswap 2 (le_value raw)) packet)
    end).

Definition ReadDestAddress (packet : RequestPacket) : io :=
  if addr_type packet =? kAddrDomain then
    Read 1 (fun r =>
      match r with
      | None => RejectClient GeneralFailure
      | Some raw =>
          Read (Z.to_nat (le_value raw)) (fun r =>
            match r with
            | None => RejectClient GeneralFailure
            | Some addr => ReadDestPort (set_addr addr packet)
            end)
      end)
  else
    let size := if addr_type packet =? kAddrIPv4 then 4%nat else 16%nat in
    Read size (fun r =>
      match r with
      | None => RejectClient GeneralFailure
      | Some addr => ReadDestPort (set_addr addr packet)
      end).

(** Four buffers of a byte each. *)
Definition ReadRequestpacket : io :=
  Read 4 (fun r =>
    match r with
    | Some [ver; cmd; reserved; addr_type] =>
        if negb (uchar ver =? kSocks5Ver) then RejectClient GeneralFailure
        else if negb (uchar cmd =? kCmdConnect) then RejectClient CommandNotSupported
        else ReadDestAddress (mk_RequestPacket (uchar ver) (uchar cmd) (uchar reserved) (uchar addr_type) [] 0)
    | _ => ShutdownClient
    end).

Definition ReplyGreeting : io :=
  Write (bytes [5; 0]) (fun ok _ => if ok then ReadRequestpacket else ShutdownClient).

Definition ReadMethods (num_methods : Z) : io :=
  Read (Z.to_nat num_methods) (fun r => match r with Some _ => ReplyGreeting | None => ShutdownClient end).

Definition ReadGreetingPacket : io :=
  Read 2 (fun r =>
    match r with
    | Some [ver; num_methods] =>
        if negb (uchar ver =? kSocks5Ver) || (uchar num_methods =? 0) then ShutdownClient
        else ReadMethods (uchar num_methods)
    | _ => ShutdownClient
    end).

Definition Run : io := ReadGreetingPacket.

(** ** Running the handshake *)

(** The world of a handshake: how much of a write goes out, what names resolve to, which of the
    endpoints can be connected to, and the local port. *)
Record world := mk_world {
  goes_out : str -> nat;
  resolve : str -> Z -> option (list endpoint);
  connect : list endpoint -> option endpoint;
  local_port : Z
}.

(** What the proxy does to the outside. *)
Inductive event :=
| Sent (data : str)
| Resolves (name : str) (port : Z)
| Connects (endpoints : list endpoint)
| ClientShutdown.

(** The end of a handshake; when it succeeds, the rest of what the client sent. *)
Inductive result := Tunneled (remote : endpoint) (rest : str) | Closed | Aborted.

Definition also {A} (e : event) (r : list event * A) : list event * A := (e :: fst r, snd r).

(** [async_read] fails when the client's stream ends too early; a failed assertion ends the
    process, unless the proxy is built without its assertions. *)
Fixpoint run (ndebug : bool) (w : world) (p : io) (input : str) : list event * result :=
  match p with
  | Read n k =>
      if (n <=? length input)%nat then run ndebug w (k (Some (take n input))) (drop n input)
      else run ndebug w (k None) []
  | Write data k =>
      let n := goes_out w data in
      also (Sent (take n data)) (run ndebug w (k (length data <=? n)%nat (length (take n data))) input)
  | Resolve name port k => also (Resolves name port) (run ndebug w (k (resolve w name port)) input)
  | Connect eps k => also (Connects eps) (run ndebug w (k (connect w eps)) input)
  | LocalPort k => run ndebug w (k (local_port w)) input
  | ShutdownBoth k => also ClientShutdown (run ndebug w k input)
  | Assert cond k => if cond || ndebug then run ndebug w k input else ([], Aborted)
  | Tunneling remote => ([], Tunneled remote input)
  | Stop => ([], Closed)
  end.
End Tunnel.

(** ** The messages of the protocol *)

Inductive dest :=
| IPv4 (ip : Z)
| IPv6 (ip : str)
| Domain (name : str)
| UnknownType (type : Z) (raw : str).

Definition dest_valid (d : dest) : Prop :=
  match d with
  | IPv4 ip => u32 ip
  | IPv6 ip => length ip = 16%nat
  | Domain name => Z.of_nat (length name) < 256
  | UnknownType type raw => u8 type /\ type <> kAddrIPv4 /\ type <> kAddrDomain /\ type <> kAddrIPv6 /\ length raw = 16%nat
  end.

Definition greeting (methods : str) : str := bytes [5; Z.of_nat (length methods)] ++ methods.

Definition dest_bytes (d : dest) : str :=
  match d with
  | IPv4 ip => chr kAddrIPv4 :: be_bytes 4 ip
  | IPv6 ip => chr kAddrIPv6 :: ip
  | Domain name => chr kAddrDomain :: chr (Z.of_nat (length name)) :: name
  | UnknownType type raw => chr type :: raw
  end.

Definition request (cmd rsv : ascii) (d : dest) (port : Z) : str :=
  [chr 5; cmd; rsv] ++ dest_bytes d ++ be_bytes 2 port.

(** ** What the proxy answers *)

Definition rejected (reason : RejectReason) : list event :=
  [Sent (bytes [5; reason_code reason; 0; 1; 0; 0; 0; 0; 0; 0]); ClientShutdown].

Definition connected (w : world) (endpoints : list endpoint) (rest : str) : list event * result :=
  match connect w endpoints with
  | Some remote =>
      ([Connects endpoints; Sent (bytes [5; 0; 0; 1; 0; 0; 0; 0] ++ be_bytes 2 (local_port w))], Tunneled remote rest)
  | None => (Connects endpoints :: rejected HostUnreachable, Closed)
  end.

Definition looked_up (w : world) (name : str) (port : Z) (rest : str) : list event * result :=
  match resolve w name port with
  | Some endpoints => also (Resolves name port) (connected w endpoints rest)
  | None => (Resolves name port :: rejected HostUnreachable, Closed)
  end.

Definition served (w : world) (d : dest) (port : Z) (rest : str) : list event * result :=
  match d with
  | IPv4 ip => connected w [V4 ip port] rest
  | IPv6 ip => connected w [V6 ip port] rest
  | Domain name => looked_up w name port rest
  | UnknownType _ raw => looked_up w raw port rest
  end.

(** ** Lemmas *)

Definition byteswap_ok (byteswap : nat -> Z -> Z) : Prop :=
  forall k z, 0 <= z < 256 ^ Z.of_nat k -> byteswap k z = bswap k z.

Definition writes_ok (w : world) : Prop := forall data, (length data <= goes_out w data)%nat.

Section Handshake.
Context (byteswap : nat -> Z -> Z) (Hswap : byteswap_ok byteswap) (ndebug : bool) (w : world).

Lemma byteswap_le k z : 0 <= z < 256 ^ Z.of_nat k -> byteswap k (le_value (be_bytes k z)) = z.
Proof.
  intros Hz. pose proof (le_value_bound (be_bytes k z)) as Hb. rewrite length_be_bytes in Hb. rewrite Hswap by done.
  change (le_value (be_bytes k z)) with (bswap k z). rewrite bswap_involutive. by apply Z.mod_small.
Qed.

Lemma le_bytes_byteswap k z : 0 <= z < 256 ^ Z.of_nat k -> le_bytes k (byteswap k z) = be_bytes k z.
Proof. intros Hz. rewrite Hswap by done. apply le_bytes_of_value, length_be_bytes. Qed.

(** A read of a whole field at the head of the input, and one the input is too short for. *)
Lemma run_read field k rest :
  run ndebug w (Read (length field) k) (field ++ rest) = run ndebug w (k (Some field)) rest.
Proof.
  cbn. rewrite length_app, (proj2 (Nat.leb_le _ _)) by lia. by rewrite take_app_length, drop_app_length.
Qed.

Lemma run_read_n n field k rest : length field = n ->
  run ndebug w (Read n k) (field ++ rest) = run ndebug w (k (Some field)) rest.
Proof. intros <-. apply run_read. Qed.

Lemma run_short n k input : (length input < n)%nat ->
  run ndebug w (Read n k) input = run ndebug w (k None) [].
Proof. intros Hn. cbn. by rewrite (proj2 (Nat.leb_gt _ _)). Qed.

(** The two outcomes of a read. *)
Lemma run_read_cases n k input :
  (length input < n)%nat /\ run ndebug w (Read n k) input = run ndebug w (k None) [] \/
  exists field rest, input = field ++ rest /\ length field = n /\
    run ndebug w (Read n k) input = run ndebug w (k (Some field)) rest.
Proof.
  destruct (decide (length input < n)%nat) as [Hn|Hn]; [left; by rewrite run_short|right].
  exists (take n input), (drop n input). rewrite take_drop, length_take. split; [done|]. split; [lia|].
  cbn. by rewrite (proj2 (Nat.leb_le _ _)) by lia.
Qed.

Hypothesis Hw : writes_ok w.

Lemma run_write data k input :
  run ndebug w (Write data k) input = also (Sent data) (run ndebug w (k true (length data)) input).
Proof. cbn. rewrite take_ge by apply Hw. by rewrite (proj2 (Nat.leb_le _ _)) by apply Hw. Qed.

Lemma run_reject reason input : run ndebug w (RejectClient reason) input = (rejected reason, Closed).
Proof. unfold RejectClient. by rewrite run_write. Qed.

Hypothesis Hport : u16 (local_port w).

Lemma run_connect eps rest : run ndebug w (do_connect byteswap eps) rest = connected w eps rest.
Proof.
  unfold connected. cbn [do_connect run]. destruct (connect w eps) as [remote|]; [|by rewrite run_reject].
  assert (E : reply_bytes byteswap (local_port w) = bytes [5; 0; 0; 1; 0; 0; 0; 0] ++ be_bytes 2 (local_port w)).
  { unfold reply_bytes. by rewrite le_bytes_byteswap. }
  unfold ReplyRequest. change (run ndebug w (LocalPort ?k) rest) with (run ndebug w (k (local_port w)) rest).
  cbv beta. rewrite E, run_write, length_app, length_be_bytes. done.
Qed.

Lemma run_lookup name port rest p : addr_type p <> kAddrIPv4 -> addr_type p <> kAddrIPv6 -> dest_addr p = name -> dest_port p = port ->
  run ndebug w (ConnetRemote byteswap p) rest = looked_up w name port rest.
Proof.
  intros H4 H6 <- <-. unfold ConnetRemote, looked_up. rewrite (proj2 (Z.eqb_neq _ _) H4), (proj2 (Z.eqb_neq _ _) H6).
  cbn [run]. destruct (resolve w _ _) as [eps|]; [by rewrite run_connect|by rewrite run_reject].
Qed.

Lemma run_port port rest p : u16 port ->
  run ndebug w (ReadDestPort byteswap p) (be_bytes 2 port ++ rest) = run ndebug w (ConnetRemote byteswap (set_port port p)) rest.
Proof. intros Hp. unfold ReadDestPort. rewrite run_read_n by apply length_be_bytes. by rewrite byteswap_le. Qed.

Lemma run_address d p port rest : dest_valid d -> u16 port ->
  addr_type p = match d with IPv4 _ => kAddrIPv4 | IPv6 _ => kAddrIPv6 | Domain _ => kAddrDomain | UnknownType type _ => type end ->
  run ndebug w (ReadDestAddress byteswap p) (tail (dest_bytes d) ++ be_bytes 2 port ++ rest) = served w d port rest.
Proof.
  intros Hd Hp Ht. unfold ReadDestAddress. rewrite Ht. destruct d as [ip|ip|name|ty raw]; cbn [dest_bytes tail dest_valid] in *.
  - cbn [Z.eqb kAddrIPv4 kAddrDomain Pos.eqb]. rewrite run_read_n by apply length_be_bytes. rewrite run_port by done.
    unfold ConnetRemote. cbn [addr_type set_port set_addr]. rewrite Ht. cbn [Z.eqb kAddrIPv4 Pos.eqb dest_addr dest_port set_port set_addr].
    rewrite byteswap_le by done. by rewrite run_connect.
  - cbn [Z.eqb kAddrIPv4 kAddrIPv6 kAddrDomain Pos.eqb]. rewrite run_read_n by done. rewrite run_port by done.
    unfold ConnetRemote. cbn [addr_type set_port set_addr]. rewrite Ht. cbn [Z.eqb kAddrIPv4 kAddrIPv6 Pos.eqb dest_addr dest_port set_port set_addr].
    by rewrite run_connect.
  - cbn [Z.eqb kAddrDomain Pos.eqb]. change (?a :: ?b ++ ?c) with ([a] ++ b ++ c).
    cbn [app]. change (chr ?n :: ?r) with ([chr n] ++ r). rewrite run_read_n by done.
    cbn [le_value]. rewrite uchar_chr by (unfold in_u; lia). replace (Z.to_nat _) with (length name) by lia.
    rewrite run_read, run_port by done. apply run_lookup; cbn [addr_type set_port set_addr]; rewrite ?Ht; done.
  - destruct Hd as (Hu & H4 & H1 & H6 & Hl). rewrite (proj2 (Z.eqb_neq _ _) H1), (proj2 (Z.eqb_neq _ _) H4).
    rewrite run_read_n by done. rewrite run_port by done. apply run_lookup; cbn [addr_type set_port set_addr]; rewrite ?Ht; done.
Qed.

Lemma run_request d port rest rsv : dest_valid d -> u16 port ->
  run ndebug w (ReadRequestpacket byteswap) (request (chr 1) rsv d port ++ rest) = served w d port rest.
Proof.
  intros Hd Hp. unfold request, ReadRequestpacket. rewrite <- !app_assoc.
  assert (Ha : exists a, dest_bytes d = a :: tail (dest_bytes d) /\
    uchar a = match d with IPv4 _ => kAddrIPv4 | IPv6 _ => kAddrIPv6 | Domain _ => kAddrDomain | UnknownType type _ => type end).
  { destruct d; cbn [dest_bytes tail]; eexists; (split; [reflexivity|]); apply uchar_chr; [done..|apply Hd]. }
  destruct Ha as (a & -> & Ha). change ([chr 5; chr 1; rsv] ++ (a :: ?l) ++ ?r) with ([chr 5; chr 1; rsv; a] ++ l ++ r).
  rewrite run_read_n by done. change (uchar (chr 5)) with 5. change (uchar (chr 1)) with 1. cbn [negb Z.eqb kSocks5Ver kCmdConnect Pos.eqb].
  by apply run_address.
Qed.

Lemma run_greeting methods rest : 0 < Z.of_nat (length methods) < 256 ->
  run ndebug w (Run byteswap) (greeting methods ++ rest) = also (Sent (bytes [5; 0])) (run ndebug w (ReadRequestpacket byteswap) rest).
Proof.
  intros Hm. unfold Run, ReadGreetingPacket, greeting. rewrite <- app_assoc. cbn [bytes map].
  rewrite run_read_n by done. change (uchar (chr 5)) with 5. rewrite uchar_chr by (unfold in_u; lia).
  rewrite (proj2 (Z.eqb_neq (Z.of_nat (length methods)) 0)) by lia. cbn [negb Z.eqb kSocks5Ver Pos.eqb orb].
  unfold ReadMethods. rewrite Nat2Z.id, run_read. unfold ReplyGreeting. by rewrite run_write.
Qed.
End Handshake.

(** ** Which inputs lead to a tunnel *)

Section Converse.
Context (byteswap : nat -> Z -> Z) (ndebug : bool) (w : world).

Definition tunnels (p : io) (input : str) (rest : str) : Prop :=
  exists remote, snd (run ndebug w p input) = Tunneled remote rest.

Lemma closed_never input rest : ~ tunnels ShutdownClient input rest.
Proof. by intros [remote H]. Qed.

Lemma rejected_never reason input rest : ~ tunnels (RejectClient reason) input rest.
Proof. by intros [remote H]. Qed.

(** A tunnel behind a read: the field was there. *)
Lemma tunnels_read n k input rest : (forall rest, ~ tunnels (k None) [] rest) -> tunnels (Read n k) input rest ->
  exists field input', input = field ++ input' /\ length field = n /\ tunnels (k (Some field)) input' rest.
Proof.
  intros Hk [remote H]. unfold tunnels. destruct (run_read_cases ndebug w n k input) as [(_ & E)|(field & r & -> & Hl & E)];
    rewrite E in H; [exfalso; eapply Hk; by eexists|]. eexists _, _. by eauto.
Qed.

Lemma tunnels_write data k input rest : tunnels (Write data k) input rest -> exists ok n, tunnels (k ok n) input rest.
Proof. intros [remote H]. eexists _, _, remote. exact H. Qed.

Lemma tunnels_reply remote input rest : tunnels (ReplyRequest byteswap remote) input rest -> input = rest.
Proof.
  intros H. change (tunnels (Write (reply_bytes byteswap (local_port w)) (fun ok bytes =>
    Assert (bytes =? 10)%nat (if ok then Tunneling remote else ShutdownClient))) input rest) in H.
  apply tunnels_write in H as ([] & n & r & H); cbn [run] in H; destruct (_ || ndebug) in H; cbn in H; congruence.
Qed.

Lemma tunnels_connect eps input rest : tunnels (do_connect byteswap eps) input rest -> input = rest.
Proof.
  intros [remote H]. unfold do_connect in H. cbn [run also snd] in H. destruct (connect w eps) as [e|]; [|done].
  eapply tunnels_reply. by exists remote.
Qed.

Lemma tunnels_remote p input rest : tunnels (ConnetRemote byteswap p) input rest -> input = rest.
Proof.
  unfold ConnetRemote. intros H. destruct (_ =? _); [by eapply tunnels_connect|].
  destruct (_ =? _); [by eapply tunnels_connect|]. destruct H as [remote H]. cbn [run also snd] in H.
  destruct (resolve w _ _) as [eps|]; [|done]. eapply tunnels_connect. by exists remote.
Qed.

Lemma tunnels_port p input rest : tunnels (ReadDestPort byteswap p) input rest ->
  exists port, u16 port /\ input = be_bytes 2 port ++ rest.
Proof.
  intros H. apply tunnels_read in H as (raw & r & -> & Hl & H); [|by intros; apply rejected_never].
  apply tunnels_remote in H as ->. exists (be_value raw). rewrite be_bytes_of_value by done. split; [|done].
  pose proof (le_value_bound (rev raw)) as Hb. rewrite length_rev, Hl in Hb. exact Hb.
Qed.

Lemma tunnels_address p input rest : u8 (addr_type p) -> tunnels (ReadDestAddress byteswap p) input rest ->
  exists d port, dest_valid d /\ u16 port /\ chr (addr_type p) :: input = dest_bytes d ++ be_bytes 2 port ++ rest.
Proof.
  intros Hu H. unfold ReadDestAddress in H. destruct (Z.eqb_spec (addr_type p) kAddrDomain) as [->|Hd].
  - apply tunnels_read in H as (len & r & -> & Hl & H); [|by intros; apply rejected_never].
    apply tunnels_read in H as (name & r' & -> & Hn & H); [|by intros; apply rejected_never].
    apply tunnels_port in H as (port & Hp & ->). destruct len as [|c [|]]; try done.
    cbn [le_value] in Hn. rewrite Z.mul_0_r, Z.add_0_r in Hn. pose proof (uchar_range c).
    exists (Domain name), port. cbn [dest_valid dest_bytes]. split; [lia|]. split; [done|].
    rewrite Hn, Z2Nat.id, chr_uchar by lia. done.
  - apply tunnels_read in H as (raw & r & -> & Hl & H); [|by intros; apply rejected_never].
    apply tunnels_port in H as (port & Hp & ->). destruct (Z.eqb_spec (addr_type p) kAddrIPv4) as [->|H4].
    + exists (IPv4 (be_value raw)), port. cbn [dest_valid dest_bytes].
      rewrite be_bytes_of_value by done. split; [|done]. pose proof (le_value_bound (rev raw)) as Hb. rewrite length_rev, Hl in Hb. exact Hb.
    + destruct (Z.eqb_spec (addr_type p) kAddrIPv6) as [->|H6]; [by exists (IPv6 raw), port|].
      by exists (UnknownType (addr_type p) raw), port.
Qed.

Lemma tunnels_run input rest : tunnels (Run byteswap) input rest ->
  exists methods rsv d port, 0 < Z.of_nat (length methods) < 256 /\ dest_valid d /\ u16 port /\
    input = greeting methods ++ request (chr 1) rsv d port ++ rest.
Proof.
  intros H. apply tunnels_read in H as (raw & r & -> & Hl & H); [|by intros; apply closed_never].
  destruct raw as [|v [|n [|]]]; try done. destruct (_ || _) eqn:E in H; [by apply closed_never in H|].
  apply orb_false_iff in E as [E1 E2]. apply negb_false_iff, Z.eqb_eq in E1. apply Z.eqb_neq in E2.
  apply tunnels_read in H as (methods & r' & -> & Hm & H); [|by intros; apply closed_never].
  pose proof (uchar_range n) as Hn.
  assert (H' : tunnels (ReadRequestpacket byteswap) r' rest).
  { apply tunnels_write in H as ([] & k & H); [done|by apply closed_never in H]. }
  apply tunnels_read in H' as (raw & r2 & -> & Hl' & H2); [|by intros; apply closed_never].
  destruct raw as [|v2 [|c [|rsv [|ty [|]]]]]; try done.
  destruct (negb (uchar v2 =? kSocks5Ver)) eqn:E3; [by apply rejected_never in H2|].
  destruct (negb (uchar c =? kCmdConnect)) eqn:E4; [by apply rejected_never in H2|].
  apply negb_false_iff, Z.eqb_eq in E3, E4.
  apply tunnels_address in H2 as (d & port & Hd & Hp & E); [|apply uchar_range]. cbn [addr_type] in E. rewrite chr_uchar in E.
  exists methods, rsv, d, port. split; [lia|]. split; [done|]. split; [done|].
  unfold greeting, request, bytes. cbn [map app]. rewrite <- !app_assoc, <- E.
  rewrite Hm, Z2Nat.id, chr_uchar by lia. rewrite <- (chr_uchar v), <- (chr_uchar v2), <- (chr_uchar c), E1, E3, E4. done.
Qed.
End Converse.


(** Nothing else leads to a tunnel: if one begins, whatever the network does, the
    client has sent a greeting and a request to connect, and the tunnel carries what
    follows them. *)
Theorem tunnel_only_for_requests byteswap ndebug w input evs remote rest :
  run ndebug w (Run byteswap) input = (evs, Tunneled remote rest) ->
  exists methods rsv d port, 0 < Z.of_nat (length methods) < 256 /\ dest_valid d /\ u16 port /\
    input = greeting methods ++ request (chr 1) rsv d port ++ rest.
Proof. intros H. apply (tunnels_run byteswap ndebug w). exists remote. by rewrite H. Qed.

(** A request with a type of address that the protocol does not have is not
    rejected: sixteen bytes are taken for a name, which is looked up. *)
Theorem unknown_address_looked_up byteswap w methods rsv type raw port rest :
  byteswap_ok byteswap -> writes_ok w -> u16 (local_port w) ->
  0 < Z.of_nat (length methods) < 256 -> dest_valid (UnknownType type raw) -> u16 port ->
  exists evs, fst (run false w (Run byteswap) (greeting methods ++ request (chr 1) rsv (UnknownType type raw) port ++ rest)) =
    [Sent (bytes [5; 0]); Resolves raw port] ++ evs.
Proof.
  intros Hs Hw Hl Hm Hd Hp. rewrite run_greeting, run_request by done. cbn [served]. unfold looked_up.
  destruct (resolve w raw port); eexists; reflexivity.
Qed.

(** A client that goes away before its reply is written ends the whole process: the
    assertion on the length of the reply comes before the test of the error code. *)
Theorem short_reply_aborts byteswap w remote rest :
  (goes_out w (reply_bytes byteswap (local_port w)) < 10)%nat ->
  snd (run false w (ReplyRequest byteswap remote) rest) = Aborted /\
  snd (run true w (ReplyRequest byteswap remote) rest) = Closed.
Proof.
  intros Hn. set (data := reply_bytes byteswap (local_port w)).
  assert (Hl : length data = 10%nat) by (unfold data, reply_bytes; rewrite length_app, length_le_bytes; done).
  unfold ReplyRequest. cbn [run]. fold data in Hn |- *. cbv zeta. rewrite length_take, Hl.
  rewrite (proj2 (Nat.leb_gt _ _) Hn), (proj2 (Nat.eqb_neq _ _)) by lia. done.
Qed.

(** ** Witnesses *)

(** The whole reply goes out, names resolve to one endpoint, and the first one connects. *)
Definition sample_world : world :=
  mk_world (fun data => length data) (fun name port => Some [Resolved name 0 port]) (fun eps => head eps) 1080.

(** The replies do not go out. *)
Definition gone_world : world :=
  mk_world (fun data => 0%nat) (fun name port => Some [Resolved name 0 port]) (fun eps => head eps) 1080.

Definition sample_methods : str := bytes [0; 2].
Definition sample_dest : dest := Domain (bytes [101; 46; 111; 114; 103]).
Definition sample_odd : dest := UnknownType 9 (replicate 16 (chr 97)).
Definition sample_rest : str := bytes [71; 69; 84].

Lemma bswap_ok : byteswap_ok bswap.
Proof. done. Qed.

Lemma sample_writes : writes_ok sample_world.
Proof. intros data. cbn. lia. Qed.

Lemma sample_valid : dest_valid sample_dest /\ dest_valid sample_odd.
Proof. split; [done|]. by repeat split. Qed.


Lemma tunnel_only_for_requests_witness :
  exists methods rsv d port, 0 < Z.of_nat (length methods) < 256 /\ dest_valid d /\ u16 port /\
    bytes [5; 1; 0; 5; 1; 0; 1; 10; 0; 0; 1; 0; 80; 71] =
      greeting methods ++ request (chr 1) rsv d port ++ bytes [71].
Proof.
  eapply (tunnel_only_for_requests bswap false sample_world (bytes [5; 1; 0; 5; 1; 0; 1; 10; 0; 0; 1; 0; 80; 71])).
  vm_compute. reflexivity.
Defined.

Lemma unknown_address_looked_up_witness :
  exists evs, fst (run false sample_world (Run bswap)
      (greeting sample_methods ++ request (chr 1) (chr 0) sample_odd 443 ++ sample_rest)) =
    [Sent (bytes [5; 0]); Resolves (replicate 16 (chr 97)) 443] ++ evs.
Proof.
  apply (unknown_address_looked_up bswap sample_world sample_methods (chr 0) 9 (replicate 16 (chr 97)) 443 sample_rest);
    [apply bswap_ok|apply sample_writes|done|done|apply sample_valid|done].
Defined.

Lemma short_reply_aborts_witness :
  snd (run false gone_world (ReplyRequest bswap (V4 1 80)) sample_rest) = Aborted /\
  snd (run true gone_world (ReplyRequest bswap (V4 1 80)) sample_rest) = Closed.
Proof. apply (short_reply_aborts bswap gone_world (V4 1 80) sample_rest). cbn. lia. Defined.
