(* ===== verification/Relay.v ===== *)
(** * The forwarding loops of the SOCKS5 proxy

    Models the second half of learn-cxx/asio/socks5/tunnel.cpp: the two loops that carry
    bytes between the client's socket and the one dialled, from [StartTunneling] to the
    end of the tunnel.  [ForwardClientRequest] and [ForwardRemoteResponse] are mirror images,
    so one definition with the side it reads from stands for both.  A handler runs at a
    time (the executor has one thread); between the handlers bytes arrive, leave in pieces,
    and the two ends close their sides, so the tunnel is a step relation. *)

From S2P Require Import Prelude Socks5.
From stdpp Require Import relations.

#[local] Open Scope Z_scope.

(** ** State *)

Inductive side := Client | Dial.
Definition other (s : side) : side := match s with Client => Dial | Dial => Client end.

#[global] Instance side_eq_dec : EqDecision side.
Proof. solve_decision. Defined.

(** Where the loop that reads a socket is: in [async_read_some], in [async_write] with the
    bytes that have not gone out yet, or over. *)
Inductive phase := Reading | Writing (todo : str) | Ended.

#[global] Instance phase_eq_dec : EqDecision phase.
Proof. solve_decision. Defined.

(** A socket with its [_disconnected_] flag; [incoming]: what arrived and was not read;
    [peer_closed]: the peer sends nothing more; [send_shut]: our side was shut down for
    writing.  [arrived] and [written]: everything that came in and went out. *)
Record socket := mk_socket {
  disconnected : bool;
  send_shut : bool;
  peer_closed : bool;
  incoming : str;
  arrived : str;
  written : str;
  loop : phase
}.

Record Tunnel := mk_Tunnel { client_sock : socket; dial_sock : socket }.

Definition sock (s : side) (t : Tunnel) : socket :=
  match s with Client => client_sock t | Dial => dial_sock t end.
Definition upd (s : side) (f : socket -> socket) (t : Tunnel) : Tunnel :=
  match s with
  | Client => mk_Tunnel (f (client_sock t)) (dial_sock t)
  | Dial => mk_Tunnel (client_sock t) (f (dial_sock t))
  end.

Definition set_disconnected (k : socket) : socket :=
  mk_socket true (send_shut k) (peer_closed k) (incoming k) (arrived k) (written k) (loop k).
Definition shutdown_send (k : socket) : socket :=
  mk_socket (disconnected k) true (peer_closed k) (incoming k) (arrived k) (written k) (loop k).
Definition set_loop (p : phase) (k : socket) : socket :=
  mk_socket (disconnected k) (send_shut k) (peer_closed k) (incoming k) (arrived k) (written k) p.
Definition receive (data : str) (k : socket) : socket :=
  mk_socket (disconnected k) (send_shut k) (peer_closed k) (incoming k ++ data) (arrived k ++ data) (written k) (loop k).
Definition close_peer (k : socket) : socket :=
  mk_socket (disconnected k) (send_shut k) true (incoming k) (arrived k) (written k) (loop k).
Definition take_in (n : nat) (k : socket) : socket :=
  mk_socket (disconnected k) (send_shut k) (peer_closed k) (drop n (incoming k)) (arrived k) (written k) (loop k).
Definition put_out (data : str) (k : socket) : socket :=
  mk_socket (disconnected k) (send_shut k) (peer_closed k) (incoming k) (arrived k) (written k ++ data) (loop k).

(** ** The code *)

(** [shutdown] succeeds, as it does on a connected socket.  (When it fails, the log message asks the
    socket for its [remote_endpoint()], which throws if the connection is gone: not modelled.) *)
Definition ShutdownWriteSafe (s : side) (flag : bool) (t : Tunnel) : Tunnel :=
  if flag then t else upd s shutdown_send t.

Definition ForceShutdown (t : Tunnel) : Tunnel := upd Dial shutdown_send (upd Client shutdown_send t).

Definition kIOBufSize : nat := Z.to_nat (4 * 1024).

(** How [async_read_some] ends: with up to [kIOBufSize] bytes, at the end of the stream, or
    with another error. *)
Inductive read_result := Data (n : nat) | Eof | ReadError.

(** The handler of the read of the loop that reads [s]. *)
Definition on_read (s : side) (r : read_result) (t : Tunnel) : Tunnel :=
  match r with
  | Eof =>
      let t := upd s set_disconnected t in
      let t := ShutdownWriteSafe (other s) (disconnected (sock (other s) t)) t in
      upd s (set_loop Ended) t
  | ReadError => upd s (set_loop Ended) (ForceShutdown t)
  | Data n =>
      let data := take n (incoming (sock s t)) in
      upd s (set_loop (Writing data)) (upd s (take_in n) t)
  end.

(** The handler of its write; when there is no error the loop starts over. *)
Definition on_write (s : side) (error : bool) (t : Tunnel) : Tunnel :=
  if error then upd s (set_loop Ended) (ForceShutdown t)
  else upd s (set_loop Reading) t.

(** [StartTunneling]: [rest] is what the client has sent behind its request. *)
Definition new_socket (data : str) : socket := mk_socket false false false data data [] Reading.
Definition StartTunneling (rest : str) : Tunnel := mk_Tunnel (new_socket rest) (new_socket []).

(** ** Steps *)

(** A step of the proxy.  A part of a write goes out only while the side is open, and a write
    fails on one that was shut down; with [faults] the network may fail at any time. *)
Inductive move (faults : bool) (t : Tunnel) : Tunnel -> Prop :=
| move_data s n :
    loop (sock s t) = Reading -> (0 < n <= kIOBufSize)%nat -> (n <= length (incoming (sock s t)))%nat ->
    move faults t (on_read s (Data n) t)
| move_eof s :
    loop (sock s t) = Reading -> incoming (sock s t) = [] -> peer_closed (sock s t) = true ->
    move faults t (on_read s Eof t)
| move_read_error s :
    loop (sock s t) = Reading -> faults = true -> move faults t (on_read s ReadError t)
| move_write s x y :
    loop (sock s t) = Writing (x ++ y) -> x <> [] -> send_shut (sock (other s) t) = false ->
    move faults t (upd s (set_loop (Writing y)) (upd (other s) (put_out x) t))
| move_written s :
    loop (sock s t) = Writing [] -> move faults t (on_write s false t)
| move_write_error s todo :
    loop (sock s t) = Writing todo -> todo <> [] -> send_shut (sock (other s) t) = true \/ faults = true ->
    move faults t (on_write s true t).

(** What the two ends do: send, and close. *)
Inductive peer (t : Tunnel) : Tunnel -> Prop :=
| peer_sends s data : peer_closed (sock s t) = false -> peer t (upd s (receive data) t)
| peer_closes s : peer t (upd s close_peer t).

Inductive reachable (faults : bool) (rest : str) : Tunnel -> Prop :=
| reach_start : reachable faults rest (StartTunneling rest)
| reach_move t t' : reachable faults rest t -> move faults t t' -> reachable faults rest t'
| reach_peer t t' : reachable faults rest t -> peer t t' -> reachable faults rest t'.

(** ** Invariant *)

(** What the loop has read and not yet written. *)
Definition in_flight (p : phase) : str := match p with Writing todo => todo | _ => [] end.

(** The bytes of a direction: none is lost, repeated or reordered while its loop runs;
    when it is over, the other socket has a part from the beginning. *)
Definition carried (s : side) (t : Tunnel) : Prop :=
  written (sock (other s) t) `prefix_of` arrived (sock s t) /\
  (loop (sock s t) <> Ended ->
    arrived (sock s t) = written (sock (other s) t) ++ in_flight (loop (sock s t)) ++ incoming (sock s t)) /\
  (length (in_flight (loop (sock s t))) <= kIOBufSize)%nat.

(** Without faults a loop ends at the end of the stream it reads, with everything
    written, and the other side was told so unless it had ended its own stream before. *)
Definition ended_well (s : side) (t : Tunnel) : Prop :=
  (disconnected (sock s t) = true <-> loop (sock s t) = Ended) /\
  (send_shut (sock (other s) t) = true -> loop (sock s t) = Ended) /\
  (loop (sock s t) = Ended ->
    written (sock (other s) t) = arrived (sock s t) /\ peer_closed (sock s t) = true /\
    (send_shut (sock (other s) t) = true \/ loop (sock (other s) t) = Ended)).

(** ** Lemmas *)

Lemma sock_upd s f t : sock s (upd s f t) = f (sock s t).
Proof. by destruct s. Qed.
Lemma sock_upd_other s f t : sock (other s) (upd s f t) = sock (other s) t.
Proof. by destruct s. Qed.
Lemma sock_upd_self s f t : sock s (upd (other s) f t) = sock s t.
Proof. by destruct s. Qed.
Lemma other_other s : other (other s) = s.
Proof. by destruct s. Qed.

Lemma each_side (P : side -> Prop) s : P s -> P (other s) -> forall s', P s'.
Proof. destruct s; intros ? ? [|]; done. Qed.

(** Takes the two sockets apart. *)
Ltac open_tunnel s t H :=
  pose proof (H s); pose proof (H (other s));
  destruct s, t as [[d1 h1 p1 i1 a1 w1 l1] [d2 h2 p2 i2 a2 w2 l2]]; cbn in *.

Ltac tunnel_step :=
  try match goal with |- context [ShutdownWriteSafe _ ?b _] => destruct b end; cbn in *; subst.

Ltac by_cases :=
  repeat match goal with H : _ /\ _ |- _ => destruct H end;
  rewrite ?app_nil_l in *; intuition (congruence || lia || eauto).

Lemma write_part (x y w a i : str) (k : nat) :
  (Writing (x ++ y) <> Ended -> a = w ++ (x ++ y) ++ i) -> (length (x ++ y) <= k)%nat ->
  (w ++ x) `prefix_of` a /\ (Writing y <> Ended -> a = (w ++ x) ++ y ++ i) /\ (length y <= k)%nat.
Proof.
  intros Ha Hl. rewrite length_app in Hl. rewrite Ha, <- !app_assoc by done. split; [|split; [done|lia]].
  exists (y ++ i). by rewrite <- app_assoc.
Qed.

Lemma carried_move faults t t' : (forall s, carried s t) -> move faults t t' -> forall s, carried s t'.
Proof.
  intros H Hm. destruct Hm as [s n Hl Hn Hi|s Hl Hi Hp|s Hl _|s x y Hl Hx Ho|s Hl|s todo Hl Ht _];
    match goal with |- forall s, carried s ?t => apply (each_side (fun s => carried s t) s) end;
    unfold carried in H; open_tunnel s t H; unfold carried; tunnel_step.
  all: rewrite ?take_drop, ?length_take, ?app_nil_r, ?app_nil_l in *.
  all: try solve [by_cases].
  all: apply write_part; by_cases.
Qed.

Lemma receive_part (l : phase) (w a i data : str) (k : nat) :
  w `prefix_of` a -> (l <> Ended -> a = w ++ in_flight l ++ i) -> (length (in_flight l) <= k)%nat ->
  w `prefix_of` (a ++ data) /\ (l <> Ended -> a ++ data = w ++ in_flight l ++ i ++ data) /\ (length (in_flight l) <= k)%nat.
Proof.
  intros Hp Ha Hl. split; [by apply prefix_app_r|]. split; [|done]. intros Hn. rewrite (Ha Hn) at 1. by rewrite <- !app_assoc.
Qed.

Lemma carried_peer t t' : (forall s, carried s t) -> peer t t' -> forall s, carried s t'.
Proof.
  intros H Hm. destruct Hm as [s data Hp|s];
    match goal with |- forall s, carried s ?t => apply (each_side (fun s => carried s t) s) end;
    unfold carried in H; open_tunnel s t H; unfold carried; cbn; try done.
  all: apply receive_part; by_cases.
Qed.

Lemma reachable_carried faults rest t : reachable faults rest t -> forall s, carried s t.
Proof.
  induction 1 as [|t t' _ IH Hm|t t' _ IH Hm]; [|by eapply carried_move|by eapply carried_peer].
  intros []; (split; [apply prefix_nil|]); split; try done; cbn; lia.
Qed.

Lemma ended_move t t' : (forall s, carried s t) -> (forall s, ended_well s t) -> move false t t' -> forall s, ended_well s t'.
Proof.
  intros Hc H Hm. destruct Hm as [s n Hl Hn Hi|s Hl Hi Hp|s Hl ?|s x y Hl Hx Ho|s Hl|s todo Hl Ht Ho];
    try done; try (destruct Ho as [Ho|]; [|done]);
    match goal with |- forall s, ended_well s ?t => apply (each_side (fun s => ended_well s t) s) end;
    pose proof (Hc s) as Hs; clear Hc;
    unfold carried in Hs; unfold ended_well in H; open_tunnel s t H; unfold ended_well; tunnel_step; clear H; rewrite ?app_nil_r in *.
  all: by_cases.
Qed.

Lemma ended_peer t t' : (forall s, ended_well s t) -> peer t t' -> forall s, ended_well s t'.
Proof.
  intros H Hm. destruct Hm as [s data Hp|s];
    match goal with |- forall s, ended_well s ?t => apply (each_side (fun s => ended_well s t) s) end;
    unfold ended_well in H; open_tunnel s t H; unfold ended_well; cbn; clear H.
  all: by_cases.
Qed.

Lemma reachable_ended rest t : reachable false rest t -> forall s, ended_well s t.
Proof.
  induction 1 as [|t t' Hr IH Hm|t t' Hr IH Hm]; [|by eapply ended_move; [eapply reachable_carried| |]|by eapply ended_peer].
  intros []; by repeat split.
Qed.

(** ** Draining *)

Definition weight (k : socket) : nat :=
  3 * length (incoming k) + match loop k with Reading => 1 | Writing todo => 2 + length todo | Ended => 0 end.
Definition measure (t : Tunnel) : nat := weight (client_sock t) + weight (dial_sock t).

Lemma move_weight faults t t' : move faults t t' -> (measure t' < measure t)%nat.
Proof.
  intros Hm. destruct Hm as [s n Hl Hn Hi|s Hl Hi Hp|s Hl ?|s x y Hl Hx Ho|s Hl|s todo Hl Ht Ho];
    destruct s, t as [[d1 h1 p1 i1 a1 w1 l1] [d2 h2 p2 i2 a2 w2 l2]]; unfold measure, weight; cbn -[Nat.mul] in *;
    tunnel_step; cbn -[Nat.mul]; rewrite ?length_take, ?length_drop, ?length_app; try lia;
    destruct x; try done; cbn [length]; lia.
Qed.

Lemma moves_weight faults n t t' : nsteps (move faults) n t t' -> (n + measure t' <= measure t)%nat.
Proof.
  induction 1 as [|n x y z Hxy _ IH]; [lia|]. pose proof (move_weight _ _ _ Hxy). lia.
Qed.

(** A loop that is not over and whose peer has closed can go on. *)
Lemma loop_goes_on faults s t :
  peer_closed (sock s t) = true -> loop (sock s t) <> Ended -> exists t', move faults t t'.
Proof.
  intros Hp Hl. destruct (loop (sock s t)) as [|[|c todo]|] eqn:E; [| |  |done].
  - destruct (incoming (sock s t)) as [|c i] eqn:Ei; [by eexists; eapply (move_eof _ _ s)|].
    eexists. eapply (move_data _ _ s 1); [done| |]; [split; [lia|]; unfold kIOBufSize; lia|rewrite Ei; cbn; lia].
  - by eexists; eapply (move_written _ _ s).
  - destruct (send_shut (sock (other s) t)) eqn:Es.
    + eexists. eapply (move_write_error _ _ s); [done|done|by left].
    + eexists. by apply (move_write _ _ s [c] todo E).
Qed.

Lemma moves_keep faults n t t' : nsteps (move faults) n t t' ->
  forall s, arrived (sock s t') = arrived (sock s t) /\ peer_closed (sock s t') = peer_closed (sock s t).
Proof.
  induction 1 as [|n x y z Hxy _ IH]; [done|]. intros s. destruct (IH s) as [-> ->]. clear IH.
  destruct Hxy as [s' k Hl Hn Hi|s' Hl Hi Hp|s' Hl ?|s' u v Hl Hx Ho|s' Hl|s' todo Hl Ht Ho];
    destruct s, s', x as [[] [[] ? ? ? ? ? ?]]; cbn; unfold ShutdownWriteSafe; try case_match; done.
Qed.

Lemma moves_reachable faults rest n t t' : reachable faults rest t -> nsteps (move faults) n t t' -> reachable faults rest t'.
Proof. intros Hr Hn. revert Hr. induction Hn as [|n x y z Hxy _ IH]; intros Hr; [done|]. apply IH. by eapply reach_move. Qed.

(** What came with the request is the first that the tunnel carries. *)
Lemma move_arrived faults t t' s : move faults t t' -> arrived (sock s t') = arrived (sock s t).
Proof.
  intros Hm. assert (Hn : nsteps (move faults) 1 t t') by (econstructor; [done|constructor]). by destruct (moves_keep _ _ _ _ Hn s).
Qed.

Lemma reachable_rest faults rest t : reachable faults rest t -> rest `prefix_of` arrived (sock Client t).
Proof.
  induction 1 as [|t t' _ IH Hm|t t' _ IH Hm]; [done|by rewrite (move_arrived _ _ _ _ Hm)|].
  destruct Hm as [[] data Hp|[]]; cbn in *; try done. by apply prefix_app_r.
Qed.

(** ** Properties *)

(** C23: The tunnel carries the bytes of both directions faithfully, whatever the network
    does: what was written to one end is at any time a beginning of what the other end has
    sent, in order, without loss, at most one buffer is on its way, and none is missing
    while the loop runs; the client's bytes begin with those behind its request.  Without faults of the network a direction ends only when
    everything has been written, and then the other end is told, or the tunnel is over. *)
Theorem tunnel_carries faults rest t s :
  reachable faults rest t ->
  carried s t /\ rest `prefix_of` arrived (sock Client t) /\ (faults = false -> ended_well s t).
Proof.
  intros Hr. split; [by eapply reachable_carried|]. split; [by eapply reachable_rest|]. intros ->. by eapply reachable_ended.
Qed.

(** C22: Once both ends have closed, the tunnel comes to its end after boundedly many steps
    in every order of its handlers: it never waits forever, and without faults everything
    that had arrived has been delivered to the other end. *)
Theorem tunnel_drains faults rest t n t' :
  reachable faults rest t -> (forall s, peer_closed (sock s t) = true) -> nsteps (move faults) n t t' ->
  (n <= measure t)%nat /\
  ((forall t'', ~ move faults t' t'') ->
   forall s, loop (sock s t') = Ended /\ (faults = false -> written (sock (other s) t') = arrived (sock s t))).
Proof.
  intros Hr Hc Hn. pose proof (moves_weight _ _ _ _ Hn). split; [lia|]. intros Hstuck s.
  destruct (moves_keep _ _ _ _ Hn s) as [<- Hp]. rewrite Hc in Hp.
  assert (Hl : loop (sock s t') = Ended).
  { destruct (decide (loop (sock s t') = Ended)) as [|Hne]; [done|]. by destruct (loop_goes_on faults s t' Hp Hne) as [t'' ?%Hstuck]. }
  split; [done|]. intros ->. pose proof (reachable_ended _ _ (moves_reachable _ _ _ _ _ Hr Hn) s) as (_ & _ & He). by apply He.
Qed.

(** ** Witnesses *)

Definition sample_rest : str := bytes [72; 105].
Definition sample_closed : Tunnel := upd Dial close_peer (upd Client close_peer (StartTunneling sample_rest)).
Definition sample_read : Tunnel := on_read Client (Data 2) sample_closed.

Lemma sample_closed_reachable : reachable false sample_rest sample_closed.
Proof. eapply reach_peer; [eapply reach_peer; [apply reach_start|]|]; apply peer_closes. Qed.

Lemma sample_move : move false sample_closed sample_read.
Proof. apply (move_data false sample_closed Client 2); [done| |cbn; lia]. split; [lia|]. unfold kIOBufSize. lia. Qed.

Lemma tunnel_carries_witness :
  reachable false sample_rest sample_closed /\
  carried Client sample_closed /\ sample_rest `prefix_of` arrived (sock Client sample_closed) /\
  (false = false -> ended_well Client sample_closed).
Proof.
  split; [apply sample_closed_reachable|]. apply (tunnel_carries false sample_rest sample_closed Client).
  apply sample_closed_reachable.
Defined.

Lemma tunnel_drains_witness :
  (1 <= measure sample_closed)%nat /\
  ((forall t'', ~ move false sample_read t'') ->
   forall s, loop (sock s sample_read) = Ended /\
     (false = false -> written (sock (other s) sample_read) = arrived (sock s sample_closed))).
Proof.
  apply (tunnel_drains false sample_rest sample_closed 1 sample_read);
    [apply sample_closed_reachable|by intros []|econstructor; [apply sample_move|constructor]].
Defined.
