(* ===== verification/Server.v ===== *)
(** * Connections and their server

    Models NetworkInfra/src/tcp_connection.cpp (tcp_connection.h) and tcp_server.cpp on
    top of the components they use: a connection has two buffers (Buffer) and a channel of
    the loop's poller (Poller), the server has a map of connections, and tasks run in the
    order of the loop's queue (EventLoop).  Connections are shared objects: the model has
    a heap of them, and an object may be freed once nothing owns it.  The handlers of the
    user, the descriptors and what [read] and [write] return are parameters. *)

From S2P Require Import Prelude Endian Buffer Poller.
From stdpp Require Import gmap.

#[local] Open Scope Z_scope.

(** ** State *)

Inductive State := Connecting | Connected | Disconnecting | Disconnted.
#[global] Instance State_eq_dec : EqDecision State.
Proof. solve_decision. Defined.

(** The members of a connection; its channel is in the poller under the same address.  For
    the statements, the socket: [accepted] is what was put into the output buffer,
    [wire] what [write] has taken, [received] what [ReadFD] got, [write_shut] whether
    [shutdown] was called. *)
Record TCPConnection := mk_TCPConnection {
  name_ : Z;
  state_ : State;
  input_buf_ : buffer;
  output_buf_ : buffer;
  accepted : str;
  wire : str;
  received : str;
  write_shut : bool
}.

Definition set_state (x : State) (c : TCPConnection) : TCPConnection :=
  mk_TCPConnection (name_ c) x (input_buf_ c) (output_buf_ c) (accepted c) (wire c) (received c) (write_shut c).
Definition set_input (b : buffer) (data : str) (c : TCPConnection) : TCPConnection :=
  mk_TCPConnection (name_ c) (state_ c) b (output_buf_ c) (accepted c) (wire c) (received c ++ data) (write_shut c).
Definition put_output (b : buffer) (msg : str) (c : TCPConnection) : TCPConnection :=
  mk_TCPConnection (name_ c) (state_ c) (input_buf_ c) b (accepted c ++ msg) (wire c) (received c) (write_shut c).
Definition take_output (b : buffer) (data : str) (c : TCPConnection) : TCPConnection :=
  mk_TCPConnection (name_ c) (state_ c) (input_buf_ c) b (accepted c) (wire c ++ data) (received c) (write_shut c).
Definition shut_write (c : TCPConnection) : TCPConnection :=
  mk_TCPConnection (name_ c) (state_ c) (input_buf_ c) (output_buf_ c) (accepted c) (wire c) (received c) true.

(** Tasks of the loop.  [SendInLoop] and [ShutdownInLoop] have the bare address of their
    connection, [DestroyConnection] owns it. *)
Inductive task :=
| TSend (id : nat) (msg : str)
| TShutdown (id : nat)
| TDestroy (id : nat).

(** The server and its loop: [pending] is the queue, [batch] the tasks that
    [ProcessPendingTasks] has taken, [done_] those it has run; they live until the batch is
    over. *)
Record TCPServer := mk_TCPServer {
  poller : Poller;
  heap : gmap nat TCPConnection;
  connections_ : gmap Z nat;
  next_conn_id_ : Z;
  pending : list task;
  batch : list task;
  done_ : list task
}.

Definition set_poller (p : Poller) (s : TCPServer) : TCPServer :=
  mk_TCPServer p (heap s) (connections_ s) (next_conn_id_ s) (pending s) (batch s) (done_ s).
Definition set_conn (id : nat) (c : TCPConnection) (s : TCPServer) : TCPServer :=
  mk_TCPServer (poller s) (<[id := c]> (heap s)) (connections_ s) (next_conn_id_ s) (pending s) (batch s) (done_ s).
Definition set_connections (m : gmap Z nat) (s : TCPServer) : TCPServer :=
  mk_TCPServer (poller s) (heap s) m (next_conn_id_ s) (pending s) (batch s) (done_ s).
Definition set_next (n : Z) (s : TCPServer) : TCPServer :=
  mk_TCPServer (poller s) (heap s) (connections_ s) n (pending s) (batch s) (done_ s).
Definition QueueTask (t : task) (s : TCPServer) : TCPServer :=
  mk_TCPServer (poller s) (heap s) (connections_ s) (next_conn_id_ s) (pending s ++ [t]) (batch s) (done_ s).
Definition set_batch (b d : list task) (s : TCPServer) : TCPServer :=
  mk_TCPServer (poller s) (heap s) (connections_ s) (next_conn_id_ s) (pending s) b d.

Definition make : TCPServer := mk_TCPServer Poller.make ∅ ∅ 0 [] [] [].

(** ** Handlers *)

(** What a handler of the user does with its connection. *)
Inductive action := Send_ (msg : str) | Shutdown_.

(** [connection_handler_] is told whether the connection is up; it may be unset.
    [message_handler_] sees what is in the input buffer and consumes a part of it. *)
Class Handlers := {
  connection_handler_ : option (nat -> bool -> list action);
  message_handler_ : option (nat -> str -> nat * list action)
}.

Section Server.
Context {H : Handlers}.

Definition deref (id : nat) (s : TCPServer) : outcome TCPConnection := the (heap s !! id).
Definition channel (id : nat) (s : TCPServer) : outcome Channel := the (channels (poller s) !! id).

Definition on_poller (f : Poller -> outcome Poller) (s : TCPServer) : outcome TCPServer :=
  p ← f (poller s); Ok (set_poller p s).

Definition IsWritingEnabled (id : nat) (s : TCPServer) : outcome bool :=
  c ← channel id s; Ok (negb (Z.land (events_ c) Poller.Write =? 0)).

(** ** tcp_connection.cpp *)

Definition SendInLoop (id : nat) (msg : str) (s : TCPServer) : outcome TCPServer :=
  c ← deref id s;
  b ← Buffer.Write (output_buf_ c) msg;
  let s := set_conn id (put_output b msg c) s in
  w ← IsWritingEnabled id s;
  if (w : bool) then Ok s else on_poller (EnableWriting id) s.

Definition ShutdownInLoop (id : nat) (s : TCPServer) : outcome TCPServer :=
  c ← deref id s;
  w ← IsWritingEnabled id s;
  if (w : bool) then Ok s else Ok (set_conn id (shut_write c) s).

(** [Send] and [Shutdown] on the thread of the loop, where [RunTask] calls the task. *)
Definition Send (id : nat) (msg : str) (s : TCPServer) : outcome TCPServer :=
  c ← deref id s;
  if decide (state_ c = Connected) then SendInLoop id msg s else Ok s.

Definition Shutdown (id : nat) (s : TCPServer) : outcome TCPServer :=
  c ← deref id s;
  if decide (state_ c = Connected) then ShutdownInLoop id (set_conn id (set_state Disconnecting c) s) else Ok s.

(** The same on another thread: the state is read, and the task is queued later. *)
Definition send_elsewhere (id : nat) (msg : str) (s : TCPServer) : outcome (option task) :=
  c ← deref id s;
  Ok (if decide (state_ c = Connected) then Some (TSend id msg) else None).

Fixpoint act (id : nat) (l : list action) (s : TCPServer) : outcome TCPServer :=
  match l with
  | [] => Ok s
  | Send_ msg :: l => s ← Send id msg s; act id l s
  | Shutdown_ :: l => s ← Shutdown id s; act id l s
  end.

Definition EstablishConnection (id : nat) (s : TCPServer) : outcome TCPServer :=
  c ← deref id s;
  ensure_check (bool_decide (state_ c = Connecting));;
  let s := set_conn id (set_state Connected c) s in
  s ← on_poller (EnableReading id) s;
  match connection_handler_ with
  | Some handler => act id (handler id true) s
  | None => Ok s
  end.

(** Unlike in [EstablishConnection] the handler is called without a test. *)
Definition DestroyConnection (id : nat) (s : TCPServer) : outcome TCPServer :=
  c ← deref id s;
  let s := set_conn id (set_state Disconnted c) s in
  s ← on_poller (DisableAll id) s;
  match connection_handler_ with
  | Some handler => s ← act id (handler id false) s; on_poller (RemoveChannel id) s
  | None => Throw bad_function_call
  end.

(** [TCPServer::RemoveConnection], the close handler that the server sets. *)
Definition RemoveConnection (id : nat) (s : TCPServer) : outcome TCPServer :=
  conn ← deref id s;
  let count := match connections_ s !! name_ conn with Some _ => 1 | None => 0 end in
  let s := set_connections (delete (name_ conn) (connections_ s)) s in
  ensure_check (count =? 1);;
  Ok (QueueTask (TDestroy id) s).

Definition HandleClose (id : nat) (s : TCPServer) : outcome TCPServer :=
  c ← deref id s;
  ensure_check (bool_decide (state_ c = Connected) || bool_decide (state_ c = Disconnecting));;
  s ← on_poller (DisableAll id) s;
  RemoveConnection id s.

(** [got]: what [readv] gives, [Some []] at the end of the stream. *)
Definition HandleRead (id : nat) (got : option str) (s : TCPServer) : outcome TCPServer :=
  c ← deref id s;
  r ← ReadFD (input_buf_ c) got;
  let '(n, b) := r : Z * buffer in
  let s := set_conn id (set_input b (default [] got) c) s in
  if 0 <? n then
    match message_handler_ with
    | Some handler =>
        let '(used, l) := handler id (contents b) in
        c ← deref id s;
        b ← Consume b used;
        act id l (set_conn id (set_input b [] c) s)
    | None => Ok s
    end
  else if n =? 0 then HandleClose id s
  else Ok s.

(** [write] fails ([room] is negative) or takes as much as the socket has room for. *)
Definition HandleWrite (id : nat) (room : Z) (s : TCPServer) : outcome TCPServer :=
  w ← IsWritingEnabled id s;
  if negb w then Ok s
  else
    c ← deref id s;
    let n := Z.min room (Z.of_nat (readable_size (output_buf_ c))) in
    if n <=? 0 then Ok s else
    let data := take (Z.to_nat n) (contents (output_buf_ c)) in
    b ← Consume (output_buf_ c) (Z.to_nat n);
    let s := set_conn id (take_output b data c) s in
    if decide (readable_size b = 0%nat) then
      s ← on_poller (DisableWriting id) s;
      if decide (state_ c = Disconnecting) then ShutdownInLoop id s else Ok s
    else Ok s.

(** ** tcp_server.cpp *)

(** [id] is the address of the new object, [fd] the descriptor. *)
Definition HandleNewConnection (id : nat) (fd : Z) (s : TCPServer) : outcome TCPServer :=
  let name := next_conn_id_ s in
  let s := set_next (wrap 32 (next_conn_id_ s + 1)) s in
  let s := set_conn id (mk_TCPConnection name Connecting default_buffer default_buffer [] [] [] false) s in
  let s := set_poller (set_channel id (Channel_make fd) (poller s)) s in
  let s := match connections_ s !! name with
           | Some _ => s
           | None => set_connections (<[name := id]> (connections_ s)) s
           end in
  EstablishConnection id s.

(** ** The loop *)

(** [Channel::HandleEvents] with the handlers of a connection, which live as long as it. *)
Definition handle (id : nat) (got : option str) (room : Z) (h : handler) (s : TCPServer) : outcome TCPServer :=
  match h with
  | close_handler => HandleClose id s
  | error_handler => Ok s
  | read_handler => HandleRead id got s
  | write_handler => HandleWrite id room s
  end.

Fixpoint handle_all (id : nat) (got : option str) (room : Z) (l : list handler) (s : TCPServer) : outcome TCPServer :=
  match l with
  | [] => Ok s
  | h :: l => s ← handle id got room h s; handle_all id got room l s
  end.

Definition events_of (id : nat) (e : Z) (got : option str) (room : Z) (s : TCPServer) : outcome TCPServer :=
  c ← channel id s;
  let c := set_received_events e c in
  handle_all id got room (HandleEvents c) (set_poller (set_channel id c (poller s)) s).

Definition run_task (t : task) (s : TCPServer) : outcome TCPServer :=
  match t with
  | TSend id msg => SendInLoop id msg s
  | TShutdown id => ShutdownInLoop id s
  | TDestroy id => DestroyConnection id s
  end.
End Server.

(** ** Steps *)

(** The objects that nothing owns any more: not the map, not a task of the loop, and no
    call of another thread. *)
Definition unowned (id : nat) (s : TCPServer) (calls : list task) : Prop :=
  (forall name, connections_ s !! name <> Some id) /\
  TDestroy id ∉ pending s /\ TDestroy id ∉ batch s /\ TDestroy id ∉ done_ s /\
  (forall msg, TSend id msg ∉ calls) /\ TShutdown id ∉ calls.

Definition free (id : nat) (s : TCPServer) : TCPServer :=
  mk_TCPServer (drop_channel id (poller s)) (delete id (heap s)) (connections_ s) (next_conn_id_ s) (pending s) (batch s) (done_ s).

(** The events of a connection that is polled and not ignored.  A hang-up that [poll]
    reports without [POLLIN] comes without [POLLPRI]; [POLLRDHUP] is never asked for. *)
Definition plausible (e : Z) : Prop :=
  close_handler ∈ HandleEvents (mk_Channel 0 0 e 0) -> read_handler ∉ HandleEvents (mk_Channel 0 0 e 0).

Definition polled (id : nat) (s : TCPServer) : Prop :=
  exists ch ev, channels (poller s) !! id = Some ch /\ channel_table_ (poller s) !! fd_ ch = Some id /\
    watches (poller s) (fd_ ch) ev false.

Definition world : Type := TCPServer * list task.

Definition with_calls (calls : list task) (r : outcome TCPServer) : outcome world := s ← r; Ok (s, calls).

Section Steps.
Context {H : Handlers}.

(** [threads]: whether other threads use connections; [calls] are those that have read
    the state of the connection and not yet queued their task. *)
Inductive step (threads : bool) : world -> outcome world -> Prop :=
| step_accept s calls id fd :
    batch s = [] -> heap s !! id = None -> channels (poller s) !! id = None -> 0 <= fd ->
    channel_table_ (poller s) !! fd = None -> connections_ s !! next_conn_id_ s = None ->
    step threads (s, calls) (with_calls calls (HandleNewConnection id fd s))
| step_events s calls id c e got room :
    batch s = [] -> heap s !! id = Some c -> polled id s -> plausible e ->
    (length (default [] got) <= readv_capacity (input_buf_ c))%nat ->
    step threads (s, calls) (with_calls calls (events_of id e got room s))
| step_swap s calls :
    batch s = [] ->
    step threads (s, calls) (Ok (mk_TCPServer (poller s) (heap s) (connections_ s) (next_conn_id_ s) [] (pending s) [], calls))
| step_task s calls t rest :
    batch s = t :: rest ->
    step threads (s, calls) (with_calls calls (run_task t (set_batch rest (done_ s ++ [t]) s)))
| step_free s calls id :
    unowned id s calls -> step threads (s, calls) (Ok (free id s, calls))
| step_send s calls id msg t :
    threads = true -> send_elsewhere id msg s = Ok (Some t) -> step threads (s, calls) (Ok (s, calls ++ [t]))
| step_shutdown s calls id c :
    threads = true -> heap s !! id = Some c -> state_ c = Connected ->
    step threads (s, calls) (Ok (set_conn id (set_state Disconnecting c) s, calls ++ [TShutdown id]))
| step_queue s x t y :
    step threads (s, x ++ t :: y) (Ok (QueueTask t s, x ++ y)).

Inductive reachable (threads : bool) : world -> Prop :=
| reachable_make : reachable threads (make, [])
| reachable_step w w' : reachable threads w -> step threads w (Ok w') -> reachable threads w'.
End Steps.

(** ** The invariant *)

Definition tasks (s : TCPServer) : list task := pending s ++ batch s.

(** Writing is enabled on a channel. *)
Definition writing (ch : Channel) : bool := negb (Z.land (events_ ch) Poller.Write =? 0).

(** The bytes of a connection: the output is written in order, what came in ends with
    what the user has left in the buffer, and the socket is shut down only when everything
    was written. *)
Definition bytes_ok (c : TCPConnection) : Prop :=
  buffer_wf (input_buf_ c) /\ buffer_wf (output_buf_ c) /\
  accepted c = wire c ++ contents (output_buf_ c) /\
  contents (input_buf_ c) `suffix_of` received c /\
  (write_shut c = true -> contents (output_buf_ c) = [] /\ state_ c <> Connected).

(** A connection is open, closed and waiting for its destruction, or dead. *)
Definition is_open (id : nat) (s : TCPServer) (c : TCPConnection) (ch : Channel) : Prop :=
  connections_ s !! name_ c = Some id /\ TDestroy id ∉ tasks s /\ channel_table_ (poller s) !! fd_ ch = Some id /\
  (state_ c = Connected \/ state_ c = Disconnecting) /\
  (contents (output_buf_ c) <> [] -> writing ch = true) /\
  Z.testbit (events_ ch) 0 = true /\ (exists ev, watches (poller s) (fd_ ch) ev false).

Definition is_closed (id : nat) (s : TCPServer) (c : TCPConnection) (ch : Channel) : Prop :=
  connections_ s !! name_ c <> Some id /\ TDestroy id ∈ tasks s /\ channel_table_ (poller s) !! fd_ ch = Some id /\
  (state_ c = Connected \/ state_ c = Disconnecting) /\ events_ ch = None_ /\
  (exists ev, watches (poller s) (fd_ ch) ev true).

Definition is_dead (id : nat) (s : TCPServer) (c : TCPConnection) (ch : Channel) : Prop :=
  connections_ s !! name_ c <> Some id /\ TDestroy id ∉ tasks s /\ channel_table_ (poller s) !! fd_ ch <> Some id /\
  state_ c = Disconnted.

Definition conn_ok (s : TCPServer) (id : nat) (c : TCPConnection) : Prop :=
  bytes_ok c /\
  exists ch, channels (poller s) !! id = Some ch /\ 0 <= fd_ ch /\
    (is_open id s c ch \/ is_closed id s c ch \/ is_dead id s c ch).

Record Inv (s : TCPServer) : Prop := {
  inv_poller : wf (poller s);
  inv_conns id c : heap s !! id = Some c -> conn_ok s id c;
  inv_map name id : connections_ s !! name = Some id -> exists c, heap s !! id = Some c /\ name_ c = name;
  inv_table f id : channel_table_ (poller s) !! f = Some id -> exists c, heap s !! id = Some c;
  inv_tasks : Forall (fun t => exists id c, t = TDestroy id /\ heap s !! id = Some c) (tasks s);
  inv_nodup : NoDup (tasks s)
}.

(** ** Lemmas *)

(** What an operation keeps of the other connections. *)
Record others (id : nat) (s s' : TCPServer) : Prop := {
  o_heap id' : id' <> id -> heap s' !! id' = heap s !! id';
  o_chan id' ch : id' <> id -> channels (poller s) !! id' = Some ch ->
    exists ch', channels (poller s') !! id' = Some ch' /\ fd_ ch' = fd_ ch /\ events_ ch' = events_ ch;
  o_table f id' : id' <> id -> channel_table_ (poller s') !! f = Some id' <-> channel_table_ (poller s) !! f = Some id';
  o_watch f id' ev ig : id' <> id -> channel_table_ (poller s) !! f = Some id' ->
    watches (poller s') f ev ig <-> watches (poller s) f ev ig;
  o_map name id' : id' <> id -> connections_ s' !! name = Some id' <-> connections_ s !! name = Some id';
  o_task id' : id' <> id -> TDestroy id' ∈ tasks s' <-> TDestroy id' ∈ tasks s
}.

Lemma others_ok id s s' id' c : others id s s' -> id' <> id -> conn_ok s id' c -> conn_ok s' id' c.
Proof.
  intros [_ Hc Ht Hx Hm Hk] Hne (Hb & ch & Hch & Hfd & Hp). split; [done|].
  destruct (Hc id' ch Hne Hch) as (ch' & Hch' & Ef & Ee). exists ch'. split; [done|]. rewrite Ef. split; [done|].
  pose proof (Hk id' Hne). pose proof (Hm (name_ c) id' Hne). pose proof (Ht (fd_ ch) id' Hne).
  destruct Hp as [(P1 & P2 & P3 & P4 & P5 & P6 & ev & P7)|[(P1 & P2 & P3 & P4 & P5 & ev & P7)|Hp]];
    [left|right; left|right; right]; unfold is_open, is_closed, is_dead, writing in *; rewrite Ef, ?Ee.
  - do 6 (split; [tauto|]). exists ev. by eapply Hx.
  - do 5 (split; [tauto|]). exists ev. by eapply Hx.
  - tauto.
Qed.

(** The invariant after an operation on one connection. *)
Lemma inv_change id s s' c' :
  Inv s -> others id s s' -> wf (poller s') -> heap s' !! id = Some c' -> conn_ok s' id c' ->
  (forall name, connections_ s' !! name = Some id -> name_ c' = name) ->
  Forall (fun t => exists id, t = TDestroy id) (tasks s') -> NoDup (tasks s') ->
  Inv s'.
Proof.
  intros [H1 H2 H3 H4 H5 H6] Ho Hw Hh Hc Hm Ht Hn. split; try done.
  - intros id' d Hd. destruct (decide (id' = id)) as [->|Hne]; [rewrite Hh in Hd; by injection Hd as <-|].
    rewrite (o_heap _ _ _ Ho) in Hd by done. by eapply others_ok, H2.
  - intros name id' Hname. destruct (decide (id' = id)) as [->|Hne]; [eauto|].
    rewrite (o_heap _ _ _ Ho) by done. apply H3. by apply (o_map _ _ _ Ho).
  - intros f id' Hf. destruct (decide (id' = id)) as [->|Hne]; [eauto|].
    rewrite (o_heap _ _ _ Ho) by done. eapply H4. by apply (o_table _ _ _ Ho).
  - apply Forall_forall. intros t Hin. rewrite Forall_forall in Ht. destruct (Ht t Hin) as [id' ->]. exists id'.
    destruct (decide (id' = id)) as [->|Hne]; [eauto|]. rewrite (o_heap _ _ _ Ho) by done.
    apply (o_task _ _ _ Ho) in Hin; [|done]. rewrite Forall_forall in H5. destruct (H5 _ Hin) as (i & c & [= <-] & Hc'). eauto.
Qed.

Definition opened (id : nat) (s : TCPServer) (c : TCPConnection) (ch : Channel) : Prop :=
  heap s !! id = Some c /\ channels (poller s) !! id = Some ch /\ 0 <= fd_ ch /\ bytes_ok c /\ is_open id s c ch.

(** What every operation on an open connection that does not close it gives. *)
Definition stays_open (id : nat) (r : outcome TCPServer) : Prop :=
  exists s c ch, r = Ok s /\ Inv s /\ opened id s c ch.

Lemma opened_of id s c : Inv s -> heap s !! id = Some c -> connections_ s !! name_ c = Some id -> exists ch, opened id s c ch.
Proof.
  intros HI Hc Hm. destruct (inv_conns s HI id c Hc) as (Hb & ch & Hch & Hfd & [Ho|[(Hn & _)|(Hn & _)]]); [|done..].
  by exists ch.
Qed.

(** A change of an open connection and of the events of its channel. *)
Lemma change_open id s c ch c' p' ch' :
  Inv s -> opened id s c ch ->
  wf p' -> channel_table_ p' = channel_table_ (poller s) -> channels p' !! id = Some ch' -> fd_ ch' = fd_ ch ->
  (forall id', id' <> id -> channels p' !! id' = channels (poller s) !! id') ->
  (forall g ev ig, g <> fd_ ch -> watches p' g ev ig <-> watches (poller s) g ev ig) ->
  Z.testbit (events_ ch') 0 = true -> (exists ev, watches p' (fd_ ch) ev false) ->
  name_ c' = name_ c -> bytes_ok c' -> (state_ c' = Connected \/ state_ c' = Disconnecting) ->
  (contents (output_buf_ c') <> [] -> writing ch' = true) ->
  stays_open id (Ok (set_conn id c' (set_poller p' s))).
Proof.
  intros HI (Hc & Hch & Hfd & Hb & Hm & Ht & Htab & Hst & Hw & _) Hwf Etab Hch' Ef Hframe Hwatch Hbit Hwat En Hb' Hst' Hw'.
  assert (Hlk : heap (set_conn id c' (set_poller p' s)) !! id = Some c') by apply lookup_insert_eq.
  assert (Ho : is_open id (set_conn id c' (set_poller p' s)) c' ch').
  { split; [cbn; by rewrite En|]. split; [done|]. split; [cbn; by rewrite Etab, Ef|]. do 3 (split; [done|]). by rewrite Ef. }
  eexists _, c', ch'. split; [done|]. split.
  - eapply (inv_change id s _ c' HI); try done.
    + split; cbn; intros; try done.
      * by apply lookup_insert_ne.
      * rewrite Hframe by done. eauto.
      * by rewrite Etab.
      * apply Hwatch. intros ->. congruence.
    + split; [done|]. exists ch'. rewrite Ef. split; [done|]. split; [done|]. by left.
    + intros name Hn. cbn in Hn. destruct (inv_map s HI name id Hn) as (d & Hd & <-). rewrite Hc in Hd. by injection Hd as <-.
    + eapply Forall_impl; [apply (inv_tasks s HI)|]. intros t (i & d & -> & _). eauto.
    + apply (inv_nodup s HI).
  - split; [done|]. split; [done|]. rewrite Ef. done.
Qed.

Lemma set_poller_id s : set_poller (poller s) s = s.
Proof. by destruct s. Qed.

Lemma change_conn id s c ch c' :
  Inv s -> opened id s c ch -> name_ c' = name_ c -> bytes_ok c' -> (state_ c' = Connected \/ state_ c' = Disconnecting) ->
  (contents (output_buf_ c') <> [] -> writing ch = true) ->
  stays_open id (Ok (set_conn id c' s)).
Proof.
  intros HI Ho **. rewrite <- (set_poller_id s). eapply change_open; try done; [apply (inv_poller s HI)|by destruct Ho as (_ & ? & _)|by destruct Ho as (_ & _ & _ & _ & _ & _ & _ & _ & _ & ? & _)|by destruct Ho as (_ & _ & _ & _ & _ & _ & _ & _ & _ & _ & ?)].
Qed.

(** The events of a registered channel. *)
Lemma poller_update id s c ch f : Inv s -> heap s !! id = Some c -> channels (poller s) !! id = Some ch -> 0 <= fd_ ch ->
  channel_table_ (poller s) !! fd_ ch = Some id ->
  exists p' ch', update_events f id (poller s) = Ok p' /\ wf p' /\ channel_table_ p' = channel_table_ (poller s) /\
    channels p' !! id = Some ch' /\ fd_ ch' = fd_ ch /\ events_ ch' = f (events_ ch) /\
    (forall id', id' <> id -> channels p' !! id' = channels (poller s) !! id') /\
    (forall g ev ig, g <> fd_ ch -> watches p' g ev ig <-> watches (poller s) g ev ig) /\
    (forall ev ig, watches (poller s) (fd_ ch) ev ig -> exists ev', watches p' (fd_ ch) ev' (xorb (f (events_ ch) =? None_) ig)).
Proof.
  intros HI Hc Hch Hfd Ht. assert (Hok : channel_ok id ch (poller s)) by (split; [done|]; split; [done|by right]).
  destruct (update_events_frame id ch f (poller s) (inv_poller s HI) Hok) as (p' & E & Hw & Htab & (ch' & Hc' & Hf & He) & Hfr).
  destruct (update_events_ok id ch f (poller s) (inv_poller s HI) Hok) as (q & E' & _ & _ & _ & Hwat).
  rewrite E in E'. injection E' as <-. rewrite Ht in Hwat. exists p', ch'. rewrite insert_id in Htab by done.
  do 7 (split; [done|]). split; [intros g ev ig Hne; rewrite Hwat; tauto|].
  intros ev ig Hx. eexists. apply Hwat. left. split; [done|]. split; [done|]. eauto.
Qed.

Lemma testbit_nonzero e n : Z.testbit e n = true -> (e =? None_) = false.
Proof. intros Hb. apply Z.eqb_neq. intros ->. unfold None_ in Hb. by rewrite Z.testbit_0_l in Hb. Qed.

Lemma writing_enabled e : negb (Z.land (Z.lor e Poller.Write) Poller.Write =? 0) = true.
Proof.
  apply negb_true_iff, Z.eqb_neq. intros E. assert (Hb : Z.testbit (Z.land (Z.lor e Poller.Write) Poller.Write) 2 = false) by by rewrite E.
  rewrite Z.land_spec, Z.lor_spec in Hb. change (Z.testbit Poller.Write 2) with true in Hb. by rewrite orb_true_r in Hb.
Qed.

Section Proofs.
Context {H : Handlers}.

Lemma is_writing id s ch : channels (poller s) !! id = Some ch -> IsWritingEnabled id s = Ok (writing ch).
Proof. intros Hch. unfold IsWritingEnabled, channel. by rewrite Hch. Qed.

Lemma deref_ok id s c : heap s !! id = Some c -> deref id s = Ok c.
Proof. intros Hc. unfold deref. by rewrite Hc. Qed.

Lemma send_in_loop_ok id msg s c ch : Inv s -> opened id s c ch -> state_ c = Connected ->
  stays_open id (SendInLoop id msg s).
Proof.
  intros HI Ho Hs. pose proof Ho as (Hc & Hch & Hfd & (Hib & Hob & Ha & Hr & Hw) & Hopen). unfold SendInLoop. rewrite (deref_ok id s c Hc), bind_ok.
  destruct (Write_spec (output_buf_ c) msg Hob) as (b & -> & Hb & Hcont). rewrite bind_ok. cbv zeta.
  set (c' := put_output b msg c). rewrite (is_writing id (set_conn id c' s) ch) by done. rewrite bind_ok.
  assert (Hb' : bytes_ok c').
  { split; [done|]. split; [done|]. cbn. rewrite Hcont, Ha, app_assoc. split; [done|]. split; [done|].
    intros Hws. by destruct (Hw Hws) as [_ ?]. }
  destruct (writing ch) eqn:Ew.
  - eapply change_conn; try done. by left.
  - unfold on_poller. cbn [poller set_conn].
    destruct Hopen as (_ & _ & Htab & _ & _ & Hbit & ev & Hwat).
    destruct (poller_update id s c ch (fun e => Z.lor e Poller.Write) HI Hc Hch Hfd Htab) as (p' & ch' & E & Hwf & Et & Hch' & Ef & Ee & Hfr & Hg & Hwat').
    assert (Hbit' : Z.testbit (Z.lor (events_ ch) Poller.Write) 0 = true) by by rewrite Z.lor_spec, Hbit.
    unfold EnableWriting. rewrite E, bind_ok. change (set_poller p' (set_conn id c' s)) with (set_conn id c' (set_poller p' s)).
    eapply change_open; try done; [by rewrite Ee|destruct (Hwat' _ _ Hwat) as [ev' Hx]; rewrite (testbit_nonzero _ 0 Hbit') in Hx; by exists ev'|by left|]. intros _. unfold writing. rewrite Ee. apply writing_enabled.
Qed.

Lemma shutdown_in_loop_ok id s c ch : Inv s -> opened id s c ch -> state_ c = Disconnecting ->
  stays_open id (ShutdownInLoop id s).
Proof.
  intros HI Ho Hs. pose proof Ho as (Hc & Hch & Hfd & (Hib & Hob & Ha & Hr & Hw) & Hopen). unfold ShutdownInLoop.
  rewrite (deref_ok id s c Hc), bind_ok, (is_writing id s ch), bind_ok by done.
  destruct (writing ch) eqn:Ew; [by eexists _, _, _|].
  assert (Hnil : contents (output_buf_ c) = []).
  { destruct (decide (contents (output_buf_ c) = [])) as [|Hn]; [done|]. destruct Hopen as (_ & _ & _ & _ & Hx & _). rewrite Hx in Ew; done. }
  eapply change_conn; try done; [|by right]. do 4 (split; [done|]). intros _. cbn. by rewrite Hs.
Qed.

Lemma actions_ok id l : forall s c ch, Inv s -> opened id s c ch -> stays_open id (act id l s).
Proof.
  induction l as [|a l IH]; intros s c ch HI Ho; [by eexists _, _, _|].
  pose proof Ho as (Hc & _). 
  assert (Hone : stays_open id (match a with Send_ msg => Send id msg s | Shutdown_ => Shutdown id s end)).
  { destruct a as [msg|]; unfold Send, Shutdown; rewrite (deref_ok id s c Hc), bind_ok; case_decide as Hs;
      [by eapply send_in_loop_ok|by eexists _, _, _| |by eexists _, _, _].
    destruct Ho as (_ & Hch & Hfd & (Hib & Hob & Ha & Hr & Hw) & Hm & Ht & Htab & Hst & Hwr).
    destruct (change_conn id s c ch (set_state Disconnecting c)) as (s1 & c1 & ch1 & [= E] & HI1 & Ho1); try done; [|by right|tauto|].
    - do 4 (split; [done|]). cbn. intros Hx. by destruct (Hw Hx).
    - rewrite E. pose proof Ho1 as (Hc1 & _). rewrite <- E in Hc1. cbn in Hc1. rewrite lookup_insert_eq in Hc1. injection Hc1 as <-.
      by eapply shutdown_in_loop_ok. }
  destruct Hone as (s1 & c1 & ch1 & E & HI1 & Ho1). destruct a; cbn [act]; rewrite E, bind_ok; by eapply IH.
Qed.
End Proofs.

(** ** Handlers of events *)

Class HandlersOk (H : Handlers) : Prop := {
  connection_handler_set : connection_handler_ <> None;
  message_handler_consumes h id data n l :
    message_handler_ = Some h -> h id data = (n, l) -> (n <= length data)%nat
}.

Definition closing (id : nat) (s : TCPServer) (c : TCPConnection) (ch : Channel) : Prop :=
  heap s !! id = Some c /\ channels (poller s) !! id = Some ch /\ 0 <= fd_ ch /\ bytes_ok c /\ is_closed id s c ch.

Definition handled (id : nat) (r : outcome TCPServer) : Prop :=
  exists s c ch, r = Ok s /\ Inv s /\ (opened id s c ch \/ closing id s c ch).

Lemma stays_handled id r : stays_open id r -> handled id r.
Proof. intros (s & c & ch & E & HI & Ho). exists s, c, ch. auto. Qed.

Section Events.
Context {H : Handlers} {HOk : HandlersOk H}.

Lemma handle_close_ok id s c ch : Inv s -> opened id s c ch -> handled id (HandleClose id s).
Proof.
  intros HI Ho. pose proof Ho as (Hc & Hch & Hfd & Hb & Hm & Ht & Htab & Hst & _ & _ & ev & Hwat). unfold HandleClose.
  rewrite (deref_ok id s c Hc), bind_ok.
  replace (bool_decide _ || bool_decide _) with true by (destruct Hst as [-> | ->]; by rewrite ?orb_true_r).
  cbn [ensure_check]. rewrite bind_ok.
  destruct (poller_update id s c ch (fun _ => None_) HI Hc Hch Hfd Htab) as (p' & ch' & E & Hwf & Et & Hch' & Ef & Ee & Hfr & Hg & Hwat').
  unfold on_poller, DisableAll. rewrite E, !bind_ok. unfold RemoveConnection. rewrite (deref_ok id _ c) by done. rewrite bind_ok.
  cbn [connections_ set_poller]. rewrite Hm. cbn [Z.eqb Pos.eqb ensure_check]. cbv zeta. rewrite bind_ok.
  set (s' := QueueTask _ _).
  assert (Etk : forall t, t ∈ tasks s' <-> t ∈ tasks s \/ t = TDestroy id).
  { intros t. unfold tasks, s'; cbn. rewrite !elem_of_app, list_elem_of_singleton. tauto. }
  assert (Hmap : forall name, connections_ s' !! name <> Some id).
  { intros name Hn. cbn in Hn. apply lookup_delete_Some in Hn as [Hne Hn]. destruct (inv_map s HI name id Hn) as (d & Hd & <-).
    rewrite Hc in Hd. by injection Hd as <-. }
  assert (Hcl : is_closed id s' c ch').
  { split; [apply Hmap|]. split; [apply Etk; by right|]. split; [cbn; by rewrite Et, Ef|]. split; [done|]. split; [by rewrite Ee|].
    rewrite Ef. by apply (Hwat' _ _ Hwat). }
  exists s', c, ch'. split; [done|]. split; [|right; rewrite <- Ef in Hfd; done].
  eapply (inv_change id s s' c HI); try done.
  - split; cbn -[tasks]; try done.
    + intros id' x Hne Hx. rewrite Hfr by done. eauto.
    + intros. by rewrite Et.
    + intros f id' ev' ig Hne Hf. apply Hg. intros ->. congruence.
    + intros name id' Hne. rewrite lookup_delete_Some. split; [tauto|]. intros Hn. split; [|done]. intros <-. rewrite Hm in Hn. congruence.
    + intros id' Hne. rewrite Etk. split; [|tauto]. intros [|[=]]; done.
  - split; [done|]. exists ch'. rewrite Ef. split; [done|]. split; [done|]. right. by left.
  - intros name Hn. by apply Hmap in Hn.
  - apply Forall_forall. intros t Hin. apply Etk in Hin as [Hin| ->]; [|eauto].
    pose proof (inv_tasks s HI) as Hall. rewrite Forall_forall in Hall. destruct (Hall t Hin) as (i & d & -> & _). eauto.
  - unfold tasks, s'; cbn. rewrite <- app_assoc. unfold tasks in Ht.
    pose proof (inv_nodup s HI) as Hnd. unfold tasks in Hnd. apply NoDup_app in Hnd as (N1 & N2 & N3).
    apply NoDup_app. split; [done|]. rewrite elem_of_app in Ht. split.
    + intros x Hx. apply not_elem_of_cons. split; [intros ->; tauto|by apply N2].
    + constructor; [tauto|done].
Qed.

Lemma suffix_drop n (l k : str) : l `suffix_of` k -> drop n l `suffix_of` k.
Proof. intros [x ->]. exists (x ++ take n l). by rewrite <- app_assoc, take_drop. Qed.

Lemma suffix_app (l k x : str) : l `suffix_of` k -> (l ++ x) `suffix_of` (k ++ x).
Proof. intros [y ->]. exists y. by rewrite app_assoc. Qed.

Lemma handle_read_ok id got s c ch : Inv s -> opened id s c ch ->
  (length (default [] got) <= readv_capacity (input_buf_ c))%nat -> handled id (HandleRead id got s).
Proof.
  intros HI Ho Hcap. pose proof Ho as (Hc & Hch & Hfd & (Hib & Hob & Ha & Hr & Hw) & Hm & Ht & Htab & Hst & Hwr & _). unfold HandleRead.
  rewrite (deref_ok id s c Hc), bind_ok.
  assert (Hchange : forall b data, buffer_wf b -> contents b `suffix_of` (received c ++ data) ->
    stays_open id (Ok (set_conn id (set_input b data c) s))).
  { intros b data Hb Hsuf. eapply change_conn; try done. }
  destruct got as [data|]; [change (default [] (Some data)) with data in *|change (default [] None) with (@nil ascii)].
  - destruct (ReadFD_spec (input_buf_ c) data Hib Hcap) as (b & -> & Hb & Hcont). rewrite bind_ok.
    destruct (Hchange b data Hb) as (s1 & c1 & ch1 & [= Es] & HI1 & Ho1); [rewrite Hcont; by apply suffix_app|].
    cbv zeta. rewrite Es. pose proof Ho1 as (Hc1 & _).
    assert (c1 = set_input b data c) as -> by (rewrite <- Es in Hc1; cbn in Hc1; rewrite lookup_insert_eq in Hc1; congruence).
    destruct (Z.ltb_spec 0 (Z.of_nat (length data))) as [Hn|Hn].
    + destruct message_handler_ as [h|] eqn:Eh; [|by eexists _, _, _; split; [done|]; split; [done|left]].
      destruct (h id (contents b)) as [used l] eqn:Eu. rewrite (deref_ok id s1 _ Hc1), bind_ok.
      pose proof (message_handler_consumes h id (contents b) used l Eh Eu) as Hle.
      pose proof (Consume_spec b used Hb) as Hcon. destruct (Consume b used) as [b2|e| |]; [|lia|done|done].
      destruct Hcon as (_ & Hb2 & Hc2). rewrite bind_ok.
      destruct (change_conn id s1 (set_input b data c) ch1 (set_input b2 [] (set_input b data c))) as (s2 & c2 & ch2 & [= E2] & HI2 & Ho2); try done.
      * destruct Ho1 as (_ & _ & _ & (_ & ? & ? & Hs1 & ?) & _). do 3 (split; [done|]). split; [|done]. cbn. rewrite app_nil_r, Hc2. by apply suffix_drop.
      * by destruct Ho1 as (_ & _ & _ & _ & _ & _ & _ & _ & ? & _).
      * apply stays_handled. rewrite E2. by eapply actions_ok.
    + replace (Z.of_nat (length data) =? 0) with true by lia. by eapply handle_close_ok.
  - cbn [ReadFD]. rewrite bind_ok. cbv beta zeta iota. cbn [Z.ltb Z.eqb Z.compare]. apply stays_handled, Hchange; [done|by rewrite app_nil_r].
Qed.

Lemma handle_write_ok id room s c ch : Inv s -> opened id s c ch -> stays_open id (HandleWrite id room s).
Proof.
  intros HI Ho. pose proof Ho as (Hc & Hch & Hfd & (Hib & Hob & Ha & Hr & Hw) & Hm & Ht & Htab & Hst & Hwr & Hbit & ev & Hwat). unfold HandleWrite.
  rewrite (is_writing id s ch Hch), bind_ok. destruct (writing ch) eqn:Ew; cbn [negb]; [|by eexists _, _, _].
  rewrite (deref_ok id s c Hc), bind_ok. cbv zeta. set (n := Z.min _ _). destruct (Z.leb_spec n 0) as [Hn|Hn]; [by eexists _, _, _|].
  pose proof (Consume_spec (output_buf_ c) (Z.to_nat n) Hob) as Hcon. pose proof (length_contents _ Hob) as Hlen.
  destruct (Consume (output_buf_ c) (Z.to_nat n)) as [b|e| |]; [|lia|done|done].
  destruct Hcon as (_ & Hb & Hcont). rewrite bind_ok.
  set (c' := take_output b _ c).
  assert (Hb' : bytes_ok c').
  { do 2 (split; [done|]). split; [cbn; by rewrite Hcont, <- app_assoc, take_drop|]. split; [done|].
    intros Hx. cbn in *. destruct (Hw Hx) as [E ?]. by rewrite Hcont, E, drop_nil. }
  case_decide as Hz; [|by eapply change_conn].
  assert (Hnil : contents b = []) by (apply nil_length_inv; by rewrite length_contents).
  destruct (poller_update id s c ch (fun e => Z.ldiff e Poller.Write) HI Hc Hch Hfd Htab) as (p' & ch' & E & Hwf & Et & Hch' & Ef & Ee & Hfr & Hg & Hwat').
  assert (Hbit' : Z.testbit (Z.ldiff (events_ ch) Poller.Write) 0 = true) by by rewrite Z.ldiff_spec, Hbit.
  unfold on_poller, DisableWriting. cbn [poller set_conn]. rewrite E, !bind_ok.
  change (set_poller p' (set_conn id c' s)) with (set_conn id c' (set_poller p' s)).
  destruct (change_open id s c ch c' p' ch') as (s1 & c1 & ch1 & [= E1] & HI1 & Ho1); try done;
    [by rewrite Ee|destruct (Hwat' _ _ Hwat) as [ev' Hx]; rewrite (testbit_nonzero _ 0 Hbit') in Hx; by exists ev'|].
  rewrite E1. case_decide as Hd; [|by eexists _, _, _].
  assert (Hs1 : state_ c1 = Disconnecting).
  { destruct Ho1 as (Hc1 & _). rewrite <- E1 in Hc1. cbn in Hc1. rewrite lookup_insert_eq in Hc1. by injection Hc1 as <-. }
  by eapply shutdown_in_loop_ok.
Qed.

Definition quiet (h : handler) : Prop := h = error_handler \/ h = write_handler.

Lemma handle_quiet id got room h s : quiet h ->
  forall c ch, Inv s -> (opened id s c ch \/ closing id s c ch) -> handled id (handle id got room h s).
Proof.
  intros [-> | ->] c ch HI Ho; cbn; [by eexists _, _, _|]. destruct Ho as [Ho|Hcl]; [by apply stays_handled; eapply handle_write_ok|].
  pose proof Hcl as (_ & Hch & _ & _ & _ & _ & _ & _ & He & _). unfold HandleWrite. rewrite (is_writing id s ch Hch), bind_ok.
  unfold writing. rewrite He. cbn [Z.land negb Z.eqb None_]. exists s, c, ch. auto.
Qed.

Lemma handle_all_quiet id got room l : Forall quiet l ->
  forall s c ch, Inv s -> (opened id s c ch \/ closing id s c ch) -> handled id (handle_all id got room l s).
Proof.
  induction 1 as [|h l Hq _ IH]; intros s c ch HI Ho; [by eexists _, _, _|]. cbn [handle_all].
  destruct (handle_quiet id got room h s Hq c ch HI Ho) as (s1 & c1 & ch1 & -> & HI1 & Ho1). rewrite bind_ok. by eapply IH.
Qed.
End Events.

Lemma watches_ignored p f ev ev' ig ig' : wf p -> watches p f ev ig -> watches p f ev' ig' -> ig = ig'.
Proof.
  intros Hw (i & e & Hi & Hr & _ & <-) (j & e' & Hj & Hr' & _ & <-).
  assert (i = j) as <- by (eapply (real_inj p); [done|exact Hi|exact Hj|congruence]). congruence.
Qed.

Lemma polled_open id s c : Inv s -> heap s !! id = Some c -> polled id s -> exists ch, opened id s c ch.
Proof.
  intros HI Hc (ch & ev & Hch & Htab & Hwat). destruct (inv_conns s HI id c Hc) as (Hb & ch' & Hch' & Hfd & Hp).
  rewrite Hch in Hch'. injection Hch' as <-. exists ch. do 4 (split; [done|]).
  destruct Hp as [Ho|[(_ & _ & _ & _ & _ & ev' & Hw)|(_ & _ & Hn & _)]]; [done| |done].
  pose proof (watches_ignored _ _ _ _ _ _ (inv_poller s HI) Hwat Hw). done.
Qed.

(** A change of nothing but the order of the tasks. *)
Lemma inv_same s s' : Inv s -> poller s' = poller s -> heap s' = heap s -> connections_ s' = connections_ s ->
  tasks s' ≡ₚ tasks s -> Inv s'.
Proof.
  intros [H1 H2 H3 H4 H5 H6] Ep Eh Ec Et. split; rewrite ?Ep, ?Eh, ?Ec; try done.
  - intros id c Hc. destruct (H2 id c Hc) as (Hb & ch & Hch & Hfd & Hp). split; [done|]. exists ch. rewrite Ep.
    do 2 (split; [done|]). unfold is_open, is_closed, is_dead in *. by rewrite Ep, Ec, Et.
  - by rewrite Et.
  - by rewrite Et.
Qed.

Lemma set_conn_id id c s : heap s !! id = Some c -> set_conn id c s = s.
Proof. intros Hc. destruct s. unfold set_conn. cbn in *. by rewrite insert_id. Qed.

Section Loop.
Context {H : Handlers} {HOk : HandlersOk H}.

Lemma events_ok id e got room s c : Inv s -> heap s !! id = Some c -> polled id s -> plausible e ->
  (length (default [] got) <= readv_capacity (input_buf_ c))%nat -> handled id (events_of id e got room s).
Proof.
  intros HI Hc Hp Hpl Hcap. destruct (polled_open id s c HI Hc Hp) as [ch Ho]. pose proof Ho as (_ & Hch & Hfd & Hb & Hopen).
  unfold events_of, channel. rewrite Hch. cbn [the]. rewrite bind_ok. cbv zeta. set (c1 := set_received_events e ch).
  destruct (change_open id s c ch c (set_channel id c1 (poller s)) c1) as (s1 & c' & ch1 & [= E] & HI1 & Ho1); try done.
  { eapply set_channel_wf; [apply (inv_poller s HI)|done..]. }
  { apply lookup_insert_eq. }
  { intros. by apply lookup_insert_ne. }
  { by destruct Hopen as (_ & _ & _ & _ & _ & ? & _). }
  { by destruct Hopen as (_ & _ & _ & _ & _ & _ & ?). }
  { by destruct Hopen as (_ & _ & _ & ? & _). }
  { by destruct Hopen as (_ & _ & _ & _ & ? & _). }
  rewrite set_conn_id in E by done. rewrite E.
  assert (c' = c) as -> by (destruct Ho1 as (Hc1 & _); rewrite <- E in Hc1; cbn in Hc1; congruence).
  clear E. unfold plausible in Hpl. unfold HandleEvents in *. cbn [received_events_ set_received_events c1] in *.
  destruct (has e POLLHUP && negb (has e POLLIN)).
  - destruct (has e (Z.lor (Z.lor POLLIN POLLPRI) POLLRDHUP)).
    { exfalso. apply Hpl; rewrite !elem_of_app, !list_elem_of_singleton; tauto. }
    cbn [app handle_all handle]. destruct (handle_close_ok id s1 c ch1 HI1 Ho1) as (s2 & c2 & ch2 & -> & HI2 & Ho2).
    rewrite bind_ok. eapply handle_all_quiet; [|done..]. unfold quiet.
    destruct (has e (Z.lor POLLERR POLLNVAL)), (has e POLLOUT); repeat first [apply List.Forall_nil|apply List.Forall_cons]; auto.
  - assert (Hread : forall l, Forall quiet l -> handled id (handle_all id got room
        ((if has e (Z.lor (Z.lor POLLIN POLLPRI) POLLRDHUP) then [read_handler] else []) ++ l) s1)).
    { intros l Hl. destruct (has e (Z.lor (Z.lor POLLIN POLLPRI) POLLRDHUP)); cbn [app handle_all handle]; [|eapply handle_all_quiet; [exact Hl|exact HI1|left; exact Ho1]].
      destruct (handle_read_ok id got s1 c ch1 HI1 Ho1 Hcap) as (s2 & c2 & ch2 & -> & HI2 & Ho2).
      rewrite bind_ok. by eapply handle_all_quiet. }
    assert (Hq : Forall quiet (if has e POLLOUT then [write_handler] else [])).
    { destruct (has e POLLOUT); repeat first [apply List.Forall_nil|apply List.Forall_cons]. by right. }
    destruct (has e (Z.lor POLLERR POLLNVAL)); cbn [app handle_all handle]; rewrite ?bind_ok; by apply Hread.
Qed.

Lemma accept_ok id fd s : Inv s -> heap s !! id = None -> channels (poller s) !! id = None -> 0 <= fd ->
  channel_table_ (poller s) !! fd = None -> connections_ s !! next_conn_id_ s = None ->
  stays_open id (HandleNewConnection id fd s).
Proof.
  intros HI Hh Hch Hfd Htab Hname. unfold HandleNewConnection. cbn [connections_ set_poller set_conn set_next]. rewrite Hname.
  cbv zeta. unfold EstablishConnection. rewrite (deref_ok id _ (mk_TCPConnection (next_conn_id_ s) Connecting default_buffer default_buffer [] [] [] false))
    by (cbn; apply lookup_insert_eq).
  rewrite bind_ok. cbn [state_ bool_decide ensure_check]. rewrite bool_decide_true by done. cbn [ensure_check]. rewrite bind_ok.
  set (p0 := set_channel id (Channel_make fd) (poller s)).
  assert (Hw0 : wf p0) by (apply new_channel_wf; [apply (inv_poller s HI)|done]).
  assert (Hok : channel_ok id (Channel_make fd) p0) by (split; [apply lookup_insert_eq|]; split; [done|by left]).
  destruct (update_events_frame id _ (fun e => Z.lor e Poller.Read) p0 Hw0 Hok) as (p' & E & Hw & Et & (ch' & Hch' & Hf & He) & Hfr).
  destruct (update_events_ok id _ (fun e => Z.lor e Poller.Read) p0 Hw0 Hok) as (q & E' & _ & _ & _ & Hwat).
  rewrite E in E'. injection E' as <-. change (channel_table_ p0 !! fd_ (Channel_make fd)) with (channel_table_ (poller s) !! fd) in Hwat.
  rewrite Htab in Hwat. cbn [fd_ Channel_make] in *.
  unfold on_poller, EnableReading. match goal with |- context [update_events _ id ?q] => change q with p0 end. rewrite E, !bind_ok.
  set (s' := set_poller p' _).
  set (c := mk_TCPConnection (next_conn_id_ s) Connected default_buffer default_buffer [] [] [] false).
  assert (Hc : heap s' !! id = Some c) by (cbn; by rewrite lookup_insert_eq).
  assert (Hno : forall name, connections_ s !! name <> Some id).
  { intros name Hn. destruct (inv_map s HI name id Hn) as (d & Hd & _). congruence. }
  assert (Hbuf : buffer_wf default_buffer /\ contents default_buffer = []) by apply make_buffer_wf.
  assert (Ho : is_open id s' c ch').
  { split; [cbn; apply lookup_insert_eq|]. split.
    - intros Hin. pose proof (inv_tasks s HI) as Hall. rewrite Forall_forall in Hall. destruct (Hall _ Hin) as (i & d & [= <-] & Hd). congruence.
    - split; [cbn; rewrite Et, Hf; apply lookup_insert_eq|]. split; [by left|]. split; [by cbn|]. split; [by rewrite He|].
      eexists. rewrite Hf. apply Hwat. by left. }
  assert (Hb : bytes_ok c) by (do 2 (split; [apply Hbuf|]); split; [by cbn|split; [by exists []|done]]).
  assert (HI' : Inv s').
  { eapply (inv_change id s s' c HI); try done.
    - split; cbn -[tasks]; try done.
      + intros id' Hne. by rewrite !lookup_insert_ne.
      + intros id' x Hne Hx. rewrite Hfr by done. unfold p0; cbn. rewrite lookup_insert_ne by done. eauto.
      + intros f id' Hne. rewrite Et. unfold p0; cbn. rewrite lookup_insert_Some. split; [intros [[-> ?]|[? ?]]; congruence|].
        intros Hx. right. split; [|done]. intros <-. congruence.
      + intros f id' ev ig Hne Hx. rewrite Hwat. split; [intros [(-> & _)|[_ ?]]; [congruence|done]|].
        intros Hx'. right. split; [|done]. intros ->. congruence.
      + intros name id' Hne. rewrite lookup_insert_Some. split; [intros [[? ?]|[? ?]]; congruence|].
        intros Hx. right. split; [|done]. intros <-. congruence.
    - split; [done|]. exists ch'. rewrite Hf. split; [done|]. split; [done|]. by left.
    - intros name Hn. cbn in Hn. apply lookup_insert_Some in Hn as [[<- _]|[_ Hn]]; [done|]. by apply Hno in Hn.
    - eapply Forall_impl; [apply (inv_tasks s HI)|]. intros t (i & d & -> & _). eauto.
    - apply (inv_nodup s HI). }
  assert (Hopen : opened id s' c ch') by (do 2 (split; [done|]); rewrite Hf; done).
  destruct connection_handler_; [by eapply actions_ok|by eexists _, _, _].
Qed.

(** The handler of a connection that is down can do nothing. *)
Lemma act_dead id l s c : heap s !! id = Some c -> state_ c <> Connected -> act id l s = Ok s.
Proof.
  intros Hc Hn. induction l as [|[msg|] l IH]; cbn; [done|..]; unfold Send, Shutdown; rewrite (deref_ok id s c Hc), bind_ok, decide_False by done;
    by rewrite bind_ok.
Qed.

Lemma destroy_connection_ok id s rest : Inv s -> batch s = TDestroy id :: rest ->
  exists s', DestroyConnection id (set_batch rest (done_ s ++ [TDestroy id]) s) = Ok s' /\ Inv s'.
Proof.
  intros HI Hbatch. set (s1 := set_batch _ _ s).
  assert (Hin : TDestroy id ∈ tasks s) by (unfold tasks; rewrite Hbatch; set_solver).
  pose proof (inv_tasks s HI) as Hall. rewrite Forall_forall in Hall. destruct (Hall _ Hin) as (i & c & [= <-] & Hc).
  destruct (inv_conns s HI id c Hc) as (Hb & ch & Hch & Hfd & [(_ & Hn & _)|[Hcl|(_ & Hn & _)]]); [done| |done].
  destruct Hcl as (Hm & _ & Htab & Hst & He & ev & Hwat).
  unfold DestroyConnection. rewrite (deref_ok id s1 c) by done. rewrite bind_ok. cbv zeta.
  destruct (poller_update id s c ch (fun _ => None_) HI Hc Hch Hfd Htab) as (p' & ch' & E & Hwf & Et & Hch' & Ef & Ee & Hfr & Hg & _).
  unfold on_poller, DisableAll. cbn [poller set_conn set_batch s1]. rewrite E, !bind_ok.
  destruct connection_handler_ as [h|] eqn:Eh; [|by destruct (connection_handler_set Eh)].
  set (c' := set_state Disconnted c). set (s2 := set_poller p' (set_conn id c' s1)).
  rewrite (act_dead id _ s2 c') by (done || apply lookup_insert_eq). rewrite bind_ok.
  destruct (remove_ok id ch' p' Hwf Hch') as (p2 & E2 & Hwf2 & Et2 & Hch2 & Hwat2); [by rewrite Et, Ef|].
  cbn [poller s2 set_poller]. rewrite E2, bind_ok. eexists. split; [done|]. set (s3 := set_poller p2 s2).
  pose proof (inv_nodup s HI) as Hnd. unfold tasks in Hnd. rewrite Hbatch in Hnd.
  assert (Hperm : pending s ++ TDestroy id :: rest ≡ₚ TDestroy id :: pending s ++ rest) by (by rewrite Permutation_middle).
  rewrite Hperm in Hnd. apply NoDup_cons in Hnd as [Hnin Hnd].
  assert (Etk : tasks s ≡ₚ TDestroy id :: tasks s3) by (unfold tasks; by rewrite Hbatch).
  destruct (Hch2 id ch' Hch') as (ch2 & Hch2' & Ef2 & Ee2).
  assert (Hmap : forall name, connections_ s !! name <> Some id).
  { intros name Hn. destruct (inv_map s HI name id Hn) as (d & Hd & <-). congruence. }
  eapply (inv_change id s s3 c' HI); try done.
  - split; cbn -[tasks]; try done.
    + intros id' Hne. by apply lookup_insert_ne.
    + intros id' x Hne Hx. rewrite <- (Hfr id' Hne) in Hx. by apply Hch2.
    + intros f id' Hne. rewrite Et2, Et, Ef, lookup_delete_Some. split; [tauto|]. intros Hx. split; [|done]. intros <-. congruence.
    + intros f id' ev' ig Hne Hx. assert (Hf : f <> fd_ ch) by (intros ->; congruence). rewrite Hwat2, Ef. rewrite Hg by done. tauto.
    + intros id' Hne. rewrite Etk, elem_of_cons. split; [tauto|]. intros [[= ->]|]; done.
  - apply lookup_insert_eq.
  - split; [destruct Hb as (? & ? & ? & ? & Hw); do 4 (split; [done|]); intros Hx; by destruct (Hw Hx)|]. exists ch2. rewrite Ef2, Ef. do 2 (split; [done|]). right. right.
    split; [cbn; apply Hmap|]. split; [done|]. split; [|done]. cbn. by rewrite Et2, Ef2, Ef, lookup_delete_eq.
  - intros name Hn. by apply Hmap in Hn.
  - apply Forall_forall. intros t Ht. destruct (Hall t) as (i & d & -> & _); [rewrite Etk; by right|eauto].
Qed.

Lemma free_ok id s calls : Inv s -> unowned id s calls -> Inv (free id s).
Proof.
  intros HI (Hm & Hp & Hb & _).
  assert (Htk : TDestroy id ∉ tasks s) by (unfold tasks; set_solver).
  assert (Hnt : forall f, channel_table_ (poller s) !! f <> Some id).
  { intros f Hf. destruct (inv_table s HI f id Hf) as [c Hc]. destruct (wf_table _ (inv_poller s HI) f id Hf) as (i & e & d & Hd & Hfd & _).
    destruct (inv_conns s HI id c Hc) as (_ & ch & Hch & _ & [(Hn & _)|[(_ & Hn & _)|(_ & _ & Hn & _)]]); [by apply Hm in Hn|done|].
    rewrite Hd in Hch. injection Hch as <-. congruence. }
  destruct HI as [H1 H2 H3 H4 H5 H6]. split; cbn -[tasks]; try done.
  - by apply drop_channel_wf.
  - intros id' c Hc. apply lookup_delete_Some in Hc as [Hne Hc]. eapply others_ok; [|exact (not_eq_sym Hne)|by apply H2].
    split; cbn -[tasks]; try done.
    + intros. by apply lookup_delete_ne.
    + intros id2 x Hne2 Hx. rewrite lookup_delete_ne by done. eauto.
  - intros name id' Hn. destruct (H3 name id' Hn) as (c & Hc & E). exists c. rewrite lookup_delete_ne; [done|]. intros <-. by apply Hm in Hn.
  - intros f id' Hf. destruct (H4 f id' Hf) as [c Hc]. exists c. rewrite lookup_delete_ne; [done|]. intros <-. by apply Hnt in Hf.
  - apply Forall_forall. intros t Ht. rewrite Forall_forall in H5. destruct (H5 t Ht) as (i & c & -> & Hc). exists i, c. split; [done|].
    rewrite lookup_delete_ne; [done|]. by intros <-.
Qed.

Lemma inv_step w r : Inv (fst w) -> snd w = [] -> step false w r -> exists s, r = Ok (s, []) /\ Inv s.
Proof.
  intros HI Hc Hs. destruct Hs as [s calls id fd Hb Hh Hch Hfd Htab Hn|s calls id c e got room Hb Hh Hp Hpl Hcap|s calls Hb|s calls t rest Hb|
    s calls id Hu|s calls id msg t ?|s calls id c ?|s x t y]; cbn in *; try done; try subst calls; unfold with_calls.
  - destruct (accept_ok id fd s HI Hh Hch Hfd Htab Hn) as (s' & _ & _ & -> & HI' & _). rewrite bind_ok. eauto.
  - destruct (events_ok id e got room s c HI Hh Hp Hpl Hcap) as (s' & _ & _ & -> & HI' & _). rewrite bind_ok. eauto.
  - eexists. split; [done|]. eapply inv_same; try done. unfold tasks. rewrite Hb. cbn. by rewrite app_nil_r.
  - pose proof (inv_tasks s HI) as Hall. rewrite Forall_forall in Hall. destruct (Hall t) as (id & c & -> & _); [unfold tasks; rewrite Hb; set_solver|].
    destruct (destroy_connection_ok id s rest HI Hb) as (s' & E & HI'). cbn [run_task]. rewrite E, bind_ok. eauto.
  - eexists. split; [done|]. by eapply free_ok.
  - by destruct x.
Qed.

Lemma reachable_inv w : reachable false w -> Inv (fst w) /\ snd w = [].
Proof.
  induction 1 as [|w w' _ [HI Hc] Hs].
  - split; [|done]. split; try done; first [by split|apply NoDup_nil_2|apply List.Forall_nil].
  - destruct (inv_step w (Ok w') HI Hc Hs) as (s & [= ->] & HI'). done.
Qed.
End Loop.

(** ** Properties *)



(** An empty message keeps the connection from ever shutting its socket down: writing
    is enabled for it, and as [write] then has nothing to write the handler always takes
    it for a failure: the channel stays ready for writing, and the shutdown waits for a write
    that never comes. *)
Theorem empty_message_blocks_shutdown s id c ch :
  Inv s -> opened id s c ch -> state_ c = Connected -> contents (output_buf_ c) = [] -> write_shut c = false ->
  exists s' c', act id [Send_ []; Shutdown_] s = Ok s' /\
    heap s' !! id = Some c' /\ state_ c' = Disconnecting /\ write_shut c' = false /\
    forall room, HandleWrite id room s' = Ok s'.
Proof.
  intros HI Ho Hs Hnil Hws.
  assert (Hsend : exists s1 c1 ch1, Send id [] s = Ok s1 /\ heap s1 !! id = Some c1 /\ channels (poller s1) !! id = Some ch1 /\
    state_ c1 = Connected /\ write_shut c1 = false /\ writing ch1 = true /\ readable_size (output_buf_ c1) = 0%nat).
  { pose proof Ho as (Hc & Hch & Hfd & (Hib & Hob & Ha & Hr & Hw) & Hm & Ht & Htab & _). unfold Send. rewrite (deref_ok id s c Hc), bind_ok, decide_True by done.
    unfold SendInLoop. rewrite (deref_ok id s c Hc), bind_ok.
    destruct (Write_spec (output_buf_ c) [] Hob) as (b & -> & Hb & Hcont). rewrite bind_ok. cbv zeta.
    rewrite Hnil in Hcont. assert (Hz : readable_size b = 0%nat) by (by rewrite <- length_contents, Hcont).
    set (c1 := put_output b [] c). rewrite (is_writing id (set_conn id c1 s) ch) by done. rewrite bind_ok. destruct (writing ch) eqn:Ew.
    - exists (set_conn id c1 s), c1, ch. split; [done|]. split; [apply lookup_insert_eq|done].
    - destruct (poller_update id s c ch (fun e => Z.lor e Poller.Write) HI Hc Hch Hfd Htab) as (p' & ch' & E & _ & _ & Hch' & _ & Ee & _).
      unfold on_poller, EnableWriting. cbn [poller set_conn]. rewrite E, bind_ok. eexists _, c1, ch'. split; [done|].
      split; [apply lookup_insert_eq|]. do 3 (split; [done|]). split; [|done]. unfold writing. rewrite Ee. apply writing_enabled. }
  destruct Hsend as (s1 & c1 & ch1 & E & Hc1 & Hch1 & Hs1 & Hw1 & Hwr & Hz). cbn [act]. rewrite E, bind_ok.
  unfold Shutdown. rewrite (deref_ok id s1 c1 Hc1), bind_ok, decide_True by done.
  set (c2 := set_state Disconnecting c1). set (s2 := set_conn id c2 s1).
  assert (Hc2 : heap s2 !! id = Some c2) by apply lookup_insert_eq.
  unfold ShutdownInLoop. rewrite (deref_ok id s2 c2 Hc2), bind_ok, (is_writing id s2 ch1), bind_ok by done. rewrite Hwr.
  exists s2, c2. do 4 (split; [done|]). intros room. unfold HandleWrite. rewrite (is_writing id s2 ch1), bind_ok by done. rewrite Hwr. cbn [negb].
  rewrite (deref_ok id s2 c2 Hc2), bind_ok. cbv zeta. cbn [output_buf_ c2 set_state]. rewrite Hz.
  destruct (Z.leb_spec (Z.min room (Z.of_nat 0)) 0); [done|lia].
Qed.

(** ** Runs that go wrong *)

(** A user that sets no handlers, and one that answers each message with itself. *)
Definition unset : Handlers := {| connection_handler_ := None; message_handler_ := None |}.
Definition echo : Handlers := {|
  connection_handler_ := Some (fun _ _ => []);
  message_handler_ := Some (fun _ data => (length data, [Send_ data]))
|}.

Definition ok_or (s : TCPServer) (r : outcome TCPServer) : TCPServer := match r with Ok s => s | _ => s end.

(** One connection is accepted, and the peer closes it. *)
Definition accepted_by (H : Handlers) : TCPServer := ok_or make (HandleNewConnection 1 5 make).
Definition closed_by (H : Handlers) : TCPServer := ok_or make (events_of 1 POLLIN (Some []) 0 (accepted_by H)).
Definition swap_tasks (s : TCPServer) : TCPServer :=
  mk_TCPServer (poller s) (heap s) (connections_ s) (next_conn_id_ s) [] (pending s) [].

Lemma reach_by {H : Handlers} threads w w' r : reachable threads w -> step threads w r -> r = Ok w' -> reachable threads w'.
Proof. intros Hr Hs ->. by eapply reachable_step. Qed.

Lemma accepted_reachable (H : Handlers) threads :
  HandleNewConnection 1 5 make = Ok (accepted_by H) -> reachable threads (accepted_by H, []).
Proof.
  intros E. eapply reach_by; [apply reachable_make|by apply (step_accept threads make [] 1 5)|]. unfold with_calls. by rewrite E.
Qed.

Lemma pollin_plausible : plausible POLLIN.
Proof. intros Hin. exfalso. revert Hin. vm_compute. intros Hin. by apply list_elem_of_singleton in Hin. Qed.

Lemma closed_reachable (H : Handlers) threads c :
  HandleNewConnection 1 5 make = Ok (accepted_by H) -> heap (accepted_by H) !! 1%nat = Some c ->
  batch (accepted_by H) = [] -> polled 1 (accepted_by H) ->
  events_of 1 POLLIN (Some []) 0 (accepted_by H) = Ok (closed_by H) -> reachable threads (closed_by H, []).
Proof.
  intros E Hc Hb Hp E'. eapply reach_by; [by apply accepted_reachable| |].
  - apply (step_events threads (accepted_by H) [] 1 c POLLIN (Some []) 0); try done; [apply pollin_plausible|cbn; lia].
  - unfold with_calls. by rewrite E'.
Qed.

(** A server without a connection handler dies when its first connection ends: the
    handler is called without the test that [EstablishConnection] makes. *)
Theorem unset_handler_throws :
  exists s, @reachable unset false (s, []) /\ @step unset false (s, []) (Throw bad_function_call).
Proof.
  exists (swap_tasks (closed_by unset)). split.
  - eapply (@reachable_step unset); [|by apply (@step_swap unset)].
    eapply closed_reachable; try (vm_compute; reflexivity).
    eexists _, _. split; [vm_compute; reflexivity|]. split; [vm_compute; reflexivity|]. exists 0%nat, (mk_pollfd 5 3 0). by vm_compute.
  - pose proof (@step_task unset false (swap_tasks (closed_by unset)) [] (TDestroy 1) []) as Hs.
    match type of Hs with _ -> step _ _ ?r => replace r with (@Throw world bad_function_call) in Hs by (vm_compute; reflexivity) end.
    apply Hs. vm_compute. reflexivity.
Qed.

(** The run of [send_after_close]: the message is queued behind the destruction, when the
    tasks of that turn were taken. *)
Definition queued_late : TCPServer := QueueTask (TSend 1 []) (swap_tasks (closed_by echo)).
Definition destroyed : TCPServer := ok_or make (DestroyConnection (H := echo) 1 (set_batch [] [TDestroy 1] queued_late)).
Definition freed : TCPServer := free 1 (swap_tasks destroyed).

(** [Send] on another thread is not safe: its task has the bare address of the
    connection, and nobody looks at the state again when it runs.  A connection that the
    peer has closed is still [Connected] until it is destroyed, so a message sent then can
    be written into a connection that was freed; and when the task runs in the same turn
    it registers the channel of the dead connection with the poller again. *)
Theorem send_after_close :
  (exists s, @reachable echo true (s, []) /\ @step echo true (s, []) Undef) /\
  (exists s', run_task (H := echo) (TSend 1 []) destroyed = Ok s' /\
     channel_table_ (poller destroyed) !! 5 = None /\ channel_table_ (poller s') !! 5 = Some 1%nat).
Proof.
  split.
  - exists freed. split.
    + eapply (@reachable_step echo); [|apply (@step_free echo)].
      2: { repeat split; try (intros; vm_compute; set_solver). }
      eapply (@reachable_step echo); [|by apply (@step_swap echo)].
      eapply (reach_by (H := echo)); [|apply (@step_task echo true queued_late [] (TDestroy 1) []); vm_compute; reflexivity|vm_compute; reflexivity].
      eapply (@reachable_step echo); [|apply (@step_queue echo true (swap_tasks (closed_by echo)) [] (TSend 1 []) [])].
      eapply (@reachable_step echo); [|by apply (@step_swap echo)].
      change [TSend 1 []] with ([] ++ [TSend 1 []]).
      eapply (@reachable_step echo); [|apply (@step_send echo true (closed_by echo) [] 1 []); [done|vm_compute; reflexivity]].
      eapply closed_reachable; try (vm_compute; reflexivity).
      eexists _, _. split; [vm_compute; reflexivity|]. split; [vm_compute; reflexivity|]. exists 0%nat, (mk_pollfd 5 3 0). by vm_compute.
    + pose proof (@step_task echo true freed [] (TSend 1 []) []) as Hs.
      match type of Hs with _ -> step _ _ ?r => replace r with (@Undef world) in Hs by (vm_compute; reflexivity) end.
      apply Hs. vm_compute. reflexivity.
  - eexists. split; [vm_compute; reflexivity|]. by vm_compute.
Qed.

(** ** Witnesses *)

#[global] Instance echo_ok : HandlersOk echo.
Proof. split; [done|]. intros h id data n l [= <-] [= <- _]. done. Qed.

Definition sample_conn : TCPConnection := mk_TCPConnection 0 Connected default_buffer default_buffer [] [] [] false.

Lemma server_sample_reachable : @reachable echo false (accepted_by echo, []).
Proof. apply (accepted_reachable echo). vm_compute. reflexivity. Qed.

Lemma sample_lookup : heap (accepted_by echo) !! 1%nat = Some sample_conn.
Proof. vm_compute. reflexivity. Qed.

Lemma sample_inv : Inv (accepted_by echo).
Proof. exact (proj1 (reachable_inv (H := echo) _ server_sample_reachable)). Qed.

Lemma sample_opened : exists ch, opened 1 (accepted_by echo) sample_conn ch.
Proof. apply opened_of; [apply sample_inv|apply sample_lookup|vm_compute; reflexivity]. Qed.


Lemma empty_message_blocks_shutdown_witness :
  exists s' c', act 1 [Send_ []; Shutdown_] (accepted_by echo) = Ok s' /\
    heap s' !! 1%nat = Some c' /\ state_ c' = Disconnecting /\ write_shut c' = false /\
    forall room, HandleWrite 1 room s' = Ok s'.
Proof.
  destruct sample_opened as [ch Ho].
  apply (empty_message_blocks_shutdown (accepted_by echo) 1 sample_conn ch);
    [apply sample_inv|apply Ho|reflexivity|vm_compute; reflexivity|reflexivity].
Defined.
