(* ===== verification/LockfreeStack.v ===== *)
(** * The lock-free stack

    Models LockfreeStack/lstack.h: a stack of bounded size whose nodes live in one buffer,
    linked from two heads ([head_] and the free list [free_]) that are changed by
    compare-and-swap together with a tag against the ABA problem.  Every access to shared
    memory is a step of its own, so the steps of the threads interleave in any order
    (memory is sequentially consistent, as the atomics of the code are; a weak
    compare-and-swap may also fail without reason).

    Each operation has a step at which it takes effect: the model records it as an
    [event], and the theorem says that the events in their order are a run of a stack. *)

From S2P Require Import Prelude Threads.

#[local] Open Scope Z_scope.

(** ** State *)

Section LStack.
Context {T : Type} (init : T).

Record Node := mk_Node { value : T; next : option nat }.

(** A pointer to a node is its index in the buffer. *)
Record Head := mk_Head { aba_tag : Z; node : option nat }.

#[global] Instance Head_eq_dec : EqDecision Head.
Proof. solve_decision. Defined.

Record LStack := mk_LStack {
  node_buf_ : list Node;
  head_ : Head;
  free_ : Head;
  size_ : Z
}.

Definition set_buf (b : list Node) (s : LStack) : LStack := mk_LStack b (head_ s) (free_ s) (size_ s).
Definition set_head (h : Head) (s : LStack) : LStack := mk_LStack (node_buf_ s) h (free_ s) (size_ s).
Definition set_free (h : Head) (s : LStack) : LStack := mk_LStack (node_buf_ s) (head_ s) h (size_ s).
Definition set_size (n : Z) (s : LStack) : LStack := mk_LStack (node_buf_ s) (head_ s) (free_ s) n.

(** The constructor links the nodes into the free list; with [maxsize = 0] its loop runs
    out of the buffer. *)
Definition link (maxsize : nat) : list Node :=
  map (fun i => mk_Node init (if decide (S i < maxsize)%nat then Some (S i) else None)) (seq 0 maxsize).
Definition make (maxsize : nat) : outcome LStack :=
  if decide (maxsize = 0)%nat then Undef
  else Ok (mk_LStack (link maxsize) (mk_Head 0 None) (mk_Head 0 (Some 0%nat)) 0).

(** ** The loops on a head *)

(** Where [PopHead] is: before the load, before it reads [old_head.node->next], before the
    compare-and-swap. *)
Inductive popping := PLoad | PNext (old : Head) | PCas (old : Head) (new : option nat).

(** The test at the top of the loop. *)
Definition test (h : Head) : popping + option nat :=
  match node h with None => inr None | Some _ => inl (PNext h) end.

(** One access: the head after it, and where the loop goes on or what it returns.  A failed
    compare-and-swap loads the head again. *)
Definition PopHead (spurious : bool) (h : Head) (buf : list Node) (p : popping) : outcome (Head * (popping + option nat)) :=
  match p with
  | PLoad => Ok (h, test h)
  | PNext old =>
      n ← the (node old);
      nd ← the (buf !! n);
      Ok (h, inl (PCas old (next nd)))
  | PCas old new =>
      if bool_decide (h = old) && negb spurious
      then Ok (mk_Head (wrap 64 (aba_tag old + 1)) new, inr (node old))
      else Ok (h, test h)
  end.

(** [PushHead] of the node [n]. *)
Inductive pushing := QLoad (n : nat) | QNext (n : nat) (old : Head) | QCas (n : nat) (old : Head).

Definition PushHead (spurious : bool) (h : Head) (buf : list Node) (q : pushing)
    : outcome (Head * list Node * option pushing) :=
  match q with
  | QLoad n => Ok (h, buf, Some (QNext n h))
  | QNext n old =>
      nd ← the (buf !! n);
      Ok (h, <[n := mk_Node (value nd) (node old)]> buf, Some (QCas n old))
  | QCas n old =>
      if bool_decide (h = old) && negb spurious
      then Ok (mk_Head (wrap 64 (aba_tag old + 1)) (Some n), buf, None)
      else Ok (h, buf, Some (QNext n h))
  end.

(** ** The operations *)

Inductive result := RPush (done_ : bool) | RPop (v : option T).

(** Where an operation takes effect, and how. *)
Inductive event := EPush (v : T) | EFull | EPop (v : T) | EEmpty.

Definition result_of (e : event) : result :=
  match e with
  | EPush _ => RPush true
  | EFull => RPush false
  | EPop v => RPop (Some v)
  | EEmpty => RPop None
  end.

(** [Push]: the loop on the free list, the write of the value, the loop on the head, the
    count.  [Pop]: the loop on the head, the count, the read of the value, the loop on the
    free list. *)
Inductive pc :=
| Push1 (v : T) (p : popping)
| Push2 (v : T) (n : nat)
| Push3 (v : T) (q : pushing)
| Push4
| Pop1 (p : popping)
| Pop2 (n : nat)
| Pop3 (n : nat)
| Pop4 (v : T) (q : pushing)
| Return (r : result).

Definition Push (v : T) : pc := Push1 v PLoad.
Definition Pop : pc := Pop1 PLoad.

Definition exec (spurious : bool) (s : LStack) (p : pc) : outcome (LStack * pc * option event) :=
  match p with
  | Push1 v p =>
      x ← PopHead spurious (free_ s) (node_buf_ s) p;
      let s := set_free (fst x) s in
      match snd x with
      | inl p => Ok (s, Push1 v p, None)
      | inr None => Ok (s, Return (RPush false), Some EFull)
      | inr (Some n) => Ok (s, Push2 v n, None)
      end
  | Push2 v n =>
      nd ← the (node_buf_ s !! n);
      Ok (set_buf (<[n := mk_Node v (next nd)]> (node_buf_ s)) s, Push3 v (QLoad n), None)
  | Push3 v q =>
      x ← PushHead spurious (head_ s) (node_buf_ s) q;
      let s := set_buf (snd (fst x)) (set_head (fst (fst x)) s) in
      match snd x with
      | Some q => Ok (s, Push3 v q, None)
      | None => Ok (s, Push4, Some (EPush v))
      end
  | Push4 => Ok (set_size (wrap 64 (size_ s + 1)) s, Return (RPush true), None)
  | Pop1 p =>
      x ← PopHead spurious (head_ s) (node_buf_ s) p;
      let s := set_head (fst x) s in
      match snd x with
      | inl p => Ok (s, Pop1 p, None)
      | inr None => Ok (s, Return (RPop None), Some EEmpty)
      | inr (Some n) => nd ← the (node_buf_ s !! n); Ok (s, Pop2 n, Some (EPop (value nd)))
      end
  | Pop2 n => Ok (set_size (wrap 64 (size_ s - 1)) s, Pop3 n, None)
  | Pop3 n =>
      nd ← the (node_buf_ s !! n);
      Ok (s, Pop4 (value nd) (QLoad n), None)
  | Pop4 v q =>
      x ← PushHead spurious (free_ s) (node_buf_ s) q;
      let s := set_buf (snd (fst x)) (set_free (fst (fst x)) s) in
      match snd x with
      | Some q => Ok (s, Pop4 v q, None)
      | None => Ok (s, Return (RPop (Some v)), None)
      end
  | Return r => Ok (s, Return r, None)
  end.

(** ** Interleaving *)

(** A thread: its place, and the event of the operation it is in. *)
Record thread := mk_thread { at_pc : pc; effect : option event }.

(** The stack, the threads, and the events so far, the last one first. *)
Record config := mk_config { stack : LStack; threads : list thread; log : list event }.

Definition advance (i : nat) (c : config) (x : LStack * pc * option event) : config :=
  let '(s, p, e) := x in
  match threads c !! i with
  | Some t =>
      mk_config s (<[i := mk_thread p (match e with Some e => Some e | None => effect t end)]> (threads c))
        (match e with Some e => e :: log c | None => log c end)
  | None => c
  end.

Inductive step (c : config) : outcome config -> Prop :=
| step_call i t r o :
    threads c !! i = Some t -> at_pc t = Return r -> (exists v, o = Push v) \/ o = Pop ->
    step c (Ok (mk_config (stack c) (<[i := mk_thread o None]> (threads c)) (log c)))
| step_run i t spurious :
    threads c !! i = Some t -> (forall r, at_pc t <> Return r) ->
    step c (x ← exec spurious (stack c) (at_pc t); Ok (advance i c x)).

(** [reachable maxsize m k c]: [c] is reached by [m] threads in [k] steps. *)
Inductive reachable (maxsize m : nat) : nat -> config -> Prop :=
| reachable_start s :
    make maxsize = Ok s ->
    reachable maxsize m 0 (mk_config s (replicate m (mk_thread (Return (RPop None)) (Some EEmpty))) [])
| reachable_step k c c' : reachable maxsize m k c -> step c (Ok c') -> reachable maxsize m (S k) c'.

(** A thread that runs alone; [fails] says which of its steps would fail spuriously, if they
    are compare-and-swaps. *)
Fixpoint alone (i : nat) (fails : list bool) (c : config) : outcome config :=
  match fails with
  | [] => Ok c
  | spurious :: fails =>
      t ← the (threads c !! i);
      x ← exec spurious (stack c) (at_pc t);
      alone i fails (advance i c x)
  end.

Fixpoint failures (fails : list bool) : nat :=
  match fails with [] => 0 | b :: fails => (if b then 1 else 0) + failures fails end.

(** A schedule: a thread calls [Push v] or [Pop], or runs its next step. *)
Definition called (o : option T) : pc := match o with Some v => Push v | None => Pop end.

Definition exec1 (e : nat * option (option T)) (c : config) : outcome config :=
  t ← the (threads c !! fst e);
  match snd e, at_pc t with
  | Some o, Return _ => Ok (mk_config (stack c) (<[fst e := mk_thread (called o) None]> (threads c)) (log c))
  | Some _, _ | None, Return _ => Undef
  | None, p => x ← exec false (stack c) p; Ok (advance (fst e) c x)
  end.

Fixpoint run (l : list (nat * option (option T))) (c : config) : outcome config :=
  match l with
  | [] => Ok c
  | e :: l => c ← exec1 e c; run l c
  end.

(** ** The specification: a stack *)

(** [replay maxsize m log l]: a stack that answers as in [log] (last event first) holds [l].
    A push may be refused only when the elements and the nodes in the hands of the [m]
    threads are all there are. *)
Inductive replay (maxsize m : nat) : list event -> list T -> Prop :=
| replay_new : replay maxsize m [] []
| replay_push es l v : replay maxsize m es l -> replay maxsize m (EPush v :: es) (v :: l)
| replay_full es l : replay maxsize m es l -> (maxsize <= length l + m)%nat -> replay maxsize m (EFull :: es) l
| replay_pop es l v : replay maxsize m es (v :: l) -> replay maxsize m (EPop v :: es) l
| replay_empty es : replay maxsize m es [] -> replay maxsize m (EEmpty :: es) [].

(** ** The invariant *)

(** The list of the nodes from a pointer. *)
Fixpoint chain (buf : list Node) (h : option nat) (l : list nat) : Prop :=
  match l with
  | [] => h = None
  | n :: l => h = Some n /\ exists nd, buf !! n = Some nd /\ chain buf (next nd) l
  end.

(** The nodes in the hands of a thread. *)
Definition node_of (q : pushing) : nat := match q with QLoad n | QNext n _ | QCas n _ => n end.
Definition owned (t : thread) : list nat :=
  match at_pc t with
  | Push2 _ n | Pop2 n | Pop3 n => [n]
  | Push3 _ q | Pop4 _ q => [node_of q]
  | _ => []
  end.

(** A head that was loaded: it is the present one, or the tag has moved on. *)
Definition seen (h old : Head) : Prop := aba_tag old <= aba_tag h /\ (aba_tag old = aba_tag h -> old = h).

(** The pointer read from a node is still right if the head is. *)
Definition popping_ok (h : Head) (buf : list Node) (p : popping) : Prop :=
  match p with
  | PLoad => True
  | PNext old => seen h old /\ exists n, node old = Some n /\ (n < length buf)%nat
  | PCas old new => seen h old /\ exists n, node old = Some n /\ (n < length buf)%nat /\
      (old = h -> exists nd, buf !! n = Some nd /\ next nd = new)
  end.

Definition pushing_ok (h : Head) (buf : list Node) (q : pushing) : Prop :=
  match q with
  | QLoad n => True
  | QNext n old => seen h old
  | QCas n old => seen h old /\ exists nd, buf !! n = Some nd /\ next nd = node old
  end.

Definition holds (buf : list Node) (n : nat) (v : T) : Prop := exists nd, buf !! n = Some nd /\ value nd = v.

Definition pc_ok (s : LStack) (t : thread) : Prop :=
  let e := effect t in
  match at_pc t with
  | Push1 v p => e = None /\ popping_ok (free_ s) (node_buf_ s) p
  | Push2 v n => e = None
  | Push3 v q => e = None /\ holds (node_buf_ s) (node_of q) v /\ pushing_ok (head_ s) (node_buf_ s) q
  | Push4 => exists v, e = Some (EPush v)
  | Pop1 p => e = None /\ popping_ok (head_ s) (node_buf_ s) p
  | Pop2 n | Pop3 n => exists v, e = Some (EPop v) /\ holds (node_buf_ s) n v
  | Pop4 v q => e = Some (EPop v) /\ pushing_ok (free_ s) (node_buf_ s) q
  | Return r => exists e', e = Some e' /\ result_of e' = r
  end.

(** What the count lacks or has too much. *)
Definition uncounted (t : thread) : Z := match at_pc t with Push4 => 1 | Pop2 _ => -1 | _ => 0 end.

Record Inv (maxsize m k : nat) (c : config) (lh lf : list nat) : Prop := {
  inv_len : length (node_buf_ (stack c)) = maxsize;
  inv_threads : length (threads c) = m;
  inv_head : chain (node_buf_ (stack c)) (node (head_ (stack c))) lh;
  inv_free : chain (node_buf_ (stack c)) (node (free_ (stack c))) lf;
  inv_nodes : lh ++ lf ++ flat_map owned (threads c) ≡ₚ seq 0 maxsize;
  inv_tag : 0 <= aba_tag (head_ (stack c)) <= Z.of_nat k /\ 0 <= aba_tag (free_ (stack c)) <= Z.of_nat k;
  inv_pc i t : threads c !! i = Some t -> pc_ok (stack c) t;
  inv_log : exists l, Forall2 (holds (node_buf_ (stack c))) lh l /\ replay maxsize m (log c) l;
  inv_size : size_ (stack c) = wrap 64 (Z.of_nat (length lh) - sum_of uncounted (threads c))
}.

(** ** Lemmas *)

Definition moved (h h' : Head) : Prop := h' = h \/ aba_tag h < aba_tag h'.

Lemma seen_moved h h' old : seen h old -> moved h h' -> seen h' old.
Proof. intros [Hl He] [-> |Hlt]; [done|]. split; lia. Qed.

Lemma seen_refl h : seen h h.
Proof. split; [lia|done]. Qed.

Lemma chain_lookup buf l : forall h n, chain buf h l -> n ∈ l -> is_Some (buf !! n).
Proof.
  induction l as [|a l IH]; intros h n Hc Hn; [by apply elem_of_nil in Hn|]. destruct Hc as (_ & nd & Ha & Hc).
  apply elem_of_cons in Hn as [-> |Hn]; [by rewrite Ha|]. by eapply IH.
Qed.

Lemma chain_frame buf buf' l : forall h, chain buf h l -> (forall n, n ∈ l -> buf' !! n = buf !! n) -> chain buf' h l.
Proof.
  induction l as [|a l IH]; intros h Hc Hf; [done|]. destruct Hc as (-> & nd & Ha & Hc). split; [done|].
  exists nd. rewrite Hf by (by left). split; [done|]. apply IH; [done|]. intros n Hn. apply Hf. by right.
Qed.

Lemma chain_head buf h l n : chain buf h l -> h = Some n -> exists l' nd, l = n :: l' /\ buf !! n = Some nd /\ chain buf (next nd) l'.
Proof. destruct l as [|a l]; cbn; [intros -> [=]|]. intros (-> & nd & Ha & Hc) [= ->]. eauto. Qed.

Lemma popping_ok_frame h h' buf buf' p :
  popping_ok h buf p -> moved h h' -> length buf' = length buf ->
  (forall n, node h = Some n -> buf' !! n = buf !! n) -> popping_ok h' buf' p.
Proof.
  intros Hp Hm Hl Hf. destruct p as [|old|old new]; cbn in *; [done|..].
  - destruct Hp as (Hs & n & Hn & Hlt). split; [by eapply seen_moved|]. exists n. by rewrite Hl.
  - destruct Hp as (Hs & n & Hn & Hlt & Hnx). split; [by eapply seen_moved|]. exists n. rewrite Hl. do 2 (split; [done|]).
    intros ->. destruct Hm as [-> |Hm]; [|destruct Hs; lia]. rewrite Hf by done. by apply Hnx.
Qed.

Lemma pushing_ok_frame h h' buf buf' q :
  pushing_ok h buf q -> moved h h' -> buf' !! node_of q = buf !! node_of q -> pushing_ok h' buf' q.
Proof.
  intros Hq Hm Hf. destruct q as [n|n old|n old]; cbn in *; [done|by eapply seen_moved|].
  rewrite Hf. destruct Hq as [Hs Hn]. split; [by eapply seen_moved|done].
Qed.

Lemma holds_frame buf buf' n v : holds buf n v -> buf' !! n = buf !! n -> holds buf' n v.
Proof. unfold holds. by intros H ->. Qed.

(** A step of another thread that writes only the nodes of [o] keeps what holds for a thread. *)
Lemma pc_ok_frame s s' t (o : list nat) :
  pc_ok s t -> length (node_buf_ s') = length (node_buf_ s) ->
  moved (head_ s) (head_ s') -> moved (free_ s) (free_ s') ->
  (forall n, n ∉ o -> node_buf_ s' !! n = node_buf_ s !! n) ->
  (forall n, node (head_ s) = Some n -> n ∉ o) -> (forall n, node (free_ s) = Some n -> n ∉ o) ->
  (forall n, n ∈ owned t -> n ∉ o) -> pc_ok s' t.
Proof.
  intros Hp Hl Hh Hf Hb Hhn Hfn Ho. unfold pc_ok, owned in *.
  assert (Hown : forall n, n ∈ [n] -> n ∉ o -> node_buf_ s' !! n = node_buf_ s !! n) by auto.
  destruct (at_pc t) as [v p|v n|v q| |p|n|n|v q|r]; try done.
  - destruct Hp as [He Hp]. split; [done|]. eapply popping_ok_frame; eauto.
  - destruct Hp as (He & Hv & Hq). split; [done|]. specialize (Ho (node_of q) ltac:(by left)).
    split; [eapply holds_frame; eauto|]. eapply pushing_ok_frame; eauto.
  - destruct Hp as [He Hp]. split; [done|]. eapply popping_ok_frame; eauto.
  - destruct Hp as (v & He & Hv). exists v. split; [done|]. eapply holds_frame; eauto. apply Hb, Ho. by left.
  - destruct Hp as (v & He & Hv). exists v. split; [done|]. eapply holds_frame; eauto. apply Hb, Ho. by left.
  - destruct Hp as [He Hq]. split; [done|]. specialize (Ho (node_of q) ltac:(by left)). eapply pushing_ok_frame; eauto.
Qed.

(** What the loops do. *)
Lemma pop_head_ok spurious h buf p l :
  popping_ok h buf p -> chain buf (node h) l -> 0 <= aba_tag h < 2 ^ 64 - 1 ->
  exists h' x, PopHead spurious h buf p = Ok (h', x) /\
    match x with
    | inl p' => h' = h /\ popping_ok h buf p'
    | inr None => h' = h /\ l = []
    | inr (Some n) => aba_tag h' = aba_tag h + 1 /\ exists l', l = n :: l' /\ chain buf (node h') l'
    end.
Proof.
  intros Hp Hc Ht.
  assert (Htest : match test h with inl p' => h = h /\ popping_ok h buf p' | inr None => h = h /\ l = []
    | inr (Some n) => aba_tag h = aba_tag h + 1 /\ exists l', l = n :: l' /\ chain buf (node h) l' end).
  { unfold test. destruct (node h) as [n|] eqn:En.
    - split; [done|]. cbn. split; [apply seen_refl|]. exists n. split; [done|].
      destruct (chain_head buf _ l n Hc eq_refl) as (l' & nd & _ & Hn & _). by eapply lookup_lt_Some.
    - split; [done|]. destruct l as [|a l]; [done|]. by destruct Hc. }
  destruct p as [|old|old new]; cbn in Hp.
  - by exists h, (test h).
  - destruct Hp as (Hs & n & En & Hlt). destruct (lookup_lt_is_Some_2 buf n Hlt) as [nd Hnd].
    exists h, (inl (PCas old (next nd))). cbn. rewrite En. cbn [the]. rewrite bind_ok, Hnd. cbn [the]. rewrite bind_ok.
    split; [done|]. split; [done|]. split; [done|]. exists n. do 2 (split; [done|]). eauto.
  - destruct Hp as (Hs & n & En & Hlt & Hnx). cbn. case_bool_decide as Heq; [destruct spurious|]; cbn [andb negb]; [by exists h, (test h)| |by exists h, (test h)].
    subst old. eexists _, _. split; [done|]. cbn. rewrite En. split; [unfold wrap; rewrite Z.mod_small; lia|].
    rewrite En in Hc. destruct (chain_head buf _ l n Hc eq_refl) as (l' & nd & -> & Hn & Hc').
    destruct (Hnx eq_refl) as (nd' & Hn' & <-). rewrite Hn in Hn'. injection Hn' as <-. eauto.
Qed.

Lemma push_head_ok spurious h buf q l :
  pushing_ok h buf q -> chain buf (node h) l -> 0 <= aba_tag h < 2 ^ 64 - 1 ->
  is_Some (buf !! node_of q) -> node_of q ∉ l ->
  exists h' buf' x, PushHead spurious h buf q = Ok (h', buf', x) /\ length buf' = length buf /\
    (forall n, n <> node_of q -> buf' !! n = buf !! n) /\ (forall v, holds buf (node_of q) v -> holds buf' (node_of q) v) /\
    match x with
    | Some q' => h' = h /\ node_of q' = node_of q /\ pushing_ok h buf' q'
    | None => buf' = buf /\ aba_tag h' = aba_tag h + 1 /\ chain buf (node h') (node_of q :: l)
    end.
Proof.
  intros Hq Hc Ht [nd Hnd] Hni. destruct q as [n|n old|n old]; cbn in *.
  - exists h, buf, (Some (QNext n h)). do 4 (split; [done|]). split; [done|]. split; [done|apply seen_refl].
  - eexists h, _, (Some (QCas n old)). rewrite Hnd. cbn [the]. rewrite bind_ok. split; [done|]. pose proof (lookup_lt_Some _ _ _ Hnd).
    split; [apply length_insert|]. split; [intros; by apply list_lookup_insert_ne|].
    assert (Hlk : <[n := mk_Node (value nd) (node old)]> buf !! n = Some (mk_Node (value nd) (node old))) by by apply list_lookup_insert_eq.
    split; [|split; [done|split; [done|split; [done|eauto]]]].
    intros v (nd' & Hn' & <-). rewrite Hnd in Hn'. injection Hn' as <-. by eexists.
  - destruct Hq as (Hs & nd' & Hn' & Hnx). rewrite Hnd in Hn'. injection Hn' as <-.
    case_bool_decide as Heq; [destruct spurious|]; cbn [andb negb].
    + exists h, buf, (Some (QNext n h)). do 4 (split; [done|]). split; [done|]. split; [done|apply seen_refl].
    + subst old. eexists _, buf, None. do 4 (split; [done|]). split; [done|]. cbn. split; [unfold wrap; rewrite Z.mod_small; lia|].
      split; [done|]. exists nd. split; [done|]. by rewrite Hnx.
    + exists h, buf, (Some (QNext n h)). do 4 (split; [done|]). split; [done|]. split; [done|apply seen_refl].
Qed.

Lemma values_frame buf buf' ns vs :
  Forall2 (holds buf) ns vs -> (forall n, n ∈ ns -> buf' !! n = buf !! n) -> Forall2 (holds buf') ns vs.
Proof.
  induction 1 as [|n v ns vs Hn _ IH]; intros Hf; [constructor|]. constructor.
  - eapply holds_frame; [done|]. apply Hf. by left.
  - apply IH. intros x Hx. apply Hf. by right.
Qed.

(** The nodes of the threads, with one thread changed. *)
Lemma owned_insert (ts : list thread) i t t' : ts !! i = Some t ->
  exists rest, flat_map owned ts ≡ₚ owned t ++ rest /\ flat_map owned (<[i := t']> ts) ≡ₚ owned t' ++ rest /\
    forall j u, j <> i -> ts !! j = Some u -> forall n, n ∈ owned u -> n ∈ rest.
Proof.
  revert i. induction ts as [|u ts IH]; intros [|i] Ht; cbn in *; try done.
  - injection Ht as ->. exists (flat_map owned ts). do 2 (split; [done|]). intros [|j] u Hj Hu n Hn; [done|].
    apply list_elem_of_In, in_flat_map. exists u. split; [apply list_elem_of_In; eapply (list_elem_of_lookup_2 ts j); exact Hu|by apply list_elem_of_In].
  - destruct (IH i Ht) as (rest & E1 & E2 & Hr). exists (owned u ++ rest). rewrite E1, E2.
    split; [by rewrite Permutation_app_swap_app|]. split; [by rewrite Permutation_app_swap_app|].
    intros [|j] x Hj Hx n Hn; cbn in Hx; apply elem_of_app; [left; by injection Hx as ->|right]. eapply Hr; [|done..]. congruence.
Qed.

(** The invariant after a step of one thread. *)
Lemma lists_inv_update maxsize m k c lh lf i t s' t' log' lh' lf' :
  Inv maxsize m k c lh lf -> threads c !! i = Some t ->
  let s := stack c in
  length (node_buf_ s') = length (node_buf_ s) -> moved (head_ s) (head_ s') -> moved (free_ s) (free_ s') ->
  (forall n, n ∉ owned t -> node_buf_ s' !! n = node_buf_ s !! n) ->
  chain (node_buf_ s') (node (head_ s')) lh' -> chain (node_buf_ s') (node (free_ s')) lf' ->
  lh' ++ lf' ++ owned t' ≡ₚ lh ++ lf ++ owned t ->
  0 <= aba_tag (head_ s') <= aba_tag (head_ s) + 1 -> 0 <= aba_tag (free_ s') <= aba_tag (free_ s) + 1 ->
  pc_ok s' t' ->
  (exists l, Forall2 (holds (node_buf_ s')) lh' l /\ replay maxsize m log' l) ->
  size_ s' = wrap 64 (Z.of_nat (length lh') - (sum_of uncounted (threads c) - uncounted t + uncounted t')) ->
  Inv maxsize m (S k) (mk_config s' (<[i := t']> (threads c)) log') lh' lf'.
Proof.
  intros HI Hi s Hlen Hmh Hmf Hfr Hch Hcf Hperm Hth Htf Hpc Hlog Hsize.
  destruct (owned_insert (threads c) i t t' Hi) as (rest & E1 & E2 & Hrest).
  pose proof (inv_nodes _ _ _ _ _ _ HI) as Hn. rewrite E1 in Hn.
  assert (Hnd : NoDup (lh ++ lf ++ owned t ++ rest)) by (rewrite Hn; apply NoDup_seq).
  pose proof (inv_tag _ _ _ _ _ _ HI) as [T1 T2].
  split; cbn; try done.
  - rewrite Hlen. apply (inv_len _ _ _ _ _ _ HI).
  - rewrite length_insert. apply (inv_threads _ _ _ _ _ _ HI).
  - rewrite E2, <- Hn. rewrite !app_assoc. f_equiv. rewrite <- !app_assoc. done.
  - subst s. lia.
  - intros j u Hj. apply list_lookup_insert_Some in Hj as [(<- & <- & _)|[Hne Hj]]; [done|].
    assert (Hdis : forall n, n ∈ lh ++ lf -> n ∉ owned t).
    { intros n H1 H2. rewrite app_assoc in Hnd. apply NoDup_app in Hnd as (_ & Hd & _). apply (Hd n H1). apply elem_of_app. by left. }
    eapply (pc_ok_frame s s' u (owned t)); try done.
    + by eapply (inv_pc _ _ _ _ _ _ HI).
    + intros n En. apply Hdis. pose proof (inv_head _ _ _ _ _ _ HI) as Hc. destruct (chain_head _ _ _ n Hc En) as (l' & _ & -> & _).
      apply elem_of_app. left. by left.
    + intros n En. apply Hdis. pose proof (inv_free _ _ _ _ _ _ HI) as Hc. destruct (chain_head _ _ _ n Hc En) as (l' & _ & -> & _).
      apply elem_of_app. right. by left.
    + intros n Hu Ht. rewrite !app_assoc in Hnd. apply NoDup_app in Hnd as (_ & Hd & _).
      apply (Hd n); [apply elem_of_app; by right|]. by eapply Hrest.
  - rewrite Hsize. f_equal. f_equal. symmetry. by apply sum_of_insert.
Qed.

(** The same when neither list changes. *)
Lemma inv_same_lists maxsize m k c lh lf i t s' t' log' :
  Inv maxsize m k c lh lf -> threads c !! i = Some t ->
  let s := stack c in
  length (node_buf_ s') = length (node_buf_ s) -> head_ s' = head_ s -> free_ s' = free_ s ->
  (forall n, n ∉ owned t -> node_buf_ s' !! n = node_buf_ s !! n) -> owned t' = owned t ->
  pc_ok s' t' ->
  (forall l, replay maxsize m (log c) l -> length l = length lh -> replay maxsize m log' l) ->
  size_ s' = wrap 64 (Z.of_nat (length lh) - (sum_of uncounted (threads c) - uncounted t + uncounted t')) ->
  Inv maxsize m (S k) (mk_config s' (<[i := t']> (threads c)) log') lh lf.
Proof.
  intros HI Hi s Hlen Eh Ef Hfr Eo Hpc Hlog Hsize. pose proof (inv_tag _ _ _ _ _ _ HI) as [T1 T2].
  destruct (owned_insert (threads c) i t t Hi) as (rest & E1 & _ & _).
  pose proof (inv_nodes _ _ _ _ _ _ HI) as Hn. rewrite E1 in Hn.
  assert (Hnd : NoDup (lh ++ lf ++ owned t ++ rest)) by (rewrite Hn; apply NoDup_seq).
  assert (Hdis : forall n, n ∈ lh ++ lf -> n ∉ owned t).
  { intros n H1 H2. rewrite app_assoc in Hnd. apply NoDup_app in Hnd as (_ & Hd & _). apply (Hd n H1). apply elem_of_app. by left. }
  destruct (inv_log _ _ _ _ _ _ HI) as (l & Hl & Hr).
  eapply (lists_inv_update _ _ _ _ lh lf i t s' t' log' lh lf HI Hi); try done; rewrite ?Eh, ?Ef, ?Eo; try done; try (by left); try (subst s; lia).
  - eapply chain_frame; [apply (inv_head _ _ _ _ _ _ HI)|]. intros n Hin. apply Hfr, Hdis. apply elem_of_app. by left.
  - eapply chain_frame; [apply (inv_free _ _ _ _ _ _ HI)|]. intros n Hin. apply Hfr, Hdis. apply elem_of_app. by right.
  - exists l. split; [|apply Hlog; [done|symmetry; by eapply Forall2_length]].
    eapply values_frame; [exact Hl|]. intros n Hin. apply Hfr, Hdis, elem_of_app. by left.
Qed.

Lemma wrap_add a b : wrap 64 (wrap 64 a + b) = wrap 64 (a + b).
Proof. unfold wrap. by rewrite Zplus_mod_idemp_l. Qed.

(** *** The steps of a thread *)

Section Step.
Context (maxsize m k : nat) (c : config) (lh lf : list nat) (HI : Inv maxsize m k c lh lf).
Context (Hk : Z.of_nat k < 2 ^ 64 - 1) (i : nat) (t : thread) (Hi : threads c !! i = Some t) (spurious : bool).

(** The step of the thread is defined and keeps the invariant. *)
Definition goes_on : Prop :=
  exists x, exec spurious (stack c) (at_pc t) = Ok x /\ exists lh' lf', Inv maxsize m (S k) (advance i c x) lh' lf'.

Lemma owned_free n : n ∈ owned t -> n ∉ lh /\ n ∉ lf /\ is_Some (node_buf_ (stack c) !! n).
Proof.
  intros Hn. destruct (owned_insert (threads c) i t t Hi) as (rest & E1 & _ & _).
  pose proof (inv_nodes _ _ _ _ _ _ HI) as Hp. rewrite E1 in Hp.
  assert (Hnd : NoDup (lh ++ lf ++ owned t ++ rest)) by (rewrite Hp; apply NoDup_seq).
  apply NoDup_app in Hnd as (_ & H1 & Hnd). apply NoDup_app in Hnd as (_ & H2 & _).
  split; [intros Hx; apply (H1 n Hx); rewrite !elem_of_app; tauto|].
  split; [intros Hx; apply (H2 n Hx); rewrite !elem_of_app; tauto|].
  apply lookup_lt_is_Some_2. rewrite (inv_len _ _ _ _ _ _ HI).
  assert (Hin : n ∈ seq 0 maxsize) by (rewrite <- Hp, !elem_of_app; tauto). apply elem_of_seq in Hin. lia.
Qed.

Lemma advance_eq s p e :
  advance i c (s, p, e) = mk_config s (<[i := mk_thread p (match e with Some e => Some e | None => effect t end)]> (threads c))
    (match e with Some e => e :: log c | None => log c end).
Proof. unfold advance. by rewrite Hi. Qed.

Lemma tags_ok : 0 <= aba_tag (head_ (stack c)) < 2 ^ 64 - 1 /\ 0 <= aba_tag (free_ (stack c)) < 2 ^ 64 - 1.
Proof. pose proof (inv_tag _ _ _ _ _ _ HI). lia. Qed.

Lemma pc_fact : pc_ok (stack c) t.
Proof. by eapply (inv_pc _ _ _ _ _ _ HI). Qed.

(** Fewer nodes than threads are in the hands of the threads. *)
Lemma owned_bound (ts : list thread) : (length (flat_map owned ts) <= length ts)%nat.
Proof.
  induction ts as [|u ts IH]; cbn; [lia|]. rewrite length_app. assert (length (owned u) <= 1)%nat; [|lia].
  unfold owned. destruct (at_pc u); cbn; lia.
Qed.

Lemma step_push1 v p : at_pc t = Push1 v p -> goes_on.
Proof.
  intros Hpc. unfold goes_on. pose proof pc_fact as Hok. unfold pc_ok in Hok. rewrite Hpc in Hok |- *. destruct Hok as [He Hp]. cbn [exec].
  pose proof (inv_size _ _ _ _ _ _ HI) as Hsize. pose proof tags_ok as Htg.
  assert (Hu : uncounted t = 0 /\ owned t = []) by (unfold uncounted, owned; by rewrite Hpc). destruct Hu as [Hu Ho].
  destruct (pop_head_ok spurious _ _ p lf Hp (inv_free _ _ _ _ _ _ HI) (proj2 Htg)) as (h' & x & -> & Hx).
  rewrite bind_ok. cbn [fst snd]. destruct x as [p'|[n|]]; cbv zeta; eexists; (split; [done|]); rewrite advance_eq.
  - destruct Hx as [-> Hx]. exists lh, lf. eapply inv_same_lists; try done; cbn -[owned uncounted]; [rewrite Hu, Hsize; f_equal; cbn; lia].
  - destruct Hx as (Htag & l' & -> & Hc). exists lh, l'. destruct (inv_log _ _ _ _ _ _ HI) as (l & Hl & Hr).
    eapply lists_inv_update; try done; cbn -[owned uncounted].
    + by left.
    + right. lia.
    + apply (inv_head _ _ _ _ _ _ HI).
    + rewrite Ho. f_equiv. rewrite app_nil_r. by rewrite Permutation_app_comm.
    + lia.
    + lia.
    + eauto.
    + rewrite Hu, Hsize. f_equal. cbn. lia.
  - destruct Hx as [-> ->]. exists lh, []. eapply inv_same_lists; try done; cbn -[owned uncounted].
    + by exists EFull.
    + intros l Hr Hl. constructor; [done|]. pose proof (Permutation_length (inv_nodes _ _ _ _ _ _ HI)) as Hlen.
      rewrite !length_app, length_seq in Hlen. pose proof (owned_bound (threads c)). rewrite (inv_threads _ _ _ _ _ _ HI) in *. cbn in Hlen. lia.
    + rewrite Hu, Hsize. f_equal. cbn. lia.
Qed.

Lemma step_push2 v n : at_pc t = Push2 v n -> goes_on.
Proof.
  intros Hpc. unfold goes_on. pose proof pc_fact as Hok. unfold pc_ok in Hok. rewrite Hpc in Hok |- *. cbn [exec].
  assert (Ho : owned t = [n]) by (unfold owned; by rewrite Hpc).
  destruct (owned_free n) as (_ & _ & [nd Hnd]); [rewrite Ho; by left|]. rewrite Hnd. cbn [the]. rewrite bind_ok.
  eexists. split; [done|]. rewrite advance_eq. exists lh, lf. pose proof (lookup_lt_Some _ _ _ Hnd) as Hlt.
  eapply inv_same_lists; try done; cbn -[owned uncounted].
  - apply length_insert.
  - rewrite Ho. intros x Hx. apply list_lookup_insert_ne. intros <-. apply Hx. by left.
  - split; [done|]. split; [|done]. eexists. by rewrite list_lookup_insert_eq.
  - rewrite (inv_size _ _ _ _ _ _ HI). f_equal. assert (Hu : uncounted t = 0) by (unfold uncounted; by rewrite Hpc). rewrite Hu. cbn. lia.
Qed.

Lemma step_push3 v q : at_pc t = Push3 v q -> goes_on.
Proof.
  intros Hpc. unfold goes_on. pose proof pc_fact as Hok. unfold pc_ok in Hok. rewrite Hpc in Hok |- *. destruct Hok as (He & Hv & Hq). cbn [exec].
  pose proof (inv_size _ _ _ _ _ _ HI) as Hsize. pose proof tags_ok as Htg.
  assert (Hu : uncounted t = 0 /\ owned t = [node_of q]) by (unfold uncounted, owned; by rewrite Hpc). destruct Hu as [Hu Ho].
  destruct (owned_free (node_of q)) as (Hnh & Hnf & Hs); [rewrite Ho; by left|].
  destruct (push_head_ok spurious _ _ q lh Hq (inv_head _ _ _ _ _ _ HI) (proj1 Htg) Hs Hnh) as (h' & buf' & x & -> & Hlen & Hfr & Hval & Hx).
  rewrite bind_ok. cbn [fst snd]. destruct x as [q'|]; cbv zeta; eexists; (split; [done|]); rewrite advance_eq.
  - destruct Hx as (-> & En & Hq'). exists lh, lf. eapply inv_same_lists; try done; cbn -[owned uncounted].
    + rewrite Ho. intros x Hx. apply Hfr. intros ->. apply Hx. by left.
    + unfold owned at 1. cbn. by rewrite En, Ho.
    + split; [done|]. rewrite En. split; [by apply Hval|done].
    + rewrite Hu, Hsize. f_equal. cbn. lia.
  - destruct Hx as (-> & Htag & Hc). exists (node_of q :: lh), lf. destruct (inv_log _ _ _ _ _ _ HI) as (l & Hl & Hr).
    eapply lists_inv_update; try done; cbn -[owned uncounted].
    + right. lia.
    + by left.
    + apply (inv_free _ _ _ _ _ _ HI).
    + rewrite Ho, app_nil_r. rewrite (app_assoc lh), (Permutation_app_comm (lh ++ lf)). done.
    + lia.
    + lia.
    + eauto.
    + exists (v :: l). split; [by constructor|by constructor].
    + rewrite Hu, Hsize. f_equal. cbn. lia.
Qed.

Lemma step_push4 : at_pc t = Push4 -> goes_on.
Proof.
  intros Hpc. unfold goes_on. pose proof pc_fact as Hok. unfold pc_ok in Hok. rewrite Hpc in Hok |- *. destruct Hok as (v & He). cbn [exec].
  eexists. split; [done|]. rewrite advance_eq. exists lh, lf. eapply inv_same_lists; try done; cbn -[owned uncounted].
  - unfold owned. by rewrite Hpc.
  - rewrite He. by exists (EPush v).
  - rewrite (inv_size _ _ _ _ _ _ HI), wrap_add. f_equal. assert (Hu : uncounted t = 1) by (unfold uncounted; by rewrite Hpc). rewrite Hu. cbn. lia.
Qed.

Lemma step_pop1 p : at_pc t = Pop1 p -> goes_on.
Proof.
  intros Hpc. unfold goes_on. pose proof pc_fact as Hok. unfold pc_ok in Hok. rewrite Hpc in Hok |- *. destruct Hok as [He Hp]. cbn [exec].
  pose proof (inv_size _ _ _ _ _ _ HI) as Hsize. pose proof tags_ok as Htg.
  assert (Hu : uncounted t = 0 /\ owned t = []) by (unfold uncounted, owned; by rewrite Hpc). destruct Hu as [Hu Ho].
  destruct (pop_head_ok spurious _ _ p lh Hp (inv_head _ _ _ _ _ _ HI) (proj1 Htg)) as (h' & x & -> & Hx).
  rewrite bind_ok. cbn [fst snd]. destruct x as [p'|[n|]]; cbv zeta.
  - eexists; (split; [done|]); rewrite advance_eq. destruct Hx as [-> Hx]. exists lh, lf.
    eapply inv_same_lists; try done; cbn -[owned uncounted]; [rewrite Hu, Hsize; f_equal; cbn; lia].
  - destruct Hx as (Htag & l' & -> & Hc). destruct (inv_log _ _ _ _ _ _ HI) as (l & Hl & Hr).
    apply Forall2_cons_inv_l in Hl as (v & vs & (nd & Hnd & <-) & Hl & ->).
    cbn [node_buf_ set_head]. rewrite Hnd. cbn [the]. rewrite bind_ok. eexists. split; [done|]. rewrite advance_eq. exists l', lf.
    eapply lists_inv_update; try done; cbn -[owned uncounted].
    + right. lia.
    + by left.
    + apply (inv_free _ _ _ _ _ _ HI).
    + rewrite Ho, app_nil_r, app_assoc. rewrite (Permutation_app_comm (l' ++ lf)). done.
    + lia.
    + lia.
    + exists (value nd). split; [done|]. by exists nd.
    + exists vs. split; [done|]. by constructor.
    + rewrite Hu, Hsize. f_equal. cbn. lia.
  - eexists; (split; [done|]); rewrite advance_eq. destruct Hx as [-> ->]. exists [], lf. eapply inv_same_lists; try done; cbn -[owned uncounted].
    + by exists EEmpty.
    + intros l Hr Hl. destruct l; [|done]. by constructor.
    + rewrite Hu, Hsize. f_equal. cbn. lia.
Qed.

Lemma step_pop2 n : at_pc t = Pop2 n -> goes_on.
Proof.
  intros Hpc. unfold goes_on. pose proof pc_fact as Hok. unfold pc_ok in Hok. rewrite Hpc in Hok |- *. cbn [exec].
  eexists. split; [done|]. rewrite advance_eq. exists lh, lf. eapply inv_same_lists; try done; cbn -[owned uncounted].
  - unfold owned. by rewrite Hpc.
  - replace (size_ (stack c) - 1) with (size_ (stack c) + -1) by lia.
    rewrite (inv_size _ _ _ _ _ _ HI), wrap_add. f_equal. assert (Hu : uncounted t = -1) by (unfold uncounted; by rewrite Hpc). rewrite Hu. cbn. lia.
Qed.

Lemma step_pop3 n : at_pc t = Pop3 n -> goes_on.
Proof.
  intros Hpc. unfold goes_on. pose proof pc_fact as Hok. unfold pc_ok in Hok. rewrite Hpc in Hok |- *. destruct Hok as (v & He & nd & Hnd & <-). cbn [exec].
  rewrite Hnd. cbn [the]. rewrite bind_ok. eexists. split; [done|]. rewrite advance_eq. exists lh, lf. eapply inv_same_lists; try done; cbn -[owned uncounted].
  - unfold owned. by rewrite Hpc.
  - rewrite (inv_size _ _ _ _ _ _ HI). f_equal. assert (Hu : uncounted t = 0) by (unfold uncounted; by rewrite Hpc). rewrite Hu. cbn. lia.
Qed.

Lemma step_pop4 v q : at_pc t = Pop4 v q -> goes_on.
Proof.
  intros Hpc. unfold goes_on. pose proof pc_fact as Hok. unfold pc_ok in Hok. rewrite Hpc in Hok |- *. destruct Hok as (He & Hq). cbn [exec].
  pose proof (inv_size _ _ _ _ _ _ HI) as Hsize. pose proof tags_ok as Htg.
  assert (Hu : uncounted t = 0 /\ owned t = [node_of q]) by (unfold uncounted, owned; by rewrite Hpc). destruct Hu as [Hu Ho].
  destruct (owned_free (node_of q)) as (Hnh & Hnf & Hs); [rewrite Ho; by left|].
  destruct (push_head_ok spurious _ _ q lf Hq (inv_free _ _ _ _ _ _ HI) (proj2 Htg) Hs Hnf) as (h' & buf' & x & -> & Hlen & Hfr & _ & Hx).
  rewrite bind_ok. cbn [fst snd]. destruct x as [q'|]; cbv zeta; eexists; (split; [done|]); rewrite advance_eq.
  - destruct Hx as (-> & En & Hq'). exists lh, lf. eapply inv_same_lists; try done; cbn -[owned uncounted].
    + rewrite Ho. intros x Hx. apply Hfr. intros ->. apply Hx. by left.
    + unfold owned at 1. cbn. by rewrite En, Ho.
    + rewrite Hu, Hsize. f_equal. cbn. lia.
  - destruct Hx as (-> & Htag & Hc). exists lh, (node_of q :: lf). destruct (inv_log _ _ _ _ _ _ HI) as (l & Hl & Hr).
    eapply lists_inv_update; try done; cbn -[owned uncounted].
    + by left.
    + right. lia.
    + apply (inv_head _ _ _ _ _ _ HI).
    + rewrite Ho, app_nil_r. f_equiv. by rewrite (Permutation_app_comm lf).
    + lia.
    + lia.
    + rewrite He. by exists (EPop v).
    + eauto.
    + rewrite Hu, Hsize. f_equal. cbn. lia.
Qed.

Lemma step_goes_on : (forall r, at_pc t <> Return r) -> goes_on.
Proof.
  intros Hr. destruct (at_pc t) as [v p|v n|v q| |p|n|n|v q|r] eqn:E;
    [by eapply step_push1|by eapply step_push2|by eapply step_push3|by apply step_push4|by eapply step_pop1|by eapply step_pop2
    |by eapply step_pop3|by eapply step_pop4|by destruct (Hr r)].
Qed.

Lemma step_call_ok r o : at_pc t = Return r -> (exists v, o = Push v) \/ o = Pop ->
  Inv maxsize m (S k) (mk_config (stack c) (<[i := mk_thread o None]> (threads c)) (log c)) lh lf.
Proof.
  intros Hpc Hop. assert (Hu : uncounted t = 0 /\ owned t = []) by (unfold uncounted, owned; by rewrite Hpc). destruct Hu as [Hu Ho].
  assert (Hou : owned (mk_thread o None) = [] /\ uncounted (mk_thread o None) = 0 /\ pc_ok (stack c) (mk_thread o None))
    by (destruct Hop as [[v ->] | ->]; done). destruct Hou as (O1 & O2 & O3).
  eapply inv_same_lists; try done; [by rewrite Ho|]. rewrite (inv_size _ _ _ _ _ _ HI), Hu, O2. f_equal. lia.
Qed.
End Step.

(** *** Runs *)

Lemma link_lookup maxsize j : (j < maxsize)%nat ->
  link maxsize !! j = Some (mk_Node init (if decide (S j < maxsize)%nat then Some (S j) else None)).
Proof.
  intros Hj. unfold link. change (map ?f ?l) with (f <$> l). rewrite list_lookup_fmap, lookup_seq_lt by done. done.
Qed.

Lemma link_chain maxsize d : forall j, (j + d = maxsize)%nat ->
  chain (link maxsize) (if decide (j < maxsize)%nat then Some j else None) (seq j d).
Proof.
  induction d as [|d IH]; intros j Hj; cbn; [by rewrite decide_False by lia|].
  rewrite decide_True by lia. split; [done|]. eexists. split; [apply link_lookup; lia|]. cbn. apply IH. lia.
Qed.

Lemma start_inv maxsize m s : make maxsize = Ok s ->
  Inv maxsize m 0 (mk_config s (replicate m (mk_thread (Return (RPop None)) (Some EEmpty))) []) [] (seq 0 maxsize).
Proof.
  unfold make. intros H. case_decide as Hm; [done|]. injection H as <-.
  assert (Ho : flat_map owned (replicate m (mk_thread (Return (RPop None)) (Some EEmpty))) = []) by (induction m as [|m' IH]; done).
  assert (Hu : sum_of uncounted (replicate m (mk_thread (Return (RPop None)) (Some EEmpty))) = 0) by (clear Ho; induction m as [|m' IH]; cbn; lia).
  split; cbn -[seq link]; try done; try lia.
  - unfold link. by rewrite length_map, length_seq.
  - apply length_replicate.
  - pose proof (link_chain maxsize maxsize 0 eq_refl) as Hc. rewrite decide_True in Hc by lia. done.
  - by rewrite Ho, app_nil_r.
  - intros i t Hi. apply lookup_replicate_1 in Hi as [-> _]. by exists EEmpty.
  - exists []. split; constructor.
  - by rewrite Hu.
Qed.

Lemma reachable_inv_lists maxsize m k c : reachable maxsize m k c -> Z.of_nat k < 2 ^ 64 - 1 -> exists lh lf, Inv maxsize m k c lh lf.
Proof.
  induction 1 as [s Hs|k c c' _ IH Hs]; intros Hk; [eexists _, _; by apply start_inv|].
  destruct IH as (lh & lf & HI); [lia|]. inversion Hs as [i t r o Hi Hpc Hop E|i t sp Hi Hpc E]; subst.
  - eexists _, _. by eapply step_call_ok.
  - destruct (step_goes_on maxsize m k c lh lf HI ltac:(lia) i t Hi sp Hpc) as (x & Ex & lh' & lf' & HI').
    rewrite Ex, bind_ok in E. injection E as <-. eauto.
Qed.

(** The steps a thread that runs alone has left: a stale compare-and-swap fails once. *)
Definition popping_rank (h : Head) (p : popping) : nat :=
  match p with
  | PLoad => 3
  | PNext old => if decide (h = old) then 2 else 4
  | PCas old _ => if decide (h = old) then 1 else 3
  end.
Definition pushing_rank (h : Head) (q : pushing) : nat :=
  match q with
  | QLoad _ => 3
  | QNext _ old => if decide (h = old) then 2 else 4
  | QCas _ old => if decide (h = old) then 1 else 3
  end.
Definition rank (s : LStack) (p : pc) : nat :=
  match p with
  | Push1 _ p => 5 + popping_rank (free_ s) p
  | Push2 _ _ => 5
  | Push3 _ q => 1 + pushing_rank (head_ s) q
  | Push4 => 1
  | Pop1 p => 5 + popping_rank (head_ s) p
  | Pop2 _ => 5
  | Pop3 _ => 4
  | Pop4 _ q => pushing_rank (free_ s) q
  | Return _ => 0
  end.

(** What a spurious failure costs. *)
Definition slack (spurious : bool) : nat := if spurious then 2 else 0.

Lemma pop_rank sp h buf p h' x : PopHead sp h buf p = Ok (h', x) ->
  match x with inl p' => (popping_rank h' p' < popping_rank h p + slack sp)%nat | inr _ => (0 < popping_rank h p + slack sp)%nat end.
Proof.
  assert (Ht : forall d, (2 < d)%nat -> match test h with inl p' => (popping_rank h p' < d)%nat | inr _ => (0 < d)%nat end).
  { intros d Hd. unfold test. destruct (node h); cbn; [rewrite decide_True by done|]; lia. }
  destruct p as [|old|old new]; cbn; intros H.
  - injection H as <- <-. apply Ht. lia.
  - destruct (node old) as [n|]; [|done]. cbn [the] in H. rewrite bind_ok in H. destruct (buf !! n) as [nd|]; [|done].
    cbn [the] in H. rewrite bind_ok in H. injection H as <- <-. cbn. case_decide; lia.
  - case_bool_decide as E; [destruct sp|]; cbn [andb negb] in H; injection H as <- <-; cbn [slack].
    + subst h. rewrite decide_True by done. apply Ht. lia.
    + case_decide; lia.
    + rewrite decide_False by done. apply Ht. lia.
Qed.

Lemma push_rank sp h buf q h' buf' x : PushHead sp h buf q = Ok (h', buf', x) ->
  match x with Some q' => (pushing_rank h' q' < pushing_rank h q + slack sp)%nat | None => (0 < pushing_rank h q + slack sp)%nat end.
Proof.
  destruct q as [n|n old|n old]; cbn; intros H.
  - injection H as <- <- <-. cbn. rewrite decide_True by done. lia.
  - destruct (buf !! n) as [nd|]; [|done]. cbn [the] in H. rewrite bind_ok in H. injection H as <- <- <-. cbn. case_decide; lia.
  - case_bool_decide as E; [destruct sp|]; cbn [andb negb] in H; injection H as <- <- <-; cbn [slack pushing_rank].
    + subst h. rewrite !decide_True by done. lia.
    + case_decide; lia.
    + rewrite (decide_False (P := h = old)) by done. rewrite decide_True by done. lia.
Qed.

Lemma exec_rank sp s p s' p' e : (forall r, p <> Return r) -> exec sp s p = Ok (s', p', e) -> (rank s' p' < rank s p + slack sp)%nat.
Proof.
  intros Hr H. destruct p as [v p|v n|v q| |p|n|n|v q|r]; cbn [exec] in H.
  - destruct (PopHead _ _ _ _) as [[h x]| | |] eqn:E; try done. apply pop_rank in E. rewrite bind_ok in H. cbn [fst snd] in H.
    destruct x as [p1|[n|]]; injection H as <- <- <-; cbn; lia.
  - destruct (node_buf_ s !! n); [|done]. cbn [the] in H. rewrite bind_ok in H. injection H as <- <- <-. cbn. lia.
  - destruct (PushHead _ _ _ _) as [[[h buf] x]| | |] eqn:E; try done. apply push_rank in E. rewrite bind_ok in H. cbn [fst snd] in H.
    destruct x; injection H as <- <- <-; cbn; lia.
  - injection H as <- <- <-. cbn. lia.
  - destruct (PopHead _ _ _ _) as [[h x]| | |] eqn:E; try done. apply pop_rank in E. rewrite bind_ok in H. cbn [fst snd] in H.
    destruct x as [p1|[n|]]; [injection H as <- <- <-; cbn; lia| |injection H as <- <- <-; cbn; lia].
    destruct (node_buf_ _ !! n); [|done]. cbn [the] in H. rewrite bind_ok in H. injection H as <- <- <-. cbn. lia.
  - injection H as <- <- <-. cbn. lia.
  - destruct (node_buf_ s !! n); [|done]. cbn [the] in H. rewrite bind_ok in H. injection H as <- <- <-. cbn. lia.
  - destruct (PushHead _ _ _ _) as [[[h buf] x]| | |] eqn:E; try done. apply push_rank in E. rewrite bind_ok in H. cbn [fst snd] in H.
    destruct x; injection H as <- <- <-; cbn; lia.
  - by destruct (Hr r).
Qed.

Lemma rank_bound s p : (rank s p <= 9)%nat.
Proof. destruct p as [v []|v n|v []| |[]|n|n|v []|r]; cbn; repeat case_decide; lia. Qed.

Lemma alone_returns maxsize m i fails : forall k c lh lf t, Inv maxsize m k c lh lf -> Z.of_nat (k + length fails) < 2 ^ 64 - 1 ->
  threads c !! i = Some t -> (rank (stack c) (at_pc t) + 2 * failures fails <= length fails)%nat ->
  exists n c' t' v, alone i (take n fails) c = Ok c' /\ threads c' !! i = Some t' /\ at_pc t' = Return v.
Proof.
  induction fails as [|sp fails IH]; intros k c lh lf t HI Hk Hi Hr.
  - exists 0%nat, c, t. destruct (at_pc t) as [v []|v n|v []| |[]|n|n|v []|v] eqn:E; cbn in Hr; repeat case_decide; try lia. eauto.
  - assert (Hd : (exists v, at_pc t = Return v) \/ (forall v, at_pc t <> Return v)) by (destruct (at_pc t); eauto; by right).
    destruct Hd as [[v Hv]|Hn]; [by exists 0%nat, c, t, v|].
    destruct (step_goes_on maxsize m k c lh lf HI ltac:(cbn in Hk; lia) i t Hi sp) as (((s' & p') & e) & Ex & lh' & lf' & HI'); [done|].
    pose proof (exec_rank _ _ _ _ _ _ Hn Ex) as Hlt. rewrite (advance_eq c i t Hi) in HI'.
    pose proof (lookup_lt_Some _ _ _ Hi) as Hlen.
    eapply IH in HI' as (n & c' & t' & v & Ha & Ht & Hv);
      [|cbn in *; lia|cbn; by rewrite list_lookup_insert_eq|cbn [length failures] in Hr; cbn; destruct sp; cbn [slack] in Hlt; lia].
    exists (S n), c', t', v. split; [|done]. cbn [take alone]. rewrite Hi. cbn [the]. rewrite bind_ok, Ex, bind_ok.
    by rewrite (advance_eq c i t Hi).
Qed.

Lemma sched_step e c c' : exec1 e c = Ok c' -> step c (Ok c').
Proof.
  destruct e as [i o]. unfold exec1. cbn [fst snd]. destruct (threads c !! i) as [t|] eqn:Hi; [|done]. cbn [the]. rewrite bind_ok.
  intros H. destruct o as [o|].
  - destruct (at_pc t) eqn:E; try done. injection H as <-. eapply step_call; [done..|]. destruct o; [left; by eexists|by right].
  - pose proof (step_run c i t false Hi) as Hs. destruct (at_pc t) eqn:E; try done; rewrite H in Hs; by apply Hs.
Qed.

Lemma run_reachable maxsize m l : forall k c c', reachable maxsize m k c -> run l c = Ok c' -> reachable maxsize m (k + length l) c'.
Proof.
  induction l as [|e l IH]; intros k c c' Hr H; cbn in *; [rewrite Nat.add_0_r; congruence|].
  destruct (exec1 e c) as [c1| | |] eqn:E; try done. rewrite bind_ok in H. rewrite <- Nat.add_succ_comm.
  eapply IH; [|done]. eapply reachable_step; [done|]. by eapply sched_step.
Qed.
End LStack.

(** ** Properties *)

(** C6: The stack is linearizable for any number of threads in any interleaving of their
    accesses.  No access is out of bounds; the events of the operations, in their order, are
    a run of a stack, whose elements are those that the nodes hold; every operation has
    one event while it runs and returns what the event says; a push is refused only when
    the elements and the operations in progress may use up the nodes; and when no
    operation is in progress the count is right. *)
Theorem lstack_linearizable {T} (init : T) maxsize m k c :
  reachable init maxsize m k c -> Z.of_nat k < 2 ^ 64 - 1 ->
  (forall r, step c r -> is_ok r = true) /\
  (exists l lh, chain (node_buf_ (stack c)) (node (head_ (stack c))) lh /\
     Forall2 (holds (node_buf_ (stack c))) lh l /\ replay maxsize m (log c) l /\
     ((forall i t, threads c !! i = Some t -> exists r, at_pc t = Return r) -> size_ (stack c) = wrap 64 (Z.of_nat (length l)))) /\
  (forall i t, threads c !! i = Some t ->
     (forall r, at_pc t = Return r -> exists e, effect t = Some e /\ result_of e = r) /\
     (forall spurious s p e, exec spurious (stack c) (at_pc t) = Ok (s, p, Some e) -> effect t = None)).
Proof.
  intros Hr Hk. destruct (reachable_inv_lists init maxsize m k c Hr Hk) as (lh & lf & HI). split; [|split].
  - intros r Hs. destruct Hs as [i t r o Hi Hpc Hop|i t sp Hi Hpc]; [done|].
    destruct (step_goes_on maxsize m k c lh lf HI Hk i t Hi sp Hpc) as (x & -> & _). done.
  - destruct (inv_log _ _ _ _ _ _ HI) as (l & Hl & Hrep). exists l, lh. split; [apply (inv_head _ _ _ _ _ _ HI)|]. do 2 (split; [done|]).
    intros Hq. rewrite (inv_size _ _ _ _ _ _ HI), <- (Forall2_length _ _ _ Hl).
    replace (sum_of uncounted (threads c)) with 0; [by rewrite Z.sub_0_r|].
    clear -Hq. induction (threads c) as [|t ts IH]; [done|]. cbn. rewrite <- IH.
    + destruct (Hq 0%nat t eq_refl) as [r Hr]. unfold uncounted. by rewrite Hr.
    + intros i u Hi. by apply (Hq (S i) u).
  - intros i t Hi. pose proof (inv_pc _ _ _ _ _ _ HI i t Hi) as Hok. unfold pc_ok in Hok. split.
    + intros r E. by rewrite E in Hok.
    + intros sp s p e Hx. destruct (at_pc t) as [v q|v n|v q| |q|n|n|v q|r] eqn:E; cbn [exec] in Hx; try (by destruct Hok).
      all: repeat first [done|match type of Hx with context [?m ≫= _] => destruct m as [?| | |]; rewrite ?bind_ok in Hx; try done end|case_match; simplify_eq].
Qed.

(** C21: A thread that runs alone finishes its operation, wherever the others were stopped: nobody
    holds a lock.  It needs nine of its steps, and two more for each step at which a
    compare-and-swap (a weak one) may fail spuriously; [fails] says at which. *)
Theorem lstack_obstruction_free {T} (init : T) maxsize m k c i t fails :
  reachable init maxsize m k c -> Z.of_nat (k + length fails) < 2 ^ 64 - 1 -> threads c !! i = Some t ->
  (9 + 2 * failures fails <= length fails)%nat ->
  exists n c' t' r, alone i (take n fails) c = Ok c' /\ threads c' !! i = Some t' /\ at_pc t' = Return r.
Proof.
  intros Hr Hk Hi Hf. destruct (reachable_inv_lists init maxsize m k c Hr ltac:(lia)) as (lh & lf & HI).
  eapply alone_returns; [done..|]. pose proof (rank_bound (stack c) (at_pc t)). lia.
Qed.

(** ** Runs *)

Definition start2 : config := mk_config
  (match make 0 1 with Ok s => s | _ => mk_LStack [] (mk_Head 0 None) (mk_Head 0 None) 0 end)
  (replicate 2 (mk_thread (Return (RPop None)) (Some EEmpty))) [].

(** One thread pushes up to its last step; the other one pops the element and counts. *)
Definition early_pop : list (nat * option (option Z)) :=
  [(0%nat, Some (Some 7))] ++ replicate 7 (0%nat, None) ++ [(1%nat, Some None)] ++ replicate 4 (1%nat, None).

Definition after_run (l : list (nat * option (option Z))) : config :=
  match run l start2 with Ok c => c | _ => start2 end.

Lemma start2_reachable : reachable 0 1 2 0 start2.
Proof. by apply (reachable_start 0 1 2 (mk_LStack (link 0 1) (mk_Head 0 None) (mk_Head 0 (Some 0%nat)) 0)). Qed.

(** [size] can be [2^64 - 1]: the element can be popped and discounted before the push
    has counted it. *)
Theorem size_underflows : exists k c, reachable 0 1 2 k c /\ size_ (stack c) = size_max.
Proof.
  eexists _, (after_run early_pop). split; [|vm_compute; reflexivity].
  eapply (run_reachable 0 1 2 early_pop); [apply start2_reachable|vm_compute; reflexivity].
Qed.

(** ** Witnesses *)

Definition pushed : config := after_run ([(0%nat, Some (Some 7))] ++ replicate 7 (0%nat, None)).

Lemma pushed_reachable : reachable 0 1 2 8 pushed.
Proof. eapply (run_reachable 0 1 2 ([(0%nat, Some (Some 7))] ++ replicate 7 (0%nat, None)) 0); [apply start2_reachable|vm_compute; reflexivity]. Qed.

Lemma lstack_linearizable_witness :
  reachable 0 1 2 8 pushed /\ Z.of_nat 8 < 2 ^ 64 - 1 /\
  exists l lh, chain (node_buf_ (stack pushed)) (node (head_ (stack pushed))) lh /\
    Forall2 (holds (node_buf_ (stack pushed))) lh l /\ replay 1 2 (log pushed) l /\
    ((forall i t, threads pushed !! i = Some t -> exists r, at_pc t = Return r) -> size_ (stack pushed) = wrap 64 (Z.of_nat (length l))).
Proof.
  split; [apply pushed_reachable|]. split; [lia|].
  apply (lstack_linearizable 0 1 2 8 pushed); [apply pushed_reachable|lia].
Defined.

(** Two spurious failures: the other thread pops what was pushed, alone. *)
Definition unlucky : list bool := [false; false; true; false; true] ++ replicate 8 false.

Definition popping_config : config :=
  match exec1 (1%nat, Some None) pushed with Ok c => c | _ => pushed end.

Lemma popping_reachable : reachable 0 1 2 9 popping_config.
Proof. eapply (reachable_step 0 1 2 8 pushed); [apply pushed_reachable|]. apply (sched_step (1%nat, Some (@None Z))). vm_compute. reflexivity. Qed.

Lemma lstack_obstruction_free_witness :
  exists t n c' t' r, threads popping_config !! 1%nat = Some t /\ alone 1 (take n unlucky) popping_config = Ok c' /\
    threads c' !! 1%nat = Some t' /\ at_pc t' = Return r.
Proof.
  assert (Ht : exists t, threads popping_config !! 1%nat = Some t) by (eexists; vm_compute; reflexivity). destruct Ht as [t Ht].
  destruct (lstack_obstruction_free 0 1 2 9 popping_config 1 t unlucky popping_reachable ltac:(cbn; lia) Ht ltac:(cbn; lia)) as (n & c' & t' & r & H).
  exists t, n, c', t', r. by split.
Defined.
