(* ===== verification/Topt.v ===== *)
(** * One-time passwords

    Models learn-topt/topt: the text form of the shared secret (shared_secret_key.cpp) and
    the time-based password (topt.cpp).  The base32 codec (cppcodec) and HMAC-SHA1 (Crypto++)
    are other libraries: the codec is an interface with its documented behaviour, the
    MAC a function to 20 bytes.  The password is compared with the one of RFC 6238. *)

From S2P Require Import Prelude Endian.

#[local] Open Scope Z_scope.

(** ** Decimal text *)

Definition digit (d : Z) : ascii := chr (48 + d).

Fixpoint dec_digits (fuel : nat) (n : Z) : str :=
  match fuel with
  | O => []
  | S fuel => if n =? 0 then [] else dec_digits fuel (n / 10) ++ [digit (n mod 10)]
  end.

(** [std::to_string] of an unsigned integer of 32 bits. *)
Definition to_string (n : Z) : str := if n =? 0 then [digit 0] else dec_digits 10 n.

(** The number with exactly [w] digits. *)
Fixpoint fixed_dec (w : nat) (n : Z) : str :=
  match w with
  | O => []
  | S w => fixed_dec w (n / 10) ++ [digit (n mod 10)]
  end.

(** ** The codec *)

Class Base32 := {
  b32_encode : str -> str;
  (** [None]: the text is invalid. *)
  b32_decode : str -> option str
}.

Definition b32_char (c : ascii) : Prop := 65 <= uchar c <= 90 \/ 50 <= uchar c <= 55.

Class Base32Ok (B : Base32) : Prop := {
  b32_length s : length s = 20%nat -> length (b32_encode s) = 32%nat;
  b32_alphabet s : length s = 20%nat -> Forall b32_char (b32_encode s);
  b32_round s : length s = 20%nat -> b32_decode (b32_encode s) = Some s
}.

(** ** shared_secret_key.cpp *)

Definition key_size : nat := 20.

Definition ascii_to_upper (ch : ascii) : ascii :=
  if (97 <=? uchar ch) && (uchar ch <=? 122) then chr (65 + uchar ch - 97) else ch.

Definition generate_secret_key (host : byte_order) (rands : list Z) : str :=
  concat (map (host_store host 4) rands).

(** The loop over [enc.insert(pos, 1, ' ')]; every turn but the last lengthens the text by
    one and [pos] by five. *)
Fixpoint group_loop (fuel pos : nat) (enc : str) : outcome str :=
  match fuel with
  | O => OutOfFuel
  | S fuel =>
      if (pos <? length enc)%nat then group_loop fuel (pos + 5) (take pos enc ++ [chr 32] ++ drop pos enc)
      else Ok enc
  end.

Section Keys.
Context {B : Base32}.

Definition encode_secret_key (key : str) (output_in_group : bool) : outcome str :=
  let enc := b32_encode key in
  if output_in_group then
    assert (length enc =? 32)%nat;;
    group_loop (length enc) 4 enc
  else Ok enc.

(** [key.data] is not initialised ([garbage]); the codec writes what it decodes, and fails
    when that does not fit. *)
Definition decode_secret_key (garbage encoded : str) : outcome str :=
  let norm_enc := map ascii_to_upper (filter (fun ch => ch <> chr 32) encoded) in
  match b32_decode norm_enc with
  | None => Throw invalid_argument
  | Some data =>
      if (length data <=? key_size)%nat then Ok (data ++ drop (length data) garbage) else Throw invalid_argument
  end.

(** ** topt.cpp *)

(** [seconds]: the system clock since its epoch. *)
Definition time_counter (seconds : Z) : Z := to_unsigned 8 (Z.quot seconds 30).

(** [memcpy] of the counter, of four bytes of the digest and back. *)
Definition generate_topt (host : byte_order) (hmac : str -> str -> str) (garbage enc_secret : str) (seconds : Z) : outcome str :=
  secret_key ← decode_secret_key garbage enc_secret;
  let counter := HostToNetwork_u host 8 (time_counter seconds) in
  let digest := hmac secret_key (host_store host 8 counter) in
  last_ ← the (digest !! 19%nat);
  let offset := Z.to_nat (Z.land (uchar last_) 0x0f) in
  let four := take 4 (drop offset digest) in
  assert (length four =? 4)%nat;;
  let value := NetworkToHost_u host 4 (host_load host four) in
  Ok (to_string (value mod 1000000)).
End Keys.

(** ** RFC 4226, 5.3 *)

(** The dynamic truncation without the top bit, and six digits of it. *)
Definition truncation (digest : str) : str :=
  take 4 (drop (Z.to_nat (Z.land (uchar (default (chr 0) (digest !! 19%nat))) 0x0f)) digest).
Definition rfc_code (digest : str) : str := fixed_dec 6 (be_value (truncation digest) mod 2 ^ 31 mod 10 ^ 6).

(** ** Lemmas *)

Lemma length_fixed_dec w n : length (fixed_dec w n) = w.
Proof. revert n; induction w as [|w IH]; intros n; cbn; [done|]. rewrite length_app, IH. cbn. lia. Qed.

Lemma fixed_dec_inj w : forall n m, 0 <= n < 10 ^ Z.of_nat w -> 0 <= m < 10 ^ Z.of_nat w -> fixed_dec w n = fixed_dec w m -> n = m.
Proof.
  induction w as [|w IH]; intros n m Hn Hm E; cbn in *; [lia|].
  replace (Z.of_nat (S w)) with (Z.succ (Z.of_nat w)) in * by lia. rewrite Z.pow_succ_r in Hn, Hm by lia.
  apply app_inj_tail in E as [E1 E2]. apply IH in E1; [|Z.to_euclidean_division_equations; lia..].
  assert (Hd : n mod 10 = m mod 10).
  { apply (f_equal uchar) in E2. unfold digit in E2. rewrite !uchar_chr in E2 by (unfold in_u; Z.to_euclidean_division_equations; lia). lia. }
  rewrite (Z.div_mod n 10), (Z.div_mod m 10), E1, Hd by lia. done.
Qed.

(** A number with [w] digits whose first one is not zero. *)
Lemma dec_digits_fixed w : forall fuel n, (w <= fuel)%nat -> 10 ^ (Z.of_nat w - 1) <= n < 10 ^ Z.of_nat w -> (0 < w)%nat ->
  dec_digits fuel n = fixed_dec w n.
Proof.
  induction w as [|w IH]; intros fuel n Hf Hn Hw; [lia|]. destruct fuel as [|fuel]; [lia|]. cbn [dec_digits fixed_dec].
  replace (Z.of_nat (S w) - 1) with (Z.of_nat w) in Hn by lia. replace (Z.of_nat (S w)) with (Z.succ (Z.of_nat w)) in Hn by lia.
  rewrite Z.pow_succ_r in Hn by lia. pose proof (Z.pow_pos_nonneg 10 (Z.of_nat w) ltac:(lia) ltac:(lia)).
  rewrite (proj2 (Z.eqb_neq _ _)) by lia. f_equal. destruct w as [|w].
  - cbn in *. replace (n / 10) with 0 by (Z.to_euclidean_division_equations; lia). by destruct fuel.
  - apply IH; [lia| |lia]. replace (Z.of_nat (S w)) with (Z.succ (Z.of_nat w)) in * by lia. rewrite Z.pow_succ_r in * by lia.
    replace (Z.succ (Z.of_nat w) - 1) with (Z.of_nat w) by lia. Z.to_euclidean_division_equations; lia.
Qed.

Lemma length_dec_digits w : forall fuel n, 0 <= n < 10 ^ Z.of_nat w -> (length (dec_digits fuel n) <= w)%nat.
Proof.
  induction w as [|w IH]; intros [|fuel] n Hn; cbn; try lia; destruct (Z.eqb_spec n 0); cbn; try lia.
  replace (Z.of_nat (S w)) with (Z.succ (Z.of_nat w)) in Hn by lia. rewrite Z.pow_succ_r in Hn by lia.
  rewrite length_app. cbn. specialize (IH fuel (n / 10) ltac:(Z.to_euclidean_division_equations; lia)). lia.
Qed.

(** Six digits are printed exactly when the first one is not zero. *)
Lemma to_string_six n : 0 <= n < 10 ^ 6 -> (to_string n = fixed_dec 6 n <-> 10 ^ 5 <= n).
Proof.
  intros Hn. unfold to_string. split.
  - intros E. destruct (decide (10 ^ 5 <= n)) as [|Hlt]; [done|exfalso]. apply (f_equal length) in E. rewrite length_fixed_dec in E.
    destruct (n =? 0); [done|]. pose proof (length_dec_digits 5 10 n ltac:(lia)). lia.
  - intros H5. rewrite (proj2 (Z.eqb_neq _ _)) by lia. by apply dec_digits_fixed; [lia|cbn; lia|lia].
Qed.

Lemma to_string_length n : 0 <= n < 10 ^ 6 -> (length (to_string n) = 6)%nat -> 10 ^ 5 <= n.
Proof.
  intros Hn Hl. destruct (decide (10 ^ 5 <= n)) as [|Hlt]; [done|exfalso]. unfold to_string in Hl.
  destruct (n =? 0); [done|]. pose proof (length_dec_digits 5 10 n ltac:(lia)). lia.
Qed.

Lemma group_loop_ok fuel : forall pos enc, (length enc - pos + 4 <= 4 * fuel)%nat ->
  exists r, group_loop fuel pos enc = Ok r /\ filter (fun ch => ch <> chr 32) r = filter (fun ch => ch <> chr 32) enc.
Proof.
  induction fuel as [|fuel IH]; intros pos enc Hf; [lia|]. cbn [group_loop].
  destruct (Nat.ltb_spec pos (length enc)) as [Hp|Hp]; [|eauto].
  destruct (IH (pos + 5)%nat (take pos enc ++ [chr 32] ++ drop pos enc)) as (r & -> & Hr).
  { rewrite !length_app, length_take, length_drop. cbn [length]. lia. }
  exists r. split; [done|]. rewrite Hr. transitivity (filter (fun ch => ch <> chr 32) (take pos enc ++ drop pos enc)); [by rewrite !filter_app|by rewrite take_drop].
Qed.

(** The length of the text depends on the lengths alone. *)
Fixpoint group_length (fuel pos len : nat) : nat :=
  match fuel with O => 0 | S fuel => if (pos <? len)%nat then group_length fuel (pos + 5) (S len) else len end.

Lemma group_loop_length fuel : forall pos enc r, group_loop fuel pos enc = Ok r -> length r = group_length fuel pos (length enc).
Proof.
  induction fuel as [|fuel IH]; intros pos enc r H; [done|]. cbn [group_loop group_length] in *.
  destruct (Nat.ltb_spec pos (length enc)) as [Hp|Hp]; [|congruence].
  apply IH in H. rewrite H. f_equal. rewrite !length_app, length_take, length_drop. cbn [length]. lia.
Qed.

Definition ascii_to_lower (ch : ascii) : ascii :=
  if (65 <=? uchar ch) && (uchar ch <=? 90) then chr (uchar ch + 32) else ch.

Lemma b32_upper c : b32_char c -> ascii_to_upper c = c /\ ascii_to_upper (ascii_to_lower c) = c /\ c <> chr 32.
Proof.
  unfold b32_char. intros Hc. split; [|split].
  - unfold ascii_to_upper. case_bool; [lia|done].
  - unfold ascii_to_lower. destruct ((65 <=? uchar c) && (uchar c <=? 90)) eqn:E; zify_bool; unfold ascii_to_upper; [|case_bool; [lia|done]].
    rewrite uchar_chr by (unfold in_u; lia). case_bool; [|lia]. rewrite <- (chr_uchar c) at 2. f_equal. lia.
  - intros ->. change (uchar (chr 32)) with 32 in Hc. destruct Hc; lia.
Qed.

Lemma lower_space c : ascii_to_lower c = chr 32 <-> c = chr 32.
Proof.
  unfold ascii_to_lower. case_bool; [|done]. split; [|intros ->; done]. intros E2. apply (f_equal uchar) in E2.
  rewrite uchar_chr in E2 by (unfold in_u; lia). change (uchar (chr 32)) with 32 in E2. lia.
Qed.

Lemma filter_lower (l : str) :
  filter (fun ch => ch <> chr 32) (map ascii_to_lower l) = map ascii_to_lower (filter (fun ch => ch <> chr 32) l).
Proof.
  induction l as [|c l IH]; [done|]. cbn [map]. rewrite !filter_cons. pose proof (lower_space c).
  destruct (decide (c <> chr 32)), (decide (ascii_to_lower c <> chr 32)); try tauto; cbn [map]; by rewrite IH.
Qed.

Section Texts.
Context {B : Base32} {BOk : Base32Ok B}.

Lemma filter_all (l : str) : Forall b32_char l -> filter (fun ch => ch <> chr 32) l = l.
Proof.
  induction 1 as [|c l Hc _ IH]; [done|]. rewrite filter_cons, decide_True by by apply b32_upper. by rewrite IH.
Qed.

Lemma map_upper (l : str) : Forall b32_char l -> map ascii_to_upper l = l /\ map ascii_to_upper (map ascii_to_lower l) = l.
Proof.
  induction 1 as [|c l Hc _ [IH1 IH2]]; [done|]. destruct (b32_upper c Hc) as (E1 & E2 & _). cbn. by rewrite E1, E2, IH1, IH2.
Qed.

Lemma decode_norm garbage key text :
  length garbage = key_size -> length key = key_size -> filter (fun ch => ch <> chr 32) text = b32_encode key ->
  decode_secret_key garbage text = Ok key /\ decode_secret_key garbage (map ascii_to_lower text) = Ok key.
Proof.
  intros Hg Hk Hf. destruct (map_upper (b32_encode key) (b32_alphabet key Hk)) as [E1 E2]. unfold decode_secret_key.
  rewrite filter_lower, Hf, E1, E2, b32_round by done. rewrite (proj2 (Nat.leb_le _ _)) by lia.
  rewrite drop_ge by lia. by rewrite app_nil_r.
Qed.
End Texts.

Lemma be_value_four a b c d : be_value [a; b; c; d] = uchar d + 256 * (uchar c + 256 * (uchar b + 256 * uchar a)).
Proof. unfold be_value. cbn. lia. Qed.

(** ** Properties *)

(** C32: A secret survives its text, grouped or not, in upper or in lower case; the grouped
    text has 39 characters. *)
Theorem secret_roundtrip {B : Base32} {BOk : Base32Ok B} garbage key output_in_group :
  length garbage = key_size -> length key = key_size ->
  exists text, encode_secret_key key output_in_group = Ok text /\
    length text = (if output_in_group then 39 else 32)%nat /\
    decode_secret_key garbage text = Ok key /\ decode_secret_key garbage (map ascii_to_lower text) = Ok key.
Proof.
  intros Hg Hk. unfold encode_secret_key. cbv zeta. pose proof (b32_length key Hk) as Hl.
  pose proof (filter_all _ (b32_alphabet key Hk)) as Hf. destruct output_in_group.
  - rewrite Hl. cbn [Nat.eqb assert]. rewrite bind_ok.
    destruct (group_loop_ok 32 4 (b32_encode key)) as (r & E & Hr); [lia|]. exists r. split; [done|].
    apply group_loop_length in E. rewrite Hl in E. split; [done|]. apply decode_norm; [done..|congruence].
  - exists (b32_encode key). split; [done|]. split; [done|]. by apply decode_norm.
Qed.

(** On every host the password is the decimal text of the dynamic truncation of the
    MAC of the counter, modulo a million, and no access is out of bounds.  It is the one
    of RFC 6238 only if the top bit of the truncation is clear (the code does not clear it)
    and the first of the six digits is not zero (the code does not print it). *)
Theorem topt_code {B : Base32} host hmac garbage enc_secret key seconds :
  decode_secret_key garbage enc_secret = Ok key -> (forall k m, length (hmac k m) = 20%nat) -> 0 <= seconds < 2 ^ 63 ->
  let digest := hmac key (be_bytes 8 (seconds / 30)) in
  let value := be_value (truncation digest) in
  exists text, generate_topt host hmac garbage enc_secret seconds = Ok text /\
    text = to_string (value mod 10 ^ 6) /\
    (text = rfc_code digest <-> value < 2 ^ 31 /\ 10 ^ 5 <= value mod 10 ^ 6).
Proof.
  intros Hd Hmac Hs digest value. unfold generate_topt. rewrite Hd, bind_ok. cbv zeta.
  unfold HostToNetwork_u. rewrite host_store_hton.
  replace (time_counter seconds) with (seconds / 30); last first.
  { unfold time_counter, to_unsigned, wrap. rewrite Z.quot_div_nonneg by lia.
    rewrite Z.mod_small; [done|]. Z.to_euclidean_division_equations; lia. }
  fold digest. pose proof (Hmac key (be_bytes 8 (seconds / 30))) as Hl. fold digest in Hl.
  destruct (lookup_lt_is_Some_2 digest 19) as [x Hx]; [lia|]. rewrite Hx. cbn [the]. rewrite bind_ok.
  assert (Ht : truncation digest = take 4 (drop (Z.to_nat (Z.land (uchar x) 0x0f)) digest)) by (unfold truncation; by rewrite Hx).
  rewrite <- Ht.
  assert (Hoff : (Z.to_nat (Z.land (uchar x) 0x0f) <= 15)%nat).
  { change 0x0f with (Z.ones 4). rewrite Z.land_ones by lia. pose proof (Z.mod_pos_bound (uchar x) (2 ^ 4)). lia. }
  assert (Hlt : length (truncation digest) = 4%nat) by (rewrite Ht, length_take, length_drop; lia).
  rewrite Hlt. cbn [Nat.eqb assert]. rewrite bind_ok. unfold NetworkToHost_u. rewrite hton_host_load by done. fold value.
  eexists. split; [done|]. split; [done|]. change 1000000 with (10 ^ 6).
  pose proof (Z.mod_pos_bound value (10 ^ 6) ltac:(lia)) as Hb. unfold rfc_code. fold value.
  assert (Hv : 0 <= value < 2 ^ 32).
  { subst value. destruct (truncation digest) as [|a [|b [|c [|d [|]]]]]; try done. rewrite be_value_four.
    pose proof (uchar_range a). pose proof (uchar_range b). pose proof (uchar_range c). pose proof (uchar_range d). lia. }
  pose proof (Z.mod_pos_bound (value mod 2 ^ 31) (10 ^ 6) ltac:(lia)) as Hb2. split.
  - intros E. assert (H5 : 10 ^ 5 <= value mod 10 ^ 6).
    { apply to_string_length; [lia|]. by rewrite E, length_fixed_dec. }
    split; [|done]. apply to_string_six in H5; [|lia]. rewrite H5 in E. apply fixed_dec_inj in E; [|cbn; lia..].
    destruct (decide (value < 2 ^ 31)) as [|Hge]; [done|exfalso].
    assert (Hm : value mod 2 ^ 31 = value - 2 ^ 31) by (symmetry; apply (Z.mod_unique_pos _ _ 1); lia). rewrite Hm in E.
    Z.to_euclidean_division_equations; lia.
  - intros [H31 H5]. rewrite (Z.mod_small value (2 ^ 31)) by lia. apply to_string_six; lia.
Qed.

(** A text of less than 32 characters is accepted, and the rest of the secret is what
    was in memory. *)
Theorem short_secret_uninitialised {B : Base32} garbage text data :
  b32_decode (map ascii_to_upper (filter (fun ch => ch <> chr 32) text)) = Some data ->
  (length data < key_size)%nat -> length garbage = key_size ->
  exists key, decode_secret_key garbage text = Ok key /\ length key = key_size /\
    drop (length data) key = drop (length data) garbage.
Proof.
  intros Hd Hl Hg. unfold decode_secret_key. rewrite Hd, (proj2 (Nat.leb_le _ _)) by lia. eexists. split; [done|].
  rewrite length_app, length_drop, drop_app_length. split; [lia|done].
Qed.

(** ** A codec *)

Definition b32_digit (d : Z) : ascii := if d <? 26 then chr (65 + d) else chr (24 + d).
Definition b32_value (c : ascii) : option Z :=
  if (65 <=? uchar c) && (uchar c <=? 90) then Some (uchar c - 65)
  else if (50 <=? uchar c) && (uchar c <=? 55) then Some (uchar c - 24) else None.

Fixpoint b32_digits (w : nat) (n : Z) : str :=
  match w with O => [] | S w => b32_digits w (n / 32) ++ [b32_digit (n mod 32)] end.
Fixpoint b32_number (l : str) (n : Z) : option Z :=
  match l with [] => Some n | c :: l => match b32_value c with Some d => b32_number l (32 * n + d) | None => None end end.

(** Without padding, for groups of five bytes. *)
#[global] Instance base32_groups : Base32 := {
  b32_encode s := b32_digits (8 * (length s / 5)) (be_value s);
  b32_decode t := match b32_number t 0 with Some n => Some (be_bytes (5 * (length t / 8)) n) | None => None end
}.

Lemma b32_digit_ok d : 0 <= d < 32 -> b32_char (b32_digit d) /\ b32_value (b32_digit d) = Some d.
Proof.
  intros Hd. unfold b32_char, b32_value, b32_digit. case_bool; rewrite !uchar_chr by (unfold in_u; lia); (split; [lia|]); case_bool; try lia; f_equal; try lia.
  case_bool; [f_equal; lia|lia].
Qed.

Lemma b32_digits_ok w : forall n, length (b32_digits w n) = w /\ Forall b32_char (b32_digits w n).
Proof.
  induction w as [|w IH]; intros n; cbn; [by split|]. destruct (IH (n / 32)) as [Hl Hf]. split; [rewrite length_app, Hl; cbn; lia|].
  apply Forall_app. split; [done|]. apply List.Forall_cons; [|apply List.Forall_nil]. apply b32_digit_ok, Z.mod_pos_bound. lia.
Qed.

Lemma b32_number_app x c m : b32_number (x ++ [c]) m =
  match b32_number x m with Some n => match b32_value c with Some d => Some (32 * n + d) | None => None end | None => None end.
Proof. revert m; induction x as [|a x IH]; intros m; cbn; [done|]. destruct (b32_value a); [apply IH|done]. Qed.

Lemma b32_number_digits w : forall n, 0 <= n < 32 ^ Z.of_nat w -> b32_number (b32_digits w n) 0 = Some n.
Proof.
  induction w as [|w IH]; intros n Hn; cbn [b32_digits]; [cbn in *; f_equal; lia|].
  replace (Z.of_nat (S w)) with (Z.succ (Z.of_nat w)) in Hn by lia. rewrite Z.pow_succ_r in Hn by lia.
  rewrite b32_number_app, IH by (Z.to_euclidean_division_equations; lia).
  destruct (b32_digit_ok (n mod 32)) as [_ ->]; [apply Z.mod_pos_bound; lia|]. f_equal. pose proof (Z.div_mod n 32). lia.
Qed.

#[global] Instance base32_groups_ok : Base32Ok base32_groups.
Proof.
  split; intros s Hs; unfold b32_decode, b32_encode, base32_groups; rewrite Hs; change (8 * (20 / 5))%nat with 32%nat.
  - apply b32_digits_ok.
  - apply b32_digits_ok.
  - pose proof (le_value_bound (rev s)) as Hb. rewrite length_rev, Hs in Hb.
    rewrite (proj1 (b32_digits_ok 32 (be_value s))). rewrite b32_number_digits by exact Hb.
    change (5 * (32 / 8))%nat with 20%nat. by rewrite be_bytes_of_value.
Qed.

(** ** Witnesses *)

Definition sample_key : str := map chr [41; 123; 90; 226; 233; 196; 39; 214; 59; 138; 217; 1; 2; 3; 4; 5; 6; 7; 8; 9].
Definition sample_garbage : str := replicate 20 (chr 170).

Lemma secret_roundtrip_witness :
  exists text, encode_secret_key sample_key true = Ok text /\ length text = 39%nat /\
    decode_secret_key sample_garbage text = Ok sample_key /\ decode_secret_key sample_garbage (map ascii_to_lower text) = Ok sample_key.
Proof. by apply (secret_roundtrip sample_garbage sample_key true). Defined.

Definition fixed_hmac (k m : str) : str := map chr [1; 2; 3; 4; 5; 6; 7; 8; 9; 10; 11; 12; 13; 14; 15; 16; 17; 18; 19; 3].

Lemma topt_code_witness :
  exists text, generate_topt little_endian fixed_hmac sample_garbage (b32_encode sample_key) 59 = Ok text /\
    text = to_string (be_value (truncation (fixed_hmac sample_key (be_bytes 8 1))) mod 10 ^ 6) /\
    (text = rfc_code (fixed_hmac sample_key (be_bytes 8 1)) <->
     be_value (truncation (fixed_hmac sample_key (be_bytes 8 1))) < 2 ^ 31 /\
     10 ^ 5 <= be_value (truncation (fixed_hmac sample_key (be_bytes 8 1))) mod 10 ^ 6).
Proof.
  apply (topt_code little_endian fixed_hmac sample_garbage (b32_encode sample_key) sample_key 59);
    [vm_compute; reflexivity|done|lia].
Defined.

Lemma short_secret_uninitialised_witness :
  exists key, decode_secret_key sample_garbage (b32_encode (take 10 sample_key)) = Ok key /\ length key = key_size /\
    drop 10 key = drop 10 sample_garbage.
Proof.
  apply (short_secret_uninitialised sample_garbage (b32_encode (take 10 sample_key)) (take 10 sample_key));
    [vm_compute; reflexivity|vm_compute; lia|reflexivity].
Defined.
