(* ===== verification/Monitor.v ===== *)
(** * Monitors

    Classes with a mutex and a condition variable: an operation waits for its predicate,
    does its work under the mutex and notifies others.  What is done under the mutex is
    one step; between the steps the threads interleave in any order, a thread can wake up
    without reason, and [notify_one] wakes any of the sleeping threads.  The containers
    (Containers) instantiate [Monitor]. *)

From S2P Require Import Prelude Threads.

#[local] Open Scope Z_scope.

Inductive notification := NotifyNone | NotifyOne | NotifyAll.

(** [guard]: the predicate of [wait], [true] when the operation does not wait; [body]: the
    new state, what the operation returns (or throws), and whom it notifies; [inside]:
    whether it still has the mutex when it does. *)
Class Monitor (S O R : Type) := {
  guard : O -> S -> bool;
  body : O -> S -> S * outcome R * notification;
  inside : O -> bool
}.

Section Monitor.
Context {S O R : Type} {M : Monitor S O R}.

Inductive thread :=
| Resting
| Entering (o : O)
| Sleeping (o : O)
| Notifying (o : O) (r : outcome R) (n : notification)
| Returned (o : O) (r : outcome R).

Definition wake (t : thread) : thread := match t with Sleeping o => Entering o | _ => t end.
Definition asleep (t : thread) : Prop := exists o, t = Sleeping o.

(** What a notification does to the threads. *)
Inductive notified : notification -> list thread -> list thread -> Prop :=
| notified_none ts : notified NotifyNone ts ts
| notified_one ts j o : ts !! j = Some (Sleeping o) -> notified NotifyOne ts (<[j := Entering o]> ts)
| notified_nobody ts : (forall t, t ∈ ts -> ~ asleep t) -> notified NotifyOne ts ts
| notified_all ts : notified NotifyAll ts (map wake ts).

(** [may t o]: the thread, which is not in an operation, may call [o]. *)
Context (may : thread -> O -> Prop).

(** What the thread [i] did under the mutex: an operation, with the result that it has from then on. *)
Definition event : Type := nat * O * outcome R.

(** A step is labelled with what was done under the mutex in it. *)
Inductive step : S * list thread -> list event -> S * list thread -> Prop :=
| step_call s ts i t o :
    ts !! i = Some t -> may t o -> step (s, ts) [] (s, <[i := Entering o]> ts)
| step_wait s ts i o :
    ts !! i = Some (Entering o) -> guard o s = false -> step (s, ts) [] (s, <[i := Sleeping o]> ts)
| step_body s ts i o s' r n :
    ts !! i = Some (Entering o) -> guard o s = true -> body o s = (s', r, n) -> inside o = false ->
    step (s, ts) [(i, o, r)] (s', <[i := Notifying o r n]> ts)
| step_inside s ts i o s' r n ts' :
    ts !! i = Some (Entering o) -> guard o s = true -> body o s = (s', r, n) -> inside o = true ->
    notified n (<[i := Returned o r]> ts) ts' -> step (s, ts) [(i, o, r)] (s', ts')
| step_notify s ts i o r n ts' :
    ts !! i = Some (Notifying o r n) -> notified n (<[i := Returned o r]> ts) ts' -> step (s, ts) [] (s, ts')
| step_spurious s ts i o :
    ts !! i = Some (Sleeping o) -> step (s, ts) [] (s, <[i := Entering o]> ts).

(** [traced init m tr c]: [m] threads reach [c], and [tr] is what they did under the mutex, in order. *)
Inductive traced (init : S) (m : nat) : list event -> S * list thread -> Prop :=
| traced_start : traced init m [] (init, replicate m Resting)
| traced_step tr c e c' : traced init m tr c -> step c e c' -> traced init m (tr ++ e) c'.

Definition reachable (init : S) (m : nat) (c : S * list thread) : Prop := exists tr, traced init m tr c.

Lemma reachable_start init m : reachable init m (init, replicate m Resting).
Proof. exists []. constructor. Qed.

Lemma reachable_step init m c e c' : reachable init m c -> step c e c' -> reachable init m c'.
Proof. intros [tr Hr] Hs. exists (tr ++ e). by econstructor. Qed.

(** No thread can go on by itself: those that are in an operation sleep. *)
Definition quiescent (ts : list thread) : Prop :=
  forall t, t ∈ ts -> match t with Entering _ | Notifying _ _ _ => False | _ => True end.

(** What a thread has been given is what it did under the mutex. *)
Definition given (tr : list event) (i : nat) (t : thread) : Prop :=
  match t with Notifying o r _ | Returned o r => (i, o, r) ∈ tr | _ => True end.

Lemma notified_lookup n (ts ts' : list thread) i t' : notified n ts ts' -> ts' !! i = Some t' ->
  ts !! i = Some t' \/ exists o, t' = Entering o.
Proof.
  intros Hn Hi. destruct Hn as [ts|ts j o Hj|ts Hno|ts]; [by left| |by left|].
  - apply list_lookup_insert_Some in Hi as [(_ & <- & _)|[_ Hi]]; [right; by eexists|by left].
  - apply list_lookup_fmap_Some in Hi as (t & -> & Hi). destruct t; cbn; eauto.
Qed.

Lemma given_insert tr (ts : list thread) i t : (forall j u, ts !! j = Some u -> given tr j u) -> given tr i t ->
  forall j u, <[i := t]> ts !! j = Some u -> given tr j u.
Proof. intros H Ht j u Hj. apply list_lookup_insert_Some in Hj as [(<- & <- & _)|[_ Hj]]; [done|by apply H]. Qed.

Lemma given_notified tr n (ts ts' : list thread) : (forall j u, ts !! j = Some u -> given tr j u) -> notified n ts ts' ->
  forall j u, ts' !! j = Some u -> given tr j u.
Proof. intros H Hn j u Hj. destruct (notified_lookup _ _ _ _ _ Hn Hj) as [Hj'|[o ->]]; [by apply H|done]. Qed.

Lemma given_mono tr e (ts : list thread) : (forall j u, ts !! j = Some u -> given tr j u) -> forall j u, ts !! j = Some u -> given (tr ++ e) j u.
Proof. intros H j u Hj. specialize (H j u Hj). destruct u; cbn in *; try done; apply elem_of_app; by left. Qed.

Lemma traced_given init m tr c : traced init m tr c -> forall i t, snd c !! i = Some t -> given tr i t.
Proof.
  induction 1 as [|tr c e c' _ IH Hs]; [intros i t Ht; by apply lookup_replicate in Ht as [-> _]|].
  assert (Hlast : forall i o r, (i, o, r) ∈ tr ++ [(i, o, r)]) by (intros; apply elem_of_app; right; by apply list_elem_of_singleton).
  destruct Hs as [s ts i t o Hi _|s ts i o Hi _|s ts i o s' r n Hi _ _ _|s ts i o s' r n ts' Hi _ _ _ Hn|s ts i o r n ts' Hi Hn|s ts i o Hi];
    cbn [snd] in *; rewrite ?app_nil_r.
  - by apply given_insert.
  - by apply given_insert.
  - apply given_insert; [by apply given_mono|apply Hlast].
  - eapply given_notified; [|exact Hn]. apply given_insert; [by apply given_mono|apply Hlast].
  - eapply given_notified; [|exact Hn]. apply given_insert; [done|exact (IH _ _ Hi)].
  - by apply given_insert.
Qed.

(** ** Lemmas *)

(** Which operations take what there is to do; only they sleep. *)
Context (consumer : O -> bool).

Definition sleepers_consume (ts : list thread) : Prop := forall o, Sleeping o ∈ ts -> consumer o = true.

Definition entering (t : thread) : Z := match t with Entering o => if consumer o then 1 else 0 | _ => 0 end.
Definition notifying (t : thread) : Z := match t with Notifying _ _ NotifyOne => 1 | _ => 0 end.
Definition notifying_all (t : thread) : Prop := exists o r, t = Notifying o r NotifyAll.

Definition nobody_sleeps (ts : list thread) : Prop := forall t, t ∈ ts -> ~ asleep t.

Lemma elem_of_insert (ts : list thread) i t u : u ∈ <[i := t]> ts -> u = t \/ u ∈ ts.
Proof.
  intros Hu. apply list_elem_of_lookup in Hu as [j Hj]. apply list_lookup_insert_Some in Hj as [(_ & -> & _)|[_ Hj]]; [by left|right].
  by eapply list_elem_of_lookup_2.
Qed.

Lemma nobody_insert ts i t : nobody_sleeps ts -> ~ asleep t -> nobody_sleeps (<[i := t]> ts).
Proof. intros H Ht u Hu. apply elem_of_insert in Hu as [-> |Hu]; [done|by apply H]. Qed.

Lemma nobody_wake ts : nobody_sleeps (map wake ts).
Proof. intros t Ht [o ->]. apply list_elem_of_fmap in Ht as (u & E & _). by destruct u. Qed.

(** The sleeping threads are served: for each of the [k] things to do a consumer is awake or
    about to be woken, or all are about to be woken. *)
Definition served (k : Z) (ts : list thread) : Prop :=
  nobody_sleeps ts \/ (exists t, t ∈ ts /\ notifying_all t) \/ k <= sum_of entering ts + sum_of notifying ts.

Lemma sums_nonneg ts : 0 <= sum_of entering ts /\ 0 <= sum_of notifying ts.
Proof. split; apply sum_of_nonneg; intros []; cbn; try lia; [by destruct (consumer o)|by destruct n]. Qed.

Lemma served_nothing k ts : k <= 0 -> served k ts.
Proof. intros Hk. right. right. pose proof (sums_nonneg ts). lia. Qed.

Lemma sum_insert (f : thread -> Z) ts i t u : ts !! i = Some t -> sum_of f (<[i := u]> ts) = sum_of f ts - f t + f u.
Proof. intros H. by rewrite (sum_of_insert _ _ _ t). Qed.

Lemma served_mono k k' ts : served k ts -> k' <= k -> served k' ts.
Proof. unfold served. intros [H|[H|H]] Hk; [by left|by right; left|right; right; lia]. Qed.

(** A thread changes its place, and [d] more threads have something to do. *)
Lemma served_insert k k' ts i t u : served k ts -> ts !! i = Some t -> ~ notifying_all t -> ~ asleep u ->
  k' - k <= entering u + notifying u - entering t - notifying t -> served k' (<[i := u]> ts).
Proof.
  intros Hs Hi Hna Hu Hk. pose proof (sums_nonneg (<[i := u]> ts)) as Hnn. unfold served.
  rewrite !(sum_insert _ ts i t u) in * by done.
  destruct Hs as [H|[(w & Hw & Hall)|H]]; [left; by apply nobody_insert| |right; right; lia].
  right. left. exists w. split; [|done]. apply list_elem_of_lookup in Hw as [j Hj]. apply list_elem_of_lookup. exists j.
  rewrite list_lookup_insert_ne; [done|]. intros <-. rewrite Hi in Hj. injection Hj as ->. done.
Qed.

(** Another thread notifies all: the claim of nobody sleeping holds whatever there is to do. *)
Lemma served_all k ts : served k (map wake ts).
Proof. left. apply nobody_wake. Qed.

Lemma served_notify_one k ts i o r ts' : served k ts -> sleepers_consume ts -> ts !! i = Some (Notifying o r NotifyOne) ->
  notified NotifyOne (<[i := Returned o r]> ts) ts' -> served k ts'.
Proof.
  intros Hs Hcon Hi Hn. inversion Hn as [|? j o' Hj|? Hno|]; subst; [|by left].
  apply list_lookup_insert_Some in Hj as [(_ & [=] & _)|[Hne Hj]].
  assert (Hj' : <[i := Returned o r]> ts !! j = Some (Sleeping o')) by by rewrite list_lookup_insert_ne.
  unfold served. rewrite !(sum_insert _ (<[i := Returned o r]> ts) j (Sleeping o') (Entering o')) by done.
  rewrite !(sum_insert _ ts i (Notifying o r NotifyOne) (Returned o r)) by done. cbn.
  rewrite (Hcon o') by by eapply list_elem_of_lookup_2.
  destruct Hs as [H|[(w & Hw & Hall)|H]]; [| |right; right; lia].
  - exfalso. apply (H (Sleeping o')); [by eapply list_elem_of_lookup_2|by exists o'].
  - right. left. exists w. split; [|done]. apply list_elem_of_lookup in Hw as [l Hl]. apply list_elem_of_lookup. exists l.
    destruct Hall as (o2 & r2 & ->). rewrite !list_lookup_insert_ne; [done|intros <-; congruence|intros <-; congruence].
Qed.

Lemma sleepers_insert ts i t : sleepers_consume ts -> (forall o, t = Sleeping o -> consumer o = true) ->
  sleepers_consume (<[i := t]> ts).
Proof. intros H Ht o Ho. apply elem_of_insert in Ho as [Ho|Ho]; [by apply Ht|by apply H]. Qed.

Lemma sleepers_notified n ts ts' : sleepers_consume ts -> notified n ts ts' -> sleepers_consume ts'.
Proof.
  intros H Hn. destruct Hn as [ts|ts j o Hj|ts Hno|ts]; [done|by apply sleepers_insert|done|].
  intros o Ho. exfalso. apply (nobody_wake ts (Sleeping o)); [done|by exists o].
Qed.

(** Everyone sleeping is about to be woken. *)
Definition stopped (ts : list thread) : Prop := nobody_sleeps ts \/ exists t, t ∈ ts /\ notifying_all t.

Lemma stopped_insert ts i t u : stopped ts -> ts !! i = Some t -> ~ notifying_all t -> ~ asleep u -> stopped (<[i := u]> ts).
Proof.
  intros [H|(w & Hw & Hall)] Hi Hna Hu; [left; by apply nobody_insert|]. right. exists w. split; [|done].
  apply list_elem_of_lookup in Hw as [j Hj]. apply list_elem_of_lookup. exists j.
  rewrite list_lookup_insert_ne; [done|]. intros <-. rewrite Hi in Hj. by injection Hj as ->.
Qed.

Lemma stopped_notified ts i o r n ts' : stopped ts -> ts !! i = Some (Notifying o r n) ->
  notified n (<[i := Returned o r]> ts) ts' -> stopped ts'.
Proof.
  intros Hs Hi Hn. inversion Hn as [|? j o' Hj|? Hno|]; subst.
  - eapply stopped_insert; [done|exact Hi|by intros (? & ? & [=])|by intros (? & [=])].
  - eapply stopped_insert; [|exact Hj|by intros (? & ? & [=])|by intros (? & [=])].
    eapply stopped_insert; [done|exact Hi|by intros (? & ? & [=])|by intros (? & [=])].
  - by left.
  - left. apply nobody_wake.
Qed.

Lemma quiescent_sums ts : quiescent ts -> sum_of entering ts = 0 /\ sum_of notifying ts = 0 /\ ~ (exists t, t ∈ ts /\ notifying_all t).
Proof.
  intros Hq. split; [|split].
  - induction ts as [|t ts IH]; cbn; [done|]. rewrite IH by (intros u Hu; apply Hq; by right).
    specialize (Hq t ltac:(by left)). by destruct t.
  - induction ts as [|t ts IH]; cbn; [done|]. rewrite IH by (intros u Hu; apply Hq; by right).
    specialize (Hq t ltac:(by left)). by destruct t.
  - intros (t & Ht & o & r & ->). by specialize (Hq _ Ht).
Qed.

(** At rest, somebody sleeps only if there is nothing to do. *)
Lemma served_quiescent k ts t : served k ts -> quiescent ts -> t ∈ ts -> asleep t -> k <= 0.
Proof.
  intros Hs Hq Ht Ha. destruct (quiescent_sums ts Hq) as (E1 & E2 & E3).
  destruct Hs as [H|[H|H]]; [by destruct (H t Ht)|done|lia].
Qed.
End Monitor.
Arguments thread : clear implicits.

(** [after H st]: from [H], that a configuration is reachable (or traced), the next one by [st]. *)
Tactic Notation "after" hyp(H) uconstr(st) "by" tactic(t) :=
  first [eapply reachable_step in H | eapply traced_step in H]; [|eapply st; solve [reflexivity|exact I|by intros [=]|apply notified_all|apply notified_none|t]].
Tactic Notation "after" hyp(H) uconstr(st) := after H st by fail.
