(* ===== verification/Containers.v ===== *)
(** * Blocking queue, latch and thread pool

    Models BlockingQueue/src/blocking_queue.h, CountDownLatch/src/count_down_latch.cpp and
    TinyThreadPool (tiny_thread_pool.h, tiny_thread_pool.cpp) as monitors: what an operation
    does under its mutex is the body, the predicate of its [wait] the guard. *)

From S2P Require Import Prelude Threads Monitor.

#[local] Open Scope Z_scope.

(** ** BlockingQueue *)

Module BlockingQueue.
Section Queue.
Context {T : Type}.

Record state := mk_state { queue_ : list T }.

Definition make : state := mk_state [].

Inductive op := OPush (ele : T) | OPop | OTryPop | OSize.
Inductive res := RUnit | REle (ele : T) | REmpty | RSize (n : nat).

Definition not_empty (s : state) : bool := match queue_ s with [] => false | _ => true end.

Definition Push (ele : T) (s : state) : state * outcome res * notification :=
  (mk_state (queue_ s ++ [ele]), Ok RUnit, NotifyOne).

(** After the wait; [front] of an empty queue would be undefined. *)
Definition Pop (s : state) : state * outcome res * notification :=
  match queue_ s with
  | [] => (s, Undef, NotifyNone)
  | ele :: q => (mk_state q, Ok (REle ele), NotifyNone)
  end.

Definition TryPop (s : state) : state * outcome res * notification :=
  match queue_ s with
  | [] => (s, Ok REmpty, NotifyNone)
  | ele :: q => (mk_state q, Ok (REle ele), NotifyNone)
  end.

#[global] Instance queue_monitor : Monitor state op res := {
  guard o s := match o with OPop => not_empty s | _ => true end;
  body o s := match o with
              | OPush ele => Push ele s
              | OPop => Pop s
              | OTryPop => TryPop s
              | OSize => (s, Ok (RSize (length (queue_ s))), NotifyNone)
              end;
  inside _ := false
}.

(** A thread calls an operation when it is in none. *)
Definition idle (t : thread op res) (o : op) : Prop :=
  match t with Resting | Returned _ _ => True | _ => False end.

Definition consumer (o : op) : bool := match o with OPop => true | _ => false end.

(** A queue, and what it answers to a history of operations: the specification. *)
Definition answers (q : list T) (o : op) (r : outcome res) (q' : list T) : Prop :=
  match o with
  | OPush v => q' = q ++ [v] /\ r = Ok RUnit
  | OPop => exists v, q = v :: q' /\ r = Ok (REle v)
  | OTryPop => q = [] /\ q' = [] /\ r = Ok REmpty \/ exists v, q = v :: q' /\ r = Ok (REle v)
  | OSize => q' = q /\ r = Ok (RSize (length q))
  end.

Inductive fifo : list (event (O := op) (R := res)) -> list T -> Prop :=
| fifo_start : fifo [] []
| fifo_next tr q i o r q' : fifo tr q -> answers q o r q' -> fifo (tr ++ [(i, o, r)]) q'.

(** The elements that calls of [Push] were given, and those that calls returned. *)
Definition pushed : list (event (O := op) (R := res)) -> list T :=
  omap (fun e => match e with (_, OPush v, Ok _) => Some v | _ => None end).
Definition popped : list (event (O := op) (R := res)) -> list T :=
  omap (fun e => match e.2 with Ok (REle v) => Some v | _ => None end).

Lemma fifo_order tr q : fifo tr q -> pushed tr = popped tr ++ q.
Proof.
  unfold pushed, popped. induction 1 as [|tr q i o r q' _ IH Ha]; [done|]. rewrite !omap_app, IH.
  destruct o; cbn in Ha.
  - destruct Ha as [-> ->]. cbn. by rewrite app_nil_r, app_assoc.
  - destruct Ha as (v & -> & ->). cbn. by rewrite app_nil_r, <- app_assoc.
  - destruct Ha as [(-> & -> & ->)|(v & -> & ->)]; cbn; by rewrite ?app_nil_r, <- ?app_assoc.
  - destruct Ha as [-> ->]. cbn. by rewrite !app_nil_r.
Qed.

Record Inv (tr : list (event (O := op) (R := res))) (c : state * list (thread op res)) : Prop := {
  inv_fifo : fifo tr (queue_ (fst c));
  inv_served : served consumer (Z.of_nat (length (queue_ (fst c)))) (snd c);
  inv_sleepers : sleepers_consume consumer (snd c);
  inv_results : forall t, t ∈ snd c -> match t with Notifying _ r _ | Returned _ r => is_ok r = true | _ => True end;
  inv_all : forall t, t ∈ snd c -> ~ notifying_all t
}.

Lemma queue_step tr c e c' : Inv tr c -> step idle c e c' -> Inv (tr ++ e) c'.
Proof.
  intros [Ho Hs Hc Hr Ha] Hst.
  destruct Hst as [s ts i t o Hi Hm|s ts i o Hi Hg|s ts i o s' r n Hi Hg Hb Hin|s ts i o s' r n ts' Hi Hg Hb Hin Hn|s ts i o r n ts' Hi Hn|s ts i o Hi];
    cbn [fst snd] in *; rewrite ?app_nil_r; [| | |done| |].
  - split; cbn [fst snd]; [done| | | |].
    + eapply served_insert; [done|exact Hi|destruct t; try done; by intros (? & ? & [=])|by intros (? & [=])|]. destruct t; try done; cbn; destruct (consumer o); lia.
    + apply sleepers_insert; [done|by intros ? [=]].
    + intros u Hu. apply elem_of_insert in Hu as [-> |Hu]; [done|by apply Hr].
    + intros u Hu. apply elem_of_insert in Hu as [-> |Hu]; [by intros (? & ? & [=])|by apply Ha].
  - destruct o; try done. cbn in Hg. unfold not_empty in Hg. destruct (queue_ s) eqn:Eq; [|done]. split; cbn [fst snd]; rewrite ?Eq; [done| | | |].
    + apply served_nothing. cbn. lia.
    + apply sleepers_insert; [done|by intros ? [= <-]].
    + intros u Hu. apply elem_of_insert in Hu as [-> |Hu]; [done|by apply Hr].
    + intros u Hu. apply elem_of_insert in Hu as [-> |Hu]; [by intros (? & ? & [=])|by apply Ha].
  - assert (Hstep : answers (queue_ s) o r (queue_ s') /\ is_ok r = true /\ n <> NotifyAll /\
      Z.of_nat (length (queue_ s')) - Z.of_nat (length (queue_ s)) <=
        (match n with NotifyOne => 1 | _ => 0 end) - (if consumer o then 1 else 0)).
    { destruct o as [v| | |]; cbn in Hb, Hg; unfold Push, Pop, TryPop, not_empty, answers in *.
      - injection Hb as <- <- <-. cbn. rewrite length_app. cbn. repeat split; [done|lia].
      - destruct (queue_ s) as [|v q] eqn:Eq; [done|]. injection Hb as <- <- <-. cbn. repeat split; [by exists v|done|lia].
      - destruct (queue_ s) as [|v q] eqn:Eq; injection Hb as <- <- <-; cbn; rewrite ?Eq; cbn; (split; [eauto|]); repeat split; try done; lia.
      - injection Hb as <- <- <-. cbn. repeat split; [done|lia]. }
    destruct Hstep as (H1 & H2 & H3 & H4). split; cbn [fst snd]; [by eapply fifo_next| | | |].
    + eapply served_insert; [done|exact Hi|by intros (? & ? & [=])|by intros (? & [=])|]. cbn. destruct n; cbn; lia.
    + apply sleepers_insert; [done|by intros ? [=]].
    + intros u Hu. apply elem_of_insert in Hu as [-> |Hu]; [done|by apply Hr].
    + intros u Hu. apply elem_of_insert in Hu as [-> |Hu]; [|by apply Ha]. intros (? & ? & [=]). done.
  - pose proof (Hr _ (list_elem_of_lookup_2 _ _ _ Hi)) as Hok. cbn in Hok.
    pose proof (Ha _ (list_elem_of_lookup_2 _ _ _ Hi)) as Hna.
    assert (Hsub : forall u, u ∈ ts' -> u ∈ ts \/ u = Returned o r \/ exists o', u = Entering o').
    { intros u Hu. inversion Hn as [ts1|ts1 j o' Hj|ts1 Hno|ts1]; subst.
      - apply elem_of_insert in Hu as [-> |Hu]; auto.
      - apply elem_of_insert in Hu as [-> |Hu]; [right; right; by eexists|]. apply elem_of_insert in Hu as [-> |Hu]; auto.
      - apply elem_of_insert in Hu as [-> |Hu]; auto.
      - exfalso. apply Hna. by eexists _, _. }
    split; cbn [fst snd]; [done| | | |].
    + destruct n; [|by eapply served_notify_one|by destruct Hna; eexists _, _]. inversion Hn; subst.
      eapply served_insert; [done|exact Hi|done|by intros (? & [=])|cbn; lia].
    + eapply sleepers_notified; [|exact Hn]. apply sleepers_insert; [done|by intros ? [=]].
    + intros u Hu. destruct (Hsub u Hu) as [Hu'|[-> |[o' ->]]]; [by apply Hr|done|done].
    + intros u Hu. destruct (Hsub u Hu) as [Hu'|[-> |[o' ->]]]; [by apply Ha|by intros (? & ? & [=])|by intros (? & ? & [=])].
  - split; cbn [fst snd]; [done| | | |].
    + eapply served_insert; [done|exact Hi|by intros (? & ? & [=])|by intros (? & [=])|]. cbn. destruct (consumer o); lia.
    + apply sleepers_insert; [done|by intros ? [=]].
    + intros u Hu. apply elem_of_insert in Hu as [-> |Hu]; [done|by apply Hr].
    + intros u Hu. apply elem_of_insert in Hu as [-> |Hu]; [by intros (? & ? & [=])|by apply Ha].
Qed.

Lemma traced_queue_inv m tr c : traced idle make m tr c -> Inv tr c.
Proof.
  induction 1 as [|tr c e c' _ IH Hs]; [|by eapply queue_step].
  split; cbn [fst snd]; [constructor| |intros o Ho; by apply elem_of_replicate in Ho as [[=] _]|
    intros t Ht; by apply elem_of_replicate in Ht as [-> _]|intros t Ht; apply elem_of_replicate in Ht as [-> _]; by intros (? & ? & [=])].
  left. intros t Ht. apply elem_of_replicate in Ht as [-> _]. by intros (? & [=]).
Qed.

(** C26: With any number of threads pushing and popping in any interleaving, spurious wakeups
    included, the blocking queue answers its calls, in the order in which they have the mutex,
    as a first-in-first-out queue: what the calls returned is what was pushed, each element
    once and in the order of the pushes, less what the queue still holds; a thread has been
    given what its call returned; no [Pop] ever meets an empty queue, and no wakeup is lost:
    when no thread can go on, a thread sleeps in [Pop] only if the queue is empty. *)
Theorem blocking_queue_fifo (m : nat) (tr : list event) (s : state) (ts : list (thread op res)) :
  traced idle make m tr (s, ts) ->
  fifo tr (queue_ s) /\ pushed tr = popped tr ++ queue_ s /\
  (forall i o r, ts !! i = Some (Returned o r) -> is_ok r = true /\ (i, o, r) ∈ tr) /\
  (forall o, Sleeping o ∈ ts -> o = OPop /\ (quiescent ts -> queue_ s = [])).
Proof.
  intros Htr. destruct (traced_queue_inv _ _ _ Htr) as [Ho Hs Hc Hr Ha]. cbn [fst snd] in *.
  split; [done|]. split; [by apply fifo_order|]. split.
  - intros i o r Hi. split; [|exact (traced_given _ _ _ _ _ Htr i _ Hi)]. exact (Hr _ (list_elem_of_lookup_2 _ _ _ Hi)).
  - intros o Ht. split; [pose proof (Hc o Ht); by destruct o|]. intros Hq.
    pose proof (served_quiescent consumer _ _ _ Hs Hq Ht ltac:(by exists o)) as Hk. destruct (queue_ s); [done|cbn in Hk; lia].
Qed.
End Queue.

(** One thread sleeps in [Pop]; another one pushes two elements, which wakes it, and a third
    one tries to pop. *)
Definition sample_trace : list (event (O := @op Z) (R := @res Z)) :=
  [(1%nat, OPush 7, Ok RUnit); (2%nat, OTryPop, Ok (REle 7)); (1%nat, OPush 8, Ok RUnit); (0%nat, OPop, Ok (REle 8))].
Definition sample_threads : list (thread (@op Z) (@res Z)) :=
  [Returned OPop (Ok (REle 8)); Returned (OPush 8) (Ok RUnit); Returned OTryPop (Ok (REle 7))].

Lemma sample_traced : traced idle (@make Z) 3 sample_trace (make, sample_threads).
Proof.
  pose proof (traced_start idle (@make Z) 3) as H.
  after H (step_call idle _ _ 0 _ OPop).
  after H (step_wait idle _ _ 0 OPop).
  after H (step_call idle _ _ 1 _ (OPush 7)).
  after H (step_body idle _ _ 1 (OPush 7)).
  after H (step_call idle _ _ 2 _ OTryPop).
  after H (step_body idle _ _ 2 OTryPop).
  after H (step_notify idle _ _ 2).
  after H (step_notify idle _ _ 1) by (apply (notified_one _ 0%nat OPop); reflexivity).
  after H (step_wait idle _ _ 0 OPop).
  after H (step_call idle _ _ 1 _ (OPush 8)).
  after H (step_body idle _ _ 1 (OPush 8)).
  after H (step_notify idle _ _ 1) by (apply (notified_one _ 0%nat OPop); reflexivity).
  after H (step_body idle _ _ 0 OPop).
  after H (step_notify idle _ _ 0). exact H.
Qed.

Lemma blocking_queue_fifo_witness :
  traced idle (@make Z) 3 sample_trace (make, sample_threads) /\
  pushed sample_trace = [7; 8] /\ fifo sample_trace [] /\ pushed sample_trace = popped sample_trace ++ [].
Proof.
  split; [exact sample_traced|]. split; [reflexivity|].
  pose proof (blocking_queue_fifo 3 sample_trace make sample_threads sample_traced) as (H1 & H2 & _). by split.
Defined.
End BlockingQueue.

(** ** CountDownLatch *)

Module CountDownLatch.
(** The count; for the statements, how often [Countdown] has run. *)
Record state := mk_state { count_ : Z; downs : nat }.

(** The constructor asserts that the count is not negative. *)
Definition make (count : Z) : outcome state := assert (0 <=? count);; Ok (mk_state count 0).

Inductive op := OWait | OCountdown | OCount.
Inductive res := RUnit | RCount (n : Z).

Definition Countdown (s : state) : state * outcome res * notification :=
  let n := count_ s - 1 in
  if bool_decide (in_i 32 n) then (mk_state n (S (downs s)), Ok RUnit, if n =? 0 then NotifyAll else NotifyNone)
  else (s, Undef, NotifyNone).

#[global] Instance latch_monitor : Monitor state op res := {
  guard o s := match o with OWait => count_ s <=? 0 | _ => true end;
  body o s := match o with
              | OWait => (s, Ok RUnit, NotifyNone)
              | OCountdown => Countdown s
              | OCount => (s, Ok (RCount (count_ s)), NotifyNone)
              end;
  inside o := match o with OCountdown => true | _ => false end
}.

Definition idle (t : thread op res) (o : op) : Prop :=
  match t with Resting | Returned _ _ => True | _ => False end.

Record Inv (count : Z) (c : state * list (thread op res)) : Prop := {
  inv_count : count_ (fst c) = count - Z.of_nat (downs (fst c));
  inv_sleep : nobody_sleeps (snd c) \/ 0 < count_ (fst c);
  inv_waited : forall t r, t ∈ snd c -> (exists n, t = Notifying OWait r n) \/ t = Returned OWait r -> count_ (fst c) <= 0;
  inv_quiet : forall o r n, Notifying o r n ∈ snd c -> n = NotifyNone
}.

Lemma latch_step count c e c' : Inv count c -> step idle c e c' -> Inv count c'.
Proof.
  intros [Ho Hs Hw Hq] Hst.
  destruct Hst as [s ts i t o Hi Hm|s ts i o Hi Hg|s ts i o s' r n Hi Hg Hb Hin|s ts i o s' r n ts' Hi Hg Hb Hin Hn|s ts i o r n ts' Hi Hn|s ts i o Hi];
    cbn [fst snd] in *.
  - split; cbn [fst snd]; [done| | |].
    + destruct Hs as [Hs|Hs]; [left|by right]. apply nobody_insert; [done|]. by intros (? & [=]).
    + intros u r Hu Hr. apply elem_of_insert in Hu as [-> |Hu]; [by destruct Hr as [[? [=]]|[=]]|by eapply Hw].
    + intros o' r n Hu. apply elem_of_insert in Hu as [[=]|Hu]. by eapply Hq.
  - destruct o; try done. cbn in Hg. split; cbn [fst snd]; [done| | |].
    + right. lia.
    + intros u r Hu Hr. apply elem_of_insert in Hu as [-> |Hu]; [by destruct Hr as [[? [=]]|[=]]|by eapply Hw].
    + intros o' r n Hu. apply elem_of_insert in Hu as [[=]|Hu]. by eapply Hq.
  - assert (Hsame : s' = s /\ n = NotifyNone /\ (o = OWait -> count_ s <= 0)).
    { destruct o; try done; cbn in Hb, Hg; injection Hb as <- <- <-; repeat split; try done. intros _. lia. }
    destruct Hsame as (-> & -> & Hz). split; cbn [fst snd]; [done| | |].
    + destruct Hs as [Hs|Hs]; [left|by right]. apply nobody_insert; [done|]. by intros (? & [=]).
    + intros u r' Hu Hr. apply elem_of_insert in Hu as [-> |Hu]; [|by eapply Hw]. destruct Hr as [[? [=]]|[=]]. auto.
    + intros o' r' n Hu. apply elem_of_insert in Hu as [[= _ _ <-]|Hu]; [done|by eapply Hq].
  - destruct o; try done. cbn in Hb. unfold Countdown in Hb. destruct (bool_decide _) eqn:Er.
    + injection Hb as <- <- <-.
      assert (Hsub : forall u, u ∈ ts' -> u ∈ ts \/ u = Returned OCountdown (Ok RUnit) \/ exists o', u = Entering o').
      { intros u Hu. destruct (count_ s - 1 =? 0); inversion Hn; subst.
        - apply list_elem_of_fmap in Hu as (v & -> & Hv). apply elem_of_insert in Hv as [-> |Hv]; [auto|]. destruct v; cbn; eauto.
        - apply elem_of_insert in Hu as [-> |Hu]; auto. }
      split; cbn [fst snd downs count_].
      * lia.
      * destruct (Z.eqb_spec (count_ s - 1) 0) as [E|E]; inversion Hn; subst; [left; apply nobody_wake|].
        destruct Hs as [Hs|Hs]; [left; apply nobody_insert; [done|]; by intros (? & [=])|right; lia].
      * intros u r Hu Hr. destruct (Hsub u Hu) as [Hu'|[-> |[o' ->]]]; [|by destruct Hr as [[? [=]]|[=]]..].
        pose proof (Hw u r Hu' Hr). lia.
      * intros o' r n Hu. destruct (Hsub _ Hu) as [Hu'|[[=]|[? [=]]]]. by eapply Hq.
    + injection Hb as <- <- <-. inversion Hn; subst. split; cbn [fst snd]; [done| | |].
      * destruct Hs as [Hs|Hs]; [left|by right]. apply nobody_insert; [done|]. by intros (? & [=]).
      * intros u r' Hu Hr. apply elem_of_insert in Hu as [-> |Hu]; [by destruct Hr as [[? [=]]|[=]]|by eapply Hw].
      * intros o' r' n Hu. apply elem_of_insert in Hu as [[=]|Hu]. by eapply Hq.
  - pose proof (list_elem_of_lookup_2 _ _ _ Hi) as Hin. pose proof (Hq _ _ _ Hin) as ->. inversion Hn; subst. split; cbn [fst snd]; [done| | |].
    + destruct Hs as [Hs|Hs]; [left|by right]. apply nobody_insert; [done|]. by intros (? & [=]).
    + intros u r' Hu Hr. apply elem_of_insert in Hu as [-> |Hu]; [|by eapply Hw]. destruct Hr as [[? [=]]|[= -> <-]]. eapply Hw; [exact Hin|]. left. by eexists.
    + intros o' r' n Hu. apply elem_of_insert in Hu as [[=]|Hu]. by eapply Hq.
  - split; cbn [fst snd]; [done| | |].
    + destruct Hs as [Hs|Hs]; [left|by right]. apply nobody_insert; [done|]. by intros (? & [=]).
    + intros u r Hu Hr. apply elem_of_insert in Hu as [-> |Hu]; [by destruct Hr as [[? [=]]|[=]]|by eapply Hw].
    + intros o' r n Hu. apply elem_of_insert in Hu as [[=]|Hu]. by eapply Hq.
Qed.

Lemma reachable_latch_inv count s m c : make count = Ok s -> reachable idle s m c -> Inv count c.
Proof.
  unfold make. destruct (Z.leb_spec 0 count) as [Hc|]; [|done]. cbn. intros [= <-] [tr Htr].
  induction Htr as [|tr c e c' _ IH Hs]; [|by eapply latch_step].
  split; cbn [fst snd count_ downs].
  - lia.
  - left. intros t Ht. apply elem_of_replicate in Ht as [-> _]. by intros (? & [=]).
  - intros t r Ht Hr. apply elem_of_replicate in Ht as [-> _]. by destruct Hr as [[? [=]]|[=]].
  - intros o r n Ht. by apply elem_of_replicate in Ht as [[=] _].
Qed.
(** The latch's count is its initial value less the countdowns that ran; [Wait] returns
    only when it is down to zero, and when it is no thread is left sleeping in [Wait], so
    that all the waiting threads go on however the countdowns interleave with the waits. *)
Theorem latch_opens (count : Z) (s0 s : state) (m : nat) (ts : list (thread op res)) :
  make count = Ok s0 -> reachable idle s0 m (s, ts) ->
  count_ s = count - Z.of_nat (downs s) /\
  (forall r, Returned OWait r ∈ ts -> count_ s <= 0) /\
  (count_ s <= 0 -> nobody_sleeps ts).
Proof.
  intros Hm Hr. destruct (reachable_latch_inv _ _ _ _ Hm Hr) as [Ho Hs Hw Hq]. cbn [fst snd] in *. split; [done|]. split.
  - intros r Ht. eapply Hw; [exact Ht|by right].
  - intros Hz. destruct Hs as [Hs|Hs]; [done|lia].
Qed.

Lemma latch_opens_witness :
  make 1 = Ok (mk_state 1 0) /\
  reachable idle (mk_state 1 0) 2 (mk_state 0 1, [Entering OWait; Returned OCountdown (Ok RUnit)]) /\
  nobody_sleeps [Entering OWait; Returned OCountdown (Ok RUnit)].
Proof.
  assert (H : reachable idle (mk_state 1 0) 2 (mk_state 0 1, [Entering OWait; Returned OCountdown (Ok RUnit)])).
  { pose proof (reachable_start idle (mk_state 1 0) 2) as H.
    after H (step_call idle _ _ 0 _ OWait).
    after H (step_wait idle _ _ 0 OWait).
    after H (step_call idle _ _ 1 _ OCountdown).
    after H (step_inside idle _ _ 1 OCountdown). exact H.
  }
  split; [reflexivity|]. split; [exact H|].
  apply (latch_opens 1 (mk_state 1 0) (mk_state 0 1) 2 _ eq_refl H). cbn. lia.
Defined.
End CountDownLatch.

(** ** TinyThreadPool *)

Module TinyThreadPool.

Inductive TaskShutdownBehavior := BlockShutdown | SkipOnShutdown.
#[global] Instance behavior_eq_dec : EqDecision TaskShutdownBehavior.
Proof. solve_decision. Defined.

Section Pool.
Context {F : Type}.

Definition Task : Type := F * TaskShutdownBehavior.

Record state := mk_state { task_queue_ : list Task; running_ : bool }.

Definition make : state := mk_state [] true.

Inductive op := OPost (t : Task) | ORetrieve | OShutdown.

(** [RTask None]: the empty task on which a worker ends. *)
Inductive res := RUnit | RTask (t : option Task).

(** The part of [PostTaskWithShutdownBehavior] under the mutex. *)
Definition PostTask (t : Task) (s : state) : state * outcome res * notification :=
  if running_ s then (mk_state (task_queue_ s ++ [t]) (running_ s), Ok RUnit, NotifyOne)
  else (s, Throw check_failure, NotifyNone).

(** The loop of [RetrieveTask]: the task it takes, and the rest of the queue. *)
Fixpoint retrieve_loop (running : bool) (q : list Task) : option Task * list Task :=
  match q with
  | [] => (None, [])
  | t :: q => if negb running && bool_decide (t.2 = SkipOnShutdown) then retrieve_loop running q else (Some t, q)
  end.

Definition RetrieveTask (s : state) : state * outcome res * notification :=
  let '(r, q) := retrieve_loop (running_ s) (task_queue_ s) in
  (mk_state q (running_ s), Ok (RTask r), NotifyNone).

(** The destructor, up to the joining of the threads. *)
Definition Shutdown (s : state) : state * outcome res * notification :=
  (mk_state (task_queue_ s) false, Ok RUnit, NotifyAll).

#[global] Instance pool_monitor : Monitor state op res := {
  guard o s := match o with
               | ORetrieve => negb (running_ s) || match task_queue_ s with [] => false | _ => true end
               | _ => true
               end;
  body o s := match o with
              | OPost t => PostTask t s
              | ORetrieve => RetrieveTask s
              | OShutdown => Shutdown s
              end;
  inside _ := false
}.

(** Workers and users: a thread that got the empty task is over ([RunInThread]); a worker
    may post tasks while it runs one. *)
Definition exited (t : thread op res) : Prop := t = Returned ORetrieve (Ok (RTask None)).
Definition idle (t : thread op res) (o : op) : Prop :=
  match t with Resting => True | Returned _ _ => ~ exited t | _ => False end.

Definition consumer (o : op) : bool := match o with ORetrieve => true | _ => false end.

(** A thread that has, or is about to have, the empty task. *)
Definition ending (t : thread op res) : Prop :=
  exited t \/ exists n, t = Notifying ORetrieve (Ok (RTask None)) n.

(** The tasks that calls posted, and those that calls of [RetrieveTask] returned. *)
Definition posted : list (event (O := op) (R := res)) -> list Task :=
  omap (fun e => match e with (_, OPost t, Ok _) => Some t | _ => None end).
Definition handed : list (event (O := op) (R := res)) -> list Task :=
  omap (fun e => match e.2 with Ok (RTask (Some t)) => Some t | _ => None end).

Definition blocks (t : Task) : Prop := t.2 = BlockShutdown.
#[global] Instance blocks_dec t : Decision (blocks t).
Proof. unfold blocks. apply _. Defined.

(** The tasks [gone] have left the queue: [got] was handed over in their order, and what was not was
    dropped after the shutdown and does not block it. *)
Definition accounted (running : bool) (gone got : list Task) : Prop :=
  got `sublist_of` gone /\ filter blocks got = filter blocks gone /\ (running = true -> got = gone).

Record Inv (tr : list (event (O := op) (R := res))) (c : state * list (thread op res)) : Prop := {
  inv_order : exists gone, posted tr = gone ++ task_queue_ (fst c) /\ accounted (running_ (fst c)) gone (handed tr);
  inv_served : running_ (fst c) = true -> served consumer (Z.of_nat (length (task_queue_ (fst c)))) (snd c);
  inv_stopped : running_ (fst c) = false -> stopped (snd c);
  inv_sleepers : sleepers_consume consumer (snd c);
  inv_ending : forall t, t ∈ snd c -> ending t -> running_ (fst c) = false /\ task_queue_ (fst c) = [];
  inv_all : running_ (fst c) = true -> forall t, t ∈ snd c -> ~ notifying_all t
}.

Lemma accounted_app running g1 g2 l1 l2 : accounted running g1 l1 -> accounted running g2 l2 -> accounted running (g1 ++ g2) (l1 ++ l2).
Proof.
  intros (A1 & B1 & C1) (A2 & B2 & C2). split; [by apply sublist_app|]. split; [by rewrite !filter_app, B1, B2|].
  intros Hr. by rewrite C1, C2.
Qed.

Lemma accounted_same running l : accounted running l l.
Proof. by repeat split. Qed.

Lemma accounted_stop running gone got : accounted running gone got -> accounted false gone got.
Proof. by intros (A & B & _). Qed.

Lemma retrieve_ok running q : forall r q', retrieve_loop running q = (r, q') ->
  (exists gone, q = gone ++ q' /\ accounted running gone (option_list r)) /\
  (r = None -> q' = [] /\ (running = true -> q = [])) /\ (length q' <= pred (length q))%nat.
Proof.
  induction q as [|t q IH]; cbn; intros r q' H.
  - injection H as <- <-. split; [exists []; split; [done|apply accounted_same]|done].
  - destruct (negb running && bool_decide (t.2 = SkipOnShutdown)) eqn:E.
    + apply andb_true_iff in E as [E1 E2]. apply bool_decide_eq_true in E2. apply negb_true_iff in E1. subst running.
      destruct (IH _ _ H) as ((gone & -> & Hl) & Hn & Hle). split; [|split; [|lia]].
      * exists (t :: gone). split; [done|]. destruct Hl as (A & B & _). split; [by apply sublist_cons|]. split; [|done].
        rewrite filter_cons_False; [done|]. unfold blocks. by rewrite E2.
      * intros Hr. by destruct (Hn Hr).
    + injection H as <- <-. split; [exists [t]; split; [done|apply accounted_same]|done].
Qed.

(** A step that leaves the state alone and puts into place [i] a thread that neither
    sleeps, nor ends, nor notifies all. *)
Lemma pool_insert tr s ts i t u : Inv tr (s, ts) -> ts !! i = Some t -> ~ notifying_all t ->
  ~ asleep u -> (ending u -> running_ s = false /\ task_queue_ s = []) -> ~ notifying_all u ->
  (running_ s = true -> entering consumer t + notifying t <= entering consumer u + notifying u) -> Inv tr (s, <[i := u]> ts).
Proof.
  intros [Ho Hs Hp Hc He Ha] Hi Hnt Hau Heu Hnu Hk. cbn [fst snd] in *. split; cbn [fst snd]; try done.
  - intros Hr. eapply served_insert; [by apply Hs|done..|]. specialize (Hk Hr). lia.
  - intros Hr. by eapply stopped_insert; [apply Hp| | |].
  - apply sleepers_insert; [done|]. intros o ->. destruct Hau. by exists o.
  - intros v Hv. apply elem_of_insert in Hv as [-> |Hv]; [done|by apply He].
  - intros Hr v Hv. apply elem_of_insert in Hv as [-> |Hv]; [done|by apply Ha].
Qed.

Lemma not_all_entering (o : op) : ~ notifying_all (@Entering op res o).
Proof. by intros (? & ? & [=]). Qed.
Lemma not_ending_entering (o : op) : ~ ending (Entering o).
Proof. intros [[=]|[? [=]]]. Qed.

(** A result that hands no task over leaves the account as it is. *)
Lemma handed_none tr i o r : (forall t, r <> Ok (RTask (Some t))) -> handed (tr ++ [(i, o, r)]) = handed tr.
Proof.
  intros H. unfold handed. rewrite omap_app. cbn. destruct r as [[|[t|]]| | |]; cbn; rewrite ?app_nil_r; try done. by destruct (H t).
Qed.

Lemma posted_none tr i o r : (forall t, o <> OPost t) \/ is_ok r = false -> posted (tr ++ [(i, o, r)]) = posted tr.
Proof.
  intros H. unfold posted. rewrite omap_app. cbn. destruct o, r; cbn; rewrite ?app_nil_r; try done. by destruct H as [H|H]; [destruct (H t)|].
Qed.

(** The account after an operation. *)
Lemma account_body tr s i o s' r n : guard o s = true -> body o s = (s', r, n) ->
  (exists gone, posted tr = gone ++ task_queue_ s /\ accounted (running_ s) gone (handed tr)) ->
  exists gone, posted (tr ++ [(i, o, r)]) = gone ++ task_queue_ s' /\ accounted (running_ s') gone (handed (tr ++ [(i, o, r)])).
Proof.
  intros Hg Hb (gone & Hq & Hacc). destruct o as [t| |]; cbn in Hb.
  - unfold PostTask in Hb. destruct (running_ s) eqn:Er; injection Hb as <- <- <-; rewrite handed_none by done.
    + exists gone. split; [|done]. cbn [task_queue_]. unfold posted in *. rewrite omap_app, Hq. cbn. by rewrite app_assoc.
    + exists gone. rewrite posted_none by (by right). by rewrite Er.
  - unfold RetrieveTask in Hb. destruct (retrieve_loop _ _) as [r1 q1] eqn:El. injection Hb as <- <- <-.
    destruct (retrieve_ok _ _ _ _ El) as ((g & Eq & Hg') & _ & _). exists (gone ++ g). rewrite posted_none by (by left). cbn [task_queue_ running_].
    split; [by rewrite Hq, Eq, app_assoc|]. unfold handed in *. rewrite omap_app. apply accounted_app; [done|]. by destruct r1.
  - injection Hb as <- <- <-. rewrite handed_none, posted_none by (done || by left). exists gone. split; [done|]. by eapply accounted_stop.
Qed.

Lemma pool_body tr s ts i o s' r n : Inv tr (s, ts) -> ts !! i = Some (Entering o) ->
  guard o s = true -> body o s = (s', r, n) -> Inv (tr ++ [(i, o, r)]) (s', <[i := Notifying o r n]> ts).
Proof.
  intros HI Hi Hg Hb. pose proof HI as [Ho Hs Hp Hc He Ha]. cbn [fst snd] in *.
  pose proof (account_body tr s i o s' r n Hg Hb Ho) as Ho'.
  assert (Has : ~ asleep (Notifying o r n)) by by intros (? & [=]).
  assert (Hcon : sleepers_consume consumer (<[i := Notifying o r n]> ts)) by (apply sleepers_insert; [done|by intros ? [=]]).
  split; cbn [fst snd]; [exact Ho'| | |exact Hcon| |]; clear Ho Ho' HI; destruct o as [t| |]; cbn in Hb, Hg.
  - unfold PostTask in Hb. destruct (running_ s) eqn:Er; injection Hb as <- <- <-; cbn; [|by rewrite Er]. intros _.
    eapply served_insert; [by apply Hs|exact Hi|apply not_all_entering|done|]. cbn. rewrite length_app. cbn. lia.
  - unfold RetrieveTask in Hb. destruct (retrieve_loop _ _) as [r1 q1] eqn:El. injection Hb as <- <- <-. cbn. intros Er.
    destruct (retrieve_ok _ _ _ _ El) as (_ & _ & Hle). eapply served_insert; [by apply Hs|exact Hi|apply not_all_entering|done|]. cbn.
    rewrite Er in Hg. cbn in Hg. destruct (task_queue_ s); [done|]. cbn in *. lia.
  - by injection Hb as <- <- <-.
  - unfold PostTask in Hb. destruct (running_ s) eqn:Er; injection Hb as <- <- <-; cbn; [by rewrite ?Er|]. intros _.
    eapply stopped_insert; [by apply Hp|exact Hi|apply not_all_entering|done].
  - unfold RetrieveTask in Hb. destruct (retrieve_loop _ _) as [r1 q1]. injection Hb as <- <- <-. cbn. intros Er.
    eapply stopped_insert; [by apply Hp|exact Hi|apply not_all_entering|done].
  - injection Hb as <- <- <-. intros _. right. exists (Notifying OShutdown (Ok RUnit) NotifyAll). split; [|by eexists _, _].
    apply list_elem_of_lookup. exists i. rewrite list_lookup_insert_eq; [done|]. by eapply lookup_lt_Some.
  - intros u Hu Hen. apply elem_of_insert in Hu as [-> |Hu]; [by destruct Hen as [[=]|[? [=]]]|]. destruct (He u Hu Hen) as [Er Eq].
    unfold PostTask in Hb. rewrite Er in Hb. by injection Hb as <- <- <-.
  - unfold RetrieveTask in Hb. destruct (retrieve_loop _ _) as [r1 q1] eqn:El. injection Hb as <- <- <-. cbn.
    destruct (retrieve_ok _ _ _ _ El) as (_ & Hn & Hle). intros u Hu Hen. apply elem_of_insert in Hu as [-> |Hu].
    + destruct Hen as [[=]|[k [= -> _]]]. destruct (Hn eq_refl) as [-> Hr]. split; [|done].
      destruct (running_ s); [|done]. rewrite (Hr eq_refl) in Hg. done.
    + destruct (He u Hu Hen) as [Er Ez]. rewrite Ez in Hle. cbn in Hle. split; [done|]. destruct q1; [done|cbn in Hle; lia].
  - injection Hb as <- <- <-. intros u Hu Hen. apply elem_of_insert in Hu as [-> |Hu]; [by destruct Hen as [[=]|[? [=]]]|by destruct (He u Hu Hen)].
  - unfold PostTask in Hb. destruct (running_ s) eqn:Er; injection Hb as <- <- <-; cbn; [|by rewrite Er].
    intros _ u Hu. apply elem_of_insert in Hu as [-> |Hu]; [by intros (? & ? & [=])|by apply Ha].
  - unfold RetrieveTask in Hb. destruct (retrieve_loop _ _) as [r1 q1]. injection Hb as <- <- <-. cbn.
    intros Er u Hu. apply elem_of_insert in Hu as [-> |Hu]; [by intros (? & ? & [=])|by apply Ha].
  - by injection Hb as <- <- <-.
Qed.

Lemma pool_notify tr s ts i o r n ts' : Inv tr (s, ts) -> ts !! i = Some (Notifying o r n) ->
  notified n (<[i := Returned o r]> ts) ts' -> Inv tr (s, ts').
Proof.
  intros HI Hi Hn. pose proof HI as [Ho Hs Hp Hc He Ha]. cbn [fst snd] in *.
  pose proof (list_elem_of_lookup_2 _ _ _ Hi) as Hin.
  assert (Hsub : forall u, u ∈ ts' -> u ∈ ts \/ u = Returned o r \/ exists o', u = Entering o').
  { intros u Hu. inversion Hn as [ts1|ts1 j o' Hj|ts1 Hno|ts1]; subst.
    - apply elem_of_insert in Hu as [-> |Hu]; auto.
    - apply elem_of_insert in Hu as [-> |Hu]; [right; right; by eexists|]. apply elem_of_insert in Hu as [-> |Hu]; auto.
    - apply elem_of_insert in Hu as [-> |Hu]; auto.
    - apply list_elem_of_fmap in Hu as (v & -> & Hv). apply elem_of_insert in Hv as [-> |Hv]; [auto|]. destruct v; cbn; eauto. }
  split; cbn [fst snd]; [done| | | | |].
  - intros Er. destruct n; [|by eapply served_notify_one; [apply Hs| | |]|].
    + inversion Hn; subst. eapply served_insert; [by apply Hs|exact Hi|by intros (? & ? & [=])|by intros (? & [=])|cbn; lia].
    + exfalso. apply (Ha Er _ Hin). by eexists _, _.
  - intros Er. by eapply stopped_notified; [apply Hp| |].
  - eapply sleepers_notified; [|exact Hn]. apply sleepers_insert; [done|by intros ? [=]].
  - intros u Hu Hen. destruct (Hsub u Hu) as [Hu'|[-> |[o' ->]]]; [by eapply He| |by apply not_ending_entering in Hen].
    destruct Hen as [[= -> ->]|[? [=]]]. eapply He; [exact Hin|]. right. by eexists.
  - intros Er u Hu. destruct (Hsub u Hu) as [Hu'|[-> |[o' ->]]]; [by apply Ha|by intros (? & ? & [=])|apply not_all_entering].
Qed.

Lemma pool_step tr c e c' : Inv tr c -> step idle c e c' -> Inv (tr ++ e) c'.
Proof.
  intros HI Hst.
  destruct Hst as [s ts i t o Hi Hm|s ts i o Hi Hg|s ts i o s' r n Hi Hg Hb Hin|s ts i o s' r n ts' Hi Hg Hb Hin Hn|s ts i o r n ts' Hi Hn|s ts i o Hi]; rewrite ?app_nil_r.
  - eapply pool_insert; [done|exact Hi|destruct t; try done; by intros (? & ? & [=])|by intros (? & [=])|by intros ?%not_ending_entering|apply not_all_entering|].
    intros _. destruct t; try done; cbn; destruct (consumer o); lia.
  - destruct o; try done. cbn in Hg. apply orb_false_iff in Hg as [Hr Hq]. apply negb_false_iff in Hr. pose proof HI as [Ho Hs Hp Hc He Ha]. cbn [fst snd] in *.
    split; cbn [fst snd]; [done| |by rewrite Hr| | |].
    + intros _. apply served_nothing. destruct (task_queue_ s); [done|done].
    + apply sleepers_insert; [done|by intros ? [= <-]].
    + intros u Hu Hen. apply elem_of_insert in Hu as [-> |Hu]; [by destruct Hen as [[=]|[? [=]]]|by apply He in Hen].
    + intros _ u Hu. apply elem_of_insert in Hu as [-> |Hu]; [by intros (? & ? & [=])|by apply Ha].
  - by eapply pool_body.
  - done.
  - by eapply pool_notify.
  - eapply pool_insert; [done|exact Hi|by intros (? & ? & [=])|by intros (? & [=])|by intros ?%not_ending_entering|apply not_all_entering|].
    intros _. cbn. destruct (consumer o); lia.
Qed.

Lemma traced_pool_inv m tr c : traced idle make m tr c -> Inv tr c.
Proof.
  induction 1 as [|tr c e c' _ IH Hs]; [|by eapply pool_step].
  split; cbn [fst snd]; [by exists []; split; [|apply accounted_same]| |done|intros o Ho; by apply elem_of_replicate in Ho as [[=] _]| |].
  - intros _. left. intros t Ht. apply elem_of_replicate in Ht as [-> _]. by intros (? & [=]).
  - intros t Ht Hen. apply elem_of_replicate in Ht as [-> _]. by destruct Hen as [[=]|[? [=]]].
  - intros _ t Ht. apply elem_of_replicate in Ht as [-> _]. by intros (? & ? & [=]).
Qed.
End Pool.
(** C27: What the calls of [RetrieveTask] return are the tasks that were posted, each once and in
    the order of the posts: all that have left the queue while the pool runs, and after the
    shutdown began all but some of those posted with [SkipOnShutdown]; what a worker has is what
    its call returned.  A worker ends only after the shutdown and with the queue empty, so that
    every [BlockShutdown] task posted has been handed to a worker by then. *)
Theorem pool_runs_tasks {F} (m : nat) (tr : list event) (s : @state F) (ts : list (thread op res)) :
  traced idle make m tr (s, ts) ->
  (exists gone, posted tr = gone ++ task_queue_ s /\ accounted (running_ s) gone (handed tr)) /\
  (forall i t, ts !! i = Some (Returned ORetrieve (Ok (RTask (Some t)))) -> t ∈ handed tr) /\
  (forall w, w ∈ ts -> exited w -> running_ s = false /\ filter blocks (handed tr) = filter blocks (posted tr)).
Proof.
  intros Htr. destruct (traced_pool_inv _ _ _ Htr) as [Ho Hs Hp Hc He Ha]. cbn [fst snd] in *. split; [done|]. split.
  - intros i t Hi. pose proof (traced_given _ _ _ _ _ Htr i _ Hi) as Hev. apply list_elem_of_omap.
    eexists. split; [exact Hev|done].
  - intros w Hw Hx. destruct (He w Hw ltac:(by left)) as [Hr Hq]. split; [done|]. destruct Ho as (gone & -> & _ & Hf & _).
    by rewrite Hq, app_nil_r.
Qed.

(** No wakeup of the pool is lost: when no thread can go on, workers sleep only while
    the pool runs and no task is queued; after the shutdown none sleeps, so that the
    destructor's joins come to an end once the tasks do. *)
Theorem pool_never_stuck {F} (m : nat) (s : @state F) (ts : list (thread op res)) (o : op) :
  reachable idle make m (s, ts) -> quiescent ts -> Sleeping o ∈ ts ->
  o = ORetrieve /\ running_ s = true /\ task_queue_ s = [].
Proof.
  intros [tr [Ho Hs Hp Hc He Ha]%traced_pool_inv] Hq Ht. cbn [fst snd] in *.
  destruct (running_ s) eqn:Er.
  - pose proof (served_quiescent consumer _ _ _ (Hs eq_refl) Hq Ht ltac:(by exists o)) as Hk.
    pose proof (Hc o Ht). split; [by destruct o|]. split; [done|]. destruct (task_queue_ s); [done|cbn in Hk; lia].
  - exfalso. destruct (Hp eq_refl) as [Hn|(t & Hin & (o' & r & ->))]; [by apply (Hn _ Ht); exists o|].
    by apply (Hq _ Hin).
Qed.

(** A pool of one worker: a task is posted, the pool shut down, and the task run before
    the worker ends. *)
Definition done_state : @state Z := mk_state [] false.

Definition done_threads : list (thread (@op Z) (@res Z)) := [Returned ORetrieve (Ok (RTask None)); Returned OShutdown (Ok RUnit)].

Definition done_trace : list (event (O := @op Z) (R := @res Z)) :=
  [(1%nat, OPost (7, BlockShutdown), Ok RUnit); (1%nat, OShutdown, Ok RUnit);
   (0%nat, ORetrieve, Ok (RTask (Some (7, BlockShutdown)))); (0%nat, ORetrieve, Ok (RTask None))].

Lemma done_traced : traced idle (@make Z) 2 done_trace (done_state, done_threads).
Proof.
  pose (t := (7, BlockShutdown) : @Task Z).
  pose proof (traced_start idle (@make Z) 2) as H.
  after H (step_call idle _ _ 1 _ (OPost t)).
  after H (step_body idle _ _ 1 (OPost t)).
  assert (Hno : nobody_sleeps [Resting; Returned (OPost t) (Ok (@RUnit Z))]).
  { intros u Hu [o ->]. rewrite !elem_of_cons, elem_of_nil in Hu. by destruct Hu as [[=]|[[=]|[]]]. }
  after H (step_notify idle _ _ 1) by exact (notified_nobody _ Hno).
  after H (step_call idle _ _ 1 _ OShutdown).
  after H (step_body idle _ _ 1 OShutdown).
  after H (step_notify idle _ _ 1).
  after H (step_call idle _ _ 0 _ ORetrieve).
  after H (step_body idle _ _ 0 ORetrieve).
  after H (step_notify idle _ _ 0).
  after H (step_call idle _ _ 0 _ ORetrieve).
  after H (step_body idle _ _ 0 ORetrieve).
  after H (step_notify idle _ _ 0). exact H.
Qed.

Lemma pool_runs_tasks_witness :
  traced idle (@make Z) 2 done_trace (done_state, done_threads) /\
  posted done_trace = [(7, BlockShutdown)] /\ filter blocks (handed done_trace) = filter blocks (posted done_trace).
Proof.
  split; [exact done_traced|]. split; [reflexivity|].
  pose proof (pool_runs_tasks 2 done_trace done_state done_threads done_traced) as (_ & _ & H).
  exact (proj2 (H _ (list_elem_of_here _ _) eq_refl)).
Defined.

(** Two workers wait for tasks. *)
Definition waiting_workers : list (thread (@op Z) (@res Z)) := [Sleeping ORetrieve; Sleeping ORetrieve].

Lemma waiting_reachable : reachable idle (@make Z) 2 (make, waiting_workers).
Proof.
  pose proof (reachable_start idle (@make Z) 2) as H.
  after H (step_call idle _ _ 0 _ ORetrieve).
  after H (step_call idle _ _ 1 _ ORetrieve).
  after H (step_wait idle _ _ 0 ORetrieve).
  after H (step_wait idle _ _ 1 ORetrieve). exact H.
Qed.

Lemma pool_never_stuck_witness :
  reachable idle (@make Z) 2 (make, waiting_workers) /\ task_queue_ (@make Z) = [].
Proof.
  split; [exact waiting_reachable|].
  apply (pool_never_stuck 2 make waiting_workers ORetrieve waiting_reachable); [|apply list_elem_of_here].
  intros u Hu. unfold waiting_workers in Hu. rewrite !elem_of_cons, elem_of_nil in Hu. by destruct Hu as [-> |[-> |[]]].
Defined.
End TinyThreadPool.
