(* ===== verification/SharedCells.v ===== *)
(** * Programs over reference-counted cells

    The code of the thread-safe strings (ThreadRc) works on cells: data that several
    threads share, with an atomic count of its owners.  A [prog] is a sequence of accesses to
    cells: atomic ones to the count and plain ones to the data.  Here are the programs, their
    steps, and a logic for them: what a thread knows about a cell is a [perm], and [wp] says
    that a program only makes accesses that its permissions allow.

    A thread that shares a cell may read the data; one that has it [Excl] may also write
    it and free it.  A thread that shares a cell finds out that it has it exclusively by
    reading a count of 1 (or the mark), or by giving the last share back. *)

From S2P Require Import Prelude Threads.
From stdpp Require Import gmap fin_maps.

#[local] Open Scope Z_scope.

Section Cells.
Context {D : Type}.

Inductive prog (A : Type) :=
| Ret (a : A)
| Fault
| Load (l : nat) (k : Z -> prog A)
| Store (l : nat) (r : Z) (k : prog A)
| FetchAdd (l : nat) (k : Z -> prog A)
| FetchSub (l : nat) (k : Z -> prog A)
| Read (l : nat) (k : D -> prog A)
| Write (l : nat) (d : D) (k : prog A)
| New (d : D) (r : Z) (k : nat -> prog A)
| Delete (l : nat) (k : prog A).
#[global] Arguments Ret {A} a.
#[global] Arguments Fault {A}.
#[global] Arguments Load {A} l k.
#[global] Arguments Store {A} l r k.
#[global] Arguments FetchAdd {A} l k.
#[global] Arguments FetchSub {A} l k.
#[global] Arguments Read {A} l k.
#[global] Arguments Write {A} l d k.
#[global] Arguments New {A} d r k.
#[global] Arguments Delete {A} l k.

#[global] Instance prog_ret : MRet prog := @Ret.
#[global] Instance prog_bind : MBind prog := fun A B f =>
  fix go (p : prog A) : prog B :=
    match p with
    | Ret a => f a
    | Fault => Fault
    | Load l k => Load l (fun r => go (k r))
    | Store l r k => Store l r (go k)
    | FetchAdd l k => FetchAdd l (fun r => go (k r))
    | FetchSub l k => FetchSub l (fun r => go (k r))
    | Read l k => Read l (fun d => go (k d))
    | Write l d k => Write l d (go k)
    | New d r k => New d r (fun l => go (k l))
    | Delete l k => Delete l (go k)
    end.

Definition load (l : nat) : prog Z := Load l Ret.
Definition store (l : nat) (r : Z) : prog unit := Store l r (Ret tt).
Definition fetch_add (l : nat) : prog Z := FetchAdd l Ret.
Definition fetch_sub (l : nat) : prog Z := FetchSub l Ret.
Definition read (l : nat) : prog D := Read l Ret.
Definition write (l : nat) (d : D) : prog unit := Write l d (Ret tt).
Definition new (d : D) (r : Z) : prog nat := New d r Ret.
Definition free (l : nat) : prog unit := Delete l (Ret tt).
Definition lift {A} (m : outcome A) : prog A := match m with Ok a => Ret a | _ => Fault end.

(** ** Steps *)

(** The cells, and the address of the next one. *)
Record heap := mk_heap { cells : gmap nat (D * Z); next : nat }.

Definition set_cell (l : nat) (c : option (D * Z)) (h : heap) : heap :=
  mk_heap (partial_alter (fun _ => c) l (cells h)) (next h).

(** An access to a cell that does not exist is undefined; the count has 32 bits. *)
Definition advance {A} (h : heap) (p : prog A) : option (outcome (heap * prog A)) :=
  match p with
  | Ret _ => None
  | Fault => Some Undef
  | Load l k => Some ('(d, r) ← the (cells h !! l); Ok (h, k r))
  | Store l r k => Some ('(d, _) ← the (cells h !! l); Ok (set_cell l (Some (d, r)) h, k))
  | FetchAdd l k => Some ('(d, r) ← the (cells h !! l); Ok (set_cell l (Some (d, wrap 32 (r + 1))) h, k r))
  | FetchSub l k => Some ('(d, r) ← the (cells h !! l); Ok (set_cell l (Some (d, wrap 32 (r - 1))) h, k r))
  | Read l k => Some ('(d, r) ← the (cells h !! l); Ok (h, k d))
  | Write l d k => Some ('(_, r) ← the (cells h !! l); Ok (set_cell l (Some (d, r)) h, k))
  | New d r k => Some (Ok (mk_heap (<[next h := (d, r)]> (cells h)) (S (next h)), k (next h)))
  | Delete l k => Some (_ ← the (cells h !! l); Ok (set_cell l None h, k))
  end.

(** The plain access that a program is about to make: the cell, and whether it writes. *)
Definition pending {A} (p : prog A) : option (nat * bool) :=
  match p with
  | Read l _ => Some (l, false)
  | Write l _ _ | Delete l _ => Some (l, true)
  | _ => None
  end.

(** Any access, the atomic ones included. *)
Definition touches {A} (p : prog A) : option nat :=
  match p with
  | Load l _ | Store l _ _ | FetchAdd l _ | FetchSub l _ | Read l _ | Write l _ _ | Delete l _ => Some l
  | Ret _ | Fault | New _ _ _ => None
  end.

(** A data race: one is about to write a cell that the other is about to access, where
    atomic accesses conflict only with the end of the cell. *)
Definition races {A B} (p : prog A) (q : prog B) : Prop :=
  exists l, (pending p = Some (l, true) /\ exists w, pending q = Some (l, w)) \/
            (touches q = Some l /\ match p with Delete l' _ => l' = l | _ => False end).

(** ** Permissions *)

(** [Shared n u d]: the thread has [n] of the shares of a cell with data [d]; [u] when it
    knows that the cell is not marked. *)
Inductive perm := Excl (d : D) (r : Z) | Shared (n : nat) (u : bool) (d : D).
Notation perms := (gmap nat perm).

(** The count of a cell that must not be shared, and how many shares a thread can have. *)
Context (mark : Z) (max : nat).

Fixpoint wp {A} (p : prog A) (Π : perms) (Q : A -> perms -> Prop) : Prop :=
  match p with
  | Ret a => Q a Π
  | Fault => False
  | Load l k =>
      match Π !! l with
      | Some (Excl d r) => wp (k r) Π Q
      | Some (Shared n u d) =>
          (forall r, 2 <= r < mark -> wp (k r) (<[l := Shared n true d]> Π) Q) /\
          (n = 1%nat -> forall r, r = 1 \/ (u = false /\ r = mark) -> wp (k r) (<[l := Excl d r]> Π) Q)
      | None => False
      end
  | Store l r k =>
      match Π !! l with Some (Excl d _) => wp k (<[l := Excl d r]> Π) Q | _ => False end
  | FetchAdd l k =>
      match Π !! l with
      | Some (Excl d r) => wp (k r) (<[l := Excl d (wrap 32 (r + 1))]> Π) Q
      | Some (Shared n true d) =>
          (S n <= max)%nat /\ forall r, 1 <= r < mark -> wp (k r) (<[l := Shared (S n) true d]> Π) Q
      | _ => False
      end
  | FetchSub l k =>
      match Π !! l with
      | Some (Excl d r) => wp (k r) (<[l := Excl d (wrap 32 (r - 1))]> Π) Q
      | Some (Shared (S n) true d) =>
          (forall r, 2 <= r < mark ->
             wp (k r) (partial_alter (fun _ => match n with O => None | _ => Some (Shared n true d) end) l Π) Q) /\
          (n = O -> wp (k 1) (<[l := Excl d 0]> Π) Q)
      | _ => False
      end
  | Read l k =>
      match Π !! l with Some (Excl d _) | Some (Shared _ _ d) => wp (k d) Π Q | None => False end
  | Write l d k =>
      match Π !! l with Some (Excl _ r) => wp k (<[l := Excl d r]> Π) Q | _ => False end
  | New d r k => forall l, Π !! l = None -> wp (k l) (<[l := Excl d r]> Π) Q
  | Delete l k =>
      match Π !! l with Some (Excl _ _) => wp k (delete l Π) Q | _ => False end
  end.

Lemma wp_mono {A} (p : prog A) : forall Π (Q R : A -> perms -> Prop),
  (forall a Π, Q a Π -> R a Π) -> wp p Π Q -> wp p Π R.
Proof.
  induction p as [a| |l k IH|l r k IH|l k IH|l k IH|l k IH|l d k IH|d r k IH|l k IH]; intros Π Q R HQ H; cbn in *; [auto|done|..];
    try (destruct (Π !! l) as [[d' r'|[|n] [] d']|]; try done; intuition eauto). eauto.
Qed.

Lemma wp_bind {A B} (p : prog A) (f : A -> prog B) : forall Π Q,
  wp p Π (fun a Π => wp (f a) Π Q) -> wp (p ≫= f) Π Q.
Proof.
  induction p as [a| |l k IH|l r k IH|l k IH|l k IH|l k IH|l d k IH|d r k IH|l k IH]; intros Π Q H; cbn in *; [done|done|..];
    try (destruct (Π !! l) as [[d' r'|[|n] [] d']|]; try done; try (apply IH, H); try (destruct H as [H1 H2]; split; [done || (intros; by apply IH, H1)|intros; by apply IH, H2])).
  intros l Hl. by apply IH, H.
Qed.

(** ** The invariant *)

(** How many shares. *)
Definition shares (p : option perm) : Z := match p with Some (Shared n _ _) => Z.of_nat n | _ => 0 end.

(** A cell and what the threads know about it: one has it exclusively, or the count is the
    number of their shares, or it is marked and there is one share. *)
Definition cell_ok (c : option (D * Z)) (ps : list (option perm)) : Prop :=
  match c with
  | None => forall i p, ps !! i = Some p -> p = None
  | Some (d, r) =>
      (exists i, ps !! i = Some (Some (Excl d r)) /\ forall j p, ps !! j = Some p -> j <> i -> p = None) \/
      ((forall i p, ps !! i = Some (Some p) ->
          exists n u, p = Shared n u d /\ (1 <= n <= max)%nat /\ (u = true -> r <> mark)) /\
       0 < sum_of shares ps /\ (r = sum_of shares ps \/ r = mark /\ sum_of shares ps = 1))
  end.

Definition at_cell (Πs : list perms) (l : nat) : list (option perm) := map (fun Π => Π !! l) Πs.

Record Inv (h : heap) (Πs : list perms) : Prop := {
  inv_cells l : cell_ok (cells h !! l) (at_cell Πs l);
  inv_next l : (next h <= l)%nat -> cells h !! l = None
}.

(** *** Sums of shares *)

Lemma shares_nonneg (p : option perm) : 0 <= shares p.
Proof. destruct p as [[]|]; cbn; lia. Qed.

Lemma shares_alone ps i p : ps !! i = Some p -> sum_of shares ps <= shares p ->
  forall j q, ps !! j = Some q -> j <> i -> shares q = 0.
Proof.
  intros Hi Hs j q Hj Hne. pose proof (sum_of_two shares ps i j p q shares_nonneg Hi Hj ltac:(done)).
  pose proof (shares_nonneg q). lia.
Qed.

Lemma cell_excl c ps i d r : cell_ok c ps -> ps !! i = Some (Some (Excl d r)) ->
  c = Some (d, r) /\ forall j p, ps !! j = Some p -> j <> i -> p = None.
Proof.
  intros Hc Hi. destruct c as [[d' r']|]; cbn in Hc; [|by specialize (Hc _ _ Hi)].
  destruct Hc as [(j & Hj & Hall)|(Hall & _)]; [|by destruct (Hall _ _ Hi) as (? & ? & [=] & _)].
  destruct (decide (j = i)) as [->|Hne]; [|by specialize (Hall _ _ Hi ltac:(done))].
  rewrite Hi in Hj. by injection Hj as -> ->.
Qed.

Lemma cell_shared c ps i n u d : cell_ok c ps -> ps !! i = Some (Some (Shared n u d)) ->
  exists r, c = Some (d, r) /\
    (forall i p, ps !! i = Some (Some p) ->
      exists n u, p = Shared n u d /\ (1 <= n <= max)%nat /\ (u = true -> r <> mark)) /\
    0 < sum_of shares ps /\ (r = sum_of shares ps \/ r = mark /\ sum_of shares ps = 1).
Proof.
  intros Hc Hi. destruct c as [[d' r']|]; cbn in Hc; [|by specialize (Hc _ _ Hi)].
  destruct Hc as [(j & Hj & Hall)|(Hall & H)].
  - destruct (decide (j = i)) as [->|Hne]; [by rewrite Hi in Hj|]. by specialize (Hall _ _ Hi ltac:(done)).
  - destruct (Hall _ _ Hi) as (? & ? & [= -> -> ->] & _). by exists r'.
Qed.

Lemma list_insert_same {A} (l : list A) i x y : <[i := x]> l !! i = Some y -> y = x.
Proof. rewrite list_lookup_insert_Some. by intros [(_ & -> & _)|[? _]]. Qed.

(** *** Changes of one cell *)

(** The thread has the cell exclusively afterwards: nobody else may know it. *)
Lemma cell_set_excl ps i p d r : ps !! i = Some p -> (forall j q, ps !! j = Some q -> j <> i -> q = None) ->
  cell_ok (Some (d, r)) (<[i := Some (Excl d r)]> ps).
Proof.
  intros Hi Hno. left. exists i. split; [rewrite list_lookup_insert_eq; [done|by eapply lookup_lt_Some]|].
  intros j q Hj Hne. rewrite list_lookup_insert_ne in Hj by done. by eapply Hno.
Qed.

Lemma cell_set_none ps i : (forall j q, ps !! j = Some q -> j <> i -> q = None) -> cell_ok None (<[i := None]> ps).
Proof.
  intros Hno j q Hj. destruct (decide (j = i)) as [->|Hne]; [by apply list_insert_same in Hj|].
  rewrite list_lookup_insert_ne in Hj by done. by eapply Hno.
Qed.

(** The share that another thread does not have. *)
Lemma cell_last_share c ps i u d : cell_ok c ps -> ps !! i = Some (Some (Shared 1 u d)) -> sum_of shares ps = 1 ->
  forall j q, ps !! j = Some q -> j <> i -> q = None.
Proof.
  intros Hc Hi H1 j q Hj Hne. destruct (cell_shared _ _ _ _ _ _ Hc Hi) as (r & -> & Hall & _).
  pose proof (shares_alone ps i _ Hi ltac:(cbn; lia) j q Hj Hne) as Hz. destruct q as [q|]; [|done].
  destruct (Hall _ _ Hj) as (n & u' & -> & Hn & _). cbn in Hz. lia.
Qed.

Lemma cell_load c ps i n u d : cell_ok c ps -> ps !! i = Some (Some (Shared n u d)) ->
  Z.of_nat (length ps * max) < mark ->
  exists r, c = Some (d, r) /\
    ((2 <= r < mark /\ cell_ok c (<[i := Some (Shared n true d)]> ps)) \/
     (n = 1%nat /\ (r = 1 \/ (u = false /\ r = mark)) /\ cell_ok c (<[i := Some (Excl d r)]> ps))).
Proof.
  intros Hc Hi Hb. destruct (cell_shared _ _ _ _ _ _ Hc Hi) as (r & -> & Hall & Hpos & Hr). exists r. split; [done|].
  destruct (Hall _ _ Hi) as (n0 & u0 & [= <- <-] & Hn & Hu).
  pose proof (sum_of_elem shares ps i _ shares_nonneg Hi) as Hge. cbn in Hge.
  assert (Hle : sum_of shares ps <= Z.of_nat (length ps * max)).
  { etrans; [apply (sum_of_const _ _ (Z.of_nat max))|nia]. intros q Hq. apply list_elem_of_lookup in Hq as [j Hj].
    destruct q as [q|]; [|cbn; lia]. destruct (Hall _ _ Hj) as (k & w & -> & Hk & _). cbn. lia. }
  assert (Hcase : (2 <= r < mark /\ r = sum_of shares ps) \/ sum_of shares ps = 1 /\ (r = 1 \/ r = mark)) by lia.
  destruct Hcase as [[H2 Hs]|[H1 Hr']].
  - left. split; [done|]. right. rewrite (sum_of_insert _ _ _ _ _ Hi). cbn [shares].
    split; [|lia]. intros j q Hj. apply list_lookup_insert_Some in Hj as [(<- & [= <-] & _)|[_ Hj]]; [|by apply (Hall j)].
    exists n, true. split; [done|]. split; [done|lia].
  - assert (n = 1%nat) as -> by lia. right. split; [done|]. split.
    + destruct Hr' as [-> | ->]; [by left|]. right. split; [|done]. destruct u; [by specialize (Hu eq_refl)|done].
    + eapply cell_set_excl; [exact Hi|]. eapply cell_last_share; [exact Hc|exact Hi|done].
Qed.

Lemma cell_add c ps i n d : cell_ok c ps -> ps !! i = Some (Some (Shared n true d)) -> (S n <= max)%nat ->
  Z.of_nat (length ps * max) < mark -> mark < 2 ^ 32 ->
  exists r, c = Some (d, r) /\ 1 <= r < mark /\
    cell_ok (Some (d, wrap 32 (r + 1))) (<[i := Some (Shared (S n) true d)]> ps).
Proof.
  intros Hc Hi Hmax Hb Hm. destruct (cell_shared _ _ _ _ _ _ Hc Hi) as (r & -> & Hall & Hpos & Hr). exists r. split; [done|].
  destruct (Hall _ _ Hi) as (n0 & u0 & [= <- <-] & Hn & Hu). specialize (Hu eq_refl).
  assert (Hle : sum_of shares (<[i := Some (Shared (S n) true d)]> ps) <= Z.of_nat (length ps * max)).
  { rewrite <- (length_insert ps i (Some (Shared (S n) true d))). etrans; [apply (sum_of_const _ _ (Z.of_nat max))|nia].
    intros q Hq. apply list_elem_of_lookup in Hq as [j Hj].
    apply list_lookup_insert_Some in Hj as [(_ & <- & _)|[_ Hj]]; [cbn; lia|].
    destruct q as [q|]; [|cbn; lia]. destruct (Hall _ _ Hj) as (k & w & -> & Hk & _). cbn. lia. }
  rewrite (sum_of_insert _ _ _ _ _ Hi) in Hle. cbn [shares] in Hle.
  assert (Hrs : r = sum_of shares ps) by by destruct Hr as [|[? _]]. split; [lia|].
  rewrite wrap_small by (unfold in_u; lia). right. rewrite (sum_of_insert _ _ _ _ _ Hi). cbn [shares]. split; [|lia].
  intros j q Hj. apply list_lookup_insert_Some in Hj as [(<- & [= <-] & _)|[_ Hj]].
  - exists (S n), true. split; [done|]. split; [lia|]. intros _. lia.
  - destruct (Hall _ _ Hj) as (k & w & -> & Hk & Hw). exists k, w. split; [done|]. split; [done|]. intros _. lia.
Qed.

Lemma cell_sub c ps i n d : cell_ok c ps -> ps !! i = Some (Some (Shared (S n) true d)) ->
  Z.of_nat (length ps * max) < mark -> mark < 2 ^ 32 ->
  exists r, c = Some (d, r) /\
    ((2 <= r < mark /\ cell_ok (Some (d, wrap 32 (r - 1)))
        (<[i := match n with O => None | _ => Some (Shared n true d) end]> ps)) \/
     (n = O /\ r = 1 /\ cell_ok (Some (d, 0)) (<[i := Some (Excl d 0)]> ps))).
Proof.
  intros Hc Hi Hb Hm. destruct (cell_load _ _ _ _ _ _ Hc Hi Hb) as (r & -> & Hcase). exists r. split; [done|].
  destruct (cell_shared _ _ _ _ _ _ Hc Hi) as (r' & [= <-] & Hall & Hpos & Hr).
  destruct Hcase as [[Hr2 _]|(Hn & Hr1 & Hok)].
  - left. split; [done|]. rewrite wrap_small by (unfold in_u; lia). right.
    assert (Hrs : r = sum_of shares ps) by lia. rewrite (sum_of_insert _ _ _ _ _ Hi).
    assert (Hsh : shares (match n with O => None | _ => Some (Shared n true d) end) = Z.of_nat n) by by destruct n.
    rewrite Hsh. cbn [shares]. split; [|lia].
    destruct (Hall _ _ Hi) as (n0 & u0 & [= <- <-] & Hn & _).
    intros j q Hj. apply list_lookup_insert_Some in Hj as [(<- & E & _)|[_ Hj]].
    + destruct n as [|n]; [done|]. injection E as <-. exists (S n), true. split; [done|]. split; [lia|]. intros _. lia.
    + destruct (Hall _ _ Hj) as (k & w & -> & Hk & Hw). exists k, w. split; [done|]. split; [done|]. intros _. lia.
  - right. assert (n = O) as -> by lia. destruct Hr1 as [-> |[[=] _]]. split; [done|]. split; [done|].
    eapply cell_set_excl; [exact Hi|]. eapply cell_last_share; [exact Hc|exact Hi|].
    destruct Hr as [|[-> ?]]; lia.
Qed.

(** *** Steps keep the invariant *)

Lemma at_cell_insert Πs i Π l : at_cell (<[i := Π]> Πs) l = <[i := Π !! l]> (at_cell Πs l).
Proof. unfold at_cell. by rewrite list_fmap_insert. Qed.

Lemma at_cell_lookup Πs i Π l : Πs !! i = Some Π -> at_cell Πs l !! i = Some (Π !! l).
Proof. intros H. unfold at_cell. by rewrite list_lookup_fmap, H. Qed.

Lemma at_cell_id Πs i Π l : Πs !! i = Some Π -> <[i := Π !! l]> (at_cell Πs l) = at_cell Πs l.
Proof. intros H. apply list_insert_id. by apply at_cell_lookup. Qed.

(** A change of one cell and of what the thread knows about it. *)
Lemma inv_cell_set h Πs i Π l c p : Inv h Πs -> Πs !! i = Some Π ->
  cell_ok c (<[i := p]> (at_cell Πs l)) -> (is_Some c -> is_Some (cells h !! l)) ->
  Inv (set_cell l c h) (<[i := partial_alter (fun _ => p) l Π]> Πs).
Proof.
  intros [Hc Hn] Hi Hok Hdom. split; cbn [cells next set_cell].
  - intros k. rewrite at_cell_insert. destruct (decide (k = l)) as [->|Hne].
    + by rewrite !lookup_partial_alter_eq.
    + rewrite !lookup_partial_alter_ne by done. rewrite at_cell_id by done. apply Hc.
  - intros k Hk. destruct (decide (k = l)) as [->|Hne]; [|rewrite lookup_partial_alter_ne by done; by apply Hn].
    rewrite lookup_partial_alter_eq. destruct c; [|done]. destruct Hdom as [? Hs]; [done|]. by rewrite Hn in Hs.
Qed.

Lemma set_cell_same l h : set_cell l (cells h !! l) h = h.
Proof. destruct h. unfold set_cell. cbn. f_equal. apply map_eq. intros k. destruct (decide (k = l)) as [->|];
  [by rewrite lookup_partial_alter_eq|by rewrite lookup_partial_alter_ne]. Qed.

(** Only what the thread knows changes. *)
Lemma inv_know h Πs i Π l p : Inv h Πs -> Πs !! i = Some Π ->
  cell_ok (cells h !! l) (<[i := Some p]> (at_cell Πs l)) -> Inv h (<[i := <[l := p]> Π]> Πs).
Proof. intros HI Hi Hok. rewrite <- (set_cell_same l h). by apply inv_cell_set. Qed.

Lemma inv_new h Πs i Π d r : Inv h Πs -> Πs !! i = Some Π ->
  Π !! next h = None /\
  Inv (mk_heap (<[next h := (d, r)]> (cells h)) (S (next h))) (<[i := <[next h := Excl d r]> Π]> Πs).
Proof.
  intros [Hc Hn] Hi. assert (Hno : forall j q, at_cell Πs (next h) !! j = Some q -> q = None).
  { specialize (Hc (next h)). by rewrite Hn in Hc. }
  split; [by eapply Hno, at_cell_lookup|]. split; cbn [cells next].
  - intros l. rewrite at_cell_insert. destruct (decide (l = next h)) as [->|Hne].
    + rewrite !lookup_insert_eq. eapply cell_set_excl; [by apply at_cell_lookup|]. intros j q Hj _. by eapply Hno.
    + rewrite !lookup_insert_ne by done. rewrite at_cell_id by done. apply Hc.
  - intros l Hl. rewrite lookup_insert_ne by lia. apply Hn. lia.
Qed.

(** *** Soundness *)

Lemma cell_of h Πs i Π l p : Inv h Πs -> Πs !! i = Some Π -> Π !! l = Some p ->
  exists d r, cells h !! l = Some (d, r) /\ match p with Excl d' r' => d' = d /\ r' = r | Shared _ _ d' => d' = d end.
Proof.
  intros [Hc Hn] Hi Hl. pose proof (at_cell_lookup Πs i Π l Hi) as Ha. rewrite Hl in Ha. destruct p as [d r|n u d].
  - destruct (cell_excl _ _ _ _ _ (Hc l) Ha) as [E _]. by exists d, r.
  - destruct (cell_shared _ _ _ _ _ _ (Hc l) Ha) as (r & E & _). by exists d, r.
Qed.

(** The thread has the cell exclusively: it may change it as it likes, or free it. *)
Lemma inv_excl h Πs i Π l d r d' r' : Inv h Πs -> Πs !! i = Some Π -> Π !! l = Some (Excl d r) ->
  Inv (set_cell l (Some (d', r')) h) (<[i := <[l := Excl d' r']> Π]> Πs).
Proof.
  intros HI Hi Hl. pose proof (at_cell_lookup Πs i Π l Hi) as Ha. rewrite Hl in Ha.
  destruct (cell_excl _ _ _ _ _ (inv_cells _ _ HI l) Ha) as [E Hno].
  apply inv_cell_set; [done|done| |by rewrite E]. by eapply cell_set_excl.
Qed.

Lemma inv_free h Πs i Π l d r : Inv h Πs -> Πs !! i = Some Π -> Π !! l = Some (Excl d r) ->
  Inv (set_cell l None h) (<[i := delete l Π]> Πs).
Proof.
  intros HI Hi Hl. pose proof (at_cell_lookup Πs i Π l Hi) as Ha. rewrite Hl in Ha.
  destruct (cell_excl _ _ _ _ _ (inv_cells _ _ HI l) Ha) as [E Hno].
  apply (inv_cell_set h Πs i Π l None None); [done|done|by apply cell_set_none|by intros [? [=]]].
Qed.

Context (mark_small : mark < 2 ^ 32).

(** A step of a program with [wp] is defined and keeps the invariant. *)
Lemma wp_step {A} (p : prog A) h Πs i Π Q r :
  Inv h Πs -> Z.of_nat (length Πs * max) < mark -> Πs !! i = Some Π -> wp p Π Q -> advance h p = Some r ->
  exists h' p' Π', r = Ok (h', p') /\ Inv h' (<[i := Π']> Πs) /\ wp p' Π' Q.
Proof using mark_small.
  intros HI Hb Hi Hw Ha. assert (Hsame : <[i := Π]> Πs = Πs) by by apply list_insert_id.
  assert (Hlen : forall l, length (at_cell Πs l) = length Πs) by (intros l; by apply length_map).
  destruct p as [a| |l k|l v k|l k|l k|l k|l d k|d v k|l k]; cbn [advance wp] in *; [done|done|..];
    try (destruct (Π !! l) as [p|] eqn:Hl; [|done];
         destruct (cell_of _ _ _ _ _ _ HI Hi Hl) as (d0 & r0 & E & Hp);
         pose proof (at_cell_lookup Πs i Π l Hi) as Hat; rewrite Hl in Hat;
         rewrite E in Ha; cbn in Ha; injection Ha as <-).
  - destruct p as [d1 r1|n u d1]; [destruct Hp as [-> ->]; exists h, (k r0), Π; by rewrite Hsame|].
    destruct (cell_load _ _ _ _ _ _ (inv_cells _ _ HI l) Hat) as (r & E' & Hcase); [by rewrite Hlen|].
    subst d1. rewrite E in E'. injection E' as <-. destruct Hw as [Hw1 Hw2]. destruct Hcase as [[Hr Hok]|(-> & Hr & Hok)].
    + exists h, (k r0), (<[l := Shared n true d0]> Π). split; [done|]. split; [|by apply Hw1]. by eapply inv_know.
    + exists h, (k r0), (<[l := Excl d0 r0]> Π). split; [done|]. split; [|by apply Hw2]. by eapply inv_know.
  - destruct p as [d1 r1|]; [|done]. destruct Hp as [-> ->]. eexists _, k, _. split; [done|]. split; [|exact Hw]. by eapply inv_excl.
  - destruct p as [d1 r1|n [|] d1]; [| |done].
    + destruct Hp as [-> ->]. eexists _, _, _. split; [done|]. split; [|exact Hw]. by eapply inv_excl.
    + subst d1. destruct Hw as [Hn Hw]. destruct (cell_add _ _ _ _ _ (inv_cells _ _ HI l) Hat Hn) as (r & E' & Hr & Hok); [by rewrite Hlen|done|].
      rewrite E in E'. injection E' as <-. eexists _, _, _. split; [done|]. split; [|by apply Hw].
      apply inv_cell_set; [done|done|done|by rewrite E].
  - destruct p as [d1 r1|[|n] [|] d1]; [|done|done| |done].
    + destruct Hp as [-> ->]. eexists _, _, _. split; [done|]. split; [|exact Hw]. by eapply inv_excl.
    + subst d1. destruct Hw as [Hw1 Hw2]. destruct (cell_sub _ _ _ _ _ (inv_cells _ _ HI l) Hat) as (r & E' & Hcase); [by rewrite Hlen|done|].
      rewrite E in E'. injection E' as <-. destruct Hcase as [[Hr Hok]|(-> & -> & Hok)].
      * eexists _, _, _. split; [done|]. split; [|by apply Hw1]. apply inv_cell_set; [done|done|done|by rewrite E].
      * eexists _, _, _. split; [done|]. split; [|by apply Hw2]. change (wrap 32 (1 - 1)) with 0.
        apply inv_cell_set; [done|done|done|by rewrite E].
  - eexists h, (k d0), Π. rewrite Hsame. split; [done|]. split; [done|]. destruct p as [d1 r1|n u d1]; [by destruct Hp as [-> ->]|by subst].
  - destruct p as [d1 r1|]; [|done]. destruct Hp as [-> ->]. eexists _, k, _. split; [done|]. split; [|exact Hw]. by eapply inv_excl.
  - injection Ha as <-. destruct (inv_new h Πs i Π d v HI Hi) as [Hf HI']. eexists _, _, _. split; [done|]. split; [exact HI'|]. by apply Hw.
  - destruct p as [d1 r1|]; [|done]. eexists _, k, _. split; [done|]. split; [|exact Hw]. by eapply inv_free.
Qed.

(** Whoever accesses a cell knows it. *)
Lemma wp_touches {A} (p : prog A) Π Q l : wp p Π Q -> touches p = Some l -> is_Some (Π !! l).
Proof. destruct p; cbn; intros Hw Ht; try done; injection Ht as <-; by destruct (Π !! _). Qed.

Lemma wp_writes {A} (p : prog A) Π Q l : wp p Π Q -> pending p = Some (l, true) -> exists d r, Π !! l = Some (Excl d r).
Proof. destruct p; cbn; intros Hw Ht; try done; injection Ht as <-; destruct (Π !! _) as [[]|]; try done; eauto. Qed.

(** Threads whose programs have [wp] do not race. *)
Lemma wp_no_race {A B} h Πs i j Π1 Π2 (p : prog A) (q : prog B) Q R :
  Inv h Πs -> Πs !! i = Some Π1 -> Πs !! j = Some Π2 -> i <> j -> wp p Π1 Q -> wp q Π2 R -> ~ races p q.
Proof.
  intros HI Hi Hj Hne Hp Hq (l & H).
  assert (H2 : (exists d r, Π1 !! l = Some (Excl d r)) /\ is_Some (Π2 !! l)).
  { destruct H as [[H1 [w H2]]|[H1 H2]].
    - split; [by eapply wp_writes|]. eapply wp_touches; [exact Hq|]. by destruct q; cbn in H2; try done; injection H2 as <- <-.
    - split; [|by eapply wp_touches]. destruct p; try done. subst. by eapply (wp_writes (Delete l p)). }
  destruct H2 as [(d & r & H1) [q' H2]].
  pose proof (at_cell_lookup _ _ _ l Hi) as A1. pose proof (at_cell_lookup _ _ _ l Hj) as A2. rewrite H1 in A1. rewrite H2 in A2.
  destruct (cell_excl _ _ _ _ _ (inv_cells _ _ HI l) A1) as [_ Hno]. by specialize (Hno _ _ A2 ltac:(done)).
Qed.

(** *** Threads between two programs *)

(** A thread that is in no program only has shares. *)
Definition own_shares (r : Z) : nat := if r =? mark then 1 else Z.to_nat r.
Definition shared (p : perm) : perm := match p with Excl d r => Shared (own_shares r) false d | _ => p end.
Definition resting (Π : perms) : Prop :=
  forall l d r, Π !! l = Some (Excl d r) -> 1 <= r <= Z.of_nat max \/ r = mark.

Context (max_pos : (0 < max)%nat).

Lemma cell_share c ps i d r : cell_ok c ps -> ps !! i = Some (Some (Excl d r)) -> 1 <= r <= Z.of_nat max \/ r = mark ->
  cell_ok c (<[i := Some (Shared (own_shares r) false d)]> ps).
Proof using max_pos.
  intros Hc Hi Hr. destruct (cell_excl _ _ _ _ _ Hc Hi) as [-> Hno]. right.
  assert (Hs : sum_of shares ps = 0).
  { transitivity (sum_of (fun _ : option perm => 0) ps); [|clear; induction ps; cbn; lia].
    assert (Hz : forall q, q ∈ ps -> shares q = 0).
    { intros q Hq. apply list_elem_of_lookup in Hq as [j Hj]. destruct (decide (j = i)) as [->|Hne].
      - rewrite Hi in Hj. by injection Hj as <-.
      - by rewrite (Hno _ _ Hj Hne). }
    clear -Hz. induction ps as [|q ps IH]; cbn; [done|]. rewrite IH by (intros; apply Hz; by right). rewrite (Hz q) by by left. done. }
  assert (Hown : (1 <= own_shares r <= max)%nat /\ (r = Z.of_nat (own_shares r) \/ r = mark /\ own_shares r = 1%nat)).
  { unfold own_shares. destruct (Z.eqb_spec r mark); lia. }
  rewrite (sum_of_insert _ _ _ _ _ Hi), Hs. cbn [shares]. split; [|lia].
  intros j q Hj. apply list_lookup_insert_Some in Hj as [(<- & [= <-] & _)|[Hne Hj]].
  - exists (own_shares r), false. split; [done|]. split; [lia|done].
  - by specialize (Hno _ _ Hj ltac:(done)).
Qed.

Lemma inv_rest h Πs i Π : Inv h Πs -> Πs !! i = Some Π -> resting Π -> Inv h (<[i := shared <$> Π]> Πs).
Proof using max_pos.
  intros HI Hi Hr. split; [|apply (inv_next _ _ HI)]. intros l. rewrite at_cell_insert, lookup_fmap.
  pose proof (at_cell_lookup Πs i Π l Hi) as Hat. destruct (Π !! l) as [[d r|n u d]|] eqn:Hl; cbn.
  - eapply cell_share; [apply (inv_cells _ _ HI)|exact Hat|by eapply Hr].
  - rewrite list_insert_id by done. apply (inv_cells _ _ HI).
  - rewrite list_insert_id by done. apply (inv_cells _ _ HI).
Qed.

(** One share moves from a thread to another. *)
Definition lose (n : nat) (u : bool) (d : D) : option perm := match n with O => None | _ => Some (Shared n u d) end.
Definition gain (p : option perm) (d : D) : perm :=
  match p with Some (Shared n u d) => Shared (S n) u d | _ => Shared 1 false d end.

Lemma inv_give h Πs i j Π1 Π2 l n u d : Inv h Πs -> Πs !! i = Some Π1 -> Πs !! j = Some Π2 -> i <> j ->
  Π1 !! l = Some (Shared (S n) u d) -> (forall k u d, Π2 !! l = Some (Shared k u d) -> (S k <= max)%nat) ->
  Inv h (<[i := partial_alter (fun _ => lose n u d) l Π1]> (<[j := <[l := gain (Π2 !! l) d]> Π2]> Πs)).
Proof using max_pos.
  intros HI Hi Hj Hne Hl Hk. split; [|apply (inv_next _ _ HI)]. intros k. rewrite !at_cell_insert.
  pose proof (at_cell_lookup _ _ _ k Hi) as A1. pose proof (at_cell_lookup _ _ _ k Hj) as A2.
  destruct (decide (k = l)) as [->|Hkl].
  2:{ rewrite lookup_partial_alter_ne, lookup_insert_ne by done. rewrite (list_insert_id (at_cell Πs k) j) by done.
      rewrite list_insert_id by done. apply (inv_cells _ _ HI). }
  rewrite lookup_partial_alter_eq, lookup_insert_eq. rewrite Hl in A1.
  destruct (cell_shared _ _ _ _ _ _ (inv_cells _ _ HI l) A1) as (r & E & Hall & Hpos & Hr). rewrite E. right.
  destruct (Hall _ _ A1) as (? & ? & [= <- <-] & Hn & Hu).
  assert (Hg : exists k' u', gain (Π2 !! l) d = Shared (S k') u' d /\ (S k' <= max)%nat /\ shares (Π2 !! l) = Z.of_nat k' /\ (u' = true -> r <> mark)).
  { destruct (Π2 !! l) as [q|] eqn:Hq; [|exists O, false; cbn; split; [done|]; split; [lia|done]].
    destruct (Hall _ _ A2) as (k' & u' & -> & Hk' & Hu'). exists k', u'. split; [done|]. split; [|done]. by eapply Hk. }
  destruct Hg as (k' & u' & -> & Hk' & Hs & Hu').
  assert (Hlose : shares (lose n u d) = Z.of_nat n) by by destruct n.
  rewrite (sum_of_insert _ _ i (Some (Shared (S n) u d))) by by rewrite list_lookup_insert_ne.
  rewrite (sum_of_insert _ _ _ _ _ A2), Hlose, Hs. cbn [shares]. split; [|lia].
  intros m q Hm. apply list_lookup_insert_Some in Hm as [(<- & E' & _)|[_ Hm]].
  - destruct n as [|n]; [done|]. injection E' as <-. exists (S n), u. split; [done|]. split; [lia|done].
  - apply list_lookup_insert_Some in Hm as [(<- & [= <-] & _)|[_ Hm]]; [|by apply (Hall m)].
    exists (S k'), u'. split; [done|]. split; [lia|done].
Qed.
End Cells.
