(* ===== verification/ThreadRc.v ===== *)
(** * The thread-safe reference-counted string

    Models RCString/src/thread_safe_rc_string.cpp: [ThreadSafeStringData], a buffer with an
    atomic count of its owners, and [ThreadSafeRCString], a pointer to one.  The operations
    are programs over cells (SharedCells); the buffers and their arithmetic are those of
    RcString, whose [buffer_], [capacity_] and [size_] a cell holds, the count apart.

    Threads own their strings, which may share buffers with the strings of other threads;
    a string can be handed over to another thread. *)

From stdpp Require Import gmap fin_maps.
From S2P Require Import Prelude Threads RcString SharedCells.

#[local] Open Scope Z_scope.

(** [buffer_], [capacity_] and [size_]; the count is the cell's. *)
Record Data := mk_Data { buf : str; cap : Z; siz : Z }.

(** The data as that of an unshared string of RcString. *)
Definition as_data (d : Data) : StringData := mk_StringData (buf d) (cap d) (siz d) 1.
Definition of_data (d : StringData) : Data := mk_Data (buffer_ d) (capacity_ d) (size_ d).
Definition text (d : Data) : str := content (as_data d).

Notation prog := (@SharedCells.prog Data).

(** [assert], in a program. *)
Definition assert (cond : bool) : prog unit := if cond then Ret tt else Fault.

Definition Unique (l : nat) : prog bool :=
  ref_count ← load l; Ret ((ref_count =? 1) || (ref_count =? kUnsharedRefMark)).

Definition Unsharedable (l : nat) : prog bool :=
  ref_count ← load l; Ret (ref_count =? kUnsharedRefMark).

Definition MakeUnsharedable (l : nat) : prog unit :=
  u ← Unique l; assert u;; store l kUnsharedRefMark.

Definition ResetSharedable (l : nat) : prog unit :=
  u ← Unique l; assert u;; store l 1.

Definition AddRef (l : nat) : prog unit :=
  ref_count ← load l; assert (0 <? ref_count);; fetch_add l;; Ret tt.

Definition Release (l : nat) : prog bool :=
  ref_count ← load l; assert (0 <? ref_count);;
  u ← Unsharedable l;
  if (u : bool) then Ret true
  else old ← fetch_sub l; Ret (wrap 32 (old - 1) =? 0).

(** [delete data_], with the assertion of the destructor. *)
Definition delete_data (l : nat) : prog unit :=
  ref_count ← load l; assert ((ref_count =? 0) || (ref_count =? kUnsharedRefMark));; free l.

Definition Reserve (required_capacity : Z) (l : nat) : prog unit :=
  d ← read l;
  if required_capacity <=? cap d then Ret tt
  else
    let new_base := Z.max (wrap 64 (cap d * 3) / 2) required_capacity in
    let new_capacity := RoundToMultiple new_base kBaseSize in
    new_buf ← lift (memcpy_s (replicate (Z.to_nat new_capacity) (chr 0)) 0 new_capacity (text d));
    write l (mk_Data new_buf new_capacity (siz d)).

Definition CopyData (s : str) (pos : Z) (l : nat) : prog unit :=
  let len := Z.of_nat (length s) in
  u ← Unique l; assert u;;
  d ← read l;
  assert (pos <=? siz d);;
  assert (wrap 64 (pos + len) <=? cap d);;
  b ← lift (memcpy_s (buf d) (Z.to_nat pos) (cap d) s);
  write l (mk_Data b (cap d) (Z.max (wrap 64 (pos + len)) (siz d))).

Section Strings.
(** What [capacity_] holds before it is set. *)
Context (uninit : Z).

Definition new_data (capacity : Z) : prog nat :=
  l ← new (mk_Data [] uninit 0) 1; Reserve capacity l;; Ret l.

Definition Clone (new_capacity : Z) (l : nat) : prog nat :=
  d ← read l;
  data ← new_data (Z.max new_capacity (cap d));
  d ← read l;
  CopyData (text d) 0 data;; Ret data.

(** [data_] after the call. *)
Definition PrepareToModify (data_ : nat) (required_capacity : Z) (make_unsharedable : bool) : prog nat :=
  u ← Unique data_;
  data_ ← (if negb u then
             new_data ← Clone required_capacity data_;
             last ← Release data_;
             (if (last : bool) then delete_data data_ else Ret tt);;
             Ret new_data
           else Reserve required_capacity data_;; Ret data_);
  (if make_unsharedable then MakeUnsharedable data_ else ResetSharedable data_);;
  Ret data_.

(** The strings of a thread: where their [data_] points. *)
Notation vars := (gmap nat nat).

Definition data_ (v : nat) (σ : vars) : prog nat := lift (the (σ !! v)).

Definition ThreadSafeRCString_empty (v : nat) (σ : vars) : prog vars :=
  l ← new_data kBaseSize; Ret (<[v := l]> σ).

Definition ThreadSafeRCString_from (v : nat) (s : str) (σ : vars) : prog vars :=
  l ← new_data (Z.of_nat (length s)); CopyData s 0 l;; Ret (<[v := l]> σ).

Definition ThreadSafeRCString_copy (v other : nat) (σ : vars) : prog vars :=
  l ← data_ other σ;
  u ← Unsharedable l;
  if negb u then AddRef l;; Ret (<[v := l]> σ)
  else d ← read l; l' ← Clone (siz d) l; Ret (<[v := l']> σ).

Definition destroy (v : nat) (σ : vars) : prog vars :=
  l ← data_ v σ; last ← Release l;
  (if (last : bool) then delete_data l else Ret tt);; Ret (delete v σ).

Definition Append (v : nat) (s : str) (σ : vars) : prog vars :=
  l ← data_ v σ; d ← read l;
  let new_size_required := wrap 64 (siz d + Z.of_nat (length s)) in
  l ← PrepareToModify l new_size_required false;
  d ← read l; CopyData s (siz d) l;; Ret (<[v := l]> σ).

(** The non-const [operator[]] and the write through its result. *)
Definition set_at (v pos : nat) (ch : ascii) (σ : vars) : prog vars :=
  l ← data_ v σ; d ← read l;
  l ← PrepareToModify l (siz d) true;
  d ← read l;
  if decide (pos < length (buf d))%nat
  then write l (mk_Data (<[pos := ch]> (buf d)) (cap d) (siz d));; Ret (<[v := l]> σ)
  else Fault.

(** What [operator<<] writes. *)
Definition to_string (v : nat) (σ : vars) : prog str := l ← data_ v σ; d ← read l; Ret (text d).

(** The operations of RcString, and printing, with the strings afterwards and what is printed. *)
Inductive call := Do (o : op) | Print (v : nat).

Definition code (c : call) (σ : vars) : prog (vars * option str) :=
  match c with
  | Do o =>
      σ' ← match o with
           | Empty v => ThreadSafeRCString_empty v σ
           | From v s => ThreadSafeRCString_from v s σ
           | Copy v other => ThreadSafeRCString_copy v other σ
           | Destroy v => destroy v σ
           | Add v s => Append v s σ
           | SetAt v pos ch => set_at v pos ch σ
           end;
      Ret (σ', None)
  | Print v => s ← to_string v σ; Ret (σ, Some s)
  end.
End Strings.

(** ** Threads *)

(** [vals]: the values that the strings should have; not part of the program. *)
Record thread := mk_thread {
  vars : gmap nat nat;
  vals : gmap nat str;
  running : option (call * prog (gmap nat nat * option str))
}.

(** The effect of a call on the values; [None] when it breaks a rule of C++ (a string that
    is not declared) or leaves the bounds of the model. *)
Definition effect (c : call) (σ : gmap nat str) : option (gmap nat str) :=
  match c with Do o => meaning o σ | Print v => _ ← σ !! v; Some σ end.

Section Runs.
(** Threads have at most [max] strings each. *)
Context (max : nat).

Definition world : Type := outcome (@heap Data * list thread).

Inductive step : world -> world -> Prop :=
| step_call h ts i t c σ :
    ts !! i = Some t -> running t = None -> effect c (vals t) = Some σ -> (size σ <= max)%nat ->
    step (Ok (h, ts)) (Ok (h, <[i := mk_thread (vars t) (vals t) (Some (c, code 0 c (vars t)))]> ts))
| step_run h ts i t c p r :
    ts !! i = Some t -> running t = Some (c, p) -> advance h p = Some r ->
    step (Ok (h, ts)) ('(h, p) ← r; Ok (h, <[i := mk_thread (vars t) (vals t) (Some (c, p))]> ts))
| step_return h ts i t c vs res σ :
    ts !! i = Some t -> running t = Some (c, Ret (vs, res)) -> effect c (vals t) = Some σ ->
    step (Ok (h, ts)) (Ok (h, <[i := mk_thread vs σ None]> ts))
| step_give h ts i j t u v w l s :
    i <> j -> ts !! i = Some t -> ts !! j = Some u -> running t = None -> running u = None ->
    vars t !! v = Some l -> vals t !! v = Some s -> vars u !! w = None -> (size (vals u) < max)%nat ->
    step (Ok (h, ts)) (Ok (h, <[i := mk_thread (delete v (vars t)) (delete v (vals t)) None]>
                              (<[j := mk_thread (<[w := l]> (vars u)) (<[w := s]> (vals u)) None]> ts))).

Inductive reachable (m : nat) : world -> Prop :=
| reachable_start : reachable m (Ok (mk_heap ∅ 0, replicate m (mk_thread ∅ ∅ None)))
| reachable_step w w' : reachable m w -> step w w' -> reachable m w'.
End Runs.

(** ** Lemmas *)

Section Logic.
Context (max : nat).
Notation mark := kUnsharedRefMark.
Notation wp := (wp kUnsharedRefMark max).
Notation perms := (gmap nat (@perm Data)).

Definition good (d : Data) (s : str) : Prop := data_ok (as_data d) s.

Lemma good_length d s : good d s -> siz d = Z.of_nat (length s) /\ text d = s /\ siz d <= cap d <= 2 ^ 62 /\
  length (buf d) = Z.to_nat (cap d).
Proof. intros (H1 & H2 & H3 & H4 & H5 & H6). unfold text. cbn in *. split_and!; try done; lia. Qed.

Lemma wp_assert b Π (Q : unit -> perms -> Prop) : b = true -> Q tt Π -> wp (assert b) Π Q.
Proof. by intros ->. Qed.

(** Runs a program up to its next access, with the comparisons of constants evaluated. *)
#[local] Ltac konst b := let v := eval vm_compute in b in lazymatch v with true => idtac | false => idtac end; change b with v.
#[local] Ltac ev :=
  repeat (progress cbn -[Z.eqb Z.ltb kUnsharedRefMark wrap] ||
          match goal with |- context [?a =? ?b] => konst (a =? b) | |- context [?a <? ?b] => konst (a <? b) end ||
          rewrite lookup_insert_eq || rewrite insert_insert_eq).

(** *** The count *)

Lemma wp_Unique_excl l d r Π (Q : bool -> perms -> Prop) :
  Π !! l = Some (Excl d r) -> Q ((r =? 1) || (r =? mark)) Π -> wp (Unique l) Π Q.
Proof. intros Hl HQ. ev. by rewrite Hl. Qed.

Lemma wp_Unique_shared l n u d Π (Q : bool -> perms -> Prop) :
  Π !! l = Some (Shared n u d) ->
  Q false (<[l := Shared n true d]> Π) ->
  (n = 1%nat -> forall r, r = 1 \/ r = mark -> Q true (<[l := Excl d r]> Π)) -> wp (Unique l) Π Q.
Proof.
  intros Hl H1 H2. ev. rewrite Hl. split.
  - intros r Hr. destruct (Z.eqb_spec r 1); [lia|]. destruct (Z.eqb_spec r mark); [lia|]. done.
  - intros Hn r Hr. specialize (H2 Hn r ltac:(tauto)). destruct Hr as [-> |[_ ->]]; done.
Qed.

Lemma wp_MakeUnsharedable l d r Π (Q : unit -> perms -> Prop) :
  Π !! l = Some (Excl d r) -> r = 1 \/ r = mark -> Q tt (<[l := Excl d mark]> Π) -> wp (MakeUnsharedable l) Π Q.
Proof.
  intros Hl Hr HQ. apply wp_bind. eapply wp_Unique_excl; [done|]. apply wp_bind, wp_assert; [destruct Hr as [-> | ->]; done|].
  ev. by rewrite Hl.
Qed.

Lemma wp_ResetSharedable l d r Π (Q : unit -> perms -> Prop) :
  Π !! l = Some (Excl d r) -> r = 1 \/ r = mark -> Q tt (<[l := Excl d 1]> Π) -> wp (ResetSharedable l) Π Q.
Proof.
  intros Hl Hr HQ. apply wp_bind. eapply wp_Unique_excl; [done|]. apply wp_bind, wp_assert; [destruct Hr as [-> | ->]; done|].
  ev. by rewrite Hl.
Qed.

(** Copying the pointer: the cell is not marked. *)
Lemma wp_AddRef l n d Π (Q : unit -> perms -> Prop) :
  Π !! l = Some (Shared n true d) -> (1 <= n)%nat -> (S n <= max)%nat ->
  Q tt (<[l := Shared (S n) true d]> Π) -> (n = 1%nat -> Q tt (<[l := Excl d 2]> Π)) -> wp (AddRef l) Π Q.
Proof.
  intros Hl Hn Hm H1 H2. ev. rewrite Hl. split.
  - intros r Hr. ev. rewrite (proj2 (Z.ltb_lt 0 r)) by lia. ev. split; [done|].
    intros r' Hr'. done.
  - intros H1' r [-> |[[=] _]]. ev. ev. by apply H2.
Qed.


(** Giving a share back: either others are left, or the cell is the thread's alone and has
    to be freed. *)
Lemma wp_Release_excl l d Π (Q : bool -> perms -> Prop) :
  Π !! l = Some (Excl d 1) -> Q true (<[l := Excl d 0]> Π) -> wp (Release l) Π Q.
Proof. intros Hl HQ. ev. repeat (rewrite Hl; ev). done. Qed.

Lemma wp_Release_mark l d Π (Q : bool -> perms -> Prop) :
  Π !! l = Some (Excl d mark) -> Q true Π -> wp (Release l) Π Q.
Proof. intros Hl HQ. ev. repeat (rewrite Hl; ev). done. Qed.

Lemma wp_Release l n u d Π (Q : bool -> perms -> Prop) :
  Π !! l = Some (Shared (S n) u d) ->
  Q false (partial_alter (fun _ => lose n true d) l Π) ->
  (n = O -> forall r, r = 0 \/ r = mark -> Q true (<[l := Excl d r]> Π)) -> wp (Release l) Π Q.
Proof.
  intros Hl H1 H2.
  assert (Hone : forall k, n = O -> k = 1 \/ k = mark ->
    wp (u ← Unsharedable l; if (u : bool) then Ret true else old ← fetch_sub l; Ret (wrap 32 (old - 1) =? 0))
       (<[l := Excl d k]> Π) Q).
  { intros k Hn [-> | ->]; ev; auto. }
  ev. rewrite Hl. split; [|intros [= Hn] r Hr].
  - intros r Hr. rewrite (proj2 (Z.ltb_lt 0 r)) by lia. ev. split.
    + intros r' Hr'. destruct (Z.eqb_spec r' mark); [lia|]. ev. split.
      * intros r2 Hr2. rewrite wrap_small by (unfold in_u, kUnsharedRefMark in *; lia).
        destruct (Z.eqb_spec (r2 - 1) 0); [lia|]. unfold lose in H1.
        replace (partial_alter _ l (<[l := _]> Π)) with (partial_alter (fun _ => match n with O => None | S _ => Some (Shared n true d) end) l Π); [done|].
        apply map_eq. intros k. destruct (decide (k = l)) as [->|Hk]; [by rewrite !lookup_partial_alter_eq|by rewrite !lookup_partial_alter_ne, lookup_insert_ne by done].
      * intros Hn. ev. auto.
    + intros [= Hn] r' [-> |[[=] _]]. ev. auto.
  - specialize (Hone r Hn ltac:(tauto)). destruct Hr as [-> |[_ ->]]; exact Hone.
Qed.

Lemma wp_delete_data l d r Π (Q : unit -> perms -> Prop) :
  Π !! l = Some (Excl d r) -> r = 0 \/ r = mark -> Q tt (delete l Π) -> wp (delete_data l) Π Q.
Proof. intros Hl [-> | ->] HQ; ev; rewrite Hl; ev; by rewrite Hl. Qed.

(** *** The buffer *)

Lemma wp_lift_bind {A B} (m : outcome A) (f : A -> prog B) Π (Q : B -> perms -> Prop) a :
  m = Ok a -> wp (f a) Π Q -> wp (lift m ≫= f) Π Q.
Proof. by intros ->. Qed.

Lemma wp_Reserve req l d r s Π (Q : unit -> perms -> Prop) :
  Π !! l = Some (Excl d r) -> good d s -> 0 <= req <= 2 ^ 62 -> cap d = 0 \/ req <= 2 ^ 61 ->
  (forall d', good d' s -> req <= cap d' -> Q tt (<[l := Excl d' r]> Π)) -> wp (Reserve req l) Π Q.
Proof.
  intros Hl Hd Hreq Hsmall HQ. destruct (Reserve_ok req (as_data d) s Hd Hreq Hsmall) as (d' & E & Hd' & Hr & Hc).
  unfold Reserve. apply wp_bind. cbn -[memcpy_s]. rewrite Hl. unfold RcString.Reserve in E. cbn [capacity_ as_data buffer_ size_ ref_count_] in E.
  destruct (Z.leb_spec req (cap d)) as [Hle|Hgt].
  - rewrite <- (insert_id Π l (Excl d r)) by done. by apply HQ.
  - apply bind_inv in E as (b & Eb & [= <-]). eapply wp_lift_bind; [exact Eb|]. cbn. rewrite Hl. apply HQ; [|exact Hc]. exact Hd'.
Qed.

Lemma wp_CopyData l d r s t Π (Q : unit -> perms -> Prop) :
  Π !! l = Some (Excl d r) -> r = 1 \/ r = mark -> good d s -> Z.of_nat (length s + length t) <= cap d ->
  (forall d', good d' (s ++ t) -> cap d' = cap d -> Q tt (<[l := Excl d' r]> Π)) -> wp (CopyData t (siz d) l) Π Q.
Proof.
  intros Hl Hr Hd Hcap HQ. destruct (CopyData_ok (as_data d) s t Hd eq_refl Hcap) as (d' & E & Hd' & _ & Hc).
  unfold CopyData. apply wp_bind. eapply wp_Unique_excl; [done|]. apply wp_bind, wp_assert; [by destruct Hr as [-> | ->]|].
  apply wp_bind. ev. rewrite Hl. unfold RcString.CopyData, Prelude.assert in E. cbn [siz as_data size_ capacity_ buffer_ Unique ref_count_] in E.
  change (RcString.Unique (as_data d)) with true in E. cbn [mbind outcome_bind] in E.
  destruct (siz d <=? siz d); [|done]. cbn [mbind outcome_bind] in E.
  destruct (wrap 64 (siz d + Z.of_nat (length t)) <=? cap d); [|done]. cbn [mbind outcome_bind] in E.
  apply bind_inv in E as (b & Eb & [= <-]). ev. eapply wp_lift_bind; [exact Eb|]. ev. rewrite Hl. by apply HQ.
Qed.

Lemma wp_new d r Π (Q : nat -> perms -> Prop) :
  (forall l, Π !! l = None -> Q l (<[l := Excl d r]> Π)) -> wp (new d r) Π Q.
Proof. done. Qed.

Lemma wp_new_data c Π (Q : nat -> perms -> Prop) :
  0 <= c <= 2 ^ 62 ->
  (forall l d, Π !! l = None -> good d [] -> c <= cap d -> Q l (<[l := Excl d 1]> Π)) -> wp (new_data 0 c) Π Q.
Proof.
  intros Hc HQ. unfold new_data. apply wp_bind, wp_new. intros l Hl. apply wp_bind.
  eapply (wp_Reserve c l (mk_Data [] 0 0) 1 []); [by rewrite lookup_insert_eq|by split_and!|done|by left|].
  intros d' Hd' Hc'. rewrite insert_insert_eq. by apply HQ.
Qed.

(** What a thread knows of the data of a cell. *)
Definition knows (p : perm) (d : Data) : Prop := match p with Excl d' _ | Shared _ _ d' => d' = d end.

Lemma wp_read l p d Π (Q : Data -> perms -> Prop) : Π !! l = Some p -> knows p d -> Q d Π -> wp (read l) Π Q.
Proof. intros Hl Hk HQ. cbn. rewrite Hl. by destruct p; cbn in Hk; subst. Qed.

Lemma wp_Clone c l p d s Π (Q : nat -> perms -> Prop) :
  Π !! l = Some p -> knows p d -> good d s -> 0 <= c <= 2 ^ 62 ->
  (forall l' d', Π !! l' = None -> good d' s -> c <= cap d' -> Q l' (<[l' := Excl d' 1]> Π)) -> wp (Clone 0 c l) Π Q.
Proof.
  intros Hl Hk Hd Hc HQ. destruct (good_length d s Hd) as (Hsz & Htx & Hcp & Hb).
  unfold Clone. apply wp_bind. eapply wp_read; [done|done|]. apply wp_bind. apply wp_new_data; [lia|]. intros l' d' Hf Hd' Hc'.
  assert (Hne : l <> l') by by intros ->; rewrite Hl in Hf.
  apply wp_bind. eapply (wp_read l p d); [by rewrite lookup_insert_ne|done|]. apply wp_bind.
  destruct (good_length d' [] Hd') as (Hsz' & _). replace (CopyData (text d) 0 l') with (CopyData s (siz d') l') by (by rewrite Hsz', Htx).
  eapply (wp_CopyData l' d' 1 [] s); [by rewrite lookup_insert_eq|by left|done|cbn; lia|].
  intros d2 Hd2 Hc2. rewrite insert_insert_eq. cbn. apply HQ; [done|done|lia].
Qed.

(** *** Making a buffer one's own *)

(** Afterwards the thread has one share of [l] less, and [l'] alone, with the same text and
    enough room; [l'] may be [l] when that share was the last. *)
Definition unshared (l l' n : nat) (d d' : Data) (r : Z) (Π Π' : perms) : Prop :=
  partial_alter (fun _ => lose n true d) l Π !! l' = None /\
  Π' = <[l' := Excl d' r]> (partial_alter (fun _ => lose n true d) l Π).

Lemma wp_PrepareToModify l req (mk : bool) n u d s Π (Q : nat -> perms -> Prop) :
  Π !! l = Some (Shared (S n) u d) -> good d s -> 0 <= req <= 2 ^ 61 ->
  (forall l' d' Π', unshared l l' n d d' (if mk then mark else 1) Π Π' -> good d' s -> req <= cap d' -> Q l' Π') ->
  wp (PrepareToModify 0 l req mk) Π Q.
Proof.
  intros Hl Hd Hreq HQ. unfold PrepareToModify. apply wp_bind.
  assert (Htail : forall l' d' r Π', Π' !! l' = Some (Excl d' r) -> r = 1 \/ r = mark ->
    unshared l l' n d d' (if mk then mark else 1) Π (<[l' := Excl d' (if mk then mark else 1)]> Π') -> good d' s -> req <= cap d' ->
    wp ((if mk then MakeUnsharedable l' else ResetSharedable l');; Ret l') Π' Q).
  { intros l' d' r Π' Hl' Hr Hu Hd' Hc. apply wp_bind.
    destruct mk; [eapply wp_MakeUnsharedable|eapply wp_ResetSharedable]; try done; by eapply HQ. }
  eapply wp_Unique_shared; [exact Hl| |].
  - (* not unique *)
    apply wp_bind, wp_bind. eapply (wp_Clone req l (Shared (S n) true d)); [by rewrite lookup_insert_eq|done|exact Hd|lia|].
    intros l' d' Hf Hd' Hc. assert (Hne : l <> l') by (intros ->; by rewrite lookup_insert_eq in Hf).
    rewrite lookup_insert_ne in Hf by done.
    apply wp_bind. eapply wp_Release; [by rewrite lookup_insert_ne, lookup_insert_eq| |].
    + apply wp_bind. cbn [wp]. eapply (Htail l' d' 1); [by rewrite lookup_partial_alter_ne, lookup_insert_eq|by left| |done|done].
      split; [by rewrite lookup_partial_alter_ne|]. apply map_eq. intros k.
      destruct (decide (k = l')) as [->|Hk]; [by rewrite !lookup_insert_eq|rewrite !lookup_insert_ne by done].
      destruct (decide (k = l)) as [->|Hkl]; [by rewrite !lookup_partial_alter_eq|]. by rewrite !lookup_partial_alter_ne, !lookup_insert_ne.
    + intros -> r Hr. apply wp_bind. eapply wp_delete_data; [by rewrite lookup_insert_eq|done|].
      cbn [wp]. eapply (Htail l' d' 1); [by rewrite lookup_delete_ne, lookup_insert_ne, lookup_insert_eq by done|by left| |done|done].
      split; [by rewrite lookup_partial_alter_ne|]. apply map_eq. intros k.
      destruct (decide (k = l')) as [->|Hk]; [by rewrite !lookup_insert_eq|rewrite !lookup_insert_ne by done].
      destruct (decide (k = l)) as [->|Hkl]; [by rewrite lookup_delete_eq, lookup_partial_alter_eq|].
      by rewrite lookup_delete_ne, lookup_partial_alter_ne, !lookup_insert_ne by done.
  - (* unique *)
    intros [= Hn] r Hr. apply wp_bind, wp_bind. eapply wp_Reserve; [by rewrite lookup_insert_eq|exact Hd|lia|right; lia|].
    intros d' Hd' Hc. rewrite insert_insert_eq. cbn [wp]. eapply (Htail l d' r); [by rewrite lookup_insert_eq|done| |done|done].
    assert (n = O) as -> by lia. split; [by rewrite lookup_partial_alter_eq|].
    rewrite insert_insert_eq. apply map_eq. intros k.
    destruct (decide (k = l)) as [->|Hk]; [by rewrite !lookup_insert_eq|by rewrite !lookup_insert_ne, lookup_partial_alter_ne].
Qed.

(** *** The strings of a thread *)

Definition count_ok (p : @perm Data) (n : nat) : Prop :=
  (0 < n)%nat /\ match p with Shared k _ _ => k = n | Excl _ r => r = Z.of_nat n \/ r = mark /\ n = 1%nat end.

(** The strings [vs] have the values [σ], and [Π] are their shares. *)
Record owned (vs : gmap nat nat) (σ : gmap nat str) (Π : perms) : Prop := {
  own_val v s : σ !! v = Some s -> exists l p d, vs !! v = Some l /\ Π !! l = Some p /\ knows p d /\ good d s;
  own_dom v : σ !! v = None -> vs !! v = None;
  own_perm l p : Π !! l = Some p -> count_ok p (owners l vs)
}.

Definition all_shared (Π : perms) : Prop := forall l p, Π !! l = Some p -> exists n u d, p = Shared n u d.

Lemma own_owners vs σ Π l : owned vs σ Π -> Π !! l = None -> owners l vs = O.
Proof.
  intros Ho Hl. unfold owners. apply map_size_empty_iff, map_empty. intros w. apply map_lookup_filter_None. right.
  intros k Hk E. cbn in E. subst k. destruct (σ !! w) as [t|] eqn:Ht.
  - destruct (own_val _ _ _ Ho w t Ht) as (k & p & d & Hv & Hp & _). rewrite Hk in Hv. injection Hv as <-. by rewrite Hl in Hp.
  - by rewrite (own_dom _ _ _ Ho w Ht) in Hk.
Qed.

Lemma own_size vs σ Π : owned vs σ Π -> size vs = size σ.
Proof.
  intros Ho. rewrite <- !size_dom. f_equal. apply set_eq. intros v. rewrite !elem_of_dom. split; intros [x Hx].
  - destruct (σ !! v) eqn:E; [by eexists|]. by rewrite (own_dom _ _ _ Ho v E) in Hx.
  - destruct (own_val _ _ _ Ho v x Hx) as (l & _ & _ & H & _). by exists l.
Qed.

(** A new string with a buffer of its own. *)
Lemma own_new vs σ Π v l d r s : owned vs σ Π -> σ !! v = None -> Π !! l = None -> good d s -> r = 1 \/ r = mark ->
  owned (<[v := l]> vs) (<[v := s]> σ) (<[l := Excl d r]> Π).
Proof.
  intros Ho Hv Hl Hd Hr. pose proof (own_dom _ _ _ Ho v Hv) as Hvn. pose proof (own_owners _ _ _ _ Ho Hl) as H0. split.
  - intros w t. destruct (decide (w = v)) as [->|Hne].
    + rewrite !lookup_insert_eq. intros [= <-]. exists l, (Excl d r), d. by rewrite !lookup_insert_eq.
    + rewrite !lookup_insert_ne by done. intros Ht. destruct (own_val _ _ _ Ho w t Ht) as (k & p & d' & Hk & Hp & Hok).
      exists k, p, d'. by rewrite lookup_insert_ne by (intros ->; congruence).
  - intros w [Hw Hne]%lookup_insert_None. rewrite lookup_insert_ne by done. by apply (own_dom _ _ _ Ho).
  - intros k p. rewrite owners_insert by done. destruct (decide (k = l)) as [->|Hk].
    + rewrite lookup_insert_eq. intros [= <-]. rewrite decide_True, H0 by done. split; [lia|]. destruct Hr as [-> | ->]; [by left|by right].
    + rewrite lookup_insert_ne by done. rewrite decide_False by done. apply (own_perm _ _ _ Ho).
Qed.

(** One more string for a buffer. *)
Lemma own_share vs σ Π v w l d p p' s : owned vs σ Π -> σ !! v = None -> σ !! w = Some s -> vs !! w = Some l ->
  Π !! l = Some p -> knows p d -> knows p' d -> count_ok p' (S (owners l vs)) ->
  owned (<[v := l]> vs) (<[v := s]> σ) (<[l := p']> Π).
Proof.
  intros Ho Hv Hw Hl Hp Hk Hk' Hc. pose proof (own_dom _ _ _ Ho v Hv) as Hvn.
  assert (Hold : forall x t, σ !! x = Some t -> exists k p d, vs !! x = Some k /\ <[l := p']> Π !! k = Some p /\ knows p d /\ good d t).
  { intros x t Ht. destruct (own_val _ _ _ Ho x t Ht) as (k & q & d' & Hx & Hq & Hkq & Hok).
    destruct (decide (k = l)) as [->|Hne]; [|exists k, q, d'; by rewrite lookup_insert_ne].
    rewrite Hp in Hq. injection Hq as <-. assert (d' = d) as -> by (destruct p; cbn in *; congruence).
    exists l, p', d. by rewrite lookup_insert_eq. }
  split.
  - intros x t. destruct (decide (x = v)) as [->|Hne].
    + rewrite !lookup_insert_eq. intros [= <-]. destruct (Hold w s Hw) as (k & q & d' & Hx & Hq). exists k, q, d'. split; [congruence|done].
    + rewrite !lookup_insert_ne by done. apply Hold.
  - intros x [Hx Hne]%lookup_insert_None. rewrite lookup_insert_ne by done. by apply (own_dom _ _ _ Ho).
  - intros k q. rewrite owners_insert by done. destruct (decide (k = l)) as [->|Hne].
    + rewrite lookup_insert_eq. intros [= <-]. by rewrite decide_True.
    + rewrite lookup_insert_ne by done. rewrite decide_False by done. apply (own_perm _ _ _ Ho).
Qed.

(** A string gives up its share. *)
Lemma own_drop vs σ Π v l n u u' d : owned vs σ Π -> vs !! v = Some l -> Π !! l = Some (Shared (S n) u d) ->
  owned (delete v vs) (delete v σ) (partial_alter (fun _ => lose n u' d) l Π).
Proof.
  intros Ho Hv Hl. destruct (own_perm _ _ _ Ho l _ Hl) as [_ Hn]. cbn in Hn.
  pose proof (owners_delete l v l vs Hv) as Hd. rewrite decide_True in Hd by done.
  split.
  - intros w t [Hne Ht]%lookup_delete_Some. rewrite lookup_delete_ne by done.
    destruct (own_val _ _ _ Ho w t Ht) as (k & p & d' & Hk & Hp & Hkn & Hok).
    destruct (decide (k = l)) as [->|Hkl]; [|exists k, p, d'; by rewrite lookup_partial_alter_ne].
    rewrite Hl in Hp. injection Hp as <-. cbn in Hkn. subst d'. exists l, (Shared n u' d), d. rewrite lookup_partial_alter_eq.
    destruct n as [|n]; [|done]. exfalso. pose proof (owners_unique l v w vs ltac:(lia) Hv Hk). done.
  - intros w Hw. destruct (decide (v = w)) as [->|Hne]; [by rewrite lookup_delete_eq|].
    rewrite lookup_delete_ne by done. rewrite lookup_delete_ne in Hw by done. by apply (own_dom _ _ _ Ho).
  - intros k p. destruct (decide (k = l)) as [->|Hkl].
    + rewrite lookup_partial_alter_eq. destruct n as [|n]; [done|]. intros [= <-]. split; [lia|]. cbn. lia.
    + rewrite lookup_partial_alter_ne by done. intros Hp. pose proof (own_perm _ _ _ Ho k p Hp) as Hc.
      rewrite (owners_delete k v l vs Hv), decide_False in Hc by done. exact Hc.
Qed.

(** A string gets a buffer of its own. *)
Lemma own_move vs σ Π Π' v l l' n u d d' r s : owned vs σ Π -> vs !! v = Some l -> Π !! l = Some (Shared (S n) u d) ->
  unshared l l' n d d' r Π Π' -> good d' s -> r = 1 \/ r = mark -> owned (<[v := l']> vs) (<[v := s]> σ) Π'.
Proof.
  intros Ho Hv Hl [Hf ->] Hd Hr. rewrite <- (insert_delete_eq vs v), <- (insert_delete_eq σ v).
  apply own_new; [by eapply own_drop|by apply lookup_delete_eq|done..].
Qed.

(** *** The operations *)

Context (vs : gmap nat nat) (σ : gmap nat str) (Π : perms) (Hown : owned vs σ Π) (Hshared : all_shared Π).

Lemma own_shared v s : σ !! v = Some s ->
  exists l n u d, vs !! v = Some l /\ Π !! l = Some (Shared (S n) u d) /\ good d s /\ owners l vs = S n.
Proof using Hown Hshared.
  intros Hv. destruct (own_val _ _ _ Hown v s Hv) as (l & p & d & Hl & Hp & Hk & Hd).
  destruct (Hshared l p Hp) as (n & u & d' & ->). cbn in Hk. subst d'.
  destruct (own_perm _ _ _ Hown l _ Hp) as [Hpos Hn]. cbn in Hn. destruct n as [|n]; [lia|]. by exists l, n, u, d.
Qed.

Lemma wp_data {B} v l (f : nat -> prog B) (Q' : B -> perms -> Prop) Π' : vs !! v = Some l -> wp (f l) Π' Q' -> wp (data_ v vs ≫= f) Π' Q'.
Proof. intros Hl Hf. unfold data_. by rewrite Hl. Qed.

Lemma wp_empty v : σ !! v = None ->
  wp (ThreadSafeRCString_empty 0 v vs) Π (fun vs' Π' => owned vs' (<[v := []]> σ) Π').
Proof using Hown.
  intros Hv. apply wp_bind, wp_new_data; [by vm_compute|]. intros l d Hl Hd Hc. cbn. apply own_new; auto.
Qed.

Lemma wp_from v s : σ !! v = None -> short s ->
  wp (ThreadSafeRCString_from 0 v s vs) Π (fun vs' Π' => owned vs' (<[v := s]> σ) Π').
Proof using Hown.
  unfold short. intros Hv Hs. apply wp_bind, wp_new_data; [lia|]. intros l d Hl Hd Hc. apply wp_bind.
  destruct (good_length d [] Hd) as (Hsz & _). replace (CopyData s 0 l) with (CopyData s (siz d) l) by by rewrite Hsz.
  eapply (wp_CopyData l d 1 [] s); [by rewrite lookup_insert_eq|by left|done|cbn; lia|].
  intros d' Hd' _. rewrite insert_insert_eq. cbn. apply own_new; auto.
Qed.

Lemma wp_copy v w s : σ !! v = None -> σ !! w = Some s -> (S (size σ) <= max)%nat ->
  wp (ThreadSafeRCString_copy 0 v w vs) Π (fun vs' Π' => owned vs' (<[v := s]> σ) Π').
Proof using Hown Hshared.
  intros Hv Hw Hm. destruct (own_shared w s Hw) as (l & n & u & d & Hl & Hp & Hd & Hn).
  pose proof (owners_le l vs) as Hle. rewrite (own_size _ _ _ Hown) in Hle.
  destruct (good_length d s Hd) as (Hsz & _ & Hcp & _).
  unfold ThreadSafeRCString_copy. eapply wp_data; [exact Hl|]. apply wp_bind. unfold Unsharedable. apply wp_bind. cbn [load wp]. rewrite Hp.
  assert (Hadd : wp (AddRef l;; Ret (<[v := l]> vs)) (<[l := Shared (S n) true d]> Π) (fun vs' Π' => owned vs' (<[v := s]> σ) Π')).
  { apply wp_bind. eapply (wp_AddRef l (S n) d); [by rewrite lookup_insert_eq|lia|lia|..].
    - rewrite insert_insert_eq. cbn. eapply (own_share vs σ Π v w l d); [done..|split; [lia|]]. cbn. lia.
    - intros [= ->]. rewrite insert_insert_eq. cbn. eapply (own_share vs σ Π v w l d); [done..|split; [lia|]]. left. lia. }
  split; [|intros [= ->] r Hr].
  - intros r Hr. destruct (Z.eqb_spec r mark); [lia|]. exact Hadd.
  - destruct (Z.eqb_spec r mark) as [->|Hne].
    + cbn [wp negb]. apply wp_bind. eapply (wp_read l (Excl d mark) d); [by rewrite lookup_insert_eq|done|].
      apply wp_bind. eapply (wp_Clone (siz d) l (Excl d mark) d s); [by rewrite lookup_insert_eq|done|done|lia|].
      intros l' d' Hf Hd' _. cbn. apply own_new; [|done|done|done|by left].
      assert (Ho : owned vs σ (<[l := Excl d mark]> Π)); [|exact Ho].
      split; [|apply (own_dom _ _ _ Hown)|].
      * intros x t Hx. destruct (own_val _ _ _ Hown x t Hx) as (k & q & dx & Hk & Hq & Hkn & Hok).
        destruct (decide (k = l)) as [->|Hkl]; [|exists k, q, dx; by rewrite lookup_insert_ne].
        rewrite Hp in Hq. injection Hq as <-. exists l, (Excl d mark), dx. by rewrite lookup_insert_eq.
      * intros k q. destruct (decide (k = l)) as [->|Hkl]; [|rewrite lookup_insert_ne by done; apply (own_perm _ _ _ Hown)].
        rewrite lookup_insert_eq. intros [= <-]. split; [lia|]. by right.
    + destruct Hr as [-> |[_ ->]]; [|done]. cbn [wp negb]. apply wp_bind. cbn. rewrite lookup_insert_eq. cbn. rewrite lookup_insert_eq.
      rewrite insert_insert_eq. cbn. change (wrap 32 (1 + 1)) with 2. eapply (own_share vs σ Π v w l d); [done..|split; [lia|]]. left. lia.
Qed.

Lemma wp_destroy v s : σ !! v = Some s -> wp (destroy v vs) Π (fun vs' Π' => owned vs' (delete v σ) Π').
Proof using Hown Hshared.
  intros Hv. destruct (own_shared v s Hv) as (l & n & u & d & Hl & Hp & Hd & Hn).
  unfold destroy. eapply wp_data; [exact Hl|]. apply wp_bind. eapply wp_Release; [exact Hp| |].
  - apply wp_bind. cbn. by eapply own_drop.
  - intros -> r Hr. apply wp_bind. eapply wp_delete_data; [by rewrite lookup_insert_eq|done|]. cbn. rewrite delete_insert_eq.
    exact (own_drop vs σ Π v l 0 u true d Hown Hl Hp).
Qed.

Lemma wp_Append v s t : σ !! v = Some s -> short (s ++ t) ->
  wp (Append 0 v t vs) Π (fun vs' Π' => owned vs' (<[v := s ++ t]> σ) Π').
Proof using Hown Hshared.
  unfold short. intros Hv Hs. destruct (own_shared v s Hv) as (l & n & u & d & Hl & Hp & Hd & Hn). rewrite length_app in Hs.
  destruct (good_length d s Hd) as (Hsz & _ & Hcp & _).
  unfold Append. eapply wp_data; [exact Hl|]. apply wp_bind. eapply wp_read; [exact Hp|done|]. apply wp_bind.
  rewrite wrap_small by (unfold in_u; lia). eapply wp_PrepareToModify; [exact Hp|exact Hd|lia|].
  intros l' d' Π' Hu Hd' Hc. pose proof Hu as [Hf ->]. apply wp_bind. eapply (wp_read l' _ d'); [by rewrite lookup_insert_eq|done|]. apply wp_bind.
  destruct (good_length d' s Hd') as (Hsz' & _).
  eapply (wp_CopyData l' d' 1 s t); [by rewrite lookup_insert_eq|by left|done|lia|].
  intros d2 Hd2 _. rewrite insert_insert_eq. cbn. eapply (own_move vs σ Π _ v l l' n u d d2 1); [done..|by split|done|by left].
Qed.

Lemma good_set d s pos ch : good d s -> (pos < length s)%nat -> good (mk_Data (<[pos := ch]> (buf d)) (cap d) (siz d)) (<[pos := ch]> s).
Proof.
  intros (H1 & H2 & H3 & H4 & H5 & H6) Hpos. cbn in *. split_and!; cbn; rewrite ?length_insert; try done; try lia.
  unfold content in *. cbn in *. by rewrite take_insert_lt, H6 by lia.
Qed.

Lemma wp_set_at v s pos ch : σ !! v = Some s -> (pos < length s)%nat -> short s ->
  wp (set_at 0 v pos ch vs) Π (fun vs' Π' => owned vs' (<[v := <[pos := ch]> s]> σ) Π').
Proof using Hown Hshared.
  unfold short. intros Hv Hpos Hs. destruct (own_shared v s Hv) as (l & n & u & d & Hl & Hp & Hd & Hn).
  destruct (good_length d s Hd) as (Hsz & _ & Hcp & _).
  unfold set_at. eapply wp_data; [exact Hl|]. apply wp_bind. eapply wp_read; [exact Hp|done|]. apply wp_bind.
  eapply wp_PrepareToModify; [exact Hp|exact Hd|lia|].
  intros l' d' Π' Hu Hd' Hc. pose proof Hu as [Hf ->]. apply wp_bind. eapply (wp_read l' _ d'); [by rewrite lookup_insert_eq|done|].
  destruct (good_length d' s Hd') as (Hsz' & _ & Hcp' & Hb'). rewrite decide_True by lia. cbn. rewrite lookup_insert_eq, insert_insert_eq.
  eapply (own_move vs σ Π _ v l l' n u d _ mark); [done..|by split|by apply good_set|by right].
Qed.

Lemma wp_code c σ' : effect c σ = Some σ' -> (size σ' <= max)%nat ->
  wp (code 0 c vs) Π (fun a Π' => owned a.1 σ' Π' /\ forall s, a.2 = Some s -> exists v, c = Print v /\ σ !! v = Some s).
Proof using Hown Hshared.
  intros He Hm. destruct c as [o|v]; cbn [effect] in He.
  - cbn [code]. apply wp_bind. eapply (wp_mono _ _ _ _ (fun vs' Π' => owned vs' σ' Π')); [intros vs' Π' H; by split|].
    destruct o as [v|v s|v w|v|v t|v pos ch]; cbn [meaning] in He.
    + apply declare_inv in He as (Hv & _ & _ & ->). by apply wp_empty.
    + apply declare_inv in He as (Hv & _ & Hs & ->). by apply wp_from.
    + destruct (σ !! w) as [s|] eqn:Hw; [|done]. cbn in He. apply declare_inv in He as (Hv & _ & _ & ->).
      rewrite map_size_insert_None in Hm by done. by apply (wp_copy v w s).
    + destruct (σ !! v) as [s|] eqn:Hv; [|done]. cbn in He. injection He as <-. by eapply wp_destroy.
    + destruct (σ !! v) as [s|] eqn:Hv; [|done]. cbn in He. case_guard; [|done]. simplify_eq/=. by apply wp_Append.
    + destruct (σ !! v) as [s|] eqn:Hv; [|done]. cbn in He. case_guard as Hg; [|done]. simplify_eq/=. destruct Hg. by apply wp_set_at.
  - destruct (σ !! v) as [s|] eqn:Hv; [|done]. cbn in He. injection He as <-. cbn [code]. apply wp_bind.
    destruct (own_shared v s Hv) as (l & n & u & d & Hl & Hp & Hd & Hn). destruct (good_length d s Hd) as (_ & Htx & _).
    unfold to_string. eapply wp_data; [exact Hl|]. apply wp_bind. eapply wp_read; [exact Hp|done|]. cbn.
    split; [done|]. intros s' [= <-]. exists v. by rewrite Htx.
Qed.
End Logic.

(** ** Runs *)

Section Run.
Context (max : nat) (max_pos : (0 < max)%nat).
Notation mark := kUnsharedRefMark.
Notation perms := (gmap nat (@perm Data)).

(** A string comes from another thread. *)
Lemma own_gain vs σ Π w l d s : owned vs σ Π -> all_shared Π -> σ !! w = None ->
  (forall p, Π !! l = Some p -> knows p d) -> good d s ->
  owned (<[w := l]> vs) (<[w := s]> σ) (<[l := gain (Π !! l) d]> Π).
Proof.
  intros Ho Hsh Hw Hk Hd. pose proof (own_dom _ _ _ Ho w Hw) as Hwn.
  assert (Hg : knows (gain (Π !! l) d) d /\ count_ok (gain (Π !! l) d) (S (owners l vs))).
  { destruct (Π !! l) as [p|] eqn:Hp.
    - destruct (Hsh l p Hp) as (n & u & d' & ->). destruct (own_perm _ _ _ Ho l _ Hp) as [_ Hn]. cbn in *.
      split; [by apply (Hk (Shared n u d'))|]. split; [lia|]. cbn. lia.
    - rewrite (own_owners _ _ _ _ Ho Hp). split; [done|]. split; [lia|done]. }
  destruct Hg as [Hg1 Hg2]. generalize dependent (gain (Π !! l) d). intros p' Hg1 Hg2. split.
  - intros x t. destruct (decide (x = w)) as [->|Hne].
    + rewrite !lookup_insert_eq. intros [= <-]. exists l, p', d. by rewrite !lookup_insert_eq.
    + rewrite !lookup_insert_ne by done. intros Ht. destruct (own_val _ _ _ Ho x t Ht) as (k & q & d' & Hx & Hq & Hkq & Hok).
      destruct (decide (k = l)) as [->|Hkl]; [|exists k, q, d'; by rewrite lookup_insert_ne].
      exists l, p', d. rewrite lookup_insert_eq. split; [done|]. split; [done|]. split; [done|].
      specialize (Hk q Hq). by assert (d' = d) as -> by (destruct q; cbn in *; congruence).
  - intros x [Hx Hne]%lookup_insert_None. rewrite lookup_insert_ne by done. by apply (own_dom _ _ _ Ho).
  - intros k q. rewrite owners_insert by done. destruct (decide (k = l)) as [->|Hne].
    + rewrite lookup_insert_eq. intros [= <-]. by rewrite decide_True.
    + rewrite lookup_insert_ne by done. rewrite decide_False by done. apply (own_perm _ _ _ Ho).
Qed.

(** After an operation only shares are left. *)
Lemma own_rest vs σ Π : owned vs σ Π -> (size σ <= max)%nat -> Z.of_nat max < mark ->
  resting mark max Π /\ owned vs σ (shared mark <$> Π) /\ all_shared (shared mark <$> Π).
Proof.
  intros Ho Hs Hb. split; [|split].
  - intros l d r Hl. destruct (own_perm _ _ _ Ho l _ Hl) as [Hp [Hr|[Hr _]]]; [left|by right].
    pose proof (owners_le l vs) as Hle. rewrite (own_size _ _ _ Ho) in Hle. lia.
  - split; [|apply (own_dom _ _ _ Ho)|].
    + intros v s Hv. destruct (own_val _ _ _ Ho v s Hv) as (l & p & d & Hl & Hp & Hk & Hd).
      exists l, (shared mark p), d. rewrite lookup_fmap, Hp. by destruct p.
    + intros l p. rewrite lookup_fmap. destruct (Π !! l) as [q|] eqn:Hq; [|done]. intros [= <-].
      destruct (own_perm _ _ _ Ho l _ Hq) as [Hp Hr]. split; [done|]. destruct q as [d r|]; [|done]. cbn. unfold own_shares.
      pose proof (owners_le l vs) as Hle. rewrite (own_size _ _ _ Ho) in Hle. destruct (Z.eqb_spec r mark); lia.
  - intros l p. rewrite lookup_fmap. destruct (Π !! l) as [[]|]; [|..|done]; intros [= <-]; by eexists _, _, _.
Qed.

Definition thread_ok (t : thread) (Π : perms) : Prop :=
  (size (vals t) <= max)%nat /\
  match running t with
  | None => owned (vars t) (vals t) Π /\ all_shared Π
  | Some (c, p) => exists σ, effect c (vals t) = Some σ /\ (size σ <= max)%nat /\
      wp mark max p Π (fun a Π => owned a.1 σ Π /\ forall s, a.2 = Some s -> exists v, c = Print v /\ vals t !! v = Some s)
  end.

Definition world_ok (m : nat) (w : world) : Prop :=
  exists h ts Πs, w = Ok (h, ts) /\ Inv mark max h Πs /\ Forall2 thread_ok ts Πs /\ length ts = m.

Lemma ok_at ts Πs i t : Forall2 thread_ok ts Πs -> ts !! i = Some t -> exists Π, Πs !! i = Some Π /\ thread_ok t Π.
Proof. intros H Hi. by eapply Forall2_lookup_l in H. Qed.

Lemma mark_small : mark < 2 ^ 32.
Proof. by vm_compute. Qed.

Lemma world_step m w w' : Z.of_nat (m * max) < mark -> world_ok m w -> step max w w' -> world_ok m w'.
Proof using max_pos.
  intros Hb (h & ts & Πs & -> & HI & Hall & Hlen) Hst.
  pose proof (Forall2_length _ _ _ Hall) as Hlen2.
  inversion Hst as [h0 ts0 i t c σ Hi Hr He Hs|h0 ts0 i t c p r Hi Hr Ha|h0 ts0 i t c vs res σ Hi Hr He|h0 ts0 i j t u v w l s Hij Hi Hj Hr1 Hr2 Hv Hvv Hw Hs]; subst h0 ts0; try subst.
  - destruct (ok_at _ _ _ _ Hall Hi) as (Π & HΠ & Hsz & Hrun). rewrite Hr in Hrun. destruct Hrun as [Ho Hsh].
    eexists h, _, Πs. split; [done|]. split; [done|]. split; [|by rewrite length_insert].
    rewrite <- (list_insert_id Πs i Π) by done. apply Forall2_insert; [done|]. split; [done|]. cbn.
    exists σ. split; [done|]. split; [done|]. by apply wp_code.
  - destruct (ok_at _ _ _ _ Hall Hi) as (Π & HΠ & Hsz & Hrun). rewrite Hr in Hrun. destruct Hrun as (σ & He & Hs & Hw).
    destruct (wp_step mark max mark_small p h Πs i Π _ r HI ltac:(by rewrite <- Hlen2) HΠ Hw Ha) as (h' & p' & Π' & -> & HI' & Hw').
    eexists h', _, _. split; [done|]. split; [exact HI'|]. split; [|by rewrite length_insert].
    apply Forall2_insert; [done|]. split; [done|]. cbn. by exists σ.
  - destruct (ok_at _ _ _ _ Hall Hi) as (Π & HΠ & Hsz & Hrun). rewrite Hr in Hrun. destruct Hrun as (σ' & He' & Hs & Ho & _).
    rewrite He in He'. injection He' as <-. assert (Z.of_nat max < mark) by (apply lookup_lt_Some in Hi; nia). destruct (own_rest _ _ _ Ho Hs ltac:(done)) as (Hrest & Ho' & Hsh).
    eexists h, _, _. split; [done|]. split; [by apply (inv_rest mark max max_pos h Πs i Π)|]. split; [|by rewrite length_insert].
    apply Forall2_insert; [done|]. by split.
  - destruct (ok_at _ _ _ _ Hall Hi) as (Π1 & HΠ1 & Hsz1 & Hrun1). rewrite Hr1 in Hrun1. destruct Hrun1 as [Ho1 Hsh1].
    destruct (ok_at _ _ _ _ Hall Hj) as (Π2 & HΠ2 & Hsz2 & Hrun2). rewrite Hr2 in Hrun2. destruct Hrun2 as [Ho2 Hsh2].
    destruct (own_shared _ _ _ Ho1 Hsh1 v s Hvv) as (l' & n & f & d & Hl & Hp & Hd & Hn). rewrite Hv in Hl. injection Hl as <-.
    assert (Hwv : vals u !! w = None).
    { destruct (vals u !! w) as [x|] eqn:E; [|done]. destruct (own_val _ _ _ Ho2 w x E) as (k & _ & _ & Hk & _). by rewrite Hw in Hk. }
    eexists h, _, _. split; [done|]. split.
    + apply (inv_give mark max max_pos h Πs i j Π1 Π2 l n f d HI HΠ1 HΠ2 Hij Hp). intros k g d' Hk.
      destruct (own_perm _ _ _ Ho2 l _ Hk) as [_ Hc]. cbn in Hc. pose proof (owners_le l (vars u)) as Hle.
      rewrite (own_size _ _ _ Ho2) in Hle. lia.
    + split; [|by rewrite !length_insert]. apply Forall2_insert; [apply Forall2_insert; [done|]|].
      * split; [cbn; rewrite map_size_insert_None by done; lia|]. cbn. split.
        -- apply own_gain; try done. intros q Hq. destruct (cell_of _ _ h Πs i Π1 l _ HI HΠ1 Hp) as (d1 & r1 & E1 & Hd1).
           destruct (cell_of _ _ h Πs j Π2 l q HI HΠ2 Hq) as (d2 & r2 & E2 & Hd2). rewrite E1 in E2. injection E2 as <- <-. subst d1.
           destruct q; cbn; [by destruct Hd2 as [-> _]|done].
        -- intros k q. destruct (decide (k = l)) as [->|Hkl]; [|rewrite lookup_insert_ne by done; apply Hsh2].
           rewrite lookup_insert_eq. intros [= <-]. destruct (Π2 !! l) as [q|] eqn:Hq; [|by eexists _, _, _].
           destruct (Hsh2 l q Hq) as (n' & u' & d' & ->). by eexists _, _, _.
      * split; [cbn; etrans; [apply map_size_delete_le || apply (map_subseteq_size _ _ (delete_subseteq _ _))|done]|]. cbn. split; [by eapply own_drop|].
        intros k q. destruct (decide (k = l)) as [->|Hkl]; [|rewrite lookup_partial_alter_ne by done; apply Hsh1].
        rewrite lookup_partial_alter_eq. destruct n; [done|]. intros [= <-]. by eexists _, _, _.
Qed.

Lemma strings_run_ok m w : Z.of_nat (m * max) < mark -> reachable max m w -> world_ok m w.
Proof using max_pos.
  intros Hb. induction 1 as [|w w' _ IH Hst]; [|by eapply world_step].
  eexists _, _, (replicate m ∅). split; [done|]. split; [|split; [|by rewrite length_replicate]].
  - split; [|done]. intros l. cbn. rewrite lookup_empty. intros i p Hp. unfold at_cell in Hp.
    rewrite fmap_replicate in Hp. apply lookup_replicate in Hp as [-> _]. apply lookup_empty.
  - apply Forall2_replicate. split; [cbn; rewrite map_size_empty; lia|]. cbn. split; [split|]; try done.
    all: intros ?; by rewrite ?lookup_empty.
Qed.
End Run.

(** *** Schedules *)

Inductive event := ECall (i : nat) (c : call) | ERun (i : nat) | EReturn (i : nat) | EGive (i j v w : nat).

Definition exec1 (max : nat) (e : event) (w : world) : option world :=
  match w with
  | Ok (h, ts) =>
      match e with
      | ECall i c =>
          t ← ts !! i; σ ← effect c (vals t);
          guard (running t = None /\ size σ <= max)%nat;;
          Some (Ok (h, <[i := mk_thread (vars t) (vals t) (Some (c, code 0 c (vars t)))]> ts))
      | ERun i =>
          t ← ts !! i; '(c, p) ← running t; r ← advance h p;
          Some ('(h, p) ← r; Ok (h, <[i := mk_thread (vars t) (vals t) (Some (c, p))]> ts))
      | EReturn i =>
          t ← ts !! i; '(c, p) ← running t;
          match p with
          | Ret (vs, _) => σ ← effect c (vals t); Some (Ok (h, <[i := mk_thread vs σ None]> ts))
          | _ => None
          end
      | EGive i j v w =>
          t ← ts !! i; u ← ts !! j; l ← vars t !! v; s ← vals t !! v;
          guard (i <> j /\ running t = None /\ running u = None /\ vars u !! w = None /\ size (vals u) < max)%nat;;
          Some (Ok (h, <[i := mk_thread (delete v (vars t)) (delete v (vals t)) None]>
                       (<[j := mk_thread (<[w := l]> (vars u)) (<[w := s]> (vals u)) None]> ts)))
      end
  | _ => None
  end.

Lemma event_step max e w w' : exec1 max e w = Some w' -> step max w w'.
Proof.
  destruct w as [[h ts]| | |]; cbn; try done. destruct e as [i c|i|i|i j v w]; intros H.
  - destruct (ts !! i) as [t|] eqn:Hi; [|done]. cbn in H. destruct (effect c (vals t)) as [σ|] eqn:He; [|done]. cbn in H.
    case_guard as Hg; [|done]. destruct Hg as [Hr Hs]. injection H as <-. by eapply step_call.
  - destruct (ts !! i) as [t|] eqn:Hi; [|done]. cbn in H. destruct (running t) as [[c p]|] eqn:Hr; [|done]. cbn in H.
    destruct (advance h p) as [r|] eqn:Ha; [|done]. injection H as <-. by eapply step_run.
  - destruct (ts !! i) as [t|] eqn:Hi; [|done]. cbn in H. destruct (running t) as [[c p]|] eqn:Hr; [|done]. cbn in H.
    destruct p as [[vs res]| | | | | | | | |]; try done. destruct (effect c (vals t)) as [σ|] eqn:He; [|done]. injection H as <-.
    by eapply step_return.
  - destruct (ts !! i) as [t|] eqn:Hi; [|done]. cbn in H. destruct (ts !! j) as [u|] eqn:Hj; [|done]. cbn in H.
    destruct (vars t !! v) as [l|] eqn:Hl; [|done]. cbn in H. destruct (vals t !! v) as [s|] eqn:Hs; [|done]. cbn in H.
    case_guard as Hg; [|done]. destruct Hg as (Hne & Hr1 & Hr2 & Hw & Hm). injection H as <-. by eapply step_give.
Qed.

Fixpoint exec (max : nat) (es : list event) (w : world) : option world :=
  match es with [] => Some w | e :: es => w ← exec1 max e w; exec max es w end.

Lemma events_reachable max m es : forall w w', reachable max m w -> exec max es w = Some w' -> reachable max m w'.
Proof.
  induction es as [|e es IH]; intros w w' Hw He; cbn in He; [by injection He as <-|].
  destruct (exec1 max e w) as [w1|] eqn:E; [|done]. apply (IH w1); [|done]. eapply reachable_step; [done|by eapply event_step].
Qed.

(** Where a schedule leads from [m] threads without strings. *)
Definition start (m : nat) : world := Ok (mk_heap ∅ 0, replicate m (mk_thread ∅ ∅ None)).
Definition after (max m : nat) (es : list event) : world := default (start m) (exec max es (start m)).

Lemma schedule_reachable max m es : reachable max m (after max m es).
Proof.
  unfold after. destruct (exec max es (start m)) as [w|] eqn:E; [|apply reachable_start].
  eapply events_reachable, E. apply reachable_start.
Qed.

(** A whole call that nobody disturbs. *)
Definition whole (i : nat) (c : call) (n : nat) : list event := ECall i c :: repeat (ERun i) n ++ [EReturn i].

(** ** The thread-safe string *)

(** C14: If [capacity_], which the constructor reads before anything was stored there, happens to
    hold 0, and there are fewer than 2^32 - 1 strings, of at most 2^61 characters, threads
    may copy strings, hand copies to each other and change their own at any time:
    in every interleaving of the accesses no thread fails an assertion or touches a freed
    buffer, no two race for one, every string has the value that its own thread gave it
    (what is printed included), and when the last string is gone so is every buffer. *)
Theorem thread_strings_safe (max m : nat) (w : world) :
  (0 < max)%nat -> Z.of_nat (m * max) < kUnsharedRefMark -> reachable max m w ->
  exists h ts, w = Ok (h, ts) /\
    (forall i j t u c p c' q, i <> j -> ts !! i = Some t -> ts !! j = Some u ->
       running t = Some (c, p) -> running u = Some (c', q) -> ~ races p q) /\
    (forall i t c vs s, ts !! i = Some t -> running t = Some (c, Ret (vs, Some s)) ->
       exists v, c = Print v /\ vals t !! v = Some s) /\
    (forall i t v s, ts !! i = Some t -> running t = None -> vals t !! v = Some s ->
       exists l d r, vars t !! v = Some l /\ cells h !! l = Some (d, r) /\ text d = s) /\
    ((forall t, t ∈ ts -> running t = None /\ vals t = ∅) -> cells h = ∅).
Proof.
  intros Hmax Hb Hr. apply strings_run_ok in Hr as (h & ts & Πs & -> & HI & Hall & Hlen); [|done|done].
  exists h, ts. split; [done|]. split; [|split; [|split]].
  - intros i j t u c p c' q Hne Hi Hj Hp Hq.
    destruct (ok_at _ _ _ _ _ Hall Hi) as (Π1 & H1 & _ & Ht). rewrite Hp in Ht. destruct Ht as (σ1 & _ & _ & Hw1).
    destruct (ok_at _ _ _ _ _ Hall Hj) as (Π2 & H2 & _ & Hu). rewrite Hq in Hu. destruct Hu as (σ2 & _ & _ & Hw2).
    by eapply (wp_no_race kUnsharedRefMark max h Πs i j Π1 Π2 p q).
  - intros i t c vs s Hi Hp. destruct (ok_at _ _ _ _ _ Hall Hi) as (Π1 & H1 & _ & Ht). rewrite Hp in Ht.
    destruct Ht as (σ1 & _ & _ & _ & Hs). by apply Hs.
  - intros i t v s Hi Hp Hv. destruct (ok_at _ _ _ _ _ Hall Hi) as (Π1 & H1 & _ & Ht). rewrite Hp in Ht. destruct Ht as [Ho Hsh].
    destruct (own_shared _ _ _ Ho Hsh v s Hv) as (l & n & u & d & Hl & Hpm & Hd & _).
    destruct (cell_of _ _ h Πs i Π1 l _ HI H1 Hpm) as (d' & r & E & ->). exists l, d', r. split; [done|]. split; [done|]. apply Hd.
  - intros Hempty. apply map_empty. intros l. destruct (cells h !! l) as [[d r]|] eqn:E; [|done]. exfalso.
    pose proof (inv_cells _ _ _ _ HI l) as Hc. rewrite E in Hc.
    assert (Hnone : forall i q, at_cell Πs l !! i = Some q -> q = None).
    { intros i q Hq. unfold at_cell in Hq. apply list_lookup_fmap_Some in Hq as (Π1 & -> & H1).
      destruct (Forall2_lookup_r _ _ _ _ _ Hall H1) as (t & Hi & _ & Ht).
      destruct (Hempty t ltac:(by eapply list_elem_of_lookup_2)) as [Hn Hv]. rewrite Hn, Hv in Ht. destruct Ht as [Ho _].
      destruct (Π1 !! l) as [q|] eqn:Hq; [|done]. destruct (own_perm _ _ _ Ho l q Hq) as [Hpos _].
      pose proof (owners_le l (vars t)) as Hle. rewrite (own_size _ _ _ Ho), map_size_empty in Hle. lia. }
    destruct Hc as [(i & Hi & _)|(_ & Hpos & _)]; [by specialize (Hnone _ _ Hi)|].
    apply sum_of_pos in Hpos as (i & q & Hi & Hq). rewrite (Hnone _ _ Hi) in Hq. done.
Qed.

(** A string, a copy of it for another thread, and both threads change theirs at once: both
    find the buffer shared and copy it, and the later one frees it. *)
Definition two_writers : world := after 2 2
  (whole 0 (Do (From 0 (lit "ab"))) 6 ++ whole 0 (Do (Copy 1 0)) 3 ++
   [EGive 0 1 1 0; ECall 0 (Do (RcString.Add 0 (lit "c"))); ECall 1 (Do (SetAt 0 0 "x"%char)); ERun 0; ERun 1; ERun 0; ERun 1] ++
   repeat (ERun 0) 17 ++ [EReturn 0] ++ repeat (ERun 1) 17 ++ [EReturn 1]).

Definition values (w : world) : list (list (nat * str)) :=
  match w with Ok (_, ts) => map (fun t => map_to_list (vals t)) ts | _ => [] end.

Lemma thread_strings_safe_witness :
  values two_writers = [[(0%nat, lit "abc")]; [(0%nat, lit "xb")]] /\
  exists h ts, two_writers = Ok (h, ts) /\
    (forall i t v s, ts !! i = Some t -> running t = None -> vals t !! v = Some s ->
       exists l d r, vars t !! v = Some l /\ cells h !! l = Some (d, r) /\ text d = s).
Proof.
  split; [by vm_compute|].
  destruct (thread_strings_safe 2 2 two_writers) as (h & ts & E & _ & _ & Hv & _); [lia|by vm_compute|apply schedule_reachable|].
  exists h, ts. split; [exact E|exact Hv].
Defined.
