(* ===== verification/Murmur.v ===== *)
(** * The variants of MurmurHash2

    Models the 32-bit hashes of bloom-filter/bloom-filter/MurmurHash2.cpp next to
    [MurmurHash2] itself, which is in Bloom: the one that reads bytes
    ([MurmurHashNeutral2]), the one that reads aligned words only ([MurmurHashAligned2]),
    and [MurmurHash2A] with its incremental form [CMurmurHash2A].  The host is
    little-endian. *)

From S2P Require Import Prelude Endian Bloom.

#[local] Open Scope Z_scope.

Definition at_ (data : str) (i : nat) : outcome Z := c ← the (data !! i); Ok (uchar c).

Definition finish (h : Z) : Z :=
  let h := Z.lxor h (Z.shiftr h 13) in
  let h := wrap 32 (h * m) in
  Z.lxor h (Z.shiftr h 15).

(** The [switch]es that fall through: the first [n] bytes of [data] into [t], by [|=] and
    by [^=]. *)
Definition switch_or (n : nat) (t : Z) (data : str) : outcome Z :=
  t ← (if (3 <=? n)%nat then d ← at_ data 2; Ok (Z.lor t (Z.shiftl d 16)) else Ok t);
  t ← (if (2 <=? n)%nat then d ← at_ data 1; Ok (Z.lor t (Z.shiftl d 8)) else Ok t);
  if (1 <=? n)%nat then d ← at_ data 0; Ok (Z.lor t d) else Ok t.

Definition switch_xor (n : nat) (t : Z) (data : str) : outcome Z :=
  t ← (if (3 <=? n)%nat then d ← at_ data 2; Ok (Z.lxor t (Z.shiftl d 16)) else Ok t);
  t ← (if (2 <=? n)%nat then d ← at_ data 1; Ok (Z.lxor t (Z.shiftl d 8)) else Ok t);
  if (1 <=? n)%nat then d ← at_ data 0; Ok (Z.lxor t d) else Ok t.

(** The tail bytes of a hash of the [MurmurHash2] kind. *)
Definition tail_bytes (h : Z) (data : str) : outcome Z :=
  match length data with
  | O => Ok h
  | n => h ← switch_xor n h data; Ok (wrap 32 (h * m))
  end.

(** ** MurmurHashNeutral2 *)

Fixpoint neutral_loop (h : Z) (data : str) : outcome Z :=
  match data with
  | b0 :: b1 :: b2 :: b3 :: data =>
      let k := uchar b0 in
      let k := Z.lor k (Z.shiftl (uchar b1) 8) in
      let k := Z.lor k (Z.shiftl (uchar b2) 16) in
      let k := Z.lor k (Z.shiftl (uchar b3) 24) in
      neutral_loop (mix h k) data
  | _ => tail_bytes h data
  end.

Definition MurmurHashNeutral2 (key : str) (seed : Z) : outcome Z :=
  h ← neutral_loop (Z.lxor seed (wrap 32 (Z.of_nat (length key)))) key; Ok (finish h).

(** ** MurmurHashAligned2 *)

(** The loop: [t] holds the bytes that are not mixed yet in its upper part. *)
Fixpoint aligned_loop (align : nat) (h t : Z) (data : str) : Z * Z * str :=
  let sl := 8 * (4 - Z.of_nat align) in
  let sr := 8 * Z.of_nat align in
  match data with
  | b0 :: b1 :: b2 :: b3 :: data =>
      let d := word b0 b1 b2 b3 in
      let t := Z.lor (Z.shiftr t sr) (wrap 32 (Z.shiftl d sl)) in
      aligned_loop align (mix h t) d data
  | _ => (h, t, data)
  end.

(** What is left in [t] and in [data], fewer than four bytes. *)
Definition aligned_rest (align : nat) (h t : Z) (data : str) : outcome Z :=
  let sl := 8 * (4 - Z.of_nat align) in
  let sr := 8 * Z.of_nat align in
  if (align <=? length data)%nat then
    d ← switch_or align 0 data;
    let k := Z.lor (Z.shiftr t sr) (wrap 32 (Z.shiftl d sl)) in
    tail_bytes (mix h k) (drop align data)
  else
    d ← switch_or (length data) 0 data;
    let h := Z.lxor h (Z.lor (Z.shiftr t sr) (wrap 32 (Z.shiftl d sl))) in
    Ok (wrap 32 (h * m)).

(** [align]: the address of the key modulo 4. *)
Definition MurmurHashAligned2 (align : nat) (key : str) (seed : Z) : outcome Z :=
  let h := Z.lxor seed (wrap 32 (Z.of_nat (length key))) in
  if (negb (align =? 0) && (4 <=? length key))%nat then
    t ← switch_or (4 - align) 0 key;
    let t := wrap 32 (Z.shiftl t (8 * Z.of_nat align)) in
    let '(h, t, data) := aligned_loop align h t (drop (4 - align) key) in
    h ← aligned_rest align h t data;
    Ok (finish h)
  else Ok (finish (murmur_loop h key)).

(** ** MurmurHash2A *)

(** The loop over the words, here and in [CMurmurHash2A::Add]: the hash and the rest. *)
Fixpoint words (h : Z) (data : str) : Z * str :=
  match data with
  | b0 :: b1 :: b2 :: b3 :: data => words (mix h (word b0 b1 b2 b3)) data
  | _ => (h, data)
  end.

Definition MurmurHash2A (key : str) (seed : Z) : outcome Z :=
  let l := wrap 32 (Z.of_nat (length key)) in
  let '(h, data) := words seed key in
  t ← switch_xor (length data) 0 data;
  Ok (finish (mix (mix h t) l)).

Record CMurmurHash2A := mk_hasher { m_hash : Z; m_tail : Z; m_count : Z; m_size : Z }.

Definition Begin (seed : Z) : CMurmurHash2A := mk_hasher seed 0 0 0.

(** The hasher, [data] and [len] are changed. *)
Fixpoint MixTail (s : CMurmurHash2A) (data : str) : CMurmurHash2A * str :=
  match data with
  | [] => (s, data)
  | c :: rest =>
      if (length data <? 4)%nat || negb (m_count s =? 0) then
        let tail := Z.lor (m_tail s) (wrap 32 (Z.shiftl (uchar c) (m_count s * 8))) in
        let count := wrap 32 (m_count s + 1) in
        MixTail (if count =? 4 then mk_hasher (mix (m_hash s) tail) 0 0 (m_size s)
                 else mk_hasher (m_hash s) tail count (m_size s)) rest
      else (s, data)
  end.

Definition Add (data : str) (s : CMurmurHash2A) : CMurmurHash2A :=
  let s := mk_hasher (m_hash s) (m_tail s) (m_count s) (wrap 32 (m_size s + Z.of_nat (length data))) in
  let '(s, data) := MixTail s data in
  let '(h, data) := words (m_hash s) data in
  let s := mk_hasher h (m_tail s) (m_count s) (m_size s) in
  (MixTail s data).1.

Definition End_ (s : CMurmurHash2A) : Z := finish (mix (mix (m_hash s) (m_tail s)) (m_size s)).

(** ** Bits and bytes *)

Lemma lor_shift x y k : 0 <= k -> 0 <= y < 2 ^ k -> Z.lor y (Z.shiftl x k) = y + x * 2 ^ k.
Proof. intros Hk Hy. rewrite Z.lor_comm, Z.shiftl_mul_pow2, lor_add by lia. lia. Qed.

Lemma lxor_shift x y k : 0 <= k -> 0 <= y < 2 ^ k -> Z.lxor (Z.shiftl x k) y = x * 2 ^ k + y.
Proof.
  intros Hk Hy. rewrite Z.shiftl_mul_pow2 by done. pose proof (lor_add k x y Hk Hy) as Hl.
  pose proof (Z.add_lor_land (x * 2 ^ k) y). rewrite Z.lxor_lor; lia.
Qed.

Lemma le_value_take_drop a l : (a <= length l)%nat ->
  le_value l = le_value (take a l) + 256 ^ Z.of_nat a * le_value (drop a l).
Proof. intros Ha. rewrite <- (take_drop a l) at 1. by rewrite le_value_app, length_take, Nat.min_l. Qed.

Lemma le_value_lt l n : (length l <= n)%nat -> 0 <= le_value l < 256 ^ Z.of_nat n.
Proof.
  intros Hl. pose proof (le_value_bound l). split; [lia|]. eapply Z.lt_le_trans; [apply H|]. apply Z.pow_le_mono_r; lia.
Qed.

Lemma word_le b0 b1 b2 b3 : word b0 b1 b2 b3 = le_value [b0; b1; b2; b3].
Proof. unfold word. cbn. lia. Qed.

(** The upper part of a word. *)
Lemma shift_right l a : (a <= length l)%nat -> Z.shiftr (le_value l) (8 * Z.of_nat a) = le_value (drop a l).
Proof.
  intros Ha. rewrite Z.shiftr_div_pow2, pow256 by lia. rewrite (le_value_take_drop a l Ha).
  pose proof (le_value_lt (take a l) a ltac:(rewrite length_take; lia)). pose proof (pow256_pos a).
  rewrite Z.mul_comm, Z.div_add, Z.div_small by lia. lia.
Qed.

(** The lower part of a word, moved up. *)
Lemma shift_left l a : (a <= length l <= 4)%nat ->
  wrap 32 (Z.shiftl (le_value l) (8 * (4 - Z.of_nat a))) = 256 ^ Z.of_nat (4 - a) * le_value (take a l).
Proof.
  intros Ha. replace (8 * (4 - Z.of_nat a)) with (8 * Z.of_nat (4 - a)) by lia. rewrite Z.shiftl_mul_pow2, pow256 by lia.
  rewrite (le_value_take_drop a l) by lia. unfold wrap. change (2 ^ 32) with (256 ^ 4).
  pose proof (le_value_lt (take a l) a ltac:(rewrite length_take; lia)). pose proof (pow256_pos (4 - a)).
  replace ((_ + _) * 256 ^ Z.of_nat (4 - a)) with
    (256 ^ Z.of_nat (4 - a) * le_value (take a l) + le_value (drop a l) * (256 ^ Z.of_nat a * 256 ^ Z.of_nat (4 - a))) by lia.
  rewrite <- Z.pow_add_r by lia. replace (Z.of_nat a + Z.of_nat (4 - a)) with 4 by lia. rewrite Z_mod_plus_full.
  apply Z.mod_small. split; [nia|].
  replace (256 ^ 4) with (256 ^ Z.of_nat (4 - a) * 256 ^ Z.of_nat a); [nia|].
  rewrite <- Z.pow_add_r by lia. f_equal. lia.
Qed.

(** The two parts together. *)
Lemma join_parts p l a : (a <= length l <= 4)%nat -> length p = (4 - a)%nat ->
  Z.lor (le_value p) (wrap 32 (Z.shiftl (le_value l) (8 * (4 - Z.of_nat a)))) = le_value (p ++ take a l).
Proof.
  intros Ha Hp. rewrite shift_left by done. rewrite le_value_app, Hp. pose proof (le_value_bound p) as Hb. rewrite Hp in Hb.
  rewrite Z.lor_comm, (Z.mul_comm (256 ^ _)), <- pow256, lor_add; rewrite ?pow256; lia.
Qed.

Lemma or2 d0 d1 : 0 <= d0 < 256 -> Z.lor (Z.shiftl d1 8) d0 = d0 + 256 * d1.
Proof. intros H. rewrite Z.lor_comm, lor_shift; lia. Qed.

Lemma or3 d0 d1 d2 : 0 <= d0 < 256 -> 0 <= d1 < 256 ->
  Z.lor (Z.lor (Z.shiftl d2 16) (Z.shiftl d1 8)) d0 = d0 + 256 * (d1 + 256 * d2).
Proof.
  intros H0 H1. rewrite <- Z.lor_assoc, or2 by done. rewrite Z.lor_comm, lor_shift; lia.
Qed.

Lemma switch_or_ok n data : (n <= 3)%nat -> (n <= length data)%nat -> switch_or n 0 data = Ok (le_value (take n data)).
Proof.
  intros Hn Hl. destruct n as [|[|[|[|n]]]]; [done|..|lia]; destruct data as [|c0 [|c1 [|c2 data]]]; cbn [length] in Hl; try lia;
    unfold switch_or, at_; cbn -[Z.lor Z.shiftl Z.mul Z.add]; f_equal; rewrite ?Z.lor_0_l, ?Z.mul_0_r, ?Z.add_0_r; try done.
  - by rewrite or2 by apply uchar_range.
  - by rewrite or2 by apply uchar_range.
  - by rewrite or3 by apply uchar_range.
Qed.

Lemma switch_xor_ok n t data : (n <= 3)%nat -> (n <= length data)%nat ->
  switch_xor n t data = Ok (Z.lxor t (le_value (take n data))).
Proof.
  intros Hn Hl. destruct n as [|[|[|[|n]]]]; [by rewrite Z.lxor_0_r|..|lia]; destruct data as [|c0 [|c1 [|c2 data]]]; cbn [length] in Hl; try lia;
    unfold switch_xor, at_; cbn -[Z.lxor Z.shiftl Z.mul Z.add]; f_equal; rewrite ?Z.mul_0_r, ?Z.add_0_r; try done;
    pose proof (uchar_range c0); try pose proof (uchar_range c1); rewrite !Z.lxor_assoc; f_equal.
  - rewrite lxor_shift; lia.
  - rewrite lxor_shift; lia.
  - rewrite (lxor_shift (uchar c1)) by lia. rewrite lxor_shift; lia.
Qed.

(** ** The variants of MurmurHash2 *)

Lemma tail_bytes_ok h data : (length data < 4)%nat -> tail_bytes h data = Ok (murmur_loop h data).
Proof. intros Hl. destruct data as [|c0 [|c1 [|c2 [|c3 data]]]]; cbn [length] in Hl; try lia; reflexivity. Qed.

(** The tail in one step. *)
Lemma murmur_tail h data : (0 < length data < 4)%nat -> murmur_loop h data = wrap 32 (Z.lxor h (le_value data) * m).
Proof.
  intros Hl. pose proof (tail_bytes_ok h data ltac:(lia)) as Ht. unfold tail_bytes in Ht.
  destruct (length data) as [|k] eqn:E; [lia|]. rewrite switch_xor_ok in Ht by lia. rewrite <- E, firstn_all in Ht. cbn in Ht. by injection Ht.
Qed.

(** Induction on the words of a text. *)
Lemma words_ind (P : str -> Prop) :
  (forall data, (length data < 4)%nat -> P data) ->
  (forall b0 b1 b2 b3 data, P data -> P (b0 :: b1 :: b2 :: b3 :: data)) -> forall data, P data.
Proof.
  intros H0 H1 data. enough (H : forall n (data : str), (length data <= n)%nat -> P data) by by apply (H (length data)).
  induction n as [|n IH]; intros d Hn.
  - apply H0. lia.
  - destruct d as [|b0 [|b1 [|b2 [|b3 d]]]]; [apply H0; cbn; lia..|]. apply H1, IH. cbn in Hn. lia.
Qed.

Lemma neutral_loop_ok data : forall h, neutral_loop h data = Ok (murmur_loop h data).
Proof.
  induction data as [data Hl|b0 b1 b2 b3 data IH] using words_ind; intros h.
  - destruct data as [|c0 [|c1 [|c2 [|c3 data]]]]; cbn [length] in Hl; try lia; reflexivity.
  - cbn [neutral_loop murmur_loop]. cbv zeta. rewrite IH. do 3 f_equal. unfold word.
    pose proof (uchar_range b0). pose proof (uchar_range b1). pose proof (uchar_range b2).
    rewrite (lor_shift (uchar b1)), (lor_shift (uchar b2)), (lor_shift (uchar b3)); lia.
Qed.

Lemma aligned_loop_ok a data : (1 <= a <= 3)%nat -> forall h t p, length p = (4 - a)%nat ->
  Z.shiftr t (8 * Z.of_nat a) = le_value p ->
  exists h' t' p' data', aligned_loop a h t data = (h', t', data') /\ (length data' < 4)%nat /\ length p' = (4 - a)%nat /\
    Z.shiftr t' (8 * Z.of_nat a) = le_value p' /\ murmur_loop h (p ++ data) = murmur_loop h' (p' ++ data').
Proof.
  intros Ha. induction data as [data Hl|b0 b1 b2 b3 data IH] using words_ind; intros h t p Hp Ht.
  - exists h, t, p, data. split_and!; try done. destruct data as [|c0 [|c1 [|c2 [|c3 data]]]]; cbn [length] in Hl; try lia; reflexivity.
  - cbn [aligned_loop]. cbv zeta. rewrite Ht, word_le, join_parts by (cbn; lia).
    destruct (IH (mix h (le_value (p ++ take a [b0; b1; b2; b3]))) (le_value [b0; b1; b2; b3]) (drop a [b0; b1; b2; b3]))
      as (h' & t' & p' & d' & E & Hl' & Hp' & Ht' & Hm).
    { rewrite length_drop. cbn. lia. }
    { apply shift_right. cbn. lia. }
    exists h', t', p', d'. split_and!; try done. rewrite <- Hm.
    assert (Hw : exists w0 w1 w2 w3, p ++ take a [b0; b1; b2; b3] = [w0; w1; w2; w3]).
    { assert (Hlen : length (p ++ take a [b0; b1; b2; b3]) = 4%nat) by (rewrite length_app, length_take; cbn; lia).
      destruct (p ++ _) as [|w0 [|w1 [|w2 [|w3 [|]]]]]; cbn in Hlen; try lia. by eexists _, _, _, _. }
    destruct Hw as (w0 & w1 & w2 & w3 & Hw). rewrite Hw, <- word_le.
    change (b0 :: b1 :: b2 :: b3 :: data) with ([b0; b1; b2; b3] ++ data). rewrite <- (take_drop a [b0; b1; b2; b3]) at 1.
    rewrite <- !app_assoc, (app_assoc p), Hw. done.
Qed.

Lemma aligned_rest_ok a h t p data : (1 <= a <= 3)%nat -> (length data < 4)%nat -> length p = (4 - a)%nat ->
  Z.shiftr t (8 * Z.of_nat a) = le_value p -> aligned_rest a h t data = Ok (murmur_loop h (p ++ data)).
Proof.
  intros Ha Hl Hp Ht. unfold aligned_rest. cbv zeta. rewrite Ht. destruct (Nat.leb_spec a (length data)) as [Hle|Hgt].
  - rewrite switch_or_ok by lia. cbn [mbind outcome_bind].
    pose proof (join_parts p (take a data) a ltac:(rewrite length_take; lia) Hp) as Hj. rewrite take_take, Nat.min_id in Hj. rewrite Hj.
    rewrite tail_bytes_ok by (rewrite length_drop; lia). f_equal.
    assert (Hlen : length (p ++ take a data) = 4%nat) by (rewrite length_app, length_take; lia).
    rewrite <- (take_drop a data) at 3. rewrite app_assoc.
    destruct (p ++ take a data) as [|w0 [|w1 [|w2 [|w3 [|]]]]]; cbn in Hlen; try lia. by rewrite <- word_le.
  - rewrite switch_or_ok by lia. cbn [mbind outcome_bind]. rewrite firstn_all. f_equal.
    rewrite murmur_tail by (rewrite length_app; lia). do 3 f_equal.
    assert (Hw : wrap 32 (Z.shiftl (le_value data) (8 * (4 - Z.of_nat a))) = Z.shiftl (le_value data) (8 * Z.of_nat (4 - a))).
    { replace (8 * (4 - Z.of_nat a)) with (8 * Z.of_nat (4 - a)) by lia. apply wrap_small. unfold in_u.
      rewrite Z.shiftl_mul_pow2, pow256 by lia. pose proof (le_value_lt data a ltac:(lia)). pose proof (pow256_pos (4 - a)).
      change (2 ^ 32) with (256 ^ 4). replace (256 ^ 4) with (256 ^ Z.of_nat a * 256 ^ Z.of_nat (4 - a)); [nia|].
      rewrite <- Z.pow_add_r by lia. f_equal. lia. }
    rewrite Hw, lor_shift, pow256, le_value_app, Hp; [lia|lia|]. rewrite pow256. apply le_value_lt. lia.
Qed.

(** The variants compute [MurmurHash2], on every key: the one that reads byte by byte, and
    the one that reads aligned words, wherever the key lies; none reads past the key. *)
Theorem murmur_variants_agree (key : str) (seed : Z) (align : nat) :
  (align < 4)%nat ->
  MurmurHashNeutral2 key seed = Ok (MurmurHash2 key seed) /\
  MurmurHashAligned2 align key seed = Ok (MurmurHash2 key seed).
Proof.
  intros Ha. split; [unfold MurmurHashNeutral2; by rewrite neutral_loop_ok|]. unfold MurmurHashAligned2.
  destruct (Nat.eqb_spec align 0) as [|Hne]; [done|]. destruct (Nat.leb_spec 4 (length key)) as [Hl|]; [|done]. cbn [negb andb].
  rewrite switch_or_ok by lia. cbn [mbind outcome_bind].
  set (h := Z.lxor seed _). set (t := wrap 32 _).
  assert (Ht : Z.shiftr t (8 * Z.of_nat align) = le_value (take (4 - align) key)).
  { subst t. replace (8 * Z.of_nat align) with (8 * (4 - Z.of_nat (4 - align))) at 1 by lia.
    set (l := take (4 - align) key). assert (Hlen : length l = (4 - align)%nat) by (subst l; rewrite length_take; lia).
    rewrite shift_left by lia. rewrite <- Hlen at 2. rewrite firstn_all, Z.shiftr_div_pow2, pow256 by lia.
    replace (4 - (4 - align))%nat with align by lia. rewrite Z.mul_comm, Z.div_mul; [done|]. pose proof (pow256_pos align). lia. }
  destruct (aligned_loop_ok align (drop (4 - align) key) ltac:(lia) h t (take (4 - align) key)) as (h' & t' & p' & d' & -> & Hl' & Hp' & Ht' & Hm);
    [rewrite length_take; lia|done|].
  rewrite (aligned_rest_ok align h' t' p' d') by (done || lia). cbn [mbind outcome_bind]. rewrite <- Hm, take_drop. done.
Qed.

Lemma murmur_variants_agree_witness :
  (3 < 4)%nat /\ MurmurHashAligned2 3 (lit "incremental") 7 = Ok (MurmurHash2 (lit "incremental") 7).
Proof. split; [lia|]. apply (murmur_variants_agree (lit "incremental") 7 3). lia. Defined.

(** ** The incremental hash *)

Lemma words_short h data : (length data < 4)%nat -> words h data = (h, data).
Proof. intros Hl. destruct data as [|c0 [|c1 [|c2 [|c3 data]]]]; cbn [length] in Hl; try lia; reflexivity. Qed.

Lemma words_rest data : forall h, (length (words h data).2 < 4)%nat.
Proof. induction data as [data Hl|b0 b1 b2 b3 data IH] using words_ind; intros h; [by rewrite words_short|apply IH]. Qed.

(** The words of a text that continues another. *)
Lemma words_app x y : forall h, words h (x ++ y) = words (words h x).1 ((words h x).2 ++ y).
Proof.
  induction x as [x Hl|b0 b1 b2 b3 x IH] using words_ind; intros h; [by rewrite (words_short h x)|].
  cbn [app words]. apply IH.
Qed.

(** The hasher has seen a text with the words mixed into [h] and the rest [r]. *)
Definition holds (s : CMurmurHash2A) (h : Z) (r : str) : Prop :=
  m_hash s = h /\ m_tail s = le_value r /\ m_count s = Z.of_nat (length r) /\ (length r < 4)%nat.

Lemma MixTail_ok data : forall s h r, holds s h r ->
  let '(s', data') := MixTail s data in
  m_size s' = m_size s /\
  exists h' r', holds s' h' r' /\ words h (r ++ data) = words h' (r' ++ data') /\
    (data' = [] \/ r' = [] /\ data = data' \/ r' = [] /\ (4 <= length data')%nat) /\
    ((length data < 4)%nat -> data' = []).
Proof.
  induction data as [|c data IH]; intros s h r Hs; cbn [MixTail].
  { split; [done|]. exists h, r. split_and!; try done. by left. }
  pose proof Hs as (Hh & Ht & Hc & Hl).
  destruct ((length (c :: data) <? 4)%nat || negb (m_count s =? 0)) eqn:Hg.
  - assert (Hle : Z.lor (m_tail s) (wrap 32 (Z.shiftl (uchar c) (m_count s * 8))) = le_value (r ++ [c])).
    { rewrite Ht, Hc, le_value_app. cbn [le_value]. pose proof (uchar_range c). pose proof (le_value_bound r) as Hb.
      replace (Z.of_nat (length r) * 8) with (8 * Z.of_nat (length r)) by lia.
      assert (Hp : 0 < 256 ^ Z.of_nat (length r) <= 256 ^ 3) by (split; [apply pow256_pos|apply Z.pow_le_mono_r; lia]).
      rewrite wrap_small; [rewrite lor_shift, pow256; [lia|lia|by rewrite pow256]|]. unfold in_u. rewrite Z.shiftl_mul_pow2, pow256 by lia.
      change (256 ^ 3) with 16777216 in Hp. change (2 ^ 32) with (256 * 16777216). nia. }
    rewrite Hle. assert (Hcount : wrap 32 (m_count s + 1) = Z.of_nat (length (r ++ [c]))).
    { rewrite length_app. cbn. rewrite wrap_small by (unfold in_u; lia). lia. }
    rewrite Hcount. set (s1 := if _ =? 4 then _ else _).
    assert (H1 : exists h1 r1, holds s1 h1 r1 /\ m_size s1 = m_size s /\ words h (r ++ c :: data) = words h1 (r1 ++ data)).
    { subst s1. rewrite length_app. cbn [length]. destruct (Z.eqb_spec (Z.of_nat (length r + 1)) 4) as [E4|Hne].
      - destruct r as [|c0 [|c1 [|c2 [|? r]]]]; cbn [length] in *; try lia.
        exists (mix h (word c0 c1 c2 c)), []. split_and!; [|done|done]. rewrite Hh, word_le. split_and!; [done..|cbn; lia].
      - exists h, (r ++ [c]). split_and!; [|done|by rewrite <- app_assoc].
        split_and!; cbn [m_hash m_tail m_count]; try done; rewrite length_app; cbn; lia. }
    destruct H1 as (h1 & r1 & Hs1 & Hz & Hw). specialize (IH s1 h1 r1 Hs1). destruct (MixTail s1 data) as [s' data'].
    destruct IH as (Hz' & h' & r' & Hs' & Hw' & Hcase & Hshort). split; [congruence|]. exists h', r'. split_and!; [done|congruence| |].
    + destruct Hcase as [->|[[-> E]|[-> ?]]]; [by left| |by right; right].
      destruct (Nat.ltb_spec (length data') 4); [left|by right; right]. apply Hshort. by rewrite E.
    + intros Hd. apply Hshort. cbn in Hd. lia.
  - apply orb_false_iff in Hg as [Hg1 Hg2]. apply Nat.ltb_ge in Hg1. apply negb_false_iff, Z.eqb_eq in Hg2.
    split; [done|]. exists h, r. destruct r; [|cbn in Hc; lia]. split_and!; try done; [by right; left|]. lia.
Qed.

Lemma Add_ok data s h r : holds s h r ->
  holds (Add data s) (words h (r ++ data)).1 (words h (r ++ data)).2 /\
  m_size (Add data s) = wrap 32 (m_size s + Z.of_nat (length data)).
Proof.
  intros Hs. unfold Add. set (s0 := mk_hasher _ _ _ _).
  pose proof (MixTail_ok data s0 h r Hs) as H0. destruct (MixTail s0 data) as [s1 d1].
  destruct H0 as (Hz1 & h1 & r1 & Hs1 & Hw & Hcase & _). rewrite Hw.
  assert (Hmid : words h1 (r1 ++ d1) = words h1 d1 /\ r1 = [] \/ d1 = []).
  { destruct Hcase as [->|[[-> _]|[-> _]]]; [by right|by left..]. }
  pose proof Hs1 as (Eh & _). rewrite Eh. pose proof (words_rest d1 h1) as Hr. destruct Hmid as [[E ->]| ->].
  - rewrite E. destruct (words h1 d1) as [h2 d2] eqn:Ew. set (s2 := mk_hasher _ _ _ _).
    assert (Hs2 : holds s2 h2 []) by (destruct Hs1 as (_ & ? & ? & _); split_and!; [done..|cbn; lia]).
    pose proof (MixTail_ok d2 s2 h2 [] Hs2) as H2. destruct (MixTail s2 d2) as [s3 d3]. cbn [fst snd] in *.
    destruct H2 as (Hz3 & h3 & r3 & Hs3 & Hw3 & _ & Hd3). specialize (Hd3 Hr). subst d3. rewrite app_nil_r in Hw3. cbn in Hw3.
    rewrite !words_short in Hw3; [|by destruct Hs3 as (_ & _ & _ & ?)|done]. injection Hw3 as -> ->. split; [done|]. rewrite Hz3. exact Hz1.
  - rewrite app_nil_r. rewrite words_short by by destruct Hs1 as (_ & _ & _ & ?). cbn. rewrite words_short by by destruct Hs1 as (_ & _ & _ & ?). destruct Hs1 as (? & ? & ? & ?). by split_and!.
Qed.

Lemma adds_ok chunks : forall s h r n, holds s h r -> m_size s = wrap 32 n ->
  let s' := fold_left (fun s c => Add c s) chunks s in
  holds s' (words h (r ++ concat chunks)).1 (words h (r ++ concat chunks)).2 /\
  m_size s' = wrap 32 (n + Z.of_nat (length (concat chunks))).
Proof.
  induction chunks as [|c chunks IH]; intros s h r n Hs Hz; cbn [fold_left concat].
  - rewrite app_nil_r, words_short by by destruct Hs as (_ & _ & _ & ?). cbn. split; [done|]. by rewrite Z.add_0_r.
  - destruct (Add_ok c s h r Hs) as [Hs' Hz']. rewrite Hz in Hz'. unfold wrap in Hz' at 1 2. rewrite Zplus_mod_idemp_l in Hz'.
    destruct (IH (Add c s) _ _ _ Hs' Hz') as [H1 H2]. split.
    + by rewrite app_assoc, words_app.
    + rewrite H2, length_app. f_equal. lia.
Qed.

(** The incremental hash does not depend on how the text is cut into pieces: after any
    [Add]s, [End] gives what [MurmurHash2A] computes of the whole text. *)
Theorem murmur_incremental (chunks : list str) (seed : Z) :
  MurmurHash2A (concat chunks) seed = Ok (End_ (fold_left (fun s c => Add c s) chunks (Begin seed))).
Proof.
  destruct (adds_ok chunks (Begin seed) seed [] 0) as [(Hh & Ht & _ & Hl) Hz]; [split_and!; [done..|cbn; lia]|done|].
  unfold MurmurHash2A, End_. rewrite Hh, Ht, Hz. cbn [app] in *. destruct (words seed (concat chunks)) as [h r]. cbn [fst snd] in *.
  rewrite switch_xor_ok, firstn_all, Z.lxor_0_l by lia. done.
Qed.
