(* ===== verification/Socks4a.v ===== *)
(** * The handshake of the SOCKS4a proxy

    Models learn-cxx/asio/socks4a/tunnel.cpp up to the forwarding loops, which are those of
    the SOCKS5 proxy (Relay): [ReadRequestPacket] with its stages and [ConnectRemote].  As in
    Socks5 an asynchronous operation is a node of a program with its handler behind it; what
    is new is [async_read_until], which may take more from the socket than it was asked for
    and leaves it in [io_client_buf_].  The host is little-endian. *)

From S2P Require Import Prelude Endian Socks5.

#[local] Open Scope Z_scope.

Definition nul : ascii := chr 0.

(** [ReadUntil buf k]: [async_read_until] the next NUL with [io_client_buf_] as it is; the
    handler gets how many bytes there are up to the NUL, or an error, and the buffer. *)
Inductive io4 :=
| Read (n : nat) (k : option str -> io4)
| ReadUntil (buf : str) (k : option nat -> str -> io4)
| Write (data : str) (k : bool -> io4)
| Resolve (name : str) (port : Z) (k : option (list endpoint) -> io4)
| Connect (endpoints : list endpoint) (k : option endpoint -> io4)
| ShutdownSend (k : io4)
| ThrowBadCast
| Tunneling (remote : endpoint)
| Stop.

Record RequestPacket := mk_Request {
  ver : Z; cmd : Z; dest_port : Z; dest_ip : Z; user_id : str; domain : str
}.

Definition kPreambleSize : nat := 8.
Definition kVer4 : Z := 4.
Definition kCmdConnect : Z := 1.
Definition k4aMask : Z := 256.

Definition Valid (p : RequestPacket) : bool :=
  if negb (ver p =? kVer4) || negb (cmd p =? kCmdConnect) || (dest_port p =? 0) || (dest_ip p =? 0) then false
  else negb ((dest_ip p <? k4aMask) && match domain p with [] => true | _ => false end).

Section Tunnel.
Context (byteswap : nat -> Z -> Z).

Definition kRejectedResp : str := bytes [0; 0x5B; 0x2B; 0x2B; 0x2B; 0x2B; 0x2B; 0x2B].

(** Both directions are shut down for writing, whatever comes of it. *)
Definition ForceClose : io4 := ShutdownSend Stop.

Definition RejectClient : io4 := Write kRejectedResp (fun _ => ShutdownSend Stop).

Definition port_of (e : endpoint) : Z := match e with V4 _ p | V6 _ p | Resolved _ _ p => p end.

(** [to_v4]: an address of another kind throws.  [Resolved] does not occur here: what a name
    resolves to are addresses. *)
Definition to_v4 (e : endpoint) : option Z := match e with V4 ip _ => Some ip | _ => None end.

Definition granted_resp (port ip : Z) : str :=
  let resp := bytes [0; 0x5A; 0x2A; 0x2A; 0x2A; 0x2A; 0x2A; 0x2A] in
  take 2 resp ++ le_bytes 2 (byteswap 2 port) ++ be_bytes 4 ip.

Definition ConnectEndpoints (endpoints : list endpoint) : io4 :=
  Connect endpoints (fun remote =>
    match remote with
    | None => RejectClient
    | Some remote =>
        match to_v4 remote with
        | None => ThrowBadCast
        | Some ip => Write (granted_resp (port_of remote) ip) (fun ok => if ok then Tunneling remote else ForceClose)
        end
    end).

Definition ConnectRemote (packet : RequestPacket) : io4 :=
  match domain packet with
  | [] => ConnectEndpoints [V4 (dest_ip packet) (dest_port packet)]
  | _ => Resolve (domain packet) (dest_port packet) (fun results =>
           match results with None => RejectClient | Some endpoints => ConnectEndpoints endpoints end)
  end.

(** The stages of [ReadRequestPacket], the last one first. *)
Definition Complete (packet : RequestPacket) : io4 :=
  if negb (Valid packet) then RejectClient else ConnectRemote packet.

Definition Domain (packet : RequestPacket) (io_client_buf : str) : io4 :=
  ReadUntil io_client_buf (fun r buf =>
    match r with
    | None => RejectClient
    | Some bytes =>
        Complete (if (1 <? bytes)%nat
                  then mk_Request (ver packet) (cmd packet) (dest_port packet) (dest_ip packet) (user_id packet) (take (bytes - 1) buf)
                  else packet)
    end).

Definition UserId (packet : RequestPacket) (io_client_buf : str) : io4 :=
  ReadUntil io_client_buf (fun r buf =>
    match r with
    | None => RejectClient
    | Some bytes =>
        let p := if (1 <? bytes)%nat
                 then mk_Request (ver packet) (cmd packet) (dest_port packet) (dest_ip packet) (take (bytes - 1) buf) (domain packet)
                 else packet in
        let buf := drop bytes buf in
        if dest_ip p <? 256 then Domain p buf else Complete p
    end).

Definition Preamble : io4 :=
  Read kPreambleSize (fun r =>
    match r with
    | None => RejectClient
    | Some raw =>
        let port := le_value (take 2 (drop 2 raw)) in
        let ip := le_value (take 4 (drop 4 raw)) in
        UserId (mk_Request (le_value (take 1 raw)) (le_value (take 1 (drop 1 raw)))
                           (byteswap 2 port) (byteswap 4 ip) [] []) []
    end).

Definition Run4 : io4 := Preamble.
End Tunnel.

(** ** Running the handshake *)

(** Where the first NUL is. *)
Fixpoint find_nul (s : str) : option nat :=
  match s with
  | [] => None
  | c :: s => if decide (c = nul) then Some O else S <$> find_nul s
  end.

(** [async_read_until]: reads from the socket come with one byte more than [chunks] says; when
    it says no more, with all there is.  What it found, the buffer, the input and the chunks
    afterwards. *)
Fixpoint read_until (chunks : list nat) (buf input : str) : option nat * str * str * list nat :=
  match find_nul buf with
  | Some i => (Some (S i), buf, input, chunks)
  | None =>
      match chunks with
      | [] => (S <$> find_nul (buf ++ input), buf ++ input, [], [])
      | c :: chunks =>
          match input with
          | [] => (None, buf, [], chunks)
          | _ => read_until chunks (buf ++ take (S c) input) (drop (S c) input)
          end
      end
  end.

Inductive result4 := Tunneled4 (remote : endpoint) (rest : str) | Closed4 | Thrown4.

Fixpoint run4 (w : world) (chunks : list nat) (p : io4) (input : str) : list event * result4 :=
  match p with
  | Read n k =>
      if (n <=? length input)%nat then run4 w chunks (k (Some (take n input))) (drop n input)
      else run4 w chunks (k None) []
  | ReadUntil buf k =>
      let '(r, buf, input, chunks) := read_until chunks buf input in run4 w chunks (k r buf) input
  | Write data k =>
      let n := goes_out w data in
      also (Sent (take n data)) (run4 w chunks (k (length data <=? n)%nat) input)
  | Resolve name port k => also (Resolves name port) (run4 w chunks (k (resolve w name port)) input)
  | Connect eps k => also (Connects eps) (run4 w chunks (k (connect w eps)) input)
  | ShutdownSend k => also ClientShutdown (run4 w chunks k input)
  | ThrowBadCast => ([], Thrown4)
  | Tunneling remote => ([], Tunneled4 remote input)
  | Stop => ([], Closed4)
  end.

(** ** The messages of the protocol *)

(** The name follows only an address of the form 0.0.0.x. *)
Definition request4 (ver cmd : ascii) (port ip : Z) (user name : str) : str :=
  [ver; cmd] ++ be_bytes 2 port ++ be_bytes 4 ip ++ user ++ [nul] ++ (if ip <? k4aMask then name ++ [nul] else []).

Definition rejected4 : list event := [Sent kRejectedResp; ClientShutdown].

(** What is answered when the proxy is to connect to one of [endpoints]. *)
Definition connected4 (w : world) (endpoints : list endpoint) (rest : str) : list event * result4 :=
  match connect w endpoints with
  | None => (Connects endpoints :: rejected4, Closed4)
  | Some remote =>
      match to_v4 remote with
      | None => ([Connects endpoints], Thrown4)
      | Some ip => ([Connects endpoints; Sent (bytes [0; 0x5A] ++ be_bytes 2 (port_of remote) ++ be_bytes 4 ip)], Tunneled4 remote rest)
      end
  end.

Definition answer4 (w : world) (ver cmd : ascii) (port ip : Z) (name rest : str) : list event * result4 :=
  if negb (uchar ver =? 4) || negb (uchar cmd =? 1) || (port =? 0) || (ip =? 0) then (rejected4, Closed4)
  else if k4aMask <=? ip then connected4 w [V4 ip port] rest
  else match name with
       | [] => (rejected4, Closed4)
       | _ => match resolve w name port with
              | None => (Resolves name port :: rejected4, Closed4)
              | Some endpoints => also (Resolves name port) (connected4 w endpoints rest)
              end
       end.

(** ** Lemmas *)

Lemma find_nul_app x y : nul ∉ x -> find_nul (x ++ nul :: y) = Some (length x).
Proof.
  induction x as [|c x IH]; intros Hx; cbn [app find_nul]; [by rewrite decide_True|].
  apply not_elem_of_cons in Hx as [Hc Hx]. rewrite decide_False by done. by rewrite IH.
Qed.

Lemma find_nul_some s i : find_nul s = Some i -> exists x y, s = x ++ nul :: y /\ nul ∉ x /\ length x = i.
Proof.
  revert i; induction s as [|c s IH]; cbn; intros i H; [done|]. case_decide as Hc.
  - injection H as <-. exists [], s. subst c. split; [done|]. split; [by apply not_elem_of_nil|done].
  - destruct (find_nul s) as [j|]; [|done]. injection H as <-. destruct (IH j eq_refl) as (x & y & -> & Hx & <-).
    exists (c :: x), y. split; [done|]. split; [|done]. by apply not_elem_of_cons.
Qed.

(** What comes before the first NUL is determined. *)
Lemma nul_split x y x' y' : nul ∉ x -> nul ∉ x' -> x ++ nul :: y = x' ++ nul :: y' -> x = x' /\ y = y'.
Proof.
  intros Hx Hx' E. pose proof (find_nul_app x y Hx) as H1. rewrite E, (find_nul_app x' y' Hx') in H1. injection H1 as H1.
  apply app_inj_1 in E; [|done]. destruct E as [-> [= ->]]. done.
Qed.

(** Whatever the sizes of the reads, a field that ends with a NUL is found; what the reads
    took too much stays in the buffer. *)
Lemma read_until_field chunks : forall buf input x y, nul ∉ x -> buf ++ input = x ++ nul :: y ->
  exists buf' input' chunks', read_until chunks buf input = (Some (S (length x)), x ++ nul :: buf', input', chunks') /\
    buf' ++ input' = y.
Proof.
  assert (Hfound : forall buf input x y i, nul ∉ x -> buf ++ input = x ++ nul :: y -> find_nul buf = Some i ->
    i = length x /\ exists b, buf = x ++ nul :: b /\ b ++ input = y).
  { intros buf input x y i Hx E Hf. destruct (find_nul_some _ _ Hf) as (x' & b & -> & Hx' & <-).
    rewrite <- app_assoc in E. cbn in E. destruct (nul_split x' (b ++ input) x y Hx' Hx E) as [-> <-]. split; [done|]. by exists b. }
  induction chunks as [|c chunks IH]; intros buf input x y Hx E; cbn [read_until].
  - destruct (find_nul buf) as [i|] eqn:Hf.
    + destruct (Hfound _ _ _ _ _ Hx E Hf) as (-> & b & -> & Hb). by eexists b, input, _.
    + rewrite E, find_nul_app by done. exists y, [], []. by rewrite app_nil_r.
  - destruct (find_nul buf) as [i|] eqn:Hf.
    + destruct (Hfound _ _ _ _ _ Hx E Hf) as (-> & b & -> & Hb). by eexists b, input, _.
    + destruct input as [|d input].
      * rewrite app_nil_r in E. rewrite E, find_nul_app in Hf by done. done.
      * apply IH; [done|]. by rewrite <- app_assoc, take_drop.
Qed.

Section Handshake4.
Context (byteswap : nat -> Z -> Z) (Hswap : byteswap_ok byteswap) (w : world) (Hw : writes_ok w).
Hypothesis Hports : forall eps e, connect w eps = Some e -> u16 (port_of e).

Lemma run4_write (chunks : list nat) data k input :
  run4 w chunks (Write data k) input = also (Sent data) (run4 w chunks (k true) input).
Proof using Hw. cbn. rewrite take_ge by apply Hw. by rewrite (proj2 (Nat.leb_le _ _)) by apply Hw. Qed.

Lemma run4_reject (chunks : list nat) input : run4 w chunks RejectClient input = (rejected4, Closed4).
Proof using Hw. unfold RejectClient. by rewrite run4_write. Qed.

Lemma run4_connect (chunks : list nat) eps input : run4 w chunks (ConnectEndpoints byteswap eps) input = connected4 w eps input.
Proof using Hw Hswap Hports.
  unfold ConnectEndpoints, connected4. cbn [run4]. destruct (connect w eps) as [remote|] eqn:E; [|by rewrite run4_reject].
  destruct (to_v4 remote) as [ip|]; [|done]. rewrite run4_write. cbn [run4]. unfold also. cbn [fst snd]. do 4 f_equal.
  unfold granted_resp. rewrite le_bytes_byteswap; [done|done|]. by apply (Hports eps).
Qed.

(** What [Complete] does does not depend on the reads. *)
Definition completed (p : RequestPacket) (rest : str) : list event * result4 :=
  if negb (Valid p) then (rejected4, Closed4)
  else match domain p with
       | [] => connected4 w [V4 (dest_ip p) (dest_port p)] rest
       | _ => match resolve w (domain p) (dest_port p) with
              | None => (Resolves (domain p) (dest_port p) :: rejected4, Closed4)
              | Some eps => also (Resolves (domain p) (dest_port p)) (connected4 w eps rest)
              end
       end.

Lemma run4_complete (chunks : list nat) p rest : run4 w chunks (Complete byteswap p) rest = completed p rest.
Proof using Hw Hswap Hports.
  unfold Complete, completed. destruct (Valid p); cbn [negb]; [|by rewrite run4_reject]. unfold ConnectRemote.
  destruct (domain p) as [|c name]; [by rewrite run4_connect|]. cbn [run4].
  destruct (resolve w _ _) as [eps|]; [by rewrite run4_connect|by rewrite run4_reject].
Qed.

Definition set_user (user : str) (p : RequestPacket) : RequestPacket :=
  mk_Request (ver p) (cmd p) (dest_port p) (dest_ip p) user (domain p).
Definition set_domain (name : str) (p : RequestPacket) : RequestPacket :=
  mk_Request (ver p) (cmd p) (dest_port p) (dest_ip p) (user_id p) name.

(** The field that was read, also when it is empty. *)
Lemma field_read {A} (x y : str) (f : str -> A) (e : A) : f [] = e ->
  (if (1 <? S (length x))%nat then f (take (S (length x) - 1) (x ++ nul :: y)) else e) = f x.
Proof.
  intros He. destruct x as [|c x]; [by rewrite <- He|]. rewrite (proj2 (Nat.ltb_lt _ _)) by (cbn; lia).
  by replace (S (length (c :: x)) - 1)%nat with (length (c :: x)) by lia; rewrite take_app_length.
Qed.

Lemma run4_domain (chunks : list nat) p buf input name rest : nul ∉ name -> domain p = [] -> buf ++ input = name ++ nul :: rest ->
  exists lost kept, rest = lost ++ kept /\ run4 w chunks (Domain byteswap p buf) input = completed (set_domain name p) kept.
Proof using Hw Hswap Hports.
  intros Hn Hd E. destruct (read_until_field chunks buf input name rest Hn E) as (b & i & c & Er & <-).
  exists b, i. split; [done|]. unfold Domain. cbn [run4]. rewrite Er. rewrite run4_complete. f_equal.
  apply (field_read name b (fun n => set_domain n p)). unfold set_domain. rewrite <- Hd. by destruct p.
Qed.

Lemma run4_user (chunks : list nat) p input user rest : nul ∉ user -> user_id p = [] -> input = user ++ nul :: rest ->
  exists c b i, b ++ i = rest /\ run4 w chunks (UserId byteswap p []) input =
    run4 w c (if dest_ip p <? 256 then Domain byteswap (set_user user p) b else Complete byteswap (set_user user p)) i.
Proof using Hw Hswap Hports.
  intros Hu Hd E. destruct (read_until_field chunks [] input user rest Hu E) as (b & i & c & Er & <-).
  exists c, b, i. split; [done|]. unfold UserId. cbn [run4]. rewrite Er.
  rewrite (field_read user b (fun n => set_user n p)) by (unfold set_user; rewrite <- Hd; by destruct p).
  replace (drop (S (length user)) (user ++ nul :: b)) with b; [done|].
  by rewrite (drop_app_add' user (nul :: b) (length user) 1) || (rewrite <- (Nat.add_1_r (length user)), drop_app_add; done).
Qed.
End Handshake4.

(** ** The handshake *)

(** Whatever the sizes of the reads, a SOCKS4 or SOCKS4a request is answered as the
    protocol says: an invalid one is rejected, an address connected to, a name resolved and
    connected to, and the grant carries the endpoint in network byte order.  What the client
    sent right behind its request reaches the tunnel only in part: the bytes that came with
    the request are [lost]. *)
Theorem socks4_serves (byteswap : nat -> Z -> Z) (w : world) (chunks : list nat) (v c : ascii) (port ip : Z) (user name rest : str) :
  byteswap_ok byteswap -> writes_ok w -> (forall eps e, connect w eps = Some e -> u16 (port_of e)) ->
  u16 port -> u32 ip -> nul ∉ user -> nul ∉ name ->
  exists lost kept, rest = lost ++ kept /\
    run4 w chunks (Run4 byteswap) (request4 v c port ip user name ++ rest) = answer4 w v c port ip name kept.
Proof.
  intros Hswap Hw Hports Hp Hi Hu Hn. set (pre := [v; c] ++ be_bytes 2 port ++ be_bytes 4 ip).
  assert (Hpre : length pre = kPreambleSize) by (unfold pre; rewrite !length_app, !length_be_bytes; done).
  set (p := mk_Request (uchar v) (uchar c) port ip [] []).
  assert (H1 : forall tail, run4 w chunks (Run4 byteswap) (pre ++ tail) = run4 w chunks (UserId byteswap p []) tail).
  { intros tail. unfold Run4, Preamble. cbn [run4]. rewrite length_app, Hpre, (proj2 (Nat.leb_le _ _)) by lia.
    rewrite <- Hpre, take_app_length, drop_app_length.
    assert (E2 : take 2 (drop 2 pre) = be_bytes 2 port) by (apply take_app_length'; by rewrite length_be_bytes).
    assert (E4 : take 4 (drop 4 pre) = be_bytes 4 ip).
    { change (drop 4 pre) with (drop 2 (be_bytes 2 port ++ be_bytes 4 ip)).
      rewrite drop_app_length' by by rewrite length_be_bytes. apply take_ge. by rewrite length_be_bytes. }
    rewrite E2, E4, !byteswap_le by done. cbn [pre app take drop le_value]. by rewrite Z.mul_0_r, !Z.add_0_r. }
  assert (Hanswer : forall q rest, ver q = uchar v -> cmd q = uchar c -> dest_port q = port -> dest_ip q = ip ->
    domain q = (if ip <? 256 then name else []) -> completed w q rest = answer4 w v c port ip name rest).
  { intros q r E1 E2 E3 E4 E5. unfold completed, answer4, Valid, kVer4, kCmdConnect, k4aMask. rewrite E1, E2, E3, E4, E5.
    destruct (negb (uchar v =? 4) || negb (uchar c =? 1) || (port =? 0) || (ip =? 0)); [done|].
    destruct (Z.ltb_spec ip 256) as [Hlt|Hge]; [rewrite (proj2 (Z.leb_gt _ _)) by done; by destruct name|].
    rewrite (proj2 (Z.leb_le _ _)) by done. done. }
  replace (request4 v c port ip user name ++ rest) with (pre ++ user ++ nul :: (if ip <? k4aMask then name ++ nul :: rest else rest)).
  2:{ unfold request4, pre. rewrite <- !app_assoc. cbn [app]. do 4 f_equal. destruct (ip <? k4aMask); [|done]. by rewrite <- app_assoc. }
  rewrite H1. edestruct (run4_user byteswap Hswap w Hw Hports chunks p) as (c' & b & i & Ebi & ->); [exact Hu|done|reflexivity|].
  cbn [set_user p dest_ip]. unfold k4aMask in Ebi. destruct (Z.ltb_spec ip 256) as [Hlt|Hge].
  - edestruct (run4_domain byteswap Hswap w Hw Hports c' (set_user user p) b i name rest) as (lost & kept & -> & ->); [done..|].
    exists lost, kept. split; [done|]. by apply Hanswer.
  - exists b, i. split; [done|]. rewrite (run4_complete byteswap Hswap w Hw Hports). by apply Hanswer.
Qed.

(** A world in which every name is this host. *)
Definition this_host : world :=
  mk_world (fun data => length data) (fun _ _ => Some [V4 0x7f000001 80]) (fun _ => Some (V4 0x7f000001 80)) 0.

Lemma socks4_serves_witness :
  byteswap_ok bswap /\ exists lost kept, lit "hi" = lost ++ kept /\
    run4 this_host [3%nat; 2%nat] (Run4 bswap) (request4 (chr 4) (chr 1) 80 1 (lit "me") (lit "name") ++ lit "hi") =
    ([Resolves (lit "name") 80; Connects [V4 0x7f000001 80]; Sent (bytes [0; 0x5A; 0; 80; 127; 0; 0; 1])], Tunneled4 (V4 0x7f000001 80) kept).
Proof.
  assert (Hb : byteswap_ok bswap) by done. split; [exact Hb|].
  destruct (socks4_serves bswap this_host [3%nat; 2%nat] (chr 4) (chr 1) 80 1 (lit "me") (lit "name") (lit "hi")) as (lost & kept & E1 & E2).
  - exact Hb.
  - intros data. cbn. lia.
  - intros eps e [= <-]. by vm_compute.
  - by vm_compute.
  - by vm_compute.
  - refine (bool_decide_unpack (nul ∉ lit "me") _); by vm_compute.
  - refine (bool_decide_unpack (nul ∉ lit "name") _); by vm_compute.
  - exists lost, kept. split; [exact E1|]. rewrite E2. reflexivity.
Defined.

(** Bytes that the client sends right behind its request are lost when they arrive
    together with it: all of them, if the request is read in one piece. *)
Theorem socks4_pipelined_lost (rest : str) :
  run4 this_host [] (Run4 bswap) (request4 (chr 4) (chr 1) 80 1 [] (lit "name") ++ rest) =
  ([Resolves (lit "name") 80; Connects [V4 0x7f000001 80]; Sent (bytes [0; 0x5A; 0; 80; 127; 0; 0; 1])], Tunneled4 (V4 0x7f000001 80) []).
Proof. reflexivity. Qed.

(** A name that resolves to an address of version 6 ends the proxy: the exception of
    [to_v4] leaves the handler. *)
Theorem socks4_ipv6_throws (addr : str) (chunks : list nat) :
  let w := mk_world (fun data => length data) (fun _ _ => Some [V6 addr 80]) head 0 in
  run4 w chunks (ConnectRemote bswap (mk_Request 4 1 80 1 [] (lit "name"))) [] =
  ([Resolves (lit "name") 80; Connects [V6 addr 80]], Thrown4).
Proof. reflexivity. Qed.
