(* ===== verification/Dates.v ===== *)
(** * Dates and calendars

    Models "Date Functions/Data Functions Design.cpp": the number of days between two dates,
    the weekday of a date and the printed calendar of a month. *)

From S2P Require Import Prelude.

#[local] Open Scope Z_scope.

Record Date := mk_Date { Year : Z; Month : Z; Day : Z }.

(** C++ remainders have the sign of the dividend ([Z.rem]). *)
Definition IsLeapYear (Year : Z) : bool :=
  ((Z.rem Year 4 =? 0) && negb (Z.rem Year 100 =? 0)) || (Z.rem Year 400 =? 0).

(** An access out of the bounds of the table is undefined. *)
Definition GetDaysPast (date : Date) : outcome Z :=
  let daysPastPerMonth := [31; 59; 90; 120; 151; 181; 212; 243; 273; 304; 334] in
  days ← (if 1 <? Month date then past ← vec_get daysPastPerMonth (Month date - 2); Ok (past + Day date)
          else Ok (Day date));
  Ok (if IsLeapYear (Year date) && (2 <? Month date) then days + 1 else days).

(** The loop over the years from [i], [n] of them. *)
Fixpoint leap_loop (n : nat) (i diff : Z) : Z :=
  match n with
  | O => diff
  | S n => leap_loop n (i + 1) (if IsLeapYear i then diff + 1 else diff)
  end.

Definition DateDiff (dateFirst dateSecond : Date) : outcome Z :=
  day1 ← GetDaysPast dateFirst;
  day2 ← GetDaysPast dateSecond;
  if Year dateFirst =? Year dateSecond then Ok (day2 - day1)
  else
    let diff := day2 - day1 + (Year dateSecond - Year dateFirst) * 365 in
    Ok (leap_loop (Z.to_nat (Year dateSecond - Year dateFirst)) (Year dateFirst) diff).

Definition eraDay : Date := mk_Date 1899 12 31.

(** 0 is Sunday. *)
Definition QueryWeekday (date : Date) : outcome Z :=
  dayDiff ← DateDiff eraDay date; Ok (Z.rem dayDiff 7).

(** What [PrintCalendar] prints after the heading. *)
Inductive item := Tab | Number (i : Z) | EndLine.

Fixpoint print_days (n : nat) (i e : Z) : list item :=
  match n with
  | O => []
  | S n => Number i :: (if Z.rem i 7 =? e then EndLine else Tab) :: print_days n (i + 1) e
  end.

Definition PrintCalendar (Year Month : Z) : outcome (list item) :=
  let daysPerMon := [31; 28; 31; 30; 31; 30; 31; 31; 30; 31; 30; 31] in
  daysTotal ← vec_get daysPerMon (Month - 1);
  let daysTotal := if IsLeapYear Year && (2 =? Month) then daysTotal + 1 else daysTotal in
  firstWeekday ← QueryWeekday (mk_Date Year Month 1);
  let e := if negb (firstWeekday =? 0) then 7 - firstWeekday else 0 in
  Ok (replicate (Z.to_nat firstWeekday) Tab ++ print_days (Z.to_nat daysTotal) 1 e).

(** ** The Gregorian calendar *)

Definition month_days (y m : Z) : Z :=
  match m with
  | 4 | 6 | 9 | 11 => 30
  | 2 => if IsLeapYear y then 29 else 28
  | _ => 31
  end.

Definition valid (d : Date) : Prop := 1 <= Month d <= 12 /\ 1 <= Day d <= month_days (Year d) (Month d).

#[global] Instance valid_dec d : Decision (valid d).
Proof. unfold valid. apply _. Defined.

Definition next_day (d : Date) : Date :=
  if Day d <? month_days (Year d) (Month d) then mk_Date (Year d) (Month d) (Day d + 1)
  else if Month d <? 12 then mk_Date (Year d) (Month d + 1) 1
  else mk_Date (Year d + 1) 1 1.

(** ** Lemmas *)

(** The days of the years before [y], counted from the year [b]. *)
Definition past (d : Date) : Z :=
  let before := match Month d with
                | 1 => 0 | 2 => 31 | 3 => 59 | 4 => 90 | 5 => 120 | 6 => 151 | 7 => 181 | 8 => 212 | 9 => 243 | 10 => 273 | 11 => 304 | _ => 334
                end in
  before + Day d + (if IsLeapYear (Year d) && (2 <? Month d) then 1 else 0).

Lemma month_cases (P : Z -> Prop) : P 1 -> P 2 -> P 3 -> P 4 -> P 5 -> P 6 -> P 7 -> P 8 -> P 9 -> P 10 -> P 11 -> P 12 ->
  forall m, 1 <= m <= 12 -> P m.
Proof.
  intros H1 H2 H3 H4 H5 H6 H7 H8 H9 H10 H11 H12 m Hm.
  assert (m = 1 \/ m = 2 \/ m = 3 \/ m = 4 \/ m = 5 \/ m = 6 \/ m = 7 \/ m = 8 \/ m = 9 \/ m = 10 \/ m = 11 \/ m = 12) as Hc by lia.
  repeat (destruct Hc as [-> |Hc]; [done|]). by subst.
Qed.

(** Reads the tables at the index of a month that is known. *)
#[local] Ltac look_up :=
  try match goal with |- context [vec_get ?t ?i] => let v := eval vm_compute in (vec_get t i) in change (vec_get t i) with v end.

Lemma GetDaysPast_ok d : 1 <= Month d <= 12 -> GetDaysPast d = Ok (past d).
Proof.
  destruct d as [y m dy]. cbn [Month]. intros Hm. revert m Hm. unfold GetDaysPast, past. cbn [Year Month Day].
  apply month_cases; destruct (IsLeapYear y); cbn -[Z.add vec_get]; look_up; cbn -[Z.add]; f_equal; lia.
Qed.

Definition leap (y : Z) : Z := if IsLeapYear y then 1 else 0.

Lemma leap_loop_add n : forall i diff, leap_loop n i diff = diff + leap_loop n i 0.
Proof.
  induction n as [|n IH]; intros i diff; cbn; [lia|]. rewrite (IH _ (if IsLeapYear i then diff + 1 else diff)), (IH _ (if IsLeapYear i then 0 + 1 else 0)).
  destruct (IsLeapYear i); lia.
Qed.

Lemma leap_loop_snoc n : forall i, leap_loop (S n) i 0 = leap_loop n i 0 + leap (i + Z.of_nat n).
Proof.
  induction n as [|n IH]; intros i.
  - cbn. rewrite Z.add_0_r. unfold leap. by destruct (IsLeapYear i).
  - change (leap_loop (S (S n)) i 0) with (leap_loop (S n) (i + 1) (if IsLeapYear i then 0 + 1 else 0)).
    change (leap_loop (S n) i 0) with (leap_loop n (i + 1) (if IsLeapYear i then 0 + 1 else 0)).
    rewrite (leap_loop_add (S n)), IH, (leap_loop_add n _ (if IsLeapYear i then 0 + 1 else 0)). replace (i + 1 + Z.of_nat n) with (i + Z.of_nat (S n)) by lia. lia.
Qed.

Lemma leap_nonneg n : forall b, 0 <= leap_loop n b 0.
Proof.
  induction n as [|n IH]; intros b; cbn [leap_loop]; [lia|]. rewrite leap_loop_add. specialize (IH (b + 1)).
  destruct (IsLeapYear b); lia.
Qed.

Lemma DateDiff_ok d e : 1 <= Month d <= 12 -> 1 <= Month e <= 12 -> Year d <= Year e ->
  DateDiff d e = Ok (past e - past d + (Year e - Year d) * 365 + leap_loop (Z.to_nat (Year e - Year d)) (Year d) 0).
Proof.
  intros Hd He Hy. unfold DateDiff. rewrite !GetDaysPast_ok by done. cbn [mbind outcome_bind].
  destruct (Z.eqb_spec (Year d) (Year e)) as [E|Hne].
  - rewrite E, Z.sub_diag. change (Z.to_nat 0) with O. cbn [leap_loop]. f_equal. lia.
  - f_equal. by rewrite leap_loop_add.
Qed.

(** The case of a month: the last day or not, in a leap year or not. *)
#[local] Ltac konst_add :=
  repeat match goal with |- context [Zpos ?a + Zpos ?b] => let v := eval vm_compute in (Zpos a + Zpos b) in change (Zpos a + Zpos b) with v end.
#[local] Ltac month_case y dy :=
  cbn [month_days Z.ltb Z.compare Pos.compare Pos.compare_cont] in *;
  match goal with |- context [dy <? ?l] => destruct (Z.ltb_spec dy l) end;
  cbn [Year Month Day Z.ltb Z.compare Pos.compare Pos.compare_cont]; konst_add;
  cbn [month_days Z.ltb Z.compare Pos.compare Pos.compare_cont]; rewrite ?andb_true_r, ?andb_false_r;
  destruct (IsLeapYear y); lia.

Lemma past_next d : valid d ->
  1 <= Month (next_day d) <= 12 /\
  (Year (next_day d) = Year d /\ past (next_day d) = past d + 1 \/
   Year (next_day d) = Year d + 1 /\ past (next_day d) = past d + 1 - 365 - leap (Year d)).
Proof.
  destruct d as [y m dy]. intros [Hm Hd]. cbn [Year Month Day] in *. revert m Hm Hd. unfold next_day, past, leap. cbn [Year Month Day].
  apply (month_cases (fun m => _ -> _)); intros Hd; month_case y dy.
Qed.

Lemma valid_next d : valid d -> valid (next_day d).
Proof.
  destruct d as [y m dy]. intros [Hm Hd]. cbn [Year Month Day] in *. revert m Hm Hd. unfold next_day, valid. cbn [Year Month Day].
  apply (month_cases (fun m => _ -> _)); intros Hd; month_case y dy.
Qed.

Lemma past_pos d : valid d -> 1 <= past d <= 366.
Proof.
  destruct d as [y m dy]. intros [Hm Hd]. cbn [Year Month Day] in *. revert m Hm Hd. unfold past. cbn [Year Month Day].
  apply (month_cases (fun m => _ -> _)); intros Hd; cbn [month_days Z.ltb Z.compare Pos.compare Pos.compare_cont] in *;
    rewrite ?andb_true_r, ?andb_false_r; destruct (IsLeapYear y); lia.
Qed.

Fixpoint later (n : nat) (d : Date) : Date := match n with O => d | S n => next_day (later n d) end.

(** The days from the first of January of the year [b]. *)
Definition ordinal (b : Z) (d : Date) : Z := past d + (Year d - b) * 365 + leap_loop (Z.to_nat (Year d - b)) b 0.

Lemma ordinal_next b d : valid d -> b <= Year d -> ordinal b (next_day d) = ordinal b d + 1 /\ b <= Year (next_day d).
Proof.
  intros Hd Hb. destruct (past_next d Hd) as [_ [[Hy Hp]|[Hy Hp]]]; unfold ordinal; rewrite Hy, Hp; [split; lia|].
  replace (Z.to_nat (Year d + 1 - b)) with (S (Z.to_nat (Year d - b))) by lia. rewrite leap_loop_snoc.
  replace (b + Z.of_nat (Z.to_nat (Year d - b))) with (Year d) by lia. lia.
Qed.

Lemma later_ordinal b d n : valid d -> b <= Year d ->
  valid (later n d) /\ b <= Year (later n d) /\ ordinal b (later n d) = ordinal b d + Z.of_nat n.
Proof.
  intros Hd Hb. induction n as [|n (Hv & Hy & Ho)]; cbn [later]; [split; [done|split; [done|lia]]|].
  destruct (ordinal_next b (later n d) Hv Hy) as [H1 H2]. split; [by apply valid_next|]. split; [done|]. rewrite H1, Ho. lia.
Qed.

Lemma DateDiff_ordinal d e : valid d -> valid e -> Year d <= Year e -> DateDiff d e = Ok (ordinal (Year d) e - ordinal (Year d) d).
Proof.
  intros [Hd _] [He _] Hy. rewrite DateDiff_ok by done. f_equal. unfold ordinal. rewrite Z.sub_diag. change (Z.to_nat 0) with O. cbn [leap_loop]. lia.
Qed.

(** [DateDiff] counts days: from a valid date to the one [n] days later it is [n], over any
    number of months and (leap) years.  (Years are small enough not to overflow an [int].) *)
Theorem date_diff_counts (d : Date) (n : nat) : valid d -> DateDiff d (later n d) = Ok (Z.of_nat n).
Proof.
  intros Hd. destruct (later_ordinal (Year d) d n Hd ltac:(lia)) as (Hv & Hy & Ho).
  rewrite DateDiff_ordinal by done. f_equal. lia.
Qed.

Lemma date_diff_counts_witness :
  later 366 (mk_Date 2012 2 28) = mk_Date 2013 2 28 /\ DateDiff (mk_Date 2012 2 28) (later 366 (mk_Date 2012 2 28)) = Ok 366.
Proof. split; [by vm_compute|]. apply (date_diff_counts (mk_Date 2012 2 28) 366).
  refine (bool_decide_unpack (valid _) _); by vm_compute. Defined.

(** ** Calendars *)

(** Where the days of a calendar are printed: a tab moves to the next column. *)
Fixpoint placed (col : Z) (items : list item) : list (Z * Z) :=
  match items with
  | [] => []
  | Tab :: items => placed (col + 1) items
  | EndLine :: items => placed 0 items
  | Number i :: items => (i, col) :: placed col items
  end.

Lemma placed_tabs n items : forall col, placed col (replicate n Tab ++ items) = placed (col + Z.of_nat n) items.
Proof. induction n as [|n IH]; intros col; cbn [replicate app placed]; [by rewrite Z.add_0_r|]. rewrite IH. f_equal. lia. Qed.

Lemma placed_days first n : 0 <= first < 7 -> forall i, 1 <= i ->
  placed ((first + i - 1) mod 7) (print_days n i (if negb (first =? 0) then 7 - first else 0)) =
  map (fun j => (j, (first + j - 1) mod 7)) (seqZ i (Z.of_nat n)).
Proof.
  intros Hf. induction n as [|n IH]; intros i Hi; [done|].
  rewrite seqZ_cons by lia. cbn [print_days placed map]. f_equal. replace (Z.pred (Z.of_nat (S n))) with (Z.of_nat n) by lia.
  rewrite <- Z.add_1_r, <- (IH (i + 1)) by lia. rewrite Z.rem_mod_nonneg by lia.
  pose proof (Z.div_mod i 7 ltac:(lia)) as Hdm. pose proof (Z.mod_pos_bound i 7 ltac:(lia)) as Hmb.
  assert (Hcol : forall k c, 0 <= c < 7 -> first + i - 1 = 7 * k + c -> (first + i - 1) mod 7 = c /\
            (first + (i + 1) - 1) mod 7 = (if c =? 6 then 0 else c + 1)).
  { intros k c Hc E. split; [rewrite E, Z.mul_comm, Z.add_comm, Z_mod_plus_full; by apply Z.mod_small|].
    destruct (Z.eqb_spec c 6) as [->|Hne].
    - replace (first + (i + 1) - 1) with (0 + (k + 1) * 7) by lia. by rewrite Z_mod_plus_full.
    - replace (first + (i + 1) - 1) with (c + 1 + k * 7) by lia. rewrite Z_mod_plus_full. apply Z.mod_small. lia. }
  destruct (Hcol ((first + i - 1) / 7) ((first + i - 1) mod 7)) as [_ E2];
    [apply Z.mod_pos_bound; lia|apply Z.div_mod; lia|]. rewrite E2. clear Hcol E2.
  pose proof (Z.div_mod (first + i - 1) 7 ltac:(lia)) as Hdm2. pose proof (Z.mod_pos_bound (first + i - 1) 7 ltac:(lia)) as Hmb2.
  destruct (Z.eqb_spec first 0); cbn [negb]; case_bool; destruct (Z.eqb_spec ((first + i - 1) mod 7) 6); cbn [placed]; try done; exfalso; lia.
Qed.

Lemma weekday_ok y m i : 1900 <= y -> 1 <= m <= 12 -> 1 <= i <= month_days y m ->
  QueryWeekday (mk_Date y m i) = Ok ((ordinal 1899 (mk_Date y m 1) - ordinal 1899 eraDay + i - 1) mod 7) /\
  0 <= ordinal 1899 (mk_Date y m 1) - ordinal 1899 eraDay.
Proof.
  intros Hy Hm Hi. assert (Hv : valid (mk_Date y m i)) by done. assert (Hv1 : valid (mk_Date y m 1)) by (split; cbn; lia).
  assert (Hera : valid eraDay) by (refine (bool_decide_unpack (valid eraDay) _); by vm_compute).
  assert (Hnn : 0 <= ordinal 1899 (mk_Date y m 1) - ordinal 1899 eraDay).
  { unfold ordinal at 1. cbn [Year]. pose proof (past_pos (mk_Date y m 1) Hv1).
    pose proof (leap_nonneg (Z.to_nat (y - 1899)) 1899).
    change (ordinal 1899 eraDay) with 365. lia. }
  split; [|done]. unfold QueryWeekday. rewrite DateDiff_ordinal by (done || cbn; lia). cbn [mbind outcome_bind].
  assert (E : ordinal 1899 (mk_Date y m i) = ordinal 1899 (mk_Date y m 1) + i - 1) by (unfold ordinal, past; cbn [Year Month Day]; lia).
  change (Year eraDay) with 1899. rewrite E, Z.rem_mod_nonneg by lia. f_equal. f_equal. lia.
Qed.

(** From 1900 on the weekday of a date advances by one from day to day, beginning with the
    Sunday 1899-12-31; and the calendar of a month shows each of its days once, in order and in
    the column of its weekday. *)
Theorem calendar_columns (y m : Z) : 1900 <= y -> 1 <= m <= 12 ->
  (forall n, QueryWeekday (later n eraDay) = Ok (Z.of_nat n mod 7)) /\
  exists items, PrintCalendar y m = Ok items /\
    map fst (placed 0 items) = seqZ 1 (month_days y m) /\
    Forall (fun '(i, column) => QueryWeekday (mk_Date y m i) = Ok column) (placed 0 items).
Proof.
  intros Hy Hm. split.
  - intros n. unfold QueryWeekday. assert (Hera : valid eraDay) by (refine (bool_decide_unpack (valid eraDay) _); by vm_compute).
    destruct (later_ordinal 1899 eraDay n Hera ltac:(done)) as (Hv & Hyn & Ho). rewrite DateDiff_ordinal by done.
    cbn [mbind outcome_bind]. change (Year eraDay) with 1899. rewrite Ho, Z.rem_mod_nonneg by lia. f_equal. f_equal. lia.
  - assert (Hd : exists t, vec_get [31; 28; 31; 30; 31; 30; 31; 31; 30; 31; 30; 31] (m - 1) = Ok t /\
        (if IsLeapYear y && (2 =? m) then t + 1 else t) = month_days y m).
    { revert m Hm. apply month_cases; eexists; (split; [by vm_compute|]); cbn; destruct (IsLeapYear y); done. }
    destruct Hd as (t & Ht & Htd). unfold PrintCalendar. rewrite Ht. cbn [mbind outcome_bind]. rewrite Htd.
    assert (H28 : 1 <= month_days y m) by (revert m Hm Ht Htd; apply (month_cases (fun m => _ -> _ -> _)); intros _ _; cbn; destruct (IsLeapYear y); lia).
    destruct (weekday_ok y m 1 Hy Hm ltac:(lia)) as [-> Hnn]. cbn [mbind outcome_bind].
    set (D := ordinal 1899 (mk_Date y m 1) - ordinal 1899 eraDay) in *. replace (D + 1 - 1) with D by lia. set (first := D mod 7).
    assert (Hf : 0 <= first < 7) by (apply Z.mod_pos_bound; lia). eexists. split; [reflexivity|].
    rewrite placed_tabs. replace (0 + Z.of_nat (Z.to_nat first)) with ((first + 1 - 1) mod 7) by (rewrite Z.mod_small; lia).
    rewrite placed_days by lia. rewrite Z2Nat.id by lia. split.
    + rewrite map_map. cbn. apply map_id.
    + apply List.Forall_map, Forall_forall. intros i Hi. apply elem_of_seqZ in Hi.
      destruct (weekday_ok y m i Hy Hm ltac:(lia)) as [-> _]. fold D. f_equal. unfold first.
      replace (D mod 7 + i - 1) with (D mod 7 + (i - 1)) by lia. rewrite Zplus_mod_idemp_l. f_equal. lia.
Qed.

Lemma calendar_columns_witness :
  1900 <= 2012 /\ exists items, PrintCalendar 2012 2 = Ok items /\ map fst (placed 0 items) = seqZ 1 29.
Proof.
  split; [lia|]. destruct (calendar_columns 2012 2) as [_ (items & E & H & _)]; [lia|lia|]. exists items. split; [exact E|exact H].
Defined.

(** The dates have to be in order: from the first day of 2001 back to that of 2000 the
    result misses the leap day, and the weekday of a date before 1899-12-31 is negative. *)
Theorem dates_out_of_order :
  DateDiff (mk_Date 2000 1 1) (mk_Date 2001 1 1) = Ok 366 /\ DateDiff (mk_Date 2001 1 1) (mk_Date 2000 1 1) = Ok (-365) /\
  QueryWeekday (mk_Date 1899 12 30) = Ok (-1).
Proof. by vm_compute. Qed.
