(* ===== verification/TwoLock.v ===== *)
(** * The two-lock queue

    Models ConcurrentQueue/two_lock.h: a linked list with a sentinel, a lock for each end.
    What an operation does between two lock operations is split into its accesses to shared
    memory, and the threads interleave in any order.  As for the stack (LockfreeStack) an
    operation has a step at which it takes effect, which is recorded as an [event]. *)

From S2P Require Import Prelude.
From stdpp Require Import gmap fin_maps.

#[local] Open Scope Z_scope.

(** ** State *)

Section TLQueue.
Context {T : Type}.

(** The sentinel of a new queue has no value. *)
Record Node := mk_Node { value : option T; next : option nat }.

(** The nodes by their addresses, and the owners of the locks. *)
Record TLQueue := mk_TLQueue {
  nodes : gmap nat Node;
  fresh_node : nat;
  head_ : nat;
  tail_ : nat;
  head_mtx_ : option nat;
  tail_mtx_ : option nat
}.

Definition make : TLQueue := mk_TLQueue {[ O := mk_Node None None ]} 1 0 0 None None.

Definition set_nodes (m : gmap nat Node) (q : TLQueue) : TLQueue :=
  mk_TLQueue m (fresh_node q) (head_ q) (tail_ q) (head_mtx_ q) (tail_mtx_ q).
Definition set_head (n : nat) (q : TLQueue) : TLQueue :=
  mk_TLQueue (nodes q) (fresh_node q) n (tail_ q) (head_mtx_ q) (tail_mtx_ q).
Definition set_tail (n : nat) (q : TLQueue) : TLQueue :=
  mk_TLQueue (nodes q) (fresh_node q) (head_ q) n (head_mtx_ q) (tail_mtx_ q).
Definition set_head_mtx (o : option nat) (q : TLQueue) : TLQueue :=
  mk_TLQueue (nodes q) (fresh_node q) (head_ q) (tail_ q) o (tail_mtx_ q).
Definition set_tail_mtx (o : option nat) (q : TLQueue) : TLQueue :=
  mk_TLQueue (nodes q) (fresh_node q) (head_ q) (tail_ q) (head_mtx_ q) o.

(** [new Node(value)]. *)
Definition alloc (v : T) (q : TLQueue) : nat * TLQueue :=
  (fresh_node q, mk_TLQueue (<[fresh_node q := mk_Node (Some v) None]> (nodes q)) (S (fresh_node q))
                   (head_ q) (tail_ q) (head_mtx_ q) (tail_mtx_ q)).

(** ** The operations *)

(** [Enqueue]: the new node, the lock, the two stores, the unlock.  [Dequeue]: the lock, the
    read of [head_->next], of the value, the store of [head_], the unlock, the delete. *)
Inductive pc :=
| Enq1 (v : T)
| Enq2 (v : T) (new_tail : nat)
| Enq3 (v : T) (new_tail : nat)
| Enq4 (new_tail : nat)
| Enq5
| Deq1
| Deq2
| Deq3 (new_head : nat)
| Deq4 (new_head : nat) (v : T)
| DeqEmpty
| Deq5 (old_head : nat) (v : T)
| Deq6 (old_head : nat) (v : T)
| Return (r : option (option T)).

Definition Enqueue (v : T) : pc := Enq1 v.
Definition Dequeue : pc := Deq1.

Inductive event := EEnqueue (v : T) | EDequeue (v : T) | EEmpty.

(** [Return None]: of [Enqueue]; [Return (Some r)]: of [Dequeue], with the value it found. *)
Definition result_of (e : event) : option (option T) :=
  match e with EEnqueue _ => None | EDequeue v => Some (Some v) | EEmpty => Some None end.

(** One step of thread [i]; [None] when it waits for a lock. *)
Definition exec (i : nat) (q : TLQueue) (p : pc) : option (outcome (TLQueue * pc * option event)) :=
  match p with
  | Enq1 v => Some (let '(n, q) := alloc v q in Ok (q, Enq2 v n, None))
  | Enq2 v n =>
      match tail_mtx_ q with
      | None => Some (Ok (set_tail_mtx (Some i) q, Enq3 v n, None))
      | Some _ => None
      end
  | Enq3 v n =>
      Some (nd ← the (nodes q !! tail_ q);
            Ok (set_nodes (<[tail_ q := mk_Node (value nd) (Some n)]> (nodes q)) q, Enq4 n, Some (EEnqueue v)))
  | Enq4 n => Some (Ok (set_tail n q, Enq5, None))
  | Enq5 => Some (Ok (set_tail_mtx None q, Return None, None))
  | Deq1 =>
      match head_mtx_ q with
      | None => Some (Ok (set_head_mtx (Some i) q, Deq2, None))
      | Some _ => None
      end
  | Deq2 =>
      Some (nd ← the (nodes q !! head_ q);
            match next nd with
            | None => Ok (q, DeqEmpty, Some EEmpty)
            | Some n => Ok (q, Deq3 n, None)
            end)
  | Deq3 n => Some (nd ← the (nodes q !! n); v ← the (value nd); Ok (q, Deq4 n v, None))
  | Deq4 n v => Some (Ok (set_head n q, Deq5 (head_ q) v, Some (EDequeue v)))
  | DeqEmpty => Some (Ok (set_head_mtx None q, Return (Some None), None))
  | Deq5 old v => Some (Ok (set_head_mtx None q, Deq6 old v, None))
  | Deq6 old v => Some (_ ← the (nodes q !! old); Ok (set_nodes (delete old (nodes q)) q, Return (Some (Some v)), None))
  | Return _ => None
  end.

(** The destructor: it follows the list from [head_]. *)
Fixpoint destroy (fuel : nat) (head : option nat) (m : gmap nat Node) : outcome (gmap nat Node) :=
  match fuel with
  | O => OutOfFuel
  | S fuel =>
      match head with
      | None => Ok m
      | Some n => nd ← the (m !! n); destroy fuel (next nd) (delete n m)
      end
  end.

(** ** Interleaving *)

Record thread := mk_thread { at_pc : pc; effect : option event }.
Record config := mk_config { queue : TLQueue; threads : list thread; log : list event }.

Definition advance (i : nat) (t : thread) (c : config) (x : TLQueue * pc * option event) : config :=
  let '(q, p, e) := x in
  mk_config q (<[i := mk_thread p (match e with Some e => Some e | None => effect t end)]> (threads c))
    (match e with Some e => e :: log c | None => log c end).

Inductive step (c : config) : outcome config -> Prop :=
| step_call i t r o :
    threads c !! i = Some t -> at_pc t = Return r -> (exists v, o = Enqueue v) \/ o = Dequeue ->
    step c (Ok (mk_config (queue c) (<[i := mk_thread o None]> (threads c)) (log c)))
| step_run i t r :
    threads c !! i = Some t -> exec i (queue c) (at_pc t) = Some r ->
    step c (x ← r; Ok (advance i t c x)).

Definition at_rest : thread := mk_thread (Return (Some None)) (Some EEmpty).

Inductive reachable (m : nat) : outcome config -> Prop :=
| reachable_start : reachable m (Ok (mk_config make (replicate m at_rest) []))
| reachable_step c w : reachable m (Ok c) -> step c w -> reachable m w.

(** ** The specification: a queue *)

(** [replay log l]: a queue that does what is in [log] (last event first) holds [l]. *)
Inductive replay : list event -> list T -> Prop :=
| replay_nil : replay [] []
| replay_enqueue log l v : replay log l -> replay (EEnqueue v :: log) (l ++ [v])
| replay_dequeue log l v : replay log (v :: l) -> replay (EDequeue v :: log) l
| replay_empty log : replay log [] -> replay (EEmpty :: log) [].

(** ** Accesses *)

(** The plain access to a shared location that a thread is about to make: what it accesses and
    whether it writes.  [Next n]: the field [next] of a node; the other fields and the two
    pointers are [Other]. *)
Inductive location := Next (n : nat) | Value (n : nat) | HeadPtr | TailPtr.

Definition pending (q : TLQueue) (p : pc) : list (location * bool) :=
  match p with
  | Enq3 _ _ => [(TailPtr, false); (Next (tail_ q), true)]
  | Enq4 _ => [(TailPtr, true)]
  | Deq2 => [(HeadPtr, false); (Next (head_ q), false)]
  | Deq3 n => [(Value n, false)]
  | Deq4 _ _ => [(HeadPtr, true)]
  | Deq6 old _ => [(Next old, true); (Value old, true)]
  | _ => []
  end.

Definition races (q : TLQueue) (p1 p2 : pc) : Prop :=
  exists l w, (l, true) ∈ pending q p1 /\ (l, w) ∈ pending q p2.
End TLQueue.

(** ** The list *)

Section Proofs.
Context {T : Type}.
Implicit Types (m : gmap nat (@Node T)) (q : @TLQueue T) (ts : list (@thread T)).

(** [ns] are linked in [m], the last one to nothing. *)
Fixpoint links m (ns : list nat) : Prop :=
  match ns with
  | [] => False
  | n :: r => exists v, m !! n = Some (mk_Node v (head r)) /\ match r with [] => True | _ => links m r end
  end.

(** The nodes behind the sentinel hold [l]. *)
Definition holds m (ns : list nat) (l : list T) : Prop :=
  Forall2 (fun n v => value <$> m !! n = Some (Some v)) (tail ns) l.

Lemma links_ne m n nd ns : n ∉ ns -> links m ns -> links (<[n := nd]> m) ns.
Proof.
  induction ns as [|k ns IH]; intros Hn Hl; [done|]. apply not_elem_of_cons in Hn as [Hk Hn]. destruct Hl as (v & Hv & Hr).
  exists v. rewrite lookup_insert_ne by done. split; [done|]. destruct ns; [done|]. by apply IH.
Qed.

Lemma links_delete m n ns : n ∉ ns -> links m ns -> links (delete n m) ns.
Proof.
  induction ns as [|k ns IH]; intros Hn Hl; [done|]. apply not_elem_of_cons in Hn as [Hk Hn]. destruct Hl as (v & Hv & Hr).
  exists v. rewrite lookup_delete_ne by done. split; [done|]. destruct ns; [done|]. by apply IH.
Qed.

Lemma holds_ext m m' ns l : (forall n, n ∈ tail ns -> value <$> m' !! n = value <$> m !! n) -> holds m ns l -> holds m' ns l.
Proof.
  unfold holds. intros He H. induction H as [|n v r l Hn H IH]; [constructor|]. constructor.
  - rewrite He by left. done.
  - apply IH. intros k Hk. apply He. by right.
Qed.

Lemma links_last m ns : links m ns -> exists n v, last ns = Some n /\ m !! n = Some (mk_Node v None).
Proof.
  induction ns as [|k ns IH]; [done|]. intros (v & Hv & Hr). destruct ns as [|k' ns]; [by exists k, v|].
  destruct (IH Hr) as (n & v' & Hn & Hv'). by exists n, v'.
Qed.

(** A new node behind the last one. *)
Lemma links_snoc m ns t n v : NoDup ns -> links m ns -> last ns = Some t -> n ∉ ns -> m !! n = Some (mk_Node v None) ->
  exists nd, m !! t = Some nd /\ links (<[t := mk_Node (value nd) (Some n)]> m) (ns ++ [n]).
Proof.
  induction ns as [|k ns IH]; intros Hd Hl Ht Hn Hm; [done|]. apply NoDup_cons in Hd as [Hk Hd]. apply not_elem_of_cons in Hn as [Hnk Hn].
  destruct Hl as (v' & Hv' & Hr). destruct ns as [|k' ns].
  - injection Ht as <-. exists (mk_Node v' None). split; [done|]. exists v'. cbn [app head value]. rewrite lookup_insert_eq. split; [done|].
    exists v. by rewrite lookup_insert_ne by done.
  - destruct (IH Hd Hr Ht Hn Hm) as (nd & Hnd & Hl). exists nd. split; [done|]. exists v'. split; [|exact Hl].
    rewrite lookup_insert_ne; [done|]. intros ->. apply Hk. change (last (k' :: ns) = Some k) in Ht.
    apply last_Some in Ht as [l' E]. rewrite E. apply elem_of_app. right. by left.
Qed.

Lemma links_sub m ns n : links m ns -> n ∈ ns -> is_Some (m !! n).
Proof.
  induction ns as [|k ns IH]; [done|]. intros (v & Hv & Hr) Hn. apply elem_of_cons in Hn as [->|Hn]; [by eexists|].
  destruct ns; [by apply elem_of_nil in Hn|]. by apply IH.
Qed.


(** ** The invariant *)

(** The node that belongs to a thread alone. *)
Definition owns (t : @thread T) : option nat :=
  match at_pc t with Enq2 _ n | Enq3 _ n | Deq5 n _ | Deq6 n _ => Some n | _ => None end.

Definition in_enq (p : @pc T) : bool := match p with Enq3 _ _ | Enq4 _ | Enq5 => true | _ => false end.
Definition in_deq (p : @pc T) : bool := match p with Deq2 | Deq3 _ | Deq4 _ _ | DeqEmpty | Deq5 _ _ => true | _ => false end.

(** What a thread knows at its place: [ns] are the nodes of the list. *)
Definition knows q (ns : list nat) (t : @thread T) : Prop :=
  match at_pc t with
  | Enq1 _ | Deq1 | Deq2 => effect t = None
  | Enq2 v n | Enq3 v n => nodes q !! n = Some (mk_Node (Some v) None) /\ effect t = None
  | Enq4 n => last ns = Some n /\ exists v, effect t = Some (EEnqueue v)
  | Enq5 => exists v, effect t = Some (EEnqueue v)
  | Deq3 n => (exists r, ns = head_ q :: n :: r) /\ effect t = None
  | Deq4 n v => (exists r, ns = head_ q :: n :: r) /\ value <$> nodes q !! n = Some (Some v) /\ effect t = None
  | DeqEmpty => effect t = Some EEmpty
  | Deq5 _ v | Deq6 _ v => effect t = Some (EDequeue v)
  | Return r => exists e, effect t = Some e /\ result_of e = r
  end.

(** A lock is held by the thread in the section it protects. *)
Definition guards (f : @pc T -> bool) (o : option nat) ts : Prop :=
  (forall i t, ts !! i = Some t -> f (at_pc t) = true <-> o = Some i) /\ (forall i, o = Some i -> is_Some (ts !! i)).

(** [L] are the addresses of the nodes, each once. *)
Definition covers m (L : list nat) : Prop := NoDup L /\ forall n, n ∈ L <-> is_Some (m !! n).

Record Inv_with (c : @config T) (ns : list nat) (l : list T) : Prop := {
  inv_head : head ns = Some (head_ (queue c));
  inv_links : links (nodes (queue c)) ns;
  inv_holds : holds (nodes (queue c)) ns l;
  inv_replay : replay (log c) l;
  inv_tail : last ns = Some (tail_ (queue c)) \/ exists i t n, threads c !! i = Some t /\ at_pc t = Enq4 n;
  inv_enq : guards in_enq (tail_mtx_ (queue c)) (threads c);
  inv_deq : guards in_deq (head_mtx_ (queue c)) (threads c);
  inv_covers : covers (nodes (queue c)) (ns ++ omap owns (threads c));
  inv_fresh n : (fresh_node (queue c) <= n)%nat -> nodes (queue c) !! n = None;
  inv_knows i t : threads c !! i = Some t -> knows (queue c) ns t
}.

(** *** Locks *)

Lemma guards_keep f o ts i t t' : guards f o ts -> ts !! i = Some t -> f (at_pc t') = f (at_pc t) -> guards f o (<[i := t']> ts).
Proof.
  intros [H1 H2] Hi Hf. pose proof (lookup_lt_Some _ _ _ Hi) as Hlt. split.
  - intros j u Hj. destruct (decide (i = j)) as [->|Hne].
    + rewrite list_lookup_insert_eq in Hj by done. injection Hj as <-. rewrite Hf. by apply H1.
    + rewrite list_lookup_insert_ne in Hj by done. by apply H1.
  - intros j Hj. apply lookup_lt_is_Some. rewrite length_insert. by apply lookup_lt_is_Some, H2.
Qed.

Lemma guards_take f ts i t t' : guards f None ts -> ts !! i = Some t -> f (at_pc t') = true -> guards f (Some i) (<[i := t']> ts).
Proof.
  intros [H1 H2] Hi Hf. pose proof (lookup_lt_Some _ _ _ Hi) as Hlt. split.
  - intros j u Hj. destruct (decide (i = j)) as [->|Hne].
    + rewrite list_lookup_insert_eq in Hj by done. by injection Hj as <-.
    + rewrite list_lookup_insert_ne in Hj by done. rewrite (H1 j u Hj). split; congruence.
  - intros j [= <-]. apply lookup_lt_is_Some. by rewrite length_insert.
Qed.

Lemma guards_free f o ts i t t' : guards f o ts -> ts !! i = Some t -> f (at_pc t) = true -> f (at_pc t') = false ->
  guards f None (<[i := t']> ts).
Proof.
  intros [H1 H2] Hi Hf Hf'. pose proof (lookup_lt_Some _ _ _ Hi) as Hlt. apply (H1 i t Hi) in Hf. subst o. split; [|done].
  intros j u Hj. destruct (decide (i = j)) as [->|Hne].
  - rewrite list_lookup_insert_eq in Hj by done. injection Hj as <-. rewrite Hf'. done.
  - rewrite list_lookup_insert_ne in Hj by done. rewrite (H1 j u Hj). split; congruence.
Qed.

Lemma guards_alone f o ts i j t u : guards f o ts -> ts !! i = Some t -> ts !! j = Some u -> f (at_pc t) = true -> f (at_pc u) = true -> i = j.
Proof. intros [H _] Hi Hj Hf Hg. apply (H i t Hi) in Hf. apply (H j u Hj) in Hg. congruence. Qed.

(** *** Ownership *)

#[global] Instance covers_proper m : Proper ((≡ₚ) ==> iff) (covers m).
Proof. intros L L' HL. unfold covers. rewrite HL. by setoid_rewrite HL. Qed.

Lemma owned_update ts i t t' : ts !! i = Some t -> exists r,
  omap owns ts ≡ₚ option_list (owns t) ++ r /\ omap owns (<[i := t']> ts) ≡ₚ option_list (owns t') ++ r.
Proof.
  intros Hi. exists (omap owns (take i ts) ++ omap owns (drop (S i) ts)).
  assert (forall l k r, omap owns (l ++ k :: r) ≡ₚ option_list (owns k) ++ omap owns l ++ omap owns r) as Hsplit.
  { intros l k r. rewrite omap_app. cbn. destruct (owns k); cbn; [|done]. by rewrite Permutation_middle. }
  split.
  - rewrite <- (take_drop_middle ts i t Hi) at 1. apply Hsplit.
  - rewrite insert_take_drop by by eapply lookup_lt_Some. apply Hsplit.
Qed.

Lemma owned_in ts i t n : ts !! i = Some t -> owns t = Some n -> n ∈ omap owns ts.
Proof. intros Hi Hn. apply list_elem_of_omap. exists t. split; [by eapply list_elem_of_lookup_2|done]. Qed.

(** What another thread knows stays true. *)
Lemma knows_frame q q' ns ns' t :
  knows q ns t ->
  (in_enq (at_pc t) = true -> last ns' = last ns) ->
  (in_deq (at_pc t) = true -> head_ q' = head_ q /\ exists s, ns' = ns ++ s) ->
  (forall n, owns t = Some n -> nodes q' !! n = nodes q !! n) ->
  (forall n, n ∈ ns -> value <$> nodes q' !! n = value <$> nodes q !! n) ->
  knows q' ns' t.
Proof.
  unfold knows, owns. destruct t as [[] e]; cbn; intros Hk He Hd Ho Hv; try done.
  - by rewrite Ho.
  - by rewrite Ho.
  - by rewrite He.
  - destruct (Hd eq_refl) as [-> [s ->]]. destruct Hk as [[r ->] Hk]. split; [by eexists|done].
  - destruct (Hd eq_refl) as [-> [s ->]]. destruct Hk as [[r ->] Hk]. split; [by eexists|]. rewrite Hv; [done|]. right. left.
Qed.

(** *** Steps *)

(** A step of thread [i] that leaves the list, the tail and what the threads own alone. *)
Lemma inv_quiet c ns l i t t' q' e : Inv_with c ns l -> threads c !! i = Some t ->
  nodes q' = nodes (queue c) -> fresh_node q' = fresh_node (queue c) -> head_ q' = head_ (queue c) -> tail_ q' = tail_ (queue c) ->
  owns t' = owns t -> (forall n, at_pc t <> Enq4 n) ->
  guards in_enq (tail_mtx_ q') (<[i := t']> (threads c)) -> guards in_deq (head_mtx_ q') (<[i := t']> (threads c)) ->
  replay (option_list e ++ log c) l -> knows q' ns t' ->
  Inv_with (mk_config q' (<[i := t']> (threads c)) (option_list e ++ log c)) ns l.
Proof.
  intros I Hi Em Ef Eh Et Ho Hp He Hd Hr Hk. pose proof (lookup_lt_Some _ _ _ Hi) as Hlt.
  split; cbn [queue threads log]; rewrite ?Em, ?Ef, ?Eh, ?Et; try apply I; try done.
  - destruct (inv_tail _ _ _ I) as [H|(j & u & n & Hj & Hu)]; [by left|right]. exists j, u, n. split; [|done].
    rewrite list_lookup_insert_ne; [done|]. intros ->. rewrite Hi in Hj. injection Hj as ->. by eapply Hp.
  - destruct (owned_update (threads c) i t t' Hi) as (r & H1 & H2). rewrite H2, Ho, <- H1. apply I.
  - intros j u Hj. destruct (decide (i = j)) as [->|Hne].
    + rewrite list_lookup_insert_eq in Hj by done. by injection Hj as <-.
    + rewrite list_lookup_insert_ne in Hj by done. eapply knows_frame; [exact (inv_knows _ _ _ I j u Hj)| | | |]; try by rewrite ?Em.
      intros _. rewrite Eh. split; [done|]. exists []. by rewrite app_nil_r.
Qed.

(** The head of the list: its node, and the next one. *)
Lemma inv_first c ns l : Inv_with c ns l -> exists v r, ns = head_ (queue c) :: r /\
  nodes (queue c) !! head_ (queue c) = Some (mk_Node v (head r)).
Proof.
  intros I. pose proof (inv_head _ _ _ I) as Hh. pose proof (inv_links _ _ _ I) as Hl. destruct ns as [|h r]; [done|].
  injection Hh as ->. destruct Hl as (v & Hv & _). by exists v, r.
Qed.

Lemma inv_second c ns l n r : Inv_with c ns l -> ns = head_ (queue c) :: n :: r ->
  exists v l', l = v :: l' /\ value <$> nodes (queue c) !! n = Some (Some v) /\ holds (nodes (queue c)) (n :: r) l'.
Proof.
  intros I ->. pose proof (inv_holds _ _ _ I) as H. unfold holds in H. cbn in H. inversion H as [|n' v r' l' Hv Hr]; subst. by exists v, l'.
Qed.

(** The nodes of the list are not those of the threads. *)
Lemma inv_apart c ns l i t n : Inv_with c ns l -> threads c !! i = Some t -> owns t = Some n -> n ∉ ns /\ is_Some (nodes (queue c) !! n).
Proof.
  intros I Hi Ho. destruct (inv_covers _ _ _ I) as [Hd Hc]. pose proof (owned_in _ _ _ _ Hi Ho) as Hn.
  apply NoDup_app in Hd as (_ & Hd & _). split.
  - intros Hin. by apply (Hd n).
  - apply Hc. apply elem_of_app. by right.
Qed.

Lemma inv_apart2 c ns l i j t u n : Inv_with c ns l -> threads c !! i = Some t -> threads c !! j = Some u -> i <> j ->
  owns t = Some n -> owns u <> Some n.
Proof.
  intros I Hi Hj Hne Ho Hu. destruct (inv_covers _ _ _ I) as [Hd _]. apply NoDup_app in Hd as (_ & _ & Hd).
  destruct (owned_update (threads c) i t (mk_thread Deq1 None) Hi) as (r & H1 & H2).
  rewrite H1, Ho in Hd. cbn in Hd. apply NoDup_cons in Hd as [Hn _]. apply Hn. rewrite <- (app_nil_l r). change [] with (option_list (@owns (mk_thread Deq1 None))).
  rewrite <- H2. eapply owned_in; [|exact Hu]. by rewrite list_lookup_insert_ne.
Qed.

(** What the other threads know after a step of thread [i]. *)
Lemma knows_others (c : @config T) ns l i t t' q' ns' : Inv_with c ns l -> threads c !! i = Some t ->
  (forall j u, threads c !! j = Some u -> i <> j -> knows (queue c) ns u -> knows q' ns' u) -> knows q' ns' t' ->
  forall j u, <[i := t']> (threads c) !! j = Some u -> knows q' ns' u.
Proof.
  intros I Hi Ho Hk j u Hj. pose proof (lookup_lt_Some _ _ _ Hi) as Hlt. destruct (decide (i = j)) as [->|Hne].
  - rewrite list_lookup_insert_eq in Hj by done. by injection Hj as <-.
  - rewrite list_lookup_insert_ne in Hj by done. apply (Ho j u Hj Hne). by eapply inv_knows.
Qed.

Lemma tail_others (c : @config T) i t t' : threads c !! i = Some t -> (forall n, at_pc t <> Enq4 n) ->
  (exists i t n, threads c !! i = Some t /\ at_pc t = Enq4 n) -> exists j u n, <[i := t']> (threads c) !! j = Some u /\ at_pc u = Enq4 n.
Proof.
  intros Hi Hp (j & u & n & Hj & Hu). exists j, u, n. split; [|done]. rewrite list_lookup_insert_ne; [done|].
  intros ->. rewrite Hi in Hj. injection Hj as ->. by eapply Hp.
Qed.

Lemma inv_alloc c ns l i v e : Inv_with c ns l -> threads c !! i = Some (mk_thread (Enq1 v) e) ->
  let '(n, q) := alloc v (queue c) in Inv_with (mk_config q (<[i := mk_thread (Enq2 v n) e]> (threads c)) (log c)) ns l.
Proof.
  intros I Hi. cbn. set (n := fresh_node (queue c)). assert (nodes (queue c) !! n = None) as Hn by by apply (inv_fresh _ _ _ I).
  pose proof (inv_covers _ _ _ I) as [Hd Hc]. assert (n ∉ ns ++ omap owns (threads c)) as Hnot.
  { intros [? ?]%Hc. congruence. }
  assert (n ∉ ns) as Hns. { intros ?. apply Hnot, elem_of_app. by left. }
  split; cbn [queue threads log nodes fresh_node head_ tail_ head_mtx_ tail_mtx_]; try apply I.
  - apply links_ne; [done|apply I].
  - eapply holds_ext; [|apply I]. intros k Hk. rewrite lookup_insert_ne; [done|]. intros <-. apply Hns. by destruct ns; [|right].
  - destruct (inv_tail _ _ _ I) as [|H]; [by left|right]. by eapply tail_others.
  - by eapply guards_keep; [apply I| |].
  - by eapply guards_keep; [apply I| |].
  - destruct (owned_update (threads c) i _ (mk_thread (Enq2 v n) e) Hi) as (r & H1 & H2). rewrite H2. cbn. rewrite <- Permutation_middle.
    pose proof (inv_covers _ _ _ I) as Hcv. rewrite H1 in Hnot, Hcv. cbn in Hnot, Hcv. clear Hd Hc. destruct Hcv as [Hd Hc]. split.
    + by apply NoDup_cons.
    + intros k. rewrite elem_of_cons, Hc, lookup_insert_is_Some. destruct (decide (k = n)); naive_solver.
  - intros k Hk. rewrite lookup_insert_ne by lia. apply (inv_fresh _ _ _ I). fold n. lia.
  - eapply knows_others; [done|done| |].
    + intros j u Hj Hne Hk. eapply knows_frame; [done|done| | |]; cbn [head_ nodes].
      * intros _. split; [done|]. exists []. by rewrite app_nil_r.
      * intros k Hku. apply lookup_insert_ne. intros <-. destruct (inv_apart _ _ _ _ _ _ I Hj Hku) as [_ [? ?]]. congruence.
      * intros k Hin. rewrite lookup_insert_ne; [done|]. by intros <-.
    + unfold knows. cbn. rewrite lookup_insert_eq. split; [done|]. by pose proof (inv_knows _ _ _ I i _ Hi).
Qed.

Lemma inv_tail_in c ns l i t v n : Inv_with c ns l -> threads c !! i = Some t -> at_pc t = Enq3 v n -> last ns = Some (tail_ (queue c)) /\ tail_ (queue c) ∈ ns.
Proof.
  intros I Hi Hp. assert (last ns = Some (tail_ (queue c))) as Hl.
  { destruct (inv_tail _ _ _ I) as [|(j & u & k & Hj & Hu)]; [done|].
    assert (i = j) as -> by (eapply guards_alone; [apply (inv_enq _ _ _ I)|done|done|by rewrite Hp|by rewrite Hu]). congruence. }
  split; [done|]. apply last_Some in Hl as [r ->]. apply elem_of_app. right. by left.
Qed.

Lemma inv_link c ns l i v n e : Inv_with c ns l -> threads c !! i = Some (mk_thread (Enq3 v n) e) ->
  exists nd, nodes (queue c) !! tail_ (queue c) = Some nd /\
  Inv_with (mk_config (set_nodes (<[tail_ (queue c) := mk_Node (value nd) (Some n)]> (nodes (queue c))) (queue c))
              (<[i := mk_thread (Enq4 n) (Some (EEnqueue v))]> (threads c)) (EEnqueue v :: log c)) (ns ++ [n]) (l ++ [v]).
Proof.
  intros I Hi. pose proof (lookup_lt_Some _ _ _ Hi) as Hlt. destruct (inv_knows _ _ _ I i _ Hi) as [Hn _]. cbn in Hn.
  destruct (inv_apart _ _ _ i _ n I Hi eq_refl) as [Hns _].
  destruct (inv_tail_in _ _ _ _ _ v n I Hi eq_refl) as [Hl Ht].
  assert (NoDup ns) as Hd. { pose proof (inv_covers _ _ _ I) as [Hd _]. by apply NoDup_app in Hd as []. }
  destruct (links_snoc _ ns _ n _ Hd (inv_links _ _ _ I) Hl Hns Hn) as (nd & Hnd & Hlinks). exists nd. split; [done|].
  assert (forall k, value <$> <[tail_ (queue c) := mk_Node (value nd) (Some n)]> (nodes (queue c)) !! k = value <$> nodes (queue c) !! k) as Hv.
  { intros k. destruct (decide (k = tail_ (queue c))) as [->|]; [by rewrite lookup_insert_eq, Hnd|by rewrite lookup_insert_ne]. }
  split; cbn [queue threads log set_nodes nodes fresh_node head_ tail_ head_mtx_ tail_mtx_]; try apply I.
  - pose proof (inv_head _ _ _ I). by destruct ns.
  - exact Hlinks.
  - unfold holds. destruct ns as [|h r]; [done|]. cbn. apply Forall2_app; [|by constructor; [rewrite Hv, Hn|]].
    apply (holds_ext (nodes (queue c)) _ (h :: r)); [by intros|apply I].
  - constructor. apply I.
  - right. exists i, (mk_thread (Enq4 n) (Some (EEnqueue v))), n. by rewrite list_lookup_insert_eq.
  - by eapply guards_keep; [apply I| |].
  - by eapply guards_keep; [apply I| |].
  - destruct (owned_update (threads c) i _ (mk_thread (Enq4 n) (Some (EEnqueue v))) Hi) as (r & H1 & H2). rewrite H2. cbn.
    pose proof (inv_covers _ _ _ I) as Hcv. rewrite H1 in Hcv. cbn in Hcv. destruct Hcv as [Hd' Hc]. rewrite <- app_assoc. split; [done|].
    intros k. rewrite Hc, <- !(fmap_is_Some value), Hv. done.
  - intros k Hk. apply (fmap_None value). rewrite Hv. by rewrite (inv_fresh _ _ _ I).
  - eapply knows_others; [done|done| |].
    + intros j u Hj Hne Hk. eapply knows_frame; [done| | | |]; cbn [set_nodes head_ nodes].
      * intros Hu. destruct Hne. eapply guards_alone; [apply (inv_enq _ _ _ I)|done|done|done|done].
      * intros _. split; [done|]. by eexists.
      * intros k Hku. apply lookup_insert_ne. intros <-. destruct (inv_apart _ _ _ _ _ _ I Hj Hku) as [? _]. done.
      * intros k _. apply Hv.
    + unfold knows. cbn. rewrite last_snoc. split; [done|by eexists].
Qed.

Lemma inv_swing c ns l i n e : Inv_with c ns l -> threads c !! i = Some (mk_thread (Enq4 n) e) ->
  Inv_with (mk_config (set_tail n (queue c)) (<[i := mk_thread Enq5 e]> (threads c)) (log c)) ns l.
Proof.
  intros I Hi. destruct (inv_knows _ _ _ I i _ Hi) as [Hl He]. cbn in Hl, He.
  split; cbn [queue threads log set_tail nodes fresh_node head_ tail_ head_mtx_ tail_mtx_]; try apply I.
  - by left.
  - by eapply guards_keep; [apply I| |].
  - by eapply guards_keep; [apply I| |].
  - destruct (owned_update (threads c) i _ (mk_thread Enq5 e) Hi) as (r & H1 & H2). rewrite H2. cbn in H1 |- *. rewrite <- H1. apply I.
  - eapply knows_others; [done|done| |done]. intros j u Hj Hne Hk. eapply knows_frame; [done|done| |done|done].
    intros _. split; [done|]. exists []. by rewrite app_nil_r.
Qed.

Lemma inv_unlink c ns l i n v e : Inv_with c ns l -> threads c !! i = Some (mk_thread (Deq4 n v) e) ->
  exists ns' l', Inv_with (mk_config (set_head n (queue c)) (<[i := mk_thread (Deq5 (head_ (queue c)) v) (Some (EDequeue v))]> (threads c))
                    (EDequeue v :: log c)) ns' l'.
Proof.
  intros I Hi. destruct (inv_knows _ _ _ I i _ Hi) as [[r ->] [Hv _]]. cbn in Hv.
  destruct (inv_second _ _ _ _ _ I eq_refl) as (v' & l' & -> & Hv' & Hr). assert (v' = v) as -> by congruence. exists (n :: r), l'.
  pose proof (inv_links _ _ _ I) as (v0 & _ & Hl).
  split; cbn [queue threads log set_head nodes fresh_node head_ tail_ head_mtx_ tail_mtx_]; try apply I; try done.
  - constructor. apply I.
  - destruct (inv_tail _ _ _ I) as [H|H]; [by left|right]. by eapply tail_others.
  - by eapply guards_keep; [apply I| |].
  - by eapply guards_keep; [apply I| |].
  - destruct (owned_update (threads c) i _ (mk_thread (Deq5 (head_ (queue c)) v) (Some (EDequeue v))) Hi) as (s & H1 & H2). rewrite H2.
    pose proof (inv_covers _ _ _ I) as Hc. rewrite H1 in Hc. eapply covers_proper; [|exact Hc]. cbn.
    rewrite <- Permutation_middle. constructor.
  - eapply knows_others; [done|done| |done]. intros j u Hj Hne Hk. eapply knows_frame; [done|done| |done|done].
    intros Hu. destruct Hne. eapply guards_alone; [apply (inv_deq _ _ _ I)|done|done|done|done].
Qed.

Lemma inv_reclaim c ns l i n v e : Inv_with c ns l -> threads c !! i = Some (mk_thread (Deq6 n v) e) ->
  Inv_with (mk_config (set_nodes (delete n (nodes (queue c))) (queue c)) (<[i := mk_thread (Return (Some (Some v))) e]> (threads c)) (log c)) ns l.
Proof.
  intros I Hi. destruct (inv_apart _ _ _ i _ n I Hi eq_refl) as [Hns _]. pose proof (inv_knows _ _ _ I i _ Hi) as He. cbn in He.
  assert (forall k, k ∈ ns -> k <> n) as Hne by by intros k Hk ->.
  split; cbn [queue threads log set_nodes nodes fresh_node head_ tail_ head_mtx_ tail_mtx_]; try apply I.
  - apply links_delete; [done|apply I].
  - eapply holds_ext; [|apply I]. intros k Hk. rewrite lookup_delete_ne; [done|]. intros <-. apply Hns. by destruct ns; [|right].
  - destruct (inv_tail _ _ _ I) as [|H]; [by left|right]. by eapply tail_others.
  - by eapply guards_keep; [apply I| |].
  - by eapply guards_keep; [apply I| |].
  - destruct (owned_update (threads c) i _ (mk_thread (Return (Some (Some v))) e) Hi) as (r & H1 & H2). rewrite H2.
    pose proof (inv_covers _ _ _ I) as Hc. rewrite H1 in Hc. cbn in Hc |- *. rewrite <- Permutation_middle in Hc. destruct Hc as [Hd Hc].
    apply NoDup_cons in Hd as [Hn Hd]. split; [done|]. intros k. specialize (Hc k). rewrite elem_of_cons in Hc.
    rewrite lookup_delete_is_Some. destruct (decide (k = n)) as [->|]; naive_solver.
  - intros k Hk. apply lookup_delete_None. right. by apply (inv_fresh _ _ _ I).
  - eapply knows_others; [done|done| |by eexists]. intros j u Hj Hij Hk. eapply knows_frame; [done|done| | |]; cbn [set_nodes head_ nodes].
    + intros _. split; [done|]. exists []. by rewrite app_nil_r.
    + intros k Hku. apply lookup_delete_ne. intros <-. by apply (inv_apart2 c ns l i j _ u n I Hi Hj Hij eq_refl).
    + intros k Hk'. rewrite lookup_delete_ne; [done|]. intros <-. by eapply Hne.
Qed.

Definition Inv (c : @config T) : Prop := exists ns l, Inv_with c ns l.

Lemma inv_quiet_exec c ns l i t q' p e : Inv_with c ns l -> threads c !! i = Some t ->
  let t' := mk_thread p (match e with Some e => Some e | None => effect t end) in
  nodes q' = nodes (queue c) -> fresh_node q' = fresh_node (queue c) -> head_ q' = head_ (queue c) -> tail_ q' = tail_ (queue c) ->
  owns t' = owns t -> (forall n, at_pc t <> Enq4 n) ->
  guards in_enq (tail_mtx_ q') (<[i := t']> (threads c)) -> guards in_deq (head_mtx_ q') (<[i := t']> (threads c)) ->
  replay (option_list e ++ log c) l -> knows q' ns t' ->
  exists x, Ok (q', p, e) = Ok x /\ Inv (advance i t c x).
Proof.
  intros I Hi t' Em Ef Eh Et Ho Hp He Hd Hr Hk. eexists. split; [done|]. exists ns, l.
  pose proof (inv_quiet c ns l i t t' q' e I Hi Em Ef Eh Et Ho Hp He Hd Hr Hk) as HI. by destruct e.
Qed.

(** A thread never follows a bad pointer, and the invariant is kept. *)
Lemma inv_exec c i t r : Inv c -> threads c !! i = Some t -> exec i (queue c) (at_pc t) = Some r ->
  exists x, r = Ok x /\ Inv (advance i t c x).
Proof.
  intros (ns & l & I) Hi Hx. pose proof (inv_knows _ _ _ I i t Hi) as Hk. destruct t as [p e].
  destruct p; cbn in Hx, Hk.
  - injection Hx as <-. eexists. split; [done|]. exists ns, l. by apply (inv_alloc c ns l i v e).
  - destruct (tail_mtx_ (queue c)) eqn:Hm; [done|]. injection Hx as <-. pose proof (inv_enq _ _ _ I) as Hg. rewrite Hm in Hg.
    eapply (inv_quiet_exec c ns l i _ _ _ _ I Hi); try done; [by eapply guards_take|by eapply guards_keep; [apply I| |]|apply I].
  - destruct (inv_link c ns l i v new_tail e I Hi) as (nd & Hnd & HI). rewrite Hnd in Hx. injection Hx as <-.
    eexists. split; [done|]. by exists (ns ++ [new_tail]), (l ++ [v]).
  - injection Hx as <-. eexists. split; [done|]. exists ns, l. by apply inv_swing.
  - injection Hx as <-. eapply (inv_quiet_exec c ns l i _ _ _ _ I Hi); try done; [by eapply guards_free; [apply I| | |]|by eapply guards_keep; [apply I| |]|apply I|].
    destruct Hk as [v Hk]. cbn in Hk. subst e. by exists (EEnqueue v).
  - destruct (head_mtx_ (queue c)) eqn:Hm; [done|]. injection Hx as <-. pose proof (inv_deq _ _ _ I) as Hg. rewrite Hm in Hg.
    eapply (inv_quiet_exec c ns l i _ _ _ _ I Hi); try done; [by eapply guards_keep; [apply I| |]|by eapply guards_take|apply I].
  - destruct (inv_first c ns l I) as (v & r' & Ens & Hnd). rewrite Hnd in Hx. destruct r' as [|n r']; cbn in Hx; injection Hx as <-.
    + eapply (inv_quiet_exec c ns l i _ _ _ _ I Hi); try done; [by eapply guards_keep; [apply I| |]|by eapply guards_keep; [apply I| |]|].
      pose proof (inv_holds _ _ _ I) as Hh. pose proof (inv_replay _ _ _ I) as Hr. rewrite Ens in Hh. inversion Hh. subst l. by constructor.
    + eapply (inv_quiet_exec c ns l i _ _ _ _ I Hi); try done; [by eapply guards_keep; [apply I| |]|by eapply guards_keep; [apply I| |]|apply I|]. by split; [exists r'|].
  - destruct Hk as [[r' Ens] He]. destruct (inv_second c ns l _ _ I Ens) as (v & l' & -> & Hv & _).
    destruct (nodes (queue c) !! new_head) as [nd|] eqn:Hnd; [|done]. injection Hv as Hv. cbn in Hx. rewrite Hv in Hx. injection Hx as <-.
    eapply (inv_quiet_exec c ns (v :: l') i _ _ _ _ I Hi); try done; [by eapply guards_keep; [apply I| |]|by eapply guards_keep; [apply I| |]|apply I|].
    unfold knows. cbn. rewrite Hnd. cbn. rewrite Hv. by split; [exists r'|].
  - injection Hx as <-. eexists. split; [done|]. by apply (inv_unlink c ns l i new_head v e).
  - injection Hx as <-. eapply (inv_quiet_exec c ns l i _ _ _ _ I Hi); try done; [by eapply guards_keep; [apply I| |]|by eapply guards_free; [apply I| | |]|apply I|]. by eexists.
  - injection Hx as <-. eapply (inv_quiet_exec c ns l i _ _ _ _ I Hi); try done; [by eapply guards_keep; [apply I| |]|by eapply guards_free; [apply I| | |]|apply I].
  - destruct (inv_apart _ _ _ i _ old_head I Hi eq_refl) as [_ [nd Hnd]]. rewrite Hnd in Hx. injection Hx as <-.
    eexists. split; [done|]. exists ns, l. by apply inv_reclaim.
  - done.
Qed.

Lemma inv_start n : Inv (mk_config make (replicate n at_rest) []).
Proof.
  exists [O], []. assert (forall i t, replicate n (@at_rest T) !! i = Some t -> t = at_rest) as Hr. { by intros i t [-> _]%lookup_replicate. }
  split; cbn; try done.
  - by eexists.
  - constructor.
  - constructor.
  - by left.
  - split; [|done]. by intros i t ->%Hr.
  - split; [|done]. by intros i t ->%Hr.
  - replace (omap owns (replicate n (@at_rest T))) with (@nil nat) by (clear Hr; by induction n). split; [apply NoDup_singleton|].
    intros k. rewrite list_elem_of_singleton. destruct (decide (k = O)) as [->|]; [by rewrite lookup_singleton_eq|].
    rewrite lookup_singleton_ne by done. split; [done|by intros []].
  - intros k Hk. apply lookup_singleton_ne. lia.
  - intros i t ->%Hr. by exists EEmpty.
Qed.

Lemma inv_reachable n w : reachable n w -> exists c, w = Ok c /\ Inv c.
Proof.
  induction 1 as [|c w H (c' & [= <-] & I) Hs]; [eexists; split; [done|apply inv_start]|].
  inversion Hs as [i t r o Hi Hp Ho|i t r Hi Hx]; subst.
  - eexists. split; [done|]. destruct I as (ns & l & I), t as [p e]. cbn in Hp. subst p.
    assert (exists p, o = p /\ (p = Deq1 \/ exists v, p = Enq1 v)) as (p & -> & Hp). { destruct Ho as [[v ->] | ->]; eexists; (split; [done|]); eauto. }
    exists ns, l. eapply (inv_quiet c ns l i _ _ (queue c) None I Hi); try done; destruct Hp as [-> | [v ->]]; try done;
      try (by eapply guards_keep; [apply I| |]); apply I.
  - destruct (inv_exec c i t r I Hi Hx) as (x & -> & HI). by eexists.
Qed.

(** *** Progress and the end *)

Definition returned (p : @pc T) : Prop := exists r, p = Return r.

Lemma in_enq_runs i q p : in_enq p = true -> exec i q p <> None.
Proof. by destruct p. Qed.

Lemma in_deq_runs i q p : in_deq p = true -> exec i q p <> None.
Proof. by destruct p. Qed.

Lemma inv_moves c i t : Inv c -> threads c !! i = Some t -> ~ returned (at_pc t) ->
  exists j u, threads c !! j = Some u /\ exec j (queue c) (at_pc u) <> None.
Proof.
  intros (ns & l & I) Hi Hp. destruct (exec i (queue c) (at_pc t)) eqn:Hx; [exists i, t; split; congruence|].
  destruct t as [p e]. cbn in *. destruct p; try done; cbn in Hx.
  - destruct (tail_mtx_ (queue c)) as [j|] eqn:Hm; [|done]. destruct (inv_enq _ _ _ I) as [H1 H2].
    destruct (H2 j Hm) as [u Hu]. exists j, u. split; [done|]. by apply in_enq_runs, (H1 j u Hu).
  - destruct (head_mtx_ (queue c)) as [j|] eqn:Hm; [|done]. destruct (inv_deq _ _ _ I) as [H1 H2].
    destruct (H2 j Hm) as [u Hu]. exists j, u. split; [done|]. by apply in_deq_runs, (H1 j u Hu).
  - destruct Hp. by eexists.
Qed.

Lemma destroy_links m ns fuel : links m ns -> NoDup ns -> (length ns < fuel)%nat ->
  destroy fuel (head ns) m = Ok (foldl (fun m n => delete n m) m ns).
Proof.
  revert m fuel. induction ns as [|n ns IH]; intros m fuel Hl Hd Hf; [done|]. destruct fuel as [|fuel]; [cbn in Hf; lia|].
  apply NoDup_cons in Hd as [Hn Hd]. destruct Hl as (v & Hv & Hr). cbn. rewrite Hv. cbn.
  destruct ns as [|n' ns]; [destruct fuel; [cbn in Hf; lia|done]|]. rewrite IH; [done| |done|cbn in Hf |- *; lia]. by apply links_delete.
Qed.

Lemma delete_all_empty m ns : (forall n, is_Some (m !! n) -> n ∈ ns) -> foldl (fun m n => delete n m) m ns = ∅.
Proof.
  revert m. induction ns as [|n ns IH]; intros m H; cbn.
  - apply map_eq. intros k. rewrite lookup_empty. destruct (m !! k) as [x|] eqn:E; [|done]. assert (k ∈ []) as Hk by by apply H; rewrite E.
    by apply elem_of_nil in Hk.
  - apply IH. intros k [x [Hne Hk]%lookup_delete_Some]. assert (k ∈ n :: ns) as Hin by by apply H; eexists.
    apply elem_of_cons in Hin as [->|]; done.
Qed.

Lemma inv_destroy c : Inv c -> (forall t, t ∈ threads c -> returned (at_pc t)) ->
  destroy (S (size (nodes (queue c)))) (Some (head_ (queue c))) (nodes (queue c)) = Ok ∅.
Proof.
  intros (ns & l & I) Hret. assert (omap owns (threads c) = []) as Ho.
  { revert Hret. generalize (threads c). intros ts. induction ts as [|t ts IH]; intros Hret; [done|]. cbn.
    destruct (Hret t) as [r Hr]; [by left|]. unfold owns at 1. rewrite Hr. apply IH. intros u Hu. apply Hret. by right. }
  pose proof (inv_covers _ _ _ I) as [Hd Hc]. rewrite Ho, app_nil_r in Hd. setoid_rewrite Ho in Hc. setoid_rewrite app_nil_r in Hc.
  rewrite <- (inv_head _ _ _ I), destroy_links; [by f_equal; apply delete_all_empty; intros n; apply Hc|apply I|done|].
  rewrite <- size_dom, <- (size_list_to_set (C := gset nat) ns) by done. apply Nat.lt_succ_r, subseteq_size. intros n Hn.
  apply elem_of_dom, Hc. by apply elem_of_list_to_set in Hn.
Qed.

(** *** Races *)

Ltac among H := repeat (apply elem_of_cons in H as [H|H]; [try discriminate H|]); [..|by apply elem_of_nil in H].

Lemma inv_race c ns l i j t u : Inv_with c ns l -> threads c !! i = Some t -> threads c !! j = Some u -> i <> j ->
  races (queue c) (at_pc t) (at_pc u) -> (exists v n, at_pc t = Enq3 v n) /\ at_pc u = Deq2 /\ tail_ (queue c) = head_ (queue c).
Proof.
  intros I Hi Hj Hne (x & w & Hx & Hy).
  assert (forall f o, guards f o (threads c) -> f (at_pc t) = true -> f (at_pc u) = true -> False) as Halone.
  { intros f o Hg Hf Hf'. by destruct Hne; eapply guards_alone. }
  pose proof (Halone _ _ (inv_enq _ _ _ I)) as He. pose proof (Halone _ _ (inv_deq _ _ _ I)) as Hd. clear Halone.
  pose proof (fun n => inv_apart _ _ _ _ _ n I Hi) as Hown. pose proof (fun n => inv_apart _ _ _ _ _ n I Hj) as Hown'.
  pose proof (fun n => inv_apart2 _ _ _ _ _ _ _ n I Hi Hj Hne) as Hown2.
  pose proof (inv_knows _ _ _ I j u Hj) as Hk. destruct (inv_first c ns l I) as (v0 & r0 & Ens & _).
  pose proof (fun v n => inv_tail_in c ns l i t v n I Hi) as Ht. pose proof (fun v n => inv_tail_in c ns l j u v n I Hj) as Hu.
  destruct t as [p e], u as [p' e']. cbn in *. unfold owns, knows in *. cbn in *.
  destruct p, p'; cbn in Hx, Hy; try (by exfalso; auto); among Hx; among Hy; simplify_eq.
  - split_and!; [by eexists _, _|done|done].
  - by destruct (Hown' _ eq_refl) as [[] _]; apply (Ht v new_tail).
  - by destruct (Hown _ eq_refl) as [[] _]; apply (Hu v1 new_tail).
  - destruct (Hown _ eq_refl) as [[] _]. by left.
  - destruct (Hown _ eq_refl) as [[] _], Hk as [[r E] _]. rewrite E. right. by left.
  - by destruct (Hown2 _ eq_refl).
  - by destruct (Hown2 _ eq_refl).
Qed.

(** An operation takes effect once. *)
Lemma inv_once c i t q p e : Inv c -> threads c !! i = Some t -> exec i (queue c) (at_pc t) = Some (Ok (q, p, Some e)) -> effect t = None.
Proof.
  intros (ns & l & I) Hi Hx. pose proof (inv_knows _ _ _ I i t Hi) as Hk. destruct t as [p0 e0].
  unfold knows in Hk. cbn in *. destruct p0; cbn in Hx; repeat case_match; simplify_eq; try done; try apply Hk.
  by destruct (nodes (queue c) !! old_head).
Qed.
End Proofs.

(** ** Properties *)

(** C15: However the steps of its threads interleave, no thread of the queue follows a bad
    pointer, and the operations behave as if each ran alone: they take effect one at a time,
    each once, what has taken effect is a run of a FIFO queue that leaves it with some contents
    [l], and what an operation returns is what it returned in that run.  Some thread can go on
    unless all have returned, and then the destructor frees every node. *)
Theorem tlqueue_linearizable {T} n (w : outcome (@config T)) (H : reachable n w) : exists c, w = Ok c /\
  (exists l, replay (log c) l) /\
  (forall i t r, threads c !! i = Some t -> at_pc t = Return r -> exists e, effect t = Some e /\ result_of e = r) /\
  (forall i t q p e, threads c !! i = Some t -> exec i (queue c) (at_pc t) = Some (Ok (q, p, Some e)) -> effect t = None) /\
  (forall i t, threads c !! i = Some t -> ~ returned (at_pc t) ->
    exists j u, threads c !! j = Some u /\ exec j (queue c) (at_pc u) <> None) /\
  ((forall t, t ∈ threads c -> returned (at_pc t)) ->
    destroy (S (size (nodes (queue c)))) (Some (head_ (queue c))) (nodes (queue c)) = Ok ∅).
Proof.
  destruct (inv_reachable n w H) as (c & -> & I). exists c. split; [done|]. split_and!.
  - destruct I as (ns & l & I). exists l. apply I.
  - intros i t r Hi Hp. destruct I as (ns & l & I). pose proof (inv_knows _ _ _ I i t Hi) as Hk. unfold knows in Hk. by rewrite Hp in Hk.
  - intros i t q p e. by apply inv_once.
  - intros i t. by apply inv_moves.
  - by apply inv_destroy.
Qed.

(** The two locks leave one data race: an [Enqueue] that stores [tail_->next] while a
    [Dequeue] reads [head_->next], when the queue is empty and both are the field of the
    sentinel. *)
Theorem tlqueue_race {T} n (c : @config T) i j t u (H : reachable n (Ok c)) (Hi : threads c !! i = Some t) (Hj : threads c !! j = Some u)
  (Hne : i <> j) (Hr : races (queue c) (at_pc t) (at_pc u)) :
  (exists v n, at_pc t = Enq3 v n) /\ at_pc u = Deq2 /\ tail_ (queue c) = head_ (queue c).
Proof. destruct (inv_reachable n _ H) as (c' & [= <-] & ns & l & I). by eapply inv_race. Qed.

(** *** Witnesses *)

(** A run: the thread that moves, with the operation it calls when it has returned. *)
Fixpoint play {T} (moves : list (nat * option (@pc T))) (c : @config T) : option config :=
  match moves with
  | [] => Some c
  | (i, Some o) :: moves =>
      match threads c !! i with
      | Some {| at_pc := Return _ |} => play moves (mk_config (queue c) (<[i := mk_thread o None]> (threads c)) (log c))
      | _ => None
      end
  | (i, None) :: moves =>
      match threads c !! i with
      | Some t => match exec i (queue c) (at_pc t) with Some (Ok x) => play moves (advance i t c x) | _ => None end
      | None => None
      end
  end.

Definition calls {T} (moves : list (nat * option (@pc T))) : Prop :=
  Forall (fun m => match m.2 with Some o => (exists v, o = Enqueue v) \/ o = Dequeue | None => True end) moves.

Lemma play_reachable {T} n moves (c c' : @config T) : calls moves -> reachable n (Ok c) -> play moves c = Some c' -> reachable n (Ok c').
Proof.
  revert c. induction moves as [|[i [o|]] moves IH]; intros c Hc H Hp; cbn in Hp; [by injection Hp as <-| |].
  - apply Forall_cons in Hc as [Ho Hc]. destruct (threads c !! i) as [t|] eqn:Hi; [|done]. destruct t as [[] e]; try done.
    eapply IH; [done| |exact Hp]. eapply reachable_step; [exact H|]. by eapply step_call.
  - apply Forall_cons in Hc as [_ Hc]. destruct (threads c !! i) as [t|] eqn:Hi; [|done].
    destruct (exec i (queue c) (at_pc t)) as [[x| | |]|] eqn:Hx; try done.
    eapply IH; [done| |exact Hp]. eapply reachable_step; [exact H|]. exact (step_run c i t (Ok x) Hi Hx).
Qed.

(** Two threads: one has stored 7 and is about to store 8, the other has taken 7. *)
Definition overlap : list (nat * option (@pc Z)) :=
  ((0, Some (Enqueue 7%Z)) :: replicate 5 (0, None) ++ (0, Some (Enqueue 8%Z)) :: (1, Some Dequeue) ::
   [(1, None); (0, None); (1, None); (0, None); (1, None); (1, None); (1, None); (1, None)])%nat.

(** Both at the sentinel of an empty queue. *)
Definition collide : list (nat * option (@pc Z)) :=
  ((0, Some (Enqueue 7%Z)) :: (1, Some Dequeue) :: [(0, None); (0, None); (1, None)])%nat.
Definition after (moves : list (nat * option (@pc Z))) : @config Z :=
  default (mk_config make [] []) (play moves (mk_config make (replicate 2 at_rest) [])).

Lemma runs_reachable moves : calls moves -> play moves (mk_config make (replicate 2 at_rest) []) <> None -> reachable 2 (Ok (after moves)).
Proof. intros Hc Hs. unfold after. destruct (play _ _) as [c|] eqn:Hp; [|done]. clear Hs. cbn. eapply play_reachable; [exact Hc| |exact Hp]. constructor. Qed.

#[local] Instance Ok_inj {A} : Inj (=) (=) (@Ok A).
Proof. by intros x y [= ->]. Qed.

Lemma overlap_reachable : reachable 2 (Ok (after overlap)).
Proof. apply runs_reachable; [|by vm_compute]. unfold calls. cbn. repeat (apply Forall_cons_2; [cbn; eauto|]). apply Forall_nil_2. Qed.

Lemma collide_reachable : reachable 2 (Ok (after collide)).
Proof. apply runs_reachable; [|by vm_compute]. unfold calls. cbn. repeat (apply Forall_cons_2; [cbn; eauto|]). apply Forall_nil_2. Qed.

Lemma tlqueue_linearizable_witness : reachable 2 (Ok (after overlap)) /\
  at_pc <$> threads (after overlap) = [Enq3 8%Z 2%nat; Return (Some (Some 7%Z))] /\ log (after overlap) = [EDequeue 7%Z; EEnqueue 7%Z] /\
  exists l, replay (log (after overlap)) l.
Proof.
  split; [exact overlap_reachable|]. split; [by vm_compute|]. split; [by vm_compute|].
  destruct (tlqueue_linearizable 2 (Ok (after overlap)) overlap_reachable) as (c & E & Hl & _). apply (inj Ok) in E. rewrite E. exact Hl.
Defined.

Lemma tlqueue_race_witness : reachable 2 (Ok (after collide)) /\
  races (queue (after collide)) (Enq3 7%Z 1%nat) Deq2 /\ tail_ (queue (after collide)) = head_ (queue (after collide)).
Proof.
  assert (races (queue (after collide)) (Enq3 7%Z 1%nat) (@Deq2 Z)) as Hr.
  { exists (Next 0), false. cbn. split; [right; left|right; left]. }
  split; [exact collide_reachable|]. split; [exact Hr|].
  apply (tlqueue_race 2 (after collide) 0 1 (mk_thread (Enq3 7%Z 1%nat) None) (mk_thread Deq2 None) collide_reachable); [by vm_compute..|done|exact Hr].
Defined.
