(* ===== verification/Pools.v ===== *)
(** * Pools of shared objects

    Models Object_Pool/src/object_pool.h and stock_pool.h: factories that hand out one shared
    object for a key while somebody holds it.  Both keep a table of weak pointers behind a
    mutex; they differ in what the deleter of an object does to the table.  The threads that
    hold the objects are modelled once, against the interface [Factory]; a critical section is
    one step, and so is each change of a reference count. *)

From stdpp Require Import gmap fin_maps.
From S2P Require Import Prelude Threads.

#[local] Open Scope Z_scope.

(** ** Objects and factories *)

(** An object with its control block; its number is its place in the heap. *)
Record Object := mk_Object { key : str; strong : Z; freed : bool }.

Definition live (h : list Object) (id : nat) : bool := match h !! id with Some o => 0 <? strong o | None => false end.

(** [weak_ptr::expired]; an empty weak pointer is [None]. *)
Definition expired (h : list Object) (w : option nat) : bool := match w with Some id => negb (live h id) | None => true end.

Definition count_ref (d : Z) (id : nat) (h : list Object) : list Object :=
  match h !! id with Some o => <[id := mk_Object (key o) (strong o + d) (freed o)]> h | None => h end.

(** [weak_ptr::lock]. *)
Definition lock (h : list Object) (w : option nat) : option (list Object * nat) :=
  match w with
  | Some id => if live h id then Some (count_ref 1 id h, id) else None
  | None => None
  end.

(** The table, what else changes when an object is created, and the critical section of the
    deleter; the other critical sections; does the deleter hold the factory by a weak
    pointer? *)
Class Factory (S : Type) := {
  pool : S -> gmap str (option nat);
  set_pool : gmap str (option nat) -> S -> S;
  created : S -> S;
  deleted : str -> S -> S;
  sections : list ((option nat -> bool) -> S -> S);
  guarded : bool
}.

Class FactoryOk (S : Type) `{!Factory S} := {
  pool_set p s : pool (set_pool p s) = p;
  pool_created s : pool (created s) = pool s;
  pool_deleted k s : pool (deleted k s) ⊆ pool s;
  pool_sections f e s : f ∈ sections -> pool (f e s) ⊆ pool s
}.

(** [Get]; [thrown] is the exception of the constructor of the object, if any. *)
Definition Get {S} `{!Factory S} (k : str) (thrown : option exn) (s : S) (h : list Object) : S * list Object * outcome nat :=
  let s := match pool s !! k with None => set_pool (<[k := None]> (pool s)) s | Some _ => s end in
  match lock h (default None (pool s !! k)) with
  | Some (h, id) => (s, h, Ok id)
  | None =>
      match thrown with
      | Some e => (s, h, Throw e)
      | None => (created (set_pool (<[k := Some (length h)]> (pool s)) s), h ++ [mk_Object k 1 false], Ok (length h))
      end
  end.

(** ** Threads *)

(** [Deleting]: the count has reached zero and the deleter runs; [Freeing]: it is past its
    critical section. *)
Inductive pc := Idle | Deleting (id : nat) | Freeing (id : nat).

#[global] Instance pc_eq_dec : EqDecision pc.
Proof. solve_decision. Defined.

Record thread := mk_thread { held : list nat; at_pc : pc }.
Record config (S : Type) := mk_config { factory : S; alive : bool; objects : list Object; threads : list thread }.
Arguments mk_config {S}.
Arguments factory {S}.
Arguments alive {S}.
Arguments objects {S}.
Arguments threads {S}.

Section Steps.
Context {S : Type} `{!Factory S}.

Definition acquire (id : nat) (t : thread) : thread := mk_thread (id :: held t) (at_pc t).

(** The owner of the [n]th pointer of thread [t] gives it back. *)
Definition release (n id : nat) (h : list Object) (t : thread) : thread :=
  mk_thread (delete n (held t)) (if live (count_ref (-1) id h) id then Idle else Deleting id).

(** A call of a thread, or a step of the deleter. *)
Inductive label := Call | Deleter.

Inductive step (c : config S) : label -> outcome (config S) -> Prop :=
| step_get i t k e :
    threads c !! i = Some t -> at_pc t = Idle -> alive c = true ->
    step c Call (let '(s, h, r) := Get k e (factory c) (objects c) in
                 Ok (mk_config s (alive c) h (<[i := match r with Ok id => acquire id t | _ => t end]> (threads c))))
| step_section i t f :
    threads c !! i = Some t -> at_pc t = Idle -> alive c = true -> f ∈ sections ->
    step c Call (Ok (mk_config (f (expired (objects c)) (factory c)) (alive c) (objects c) (threads c)))
| step_copy i t id :
    threads c !! i = Some t -> at_pc t = Idle -> id ∈ held t ->
    step c Call (Ok (mk_config (factory c) (alive c) (count_ref 1 id (objects c)) (<[i := acquire id t]> (threads c))))
| step_use i t id :
    threads c !! i = Some t -> at_pc t = Idle -> id ∈ held t ->
    step c Call (o ← the (objects c !! id); if freed o then Undef else Ok c)
| step_give i j t u n id :
    threads c !! i = Some t -> threads c !! j = Some u -> i <> j -> at_pc t = Idle -> held t !! n = Some id ->
    step c Call (Ok (mk_config (factory c) (alive c) (objects c)
                       (<[j := acquire id u]> (<[i := mk_thread (delete n (held t)) (at_pc t)]> (threads c)))))
| step_release i t n id :
    threads c !! i = Some t -> at_pc t = Idle -> held t !! n = Some id ->
    step c Call (Ok (mk_config (factory c) (alive c) (count_ref (-1) id (objects c)) (<[i := release n id (objects c) t]> (threads c))))
| step_end i t :
    threads c !! i = Some t -> at_pc t = Idle -> guarded = true ->
    step c Call (Ok (mk_config (factory c) false (objects c) (threads c)))
| step_delete i t id :
    threads c !! i = Some t -> at_pc t = Deleting id ->
    step c Deleter (o ← the (objects c !! id);
                    Ok (mk_config (if alive c then deleted (key o) (factory c) else factory c) (alive c) (objects c)
                          (<[i := mk_thread (held t) (Freeing id)]> (threads c))))
| step_free i t id :
    threads c !! i = Some t -> at_pc t = Freeing id ->
    step c Deleter (o ← the (objects c !! id);
                    if freed o then Undef else
                    Ok (mk_config (factory c) (alive c) (<[id := mk_Object (key o) (strong o) true]> (objects c))
                          (<[i := mk_thread (held t) Idle]> (threads c)))).

Definition start (s : S) (n : nat) : config S := mk_config s true [] (replicate n (mk_thread [] Idle)).

Inductive reachable (s : S) (n : nat) : outcome (config S) -> Prop :=
| reachable_start : reachable s n (Ok (start s n))
| reachable_step c l w : reachable s n (Ok c) -> step c l w -> reachable s n w.

(** A deleter runs to its end before anything else happens. *)
Definition quiet (c : config S) : Prop := Forall (fun t => at_pc t = Idle) (threads c).

Inductive serial (s : S) (n : nat) : config S -> Prop :=
| serial_start : serial s n (start s n)
| serial_call c c' : serial s n c -> quiet c -> step c Call (Ok c') -> serial s n c'
| serial_deleter c c' : serial s n c -> step c Deleter (Ok c') -> serial s n c'.
End Steps.

(** ** The two factories *)

(** object_pool.h: the deleter removes the entry. *)
Module ObjectFactory.
Definition DeleteObject (k : str) (p : gmap str (option nat)) : gmap str (option nat) := delete k p.

#[global] Instance object_factory : Factory (gmap str (option nat)) := {|
  pool p := p; set_pool p _ := p; created p := p; deleted := DeleteObject; sections := []; guarded := false |}.
End ObjectFactory.

(** stock_pool.h: the deleter counts; dead entries stay until [Prune]. *)
Module StockFactory.
Record StockFactory := mk_StockFactory { created_ : Z; dead_ : Z; stock_pool_ : gmap str (option nat) }.

Definition make : StockFactory := mk_StockFactory 0 0 ∅.

Definition stock_count (s : StockFactory) : nat := size (stock_pool_ s).

Definition IncrementDead (s : StockFactory) : StockFactory := mk_StockFactory (created_ s) (wrap 64 (dead_ s + 1)) (stock_pool_ s).

(** What the ratio divides by the number of entries. *)
Definition zombies (s : StockFactory) : Z := wrap 64 (dead_ s - wrap 64 (created_ s - Z.of_nat (stock_count s))).

Definition pruned (e : option nat -> bool) (p : gmap str (option nat)) : gmap str (option nat) :=
  filter (fun x => e x.2 = false) p.

(** The numbers it prints: the two parts of the ratio, the pruned entries. *)
Definition Prune (e : option nat -> bool) (s : StockFactory) : StockFactory * (Z * nat) * nat :=
  let p := pruned e (stock_pool_ s) in
  (mk_StockFactory (Z.of_nat (size p)) 0 p, (zombies s, stock_count s), (stock_count s - size p)%nat).

#[global] Instance stock_factory : Factory StockFactory := {|
  pool := stock_pool_;
  set_pool p s := mk_StockFactory (created_ s) (dead_ s) p;
  created s := mk_StockFactory (wrap 64 (created_ s + 1)) (dead_ s) (stock_pool_ s);
  deleted _ := IncrementDead;
  sections := [fun e s => (Prune e s).1.1];
  guarded := true |}.
End StockFactory.

(** ** Counting the references *)

Definition one (id j : nat) : Z := if decide (id = j) then 1 else 0.
Definition cnt (id : nat) (l : list nat) : Z := sum_of (one id) l.
Definition doomed (id : nat) (p : pc) : Z := match p with Idle => 0 | Deleting j | Freeing j => one id j end.
Definition refs (id : nat) (ts : list thread) : Z := sum_of (fun t => cnt id (held t)) ts.
Definition dying (id : nat) (ts : list thread) : Z := sum_of (fun t => doomed id (at_pc t)) ts.
Definition status (o : Object) : Z := (if 0 <? strong o then 1 else 0) + (if freed o then 1 else 0).

Lemma one_nonneg id j : 0 <= one id j.
Proof. unfold one. by case_decide. Qed.

Lemma one_eq id : one id id = 1.
Proof. unfold one. by rewrite decide_True. Qed.

Lemma one_ne id j : id <> j -> one id j = 0.
Proof. intros H. unfold one. by rewrite decide_False. Qed.

Lemma cnt_nonneg id l : 0 <= cnt id l.
Proof. apply sum_of_nonneg. intros j. apply one_nonneg. Qed.

Lemma doomed_nonneg id p : 0 <= doomed id p.
Proof. destruct p; [done|apply one_nonneg..]. Qed.

Lemma cnt_elem id l : id ∈ l -> 1 <= cnt id l.
Proof.
  intros [n Hn]%list_elem_of_lookup. pose proof (sum_of_elem (one id) l n id (one_nonneg id) Hn) as H.
  rewrite one_eq in H. exact H.
Qed.

Lemma cnt_delete id l n j : l !! n = Some j -> cnt id (delete n l) = cnt id l - one id j.
Proof.
  unfold cnt. revert n. induction l as [|x l IH]; intros [|n] Hn; [done..| |].
  - injection Hn as ->. cbn. lia.
  - change (delete (S n) (x :: l)) with (x :: delete n l). cbn [sum_of]. rewrite (IH n Hn). lia.
Qed.

Lemma refs_nonneg id ts : 0 <= refs id ts.
Proof. apply sum_of_nonneg. intros t. apply cnt_nonneg. Qed.

Lemma dying_nonneg id ts : 0 <= dying id ts.
Proof. apply sum_of_nonneg. intros t. apply doomed_nonneg. Qed.

Lemma refs_held id ts i t : ts !! i = Some t -> id ∈ held t -> 1 <= refs id ts.
Proof.
  intros Hi Hid. pose proof (cnt_elem id _ Hid).
  pose proof (sum_of_elem (fun t => cnt id (held t)) ts i t (fun t => cnt_nonneg id (held t)) Hi) as Hs. unfold refs. cbn in Hs. lia.
Qed.

Lemma dying_doomed id ts i t : ts !! i = Some t -> doomed id (at_pc t) <= dying id ts.
Proof. apply (sum_of_elem (fun t => doomed id (at_pc t))). intros u. apply doomed_nonneg. Qed.

Lemma refs_insert id ts i t t' : ts !! i = Some t -> refs id (<[i := t']> ts) = refs id ts - cnt id (held t) + cnt id (held t').
Proof. apply (sum_of_insert (fun t => cnt id (held t))). Qed.

Lemma dying_insert id ts i t t' : ts !! i = Some t -> dying id (<[i := t']> ts) = dying id ts - doomed id (at_pc t) + doomed id (at_pc t').
Proof. apply (sum_of_insert (fun t => doomed id (at_pc t))). Qed.

Lemma count_ref_at d id h o : h !! id = Some o -> count_ref d id h = <[id := mk_Object (key o) (strong o + d) (freed o)]> h.
Proof. intros Ho. unfold count_ref. by rewrite Ho. Qed.

Lemma live_at h id o : h !! id = Some o -> live h id = (0 <? strong o).
Proof. intros Ho. unfold live. by rewrite Ho. Qed.

Lemma lock_some h w h' id : lock h w = Some (h', id) ->
  exists o, w = Some id /\ h !! id = Some o /\ 0 < strong o /\ h' = <[id := mk_Object (key o) (strong o + 1) (freed o)]> h.
Proof.
  destruct w as [j|]; [|done]. cbn. destruct (live h j) eqn:Hl; [|done]. intros [= <- ->]. unfold live in Hl.
  destruct (h !! id) as [o|] eqn:Ho; [|done]. exists o. split_and!; [done..|lia|by rewrite (count_ref_at _ _ _ o)].
Qed.

Lemma lock_none h w : lock h w = None -> expired h w = true.
Proof. destruct w as [id|]; [|done]. cbn. by destruct (live h id). Qed.

(** ** The invariant *)

Section Invariant.
Context {S : Type} `{!Factory S, !FactoryOk S}.
Implicit Types (c : config S).

Record Inv c : Prop := {
  inv_obj id o : objects c !! id = Some o -> strong o = refs id (threads c) /\ status o + dying id (threads c) = 1;
  inv_ref id : 0 < refs id (threads c) + dying id (threads c) -> is_Some (objects c !! id);
  inv_pool k id : pool (factory c) !! k = Some (Some id) -> exists o, objects c !! id = Some o /\ key o = k
}.

Lemma pools_start s n : (forall k id, pool s !! k <> Some (Some id)) -> Inv (start s n).
Proof.
  intros Hs. assert (forall f : thread -> Z, f (mk_thread [] Idle) = 0 -> sum_of f (replicate n (mk_thread [] Idle)) = 0) as H0.
  { intros f Hf. induction n as [|n IH]; cbn; [done|]. rewrite Hf, IH. done. }
  split; cbn.
  - by intros.
  - intros id. unfold refs, dying. rewrite !H0 by done. lia.
  - intros k id H. by apply Hs in H.
Qed.

(** A thread and an object change together. *)
Lemma pools_change c i t t' id o o' s' a' : Inv c -> threads c !! i = Some t -> objects c !! id = Some o -> key o' = key o ->
  strong o' = strong o + cnt id (held t') - cnt id (held t) ->
  status o' + doomed id (at_pc t') = status o + doomed id (at_pc t) ->
  (forall j, j <> id -> cnt j (held t') = cnt j (held t) /\ doomed j (at_pc t') = doomed j (at_pc t)) ->
  (forall k j, pool s' !! k = Some (Some j) -> pool (factory c) !! k = Some (Some j)) ->
  Inv (mk_config s' a' (<[id := o']> (objects c)) (<[i := t']> (threads c))).
Proof.
  intros I Hi Ho Hk Hs Hst Hj Hp. pose proof (lookup_lt_Some _ _ _ Ho) as Hlt.
  split; cbn [objects threads factory].
  - intros j u Hu. rewrite (refs_insert _ _ _ _ _ Hi), (dying_insert _ _ _ _ _ Hi). destruct (decide (j = id)) as [->|Hne].
    + rewrite list_lookup_insert_eq in Hu by done. injection Hu as <-. pose proof (inv_obj c I id o Ho). lia.
    + rewrite list_lookup_insert_ne in Hu by done. pose proof (inv_obj c I j u Hu). destruct (Hj j Hne). lia.
  - intros j. rewrite (refs_insert _ _ _ _ _ Hi), (dying_insert _ _ _ _ _ Hi). intros H. apply lookup_lt_is_Some. rewrite length_insert.
    destruct (decide (j = id)) as [->|Hne]; [done|]. apply lookup_lt_is_Some, (inv_ref c I). destruct (Hj j Hne). lia.
  - intros k j Hkj. destruct (inv_pool c I k j (Hp k j Hkj)) as (u & Hu & Hku). destruct (decide (j = id)) as [->|Hne].
    + exists o'. rewrite list_lookup_insert_eq by done. split; [done|congruence].
    + exists u. by rewrite list_lookup_insert_ne.
Qed.

(** The table loses entries. *)
Lemma inv_table c s' a' : Inv c -> pool s' ⊆ pool (factory c) -> Inv (mk_config s' a' (objects c) (threads c)).
Proof. intros I Hs. split; cbn; [apply I..|]. intros k id Hk. apply (inv_pool c I). by eapply lookup_weaken. Qed.

Lemma acquire_cnt id j t : cnt j (held (acquire id t)) = one j id + cnt j (held t).
Proof. done. Qed.

(** A thread takes one more pointer to a live object. *)
Lemma inv_acquire c i t id o s' : Inv c -> threads c !! i = Some t -> objects c !! id = Some o -> 0 < strong o ->
  (forall k j, pool s' !! k = Some (Some j) -> pool (factory c) !! k = Some (Some j)) ->
  Inv (mk_config s' (alive c) (<[id := mk_Object (key o) (strong o + 1) (freed o)]> (objects c)) (<[i := acquire id t]> (threads c))).
Proof.
  intros I Hi Ho Hl Hp. eapply pools_change; try done.
  - cbn [strong]. rewrite acquire_cnt, one_eq. lia.
  - unfold status. cbn [strong freed acquire at_pc]. rewrite !(proj2 (Z.ltb_lt _ _)) by lia. done.
  - intros j Hj. rewrite acquire_cnt, one_ne by done. done.
Qed.

Lemma emplace_pool k s : let s' := match pool s !! k with None => set_pool (<[k := None]> (pool s)) s | Some _ => s end in
  is_Some (pool s' !! k) /\ default None (pool s' !! k) = default None (pool s !! k) /\ (forall j, j <> k -> pool s' !! j = pool s !! j).
Proof.
  destruct (pool s !! k) as [w|] eqn:Hk; cbn; [rewrite Hk; by split_and!; [eexists|..]|]. rewrite pool_set.
  split_and!; [by rewrite lookup_insert_eq; eexists|by rewrite lookup_insert_eq|]. intros j Hj. by rewrite lookup_insert_ne.
Qed.

Lemma inv_get c i t k e : Inv c -> threads c !! i = Some t ->
  let '(s, h, r) := Get k e (factory c) (objects c) in
  Inv (mk_config s (alive c) h (<[i := match r with Ok id => acquire id t | _ => t end]> (threads c))).
Proof.
  intros I Hi. unfold Get. destruct (emplace_pool k (factory c)) as (_ & Hw & Hj). cbv zeta.
  set (s1 := match pool (factory c) !! k with None => _ | Some _ => _ end) in *.
  assert (forall j id, pool s1 !! j = Some (Some id) -> pool (factory c) !! j = Some (Some id)) as Hp.
  { intros j id Hs. destruct (decide (j = k)) as [->|Hne]; [|by rewrite <- Hj]. rewrite Hs in Hw. cbn in Hw.
    destruct (pool (factory c) !! k); cbn in Hw; congruence. }
  destruct (lock (objects c) _) as [[h' id]|] eqn:Hl.
  - apply lock_some in Hl as (o & _ & Ho & Hpos & ->). by apply inv_acquire.
  - destruct e as [e|]; [rewrite list_insert_id by done; split; cbn; [apply I..|]; intros j id Hs; by eapply inv_pool, Hp|].
    clear Hl. set (new := length (objects c)). assert (objects c !! new = None) as Hnew by by apply lookup_ge_None.
    assert (refs new (threads c) + dying new (threads c) <= 0) as H0.
    { apply Z.nlt_ge. intros H. apply (inv_ref c I) in H as [? ?]. congruence. }
    pose proof (refs_nonneg new (threads c)). pose proof (dying_nonneg new (threads c)).
    split; cbn [objects threads factory].
    + intros j u Hu. rewrite (refs_insert _ _ _ _ _ Hi), (dying_insert _ _ _ _ _ Hi), acquire_cnt. cbn [acquire at_pc].
      apply lookup_snoc_Some in Hu as [[_ Hu]|[-> <-]].
      * assert (j <> new) by by intros ->; congruence. rewrite one_ne by done. pose proof (inv_obj c I j u Hu). lia.
      * fold new. rewrite one_eq. change (status (mk_Object k 1 false)) with 1. cbn [strong]. lia.
    + intros j. rewrite (refs_insert _ _ _ _ _ Hi), (dying_insert _ _ _ _ _ Hi), acquire_cnt. cbn [acquire at_pc]. intros Hpos.
      apply lookup_lt_is_Some. rewrite length_app. cbn. destruct (decide (j = new)) as [->|Hne]; [lia|]. rewrite one_ne in Hpos by done.
      assert (is_Some (objects c !! j)) as Hs by (apply (inv_ref c I); lia). apply lookup_lt_is_Some in Hs. lia.
    + rewrite pool_created, pool_set. intros j id Hs. destruct (decide (j = k)) as [->|Hne].
      * rewrite lookup_insert_eq in Hs. injection Hs as <-. exists (mk_Object k 1 false). by rewrite lookup_app_r, Nat.sub_diag by done.
      * rewrite lookup_insert_ne in Hs by done. destruct (inv_pool c I j id (Hp j id Hs)) as (o & Ho & Hk). exists o.
        split; [by apply lookup_app_l_Some|done].
Qed.

Lemma inv_release c i t n id : Inv c -> threads c !! i = Some t -> at_pc t = Idle -> held t !! n = Some id ->
  Inv (mk_config (factory c) (alive c) (count_ref (-1) id (objects c)) (<[i := release n id (objects c) t]> (threads c))).
Proof.
  intros I Hi Hp Hn. assert (id ∈ held t) as Hid by by eapply list_elem_of_lookup_2.
  pose proof (refs_held _ _ _ _ Hi Hid) as Hr. pose proof (dying_nonneg id (threads c)).
  destruct (inv_ref c I id) as [o Ho]; [lia|]. pose proof (inv_obj c I id o Ho) as [Hs _].
  unfold release. rewrite (count_ref_at _ _ _ o) by done. rewrite (live_at _ _ (mk_Object (key o) (strong o + -1) (freed o)))
    by by apply list_lookup_insert_eq; eapply lookup_lt_Some. cbn [strong].
  eapply pools_change; try done; cbn [strong held at_pc].
  - rewrite (cnt_delete _ _ _ _ Hn), one_eq. lia.
  - unfold status. cbn [strong freed]. rewrite Hp, (proj2 (Z.ltb_lt 0 (strong o))) by lia.
    destruct (Z.ltb_spec 0 (strong o + -1)); cbn [doomed]; rewrite ?one_eq; lia.
  - intros j Hj. rewrite (cnt_delete _ _ _ _ Hn), one_ne, Hp by done. split; [lia|]. destruct (0 <? _); [done|]. by apply one_ne.
Qed.

Lemma pools_give c i j t u n id : Inv c -> threads c !! i = Some t -> threads c !! j = Some u -> i <> j -> held t !! n = Some id ->
  Inv (mk_config (factory c) (alive c) (objects c) (<[j := acquire id u]> (<[i := mk_thread (delete n (held t)) (at_pc t)]> (threads c)))).
Proof.
  intros I Hi Hj Hne Hn. assert (<[i := mk_thread (delete n (held t)) (at_pc t)]> (threads c) !! j = Some u) as Hj'
    by by rewrite list_lookup_insert_ne.
  assert (forall k, refs k (<[j := acquire id u]> (<[i := mk_thread (delete n (held t)) (at_pc t)]> (threads c))) = refs k (threads c)) as Hr.
  { intros k. rewrite (refs_insert _ _ _ _ _ Hj'), (refs_insert _ _ _ _ _ Hi), acquire_cnt. cbn [held]. rewrite (cnt_delete _ _ _ _ Hn). lia. }
  assert (forall k, dying k (<[j := acquire id u]> (<[i := mk_thread (delete n (held t)) (at_pc t)]> (threads c))) = dying k (threads c)) as Hd.
  { intros k. rewrite (dying_insert _ _ _ _ _ Hj'), (dying_insert _ _ _ _ _ Hi). cbn [acquire at_pc]. lia. }
  split; cbn [objects threads factory].
  - intros k o. rewrite Hr, Hd. apply I.
  - intros k. rewrite Hr, Hd. apply I.
  - apply I.
Qed.

(** An object that is not freed has a pointer or a deleter. *)
Lemma inv_kept c id o : Inv c -> objects c !! id = Some o -> freed o = false ->
  exists i t, threads c !! i = Some t /\ (id ∈ held t \/ at_pc t = Deleting id \/ at_pc t = Freeing id).
Proof.
  intros I Ho Hf. pose proof (inv_obj c I id o Ho) as [Hs Hsum]. unfold status in Hsum. rewrite Hf in Hsum.
  destruct (Z.ltb_spec 0 (strong o)).
  - destruct (sum_of_pos (fun t => cnt id (held t)) (threads c)) as (i & t & Hi & Hp); [unfold refs in Hs; lia|]. exists i, t. split; [done|left].
    destruct (sum_of_pos (one id) (held t) Hp) as (n & j & Hn & Hj). unfold one in Hj. case_decide; [subst j|done]. by eapply list_elem_of_lookup_2.
  - destruct (sum_of_pos (fun t => doomed id (at_pc t)) (threads c)) as (i & t & Hi & Hp); [unfold dying in Hsum; lia|]. exists i, t. split; [done|right].
    destruct (at_pc t) as [|j|j]; [done|left|right]; cbn in Hp; unfold one in Hp; case_decide; by subst.
Qed.

(** Every step is defined and keeps the invariant. *)
Lemma pools_step c l w : Inv c -> step c l w -> exists c', w = Ok c' /\ Inv c'.
Proof.
  intros I Hs. destruct Hs as [i t k e Hi Hp Ha|i t f Hi Hp Ha Hf|i t id Hi Hp Hid|i t id Hi Hp Hid|i j t u n id Hi Hj Hne Hp Hn|i t n id Hi Hp Hn|i t Hi Hp Hg|i t id Hi Hp|i t id Hi Hp].
  - pose proof (inv_get c i t k e I Hi) as H. destruct (Get k e _ _) as [[s h] r]. by eexists.
  - eexists. split; [done|]. apply inv_table; [done|by apply pool_sections].
  - pose proof (refs_held _ _ _ _ Hi Hid). pose proof (dying_nonneg id (threads c)). destruct (inv_ref c I id) as [o Ho]; [lia|].
    rewrite (count_ref_at _ _ _ o) by done. eexists. split; [done|]. pose proof (inv_obj c I id o Ho). apply inv_acquire; [done..|lia|done].
  - pose proof (refs_held _ _ _ _ Hi Hid). pose proof (dying_nonneg id (threads c)). destruct (inv_ref c I id) as [o Ho]; [lia|].
    rewrite Ho. cbn. pose proof (inv_obj c I id o Ho) as [Hst Hsum]. unfold status in Hsum. rewrite (proj2 (Z.ltb_lt 0 (strong o))) in Hsum by lia.
    destruct (freed o); [lia|]. by eexists.
  - eexists. split; [done|]. by apply pools_give.
  - eexists. split; [done|]. by apply inv_release.
  - eexists. split; [done|]. by apply inv_table.
  - pose proof (dying_doomed id _ _ _ Hi) as Hd. rewrite Hp in Hd. cbn in Hd. rewrite one_eq in Hd. pose proof (refs_nonneg id (threads c)).
    destruct (inv_ref c I id) as [o Ho]; [lia|]. rewrite Ho. cbn. eexists. split; [done|].
    rewrite <- (list_insert_id (objects c) id o) by done. eapply pools_change; try done; cbn [held at_pc]; rewrite ?Hp; try done; [lia|].
    intros k j Hk. destruct (alive c); [|done]. eapply lookup_weaken; [exact Hk|apply pool_deleted].
  - pose proof (dying_doomed id _ _ _ Hi) as Hd. rewrite Hp in Hd. cbn in Hd. rewrite one_eq in Hd. pose proof (refs_nonneg id (threads c)).
    destruct (inv_ref c I id) as [o Ho]; [lia|]. rewrite Ho. cbn. pose proof (inv_obj c I id o Ho) as [_ Hsum]. unfold status in Hsum.
    assert (freed o = false) as Hf by (destruct (freed o), (0 <? strong o); lia || done). rewrite Hf. eexists. split; [done|].
    eapply pools_change; try done; cbn [held at_pc strong key]; rewrite ?Hp; try done; [lia| |].
    + unfold status. cbn [strong freed doomed]. rewrite Hf, one_eq. lia.
    + intros j Hj. cbn. by rewrite one_ne.
Qed.

Lemma pools_reachable s n w : (forall k id, pool s !! k <> Some (Some id)) -> reachable s n w -> exists c, w = Ok c /\ Inv c.
Proof.
  intros Hs. induction 1 as [|c l w H (c' & [= <-] & I) Hst]; [eexists; split; [done|by apply pools_start]|]. by eapply pools_step.
Qed.
End Invariant.

(** *** The table and the live objects *)

(** Live objects are in the table under their keys, so that there is one for each key. *)
Definition shared {S} `{!Factory S} (c : config S) : Prop :=
  forall id o, objects c !! id = Some o -> 0 < strong o -> pool (factory c) !! key o = Some (Some id).

Section Shared.
Context {S : Type} `{!Factory S, !FactoryOk S}.
Implicit Types (c : config S).

Lemma shared_unique c a b o u : shared c -> objects c !! a = Some o -> objects c !! b = Some u -> 0 < strong o -> 0 < strong u ->
  key o = key u -> a = b.
Proof. intros Hs Ha Hb Hla Hlb Hk. pose proof (Hs a o Ha Hla). pose proof (Hs b u Hb Hlb). congruence. Qed.

(** An object changes, and is live only if it was. *)
Lemma shared_change c id o o' s' a' ts : shared c -> objects c !! id = Some o -> key o' = key o -> (0 < strong o' -> 0 < strong o) ->
  (forall k j, pool (factory c) !! k = Some (Some j) -> live (<[id := o']> (objects c)) j = true -> pool s' !! k = Some (Some j)) ->
  shared (mk_config s' a' (<[id := o']> (objects c)) ts).
Proof.
  intros Hs Ho Hk Hl Hp j u Hu Hlj. cbn in *. pose proof (lookup_lt_Some _ _ _ Ho) as Hlt.
  apply Hp; [|unfold live; rewrite Hu; lia]. destruct (decide (j = id)) as [->|Hne].
  - rewrite list_lookup_insert_eq in Hu by done. injection Hu as <-. rewrite Hk. apply Hs; [done|]. by apply Hl.
  - rewrite list_lookup_insert_ne in Hu by done. by apply Hs.
Qed.

(** [Get] looks the key up before it makes an object. *)
Lemma shared_get c k e ts : Inv c -> shared c ->
  let '(s, h, r) := Get k e (factory c) (objects c) in shared (mk_config s (alive c) h ts).
Proof.
  intros I Hs. unfold Get. destruct (emplace_pool k (factory c)) as (Hk & Hw & Hj). cbv zeta.
  set (s1 := match pool (factory c) !! k with None => _ | Some _ => _ end) in *.
  assert (forall j id, pool (factory c) !! j = Some (Some id) -> pool s1 !! j = Some (Some id)) as Hp.
  { intros j id Hjs. destruct (decide (j = k)) as [->|Hne]; [|by rewrite Hj]. rewrite Hjs in Hw. destruct Hk as [w Hk]. rewrite Hk in Hw |- *. cbn in Hw. by subst. }
  destruct (lock (objects c) _) as [[h' id]|] eqn:Hl.
  - apply lock_some in Hl as (o & _ & Ho & Hpos & ->). eapply shared_change; [done|exact Ho|done|done|]. intros. by apply Hp.
  - destruct e as [e|]; [intros id o Ho Hlo; by apply Hp, Hs|].
    intros id o Ho Hlo. cbn in *. rewrite pool_created, pool_set. apply lookup_snoc_Some in Ho as [[Hlt Ho]|[-> <-]]; cbn; [|by rewrite lookup_insert_eq].
    assert (key o <> k) as Hne; [|rewrite lookup_insert_ne by done; by apply Hp, Hs].
    intros <-. rewrite (Hp (key o) id) in Hl by by apply Hs. cbn in Hl. unfold live in Hl. rewrite Ho in Hl. rewrite (proj2 (Z.ltb_lt 0 (strong o))) in Hl by done. done.
Qed.

Lemma shared_copy c i t id : Inv c -> shared c -> threads c !! i = Some t -> id ∈ held t ->
  forall ts, shared (mk_config (factory c) (alive c) (count_ref 1 id (objects c)) ts).
Proof.
  intros I Hs Hi Hid ts. pose proof (refs_held _ _ _ _ Hi Hid). pose proof (dying_nonneg id (threads c)).
  destruct (inv_ref c I id) as [o Ho]; [lia|]. pose proof (inv_obj c I id o Ho) as [Hst _]. rewrite (count_ref_at _ _ _ o) by done.
  eapply shared_change; [done|exact Ho|done|lia|done].
Qed.

Lemma shared_release c id ts : Inv c -> shared c -> shared (mk_config (factory c) (alive c) (count_ref (-1) id (objects c)) ts).
Proof.
  intros I Hs. unfold count_ref. destruct (objects c !! id) as [o|] eqn:Ho; [|done]. eapply shared_change; [done|exact Ho|done|cbn; lia|done].
Qed.

(** A deleter that leaves the table alone, and sections that keep the live entries. *)
Lemma shared_step c l c' : (forall k s, pool (deleted k s) = pool s) ->
  (forall f e s k w, f ∈ sections -> pool s !! k = Some w -> e w = false -> pool (f e s) !! k = Some w) ->
  Inv c -> shared c -> step c l (Ok c') -> shared c'.
Proof.
  intros Hd Hf I Hs Hst. inversion Hst as [i t k e Hi Hp Ha E0 E|i t f Hi Hp Ha Hfs|i t id Hi Hp Hid|i t id Hi Hp Hid|i j t u n id Hi Hj Hne Hp Hn|i t n id Hi Hp Hn|i t Hi Hp Hg|i t id Hi Hp E0 E|i t id Hi Hp E0 E]; subst; try done.
  - pose proof (shared_get c k e (threads c') I Hs) as HG. destruct (Get k e _ _) as [[s h] r]. by injection E as <-.
  - intros id o Ho Hl. cbn in *. apply Hf; [done|by apply Hs|]. cbn. unfold live. rewrite Ho, (proj2 (Z.ltb_lt 0 (strong o))) by done. done.
  - by eapply shared_copy.
  - destruct (objects c !! id) as [o|] eqn:Ho; [|done]. cbn in *. destruct (freed o); [done|]. by simplify_eq.
  - by apply shared_release.
  - destruct (objects c !! id) as [o|] eqn:Ho; [|done]. injection E as <-. intros j u Hu Hl. cbn in *. destruct (alive c); rewrite ?Hd; by apply Hs.
  - destruct (objects c !! id) as [o|] eqn:Ho; [|done]. cbn in *. destruct (freed o); [done|]. injection E as <-.
    eapply shared_change; [done|exact Ho|done|done|done].
Qed.
End Shared.

(** *** The object factory, one deleter at a time *)

Section ObjectFactoryProofs.
Import ObjectFactory.
Implicit Types (c : config (gmap str (option nat))).

#[global] Instance object_factory_ok : FactoryOk (gmap str (option nat)).
Proof. split; cbn; [done|done|intros; apply delete_subseteq|by intros f e s Hf%elem_of_nil]. Qed.

Record Serial c : Prop := {
  serial_inv : Inv c;
  serial_shared : shared c;
  serial_alive : alive c = true;
  serial_one i j t u : threads c !! i = Some t -> threads c !! j = Some u -> at_pc t <> Idle -> at_pc u <> Idle -> i = j;
  serial_entry i t id o : threads c !! i = Some t -> at_pc t = Deleting id -> objects c !! id = Some o -> pool (factory c) !! key o = Some (Some id);
  serial_tight k id : pool (factory c) !! k = Some (Some id) -> live (objects c) id = true \/ exists i t, threads c !! i = Some t /\ at_pc t = Deleting id
}.

Lemma quiet_lookup c i t : quiet c -> threads c !! i = Some t -> at_pc t = Idle.
Proof. intros Hq Hi. exact (proj1 (Forall_lookup _ _) Hq i t Hi). Qed.

(** When no deleter runs, the table holds the live objects and no others. *)
Lemma serial_quiet c : Inv c -> shared c -> alive c = true -> quiet c -> (forall k id, pool (factory c) !! k = Some (Some id) -> live (objects c) id = true) -> Serial c.
Proof.
  intros I Hs Ha Hq Ht. split; [done|done|done| | |].
  - intros i j t u Hi _ Hp _. by destruct Hp; eapply quiet_lookup.
  - intros i t id o Hi Hp _. by rewrite (quiet_lookup c i t Hq Hi) in Hp.
  - intros k id Hk. left. by eapply Ht.
Qed.

Lemma quiet_insert c (s : gmap str (option nat)) a h i t : quiet c -> at_pc t = Idle -> quiet (mk_config s a h (<[i := t]> (threads c))).
Proof. intros Hq Ht. by apply Forall_insert. Qed.

Lemma live_count_up h id j : live h id = true -> live h j = true -> live (count_ref 1 id h) j = true.
Proof.
  intros Hid Hj. unfold live in *. destruct (h !! id) as [o|] eqn:Ho; [|done]. rewrite (count_ref_at _ _ _ o) by done.
  destruct (decide (j = id)) as [->|Hne]; [|by rewrite list_lookup_insert_ne].
  rewrite list_lookup_insert_eq by (by eapply lookup_lt_Some). cbn. lia.
Qed.

Lemma live_count_ne d h id j : j <> id -> live (count_ref d id h) j = live h j.
Proof.
  intros Hne. unfold live, count_ref. destruct (h !! id) as [o|]; [|done]. by rewrite list_lookup_insert_ne.
Qed.

Lemma held_live {S} `{!Factory S} (c : config S) i t id : Inv c -> threads c !! i = Some t -> id ∈ held t -> live (objects c) id = true.
Proof.
  intros I Hi Hid. pose proof (refs_held _ _ _ _ Hi Hid). pose proof (dying_nonneg id (threads c)). destruct (inv_ref c I id) as [o Ho]; [lia|].
  pose proof (inv_obj c I id o Ho) as [Hs _]. unfold live. rewrite Ho. lia.
Qed.

(** After [Get] the entries that were live are, and so is that of the key. *)
Lemma tight_get c k e : (forall k id, pool (factory c) !! k = Some (Some id) -> live (objects c) id = true) ->
  let '(s, h, r) := Get k e (factory c) (objects c) in forall k id, s !! k = Some (Some id) -> live h id = true.
Proof.
  intros Ht. unfold Get. cbn. set (s1 := match factory c !! k with None => _ | Some _ => _ end) in *.
  assert (forall j id, s1 !! j = Some (Some id) -> live (objects c) id = true) as Hp.
  { intros j id Hs. apply (Ht j). subst s1. destruct (factory c !! k) eqn:E; [done|]. cbn in *. apply lookup_insert_Some in Hs as [[_ ?]|[_ ?]]; done. }
  destruct (lock (objects c) _) as [[h' id]|] eqn:Hl.
  - pose proof Hl as Hl'. apply lock_some in Hl' as (o & Hw & Ho & Hpos & ->). intros j id' Hs. rewrite <- (count_ref_at 1 id (objects c) o Ho).
    apply live_count_up; [rewrite (live_at _ _ _ Ho); lia|by eapply Hp].
  - destruct e as [e|]; [exact Hp|]. intros j id Hs. apply lookup_insert_Some in Hs as [[_ [= <-]]|[_ Hs]].
    + unfold live. by rewrite lookup_app_r, Nat.sub_diag by done.
    + apply Hp in Hs. unfold live in *. destruct (objects c !! id) as [o|] eqn:Ho; [|done]. by rewrite (lookup_app_l_Some _ _ _ _ Ho).
Qed.

Lemma serial_release c i t n id : Serial c -> quiet c -> threads c !! i = Some t -> held t !! n = Some id ->
  Serial (mk_config (factory c) (alive c) (count_ref (-1) id (objects c)) (<[i := release n id (objects c) t]> (threads c))).
Proof.
  intros [I Hs Ha _ _ Ht] Hq Hi Hn. assert (at_pc t = Idle) as Hp by by eapply quiet_lookup.
  pose proof (inv_release c i t n id I Hi Hp Hn) as I'. pose proof (shared_release c id (<[i := release n id (objects c) t]> (threads c)) I Hs) as Hs'.
  assert (id ∈ held t) as Hid by by eapply list_elem_of_lookup_2. pose proof (held_live c i t id I Hi Hid) as Hl.
  destruct (live (count_ref (-1) id (objects c)) id) eqn:Hl'.
  - apply serial_quiet; [done|done|done| |].
    + apply quiet_insert; [done|]. unfold release. by rewrite Hl'.
    + cbn. intros k j Hk. destruct (decide (j = id)) as [->|Hne]; [done|]. rewrite live_count_ne by done.
      destruct (Ht k j Hk) as [|(x & u & Hx & Hu)]; [done|]. by rewrite (quiet_lookup c x u Hq Hx) in Hu.
  - pose proof (lookup_lt_Some _ _ _ Hi) as Hlt.
    assert (forall x u, <[i := release n id (objects c) t]> (threads c) !! x = Some u -> at_pc u <> Idle -> x = i /\ at_pc u = Deleting id) as Hx.
    { intros x u Hx Hu. destruct (decide (i = x)) as [->|Hne].
      - rewrite list_lookup_insert_eq in Hx by done. injection Hx as <-. unfold release. by rewrite Hl'.
      - rewrite list_lookup_insert_ne in Hx by done. by destruct Hu; eapply quiet_lookup. }
    split; [done|done|done| | |]; cbn [threads objects factory].
    + intros x y u v Hxu Hyv Hu Hv. destruct (Hx x u Hxu Hu) as [-> _]. by destruct (Hx y v Hyv Hv) as [-> _].
    + intros x u j o Hxu Hu Ho. destruct (Hx x u Hxu) as [_ Hj]; [by rewrite Hu|]. rewrite Hu in Hj. injection Hj as ->.
      unfold live in Hl. destruct (objects c !! id) as [o'|] eqn:Ho'; [|done]. rewrite (count_ref_at _ _ _ o') in Ho by done.
      rewrite list_lookup_insert_eq in Ho by by eapply lookup_lt_Some. injection Ho as <-. cbn. apply Hs; [done|lia].
    + intros k j Hk. destruct (decide (j = id)) as [->|Hne].
      * right. exists i, (release n id (objects c) t). rewrite list_lookup_insert_eq by done. split; [done|]. unfold release. by rewrite Hl'.
      * left. rewrite live_count_ne by done. destruct (Ht k j Hk) as [|(x & u & Hxu & Hu)]; [done|]. by rewrite (quiet_lookup c x u Hq Hxu) in Hu.
Qed.

Lemma serial_call_ok c c' : Serial c -> quiet c -> step c Call (Ok c') -> Serial c'.
Proof.
  intros Hser Hq Hst. pose proof Hser as [I Hs Hal _ _ Ht]. destruct (pools_step c Call (Ok c') I Hst) as (c'' & [= <-] & I').
  assert (forall k id, pool (factory c) !! k = Some (Some id) -> live (objects c) id = true) as Htl.
  { intros k id Hk. destruct (Ht k id Hk) as [|(i & t & Hi & Hp)]; [done|]. by rewrite (quiet_lookup c i t Hq Hi) in Hp. }
  inversion Hst as [i t k e Hi Hp Ha E0 E|i t f Hi Hp Ha Hf|i t id Hi Hp Hid|i t id Hi Hp Hid E0 E|i j t u n id Hi Hj Hne Hp Hn|i t n id Hi Hp Hn|i t Hi Hp Hg| | ]; subst.
  - pose proof (tight_get c k e Htl) as HT.
    pose proof (fun ts => shared_get c k e ts I Hs) as HS. destruct (Get k e (factory c) (objects c)) as [[s h] r]. injection E as <-.
    apply serial_quiet; [done|apply HS|done| |exact HT]. apply quiet_insert; [done|]. by destruct r.
  - by apply elem_of_nil in Hf.
  - apply serial_quiet; [done|by eapply shared_copy|done|by apply quiet_insert|]. cbn. intros k j Hk.
    apply live_count_up; [by eapply held_live|by eapply Htl].
  - destruct (objects c !! id) as [o|] eqn:Ho; [|done]. cbn in E. destruct (freed o); [done|]. by injection E as <-.
  - apply serial_quiet; [done|done|done| |done]. apply Forall_insert; [apply Forall_insert; [done|done]|cbn]. by eapply quiet_lookup.
  - by apply serial_release.
  - done.
Qed.

(** A deleter that runs is the only one. *)
Lemma serial_rest c i t t' x u : Serial c -> threads c !! i = Some t -> at_pc t <> Idle ->
  <[i := t']> (threads c) !! x = Some u -> at_pc u <> Idle -> x = i /\ u = t'.
Proof.
  intros Hs Hi Hp Hx Hu. pose proof (lookup_lt_Some _ _ _ Hi) as Hlt. destruct (decide (i = x)) as [->|Hne].
  - rewrite list_lookup_insert_eq in Hx by done. by injection Hx as <-.
  - rewrite list_lookup_insert_ne in Hx by done. destruct Hne. by eapply (serial_one c Hs i x t u).
Qed.

Lemma serial_delete c i t id o : Serial c -> threads c !! i = Some t -> at_pc t = Deleting id -> objects c !! id = Some o ->
  let c' := mk_config (DeleteObject (key o) (factory c)) true (objects c) (<[i := mk_thread (held t) (Freeing id)]> (threads c)) in Inv c' -> Serial c'.
Proof.
  intros Hser Hi Hp Ho c' I'. pose proof Hser as [I Hs Hal H1 He Ht].
  pose proof (inv_obj c I id o Ho) as [Hstr Hsum]. pose proof (dying_doomed id _ _ _ Hi) as Hd. rewrite Hp in Hd. cbn in Hd. rewrite one_eq in Hd.
  assert (strong o <= 0) as Hz. { unfold status in Hsum. destruct (Z.ltb_spec 0 (strong o)); [|lia]. destruct (freed o); lia. }
  pose proof (He i t id o Hi Hp Ho) as Hentry. cbn in Hentry. assert (at_pc t <> Idle) as Hpt by by rewrite Hp.
  split; [done| |done| | |]; unfold c'; cbn [threads objects factory pool]; unfold object_factory, DeleteObject.
  - intros j u Hu Hl. cbn in *. rewrite lookup_delete_ne; [by apply Hs|]. intros Hk.
    pose proof (Hs j u Hu Hl) as Hj. cbn in Hj. rewrite <- Hk, Hentry in Hj. injection Hj as ->. rewrite Ho in Hu. injection Hu as ->. lia.
  - intros x y u v Hx Hy Hu Hv. destruct (serial_rest c i t _ x u Hser Hi Hpt Hx Hu) as [-> _]. by destruct (serial_rest c i t _ y v Hser Hi Hpt Hy Hv) as [-> _].
  - intros x u j o' Hx Hu Ho'. assert (at_pc u <> Idle) as Hpu by by rewrite Hu. by destruct (serial_rest c i t _ x u Hser Hi Hpt Hx Hpu) as [-> ->].
  - intros k j Hk. cbn in Hk. apply lookup_delete_Some in Hk as [Hne Hk]. destruct (Ht k j Hk) as [|(x & u & Hx & Hu)]; [by left|].
    assert (x = i) as -> by (eapply (H1 x i u t); [done|done|by rewrite Hu|done]). rewrite Hi in Hx. injection Hx as <-. rewrite Hp in Hu. injection Hu as ->.
    destruct Hne. destruct (inv_pool c I k j Hk) as (o' & Ho' & Hk'). rewrite Ho in Ho'. by injection Ho' as ->.
Qed.

Lemma serial_free c i t id o : Serial c -> threads c !! i = Some t -> at_pc t = Freeing id -> objects c !! id = Some o ->
  let c' := mk_config (factory c) true (<[id := mk_Object (key o) (strong o) true]> (objects c)) (<[i := mk_thread (held t) Idle]> (threads c)) in Inv c' -> Serial c'.
Proof.
  intros Hser Hi Hp Ho c' I'. pose proof Hser as [I Hs Hal H1 He Ht]. assert (at_pc t <> Idle) as Hpt by by rewrite Hp.
  assert (quiet c') as Hq.
  { apply Forall_lookup. intros x u Hx. destruct (decide (at_pc u = Idle)) as [|Hu]; [done|]. by destruct (serial_rest c i t _ x u Hser Hi Hpt Hx Hu) as [_ ->]. }
  apply serial_quiet; [done|by eapply shared_change|done|done|]. unfold c'. cbn [factory objects]. intros k j Hk.
  destruct (Ht k j Hk) as [Hl|(x & u & Hx & Hu)].
  - unfold live in *. destruct (decide (j = id)) as [->|Hne]; [|by rewrite list_lookup_insert_ne].
    rewrite list_lookup_insert_eq by (by eapply lookup_lt_Some). by rewrite Ho in Hl.
  - assert (x = i) as -> by (eapply (H1 x i u t); [done|done|by rewrite Hu|done]). rewrite Hi in Hx. injection Hx as <-. by rewrite Hp in Hu.
Qed.

Lemma serial_deleter_ok c c' : Serial c -> step c Deleter (Ok c') -> Serial c'.
Proof.
  intros Hser Hst. destruct (pools_step c Deleter (Ok c') (serial_inv c Hser) Hst) as (c'' & [= <-] & I'). pose proof (serial_alive c Hser) as Ha.
  inversion Hst as [ | | | | | | |i t id Hi Hp E0 E|i t id Hi Hp E0 E]; subst.
  - destruct (objects c !! id) as [o|] eqn:Ho; [|done]. injection E as <-. rewrite Ha in I' |- *. by apply serial_delete.
  - destruct (objects c !! id) as [o|] eqn:Ho; [|done]. cbn in E. destruct (freed o); [done|]. injection E as <-. rewrite Ha in I' |- *. by apply serial_free.
Qed.

Lemma serial_ok n c : serial ∅ n c -> Serial c.
Proof.
  induction 1; [|by eapply serial_call_ok|by eapply serial_deleter_ok].
  apply serial_quiet; [by apply pools_start|by intros id o Ho|done| |by intros]. apply Forall_replicate. done.
Qed.
End ObjectFactoryProofs.

(** *** The stock factory *)

(** The dead entries of a table. *)
Definition zombie_entries (h : list Object) (p : gmap str (option nat)) : Z :=
  Z.of_nat (size (filter (fun x => expired h x.2 = true) p)).

Definition entry_weight (h : list Object) (w : option (option nat)) : Z :=
  match w with Some w => if expired h w then 1 else 0 | None => 0 end.

Lemma zombie_key h p k : zombie_entries h p = zombie_entries h (delete k p) + entry_weight h (p !! k).
Proof.
  unfold zombie_entries. destruct (p !! k) as [w|] eqn:Hk; cbn; [|rewrite delete_id by done; lia].
  rewrite <- (insert_delete_id p k w Hk) at 1. destruct (expired h w) eqn:He.
  - rewrite map_filter_insert_True by done. rewrite map_size_insert_None; [lia|]. apply map_lookup_filter_None. left. apply lookup_delete_eq.
  - rewrite map_filter_insert_False by (cbn; congruence). rewrite delete_delete_eq. lia.
Qed.

Lemma size_key (p : gmap str (option nat)) k : Z.of_nat (size p) = Z.of_nat (size (delete k p)) + (if p !! k then 1 else 0).
Proof.
  destruct (p !! k) as [w|] eqn:Hk; [|rewrite delete_id by done; lia].
  rewrite <- (insert_delete_id p k w Hk) at 1. rewrite map_size_insert_None by apply lookup_delete_eq. lia.
Qed.

Lemma zombie_ext h h' p : (forall k w, p !! k = Some w -> expired h w = expired h' w) -> zombie_entries h p = zombie_entries h' p.
Proof. intros H. unfold zombie_entries. do 2 f_equal. apply map_filter_ext. intros k w Hk. cbn. by rewrite (H k w Hk). Qed.

Lemma wrap_mod x : exists q, wrap 64 x = x + 2 ^ 64 * q.
Proof. exists (- (x / 2 ^ 64)). unfold wrap. pose proof (Z.div_mod x (2 ^ 64)). lia. Qed.

Section StockFactoryProofs.
Import StockFactory.
Implicit Types (c : config StockFactory).

#[global] Instance stock_factory_ok : FactoryOk StockFactory.
Proof. split; cbn; [done..|]. intros f e s ->%list_elem_of_singleton. apply map_filter_subseteq. Qed.

Lemma stock_shared n w : reachable make n w -> exists c, w = Ok c /\ Inv c /\ shared c.
Proof.
  induction 1 as [|c l w H (c' & [= <-] & I & Hs) Hst].
  - eexists. split; [done|]. split; [by apply pools_start|by intros id o Ho].
  - destruct (pools_step c l w I Hst) as (c' & -> & I'). exists c'. split; [done|]. split; [done|]. eapply shared_step; [done| |exact I|exact Hs|exact Hst].
    intros f e s k x ->%list_elem_of_singleton Hk He. cbn. by apply map_lookup_filter_Some.
Qed.

(** Deaths that [IncrementDead] has not counted. *)
Definition pending (ts : list thread) : Z := sum_of (fun t => match at_pc t with Deleting _ => 1 | _ => 0 end) ts.

Lemma pending_insert ts i t t' : ts !! i = Some t ->
  pending (<[i := t']> ts) = pending ts - match at_pc t with Deleting _ => 1 | _ => 0 end + match at_pc t' with Deleting _ => 1 | _ => 0 end.
Proof. apply (sum_of_insert (fun t => match at_pc t with Deleting _ => 1 | _ => 0 end)). Qed.

Lemma pending_quiet c : quiet c -> pending (threads c) = 0.
Proof.
  unfold quiet, pending. generalize (threads c). intros ts H. induction H as [|t ts Ht _ IH]; [done|]. cbn. rewrite Ht, IH. done.
Qed.

(** The counters account for the dead entries. *)
Definition balance (s : StockFactory) (h : list Object) (ts : list thread) : Z :=
  dead_ s - created_ s + Z.of_nat (size (stock_pool_ s)) + pending ts - zombie_entries h (stock_pool_ s).

Definition balanced c : Prop := alive c = true -> exists q, balance (factory c) (objects c) (threads c) = 2 ^ 64 * q.

Lemma expired_up h id w : live h id = true -> expired (count_ref 1 id h) w = expired h w.
Proof.
  intros Hl. destruct w as [j|]; [|done]. cbn. f_equal. destruct (decide (j = id)) as [->|Hne]; [|by apply live_count_ne].
  rewrite Hl. by apply live_count_up.
Qed.

Lemma balanced_get c k e i t : Inv c -> balanced c -> alive c = true -> threads c !! i = Some t -> at_pc t = Idle ->
  let '(s, h, r) := Get k e (factory c) (objects c) in
  balanced (mk_config s (alive c) h (<[i := match r with Ok id => acquire id t | _ => t end]> (threads c))).
Proof.
  intros I Hb Ha Hi Hp. destruct (Hb Ha) as [q Hq]. unfold Get. destruct (emplace_pool k (factory c)) as (Hk & Hw & Hj). cbv zeta.
  set (s1 := match pool (factory c) !! k with None => _ | Some _ => _ end) in *.
  assert (forall r : outcome nat, pending (<[i := match r with Ok id => acquire id t | _ => t end]> (threads c)) = pending (threads c)) as Hpend.
  { intros r. rewrite (pending_insert _ _ _ _ Hi). destruct r; cbn [acquire at_pc]; rewrite Hp; lia. }
  assert (forall ts, pending ts = pending (threads c) -> balance s1 (objects c) ts = 2 ^ 64 * q) as H1.
  { intros ts Hts. rewrite <- Hq. unfold balance. rewrite Hts. subst s1. cbn in *. destruct (stock_pool_ (factory c) !! k) eqn:E; [done|]. cbn.
    rewrite map_size_insert_None by done. rewrite (zombie_key _ (<[k:=None]> _) k), delete_insert_eq, delete_id, lookup_insert_eq by done. cbn. lia. }
  destruct (lock (objects c) _) as [[h' id]|] eqn:Hl; [|destruct e as [e|]].
  - apply lock_some in Hl as (o & _ & Ho & Hpos & ->). intros _. exists q. cbn [factory objects threads].
    rewrite <- (H1 _ (Hpend (Ok id))). unfold balance. f_equal. rewrite <- (count_ref_at 1 id (objects c) o Ho). apply zombie_ext. intros j w _. apply expired_up.
    rewrite (live_at _ _ _ Ho). lia.
  - intros _. exists q. apply H1. apply (Hpend (Throw e)).
  - intros _. cbn [factory objects threads]. pose proof (H1 _ (Hpend (Ok (length (objects c))))) as H2. clear H1. rename H2 into H1. cbn beta iota in H1.
    destruct (wrap_mod (created_ s1 + 1)) as [q' Hq']. exists (q - q'). unfold balance in *. cbn [created set_pool pool stock_factory created_ dead_ stock_pool_]. rewrite Hq'.
    destruct Hk as [w Hk]. cbn in Hk. cbn in Hl. rewrite Hk in Hl. apply lock_none in Hl. cbn in Hl.
    rewrite (zombie_key _ (<[k:=_]> _) k), (size_key (<[k:=_]> _) k), delete_insert_eq, lookup_insert_eq. rewrite (zombie_key _ _ k), (size_key _ k), Hk in H1.
    rewrite <- (zombie_ext (objects c) (objects c ++ [mk_Object k 1 false])).
    + cbn [entry_weight] in *. rewrite Hl in H1. cbn [expired]. unfold live. rewrite lookup_app_r, Nat.sub_diag by done. cbn [lookup list_lookup strong negb Z.ltb]. cbn. lia.
    + intros j x [Hne Hx]%lookup_delete_Some. destruct x as [id|]; [|done]. cbn. f_equal. change (pool s1 !! j = Some (Some id)) in Hx. rewrite (Hj j) in Hx by done.
      destruct (inv_pool c I j id Hx) as (o & Ho & _). unfold live. by rewrite Ho, (lookup_app_l_Some _ _ _ _ Ho).
Qed.

Lemma balanced_release c i t n id : Inv c -> shared c -> balanced c -> threads c !! i = Some t -> at_pc t = Idle -> held t !! n = Some id ->
  balanced (mk_config (factory c) (alive c) (count_ref (-1) id (objects c)) (<[i := release n id (objects c) t]> (threads c))).
Proof.
  intros I Hs Hb Hi Hp Hn Ha. destruct (Hb Ha) as [q Hq]. exists q. cbn [factory objects threads]. rewrite <- Hq. unfold balance.
  assert (id ∈ held t) as Hid by by eapply list_elem_of_lookup_2. pose proof (held_live c i t id I Hi Hid) as Hl.
  destruct (objects c !! id) as [o|] eqn:Ho; [|unfold live in Hl; by rewrite Ho in Hl]. assert (0 < strong o) as Hpos by (rewrite (live_at _ _ _ Ho) in Hl; lia).
  pose proof (Hs id o Ho Hpos) as Hk. cbn in Hk. rewrite (pending_insert _ _ _ _ Hi), Hp. unfold release. cbn [at_pc].
  rewrite (zombie_key _ _ (key o)), (zombie_key (objects c) _ (key o)), Hk. cbn [entry_weight expired]. rewrite Hl.
  rewrite (zombie_ext (count_ref (-1) id (objects c)) (objects c)).
  - destruct (live (count_ref (-1) id (objects c)) id); cbn; lia.
  - intros j w [Hne Hj]%lookup_delete_Some. destruct w as [x|]; [|done]. cbn. f_equal. apply live_count_ne. intros ->.
    destruct (inv_pool c I j id Hj) as (o' & Ho' & Hk'). rewrite Ho in Ho'. by injection Ho' as ->.
Qed.

Lemma balanced_prune c : quiet c -> balanced (mk_config (Prune (expired (objects c)) (factory c)).1.1 (alive c) (objects c) (threads c)).
Proof.
  intros Hq _. exists 0. unfold balance. cbn [factory objects threads Prune fst created_ dead_ stock_pool_]. rewrite (pending_quiet c Hq).
  assert (zombie_entries (objects c) (pruned (expired (objects c)) (stock_pool_ (factory c))) = 0) as ->; [|lia].
  unfold zombie_entries, pruned. apply (inj_iff Z.of_nat _ 0%nat), map_size_empty_iff, map_eq. intros k. rewrite lookup_empty. apply map_lookup_filter_None.
  destruct (filter _ _ !! k) as [w|] eqn:Hk; [|by left]. apply map_lookup_filter_Some in Hk as [_ Hk]. right. intros w' [= <-]. cbn in *. congruence.
Qed.

Lemma balanced_delete c i t id o : balanced c -> threads c !! i = Some t -> at_pc t = Deleting id ->
  balanced (mk_config (if alive c then deleted (key o) (factory c) else factory c) (alive c) (objects c) (<[i := mk_thread (held t) (Freeing id)]> (threads c))).
Proof.
  intros Hb Hi Hp Ha. cbn in Ha. destruct (Hb Ha) as [q Hq]. unfold balance in *. cbn [factory objects threads]. rewrite Ha. cbn [deleted stock_factory IncrementDead created_ dead_ stock_pool_].
  destruct (wrap_mod (dead_ (factory c) + 1)) as [q' ->]. exists (q + q'). rewrite (pending_insert _ _ _ _ Hi), Hp. cbn [at_pc]. lia.
Qed.

Lemma balanced_step c l c' : Inv c -> shared c -> balanced c -> (l = Call -> quiet c) -> step c l (Ok c') -> balanced c'.
Proof.
  intros I Hs Hb Hquiet Hst.
  inversion Hst as [i t k e Hi Hp Ha E0 E|i t f Hi Hp Ha Hf|i t id Hi Hp Hid|i t id Hi Hp Hid E0 E|i j t u n id Hi Hj Hne Hp Hn|i t n id Hi Hp Hn|i t Hi Hp Hg|i t id Hi Hp E0 E|i t id Hi Hp E0 E]; subst.
  - pose proof (balanced_get c k e i t I Hb Ha Hi Hp) as HG. destruct (Get k e _ _) as [[s h] r]. by injection E as <-.
  - apply list_elem_of_singleton in Hf as ->. apply balanced_prune. by apply Hquiet.
  - intros Ha. destruct (Hb Ha) as [q Hq]. exists q. rewrite <- Hq. unfold balance. cbn [factory objects threads]. f_equal; [f_equal|].
    + rewrite (pending_insert _ _ _ _ Hi), Hp. cbn [acquire at_pc]. rewrite Hp. lia.
    + apply zombie_ext. intros j w _. apply expired_up. by eapply held_live.
  - destruct (objects c !! id) as [o|] eqn:Ho; [|done]. cbn in E. destruct (freed o); [done|]. by injection E as <-.
  - intros Ha. destruct (Hb Ha) as [q Hq]. exists q. rewrite <- Hq. unfold balance. cbn [factory objects threads]. f_equal. f_equal.
    rewrite (pending_insert _ j u), (pending_insert _ i t) by (rewrite ?list_lookup_insert_ne; done). cbn [acquire at_pc]. lia.
  - by apply balanced_release.
  - done.
  - destruct (objects c !! id) as [o|] eqn:Ho; [|done]. injection E as <-. by apply (balanced_delete c i t id o).
  - destruct (objects c !! id) as [o|] eqn:Ho; [|done]. cbn in E. destruct (freed o); [done|]. injection E as <-.
    intros Ha. destruct (Hb Ha) as [q Hq]. exists q. rewrite <- Hq. unfold balance. cbn [factory objects threads]. f_equal; [f_equal|].
    + rewrite (pending_insert _ _ _ _ Hi), Hp. cbn. lia.
    + apply zombie_ext. intros j [x|] _; [|done]. cbn. f_equal. unfold live. destruct (decide (x = id)) as [->|Hne]; [|by rewrite list_lookup_insert_ne].
      rewrite list_lookup_insert_eq by (by eapply lookup_lt_Some). by rewrite Ho.
Qed.

Lemma stock_balanced n c : serial make n c -> Inv c /\ shared c /\ balanced c.
Proof.
  assert (forall c l c', Inv c /\ shared c /\ balanced c -> (l = Call -> quiet c) -> step c l (Ok c') -> Inv c' /\ shared c' /\ balanced c') as Hstep.
  { intros c0 l c' (I & Hs & Hb) Hq Hst. destruct (pools_step _ _ _ I Hst) as (c'' & [= <-] & I'). split_and!; [done| |exact (balanced_step c0 l _ I Hs Hb Hq Hst)].
    eapply shared_step; [done| |exact I|exact Hs|exact Hst].
    intros f e s k x ->%list_elem_of_singleton Hk He. cbn. by apply map_lookup_filter_Some. }
  induction 1 as [|c c' H IH Hq Hst|c c' H IH Hst]; [|exact (Hstep c Call c' IH (fun _ => Hq) Hst)|by refine (Hstep c Deleter c' IH _ Hst)].
  split_and!; [by apply pools_start|by intros id o Ho|]. intros _. exists 0. unfold balance, start. cbn [objects threads factory].
  assert (pending (replicate n (mk_thread [] Idle)) = 0) as -> by by apply (pending_quiet (start make n)), Forall_replicate. done.
Qed.
End StockFactoryProofs.

(** ** Properties *)

(** Whatever the threads do with their pointers, and however the deleters interleave with
    them, no step is undefined: the object of a pointer that a thread holds exists and has not
    been freed, no object is freed twice, and one that no pointer and no deleter refers to has
    been. *)
Theorem handles_safe {S} `{FactoryOk S} s n w (Hs : forall k id, pool s !! k <> Some (Some id)) (Hr : reachable s n w) : exists c, w = Ok c /\
  (forall i t id, threads c !! i = Some t -> id ∈ held t -> exists o, objects c !! id = Some o /\ freed o = false) /\
  (forall id o, objects c !! id = Some o -> freed o = false ->
    exists i t, threads c !! i = Some t /\ (id ∈ held t \/ at_pc t = Deleting id \/ at_pc t = Freeing id)).
Proof.
  destruct (pools_reachable s n w Hs Hr) as (c & -> & I). exists c. split; [done|]. split.
  - intros i t id Hi Hid. pose proof (held_live c i t id I Hi Hid) as Hl. unfold live in Hl.
    destruct (objects c !! id) as [o|] eqn:Ho; [|done]. exists o. split; [done|]. pose proof (inv_obj c I id o Ho) as [_ Hsum].
    pose proof (dying_nonneg id (threads c)). unfold status in Hsum. rewrite Hl in Hsum. destruct (freed o); [lia|done].
  - intros id o Ho Hf. by apply (inv_kept c id o).
Qed.

(** When a deleter runs to its end before anything else happens, the table of the object
    factory holds exactly the live objects, each under its key, and there is one for a key. *)
Theorem object_factory_shares (n : nat) (c : config (gmap str (option nat))) (H : serial ∅ n c) (Hq : quiet c) :
  (forall a b o u, objects c !! a = Some o -> objects c !! b = Some u -> 0 < strong o -> 0 < strong u -> key o = key u -> a = b) /\
  forall k id, factory c !! k = Some (Some id) <-> exists o, objects c !! id = Some o /\ key o = k /\ 0 < strong o.
Proof.
  pose proof (serial_ok n c H) as Hs. split.
  - intros a b o u. apply shared_unique, Hs.
  - intros k id. split.
    + intros Hk. destruct (serial_tight c Hs k id Hk) as [Hl|(i & t & Hi & Hp)]; [|by rewrite (quiet_lookup c i t Hq Hi) in Hp].
      destruct (inv_pool c (serial_inv c Hs) k id Hk) as (o & Ho & Ho'). exists o. rewrite (live_at _ _ _ Ho) in Hl. split_and!; [done..|lia].
    + intros (o & Ho & <- & Hl). by apply (serial_shared c Hs).
Qed.

(** C16: The stock factory hands out one object for a key in every interleaving: two live
    objects with the same name are the same, and it is the one in the table. *)
Theorem stock_factory_shares n c (H : reachable StockFactory.make n (Ok c)) :
  (forall a b o u, objects c !! a = Some o -> objects c !! b = Some u -> 0 < strong o -> 0 < strong u -> key o = key u -> a = b) /\
  forall id o, objects c !! id = Some o -> 0 < strong o -> StockFactory.stock_pool_ (factory c) !! key o = Some (Some id).
Proof.
  destruct (stock_shared n _ H) as (c' & [= <-] & _ & Hs). split; [|exact Hs]. intros a b o u. by apply shared_unique.
Qed.

(** When a deleter runs to its end before anything else happens, the counters of the stock
    factory give the number of the dead entries of its table. *)
Theorem stock_zombies_counted n c (H : serial StockFactory.make n c) (Hq : quiet c) (Ha : alive c = true) :
  StockFactory.zombies (factory c) = wrap 64 (zombie_entries (objects c) (StockFactory.stock_pool_ (factory c))).
Proof.
  destruct (stock_balanced n c H) as (_ & _ & Hb). destruct (Hb Ha) as [q Hq']. unfold balance in Hq'. rewrite (pending_quiet c Hq) in Hq'.
  unfold StockFactory.zombies, StockFactory.stock_count. destruct (wrap_mod (StockFactory.created_ (factory c) - Z.of_nat (size (StockFactory.stock_pool_ (factory c))))) as [q' ->].
  unfold wrap. rewrite <- (Z_mod_plus_full (zombie_entries _ _) (q - q') (2 ^ 64)). f_equal. lia.
Qed.

(** *** Runs *)

(** A call of thread [i], or a step of its deleter. *)
Inductive move := MGet (i : nat) (k : str) | MRelease (i n : nat) | MSection (i j : nat) | MDeleter (i : nat).

Section Runs.
Context {S : Type} `{!Factory S}.

Definition idle (c : config S) (i : nat) : option thread :=
  t ← threads c !! i; if decide (at_pc t = Idle) then Some t else None.

Definition move_to (c : config S) (m : move) : option (config S) :=
  match m with
  | MGet i k =>
      t ← idle c i;
      if alive c then
        let '(s, h, r) := Get k None (factory c) (objects c) in
        Some (mk_config s (alive c) h (<[i := match r with Ok id => acquire id t | _ => t end]> (threads c)))
      else None
  | MRelease i n =>
      t ← idle c i; id ← held t !! n;
      Some (mk_config (factory c) (alive c) (count_ref (-1) id (objects c)) (<[i := release n id (objects c) t]> (threads c)))
  | MSection i j =>
      t ← idle c i; f ← (sections : list ((option nat -> bool) -> S -> S)) !! j;
      if alive c then Some (mk_config (f (expired (objects c)) (factory c)) (alive c) (objects c) (threads c)) else None
  | MDeleter i =>
      t ← threads c !! i;
      match at_pc t with
      | Idle => None
      | Deleting id =>
          o ← objects c !! id;
          Some (mk_config (if alive c then deleted (key o) (factory c) else factory c) (alive c) (objects c)
                  (<[i := mk_thread (held t) (Freeing id)]> (threads c)))
      | Freeing id =>
          o ← objects c !! id;
          if freed o then None else
          Some (mk_config (factory c) (alive c) (<[id := mk_Object (key o) (strong o) true]> (objects c)) (<[i := mk_thread (held t) Idle]> (threads c)))
      end
  end.

Definition label_of (m : move) : label := match m with MDeleter _ => Deleter | _ => Call end.

Lemma idle_some c i t : idle c i = Some t -> threads c !! i = Some t /\ at_pc t = Idle.
Proof. unfold idle. intros (u & Hu & H)%bind_Some. case_decide; [|done]. by injection H as ->. Qed.

Lemma move_step c m c' : move_to c m = Some c' -> step c (label_of m) (Ok c').
Proof.
  destruct m as [i k|i n|i j|i]; cbn [move_to label_of].
  - intros (t & [Hi Hp]%idle_some & H)%bind_Some. destruct (alive c) eqn:Ha; [|done].
    pose proof (step_get c i t k None Hi Hp Ha) as Hst. destruct (Get k None _ _) as [[s h] r]. rewrite Ha in Hst. by injection H as <-.
  - intros (t & [Hi Hp]%idle_some & (id & Hn & H)%bind_Some)%bind_Some. injection H as <-. by apply step_release.
  - intros (t & [Hi Hp]%idle_some & (f & Hf & H)%bind_Some)%bind_Some. destruct (alive c) eqn:Ha; [|done]. injection H as <-.
    pose proof (step_section c i t f Hi Hp Ha) as Hst. rewrite Ha in Hst. apply Hst. by eapply list_elem_of_lookup_2.
  - intros (t & Hi & H)%bind_Some. destruct (at_pc t) as [|id|id] eqn:Hp; [done|..]; apply bind_Some in H as (o & Ho & H).
    + injection H as <-. pose proof (step_delete c i t id Hi Hp) as Hst. by rewrite Ho in Hst.
    + pose proof (step_free c i t id Hi Hp) as Hst. rewrite Ho in Hst. cbn in Hst. destruct (freed o); [done|]. by injection H as <-.
Qed.

Definition run (s : S) (n : nat) (ms : list move) : option (config S) := foldl (fun c m => c ← c; move_to c m) (Some (start s n)) ms.

Lemma run_snoc s n ms m : run s n (ms ++ [m]) = (c ← run s n ms; move_to c m).
Proof. unfold run. by rewrite foldl_app. Qed.

Lemma pools_run_reachable s n ms c : run s n ms = Some c -> reachable s n (Ok c).
Proof.
  revert c. induction ms as [|m ms IH] using rev_ind; intros c; [intros [= <-]; constructor|].
  rewrite run_snoc. intros (c' & Hc & Hm)%bind_Some. eapply reachable_step; [by apply IH|by apply move_step].
Qed.

(** A run whose calls are made while no deleter runs. *)
Definition may_move (c : config S) (m : move) : bool :=
  match m with MDeleter _ => true | _ => bool_decide (quiet c) end.

Definition run_serial (s : S) (n : nat) (ms : list move) : option (config S) :=
  foldl (fun c m => c ← c; if may_move c m then move_to c m else None) (Some (start s n)) ms.

Lemma run_serial_ok s n ms c : run_serial s n ms = Some c -> serial s n c.
Proof.
  revert c. induction ms as [|m ms IH] using rev_ind; intros c; [intros [= <-]; constructor|].
  unfold run_serial. rewrite foldl_app. cbn. intros (c' & Hc & H)%bind_Some. destruct (may_move c' m) eqn:Hq; [|done].
  pose proof (move_step c' m c H) as Hst. specialize (IH c' Hc). destruct m; cbn in Hst, Hq; try (by eapply serial_deleter);
    (eapply serial_call; [exact IH|by apply bool_decide_eq_true in Hq|exact Hst]).
Qed.
End Runs.

Definition ka : str := ["a"%char].

(** The last owner of an object gives it up; another thread gets a new object for the key, and
    the deleter of the old one removes its entry. *)
Definition overtaken : list move := [MGet 0 ka; MRelease 0 0; MGet 1 ka; MDeleter 0; MGet 2 ka].

(** The deleter of the object factory removes the entry of its key even if another object
    has taken it: then the next [Get] makes a third, and two threads hold different objects for
    one key. *)
Theorem object_factory_duplicates : exists c, reachable (∅ : gmap str (option nat)) 3 (Ok c) /\
  threads c = [mk_thread [] (Freeing 0); mk_thread [1%nat] Idle; mk_thread [2%nat] Idle] /\
  objects c !! 1%nat = Some (mk_Object ka 1 false) /\ objects c !! 2%nat = Some (mk_Object ka 1 false).
Proof.
  destruct (run (∅ : gmap str (option nat)) 3 overtaken) as [c|] eqn:Hc; [|by vm_compute in Hc].
  exists c. split; [by eapply pools_run_reachable|]. vm_compute in Hc. by injection Hc as <-.
Qed.

(** Between the death of an object and [IncrementDead] another thread can replace it: then
    the ratio that [Prune] prints is computed from 2^64 - 1 dead entries, although there are
    none. *)
Theorem stock_zombies_underflow : exists c, reachable StockFactory.make 2 (Ok c) /\
  zombie_entries (objects c) (StockFactory.stock_pool_ (factory c)) = 0 /\ StockFactory.zombies (factory c) = 2 ^ 64 - 1.
Proof.
  destruct (run StockFactory.make 2 [MGet 0 ka; MRelease 0 0; MGet 1 ka]) as [c|] eqn:Hc; [|by vm_compute in Hc].
  exists c. split; [by eapply pools_run_reachable|]. vm_compute in Hc. injection Hc as <-. by vm_compute.
Qed.

(** *** Witnesses *)

Definition one_by_one : list move :=
  [MGet 0 ka; MRelease 0 0; MDeleter 0; MDeleter 0; MGet 1 ka; MRelease 1 0; MDeleter 1; MDeleter 1; MGet 0 ["b"%char]].

Definition object_run : config (gmap str (option nat)) := default (start ∅ 2) (run_serial ∅ 2 one_by_one).
Definition stock_run : config StockFactory.StockFactory := default (start StockFactory.make 2) (run_serial StockFactory.make 2 one_by_one).

Lemma object_run_serial : serial ∅ 2 object_run.
Proof. apply (run_serial_ok ∅ 2 one_by_one). by vm_compute. Qed.

Lemma stock_run_serial : serial StockFactory.make 2 stock_run.
Proof. apply (run_serial_ok StockFactory.make 2 one_by_one). by vm_compute. Qed.

Definition overtaken_run : config StockFactory.StockFactory := default (start StockFactory.make 3) (run StockFactory.make 3 overtaken).

Lemma overtaken_reachable : reachable StockFactory.make 3 (Ok overtaken_run).
Proof. apply (pools_run_reachable StockFactory.make 3 overtaken). by vm_compute. Qed.

Lemma handles_safe_witness : reachable StockFactory.make 3 (Ok overtaken_run) /\
  (exists c, Ok overtaken_run = Ok c /\ (forall i t id, threads c !! i = Some t -> id ∈ held t -> exists o, objects c !! id = Some o /\ freed o = false)).
Proof.
  split; [exact overtaken_reachable|]. assert (forall k id, pool StockFactory.make !! k <> Some (Some id)) as Hs by by intros.
  destruct (handles_safe StockFactory.make 3 (Ok overtaken_run) Hs overtaken_reachable) as (c & E & Hh & _).
  exists c. split; [exact E|exact Hh].
Defined.

Lemma object_factory_shares_witness : quiet object_run /\
  objects object_run = [mk_Object ka 0 true; mk_Object ka 0 true; mk_Object ["b"%char] 1 false] /\ factory object_run !! ["b"%char] = Some (Some 2%nat).
Proof.
  assert (quiet object_run) as Hq by by apply (bool_decide_unpack (quiet object_run)); vm_compute.
  split; [exact Hq|]. split; [by vm_compute|]. apply (object_factory_shares 2 object_run object_run_serial Hq).
  exists (mk_Object ["b"%char] 1 false). by vm_compute.
Defined.

Lemma stock_factory_shares_witness : objects overtaken_run !! 1%nat = Some (mk_Object ka 2 false) /\
  StockFactory.stock_pool_ (factory overtaken_run) !! ka = Some (Some 1%nat).
Proof.
  split; [by vm_compute|]. destruct (stock_factory_shares 3 overtaken_run overtaken_reachable) as [_ H].
  exact (H 1%nat (mk_Object ka 2 false) ltac:(by vm_compute) ltac:(done)).
Defined.

Lemma stock_zombies_counted_witness : quiet stock_run /\ StockFactory.zombies (factory stock_run) = 1 /\
  zombie_entries (objects stock_run) (StockFactory.stock_pool_ (factory stock_run)) mod 2 ^ 64 = 1.
Proof.
  assert (quiet stock_run) as Hq by by apply (bool_decide_unpack (quiet stock_run)); vm_compute.
  split; [exact Hq|]. split; [by vm_compute|].
  change (wrap 64 (zombie_entries (objects stock_run) (StockFactory.stock_pool_ (factory stock_run))) = 1).
  rewrite <- (stock_zombies_counted 2 stock_run stock_run_serial Hq ltac:(by vm_compute)). by vm_compute.
Defined.
