(* ===== verification/Designs.v ===== *)
(** * Containers of the exercises

    Models four classes of crack-data-structures-and-algorithms/leetcode: a cache that drops
    the least recently used entry (lru_cacahe_q146.cpp), a queue of two stacks
    (implement_queue_using_stacks_q232.cpp), a set with random access
    (insert_delete_getrandom_O(1)_q380.cpp) and a chained hash map (design_hashmap_q706.cpp),
    each against the abstract container it implements. *)

From S2P Require Import Prelude.
From stdpp Require Import gmap fin_maps fin_sets.

#[local] Open Scope Z_scope.

(** ** The cache *)

Module LRUCache.
(** The nodes of the list have identities, which are the iterators of the map. *)
Record LRUCache := mk_LRUCache {
  size_ : Z;
  cap_ : Z;
  ttl_ : list (nat * (Z * Z));
  cache_ : gmap Z nat;
  next_node : nat
}.

Definition make (capacity : Z) : LRUCache := mk_LRUCache 0 capacity [] ∅ 0.

(** The node of an iterator, and the list without it. *)
Fixpoint take_node (id : nat) (l : list (nat * (Z * Z))) : option ((Z * Z) * list (nat * (Z * Z))) :=
  match l with
  | [] => None
  | (j, kv) :: r =>
      if decide (j = id) then Some (kv, r)
      else '(x, r) ← take_node id r; Some (x, (j, kv) :: r)
  end.

Definition get (key : Z) (c : LRUCache) : outcome (LRUCache * Z) :=
  match cache_ c !! key with
  | None => Ok (c, -1)
  | Some it =>
      '(kv, r) ← the (take_node it (ttl_ c));
      Ok (mk_LRUCache (size_ c) (cap_ c) ((it, kv) :: r) (cache_ c) (next_node c), kv.2)
  end.

(** [it->second = value]. *)
Fixpoint set_node (id : nat) (value : Z) (l : list (nat * (Z * Z))) : list (nat * (Z * Z)) :=
  match l with
  | [] => []
  | (j, kv) :: r => if decide (j = id) then (j, (kv.1, value)) :: r else (j, kv) :: set_node id value r
  end.

(** The entry at the back goes; an empty list has none. *)
Definition evict (c : LRUCache) : outcome LRUCache :=
  item ← the (last (ttl_ c));
  Ok (mk_LRUCache (size_ c - 1) (cap_ c) (removelast (ttl_ c)) (delete item.2.1 (cache_ c)) (next_node c)).

Definition put (key value : Z) (c : LRUCache) : outcome LRUCache :=
  '(c, old) ← get key c;
  if negb (old =? -1) then
    it ← the (cache_ c !! key);
    Ok (mk_LRUCache (size_ c) (cap_ c) (set_node it value (ttl_ c)) (cache_ c) (next_node c))
  else
    c ← (if size_ c =? cap_ c then evict c else Ok c);
    Ok (mk_LRUCache (size_ c + 1) (cap_ c) ((next_node c, (key, value)) :: ttl_ c) (<[key := next_node c]> (cache_ c)) (S (next_node c))).

(** *** The specification: entries, the most recently used first *)

Fixpoint find (key : Z) (l : list (Z * Z)) : option Z :=
  match l with [] => None | (k, v) :: r => if decide (k = key) then Some v else find key r end.

Definition drop_key (key : Z) (l : list (Z * Z)) : list (Z * Z) := filter (fun e => e.1 <> key) l.

Definition spec_get (key : Z) (l : list (Z * Z)) : list (Z * Z) * Z :=
  match find key l with
  | Some v => ((key, v) :: drop_key key l, v)
  | None => (l, -1)
  end.

Definition spec_put (cap : nat) (key value : Z) (l : list (Z * Z)) : list (Z * Z) :=
  (key, value) :: (if bool_decide (is_Some (find key l)) then drop_key key l else take (cap - 1) l).

(** *** Runs *)

Inductive op := OGet (key : Z) | OPut (key value : Z).

Definition run_op (o : op) (c : LRUCache) : outcome (LRUCache * list Z) :=
  match o with
  | OGet k => '(c, v) ← get k c; Ok (c, [v])
  | OPut k v => c ← put k v c; Ok (c, [])
  end.

Fixpoint run (os : list op) (c : LRUCache) : outcome (LRUCache * list Z) :=
  match os with
  | [] => Ok (c, [])
  | o :: os => '(c, r) ← run_op o c; '(c, rs) ← run os c; Ok (c, r ++ rs)
  end.

Definition spec_op (cap : nat) (o : op) (l : list (Z * Z)) : list (Z * Z) * list Z :=
  match o with
  | OGet k => let '(l, v) := spec_get k l in (l, [v])
  | OPut k v => (spec_put cap k v l, [])
  end.

Fixpoint spec_run (cap : nat) (os : list op) (l : list (Z * Z)) : list (Z * Z) * list Z :=
  match os with
  | [] => (l, [])
  | o :: os => let '(l, r) := spec_op cap o l in let '(l, rs) := spec_run cap os l in (l, r ++ rs)
  end.

(** *** The representation *)

Record Repr (cap : nat) (c : LRUCache) (l : list (Z * Z)) : Prop := {
  repr_list : (ttl_ c).*2 = l;
  repr_ids : NoDup (ttl_ c).*1;
  repr_keys : NoDup l.*1;
  repr_cache k id : cache_ c !! k = Some id <-> exists v, (id, (k, v)) ∈ ttl_ c;
  repr_fresh id : id ∈ (ttl_ c).*1 -> (id < next_node c)%nat;
  repr_size : size_ c = Z.of_nat (length l);
  repr_cap : cap_ c = Z.of_nat cap;
  repr_bound : (length l <= cap)%nat;
  repr_values e : e ∈ l -> e.2 <> -1
}.

Lemma take_node_mid id l1 kv l2 : id ∉ l1.*1 -> take_node id (l1 ++ (id, kv) :: l2) = Some (kv, l1 ++ l2).
Proof.
  induction l1 as [|[j x] l1 IH]; intros Hn; cbn; [by rewrite decide_True|]. apply not_elem_of_cons in Hn as [Hj Hn].
  rewrite decide_False by done. by rewrite IH.
Qed.

Lemma find_mid k v l1 l2 : k ∉ l1.*1 -> find k (l1 ++ (k, v) :: l2) = Some v.
Proof.
  induction l1 as [|[j x] l1 IH]; intros Hn; cbn; [by rewrite decide_True|]. apply not_elem_of_cons in Hn as [Hj Hn].
  rewrite decide_False by done. by apply IH.
Qed.

Lemma drop_none k l : k ∉ l.*1 -> drop_key k l = l.
Proof.
  induction l as [|[j x] l IH]; intros Hn; [done|]. apply not_elem_of_cons in Hn as [Hj Hn].
  unfold drop_key. rewrite filter_cons_True by done. f_equal. by apply IH.
Qed.

Lemma drop_mid k v l1 l2 : k ∉ l1.*1 -> k ∉ l2.*1 -> drop_key k (l1 ++ (k, v) :: l2) = l1 ++ l2.
Proof.
  intros H1 H2. unfold drop_key. rewrite filter_app, filter_cons_False by by intros [].
  f_equal; by apply drop_none.
Qed.

Lemma find_none k l : find k l = None <-> k ∉ l.*1.
Proof.
  induction l as [|[j x] l IH]; cbn; [split; [intros _; apply not_elem_of_nil|done]|]. rewrite not_elem_of_cons.
  case_decide as E; [split; [done|by intros []]|]. rewrite IH. naive_solver.
Qed.

(** The node of a key splits the list. *)
Lemma repr_split cap c l k id : Repr cap c l -> cache_ c !! k = Some id -> exists l1 v l2, ttl_ c = l1 ++ (id, (k, v)) :: l2 /\
  id ∉ l1.*1 /\ id ∉ l2.*1 /\ k ∉ l1.*2.*1 /\ k ∉ l2.*2.*1.
Proof.
  intros R Hk. apply (repr_cache _ _ _ R) in Hk as [v Hin]. apply list_elem_of_split in Hin as (l1 & l2 & E). exists l1, v, l2. split; [done|].
  pose proof (repr_ids _ _ _ R) as Hi. pose proof (repr_keys _ _ _ R) as Hd. rewrite <- (repr_list _ _ _ R) in Hd. rewrite E in Hi, Hd.
  rewrite fmap_app in Hi. rewrite !fmap_app in Hd. cbn in Hi, Hd. apply NoDup_app in Hi as (_ & H1 & H2). apply NoDup_app in Hd as (_ & H3 & H4).
  apply NoDup_cons in H2 as [H2 _]. apply NoDup_cons in H4 as [H4 _]. split_and!; try done.
  - intros H. apply (H1 id H). by left.
  - intros H. apply (H3 k H). by left.
Qed.

Lemma repr_missing cap c l k : Repr cap c l -> cache_ c !! k = None -> k ∉ l.*1.
Proof.
  intros R Hk Hin. rewrite <- (repr_list _ _ _ R) in Hin. apply list_elem_of_fmap in Hin as ([k' v] & -> & Hin).
  apply list_elem_of_fmap in Hin as ([id kv] & E & Hin). cbn in E. subst kv. cbn in Hk.
  assert (cache_ c !! k' = Some id) as H by (apply (repr_cache _ _ _ R); by exists v). congruence.
Qed.

(** *** The operations *)

Lemma get_refines cap c l k : Repr cap c l ->
  exists c', get k c = Ok (c', (spec_get k l).2) /\ Repr cap c' (spec_get k l).1 /\
  (forall v, find k l = Some v -> v <> -1 /\ exists id r, ttl_ c' = (id, (k, v)) :: r /\ cache_ c' !! k = Some id) /\
  (find k l = None -> c' = c).
Proof.
  intros R. unfold get, spec_get. destruct (cache_ c !! k) as [id|] eqn:Hk.
  - destruct (repr_split cap c l k id R Hk) as (l1 & v & l2 & E & H1 & H2 & H3 & H4). rewrite E, take_node_mid by done. cbn.
    assert (l = l1.*2 ++ (k, v) :: l2.*2) as El by by rewrite <- (repr_list _ _ _ R), E, fmap_app.
    assert (find k l = Some v) as -> by by rewrite El; apply find_mid. eexists. split; [done|]. cbn [fst snd].
    assert (drop_key k l = (l1 ++ l2).*2) as -> by by rewrite El, drop_mid, fmap_app.
    assert (((id, (k, v)) :: l1 ++ l2) ≡ₚ ttl_ c) as Hp by by rewrite E, Permutation_middle.
    split; [|split; [|done]].
    + split; cbn [ttl_ cache_ next_node size_ cap_]; [done|rewrite Hp; apply R| | | | |apply R| |].
      * change ((k, v) :: (l1 ++ l2).*2) with (((id, (k, v)) :: l1 ++ l2).*2). rewrite Hp, (repr_list _ _ _ R). apply R.
      * intros j i. rewrite (repr_cache _ _ _ R). by setoid_rewrite Hp.
      * intros i. rewrite Hp. apply R.
      * rewrite (repr_size _ _ _ R), El, fmap_app. cbn. rewrite !length_app. cbn. lia.
      * rewrite <- (repr_bound _ _ _ R), El, fmap_app. cbn. rewrite !length_app. cbn. lia.
      * intros e He. apply (repr_values _ _ _ R). rewrite El, <- Permutation_middle, <- fmap_app. done.
    + intros v' [= <-]. split; [|by eexists _, _]. apply (repr_values _ _ _ R (k, v)). rewrite El. apply elem_of_app. right. by left.
  - assert (find k l = None) as -> by by apply find_none; eapply repr_missing. exists c. by split_and!.
Qed.

Lemma evict_refines cap c l : Repr cap c l -> (0 < length l)%nat ->
  exists c', evict c = Ok c' /\ Repr cap c' (removelast l) /\ next_node c' = next_node c.
Proof.
  intros R Hl. unfold evict. destruct (exists_last (l := ttl_ c)) as (r & [id [k v]] & E).
  { intros E. rewrite <- (repr_list _ _ _ R), E in Hl. cbn in Hl. lia. }
  rewrite E, last_snoc. cbn. rewrite removelast_last. eexists. split; [done|]. split; [|done].
  assert (l = r.*2 ++ [(k, v)]) as El by by rewrite <- (repr_list _ _ _ R), E, fmap_app.
  pose proof (repr_ids _ _ _ R) as Hi. pose proof (repr_keys _ _ _ R) as Hd. rewrite El in Hd. rewrite E in Hi. rewrite fmap_app in Hi. rewrite fmap_app in Hd.
  apply NoDup_app in Hi as (Hi1 & Hi2 & _). apply NoDup_app in Hd as (Hd1 & Hd2 & _). rewrite El, removelast_last.
  split; cbn [ttl_ cache_ next_node size_ cap_]; [done|done|done| | | |apply R| |].
  - intros j i. rewrite lookup_delete_Some, (repr_cache _ _ _ R), E. split.
    + intros (Hne & w & [Hw|[= ]%list_elem_of_singleton]%elem_of_app); [by exists w|done].
    + intros [w Hw]. split; [|exists w; apply elem_of_app; by left]. intros <-. apply (Hd2 k); [|by left].
      apply list_elem_of_fmap. exists (k, w). split; [done|]. apply list_elem_of_fmap. by exists (i, (k, w)).
  - intros i Hin. apply (repr_fresh _ _ _ R). rewrite E, fmap_app. apply elem_of_app. by left.
  - rewrite (repr_size _ _ _ R), El, !length_app. cbn. lia.
  - rewrite <- (repr_bound _ _ _ R), El, !length_app. lia.
  - intros e He. apply (repr_values _ _ _ R). rewrite El. apply elem_of_app. by left.
Qed.

Lemma insert_refines cap c l k v : Repr cap c l -> (length l < cap)%nat -> k ∉ l.*1 -> v <> -1 ->
  Repr cap (mk_LRUCache (size_ c + 1) (cap_ c) ((next_node c, (k, v)) :: ttl_ c) (<[k := next_node c]> (cache_ c)) (S (next_node c))) ((k, v) :: l).
Proof.
  intros R Hl Hk Hv. split; cbn [ttl_ cache_ next_node size_ cap_]; [by rewrite fmap_cons, (repr_list _ _ _ R)| | | | | |apply R| |].
  - apply NoDup_cons. split; [|apply R]. intros H%(repr_fresh _ _ _ R). cbn in H. lia.
  - apply NoDup_cons. split; [done|apply R].
  - intros j i. split.
    + intros [[<- <-]|[Hne H]]%lookup_insert_Some; [exists v; by left|]. apply (repr_cache _ _ _ R) in H as [w Hw]. exists w. by right.
    + intros (w & [[= -> -> ->]|Hw]%elem_of_cons); [by rewrite lookup_insert_eq|]. rewrite lookup_insert_ne; [apply (repr_cache _ _ _ R); by exists w|].
      intros ->. apply Hk. rewrite <- (repr_list _ _ _ R). apply list_elem_of_fmap. exists (j, w). split; [done|]. apply list_elem_of_fmap. by exists (i, (j, w)).
  - intros i [->|H]%elem_of_cons; [cbn; lia|]. apply (repr_fresh _ _ _ R) in H. lia.
  - cbn. rewrite (repr_size _ _ _ R). lia.
  - cbn. lia.
  - intros e [->|He]%elem_of_cons; [done|by apply R].
Qed.

Lemma removelast_take {A} (l : list A) : removelast l = take (length l - 1) l.
Proof. rewrite Nat.sub_1_r. apply removelast_firstn_len. Qed.

Lemma put_refines cap c l k v : Repr cap c l -> (1 <= cap)%nat -> v <> -1 -> exists c', put k v c = Ok c' /\ Repr cap c' (spec_put cap k v l).
Proof.
  intros R Hcap Hv. unfold put, spec_put. destruct (get_refines cap c l k R) as (c' & -> & R' & Hfound & Hnone). cbn [mbind outcome_bind].
  unfold spec_get in *. destruct (find k l) as [old|] eqn:Hf; cbn [fst snd] in *.
  - destruct (Hfound old eq_refl) as (Hold & id & r & E & Hc). rewrite bool_decide_true by done. rewrite (proj2 (Z.eqb_neq old (-1))) by done. cbn.
    rewrite Hc. cbn. eexists. split; [done|]. rewrite E. cbn. rewrite decide_True by done. cbn.
    assert (drop_key k l = r.*2) as Hr. { pose proof (repr_list _ _ _ R') as H. rewrite E in H. by injection H as <-. } rewrite Hr in *.
    pose proof R' as [H1 H2 H3 H4 H5 H6 H7 H8 H9]. rewrite E in *. split; cbn [ttl_ cache_ next_node size_ cap_]; try done.
    + intros j i. rewrite H4. split; intros (w & [[= -> -> ->]|Hw]%elem_of_cons); eexists; (by left) || (by right).
    + intros e [->|He]%elem_of_cons; [done|]. apply H9. by right.
  - rewrite bool_decide_false by by intros []. cbn. rewrite (Hnone eq_refl) in *. apply find_none in Hf.
    rewrite (repr_size _ _ _ R), (repr_cap _ _ _ R). destruct (Z.eqb_spec (Z.of_nat (length l)) (Z.of_nat cap)) as [Heq|Hne].
    + destruct (evict_refines cap c l R) as (c'' & -> & R'' & Hnext); [lia|]. cbn. eexists. split; [done|]. replace (take (cap - 1) l) with (removelast l) by (rewrite removelast_take; f_equal; lia).
      apply insert_refines; [done| | |done].
      * rewrite removelast_take, length_take. lia.
      * rewrite removelast_take, fmap_take. intros Hin. apply Prelude.elem_of_take in Hin. done.
    + cbn. eexists. split; [done|]. pose proof (repr_bound _ _ _ R). rewrite take_ge by lia. apply insert_refines; [done|lia|done|done].
Qed.

Definition storable (o : op) : Prop := match o with OPut _ v => v <> -1 | _ => True end.

Lemma run_refines cap os : (1 <= cap)%nat -> Forall storable os -> forall c l, Repr cap c l ->
  exists c', run os c = Ok (c', (spec_run cap os l).2) /\ Repr cap c' (spec_run cap os l).1.
Proof.
  intros Hcap Hos. induction Hos as [|o os Ho _ IH]; intros c l R; [by exists c|]. cbn. destruct o as [k|k v].
  - destruct (get_refines cap c l k R) as (c1 & Hg & R1 & _). cbn. rewrite Hg. cbn. destruct (spec_get k l) as [l1 v]. cbn in *.
    destruct (IH c1 l1 R1) as (c2 & -> & R2). cbn. destruct (spec_run cap os l1) as [l2 rs]. by exists c2.
  - destruct (put_refines cap c l k v R Hcap Ho) as (c1 & Hp & R1). cbn. rewrite Hp. cbn.
    destruct (IH c1 _ R1) as (c2 & -> & R2). cbn. destruct (spec_run cap os _) as [l2 rs]. by exists c2.
Qed.

Lemma make_repr cap : Repr cap (make (Z.of_nat cap)) [].
Proof.
  split; cbn; try done; try (by constructor); try (by intros x Hx%elem_of_nil); [|lia].
  intros k id. split; [done|]. by intros [v Hv%elem_of_nil].
Qed.

(** C39: A cache of capacity at least one that is never given the value -1 answers as a list of
    entries in the order of their last use that drops the last one when it is full: what [get]
    returns is the value last stored under a key that is still in it, else -1; it never holds
    more entries than its capacity, nor two for one key; and no call is undefined. *)
Theorem lru_cache_refines (cap : nat) (os : list op) (Hcap : (1 <= cap)%nat) (Hos : Forall storable os) :
  exists c, run os (make (Z.of_nat cap)) = Ok (c, (spec_run cap os []).2) /\ (ttl_ c).*2 = (spec_run cap os []).1 /\
    size_ c = Z.of_nat (length (ttl_ c)) /\ size_ c <= Z.of_nat cap /\ NoDup (ttl_ c).*2.*1.
Proof.
  destruct (run_refines cap os Hcap Hos _ _ (make_repr cap)) as (c & Hr & R). exists c. split; [done|].
  pose proof (repr_bound _ _ _ R). pose proof (repr_size _ _ _ R) as Hs. pose proof (repr_list _ _ _ R) as Hl.
  assert (length (ttl_ c) = length (spec_run cap os []).1) as Hlen by by rewrite <- Hl, length_fmap.
  split_and!; [done|lia|lia|]. rewrite Hl. apply R.
Qed.

Definition few_ops : list op := [OPut 1 10; OPut 2 20; OGet 1; OPut 3 30; OGet 2; OGet 3].

Lemma lru_cache_refines_witness : exists c, run few_ops (make 2) = Ok (c, [10; -1; 30]).
Proof.
  assert (Forall storable few_ops) as H by by repeat constructor.
  destruct (lru_cache_refines 2 few_ops ltac:(lia) H) as (c & Hc & _). exists c. exact Hc.
Defined.

(** A stored -1 counts as missing: storing the key again adds a second entry for it, and
    when the older one is dropped the key is forgotten while the newer entry still takes up
    room. *)
Theorem lru_minus_one :
  exists c, run [OPut 1 (-1); OPut 1 5; OPut 2 6] (make 2) = Ok (c, []) /\ size_ c = 2 /\ (ttl_ c).*2 = [(2, 6); (1, 5)] /\
    cache_ c !! 1 = None.
Proof. eexists. split; [by vm_compute|]. by vm_compute. Qed.

(** A cache without capacity asks an empty list for its last element. *)
Theorem lru_capacity_zero k v : put k v (make 0) = Undef.
Proof. done. Qed.
End LRUCache.

(** ** The queue of two stacks *)

Module MyQueue.
(** A stack has its top first; [head_] is not initialised. *)
Record MyQueue := mk_MyQueue { master_ : list Z; slave_ : list Z; head_ : option Z }.

Definition make : MyQueue := mk_MyQueue [] [] None.

(** The loops that move one stack onto the other. *)
Fixpoint pour (from onto : list Z) : list Z :=
  match from with
  | [] => onto
  | ele :: from => pour from (ele :: onto)
  end.

Definition push (x : Z) (q : MyQueue) : MyQueue :=
  let q := match slave_ q with
           | [] => q
           | ele :: _ => mk_MyQueue (pour (slave_ q) (master_ q)) [] (Some ele)
           end in
  let m := x :: master_ q in
  mk_MyQueue m (slave_ q) (if bool_decide (length m = 1%nat) then Some x else head_ q).

Definition pop (q : MyQueue) : outcome (MyQueue * Z) :=
  match pour (master_ q) (slave_ q) with
  | [] => Undef
  | result :: s => Ok (mk_MyQueue [] s (head_ q), result)
  end.

Definition peek (q : MyQueue) : outcome Z :=
  match slave_ q with
  | [] => the (head_ q)
  | x :: _ => Ok x
  end.

Definition empty (q : MyQueue) : bool := match master_ q, slave_ q with [], [] => true | _, _ => false end.

(** *** What it holds *)

Record Holds (q : MyQueue) (l : list Z) : Prop := {
  holds_list : slave_ q ++ rev (master_ q) = l;
  holds_one : master_ q = [] \/ slave_ q = [];
  holds_head : slave_ q = [] -> l <> [] -> head_ q = head l
}.

Lemma pour_rev a b : pour a b = rev a ++ b.
Proof. revert b. induction a as [|x a IH]; intros b; [done|]. cbn. by rewrite IH, <- app_assoc. Qed.

Lemma push_holds x q l : Holds q l -> Holds (push x q) (l ++ [x]).
Proof.
  intros [Hl Ho Hh]. unfold push. destruct (slave_ q) as [|e s] eqn:Es; cbn [master_ slave_ head_].
  - cbn in Hl. split; cbn [master_ slave_ head_]; rewrite ?Es; [by cbn; rewrite Hl|by right|]. intros _ _.
    destruct (master_ q) as [|y m] eqn:Em; cbn in *; [by subst|]. rewrite Hh; [|done|by subst; destruct (rev m)]. subst. by destruct (rev m).
  - destruct Ho as [Em|]; [|done]. rewrite Em in *. rewrite pour_rev, app_nil_r. cbn [rev] in Hl. rewrite app_nil_r in Hl. subst l.
    split; cbn [master_ slave_ head_]; [|by right|].
    + rewrite <- (rev_involutive (e :: s)) at 2. done.
    + intros _ _. rewrite bool_decide_false; [done|]. cbn. rewrite length_app. cbn. lia.
Qed.

Lemma pop_holds q x l : Holds q (x :: l) -> exists q', pop q = Ok (q', x) /\ Holds q' l.
Proof.
  intros [Hl Ho Hh]. unfold pop. rewrite pour_rev.
  assert (rev (master_ q) ++ slave_ q = x :: l) as ->. { destruct Ho as [E|E]; rewrite E in *; cbn in *; rewrite ?app_nil_r in *; done. }
  eexists. split; [done|]. split; cbn; [by rewrite app_nil_r|by left|by intros ->].
Qed.

Lemma peek_holds q x l : Holds q (x :: l) -> peek q = Ok x.
Proof.
  intros [Hl Ho Hh]. unfold peek. destruct (slave_ q) as [|y s] eqn:Es; [by rewrite Hh|]. cbn in Hl. by injection Hl as ->.
Qed.

Lemma empty_holds q l : Holds q l -> empty q = bool_decide (l = []).
Proof.
  intros [Hl Ho Hh]. unfold empty. destruct (master_ q) as [|y m] eqn:Em, (slave_ q) as [|z s] eqn:Es; cbn in Hl; subst l; try done.
  - rewrite bool_decide_false; [done|]. by destruct (rev m).
Qed.

Inductive op := Push (x : Z) | Pop | Peek | IsEmpty.
Inductive res := RInt (x : Z) | RBool (b : bool).

Definition run_op (o : op) (q : MyQueue) : outcome (MyQueue * list res) :=
  match o with
  | Push x => Ok (push x q, [])
  | Pop => '(q, x) ← pop q; Ok (q, [RInt x])
  | Peek => x ← peek q; Ok (q, [RInt x])
  | IsEmpty => Ok (q, [RBool (empty q)])
  end.

Definition spec_op (o : op) (l : list Z) : option (list Z * list res) :=
  match o, l with
  | Push x, _ => Some (l ++ [x], [])
  | Pop, x :: l => Some (l, [RInt x])
  | Peek, x :: _ => Some (l, [RInt x])
  | IsEmpty, _ => Some (l, [RBool (bool_decide (l = []))])
  | _, [] => None
  end.

Fixpoint run (os : list op) (q : MyQueue) : outcome (MyQueue * list res) :=
  match os with
  | [] => Ok (q, [])
  | o :: os => '(q, r) ← run_op o q; '(q, rs) ← run os q; Ok (q, r ++ rs)
  end.

Fixpoint spec_run (os : list op) (l : list Z) : option (list Z * list res) :=
  match os with
  | [] => Some (l, [])
  | o :: os => '(l, r) ← spec_op o l; '(l, rs) ← spec_run os l; Some (l, r ++ rs)
  end.

Lemma step_holds o q l l' r : Holds q l -> spec_op o l = Some (l', r) -> exists q', run_op o q = Ok (q', r) /\ Holds q' l'.
Proof.
  intros H Hs. destruct o; cbn in *.
  - injection Hs as <- <-. eexists. split; [done|by apply push_holds].
  - destruct l as [|x l]; [done|]. injection Hs as <- <-. destruct (pop_holds q x l H) as (q' & -> & H'). by exists q'.
  - destruct l as [|x l]; [done|]. injection Hs as <- <-. rewrite (peek_holds q x l H). by exists q.
  - injection Hs as <- <-. rewrite (empty_holds q l H). by exists q.
Qed.

(** The two stacks are a queue: as long as nothing is taken from an empty one, a sequence
    of calls returns what it returns on a FIFO list. *)
Theorem my_queue_fifo os l rs (Hs : spec_run os [] = Some (l, rs)) : exists q, run os make = Ok (q, rs) /\ slave_ q ++ rev (master_ q) = l.
Proof.
  assert (forall q k, Holds q k -> spec_run os k = Some (l, rs) -> exists q', run os q = Ok (q', rs) /\ Holds q' l) as H.
  { clear Hs. revert rs. induction os as [|o os IH]; intros rs q k Hq Hs; cbn in *; [injection Hs as <- <-; by exists q|].
    apply bind_Some in Hs as ([k1 r] & Ho & ([k2 rs'] & Hs & E)%bind_Some). injection E as -> <-.
    destruct (step_holds o q k k1 r Hq Ho) as (q1 & -> & H1). cbn. destruct (IH rs' q1 k1 H1 Hs) as (q2 & -> & H2). by exists q2. }
  destruct (H make [] ltac:(by split; [|left|]) Hs) as (q & Hr & Hq). exists q. split; [done|apply Hq].
Qed.

Lemma my_queue_fifo_witness : exists q, run [Push 1; Push 2; Pop; Push 3; Peek; Pop; IsEmpty] make = Ok (q, [RInt 1; RInt 2; RInt 2; RBool false]).
Proof.
  destruct (my_queue_fifo [Push 1; Push 2; Pop; Push 3; Peek; Pop; IsEmpty] [3] [RInt 1; RInt 2; RInt 2; RBool false] eq_refl) as (q & Hq & _).
  exists q. exact Hq.
Defined.
End MyQueue.

(** ** The set with random access *)

Module RandomizedSet.
Record RandomizedSet := mk_RandomizedSet { table_ : gmap Z nat; values_ : list Z }.

Definition make : RandomizedSet := mk_RandomizedSet ∅ [].

Definition insert (val : Z) (s : RandomizedSet) : RandomizedSet * bool :=
  match table_ s !! val with
  | Some _ => (s, false)
  | None => (mk_RandomizedSet (<[val := length (values_ s)]> (table_ s)) (values_ s ++ [val]), true)
  end.

Definition remove (val : Z) (s : RandomizedSet) : outcome (RandomizedSet * bool) :=
  match table_ s !! val with
  | None => Ok (s, false)
  | Some idx =>
      back ← the (last (values_ s));
      _ ← the (values_ s !! idx);
      let v := <[idx := back]> (values_ s) in
      back ← the (last v);
      Ok (mk_RandomizedSet (delete val (<[back := idx]> (table_ s))) (removelast v), true)
  end.

(** [i]: what the distribution over [0, size - 1] gave; there is none for an empty set. *)
Definition getRandom (i : nat) (s : RandomizedSet) : outcome Z := the (values_ s !! i).

(** *** What it holds *)

Record Holds (s : RandomizedSet) (m : gset Z) : Prop := {
  holds_table v i : table_ s !! v = Some i <-> values_ s !! i = Some v;
  holds_elem v : v ∈ m <-> v ∈ values_ s
}.

Lemma holds_once s m i j v : Holds s m -> values_ s !! i = Some v -> values_ s !! j = Some v -> i = j.
Proof. intros [Ht _] Hi%Ht Hj%Ht. congruence. Qed.

Lemma holds_nodup s m : Holds s m -> NoDup (values_ s).
Proof. intros H. apply NoDup_alt. intros i j v. by apply (holds_once s m). Qed.

Lemma holds_size s m : Holds s m -> size m = length (values_ s).
Proof.
  intros H. rewrite <- (size_list_to_set (C := gset Z)) by by eapply holds_nodup. f_equal. apply set_eq. intros v.
  rewrite elem_of_list_to_set. apply (holds_elem s m H).
Qed.

Lemma holds_member s m v : Holds s m -> v ∈ m <-> is_Some (table_ s !! v).
Proof.
  intros [Ht Hm]. rewrite Hm, list_elem_of_lookup. split; intros [i Hi]; exists i; by apply Ht.
Qed.

Lemma insert_holds v s m : Holds s m -> exists s', insert v s = (s', bool_decide (v ∉ m)) /\ Holds s' ({[v]} ∪ m).
Proof.
  intros H. pose proof (holds_member s m v H) as Hin. unfold insert. destruct (table_ s !! v) as [i|] eqn:Hv.
  - exists s. assert (v ∈ m) as Hvm by (apply Hin; by eexists). rewrite bool_decide_false by tauto. split; [done|].
    replace ({[v]} ∪ m) with m by set_solver. done.
  - assert (v ∉ m) as Hvm by (rewrite Hin; by intros []). rewrite bool_decide_true by done. eexists. split; [done|].
    destruct H as [Ht Hm]. split; cbn [table_ values_].
    + intros w i. rewrite lookup_snoc_Some. destruct (decide (v = w)) as [<-|Hne].
      * rewrite lookup_insert_eq. split; [intros [= <-]; by right|]. intros [[_ Hi]|[-> _]]; [apply Ht in Hi; congruence|done].
      * rewrite lookup_insert_ne by done. rewrite Ht. split; [intros Hi; left; split; [by eapply lookup_lt_Some|done]|]. by intros [[_ ?]|[_ ?]].
    + intros w. rewrite elem_of_union, elem_of_app, elem_of_singleton, list_elem_of_singleton, Hm. tauto.
Qed.

Lemma removelast_insert (l : list Z) idx b : last l = Some b -> (idx < length l)%nat ->
  last (<[idx := b]> l) = Some b /\ forall i v, removelast (<[idx := b]> l) !! i = Some v <-> (S i < length l)%nat /\ (if decide (i = idx) then v = b else l !! i = Some v).
Proof.
  intros Hb Hi. rewrite last_lookup in Hb. split.
  - rewrite last_lookup, length_insert. destruct (decide (idx = pred (length l))) as [->|Hne]; [by apply list_lookup_insert_eq; lia|by rewrite list_lookup_insert_ne].
  - intros i v. rewrite removelast_firstn_len, length_insert. destruct (decide (i < pred (length l))%nat) as [Hlt|Hge].
    + rewrite lookup_take_lt by done. case_decide as E; [subst; rewrite list_lookup_insert_eq by done|rewrite list_lookup_insert_ne by done];
        split; naive_solver lia.
    + rewrite lookup_take_ge by lia. split; [done|lia].
Qed.

Lemma remove_holds v s m : Holds s m -> exists s', remove v s = Ok (s', bool_decide (v ∈ m)) /\ Holds s' (m ∖ {[v]}).
Proof.
  intros H. pose proof (holds_member s m v H) as Hin. unfold remove. destruct (table_ s !! v) as [idx|] eqn:Hv; cycle 1.
  - assert (v ∉ m) as Hvm by (rewrite Hin; by intros []). rewrite bool_decide_false by done. exists s. split; [done|].
    replace (m ∖ {[v]}) with m by set_solver. done.
  - rewrite bool_decide_true by (apply Hin; by eexists). pose proof H as [Ht Hm]. pose proof (proj1 (Ht _ _) Hv) as Hidx.
    pose proof (lookup_lt_Some _ _ _ Hidx) as Hlt. destruct (last (values_ s)) as [b|] eqn:Hb; [|apply last_None in Hb; by rewrite Hb in Hidx].
    destruct (removelast_insert _ idx b Hb Hlt) as [Hb' Hrl]. cbn. rewrite Hidx. cbn. rewrite Hb'. cbn. eexists. split; [done|].
    assert (values_ s !! pred (length (values_ s)) = Some b) as Hlast by by rewrite <- last_lookup.
    split; cbn [table_ values_].
    + intros w i. rewrite Hrl, lookup_delete_Some. destruct (decide (b = w)) as [<-|Hne].
      * rewrite lookup_insert_eq. split.
        -- intros [Hvb [= <-]]. rewrite decide_True by done. split; [|done].
           assert (idx <> pred (length (values_ s))) by (intros ->; congruence). lia.
        -- intros [Hi Hw]. case_decide as E; [subst i|pose proof (holds_once s m _ _ _ H Hw Hlast); lia].
           split; [|done]. intros ->. pose proof (holds_once s m _ _ _ H Hidx Hlast). lia.
      * rewrite lookup_insert_ne by done. rewrite Ht. case_decide as E.
        -- subst i. split; [intros [Hvw Hw]; congruence|naive_solver].
        -- split; [intros [Hvw Hw]|intros [Hi Hw]; split; [intros ->; by apply (holds_once s m _ _ _ H Hw) in Hidx|done]].
           split; [|done]. pose proof (lookup_lt_Some _ _ _ Hw). assert (i <> pred (length (values_ s))) by (intros ->; congruence). lia.
    + intros w. rewrite elem_of_difference, not_elem_of_singleton, Hm, !list_elem_of_lookup. setoid_rewrite Hrl. split.
      * intros [[i Hi] Hne]. destruct (decide (i = pred (length (values_ s)))) as [->|Hi'].
        -- exists idx. rewrite decide_True by done. assert (w = b) as -> by congruence. split; [|done].
           assert (idx <> pred (length (values_ s))) by (intros ->; congruence). lia.
        -- exists i. pose proof (lookup_lt_Some _ _ _ Hi). split; [lia|]. rewrite decide_False; [done|]. intros ->. congruence.
      * intros (i & Hi & Hw). case_decide as E; [subst w i; split; [by eexists|]|split; [by exists i|]].
        -- intros ->. pose proof (holds_once s m _ _ _ H Hidx Hlast). lia.
        -- intros ->. by apply (holds_once s m _ _ _ H Hw) in Hidx.
Qed.

Inductive op := Insert (v : Z) | Remove (v : Z).

Fixpoint run (os : list op) (s : RandomizedSet) : outcome (RandomizedSet * list bool) :=
  match os with
  | [] => Ok (s, [])
  | Insert v :: os => let '(s, r) := insert v s in '(s, rs) ← run os s; Ok (s, r :: rs)
  | Remove v :: os => '(s, r) ← remove v s; '(s, rs) ← run os s; Ok (s, r :: rs)
  end.

Fixpoint spec_run (os : list op) (m : gset Z) : gset Z * list bool :=
  match os with
  | [] => (m, [])
  | Insert v :: os => let '(k, rs) := spec_run os ({[v]} ∪ m) in (k, bool_decide (v ∉ m) :: rs)
  | Remove v :: os => let '(k, rs) := spec_run os (m ∖ {[v]}) in (k, bool_decide (v ∈ m) :: rs)
  end.

Lemma run_holds os : forall s m, Holds s m -> exists s', run os s = Ok (s', (spec_run os m).2) /\ Holds s' (spec_run os m).1.
Proof.
  induction os as [|[v|v] os IH]; intros s m H; cbn; [by exists s|..].
  - destruct (insert_holds v s m H) as (s1 & -> & H1). destruct (IH s1 _ H1) as (s2 & -> & H2). cbn.
    destruct (spec_run os ({[v]} ∪ m)) as [k rs]. by exists s2.
  - destruct (remove_holds v s m H) as (s1 & -> & H1). cbn. destruct (IH s1 _ H1) as (s2 & -> & H2). cbn.
    destruct (spec_run os (m ∖ {[v]})) as [k rs]. by exists s2.
Qed.

(** The table of positions and the vector are a set: insertions and removals answer as
    those of a set, no access is out of range, the vector lists every element of the set once,
    and so [getRandom] has an element for every position below the number of elements. *)
Theorem randomized_set_refines os : exists s, run os make = Ok (s, (spec_run os ∅).2) /\
  NoDup (values_ s) /\ (forall v, v ∈ (spec_run os ∅).1 <-> v ∈ values_ s) /\
  (forall i, (i < size (spec_run os ∅).1)%nat -> exists v, getRandom i s = Ok v /\ v ∈ (spec_run os ∅).1).
Proof.
  destruct (run_holds os make ∅) as (s & Hr & H).
  { split; [intros v i; cbn; by rewrite lookup_empty, lookup_nil|intros v; set_solver]. }
  exists s. split; [done|]. split; [by eapply holds_nodup|]. split; [apply H|]. intros i Hi. rewrite (holds_size _ _ H) in Hi.
  apply lookup_lt_is_Some in Hi as [v Hv]. exists v. unfold getRandom. rewrite Hv. split; [done|]. apply H. by eapply list_elem_of_lookup_2.
Qed.
End RandomizedSet.

(** ** The hash map *)

Module MyHashMap.
Definition kSize : Z := 131.
Notation slot := (list (Z * Z)).
Definition MyHashMap : Type := list slot.

Definition make : MyHashMap := replicate (Z.to_nat kSize) [].

(** [key % kSize], which is negative for a negative key; the index is converted to [size_t]. *)
Definition slot_id (key : Z) : Z := wrap 64 (Z.rem key kSize).

(** [find_if] on the first components. *)
Fixpoint find_key (key : Z) (s : slot) : option Z :=
  match s with [] => None | (k, v) :: s => if k =? key then Some v else find_key key s end.

Fixpoint assign (key value : Z) (s : slot) : slot :=
  match s with [] => [] | (k, v) :: s => if k =? key then (k, value) :: s else (k, v) :: assign key value s end.

Definition put (key value : Z) (m : MyHashMap) : outcome MyHashMap :=
  s ← vec_get m (slot_id key);
  vec_set m (slot_id key) (match find_key key s with Some _ => assign key value s | None => s ++ [(key, value)] end).

Definition get (key : Z) (m : MyHashMap) : outcome Z :=
  s ← vec_get m (slot_id key); Ok (default (-1) (find_key key s)).

Definition remove (key : Z) (m : MyHashMap) : outcome MyHashMap :=
  s ← vec_get m (slot_id key);
  vec_set m (slot_id key) (filter (fun p => p.1 <> key) s).

(** *** What it holds *)

Record Holds (m : MyHashMap) (g : gmap Z Z) : Prop := {
  holds_length : Z.of_nat (length m) = kSize;
  holds_keys k v : g !! k = Some v -> 0 <= k;
  holds_find k s : 0 <= k -> vat m (slot_id k) = Some s -> find_key k s = g !! k
}.

Lemma slot_range k : 0 <= k -> slot_id k = k mod kSize /\ 0 <= slot_id k < kSize.
Proof.
  intros Hk. unfold slot_id. rewrite Z.rem_mod_nonneg by (unfold kSize; lia). pose proof (Z.mod_pos_bound k kSize ltac:(done)).
  rewrite wrap_small; [done|]. unfold in_u, kSize in *. lia.
Qed.

Lemma find_snoc k j v s : find_key k s = None -> find_key j (s ++ [(k, v)]) = if k =? j then Some v else find_key j s.
Proof.
  induction s as [|[i w] s IH]; cbn; [done|]. destruct (Z.eqb_spec i k) as [|Hik]; [done|]. intros H. rewrite (IH H).
  destruct (Z.eqb_spec i j), (Z.eqb_spec k j); congruence.
Qed.

Lemma find_assign k j v s : is_Some (find_key k s) -> find_key j (assign k v s) = if k =? j then Some v else find_key j s.
Proof.
  induction s as [|[i w] s IH]; cbn; [by intros []|]. destruct (Z.eqb_spec i k) as [->|Hik]; cbn; [by destruct (Z.eqb_spec k j)|]. intros H. rewrite (IH H).
  destruct (Z.eqb_spec i j), (Z.eqb_spec k j); congruence.
Qed.

Lemma find_filter k j s : find_key j (filter (fun p => p.1 <> k) s) = if k =? j then None else find_key j s.
Proof.
  induction s as [|[i w] s IH]; [by destruct (k =? j)|]. destruct (decide (i = k)) as [->|Hne].
  - rewrite filter_cons_False by by intros []. rewrite IH. cbn. by destruct (Z.eqb_spec k j).
  - rewrite filter_cons_True by done. cbn. rewrite IH. destruct (Z.eqb_spec i j), (Z.eqb_spec k j); congruence.
Qed.

Lemma slot_there m g k : Holds m g -> 0 <= k -> exists s, vat m (slot_id k) = Some s.
Proof. intros H Hk. apply vat_range. rewrite (holds_length _ _ H). by apply slot_range. Qed.

(** A slot is replaced. *)
Lemma set_holds m g g' k s s' : Holds m g -> 0 <= k -> vat m (slot_id k) = Some s ->
  (forall j, find_key j s' = if k =? j then g' !! k else find_key j s) ->
  (forall j, j <> k -> g' !! j = g !! j) -> exists m', vec_set m (slot_id k) s' = Ok m' /\ Holds m' g'.
Proof.
  intros H Hk Hs Hf Hg. destruct (slot_range k Hk) as [_ Hr]. rewrite vec_set_ok by by rewrite (holds_length _ _ H). eexists. split; [done|]. split.
  - rewrite length_insert. apply H.
  - intros j v Hj. destruct (decide (j = k)) as [->|Hne]; [done|]. rewrite Hg in Hj by done. by eapply holds_keys.
  - intros j t Hj Ht. destruct (decide (slot_id j = slot_id k)) as [E|Hne].
    + rewrite E, vat_set_eq in Ht by by rewrite (holds_length _ _ H). injection Ht as <-. rewrite Hf.
      destruct (Z.eqb_spec k j) as [->|Hkj]; [done|]. rewrite Hg by done. apply (holds_find _ _ H); [done|by rewrite E].
    + rewrite vat_set_ne in Ht by (lia || congruence). rewrite (holds_find _ _ H j t Hj Ht). symmetry. apply Hg. by intros ->.
Qed.

Lemma put_holds m g k v : Holds m g -> 0 <= k -> exists m', put k v m = Ok m' /\ Holds m' (<[k := v]> g).
Proof.
  intros H Hk. unfold put. destruct (slot_there m g k H Hk) as [s Hs]. rewrite (vec_get_ok _ _ _ Hs). cbn.
  apply (set_holds m g _ k s _ H Hk Hs); [|intros j Hj; by rewrite lookup_insert_ne]. intros j. rewrite lookup_insert_eq.
  destruct (find_key k s) eqn:Hf; [apply find_assign; by eexists|by apply find_snoc].
Qed.

Lemma erase_holds m g k : Holds m g -> 0 <= k -> exists m', remove k m = Ok m' /\ Holds m' (delete k g).
Proof.
  intros H Hk. unfold remove. destruct (slot_there m g k H Hk) as [s Hs]. rewrite (vec_get_ok _ _ _ Hs). cbn.
  apply (set_holds m g _ k s _ H Hk Hs); [|intros j Hj; by rewrite lookup_delete_ne]. intros j. rewrite lookup_delete_eq. apply find_filter.
Qed.

Lemma get_holds m g k : Holds m g -> 0 <= k -> get k m = Ok (default (-1) (g !! k)).
Proof.
  intros H Hk. unfold get. destruct (slot_there m g k H Hk) as [s Hs]. rewrite (vec_get_ok _ _ _ Hs). cbn. by rewrite (holds_find _ _ H k s Hk Hs).
Qed.

Inductive op := Put (k v : Z) | Get (k : Z) | Remove (k : Z).

Definition key_of (o : op) : Z := match o with Put k _ | Get k | Remove k => k end.

Fixpoint run (os : list op) (m : MyHashMap) : outcome (MyHashMap * list Z) :=
  match os with
  | [] => Ok (m, [])
  | Put k v :: os => m ← put k v m; run os m
  | Get k :: os => v ← get k m; '(m, vs) ← run os m; Ok (m, v :: vs)
  | Remove k :: os => m ← remove k m; run os m
  end.

Fixpoint spec_run (os : list op) (g : gmap Z Z) : list Z :=
  match os with
  | [] => []
  | Put k v :: os => spec_run os (<[k := v]> g)
  | Get k :: os => default (-1) (g !! k) :: spec_run os g
  | Remove k :: os => spec_run os (delete k g)
  end.

(** With keys that are not negative the map answers as a finite map: [get] returns the
    value last put under the key and not removed since, else -1, and no slot is out of range. *)
Theorem my_hash_map_refines os (Hk : Forall (fun o => 0 <= key_of o) os) : exists m, run os make = Ok (m, spec_run os ∅).
Proof.
  assert (forall m g, Holds m g -> exists m', run os m = Ok (m', spec_run os g)) as Hall.
  { induction Hk as [|o os Ho _ IH]; intros m g H; [by exists m|]. destruct o as [k v|k|k]; cbn in *.
    - destruct (put_holds m g k v H Ho) as (m1 & -> & H1). by apply IH.
    - rewrite (get_holds m g k H Ho). cbn. destruct (IH m g H) as (m1 & ->). by exists m1.
    - destruct (erase_holds m g k H Ho) as (m1 & -> & H1). by apply IH. }
  apply (Hall make ∅). split; [done|done|]. intros k s Hk0 Hs. rewrite lookup_empty. unfold vat in Hs. case_match; [|done].
  by apply lookup_replicate in Hs as [-> _].
Qed.

Lemma my_hash_map_refines_witness : exists m, run [Put 1 10; Put 132 20; Get 1; Remove 1; Get 1; Get 132] make = Ok (m, [10; -1; 20]).
Proof. apply (my_hash_map_refines [Put 1 10; Put 132 20; Get 1; Remove 1; Get 1; Get 132]). by repeat constructor. Defined.

(** A negative key that is no multiple of 131 has a negative remainder, and the index of its
    slot is out of range. *)
Theorem negative_key_undefined (k : Z) (Hk : k < 0) (Hr : k mod 131 <> 0) : forall v, put k v make = Undef.
Proof.
  intros v. unfold put. rewrite vec_get_undef; [done|]. unfold slot_id, kSize. change (Z.of_nat (length make)) with 131.
  assert (- 131 < Z.rem k 131 < 0) as Hrem.
  { pose proof (Z.rem_bound_pos (- k) 131 ltac:(lia) ltac:(lia)) as Hb. rewrite Z.rem_opp_l in Hb by done. assert (Z.rem k 131 <> 0); [|lia].
    intros H0. apply Hr. apply Z.rem_divide in H0; [|done]. by apply Z.mod_divide. }
  unfold wrap. replace (Z.rem k 131) with (Z.rem k 131 + 2 ^ 64 + (-1) * 2 ^ 64) by lia.
  rewrite Z_mod_plus_full, Z.mod_small by lia. lia.
Qed.

Lemma negative_key_undefined_witness : (-1) mod 131 <> 0 /\ put (-1) 5 make = Undef.
Proof. split; [done|]. by apply (negative_key_undefined (-1)). Defined.
End MyHashMap.
