(* ===== verification/Decimal.v ===== *)
(** * Decimal numbers and division

    Models four exercises of crack-data-structures-and-algorithms/leetcode: the sum and the
    product of numbers written in decimal (add_strings_q415.cpp, multiply_strings_q43.cpp), the
    reading of an [int] (string_to_integer_atoi_q8.cpp) and the division of [int]s by shifts
    and subtractions (divide_two_integers_q29.cpp). *)

From S2P Require Import Prelude.

#[local] Open Scope Z_scope.

Definition INT_MAX : Z := 2 ^ 31 - 1.
Definition INT_MIN : Z := - 2 ^ 31.

(** A [char] is signed. *)
Definition schar (c : ascii) : Z := if uchar c <? 128 then uchar c else uchar c - 256.

(** A [size_t] converted to [int]. *)
Definition to_int (x : Z) : Z := wrap 32 (x + 2 ^ 31) - 2 ^ 31.

(** [s[i] - '0'] *)
Definition digit_at (s : str) (i : Z) : outcome Z := c ← vec_get s i; Ok (schar c - 48).

(** An [int] stored in a [char]. *)
Definition to_char (x : Z) : ascii := chr (wrap 8 x).

(** ** Sums *)

Module AddStrings.
Fixpoint add_loop (fuel : nat) (num1 num2 : str) (p1 p2 carry : Z) (ans : str) : outcome (Z * str) :=
  if (0 <=? p1) || (0 <=? p2) then
    match fuel with
    | O => OutOfFuel
    | S fuel =>
        val1 ← (if 0 <=? p1 then digit_at num1 p1 else Ok 0);
        val2 ← (if 0 <=? p2 then digit_at num2 p2 else Ok 0);
        let sum := val1 + val2 + carry in
        add_loop fuel num1 num2 (if 0 <=? p1 then p1 - 1 else p1) (if 0 <=? p2 then p2 - 1 else p2)
          (Z.quot sum 10) (ans ++ [to_char (48 + Z.rem sum 10)])
    end
  else Ok (carry, ans).

Definition addStrings (num1 num2 : str) : outcome str :=
  let p1 := to_int (Z.of_nat (length num1) - 1) in
  let p2 := to_int (Z.of_nat (length num2) - 1) in
  '(carry, ans) ← add_loop (Nat.max (length num1) (length num2)) num1 num2 p1 p2 0 [];
  Ok (rev (if carry =? 0 then ans else ans ++ [to_char (48 + carry)])).
End AddStrings.

(** ** Products *)

Module Multiply.
(** The inner loop, from [j] on. *)
Fixpoint inner_loop (n : nat) (num1 : str) (d2 : Z) (i j : nat) (carry : Z) (digits : str) : outcome (Z * str) :=
  match n with
  | O => Ok (carry, digits)
  | S n =>
      d1 ← digit_at num1 (Z.of_nat (length num1) - 1 - Z.of_nat j);
      let dst := (i + j)%nat in
      let digits := if (length digits <=? dst)%nat then digits ++ ["0"%char] else digits in
      c ← digit_at digits (Z.of_nat dst);
      let product := d1 * d2 + carry + c in
      digits ← vec_set digits (Z.of_nat dst) (to_char (Z.rem product 10 + 48));
      inner_loop n num1 d2 i (S j) (Z.quot product 10) digits
  end.

(** The outer loop, from [i] on. *)
Fixpoint outer_loop (n : nat) (num1 num2 : str) (i : nat) (digits : str) : outcome str :=
  match n with
  | O => Ok digits
  | S n =>
      d2 ← digit_at num2 (Z.of_nat (length num2) - 1 - Z.of_nat i);
      '(carry, digits) ← inner_loop (length num1) num1 d2 i 0 0 digits;
      outer_loop n num1 num2 (S i) (if 0 <? carry then digits ++ [to_char (carry + 48)] else digits)
  end.

Definition multiply (num1 num2 : str) : outcome str :=
  if bool_decide (num1 = lit "0") || bool_decide (num2 = lit "0") then Ok (lit "0") else
  let '(num1, num2) := if (length num2 <? length num1)%nat then (num2, num1) else (num1, num2) in
  digits ← outer_loop (length num2) num1 num2 0 [];
  Ok (rev digits).
End Multiply.

(** ** Reading *)

Module Atoi.
(** [isdigit] is undefined for a negative argument. *)
Definition isdigit (c : ascii) : outcome bool :=
  if 0 <=? schar c then Ok ((48 <=? schar c) && (schar c <=? 57)) else Undef.

Fixpoint skip_spaces (s : str) : str :=
  match s with c :: r => if decide (c = " "%char) then skip_spaces r else s | [] => [] end.

(** The loop, over the characters from [pos] on. *)
Fixpoint read_loop (s : str) (val : Z) : outcome Z :=
  match s with
  | [] => Ok val
  | c :: s =>
      d ← isdigit c;
      if d : bool then
        val ← int64 (val * 10); val ← int64 (val + (schar c - 48));
        if INT_MAX <? val then Ok val else read_loop s val
      else Ok val
  end.

Definition myAtoi (s : str) : outcome Z :=
  match skip_spaces s with
  | [] => Ok 0
  | c :: r =>
      let '(sign, rest) := if decide (c = "-"%char) then (true, r) else if decide (c = "+"%char) then (false, r) else (false, c :: r) in
      val ← read_loop rest 0;
      let val := if sign : bool then - val else val in
      Ok (Z.min (Z.max val INT_MIN) INT_MAX)
  end.
End Atoi.

(** ** Division *)

Module Divide.
(** [abs(INT_MIN)] is undefined. *)
Definition abs (x : Z) : outcome Z := if decide (i32 (- x)) then Ok (Z.abs x) else Undef.

Fixpoint shift_loop (fuel : nat) (m round f : Z) : outcome (Z * Z) :=
  if wrap 64 (Z.shiftl f 1) <=? m then
    match fuel with
    | O => OutOfFuel
    | S fuel => shift_loop fuel m (wrap 64 (Z.shiftl round 1)) (wrap 64 (Z.shiftl f 1))
    end
  else Ok (round, f).

Fixpoint do_div (fuel : nat) (m n : Z) : outcome Z :=
  if m <? n then Ok 0 else
  match fuel with
  | O => OutOfFuel
  | S fuel =>
      '(round, f) ← shift_loop 64 m 1 n;
      q ← do_div fuel (wrap 64 (m - f)) n;
      Ok (wrap 64 (round + q))
  end.

Definition divide (dividend divisor : Z) : outcome Z :=
  m ← abs dividend; n ← abs divisor;
  quo ← do_div 64 m n;
  let quo := wrap 64 (quo + 2 ^ 63) - 2 ^ 63 in
  quo ← (if xorb (dividend <? 0) (divisor <? 0) then int64 (- quo) else Ok quo);
  let quo := if (quo <? INT_MIN) || (INT_MAX <? quo) then INT_MAX else quo in
  Ok quo.
End Divide.

(** ** Values *)

Definition is_digit (c : ascii) : Prop := 48 <= schar c <= 57.
Definition digits (s : str) : Prop := Forall is_digit s.

(** The value of a list of digits, the lowest first. *)
Fixpoint low_value (s : str) : Z :=
  match s with [] => 0 | c :: s => schar c - 48 + 10 * low_value s end.

(** The number a text stands for. *)
Definition number (s : str) : Z := low_value (rev s).

Definition tens (n : nat) : Z := 10 ^ Z.of_nat n.

Lemma tens_S n : tens (S n) = 10 * tens n.
Proof. unfold tens. rewrite Nat2Z.inj_succ, Z.pow_succ_r by lia. done. Qed.

Lemma tens_add a b : tens (a + b) = tens a * tens b.
Proof. unfold tens. rewrite Nat2Z.inj_add, Z.pow_add_r by lia. done. Qed.

Lemma tens_pos n : 0 < tens n.
Proof. unfold tens. lia. Qed.

Lemma schar_to_char x : 0 <= x < 128 -> schar (to_char x) = x.
Proof.
  intros H. unfold schar, to_char. rewrite wrap_small by (unfold in_u; lia). rewrite uchar_chr by (unfold in_u; lia). case_bool; lia.
Qed.

Lemma low_value_app a b : low_value (a ++ b) = low_value a + tens (length a) * low_value b.
Proof.
  induction a as [|c a IH]; cbn [app low_value length]; [unfold tens; cbn; lia|]. rewrite IH, tens_S. lia.
Qed.

Lemma digits_rev s : digits s -> digits (rev s).
Proof. apply Forall_rev. Qed.

Lemma number_rev s : number (rev s) = low_value s.
Proof. unfold number. by rewrite rev_involutive. Qed.

(** The first [S i] characters: one more digit. *)
Lemma number_take s i c : s !! i = Some c -> number (take (S i) s) = 10 * number (take i s) + (schar c - 48).
Proof.
  intros Hc. rewrite (take_S_r s i c Hc). unfold number. rewrite rev_app_distr. cbn. lia.
Qed.

Lemma digit_at_ok s i c : s !! i = Some c -> digit_at s (Z.of_nat i) = Ok (schar c - 48).
Proof. intros Hc. unfold digit_at. rewrite (vec_get_ok s _ c); [done|]. by rewrite vat_nat. Qed.

Lemma digits_at s i c : digits s -> s !! i = Some c -> 0 <= schar c - 48 <= 9.
Proof. intros Hs Hc. pose proof (proj1 (Forall_lookup _ _) Hs i c Hc) as H. unfold is_digit in H. lia. Qed.

Lemma to_char_digit d : 0 <= d <= 9 -> is_digit (to_char (48 + d)) /\ schar (to_char (48 + d)) = 48 + d.
Proof. intros Hd. unfold is_digit. rewrite schar_to_char by lia. lia. Qed.

Lemma to_int_small x : - 2 ^ 31 <= x < 2 ^ 31 -> to_int x = x.
Proof. intros H. unfold to_int. rewrite wrap_small by (unfold in_u; lia). lia. Qed.

(** *** The sum *)

Section AddStringsProofs.
Import AddStrings.
Context (num1 num2 : str) (H1 : digits num1) (H2 : digits num2).

(** A number is read from its position down, or is used up. *)
Lemma read_down s (n : nat) : digits s -> (n <= length s)%nat -> exists d n',
  (if 0 <=? Z.of_nat n - 1 then digit_at s (Z.of_nat n - 1) else Ok 0) = Ok d /\ 0 <= d <= 9 /\
  (if 0 <=? Z.of_nat n - 1 then Z.of_nat n - 1 - 1 else Z.of_nat n - 1) = Z.of_nat n' - 1 /\ n' = pred n /\
  number (take n s) = 10 * number (take n' s) + d.
Proof.
  intros Hs Hn. destruct n as [|n].
  - exists 0, O. by split_and!.
  - replace (Z.of_nat (S n) - 1) with (Z.of_nat n) by lia. rewrite (proj2 (Z.leb_le 0 (Z.of_nat n))) by lia.
    destruct (lookup_lt_is_Some_2 s n) as [c Hc]; [lia|]. exists (schar c - 48), n. rewrite (digit_at_ok s n c Hc). pose proof (digits_at s n c Hs Hc).
    split_and!; [done|lia|lia|lia|done|by apply number_take].
Qed.

Lemma add_loop_ok fuel : forall n1 n2 carry ans, (n1 <= length num1)%nat -> (n2 <= length num2)%nat -> (Nat.max n1 n2 <= fuel)%nat ->
  0 <= carry <= 1 -> digits ans ->
  exists carry' ans', add_loop fuel num1 num2 (Z.of_nat n1 - 1) (Z.of_nat n2 - 1) carry ans = Ok (carry', ans') /\ 0 <= carry' <= 1 /\ digits ans' /\
    low_value ans' + tens (length ans') * carry' = low_value ans + tens (length ans) * (number (take n1 num1) + number (take n2 num2) + carry) /\
    length ans' = (length ans + Nat.max n1 n2)%nat.
Proof.
  induction fuel as [|fuel IH]; intros n1 n2 carry ans Hn1 Hn2 Hf Hc Ha; cbn.
  - assert (n1 = O) as -> by lia. assert (n2 = O) as -> by lia. cbn. exists carry, ans. split_and!; try done; lia.
  - destruct (orb _ _) eqn:Ho; cycle 1.
    { apply orb_false_iff in Ho as [Ho1 Ho2]. assert (n1 = O) as -> by lia. assert (n2 = O) as -> by lia.
      exists carry, ans. split_and!; try done; lia. }
    destruct (read_down num1 n1 H1 Hn1) as (d1 & m1 & -> & Hd1 & -> & -> & E1).
    destruct (read_down num2 n2 H2 Hn2) as (d2 & m2 & -> & Hd2 & -> & -> & E2). cbn.
    set (sum := d1 + d2 + carry). assert (0 <= sum <= 19) as Hsum by lia.
    rewrite Z.quot_div_nonneg, Z.rem_mod_nonneg by lia. pose proof (Z.mod_pos_bound sum 10 ltac:(lia)). pose proof (Z.div_mod sum 10 ltac:(lia)).
    destruct (to_char_digit (sum mod 10)) as [Hdig Hval]; [lia|].
    destruct (IH (pred n1) (pred n2) (sum / 10) (ans ++ [to_char (48 + sum mod 10)])) as (c' & a' & -> & Hc' & Ha' & Hv & Hl); [lia..|apply Forall_app; split; [done|by constructor]|].
    exists c', a'. split_and!; try done; try lia.
    + rewrite Hv, low_value_app, length_app, E1, E2, Nat.add_1_r, tens_S. cbn [low_value]. rewrite Hval. subst sum. nia.
    + rewrite Hl, length_app. cbn. apply orb_true_iff in Ho. lia.
Qed.

Lemma addStrings_ok : Z.of_nat (length num1) < 2 ^ 31 -> Z.of_nat (length num2) < 2 ^ 31 ->
  exists s, addStrings num1 num2 = Ok s /\ digits s /\ number s = number num1 + number num2 /\ (length s <= S (Nat.max (length num1) (length num2)))%nat.
Proof.
  intros Hl1 Hl2. unfold addStrings. rewrite !to_int_small by lia.
  destruct (add_loop_ok (Nat.max (length num1) (length num2)) (length num1) (length num2) 0 []) as (c & a & -> & Hc & Ha & Hv & Hl); [lia..|constructor|].
  rewrite !take_ge in Hv by lia. cbn in Hv, Hl |- *. unfold tens in Hv at 2. cbn in Hv. destruct (Z.eqb_spec c 0) as [->|Hne].
  - exists (rev a). rewrite number_rev, length_rev. split_and!; [done|by apply digits_rev|lia|lia].
  - assert (c = 1) as -> by lia. exists (rev (a ++ [to_char (48 + 1)])). destruct (to_char_digit 1 ltac:(lia)) as [Hd Hd'].
    rewrite number_rev, length_rev, low_value_app, length_app. cbn [low_value length]. rewrite Hd'. split_and!; [done| |lia|lia].
    apply digits_rev, Forall_app. split; [done|by constructor].
Qed.
End AddStringsProofs.

(** *** The product *)

Lemma low_value_set s k c c' : s !! k = Some c -> low_value (<[k := c']> s) = low_value s + tens k * (schar c' - schar c).
Proof.
  revert k. induction s as [|x s IH]; intros [|k] H; [done..| |].
  - injection H as ->. cbn. unfold tens. cbn. lia.
  - cbn [list_insert]. change (<[S k := c']> (x :: s)) with (x :: <[k := c']> s). cbn [low_value]. rewrite (IH k H), tens_S. lia.
Qed.

Section MultiplyProofs.
Import Multiply.
Context (num1 : str) (H1 : digits num1).

(** The digit at [dst], which is there or is put there. *)
Lemma extend_ok ds dst : digits ds -> (dst <= length ds)%nat ->
  let ds' := if (length ds <=? dst)%nat then ds ++ ["0"%char] else ds in
  digits ds' /\ low_value ds' = low_value ds /\ length ds' = Nat.max (length ds) (S dst) /\ is_Some (ds' !! dst).
Proof.
  intros Hd Hl. cbn. destruct (Nat.leb_spec (length ds) dst).
  - rewrite low_value_app, length_app. change (low_value ["0"%char]) with 0. cbn [length]. split_and!; [|lia|lia|apply lookup_lt_is_Some; rewrite length_app; cbn; lia].
    apply Forall_app. split; [done|]. constructor; [|done]. by vm_compute.
  - split_and!; [done..|lia|by apply lookup_lt_is_Some].
Qed.

Lemma inner_loop_ok n : forall d2 i j carry ds, (n + j = length num1)%nat -> 0 <= d2 <= 9 -> 0 <= carry <= 9 -> digits ds ->
  (i + j <= length ds)%nat -> exists carry' ds', inner_loop n num1 d2 i j carry ds = Ok (carry', ds') /\ 0 <= carry' <= 9 /\ digits ds' /\
    length ds' = Nat.max (length ds) (i + j + n) /\
    low_value ds' + tens (i + j + n) * carry' = low_value ds + tens (i + j) * (carry + d2 * number (take n num1)).
Proof.
  induction n as [|n IH]; intros d2 i j carry ds Hn Hd2 Hc Hds Hl; cbn [inner_loop].
  - exists carry, ds. rewrite Nat.add_0_r. split_and!; try done; [lia..|]. rewrite take_0. unfold number. cbn. lia.
  - replace (Z.of_nat (length num1) - 1 - Z.of_nat j) with (Z.of_nat n) by lia.
    destruct (lookup_lt_is_Some_2 num1 n) as [c1 Hc1]; [lia|]. rewrite (digit_at_ok _ _ _ Hc1). pose proof (digits_at _ _ _ H1 Hc1) as Hd1. cbn [mbind outcome_bind].
    destruct (extend_ok ds (i + j) Hds Hl) as (Hds' & Hv & Hl' & [c Hcd]). cbv zeta in *. set (ds1 := if (length ds <=? i + j)%nat then _ else ds) in *.
    rewrite (digit_at_ok _ _ _ Hcd). pose proof (digits_at _ _ _ Hds' Hcd) as Hd. cbn [mbind outcome_bind].
    set (product := (schar c1 - 48) * d2 + carry + (schar c - 48)). assert (0 <= product <= 99) as Hp by (subst product; nia).
    rewrite vec_set_ok by (pose proof (lookup_lt_Some _ _ _ Hcd); lia). cbn [mbind outcome_bind]. rewrite Nat2Z.id.
    rewrite Z.quot_div_nonneg, Z.rem_mod_nonneg by lia. pose proof (Z.mod_pos_bound product 10 ltac:(lia)). pose proof (Z.div_mod product 10 ltac:(lia)) as Hdm.
    rewrite (Z.add_comm (product mod 10) 48). destruct (to_char_digit (product mod 10)) as [Hdig Hval]; [lia|].
    destruct (IH d2 i (S j) (product / 10) (<[(i + j)%nat := to_char (48 + product mod 10)]> ds1)) as (c' & ds' & -> & Hc' & Hd' & Hlen & Hval'); [lia..|by apply Forall_insert|rewrite length_insert; lia|].
    exists c', ds'. rewrite length_insert in Hlen. split_and!; [done|lia|lia|done|lia|].
    replace (i + j + S n)%nat with (i + S j + n)%nat by lia. rewrite Hval', (low_value_set _ _ _ _ Hcd), Hval, Hv, (number_take _ _ _ Hc1).
    replace (i + S j)%nat with (S (i + j)) by lia. rewrite tens_S. subst product. nia.
Qed.

Lemma outer_loop_ok num2 n : forall i ds, digits num2 -> (n + i = length num2)%nat -> (0 < length num1)%nat -> digits ds -> (i <= length ds <= i + length num1)%nat ->
  exists ds', outer_loop n num1 num2 i ds = Ok ds' /\ digits ds' /\ low_value ds' = low_value ds + tens i * (number num1 * number (take n num2)).
Proof.
  induction n as [|n IH]; intros i ds H2 Hn Hpos Hds Hl; cbn [outer_loop].
  - exists ds. split_and!; [done..|]. rewrite take_0. unfold number at 2. cbn. lia.
  - replace (Z.of_nat (length num2) - 1 - Z.of_nat i) with (Z.of_nat n) by lia.
    destruct (lookup_lt_is_Some_2 num2 n) as [c Hc]; [lia|]. rewrite (digit_at_ok _ _ _ Hc). pose proof (digits_at _ _ _ H2 Hc) as Hd. cbn [mbind outcome_bind].
    destruct (inner_loop_ok (length num1) (schar c - 48) i 0 0 ds) as (c' & ds' & -> & Hc' & Hd' & Hlen & Hv); [lia..|done|lia|]. cbn [mbind outcome_bind].
    rewrite take_ge in Hv by lia. rewrite Nat.add_0_r in Hv, Hlen.
    assert (exists ds2, (if 0 <? c' then ds' ++ [to_char (c' + 48)] else ds') = ds2 /\ digits ds2 /\ (S i <= length ds2 <= S i + length num1)%nat /\
      low_value ds2 = low_value ds + tens i * ((schar c - 48) * number num1)) as (ds2 & -> & Hd2 & Hl2 & Hv2).
    { eexists. split; [done|]. destruct (Z.ltb_spec 0 c').
      - rewrite Z.add_comm. destruct (to_char_digit c') as [Hx Hy]; [lia|]. rewrite low_value_app, length_app. cbn [low_value length]. rewrite Hy.
        replace (length ds') with (i + length num1)%nat by lia. split_and!; [apply Forall_app; split; [done|by constructor]|lia..].
      - assert (c' = 0) as -> by lia. split_and!; [done|lia..]. }
    destruct (IH (S i) ds2) as (ds3 & -> & Hd3 & Hv3); [done|lia|lia|done|done|]. exists ds3. split_and!; [done..|].
    rewrite Hv3, Hv2, (number_take _ _ _ Hc), tens_S. lia.
Qed.
End MultiplyProofs.

Lemma multiply_ok num1 num2 : digits num1 -> digits num2 -> num1 <> [] -> num2 <> [] ->
  exists s, Multiply.multiply num1 num2 = Ok s /\ digits s /\ number s = number num1 * number num2.
Proof.
  intros H1 H2 Hn1 Hn2. unfold Multiply.multiply. assert (digits (lit "0")) as H0. { constructor; [by vm_compute|constructor]. }
  assert (number (lit "0") = 0) as Hv0 by done.
  destruct (orb _ _) eqn:Ho.
  - exists (lit "0"). split_and!; [done..|]. apply orb_true_iff in Ho as [->%bool_decide_eq_true| ->%bool_decide_eq_true]; rewrite Hv0; lia.
  - clear Ho. assert (forall a b, digits a -> digits b -> a <> [] -> exists s, (ds ← Multiply.outer_loop (length b) a b 0 []; Ok (rev ds)) = Ok s /\ digits s /\ number s = number a * number b) as Hall.
    { intros a b Ha Hb Hna. destruct (outer_loop_ok a Ha b (length b) 0 []) as (ds & -> & Hd & Hv); [done|lia|by destruct a; [|cbn; lia]|constructor|cbn; lia|].
      exists (rev ds). rewrite number_rev. split_and!; [done|by apply digits_rev|]. rewrite Hv, take_ge by lia. unfold tens. cbn. lia. }
    destruct (length num2 <? length num1)%nat; [|by apply Hall]. destruct (Hall num2 num1 H2 H1 Hn2) as (s & -> & Hd & Hv).
    exists s. split_and!; [done..|]. rewrite Hv. lia.
Qed.

(** *** Reading *)

Lemma number_cons c s : number (c :: s) = (schar c - 48) * tens (length s) + number s.
Proof.
  unfold number. cbn [rev]. rewrite low_value_app, length_rev. cbn [low_value]. lia.
Qed.

Lemma number_nonneg s : digits s -> 0 <= number s.
Proof.
  induction 1 as [|c s Hc _ IH]; [done|]. rewrite number_cons. pose proof (tens_pos (length s)). unfold is_digit in Hc. nia.
Qed.

#[global] Instance is_digit_dec c : Decision (is_digit c).
Proof. unfold is_digit. apply _. Defined.

(** The digits at the start of a text. *)
Fixpoint digit_prefix (s : str) : str :=
  match s with c :: s => if decide (is_digit c) then c :: digit_prefix s else [] | [] => [] end.

Lemma digit_prefix_digits s : digits (digit_prefix s).
Proof. induction s as [|c s IH]; cbn; [constructor|]. case_decide; by constructor. Qed.

Definition clamp (x : Z) : Z := Z.min (Z.max x INT_MIN) INT_MAX.

Section AtoiProofs.
Import Atoi.

Definition ascii_only (s : str) : Prop := Forall (fun c => 0 <= schar c) s.

Lemma isdigit_ok c : 0 <= schar c -> isdigit c = Ok (bool_decide (is_digit c)).
Proof.
  intros H. unfold isdigit. rewrite (proj2 (Z.leb_le _ _) H). f_equal. unfold is_digit. case_bool_decide; lia.
Qed.

Lemma read_loop_ok s : ascii_only s -> forall val, 0 <= val <= INT_MAX -> exists v, read_loop s val = Ok v /\
  let t := val * tens (length (digit_prefix s)) + number (digit_prefix s) in (v = t \/ INT_MAX < v <= t).
Proof.
  induction 1 as [|c s Hc _ IH]; intros val Hv; cbn [read_loop digit_prefix].
  { exists val. split; [done|]. left. unfold number, tens. cbn. lia. }
  rewrite isdigit_ok by done. cbn [mbind outcome_bind]. destruct (decide (is_digit c)) as [Hd|Hd].
  - rewrite bool_decide_true by done. pose proof Hd as Hd'. unfold is_digit in Hd. unfold INT_MAX in *.
    rewrite !int64_ok by lia. cbn [mbind outcome_bind]. rewrite int64_ok by lia. cbn [mbind outcome_bind length].
    rewrite number_cons, tens_S. pose proof (tens_pos (length (digit_prefix s))). pose proof (number_nonneg _ (digit_prefix_digits s)).
    destruct (Z.ltb_spec (2 ^ 31 - 1) (val * 10 + (schar c - 48))) as [Hb|Hb].
    + eexists. split; [done|]. right. nia.
    + destruct (IH (val * 10 + (schar c - 48))) as (v & -> & Hval); [lia|]. exists v. split; [done|]. cbn in Hval |- *.
      replace (val * (10 * tens (length (digit_prefix s))) + ((schar c - 48) * tens (length (digit_prefix s)) + number (digit_prefix s)))
        with ((val * 10 + (schar c - 48)) * tens (length (digit_prefix s)) + number (digit_prefix s)) by lia. done.
  - rewrite bool_decide_false by done. exists val. split; [done|]. left. unfold number, tens. cbn. lia.
Qed.

(** The sign, and what is behind it. *)
Definition signed (s : str) : bool * str :=
  match s with
  | c :: r => if decide (c = "-"%char) then (true, r) else if decide (c = "+"%char) then (false, r) else (false, s)
  | [] => (false, [])
  end.

Lemma skip_spaces_ascii s : ascii_only s -> ascii_only (skip_spaces s).
Proof. induction 1 as [|c s Hc Hs IH]; cbn; [constructor|]. case_decide; [done|by constructor]. Qed.

Lemma signed_ascii s : ascii_only s -> ascii_only (signed s).2.
Proof. intros [|c r Hc Hr]; cbn; [constructor|]. repeat case_decide; try done. by constructor. Qed.
End AtoiProofs.

(** *** Division *)

Section DivideProofs.
Import Divide.

Lemma shift_loop_ok m fuel : forall round f, 0 < f <= m -> m < 2 ^ 62 -> 0 < round <= f -> m < f * 2 ^ Z.of_nat fuel ->
  exists t, 0 <= t /\ shift_loop fuel m round f = Ok (round * 2 ^ t, f * 2 ^ t) /\ f * 2 ^ t <= m < 2 * (f * 2 ^ t).
Proof.
  induction fuel as [|fuel IH]; intros round f Hf Hm Hr Hb; [lia|]. cbn [shift_loop].
  rewrite Z.shiftl_mul_pow2 by lia. rewrite Z.shiftl_mul_pow2 by lia. rewrite !(wrap_small 64) by (unfold in_u; lia).
  destruct (Z.leb_spec (f * 2 ^ 1) m).
  - destruct (IH (round * 2 ^ 1) (f * 2 ^ 1)) as (t & Ht & -> & Hle); [lia..|rewrite Nat2Z.inj_succ, Z.pow_succ_r in Hb by lia; lia|].
    exists (t + 1). rewrite Z.pow_add_r by lia. split; [lia|]. split; [do 2 f_equal; lia|lia].
  - exists 0. cbn. split; [done|]. rewrite !Z.mul_1_r. split; [done|lia].
Qed.

Lemma do_div_ok fuel : forall m n, 0 <= m < 2 ^ 62 -> 0 < n -> m < n * 2 ^ Z.of_nat fuel -> do_div fuel m n = Ok (m / n).
Proof.
  induction fuel as [|fuel IH]; intros m n Hm Hn Hb; cbn [do_div].
  - rewrite (proj2 (Z.ltb_lt m n)) by lia. by rewrite Z.div_small by lia.
  - destruct (Z.ltb_spec m n); [by rewrite Z.div_small by lia|].
    destruct (shift_loop_ok m 64 1 n) as (t & Ht & -> & Hle); [lia..|]. cbn [mbind outcome_bind]. rewrite Z.mul_1_l.
    assert (0 < 2 ^ t) by lia. rewrite (wrap_small 64 (m - n * 2 ^ t)) by (unfold in_u; lia).
    assert (t <= Z.of_nat fuel) as Htf. { rewrite Nat2Z.inj_succ, Z.pow_succ_r in Hb by lia. apply Z.lt_succ_r, (Z.pow_lt_mono_r_iff 2); [lia..|]. rewrite Z.pow_succ_r by lia. nia. }
    rewrite IH; [|nia|lia|]; [|apply Z.lt_le_trans with (n * 2 ^ t); [lia|apply Z.mul_le_mono_nonneg_l; [lia|by apply Z.pow_le_mono_r]]].
    cbn [mbind outcome_bind]. assert (m / n = 2 ^ t + (m - n * 2 ^ t) / n) as E.
    { replace m with ((m - n * 2 ^ t) + 2 ^ t * n) at 1 by lia. rewrite Z.div_add by lia. lia. }
    rewrite E, wrap_small; [done|]. rewrite <- E. unfold in_u. pose proof (Z.div_le_upper_bound m n m Hn ltac:(nia)). pose proof (Z.div_pos m n ltac:(lia) Hn). lia.
Qed.

Lemma shift_loop_zero fuel : forall m round, 0 <= m -> shift_loop fuel m round 0 = OutOfFuel.
Proof.
  induction fuel as [|fuel IH]; intros m round Hm; cbn [shift_loop]; change (wrap 64 (Z.shiftl 0 1)) with 0; rewrite (proj2 (Z.leb_le 0 m)) by done; [done|by apply IH].
Qed.
End DivideProofs.

(** ** Properties *)

(** The sum of two numbers in decimal is the text of the sum of their values, of at most
    one digit more. *)
Theorem addStrings_adds num1 num2 (H1 : digits num1) (H2 : digits num2) (Hl1 : Z.of_nat (length num1) < 2 ^ 31) (Hl2 : Z.of_nat (length num2) < 2 ^ 31) :
  exists s, AddStrings.addStrings num1 num2 = Ok s /\ digits s /\ number s = number num1 + number num2 /\
    (length s <= S (Nat.max (length num1) (length num2)))%nat.
Proof. by apply addStrings_ok. Qed.

Lemma addStrings_adds_witness : exists s, AddStrings.addStrings (lit "999") (lit "27") = Ok s /\ number s = 1026.
Proof.
  assert (forall s, bool_decide (digits s) = true -> digits s) as Hd by (intros s; apply bool_decide_eq_true).
  destruct (addStrings_adds (lit "999") (lit "27") (Hd (lit "999") eq_refl) (Hd (lit "27") eq_refl) eq_refl eq_refl) as (s & Hs & _ & Hv & _). exists s. split; [exact Hs|exact Hv].
Defined.

(** The product of two numbers in decimal is a text whose value is the product of theirs:
    no digit is read or written out of range, and no carry is lost. *)
Theorem multiply_multiplies num1 num2 (H1 : digits num1) (H2 : digits num2) (Hn1 : num1 <> []) (Hn2 : num2 <> []) :
  exists s, Multiply.multiply num1 num2 = Ok s /\ digits s /\ number s = number num1 * number num2.
Proof. by apply multiply_ok. Qed.

Lemma multiply_multiplies_witness : exists s, Multiply.multiply (lit "999") (lit "99") = Ok s /\ number s = 98901.
Proof.
  assert (forall s, bool_decide (digits s) = true -> digits s) as Hd by (intros s; apply bool_decide_eq_true).
  destruct (multiply_multiplies (lit "999") (lit "99") (Hd (lit "999") eq_refl) (Hd (lit "99") eq_refl)) as (s & Hs & _ & Hv); [done|done|]. exists s. split; [exact Hs|exact Hv].
Defined.

(** [myAtoi] reads the digits behind the spaces and the sign at the start of the text, and
    gives the nearest [int] to their value, however many there are; no step overflows. *)
Theorem myAtoi_clamps s (H : ascii_only s) :
  let '(sign, rest) := signed (Atoi.skip_spaces s) in
  let n := number (digit_prefix rest) in
  Atoi.myAtoi s = Ok (clamp (if sign : bool then - n else n)).
Proof.
  pose proof (signed_ascii _ (skip_spaces_ascii _ H)) as Hr. unfold Atoi.myAtoi. destruct (Atoi.skip_spaces s) as [|c r]; [done|].
  change (if decide (c = "-"%char) then (true, r) else if decide (c = "+"%char) then (false, r) else (false, c :: r)) with (signed (c :: r)).
  destruct (signed (c :: r)) as [sign rest]. cbn in Hr. destruct (read_loop_ok rest Hr 0) as (v & -> & Hv); [by unfold INT_MAX|].
  cbn in Hv |- *. pose proof (number_nonneg _ (digit_prefix_digits rest)). f_equal. unfold clamp, INT_MIN, INT_MAX in *. destruct sign; lia.
Qed.

Lemma myAtoi_clamps_witness : Atoi.myAtoi (lit "  -91283472332 x") = Ok INT_MIN /\ Atoi.myAtoi (lit "4193 with") = Ok 4193.
Proof.
  assert (forall s, bool_decide (ascii_only s) = true -> ascii_only s) as Hd by (intros s; apply bool_decide_eq_true).
  split; [exact (myAtoi_clamps (lit "  -91283472332 x") (Hd (lit "  -91283472332 x") eq_refl))|exact (myAtoi_clamps (lit "4193 with") (Hd (lit "4193 with") eq_refl))].
Defined.

(** Division by shifts and subtractions is the division of C++ that truncates, for all
    [int]s but the smallest and divisors other than zero; the loops stop within their fuel. *)
Theorem divide_truncates a b (Ha : INT_MIN < a <= INT_MAX) (Hb : INT_MIN < b <= INT_MAX) (H0 : b <> 0) : Divide.divide a b = Ok (Z.quot a b).
Proof.
  unfold INT_MIN, INT_MAX in *. unfold Divide.divide, Divide.abs. rewrite !decide_True by (unfold in_i; lia). cbn [mbind outcome_bind].
  rewrite do_div_ok by lia. cbn [mbind outcome_bind]. pose proof (Z.div_pos (Z.abs a) (Z.abs b) ltac:(lia) ltac:(lia)) as Hq.
  pose proof (Z.div_le_upper_bound (Z.abs a) (Z.abs b) (Z.abs a) ltac:(lia) ltac:(nia)) as Hq'.
  rewrite wrap_small by (unfold in_u; lia). replace (Z.abs a / Z.abs b + 2 ^ 63 - 2 ^ 63) with (Z.abs a / Z.abs b) by lia.
  assert (Z.quot a b = if xorb (a <? 0) (b <? 0) then - (Z.abs a / Z.abs b) else Z.abs a / Z.abs b) as E.
  { rewrite Z.quot_div by done. destruct (Z.ltb_spec a 0), (Z.ltb_spec b 0); cbn; rewrite ?(Z.sgn_neg a), ?(Z.sgn_neg b) by lia; try lia;
      (destruct (Z.eq_dec a 0) as [->|]; [rewrite ?Z.div_0_l by lia; cbn; lia|]); rewrite ?(Z.sgn_pos a), ?(Z.sgn_pos b) by lia; lia. }
  rewrite E. destruct (xorb _ _); [rewrite int64_ok by lia|]; cbn [mbind outcome_bind]; unfold INT_MIN, INT_MAX;
    (destruct (orb _ _) eqn:Ho; [apply orb_true_iff in Ho; lia|done]).
Qed.

Lemma divide_truncates_witness : Divide.divide (-7) 2 = Ok (-3).
Proof. apply (divide_truncates (-7) 2); unfold INT_MIN, INT_MAX; lia. Defined.

(** The smallest [int] has no absolute value, and a zero divisor is shifted for ever. *)
Theorem divide_edges : (forall b, Divide.divide INT_MIN b = Undef) /\
  (forall fuel m round, 0 <= m -> Divide.shift_loop fuel m round 0 = OutOfFuel).
Proof. split; [done|]. intros. by apply shift_loop_zero. Qed.
