(* ===== verification/SortedData.v ===== *)
(** * Sorted data

    Models three exercises of crack-data-structures-and-algorithms/leetcode: the median of two
    sorted arrays (median_of_two_sorted_arrays_q4.cpp), the search in a rotated sorted array
    (search_in_rotated_sorted_array_q33.cpp) and the next permutation
    (next_permutation_q31.cpp). *)

From stdpp Require Import sorting.
From S2P Require Import Prelude.

#[local] Open Scope Z_scope.

(** ** The median of two sorted arrays *)

Module Median.
(** [GetKth]; it calls itself, so it has fuel. *)
Fixpoint GetKth (fuel : nat) (a1 : list Z) (begin1 end1 : Z) (a2 : list Z) (begin2 end2 : Z) (k : Z) : outcome Z :=
  match fuel with
  | O => OutOfFuel
  | S fuel =>
      let len1 := end1 - begin1 in
      let len2 := end2 - begin2 in
      if len1 <? len2 then GetKth fuel a2 begin2 end2 a1 begin1 end1 k
      else if len2 =? 0 then vec_get a1 (begin1 + k - 1)
      else if k =? 1 then x ← vec_get a1 begin1; y ← vec_get a2 begin2; Ok (Z.min x y)
      else
        let m1 := begin1 + Z.min len1 (Z.quot k 2) - 1 in
        let m2 := begin2 + Z.min len2 (Z.quot k 2) - 1 in
        x ← vec_get a1 m1; y ← vec_get a2 m2;
        if x <? y then GetKth fuel a1 (m1 + 1) end1 a2 begin2 end2 (k - (m1 - begin1 + 1))
        else GetKth fuel a1 begin1 end1 a2 (m2 + 1) end2 (k - (m2 - begin2 + 1))
  end.

(** The number whose half is the median; the sum of two [int]s can overflow. *)
Definition findMedianSortedArrays (nums1 nums2 : list Z) : outcome Z :=
  let len1 := Z.of_nat (length nums1) in
  let len2 := Z.of_nat (length nums2) in
  let m1 := (len1 + len2 + 1) / 2 in
  let m2 := (len1 + len2 + 2) / 2 in
  let fuel := (2 * (length nums1 + length nums2) + 2)%nat in
  val1 ← GetKth fuel nums1 0 len1 nums2 0 len2 m1;
  val2 ← GetKth fuel nums1 0 len1 nums2 0 len2 m2;
  if decide (i32 (val1 + val2)) then Ok (val1 + val2) else Undef.
End Median.

(** ** The search in a rotated array *)

Module Rotated.
Fixpoint search_loop (fuel : nat) (nums : list Z) (target l r : Z) : outcome Z :=
  if l <? r then
    match fuel with
    | O => OutOfFuel
    | S fuel =>
        let m := l + Z.quot (r - l) 2 in
        x ← vec_get nums m;
        if x =? target then Ok m else
        y ← vec_get nums l;
        if y <? x then
          if (y <=? target) && (target <? x) then search_loop fuel nums target l m else search_loop fuel nums target (m + 1) r
        else
          if (x <? target) && (target <? y) then search_loop fuel nums target (m + 1) r else search_loop fuel nums target l m
    end
  else Ok (-1).

Definition search (nums : list Z) (target : Z) : outcome Z :=
  search_loop (length nums) nums target 0 (Z.of_nat (length nums)).
End Rotated.

(** ** The next permutation *)

Module NextPermutation.
(** [base]: the largest [i < n] with [nums[i] < nums[i + 1]], from [i] on. *)
Fixpoint base_loop (n i : nat) (nums : list Z) (base : option nat) : outcome (option nat) :=
  match n with
  | O => Ok base
  | S n =>
      x ← the (nums !! i); y ← the (nums !! S i);
      base_loop n (S i) nums (if x <? y then Some i else base)
  end.

Fixpoint target_loop (n j : nat) (nums : list Z) (base target : nat) : outcome nat :=
  match n with
  | O => Ok target
  | S n =>
      x ← the (nums !! base); y ← the (nums !! j);
      target_loop n (S j) nums base (if x <? y then j else target)
  end.

(** Without elements the bound of the first loop wraps around. *)
Definition nextPermutation (nums : list Z) : outcome (list Z) :=
  match nums with
  | [] => Undef
  | _ =>
      base ← base_loop (length nums - 1) 0 nums None;
      match base with
      | None => Ok (rev nums)
      | Some base =>
          target ← target_loop (length nums - S base) (S base) nums base base;
          nums ← swap_at base target nums;
          Ok (take (S base) nums ++ rev (drop (S base) nums))
      end
  end.
End NextPermutation.

(** ** Ranks *)

Definition below (x : Z) (l : list Z) : nat := length (filter (fun y => y < x) l).
Definition up_to (x : Z) (l : list Z) : nat := length (filter (fun y => y <= x) l).

(** [x] is the [k]th smallest element of [l]. *)
Definition ranked (k : Z) (x : Z) (l : list Z) : Prop := Z.of_nat (below x l) < k <= Z.of_nat (up_to x l).

Definition increasing (l : list Z) : Prop := forall i j x y, (i <= j)%nat -> l !! i = Some x -> l !! j = Some y -> x <= y.

Lemma below_app x a b : below x (a ++ b) = (below x a + below x b)%nat.
Proof. unfold below. by rewrite filter_app, length_app. Qed.

Lemma up_to_app x a b : up_to x (a ++ b) = (up_to x a + up_to x b)%nat.
Proof. unfold up_to. by rewrite filter_app, length_app. Qed.

Lemma below_le x l : (below x l <= length l)%nat.
Proof. apply length_filter. Qed.

Lemma up_to_le x l : (up_to x l <= length l)%nat.
Proof. apply length_filter. Qed.

Lemma up_to_all x l : (forall y, y ∈ l -> y <= x) -> up_to x l = length l.
Proof.
  intros H. induction l as [|y l IH]; [done|]. unfold up_to. rewrite filter_cons_True by (apply H; by left).
  cbn. f_equal. apply IH. intros z Hz. apply H. by right.
Qed.

Lemma up_to_none x l : (forall y, y ∈ l -> x < y) -> up_to x l = O.
Proof.
  intros H. induction l as [|y l IH]; [done|]. unfold up_to. rewrite filter_cons_False by (pose proof (H y ltac:(by left)); lia).
  apply IH. intros z Hz. apply H. by right.
Qed.

Lemma below_none x l : (forall y, y ∈ l -> x <= y) -> below x l = O.
Proof.
  intros H. induction l as [|y l IH]; [done|]. unfold below. rewrite filter_cons_False by (pose proof (H y ltac:(by left)); lia).
  apply IH. intros z Hz. apply H. by right.
Qed.

Lemma below_permutation x a b : a ≡ₚ b -> below x a = below x b.
Proof. intros H. unfold below. by rewrite H. Qed.

Lemma up_to_permutation x a b : a ≡ₚ b -> up_to x a = up_to x b.
Proof. intros H. unfold up_to. by rewrite H. Qed.

Lemma ranked_permutation k x a b : a ≡ₚ b -> ranked k x a -> ranked k x b.
Proof. intros H. unfold ranked. by rewrite (below_permutation x a b H), (up_to_permutation x a b H). Qed.

Lemma increasing_drop n l : increasing l -> increasing (drop n l).
Proof. intros H i j x y Hij. rewrite !lookup_drop. apply H. lia. Qed.

(** In a sorted list the element of rank [k] is at its place. *)
Lemma ranked_sorted k x l : increasing l -> ranked k x l -> l !! Z.to_nat (k - 1) = Some x.
Proof.
  intros Hs [Hlo Hhi]. pose proof (up_to_le x l). destruct (lookup_lt_is_Some_2 l (Z.to_nat (k - 1))) as [y Hy]; [lia|]. rewrite Hy. f_equal.
  assert (Z.of_nat (Z.to_nat (k - 1)) = k - 1) as Hn by lia. revert Hn Hy. generalize (Z.to_nat (k - 1)) as n. intros n Hn Hy. destruct (Z.lt_trichotomy y x) as [Hyx|[Hyx|Hyx]]; [|done|]; exfalso.
  - rewrite <- (take_drop (S n) l), below_app in Hlo. assert (below x (take (S n) l) = S n); [|lia].
    unfold below. assert (forall m, (m <= S n)%nat -> length (filter (fun y => y < x) (take m l)) = m) as Hm; [|by apply Hm].
    induction m as [|m IH]; intros Hm; [done|]. destruct (lookup_lt_is_Some_2 l m) as [z Hz]; [pose proof (lookup_lt_Some _ _ _ Hy); lia|].
    rewrite (take_S_r l m z Hz), filter_app, length_app, IH by lia. pose proof (Hs m n z y ltac:(lia) Hz Hy).
    rewrite filter_cons_True by lia. cbn. lia.
  - rewrite <- (take_drop n l), up_to_app in Hhi. rewrite (up_to_none x (drop n l)) in Hhi.
    + pose proof (up_to_le x (take n l)). rewrite length_take in *. lia.
    + intros z Hz. apply list_elem_of_lookup in Hz as [j Hj]. rewrite lookup_drop in Hj. pose proof (Hs n (n + j)%nat y z ltac:(lia) Hy Hj). lia.
Qed.

Lemma at_ranked k x l : increasing l -> 1 <= k -> l !! Z.to_nat (k - 1) = Some x -> ranked k x l.
Proof.
  intros Hs Hk. assert (Z.of_nat (Z.to_nat (k - 1)) = k - 1) as Hn by lia. revert Hn. generalize (Z.to_nat (k - 1)) as n. intros n Hn Hx.
  pose proof (lookup_lt_Some _ _ _ Hx) as Hlt. split.
  - rewrite <- (take_drop n l), below_app. pose proof (below_le x (take n l)) as Ht. rewrite length_take in Ht.
    assert (below x (drop n l) = O); [|lia]. apply below_none. intros z Hz. apply list_elem_of_lookup in Hz as [j Hj]. rewrite lookup_drop in Hj. pose proof (Hs n (n + j)%nat x z ltac:(lia) Hx Hj). lia.
  - rewrite <- (take_drop (S n) l), up_to_app. rewrite (up_to_all x (take (S n) l)); [rewrite length_take; lia|].
    intros z Hz. apply list_elem_of_lookup in Hz as [j Hj]. apply lookup_take_Some in Hj as [Hj Hjn]. pose proof (Hs j n z x ltac:(lia) Hj Hx). lia.
Qed.

(** The first [d1] elements of [s1] are not needed. *)
Lemma ranked_drop (k : Z) (d1 d2 : nat) s1 s2 v1 v2 x : increasing s1 -> increasing s2 -> s1 !! pred d1 = Some v1 -> s2 !! pred d2 = Some v2 ->
  (0 < d1)%nat -> (0 < d2)%nat -> Z.of_nat d1 + Z.of_nat d2 <= k -> v1 <= v2 ->
  ranked (k - Z.of_nat d1) x (drop d1 s1 ++ s2) -> ranked k x (s1 ++ s2).
Proof.
  intros H1 H2 Hv1 Hv2 Hd1 Hd2 Hk Hle [Hlo Hhi]. pose proof (lookup_lt_Some _ _ _ Hv1) as Hlt1.
  assert (v1 <= x) as Hx.
  { apply Z.nlt_ge. intros Hx. rewrite up_to_app in Hhi. rewrite (up_to_none x (drop d1 s1)) in Hhi.
    - rewrite <- (take_drop (pred d2) s2), up_to_app in Hhi. pose proof (up_to_le x (take (pred d2) s2)) as Ht. rewrite length_take in Ht.
      rewrite (up_to_none x (drop (pred d2) s2)) in Hhi; [lia|]. intros z Hz. apply list_elem_of_lookup in Hz as [j Hj]. rewrite lookup_drop in Hj.
      pose proof (H2 (pred d2) (pred d2 + j)%nat _ _ ltac:(lia) Hv2 Hj). lia.
    - intros z Hz. apply list_elem_of_lookup in Hz as [j Hj]. rewrite lookup_drop in Hj. pose proof (H1 (pred d1) (d1 + j)%nat _ _ ltac:(lia) Hv1 Hj). lia. }
  unfold ranked. rewrite <- (take_drop d1 s1), <- app_assoc, below_app, up_to_app.
  rewrite (up_to_all x (take d1 s1)); [pose proof (below_le x (take d1 s1)); rewrite length_take in *; lia|].
  intros z Hz. apply list_elem_of_lookup in Hz as [j Hj]. apply lookup_take_Some in Hj as [Hj Hlt]. pose proof (H1 j (pred d1) _ _ ltac:(lia) Hj Hv1). lia.
Qed.

(** The smaller one of the first elements is the first. *)
Lemma ranked_first s1 s2 x y : increasing s1 -> increasing s2 -> s1 !! 0%nat = Some x -> s2 !! 0%nat = Some y -> ranked 1 (Z.min x y) (s1 ++ s2).
Proof.
  intros H1 H2 Hx Hy. split.
  - rewrite below_none; [cbn; lia|]. intros z [Hz|Hz]%elem_of_app; apply list_elem_of_lookup in Hz as [j Hj].
    + pose proof (H1 0%nat j x z ltac:(lia) Hx Hj). lia.
    + pose proof (H2 0%nat j y z ltac:(lia) Hy Hj). lia.
  - destruct s1 as [|x' s1]; [done|]. destruct s2 as [|y' s2]; [done|]. injection Hx as ->. injection Hy as ->. rewrite up_to_app. unfold up_to.
    destruct (Z.le_ge_cases x y); [rewrite (filter_cons_True _ x) by lia|rewrite (filter_cons_True _ y) by lia]; cbn; lia.
Qed.

(** *** [GetKth] *)

(** The range [b, e) of [a]. *)
Definition range (a : list Z) (b e : Z) : list Z := take (Z.to_nat (e - b)) (drop (Z.to_nat b) a).

Definition in_range (a : list Z) (b e : Z) : Prop := 0 <= b <= e /\ e <= Z.of_nat (length a).

Lemma range_length a b e : in_range a b e -> Z.of_nat (length (range a b e)) = e - b.
Proof. intros H. unfold range, in_range in *. rewrite length_take, length_drop. lia. Qed.

Lemma range_get a b e (i : nat) : in_range a b e -> Z.of_nat i < e - b -> exists x, vec_get a (b + Z.of_nat i) = Ok x /\ range a b e !! i = Some x.
Proof.
  intros H Hi. unfold in_range in H. destruct (lookup_lt_is_Some_2 a (Z.to_nat b + i)) as [x Hx]; [lia|]. exists x. split.
  - apply vec_get_ok. rewrite vat_pos by lia. by replace (Z.to_nat (b + Z.of_nat i)) with (Z.to_nat b + i)%nat by lia.
  - unfold range. rewrite lookup_take_lt by lia. by rewrite lookup_drop.
Qed.

Lemma range_drop a b e (d : nat) : in_range a b e -> Z.of_nat d <= e - b -> range a (b + Z.of_nat d) e = drop d (range a b e).
Proof.
  intros H Hd. unfold range, in_range in *. rewrite skipn_firstn_comm, drop_drop. f_equal; [lia|]. f_equal. lia.
Qed.

Lemma range_whole a : range a 0 (Z.of_nat (length a)) = a.
Proof. unfold range. rewrite Z.sub_0_r, Nat2Z.id. change (Z.to_nat 0) with 0%nat. by rewrite drop_0, take_ge. Qed.

Lemma increasing_range a b e : increasing a -> increasing (range a b e).
Proof.
  intros H i j x y Hij Hi Hj. unfold range in *. apply lookup_take_Some in Hi as [Hi _]. apply lookup_take_Some in Hj as [Hj _].
  rewrite lookup_drop in Hi, Hj. eapply H; [|exact Hi|exact Hj]. lia.
Qed.

Lemma GetKth_ok fuel : forall a1 b1 e1 a2 b2 e2 k, increasing a1 -> increasing a2 -> in_range a1 b1 e1 -> in_range a2 b2 e2 ->
  1 <= k <= (e1 - b1) + (e2 - b2) -> 2 * ((e1 - b1) + (e2 - b2)) + (if e1 - b1 <? e2 - b2 then 1 else 0) < Z.of_nat fuel ->
  exists x, Median.GetKth fuel a1 b1 e1 a2 b2 e2 k = Ok x /\ ranked k x (range a1 b1 e1 ++ range a2 b2 e2).
Proof.
  induction fuel as [|fuel IH]; intros a1 b1 e1 a2 b2 e2 k H1 H2 Hr1 Hr2 Hk Hf; [destruct (_ <? _); lia|]. cbn [Median.GetKth].
  pose proof (range_length a1 b1 e1 Hr1) as Hl1. pose proof (range_length a2 b2 e2 Hr2) as Hl2.
  destruct (Z.ltb_spec (e1 - b1) (e2 - b2)) as [Hlt|Hge].
  { destruct (IH a2 b2 e2 a1 b1 e1 k) as (x & Hx & Hrk); [done..|lia|rewrite (proj2 (Z.ltb_ge _ _)) by lia; lia|]. exists x. split; [done|].
    eapply ranked_permutation; [apply Permutation_app_comm|exact Hrk]. }
  destruct (Z.eqb_spec (e2 - b2) 0) as [H0|Hne].
  { destruct (range_get a1 b1 e1 (Z.to_nat (k - 1)) Hr1) as (x & Hx & Hx'); [lia|]. exists x. replace (b1 + Z.of_nat (Z.to_nat (k - 1))) with (b1 + k - 1) in Hx by lia.
    split; [done|]. assert (range a2 b2 e2 = []) as -> by (apply length_zero_iff_nil; lia). rewrite app_nil_r. by apply at_ranked; [apply increasing_range|lia|]. }
  destruct (Z.eqb_spec k 1) as [->|Hk1].
  { destruct (range_get a1 b1 e1 0 Hr1) as (x & Hx & Hx'); [lia|]. destruct (range_get a2 b2 e2 0 Hr2) as (y & Hy & Hy'); [lia|].
    cbn [Z.of_nat] in Hx, Hy. rewrite Z.add_0_r in Hx, Hy. rewrite Hx, Hy. exists (Z.min x y). split; [done|].
    apply ranked_first; [by apply increasing_range..|done|done]. }
  set (d1 := Z.to_nat (Z.min (e1 - b1) (Z.quot k 2))). set (d2 := Z.to_nat (Z.min (e2 - b2) (Z.quot k 2))).
  assert (0 < Z.quot k 2 /\ 2 * Z.quot k 2 <= k) as [Hq Hq']. { rewrite Z.quot_div_nonneg by lia. pose proof (Z.div_mod k 2 ltac:(lia)). pose proof (Z.mod_pos_bound k 2 ltac:(lia)). lia. }
  unfold in_range in Hr1, Hr2.
  assert (Z.of_nat d1 = Z.min (e1 - b1) (Z.quot k 2)) as E1 by lia. assert (Z.of_nat d2 = Z.min (e2 - b2) (Z.quot k 2)) as E2 by lia.
  rewrite <- E1, <- E2. clearbody d1 d2.
  destruct (range_get a1 b1 e1 (pred d1) Hr1) as (x & Hx & Hx'); [lia|]. destruct (range_get a2 b2 e2 (pred d2) Hr2) as (y & Hy & Hy'); [lia|].
  replace (b1 + Z.of_nat d1 - 1) with (b1 + Z.of_nat (pred d1)) by lia. replace (b2 + Z.of_nat d2 - 1) with (b2 + Z.of_nat (pred d2)) by lia.
  rewrite Hx, Hy. cbn [mbind outcome_bind].
  replace (b1 + Z.of_nat (pred d1) + 1) with (b1 + Z.of_nat d1) by lia. replace (b2 + Z.of_nat (pred d2) + 1) with (b2 + Z.of_nat d2) by lia.
  replace (k - (b1 + Z.of_nat (pred d1) - b1 + 1)) with (k - Z.of_nat d1) by lia. replace (k - (b2 + Z.of_nat (pred d2) - b2 + 1)) with (k - Z.of_nat d2) by lia.
  destruct (Z.ltb_spec x y).
  - destruct (IH a1 (b1 + Z.of_nat d1) e1 a2 b2 e2 (k - Z.of_nat d1)) as (v & Hv & Hrk); [done|done|unfold in_range; lia|unfold in_range; lia|lia| |].
    { destruct (_ <? _); lia. }
    exists v. split; [done|]. rewrite range_drop in Hrk by (done || lia). eapply (ranked_drop k d1 d2); [..|exact Hrk]; try done; try lia; by apply increasing_range.
  - destruct (IH a1 b1 e1 a2 (b2 + Z.of_nat d2) e2 (k - Z.of_nat d2)) as (v & Hv & Hrk); [done|done|unfold in_range; lia|unfold in_range; lia|lia| |].
    { destruct (_ <? _); lia. }
    exists v. split; [done|]. rewrite range_drop in Hrk by (done || lia). eapply ranked_permutation; [apply Permutation_app_comm|].
    eapply (ranked_drop k d2 d1); [exact (increasing_range _ _ _ H2)|exact (increasing_range _ _ _ H1)|done|done|lia|lia|lia|lia|].
    eapply ranked_permutation; [apply Permutation_app_comm|exact Hrk].
Qed.

(** *** The rotated array *)

(** Two positions in the order of the array: they are ordered, unless the rotation (at [p]) is
    between them. *)
Definition rotated (p : nat) (l : list Z) : Prop :=
  forall i j x y, (i < j)%nat -> l !! i = Some x -> l !! j = Some y -> if decide (i < p /\ p <= j)%nat then y < x else x < y.

Lemma search_loop_ok p nums target fuel : rotated p nums -> forall l r, 0 <= l -> r <= Z.of_nat (length nums) -> r - l <= Z.of_nat fuel ->
  (forall i, nums !! i = Some target -> l <= Z.of_nat i < r) ->
  exists res, Rotated.search_loop fuel nums target l r = Ok res /\
    (forall i, nums !! i = Some target -> res = Z.of_nat i) /\ (target ∉ nums -> res = -1).
Proof.
  intros Hp. induction fuel as [|fuel IH]; intros l r Hl Hr Hf Hin; cbn [Rotated.search_loop].
  - rewrite (proj2 (Z.ltb_ge l r)) by lia. exists (-1). split; [done|]. split; [|done]. intros i Hi. apply Hin in Hi. lia.
  - destruct (Z.ltb_spec l r) as [Hlr|Hlr]; [|exists (-1); split; [done|]; split; [|done]; intros i Hi; apply Hin in Hi; lia].
    rewrite Z.quot_div_nonneg by lia. pose proof (Z.div_mod (r - l) 2 ltac:(lia)). pose proof (Z.mod_pos_bound (r - l) 2 ltac:(lia)).
    set (m := l + (r - l) / 2). assert (l <= m < r /\ (m = l -> r = l + 1)) as [Hm Hone] by (subst m; lia). clearbody m.
    destruct (lookup_lt_is_Some_2 nums (Z.to_nat m)) as [x Hx]; [lia|]. destruct (lookup_lt_is_Some_2 nums (Z.to_nat l)) as [y Hy]; [lia|].
    rewrite (vec_get_ok nums m x) by by rewrite vat_pos by lia. rewrite (vec_get_ok nums l y) by by rewrite vat_pos by lia. cbn [mbind outcome_bind].
    assert (forall i, nums !! i = Some target -> l <= Z.of_nat i < r /\
      (Z.of_nat i < m -> if decide (i < p /\ p <= Z.to_nat m)%nat then x < target else target < x) /\
      (m < Z.of_nat i -> if decide (Z.to_nat m < p /\ p <= i)%nat then target < x else x < target) /\
      (l < Z.of_nat i -> if decide (Z.to_nat l < p /\ p <= i)%nat then target < y else y < target) /\
      (Z.of_nat i = m -> target = x) /\ (Z.of_nat i = l -> target = y)) as Hord.
    { intros i Hi. split; [by apply Hin|]. split_and!; intros Hc.
      - apply (Hp i (Z.to_nat m)); [lia|done|done].
      - apply (Hp (Z.to_nat m) i); [lia|done|done].
      - apply (Hp (Z.to_nat l) i); [lia|done|done].
      - replace (Z.to_nat m) with i in Hx by lia. congruence.
      - replace (Z.to_nat l) with i in Hy by lia. congruence. }
    assert (l < m -> if decide (Z.to_nat l < p /\ p <= Z.to_nat m)%nat then x < y else y < x) as Hlm by (intros Hc; apply (Hp (Z.to_nat l) (Z.to_nat m)); [lia|done|done]).
    assert (l = m -> x = y) as Hlm' by (intros <-; congruence).
    destruct (Z.eqb_spec x target) as [->|Hne].
    { exists m. split; [done|]. split; [|intros Hno; destruct Hno; by eapply list_elem_of_lookup_2].
      intros i Hi. destruct (Z.lt_trichotomy (Z.of_nat i) m) as [Hc|[Hc|Hc]]; [|done|]; exfalso.
      - pose proof (Hp i (Z.to_nat m) target target ltac:(lia) Hi Hx). case_decide; lia.
      - pose proof (Hp (Z.to_nat m) i target target ltac:(lia) Hx Hi). case_decide; lia. }
    destruct (Z.ltb_spec y x); [destruct (andb _ _) eqn:Ha|destruct (andb _ _) eqn:Ha];
      (apply andb_true_iff in Ha || apply andb_false_iff in Ha);
      (apply IH; [lia..|]; intros i Hi; destruct (Hord i Hi) as (O1 & O2 & O3 & O4 & O5 & O6); repeat case_decide; lia).
Qed.

(** *** Permutations *)

(** The lexicographic order of the lists of one length. *)
Fixpoint lex_lt (a b : list Z) : Prop :=
  match a, b with
  | x :: a, y :: b => x < y \/ x = y /\ lex_lt a b
  | _, _ => False
  end.

Lemma lex_lt_irrefl a : ~ lex_lt a a.
Proof. induction a as [|x a IH]; cbn; [tauto|]. intros [|[_ ?]]; [lia|done]. Qed.

Lemma lex_lt_app c a b : lex_lt (c ++ a) (c ++ b) <-> lex_lt a b.
Proof. induction c as [|x c IH]; cbn; [done|]. rewrite IH. split; [intros [|[_ ?]]; [lia|done]|auto]. Qed.

(** The sorted arrangement comes first. *)
Lemma sorted_first l : increasing l -> forall q, q ≡ₚ l -> ~ lex_lt q l.
Proof.
  induction l as [|x l IH]; intros Hs q Hq Hlt; [by destruct q|]. destruct q as [|y q]; [done|]. cbn in Hlt.
  assert (x <= y) as Hxy. { assert (y ∈ x :: l) as [n Hn]%list_elem_of_lookup by (rewrite <- Hq; by left). by apply (Hs 0%nat n x y); [lia| |]. }
  destruct Hlt as [|[-> Hlt]]; [lia|]. apply (Permutation_cons_inv) in Hq. apply (IH) with q; [|done|done].
  intros i j a b Hij Ha Hb. by apply (Hs (S i) (S j) a b); [lia| |].
Qed.

Definition decreasing (l : list Z) : Prop := forall i j x y, (i <= j)%nat -> l !! i = Some x -> l !! j = Some y -> y <= x.

(** The arrangement in descending order comes last. *)
Lemma decreasing_last l : decreasing l -> forall q, q ≡ₚ l -> ~ lex_lt l q.
Proof.
  induction l as [|x l IH]; intros Hs q Hq Hlt; [done|]. destruct q as [|y q]; [done|]. cbn in Hlt.
  assert (y <= x) as Hxy. { assert (y ∈ x :: l) as [n Hn]%list_elem_of_lookup by (rewrite <- Hq; by left). by apply (Hs 0%nat n x y); [lia| |]. }
  destruct Hlt as [|[-> Hlt]]; [lia|]. apply (Permutation_cons_inv) in Hq. apply (IH) with q; [|done|done].
  intros i j a b Hij Ha Hb. by apply (Hs (S i) (S j) a b); [lia| |].
Qed.

Lemma decreasing_rev l : decreasing l -> increasing (rev l).
Proof.
  intros H i j x y Hij Hi Hj. assert (rev l = reverse l) as E by (unfold reverse; by rewrite rev_alt). rewrite E in *. apply reverse_lookup_Some in Hi as [Hi Hli]. apply reverse_lookup_Some in Hj as [Hj Hlj].
  apply (H (length l - S j)%nat (length l - S i)%nat y x); [lia|done|done].
Qed.

Section NextPermutationProofs.
Import NextPermutation.

(** From [i] on no element is below the next one. *)
Definition falls (i : nat) (l : list Z) : Prop := forall j x y, (i <= j)%nat -> l !! j = Some x -> l !! S j = Some y -> y <= x.

Lemma falls_decreasing i l : falls i l -> decreasing (drop i l).
Proof.
  intros H a b x y Hab. rewrite !lookup_drop. revert y. induction Hab as [|b Hab IH]; intros y Hx Hy; [rewrite Hx in Hy; injection Hy as ->; lia|].
  destruct (lookup_lt_is_Some_2 l (i + b)) as [z Hz]; [apply lookup_lt_Some in Hy; lia|]. pose proof (IH z Hx Hz).
  rewrite Nat.add_succ_r in Hy. pose proof (H (i + b)%nat z y ltac:(lia) Hz Hy). lia.
Qed.

Lemma base_loop_ok nums n : forall i base, (n + i + 1 = length nums)%nat -> exists r, base_loop n i nums base = Ok r /\
  (r = base /\ falls i nums \/ exists k x y, r = Some k /\ nums !! k = Some x /\ nums !! S k = Some y /\ x < y /\ falls (S k) nums).
Proof.
  induction n as [|n IH]; intros i base Hn; cbn [base_loop].
  - exists base. split; [done|]. left. split; [done|]. intros j x y Hj _ Hy. apply lookup_lt_Some in Hy. lia.
  - destruct (lookup_lt_is_Some_2 nums i) as [x Hx]; [lia|]. destruct (lookup_lt_is_Some_2 nums (S i)) as [y Hy]; [lia|]. rewrite Hx, Hy. cbn [the mbind outcome_bind].
    destruct (IH (S i) (if x <? y then Some i else base)) as (r & -> & Hr); [lia|]. exists r. split; [done|].
    destruct Hr as [[-> Hf]|Hr]; [|by right]. destruct (Z.ltb_spec x y); [right; by exists i, x, y|left]. split; [done|].
    intros j a b Hj Ha Hb. destruct (decide (i = j)) as [<-|Hne]; [|apply (Hf j); [lia|done|done]]. congruence.
Qed.

Lemma target_loop_ok nums base x n : forall j target, nums !! base = Some x -> (n + j = length nums)%nat -> exists t, target_loop n j nums base target = Ok t /\
  (t = target \/ (j <= t)%nat /\ exists y, nums !! t = Some y /\ x < y) /\ (forall k y, (j <= k)%nat -> nums !! k = Some y -> x < y -> (k <= t)%nat /\ (j <= t)%nat).
Proof.
  induction n as [|n IH]; intros j target Hx Hn; cbn [target_loop].
  - exists target. split; [done|]. split; [by left|]. intros k y Hk Hy. apply lookup_lt_Some in Hy. lia.
  - destruct (lookup_lt_is_Some_2 nums j) as [y Hy]; [lia|]. rewrite Hx, Hy. cbn [the mbind outcome_bind].
    destruct (IH (S j) (if x <? y then j else target) Hx) as (t & -> & Ht & Hlast); [lia|]. exists t. split; [done|].
    assert (x < y -> t = j \/ (S j <= t)%nat) as Hj. { intros Hlt. rewrite (proj2 (Z.ltb_lt x y) Hlt) in Ht. destruct Ht as [|[? _]]; [by left|by right]. }
    split.
    + destruct Ht as [->|(Hjt & z & Hz & Hxz)]; [|right; split; [lia|by exists z]]. destruct (Z.ltb_spec x y); [right; split; [lia|by exists y]|by left].
    + intros k z Hk Hz Hxz. destruct (decide (j = k)) as [<-|Hne]; [assert (z = y) as -> by congruence; destruct (Hj Hxz); lia|].
      destruct (Hlast k z ltac:(lia) Hz Hxz). lia.
Qed.

(** What the swap and the reversal make of the list. *)
Lemma successor pre x suf t y : decreasing suf -> suf !! t = Some y -> x < y -> (forall k z, suf !! k = Some z -> x < z -> (k <= t)%nat) ->
  let suf' := <[t := x]> suf in
  y :: suf' ≡ₚ x :: suf /\ lex_lt (pre ++ x :: suf) (pre ++ y :: rev suf') /\
  forall q, q ≡ₚ pre ++ x :: suf -> lex_lt (pre ++ x :: suf) q -> ~ lex_lt q (pre ++ y :: rev suf').
Proof.
  intros Hd Hy Hxy Hlast suf'. pose proof (lookup_lt_Some _ _ _ Hy) as Hlt.
  assert (y :: suf' ≡ₚ x :: suf) as Hperm.
  { rewrite <- (take_drop_middle suf t y Hy) at 1. unfold suf'. rewrite insert_take_drop by done. rewrite <- !Permutation_middle. constructor. }
  assert (decreasing suf') as Hd'.
  { intros i j a b Hij Ha Hb. unfold suf' in *. apply list_lookup_insert_Some in Ha as [(<- & <- & _)|[Hti Ha]]; apply list_lookup_insert_Some in Hb as [(<- & <- & _)|[Htj Hb]].
    - lia.
    - destruct (Z.lt_ge_cases x b) as [Hxb|]; [|lia]. pose proof (Hlast j b Hb Hxb). lia.
    - pose proof (Hd i t a y ltac:(lia) Ha Hy). lia.
    - by apply (Hd i j). }
  split; [done|]. split; [apply lex_lt_app; by left|]. induction pre as [|p pre IH]; intros q Hq Hlo Hhi.
  - destruct q as [|h q]; [done|]. cbn in Hlo, Hhi. destruct Hlo as [Hxh|[<- Hlo]]; cycle 1.
    { apply Permutation_cons_inv in Hq. by apply (decreasing_last suf Hd q). }
    destruct Hhi as [Hhy|[-> Hhi]]; cycle 1.
    { cbn in Hq. rewrite <- Hperm in Hq. apply Permutation_cons_inv in Hq. apply (sorted_first (rev suf')) with q; [by apply decreasing_rev|by rewrite Hq, <- Permutation_rev|done]. }
    assert (h ∈ x :: suf) as [->|Hh]%elem_of_cons by (rewrite <- Hq; by left); [lia|]. apply list_elem_of_lookup in Hh as [k Hk].
    pose proof (Hlast k h Hk Hxh). pose proof (Hd k t h y ltac:(lia) Hk Hy). lia.
  - destruct q as [|h q]; [done|]. cbn in Hlo, Hhi. assert (p = h) as <- by (destruct Hlo as [|[? _]], Hhi as [|[? _]]; lia).
    destruct Hlo as [|[_ Hlo]]; [lia|]. destruct Hhi as [|[_ Hhi]]; [lia|]. apply Permutation_cons_inv in Hq. by apply (IH q).
Qed.
End NextPermutationProofs.

(** ** Properties *)

(** The median of two sorted arrays: what is returned (twice the median, unless that is no
    [int]) is the sum of the two middle elements of the sorted union. *)
Theorem median_of_two (nums1 nums2 s : list Z) (H1 : increasing nums1) (H2 : increasing nums2) (Hs : increasing s) (Hp : s ≡ₚ nums1 ++ nums2) (Hn : s <> []) :
  exists x y, s !! Nat.div (length s - 1) 2 = Some x /\ s !! Nat.div (length s) 2 = Some y /\
    Median.findMedianSortedArrays nums1 nums2 = if decide (i32 (x + y)) then Ok (x + y) else Undef.
Proof.
  assert (length s = length nums1 + length nums2)%nat as Hl by by rewrite Hp, length_app. assert (0 < length s)%nat as Hpos by by destruct s; [|cbn; lia].
  remember (Z.of_nat (length nums1) + Z.of_nat (length nums2)) as n eqn:En. set (fuel := (2 * (length nums1 + length nums2) + 2)%nat).
  assert (forall k, 1 <= k <= n -> exists x, Median.GetKth fuel nums1 0 (Z.of_nat (length nums1)) nums2 0 (Z.of_nat (length nums2)) k = Ok x /\ s !! Z.to_nat (k - 1) = Some x) as Hk.
  { intros k Hk. destruct (GetKth_ok fuel nums1 0 (Z.of_nat (length nums1)) nums2 0 (Z.of_nat (length nums2)) k) as (x & Hx & Hr);
      [done|done|unfold in_range; lia|unfold in_range; lia|lia|destruct (_ <? _); lia|].
    exists x. split; [done|]. apply ranked_sorted; [done|]. eapply ranked_permutation; [|exact Hr]. rewrite Hp. by rewrite !range_whole. }
  pose proof (Z.div_mod (n + 1) 2 ltac:(lia)). pose proof (Z.mod_pos_bound (n + 1) 2 ltac:(lia)).
  pose proof (Z.div_mod (n + 2) 2 ltac:(lia)). pose proof (Z.mod_pos_bound (n + 2) 2 ltac:(lia)).
  destruct (Hk ((n + 1) / 2)) as (x & Hx & Hx'); [lia|]. destruct (Hk ((n + 2) / 2)) as (y & Hy & Hy'); [lia|].
  exists x, y. split; [|split].
  - rewrite <- Hx'. f_equal. rewrite <- (Nat2Z.id (Nat.div _ _)), Nat2Z.inj_div. f_equal. replace (Z.of_nat (length s - 1)) with (n + 1 + -1 * 2) by lia.
    rewrite Z.div_add by lia. lia.
  - rewrite <- Hy'. f_equal. rewrite <- (Nat2Z.id (Nat.div _ _)), Nat2Z.inj_div. f_equal. replace (Z.of_nat (length s)) with (n + 2 + -1 * 2) by lia.
    rewrite Z.div_add by lia. lia.
  - unfold Median.findMedianSortedArrays. fold fuel. rewrite <- En, Hx, Hy. done.
Qed.

Lemma increasing_check l : bool_decide (Sorted Z.le l) = true -> increasing l.
Proof.
  intros H%bool_decide_eq_true. apply Sorted_StronglySorted in H; [|intros a b c; lia].
  induction H as [|z l Hl IH Hz]; intros i j x y Hij Hi Hj; [by rewrite lookup_nil in Hi|].
  destruct i as [|i], j as [|j]; cbn in Hi, Hj; [simplify_eq; lia| |lia|by apply (IH i j); [lia| |]].
  injection Hi as ->. apply (proj1 (Forall_lookup _ _) Hz j y Hj).
Qed.

Lemma median_of_two_witness : Median.findMedianSortedArrays [1; 3; 8] [2; 9] = Ok 6.
Proof.
  destruct (median_of_two [1; 3; 8] [2; 9] [1; 2; 3; 8; 9]) as (x & y & Hx & Hy & H); [by apply increasing_check..| |done|].
  - by apply (bool_decide_unpack ([1; 2; 3; 8; 9] ≡ₚ [1; 3; 8] ++ [2; 9])).
  - injection Hx as <-. injection Hy as <-. exact H.
Defined.

(** In a sorted array without duplicates that has been rotated, the search finds the place
    of an element that is there, and -1 for one that is not; no access is out of range. *)
Theorem rotated_search (p : nat) (nums : list Z) (target : Z) (H : rotated p nums) :
  exists r, Rotated.search nums target = Ok r /\ (forall i, nums !! i = Some target -> r = Z.of_nat i) /\ (target ∉ nums -> r = -1).
Proof.
  apply (search_loop_ok p); [done|lia..|]. intros i Hi. apply lookup_lt_Some in Hi. lia.
Qed.

Lemma rotated_search_witness : rotated 4 [4; 5; 6; 7; 0; 1; 2] /\ Rotated.search [4; 5; 6; 7; 0; 1; 2] 0 = Ok 4.
Proof.
  assert (rotated 4 [4; 5; 6; 7; 0; 1; 2]) as H.
  { intros i j x y Hij Hi Hj. do 7 (destruct i as [|i]; [do 8 (destruct j as [|j]; [cbn in Hi, Hj; simplify_eq; try lia; by vm_compute|]); done|]); done. }
  split; [exact H|]. destruct (rotated_search 4 [4; 5; 6; 7; 0; 1; 2] 0 H) as (r & Hr & Hf & _). rewrite Hr. by rewrite (Hf 4%nat eq_refl).
Defined.

(** [nextPermutation] gives the next arrangement in lexicographic order: one that comes
    after the given one, with none in between; after the last it gives the first. *)
Theorem nextPermutation_next (nums : list Z) (Hn : nums <> []) : exists r, NextPermutation.nextPermutation nums = Ok r /\ r ≡ₚ nums /\
  (lex_lt nums r /\ (forall q, q ≡ₚ nums -> lex_lt nums q -> ~ lex_lt q r) \/
   (forall q, q ≡ₚ nums -> ~ lex_lt nums q /\ ~ lex_lt q r)).
Proof.
  assert (0 < length nums)%nat as Hpos by by destruct nums; [|cbn; lia].
  destruct (base_loop_ok nums (length nums - 1) 0 None) as (b & Hb & Hcase); [lia|].
  assert (NextPermutation.nextPermutation nums = (base ← NextPermutation.base_loop (length nums - 1) 0 nums None;
    match base with None => Ok (rev nums) | Some base => target ← NextPermutation.target_loop (length nums - S base) (S base) nums base base;
      nums ← swap_at base target nums; Ok (take (S base) nums ++ rev (drop (S base) nums)) end)) as -> by by destruct nums.
  rewrite Hb. cbn [mbind outcome_bind]. destruct Hcase as [[-> Hf]|(k & x & z & -> & Hx & Hz & Hxz & Hf)].
  - exists (rev nums). split; [done|]. split; [by rewrite <- Permutation_rev|]. right. apply falls_decreasing in Hf. rewrite drop_0 in Hf.
    intros q Hq. split; [by apply decreasing_last|]. apply sorted_first; [by apply decreasing_rev|by rewrite <- Permutation_rev].
  - destruct (target_loop_ok nums k x (length nums - S k) (S k) k Hx) as (t & -> & Ht & Hlast); [pose proof (lookup_lt_Some _ _ _ Hz); lia|].
    destruct (Hlast (S k) z ltac:(lia) Hz Hxz) as [_ Hkt]. destruct Ht as [->|(_ & y & Hy & Hxy)]; [lia|].
    cbn [mbind outcome_bind]. unfold swap_at. rewrite Hx, Hy. cbn [the mbind outcome_bind].
    pose proof (take_drop_middle nums k x Hx) as E. set (pre := take k nums) in *. set (suf := drop (S k) nums) in *.
    assert (length pre = k) as Hpre by (unfold pre; rewrite length_take; apply lookup_lt_Some in Hx; lia).
    assert (suf !! (t - S k)%nat = Some y) as Hys by (unfold suf; rewrite lookup_drop, <- Hy; f_equal; lia).
    destruct (successor pre x suf (t - S k) y) as (Hp & Hlo & Hmin); [by apply falls_decreasing|done|done| |].
    { intros j w Hj Hw. unfold suf in Hj. rewrite lookup_drop in Hj. destruct (Hlast (S k + j)%nat w ltac:(lia) Hj Hw). lia. }
    assert (take (S k) (<[k := y]> (<[t := x]> nums)) ++ rev (drop (S k) (<[k := y]> (<[t := x]> nums))) = pre ++ y :: rev (<[(t - S k)%nat := x]> suf)) as ->.
    { rewrite <- E at 1 2. rewrite (insert_app_r_alt _ _ t) by lia. rewrite (insert_app_r_alt _ _ k) by lia. rewrite Hpre, Nat.sub_diag. replace (t - k)%nat with (S (t - S k)) by lia. cbn [list_insert].
      change (<[S (t - S k) := x]> (x :: suf)) with (x :: <[(t - S k)%nat := x]> suf). cbn. rewrite take_app, drop_app, Hpre. rewrite take_ge, drop_ge by lia.
      replace (S k - k)%nat with 1%nat by lia. cbn. by rewrite take_0, drop_0, <- app_assoc. }
    eexists. split; [done|]. rewrite E in Hlo, Hmin. split; [|left; split; [done|exact Hmin]].
    rewrite <- E, <- (Permutation_rev (<[(t - S k)%nat:=x]> suf)). by rewrite Hp.
Qed.

Lemma nextPermutation_next_witness : exists r, NextPermutation.nextPermutation [1; 3; 2] = Ok r /\ r ≡ₚ [1; 3; 2].
Proof. destruct (nextPermutation_next [1; 3; 2]) as (r & Hr & Hp & _); [done|]. exists r. split; [exact Hr|exact Hp]. Defined.
