(* ===== verification/TreeCodec.v ===== *)
(** * Trees as texts

    Models two exercises of crack-data-structures-and-algorithms/leetcode that write trees to
    texts and read them back: a binary tree level by level
    (serialize_and_deserialize_binary_tree_q297.cpp), whose nodes live in a heap, because
    [deserialize] changes nodes that others already point to; and a search tree in preorder
    (serialize_and_deserialize_bst_q449.cpp), which is rebuilt from the sorted values. *)

From stdpp Require Import gmap fin_maps sorting.
From S2P Require Import Prelude Decimal.

#[local] Open Scope Z_scope.

(** ** Numbers as texts *)

Definition digit (d : Z) : ascii := to_char (48 + d).

(** The digits of [n], the last one first; ten are enough for an [int]. *)
Fixpoint low_digits (fuel : nat) (n : Z) : str :=
  match fuel with
  | O => []
  | S fuel => digit (n mod 10) :: (if n <? 10 then [] else low_digits fuel (n / 10))
  end.

(** [std::to_string] of an [int]. *)
Definition to_string (n : Z) : str := if n <? 0 then "-"%char :: rev (low_digits 10 (- n)) else rev (low_digits 10 n).

Definition is_space (c : ascii) : bool := bool_decide (uchar c = 32 \/ 9 <= uchar c <= 13).

Fixpoint skip_blank (s : str) : str := match s with c :: r => if is_space c then skip_blank r else s | [] => [] end.

(** [std::stoi]. *)
Definition stoi (s : str) : outcome Z :=
  let '(sign, rest) := signed (skip_blank s) in
  match digit_prefix rest with
  | [] => Throw invalid_argument
  | ds => let n := if sign : bool then - number ds else number ds in if decide (i32 n) then Ok n else Throw out_of_range
  end.

(** The tokens that [std::getline] gives up to the end of a stream. *)
Fixpoint fields (delim : ascii) (cur : str) (s : str) : list str :=
  match s with
  | [] => match cur with [] => [] | _ => [rev cur] end
  | c :: s => if decide (c = delim) then rev cur :: fields delim [] s else fields delim (c :: cur) s
  end.

(** Trees, for what pointers point to. *)
Inductive tree := Leaf | Node (l : tree) (v : Z) (r : tree).

(** ** Level by level *)

Module LevelOrder.
Record TreeNode := mk_TreeNode { val : Z; left : option nat; right : option nat }.
Record heap := mk_heap { cells : gmap nat TreeNode; next_cell : nat }.

Definition new_node (v : Z) (h : heap) : nat * heap :=
  (next_cell h, mk_heap (<[next_cell h := mk_TreeNode v None None]> (cells h)) (S (next_cell h))).

Definition set_cell (a : nat) (nd : TreeNode) (h : heap) : heap := mk_heap (<[a := nd]> (cells h)) (next_cell h).

Fixpoint serialize_loop (fuel : nat) (h : heap) (pending : list (option nat)) (data : str) : outcome str :=
  match pending with
  | [] => Ok data
  | node :: pending =>
      match fuel with
      | O => OutOfFuel
      | S fuel =>
          match node with
          | Some a => nd ← the (cells h !! a); serialize_loop fuel h (pending ++ [left nd; right nd]) (data ++ to_string (val nd) ++ lit " ")
          | None => serialize_loop fuel h pending (data ++ lit "$" ++ lit " ")
          end
      end
  end.

Definition serialize (fuel : nat) (h : heap) (root : option nat) : outcome str := serialize_loop fuel h [root] [].

(** The node of a token. *)
Definition node_of (token : str) (h : heap) : outcome (option nat * heap) :=
  if decide (token = lit "$") then Ok (None, h) else v ← stoi token; let '(a, h) := new_node v h in Ok (Some a, h).

(** [values]: from the iterator on. *)
Fixpoint deserialize_loop (fuel : nat) (h : heap) (pending : list nat) (values : list str) : outcome heap :=
  match pending with
  | [] => Ok h
  | node :: pending =>
      match fuel with
      | O => OutOfFuel
      | S fuel =>
          match values with
          | [] => Undef
          | tl :: values =>
              '(pl, h) ← node_of tl h;
              nd ← the (cells h !! node); let h := set_cell node (mk_TreeNode (val nd) pl (right nd)) h in
              match values with
              | [] => Undef
              | tr :: values =>
                  '(pr, h) ← node_of tr h;
                  nd ← the (cells h !! node); let h := set_cell node (mk_TreeNode (val nd) (left nd) pr) h in
                  deserialize_loop fuel h (pending ++ option_list pl ++ option_list pr) values
              end
          end
      end
  end.

Definition deserialize (data : str) (h : heap) : outcome (option nat * heap) :=
  match fields " " [] data with
  | [] => Undef
  | token :: values =>
      '(root, h) ← node_of token h;
      match root with
      | None => Ok (None, h)
      | Some a => h ← deserialize_loop (S (length values)) h [a] values; Ok (Some a, h)
      end
  end.
End LevelOrder.

(** ** A search tree in preorder *)

Module SearchTree.
Fixpoint preorder (root : tree) (data : str) : str :=
  match root with
  | Leaf => data
  | Node l v r => preorder r (preorder l (data ++ to_string v ++ lit ","))
  end.

Definition serialize (root : tree) : str := preorder root [].

(** [std::find] *)
Fixpoint find (x : Z) (l : list Z) : nat := match l with y :: l => if y =? x then O else S (find x l) | [] => O end.

(** The ranges are lists; one that would end before it begins, or beyond its vector, is
    undefined. *)
Fixpoint build_tree (fuel : nat) (pre inn : list Z) : outcome tree :=
  match pre with
  | [] => Ok Leaf
  | v :: pre =>
      match fuel with
      | O => OutOfFuel
      | S fuel =>
          let left_cnt := find v inn in
          if (left_cnt <? length inn)%nat && (left_cnt <=? length pre)%nat then
            l ← build_tree fuel (take left_cnt pre) (take left_cnt inn);
            r ← build_tree fuel (drop left_cnt pre) (drop (S left_cnt) inn);
            Ok (Node l v r)
          else Undef
      end
  end.

Fixpoint read_values (ts : list str) : outcome (list Z) :=
  match ts with
  | [] => Ok []
  | t :: ts => v ← stoi t; vs ← read_values ts; Ok (v :: vs)
  end.

Definition deserialize (data : str) : outcome tree :=
  pre ← read_values (fields "," [] data);
  build_tree (length pre) pre (merge_sort Z.le pre).
End SearchTree.

(** ** Numbers there and back *)

Lemma low_digits_ok fuel : forall n, 0 <= n < tens fuel -> digits (low_digits fuel n) /\ low_value (low_digits fuel n) = n /\ (fuel <> O -> low_digits fuel n <> []).
Proof.
  induction fuel as [|fuel IH]; intros n Hn; [unfold tens in Hn; cbn in *; split_and!; [constructor|lia|done]|].
  cbn [low_digits]. rewrite tens_S in Hn. pose proof (Z.mod_pos_bound n 10 ltac:(lia)). pose proof (Z.div_mod n 10 ltac:(lia)).
  destruct (to_char_digit (n mod 10)) as [Hd Hv]; [lia|]. destruct (Z.ltb_spec n 10).
  - split_and!; [by constructor|cbn [low_value]; unfold digit; rewrite Hv; rewrite Z.mod_small in * by lia; lia|done].
  - destruct (IH (n / 10)) as (IH1 & IH2 & _); [split; [lia|]; apply Z.div_lt_upper_bound; lia|].
    split_and!; [by constructor|cbn [low_value]; unfold digit; rewrite Hv, IH2; lia|done].
Qed.

Lemma digit_prefix_all s : digits s -> digit_prefix s = s.
Proof. induction 1 as [|c s Hc _ IH]; [done|]. cbn. rewrite decide_True by done. by rewrite IH. Qed.

Lemma digit_not c d : is_digit c -> ~ is_digit d -> c <> d.
Proof. intros Hc Hd ->. done. Qed.

Lemma digit_not_space c : is_digit c -> is_space c = false.
Proof. unfold is_digit, is_space, schar. intros H. apply bool_decide_eq_false. destruct (Z.ltb_spec (uchar c) 128); lia. Qed.

Lemma stoi_digits s : digits s -> s <> [] -> i32 (number s) -> stoi s = Ok (number s).
Proof.
  intros Hs Hn Hi. unfold stoi. destruct s as [|c s]; [done|]. pose proof (Forall_inv Hs) as Hc. cbn [skip_blank]. rewrite digit_not_space by done. cbn [signed].
  rewrite decide_False by (apply digit_not; [done|by vm_compute; intros [? ?]]). rewrite decide_False by (apply digit_not; [done|by vm_compute; intros [? ?]]).
  rewrite digit_prefix_all by done. by rewrite decide_True.
Qed.

Lemma stoi_minus s : digits s -> s <> [] -> i32 (- number s) -> stoi ("-"%char :: s) = Ok (- number s).
Proof.
  intros Hs Hn Hi. unfold stoi. change (skip_blank ("-"%char :: s)) with ("-"%char :: s). cbn [signed]. rewrite decide_True by done.
  rewrite digit_prefix_all by done. destruct s; [done|]. by rewrite decide_True.
Qed.

Lemma rev_low n : 0 <= n < tens 10 -> digits (rev (low_digits 10 n)) /\ number (rev (low_digits 10 n)) = n /\ rev (low_digits 10 n) <> [].
Proof.
  intros Hn. destruct (low_digits_ok 10 n Hn) as (Hd & Hv & Hne). split_and!; [by apply digits_rev|by rewrite number_rev|].
  intros E. apply (f_equal (@rev ascii)) in E. rewrite rev_involutive in E. by apply Hne.
Qed.

Lemma stoi_to_string n : i32 n -> stoi (to_string n) = Ok n.
Proof.
  intros Hn. assert (tens 10 = 10000000000) as E by done. unfold to_string, in_i in *. destruct (Z.ltb_spec n 0).
  - destruct (rev_low (- n)) as (Hd & Hv & Hne); [lia|]. rewrite stoi_minus by (done || (unfold in_i; lia)). f_equal. lia.
  - destruct (rev_low n) as (Hd & Hv & Hne); [lia|]. rewrite stoi_digits by (done || (unfold in_i; lia)). by rewrite Hv.
Qed.

(** What is written for a number is no "$" and has none of the separators. *)
Lemma to_string_chars n : i32 n -> forall c, c ∈ to_string n -> c = "-"%char \/ is_digit c.
Proof.
  intros Hn c Hc. assert (tens 10 = 10000000000) as E by done. unfold to_string, in_i in *. destruct (Z.ltb_spec n 0).
  - destruct (rev_low (- n)) as (Hd & _); [lia|]. apply elem_of_cons in Hc as [->|Hc]; [by left|right]. by apply (proj1 (Forall_forall _ _) Hd).
  - destruct (rev_low n) as (Hd & _); [lia|]. right. by apply (proj1 (Forall_forall _ _) Hd).
Qed.

Lemma to_string_without n c : i32 n -> c <> "-"%char -> ~ is_digit c -> c ∉ to_string n.
Proof. intros Hn H1 H2 Hc. by destruct (to_string_chars n Hn c Hc) as [|]. Qed.

Lemma to_string_not_nil n : i32 n -> to_string n <> lit "$".
Proof.
  intros Hn E. assert ("$"%char ∈ to_string n) as H by (rewrite E; by left). revert H. apply to_string_without; [done|done|]. by intros [? ?].
Qed.

Lemma fields_token delim t s : delim ∉ t -> forall cur, fields delim cur (t ++ delim :: s) = (rev cur ++ t) :: fields delim [] s.
Proof.
  induction t as [|c t IH]; intros Ht cur; cbn.
  - rewrite decide_True by done. by rewrite app_nil_r.
  - apply not_elem_of_cons in Ht as [Hc Ht]. rewrite decide_False by done. rewrite IH by done. cbn. by rewrite <- app_assoc.
Qed.

(** Tokens, each followed by the separator. *)
Definition joined (delim : ascii) (ts : list str) : str := concat (map (fun t => t ++ [delim]) ts).

Lemma fields_joined delim ts : Forall (fun t => delim ∉ t) ts -> fields delim [] (joined delim ts) = ts.
Proof.
  induction 1 as [|t ts Ht _ IH]; [done|]. unfold joined. cbn [map concat]. rewrite <- app_assoc. cbn [app].
  rewrite fields_token by done. cbn. f_equal. exact IH.
Qed.

Lemma joined_app delim a b : joined delim (a ++ b) = joined delim a ++ joined delim b.
Proof. unfold joined. by rewrite map_app, concat_app. Qed.

Lemma joined_cons delim t ts : joined delim (t :: ts) = (t ++ [delim]) ++ joined delim ts.
Proof. done. Qed.

Fixpoint small (t : tree) : Prop := match t with Leaf => True | Node l v r => i32 v /\ small l /\ small r end.

(** ** Level by level *)

Section LevelOrderProofs.
Import LevelOrder.

Definition children (t : tree) : list tree := match t with Leaf => [] | Node l _ r => [l; r] end.
Definition token (t : tree) : str := match t with Leaf => lit "$" | Node _ v _ => to_string v end.

(** The number of tokens of a tree. *)
Fixpoint weight (t : tree) : nat := match t with Leaf => 1 | Node l _ r => S (weight l + weight r) end.
Definition weights (ts : list tree) : nat := sum_list_with weight ts.

(** The tokens of the trees in the queue. *)
Fixpoint level_order (fuel : nat) (ts : list tree) : list str :=
  match fuel, ts with
  | S fuel, t :: ts => token t :: level_order fuel (ts ++ children t)
  | _, _ => []
  end.

Lemma weights_step t ts : S (weights (ts ++ children t)) = weights (t :: ts).
Proof. unfold weights. rewrite sum_list_with_app. destruct t; cbn; lia. Qed.

Lemma level_order_fuel a b ts : (weights ts <= a)%nat -> (weights ts <= b)%nat -> level_order a ts = level_order b ts.
Proof.
  revert b ts. induction a as [|a IH]; intros b ts Ha Hb.
  - destruct ts as [|t ts]; [by destruct b|]. rewrite <- weights_step in Ha. lia.
  - destruct ts as [|t ts]; [by destruct b|]. rewrite <- weights_step in Ha, Hb. destruct b as [|b]; [lia|]. cbn. f_equal. apply IH; lia.
Qed.

(** The tree at a pointer. *)
Fixpoint rep (h : heap) (p : option nat) (t : tree) : Prop :=
  match t with
  | Leaf => p = None
  | Node l v r => exists a nd, p = Some a /\ cells h !! a = Some nd /\ val nd = v /\ rep h (left nd) l /\ rep h (right nd) r
  end.

Lemma serialize_loop_ok fuel h : forall pending ts data, Forall2 (rep h) pending ts -> (weights ts <= fuel)%nat ->
  serialize_loop fuel h pending data = Ok (data ++ joined " " (level_order fuel ts)).
Proof.
  induction fuel as [|fuel IH]; intros pending ts data H Hf.
  - inversion H as [|p t pending' ts' Hp H']; subst; [cbn; by rewrite app_nil_r|]. rewrite <- weights_step in Hf. lia.
  - inversion H as [|p t pending' ts' Hp H']; subst; [cbn; by rewrite app_nil_r|]. rewrite <- weights_step in Hf. cbn [serialize_loop level_order].
    destruct t as [|l v r]; cbn [rep] in Hp.
    + subst p. cbn [children] in *. rewrite app_nil_r in *. rewrite (IH pending' ts') by (done || lia). unfold joined. cbn. by rewrite <- !app_assoc.
    + destruct Hp as (a & nd & -> & Ha & Hv & Hl & Hr). rewrite Ha. cbn [the mbind outcome_bind].
      rewrite (IH _ (ts' ++ [l; r])); [|by apply Forall2_app; [|repeat constructor]|cbn [children] in Hf; lia].
      unfold joined. cbn. rewrite Hv. by rewrite <- !app_assoc.
Qed.

(** A child is read, and if there is one it is pending. *)
Definition pending_child (p : option nat) (t : tree) : list (nat * tree) := match p with Some b => [(b, t)] | None => [] end.

Record fresh_heap (h : heap) : Prop := { fresh_cells b : (next_cell h <= b)%nat -> cells h !! b = None }.

Lemma node_of_ok t h : small t -> exists p h1, node_of (token t) h = Ok (p, h1) /\ (next_cell h <= next_cell h1)%nat /\
  match t with
  | Leaf => p = None /\ h1 = h
  | Node _ v _ => p = Some (next_cell h) /\ h1 = snd (new_node v h)
  end.
Proof.
  intros Ht. unfold node_of. destruct t as [|l v r]; cbn [token small] in *.
  - rewrite decide_True by done. by exists None, h.
  - destruct Ht as [Hv _]. rewrite decide_False by by apply to_string_not_nil. rewrite stoi_to_string by done. eexists _, _. split; [done|]. split; [cbn; lia|done].
Qed.

(** A node that waits for its children. *)
Definition waiting (h : heap) (x : nat * tree) : Prop :=
  (x.1 < next_cell h)%nat /\ exists l v r, x.2 = Node l v r /\ small x.2 /\ cells h !! x.1 = Some (mk_TreeNode v None None).

(** What a pointer to a child has to do with the tree. *)
Definition child (p : option nat) (t : tree) : Prop := match t with Leaf => p = None | Node _ _ _ => is_Some p end.

Lemma pending_children p t : child p t -> flat_map (fun x => children x.2) (pending_child p t) = children t.
Proof. destruct t; cbn; [by intros ->|intros [b ->]]. cbn. done. Qed.

Lemma read_children h a v l r : fresh_heap h -> (a < next_cell h)%nat -> cells h !! a = Some (mk_TreeNode v None None) -> small l -> small r ->
  exists pl h1 pr h3, node_of (token l) h = Ok (pl, h1) /\ cells h1 !! a = Some (mk_TreeNode v None None) /\
    node_of (token r) (set_cell a (mk_TreeNode v pl None) h1) = Ok (pr, h3) /\ cells h3 !! a = Some (mk_TreeNode v pl None) /\
    let h4 := set_cell a (mk_TreeNode v pl pr) h3 in let new := pending_child pl l ++ pending_child pr r in
    fresh_heap h4 /\ (next_cell h <= next_cell h4)%nat /\ child pl l /\ child pr r /\ NoDup new.*1 /\
    (forall x, x ∈ new -> (next_cell h <= x.1)%nat /\ waiting h4 x) /\
    (forall b, (b < next_cell h)%nat -> b <> a -> cells h4 !! b = cells h !! b).
Proof.
  intros [Hf] Ha Hc Hl Hr. destruct (node_of_ok l h Hl) as (pl & h1 & E1 & _ & H1).
  assert (cells h1 !! a = Some (mk_TreeNode v None None)) as Hc1. { destruct l; destruct H1 as [_ ->]; [done|]. cbn. by rewrite lookup_insert_ne by lia. }
  destruct (node_of_ok r (set_cell a (mk_TreeNode v pl None) h1) Hr) as (pr & h3 & E3 & _ & H3).
  assert (next_cell h <= next_cell h1)%nat as Hn1 by (destruct l; destruct H1 as [_ ->]; cbn; lia).
  exists pl, h1, pr, h3. split; [done|]. split; [done|]. split; [done|]. split.
  { destruct r; destruct H3 as [_ ->]; cbn; [by rewrite lookup_insert_eq|]. rewrite lookup_insert_ne by lia. by rewrite lookup_insert_eq. }
  assert (forall b, (next_cell h1 <= b)%nat -> cells h1 !! b = None) as Hf1. { intros b Hb. destruct l; destruct H1 as [_ ->]; cbn in *; [by apply Hf|]. rewrite lookup_insert_ne by lia. apply Hf. lia. }
  cbv zeta. destruct l as [|ll lv lr], r as [|rl rv rr]; destruct H1 as [-> ->], H3 as [-> ->]; unfold set_cell, new_node in *; cbn [pending_child app set_cell new_node cells next_cell snd fmap list_fmap fst child] in *;
    (split_and!; [split; cbn [cells next_cell]; intros b Hb; rewrite ?lookup_insert_ne by lia; apply Hf; lia|lia|done || by eexists|done || by eexists| | |]).
  all: try (intros b Hb Hba; rewrite ?lookup_insert_ne by lia; done).
  all: try (repeat constructor; set_solver by lia).
  all: intros x Hx; repeat (apply elem_of_cons in Hx as [->|Hx]; [cbn [fst snd]; split; [lia|]; split; cbn [fst next_cell]; [lia|]; eexists _, _, _; split; [done|]; split; [done|]; cbn [cells]; rewrite ?lookup_insert_ne by lia; by rewrite lookup_insert_eq|]); by apply elem_of_nil in Hx.
Qed.

Lemma deserialize_loop_ok fuel : forall h pend values, fresh_heap h -> NoDup pend.*1 -> Forall (waiting h) pend ->
  values = level_order (weights (flat_map (fun x => children x.2) pend)) (flat_map (fun x => children x.2) pend) -> (length values < fuel)%nat ->
  exists h', deserialize_loop fuel h pend.*1 values = Ok h' /\ (forall x, x ∈ pend -> rep h' (Some x.1) x.2) /\
    (forall b, (b < next_cell h)%nat -> b ∉ pend.*1 -> cells h' !! b = cells h !! b).
Proof.
  induction fuel as [|fuel IH]; intros h pend values Hh Hd Hw Hv Hf; [lia|].
  destruct pend as [|[a t] pend]; [exists h; split; [done|]; split; [by intros x Hx%elem_of_nil|done]|].
  apply Forall_cons in Hw as [(Ha & l & v & r & Et & Hs & Hc) Hw]. cbn [fst snd] in *. subst t. destruct Hs as (Hsv & Hsl & Hsr).
  apply NoDup_cons in Hd as [Hna Hd]. set (Q := flat_map (fun x => children x.2) pend) in *.
  assert (values = token l :: token r :: level_order (weights (Q ++ children l ++ children r)) (Q ++ children l ++ children r)) as ->.
  { rewrite Hv. cbn [flat_map children snd app]. fold Q. rewrite <- weights_step. cbn [level_order]. f_equal. cbn [app]. rewrite <- weights_step. cbn [level_order]. f_equal.
    rewrite <- !app_assoc. done. }
  destruct (read_children h a v l r Hh Ha Hc Hsl Hsr) as (pl & h1 & pr & h3 & E1 & Hc1 & E3 & Hc3 & Hh4 & Hn4 & Hpl & Hpr & Hdn & Hnew & Hsame).
  cbn [fmap list_fmap deserialize_loop fst]. rewrite E1. cbn [mbind outcome_bind]. rewrite Hc1. cbn [the mbind outcome_bind val left right]. rewrite E3. cbn [mbind outcome_bind].
  rewrite Hc3. cbn [the mbind outcome_bind val left right]. set (h4 := set_cell a (mk_TreeNode v pl pr) h3) in *.
  set (new := pending_child pl l ++ pending_child pr r) in *.
  assert (pend.*1 ++ option_list pl ++ option_list pr = (pend ++ new).*1) as -> by (unfold new; rewrite !fmap_app; by destruct pl, pr).
  assert (Forall (waiting h) pend -> Forall (fun x => (x.1 < next_cell h)%nat) pend) as Hlt by (intros H; eapply Forall_impl; [exact H|by intros x [? _]]). specialize (Hlt Hw).
  assert (flat_map (fun x => children x.2) (pend ++ new) = Q ++ children l ++ children r) as EQ.
  { unfold new. rewrite !flat_map_app, !pending_children by done. done. }
  destruct (IH h4 (pend ++ new) (level_order (weights (Q ++ children l ++ children r)) (Q ++ children l ++ children r))) as (h' & -> & Hrep & Hkeep).
  - done.
  - rewrite fmap_app. apply NoDup_app. split; [done|]. split; [|done]. intros b Hb Hb'. apply list_elem_of_fmap in Hb as (x & -> & Hx). apply list_elem_of_fmap in Hb' as (y & E & Hy).
    pose proof (proj1 (Forall_forall _ _) Hlt x Hx) as H1. destruct (Hnew y Hy) as [H2 _]. cbn in *. lia.
  - apply Forall_app. split; [|apply Forall_forall; intros x Hx; by apply Hnew]. apply Forall_forall. intros x Hx.
    destruct (proj1 (Forall_forall _ _) Hw x Hx) as (Hx1 & l' & v' & r' & E & Hs' & Hc'). split; [lia|]. exists l', v', r'. split_and!; [done|done|].
    rewrite Hsame; [done|done|]. intros E'. apply Hna. apply list_elem_of_fmap. by exists x.
  - by rewrite EQ.
  - cbn in Hf. lia.
  - assert (a ∉ (pend ++ new).*1) as Hna'.
    { rewrite fmap_app. intros [Hin|Hin]%elem_of_app; [done|]. apply list_elem_of_fmap in Hin as (x & -> & Hx). destruct (Hnew x Hx) as [H2 _]. lia. }
    exists h'. split; [done|]. split.
    + intros x [->|Hx]%elem_of_cons; [|apply Hrep, elem_of_app; by left]. cbn [fst snd rep]. exists a, (mk_TreeNode v pl pr).
      split; [done|]. split; [rewrite Hkeep; [unfold h4, set_cell; cbn; by rewrite lookup_insert_eq|lia|done]|]. split; [done|]. cbn [left right]. split.
      * destruct l as [|ll lv lr]; [done|]. destruct Hpl as [b ->]. apply (Hrep (b, Node ll lv lr)), elem_of_app. right. by left.
      * destruct r as [|rl rv rr]; [done|]. destruct Hpr as [b ->]. apply (Hrep (b, Node rl rv rr)), elem_of_app. right. apply elem_of_app. right. by left.
    + intros b Hb Hnb. apply not_elem_of_cons in Hnb as [Hba Hnb]. rewrite Hkeep; [by apply Hsame|lia|].
      rewrite fmap_app. intros [Hin|Hin]%elem_of_app; [done|]. apply list_elem_of_fmap in Hin as (x & -> & Hx). destruct (Hnew x Hx) as [H2 _]. lia.
Qed.

Lemma tokens_clean fuel : forall ts, Forall small ts -> Forall (fun t => " "%char ∉ t) (level_order fuel ts).
Proof.
  induction fuel as [|fuel IH]; intros ts H; [constructor|]. destruct H as [|t ts Ht H]; [constructor|]. cbn. constructor.
  - destruct t as [|l v r]; cbn [token]; [by vm_compute; intros ?%list_elem_of_singleton|]. apply to_string_without; [apply Ht|done|by intros [? ?]].
  - apply IH, Forall_app. split; [done|]. destruct t as [|l v r]; cbn; [constructor|]. destruct Ht as (_ & Hl & Hr). by repeat constructor.
Qed.

Lemma levels_roundtrip h p t : rep h p t -> small t -> exists s, (forall fuel, (weight t <= fuel)%nat -> serialize fuel h p = Ok s) /\
  exists p' h', deserialize s (mk_heap ∅ 0) = Ok (p', h') /\ rep h' p' t.
Proof.
  intros Hrep Hs. exists (joined " " (level_order (weight t) [t])). assert (weights [t] = weight t) as Ew by (cbn; lia). split.
  - intros fuel Hf. unfold serialize. rewrite (serialize_loop_ok fuel h [p] [t]) by (by repeat constructor) || (rewrite Ew; done). cbn [app]. do 2 f_equal. apply level_order_fuel; lia.
  - unfold deserialize. rewrite fields_joined by by apply tokens_clean; repeat constructor.
    destruct t as [|l v r].
    + cbn. unfold node_of. rewrite decide_True by done. by exists None, (mk_heap ∅ 0).
    + cbn [weight level_order app children]. destruct (node_of_ok (Node l v r) (mk_heap ∅ 0) Hs) as (p1 & h1 & -> & _ & -> & ->). cbn [mbind outcome_bind next_cell].
      destruct (deserialize_loop_ok (S (length (level_order (weight l + weight r) [l; r]))) (new_node v (mk_heap ∅ 0)).2 [(O, Node l v r)] (level_order (weight l + weight r) [l; r])) as (h' & E & Hr & _).
      * split. intros b Hb. cbn in *. rewrite lookup_insert_ne by lia. apply lookup_empty.
      * apply NoDup_singleton.
      * apply Forall_singleton. split; cbn; [lia|]. exists l, v, r. split; [done|]. split; [exact Hs|]. by rewrite lookup_insert_eq.
      * cbn [flat_map children snd app]. f_equal. cbn. lia.
      * lia.
      * cbn [fmap list_fmap fst] in E. rewrite E. cbn. exists (Some O), h'. split; [done|]. apply (Hr (O, Node l v r)). by left.
Qed.
End LevelOrderProofs.

(** ** A search tree in preorder *)

Section SearchTreeProofs.
Import SearchTree.

Fixpoint pre_values (t : tree) : list Z := match t with Leaf => [] | Node l v r => v :: pre_values l ++ pre_values r end.
Fixpoint in_values (t : tree) : list Z := match t with Leaf => [] | Node l v r => in_values l ++ v :: in_values r end.

Definition search_tree (t : tree) : Prop := StronglySorted Z.lt (in_values t).

Lemma values_permutation t : in_values t ≡ₚ pre_values t.
Proof. induction t as [|l IHl v r IHr]; [done|]. cbn. rewrite <- Permutation_middle, IHl, IHr. done. Qed.

Lemma values_length t : length (in_values t) = length (pre_values t).
Proof. by rewrite values_permutation. Qed.

Lemma preorder_joined t : forall data, preorder t data = data ++ joined "," (map to_string (pre_values t)).
Proof.
  induction t as [|l IHl v r IHr]; intros data; [cbn; by rewrite app_nil_r|]. cbn [preorder pre_values map]. rewrite IHl, IHr, map_app.
  rewrite joined_cons, joined_app, <- !app_assoc. done.
Qed.

Lemma small_values t : small t <-> Forall (in_i 32) (pre_values t).
Proof.
  induction t as [|l IHl v r IHr]; cbn; [split; [constructor|done]|]. rewrite Forall_cons, Forall_app, IHl, IHr. done.
Qed.

Lemma read_values_ok vs : Forall (in_i 32) vs -> read_values (map to_string vs) = Ok vs.
Proof. induction 1 as [|v vs Hv _ IH]; [done|]. cbn. rewrite stoi_to_string by done. cbn. by rewrite IH. Qed.

Lemma find_middle v a b : v ∉ a -> find v (a ++ v :: b) = length a.
Proof.
  induction a as [|x a IH]; intros H; cbn; [by rewrite Z.eqb_refl|]. apply not_elem_of_cons in H as [Hx Ha].
  rewrite (proj2 (Z.eqb_neq x v)) by done. by rewrite IH.
Qed.

Lemma build_tree_ok t : forall fuel, NoDup (in_values t) -> (length (pre_values t) <= fuel)%nat -> build_tree fuel (pre_values t) (in_values t) = Ok t.
Proof.
  induction t as [|l IHl v r IHr]; intros fuel Hd Hf; [by destruct fuel|]. cbn [pre_values in_values length] in *. destruct fuel as [|fuel]; [lia|]. cbn [build_tree].
  apply NoDup_app in Hd as (Hl & Hlr & [_ Hr]%NoDup_cons). rewrite find_middle by (intros Hv; apply (Hlr v Hv); by left).
  pose proof (values_length l) as El. rewrite !length_app in *. cbn [length] in *. destruct (andb _ _) eqn:Hb; [|apply andb_false_iff in Hb as [Hb%Nat.ltb_ge|Hb%Nat.leb_gt]; lia].
  rewrite take_app_length, El, take_app_length, drop_app_length. cbn [mbind outcome_bind]. rewrite IHl by (done || lia). cbn [mbind outcome_bind].
  replace (S (length (pre_values l))) with (length (in_values l ++ [v])) by (rewrite length_app, El; cbn; lia).
  change (in_values l ++ v :: in_values r) with (in_values l ++ [v] ++ in_values r). rewrite app_assoc, drop_app_length, IHr by (done || lia). done.
Qed.

Lemma strongly_lt_le l : StronglySorted Z.lt l -> Sorted Z.le l /\ NoDup l.
Proof.
  induction 1 as [|x l Hl [IHs IHd] Hx]; [split; constructor|]. split.
  - constructor; [done|]. destruct l; constructor. inversion Hx. lia.
  - constructor; [|done]. intros Hin. pose proof (proj1 (Forall_forall _ _) Hx x Hin). lia.
Qed.

Lemma sort_values t : search_tree t -> merge_sort Z.le (pre_values t) = in_values t.
Proof.
  intros Hs. destruct (strongly_lt_le _ Hs) as [Hsort _]. apply (Sorted_unique Z.le).
  - apply Sorted_merge_sort. intros a b. lia.
  - done.
  - by rewrite merge_sort_Permutation, values_permutation.
Qed.

Lemma search_roundtrip t : search_tree t -> small t -> deserialize (serialize t) = Ok t.
Proof.
  intros Hs Ht%small_values. destruct (strongly_lt_le _ Hs) as [_ Hd]. unfold deserialize, serialize. rewrite preorder_joined. cbn [app].
  rewrite fields_joined.
  - rewrite read_values_ok by done. cbn [mbind outcome_bind]. rewrite sort_values by done. by apply build_tree_ok.
  - apply Forall_map, Forall_forall. intros v Hv. cbn. apply to_string_without; [exact (proj1 (Forall_forall _ _) Ht v Hv)|done|by intros [? ?]].
Qed.
End SearchTreeProofs.

(** ** Properties *)

(** C34: A tree of [int]s, wherever its nodes are, is read back from its text level by level: the
    text is written without following a bad pointer, and reading it makes nodes of their own
    that form the same tree. *)
Theorem level_order_roundtrip h p t (Hp : rep h p t) (Ht : small t) :
  exists s, (forall fuel, (weight t <= fuel)%nat -> LevelOrder.serialize fuel h p = Ok s) /\
    exists p' h', LevelOrder.deserialize s (LevelOrder.mk_heap ∅ 0) = Ok (p', h') /\ rep h' p' t.
Proof. by apply levels_roundtrip. Qed.

Definition sample_heap : LevelOrder.heap :=
  LevelOrder.mk_heap {[ 7%nat := LevelOrder.mk_TreeNode 1 (Some 3%nat) (Some 5%nat); 3%nat := LevelOrder.mk_TreeNode (-2) None None;
    5%nat := LevelOrder.mk_TreeNode 30 (Some 9%nat) None; 9%nat := LevelOrder.mk_TreeNode 4 None None ]} 10.

Definition sample_tree : tree := Node (Node Leaf (-2) Leaf) 1 (Node (Node Leaf 4 Leaf) 30 Leaf).

Lemma level_order_roundtrip_witness : LevelOrder.serialize 20 sample_heap (Some 7%nat) = Ok (lit "1 -2 30 $ $ 4 $ $ $ ") /\
  exists p' h', LevelOrder.deserialize (lit "1 -2 30 $ $ 4 $ $ $ ") (LevelOrder.mk_heap ∅ 0) = Ok (p', h') /\ rep h' p' sample_tree.
Proof.
  assert (rep sample_heap (Some 7%nat) sample_tree) as Hr by by repeat (eexists _, _; split_and!; [done..| |]).
  assert (small sample_tree) as Hs by by vm_compute.
  split; [by vm_compute|]. destruct (level_order_roundtrip _ _ _ Hr Hs) as (s & Hs' & Hd). specialize (Hs' 20%nat ltac:(by vm_compute; lia)).
  assert (LevelOrder.serialize 20 sample_heap (Some 7%nat) = Ok (lit "1 -2 30 $ $ 4 $ $ $ ")) as E by by vm_compute. rewrite E in Hs'. injection Hs' as <-. exact Hd.
Defined.

(** A search tree without duplicates is read back from its values in preorder: sorting them
    gives the order that tells the two subtrees apart, and no range is left. *)
Theorem search_tree_roundtrip t (H : search_tree t) (Ht : small t) : SearchTree.deserialize (SearchTree.serialize t) = Ok t.
Proof. by apply search_roundtrip. Qed.

Definition sample_search_tree : tree := Node (Node Leaf (-2) Leaf) 1 (Node (Node Leaf 4 Leaf) 30 Leaf).

Lemma search_tree_roundtrip_witness : SearchTree.serialize sample_search_tree = lit "1,-2,30,4," /\ SearchTree.deserialize (lit "1,-2,30,4,") = Ok sample_search_tree.
Proof.
  split; [by vm_compute|]. assert (search_tree sample_search_tree) as H by (unfold search_tree; cbn; repeat constructor; lia).
  exact (search_tree_roundtrip sample_search_tree H ltac:(by vm_compute)).
Defined.

(** With two equal values the tree can come back in another shape. *)
Theorem search_tree_duplicates : exists t, SearchTree.deserialize (SearchTree.serialize t) <> Ok t /\ Sorted Z.le (in_values t).
Proof.
  exists (Node (Node Leaf 1 Leaf) 1 Leaf). split; [by vm_compute|]. cbn. repeat constructor. lia.
Qed.
