(* ===== verification/Psl.v ===== *)
(** * The public suffix list

    Models esld/esld/psl.cpp: [from_data] turns the lines of a list of rules into one text, with
    the rules in an order that compares labels from the right; [match_tld] looks the suffixes of
    a domain up in that text.  The functions on strings of the esl library are parameters. *)

From stdpp Require Import sorting.
From S2P Require Import Prelude.

#[local] Open Scope Z_scope.

(** ** Strings *)

(** The largest [size_t]. *)
Definition npos : Z := 2 ^ 64 - 1.

(** [s.find(pat, start)], [i] being the index of the rest. *)
Fixpoint find_loop (pat s : str) (i start : Z) : Z :=
  if (start <=? i) && has_prefix s pat then i
  else match s with [] => npos | _ :: s => find_loop pat s (i + 1) start end.

Definition find (s pat : str) (start : Z) : Z := find_loop pat s 0 start.

(** [s.rfind(c, pos)]: the last [c] up to [pos]. *)
Fixpoint rfind_loop (c : ascii) (s : str) (i pos acc : Z) : Z :=
  match s with
  | [] => acc
  | x :: s => rfind_loop c s (i + 1) pos (if (i <=? pos) && bool_decide (x = c) then i else acc)
  end.

Definition rfind (s : str) (c : ascii) (pos : Z) : Z := rfind_loop c s 0 pos npos.

Definition substr (s : str) (pos len : Z) : outcome str :=
  if Z.of_nat (length s) <? pos then Throw out_of_range else Ok (take (Z.to_nat (Z.min len (Z.of_nat (length s)))) (drop (Z.to_nat pos) s)).

(** The text up to the terminator, for a [string_view] made from a pointer. *)
Fixpoint c_str (s : str) : str := match s with c :: s => if decide (c = Ascii.zero) then [] else c :: c_str s | [] => [] end.

Class Esl := {
  starts_with : str -> str -> bool;
  ends_with : str -> str -> bool;
  trim_left : str -> str -> str;
  split_char : str -> ascii -> list str;
  (** The non-empty pieces between any of the characters. *)
  split_lines : str -> str -> list str;
  join : list str -> str -> str
}.

Class EslOk (E : Esl) : Prop := {
  starts_with_ok s p : starts_with s p = true <-> p `prefix_of` s;
  ends_with_ok s p : ends_with s p = true <-> p `suffix_of` s;
  (** Splitting at a character keeps what the text was. *)
  split_char_inj a b c : split_char a c = split_char b c -> a = b
}.

Section Psl.
Context {E : Esl} {EOk : EslOk E} (ndebug : bool).

Definition rule_delim : ascii := Ascii.zero.

(** ** The rules *)

Definition skip_comment (s : str) : bool := negb (starts_with s (lit "//")).

(** [std::lexicographical_compare] of characters, which are signed. *)
Definition schar (c : ascii) : Z := if uchar c <? 128 then uchar c else uchar c - 256.

Fixpoint lexicographical_compare (a b : str) : bool :=
  match a, b with
  | _, [] => false
  | [], _ :: _ => true
  | x :: a, y :: b => if schar x <? schar y then true else if schar y <? schar x then false else lexicographical_compare a b
  end.

(** The loop over the labels from the right. *)
Fixpoint labels_cmp (l r : list str) : bool :=
  match l, r with
  | x :: l, y :: r => if lexicographical_compare x y then true else if lexicographical_compare y x then false else labels_cmp l r
  | [], _ => true
  | _ :: _, [] => false
  end.

Definition rtl_cmp (lhs rhs : str) : bool := labels_cmp (rev (split_char lhs ".")) (rev (split_char rhs ".")).

(** [std::sort] compares elements of different places; its predicate has to tell equal ones
    apart from different ones, and this one does not. *)
Definition sort (l : list str) : outcome (list str) :=
  if bool_decide (NoDup l) then Ok (merge_sort (fun a b => Is_true (rtl_cmp a b)) l) else Undef.

Definition rules_of (data : str) : list str := List.filter skip_comment (split_lines data [chr 13; chr 10]).

Definition from_data (data : str) : outcome str :=
  rules ← sort (rules_of data);
  Ok (join rules [rule_delim]).

(** ** The look-up *)

(** The inner loop gives an answer, or the next candidate and where to go on. *)
Inductive verdict := Answer (tld : str) | Candidate (tld : str) (start : Z).

(** [domain] from the label before the last [n] characters on; [npos + 1] is 0. *)
Definition label_at (domain : str) (n : Z) : outcome Z :=
  let pos := wrap 64 (Z.of_nat (length domain) - 1 - n) in
  c ← vec_get domain pos;
  let pos := if bool_decide (c = "."%char) then wrap 64 (pos - 1) else pos in
  Ok (wrap 64 (rfind domain "." pos + 1)).

(** The candidate for a rule that ends the domain. *)
Definition wildcard_tld (domain rule : str) : outcome str :=
  let chk_pos := wrap 64 (Z.of_nat (length domain) - 1 - Z.of_nat (length rule)) in
  c ← vec_get domain chk_pos;
  assert (ndebug || negb (bool_decide (c = "."%char)) || (0 <? chk_pos));;
  p ← label_at domain (Z.of_nat (length rule));
  Ok (c_str (drop (Z.to_nat p) domain)).

Fixpoint rule_loop (fuel : nat) (rule_data domain test_label tld : str) (start : Z) : outcome verdict :=
  match fuel with
  | O => OutOfFuel
  | S fuel =>
      let pos := find rule_data test_label start in
      if pos =? npos then Ok (Answer tld) else
      let rule_begin := wrap 64 (rfind rule_data rule_delim pos + 1) in
      let rule_len := wrap 64 (pos + Z.of_nat (length test_label) - 1 - rule_begin) in
      rule ← substr rule_data rule_begin rule_len;
      let exception := starts_with rule (lit "!") in
      let wildcard := negb exception && starts_with rule (lit "*.") in
      let rule := if exception then trim_left rule (lit "!") else if wildcard then trim_left rule (lit "*.") else rule in
      let start := pos + Z.of_nat (length test_label) in
      if negb (ends_with domain rule) then rule_loop fuel rule_data domain test_label tld start
      else if exception then r ← substr rule (wrap 64 (find rule (lit ".") 0 + 1)) npos; Ok (Answer r)
      else if wildcard then
        if (length domain =? length rule)%nat then Ok (Answer rule)
        else tld ← wildcard_tld domain rule; Ok (Candidate tld start)
      else Ok (Candidate rule start)
  end.

Fixpoint tld_loop (fuel : nat) (rule_data domain tld : str) (start : Z) : outcome str :=
  match fuel with
  | O => OutOfFuel
  | S fuel =>
      assert (ndebug || (length tld <=? length domain)%nat);;
      if (length domain =? length tld)%nat then Ok tld else
      p ← label_at domain (Z.of_nat (length tld));
      v ← rule_loop (S (length rule_data)) rule_data domain (drop (Z.to_nat p) domain ++ [Ascii.zero]) tld start;
      match v with
      | Answer r => Ok r
      | Candidate tld start => tld_loop fuel rule_data domain tld start
      end
  end.

Definition match_tld (rule_data domain : str) : outcome str :=
  match domain with
  | [] => Throw invalid_argument
  | _ => tld_loop (S (S (length rule_data))) rule_data domain [] 0
  end.
End Psl.

(** ** Searching *)

Lemma find_range pat s start : forall i, 0 <= i -> i + Z.of_nat (length s) < 2 ^ 63 ->
  find_loop pat s i start = npos \/ (start <= find_loop pat s i start /\ i <= find_loop pat s i start /\
    find_loop pat s i start + Z.of_nat (length pat) <= i + Z.of_nat (length s)).
Proof.
  induction s as [|x s IH]; intros i Hi Hl; cbn [find_loop length] in *; destruct (andb _ _) eqn:Hb.
  - apply andb_true_iff in Hb as [Hb1 Hb2]. apply has_prefix_spec, prefix_length in Hb2. right. cbn in Hb2. lia.
  - by left.
  - apply andb_true_iff in Hb as [Hb1 Hb2]. apply has_prefix_spec, prefix_length in Hb2. right. cbn in Hb2. lia.
  - destruct (IH (i + 1)) as [->|H]; [lia|lia|by left|right; lia].
Qed.

Lemma find_ok s pat start : 0 <= start -> Z.of_nat (length s) < 2 ^ 63 ->
  find s pat start = npos \/ (0 <= find s pat start /\ start <= find s pat start /\ find s pat start + Z.of_nat (length pat) <= Z.of_nat (length s)).
Proof. intros Hs Hl. unfold find. destruct (find_range pat s start 0) as [->|H]; [lia|lia|by left|right; lia]. Qed.

Lemma rfind_range c s pos : forall i acc, rfind_loop c s i pos acc = acc \/
  (i <= rfind_loop c s i pos acc < i + Z.of_nat (length s) /\ rfind_loop c s i pos acc <= pos).
Proof.
  induction s as [|x s IH]; intros i acc; cbn [rfind_loop length]; [by left|].
  destruct (andb _ _) eqn:Hb; [|destruct (IH (i + 1) acc) as [->|H]; [by left|right; lia]].
  apply andb_true_iff in Hb as [Hb _]. destruct (IH (i + 1) i) as [->|H]; right; lia.
Qed.

(** The place behind the last character found, or the start. *)
Lemma rfind_next s c pos : Z.of_nat (length s) < 2 ^ 63 -> 0 <= pos -> 0 <= wrap 64 (rfind s c pos + 1) <= Z.of_nat (length s) /\ wrap 64 (rfind s c pos + 1) <= pos + 1.
Proof.
  intros Hl Hp. unfold rfind. destruct (rfind_range c s pos 0 npos) as [->|H]; [change (wrap 64 (npos + 1)) with 0; lia|].
  rewrite wrap_small by (unfold in_u; lia). lia.
Qed.

Lemma suffix_of_drop n (s : str) : drop n s `suffix_of` s.
Proof. exists (take n s). by rewrite take_drop. Qed.

Lemma c_str_id s : Ascii.zero ∉ s -> c_str s = s.
Proof.
  induction s as [|c s IH]; intros H; [done|]. apply not_elem_of_cons in H as [Hc H]. cbn. rewrite decide_False by done. by rewrite IH.
Qed.

Lemma suffix_elem (c : ascii) s t : s `suffix_of` t -> c ∈ s -> c ∈ t.
Proof. intros [k ->] H. apply elem_of_app. by right. Qed.

Lemma substr_ok s pos len : 0 <= pos <= Z.of_nat (length s) -> 0 <= len -> exists r, substr s pos len = Ok r.
Proof. intros H Hl. unfold substr. rewrite (proj2 (Z.ltb_ge _ _)) by lia. by eexists. Qed.

Lemma substr_rest s pos : 0 <= pos <= Z.of_nat (length s) -> Z.of_nat (length s) < 2 ^ 63 -> substr s pos npos = Ok (drop (Z.to_nat pos) s).
Proof.
  intros H Hl. unfold substr. rewrite (proj2 (Z.ltb_ge _ _)) by lia. rewrite Z.min_r by (unfold npos; lia). rewrite Nat2Z.id, take_ge; [done|].
  rewrite length_drop. lia.
Qed.

Section Total.
Context {E : Esl} {EOk : EslOk E}.
Context (rule_data domain : str) (Hz : Ascii.zero ∉ domain).
Context (Hd : Z.of_nat (length domain) < 2 ^ 63) (Hr : Z.of_nat (length rule_data) < 2 ^ 63).

Lemma label_at_ok n : 0 <= n < Z.of_nat (length domain) -> exists p, label_at domain n = Ok p /\ 0 <= p <= Z.of_nat (length domain).
Proof.
  intros H. unfold label_at. rewrite (wrap_small 64 (Z.of_nat (length domain) - 1 - n)) by (unfold in_u; lia). set (pos := Z.of_nat (length domain) - 1 - n).
  assert (is_Some (vat domain pos)) as [c Hc] by (apply vat_range; unfold pos; lia). rewrite (vec_get_ok _ _ _ Hc). cbn [mbind outcome_bind].
  eexists. split; [done|]. apply rfind_next; [done|]. destruct (bool_decide _); [apply wrap_range; lia|unfold pos; lia].
Qed.

Definition good (v : verdict) (start : Z) : Prop :=
  match v with
  | Answer r => r `suffix_of` domain
  | Candidate r s => r `suffix_of` domain /\ start < s <= Z.of_nat (length rule_data)
  end.

Lemma wildcard_ok rule : rule `suffix_of` domain -> length domain <> length rule -> exists r, wildcard_tld true domain rule = Ok r /\ r `suffix_of` domain.
Proof.
  intros Hs Hne. pose proof (suffix_length _ _ Hs). unfold wildcard_tld. rewrite (wrap_small 64 (Z.of_nat (length domain) - 1 - Z.of_nat (length rule))) by (unfold in_u; lia).
  assert (is_Some (vat domain (Z.of_nat (length domain) - 1 - Z.of_nat (length rule)))) as [c Hc] by (apply vat_range; lia). rewrite (vec_get_ok _ _ _ Hc). cbn [mbind outcome_bind orb assert].
  destruct (label_at_ok (Z.of_nat (length rule))) as (p & -> & Hp); [lia|]. cbn [mbind outcome_bind]. eexists. split; [done|].
  rewrite c_str_id; [apply suffix_of_drop|]. intros H'. apply Hz. by eapply suffix_elem, H'; apply suffix_of_drop.
Qed.

Lemma rule_loop_ok fuel : forall label tld start, 0 <= start <= Z.of_nat (length rule_data) -> (0 < length label)%nat -> tld `suffix_of` domain ->
  Z.of_nat (length rule_data) - start < Z.of_nat fuel -> exists v, rule_loop true fuel rule_data domain label tld start = Ok v /\ good v start.
Proof.
  induction fuel as [|fuel IH]; intros label tld start Hs Hl Ht Hf; [lia|]. cbn [rule_loop].
  destruct (find_ok rule_data label start ltac:(lia) Hr) as [->|Hfind]; [rewrite Z.eqb_refl; by exists (Answer tld)|].
  set (pos := find rule_data label start) in *. rewrite (proj2 (Z.eqb_neq pos npos)) by (unfold npos; lia).
  destruct (rfind_next rule_data rule_delim pos Hr ltac:(lia)) as [Hb1 Hb2]. set (rule_begin := wrap 64 (rfind rule_data rule_delim pos + 1)) in *.
  destruct (substr_ok rule_data rule_begin (wrap 64 (pos + Z.of_nat (length label) - 1 - rule_begin))) as [rule ->]; [lia|apply wrap_range; lia|]. cbn [mbind outcome_bind].
  set (exception := starts_with rule (lit "!")). set (wildcard := negb exception && starts_with rule (lit "*.")).
  set (rule' := if exception then trim_left rule (lit "!") else if wildcard then trim_left rule (lit "*.") else rule). clearbody exception wildcard rule'.
  destruct (ends_with domain rule') eqn:He; cbn [negb].
  - apply ends_with_ok in He. destruct exception.
    + pose proof (suffix_length _ _ He) as Hlen. assert (0 <= wrap 64 (find rule' (lit ".") 0 + 1) <= Z.of_nat (length rule')) as Hw.
      { destruct (find_ok rule' (lit ".") 0 ltac:(lia) ltac:(lia)) as [->|H]; [change (wrap 64 (npos + 1)) with 0; lia|].
        change (Z.of_nat (length (lit "."))) with 1 in H. rewrite wrap_small by (unfold in_u; lia). lia. }
      rewrite substr_rest by lia. cbn [mbind outcome_bind]. eexists. split; [done|]. cbn. etrans; [apply suffix_of_drop|done].
    + destruct wildcard; [destruct (Nat.eqb_spec (length domain) (length rule')); [by exists (Answer rule')|]|].
      * destruct (wildcard_ok rule' He) as (r & -> & Hrs); [done|]. cbn [mbind outcome_bind]. eexists. split; [done|]. split; [done|lia].
      * eexists. split; [done|]. split; [done|lia].
  - destruct (IH label tld (pos + Z.of_nat (length label))) as (v & -> & Hv); [lia|done|done|lia|]. exists v. split; [done|].
    destruct v; [done|]. destruct Hv as [Hv1 Hv2]. split; [done|lia].
Qed.

Lemma tld_loop_ok fuel : forall tld start, tld `suffix_of` domain -> 0 <= start <= Z.of_nat (length rule_data) ->
  Z.of_nat (length rule_data) - start < Z.of_nat fuel -> exists r, tld_loop true fuel rule_data domain tld start = Ok r /\ r `suffix_of` domain.
Proof.
  induction fuel as [|fuel IH]; intros tld start Ht Hs Hf; [lia|]. cbn [tld_loop orb assert mbind outcome_bind].
  destruct (Nat.eqb_spec (length domain) (length tld)); [by exists tld|]. pose proof (suffix_length _ _ Ht).
  destruct (label_at_ok (Z.of_nat (length tld))) as (p & -> & Hp); [lia|]. cbn [mbind outcome_bind].
  destruct (rule_loop_ok (S (length rule_data)) (drop (Z.to_nat p) domain ++ [Ascii.zero]) tld start) as (v & -> & Hv); [done|rewrite length_app; cbn; lia|done|lia|]. cbn [mbind outcome_bind].
  destruct v as [r|r s]; [by exists r|]. destruct Hv as [Hv1 Hv2]. apply IH; [done|lia|lia].
Qed.
End Total.


(** ** The order of the rules *)

Lemma schar_inj a b : schar a = schar b -> a = b.
Proof.
  unfold schar. pose proof (uchar_range a). pose proof (uchar_range b). intros Hab. apply (inj uchar).
  destruct (Z.ltb_spec (uchar a) 128), (Z.ltb_spec (uchar b) 128); lia.
Qed.

Lemma lex_irrefl a : lexicographical_compare a a = false.
Proof. induction a as [|x a IH]; [done|]. cbn. by rewrite Z.ltb_irrefl. Qed.

Lemma lex_trans a : forall b c, lexicographical_compare a b = true -> lexicographical_compare b c = true -> lexicographical_compare a c = true.
Proof.
  induction a as [|x a IH]; intros [|y b] [|z c]; cbn; try done.
  destruct (Z.ltb_spec (schar x) (schar y)), (Z.ltb_spec (schar y) (schar x)), (Z.ltb_spec (schar y) (schar z)),
    (Z.ltb_spec (schar z) (schar y)), (Z.ltb_spec (schar x) (schar z)), (Z.ltb_spec (schar z) (schar x)); try done; try lia. apply IH.
Qed.

Lemma lex_trichotomy a : forall b, lexicographical_compare a b = false -> lexicographical_compare b a = false -> a = b.
Proof.
  induction a as [|x a IH]; intros [|y b]; cbn; try done.
  destruct (Z.ltb_spec (schar x) (schar y)), (Z.ltb_spec (schar y) (schar x)); try done. intros H1 H2.
  rewrite (schar_inj x y) by lia. by rewrite (IH b).
Qed.

Lemma labels_total l : forall r, labels_cmp l r = true \/ labels_cmp r l = true.
Proof.
  induction l as [|x l IH]; intros [|y r]; cbn; [by left..|by right|].
  destruct (lexicographical_compare x y) eqn:E1, (lexicographical_compare y x) eqn:E2; try by (left + right). apply IH.
Qed.

Lemma labels_antisym l : forall r, labels_cmp l r = true -> labels_cmp r l = true -> l = r.
Proof.
  induction l as [|x l IH]; intros [|y r]; cbn; try done.
  destruct (lexicographical_compare x y) eqn:E1, (lexicographical_compare y x) eqn:E2; try done.
  - pose proof (lex_trans _ _ _ E1 E2) as Hc. by rewrite lex_irrefl in Hc.
  - intros H1 H2. by rewrite (lex_trichotomy x y), (IH r).
Qed.

Lemma labels_trans l : forall m r, labels_cmp l m = true -> labels_cmp m r = true -> labels_cmp l r = true.
Proof.
  induction l as [|x l IH]; intros [|y m] [|z r]; cbn; try done.
  destruct (lexicographical_compare x y) eqn:E1; [|destruct (lexicographical_compare y x) eqn:E2; [done|]].
  - intros _. destruct (lexicographical_compare y z) eqn:E3; [intros _; by rewrite (lex_trans _ _ _ E1 E3)|].
    destruct (lexicographical_compare z y) eqn:E4; [done|]. rewrite (lex_trichotomy _ _ E3 E4) in E1. by rewrite E1.
  - rewrite (lex_trichotomy _ _ E1 E2). intros H1. destruct (lexicographical_compare y z); [done|].
    destruct (lexicographical_compare z y); [done|]. by apply IH.
Qed.

Section Order.
Context {E : Esl} {EOk : EslOk E}.

Instance rtl_total : Total (fun a b => Is_true (rtl_cmp a b)).
Proof. intros a b. unfold rtl_cmp. rewrite !Is_true_true. apply labels_total. Qed.

Instance rtl_trans : Transitive (fun a b => Is_true (rtl_cmp a b)).
Proof. intros a b c. unfold rtl_cmp. rewrite !Is_true_true. apply labels_trans. Qed.

(** Whatever the lines are, as long as no rule is there twice, [from_data] joins the
    rules in a list that has each of them once and in which none is behind a greater one,
    and two different rules are never both in front of each other; a rule that is
    there twice leaves the call undefined. *)
Theorem from_data_sorted data : 
  match from_data data with
  | Ok text => exists l, text = join l [rule_delim] /\ Permutation l (rules_of data) /\ NoDup l /\
      StronglySorted (fun a b => rtl_cmp a b = true /\ rtl_cmp b a = false) l
  | Undef => ~ NoDup (rules_of data)
  | _ => False
  end.
Proof.
  unfold from_data, sort. case_bool_decide as Hd; [|done]. cbn [mbind outcome_bind].
  assert (StronglySorted (fun a b => Is_true (rtl_cmp a b)) (merge_sort (fun a b => Is_true (rtl_cmp a b)) (rules_of data))) as Hs by (apply (StronglySorted_merge_sort _)).
  pose proof (merge_sort_Permutation (fun a b => Is_true (rtl_cmp a b)) (rules_of data)) as Hp.
  eexists. split; [done|]. split; [done|]. assert (NoDup (merge_sort (fun a b => Is_true (rtl_cmp a b)) (rules_of data))) as Hnd by by rewrite Hp.
  split; [done|]. revert Hs Hnd. generalize (merge_sort (fun a b => Is_true (rtl_cmp a b)) (rules_of data)). clear -EOk. intros l.
  induction 1 as [|x l Hs IH Hx]; intros Hnd; [constructor|]. apply NoDup_cons in Hnd as [Hnx Hnd]. constructor; [by apply IH|].
  apply Forall_forall. rewrite Forall_forall in Hx. intros y Hy. pose proof (Hx y Hy) as Hxy. apply Is_true_true in Hxy. split; [done|].
  apply not_true_iff_false. intros Hyx. assert (x = y) as ->; [|done]. eapply (split_char_inj _ _ "."). rewrite <- (rev_involutive (split_char x _)), <- (rev_involutive (split_char y _)). f_equal. by eapply labels_antisym.
Qed.
End Order.

(** C36: in a build without assertions the look-up of a domain returns for every text of
    rules: both loops end, every access to the domain and to the rules is in
    range, and the answer is an end of the domain. *)
Theorem match_tld_total `{EslOk} rule_data domain :
  domain <> [] -> Ascii.zero ∉ domain -> Z.of_nat (length domain) < 2 ^ 63 -> Z.of_nat (length rule_data) < 2 ^ 63 ->
  exists tld, match_tld true rule_data domain = Ok tld /\ tld `suffix_of` domain.
Proof.
  intros Hne Hz Hd Hr. unfold match_tld. destruct domain as [|c domain]; [done|].
  apply tld_loop_ok; [done..| |lia|lia]. apply suffix_nil.
Qed.

(** ** The functions on strings, written out *)

Fixpoint drop_any (set s : str) : str :=
  match s with c :: s' => if bool_decide (c ∈ set) then drop_any set s' else s | [] => [] end.

Fixpoint split_at (c : ascii) (s : str) : list str :=
  match s with
  | [] => [[]]
  | x :: s => if bool_decide (x = c) then [] :: split_at c s else match split_at c s with p :: ps => (x :: p) :: ps | [] => [[x]] end
  end.

Fixpoint pieces (set s acc : str) : list str :=
  let close rest := match acc with [] => rest | _ => acc :: rest end in
  match s with
  | [] => close []
  | c :: s => if bool_decide (c ∈ set) then close (pieces set s []) else pieces set s (acc ++ [c])
  end.

Fixpoint join_with (l : list str) (sep : str) : str :=
  match l with [] => [] | [s] => s | s :: l => s ++ sep ++ join_with l sep end.

Definition ref_esl : Esl := {|
  starts_with s p := has_prefix s p;
  ends_with s p := has_prefix (rev s) (rev p);
  trim_left s set := drop_any set s;
  split_char s c := split_at c s;
  split_lines s set := pieces set s [];
  join := join_with
|}.

Lemma split_at_cons c s : split_at c s <> [].
Proof. destruct s as [|x s]; cbn; [done|]. case_bool_decide; [done|]. by destruct (split_at c s). Qed.

Lemma split_at_join c s : join_with (split_at c s) [c] = s.
Proof.
  induction s as [|x s IH]; cbn; [done|]. pose proof (split_at_cons c s) as Hc. case_bool_decide as Hx; subst.
  - cbn. destruct (split_at c s); [done|]. cbn in *. by rewrite IH.
  - destruct (split_at c s) as [|p [|q ps]]; [done|cbn in *; by rewrite IH|]. cbn in *. by rewrite IH.
Qed.

#[local] Instance ref_esl_ok : EslOk ref_esl.
Proof.
  constructor; cbn.
  - apply has_prefix_spec.
  - intros s p. rewrite has_prefix_spec. by rewrite suffix_prefix_reverse, !rev_alt.
  - intros a b c H. by rewrite <- (split_at_join c a), H, split_at_join.
Qed.

Theorem match_tld_total_witness :
  exists tld, @match_tld ref_esl true (lit "jp" ++ [Ascii.zero] ++ lit "com") (lit "a.jp") = Ok tld /\ tld `suffix_of` lit "a.jp".
Proof. apply match_tld_total; [done| |by vm_compute..]. by apply (bool_decide_unpack _). Defined.

Definition tld_of (ndebug : bool) (lines : list str) (domain : str) : outcome str :=
  data ← @from_data ref_esl (join_with lines [chr 10]); @match_tld ref_esl ndebug data domain.

Definition sample : list str :=
  map lit ["*.kawasaki.jp"; "*.kitakyushu.jp"; "!city.kawasaki.jp"; "// a comment"; "!city.kitakyushu.jp"; "kasugai.aichi.jp"; "aichi.jp"; "jp"; "*.oci.customer-oci.com"]%string.

(** What the rules mean, on the list of the tests: a plain rule, the longest of
    two, a rule with a wildcard that takes one label more, and an exception to it. *)
Theorem match_tld_sample ndebug :
  tld_of ndebug sample (lit "test.jp") = Ok (lit "jp") /\ tld_of ndebug sample (lit "jp") = Ok (lit "jp") /\
  tld_of ndebug sample (lit "foobar.kasugai.aichi.jp") = Ok (lit "kasugai.aichi.jp") /\
  tld_of ndebug sample (lit "foobar.aichi.kasugai.jp") = Ok (lit "jp") /\
  tld_of ndebug sample (lit "test.foobar.kawasaki.jp") = Ok (lit "foobar.kawasaki.jp") /\
  tld_of ndebug sample (lit "kawasaki.jp") = Ok (lit "kawasaki.jp") /\
  tld_of ndebug sample (lit "abc.city.kawasaki.jp") = Ok (lit "kawasaki.jp") /\
  tld_of ndebug sample [] = Throw invalid_argument.
Proof. destruct ndebug; by vm_compute. Qed.

(** A label is searched for with the terminator behind it, and the last rule of the text
    has none: a list of one rule matches nothing, and the last one of a longer list is lost. *)
Theorem match_tld_last_rule ndebug :
  tld_of ndebug [lit "com"] (lit "a.com") = Ok [] /\ tld_of ndebug [lit "com"; lit "net"] (lit "a.com") = Ok (lit "com") /\
  tld_of ndebug [lit "com"; lit "net"] (lit "a.net") = Ok [].
Proof. destruct ndebug; by vm_compute. Qed.

(** That a rule ends the domain is tested on characters, not on labels: the rule
    [co.uk] is the answer for a domain that ends in [xco.uk]. *)
Theorem match_tld_no_boundary ndebug : tld_of ndebug [lit "co.uk"; lit "zz"] (lit "a.xco.uk") = Ok (lit "co.uk").
Proof. destruct ndebug; by vm_compute. Qed.

(** A domain that starts with a dot fails an assertion under a rule with a
    wildcard; without assertions the domain without its dot is the answer, no label more than the rule. *)
Theorem match_tld_leading_dot :
  tld_of false [lit "*.ck"; lit "zz"] (lit ".ck") = Undef /\ tld_of true [lit "*.ck"; lit "zz"] (lit ".ck") = Ok (lit "ck").
Proof. by vm_compute. Qed.
