(* ===== verification/Chat.v ===== *)
(** * The chat server

    Models learn-cxx/asio/use-with-coroutine/chat (session.cpp, chat_server.cpp).  All the
    coroutines run on one thread and give it up only where they wait, so a run is a sequence
    of [event]s, each of which resumes one coroutine up to where it waits again.  What the
    operating system does is in the events: the data of a read, whether an operation fails. *)

From stdpp Require Import gmap.
From S2P Require Import Prelude.

#[local] Open Scope Z_scope.

(** ** Sessions *)

(** Where the reader waits: to be started, or for a line; [cancelled] once [sock_.cancel] was
    called, when the operation ends soon, with an error or with what it already had. *)
Inductive reader_at := RStart | RReading (cancelled : bool) | REnded.

(** The writer waits to be started, on the timer, on the timer whose wait was cancelled, or
    for a message to be sent. *)
Inductive writer_at := WStart | WWaiting | WWoken | WWriting (msg : str) (cancelled : bool) | WEnded.

(** The last four for the statements: the bytes of the reads that succeeded and their lines, what was written, and
    how many messages there had been when it came. *)
Record session := mk_session {
  closed_ : bool;
  msgs_ : list str;
  msg_buf : str;
  reader : reader_at;
  writer : writer_at;
  received : str;
  lines : list str;
  written : list str;
  joined : nat
}.

Definition set_msgs f s := mk_session (closed_ s) (f (msgs_ s)) (msg_buf s) (reader s) (writer s) (received s) (lines s) (written s) (joined s).
Definition set_reader v s := mk_session (closed_ s) (msgs_ s) (msg_buf s) v (writer s) (received s) (lines s) (written s) (joined s).
Definition set_writer v s := mk_session (closed_ s) (msgs_ s) (msg_buf s) (reader s) v (received s) (lines s) (written s) (joined s).
Definition set_closed s := mk_session true (msgs_ s) (msg_buf s) (reader s) (writer s) (received s) (lines s) (written s) (joined s).
Definition set_written f s := mk_session (closed_ s) (msgs_ s) (msg_buf s) (reader s) (writer s) (received s) (lines s) (f (written s)) (joined s).

(** The bytes of a read have come: the buffer, and the line at its start if there is one. *)
Definition got data line rest s :=
  mk_session (closed_ s) (msgs_ s) rest (reader s) (writer s) (received s ++ data) (lines s ++ [line]) (written s) (joined s).

Definition max_buf_size : Z := 1024.

(** A session with the two coroutines that [start] spawns. *)
Definition make (joined : nat) : session := mk_session false [] [] RStart WStart [] [] [] joined.

(** [wait_on_msg_.cancel_one] and [cancel]: the end of the wait is queued. *)
Definition cancel_wait (w : writer_at) : writer_at := match w with WWaiting => WWoken | w => w end.

(** [sock_.cancel]. *)
Definition cancel_read (r : reader_at) : reader_at := match r with RReading _ => RReading true | r => r end.
Definition cancel_write (w : writer_at) : writer_at := match w with WWriting msg _ => WWriting msg true | w => w end.

Definition send (msg : str) (s : session) : session :=
  let s := set_msgs (fun l => l ++ [msg]) s in
  set_writer (cancel_wait (writer s)) s.

(** The head of the loop of [read], up to the operation. *)
Definition read_loop (s : session) : session :=
  set_reader (if closed_ s then REnded else RReading false) s.

(** The head of the loop of [write]. *)
Definition write_loop (s : session) : session :=
  if closed_ s then set_writer WEnded s
  else match msgs_ s with
       | [] => set_writer WWaiting s
       | msg :: rest => set_writer (WWriting msg false) (set_msgs (fun _ => rest) s)
       end.

(** The length of a line with its end; [None] when there is no end. *)
Fixpoint line_end (buf : str) : option nat :=
  match buf with
  | [] => None
  | c :: buf => if decide (c = chr 10) then Some 1%nat else S <$> line_end buf
  end.

(** ** The server *)

(** [all]: every session that was made, those that have ended too; [log], for the
    statements: the messages that were broadcast. *)
Record server := mk_server { sessions_ : gset nat; all : gmap nat session; next : nat; listening : bool; log : list str }.

Definition on_all f c := mk_server (sessions_ c) (f (all c)) (next c) (listening c) (log c).
Definition upd id f c := on_all (alter f id) c.

Definition broadcast_message (msg : str) (c : server) : server :=
  mk_server (sessions_ c) (foldr (fun id m => alter (send msg) id m) (all c) (elements (sessions_ c))) (next c) (listening c) (log c ++ [msg]).

Definition remove_session (id : nat) (c : server) : server :=
  mk_server (sessions_ c ∖ {[ id ]}) (all c) (next c) (listening c) (log c).

Definition close_session (s : session) : session :=
  let s := set_closed s in
  let s := set_writer (cancel_wait (writer s)) s in
  set_writer (cancel_write (writer s)) (set_reader (cancel_read (reader s)) s).

Definition handle_close (id : nat) (c : server) : server :=
  match all c !! id with
  | Some s => if closed_ s then c else remove_session id (upd id close_session c)
  | None => c
  end.

(** One turn of [listen_and_serve]; [gone]: the peer has left, so that [remote_endpoint]
    throws in the constructor, and the exception ends the coroutine. *)
Definition accept (gone : bool) (c : server) : server :=
  if gone then mk_server (sessions_ c) (all c) (next c) false (log c)
  else mk_server (sessions_ c ∪ {[ next c ]}) (<[next c := make (length (log c))]> (all c)) (S (next c)) (listening c) (log c).

(** [read] goes on with a line: [data] came into the buffer, whose first line is [n] long. *)
Definition read_line (id : nat) (data : str) (s : session) (n : nat) (c : server) : server :=
  let buf := msg_buf s ++ data in
  let c := broadcast_message (take n buf) c in
  upd id read_loop (upd id (got data (take n buf) (drop n buf)) c).

Inductive event :=
| AcceptFail
| Accept (gone : bool)
| StartReader (id : nat)
| StartWriter (id : nat)
| ReadOk (id : nat) (data : str)
| ReadFail (id : nat)
| WaitEnds (id : nat)
| WriteOk (id : nat)
| WriteFail (id : nat).

(** [None]: the event cannot be. A failed coroutine ends with [handle_error]. *)
Definition exec (e : event) (c : server) : option server :=
  match e with
  | AcceptFail => if listening c then Some c else None
  | Accept gone => if listening c then Some (accept gone c) else None
  | StartReader id => s ← all c !! id; match reader s with RStart => Some (upd id read_loop c) | _ => None end
  | StartWriter id => s ← all c !! id; match writer s with WStart => Some (upd id write_loop c) | _ => None end
  | ReadOk id data =>
      s ← all c !! id;
      match reader s with
      | RReading _ =>
          n ← line_end (msg_buf s ++ data);
          if Z.of_nat (length (msg_buf s ++ data)) <=? max_buf_size then Some (read_line id data s n c) else None
      | _ => None
      end
  | ReadFail id =>
      s ← all c !! id;
      match reader s with RReading _ => Some (handle_close id (upd id (set_reader REnded) c)) | _ => None end
  | WaitEnds id => s ← all c !! id; match writer s with WWoken => Some (upd id write_loop c) | _ => None end
  | WriteOk id =>
      s ← all c !! id;
      match writer s with
      | WWriting msg _ => Some (upd id write_loop (upd id (set_written (fun l => l ++ [msg])) c))
      | _ => None
      end
  | WriteFail id =>
      s ← all c !! id;
      match writer s with WWriting _ _ => Some (handle_close id (upd id (set_writer WEnded) c)) | _ => None end
  end.

Definition start : server := mk_server ∅ ∅ 0 true [].

Inductive reachable : server -> Prop :=
| reachable_start : reachable start
| reachable_step c e c' : reachable c -> exec e c = Some c' -> reachable c'.

(** ** One session *)

Definition in_flight (s : session) : list str := match writer s with WWriting msg _ => [msg] | _ => [] end.

(** One line, with its end and nothing behind it. *)
Definition is_line (l : str) : Prop := line_end l = Some (length l) /\ Z.of_nat (length l) <= max_buf_size.

Record core (log fl : list str) (s : session) : Prop := {
  core_received : received s = concat (lines s) ++ msg_buf s;
  core_lines : Forall is_line (lines s);
  core_log : lines s `sublist_of` log;
  core_joined : (joined s <= length log)%nat;
  core_written : written s ++ fl `prefix_of` drop (joined s) log;
  core_open : closed_ s = false -> drop (joined s) log = written s ++ fl ++ msgs_ s
}.

Definition reader_ok (s : session) : Prop :=
  match reader s with RStart => True | RReading cancelled => cancelled = closed_ s | REnded => closed_ s = true end.

Definition writer_ok (s : session) : Prop :=
  match writer s with
  | WStart | WWoken => True
  | WWaiting => closed_ s = false /\ msgs_ s = []
  | WWriting _ cancelled => cancelled = closed_ s
  | WEnded => closed_ s = true
  end.

Definition ok (log : list str) (s : session) : Prop := core log (in_flight s) s /\ reader_ok s /\ writer_ok s.

Lemma line_end_spec buf n : line_end buf = Some n -> (n <= length buf)%nat /\ line_end (take n buf) = Some (length (take n buf)).
Proof.
  revert n. induction buf as [|c buf IH]; intros n; cbn [line_end]; [done|]. case_decide as Hc.
  - intros [= <-]. cbn. rewrite decide_True by done. split; [lia|done].
  - destruct (line_end buf) as [m|]; [|done]. intros [= <-]. destruct (IH m eq_refl) as [H1 H2]. cbn. rewrite decide_False, H2 by done. split; [lia|done].
Qed.

Lemma session_read_ok log s : core log (in_flight s) s -> writer_ok s -> ok log (read_loop s).
Proof. intros [] Hw. unfold read_loop, ok, reader_ok, writer_ok, in_flight in *. split; [by split|]. cbn. by destruct (closed_ s). Qed.

Lemma write_loop_closed s : closed_ (write_loop s) = closed_ s.
Proof. unfold write_loop. destruct (closed_ s) eqn:Hc; [done|]. by destruct (msgs_ s); cbn. Qed.

Lemma write_loop_ok log s : core log [] s -> reader_ok s -> ok log (write_loop s).
Proof.
  intros [? ? ? ? ? Ho] Hr. rewrite app_nil_r in *. unfold write_loop, ok, reader_ok, writer_ok, in_flight in *.
  destruct (closed_ s) eqn:Hc; [split; [split; cbn; rewrite ?app_nil_r, ?Hc; done|by cbn; rewrite Hc]|].
  specialize (Ho eq_refl). destruct (msgs_ s) as [|msg rest] eqn:Hm; (split; [split|]); cbn; rewrite ?Hc, ?Hm, ?app_nil_r in *; try done.
  rewrite Ho. cbn. exists rest. by rewrite <- app_assoc.
Qed.

Lemma send_ok log msg s : ok log s -> closed_ s = false -> ok (log ++ [msg]) (send msg s).
Proof.
  intros [[H1 H2 H3 H4 H5 H6] [Hr Hw]] Hc. specialize (H6 Hc). unfold ok, send, reader_ok, writer_ok, in_flight in *.
  assert (Hd : drop (joined s) (log ++ [msg]) = drop (joined s) log ++ [msg]) by by rewrite drop_app_le by done.
  split; [split|]; cbn; rewrite ?Hd, ?Hc in *; try done.
  - by apply sublist_inserts_r.
  - rewrite length_app. lia.
  - apply prefix_app_r. destruct (writer s); cbn; done.
  - intros _. rewrite H6. destruct (writer s); cbn; by rewrite <- ?app_assoc.
  - by destruct (writer s).
Qed.

Lemma ok_log log msg s : ok log s -> closed_ s = true -> ok (log ++ [msg]) s.
Proof.
  intros [[H1 H2 H3 H4 H5 H6] Hrw] Hc. split; [|done]. split; try done.
  - by apply sublist_inserts_r.
  - rewrite length_app. lia.
  - rewrite drop_app_le by done. by apply prefix_app_r.
  - by rewrite Hc.
Qed.

(** A closed session owes nothing to the messages it has not sent. *)
Lemma core_closed log fl fl' s : core log fl s -> fl' `prefix_of` fl -> core log fl' (set_closed s).
Proof.
  intros [H1 H2 H3 H4 H5 H6] Hf. split; cbn; try done. etrans; [|exact H5]. by apply prefix_app.
Qed.

Lemma core_was_closed log fl s : core log fl (set_closed s) -> closed_ s = true -> core log fl s.
Proof. intros [H1 H2 H3 H4 H5 H6] Hc. split; cbn in *; try done. by rewrite Hc. Qed.

Lemma close_ok log s : core log (in_flight s) (set_closed s) -> ok log (close_session s).
Proof.
  intros [H1 H2 H3 H4 H5 H6]. unfold ok, close_session, reader_ok, writer_ok, in_flight in *.
  split; [split|]; cbn; try done.
  - destruct (writer s); cbn in *; done.
  - by destruct (reader s), (writer s).
Qed.

Lemma got_ok log data n buf s : ok log s -> buf = msg_buf s ++ data -> line_end buf = Some n -> Z.of_nat (length buf) <= max_buf_size ->
  lines s ++ [take n buf] `sublist_of` log -> ok log (got data (take n buf) (drop n buf) s).
Proof.
  intros [[H1 H2 H3 H4 H5 H6] Hrw] Hb Hn Hl Hs. destruct (line_end_spec _ _ Hn) as [Hn1 Hn2]. split; [|done]. split; cbn; try done.
  - rewrite concat_app. cbn. rewrite app_nil_r, <- app_assoc, take_drop, H1, Hb. by rewrite <- app_assoc.
  - apply Forall_app. split; [done|]. constructor; [|done]. split; [done|]. rewrite length_take. lia.
Qed.

(** ** The whole server *)

Record Inv (c : server) : Prop := {
  inv_ok id s : all c !! id = Some s -> ok (log c) s;
  inv_next id s : all c !! id = Some s -> (id < next c)%nat;
  inv_open id : id ∈ sessions_ c <-> exists s, all c !! id = Some s /\ closed_ s = false
}.

Lemma foldr_alter (f : session -> session) (l : list nat) (m : gmap nat session) id : NoDup l ->
  foldr (fun id m => alter f id m) m l !! id = (if decide (id ∈ l) then f else fun s => s) <$> m !! id.
Proof.
  induction l as [|x l IH]; intros Hnd; cbn; [by destruct (m !! id)|]. apply NoDup_cons in Hnd as [Hx Hnd].
  destruct (decide (id = x)) as [->|Hne].
  - rewrite lookup_alter_eq, IH by done. rewrite decide_False by done. rewrite decide_True by by left. by destruct (m !! x).
  - rewrite lookup_alter_ne, IH by done. by rewrite (decide_ext (id ∈ x :: l) (id ∈ l)) by (rewrite elem_of_cons; naive_solver).
Qed.

Lemma broadcast_lookup msg c id : all (broadcast_message msg c) !! id = (if decide (id ∈ sessions_ c) then send msg else fun s => s) <$> all c !! id.
Proof.
  cbn. rewrite foldr_alter by apply NoDup_elements. f_equal.
  by rewrite (decide_ext (id ∈ elements (sessions_ c)) (id ∈ sessions_ c)) by apply elem_of_elements.
Qed.

Lemma upd_lookup id f c k : all (upd id f c) !! k = (if decide (k = id) then f else fun s => s) <$> all c !! k.
Proof.
  cbn. case_decide; subst; [apply lookup_alter_eq|]. rewrite lookup_alter_ne by done. by destruct (all c !! k).
Qed.

Lemma upd_upd id f g c : upd id f (upd id g c) = upd id (fun s => f (g s)) c.
Proof. unfold upd, on_all. cbn. f_equal. apply alter_alter_eq. Qed.

Lemma inv_closed c id s : Inv c -> all c !! id = Some s -> id ∈ sessions_ c <-> closed_ s = false.
Proof. intros H Hs. rewrite (inv_open c H). naive_solver. Qed.

Lemma inv_upd c id f : Inv c -> (forall s, all c !! id = Some s -> closed_ (f s) = closed_ s /\ ok (log c) (f s)) -> Inv (upd id f c).
Proof.
  intros H Hf. split.
  - intros k s. rewrite upd_lookup. case_decide; subst; intros (t & Ht & ->)%fmap_Some; [by apply Hf|by eapply (inv_ok c H)].
  - intros k s. rewrite upd_lookup. intros (t & Ht & _)%fmap_Some. by eapply (inv_next c).
  - intros k. change (sessions_ (upd id f c)) with (sessions_ c). rewrite (inv_open c H). setoid_rewrite upd_lookup. split.
    + intros (s & Hs & Hc). rewrite Hs. eexists. split; [done|]. case_decide; subst; [by rewrite (proj1 (Hf _ Hs))|done].
    + intros (s & (t & Ht & ->)%fmap_Some & Hc). exists t. split; [done|]. case_decide; subst; [by rewrite <- (proj1 (Hf _ Ht))|done].
Qed.

Lemma inv_broadcast c msg : Inv c -> Inv (broadcast_message msg c).
Proof.
  intros H. assert (Hcl : forall k s, closed_ ((if decide (k ∈ sessions_ c) then send msg else fun s => s) s) = closed_ s) by (intros; by case_decide).
  split.
  - intros k s. rewrite broadcast_lookup. intros (t & Ht & ->)%fmap_Some. pose proof (inv_ok c H _ _ Ht) as Hok. pose proof (inv_closed _ _ _ H Ht) as Hiff.
    change (log (broadcast_message msg c)) with (log c ++ [msg]). case_decide as Hk; [apply send_ok; tauto|apply ok_log; [done|]]. destruct (closed_ t); tauto.
  - intros k s. rewrite broadcast_lookup. intros (t & Ht & _)%fmap_Some. by eapply (inv_next c).
  - intros k. change (sessions_ (broadcast_message msg c)) with (sessions_ c). rewrite (inv_open c H). setoid_rewrite broadcast_lookup. split.
    + intros (s & Hs & Hc). rewrite Hs. eexists. split; [done|]. by rewrite Hcl.
    + intros (s & (t & Ht & ->)%fmap_Some & Hc). exists t. split; [done|]. by rewrite <- (Hcl k).
Qed.

(** A coroutine of the session fails: [f] is its end. *)
Lemma inv_fail c id f s : Inv c -> all c !! id = Some s -> closed_ (f s) = closed_ s -> core (log c) (in_flight (f s)) (set_closed (f s)) ->
  (closed_ s = true -> reader_ok (f s) /\ writer_ok (f s)) -> Inv (handle_close id (upd id f c)).
Proof.
  intros H Hs Hc Hcore Hok. unfold handle_close. rewrite upd_lookup, decide_True, Hs by done. cbn [fmap option_fmap option_map]. rewrite Hc.
  destruct (closed_ s) eqn:Hcl; [apply inv_upd; [done|]; intros t Ht; rewrite Hs in Ht; injection Ht as <-; rewrite Hc, Hcl; split; [done|split; [by apply core_was_closed; [|rewrite Hc]|by apply Hok]]|].
  assert (Hl : forall k, all (remove_session id (upd id close_session (upd id f c))) !! k = if decide (k = id) then Some (close_session (f s)) else all c !! k).
  { intros k. cbn. rewrite alter_alter_eq. case_decide; subst; [by rewrite lookup_alter_eq, Hs|by rewrite lookup_alter_ne]. }
  split.
  - intros k t. rewrite Hl. case_decide; [intros [= <-]; by apply close_ok|]. by apply (inv_ok c H).
  - intros k t. rewrite Hl. case_decide; subst; [intros _; by eapply (inv_next c)|by apply (inv_next c H)].
  - intros k. setoid_rewrite Hl. change (sessions_ (remove_session id (upd id close_session (upd id f c)))) with (sessions_ c ∖ {[id]}).
    rewrite elem_of_difference, elem_of_singleton, (inv_open c H). case_decide; naive_solver.
Qed.

Lemma inv_accept c gone : Inv c -> Inv (accept gone c).
Proof.
  intros H. destruct gone; [by destruct H; split|]. assert (Hn : all c !! next c = None).
  { apply eq_None_not_Some. intros [s Hs]. pose proof (inv_next c H _ _ Hs). lia. }
  split; cbn.
  - intros k s. rewrite lookup_insert_Some. intros [[<- <-]|[_ Hs]]; [|by eapply (inv_ok c H)].
    split; [|done]. split; cbn; try done; [apply sublist_nil_l|by rewrite drop_all..].
  - intros k s. rewrite lookup_insert_Some. intros [[<- <-]|[_ Hs]]; [lia|]. pose proof (inv_next c H _ _ Hs). lia.
  - intros k. rewrite elem_of_union, elem_of_singleton, (inv_open c H). setoid_rewrite lookup_insert_Some.
    split; [intros [(s & Hs & Hc)| ->]; [exists s; split; [right; split; [congruence|done]|done]|by eexists; split; [by left|]]|].
    intros (s & [[<- <-]|[Hne Hs]] & Hc); [by right|left; by exists s].
Qed.

Lemma inv_read c id data s n : Inv c -> all c !! id = Some s -> line_end (msg_buf s ++ data) = Some n ->
  Z.of_nat (length (msg_buf s ++ data)) <= max_buf_size -> Inv (read_line id data s n c).
Proof.
  intros H Hs Hn Hl. unfold read_line. set (line := take n (msg_buf s ++ data)).
  rewrite upd_upd. apply inv_upd; [by apply inv_broadcast|]. intros t Ht. split; [done|].
  pose proof (inv_ok _ (inv_broadcast c line H) _ _ Ht) as Hok. rewrite broadcast_lookup, Hs in Ht. injection Ht as Ht.
  assert (msg_buf t = msg_buf s /\ lines t = lines s) as [Hb1 Hb2] by (subst t; by case_decide).
  assert (ok (log (broadcast_message line c)) (got data line (drop n (msg_buf s ++ data)) t)) as [Hg1 Hg2].
  { apply got_ok; [done|by rewrite Hb1|done..|]. rewrite Hb2. cbn. apply sublist_app; [apply (inv_ok c H _ _ Hs)|done]. }
  apply session_read_ok; [done|apply Hg2].
Qed.

Lemma exec_inv c e c' : Inv c -> exec e c = Some c' -> Inv c'.
Proof.
  intros H. destruct e as [|gone|id|id|id data|id|id|id|id]; cbn [exec]; intros He.
  1,2: destruct (listening c); [|done]; injection He as <-; by first [apply inv_accept|done].
  all: apply bind_Some in He as (s & Hs & He); pose proof (inv_ok c H _ _ Hs) as (Hcore & Hr & Hw); unfold reader_ok, writer_ok, in_flight in *.
  - destruct (reader s) eqn:E; [|done..]. injection He as <-. apply inv_upd; [done|]. intros t Ht. rewrite Hs in Ht. injection Ht as <-. split; [done|]. by apply session_read_ok.
  - destruct (writer s) eqn:E; try done. injection He as <-. apply inv_upd; [done|]. intros t Ht. rewrite Hs in Ht. injection Ht as <-.
    split; [by rewrite write_loop_closed|]. by apply write_loop_ok.
  - destruct (reader s) eqn:E; [done| |done]. apply bind_Some in He as (n & Hn & He). destruct (Z.leb_spec (Z.of_nat (length (msg_buf s ++ data))) max_buf_size); [|done].
    injection He as <-. by apply inv_read.
  - destruct (reader s) eqn:E; [done| |done]. injection He as <-. eapply inv_fail; [done..| |].
    + apply (core_closed _ (in_flight s)); [by destruct Hcore; split|done].
    + intros Hc. by split.
  - destruct (writer s) eqn:E; try done. injection He as <-. apply inv_upd; [done|]. intros t Ht. rewrite Hs in Ht. injection Ht as <-.
    split; [by rewrite write_loop_closed|]. by apply write_loop_ok.
  - destruct (writer s) as [| | |msg cancelled|] eqn:E; try done. injection He as <-.
    rewrite upd_upd. apply inv_upd; [done|]. intros t Ht. rewrite Hs in Ht. injection Ht as <-. split; [by rewrite write_loop_closed|].
    apply write_loop_ok; [|done]. destruct Hcore as [H1 H2 H3 H4 H5 H6]. split; cbn; try done; [by rewrite app_nil_r|].
    intros Hc. rewrite H6 by done. by rewrite <- app_assoc.
  - destruct (writer s) as [| | |msg cancelled|] eqn:E; try done. injection He as <-. eapply inv_fail; [done..| |].
    + eapply (core_closed _ [msg] []) in Hcore; [|apply prefix_nil]. by destruct Hcore; split.
    + intros Hc. by split.
Qed.

Lemma chat_inv c : reachable c -> Inv c.
Proof. induction 1 as [|c e c' _ IH He]; [|by eapply exec_inv]. split; cbn; [done..|]. set_solver. Qed.

Fixpoint run (es : list event) (c : server) : option server :=
  match es with [] => Some c | e :: es => c ← exec e c; run es c end.

Lemma talk_run es : forall c c', reachable c -> run es c = Some c' -> reachable c'.
Proof.
  induction es as [|e es IH]; intros c c' Hc He; cbn in He; [by injection He as <-|].
  apply bind_Some in He as (d & Hd & He). eapply IH, He. by eapply reachable_step.
Qed.

(** Whatever the order of events, what was read from a client comes as its lines, each of at
    most 1024 bytes, to the broadcast messages, in their order and without loss; what was
    written to a client is, from the moment it came, the sequence of all the messages without
    a gap or a repetition; for an open session the rest is in its queue; and the set of the
    server has exactly the open sessions. *)
Theorem chat_delivers c id s : reachable c -> all c !! id = Some s ->
  received s = concat (lines s) ++ msg_buf s /\ Forall is_line (lines s) /\ lines s `sublist_of` log c /\
  written s `prefix_of` drop (joined s) (log c) /\
  (closed_ s = false -> drop (joined s) (log c) = written s ++ in_flight s ++ msgs_ s) /\
  (id ∈ sessions_ c <-> closed_ s = false).
Proof.
  intros Hc%chat_inv Hs. destruct (inv_ok c Hc _ _ Hs) as [[H1 H2 H3 H4 H5 H6] _]. do 3 (split; [done|]).
  split; [by eapply prefix_app_l|]. split; [done|]. by apply inv_closed.
Qed.

(** Nothing goes on without the network: no coroutine is to be started or woken, and no
    operation was cancelled. *)
Definition at_rest (s : session) : bool :=
  match reader s with RStart | RReading true => false | _ => true end &&
  match writer s with WStart | WWoken | WWriting _ true => false | _ => true end.

(** No wakeup of a writer is lost: when nothing goes on without the network, both
    coroutines of every closed session have ended; those of an open one read, and
    write a message or, if every message was written, wait for one. *)
Theorem chat_no_lost_wakeup c id s : reachable c -> all c !! id = Some s -> at_rest s = true ->
  if closed_ s then reader s = REnded /\ writer s = WEnded
  else reader s = RReading false /\
    ((exists msg, writer s = WWriting msg false) \/ (writer s = WWaiting /\ written s = drop (joined s) (log c))).
Proof.
  intros Hc%chat_inv Hs. destruct (inv_ok c Hc _ _ Hs) as ([_ _ _ _ _ H6] & Hr & Hw).
  unfold at_rest, reader_ok, writer_ok, in_flight in *. intros [Hr' Hw']%andb_true_iff.
  destruct (closed_ s), (reader s) as [|[]|], (writer s) as [| | |msg []|]; try done; try (by destruct Hw).
  - split; [done|right]. destruct Hw as [_ Hw]. rewrite H6, Hw by done. by rewrite app_nil_r.
  - split; [done|left]. by exists msg.
Qed.

(** What its coroutines have left to do after the session was closed. *)
Definition left_to_do (s : session) : nat :=
  (match reader s with REnded => 0 | _ => 1 end + match writer s with WEnded => 0 | _ => 1 end)%nat.

Definition event_of (e : event) : option nat :=
  match e with
  | AcceptFail | Accept _ => None
  | StartReader id | StartWriter id | ReadOk id _ | ReadFail id | WaitEnds id | WriteOk id | WriteFail id => Some id
  end.

Lemma lookup_accept c gone id s : Inv c -> all c !! id = Some s -> all (accept gone c) !! id = Some s.
Proof.
  intros H Hs. destruct gone; [done|]. cbn. rewrite lookup_insert_ne; [done|]. pose proof (inv_next c H _ _ Hs). lia.
Qed.

(** Other sessions keep the session; for messages it has to be closed. *)
Lemma closed_other c id k f s : k <> id -> all c !! id = Some s -> all (upd k f c) !! id = Some s.
Proof. intros Hk Hs. rewrite upd_lookup, decide_False by done. by rewrite Hs. Qed.

Lemma closed_handle_close c k id s : all c !! id = Some s -> closed_ s = true -> all (handle_close k c) !! id = Some s.
Proof.
  intros Hs Hc. unfold handle_close. destruct (all c !! k) as [t|] eqn:Ht; [|done]. destruct (closed_ t) eqn:Hct; [done|].
  apply (closed_other c id k); [|done]. intros ->. congruence.
Qed.

Lemma closed_broadcast c msg id s : Inv c -> all c !! id = Some s -> closed_ s = true -> all (broadcast_message msg c) !! id = Some s.
Proof.
  intros H Hs Hc. rewrite broadcast_lookup, decide_False by (rewrite (inv_closed _ _ _ H Hs), Hc; done). by rewrite Hs.
Qed.

Lemma closed_upd c id f s : all c !! id = Some s -> all (upd id f c) !! id = Some (f s).
Proof. intros Hs. by rewrite upd_lookup, decide_True, Hs. Qed.

Lemma closed_kept c' id s : all c' !! id = Some s -> closed_ s = true ->
  exists s', all c' !! id = Some s' /\ closed_ s' = true /\ s' = s.
Proof. intros Hs Hc. by exists s. Qed.

Lemma closed_own c' id s f : all c' !! id = Some (f s) -> closed_ (f s) = true -> left_to_do s = S (left_to_do (f s)) ->
  exists s', all c' !! id = Some s' /\ closed_ s' = true /\ left_to_do s = S (left_to_do s').
Proof. intros Hs Hc Hl. by exists (f s). Qed.

(** A session that was closed stays closed, nobody else touches it, and each event of
    its own coroutines is one of the at most two that they have left. *)
Theorem chat_session_drains c e c' id s : reachable c -> all c !! id = Some s -> closed_ s = true -> exec e c = Some c' ->
  exists s', all c' !! id = Some s' /\ closed_ s' = true /\
    (if decide (event_of e = Some id) then left_to_do s = S (left_to_do s') else s' = s).
Proof.
  intros H%chat_inv Hs Hc. destruct (inv_ok c H _ _ Hs) as (_ & Hr & Hw). unfold reader_ok, writer_ok in *.
  destruct e as [|gone|k|k|k data|k|k|k|k]; cbn [exec event_of]; intros He.
  1,2: destruct (listening c); [|done]; injection He as <-; exists s; split; [by first [apply lookup_accept|done]|done].
  all: apply bind_Some in He as (t & Ht & He); destruct (decide (Some k = Some id)) as [[= ->]|Hk];
    [assert (t = s) as -> by congruence; clear Ht|assert (k <> id) by congruence].
  - destruct (reader s) eqn:E; [|done..]. injection He as <-. apply (closed_own (upd id read_loop c) id s read_loop); [by apply closed_upd|done|].
    unfold left_to_do. cbn. by rewrite E, Hc.
  - destruct (reader t); [|done..]. injection He as <-. apply closed_kept; [by apply closed_other|done].
  - destruct (writer s) eqn:E; try done. injection He as <-. apply (closed_own _ id s write_loop); [by apply closed_upd|by rewrite write_loop_closed|].
    unfold left_to_do, write_loop. rewrite Hc. cbn. rewrite E. lia.
  - destruct (writer t); try done. injection He as <-. apply closed_kept; [by apply closed_other|done].
  - destruct (reader s) eqn:E; [done| |done]. apply bind_Some in He as (n & _ & He). destruct (_ <=? _); [|done]. injection He as <-. unfold read_line. rewrite upd_upd.
    apply (closed_own _ id s (fun s0 => read_loop (got data (take n (msg_buf s ++ data)) (drop n (msg_buf s ++ data)) s0))); [by apply (closed_upd (broadcast_message _ c) id (fun s0 => read_loop _)), closed_broadcast|done|].
    unfold left_to_do. cbn. by rewrite E, Hc.
  - destruct (reader t); [done| |done]. apply bind_Some in He as (n & _ & He). destruct (_ <=? _); [|done]. injection He as <-. unfold read_line. rewrite upd_upd.
    apply closed_kept; [by apply closed_other, closed_broadcast|done].
  - destruct (reader s) eqn:E; [done| |done]. injection He as <-. apply (closed_own _ id s (set_reader REnded)); [|done|unfold left_to_do; cbn; by rewrite E].
    apply closed_handle_close; [by apply closed_upd|done].
  - destruct (reader t); [done| |done]. injection He as <-. apply closed_kept; [|done]. apply closed_handle_close; [by apply closed_other|done].
  - destruct (writer s) eqn:E; try done. injection He as <-. apply (closed_own _ id s write_loop); [by apply closed_upd|by rewrite write_loop_closed|].
    unfold left_to_do, write_loop. rewrite Hc. cbn. rewrite E. lia.
  - destruct (writer t); try done. injection He as <-. apply closed_kept; [by apply closed_other|done].
  - destruct (writer s) as [| | |msg b|] eqn:E; try done. injection He as <-. rewrite upd_upd. apply (closed_own _ id s (fun s0 => write_loop (set_written (fun l => l ++ [msg]) s0))); [by apply (closed_upd c id (fun s0 => write_loop _))|by rewrite write_loop_closed|].
    unfold left_to_do, write_loop. cbn. rewrite Hc. cbn. rewrite E. lia.
  - destruct (writer t); try done. injection He as <-. rewrite upd_upd. apply closed_kept; [by apply closed_other|done].
  - destruct (writer s) eqn:E; try done. injection He as <-. apply (closed_own _ id s (set_writer WEnded)); [|done|unfold left_to_do; cbn; rewrite E; lia].
    apply closed_handle_close; [by apply closed_upd|done].
  - destruct (writer t); try done. injection He as <-. apply closed_kept; [|done]. apply closed_handle_close; [by apply closed_other|done].
Qed.

(** A failure of either coroutine takes the session out of the set of the
    server; and a client whose first 1024 bytes have no end of line can only fail. *)
Theorem chat_failures c e c' id s : reachable c -> all c !! id = Some s -> exec e c = Some c' ->
  (e = ReadFail id \/ e = WriteFail id -> id ∉ sessions_ c') /\
  (forall data, e = ReadOk id data -> line_end (msg_buf s) = None -> Z.of_nat (length (msg_buf s)) < max_buf_size).
Proof.
  intros Hc%chat_inv Hs He. split.
  - assert (Hcl : forall f, closed_ (f s) = closed_ s -> id ∉ sessions_ (handle_close id (upd id f c))).
    { intros f Hf. unfold handle_close. rewrite (closed_upd _ _ f _ Hs), Hf. destruct (closed_ s) eqn:E; [|cbn; set_solver].
      change (id ∉ sessions_ c). by rewrite (inv_closed _ _ _ Hc Hs), E. }
    intros [-> | ->]; cbn [exec] in He; rewrite Hs in He; cbn in He; [destruct (reader s)|destruct (writer s)]; try done; injection He as <-; by apply Hcl.
  - intros data -> Hn. cbn [exec] in He. rewrite Hs in He. cbn in He. destruct (reader s); [done| |done].
    destruct (Z.ltb_spec (Z.of_nat (length (msg_buf s))) max_buf_size); [done|]. exfalso.
    destruct data as [|d data]; [rewrite app_nil_r, Hn in He; done|]. destruct (line_end (msg_buf s ++ d :: data)) as [n|]; [|done]. cbn in He.
    destruct (Z.leb_spec (Z.of_nat (length (msg_buf s ++ d :: data))) max_buf_size) as [Hl|]; [|done]. rewrite length_app in Hl. cbn in Hl. lia.
Qed.

Lemma exec_not_listening c e c' : listening c = false -> exec e c = Some c' -> listening c' = false /\ sessions_ c' ⊆ sessions_ c /\ next c' = next c.
Proof.
  intros Hl He. assert (Hh : forall id d, listening (handle_close id d) = listening d /\ sessions_ (handle_close id d) ⊆ sessions_ d /\ next (handle_close id d) = next d).
  { intros id d. unfold handle_close. destruct (all d !! id) as [t|]; [|done]. destruct (closed_ t); [done|]. cbn. split; [done|]. split; [set_solver|done]. }
  destruct e; cbn [exec] in He; rewrite ?Hl in He; try done; apply bind_Some in He as (s & _ & He);
    [destruct (reader s)|destruct (writer s)|destruct (reader s)|destruct (reader s)|destruct (writer s)..]; try done;
    try (apply bind_Some in He as (? & _ & He); destruct (_ <=? _); [|done]); injection He as <-; try done.
  all: match goal with |- context [handle_close ?i ?d] => destruct (Hh i d) as (-> & ? & ->); by split end.
Qed.

(** A client that leaves before its session is made ends the accepting coroutine: from
    then on, whatever happens, no session is made and the set only shrinks. *)
Theorem chat_accept_stops c c' es d : exec (Accept true) c = Some c' -> run es c' = Some d ->
  sessions_ d ⊆ sessions_ c /\ next d = next c.
Proof.
  cbn [exec]. destruct (listening c) eqn:Hl; [|done]. intros [= <-] He.
  assert (Hg : forall es e d, listening e = false -> run es e = Some d -> sessions_ d ⊆ sessions_ e /\ next d = next e).
  { clear. induction es as [|x es IH]; intros e d Hl He; cbn in He; [by injection He as <-|].
    apply bind_Some in He as (e' & Hx & He). destruct (exec_not_listening _ _ _ Hl Hx) as (Hl' & Hs & Hn).
    destruct (IH _ _ Hl' He) as [Hs' Hn']. split; [by etrans|congruence]. }
  by apply (Hg es _ d) in He.
Qed.

(** ** Two clients *)

Definition talk : list event :=
  [Accept false; StartReader 0; Accept false; StartReader 1; StartWriter 0; StartWriter 1; ReadOk 0 (lit "hi" ++ [chr 10] ++ lit "y"); WaitEnds 1; WriteOk 1; ReadFail 1].

Definition after_talk : server := default start (run talk start).

Definition of_talk (id : nat) : session := default (make 0) (all after_talk !! id).

Lemma talk_reachable : reachable after_talk.
Proof. apply (talk_run talk start); [constructor|by vm_compute]. Qed.

Theorem chat_delivers_witness :
  written (of_talk 1) `prefix_of` drop (joined (of_talk 1)) (log after_talk) /\ written (of_talk 1) = [lit "hi" ++ [chr 10]].
Proof. split; [apply (chat_delivers after_talk 1 (of_talk 1) talk_reachable); by vm_compute|by vm_compute]. Defined.

Definition rested : server := default start (run [WaitEnds 0; WaitEnds 1] after_talk).

Theorem chat_no_lost_wakeup_witness : reader (default (make 0) (all rested !! 1%nat)) = REnded.
Proof.
  assert (reachable rested) as Hr by (apply (talk_run [WaitEnds 0; WaitEnds 1] after_talk); [apply talk_reachable|by vm_compute]).
  pose proof (chat_no_lost_wakeup rested 1 (default (make 0) (all rested !! 1%nat)) Hr ltac:(by vm_compute) ltac:(by vm_compute)) as H.
  assert (closed_ (default (make 0) (all rested !! 1%nat)) = true) as E by by vm_compute. rewrite E in H. apply H.
Defined.

Theorem chat_session_drains_witness : exists s', all rested !! 1%nat = Some s' /\ left_to_do s' = 0%nat.
Proof.
  destruct (chat_session_drains (default start (run [WaitEnds 0] after_talk)) (WaitEnds 1) rested 1 (of_talk 1)) as (s' & H1 & H2 & H3);
    [|by vm_compute..|].
  - apply (talk_run [WaitEnds 0] after_talk); [apply talk_reachable|by vm_compute].
  - exists s'. split; [done|]. rewrite decide_True in H3 by done. revert H3. vm_compute. congruence.
Defined.

Theorem chat_failures_witness : 1%nat ∉ sessions_ after_talk.
Proof.
  pose (before := default start (run (take 9 talk) start)).
  apply (chat_failures before (ReadFail 1) after_talk 1 (default (make 0) (all before !! 1%nat))); [|by vm_compute..|by left].
  apply (talk_run (take 9 talk) start); [constructor|by vm_compute].
Defined.

Definition stopped_talk : list event := [WaitEnds 0; WaitEnds 1; ReadOk 0 [chr 10]].

Theorem chat_accept_stops_witness : next (default start (run stopped_talk (accept true after_talk))) = 2%nat.
Proof.
  destruct (chat_accept_stops after_talk (accept true after_talk) stopped_talk (default start (run stopped_talk (accept true after_talk)))) as [_ ->]; by vm_compute.
Defined.
