(* ===== verification/Subprocess.v ===== *)
(** * Child processes

    Models Lumper/base/subprocess.h and subprocess.cpp: a [subprocess] starts a program with its
    standard streams on pipes or on the null device, learns through another pipe whether the
    program could be started, and waits for it.  Descriptors live in tables; the child has a
    copy of the table of its parent (the clone flags leave the table unshared).  What the
    system calls answer is in a [kernel]. *)

From stdpp Require Import gmap fin_map_dom sorting.
From S2P Require Import Prelude.

#[local] Open Scope Z_scope.

(** ** Descriptors *)

Inductive file := FPipe (id : nat) (wr : bool) | FNull (wr : bool) | FOther (n : nat).

(** A file with its close-on-exec flag. *)
Notation table := (gmap nat (file * bool)).

(** The lowest number that is free. *)
Definition fresh_fd (t : table) : nat := default (S (size t)) (List.find (fun n => bool_decide (t !! n = None)) (seq 0 (S (size t)))).

Definition close_all (fds : list nat) (t : table) : table := foldr delete t fds.

(** [dup2]: onto itself it changes nothing, not even the flag; otherwise the copy stays open. *)
Definition dup2 (old new : nat) (t : table) : table :=
  if decide (old = new) then t
  else match t !! old with Some (f, _) => <[new := (f, false)]> t | None => t end.

Definition exec_table (t : table) : table := filter (fun x => x.2.2 = false) t.

(** ** What the system calls answer *)

Definition EINTR : Z := 4.

(** The errors that a call gives before it succeeds; a call that is made only once
    has at most one. *)
Record kernel := {
  pipe2_errno : nat -> option Z;
  clone_errno : option Z;
  clone_pid : Z;
  (** The value of [errno] that the child starts with. *)
  errno_at_clone : Z;
  dup2_errno : nat -> option Z;
  open_errno : nat -> option Z;
  exec_errno : option Z;
  write_errors : list Z;
  read_errors : list Z;
  wait_errors : list Z;
  wait_status : Z
}.

(** [do ... while (rc == -1 && errno == EINTR)]: the error the loop ends with. *)
Fixpoint sys_retry (errors : list Z) : option Z :=
  match errors with
  | [] => None
  | e :: errors => if e =? EINTR then sys_retry errors else Some e
  end.

(** ** Exit codes *)

Definition WIFEXITED (status : Z) : bool := Z.land status 127 =? 0.
Definition WEXITSTATUS (status : Z) : Z := Z.shiftr (Z.land status 65280) 8.
Definition WTERMSIG (status : Z) : Z := Z.land status 127.
Definition WIFSIGNALED (status : Z) : bool :=
  let c := Z.land status 127 + 1 in
  0 <? Z.shiftr (if c <? 128 then c else c - 256) 1.

Inductive reason := exited | killed.

Record process_exit_code := mk_code { wait_status_ : Z }.

(** [None]: [runtime_error]. *)
Definition process_exit_code_make (status : Z) : option process_exit_code :=
  if negb (WIFEXITED status) && negb (WIFSIGNALED status) then None else Some (mk_code status).

(** [None]: [std::terminate]. *)
Definition cause (c : process_exit_code) : option (reason * Z) :=
  if WIFEXITED (wait_status_ c) then Some (exited, WEXITSTATUS (wait_status_ c))
  else if WIFSIGNALED (wait_status_ c) then Some (killed, WTERMSIG (wait_status_ c))
  else None.

(** ** Options *)

Inductive mode := min | mout.
Inductive stdio_action := use_null_t (m : mode) | use_pipe_t (m : mode) (pfd : nat).
Inductive tag := use_null | use_pipe.

(** The callback that runs in the child: what it returns, and the [errno] it leaves, if it
    changes it. *)
Record callback := { cb_return : Z; cb_errno : option Z }.

(** The table of actions in the order of its keys. *)
Record options := mk_options { action_table_ : list (nat * stdio_action); evil_pre_exec_callback_ : option callback }.

Definition make_options : options := mk_options [] None.

(** [action_table_[fd] = action]. *)
Fixpoint set_action (fd : nat) (a : stdio_action) (l : list (nat * stdio_action)) : list (nat * stdio_action) :=
  match l with
  | [] => [(fd, a)]
  | (k, b) :: l => if (fd <? k)%nat then (fd, a) :: (k, b) :: l else if (fd =? k)%nat then (fd, a) :: l else (k, b) :: set_action fd a l
  end.

Definition action_of (m : mode) (t : tag) : stdio_action := match t with use_null => use_null_t m | use_pipe => use_pipe_t m 0 end.

Definition set_stdin (t : tag) (o : options) := mk_options (set_action 0 (action_of min t) (action_table_ o)) (evil_pre_exec_callback_ o).
Definition set_stdout (t : tag) (o : options) := mk_options (set_action 1 (action_of mout t) (action_table_ o)) (evil_pre_exec_callback_ o).
Definition set_stderr (t : tag) (o : options) := mk_options (set_action 2 (action_of mout t) (action_table_ o)) (evil_pre_exec_callback_ o).
Definition set_evil_pre_exec_callback (cb : callback) (o : options) := mk_options (action_table_ o) (Some cb).

(** ** The object *)

Inductive child_errc := success | prepare_stdio | run_pre_exec_callback | exec_call_failure.
Inductive state := not_started | running | exited_state.

Record subprocess := mk_subprocess { child_state_ : state; pid_ : Z; stdio_pipes_ : gmap nat nat }.

Definition make_subprocess : subprocess := mk_subprocess not_started (-1) ∅.

Definition waitable (p : subprocess) : bool := match child_state_ p with running => true | _ => false end.

(** The child: it runs the program, or it has exited, having reported why or not. *)
Inductive child := Execed (t : table) | Died (code : child_errc) (errno_value : Z) (reported : bool).

Inductive result (A : Type) := Returns (a : A) | InvalidArgument | SystemError (errno : Z) | SpawnError (code : child_errc) (errno_value : Z) | RuntimeError | Terminate.
Arguments Returns {A} a.
Arguments InvalidArgument {A}.
Arguments SystemError {A} errno.
Arguments SpawnError {A} code errno_value.
Arguments RuntimeError {A}.
Arguments Terminate {A}.

Section Subprocess.
Context (k : kernel).

(** *** The child *)

(** The new table and [errno]; [true] when the action failed, with the error in [errno]. *)
Definition handle_stdio_action (fd : nat) (a : stdio_action) (t : table) (errno : Z) : bool * table * Z :=
  match a with
  | use_pipe_t _ pfd =>
      match dup2_errno k fd with Some e => (true, t, e) | None => (false, dup2 pfd fd t, errno) end
  | use_null_t m =>
      match open_errno k fd with
      | Some e => (true, t, e)
      | None =>
          let null_fd := fresh_fd t in
          let t := <[null_fd := (FNull (match m with min => false | mout => true end), true)]> t in
          match dup2_errno k fd with
          | Some e => (true, delete null_fd t, e)
          | None => (false, delete null_fd (dup2 null_fd fd t), errno)
          end
      end
  end.

Fixpoint stdio_loop (actions : list (nat * stdio_action)) (t : table) (errno : Z) : bool * table * Z :=
  match actions with
  | [] => (false, t, errno)
  | (fd, a) :: actions =>
      match handle_stdio_action fd a t errno with
      | (true, t, errno) => (true, t, errno)
      | (false, t, errno) => stdio_loop actions t errno
      end
  end.

(** The pair it returns, whose first is [errno], and the table. *)
Definition prepare_child (opts : options) (t : table) (errno : Z) : Z * child_errc * table * Z :=
  match stdio_loop (action_table_ opts) t errno with
  | (true, t, errno) => (errno, prepare_stdio, t, errno)
  | (false, t, errno) =>
      match evil_pre_exec_callback_ opts with
      | Some cb =>
          let errno := default errno (cb_errno cb) in
          if negb (cb_return cb =? 0) then (errno, run_pre_exec_callback, t, errno) else (0, success, t, errno)
      | None => (0, success, t, errno)
      end
  end.

(** Whether the parent can read what is written to [err_fd]: it is still the end of the pipe
    with number [err]. *)
Definition is_err_pipe (err err_fd : nat) (t : table) : bool :=
  match t !! err_fd with Some (FPipe n true, _) => (n =? err)%nat | _ => false end.

Definition notify_child_error (err err_fd : nat) (t : table) (code : child_errc) (errno_value : Z) : child :=
  Died code errno_value (match sys_retry (write_errors k) with None => is_err_pipe err err_fd t | Some _ => false end).

Definition run_child (opts : options) (err err_fd : nat) (t : table) : child :=
  let '(rc, errc, t, _) := prepare_child opts t (errno_at_clone k) in
  if negb (rc =? 0) then notify_child_error err err_fd t errc rc
  else match exec_errno k with
       | Some e => notify_child_error err err_fd t exec_call_failure e
       | None => Execed (exec_table t)
       end.

(** *** The parent *)

(** Pipe number [n]: the read end, the write end. *)
Definition make_pipe (n : nat) (t : table) : Z + (nat * nat * table) :=
  match pipe2_errno k n with
  | Some e => inl e
  | None =>
      let rd := fresh_fd t in
      let t := <[rd := (FPipe n false, true)]> t in
      let wr := fresh_fd t in
      inr (rd, wr, <[wr := (FPipe n true, true)]> t)
  end.

(** The loop over the actions: the table, the actions with their descriptors, the ends of
    the parent, those of the child; on an error what was opened is still open. *)
Record pipes := mk_pipes { p_table : table; p_actions : list (nat * stdio_action); p_stdio : gmap nat nat; p_child : list nat; p_count : nat }.

Fixpoint open_pipes (actions : list (nat * stdio_action)) (p : pipes) : option Z * pipes :=
  match actions with
  | [] => (None, p)
  | (fd, use_pipe_t m pfd) :: actions =>
      match make_pipe (p_count p) (p_table p) with
      | inl e => (Some e, p)
      | inr (rd, wr, t) =>
          let '(mine, its) := match m with min => (wr, rd) | mout => (rd, wr) end in
          open_pipes actions (mk_pipes t (p_actions p ++ [(fd, use_pipe_t m its)]) (<[fd := mine]> (p_stdio p)) (p_child p ++ [its]) (S (p_count p)))
      end
  | (fd, a) :: actions => open_pipes actions (mk_pipes (p_table p) (p_actions p ++ [(fd, a)]) (p_stdio p) (p_child p) (p_count p))
  end.

Definition wait (p : subprocess) : result process_exit_code * subprocess :=
  if negb (waitable p) then (InvalidArgument, p)
  else match sys_retry (wait_errors k) with
       | Some _ => (Terminate, p)
       | None =>
           let p := mk_subprocess exited_state (-1) (stdio_pipes_ p) in
           match process_exit_code_make (wait_status k) with Some c => (Returns c, p) | None => (RuntimeError, p) end
       end.

(** What is in the error pipe: nothing when the child runs its program. *)
Definition read_child_error_pipe (c : child) (p : subprocess) : result subprocess :=
  match sys_retry (read_errors k), c with
  | None, Died code errno_value true =>
      match wait p with
      | (Returns _, p) => SpawnError code errno_value
      | (InvalidArgument, _) => InvalidArgument
      | (RuntimeError, _) => RuntimeError
      | (_, _) => Terminate
      end
  | _, _ => Returns p
  end.

(** [fds]: the numbers of the pipe ends of the parent. *)
Definition pipe_fds (m : gmap nat nat) : list nat := map snd (map_to_list m).

(** The result, the table of the parent and, if it was started, the child. When an exception
    leaves, the descriptors are closed by their owners. *)
Definition spawn (opts : options) (t : table) : result subprocess * table * option child :=
  match open_pipes (action_table_ opts) (mk_pipes t [] ∅ [] 0) with
  | (Some e, p) => (SystemError e, close_all (p_child p) (close_all (pipe_fds (p_stdio p)) (p_table p)), None)
  | (None, p) =>
      match make_pipe (p_count p) (p_table p) with
      | inl e => (SystemError e, close_all (p_child p) (close_all (pipe_fds (p_stdio p)) (p_table p)), None)
      | inr (err_rd, err_wr, t) =>
          match clone_errno k with
          | Some e => (SystemError e, close_all (p_child p) (close_all (pipe_fds (p_stdio p)) (close_all [err_rd; err_wr] t)), None)
          | None =>
              let c := run_child (mk_options (p_actions p) (evil_pre_exec_callback_ opts)) (p_count p) err_wr t in
              let t := close_all (p_child p) (close_all [err_rd; err_wr] t) in
              match read_child_error_pipe c (mk_subprocess running (clone_pid k) (p_stdio p)) with
              | Returns s => (Returns s, t, Some c)
              | r => (r, close_all (pipe_fds (p_stdio p)) t, Some c)
              end
          end
      end
  end.

Definition construct (argv : list str) (opts : options) (t : table) : result subprocess * table * option child :=
  match argv with
  | [] => (InvalidArgument, t, None)
  | _ => spawn opts t
  end.

(** The destructor: [None] is [std::terminate]; otherwise the pipes are closed. *)
Definition destroy (p : subprocess) (t : table) : option table :=
  if waitable p then None else Some (close_all (pipe_fds (stdio_pipes_ p)) t).

(** [*this = std::move(rhs)] for another object: both objects and the table. *)
Definition move_assign (p rhs : subprocess) (t : table) : option (subprocess * subprocess * table) :=
  if waitable p then None
  else Some (rhs, make_subprocess, close_all (pipe_fds (stdio_pipes_ p)) t).

(** [subprocess(std::move(other))]: the new object and [other]. *)
Definition move_construct (other : subprocess) : subprocess * subprocess := (other, make_subprocess).
End Subprocess.

(** ** Tables *)

Lemma fresh_fd_free t : t !! fresh_fd t = None.
Proof.
  unfold fresh_fd. destruct (List.find _ _) as [n|] eqn:Hf; cbn.
  - apply List.find_some in Hf as [_ Hn]. by apply bool_decide_eq_true in Hn.
  - exfalso. assert ((list_to_set (seq 0 (S (size t))) : gset nat) ⊆ dom t) as Hs.
    { intros n Hn. apply elem_of_list_to_set, list_elem_of_In in Hn. pose proof (List.find_none _ _ Hf n Hn) as Hb. apply bool_decide_eq_false in Hb.
      apply elem_of_dom. by apply not_eq_None_Some. }
    apply subseteq_size in Hs. rewrite size_list_to_set, size_dom, length_seq in Hs by apply NoDup_seq. lia.
Qed.

Lemma close_all_lookup fds t fd : close_all fds t !! fd = if decide (fd ∈ fds) then None else t !! fd.
Proof.
  unfold close_all. induction fds as [|x fds IH]; cbn; [done|]. rewrite lookup_delete, IH.
  repeat case_decide; subst; try done; rewrite elem_of_cons in *; naive_solver.
Qed.

Lemma elem_of_pipe_fds fd m : fd ∈ pipe_fds m <-> exists k, m !! k = Some fd.
Proof.
  unfold pipe_fds. rewrite list_elem_of_fmap. split.
  - intros ([k v] & -> & Hk%elem_of_map_to_list). by exists k.
  - intros [k Hk]. exists (k, fd). by rewrite elem_of_map_to_list.
Qed.

Lemma exec_table_lookup t fd : exec_table t !! fd = match t !! fd with Some (f, false) => Some (f, false) | _ => None end.
Proof.
  unfold exec_table. destruct (t !! fd) as [[f [|]]|] eqn:Hf.
  - apply map_lookup_filter_None. right. intros x. rewrite Hf. by intros [= <-].
  - by apply map_lookup_filter_Some.
  - apply map_lookup_filter_None. by left.
Qed.

(** ** The setters of the options *)

Definition options_ok (o : options) : Prop := Forall (fun fd => (fd < 3)%nat) (map fst (action_table_ o)) /\ NoDup (map fst (action_table_ o)).

Lemma set_action_sorted fd a l : StronglySorted lt (map fst l) ->
  StronglySorted lt (map fst (set_action fd a l)) /\ (forall x, x ∈ map fst (set_action fd a l) -> x = fd \/ x ∈ map fst l).
Proof.
  induction l as [|[x b] l IH]; cbn [set_action map fst]; [intros _; split; [by repeat constructor|intros y Hy; left; by apply list_elem_of_singleton in Hy]|].
  intros Hs. apply StronglySorted_inv in Hs as [Hs Hx]. destruct (Nat.ltb_spec fd x); [|destruct (Nat.eqb_spec fd x); subst]; cbn [map fst].
  - split; [|intros y; rewrite !elem_of_cons; tauto]. constructor; [by constructor|]. constructor; [done|]. eapply Forall_impl; [done|]. cbn. lia.
  - split; [by constructor|intros y; rewrite !elem_of_cons; tauto].
  - destruct (IH Hs) as [IH1 IH2]. split; [|intros y; rewrite !elem_of_cons; intros [?|?%IH2]; tauto]. constructor; [done|]. apply Forall_forall. intros y [-> |Hy]%IH2; [lia|].
    rewrite Forall_forall in Hx. by apply Hx.
Qed.

(** ** The pipes of the parent *)

Section Proofs.
Context (k : kernel).

Lemma make_pipe_ok n t rd wr t' : make_pipe k n t = inr (rd, wr, t') ->
  t !! rd = None /\ t !! wr = None /\ rd <> wr /\ t' = <[wr := (FPipe n true, true)]> (<[rd := (FPipe n false, true)]> t).
Proof.
  unfold make_pipe. destruct (pipe2_errno k n); [done|]. intros [= <- <- <-]. set (rd := fresh_fd t). set (t1 := <[rd := _]> t).
  pose proof (fresh_fd_free t : t !! rd = None) as Hrd. pose proof (fresh_fd_free t1) as Hwr. unfold t1 at 1 in Hwr.
  apply lookup_insert_None in Hwr as [Hwr Hne]. done.
Qed.

Definition news (p : pipes) (fd : nat) : Prop := fd ∈ pipe_fds (p_stdio p) \/ fd ∈ p_child p.

Instance news_dec p fd : Decision (news p fd).
Proof. unfold news. apply _. Defined.

Definition is_out (m : mode) : bool := match m with min => false | mout => true end.

(** [t0] is the table before; [a]: what the caller asked for. *)
Record opened (t0 : table) (p : pipes) : Prop := {
  op_new fd : news p fd -> t0 !! fd = None /\ exists f, p_table p !! fd = Some (f, true);
  op_old fd : ~ news p fd -> p_table p !! fd = t0 !! fd;
  op_ends fd m pfd : (fd, use_pipe_t m pfd) ∈ p_actions p -> exists id mine, p_stdio p !! fd = Some mine /\ pfd ∈ p_child p /\
    mine ∉ p_child p /\ p_table p !! mine = Some (FPipe id (negb (is_out m)), true) /\ p_table p !! pfd = Some (FPipe id (is_out m), true);
  op_keys fd : is_Some (p_stdio p !! fd) -> fd ∈ map fst (p_actions p);
  op_apart fd : fd ∈ pipe_fds (p_stdio p) -> fd ∉ p_child p
}.

(** The actions with their descriptors are those of the caller otherwise. *)
Definition same_action (x y : nat * stdio_action) : Prop :=
  x.1 = y.1 /\ match x.2, y.2 with use_null_t m, use_null_t m' => m = m' | use_pipe_t m _, use_pipe_t m' _ => m = m' | _, _ => False end.

Lemma open_pipe_step t0 p fd m pfd n t rd wr : opened t0 p -> fd ∉ map fst (p_actions p) -> make_pipe k n (p_table p) = inr (rd, wr, t) ->
  opened t0 (mk_pipes t (p_actions p ++ [(fd, use_pipe_t m (match m with min => rd | mout => wr end))])
    (<[fd := match m with min => wr | mout => rd end]> (p_stdio p)) (p_child p ++ [match m with min => rd | mout => wr end]) pfd).
Proof.
  intros [H1 H2 H3 H4 H5] Hfd Hp. apply make_pipe_ok in Hp as (Hrd & Hwr & Hne & ->).
  set (its := match m with min => rd | mout => wr end). set (mine := match m with min => wr | mout => rd end).
  assert (Hm : p_table p !! mine = None /\ p_table p !! its = None /\ mine <> its) by (unfold mine, its; by destruct m).
  destruct Hm as (Hmine & Hits & Hmi).
  assert (Ht : <[wr := (FPipe n true, true)]> (<[rd := (FPipe n false, true)]> (p_table p)) =
    <[mine := (FPipe n (negb (is_out m)), true)]> (<[its := (FPipe n (is_out m), true)]> (p_table p))).
  { unfold mine, its. destruct m; cbn; [done|]. by apply insert_insert_ne. }
  rewrite Ht. clear Ht. assert (Hnone : p_stdio p !! fd = None).
  { apply eq_None_not_Some. intros Hs. by apply Hfd, H4. }
  assert (Hin : forall x, x ∈ pipe_fds (<[fd := mine]> (p_stdio p)) <-> x = mine \/ x ∈ pipe_fds (p_stdio p)).
  { intros x. rewrite !elem_of_pipe_fds. setoid_rewrite lookup_insert_Some. split; [naive_solver|].
    intros [-> |[j Hj]]; [exists fd; by left|exists j; right; split; [congruence|done]]. }
  assert (Hold : forall x, news p x -> x <> mine /\ x <> its /\ exists f, p_table p !! x = Some (f, true)).
  { intros x Hx. destruct (H1 x Hx) as (_ & f & Hf). split; [congruence|]. split; [congruence|]. by exists f. }
  assert (Hfree : forall x, p_table p !! x = None -> t0 !! x = None).
  { intros x Hx. destruct (decide (news p x)) as [Hn|Hn]; [by apply H1|]. by rewrite <- H2. }
  split.
  - intros x [Hx|Hx]; cbn in *.
    + apply Hin in Hx as [-> |Hx]; [split; [by apply Hfree|]; rewrite lookup_insert_eq; by eexists|].
      destruct (Hold x (or_introl Hx)) as (Hx1 & Hx2 & Hx3). rewrite !lookup_insert_ne by done. split; [apply H1; by left|done].
    + apply elem_of_app in Hx as [Hx|Hx].
      * destruct (Hold x (or_intror Hx)) as (Hx1 & Hx2 & Hx3). rewrite !lookup_insert_ne by done. split; [apply H1; by right|done].
      * apply list_elem_of_singleton in Hx as ->. rewrite lookup_insert_ne, lookup_insert_eq by done. split; [by apply Hfree|by eexists].
  - intros x Hx. unfold news in Hx; cbn in Hx. rewrite Hin, elem_of_app, list_elem_of_singleton in Hx. cbn.
    rewrite !lookup_insert_ne by naive_solver. apply H2. unfold news. naive_solver.
  - intros fd' m' pfd'. cbn. rewrite elem_of_app, list_elem_of_singleton. intros [Ha|[= -> -> ->]].
    + destruct (H3 _ _ _ Ha) as (id & mine' & Hm1 & Hm2 & Hm3 & Hm4 & Hm5). exists id, mine'.
      assert (fd' <> fd) by (intros ->; congruence). destruct (Hold mine') as (Hx1 & Hx2 & _); [left; apply elem_of_pipe_fds; by eexists|].
      destruct (Hold pfd' (or_intror Hm2)) as (Hy1 & Hy2 & _). rewrite !lookup_insert_ne by done. split; [done|].
      rewrite !elem_of_app, !list_elem_of_singleton. naive_solver.
    + exists n, mine. rewrite !lookup_insert_eq. rewrite lookup_insert_ne, lookup_insert_eq by done. split; [done|].
      rewrite !elem_of_app, !list_elem_of_singleton. split; [by right|]. split; [|done].
      intros [Hc|Hc]; [|done]. destruct (Hold mine (or_intror Hc)) as (Hx1 & _). done.
  - intros x. cbn. rewrite map_app, elem_of_app. cbn. destruct (decide (x = fd)) as [->|]; [intros _; right; by left|].
    rewrite lookup_insert_ne by done. intros Hs. left. by apply H4.
  - intros x. cbn. rewrite Hin, elem_of_app, list_elem_of_singleton. intros [-> |Hx] [Hc|Hc].
    + by destruct (Hold mine (or_intror Hc)) as (Hx1 & _).
    + done.
    + by eapply H5.
    + subst x. by destruct (Hold its (or_introl Hx)) as (_ & Hx2 & _).
Qed.

Lemma open_null_step t0 p fd m : opened t0 p ->
  opened t0 (mk_pipes (p_table p) (p_actions p ++ [(fd, use_null_t m)]) (p_stdio p) (p_child p) (p_count p)).
Proof.
  intros [H1 H2 H3 H4 H5]. split; [done|done| | |done]; cbn.
  - intros fd' m' pfd. rewrite elem_of_app, list_elem_of_singleton. intros [Ha|[=]]. by apply H3.
  - intros x Hx. rewrite map_app, elem_of_app. left. by apply H4.
Qed.

Lemma open_pipes_ok t0 actions : forall p e p', opened t0 p -> NoDup (map fst (p_actions p) ++ map fst actions) -> open_pipes k actions p = (e, p') ->
  opened t0 p' /\ (e = None -> exists l, p_actions p' = p_actions p ++ l /\ Forall2 same_action l actions).
Proof.
  induction actions as [|[fd a] actions IH]; intros p e p' Ho Hnd He.
  - injection He as <- <-. split; [done|]. intros _. exists []. by rewrite app_nil_r.
  - cbn [map fst] in Hnd. rewrite cons_middle, app_assoc in Hnd.
    assert (Hfd : fd ∉ map fst (p_actions p)).
    { apply NoDup_app in Hnd as (Hnd & _ & _). apply NoDup_app in Hnd as (_ & Hnd & _). intros Hin. by apply (Hnd fd Hin), list_elem_of_singleton. }
    assert (Hgo : forall b q, opened t0 q -> p_actions q = p_actions p ++ [(fd, b)] -> same_action (fd, b) (fd, a) -> open_pipes k actions q = (e, p') ->
      opened t0 p' /\ (e = None -> exists l, p_actions p' = p_actions p ++ l /\ Forall2 same_action l ((fd, a) :: actions))).
    { intros b q Hq Hqa Hs Hr. destruct (IH q e p' Hq) as [H1 H2]; [by rewrite Hqa, map_app|done|]. split; [done|]. intros Hn.
      destruct (H2 Hn) as (l & Hl & Hf). exists ((fd, b) :: l). split; [by rewrite Hl, Hqa, <- app_assoc|by constructor]. }
    destruct a as [m|m pfd]; cbn [open_pipes] in He.
    + eapply (Hgo (use_null_t m)); [by apply open_null_step|done|done|done].
    + destruct (make_pipe k (p_count p) (p_table p)) as [er|[[rd wr] t]] eqn:Hp; [injection He as <- <-; done|].
      pose proof (open_pipe_step t0 p fd m (S (p_count p)) _ t rd wr Ho Hfd Hp) as Hq. destruct m; (eapply Hgo; [exact Hq|done|done|done]).
Qed.

Lemma opened_start t : opened t (mk_pipes t [] ∅ [] 0).
Proof.
  split; cbn; try done.
  - intros fd [(j & Hj)%elem_of_pipe_fds|Hfd]; [done|]. by apply elem_of_nil in Hfd.
  - intros fd m pfd Ha. by apply elem_of_nil in Ha.
  - intros fd [x Hx]. done.
  - intros fd (j & Hj)%elem_of_pipe_fds. done.
Qed.

(** Closing what was opened gives the table back. *)
Lemma close_opened t0 p (extra : list nat) (t : table) : opened t0 p -> (forall fd, fd ∉ extra -> t !! fd = p_table p !! fd) -> (forall fd, fd ∈ extra -> t0 !! fd = None) ->
  close_all (p_child p) (close_all (pipe_fds (p_stdio p)) (close_all extra t)) = t0.
Proof.
  intros Ho Ht He. apply map_eq. intros fd. rewrite !close_all_lookup. pose proof (op_new _ _ Ho fd) as Hn. pose proof (op_old _ _ Ho fd) as Hold. unfold news in *.
  repeat case_decide; symmetry; try (apply Hn; tauto); [by apply He|]. rewrite Ht by done. symmetry. apply Hold. tauto.
Qed.

Lemma close_all_comm l1 l2 t : close_all l1 (close_all l2 t) = close_all l2 (close_all l1 t).
Proof. apply map_eq. intros fd. rewrite !close_all_lookup. by repeat case_decide. Qed.

(** ** The streams of the child *)

Definition acted (a : stdio_action) (t : table) : option (file * bool) :=
  match a with
  | use_null_t m => Some (FNull (is_out m), false)
  | use_pipe_t _ pfd => match t !! pfd with Some (f, _) => Some (f, false) | None => None end
  end.

Definition usable (t : table) (x : nat * stdio_action) : Prop :=
  (x.1 < 3)%nat /\ match x.2 with use_pipe_t _ pfd => is_Some (t !! pfd) /\ (3 <= pfd)%nat | _ => True end.

Lemma handle_stdio_ok fd a t e t' e' : is_Some (t !! fd) -> usable t (fd, a) -> handle_stdio_action k fd a t e = (false, t', e') ->
  e' = e /\ forall x, t' !! x = if decide (x = fd) then acted a t else t !! x.
Proof.
  intros Hfd [Hlt Ha]. cbn [fst snd] in *. destruct a as [m|m pfd]; cbn [handle_stdio_action acted].
  - destruct (open_errno k fd); [done|]. pose proof (fresh_fd_free t) as Hn. assert (fresh_fd t <> fd) as Hne by (intros <-; rewrite Hn in Hfd; by destruct Hfd).
    revert Hn Hne. generalize (fresh_fd t). intros n Hn Hne.
    destruct (dup2_errno k fd); [done|]. intros [= <- <-]. split; [done|]. intros x. unfold dup2. rewrite (decide_False (P := n = fd)), lookup_insert_eq by done.
    rewrite lookup_delete, !lookup_insert. repeat case_decide; subst; try done.
  - destruct (dup2_errno k fd); [done|]. intros [= <- <-]. split; [done|]. intros x. unfold dup2. destruct Ha as [[[f b] Hf] Hge].
    rewrite (decide_False (P := pfd = fd)) by lia. rewrite Hf, lookup_insert. repeat case_decide; subst; done.
Qed.

Lemma stdio_loop_ok actions : forall t e t' e', NoDup (map fst actions) -> Forall (usable t) actions -> (forall fd, (fd < 3)%nat -> is_Some (t !! fd)) ->
  stdio_loop k actions t e = (false, t', e') ->
  e' = e /\ (forall fd, fd ∉ map fst actions -> t' !! fd = t !! fd) /\ (forall fd a, (fd, a) ∈ actions -> t' !! fd = acted a t).
Proof.
  induction actions as [|[fd a] actions IH]; intros t e t' e' Hnd Hu H3 Hl; cbn in Hl.
  - injection Hl as <- <-. split; [done|]. split; [done|]. intros fd a Ha. by apply elem_of_nil in Ha.
  - apply NoDup_cons in Hnd as [Hfd Hnd]. apply Forall_cons in Hu as [Hu1 Hu].
    destruct (handle_stdio_action k fd a t e) as [[[|] t1] e1] eqn:Hh; [done|].
    apply handle_stdio_ok in Hh as [-> Ht1]; [|by apply H3, Hu1|done].
    assert (Hact : forall x, usable t x -> acted x.2 t1 = acted x.2 t /\ usable t1 x).
    { intros [x b] [Hx Hb]; cbn in *. split; [|split; [done|]]; destruct b as [|m pfd]; cbn in *; try done; rewrite Ht1, decide_False by (destruct Hb; cbn in *; destruct Hu1; cbn in *; lia); done. }
    destruct (IH t1 e t' e' Hnd) as (-> & Hk & Ha); [| |done|].
    + eapply Forall_impl; [exact Hu|]. intros x Hx. by apply Hact.
    + intros x Hx. rewrite Ht1. case_decide; subst; [|by apply H3]. destruct Hu1 as [_ Hb]. destruct a; cbn in *; [done|]. destruct Hb as [[[f b] Hf] _]. by rewrite Hf.
    + split; [done|]. split.
      * intros x Hx. apply not_elem_of_cons in Hx as [Hx1 Hx2]. by rewrite Hk, Ht1, decide_False.
      * intros x b [[= -> ->]|Hin]%elem_of_cons; [by rewrite Hk, Ht1, decide_True|]. rewrite (Ha _ _ Hin).
        apply (Hact (x, b)). rewrite Forall_forall in Hu. by apply Hu.
Qed.

(** The other descriptors stay as they are, whatever becomes of the actions. *)
Lemma stdio_loop_keeps x actions : forall t e b t' e', (3 <= x)%nat -> is_Some (t !! x) -> Forall (fun fd => (fd < 3)%nat) (map fst actions) ->
  stdio_loop k actions t e = (b, t', e') -> t' !! x = t !! x.
Proof.
  induction actions as [|[fd a] actions IH]; intros t e b t' e' Hx Ht Hk Hl; cbn [stdio_loop] in Hl; [by injection Hl as <- <- <-|].
  apply Forall_cons in Hk as [Hfd Hk]. cbn in Hfd. destruct (handle_stdio_action k fd a t e) as [[b1 t1] e1] eqn:Hh.
  assert (t1 !! x = t !! x) as Ht1; [|destruct b1; [by injection Hl as <- <- <-|rewrite <- Ht1; eapply IH; [done|by rewrite Ht1|done|exact Hl]]].
  assert (forall old t0, dup2 old fd t0 !! x = t0 !! x) as Hdup.
  { intros old t0. unfold dup2. case_decide; [done|]. destruct (t0 !! old) as [[f c]|]; [|done]. rewrite lookup_insert_ne by lia. done. }
  unfold handle_stdio_action in Hh. destruct a as [m|m pfd]; [|destruct (dup2_errno k fd); injection Hh as <- <- <-; [done|by rewrite Hdup]].
  pose proof (fresh_fd_free t) as Hn. assert (fresh_fd t <> x) as Hne by (intros E; rewrite E in Hn; rewrite Hn in Ht; by destruct Ht).
  destruct (open_errno k fd), (dup2_errno k fd); injection Hh as <- <- <-; try done; rewrite lookup_delete_ne, ?Hdup, lookup_insert_ne by done; done.
Qed.

(** An error of a call is not 0. *)
Definition errors_ok : Prop := (forall fd, dup2_errno k fd <> Some 0) /\ (forall fd, open_errno k fd <> Some 0).

Lemma stdio_loop_errno actions : forall t e t' e', errors_ok -> stdio_loop k actions t e = (true, t', e') -> e' <> 0.
Proof.
  induction actions as [|[fd a] actions IH]; intros t e t' e' [Hd Ho] Hl; cbn [stdio_loop] in Hl; [done|].
  destruct (handle_stdio_action k fd a t e) as [[[|] t1] e1] eqn:Hh; [|by eapply IH]. injection Hl as <- <-.
  specialize (Hd fd). specialize (Ho fd). unfold handle_stdio_action in Hh.
  destruct a, (open_errno k fd), (dup2_errno k fd); simplify_eq; congruence.
Qed.

Lemma run_child_execed opts err err_fd t tc : errors_ok -> run_child k opts err err_fd t = Execed tc ->
  exists t' e, stdio_loop k (action_table_ opts) t (errno_at_clone k) = (false, t', e) /\ tc = exec_table t'.
Proof.
  intros Hok. unfold run_child, prepare_child, notify_child_error. destruct (stdio_loop _ _ _ _) as [[[|] t'] e] eqn:Hl.
  - destruct (Z.eqb_spec e 0) as [->|]; cbn; [by apply stdio_loop_errno in Hl|done].
  - assert (forall x, (match exec_errno k with Some e0 => x e0 | None => Execed (exec_table t') end) = Execed tc -> (forall e0, x e0 <> Execed tc) ->
      exists t'0 e0, (false, t', e) = (false, t'0, e0) /\ tc = exec_table t'0) as Hx.
    { intros x Hx Hn. destruct (exec_errno k); [by apply Hn in Hx|]. injection Hx as <-. by exists t', e. }
    destruct (evil_pre_exec_callback_ opts) as [cb|]; [destruct (cb_return cb =? 0); cbn [negb]; [|destruct (default e (cb_errno cb) =? 0); [|done]]|];
      (intros H; eapply Hx; [exact H|done]).
Qed.

Lemma same_action_keys l l' : Forall2 same_action l l' -> map fst l = map fst l'.
Proof. induction 1 as [|x y l l' [H _] _ IH]; [done|]. cbn. by rewrite H, IH. Qed.

Lemma same_action_elem l l' fd a : Forall2 same_action l l' -> (fd, a) ∈ l' -> exists b, (fd, b) ∈ l /\ same_action (fd, b) (fd, a).
Proof.
  intros Hf Ha. apply list_elem_of_lookup in Ha as [i Hi]. destruct (Forall2_lookup_r _ _ _ _ _ Hf Hi) as ([x b] & Hx & Hs).
  pose proof Hs as [Hk _]. cbn in Hk. subst x. exists b. split; [by eapply list_elem_of_lookup_2|done].
Qed.

(** The steps of a construction that starts a child. *)
Lemma spawn_started argv opts t r t' c : options_ok opts -> construct k argv opts t = (r, t', Some c) -> exists p rd wr t2,
  opened t p /\ Forall2 same_action (p_actions p) (action_table_ opts) /\ make_pipe k (p_count p) (p_table p) = inr (rd, wr, t2) /\
  c = run_child k (mk_options (p_actions p) (evil_pre_exec_callback_ opts)) (p_count p) wr t2 /\
  r = read_child_error_pipe k c (mk_subprocess running (clone_pid k) (p_stdio p)) /\
  (forall s, r = Returns s -> t' = close_all (p_child p) (close_all [rd; wr] t2)).
Proof.
  intros [_ Hnd]. destruct argv as [|exe argv]; [done|]. cbn [construct]. unfold spawn.
  destruct (open_pipes k (action_table_ opts) (mk_pipes t [] ∅ [] 0)) as [e p] eqn:Hop.
  apply (open_pipes_ok t) in Hop as [Ho Ha]; [|apply opened_start|done].
  destruct e; [done|]. destruct (Ha eq_refl) as (l & Hl & Hf). cbn in Hl. subst l.
  destruct (make_pipe k (p_count p) (p_table p)) as [|[[rd wr] t2]] eqn:Hp; [done|]. destruct (clone_errno k); [done|].
  intros Hr. exists p, rd, wr, t2. split; [done|]. split; [done|]. split; [done|].
  destruct (read_child_error_pipe _ _ _) eqn:Hread; injection Hr as <- <- <-; (split; [done|]; split; [done|]; intros ? [=]; done).
Qed.

(** A child that runs its program, started by a parent whose three standard descriptors are
    open, has what was asked for: on a pipe, the other end of which is the one that the object
    has for this stream; on the null device; or inherited. It has no other
    descriptor than those its parent would have left to it. *)
Theorem child_streams argv opts t s t' tc : errors_ok -> options_ok opts -> (forall fd, (fd < 3)%nat -> is_Some (t !! fd)) ->
  construct k argv opts t = (Returns s, t', Some (Execed tc)) ->
  (forall fd m pfd, (fd, use_pipe_t m pfd) ∈ action_table_ opts -> exists id mine, stdio_pipes_ s !! fd = Some mine /\
    t' !! mine = Some (FPipe id (negb (is_out m)), true) /\ tc !! fd = Some (FPipe id (is_out m), false)) /\
  (forall fd m, (fd, use_null_t m) ∈ action_table_ opts -> tc !! fd = Some (FNull (is_out m), false)) /\
  (forall fd, fd ∉ map fst (action_table_ opts) -> tc !! fd = exec_table t !! fd).
Proof.
  intros Hk Hopts H3 Hc. destruct (spawn_started _ _ _ _ _ _ Hopts Hc) as (p & rd & wr & t2 & Ho & Hf & Hp & Hrun & Hread & Ht').
  specialize (Ht' s eq_refl). symmetry in Hrun. destruct (run_child_execed _ _ _ _ _ Hk Hrun) as (t3 & e & Hloop & ->).
  apply make_pipe_ok in Hp as (Hrd & Hwr & Hne & ->). destruct Hopts as [Hlt Hnd]. rewrite <- (same_action_keys _ _ Hf) in Hlt, Hnd.
  set (t2 := <[wr := _]> _) in *. assert (Ht2 : forall x y, p_table p !! x = Some y -> t2 !! x = Some y).
  { intros x y Hx. unfold t2. rewrite !lookup_insert_ne by congruence. done. }
  assert (Hold : forall fd, (fd < 3)%nat -> p_table p !! fd = t !! fd).
  { intros fd Hfd. destruct (decide (news p fd)) as [Hn|Hn]; [|by apply (op_old _ _ Ho)].
    destruct (op_new _ _ Ho fd Hn) as [Hnone _]. destruct (H3 fd Hfd) as [y Hy]. congruence. }
  assert (Hge : forall pfd, pfd ∈ p_child p -> (3 <= pfd)%nat).
  { intros pfd Hin. destruct (op_new _ _ Ho pfd (or_intror Hin)) as [Hnone _]. destruct (Nat.le_gt_cases 3 pfd) as [|Hl]; [done|].
    destruct (H3 pfd Hl) as [y Hy]. congruence. }
  apply stdio_loop_ok in Hloop as (-> & Hrest & Hacted); [|done| |].
  - assert (Hres : read_child_error_pipe k (Execed (exec_table t3)) (mk_subprocess running (clone_pid k) (p_stdio p)) = Returns (mk_subprocess running (clone_pid k) (p_stdio p))).
    { unfold read_child_error_pipe. by destruct (sys_retry _). }
    rewrite Hres in Hread. injection Hread as ->. cbn [stdio_pipes_ action_table_] in *. split; [|split].
    + intros fd m pfd Ha. destruct (same_action_elem _ _ _ _ Hf Ha) as ([m'|m' pfd'] & Hin & [_ Hs]); cbn in Hs; [done|]. subst m'.
      destruct (op_ends _ _ Ho _ _ _ Hin) as (id & mine & Hm1 & Hm2 & Hm3 & Hm4 & Hm5). exists id, mine. split; [done|]. split.
      * rewrite Ht', !close_all_lookup, decide_False by done. rewrite decide_False; [by apply Ht2|].
        rewrite elem_of_cons, list_elem_of_singleton. intros [-> | ->]; congruence.
      * rewrite exec_table_lookup, (Hacted _ _ Hin). cbn. by rewrite (Ht2 _ _ Hm5).
    + intros fd m Ha. destruct (same_action_elem _ _ _ _ Hf Ha) as ([m'|m' pfd'] & Hin & [_ Hs]); cbn in Hs; [|done]. subst m'.
      by rewrite exec_table_lookup, (Hacted _ _ Hin).
    + intros fd Hfd. rewrite <- (same_action_keys _ _ Hf) in Hfd. rewrite !exec_table_lookup, (Hrest _ Hfd). unfold t2. rewrite !lookup_insert.
      case_decide; [subst fd; destruct (decide (news p wr)) as [Hn|Hn]; [by destruct (op_new _ _ Ho wr Hn) as [-> _]|by rewrite <- (op_old _ _ Ho wr Hn), Hwr]|].
      case_decide; [subst fd; destruct (decide (news p rd)) as [Hn|Hn]; [by destruct (op_new _ _ Ho rd Hn) as [-> _]|by rewrite <- (op_old _ _ Ho rd Hn), Hrd]|].
      destruct (decide (news p fd)) as [Hn|Hn]; [|by rewrite (op_old _ _ Ho fd Hn)].
      destruct (op_new _ _ Ho fd Hn) as (-> & f & ->). done.
  - apply Forall_forall. intros [fd a] Hin. split; cbn.
    + rewrite Forall_forall in Hlt. apply Hlt, list_elem_of_fmap. by exists (fd, a).
    + destruct a as [m|m pfd]; [done|]. destruct (op_ends _ _ Ho _ _ _ Hin) as (id & mine & _ & Hm2 & _ & _ & Hm5). split; [by rewrite (Ht2 _ _ Hm5)|by apply Hge].
  - intros fd Hfd. destruct (H3 fd Hfd) as [y Hy]. rewrite (Ht2 fd y); [done|]. by rewrite Hold.
Qed.

(** No descriptor is leaked: a constructor that throws leaves the table of the
    parent as it was; one that returns adds to it the ends of the pipes of the object
    and nothing else, all of them closed in programs that are started later, and the
    destructor takes them away again. *)
Theorem parent_descriptors argv opts t r t' c : options_ok opts -> construct k argv opts t = (r, t', c) ->
  match r with
  | Returns s =>
      (forall fd, fd ∉ pipe_fds (stdio_pipes_ s) -> t' !! fd = t !! fd) /\
      (forall fd, fd ∈ pipe_fds (stdio_pipes_ s) -> t !! fd = None /\ exists f, t' !! fd = Some (f, true)) /\
      (forall st pid, st <> running -> destroy (mk_subprocess st pid (stdio_pipes_ s)) t' = Some t)
  | Terminate => True
  | _ => t' = t
  end.
Proof.
  intros Hopts Hc. destruct argv as [|exe argv]; [by injection Hc as <- <- <-|]. cbn [construct] in Hc. unfold spawn in Hc.
  destruct (open_pipes k (action_table_ opts) (mk_pipes t [] ∅ [] 0)) as [e p] eqn:Hop.
  apply (open_pipes_ok t) in Hop as [Ho _]; [|apply opened_start|by apply Hopts].
  assert (Hnone : close_all (p_child p) (close_all (pipe_fds (p_stdio p)) (p_table p)) = t).
  { apply (close_opened t p [] (p_table p) Ho); [done|]. intros fd Hfd. by apply elem_of_nil in Hfd. }
  destruct e as [e|]; [by injection Hc as <- <- <-|].
  destruct (make_pipe k (p_count p) (p_table p)) as [e|[[rd wr] t2]] eqn:Hp; [by injection Hc as <- <- <-|].
  apply make_pipe_ok in Hp as (Hrd & Hwr & Hne & ->). set (t2 := <[wr := _]> _) in *.
  assert (Hold : forall fd, fd ∉ [rd; wr] -> t2 !! fd = p_table p !! fd).
  { intros fd Hfd. rewrite elem_of_cons, list_elem_of_singleton in Hfd. unfold t2. rewrite !lookup_insert_ne by naive_solver. done. }
  assert (Hfree : forall fd, p_table p !! fd = None -> t !! fd = None).
  { intros fd Hfd. destruct (decide (news p fd)) as [Hn|Hn]; [by destruct (op_new _ _ Ho fd Hn)|by rewrite <- (op_old _ _ Ho fd Hn)]. }
  assert (Hextra : forall fd, fd ∈ [rd; wr] -> t !! fd = None /\ p_table p !! fd = None).
  { intros fd Hfd. rewrite elem_of_cons, list_elem_of_singleton in Hfd. destruct Hfd as [-> | ->]; split; try done; by apply Hfree. }
  assert (Hall : close_all (p_child p) (close_all (pipe_fds (p_stdio p)) (close_all [rd; wr] t2)) = t).
  { apply close_opened; [done..|]. intros fd Hfd. by apply Hextra. }
  destruct (clone_errno k); [by injection Hc as <- <- <-|].
  assert (Hall' : close_all (pipe_fds (p_stdio p)) (close_all (p_child p) (close_all [rd; wr] t2)) = t) by by rewrite close_all_comm.
  set (child := run_child _ _ _ _ _) in Hc. destruct (read_child_error_pipe k child _) as [s| | | | |] eqn:Hread; injection Hc as <- <- _; try done.
  assert (stdio_pipes_ s = p_stdio p) as ->.
  { unfold read_child_error_pipe in Hread. destruct (sys_retry _), child as [|code ev [|]]; try (by injection Hread as <-).
    unfold wait in Hread. cbn in Hread. destruct (sys_retry (wait_errors k)); [done|]. by destruct (process_exit_code_make (wait_status k)). }
  split; [|split].
  - intros fd Hfd. rewrite <- Hall'. rewrite (close_all_lookup (pipe_fds _)). by rewrite decide_False.
  - intros fd Hfd. destruct (op_new _ _ Ho fd (or_introl Hfd)) as [Hn [f Hf]]. split; [done|]. exists f.
    change (delete rd (delete wr t2)) with (close_all [rd; wr] t2). rewrite !close_all_lookup, decide_False by by apply (op_apart _ _ Ho). rewrite decide_False, Hold; [done| |]; intros Hin; destruct (Hextra fd Hin); congruence.
  - intros st pid Hst. unfold destroy, waitable. cbn. destruct st; try done; (f_equal; exact Hall').
Qed.

(** Signals that interrupt the calls are not seen, and the constructor tells what became of the
    child: it returns an object that can be waited for when the program runs, and
    throws what the child reported, having waited for it, when not. *)
Theorem spawn_reports argv opts t r t' c : options_ok opts -> (forall fd, (fd < 3)%nat -> is_Some (t !! fd)) ->
  sys_retry (write_errors k) = None -> sys_retry (read_errors k) = None -> sys_retry (wait_errors k) = None ->
  process_exit_code_make (wait_status k) <> None -> construct k argv opts t = (r, t', Some c) ->
  match c with
  | Execed _ => exists s, r = Returns s /\ waitable s = true /\ pid_ s = clone_pid k
  | Died code errno_value _ => r = SpawnError code errno_value
  end.
Proof.
  intros Ho H3 Hw Hr Hwt Hs Hc. destruct (spawn_started _ _ _ _ _ _ Ho Hc) as (p & rd & wr & t2 & Hop & Hf & Hp & Hrun & Hread & _).
  destruct c as [tc|code ev rep].
  - unfold read_child_error_pipe in Hread. rewrite Hr in Hread. subst r. by eexists.
  - assert (rep = true) as ->.
    { apply make_pipe_ok in Hp as (_ & Hwr & _ & ->). set (t2 := <[wr := _]> _) in *.
      assert (3 <= wr)%nat as Hge.
      { destruct (Nat.le_gt_cases 3 wr) as [|Hl]; [done|]. destruct (H3 wr Hl) as [y Hy]. destruct (decide (news p wr)) as [Hn|Hn].
        - destruct (op_new _ _ Hop wr Hn) as [Hnone _]. congruence.
        - pose proof (op_old _ _ Hop wr Hn). congruence. }
      assert (t2 !! wr = Some (FPipe (p_count p) true, true)) as Ht2 by apply lookup_insert_eq.
      assert (forall b t3 e3, stdio_loop k (p_actions p) t2 (errno_at_clone k) = (b, t3, e3) -> is_err_pipe (p_count p) wr t3 = true) as Hpipe.
      { intros b t3 e3 Hl. apply (stdio_loop_keeps wr) in Hl; [|done|by eexists|rewrite (same_action_keys _ _ Hf); apply Ho].
        unfold is_err_pipe. rewrite Hl, Ht2. apply Nat.eqb_refl. }
      revert Hrun. unfold run_child, prepare_child, notify_child_error. rewrite Hw. cbn [action_table_ evil_pre_exec_callback_].
      destruct (stdio_loop k (p_actions p) t2 (errno_at_clone k)) as [[b t3] e3] eqn:Hl. specialize (Hpipe _ _ _ eq_refl). rewrite <- Hpipe.
      destruct b; [|destruct (evil_pre_exec_callback_ opts) as [cb|]; [destruct (negb (cb_return cb =? 0))|]]; (destruct (negb _); [congruence|]; destruct (exec_errno k); congruence). }
    unfold read_child_error_pipe in Hread. rewrite Hr in Hread. unfold wait in Hread. cbn in Hread. rewrite Hwt in Hread.
    by destruct (process_exit_code_make _).
Qed.

(** A child is waited for once: [wait] leaves an object that has no child, cannot be waited
    for and can be destroyed, whereas one with a running child must be neither destroyed nor assigned to. *)
Theorem wait_once s r s' t : waitable s = true -> wait k s = (r, s') -> r <> Terminate ->
  waitable s' = false /\ pid_ s' = -1 /\ wait k s' = (InvalidArgument, s') /\ destroy s' t <> None /\
  destroy s t = None /\ (forall rhs, move_assign s rhs t = None).
Proof.
  intros Hs. unfold wait at 1. rewrite Hs. cbn [negb]. destruct (sys_retry _); [by intros [= <- <-]|].
  intros Hw _. assert (s' = mk_subprocess exited_state (-1) (stdio_pipes_ s)) as -> by (destruct (process_exit_code_make _); by injection Hw).
  unfold destroy, move_assign. rewrite Hs. done.
Qed.

(** A callback that fails as its interface says, by returning an error number, but leaves
    [errno] at 0, is taken for one that succeeded: the program is run. *)
Theorem callback_failure_ignored rc err err_fd t : errno_at_clone k = 0 ->
  run_child k (set_evil_pre_exec_callback {| cb_return := rc; cb_errno := None |} make_options) err err_fd t = run_child k make_options err err_fd t.
Proof. intros H. unfold run_child. cbn. rewrite H. by destruct (negb _). Qed.
End Proofs.

(** ** Exit codes *)

#[local] Instance reason_eq_dec : EqDecision reason.
Proof. solve_decision. Defined.

#[local] Instance code_eq_dec : EqDecision process_exit_code.
Proof. solve_decision. Defined.

Lemma seq_check (P : Z -> Prop) `{!forall c, Decision (P c)} lo n : forallb (fun c => bool_decide (P c)) (seqZ lo n) = true -> forall c, lo <= c < lo + n -> P c.
Proof.
  intros Hf c Hc. rewrite forallb_forall in Hf. apply (bool_decide_eq_true_1 (P c)), Hf, list_elem_of_In, elem_of_seqZ. lia.
Qed.

(** The codes of the platform are read back: of a program that exited, its status, and of
    one that was killed, the signal, with or without a core; the status of a program that is stopped is refused. *)
Theorem exit_codes :
  (forall c, 0 <= c < 256 -> process_exit_code_make (c * 256) = Some (mk_code (c * 256)) /\ cause (mk_code (c * 256)) = Some (exited, c)) /\
  (forall sig core, 1 <= sig < 127 -> 0 <= core < 2 ->
    process_exit_code_make (sig + 128 * core) = Some (mk_code (sig + 128 * core)) /\ cause (mk_code (sig + 128 * core)) = Some (killed, sig)) /\
  (forall sig, 0 <= sig < 256 -> process_exit_code_make (sig * 256 + 127) = None).
Proof.
  split; [|split].
  - apply (seq_check (fun c => process_exit_code_make (c * 256) = Some (mk_code (c * 256)) /\ cause (mk_code (c * 256)) = Some (exited, c)) 0 256). by vm_compute.
  - intros sig core Hsig Hcore. revert sig Hsig.
    apply (seq_check (fun sig => process_exit_code_make (sig + 128 * core) = Some (mk_code (sig + 128 * core)) /\ cause (mk_code (sig + 128 * core)) = Some (killed, sig)) 1 126).
    assert (core = 0 \/ core = 1) as [-> | ->] by lia; by vm_compute.
  - apply (seq_check (fun sig => process_exit_code_make (sig * 256 + 127) = None) 0 256). by vm_compute.
Qed.

(** What the setters build has each stream once, whatever their order. *)
Theorem setters_ok (l : list (nat * tag)) : Forall (fun x => (x.1 < 3)%nat) l ->
  options_ok (foldr (fun x o => match x.1 with 0%nat => set_stdin x.2 o | 1%nat => set_stdout x.2 o | _ => set_stderr x.2 o end) make_options l).
Proof.
  intros Hl. assert (forall o, StronglySorted lt (map fst (action_table_ o)) -> NoDup (map fst (action_table_ o))) as Hnd.
  { intros o. generalize (map fst (action_table_ o)). induction 1 as [|x m _ IH Hx]; constructor; [|done].
    intros Hin. rewrite Forall_forall in Hx. specialize (Hx x Hin). lia. }
  assert (forall o fd a, (fd < 3)%nat -> Forall (fun fd => (fd < 3)%nat) (map fst (action_table_ o)) /\ StronglySorted lt (map fst (action_table_ o)) ->
    Forall (fun fd => (fd < 3)%nat) (map fst (set_action fd a (action_table_ o))) /\ StronglySorted lt (map fst (set_action fd a (action_table_ o)))) as Hset.
  { intros o fd a Hfd [H1 H2]. destruct (set_action_sorted fd a _ H2) as [H3 H4]. split; [|done]. rewrite Forall_forall in *. intros x [-> |Hx]%H4; [done|by apply H1]. }
  assert (forall o, Forall (fun fd => (fd < 3)%nat) (map fst (action_table_ o)) /\ StronglySorted lt (map fst (action_table_ o)) -> options_ok o) as Hok.
  { intros o [H1 H2]. split; [done|by apply Hnd]. }
  apply Hok. induction Hl as [|[x t] l Hx Hl IH]; cbn [foldr fst]; [split; constructor|].
  destruct x as [|[|x]]; apply Hset; (lia || done).
Qed.

(** ** Instances *)

(** A parent with its standard streams, one descriptor that it keeps to itself and one that
    it does not; a kernel in which everything succeeds after a signal or two. *)
Definition parent : table := list_to_map [(0, (FOther 0, false)); (1, (FOther 1, false)); (2, (FOther 2, false)); (3, (FOther 3, true)); (5, (FOther 5, false))]%nat.

Definition fine : kernel := {|
  pipe2_errno _ := None; clone_errno := None; clone_pid := 100; errno_at_clone := 0; dup2_errno _ := None; open_errno _ := None;
  exec_errno := None; write_errors := [EINTR]; read_errors := [EINTR; EINTR]; wait_errors := [EINTR]; wait_status := 3 * 256
|}.

Definition no_program : kernel := {|
  pipe2_errno _ := None; clone_errno := None; clone_pid := 100; errno_at_clone := 0; dup2_errno _ := None; open_errno _ := None;
  exec_errno := Some 2; write_errors := [EINTR]; read_errors := [EINTR; EINTR]; wait_errors := [EINTR]; wait_status := 3 * 256
|}.

Definition wanted : options := set_stderr use_null (set_stdin use_pipe make_options).

Definition ls : list str := [lit "/bin/ls"].

Lemma wanted_ok : options_ok wanted.
Proof. split; [repeat constructor|cbn; apply (bool_decide_unpack _); by vm_compute]. Qed.

Definition made : subprocess := mk_subprocess running 100 {[ 0%nat := 6%nat ]}.

Definition the_child : table := match construct fine ls wanted parent with (_, _, Some (Execed t)) => t | _ => ∅ end.

Lemma parent_streams fd : (fd < 3)%nat -> is_Some (parent !! fd).
Proof. intros Hfd. destruct fd as [|[|[|fd]]]; [exists (FOther 0, false)|exists (FOther 1, false)|exists (FOther 2, false)|lia]; by vm_compute. Qed.

Theorem child_streams_witness : exists id mine, stdio_pipes_ made !! 0%nat = Some mine /\ the_child !! 0%nat = Some (FPipe id false, false).
Proof.
  destruct (child_streams fine ls wanted parent made (construct fine ls wanted parent).1.2 the_child) as (H & _); [by split|exact wanted_ok|exact parent_streams|by vm_compute|].
  destruct (H 0%nat min 0%nat) as (id & mine & H1 & _ & H2); [by left|]. exists id, mine. split; [exact H1|exact H2].
Defined.

Theorem parent_descriptors_witness : (construct no_program ls wanted parent).1.2 = parent.
Proof.
  pose proof (parent_descriptors no_program ls wanted parent (construct no_program ls wanted parent).1.1 (construct no_program ls wanted parent).1.2
    (construct no_program ls wanted parent).2 wanted_ok ltac:(by destruct (construct no_program ls wanted parent) as [[? ?] ?])) as H.
  assert ((construct no_program ls wanted parent).1.1 = SpawnError exec_call_failure 2) as E by by vm_compute. rewrite E in H. exact H.
Defined.

Theorem spawn_reports_witness : (construct no_program ls wanted parent).1.1 = SpawnError exec_call_failure 2.
Proof.
  apply (spawn_reports no_program ls wanted parent _ (construct no_program ls wanted parent).1.2 (Died exec_call_failure 2 true) wanted_ok parent_streams); by vm_compute.
Defined.

Theorem wait_once_witness : (wait fine (wait fine made).2).1 = InvalidArgument.
Proof.
  destruct (wait_once fine made (Returns (mk_code (3 * 256))) (wait fine made).2 parent) as (_ & _ & -> & _); [by vm_compute..|done].
Defined.

Theorem callback_failure_ignored_witness :
  run_child fine (set_evil_pre_exec_callback {| cb_return := 1; cb_errno := None |} make_options) 0 4 parent = Execed (exec_table parent).
Proof. rewrite callback_failure_ignored by reflexivity. by vm_compute. Defined.

Theorem setters_ok_witness : options_ok (set_stdout use_pipe (set_stdin use_null (set_stdout use_null make_options))).
Proof. apply (setters_ok [(1, use_pipe); (0, use_null); (1, use_null)]%nat). repeat constructor. Defined.

(** A parent without a standard input gives its child none: the pipe gets the number 0
    itself, so that [dup2] changes nothing and the end is closed when the program starts. *)
Theorem closed_stdin_lost :
  match construct fine ls (set_stdin use_pipe make_options) (delete 0%nat parent) with
  | (Returns s, t, Some (Execed tc)) => stdio_pipes_ s !! 0%nat = Some 4%nat /\ t !! 4%nat = Some (FPipe 0 true, true) /\ tc !! 0%nat = None
  | _ => False
  end.
Proof. by vm_compute. Qed.

(** A parent without standard input and output can lose the report: the error pipe gets their
    numbers, an action puts the null device over its end, and a program that cannot be
    started gives an object that looks as if it were running. *)
Theorem closed_streams_unreported :
  match construct no_program ls (set_stdout use_null make_options) (delete 0%nat (delete 1%nat parent)) with
  | (Returns s, _, Some (Died code errno_value reported)) => waitable s = true /\ code = exec_call_failure /\ errno_value = 2 /\ reported = false
  | _ => False
  end.
Proof. by vm_compute. Qed.
