(* ===== verification/ActiveThread.v ===== *)
(** * The active thread

    Models ActiveThread/src/active_thread.cpp: one thread that runs the tasks of a blocking
    queue, until the task that the destructor posts.  The queue is that of Containers: what
    its operations do under their mutex is one step here. *)

From S2P Require Import Prelude Monitor Containers.

#[local] Open Scope Z_scope.

(** The task of the destructor, and the tasks of the clients. *)
Inductive task := QuitTask | Task (id : nat).

(** Where the thread is in [Run]: before the test of [done_], before [Dequeue], in a task
    that has yet to post others, or at the end. *)
Inductive worker_at := Testing | Dequeueing | Running (t : task) (posts : list nat) | Ended.

(** [destroyed]: the destructor has begun.  For the statements: the tasks that were posted, and
    those that were started. *)
Record active := mk_active {
  task_queue_ : BlockingQueue.state (T := task);
  done_ : bool;
  worker : worker_at;
  destroyed : bool;
  posted : list task;
  started : list task
}.

Definition make : active := mk_active BlockingQueue.make false Testing false [] [].

Definition set_queue q a := mk_active q (done_ a) (worker a) (destroyed a) (posted a) (started a).
Definition set_worker w a := mk_active (task_queue_ a) (done_ a) w (destroyed a) (posted a) (started a).
Definition set_done a := mk_active (task_queue_ a) true (worker a) (destroyed a) (posted a) (started a).
Definition set_destroyed a := mk_active (task_queue_ a) (done_ a) (worker a) true (posted a) (started a).
Definition add_posted t a := mk_active (task_queue_ a) (done_ a) (worker a) (destroyed a) (posted a ++ [t]) (started a).
Definition add_started t a := mk_active (task_queue_ a) (done_ a) (worker a) (destroyed a) (posted a) (started a ++ [t]).

Definition PostTask (t : task) (a : active) : active :=
  add_posted t (set_queue (BlockingQueue.Push t (task_queue_ a)).1.1 a).

(** The destructor up to [join]. *)
Definition destroy (a : active) : active :=
  set_destroyed (PostTask QuitTask a).

Section Run.
(** What a task posts to its own thread. *)
Context (posts_of : nat -> list nat).

(** One step of [Run]; [None]: it waits for a task, or has ended. *)
Definition Run (a : active) : option active :=
  match worker a with
  | Testing => Some (set_worker (if done_ a then Ended else Dequeueing) a)
  | Dequeueing =>
      if BlockingQueue.not_empty (task_queue_ a) then
        match BlockingQueue.Pop (task_queue_ a) with
        | (q, Ok (BlockingQueue.REle t), _) => 
            Some (set_worker (Running t (match t with QuitTask => [] | Task id => posts_of id end)) (add_started t (set_queue q a)))
        | _ => None
        end
      else None
  | Running t (id :: posts) => Some (set_worker (Running t posts) (PostTask (Task id) a))
  | Running QuitTask [] => Some (set_worker Testing (set_done a))
  | Running (Task _) [] => Some (set_worker Testing a)
  | Ended => None
  end.

(** The other threads post tasks, and one of them destroys the object, once. *)
Inductive step : active -> active -> Prop :=
| step_post a id : step a (PostTask (Task id) a)
| step_destroy a : destroyed a = false -> step a (destroy a)
| step_run a a' : Run a = Some a' -> step a a'.

Inductive reachable : active -> Prop :=
| reachable_make : reachable make
| reachable_step a a' : reachable a -> step a a' -> reachable a'.

Definition queue (a : active) : list task := BlockingQueue.queue_ (task_queue_ a).

(** How often the task of the destructor is in a list. *)
Fixpoint quits (l : list task) : nat := match l with [] => 0 | QuitTask :: l => S (quits l) | Task _ :: l => quits l end.

Lemma quits_app l l' : quits (l ++ l') = (quits l + quits l')%nat.
Proof. induction l as [|[|id] l IH]; cbn; [done|by rewrite IH|done]. Qed.

(** The thread has the task of the destructor behind it, or is in it. *)
Definition has_quit (a : active) : bool := done_ a || match worker a with Running QuitTask _ => true | _ => false end.

Record Inv (a : active) : Prop := {
  inv_order : posted a = started a ++ queue a;
  inv_quits : quits (posted a) = if destroyed a then 1%nat else 0%nat;
  inv_last : if has_quit a then exists l, started a = l ++ [QuitTask] else quits (started a) = 0%nat;
  inv_done : done_ a = true -> worker a = Testing \/ worker a = Ended;
  inv_ended : worker a = Ended -> done_ a = true;
  inv_quitting : forall posts, worker a = Running QuitTask posts -> posts = []
}.

Lemma inv_post a id : Inv a -> Inv (PostTask (Task id) a).
Proof.
  intros [H1 H2 H3 H4 H5 H6]. split; unfold queue, has_quit, PostTask, BlockingQueue.Push in *; cbn in *; try done.
  - by rewrite H1, app_assoc.
  - rewrite quits_app, H2. cbn. lia.
Qed.

Lemma active_step a a' : Inv a -> step a a' -> Inv a'.
Proof.
  intros Hinv Hs. destruct Hs as [a id|a Hd|a a' Hr]; [by apply inv_post| |].
  - destruct Hinv as [H1 H2 H3 H4 H5 H6]. split; unfold queue, has_quit, destroy, PostTask, BlockingQueue.Push in *; cbn in *; try done.
    + by rewrite H1, app_assoc.
    + rewrite quits_app, H2, Hd. done.
  - unfold Run in Hr. destruct (worker a) as [| |[|id] [|p posts]|] eqn:Hw; try done.
    + injection Hr as <-. destruct Hinv as [H1 H2 H3 H4 H5 H6]. unfold has_quit in *. rewrite Hw in *.
      destruct (done_ a) eqn:Hd; (split; unfold has_quit; cbn; rewrite ?Hd; try done). by right.
    + destruct Hinv as [H1 H2 H3 H4 H5 H6]. unfold BlockingQueue.not_empty, BlockingQueue.Pop in Hr.
      destruct (BlockingQueue.queue_ (task_queue_ a)) as [|t q] eqn:Hq; [done|]. injection Hr as <-.
      assert (Hd : done_ a = false) by (destruct (done_ a) eqn:E; [destruct (H4 eq_refl); congruence|done]).
      unfold queue, has_quit in *. rewrite Hd, Hw, Hq in *. cbn in *.
      split; unfold has_quit; cbn; rewrite ?Hd; cbn; try done.
      * by rewrite H1, <- app_assoc.
      * destruct t; [by eexists|]. by rewrite quits_app, H3.
      * intros posts [= -> <-]. done.
    + injection Hr as <-. destruct Hinv as [H1 H2 H3 H4 H5 H6]. unfold has_quit in *. rewrite Hw in *. rewrite orb_true_r in H3.
      split; unfold has_quit; cbn; try done. by left.
    + by pose proof (inv_quitting a Hinv _ Hw).
    + injection Hr as <-. destruct Hinv as [H1 H2 H3 H4 H5 H6]. unfold has_quit in *. rewrite Hw in *. rewrite orb_false_r in H3.
      split; unfold has_quit; cbn; rewrite ?orb_false_r; try done. by left.
    + injection Hr as <-. apply (inv_post a p) in Hinv as [H1 H2 H3 H4 H5 H6]. unfold has_quit in *. cbn in *. rewrite Hw in *. split; unfold has_quit; cbn; try done.
      intros Hd. by destruct (H4 Hd).
Qed.

Lemma active_inv a : reachable a -> Inv a.
Proof. induction 1 as [|a a' _ IH Hs]; [by split|by eapply active_step]. Qed.

(** Whoever posts, and whenever the object is destroyed: the thread starts the tasks one by
    one in the order in which they were posted; no task is started behind that
    of the destructor, and when the thread has ended, so that the destructor
    returns, every task posted before the destructor was run and none behind. *)
Theorem active_thread_order a : reachable a ->
  posted a = started a ++ queue a /\
  (destroyed a = false -> quits (posted a) = 0%nat /\ worker a <> Ended) /\
  (worker a = Ended -> exists before, started a = before ++ [QuitTask] /\ posted a = before ++ [QuitTask] ++ queue a /\ quits before = 0%nat).
Proof.
  intros [H1 H2 H3 H4 H5 H6]%active_inv. split; [done|]. rewrite H1, quits_app in H2. split.
  - intros Hd. rewrite H1, quits_app. rewrite Hd in H2. split; [done|]. intros Hw. unfold has_quit in H3. rewrite H5 in H3 by done.
    destruct H3 as [l Hl]. rewrite Hl, quits_app in H2. cbn in H2. lia.
  - intros Hw. unfold has_quit in H3. rewrite H5 in H3 by done. destruct H3 as [l Hl]. exists l. split; [done|]. split; [by rewrite H1, Hl, <- app_assoc|].
    rewrite Hl, quits_app in H2. cbn in H2. destruct (destroyed a); lia.
Qed.

(** The steps of the thread for the tasks up to that of the destructor. *)
Fixpoint cost (q : list task) : nat :=
  match q with [] => 0 | QuitTask :: _ => 3 | Task id :: q => 3 + length (posts_of id) + cost q end.

Definition left (a : active) : nat :=
  match worker a with
  | Testing => if done_ a then 1 else S (cost (queue a))
  | Dequeueing => cost (queue a)
  | Running QuitTask posts => length posts + 2
  | Running (Task _) posts => length posts + 2 + cost (queue a)
  | Ended => 0
  end.

Lemma cost_app q l : quits q <> 0%nat -> cost (q ++ l) = cost q.
Proof. induction q as [|[|id] q IH]; cbn; [done|done|]. intros Hq. by rewrite IH. Qed.

Lemma quit_waits a : Inv a -> destroyed a = true -> has_quit a = false -> quits (queue a) <> 0%nat.
Proof. intros [H1 H2 H3 _ _ _] Hd Hq. rewrite H1, quits_app, Hd in H2. rewrite Hq in H3. lia. Qed.

(** The destructor returns: once it has begun, the thread is never stuck and ends
    after a number of its own steps that is fixed then, however many tasks others, or the tasks
    themselves, still post. *)
Theorem active_thread_joins a : reachable a -> destroyed a = true ->
  (worker a = Ended \/ exists a', Run a = Some a' /\ destroyed a' = true /\ left a = S (left a')) /\
  (forall id, left (PostTask (Task id) a) = left a).
Proof.
  intros Hinv%active_inv Hd.
  assert (Hpost : forall id w, w = worker a -> has_quit a = false -> cost (queue a ++ [Task id]) = cost (queue a)).
  { intros id w _ Hq. apply cost_app. by apply quit_waits. }
  pose proof (quit_waits a Hinv Hd) as Hwait. destruct Hinv as [H1 H2 H3 H4 H5 H6]. unfold has_quit in *.
  split.
  - destruct (worker a) as [| |t posts|] eqn:Hw; [| | |by left]; right.
    + eexists. unfold Run, left. rewrite Hw. split; [done|]. split; [done|]. cbn. by destruct (done_ a).
    + assert (Hdn : done_ a = false) by (destruct (done_ a); [by destruct H4|done]). rewrite Hdn in Hwait. specialize (Hwait eq_refl).
      unfold Run, left, BlockingQueue.not_empty, BlockingQueue.Pop, queue in *. rewrite Hw. destruct (BlockingQueue.queue_ (task_queue_ a)) as [|t q] eqn:Hq; [done|].
      eexists. split; [done|]. split; [done|]. cbn. destruct t; [done|]. cbn. lia.
    + unfold Run, left. rewrite Hw. destruct t as [|id].
      * rewrite (H6 _ eq_refl). eexists. split; [done|]. split; [done|]. done.
      * destruct posts as [|p posts]; (eexists; split; [done|]; split; [done|]); cbn.
        -- destruct (done_ a); [by destruct H4|done].
        -- assert (Hdn : done_ a = false) by (destruct (done_ a); [by destruct H4|done]).
           unfold queue, BlockingQueue.Push in *. cbn. rewrite (Hpost p (Running (Task id) (p :: posts))) by (try done; by rewrite Hdn). lia.
  - intros id. unfold left, queue, PostTask, BlockingQueue.Push in *. cbn. destruct (worker a) as [| |[|t] posts|] eqn:Hw; try done.
    + destruct (done_ a); [done|]. by rewrite (Hpost id Testing).
    + assert (Hdn : done_ a = false) by (destruct (done_ a); [by destruct H4|done]). by rewrite (Hpost id Dequeueing) by (try done; by rewrite Hdn).
    + assert (Hdn : done_ a = false) by (destruct (done_ a); [by destruct H4|done]). by rewrite (Hpost id (Running (Task t) posts)) by (try done; by rewrite Hdn).
Qed.
End Run.

(** ** A task that posts another, behind that of the destructor *)

Definition posts_two (id : nat) : list nat := match id with 1%nat => [2%nat] | _ => [] end.

Fixpoint run_for (n : nat) (a : active) : active :=
  match n with O => a | S n => match Run posts_two a with Some a => run_for n a | None => a end end.

Lemma run_for_reachable n : forall a, reachable posts_two a -> reachable posts_two (run_for n a).
Proof.
  induction n as [|n IH]; intros a Ha; cbn; [done|]. destruct (Run posts_two a) as [b|] eqn:Hb; [|done]. apply IH. eapply reachable_step; [done|by apply step_run].
Qed.

Definition closing : active := destroy (PostTask (Task 1) make).

Lemma closing_reachable : reachable posts_two closing.
Proof. eapply reachable_step; [eapply reachable_step; [apply reachable_make|apply step_post]|by apply step_destroy]. Qed.

Theorem active_thread_order_witness : exists before, started (run_for 8 closing) = before ++ [QuitTask] /\ queue (run_for 8 closing) = [Task 2].
Proof.
  destruct (active_thread_order posts_two (run_for 8 closing) (run_for_reachable 8 _ closing_reachable)) as (_ & _ & H).
  destruct (H eq_refl) as (before & Hb & _). by exists before.
Defined.

Theorem active_thread_joins_witness : left posts_two (PostTask (Task 5) closing) = left posts_two closing /\ left posts_two closing = 8%nat.
Proof. split; [apply (active_thread_joins posts_two closing closing_reachable eq_refl)|by vm_compute]. Defined.
