(* ===== verification/Observers.v ===== *)
(** * Observers

    Models Thread_Safe_Observer/src/observer_list.h: a list of weak pointers to observers.  An
    observer is known by its control block, which a weak pointer keeps from being used again;
    [owners] are the observers that are owned from outside of the list. *)

From stdpp Require Import gmap.
From S2P Require Import Prelude.

#[local] Open Scope Z_scope.

(** A [weak_ptr]; [None] is an empty one. *)
Notation weak_ptr := (option nat).

(** The vector; [version] counts the changes, each of which makes the iterators invalid. *)
Record observer_list := mk_list { list_ : list weak_ptr; version : nat }.

Definition make : observer_list := mk_list [] 0.

Definition changed (l : list weak_ptr) (o : observer_list) : observer_list := mk_list l (S (version o)).

(** The position of the first pointer to the same control block. *)
Definition Find (w : weak_ptr) (o : observer_list) : option nat := fst <$> list_find (fun p => p = w) (list_ o).

Definition Add (ndebug : bool) (w : weak_ptr) (o : observer_list) : outcome observer_list :=
  match Find w o with
  | Some _ => if ndebug then Ok (changed (list_ o ++ [w]) o) else Throw logic_error
  | None => Ok (changed (list_ o ++ [w]) o)
  end.

Definition Remove (w : weak_ptr) (o : observer_list) : observer_list :=
  match Find w o with Some i => changed (delete i (list_ o)) o | None => o end.

Definition expired (owners : gset nat) (w : weak_ptr) : bool := match w with Some id => negb (bool_decide (id ∈ owners)) | None => true end.

Definition Compact (owners : gset nat) (o : observer_list) : observer_list := changed (filter (fun w => expired owners w = false) (list_ o)) o.

(** [lock]; [held]: the observer that the loop has not let go yet. *)
Definition lock (owners : gset nat) (held : option nat) (w : weak_ptr) : option nat :=
  match w with Some id => if bool_decide (id ∈ owners) || bool_decide (held = Some id) then Some id else None | None => None end.

(** [Enumerator::Next]: the next observer that is alive and the pointers behind it. *)
Fixpoint Next (owners : gset nat) (held : option nat) (rest : list weak_ptr) : option (nat * list weak_ptr) :=
  match rest with
  | [] => None
  | w :: rest => match lock owners held w with Some id => Some (id, rest) | None => Next owners held rest end
  end.

(** What a call of an observer does: to the owners, and to the list. *)
Record reaction := { drops : gset nat -> gset nat; changes : observer_list -> observer_list }.

Section Notify.
Context (reacts : nat -> reaction).

(** The loop of [FOR_EACH_OBSERVER]: the owners, the list and the observers that were called. *)
Fixpoint notify_loop (fuel : nat) (owners : gset nat) (held : option nat) (rest : list weak_ptr) (o : observer_list) (called : list nat) : outcome (gset nat * observer_list * list nat) :=
  match fuel with
  | O => OutOfFuel
  | S fuel =>
      match Next owners held rest with
      | None => Ok (owners, o, called)
      | Some (id, rest) =>
          let r := reacts id in
          let o' := changes r o in
          assert (version o' =? version o)%nat;;
          notify_loop fuel (drops r owners) (Some id) rest o' (called ++ [id])
      end
  end.

Definition for_each (owners : gset nat) (o : observer_list) : outcome (gset nat * observer_list * list nat) :=
  '(owners, o, called) ← notify_loop (S (length (list_ o))) owners None (list_ o) o [];
  Ok (owners, Compact owners o, called).
End Notify.

(** ** The list *)

Lemma Find_spec w o : match Find w o with
  | Some i => list_ o !! i = Some w /\ w ∉ take i (list_ o)
  | None => w ∉ list_ o
  end.
Proof.
  unfold Find. destruct (list_find _ _) as [[i p]|] eqn:Hf; cbn.
  - apply list_find_Some in Hf as (Hi & -> & Hlt). split; [done|]. intros Hin. apply list_elem_of_lookup in Hin as [j Hj].
    apply lookup_take_Some in Hj as [Hj Hji]. by apply (Hlt j w).
  - apply list_find_None in Hf. intros Hin. rewrite Forall_forall in Hf. by apply (Hf w).
Qed.

Lemma filter_others (w : weak_ptr) (l : list weak_ptr) : w ∉ l -> filter (fun p => p <> w) l = l.
Proof.
  induction l as [|x l IH]; intros Hw; [done|]. apply not_elem_of_cons in Hw as [Hx Hw]. rewrite filter_cons_True by congruence. by rewrite IH.
Qed.

(** In a build with assertions the list never has an observer twice, whatever is
    added and removed: an addition of one that is there throws and changes nothing, a removal
    takes just that observer away, and the others keep their order. *)
Theorem observers_unique w o : NoDup (list_ o) ->
  (match Add false w o with
   | Ok o' => list_ o' = list_ o ++ [w] /\ NoDup (list_ o')
   | Throw e => e = logic_error /\ w ∈ list_ o
   | _ => False
   end) /\
  list_ (Remove w o) = filter (fun p => p <> w) (list_ o) /\ NoDup (list_ (Remove w o)) /\
  (forall owners, NoDup (list_ (Compact owners o))).
Proof.
  intros Hnd. pose proof (Find_spec w o) as Hf. split; [|split; [|split]].
  - unfold Add. destruct (Find w o) as [i|]; [split; [done|]; by eapply list_elem_of_lookup_2, Hf|]. cbn. split; [done|].
    apply NoDup_app. split; [done|]. split; [|apply NoDup_singleton]. intros x Hx Hw. apply list_elem_of_singleton in Hw as ->. done.
  - unfold Remove. destruct (Find w o) as [i|]; [|by rewrite filter_others].
    destruct Hf as [Hi Hni]. cbn. rewrite delete_take_drop. rewrite <- (take_drop_middle _ _ _ Hi) at 3.
    rewrite <- (take_drop_middle _ _ _ Hi) in Hnd. apply NoDup_app in Hnd as (_ & _ & Hnd). apply NoDup_cons in Hnd as [Hnw _].
    rewrite filter_app, filter_cons_False by naive_solver. by rewrite !filter_others.
  - unfold Remove. destruct (Find w o); [|done]. cbn. eapply sublist_NoDup; [done|]. apply sublist_delete.
  - intros owners. cbn. by apply NoDup_filter.
Qed.

(** ** Notifications *)

Section Loop.
Context (reacts : nat -> reaction).

Lemma Next_spec owners held rest : match Next owners held rest with
  | None => forall id, Some id ∈ rest -> id ∉ owners
  | Some (id, rest') => exists before, rest = before ++ Some id :: rest' /\ (id ∈ owners \/ held = Some id) /\ forall x, Some x ∈ before -> x ∉ owners
  end.
Proof.
  induction rest as [|w rest IH]; cbn; [intros id Hid; by apply elem_of_nil in Hid|].
  destruct (lock owners held w) as [id|] eqn:Hl.
  - exists []. destruct w as [x|]; [|done]. cbn in Hl. destruct (bool_decide (x ∈ owners)) eqn:Hb; cbn in Hl.
    + injection Hl as ->. apply bool_decide_eq_true in Hb. split; [done|]. split; [by left|]. intros y Hy. by apply elem_of_nil in Hy.
    + case_bool_decide; [|done]. injection Hl as ->. split; [done|]. split; [by right|]. intros y Hy. by apply elem_of_nil in Hy.
  - assert (Hw : forall x, w = Some x -> x ∉ owners) by (intros x ->; cbn in Hl; by case_bool_decide).
    destruct (Next owners held rest) as [[id rest']|].
    + destruct IH as (before & -> & Hid & Hb). exists (w :: before). split; [done|]. split; [done|]. intros x [Hx|Hx]%elem_of_cons; [by apply Hw|by apply Hb].
    + intros id [Hx|Hx]%elem_of_cons; [by apply Hw|by apply IH].
Qed.

Definition well_behaved : Prop := forall id, (forall o, changes (reacts id) o = o) /\ (forall owners, drops (reacts id) owners ⊆ owners).

Definition ids (l : list weak_ptr) : list nat := omap (fun w => w) l.

Lemma notify_loop_ok fuel : forall owners held rest o called, well_behaved -> (length rest < fuel)%nat ->
  exists owners' more, notify_loop reacts fuel owners held rest o called = Ok (owners', o, called ++ more) /\ owners' ⊆ owners /\
    more `sublist_of` ids rest /\ (forall id, id ∈ more -> id ∈ owners \/ held = Some id) /\ (forall id, Some id ∈ rest -> id ∈ owners' -> id ∈ more).
Proof.
  induction fuel as [|fuel IH]; intros owners held rest o called Hw Hf; [lia|]. cbn [notify_loop]. pose proof (Next_spec owners held rest) as Hn.
  destruct (Next owners held rest) as [[id rest']|].
  - destruct Hn as (before & -> & Hid & Hb). destruct (Hw id) as [Hc Hd]. rewrite Hc, Nat.eqb_refl. cbn [assert mbind outcome_bind].
    destruct (IH (drops (reacts id) owners) (Some id) rest' o (called ++ [id]) Hw) as (owners' & more & -> & Ho & Hs & Hm & Hr).
    { rewrite length_app in Hf. cbn in Hf. lia. }
    exists owners', (id :: more). rewrite <- app_assoc. split; [done|]. split; [by etrans|]. split; [|split].
    + unfold ids. rewrite omap_app. cbn. by apply sublist_inserts_l, sublist_skip.
    + intros x [-> |Hx]%elem_of_cons; [done|]. destruct (Hm x Hx) as [Hx'|[= ->]]; [left; by apply Hd|done].
    + intros x Hx Hxo. rewrite elem_of_app, elem_of_cons in Hx. apply elem_of_cons. destruct Hx as [Hx|[[= ->]|Hx]]; [|by left|right; by apply Hr].
      exfalso. apply (Hb x Hx). by apply Hd, Ho.
  - exists owners, []. rewrite app_nil_r. split; [done|]. split; [done|]. split; [apply sublist_nil_l|]. split.
    + intros id Hid. by apply elem_of_nil in Hid.
    + intros id Hid Ho. by destruct (Hn id Hid).
Qed.

(** As long as the observers leave the list alone and at most let go of observers, a
    notification ends, calls observers of the list in their order, only those that were alive
    when it began and all that are alive when it ends, and leaves exactly the latter in the list. *)
Theorem notification owners o : well_behaved -> exists owners' o' called, for_each reacts owners o = Ok (owners', o', called) /\
  owners' ⊆ owners /\ called `sublist_of` ids (list_ o) /\ (forall id, id ∈ called -> id ∈ owners) /\
  (forall id, Some id ∈ list_ o -> id ∈ owners' -> id ∈ called) /\
  (forall w, w ∈ list_ o' <-> w ∈ list_ o /\ exists id, w = Some id /\ id ∈ owners') /\ list_ o' `sublist_of` list_ o.
Proof.
  intros Hw. unfold for_each. destruct (notify_loop_ok (S (length (list_ o))) owners None (list_ o) o [] Hw) as (owners' & more & -> & Ho & Hs & Hm & Hr); [lia|].
  cbn [mbind outcome_bind app]. eexists _, _, _. split; [done|]. split; [done|]. split; [done|]. split; [intros id Hid; by destruct (Hm id Hid)|].
  split; [done|]. cbn. split; [|apply sublist_filter].
  intros w. rewrite list_elem_of_filter. unfold expired. destruct w as [id|]; [|naive_solver].
  rewrite negb_false_iff, bool_decide_eq_true. naive_solver.
Qed.

(** An observer that adds or removes an observer while it is called makes the iterators of the
    notification invalid: the next step of the loop is undefined. *)
Theorem reentrant_change owners o id rest : Next owners None (list_ o) = Some (id, rest) -> version (changes (reacts id) o) <> version o ->
  for_each reacts owners o = Undef.
Proof.
  intros Hn Hv. unfold for_each. cbn [notify_loop]. rewrite Hn. by rewrite (proj2 (Nat.eqb_neq _ _) Hv).
Qed.
End Loop.

(** ** Instances *)

Definition two : observer_list := mk_list [Some 1; None; Some 2; Some 3]%nat 0.

(** The first lets go of the third. *)
Definition letting_go (id : nat) : reaction := {| drops owners := if decide (id = 1)%nat then owners ∖ {[3%nat]} else owners; changes o := o |}.

Theorem notification_witness : exists owners' o' called, for_each letting_go {[1; 2; 3]}%nat two = Ok (owners', o', called) /\ called `sublist_of` [1; 2; 3]%nat.
Proof.
  destruct (notification letting_go {[1; 2; 3]}%nat two) as (owners' & o' & called & H & _ & Hs & _).
  - intros id. split; [done|]. intros owners. cbn. case_decide; set_solver.
  - by exists owners', o', called.
Defined.

(** An observer that removes itself. *)
Definition leaving (id : nat) : reaction := {| drops owners := owners; changes o := Remove (Some id) o |}.

Theorem reentrant_change_witness : for_each leaving {[1; 2; 3]}%nat two = Undef.
Proof. apply (reentrant_change leaving {[1; 2; 3]}%nat two 1 [None; Some 2; Some 3]%nat); by vm_compute. Defined.

Theorem observers_unique_witness : list_ (Remove (Some 2%nat) two) = [Some 1; None; Some 3]%nat.
Proof.
  destruct (observers_unique (Some 2%nat) two) as (_ & -> & _); [|by vm_compute]. apply (bool_decide_unpack _). by vm_compute.
Defined.

(** In a build without assertions an observer can be in the list twice; it is then called
    twice, and one removal leaves it there. *)
Theorem duplicate_observer :
  match Add true (Some 1%nat) make with
  | Ok o => match Add true (Some 1%nat) o with
            | Ok o => list_ (Remove (Some 1%nat) o) = [Some 1%nat] /\ (exists r, for_each letting_go {[1%nat]} o = Ok r /\ r.2 = [1; 1]%nat) /\
                Add false (Some 1%nat) (mk_list [Some 1%nat] 0) = Throw logic_error
            | _ => False
            end
  | _ => False
  end.
Proof. vm_compute. split; [done|]. split; [by eexists|done]. Qed.
