(* ===== verification/LaborMonitor.v ===== *)
(** * The labor monitor

    Models hey-i-am-still-working/himsw/labor_monitor.cpp: when the user has been idle for too
    long, and it is not the time of a break, the monitor presses a key from time to time, until
    it sees an input that is not its own.  What the system answers is in the arguments. *)

From S2P Require Import Prelude.

#[local] Open Scope Z_scope.

(** The hour and the minute of a [tm]. *)
Record tm := mk_tm { tm_hour : Z; tm_min : Z }.

Definition daytime_range : Type := tm * tm.

Definition VK_SCROLL : Z := 145.
Definition k_simulation_mask : Z := 3735928559.

(** Durations are seconds, points of time too. *)
Definition k_simul_interval : Z := 30.

Record monitor_config := mk_config { max_idle : Z; simulation_key : Z; break_ranges : list daytime_range }.

Inductive state := active | simulating.

(** [emitted], for the statements: when the key was pressed, the last time first. *)
Record labor_monitor := mk_monitor {
  state_ : state;
  breakoff_enabled_ : bool;
  last_simulation_ : Z;
  cfg_ : monitor_config;
  emitted : list Z
}.

Definition make (cfg : monitor_config) : labor_monitor := mk_monitor active false 0 cfg [].

Definition set_state st m := mk_monitor st (breakoff_enabled_ m) (last_simulation_ m) (cfg_ m) (emitted m).

Definition is_simulating (m : labor_monitor) : bool := match state_ m with simulating => true | active => false end.

Definition update_config cfg m := mk_monitor (state_ m) (breakoff_enabled_ m) (last_simulation_ m) cfg (emitted m).

Definition enable_breakoff (enable : bool) m := mk_monitor (state_ m) enable (last_simulation_ m) (cfg_ m) (emitted m).

(** ** Breaks *)

Definition compare (lhs rhs : tm) : Z :=
  if tm_hour lhs <? tm_hour rhs then -1
  else if tm_hour rhs <? tm_hour lhs then 1
  else tm_min lhs - tm_min rhs.

Definition in_range (now : tm) (r : daytime_range) : bool :=
  let (st, ed) := r in
  if compare st ed <=? 0 then (0 <=? compare now st) && (compare now ed <=? 0)
  else (0 <=? compare now st) || (compare now ed <=? 0).

Definition within_breakoff (now : tm) (m : labor_monitor) : bool :=
  breakoff_enabled_ m && existsb (in_range now) (break_ranges (cfg_ m)).

(** ** Ticks *)

(** What the system answers during a tick: the local time, the counter of milliseconds
    ([GetTickCount64]) and that of the last input ([dwTime], 32 bits wide; [None]: the call
    failed), the time, and how many inputs [SendInput] took. *)
Record answers := mk_answers { local_time : tm; cur_tick : Z; dw_time : option Z; now : Z; sent_cnt : Z }.

(** An unsigned value of 64 bits as a signed one. *)
Definition to_i64 (x : Z) : Z := if x <? 2 ^ 63 then x else x - 2 ^ 64.

(** The difference is unsigned, the rest of the arithmetic signed. *)
Definition idle_seconds (tick time : Z) : Z := Z.quot (to_i64 (wrap 64 (tick - time))) 1000.

(** [None]: [win_last_error]. *)
Definition get_idle_duration (a : answers) : option Z := idle_seconds (cur_tick a) <$> dw_time a.

(** An exception leaves the object changed up to it. *)
Definition tick_on_simulating (within : bool) (a : answers) (m : labor_monitor) : labor_monitor * bool :=
  if within then (set_state active m, true)
  else if now a - last_simulation_ m <? k_simul_interval then (m, true)
  else if negb (sent_cnt a =? 2) then (m, false)
  else (mk_monitor (state_ m) (breakoff_enabled_ m) (now a) (cfg_ m) (now a :: emitted m), true).

Definition tick_on_active (within : bool) (a : answers) (m : labor_monitor) : labor_monitor * bool :=
  match get_idle_duration a with
  | None => (m, false)
  | Some idle =>
      if max_idle (cfg_ m) <? idle then
        if within then (m, true) else tick_on_simulating false a (set_state simulating m)
      else (m, true)
  end.

(** The exception is caught and logged. *)
Definition tick (a : answers) (m : labor_monitor) : labor_monitor :=
  let within := within_breakoff (local_time a) m in
  match state_ m with
  | active => (tick_on_active within a m).1
  | simulating => (tick_on_simulating within a m).1
  end.

(** ** Hooks *)

Definition keyboard_hook_proc (code vk_code extra_info : Z) (m : labor_monitor) : labor_monitor :=
  if (0 <=? code) && is_simulating m then
    if negb (vk_code =? simulation_key (cfg_ m)) || negb (extra_info =? k_simulation_mask) then set_state active m else m
  else m.

Definition mouse_hook_proc (code : Z) (m : labor_monitor) : labor_monitor :=
  if (0 <=? code) && is_simulating m then set_state active m else m.

(** What happens to the monitor; the hooks are called by its own thread, between ticks. *)
Inductive event :=
| Tick (a : answers)
| Key (code vk_code extra_info : Z)
| Mouse (code : Z)
| Config (cfg : monitor_config)
| Breakoff (enable : bool).

Definition handle (e : event) (m : labor_monitor) : labor_monitor :=
  match e with
  | Tick a => tick a m
  | Key code vk extra => keyboard_hook_proc code vk extra m
  | Mouse code => mouse_hook_proc code m
  | Config cfg => update_config cfg m
  | Breakoff enable => enable_breakoff enable m
  end.

Definition run (es : list event) (m : labor_monitor) : labor_monitor := fold_left (fun m e => handle e m) es m.

(** ** Breaks against the clock *)

Definition valid_tm (t : tm) : Prop := 0 <= tm_hour t < 24 /\ 0 <= tm_min t < 60.

(** The minute of the day. *)
Definition minute (t : tm) : Z := 60 * tm_hour t + tm_min t.

Lemma compare_minutes a b : valid_tm a -> valid_tm b ->
  (0 <=? compare a b) = (minute b <=? minute a) /\ (compare a b <=? 0) = (minute a <=? minute b).
Proof.
  intros [Ha1 Ha2] [Hb1 Hb2]. unfold compare, minute.
  destruct (Z.ltb_spec (tm_hour a) (tm_hour b)); [|destruct (Z.ltb_spec (tm_hour b) (tm_hour a))]; split; apply eq_true_iff_eq; rewrite !Z.leb_le; lia.
Qed.

(** A break lasts from its first to its last minute, both included, on the circle of the day:
    one that ends before it begins goes over midnight. *)
Theorem in_range_circle now st ed : valid_tm now -> valid_tm st -> valid_tm ed ->
  in_range now (st, ed) = true <-> (minute now - minute st) mod 1440 <= (minute ed - minute st) mod 1440.
Proof.
  intros Hn Hs He. unfold in_range. destruct (compare_minutes st ed Hs He) as [_ ->].
  destruct (compare_minutes now st Hn Hs) as [-> _]. destruct (compare_minutes now ed Hn He) as [_ ->].
  unfold valid_tm, minute in *. destruct Hn, Hs, He.
  assert (Hmod : forall x, -1440 <= x < 1440 -> x mod 1440 = if x <? 0 then x + 1440 else x).
  { intros x Hx. destruct (Z.ltb_spec x 0); [|apply Z.mod_small; lia]. rewrite <- (Z.mod_add x 1 1440) by lia. apply Z.mod_small. lia. }
  rewrite !Hmod by lia. repeat (case_match; rewrite ?andb_true_iff, ?orb_true_iff, ?Z.leb_le, ?Z.leb_gt, ?Z.ltb_lt, ?Z.ltb_ge in *); split; lia.
Qed.

(** ** Ticks *)

(** Between two times, the later one first, there are at least [k_simul_interval]. *)
Fixpoint spaced (l : list Z) : Prop :=
  match l with
  | t :: ((t' :: _) as l) => t' + k_simul_interval <= t /\ spaced l
  | _ => True
  end.

Definition Inv (m : labor_monitor) : Prop := spaced (emitted m) /\ (forall t l, emitted m = t :: l -> last_simulation_ m = t).

Lemma tick_cases a m : let within := within_breakoff (local_time a) m in
  tick a m = m \/ tick a m = set_state simulating m \/ (within = true /\ tick a m = set_state active m) \/
  (within = false /\ k_simul_interval <= now a - last_simulation_ m /\
    (state_ m = simulating \/ exists idle, get_idle_duration a = Some idle /\ max_idle (cfg_ m) < idle) /\
    tick a m = mk_monitor simulating (breakoff_enabled_ m) (now a) (cfg_ m) (now a :: emitted m)).
Proof.
  cbn. unfold tick, tick_on_active, tick_on_simulating. set (within := within_breakoff _ _).
  destruct (state_ m) eqn:Hs.
  - destruct (get_idle_duration a) as [idle|]; [|by left]. destruct (Z.ltb_spec (max_idle (cfg_ m)) idle); [|by left].
    destruct within; [by left|]. cbn. destruct (Z.ltb_spec (now a - last_simulation_ m) k_simul_interval); [by right; left|].
    destruct (negb _); [by right; left|]. right. right. right. split; [done|]. split; [lia|]. split; [right; by eexists|done].
  - destruct within; [by right; right; left|]. destruct (Z.ltb_spec (now a - last_simulation_ m) k_simul_interval); [by left|].
    destruct (negb _); [by left|]. right. right. right. split; [done|]. split; [lia|]. split; [by left|]. done.
Qed.

Lemma monitor_same m m' : Inv m -> emitted m' = emitted m -> last_simulation_ m' = last_simulation_ m -> Inv m'.
Proof. intros [H1 H2] He Hl. unfold Inv. by rewrite He, Hl. Qed.

Lemma handle_inv e m : Inv m -> Inv (handle e m).
Proof.
  intros H. destruct e as [a|code vk extra|code|cfg|enable]; cbn [handle].
  - destruct (tick_cases a m) as [->|[->|[[_ ->]|(_ & Hn & _ & ->)]]]; [by eapply monitor_same..|].
    destruct H as [H1 H2]. split; cbn; [|by intros t l [= -> _]]. destruct (emitted m) as [|t l] eqn:He; [done|]. split; [|done].
    rewrite (H2 t l eq_refl) in Hn. unfold k_simul_interval in *. lia.
  - unfold keyboard_hook_proc. repeat case_match; try done; by eapply monitor_same.
  - unfold mouse_hook_proc. repeat case_match; try done; by eapply monitor_same.
  - by eapply monitor_same.
  - by eapply monitor_same.
Qed.

Lemma monitor_run es : forall m, Inv m -> Inv (run es m).
Proof. induction es as [|e es IH]; intros m H; [done|]. apply IH. by apply handle_inv. Qed.

(** Whatever happens, and even if the clock is set back, the key is pressed at times that are at
    least thirty seconds apart. *)
Theorem presses_spaced cfg es : spaced (emitted (run es (make cfg))).
Proof. apply monitor_run. by split. Qed.

(** A tick presses the key at most once, and only outside of the breaks, at least thirty
    seconds after the last time, and when the monitor is already simulating or
    the user has been idle for longer than allowed; during a break nothing is pressed and the
    monitor is active afterwards. *)
Theorem tick_presses a m :
  (emitted (tick a m) = emitted m \/
   (emitted (tick a m) = now a :: emitted m /\ within_breakoff (local_time a) m = false /\ k_simul_interval <= now a - last_simulation_ m /\
    (state_ m = simulating \/ exists idle, get_idle_duration a = Some idle /\ max_idle (cfg_ m) < idle))) /\
  (within_breakoff (local_time a) m = true -> state_ (tick a m) = active /\ emitted (tick a m) = emitted m).
Proof.
  split.
  - destruct (tick_cases a m) as [->|[->|[[_ ->]|(Hw & Hn & Hc & ->)]]]; [by left..|]. right. done.
  - intros Hw. unfold tick, tick_on_active, tick_on_simulating. rewrite Hw. destruct (state_ m) eqn:Hs; [|done].
    destruct (get_idle_duration a); [|done]. by destruct (_ <? _).
Qed.

Lemma foreign_key code vk extra m : 0 <= code -> state_ m = simulating -> vk <> simulation_key (cfg_ m) \/ extra <> k_simulation_mask ->
  state_ (keyboard_hook_proc code vk extra m) = active.
Proof.
  intros Hc Hs Hk. unfold keyboard_hook_proc, is_simulating. rewrite (proj2 (Z.leb_le 0 code)), Hs by done. cbn [andb].
  destruct (Z.eqb_spec vk (simulation_key (cfg_ m))), (Z.eqb_spec extra k_simulation_mask); try done. tauto.
Qed.

(** The hooks end a simulation at the first input that is not the monitor's own, and do nothing
    else: its own key does not, as long as it is the configured one. *)
Theorem hooks_end_simulation code vk extra m : 0 <= code ->
  state_ (mouse_hook_proc code m) = active /\
  (vk <> simulation_key (cfg_ m) \/ extra <> k_simulation_mask -> state_ (keyboard_hook_proc code vk extra m) = active) /\
  (simulation_key (cfg_ m) = VK_SCROLL -> keyboard_hook_proc code VK_SCROLL k_simulation_mask m = m) /\
  (state_ m = active -> keyboard_hook_proc code vk extra m = m /\ mouse_hook_proc code m = m).
Proof.
  intros Hc. split; [|split; [|split]].
  - unfold mouse_hook_proc, is_simulating. rewrite (proj2 (Z.leb_le 0 code)) by done. by destruct (state_ m) eqn:Hs.
  - intros Hk. destruct (state_ m) eqn:Hs; [|by apply foreign_key]. unfold keyboard_hook_proc, is_simulating. by rewrite Hs, andb_false_r.
  - intros Hk. unfold keyboard_hook_proc. rewrite Hk, !Z.eqb_refl. by destruct (_ && _).
  - intros Hs. unfold keyboard_hook_proc, mouse_hook_proc, is_simulating. by rewrite Hs, andb_false_r.
Qed.

(** Another key in the configuration than the one that is pressed makes the monitor take its
    own key for the user's: the simulation ends with it. *)
Theorem own_key_mistaken code m : 0 <= code -> state_ m = simulating -> simulation_key (cfg_ m) <> VK_SCROLL ->
  state_ (keyboard_hook_proc code VK_SCROLL k_simulation_mask m) = active.
Proof. intros Hc Hs Hk. apply foreign_key; [done..|]. left. congruence. Qed.

(** The time since the last input is computed from a counter of 64 bits and one of 32
    bits: it is right until the system has been up for 2^32 milliseconds, about 50 days; from
    then on it is more than 4294000 seconds too long, so that, unless the configuration
    allows as much, every tick outside of a break starts a simulation even when the input was just now. *)
Theorem idle_after_wrap tick input a m : 0 <= input <= tick -> tick < 2 ^ 63 ->
  (tick < 2 ^ 32 -> idle_seconds tick (input mod 2 ^ 32) = (tick - input) / 1000) /\
  (2 ^ 32 <= input -> 4294967 <= idle_seconds tick (input mod 2 ^ 32) /\
    (cur_tick a = tick -> dw_time a = Some (input mod 2 ^ 32) -> max_idle (cfg_ m) < 4294967 -> state_ m = active ->
      within_breakoff (local_time a) m = false -> state_ (LaborMonitor.tick a m) = simulating)).
Proof.
  intros Hi Ht. assert (Hmod : 0 <= input mod 2 ^ 32 <= input) by (split; [apply Z.mod_pos_bound; lia|apply Z.mod_le; lia]).
  assert (Hq : idle_seconds tick (input mod 2 ^ 32) = (tick - input mod 2 ^ 32) / 1000).
  { unfold idle_seconds, to_i64. rewrite wrap_small by (unfold in_u; lia). rewrite (proj2 (Z.ltb_lt _ _)) by lia. apply Z.quot_div_nonneg; lia. }
  split.
  - intros Hs. rewrite Hq. by rewrite (Z.mod_small input) by lia.
  - intros Hb. assert (4294967 <= idle_seconds tick (input mod 2 ^ 32)) as Hidle.
    { rewrite Hq. apply Z.div_le_lower_bound; [lia|]. assert (input mod 2 ^ 32 <= input - 2 ^ 32); [|lia].
      rewrite <- (Z.mod_add input (-1)) by lia. replace (input + -1 * 2 ^ 32) with (input - 2 ^ 32) by lia. apply Z.mod_le; lia. }
    split; [done|]. intros Hc Hd Hm Hs Hw. unfold LaborMonitor.tick, tick_on_active, get_idle_duration. rewrite Hs, Hw, Hc, Hd. cbn [fmap option_fmap option_map].
    rewrite (proj2 (Z.ltb_lt _ _)) by lia. unfold tick_on_simulating. cbn. repeat case_match; done.
Qed.

(** ** Instances *)

Definition at_night : daytime_range := (mk_tm 22 30, mk_tm 6 0).

Theorem in_range_circle_witness : in_range (mk_tm 0 15) at_night = true.
Proof. apply in_range_circle; by vm_compute. Defined.

Definition cfg : monitor_config := mk_config 180 VK_SCROLL [at_night].

Definition busy : labor_monitor := set_state simulating (make cfg).

Theorem hooks_end_simulation_witness : state_ (keyboard_hook_proc 0 65 0 busy) = active.
Proof. apply (hooks_end_simulation 0 65 0 busy); [done|by left]. Defined.

Theorem own_key_mistaken_witness : state_ (keyboard_hook_proc 0 VK_SCROLL k_simulation_mask (update_config (mk_config 180 19 []) busy)) = active.
Proof. apply own_key_mistaken; by vm_compute. Defined.

(** Fifty days, with an input right now. *)
Definition fifty_days : answers := mk_answers (mk_tm 12 0) (50 * 86400000) (Some ((50 * 86400000) mod 2 ^ 32)) 4320000 2.

Theorem idle_after_wrap_witness : state_ (tick fifty_days (make cfg)) = simulating.
Proof. apply (idle_after_wrap (50 * 86400000) (50 * 86400000) fifty_days (make cfg)); by vm_compute. Defined.
