(* ===== verification/HttpServer.v ===== *)
(** * The HTTP server

    Models ConcurrentHttpServer/ConcurrentHttpServerLinux/src/tcp_connection.cpp and worker.cpp: a
    connection collects the bytes of a request, answers it with a file, and starts over.  The
    library for paths, files and tokens is a parameter; what [recv] and [send] answer is in
    the events. *)

From stdpp Require Import pretty.
From S2P Require Import Prelude Text.

#[local] Open Scope Z_scope.

(** ** Requests *)

(** [s.find(pat)] finds something. *)
Fixpoint found (pat s : str) : bool :=
  has_prefix s pat || match s with [] => false | _ :: s => found pat s end.

Definition kTerminator : str := [chr 13; chr 10; chr 13; chr 10].

(** Only the bytes read last are searched, and three before them. *)
Definition IsRequestComplete (req : str) (bytes_read : nat) : bool :=
  let last_size := (length req - bytes_read)%nat in
  let start_pos := if (3 <? last_size)%nat then (last_size - 3)%nat else 0%nat in
  found kTerminator (drop start_pos req).

(** The text up to a terminator. *)
Fixpoint c_string (s : str) : str := match s with c :: s => if decide (c = Ascii.zero) then [] else c :: c_string s | [] => [] end.

(** [strtoul(hex, nullptr, 16)] of two characters: 0 when there is no number. *)
Definition strtoul (hex : str) : Z := match stoull_hex (c_string hex) with Ok v => v | _ => 0 end.

(** [*++it] behind the last character reads outside of the view. *)
Fixpoint UnescapeURL (escaped_url : str) : outcome str :=
  match escaped_url with
  | [] => Ok []
  | c :: rest =>
      if decide (c = "%"%char) then
        match rest with
        | a :: b :: rest => url ← UnescapeURL rest; Ok (chr (strtoul [a; b] mod 256) :: url)
        | _ => Undef
        end
      else url ← UnescapeURL rest; Ok (c :: url)
  end.

(** ** Responses *)

(** The fields of a [struct tm]. *)
Record date := mk_date { tm_wday : Z; tm_mday : Z; tm_mon : Z; tm_year : Z; tm_hour : Z; tm_min : Z; tm_sec : Z }.

Record file_info := mk_info { last_modified : date; file_size : Z }.

(** The kbase library and the file system.  [tokens s delims]: the pieces between
    characters of [delims]. *)
Class Kbase := {
  tokens : str -> str -> list str;
  TrimLeadingString : str -> str -> str;
  AppendWith : str -> str -> str;
  extension : str -> str;
  GetFileInfo : str -> option file_info;
  ReadFileToString : str -> str;
  (** The directory of the program and [data]. *)
  data_dir_ : str
}.

Definition kDays : list str := map lit ["Sun"; "Mon"; "Tue"; "Wed"; "Thu"; "Fri"; "Sat"]%string.
Definition kMonths : list str := map lit ["Jan"; "Feb"; "Mar"; "Apr"; "May"; "Jun"; "Jul"; "Aug"; "Sep"; "Oct"; "Nov"; "Dec"]%string.

(** [%d], and [%02d] of a number that is not negative. *)
Definition dec (z : Z) : str := lit (pretty z).
Definition dec2 (z : Z) : str := if z <? 10 then lit "0" ++ dec z else dec z.

(** [d] is the local time. *)
Definition HttpDateFromFileTime (d : date) : outcome str :=
  day ← vec_get kDays (tm_wday d);
  month ← vec_get kMonths (tm_mon d);
  Ok (day ++ lit ", " ++ dec2 (tm_mday d) ++ lit " " ++ month ++ lit " " ++ dec (tm_year d + 1900) ++ lit " " ++
      dec2 (tm_hour d) ++ lit ":" ++ dec2 (tm_min d) ++ lit ":" ++ dec2 (tm_sec d) ++ lit " GMT").

Definition mime_table : list (str * str) := map (fun x => (lit x.1, lit x.2))
  [(""%string, "application/octet-stream"%string); (".html"%string, "text/html"%string); (".htm"%string, "text/html"%string);
   (".txt"%string, "text/plain"%string); (".wav"%string, "audio/wav"%string); (".gif"%string, "image/gif"%string);
   (".jpg"%string, "image/jpeg"%string); (".png"%string, "image/png"%string); (".bmp"%string, "image/bmp"%string)].

Definition MimeTypeFromExtension (ext : str) : str :=
  match List.find (fun e => bool_decide (e.1 = ext)) mime_table with
  | Some e => e.2
  | None => lit "application/octet-stream"
  end.

Definition crlf : str := [chr 13; chr 10].

Definition not_found : str := lit "HTTP/1.1 404 Not Found" ++ crlf ++ lit "Content-Length: 0" ++ crlf ++ crlf.

Section Server.
Context `{Kbase}.

(** [*Tokenizer(request_, CRLF).begin()], and the token behind the first of that line. *)
Definition request_uri (request : str) : outcome str :=
  match tokens request crlf with
  | [] => Undef
  | line :: _ => match tokens line (lit " ") with _ :: uri :: _ => Ok uri | _ => Undef end
  end.

Definition resource_path (request : str) : outcome str :=
  uri ← request_uri request;
  unescaped_uri ← UnescapeURL uri;
  Ok (AppendWith data_dir_ (TrimLeadingString unescaped_uri (lit "/"))).

(** What [PrepareResponse] makes of a request. *)
Definition respond (request : str) : outcome str :=
  path ← resource_path request;
  match GetFileInfo path with
  | None => Ok not_found
  | Some info =>
      d ← HttpDateFromFileTime (last_modified info);
      Ok (lit "HTTP/1.1 200 OK" ++ crlf ++ lit "Date: " ++ d ++ crlf ++ lit "Server: KHTTPD/0.1.0 (Linux)" ++ crlf ++
          lit "Content-Length: " ++ dec (file_size info) ++ crlf ++ lit "Content-Type: " ++ MimeTypeFromExtension (extension path) ++ crlf ++ crlf ++
          ReadFileToString path)
  end.

(** ** Connections *)

Inductive events := EPOLLIN | EPOLLOUT.

(** [interest]: what the descriptor is polled for; for the statements: the bytes received
    and the bytes sent. *)
Record connection := mk_connection { request_ : str; response_ : str; response_sent_ : nat; interest : events; received : str; sent : str }.

Definition make : connection := mk_connection [] [] 0 EPOLLIN [] [].

Definition PrepareResponse (c : connection) : outcome connection :=
  response ← respond (request_ c);
  Ok (mk_connection (request_ c) response 0 EPOLLOUT (received c) (sent c)).

(** The answers of the system; [recv] does not give more than [kIOBufSize] bytes at once. *)
Inductive recv_answer := Received (data : str) | RecvAgain | RecvFailed | Disconnected.

(** [Room n]: the socket takes up to [n] bytes. *)
Inductive send_answer := Room (n : nat) | SendAgain | SendFailed.

Definition kIOBufSize : nat := 1024.

Definition append_request (data : str) (c : connection) : connection :=
  mk_connection (request_ c ++ data) (response_ c) (response_sent_ c) (interest c) (received c ++ data) (sent c).

(** No more answers: nothing more has come. *)
Fixpoint Read (answers : list recv_answer) (c : connection) : outcome connection :=
  match answers with
  | Received data :: answers =>
      let c := append_request data c in
      if IsRequestComplete (request_ c) (length data) then PrepareResponse c else Read answers c
  | _ => Ok c
  end.

(** A write of [n] bytes, the last of which makes the connection start over. *)
Definition wrote (n : nat) (c : connection) : connection :=
  mk_connection (request_ c) (response_ c) (response_sent_ c + n) (interest c) (received c) (sent c ++ take n (drop (response_sent_ c) (response_ c))).

Definition start_over (c : connection) : connection :=
  mk_connection [] (response_ c) (response_sent_ c) EPOLLIN (received c) (sent c).

Fixpoint Write (answers : list send_answer) (c : connection) : outcome connection :=
  match answers with
  | Room n :: answers =>
      let bytes_written := Nat.min n (length (response_ c) - response_sent_ c) in
      if (bytes_written =? 0)%nat then Ok c else
      let c := wrote bytes_written c in
      if (response_sent_ c =? length (response_ c))%nat then Ok (start_over c) else Write answers c
  | _ => Ok c
  end.

(** A worker has got an event for the connection: only those it is polled for come. *)
Inductive event := Readable (answers : list recv_answer) | Writable (answers : list send_answer).

Definition WorkProc (e : event) (c : connection) : outcome connection :=
  match e, interest c with
  | Readable answers, EPOLLIN => Read answers c
  | Writable answers, EPOLLOUT => Write answers c
  | _, _ => Ok c
  end.

Fixpoint run (es : list event) (c : connection) : outcome connection :=
  match es with [] => Ok c | e :: es => c ← WorkProc e c; run es c end.
End Server.

(** ** Searching *)

Lemma found_spec pat s : found pat s = true <-> exists i, (i <= length s)%nat /\ has_prefix (drop i s) pat = true.
Proof.
  induction s as [|x s IH]; cbn [found]; rewrite orb_true_iff.
  - split; [intros [H|H]; [by exists 0%nat|done]|]. intros (i & Hi & H). left. by destruct i.
  - rewrite IH. split.
    + intros [H|(i & Hi & H)]; [by exists 0%nat; split; [lia|]|]. exists (S i). cbn. split; [lia|done].
    + intros ([|i] & Hi & H); [by left|]. right. exists i. cbn in *. split; [lia|done].
Qed.

Lemma found_incremental req data : found kTerminator req = false ->
  IsRequestComplete (req ++ data) (length data) = found kTerminator (req ++ data).
Proof.
  intros Hn. unfold IsRequestComplete. rewrite length_app. replace (length req + length data - length data)%nat with (length req) by lia.
  destruct (Nat.ltb_spec 3 (length req)) as [Hl|]; [|done]. apply eq_true_iff_eq. rewrite !found_spec. split.
  - intros (i & Hi & H). exists (length req - 3 + i)%nat. rewrite drop_drop in H. rewrite length_drop, length_app in Hi. rewrite length_app. split; [lia|done].
  - intros (i & Hi & H). rewrite length_app in Hi. destruct (Nat.le_gt_cases (length req - 3) i) as [Hge|Hlt].
    + exists (i - (length req - 3))%nat. rewrite length_drop, length_app, drop_drop. split; [lia|]. by replace (length req - 3 + (i - (length req - 3)))%nat with i by lia.
    + exfalso. assert (found kTerminator req = true) as Ht; [|congruence]. apply found_spec. exists i. split; [lia|].
      rewrite drop_app_le in H by lia. rewrite has_prefix_extend in H; [done|]. rewrite length_drop. cbn. lia.
Qed.

(** Looking only at the bytes read last, and the three before them, finds the end of
    the request whenever looking at all of them does, however the bytes were cut into reads. *)
Theorem complete_incremental req data : found kTerminator req = false ->
  IsRequestComplete (req ++ data) (length data) = found kTerminator (req ++ data).
Proof. apply found_incremental. Qed.

(** ** Percent-encoding *)

(** A text with [%] in two digits, and any others the client likes. *)
Definition escape (all : ascii -> bool) (s : str) : str :=
  concat (map (fun c => if all c || bool_decide (c = "%"%char) then "%"%char :: fixed_hex 2 (uchar c) else [c]) s).

Lemma lower_hex_nonzero c : lower_hex c -> c <> Ascii.zero.
Proof. intros Hc ->. unfold lower_hex in Hc. vm_compute in Hc. destruct Hc as [[Hc _]|[Hc _]]; by apply Hc. Qed.

Lemma strtoul_two a b : lower_hex a -> lower_hex b -> strtoul [a; b] = hex_digits_value [a; b] 0.
Proof.
  intros Ha Hb. unfold strtoul. cbn [c_string]. rewrite decide_False by by apply lower_hex_nonzero. rewrite decide_False by by apply lower_hex_nonzero.
  rewrite stoull_hex_lower; [done|done|repeat (constructor; [done|]); constructor|cbn; lia].
Qed.

Lemma unescape_percent a b rest : UnescapeURL ("%"%char :: a :: b :: rest) = (url ← UnescapeURL rest; Ok (chr (strtoul [a; b] mod 256) :: url)).
Proof. done. Qed.

Lemma unescape_other c rest : c <> "%"%char -> UnescapeURL (c :: rest) = (url ← UnescapeURL rest; Ok (c :: url)).
Proof. intros Hc. cbn [UnescapeURL]. by rewrite decide_False. Qed.

(** A text that was escaped is read back, whatever other characters were escaped with
    the percent sign; a text that ends within an escape makes the loop run out of the text. *)
Theorem unescape_escape all s : UnescapeURL (escape all s) = Ok s /\
  (forall rest, (length rest < 2)%nat -> UnescapeURL (escape all s ++ "%"%char :: rest) = Undef).
Proof.
  induction s as [|c s IH].
  - split; [done|]. intros rest Hr. by destruct rest as [|a [|b rest]]; [done|done|cbn in Hr; lia].
  - destruct IH as [IH1 IH2].
    change (escape all (c :: s)) with ((if all c || bool_decide (c = "%"%char) then "%"%char :: fixed_hex 2 (uchar c) else [c]) ++ escape all s).
    revert IH1 IH2. generalize (escape all s). intros t IH1 IH2. destruct (all c || bool_decide (c = "%"%char)) eqn:Hc.
    + cbn [fixed_hex app].
      set (a := hex_digit _). set (b := hex_digit _). pose proof (fixed_hex_lower 2 (uchar c)) as Hlow. cbn [fixed_hex app] in Hlow. fold a b in Hlow.
      apply Forall_cons in Hlow as [Ha Hlow]. apply Forall_cons in Hlow as [Hb _].
      pose proof (fixed_hex_value 2 (uchar c) ltac:(pose proof (uchar_range c); cbn; lia)) as Hv. cbn [fixed_hex app] in Hv. fold a b in Hv.
      assert (chr (strtoul [a; b] mod 256) = c) as Hchr by (rewrite strtoul_two, Hv, Z.mod_small, chr_uchar by (done || apply uchar_range); done).
      split; [rewrite unescape_percent, IH1; cbn; by rewrite Hchr|]. intros rest Hr. by rewrite unescape_percent, IH2.
    + apply orb_false_iff in Hc as [_ Hc%bool_decide_eq_false]. cbn [app]. split; [rewrite unescape_other by done; by rewrite IH1|].
      intros rest Hr. rewrite unescape_other by done. by rewrite IH2.
Qed.

(** ** Connections *)

Section Proofs.
Context `{Kbase}.

Lemma respond_nonempty r resp : respond r = Ok resp -> resp <> [].
Proof.
  unfold respond. destruct (resource_path r) as [path| | |]; [|done..]. cbn [mbind outcome_bind]. destruct (GetFileInfo path) as [info|]; [|by intros [= <-]].
  destruct (HttpDateFromFileTime (last_modified info)); [|done..]. cbn [mbind outcome_bind]. by intros [= <-].
Qed.

(** [served] are the requests that were taken for complete, [resps] what was made of them. *)
Record Inv (served resps : list str) (c : connection) : Prop := {
  inv_resps : Forall2 (fun r resp => respond r = Ok resp) served resps;
  inv_served : Forall (fun r => found kTerminator r = true) served;
  inv_state : match interest c with
    | EPOLLIN => received c = concat served ++ request_ c /\ sent c = concat resps /\ found kTerminator (request_ c) = false
    | EPOLLOUT => received c = concat served /\ sent c ++ drop (response_sent_ c) (response_ c) = concat resps /\ (response_sent_ c < length (response_ c))%nat
    end
}.

Lemma http_read_inv answers : forall served resps c c', Inv served resps c -> interest c = EPOLLIN -> Read answers c = Ok c' ->
  exists served' resps', Inv served' resps' c'.
Proof.
  induction answers as [|a answers IH]; intros served resps c c' Hi Hin Hr; cbn [Read] in Hr; [injection Hr as <-; by eexists _, _|].
  destruct a as [data| | |]; [|injection Hr as <-; by eexists _, _..]. destruct Hi as [H1 H2 H3]. rewrite Hin in H3. destruct H3 as (Hrec & Hsent & Hn).
  cbn [append_request request_] in Hr. rewrite (found_incremental _ data Hn) in Hr. destruct (found kTerminator (request_ c ++ data)) eqn:Hf.
  - unfold PrepareResponse in Hr. change (request_ (append_request data c)) with (request_ c ++ data) in Hr. destruct (respond (request_ c ++ data)) as [resp| | |] eqn:Hresp; [|done..]. injection Hr as <-.
    exists (served ++ [request_ c ++ data]), (resps ++ [resp]). pose proof (respond_nonempty _ _ Hresp). split; cbn.
    + apply Forall2_app; [done|]. by constructor.
    + apply Forall_app. split; [done|]. by constructor.
    + rewrite !concat_app. cbn. rewrite !app_nil_r, Hrec, Hsent, <- app_assoc. split; [done|]. split; [done|]. destruct resp; [done|cbn; lia].
  - apply (IH served resps (append_request data c)); [|done|exact Hr]. split; [exact H1|exact H2|]. cbn. rewrite Hin. by rewrite Hrec, app_assoc.
Qed.

Lemma http_write_inv answers : forall served resps c c', Inv served resps c -> interest c = EPOLLOUT -> Write answers c = Ok c' -> Inv served resps c'.
Proof.
  induction answers as [|a answers IH]; intros served resps c c' Hi Hin Hr; cbn [Write] in Hr; [by injection Hr as <-|].
  destruct a as [n| |]; [|by injection Hr as <-..]. set (k := Nat.min n (length (response_ c) - response_sent_ c)) in *.
  destruct (Nat.eqb_spec k 0); [by injection Hr as <-|]. destruct Hi as [H1 H2 H3]. rewrite Hin in H3. destruct H3 as (Hrec & Hsent & Hlt).
  assert (Hd : (sent c ++ take k (drop (response_sent_ c) (response_ c))) ++ drop (response_sent_ c + k) (response_ c) = concat resps).
  { rewrite <- Hsent, <- app_assoc. f_equal. rewrite <- drop_drop. apply take_drop. }
  cbn [wrote response_sent_ response_] in Hr. destruct (Nat.eqb_spec (response_sent_ c + k) (length (response_ c))) as [He|Hne].
  - injection Hr as <-. split; [done|done|]. cbn. rewrite He, drop_all, app_nil_r in Hd. rewrite app_nil_r. done.
  - apply (IH served resps (wrote k c)); [|done|exact Hr]. split; [done|done|]. cbn. rewrite Hin. split; [done|]. split; [done|]. lia.
Qed.

Lemma http_run_inv es : forall served resps c c', Inv served resps c -> run es c = Ok c' -> exists served' resps', Inv served' resps' c'.
Proof.
  induction es as [|e es IH]; intros served resps c c' Hi Hr; cbn [run] in Hr; [injection Hr as <-; by eexists _, _|].
  destruct (WorkProc e c) as [d| | |] eqn:Hw; [|done..]. cbn [mbind outcome_bind] in Hr.
  assert (exists served' resps', Inv served' resps' d) as (served' & resps' & Hd); [|by eapply IH].
  unfold WorkProc in Hw. destruct e as [answers|answers], (interest c) eqn:Hin; try (injection Hw as <-; by eexists _, _); [by eapply http_read_inv|].
  eexists _, _. by eapply http_write_inv.
Qed.

(** However the bytes come and go, and whichever reads and writes are interrupted: what a
    client has sent is a sequence of requests, each with its end, and a last one without; what
    was sent to it is the sequence of their responses, in order, the last one up to what the socket took. *)
Theorem http_responses es c : run es make = Ok c -> exists served resps,
  Forall2 (fun r resp => respond r = Ok resp) served resps /\ Forall (fun r => found kTerminator r = true) served /\
  match interest c with
  | EPOLLIN => received c = concat served ++ request_ c /\ sent c = concat resps /\ found kTerminator (request_ c) = false
  | EPOLLOUT => received c = concat served /\ sent c ++ drop (response_sent_ c) (response_ c) = concat resps
  end.
Proof.
  intros Hr. destruct (http_run_inv es [] [] make c) as (served & resps & [H1 H2 H3]); [|done|].
  - by split.
  - exists served, resps. split; [done|]. split; [done|]. destruct (interest c); [done|]. by destruct H3 as (? & ? & _).
Qed.

(** A response is sent as soon as the socket takes its bytes, in any portions; then the connection
    reads again, with an empty request. *)
Theorem write_completes rooms : forall c, interest c = EPOLLOUT -> (response_sent_ c < length (response_ c))%nat -> Forall (fun n => (0 < n)%nat) rooms ->
  (length (response_ c) - response_sent_ c <= list_sum rooms)%nat ->
  exists c', Write (map Room rooms) c = Ok c' /\ interest c' = EPOLLIN /\ request_ c' = [] /\ sent c' = sent c ++ drop (response_sent_ c) (response_ c).
Proof.
  induction rooms as [|n rooms IH]; intros c Hin Hlt Hpos Hsum; [cbn in Hsum; lia|]. apply Forall_cons in Hpos as [Hn Hpos]. cbn [map Write]. change (list_sum (n :: rooms)) with (n + list_sum rooms)%nat in Hsum.
  remember (Nat.min n (length (response_ c) - response_sent_ c)) as k eqn:Hk. destruct (Nat.eqb_spec k 0); [lia|].
  cbn [wrote response_sent_ response_]. destruct (Nat.eqb_spec (response_sent_ c + k) (length (response_ c))) as [He|Hne].
  - eexists. split; [done|]. cbn. split; [done|]. split; [done|]. rewrite take_ge by (rewrite length_drop; lia). done.
  - destruct (IH (wrote k c)) as (c' & -> & H1 & H2 & H3); [done|cbn; lia|done|cbn; lia|]. exists c'. split; [done|]. split; [done|]. split; [done|].
    rewrite H3. cbn. rewrite <- app_assoc. f_equal. rewrite <- drop_drop. apply take_drop.
Qed.
End Proofs.
