(* ===== verification/Coroutines.v ===== *)
(** * Coroutine tasks on a thread pool

    Models learn-cxx/coroutine/thread_pool (task.h, sync_wait.h, thread_pool.h): tasks that await
    each other and move to the workers of a pool, and a thread that waits for one of them.  A
    step is what a thread does with a coroutine up to its next suspension or action.  A
    worker that waits looks at the queue whenever it gets to it. *)

From S2P Require Import Prelude.

#[local] Open Scope Z_scope.

(** ** Coroutines *)

(** What is left of the body of a task: its end, an exception that leaves it, an action,
    [co_await pool.schedule()], [co_await] of a task with a body of its own. *)
Inductive body :=
| Return
| Raise (e : exn)
| Work (action : nat) (k : body)
| Schedule (k : body)
| Await (b : body) (k : body).

(** [continuation_]: nobody's, the coroutine that awaits the task, or the one of [sync_wait]. *)
Inductive continuation := noop_coroutine | awaiting_coro (id : nat) | sync_wait_task.

(** The frame of a task with its promise. *)
Record frame := mk_frame { rest : body; continuation_ : continuation; exception_ : option exn; is_done : bool }.

Definition make_task (b : body) : frame := mk_frame b noop_coroutine None false.

Definition set_continuation k f := mk_frame (rest f) k (exception_ f) (is_done f).
Definition set_rest b f := mk_frame b (continuation_ f) (exception_ f) (is_done f).
Definition unhandled_exception e f := mk_frame (rest f) (continuation_ f) (Some e) (is_done f).
Definition set_done f := mk_frame (rest f) (continuation_ f) (exception_ f) true.

(** ** Threads *)

(** A thread runs a coroutine, waits (thread 0 in [event.wait], a worker for the queue), or has ended. *)
Inductive thread := Executing (id : nat) | Parked | Ended.

(** [flag_] is that of the event; [trace]: the actions, in their order. *)
Record config := mk_config { frames : list frame; coros_ : list nat; stopped_ : bool; threads : list thread; flag_ : bool; trace : list nat }.

Definition set_frames fs c := mk_config fs (coros_ c) (stopped_ c) (threads c) (flag_ c) (trace c).
Definition set_threads ts c := mk_config (frames c) (coros_ c) (stopped_ c) ts (flag_ c) (trace c).
Definition set_coros q c := mk_config (frames c) q (stopped_ c) (threads c) (flag_ c) (trace c).
Definition put_frame id f c := set_frames (<[id := f]> (frames c)) c.
Definition log a c := mk_config (frames c) (coros_ c) (stopped_ c) (threads c) (flag_ c) (trace c ++ [a]).

(** [wait_once::signal]. *)
Definition signal c := mk_config (frames c) (coros_ c) (stopped_ c) (threads c) true (trace c).

Definition enqueue_task id c := set_coros (coros_ c ++ [id]) c.

(** [final_suspend]: the coroutine that is resumed next by the same thread, if there is one. *)
Definition final_suspend (id : nat) (f : frame) (c : config) : config * option nat :=
  let c := put_frame id (set_done f) c in
  match continuation_ f with
  | noop_coroutine => (c, None)
  | awaiting_coro j => (c, Some j)
  | sync_wait_task => (signal c, None)
  end.

(** One step of coroutine [id]; then its thread goes on with another one, or is free. *)
Definition resume (id : nat) (f : frame) (c : config) : config * option nat :=
  match rest f with
  | Return => final_suspend id f c
  | Raise e => final_suspend id (unhandled_exception e f) c
  | Work a k => (log a (put_frame id (set_rest k f) c), Some id)
  | Schedule k => (enqueue_task id (put_frame id (set_rest k f) c), None)
  | Await b k =>
      let c := put_frame id (set_rest k f) c in
      (set_frames (frames c ++ [set_continuation (awaiting_coro id) (make_task b)]) c, Some (length (frames c)))
  end.

Definition next_thread (next : option nat) : thread := match next with Some j => Executing j | None => Parked end.

Inductive step : config -> config -> Prop :=
| step_resume c i id f c' next :
    threads c !! i = Some (Executing id) -> frames c !! id = Some f -> resume id f c = (c', next) ->
    step c (set_threads (<[i := next_thread next]> (threads c')) c')
| step_worker c i id q :
    threads c !! S i = Some Parked -> stopped_ c = false -> coros_ c = id :: q ->
    step c (set_threads (<[S i := Executing id]> (threads c)) (set_coros q c))
| step_worker_stops c i :
    threads c !! S i = Some Parked -> stopped_ c = true -> step c (set_threads (<[S i := Ended]> (threads c)) c)
| step_event c :
    threads c !! 0%nat = Some Parked -> flag_ c = true -> step c (set_threads (<[0%nat := Ended]> (threads c)) c)
| step_shutdown c :
    stopped_ c = false -> step c (mk_config (frames c) (coros_ c) true (threads c) (flag_ c) (trace c)).

(** [sync_wait] of a task, in a program with [n] workers that wait. *)
Definition start (b : body) (n : nat) : config :=
  mk_config [set_continuation sync_wait_task (make_task b)] [] false (Executing 0 :: replicate n Parked) false [].

Inductive reachable (b : body) (n : nat) : config -> Prop :=
| reachable_start : reachable b n (start b n)
| reachable_step c c' : reachable b n c -> step c c' -> reachable b n c'.

(** ** The chain of awaiting coroutines *)

(** The actions in the order of the program. *)
Fixpoint actions (b : body) : list nat :=
  match b with
  | Return | Raise _ => []
  | Work a k => a :: actions k
  | Schedule k => actions k
  | Await b k => actions b ++ actions k
  end.

(** How many steps a body takes at most. *)
Fixpoint weight (b : body) : nat :=
  match b with
  | Return | Raise _ => 1
  | Work _ k => S (weight k)
  | Schedule k => S (S (weight k))
  | Await b k => S (weight b + weight k)
  end.

(** [id] is awaited by a coroutine that is awaited by ... up to that of [sync_wait]; what they have
    left to do. *)
Inductive chain (fs : list frame) : nat -> list nat -> list nat -> Prop :=
| chain_root id f : fs !! id = Some f -> is_done f = false -> continuation_ f = sync_wait_task -> chain fs id [id] (actions (rest f))
| chain_awaited id f j ids acts : fs !! id = Some f -> is_done f = false -> continuation_ f = awaiting_coro j -> (j < id)%nat ->
    chain fs j ids acts -> chain fs id (id :: ids) (actions (rest f) ++ acts).

Lemma chain_below fs id ids acts : chain fs id ids acts -> forall j, j ∈ ids -> (j <= id)%nat.
Proof.
  induction 1 as [|id f j ids acts H1 H2 H3 H4 H5 IH]; intros x Hx; [by apply list_elem_of_singleton in Hx as ->|].
  apply elem_of_cons in Hx as [-> |Hx]; [done|]. specialize (IH x Hx). lia.
Qed.

Lemma chain_other fs fs' id ids acts : chain fs id ids acts -> (forall j, j ∈ ids -> fs' !! j = fs !! j) -> chain fs' id ids acts.
Proof.
  induction 1 as [id f H1 H2 H3|id f j ids acts H1 H2 H3 H4 H5 IH]; intros He.
  - apply chain_root; [|done|done]. rewrite He; [done|by left].
  - eapply chain_awaited; [|done|done|done|].
    + rewrite He; [done|by left].
    + apply IH. intros x Hx. apply He. by right.
Qed.

(** The chain of a coroutine, all but itself. *)
Definition above (fs : list frame) (k : continuation) (id : nat) (ids acts : list nat) : Prop :=
  match k with
  | noop_coroutine => False
  | awaiting_coro j => (j < id)%nat /\ chain fs j ids acts
  | sync_wait_task => ids = [] /\ acts = []
  end.

Lemma chain_top fs id ids acts : chain fs id ids acts -> exists f ids' acts', fs !! id = Some f /\ is_done f = false /\
  above fs (continuation_ f) id ids' acts' /\ ids = id :: ids' /\ acts = actions (rest f) ++ acts'.
Proof.
  intros [id' f H1 H2 H3|id' f j ids' acts' H1 H2 H3 H4 H5].
  - exists f, [], []. by rewrite H3, app_nil_r.
  - exists f, ids', acts'. by rewrite H3.
Qed.

Lemma chain_intro fs id f ids acts : fs !! id = Some f -> is_done f = false -> above fs (continuation_ f) id ids acts ->
  chain fs id (id :: ids) (actions (rest f) ++ acts).
Proof.
  intros H1 H2 H3. destruct (continuation_ f) eqn:Hc; [done| |].
  - destruct H3. by eapply chain_awaited.
  - destruct H3 as [-> ->]. rewrite app_nil_r. by apply chain_root.
Qed.

Lemma above_other fs fs' k id ids acts : above fs k id ids acts -> (forall j, (j < id)%nat -> fs' !! j = fs !! j) -> above fs' k id ids acts.
Proof.
  destruct k as [|j|]; cbn; [done| |done]. intros [H1 H2] H. split; [done|]. eapply chain_other; [done|]. intros x Hx. apply H.
  pose proof (chain_below _ _ _ _ H2 x Hx). lia.
Qed.

(** What has not ended, is in the chain; what was done and is left to do, is the program. *)
Definition chained (b : body) (c : config) (id : nat) : Prop := exists ids acts,
  chain (frames c) id ids acts /\ trace c ++ acts = actions b /\ forall j f, frames c !! j = Some f -> is_done f = false -> j ∈ ids.

(** One step of the coroutine at the end of the chain: another one is there, it waits in the
    queue, or the whole program has ended. *)
Definition resumed (b : body) (c : config) (id : nat) (c' : config) (next : option nat) : Prop :=
  threads c' = threads c /\ stopped_ c' = stopped_ c /\
  match next with
  | Some j => coros_ c' = coros_ c /\ flag_ c' = flag_ c /\ chained b c' j
  | None => (coros_ c' = coros_ c ++ [id] /\ flag_ c' = flag_ c /\ chained b c' id) \/
            (coros_ c' = coros_ c /\ flag_ c' = true /\ trace c' = actions b /\ forall j g, frames c' !! j = Some g -> is_done g = true)
  end.

Lemma resume_chained b c id f c' next : chained b c id -> frames c !! id = Some f -> resume id f c = (c', next) -> resumed b c id c' next.
Proof.
  intros (ids & acts & Hch & Htr & Hun) Hf Hr. destruct (chain_top _ _ _ _ Hch) as (f0 & ids' & acts' & Hf0 & Hd & Hab & -> & ->).
  assert (f0 = f) as -> by congruence. assert (Hlt : (id < length (frames c))%nat) by by eapply lookup_lt_Some.
  assert (Hput : forall g, <[id := g]> (frames c) !! id = Some g) by (intros g; by rewrite list_lookup_insert_eq).
  assert (Hother : forall g fs, above (frames c) (continuation_ f) id ids' acts' -> above (<[id := g]> (frames c) ++ fs) (continuation_ f) id ids' acts').
  { intros g fs H. eapply above_other; [done|]. intros j Hj. rewrite lookup_app_l by (rewrite length_insert; lia). by rewrite list_lookup_insert_ne by lia. }
  assert (Hundone : forall g x h, <[id := g]> (frames c) !! x = Some h -> is_done h = false -> x = id \/ x ∈ ids').
  { intros g x h Hx Hh. apply list_lookup_insert_Some in Hx as [(-> & _)|[Hne Hx]]; [by left|]. pose proof (Hun _ _ Hx Hh) as Hin. by apply elem_of_cons in Hin. }
  assert (Hfinal : forall g, continuation_ g = continuation_ f -> rest f = Return \/ (exists e, rest f = Raise e) -> final_suspend id g c = (c', next) -> resumed b c id c' next).
  { intros g Hg Hend Hfs. assert (actions (rest f) = []) as Hnil by (destruct Hend as [-> |[e ->]]; done). rewrite Hnil in Htr. cbn [app] in Htr.
    unfold final_suspend in Hfs. rewrite Hg in Hfs. destruct (continuation_ f) as [|j|] eqn:Hk; [done| |]; injection Hfs as <- <-; (split; [done|split; [done|]]).
    - split; [done|]. split; [done|]. exists ids', acts'. destruct (Hother (set_done g) [] Hab) as [_ Hc]. rewrite app_nil_r in Hc. split; [done|]. split; [done|].
      intros x h Hx Hh. destruct (Hundone _ _ _ Hx Hh) as [-> |]; [|done]. cbn in Hx. rewrite Hput in Hx. injection Hx as <-. done.
    - right. destruct Hab as [-> ->]. split; [done|]. split; [done|]. split; [by rewrite app_nil_r in Htr|].
      intros x h Hx. destruct (is_done h) eqn:Hh; [done|]. destruct (Hundone _ _ _ Hx Hh) as [-> |Hin]; [|by apply elem_of_nil in Hin]. cbn in Hx. rewrite Hput in Hx. injection Hx as <-. done. }
  unfold resume in Hr. destruct (rest f) as [|e|a k|k|b' k] eqn:Hb.
  - eapply Hfinal; [|by left|exact Hr]. done.
  - eapply Hfinal; [|right; by eexists|exact Hr]. done.
  - injection Hr as <- <-. cbn. do 4 (split; [done|]). exists (id :: ids'), (actions k ++ acts'). split; [|split].
    + pose proof (Hother (set_rest k f) [] Hab) as Hc. rewrite app_nil_r in Hc. apply (chain_intro _ id (set_rest k f)); [apply Hput|done|done].
    + rewrite <- Htr. cbn. by rewrite <- app_assoc.
    + intros x h Hx Hh. apply elem_of_cons. exact (Hundone (set_rest k f) x h Hx Hh).
  - injection Hr as <- <-. cbn. do 2 (split; [done|]). left. do 2 (split; [done|]). exists (id :: ids'), (actions k ++ acts'). split; [|split].
    + pose proof (Hother (set_rest k f) [] Hab) as Hc. rewrite app_nil_r in Hc. apply (chain_intro _ id (set_rest k f)); [apply Hput|done|done].
    + done.
    + intros x h Hx Hh. apply elem_of_cons. exact (Hundone (set_rest k f) x h Hx Hh).
  - injection Hr as <- <-. cbn. do 4 (split; [done|]). exists (length (<[id := set_rest k f]> (frames c)) :: id :: ids'), (actions b' ++ actions k ++ acts').
    rewrite length_insert. split; [|split].
    + apply (chain_intro _ (length (frames c)) (set_continuation (awaiting_coro id) (make_task b')) (id :: ids') (actions k ++ acts')); [|done|].
      * cbn [frames set_frames]. rewrite lookup_app_r by (rewrite length_insert; lia). by rewrite length_insert, Nat.sub_diag.
      * split; [done|]. apply (chain_intro (<[id := set_rest k f]> (frames c) ++ [set_continuation (awaiting_coro id) (make_task b')]) id (set_rest k f)); [|done|by apply Hother]. rewrite lookup_app_l by (rewrite length_insert; lia). apply Hput.
    + rewrite <- Htr. cbn. by rewrite <- app_assoc.
    + intros x h Hx Hh. rewrite !elem_of_cons. apply lookup_app_Some in Hx as [Hx|[Hge Hx]]; [right; exact (Hundone (set_rest k f) x h Hx Hh)|left].
      apply list_lookup_singleton_Some in Hx as [Hx _]. rewrite length_insert in *. lia.
Qed.

(** ** The program *)

Definition nobody_runs (c : config) : Prop := forall i j, threads c !! i <> Some (Executing j).

(** One thread runs the coroutine at the end of the chain, or it is in the queue. *)
Definition placed (c : config) (id : nat) : Prop :=
  (coros_ c = [] /\ exists i, threads c !! i = Some (Executing id) /\ forall i' j, threads c !! i' = Some (Executing j) -> i' = i) \/
  (coros_ c = [id] /\ nobody_runs c).

Definition running (b : body) (c : config) : Prop := flag_ c = false /\ threads c !! 0%nat <> Some Ended /\ exists id, chained b c id /\ placed c id.

Definition finished (b : body) (c : config) : Prop := flag_ c = true /\ coros_ c = [] /\ nobody_runs c /\ trace c = actions b /\
  forall j f, frames c !! j = Some f -> is_done f = true.

Definition Inv (b : body) (n : nat) (c : config) : Prop := length (threads c) = S n /\ (running b c \/ finished b c).

Lemma replaced_thread (ts : list thread) i t t' i' : ts !! i = Some t -> <[i := t]> ts !! i' = Some t' -> (i' = i /\ t' = t) \/ ts !! i' = Some t'.
Proof. intros Hi Ht. apply list_lookup_insert_Some in Ht as [(-> & -> & _)|[_ Ht]]; auto. Qed.

Lemma sync_start_inv b n : Inv b n (start b n).
Proof.
  split; [cbn; by rewrite length_replicate|]. left. split; [done|]. split; [done|]. exists 0%nat. split.
  - exists [0%nat], (actions b). split; [by apply (chain_root _ 0 (set_continuation sync_wait_task (make_task b)))|]. split; [done|].
    intros [|j] f Hf; [by left|done].
  - left. split; [done|]. exists 0%nat. split; [done|]. intros [|i'] j; [done|]. intros Hj. change (replicate n Parked !! i' = Some (Executing j)) in Hj. apply lookup_replicate in Hj as [Hj _]. discriminate.
Qed.

Lemma nobody_insert_parked c i t : nobody_runs c -> (forall j, t <> Executing j) -> nobody_runs (set_threads (<[i := t]> (threads c)) c).
Proof. intros H Ht i' j Hi. cbn in Hi. apply list_lookup_insert_Some in Hi as [(_ & He & _)|[_ Hi]]; [by apply (Ht j)|by apply (H i' j)]. Qed.

Lemma step_inv b n c c' : Inv b n c -> step c c' -> Inv b n c'.
Proof.
  intros [Hlen Hphase] Hs. destruct Hs as [c i id f c' next Hi Hf Hr|c i id q Hi Hst Hq|c i Hi Hst|c Hi Hfl|c Hst].
  - destruct Hphase as [(Hflag & H0 & id' & Hch & Hpl)|(_ & _ & Hn & _)]; [|by destruct (Hn _ _ Hi)].
    destruct Hpl as [(Hq & i0 & Hi0 & Hu)|[_ Hn]]; [|by destruct (Hn _ _ Hi)].
    assert (i = i0) as <- by by eapply Hu. assert (id' = id) as -> by congruence.
    destruct (resume_chained _ _ _ _ _ _ Hch Hf Hr) as (Ht & _ & Hnext). rewrite Ht.
    assert (Hlt : (i < length (threads c))%nat) by by eapply lookup_lt_Some.
    assert (Hothers : forall i' j, <[i := Parked]> (threads c) !! i' <> Some (Executing j)).
    { intros i' j Hj. apply list_lookup_insert_Some in Hj as [(_ & [=] & _)|[Hne Hj]]. by apply Hne; rewrite (Hu _ _ Hj). }
    split; [cbn; by rewrite length_insert|]. destruct next as [j|].
    + destruct Hnext as (Hq' & Hf' & Hch'). left. split; [cbn; congruence|]. split.
      { cbn. intros H. apply list_lookup_insert_Some in H as [(_ & [=] & _)|[_ H]]. done. }
      exists j. split; [done|]. left. split; [cbn; congruence|]. exists i. cbn. split; [by rewrite list_lookup_insert_eq|].
      intros i' j' Hj. apply list_lookup_insert_Some in Hj as [(-> & _)|[_ Hj]]; [done|by eapply Hu].
    + destruct Hnext as [(Hq' & Hf' & Hch')|(Hq' & Hf' & Htr & Hd)].
      * left. split; [cbn; congruence|]. split; [cbn; intros H; apply list_lookup_insert_Some in H as [(_ & [=] & _)|[_ H]]; done|].
        exists id. split; [done|]. right. split; [cbn; by rewrite Hq', Hq|exact Hothers].
      * right. split; [done|]. split; [cbn; congruence|]. split; [exact Hothers|done].
  - destruct Hphase as [(Hflag & H0 & id' & Hch & Hpl)|(_ & Hq' & _)]; [|congruence].
    destruct Hpl as [[Hq' _]|[Hq' Hn]]; [congruence|]. assert (id' = id /\ q = []) as [-> ->] by (split; congruence).
    assert (Hlt : (S i < length (threads c))%nat) by by eapply lookup_lt_Some.
    split; [cbn; by rewrite length_insert|]. left. split; [done|]. split; [cbn; by rewrite list_lookup_insert_ne|]. exists id. split; [done|]. left. split; [done|].
    exists (S i). cbn. split; [by rewrite list_lookup_insert_eq|]. intros i' j Hj. apply list_lookup_insert_Some in Hj as [(-> & _)|[_ Hj]]; [done|by destruct (Hn _ _ Hj)].
  - split; [cbn; by rewrite length_insert|]. destruct Hphase as [(Hflag & H0 & id & Hch & Hpl)|(Hfl & Hq & Hn & Htr & Hd)].
    + left. split; [done|]. split; [cbn; by rewrite list_lookup_insert_ne|]. exists id. split; [done|].
      destruct Hpl as [(Hq & i0 & Hi0 & Hu)|[Hq Hn]]; [left|right].
      * split; [done|]. exists i0. cbn. assert (i0 <> S i) by congruence. rewrite list_lookup_insert_ne by done. split; [done|].
        intros i' j Hj. apply list_lookup_insert_Some in Hj as [(_ & [=] & _)|[_ Hj]]. by eapply Hu.
      * split; [done|]. by apply nobody_insert_parked.
    + right. split; [done|]. split; [done|]. split; [by apply nobody_insert_parked|done].
  - split; [cbn; by rewrite length_insert|]. destruct Hphase as [(Hflag & _)|(_ & Hq & Hn & Htr & Hd)]; [congruence|].
    right. split; [done|]. split; [done|]. split; [by apply nobody_insert_parked|done].
  - split; [done|]. destruct Hphase as [H|H]; [left|right]; exact H.
Qed.

Lemma reachable_chained b n c : reachable b n c -> Inv b n c.
Proof. induction 1 as [|c c' _ IH Hs]; [apply sync_start_inv|by eapply step_inv]. Qed.

Lemma main_ended b n c : reachable b n c -> threads c !! 0%nat = Some Ended -> trace c = actions b /\ forall j f, frames c !! j = Some f -> is_done f = true.
Proof. by intros [_ [(_ & H0 & _)|(_ & _ & _ & Htr & Hd)]]%reachable_chained He. Qed.

(** Whichever threads run the parts of a task, and however they interleave: what has been done is
    at any time a beginning of the program, in its order; at most one thread runs a part of it; and
    when [sync_wait] returns, the whole program was done, that of every awaited task included. *)
Theorem sync_wait_waits b n c : reachable b n c ->
  trace c `prefix_of` actions b /\
  (forall i i' id id', threads c !! i = Some (Executing id) -> threads c !! i' = Some (Executing id') -> i = i') /\
  (threads c !! 0%nat = Some Ended -> trace c = actions b /\ forall j f, frames c !! j = Some f -> is_done f = true).
Proof.
  intros [_ Hphase]%reachable_chained. destruct Hphase as [(Hflag & H0 & id & (ids & acts & _ & Htr & _) & Hpl)|(_ & _ & Hn & Htr & Hd)].
  - split; [by exists acts|]. split; [|done]. intros i i' j j' Hi Hi'. destruct Hpl as [(_ & i0 & _ & Hu)|[_ Hn]]; [|by destruct (Hn _ _ Hi)].
    by rewrite (Hu _ _ Hi), (Hu _ _ Hi').
  - rewrite Htr. split; [done|]. split; [|done]. intros i i' j j' Hi. by destruct (Hn _ _ Hi).
Qed.

(** The steps that the coroutines, the queue and the waiting thread have left. *)
Definition frame_weight (f : frame) : nat := if is_done f then 0 else weight (rest f).

Definition total_weight (fs : list frame) : nat := list_sum (map frame_weight fs).

#[local] Arguments total_weight : simpl never.

Definition remaining (c : config) : nat :=
  (total_weight (frames c) + length (coros_ c) + match threads c !! 0%nat with Some Ended => 0 | _ => 1 end)%nat.

Lemma total_weight_insert (fs : list frame) id f g : fs !! id = Some f ->
  (total_weight (<[id := g]> fs) + frame_weight f = total_weight fs + frame_weight g)%nat.
Proof.
  revert id. induction fs as [|h fs IH]; intros [|id] Hf; [done|done| |].
  - injection Hf as ->. change (frame_weight g + total_weight fs + frame_weight f = frame_weight f + total_weight fs + frame_weight g)%nat. lia.
  - specialize (IH id Hf). change (total_weight (<[S id:=g]> (h :: fs))) with (frame_weight h + total_weight (<[id:=g]> fs))%nat.
    change (total_weight (h :: fs)) with (frame_weight h + total_weight fs)%nat. lia.
Qed.

Lemma resume_remaining id f c c' next : frames c !! id = Some f -> is_done f = false -> resume id f c = (c', next) ->
  (total_weight (frames c) + length (coros_ c) = S (total_weight (frames c') + length (coros_ c')))%nat.
Proof.
  intros Hf Hd Hr. assert (Hw : frame_weight f = weight (rest f)) by by (unfold frame_weight; rewrite Hd).
  assert (Hfin : forall g, final_suspend id g c = (c', next) -> weight (rest f) = 1%nat ->
    (total_weight (frames c) + length (coros_ c) = S (total_weight (frames c') + length (coros_ c')))%nat).
  { intros g Hg H1. pose proof (total_weight_insert _ _ _ (set_done g) Hf) as Hs. change (frame_weight (set_done g)) with 0%nat in Hs.
    unfold final_suspend in Hg. destruct (continuation_ g); injection Hg as <- _; cbn; lia. }
  unfold resume in Hr. destruct (rest f) as [|e|a k|k|b' k] eqn:Hb; [by eapply Hfin|by eapply Hfin|injection Hr as <- _..];
    pose proof (total_weight_insert _ _ _ (set_rest k f) Hf) as Hs; assert (Hk : frame_weight (set_rest k f) = weight k) by (by unfold frame_weight; cbn; rewrite Hd);
    cbn in Hw |- *.
  - lia.
  - rewrite length_app. cbn. lia.
  - unfold total_weight in *. rewrite map_app, list_sum_app. cbn. lia.
Qed.

(** Only a shutdown ends a worker. *)
Lemma worker_ended b n c i : reachable b n c -> threads c !! S i = Some Ended -> stopped_ c = true.
Proof.
  intros Hr. revert i. induction Hr as [|c c' Hr IH Hs]; intros w Hw.
  - change (replicate n Parked !! w = Some Ended) in Hw. apply lookup_replicate in Hw as [Hw _]. discriminate.
  - pose proof (reachable_chained _ _ _ Hr) as [Hlen Hphase].
    destruct Hs as [c i id f c' next Hi Hf Hre|c i id q Hi Hst Hq|c i Hi Hst|c Hi Hfl|c Hst]; cbn in Hw |- *; [|..|done].
    + destruct Hphase as [(_ & _ & id' & Hch & Hpl)|(_ & _ & Hn & _)]; [|by destruct (Hn _ _ Hi)].
      destruct Hpl as [(_ & i0 & Hi0 & Hu)|[_ Hn]]; [|by destruct (Hn _ _ Hi)].
      assert (i = i0) as <- by by eapply Hu. assert (id' = id) as -> by congruence.
      destruct (resume_chained _ _ _ _ _ _ Hch Hf Hre) as (Ht & -> & _). rewrite Ht in Hw.
      apply list_lookup_insert_Some in Hw as [(_ & He & _)|[_ Hw]]; [by destruct next|by eapply IH].
    + apply list_lookup_insert_Some in Hw as [(_ & He & _)|[_ Hw]]; [done|by eapply IH].
    + done.
    + apply list_lookup_insert_Some in Hw as [(He & _)|[_ Hw]]; [done|by eapply IH].
Qed.

Lemma undone_placed b c id : chained b c id -> exists f, frames c !! id = Some f /\ is_done f = false.
Proof. intros (ids & acts & Hch & _). destruct (chain_top _ _ _ _ Hch) as (f & _ & _ & Hf & Hd & _). by exists f. Qed.

(** A step that shuts nothing down. *)
Lemma step_remaining b n c c' : reachable b n c -> step c c' -> stopped_ c' = false -> remaining c = S (remaining c').
Proof.
  intros Hr Hs Hst'. pose proof (reachable_chained _ _ _ Hr) as [Hlen Hphase].
  destruct Hs as [c i id f c' next Hi Hf Hre|c i id q Hi Hst Hq|c i Hi Hst|c Hi Hfl|c Hst]; cbn in Hst'; [| |congruence| |done].
  - destruct Hphase as [(_ & H0 & id' & Hch & Hpl)|(_ & _ & Hn & _)]; [|by destruct (Hn _ _ Hi)].
    destruct Hpl as [(_ & i0 & Hi0 & Hu)|[_ Hn]]; [|by destruct (Hn _ _ Hi)].
    assert (i = i0) as <- by by eapply Hu. assert (id' = id) as -> by congruence.
    destruct (resume_chained _ _ _ _ _ _ Hch Hf Hre) as (Ht & _ & _). destruct (undone_placed _ _ _ Hch) as (f' & Hf' & Hd).
    assert (f' = f) as -> by congruence. pose proof (resume_remaining _ _ _ _ _ Hf Hd Hre) as Hw. unfold remaining. cbn. rewrite Ht.
    assert (Hlt : (i < length (threads c))%nat) by by eapply lookup_lt_Some.
    assert (match <[i:=next_thread next]> (threads c) !! 0%nat with Some Ended => 0%nat | _ => 1%nat end = 1%nat) as ->.
    { destruct i as [|i]; [rewrite list_lookup_insert_eq by done; by destruct next|]. rewrite list_lookup_insert_ne by done.
      by destruct (threads c !! 0%nat) as [[]|]. }
    assert (match threads c !! 0%nat with Some Ended => 0%nat | _ => 1%nat end = 1%nat) as -> by (by destruct (threads c !! 0%nat) as [[]|]). lia.
  - unfold remaining. cbn. rewrite Hq, list_lookup_insert_ne by done. cbn. lia.
  - unfold remaining. cbn. rewrite Hi, list_lookup_insert_eq by (rewrite Hlen; lia). lia.
Qed.

(** [sync_wait] returns: as long as the pool is not shut down and has a worker, some step can
    be made until it has, and the program fixes the number of the steps. *)
Theorem sync_wait_returns b n c : reachable b (S n) c -> stopped_ c = false ->
  remaining (start b (S n)) = S (weight b) /\
  (forall c', step c c' -> stopped_ c' = false -> remaining c = S (remaining c')) /\
  (threads c !! 0%nat = Some Ended \/ exists c', step c c' /\ stopped_ c' = false).
Proof.
  intros Hr Hst. split; [change (weight b + 0 + 0 + 1 = S (weight b))%nat; lia|]. split; [intros c' Hs Hst'; by eapply step_remaining|].
  pose proof (reachable_chained _ _ _ Hr) as [Hlen Hphase].
  assert (Hmain : exists t, threads c !! 0%nat = Some t) by (apply lookup_lt_is_Some; lia). destruct Hmain as [t0 Ht0].
  destruct Hphase as [(_ & _ & id & Hch & Hpl)|(Hfl & Hq & Hn & _)].
  - right. destruct Hpl as [(_ & i & Hi & Hu)|[Hq Hn]].
    + destruct (undone_placed _ _ _ Hch) as (f & Hf & _). destruct (resume id f c) as [c' next] eqn:Hre.
      eexists. split; [by eapply step_resume|]. cbn. destruct (resume_chained _ _ _ _ _ _ Hch Hf Hre) as (_ & -> & _). done.
    + assert (exists t, threads c !! 1%nat = Some t) as [t Ht] by (apply lookup_lt_is_Some; lia).
      destruct t as [j| |]; [by destruct (Hn _ _ Ht)| |pose proof (worker_ended _ _ _ _ Hr Ht); congruence].
      eexists. split; [by eapply step_worker|done].
  - destruct t0 as [j| |]; [by destruct (Hn _ _ Ht0)| |by left]. right. eexists. split; [by apply step_event|done].
Qed.

(** ** What is not as it was meant *)

(** Nobody rethrows what a task has stored: a program that awaits a task that throws goes on
    as if it had returned, for every program, and so does [sync_wait] of it. *)
Theorem exception_lost e k n c : reachable (Await (Raise e) k) n c -> threads c !! 0%nat = Some Ended -> trace c = actions k.
Proof. intros Hr He. destruct (main_ended _ _ _ Hr He) as [-> _]. done. Qed.

(** The waiting thread waits, a coroutine is in the queue, the pool is shut down. *)
Definition stranded (c : config) : Prop := stopped_ c = true /\ flag_ c = false /\ coros_ c <> [] /\ nobody_runs c.

Inductive steps : config -> config -> Prop :=
| steps_none c : steps c c
| steps_one c c' c'' : step c c' -> steps c' c'' -> steps c c''.

(** A pool that is shut down while a coroutine is in its queue never resumes it: the thread in
    [sync_wait] waits forever. *)
Theorem shutdown_strands b n c c' : reachable b n c -> stranded c -> steps c c' -> threads c' !! 0%nat <> Some Ended /\ trace c' = trace c.
Proof.
  intros Hr Hst Hs. revert Hr Hst. induction Hs as [c|c c' c'' Hstep Hs IH]; intros Hr (Hstop & Hfl & Hq & Hn).
  - split; [|done]. apply reachable_chained in Hr as [_ [(_ & H & _)|(H & _)]]; congruence.
  - assert (trace c' = trace c /\ stranded c') as [<- Hst].
    { destruct Hstep as [c i id f c' next Hi|c i id q Hi Hst|c i Hi Hst|c Hi Hf|c Hst]; [by destruct (Hn _ _ Hi)|congruence| |congruence|congruence].
      split; [done|]. split; [done|]. split; [done|]. split; [done|]. by apply nobody_insert_parked. }
    apply IH; [by eapply reachable_step|done].
Qed.

(** ** Concrete inputs *)

(** The step of thread [i], if it has one. *)
Definition thread_step (c : config) (i : nat) : option config :=
  match threads c !! i, i with
  | Some (Executing id), _ => f ← frames c !! id; let '(c', next) := resume id f c in Some (set_threads (<[i := next_thread next]> (threads c')) c')
  | Some Parked, O => if flag_ c then Some (set_threads (<[0%nat := Ended]> (threads c)) c) else None
  | Some Parked, S _ => if stopped_ c then Some (set_threads (<[i := Ended]> (threads c)) c)
                        else match coros_ c with [] => None | id :: q => Some (set_threads (<[i := Executing id]> (threads c)) (set_coros q c)) end
  | _, _ => None
  end.

Fixpoint schedule_run (c : config) (sched : list nat) : option config :=
  match sched with [] => Some c | i :: sched => c' ← thread_step c i; schedule_run c' sched end.

Lemma thread_step_sound c i c' : thread_step c i = Some c' -> step c c'.
Proof.
  unfold thread_step. intros H. destruct (threads c !! i) as [[id| |]|] eqn:Hi; [|destruct i as [|i]|done|done].
  - destruct (frames c !! id) as [f|] eqn:Hf; [|done]. cbn in H. destruct (resume id f c) as [c1 next] eqn:Hr. injection H as <-. by eapply step_resume.
  - destruct (flag_ c) eqn:Hf; [|done]. injection H as <-. by apply step_event.
  - destruct (stopped_ c) eqn:Hs; [injection H as <-; by apply step_worker_stops|]. destruct (coros_ c) eqn:Hq; [done|]. injection H as <-. by eapply step_worker.
Qed.

Lemma schedule_run_reachable b n c sched c' : reachable b n c -> schedule_run c sched = Some c' -> reachable b n c'.
Proof.
  revert c. induction sched as [|i sched IH]; cbn; intros c Hr H; [by injection H as <-|].
  destruct (thread_step c i) as [c1|] eqn:H1; [|done]. apply thread_step_sound in H1. eapply IH; [by eapply reachable_step|done].
Qed.

(** A task that moves to the pool, awaits one that moves again, and acts in between. *)
Definition example : body := Work 1 (Schedule (Work 2 (Await (Schedule (Work 3 Return)) (Work 4 Return)))).

Definition run_of (b : body) (n : nat) (sched : list nat) : config := default (start b n) (schedule_run (start b n) sched).

Lemma run_of_reachable b n sched : is_Some (schedule_run (start b n) sched) -> reachable b n (run_of b n sched).
Proof. intros [c Hc]. unfold run_of. rewrite Hc. eapply schedule_run_reachable; [apply reachable_start|done]. Qed.

Definition example_end : config := Eval vm_compute in run_of example 2 [0; 0; 2; 2; 2; 2; 1; 1; 1; 1; 1; 0]%nat.

Lemma example_end_reachable : reachable example 2 example_end.
Proof.
  assert (example_end = run_of example 2 [0; 0; 2; 2; 2; 2; 1; 1; 1; 1; 1; 0]%nat) as -> by (vm_compute; reflexivity).
  apply run_of_reachable. vm_compute. by eexists.
Qed.

Lemma sync_wait_waits_witness : threads example_end !! 0%nat = Some Ended /\ trace example_end = [1; 2; 3; 4]%nat.
Proof.
  split; [reflexivity|]. destruct (sync_wait_waits example 2 example_end example_end_reachable) as (_ & _ & H). destruct (H eq_refl) as [Ht _]. exact Ht.
Defined.

Definition example_middle : config := Eval vm_compute in run_of example 2 [0; 0]%nat.

Lemma example_middle_reachable : reachable example 2 example_middle.
Proof.
  assert (example_middle = run_of example 2 [0; 0]%nat) as -> by (vm_compute; reflexivity). apply run_of_reachable. vm_compute. by eexists.
Qed.

Lemma sync_wait_returns_witness : threads example_middle !! 0%nat <> Some Ended /\ exists c', step example_middle c' /\ stopped_ c' = false.
Proof.
  split; [discriminate|]. destruct (sync_wait_returns example 1 example_middle example_middle_reachable eq_refl) as (_ & _ & [H|H]); [discriminate H|exact H].
Defined.

Definition throwing : body := Await (Raise logic_error) (Work 7 Return).

Definition throwing_run : config := Eval vm_compute in run_of throwing 0 [0; 0; 0; 0; 0]%nat.

Lemma throwing_reachable : reachable throwing 0 throwing_run.
Proof.
  assert (throwing_run = run_of throwing 0 [0; 0; 0; 0; 0]%nat) as -> by (vm_compute; reflexivity). apply run_of_reachable. vm_compute. by eexists.
Qed.

Lemma exception_lost_witness : threads throwing_run !! 0%nat = Some Ended /\ trace throwing_run = [7%nat].
Proof. split; [reflexivity|]. exact (exception_lost logic_error (Work 7 Return) 0 throwing_run throwing_reachable eq_refl). Defined.

(** The first two steps of the example, and a shutdown. *)
Definition stranded_config : config :=
  mk_config (frames example_middle) (coros_ example_middle) true (threads example_middle) (flag_ example_middle) (trace example_middle).

Lemma stranded_config_ok : stranded stranded_config /\ reachable example 2 stranded_config.
Proof.
  split; [|eapply reachable_step; [exact example_middle_reachable|by apply step_shutdown]].
  do 2 (split; [reflexivity|]). split; [discriminate|]. intros [|[|[|i]]] j; discriminate.
Qed.

Lemma shutdown_strands_witness : stranded stranded_config /\ threads stranded_config !! 0%nat <> Some Ended.
Proof.
  split; [exact (proj1 stranded_config_ok)|].
  exact (proj1 (shutdown_strands example 2 stranded_config stranded_config (proj2 stranded_config_ok) (proj1 stranded_config_ok) (steps_none _))).
Defined.
