(* ===== verification/Awaitable.v ===== *)
(** * Awaitable events

    Models learn-cxx/coroutine/awaitable_event (event.h, event.cpp, event_poller.cpp, noreturn.h):
    coroutines that await events, threads that signal them, and a thread that polls an epoll
    instance and resumes what it gets.  A step is one access to what the threads share.  That
    the kernel has no descriptors left is not modelled. *)

From stdpp Require Import gmap gmultiset.
From S2P Require Import Prelude.

#[local] Open Scope Z_scope.

(** [counter] is that of the [eventfd]. *)
Record waitable_event := mk_event { signaled_ : bool; counter : Z }.

Definition new_event : waitable_event := mk_event false 0.

(** The largest count that an eventfd holds. *)
Definition counter_max : Z := 2 ^ 64 - 2.

(** What the polling thread does: nothing, the body of coroutine [id] that awaits the events of
    the list one after the other, [await_suspend], [await_resume], or it has used a
    coroutine that is gone. *)
Inductive phase :=
| Free
| Running (id : nat) (es : list nat)
| Suspending (id e : nat) (es : list nat)
| Resuming (id e : nat) (es : list nat)
| Broken.

(** [registered]: the data of the epoll instance, by event; [frames]: the suspended coroutines,
    with what they await and what comes then; [yielded]: what [signaled_events] has still to
    yield; [writing]: the events whose flag a thread has set and whose descriptor it has not
    written.  For the statements: [signals], the events that were signalled, and [passed], the
    awaits that have returned. *)
Record state := mk_state {
  events : list waitable_event;
  registered : gmap nat nat;
  frames : gmap nat (nat * list nat);
  started : nat;
  yielded : list nat;
  doing : phase;
  writing : gmultiset nat;
  signals : list nat;
  passed : list (nat * nat)
}.

Definition set_doing p s := mk_state (events s) (registered s) (frames s) (started s) (yielded s) p (writing s) (signals s) (passed s).
Definition set_events es s := mk_state es (registered s) (frames s) (started s) (yielded s) (doing s) (writing s) (signals s) (passed s).
Definition set_frames fs s := mk_state (events s) (registered s) fs (started s) (yielded s) (doing s) (writing s) (signals s) (passed s).
Definition set_yielded ys s := mk_state (events s) (registered s) (frames s) (started s) ys (doing s) (writing s) (signals s) (passed s).
Definition set_writing ws s := mk_state (events s) (registered s) (frames s) (started s) (yielded s) (doing s) ws (signals s) (passed s).

(** [epoll_ctl]: the event gets the data, whether it was there or not. *)
Definition add_event (e id : nat) s := mk_state (events s) (<[e := id]> (registered s)) (frames s) (started s) (yielded s) (doing s) (writing s) (signals s) (passed s).

Definition await_ready (e : nat) (s : state) : option bool := match events s !! e with Some ev => Some (signaled_ ev) | None => None end.

(** The coroutine is suspended, and its handle registered. *)
Definition await_suspend (id e : nat) (es : list nat) (s : state) : state :=
  set_doing Free (add_event e id (set_frames (<[id := (e, es)]> (frames s)) s)).

Definition await_resume (id e : nat) (s : state) : state :=
  mk_state (alter (fun ev => mk_event false (counter ev)) e (events s)) (registered s) (frames s) (started s) (yielded s) (doing s) (writing s) (signals s)
    (passed s ++ [(id, e)]).

(** Level-triggered: an event is ready as long as its counter is not zero. *)
Definition is_ready (s : state) (e : nat) : Prop := match events s !! e with Some ev => 0 < counter ev | None => False end.

#[global] Instance is_ready_dec s e : Decision (is_ready s e).
Proof. unfold is_ready. destruct (events s !! e); apply _. Defined.

Definition ready (s : state) : gset nat := filter (is_ready s) (dom (registered s)).

Section Program.

(** The bodies of the coroutines, in the order in which they are started. *)
Context (prog : list (list nat)).

Inductive action := Spawn | Go | Poll (order : list nat) | Signal (e : nat) | Write (e : nat).

(** The next step of the polling thread. *)
Definition go (s : state) : option state :=
  match doing s with
  | Free => match yielded s with
            | [] => None
            | id :: ys => match frames s !! id with
                          | None => Some (set_doing Broken s)
                          | Some (e, es) => Some (set_doing (Resuming id e es) (set_yielded ys (set_frames (delete id (frames s)) s)))
                          end
            end
  | Running id [] => Some (set_doing Free s)
  | Running id (e :: es) => match await_ready e s with
                            | Some true => Some (set_doing (Resuming id e es) s)
                            | Some false => Some (set_doing (Suspending id e es) s)
                            | None => None
                            end
  | Suspending id e es => Some (await_suspend id e es s)
  | Resuming id e es => Some (set_doing (Running id es) (await_resume id e s))
  | Broken => None
  end.

(** A coroutine runs from when it is made. *)
Definition spawn (s : state) : option state :=
  match doing s, yielded s, prog !! started s with
  | Free, [], Some es => Some (mk_state (events s) (registered s) (frames s) (S (started s)) [] (Running (started s) es) (writing s) (signals s) (passed s))
  | _, _, _ => None
  end.

(** [epoll_wait] gives what is ready, in an order of its own. *)
Definition poll (order : list nat) (s : state) : option state :=
  match doing s, yielded s with
  | Free, [] => if bool_decide (NoDup order) && bool_decide (list_to_set order = ready s) then Some (set_yielded (omap (registered s !!.) order) s) else None
  | _, _ => None
  end.

Definition add_signal e s := mk_state (events s) (registered s) (frames s) (started s) (yielded s) (doing s) (writing s) (e :: signals s) (passed s).

(** [waitable_event::signal]: the exchange, and the write that follows it. *)
Definition signal (e : nat) (s : state) : option state :=
  match events s !! e with
  | None => None
  | Some ev => let s := add_signal e s in
               if signaled_ ev then Some s else Some (set_writing ({[+ e +]} ⊎ writing s) (set_events (<[e := mk_event true (counter ev)]> (events s)) s))
  end.

(** [eventfd_write]; it fails when the counter is at its maximum. *)
Definition eventfd_write (e : nat) (s : state) : option state :=
  match events s !! e with
  | None => None
  | Some ev => if bool_decide (e ∈ writing s) then
                 Some (set_writing (writing s ∖ {[+ e +]})
                        (if counter ev <? counter_max then set_events (<[e := mk_event (signaled_ ev) (counter ev + 1)]> (events s)) s else s))
               else None
  end.

Definition exec (a : action) (s : state) : option state :=
  match a with
  | Spawn => spawn s
  | Go => go s
  | Poll order => poll order s
  | Signal e => signal e s
  | Write e => eventfd_write e s
  end.

Definition init (n : nat) : state := mk_state (replicate n new_event) ∅ ∅ 0 [] Free ∅ [] [].

Fixpoint run (acts : list action) (s : state) : option state :=
  match acts with [] => Some s | a :: acts => s' ← exec a s; run acts s' end.

Definition reachable (n : nat) (s : state) : Prop := exists acts, run acts (init n) = Some s.


Lemma run_app acts acts' s : run (acts ++ acts') s = run acts s ≫= run acts'.
Proof. revert s. induction acts as [|a acts IH]; intros s; [done|]. cbn. destruct (exec a s) as [s'|]; [apply IH|done]. Qed.

(** Induction over what can be reached. *)
Lemma reachable_ind (n : nat) (P : state -> Prop) : P (init n) -> (forall s a s', reachable n s -> P s -> exec a s = Some s' -> P s') ->
  forall s, reachable n s -> P s.
Proof.
  intros H0 Hs s [acts Hr]. assert (Hgo : forall s0, reachable n s0 -> P s0 -> run acts s0 = Some s -> P s); [|by apply (Hgo (init n)); [exists []| |]].
  clear Hr. induction acts as [|a acts IH]; cbn; intros s0 Hre Hp Hr; [by injection Hr as <-|].
  destruct (exec a s0) as [s1|] eqn:Ha; [|done]. apply (IH s1); [|by eapply Hs|done].
  destruct Hre as [acts0 H]. exists (acts0 ++ [a]). rewrite run_app, H. cbn. by rewrite Ha.
Qed.

(** ** Flags, counters and signals *)

(** A set flag has its counter written, or its thread is about to. *)
Definition event_ok (s : state) (e : nat) (ev : waitable_event) : Prop :=
  0 <= counter ev <= counter_max /\
  (signaled_ ev = true -> 0 < counter ev \/ e ∈ writing s) /\
  (signaled_ ev = true \/ 0 < counter ev \/ e ∈ writing s -> e ∈ signals s).

Definition events_ok (s : state) : Prop := forall e ev, events s !! e = Some ev -> event_ok s e ev.

(** The cases of a step. *)
Ltac step_cases H :=
  cbn [exec] in H; unfold go, spawn, poll, signal, eventfd_write, await_ready in H;
  repeat first [ progress (cbn beta iota zeta in H) | discriminate H
               | match type of H with (match ?x with _ => _ end) = _ => let E := fresh "E" in destruct x eqn:E end ];
  try discriminate H; injection H as <-.

Lemma writing_add (e x : nat) (ws : gmultiset nat) : x ∈ ({[+ e +]} ⊎ ws : gmultiset nat) <-> x = e \/ x ∈ ws.
Proof. by rewrite gmultiset_elem_of_disj_union, gmultiset_elem_of_singleton. Qed.

Lemma writing_sub (e x : nat) (ws : gmultiset nat) : x ∈ (ws ∖ {[+ e +]} : gmultiset nat) -> x ∈ ws.
Proof. multiset_solver. Qed.

Lemma writing_sub_ne (e x : nat) (ws : gmultiset nat) : x <> e -> x ∈ ws -> x ∈ (ws ∖ {[+ e +]} : gmultiset nat).
Proof. multiset_solver. Qed.

(** An event that a step leaves as it is. *)
Lemma event_ok_frame s s' e ev : event_ok s e ev -> (e ∈ writing s <-> e ∈ writing s') -> (e ∈ signals s -> e ∈ signals s') -> event_ok s' e ev.
Proof. intros (H1 & H2 & H3) Hw Hs. split; [done|]. split; [rewrite <- Hw; exact H2|]. rewrite <- Hw. auto. Qed.

Lemma events_ok_step a s s' : events_ok s -> exec a s = Some s' -> events_ok s'.
Proof.
  intros Hok H. destruct a as [| |order|e|e].
  - step_cases H. exact Hok.
  - step_cases H; try exact Hok. intros e' ev He. cbn in He. destruct (decide (e = e')) as [<-|Hne]; [|rewrite list_lookup_alter_ne in He by done; exact (Hok _ _ He)].
    rewrite list_lookup_alter_eq in He. destruct (events s !! e) as [ev'|] eqn:Hev; [|done]. injection He as <-. destruct (Hok _ _ Hev) as (H1 & _ & H3). split; [done|]. split; [done|]. intros [?|H]; [done|]. apply H3. by right.
  - step_cases H. exact Hok.
  - step_cases H.
    + intros e' ev He. apply (event_ok_frame s); [exact (Hok _ _ He)|done|]. intros H. by right.
    + intros e' ev He. cbn in He. apply list_lookup_insert_Some in He as [(<- & <- & _)|[Hne He]].
      * destruct (Hok _ _ E) as (H1 & _). split; [done|]. split; [intros _; right; apply writing_add; by left|]. intros _. by left.
      * apply (event_ok_frame s); [exact (Hok _ _ He)| |by right]. split; [intros H; apply writing_add; by right|intros H; apply writing_add in H as [?|?]; [congruence|done]].
  - step_cases H; apply bool_decide_eq_true in E0; pose proof (Hok _ _ E) as (H1 & H2 & H3); destruct (counter w <? counter_max) eqn:E1; zify_bool;
      (intros e' ev He; cbn in He; destruct (decide (e' = e)) as [->|Hne];
       [|try rewrite list_lookup_insert_ne in He by done; apply (event_ok_frame s); [exact (Hok _ _ He)| |done]; split; [by apply writing_sub_ne|apply writing_sub]]).
    + rewrite list_lookup_insert_eq in He by (by eapply lookup_lt_Some). injection He as <-. split; [cbn; lia|]. cbn. split; [left; lia|]. intros _. apply H3. by right; right.
    + assert (ev = w) as -> by congruence. split; [done|]. cbn. split; [left; unfold counter_max in *; lia|]. intros _. apply H3. by right; right.
Qed.

Lemma reachable_events_ok n s : reachable n s -> events_ok s.
Proof.
  revert s. apply reachable_ind; [|intros s a s' _; apply events_ok_step].
  intros e ev He. cbn in He. apply lookup_replicate in He as [-> _]. split; [done|]. split; [done|]. intros [?|[?|?]]; [done|done|multiset_solver].
Qed.

(** ** Events that only one coroutine awaits *)

Definition owns (id e : nat) : Prop := exists b, prog !! id = Some b /\ e ∈ b.

Definition rest_of (id : nat) (es : list nat) : Prop := exists b, prog !! id = Some b /\ es `suffix_of` b.

Lemma rest_of_tail id e es : rest_of id (e :: es) -> owns id e /\ rest_of id es.
Proof.
  intros (b & Hb & [k ->]). split; exists (k ++ e :: es); (split; [done|]); [rewrite elem_of_app; right; by left|]. exists (k ++ [e]). by rewrite <- app_assoc.
Qed.

(** What the coroutines, their handles and their bodies are to each other. *)
Definition coroutines_ok (s : state) : Prop :=
  (forall e id, registered s !! e = Some id -> owns id e) /\
  (forall id e es, frames s !! id = Some (e, es) -> rest_of id (e :: es)) /\
  match doing s with
  | Running id es => rest_of id es
  | Suspending id e es | Resuming id e es => rest_of id (e :: es)
  | Free | Broken => True
  end.

Lemma coroutines_ok_step a s s' : coroutines_ok s -> exec a s = Some s' -> coroutines_ok s'.
Proof.
  intros Hok H. pose proof Hok as (Hr & Hf & Hd). destruct a as [| |order|e|e].
  - step_cases H. split; [done|]. split; [done|]. by exists l.
  - step_cases H; try done; (split; [|split]); try done; cbn.
    + intros id' e' es' H. rewrite lookup_delete_Some in H. naive_solver.
    + subst p. by eapply Hf.
    + intros e' id'. rewrite lookup_insert_Some. intros [(<- & <-)|[_ H]]; [by eapply rest_of_tail|by apply Hr].
    + intros id' e' es'. rewrite lookup_insert_Some. intros [(<- & [= <- <-])|[_ H]]; [done|by eapply Hf].
    + by eapply rest_of_tail.
  - step_cases H. exact Hok.
  - step_cases H; exact Hok.
  - step_cases H; destruct (counter w <? counter_max); exact Hok.
Qed.

Lemma reachable_coroutines_ok n s : reachable n s -> coroutines_ok s.
Proof. revert s. apply reachable_ind; [|intros s a s' _; apply coroutines_ok_step]. split; [done|]. by split. Qed.

Section Disjoint.

(** No event is awaited by two coroutines. *)
Context (disjoint : forall e id id', owns id e -> owns id' e -> id = id').

Definition registered_ok (s : state) : Prop := forall id e es, frames s !! id = Some (e, es) -> registered s !! e = Some id.

Lemma reachable_registered n s : reachable n s -> registered_ok s.
Proof.
  revert s. apply reachable_ind; [done|]. intros s a s' Hre%reachable_coroutines_ok Hok H. destruct Hre as (Hr & Hf & Hd). destruct a as [| |order|e|e].
  - step_cases H. exact Hok.
  - step_cases H; try exact Hok; intros id' e' es' H; cbn in H |- *.
    + apply lookup_delete_Some in H as [_ H]. by eapply Hok.
    + apply lookup_insert_Some in H as [(<- & [= <- <-])|[Hne H]]; [apply lookup_insert_eq|].
      assert (e' <> e). { intros ->. apply Hne. apply rest_of_tail in Hd as [Hd _]. apply Hf, rest_of_tail in H as [H _]. by eapply disjoint. }
      rewrite lookup_insert_ne by done. by eapply Hok.
  - step_cases H. exact Hok.
  - step_cases H; exact Hok.
  - step_cases H; destruct (counter w <? counter_max); exact Hok.
Qed.

(** An event that is registered and has its counter written stays so, with the same coroutine. *)
Lemma registered_stays n s a s' e id : reachable n s -> registered s !! e = Some id -> is_ready s e -> exec a s = Some s' ->
  registered s' !! e = Some id /\ is_ready s' e.
Proof.
  intros Hre He Hc H. pose proof (reachable_events_ok _ _ Hre) as Hev. apply reachable_coroutines_ok in Hre as (Hr & Hf & Hd). destruct a as [| |order|e'|e'].
  - step_cases H. done.
  - step_cases H; try done; cbn.
    + split; [|done]. apply rest_of_tail in Hd as [Hd _]. destruct (decide (e0 = e)) as [->|Hne]; [|by rewrite lookup_insert_ne].
      rewrite lookup_insert_eq. f_equal. apply (disjoint e); [done|by apply Hr].
    + split; [done|]. unfold is_ready in *. cbn. destruct (decide (e0 = e)) as [->|Hne]; [|by rewrite list_lookup_alter_ne].
      rewrite list_lookup_alter_eq. by destruct (events s !! e).
  - step_cases H. done.
  - step_cases H; [done|]. split; [done|]. unfold is_ready in *. cbn. destruct (decide (e' = e)) as [->|Hne]; [|by rewrite list_lookup_insert_ne].
    rewrite list_lookup_insert_eq by (by eapply lookup_lt_Some). by rewrite E in Hc.
  - step_cases H. destruct (counter w <? counter_max); [|done]. split; [done|]. unfold is_ready in *. cbn. destruct (decide (e' = e)) as [->|Hne]; [|by rewrite list_lookup_insert_ne].
    rewrite list_lookup_insert_eq by (by eapply lookup_lt_Some). rewrite E in Hc. cbn. lia.
Qed.

Lemma poll_yields order s s' e id : registered s !! e = Some id -> is_ready s e -> poll order s = Some s' -> id ∈ yielded s'.
Proof.
  intros He Hc H. unfold poll in H. destruct (doing s); try done. destruct (yielded s); [|done].
  destruct (bool_decide (NoDup order)); [|done]. destruct (bool_decide_reflect (list_to_set order = ready s)) as [Ho|]; [|done]. injection H as <-.
  cbn. apply list_elem_of_omap. exists e. split; [|done]. apply (elem_of_list_to_set (C := gset nat)). rewrite Ho. apply elem_of_filter. split; [done|]. apply elem_of_dom. by exists id.
Qed.

(** No signal is lost, whenever it comes: a coroutine that is suspended until an event that was
    signalled is yielded by the next poll, once the thread that signals is through. *)
Theorem no_signal_lost n s id e es ev order s' : reachable n s -> frames s !! id = Some (e, es) -> events s !! e = Some ev -> signaled_ ev = true ->
  e ∉ writing s -> poll order s = Some s' -> id ∈ yielded s'.
Proof.
  intros Hre Hf He Hs Hw Hp. apply (poll_yields order s s' e id); [by eapply reachable_registered| |done].
  destruct (reachable_events_ok _ _ Hre e ev He) as (_ & H & _). unfold is_ready. rewrite He. by destruct (H Hs).
Qed.

(** An event stays ready once it was signalled: its descriptor is never read.  Whatever is done
    later, every poll yields its coroutine again. *)
Theorem yielded_again n s acts s1 e id order s2 : reachable n s -> registered s !! e = Some id -> is_ready s e ->
  run acts s = Some s1 -> poll order s1 = Some s2 -> id ∈ yielded s2.
Proof.
  intros Hre He Hc Hr. assert (registered s1 !! e = Some id /\ is_ready s1 e) as [H1 H2]; [|intros Hp; exact (poll_yields order s1 s2 e id H1 H2 Hp)].
  revert s Hre He Hc Hr. induction acts as [|a acts IH]; cbn; intros s Hre He Hc Hr; [by injection Hr as <-|].
  destruct (exec a s) as [s3|] eqn:Ha; [|done]. destruct (registered_stays _ _ _ _ _ _ Hre He Hc Ha) as [He3 Hc3]. apply (IH s3); try done.
  destruct Hre as [acts0 H]. exists (acts0 ++ [a]). rewrite run_app, H. cbn. by rewrite Ha.
Qed.

End Disjoint.

(** ** Coroutines that await once *)

Section Single.

Context (single : forall id b, prog !! id = Some b -> (length b <= 1)%nat).

(** The coroutine that the polling thread runs. *)
Definition running_of (s : state) : option nat :=
  match doing s with Running id _ | Suspending id _ _ | Resuming id _ _ => Some id | Free | Broken => None end.

Definition single_ok (s : state) : Prop :=
  (forall id, id ∈ yielded s -> exists e, owns id e /\ e ∈ signals s) /\
  (forall id e, (id, e) ∈ passed s -> e ∈ signals s) /\
  (forall id f, frames s !! id = Some f -> (id < started s)%nat /\ running_of s <> Some id) /\
  (forall id, running_of s = Some id -> (id < started s)%nat) /\
  match doing s with Resuming _ e _ => e ∈ signals s | _ => True end.

Lemma rest_of_single id e es : rest_of id (e :: es) -> prog !! id = Some [e] /\ es = [].
Proof.
  intros (b & Hb & [k ->]). apply single in Hb as Hl. rewrite length_app in Hl. cbn in Hl. destruct k; [|cbn in Hl; lia]. destruct es; [done|cbn in Hl; lia].
Qed.

Lemma owns_single id e : owns id e -> prog !! id = Some [e].
Proof.
  intros (b & Hb & He). apply single in Hb as Hl. destruct b as [|x [|y b]]; [by apply elem_of_nil in He| |cbn in Hl; lia]. by apply list_elem_of_singleton in He as ->.
Qed.

Lemma single_ok_step n s a s' : reachable n s -> single_ok s -> exec a s = Some s' -> single_ok s'.
Proof.
  intros Hre Hok H. pose proof (reachable_events_ok _ _ Hre) as Hev. apply reachable_coroutines_ok in Hre as (Hr & Hf & Hd).
  pose proof Hok as (H1 & H2 & H3 & H4 & H5). unfold running_of in *. destruct a as [| |order|e|e].
  - step_cases H. split; [intros id H; by apply elem_of_nil in H|]. split; [done|]. cbn. split; [|split; [|done]].
    + intros id f Hid. destruct (H3 id f Hid). split; [lia|]. intros [= Heq]. lia.
    + intros id [= Heq]. lia.
  - step_cases H; rewrite ?E in *.
    + destruct (H1 n0) as (e & He & Hs); [by left|]. subst p. apply owns_single in He. destruct (rest_of_single _ _ _ (Hf _ _ _ E1)) as [Hp ->].
      assert (n1 = e) as -> by congruence. split; [intros id Hid; apply H1; by right|]. split; [done|]. cbn. split; [|split; [|done]].
      * intros id f Hid. apply lookup_delete_Some in Hid as [Hne Hid]. split; [by eapply H3|]. congruence.
      * intros id [= <-]. by eapply H3.
    + split; [cbn; by rewrite E0|]. by split.
    + split; [done|]. split; [done|]. split; [|done]. intros id' f Hid. split; [by eapply H3|done].
    + split; [done|]. split; [done|]. split; [done|]. split; [done|]. cbn. unfold await_ready in *. destruct (events s !! n0) as [ev|] eqn:He; [|done].
      apply (Hev _ _ He). left. congruence.
    + split; [done|]. split; [done|]. split; [done|]. split; [done|]. done.
    + split; [done|]. split; [done|]. cbn. split; [|done]. intros id' f Hid. split; [|done]. apply lookup_insert_Some in Hid as [(<- & _)|[_ Hid]]; [by apply H4|by eapply H3].
    + split; [done|]. split; [|done]. cbn. intros id' e' [Hp|Hp%list_elem_of_singleton]%elem_of_app; [by eapply H2|]. injection Hp as -> ->. done.
  - step_cases H. rewrite ?E in *. split; [|split; [exact H2|unfold running_of; cbn; rewrite E; done]]. cbn. intros id (e & He & Hid)%list_elem_of_omap. exists e. split; [by apply Hr|].
    apply andb_true_iff in E1 as [_ E1]. apply bool_decide_eq_true in E1. apply (elem_of_list_to_set (C := gset nat)) in He. rewrite E1 in He. apply elem_of_filter in He as [He _].
    unfold is_ready in He. destruct (events s !! e) as [ev|] eqn:Hee; [|done]. apply (Hev _ _ Hee). by right; left.
  - step_cases H; (split; [intros id Hid; destruct (H1 id Hid) as (x & Hx & Hs); exists x; (split; [done|by right])|]); (split; [intros id x Hx; right; by eapply H2|]);
      (split; [done|]); (split; [done|]); cbn; destruct (doing s); try done; by right.
  - step_cases H; destruct (counter w <? counter_max); exact Hok.
Qed.

Lemma reachable_single n s : reachable n s -> single_ok s.
Proof.
  revert s. apply reachable_ind; [|intros s a s'; apply single_ok_step]. split; [intros id H; by apply elem_of_nil in H|]. split; [intros id e H; by apply elem_of_nil in H|]. done.
Qed.

(** When each coroutine awaits one event, it gets past it only after a signal. *)
Theorem awaits_signal n s id e : reachable n s -> (id, e) ∈ passed s -> e ∈ signals s.
Proof. intros Hre. destruct (reachable_single _ _ Hre) as (_ & H & _). apply H. Qed.

(** Of two coroutines that await the same event the first is forgotten: when its handle was
    replaced, and it is not about to be resumed, it is suspended forever. *)
Theorem first_waiter_lost n s id e es other acts s' : reachable n s -> frames s !! id = Some (e, es) -> registered s !! e = Some other -> other <> id -> id ∉ yielded s ->
  run acts s = Some s' -> frames s' !! id = Some (e, es).
Proof.
  intros Hre Hf He Hne Hy Hr. cut (exists other, frames s' !! id = Some (e, es) /\ registered s' !! e = Some other /\ other <> id /\ id ∉ yielded s'); [naive_solver|].
  revert s other Hre Hf He Hne Hy Hr. induction acts as [|a acts IH]; cbn; intros s other Hre Hf He Hne Hy Hr; [injection Hr as <-; by exists other|].
  destruct (exec a s) as [s1|] eqn:Ha; [|done].
  assert (exists other, frames s1 !! id = Some (e, es) /\ registered s1 !! e = Some other /\ other <> id /\ id ∉ yielded s1) as (o & Hf1 & He1 & Hne1 & Hy1);
    [|apply (IH s1 o); try done; destruct Hre as [acts0 H]; exists (acts0 ++ [a]); rewrite run_app, H; cbn; by rewrite Ha].
  destruct (reachable_single _ _ Hre) as (_ & _ & H3 & _). destruct (H3 _ _ Hf) as [Hlt Hrun]. apply reachable_coroutines_ok in Hre as (Hreg & Hfr & Hd).
  unfold running_of in Hrun. clear IH Hr. rename Ha into H. destruct a as [| |order|e'|e'].
  - step_cases H. exists other. split; [done|]. split; [done|]. split; [done|]. apply not_elem_of_nil.
  - step_cases H; try (by exists other); rewrite ?E in *.
    + exists other. cbn. apply not_elem_of_cons in Hy as [Hy1 Hy2]. split; [by rewrite lookup_delete_ne|done].
    + exists other. cbn. by rewrite E0.
    + cbn. rewrite lookup_insert_ne by congruence. destruct (decide (e0 = e)) as [->|Hn].
      * exists id0. rewrite lookup_insert_eq. split; [done|]. split; [done|]. split; [congruence|done].
      * exists other. by rewrite lookup_insert_ne.
  - step_cases H. exists other. split; [done|]. split; [done|]. split; [done|]. cbn. intros (x & Hx & Hid)%list_elem_of_omap.
    pose proof (Hreg _ _ Hid) as Ho%owns_single. destruct (rest_of_single _ _ _ (Hfr _ _ _ Hf)) as [Hp _]. assert (x = e) as -> by congruence. congruence.
  - step_cases H; by exists other.
  - step_cases H; destruct (counter w <? counter_max); by exists other.
Qed.

End Single.

End Program.

(** ** Concrete inputs *)

(** The test of the repository: a coroutine awaits, the event is signalled, the poll yields the
    coroutine, which ends. *)
Definition one_wait : list action := [Spawn; Go; Go; Signal 0; Write 0; Poll [0%nat]; Go; Go; Go].

Definition state_after (prog : list (list nat)) (n : nat) (acts : list action) : state := default (init n) (run prog acts (init n)).

Lemma state_after_reachable prog n acts : is_Some (run prog acts (init n)) -> reachable prog n (state_after prog n acts).
Proof. intros [s Hs]. exists acts. unfold state_after. by rewrite Hs. Qed.

Example one_wait_passes : passed (state_after [[0%nat]] 1 one_wait) = [(0%nat, 0%nat)] /\ doing (state_after [[0%nat]] 1 one_wait) = Free.
Proof. by vm_compute. Qed.

(** The next poll yields the coroutine that has ended, and resumes it. *)
Theorem ended_coroutine_resumed : doing (state_after [[0%nat]] 1 (one_wait ++ [Poll [0%nat]; Go])) = Broken.
Proof. by vm_compute. Qed.

(** A coroutine that awaits two events, one after the other, gets past the second one although
    it was not signalled: the next poll finds the first one still ready. *)
Theorem second_await_unsignalled :
  let s := state_after [[0; 1]%nat] 2 (one_wait ++ [Go; Poll [0%nat]; Go; Go; Go]) in
  (0, 1)%nat ∈ passed s /\ 1%nat ∉ signals s.
Proof. split; [vm_compute; right; left|vm_compute; intros H%list_elem_of_singleton; done]. Qed.

Lemma single_program (id : nat) (b : list nat) : [[0%nat]; [0%nat]] !! id = Some b -> (length b <= 1)%nat.
Proof. destruct id as [|[|id]]; cbn; [intros [= <-]; cbn; lia|intros [= <-]; cbn; lia|done]. Qed.

Lemma disjoint_program (e id id' : nat) : owns [[0%nat]; [1%nat]] id e -> owns [[0%nat]; [1%nat]] id' e -> id = id'.
Proof.
  intros (b & Hb & He) (b' & Hb' & He').
  destruct id as [|[|id]]; destruct id' as [|[|id']]; cbn in Hb, Hb'; try done; injection Hb as <-; injection Hb' as <-;
    apply list_elem_of_singleton in He as ->; apply list_elem_of_singleton in He'; done.
Qed.

Definition signalled_early : state := Eval vm_compute in state_after [[0%nat]; [1%nat]] 2 [Spawn; Go; Go; Spawn; Go; Signal 1; Write 1; Go]%nat.

Definition signalled_polled : state := Eval vm_compute in set_yielded [1%nat] signalled_early.

Definition once_ended : state := Eval vm_compute in state_after [[0%nat]; [1%nat]] 2 one_wait.

Definition once_polled : state := Eval vm_compute in set_yielded [0%nat] once_ended.

Definition once_ended_alone : state := Eval vm_compute in state_after [[0%nat]; [0%nat]] 1 one_wait.

Definition two_waiting : state := Eval vm_compute in state_after [[0%nat]; [0%nat]] 1 [Spawn; Go; Go; Spawn; Go; Go].

Definition one_resumed : state := Eval vm_compute in
  default (init 1) (run [[0%nat]; [0%nat]] [Signal 0; Write 0; Poll [0]; Go; Go; Go]%nat two_waiting).

Lemma signalled_early_reachable : reachable [[0%nat]; [1%nat]] 2 signalled_early.
Proof. exists [Spawn; Go; Go; Spawn; Go; Signal 1; Write 1; Go]%nat. vm_compute. reflexivity. Qed.

Lemma once_ended_reachable : reachable [[0%nat]; [1%nat]] 2 once_ended.
Proof. exists one_wait. vm_compute. reflexivity. Qed.

Lemma once_ended_alone_reachable : reachable [[0%nat]; [0%nat]] 1 once_ended_alone.
Proof. exists one_wait. vm_compute. reflexivity. Qed.

Lemma two_waiting_reachable : reachable [[0%nat]; [0%nat]] 1 two_waiting.
Proof. exists [Spawn; Go; Go; Spawn; Go; Go]. vm_compute. reflexivity. Qed.

Lemma no_signal_lost_witness : poll [1%nat] signalled_early = Some signalled_polled /\ 1%nat ∈ yielded signalled_polled.
Proof.
  assert (Hp : poll [1%nat] signalled_early = Some signalled_polled) by (vm_compute; reflexivity). split; [exact Hp|].
  refine (no_signal_lost _ disjoint_program 2 signalled_early 1 1 [] (mk_event true 1) [1%nat] signalled_polled signalled_early_reachable _ _ _ _ Hp);
    [vm_compute; reflexivity|reflexivity|reflexivity|vm_compute; lia].
Defined.

Lemma yielded_again_witness : poll [0%nat] once_ended = Some once_polled /\ 0%nat ∈ yielded once_polled.
Proof.
  assert (Hp : poll [0%nat] once_ended = Some once_polled) by (vm_compute; reflexivity). split; [exact Hp|].
  refine (yielded_again _ disjoint_program 2 once_ended [] once_ended 0 0 [0%nat] once_polled once_ended_reachable _ _ eq_refl Hp); vm_compute; reflexivity.
Defined.

Lemma awaits_signal_witness : 0%nat ∈ signals once_ended_alone.
Proof. refine (awaits_signal _ single_program 1 once_ended_alone 0 0 once_ended_alone_reachable _). vm_compute. left. Defined.

Lemma first_waiter_lost_witness : signals one_resumed = [0%nat] /\ frames one_resumed !! 0%nat = Some (0%nat, []).
Proof.
  split; [reflexivity|].
  refine (first_waiter_lost _ single_program 1 two_waiting 0 0 [] 1 [Signal 0; Write 0; Poll [0]; Go; Go; Go]%nat one_resumed two_waiting_reachable _ _ _ _ _);
    [vm_compute; reflexivity|vm_compute; reflexivity|done|apply not_elem_of_nil|vm_compute; reflexivity].
Defined.
