(* ===== verification/HierMutex.v ===== *)
(** * Hierarchical mutexes

    Models Books/CPPConcurrencyInAction/sharing_data_between_threads/hierarchical_mutex.h: a thread may lock
    only a mutex that is lower than what it holds, which its thread-local value stands
    for.  [std::mutex] is its owner.  A thread that has got past the check waits until the
    mutex is free; what follows the acquisition is done under the mutex, in one step. *)

From stdpp Require Import functions.
From S2P Require Import Prelude.

#[local] Open Scope Z_scope.

Definition no_hierarchy : Z := 2 ^ 32 - 1.

Record mutex := mk_mutex { previous_hierarchy_value_ : Z; owner : option nat }.

(** The thread-local value of a thread, and the mutex it waits for.  [held], for the statements and
    the discipline: what it has locked, the last one first. *)
Record thread := mk_thread { current_thread_hierachy_value : Z; waits : option nat; held : list nat }.

Record state := mk_state { mutexes : nat -> mutex; threads : nat -> thread }.

Section Hierarchy.

(** The constructor's arguments. *)
Context (hierarchy_value_ : nat -> Z).

Definition init : state := mk_state (fun _ => mk_mutex 0 None) (fun _ => mk_thread no_hierarchy None []).

Definition CheckHierarchyViolation (t m : nat) (s : state) : bool := hierarchy_value_ m <? current_thread_hierachy_value (threads s t).

Definition set_thread t v s := mk_state (mutexes s) (<[t := v]> (threads s)).

(** The mutex is locked by [t]; then [UpdateThreadHierarchyValue]. *)
Definition acquire (t m : nat) (s : state) : state :=
  let v := threads s t in
  mk_state (<[m := mk_mutex (current_thread_hierachy_value v) (Some t)]> (mutexes s))
    (<[t := mk_thread (hierarchy_value_ m) None (m :: held v)]> (threads s)).

Inductive action := Lock (t m : nat) | Acquire (t : nat) | TryLock (t m : nat) | Unlock (t m : nat).

(** How an action ends: a check that throws changes nothing; [TryLock] returns whether it has the mutex. *)
Inductive result := Done | Threw | Returned (b : bool).

Definition step (a : action) (s : state) : option (state * result) :=
  match a with
  | Lock t m =>
      match waits (threads s t) with
      | Some _ => None
      | None => if CheckHierarchyViolation t m s
                then Some (set_thread t (mk_thread (current_thread_hierachy_value (threads s t)) (Some m) (held (threads s t))) s, Done)
                else Some (s, Threw)
      end
  | Acquire t =>
      match waits (threads s t) with
      | None => None
      | Some m => match owner (mutexes s m) with None => Some (acquire t m s, Done) | Some _ => None end
      end
  | TryLock t m =>
      match waits (threads s t) with
      | Some _ => None
      | None => if CheckHierarchyViolation t m s
                then match owner (mutexes s m) with None => Some (acquire t m s, Returned true) | Some _ => Some (s, Returned false) end
                else Some (s, Threw)
      end
  | Unlock t m =>
      match waits (threads s t) with
      | Some _ => None
      | None => if bool_decide (owner (mutexes s m) = Some t)
                then Some (mk_state (<[m := mk_mutex (previous_hierarchy_value_ (mutexes s m)) None]> (mutexes s))
                             (<[t := mk_thread (previous_hierarchy_value_ (mutexes s m)) None (filter (fun x => x <> m) (held (threads s t)))]> (threads s)), Done)
                else None
      end
  end.

(** What guards of scopes do: the mutex that was locked last is unlocked first. *)
Definition scoped (a : action) (s : state) : Prop :=
  match a with Unlock t m => head (held (threads s t)) = Some m | _ => True end.

Inductive reachable : state -> Prop :=
| reachable_init : reachable init
| reachable_step s a s' r : reachable s -> scoped a s -> step a s = Some (s', r) -> reachable s'.

(** ** What the values mean *)

(** The thread-local value is that of the mutex locked last, which has the one below it, and so on. *)
Fixpoint stacked (s : state) (v : Z) (h : list nat) : Prop :=
  match h with
  | [] => v = no_hierarchy
  | m :: h => v = hierarchy_value_ m /\ hierarchy_value_ m < previous_hierarchy_value_ (mutexes s m) /\ stacked s (previous_hierarchy_value_ (mutexes s m)) h
  end.

Definition Inv (s : state) : Prop :=
  (forall t, stacked s (current_thread_hierachy_value (threads s t)) (held (threads s t))) /\
  (forall t m, owner (mutexes s m) = Some t <-> m ∈ held (threads s t)) /\
  (forall t m, waits (threads s t) = Some m -> hierarchy_value_ m < current_thread_hierachy_value (threads s t)).

Lemma stacked_frame s s' v h : stacked s v h -> (forall m, m ∈ h -> previous_hierarchy_value_ (mutexes s' m) = previous_hierarchy_value_ (mutexes s m)) -> stacked s' v h.
Proof.
  revert v. induction h as [|m h IH]; cbn; intros v; [done|]. intros (H1 & H2 & H3) He. rewrite He by by left.
  split; [done|]. split; [done|]. apply IH; [done|]. intros x Hx. apply He. by right.
Qed.

(** Everything in the stack is above the value. *)
Lemma stacked_above s v h : stacked s v h -> forall m, m ∈ h -> v <= hierarchy_value_ m.
Proof.
  revert v. induction h as [|x h IH]; cbn; intros v H m Hm; [by apply elem_of_nil in Hm|]. destruct H as (H1 & H2 & H3).
  apply elem_of_cons in Hm as [->|Hm]; [lia|]. specialize (IH _ H3 m Hm). lia.
Qed.

Lemma stacked_head s v m h : stacked s v (m :: h) -> m ∉ h.
Proof. intros (H1 & H2 & H3) Hm. pose proof (stacked_above _ _ _ H3 m Hm). lia. Qed.

Lemma acquire_inv t m s : Inv s -> hierarchy_value_ m < current_thread_hierachy_value (threads s t) -> owner (mutexes s m) = None -> Inv (acquire t m s).
Proof.
  intros (H1 & H2 & H3) Hlt Hown.
  assert (Hfree : forall x, m ∉ held (threads s x)) by (intros x Hx; apply H2 in Hx; congruence).
  assert (Hframe : forall x v, stacked s v (held (threads s x)) -> stacked (acquire t m s) v (held (threads s x))).
  { intros x v H. eapply stacked_frame; [done|]. intros m' Hm'. cbn. rewrite fn_lookup_insert_ne; [done|]. intros ->. by apply (Hfree x). }
  split; [|split].
  - intros x. cbn. destruct (decide (t = x)) as [->|Hne].
    + rewrite fn_lookup_insert. cbn. rewrite fn_lookup_insert. cbn. split; [done|]. split; [done|]. apply (Hframe x), H1.
    + rewrite fn_lookup_insert_ne by done. apply (Hframe x), H1.
  - intros x y. cbn. destruct (decide (m = y)) as [->|Hm]; [rewrite fn_lookup_insert|rewrite fn_lookup_insert_ne by done];
      (destruct (decide (t = x)) as [->|Ht]; [rewrite fn_lookup_insert|rewrite fn_lookup_insert_ne by done]); cbn.
    + split; [left|done].
    + split; [congruence|]. intros Hy. by destruct (Hfree x).
    + rewrite H2, elem_of_cons. naive_solver.
    + apply H2.
  - intros x y. cbn. destruct (decide (t = x)) as [->|Ht]; [rewrite fn_lookup_insert; done|rewrite fn_lookup_insert_ne by done; apply H3].
Qed.

Lemma filter_head (m : nat) h : m ∉ h -> filter (fun x => x <> m) (m :: h) = h.
Proof.
  intros Hm. rewrite filter_cons_False by (by intros []). induction h as [|x h IH]; [done|]. apply not_elem_of_cons in Hm as [Hx Hm].
  rewrite filter_cons_True by done. by rewrite IH.
Qed.

Lemma step_keeps s a s' r : Inv s -> scoped a s -> step a s = Some (s', r) -> Inv s'.
Proof.
  intros Hinv Hsc H. destruct a as [t m|t|t m|t m]; cbn in H, Hsc.
  - destruct (waits (threads s t)) as [|] eqn:Hw; [done|]. destruct (CheckHierarchyViolation t m s) eqn:Hc; injection H as <- <-; [|done].
    destruct Hinv as (H1 & H2 & H3). unfold CheckHierarchyViolation in Hc. zify_bool.
    split; [|split]; intros x; cbn; (destruct (decide (t = x)) as [->|Ht]; [rewrite fn_lookup_insert|rewrite fn_lookup_insert_ne by done]); cbn; auto.
    + apply (stacked_frame s); [apply H1|done].
    + apply (stacked_frame s); [apply H1|done].
    + intros m' [= <-]. done.
  - destruct (waits (threads s t)) as [m|] eqn:Hw; [|done]. destruct (owner (mutexes s m)) eqn:Ho; [done|]. injection H as <- <-.
    apply acquire_inv; [done| |done]. by apply Hinv.
  - destruct (waits (threads s t)) as [|] eqn:Hw; [done|]. destruct (CheckHierarchyViolation t m s) eqn:Hc; [|by injection H as <- <-].
    destruct (owner (mutexes s m)) eqn:Ho; injection H as <- <-; [done|]. apply acquire_inv; [done| |done]. unfold CheckHierarchyViolation in Hc. by zify_bool.
  - destruct (waits (threads s t)) as [|] eqn:Hw; [done|]. destruct (bool_decide_reflect (owner (mutexes s m) = Some t)) as [Ho|]; [|done]. injection H as <- <-.
    destruct Hinv as (H1 & H2 & H3). destruct (held (threads s t)) as [|m' h] eqn:Hh; [done|]. injection Hsc as ->.
    pose proof (H1 t) as Hst. rewrite Hh in Hst. pose proof (stacked_head _ _ _ _ Hst) as Hm. destruct Hst as (_ & Hlt & Hst).
    assert (Hframe : forall v l, stacked s v l -> stacked (mk_state (<[m := mk_mutex (previous_hierarchy_value_ (mutexes s m)) None]> (mutexes s)) (<[t := mk_thread (previous_hierarchy_value_ (mutexes s m)) None h]> (threads s))) v l).
    { intros v l Hl. eapply stacked_frame; [done|]. intros x _. cbn. destruct (decide (m = x)) as [->|Hne]; [by rewrite fn_lookup_insert|by rewrite fn_lookup_insert_ne]. }
    rewrite (filter_head m h Hm). split; [|split].
    + intros x. cbn. destruct (decide (t = x)) as [->|Ht]; [rewrite fn_lookup_insert|rewrite fn_lookup_insert_ne by done]; [by apply Hframe|by apply Hframe].
    + intros x y. cbn. destruct (decide (m = y)) as [->|Hy]; [rewrite fn_lookup_insert|rewrite fn_lookup_insert_ne by done];
        (destruct (decide (t = x)) as [->|Ht]; [rewrite fn_lookup_insert|rewrite fn_lookup_insert_ne by done]); cbn.
      * split; [done|]. intros Hy. done.
      * split; [done|]. intros Hy. apply H2 in Hy. congruence.
      * rewrite H2, Hh, elem_of_cons. naive_solver.
      * apply H2.
    + intros x y. cbn. destruct (decide (t = x)) as [->|Ht]; [rewrite fn_lookup_insert; done|rewrite fn_lookup_insert_ne by done; apply H3].
Qed.

Lemma reachable_keeps s : reachable s -> Inv s.
Proof.
  induction 1 as [|s a s' r _ IH Hsc Hs]; [|by eapply step_keeps].
  split; [done|]. split; [|done]. intros t m. cbn. split; [done|]. intros H. by apply elem_of_nil in H.
Qed.

(** A thread passes the check exactly when the mutex is lower than all that it holds. *)
Theorem check_lower s t m : reachable s -> hierarchy_value_ m < no_hierarchy ->
  (CheckHierarchyViolation t m s = true <-> forall m', owner (mutexes s m') = Some t -> hierarchy_value_ m < hierarchy_value_ m').
Proof.
  intros (H1 & H2 & _)%reachable_keeps Hm. unfold CheckHierarchyViolation. rewrite Z.ltb_lt. specialize (H1 t). split.
  - intros Hlt m' Ho. apply H2 in Ho. pose proof (stacked_above _ _ _ H1 m' Ho). lia.
  - intros H. destruct (held (threads s t)) as [|m' h] eqn:Hh; cbn in H1; [lia|]. destruct H1 as (-> & _). apply H, H2. rewrite Hh. by left.
Qed.

(** There is no deadlock: when a thread waits, then some thread that waits can go on, or
    some mutex that is waited for is held by a thread that does not wait. *)
Theorem no_deadlock s t m : reachable s -> (forall x, 0 <= hierarchy_value_ x) -> waits (threads s t) = Some m ->
  (exists t' m', waits (threads s t') = Some m' /\ exists s', step (Acquire t') s = Some (s', Done)) \/
  (exists t' m', owner (mutexes s m') = Some t' /\ waits (threads s t') = None /\ exists w, waits (threads s w) = Some m').
Proof.
  intros (H1 & H2 & H3)%reachable_keeps Hpos. remember (Z.to_nat (hierarchy_value_ m)) as k eqn:Hk. revert t m Hk.
  induction k as [k IH] using lt_wf_ind. intros t m -> Hw.
  destruct (owner (mutexes s m)) as [t'|] eqn:Ho; [|left; exists t, m; split; [done|]; exists (acquire t m s); cbn; by rewrite Hw, Ho].
  destruct (waits (threads s t')) as [m'|] eqn:Hw'; [|right; exists t', m; split; [done|]; split; [done|by exists t]].
  apply (IH (Z.to_nat (hierarchy_value_ m'))) with t' m'; [|done|done].
  pose proof (H3 _ _ Hw') as Hlt. apply H2 in Ho. pose proof (stacked_above _ _ _ (H1 t') m Ho). specialize (Hpos m'). lia.
Qed.

End Hierarchy.

(** ** Without the discipline of the scopes *)

(** The two mutexes of the demonstration. *)
Definition g_mutexes (m : nat) : Z := match m with O => 100 | _ => 200 end.

Fixpoint run (acts : list action) (s : state) : option state :=
  match acts with [] => Some s | a :: acts => match step g_mutexes a s with Some (s', _) => run acts s' | None => None end end.

(** Unlocking in another order leaves the thread with the wrong value, and the check lets two
    threads wait for each other: thread 0 unlocks the higher mutex first and locks it again. *)
Theorem unlock_order_deadlock : exists s,
  run [Lock 0 1; Acquire 0; Lock 0 0; Acquire 0; Unlock 0 1; Lock 1 1; Acquire 1; Lock 1 0; Lock 0 1]%nat init = Some s /\
  waits (threads s 0%nat) = Some 1%nat /\ owner (mutexes s 1%nat) = Some 1%nat /\
  waits (threads s 1%nat) = Some 0%nat /\ owner (mutexes s 0%nat) = Some 0%nat.
Proof. eexists. split; [reflexivity|]. by vm_compute. Qed.

(** ** Concrete inputs *)

Lemma run_locks acts s s' : reachable g_mutexes s -> forallb (fun a => match a with Unlock _ _ => false | _ => true end) acts = true ->
  run acts s = Some s' -> reachable g_mutexes s'.
Proof.
  revert s. induction acts as [|a acts IH]; cbn; intros s Hs Ha Hr; [by injection Hr as <-|]. apply andb_true_iff in Ha as [Ha Hacts].
  destruct (step g_mutexes a s) as [[s1 r]|] eqn:Hst; [|done]. apply (IH s1); [|done|done]. apply (reachable_step g_mutexes s a s1 r); [done|destruct a; cbn in *; done|done].
Qed.

Definition some_waiting : state := default init (run [Lock 0 1; Acquire 0; Lock 1 1; Lock 0 0; Acquire 0]%nat init).

Lemma some_waiting_reachable : reachable g_mutexes some_waiting.
Proof. apply (run_locks [Lock 0 1; Acquire 0; Lock 1 1; Lock 0 0; Acquire 0]%nat init); [apply reachable_init|reflexivity|reflexivity]. Qed.

Lemma check_lower_witness : CheckHierarchyViolation g_mutexes 0 0 some_waiting = false /\ owner (mutexes some_waiting 0%nat) = Some 0%nat.
Proof.
  split; [|reflexivity]. destruct (CheckHierarchyViolation g_mutexes 0 0 some_waiting) eqn:Hc; [|reflexivity].
  destruct (check_lower g_mutexes some_waiting 0 0 some_waiting_reachable) as [H _]; [reflexivity|]. specialize (H Hc 0%nat eq_refl). discriminate H.
Defined.

Lemma no_deadlock_witness : waits (threads some_waiting 1%nat) = Some 1%nat /\
  exists t' m', owner (mutexes some_waiting m') = Some t' /\ waits (threads some_waiting t') = None.
Proof.
  split; [reflexivity|].
  destruct (no_deadlock g_mutexes some_waiting 1 1 some_waiting_reachable) as [(t' & m' & Hw & s' & Hs)|(t' & m' & Ho & Hw & _)]; [|reflexivity| |exists t', m'; split; [exact Ho|exact Hw]].
  - intros [|x]; discriminate.
  - exists 0%nat, 0%nat. split; reflexivity.
Defined.
