(* ===== verification/Algorithms.v ===== *)
(** * Algorithms on ranges

    Models StablePartitionAndSubrangeSort (stable_partition.cpp, sort_subrange.cpp),
    lower-bound-inserter/lower_bound_inserter.h and parallel_accumulate.h of
    Books/CPPConcurrencyInAction.  A range is the list of its elements, an iterator the number
    of elements before it.  Of the algorithms of the standard library, [std::rotate] and
    [std::accumulate] are functions; [std::nth_element] and [std::partial_sort] are what the standard
    says of their results. *)

From Stdlib Require Import Sorted.
From stdpp Require Import sorting.
From S2P Require Import Prelude.

#[local] Open Scope nat_scope.

(** ** StablePartition *)

Module StablePartition.

Section Predicate.

Context {A : Type} (pred : A -> bool).

(** [std::rotate(first + i, first + m, first + j)], with what it returns. *)
Definition rotate (i m j : nat) (l : list A) : list A * nat :=
  (take i l ++ (take (j - m) (drop m l) ++ take (m - i) (drop i l)) ++ drop j l, i + (j - m)).

(** The range after the call, and what is returned.  [fuel]: its length is enough. *)
Fixpoint StablePartition (fuel : nat) (l : list A) : list A * nat :=
  match fuel with
  | O => (l, 0)
  | S fuel =>
      match l with
      | [] => (l, 0)
      | [x] => (l, if pred x then 1 else 0)
      | _ => let middle := length l / 2 in
             let '(l1, i) := StablePartition fuel (take middle l) in
             let '(l2, j) := StablePartition fuel (drop middle l) in
             rotate i middle (middle + j) (l1 ++ l2)
      end
  end.

Lemma rotate_parts (a b c d : list A) :
  rotate (length a) (length (a ++ b)) (length (a ++ b) + length c) ((a ++ b) ++ c ++ d) = (a ++ c ++ b ++ d, length a + length c).
Proof.
  unfold rotate. rewrite length_app. replace (length a + length b + length c - (length a + length b)) with (length c) by lia.
  replace (length a + length b - length a) with (length b) by lia. f_equal.
  rewrite <- !app_assoc, take_app_length. f_equal. rewrite (app_assoc a b (c ++ d)), <- (length_app a b), drop_app_length, take_app_length.
  rewrite <- (app_assoc a b (c ++ d)), drop_app_length, take_app_length. f_equal. f_equal.
  rewrite !app_assoc, <- !length_app. by rewrite drop_app_length.
Qed.

(** The elements that satisfy the predicate come first, and both parts keep their order; what is
    returned is where the second part begins. *)
Theorem stable_partition_filters fuel l : length l <= fuel ->
  StablePartition fuel l = (filter (fun x => pred x = true) l ++ filter (fun x => pred x <> true) l, length (filter (fun x => pred x = true) l)).
Proof.
  revert l. induction fuel as [|fuel IH]; intros l Hl; [by destruct l; [|cbn in Hl; lia]|].
  destruct l as [|x [|y l]]; [done| |].
  { change (([x], if pred x then 1 else 0) = (filter (fun x => pred x = true) [x] ++ filter (fun x => pred x <> true) [x], length (filter (fun x => pred x = true) [x]))).
    rewrite !filter_cons, !filter_nil. by destruct (pred x). }
  set (r := x :: y :: l) in *. remember (length r / 2) as m eqn:Hm. assert (Hr : length r = S (S (length l))) by done.
  assert (Hm1 : 0 < m) by (subst m; apply Nat.div_str_pos; lia). assert (Hm2 : m < length r) by (subst m; apply Nat.div_lt; lia).
  change (StablePartition (S fuel) r) with (let middle := length r / 2 in
    let '(l1, i) := StablePartition fuel (take middle r) in let '(l2, j) := StablePartition fuel (drop middle r) in rotate i middle (middle + j) (l1 ++ l2)).
  cbv zeta. rewrite <- Hm, (IH (take m r)) by (rewrite length_take; lia). rewrite (IH (drop m r)) by (rewrite length_drop; lia).
  remember (take m r) as u eqn:Hu. remember (drop m r) as v eqn:Hv. assert (Huv : r = u ++ v) by (subst u v; by rewrite take_drop).
  assert (Hlen : m = length (filter (fun x => pred x = true) u ++ filter (fun x => pred x <> true) u)).
  { assert (m = length u) as -> by (subst u; rewrite length_take; lia). symmetry. apply Permutation_length, filter_app_complement. }
  rewrite Hlen at 1 2. rewrite (rotate_parts (filter (fun x => pred x = true) u) (filter (fun x => pred x <> true) u)).
  rewrite Huv, !filter_app, !length_app. by rewrite <- !app_assoc.
Qed.

End Predicate.

End StablePartition.

(** ** SubrangeSort *)

Module SubrangeSort.

Section Order.

Context {A : Type} (R : relation A) `{!PreOrder R, !AntiSymm (=) R, !Total R, !RelDecision R}.

(** [std::nth_element(first, first + n, last)]: the element that is there when the range is sorted,
    with the smaller ones before it. *)
Definition nth_element (n : nat) (l l' : list A) : Prop :=
  l' ≡ₚ l /\ exists a x b, l' = a ++ x :: b /\ length a = n /\ Forall (fun y => R y x) a /\ Forall (R x) b.

(** [std::partial_sort(first + i, first + j, last)]: the smallest ones of what comes from [i] on, sorted. *)
Definition partial_sort (i j : nat) (l l' : list A) : Prop :=
  exists a b s r, l = a ++ b /\ length a = i /\ l' = a ++ s ++ r /\ i + length s = j /\ s ++ r ≡ₚ b /\ StronglySorted R s /\ Forall (fun x => Forall (R x) r) s.

(** The ranges that [SubrangeSort] may leave. *)
Definition SubrangeSort (sub_first sub_last : nat) (l l' : list A) : Prop :=
  if decide (sub_first = sub_last) then l' = l
  else if decide (sub_first = 0) then partial_sort sub_first sub_last l l'
  else exists m, nth_element sub_first l m /\ partial_sort (S sub_first) sub_last m l'.

(** A list with the same elements in their order. *)
Definition in_order (l : list A) : list A := merge_sort R l.

Lemma in_order_perm l : in_order l ≡ₚ l.
Proof. exact (merge_sort_Permutation R l). Qed.

Lemma in_order_sorted l : StronglySorted R (in_order l).
Proof. exact (StronglySorted_merge_sort R l). Qed.

Lemma sorted_around a s r : StronglySorted R s -> Forall (fun x => Forall (R x) (s ++ r)) a -> Forall (fun x => Forall (R x) r) s ->
  exists a' r', a' ≡ₚ a /\ r' ≡ₚ r /\ StronglySorted R (a' ++ s ++ r').
Proof.
  intros Hs Ha Hr. exists (in_order a), (in_order r). split; [apply in_order_perm|]. split; [apply in_order_perm|].
  apply StronglySorted_app_2; [|apply in_order_sorted|].
  2: apply StronglySorted_app_2; [|done|apply in_order_sorted].
  - intros x y Hx Hy. rewrite in_order_perm in Hx. rewrite Forall_forall in Ha. specialize (Ha x Hx). rewrite Forall_forall in Ha. apply Ha.
    rewrite elem_of_app in *. destruct Hy as [|Hy]; [by left|]. rewrite in_order_perm in Hy. by right.
  - intros x y Hx Hy. rewrite in_order_perm in Hy. rewrite Forall_forall in Hr. specialize (Hr x Hx). rewrite Forall_forall in Hr. by apply Hr.
Qed.

(** The segment of a list with everything in its place around it. *)
Lemma segment_unique a s r l sorted : l ≡ₚ a ++ s ++ r -> StronglySorted R s -> Forall (fun x => Forall (R x) (s ++ r)) a -> Forall (fun x => Forall (R x) r) s ->
  StronglySorted R sorted -> sorted ≡ₚ l -> take (length s) (drop (length a) sorted) = s.
Proof.
  intros Hl Hs Ha Hr Hsorted Hp. destruct (sorted_around a s r Hs Ha Hr) as (a' & r' & Ha' & Hr' & Hss).
  assert (sorted = a' ++ s ++ r') as -> by (apply (StronglySorted_unique R); [done|done|by rewrite Hp, Hl, Ha', Hr']).
  rewrite <- (Permutation_length Ha'), drop_app_length, take_app_length. done.
Qed.

Lemma partial_sort_parts i j l l' : partial_sort i j l l' -> i <= j /\ l' ≡ₚ l.
Proof. intros (a & b & s & r & -> & <- & -> & <- & Hp & _). split; [lia|]. by rewrite Hp. Qed.

Lemma Forall_above x l : Forall (R x) l -> forall y, R y x -> Forall (R y) l.
Proof. intros H y Hy. eapply Forall_impl; [exact H|]. intros z Hz. by transitivity x. Qed.

(** The range between the two iterators gets what is there when all is sorted, and nothing else
    is lost. *)
Theorem subrange_sorted i j l l' sorted : i <= j -> SubrangeSort i j l l' -> StronglySorted R sorted -> sorted ≡ₚ l ->
  l' ≡ₚ l /\ take (j - i) (drop i l') = take (j - i) (drop i sorted).
Proof.
  intros Hij H Hsorted Hp. unfold SubrangeSort in H. case_decide as H1; [subst; by rewrite Nat.sub_diag|]. case_decide as H2.
  - subst i. destruct H as (a & b & s & r & -> & Ha & -> & <- & Hsr & Hs & Hr). destruct a; [|done]. cbn in *. split; [done|]. rewrite Nat.sub_0_r, !drop_0, take_app_length.
    symmetry. apply (segment_unique [] s r b); done.
  - destruct H as (m & (Hm & a & x & b & -> & <- & Ha & Hb) & (a0 & b0 & s & r & Hab & Hlen & -> & <- & Hsr & Hs & Hr)).
    assert (a0 = a ++ [x] /\ b0 = b) as [-> ->].
    { rewrite (app_assoc a [x] b : a ++ x :: b = (a ++ [x]) ++ b) in Hab. apply app_inj_1 in Hab; [naive_solver|]. rewrite length_app. cbn. lia. }
    split; [by rewrite Hsr, <- app_assoc|]. replace (S (length a) + length s - length a) with (length (x :: s)) by (cbn; lia).
    assert (Hxs : Forall (R x) (s ++ r)) by (by rewrite Hsr). rewrite <- app_assoc, drop_app_length. change (x :: s ++ r) with ((x :: s) ++ r). cbn [app].
    change (x :: s ++ r) with ((x :: s) ++ r). rewrite take_app_length. symmetry. apply Forall_app in Hxs as [Hx1 Hx2]. apply (segment_unique a (x :: s) r l); try done.
    + rewrite <- Hm. cbn. by rewrite Hsr.
    + by constructor.
    + eapply Forall_impl; [exact Ha|]. intros y Hy. cbn. constructor; [done|]. apply (Forall_above x); [by apply Forall_app|done].
    + by constructor.
Qed.

Lemma StronglySorted_parts a b : StronglySorted R (a ++ b) -> Forall (fun x => Forall (R x) b) a /\ StronglySorted R b.
Proof.
  intros H. split; [|by eapply StronglySorted_app_1_r]. apply Forall_forall. intros x Hx. apply Forall_forall. intros y Hy. by eapply StronglySorted_app_1_elem_of.
Qed.

Lemma partial_sort_sorted i j l : i <= j <= length l -> StronglySorted R l -> partial_sort i j l l.
Proof.
  intros Hij Hl. exists (take i l), (drop i l), (take (j - i) (drop i l)), (drop (j - i) (drop i l)). rewrite !take_drop. split; [done|].
  split; [rewrite length_take; lia|]. split; [done|]. split; [rewrite length_take, length_drop; lia|]. split; [done|].
  rewrite <- (take_drop i l) in Hl. apply StronglySorted_parts in Hl as [_ Hl]. rewrite <- (take_drop (j - i) (drop i l)) in Hl.
  split; [by eapply StronglySorted_app_1_l|by apply StronglySorted_parts].
Qed.

(** There is such a range, for all iterators that are in order. *)
Theorem subrange_sort_total i j l : i <= j <= length l -> exists l', SubrangeSort i j l l'.
Proof.
  intros Hij. assert (Hs : StronglySorted R (in_order l)) by (apply in_order_sorted).
  assert (Hlen : length (in_order l) = length l) by apply Permutation_length, in_order_perm. unfold SubrangeSort. case_decide; [by exists l|]. case_decide.
  - subst i. exists (in_order l).
    destruct (partial_sort_sorted 0 j (in_order l)) as (a & b & s & r & Hab & Ha & Hl & Hj & Hsr & Hss & Hr); [lia|done|]. destruct a; [|done]. cbn in *.
    exists [], l, s, r. cbn. split; [done|]. split; [done|]. split; [done|]. split; [done|]. split; [|done]. rewrite Hsr, <- Hab. apply in_order_perm.
  - exists (in_order l), (in_order l). split; [|apply partial_sort_sorted; [lia|done]]. split; [apply in_order_perm|].
    destruct (drop i (in_order l)) as [|x b] eqn:Hd; [apply (f_equal length) in Hd; rewrite length_drop in Hd; cbn in Hd; lia|].
    assert (Heq : in_order l = take i (in_order l) ++ x :: b) by (by rewrite <- Hd, take_drop).
    exists (take i (in_order l)), x, b. split; [done|]. split; [rewrite length_take; lia|]. rewrite Heq in Hs. apply StronglySorted_parts in Hs as [Ha Hb].
    split; [eapply Forall_impl; [exact Ha|]; intros y Hy; by inversion Hy|]. by inversion Hb.
Qed.

End Order.

End SubrangeSort.

(** ** lower_bound_inserter *)

Module LowerBoundInserter.

Section Comparison.

Context {A : Type} (cmp_ : A -> A -> bool).

(** [std::lower_bound] of a sorted range: the first element that is not less than the value. *)
Fixpoint lower_bound (c : list A) (value : A) : nat :=
  match c with [] => 0 | x :: c => if cmp_ x value then S (lower_bound c value) else 0 end.

(** [lower_bound_insert_iterator::operator=]: [insert] puts the value before the iterator. *)
Definition assign (c : list A) (value : A) : list A := take (lower_bound c value) c ++ value :: drop (lower_bound c value) c.

(** [std::copy] into the iterator. *)
Definition copy (sub c : list A) : list A := fold_left assign sub c.

(** Sorted by the comparison: nothing is less than something before it. *)
Definition sorted : list A -> Prop := StronglySorted (fun x y => cmp_ y x = false).

(** What the standard requires of a comparison. *)
Context (cmp_asym : forall x y, cmp_ x y = true -> cmp_ y x = false).
Context (cmp_trans : forall x y z, cmp_ y x = false -> cmp_ z y = false -> cmp_ z x = false).

Lemma lower_bound_splits c value : sorted c ->
  Forall (fun x => cmp_ x value = true) (take (lower_bound c value) c) /\ Forall (fun x => cmp_ x value = false) (drop (lower_bound c value) c).
Proof.
  induction c as [|x c IH]; [done|]. intros Hs. apply StronglySorted_cons in Hs as [Hx Hs]. specialize (IH Hs). cbn. destruct (cmp_ x value) eqn:Hc.
  - cbn. destruct IH as [H1 H2]. split; [by constructor|done].
  - split; [done|]. cbn. constructor; [done|]. eapply Forall_impl; [exact Hx|]. intros y Hy. by apply (cmp_trans value x y).
Qed.

Lemma assign_sorted c value : sorted c -> sorted (assign c value).
Proof.
  intros Hs. destruct (lower_bound_splits c value Hs) as [H1 H2]. unfold assign, sorted. rewrite Forall_forall in H1, H2.
  rewrite <- (take_drop (lower_bound c value) c) in Hs. apply StronglySorted_app in Hs as (Hab & Ha & Hb). apply StronglySorted_app. split; [|split; [done|]].
  - intros x y Hx [->|Hy]%elem_of_cons; [by apply cmp_asym, H1|by apply Hab].
  - apply StronglySorted_cons. split; [|done]. apply Forall_forall. apply H2.
Qed.

(** Copying anything into a sorted container keeps it sorted, loses nothing, and each value comes
    before its equals. *)
Theorem inserter_keeps_sorted sub c : sorted c -> sorted (copy sub c) /\ copy sub c ≡ₚ c ++ sub /\
  forall value, Forall (fun x => cmp_ x value = true) (take (lower_bound c value) c) /\ Forall (fun x => cmp_ x value = false) (drop (lower_bound c value) c).
Proof.
  intros Hs. split; [|split; [|intros value; by apply lower_bound_splits]].
  - revert c Hs. induction sub as [|v sub IH]; intros c Hs; [done|]. cbn. by apply IH, assign_sorted.
  - clear Hs. revert c. induction sub as [|v sub IH]; intros c; [by rewrite app_nil_r|]. cbn. rewrite IH. unfold assign.
    rewrite <- Permutation_middle, take_drop. cbn. by rewrite <- Permutation_middle.
Qed.

End Comparison.

End LowerBoundInserter.

(** ** parallel_accumulate *)

Module ParallelAccumulate.

Section Sum.

Context {T : Type} (plus : T -> T -> T) (zero : T).

Definition kMaxThreadCount : nat := 4.
Definition kMinThreadCount : nat := 2.

Definition accumulate (l : list T) (init : T) : T := fold_left plus l init.

Definition thread_count (hardware_concurrency : nat) : nat := Nat.min kMaxThreadCount (Nat.max hardware_concurrency kMinThreadCount).

(** A range with its iterators; beyond the end of the container it is undefined. *)
Definition range (l : list T) (b e : nat) : outcome (list T) := if decide (b <= e <= length l) then Ok (take (e - b) (drop b l)) else Undef.

(** What the threads [seq], [seq + 1], ..., [n] of them, leave in the parts. *)
Fixpoint extra_threads (l : list T) (max_quota seq n : nat) : outcome (list T) :=
  match n with
  | O => Ok []
  | S n => s ← range l (max_quota * (seq - 1)) (max_quota * (seq - 1) + max_quota);
           ps ← extra_threads l max_quota (S seq) n;
           Ok (accumulate s zero :: ps)
  end.

Definition parallel_accumulate (hardware_concurrency : nat) (l : list T) (init : T) : outcome T :=
  match l with
  | [] => Ok init
  | _ => let tc := thread_count hardware_concurrency in
         let max_quota := (length l + tc - 1) / tc in
         ps ← extra_threads l max_quota 1 (tc - 1);
         s ← range l ((tc - 1) * max_quota) (length l);
         Ok (accumulate (ps ++ [accumulate s zero]) init)
  end.

Context (plus_assoc : forall x y z, plus x (plus y z) = plus (plus x y) z).
Context (zero_plus : forall x, plus zero x = x).
Context (plus_zero : forall x, plus x zero = x).

Lemma accumulate_from l x : accumulate l x = plus x (accumulate l zero).
Proof.
  revert x. induction l as [|y l IH]; intros x; cbn; [by rewrite plus_zero|]. change (accumulate l (plus x y) = plus x (accumulate l (plus zero y))).
  rewrite (IH (plus x y)), (IH (plus zero y)), zero_plus. by rewrite plus_assoc.
Qed.

Lemma accumulate_app a b x : accumulate (a ++ b) x = accumulate b (accumulate a x).
Proof. apply fold_left_app. Qed.

Lemma extra_threads_sum l q n : forall seq, 1 <= seq -> q * (seq - 1 + n) <= length l ->
  exists ps, extra_threads l q seq n = Ok ps /\ forall x, accumulate ps x = accumulate (take (q * n) (drop (q * (seq - 1)) l)) x.
Proof.
  induction n as [|n IH]; intros seq Hseq Hq; cbn [extra_threads]; [exists []; split; [done|]; intros x; by rewrite Nat.mul_0_r|].
  destruct (IH (S seq)) as (ps & Hps & Hsum); [lia|nia|].
  unfold range. rewrite decide_True by nia. cbn. rewrite Hps. cbn. eexists. split; [done|]. intros x. cbn.
  change (accumulate ps (plus x (accumulate (take (q * (seq - 1) + q - q * (seq - 1)) (drop (q * (seq - 1)) l)) zero)) = accumulate (take (q * S n) (drop (q * (seq - 1)) l)) x).
  rewrite Hsum, <- accumulate_from, <- accumulate_app. f_equal. replace (q * (seq - 1) + q - q * (seq - 1)) with q by lia.
  replace (q * (S seq - 1)) with (q * (seq - 1) + q) by nia. rewrite <- drop_drop. replace (q * S n) with (q + q * n) by lia. by rewrite take_take_drop.
Qed.

Lemma extra_threads_undef l q n : forall seq, 1 <= seq -> length l < q * (seq - 1 + n) -> q * (seq - 1) <= length l -> extra_threads l q seq n = Undef.
Proof.
  induction n as [|n IH]; intros seq Hseq Hq Hb; [lia|]. cbn [extra_threads]. unfold range. case_decide; [|done]. cbn. rewrite IH; [done|lia|nia|nia].
Qed.

Lemma thread_count_range hc : 2 <= thread_count hc <= 4.
Proof. unfold thread_count, kMaxThreadCount, kMinThreadCount. lia. Qed.

(** The parts add up to the sum of the range, in its order, unless the range is too short for
    the threads, which then read beyond its end: that is so for 1, 2 and 5 elements with four
    threads, and for 1 element with three. *)
Theorem parallel_accumulate_sums hc l init :
  parallel_accumulate hc l init =
  if decide (thread_count hc = 4 /\ (length l = 1 \/ length l = 2 \/ length l = 5) \/ thread_count hc = 3 /\ length l = 1) then Undef else Ok (accumulate l init).
Proof.
  destruct l as [|x l]; [rewrite decide_False; [done|]; cbn; lia|].
  remember (x :: l) as r eqn:Hr. assert (Hlen : 0 < length r) by (subst r; cbn; lia). unfold parallel_accumulate.
  replace (match r with [] => Ok init | _ => _ end) with
    (let tc := thread_count hc in let q := (length r + tc - 1) / tc in ps ← extra_threads r q 1 (tc - 1); s ← range r ((tc - 1) * q) (length r); Ok (accumulate (ps ++ [accumulate s zero]) init)) by (by subst r).
  clear Hr x l. cbv zeta. generalize (thread_count_range hc). generalize (thread_count hc) as tc. intros tc Htc.
  remember ((length r + tc - 1) / tc) as q eqn:Hq.
  assert (Hfit : (tc - 1) * q <= length r <-> ~ (tc = 4 /\ (length r = 1 \/ length r = 2 \/ length r = 5) \/ tc = 3 /\ length r = 1)).
  { assert (tc = 2 \/ tc = 3 \/ tc = 4) as Ht by lia. clear Htc. pose proof (Nat.div_mod_eq (length r + tc - 1) tc) as H1.
    assert (H2 : (length r + tc - 1) mod tc < tc) by (apply Nat.mod_upper_bound; lia). rewrite <- Hq in H1. clear Hq. destruct Ht as [-> | [-> | ->]]; lia. }
  case_decide as Hd.
  - rewrite extra_threads_undef; [done|lia| |]; [|cbn; lia]. cbn. assert (~ (tc - 1) * q <= length r) by tauto. lia.
  - assert ((tc - 1) * q <= length r) by tauto. destruct (extra_threads_sum r q (tc - 1) 1) as (ps & -> & Hsum); [lia|cbn; lia|]. cbn.
    unfold range. rewrite decide_True by lia. cbn. f_equal. rewrite accumulate_app, Hsum. cbn.
    change (plus (accumulate (take (q * (tc - 1)) (drop (q * 0) r)) init) (accumulate (take (length r - (tc - 1) * q) (drop ((tc - 1) * q) r)) zero) = accumulate r init).
    rewrite <- accumulate_from, <- accumulate_app. f_equal. rewrite Nat.mul_0_r, drop_0, (Nat.mul_comm q), (take_ge (drop ((tc - 1) * q) r)) by (rewrite length_drop; lia).
    apply take_drop.
Qed.

End Sum.

End ParallelAccumulate.

(** ** Concrete inputs *)

Lemma stable_partition_filters_witness : StablePartition.StablePartition Nat.even 5 [1; 2; 3; 4; 6] = ([2; 4; 6; 1; 3], 3).
Proof. rewrite (StablePartition.stable_partition_filters Nat.even 5 [1; 2; 3; 4; 6]); [reflexivity|cbn; lia]. Defined.

Lemma sorted_four : StronglySorted le [1; 2; 3; 4].
Proof. repeat constructor; lia. Qed.

(** The two elements in the middle. *)
Lemma middle_sorted : SubrangeSort.SubrangeSort le 1 3 [3; 1; 4; 2] [1; 2; 3; 4].
Proof.
  unfold SubrangeSort.SubrangeSort. rewrite !decide_False by lia. exists [1; 2; 4; 3]. split.
  - split; [|exists [1], 2, [4; 3]; split; [done|]; split; [done|]; split; repeat constructor; lia].
    apply (bool_decide_unpack _); vm_compute; exact I.
  - exists [1; 2], [4; 3], [3], [4]. split; [done|]. split; [done|]. split; [done|]. split; [done|]. split; [apply Permutation_swap|]. split; repeat constructor; lia.
Qed.

Lemma subrange_sorted_witness : take 2 (drop 1 [1; 2; 3; 4]) = [2; 3] /\ [1; 2; 3; 4] ≡ₚ [3; 1; 4; 2].
Proof.
  assert (Hp : [1; 2; 3; 4] ≡ₚ [3; 1; 4; 2]) by (apply (bool_decide_unpack _); vm_compute; exact I).
  destruct (SubrangeSort.subrange_sorted le 1 3 [3; 1; 4; 2] [1; 2; 3; 4] [1; 2; 3; 4]) as [H1 H2]; [lia|exact middle_sorted|exact sorted_four|exact Hp|].
  split; [exact H2|exact H1].
Defined.

Lemma subrange_sort_total_witness : exists l', SubrangeSort.SubrangeSort le 1 3 [3; 1; 4; 2] l'.
Proof. apply (SubrangeSort.subrange_sort_total le 1 3 [3; 1; 4; 2]). cbn. lia. Defined.

Lemma inserter_keeps_sorted_witness : LowerBoundInserter.copy Nat.ltb [3; 2; 4; 6] [1; 3; 5] = [1; 2; 3; 3; 4; 5; 6] /\
  LowerBoundInserter.sorted Nat.ltb (LowerBoundInserter.copy Nat.ltb [3; 2; 4; 6] [1; 3; 5]).
Proof.
  split; [reflexivity|]. apply (LowerBoundInserter.inserter_keeps_sorted Nat.ltb).
  - intros x y H. apply Nat.ltb_lt in H. apply Nat.ltb_ge. lia.
  - intros x y z H1 H2. apply Nat.ltb_ge in H1, H2. apply Nat.ltb_ge. lia.
  - repeat constructor.
Defined.

Lemma parallel_accumulate_sums_witness : ParallelAccumulate.parallel_accumulate Nat.add 0 8 [1; 2; 3; 4; 5; 6] 10 = Ok 31 /\
  ParallelAccumulate.parallel_accumulate Nat.add 0 8 [1; 2; 3; 4; 5] 10 = Undef.
Proof.
  split; (rewrite (ParallelAccumulate.parallel_accumulate_sums Nat.add 0); [reflexivity|intros; lia|intros; lia|intros; lia]).
Defined.
