(* ===== verification/CompileTime.v ===== *)
(** * Computations at compile time, and views

    Models CompileTimeContainers (string_sort.h, upper_case.h), typelist/typelist/main.cpp and
    learn-cxx/ranges (chain_view.h, main.cpp).  A string is the list of its characters before the
    terminator, with no NUL in it. *)

From Stdlib Require Import Sorted.
From stdpp Require Import sorting.
From S2P Require Import Prelude.

#[local] Open Scope Z_scope.

(** ** Strings *)

Module StringSort.

(** The value of a plain [char], which is signed on the platforms of the project. *)
Definition char_value (c : ascii) : Z := let v := uchar c in if v <? 128 then v else v - 256.

(** [s[i]]: the terminator is at the end, and nothing behind it may be read. *)
Definition at_ (s : str) (i : nat) : outcome Z :=
  match s !! i with Some c => Ok (char_value c) | None => if (i =? length s)%nat then Ok 0 else Undef end.

(** The loops over [i], from the end of [lhs] backwards in [fuel]. *)
Fixpoint equals_loop (fuel i : nat) (lhs rhs : str) : outcome bool :=
  match fuel with
  | O => Undef
  | S fuel => l ← at_ lhs i; if l =? 0 then Ok true else r ← at_ rhs i; if negb (l =? r) then Ok false else equals_loop fuel (S i) lhs rhs
  end.

Definition compile_time_string_equals (lhs rhs : str) : outcome bool := equals_loop (S (length lhs)) 0 lhs rhs.

Fixpoint less_loop (fuel i : nat) (lhs rhs : str) : outcome bool :=
  match fuel with
  | O => Undef
  | S fuel => l ← at_ lhs i; if l =? 0 then Ok false else r ← at_ rhs i; if negb (l =? r) then Ok (l <? r) else less_loop fuel (S i) lhs rhs
  end.

Definition compile_time_string_less (lhs rhs : str) : outcome bool := less_loop (S (length lhs)) 0 lhs rhs.

(** What the loops compute, without indices. *)
Fixpoint less (lhs rhs : str) : bool :=
  match lhs, rhs with
  | [], _ => false
  | l :: _, [] => char_value l <? 0
  | l :: lhs, r :: rhs => if char_value l =? char_value r then less lhs rhs else char_value l <? char_value r
  end.

Definition no_nul (s : str) : Prop := Forall (fun c => uchar c <> 0) s.

Lemma char_value_zero c : char_value c = 0 <-> uchar c = 0.
Proof. pose proof (uchar_range c). unfold char_value. case_bool; lia. Qed.

Lemma char_value_inj a b : char_value a = char_value b -> a = b.
Proof.
  intros H. pose proof (uchar_range a). pose proof (uchar_range b). rewrite <- (chr_uchar a), <- (chr_uchar b). f_equal. unfold char_value in H. cbv zeta in H. destruct (Z.ltb_spec (uchar a) 128), (Z.ltb_spec (uchar b) 128); lia.
Qed.

Lemma at_mid (p s : str) : at_ (p ++ s) (length p) = match s with c :: _ => Ok (char_value c) | [] => Ok 0 end.
Proof.
  unfold at_. rewrite lookup_app_r by lia. rewrite Nat.sub_diag. destruct s as [|c s]; [|done]. cbn. rewrite app_nil_r, Nat.eqb_refl. done.
Qed.

Lemma equals_loop_spec fuel p lhs rhs : no_nul lhs -> (length lhs < fuel)%nat ->
  equals_loop fuel (length p) (p ++ lhs) (p ++ rhs) = Ok (bool_decide (lhs `prefix_of` rhs)).
Proof.
  revert p lhs rhs. induction fuel as [|fuel IH]; intros p lhs rhs Hn Hf; [lia|]. cbn. rewrite !at_mid. destruct lhs as [|c lhs]; cbn.
  - by rewrite bool_decide_true by apply prefix_nil.
  - inversion Hn as [|? ? Hc Hl]; subst. rewrite <- char_value_zero in Hc. destruct (Z.eqb_spec (char_value c) 0); [done|]. destruct rhs as [|r rhs]; cbn.
    + destruct (Z.eqb_spec (char_value c) 0); [done|]. cbn. rewrite bool_decide_false; [done|]. by intros [? ?].
    + destruct (Z.eqb_spec (char_value c) (char_value r)) as [He|He]; cbn.
      * apply char_value_inj in He as ->. specialize (IH (p ++ [r]) lhs rhs Hl). rewrite <- !app_assoc, length_app in IH. cbn in *. rewrite Nat.add_1_r in IH. rewrite IH by lia.
        f_equal. apply bool_decide_ext. split; [intros [k ->]; by exists k|intros H; by apply prefix_cons_inv_2 in H].
      * rewrite bool_decide_false; [done|]. intros H. apply prefix_cons_inv_1 in H. congruence.
Qed.

Lemma less_loop_spec fuel p lhs rhs : no_nul lhs -> (length lhs < fuel)%nat -> less_loop fuel (length p) (p ++ lhs) (p ++ rhs) = Ok (less lhs rhs).
Proof.
  revert p lhs rhs. induction fuel as [|fuel IH]; intros p lhs rhs Hn Hf; [lia|]. cbn. rewrite !at_mid. destruct lhs as [|c lhs]; cbn; [done|].
  inversion Hn as [|? ? Hc Hl]; subst. rewrite <- char_value_zero in Hc. destruct (Z.eqb_spec (char_value c) 0); [done|]. destruct rhs as [|r rhs]; cbn.
  - destruct (Z.eqb_spec (char_value c) 0); done.
  - destruct (Z.eqb_spec (char_value c) (char_value r)) as [He|He]; cbn; [|done]. apply char_value_inj in He as ->.
    specialize (IH (p ++ [r]) lhs rhs Hl). rewrite <- !app_assoc, length_app in IH. cbn in *. rewrite Nat.add_1_r in IH. by rewrite IH by lia.
Qed.

(** Neither comparison reads behind a terminator; [compile_time_string_equals] says whether the
    first string is a prefix of the second one. *)
Theorem string_comparisons lhs rhs : no_nul lhs ->
  compile_time_string_equals lhs rhs = Ok (bool_decide (lhs `prefix_of` rhs)) /\ compile_time_string_less lhs rhs = Ok (less lhs rhs).
Proof. intros Hn. split; [apply (equals_loop_spec _ [])|apply (less_loop_spec _ [])]; (done || lia). Qed.

End StringSort.

(** ** The insertion sort *)

Module CompileTimeSort.

Section Comparison.

Context {T : Type} (cmp : T -> T -> bool).

(** The inner loop, from [j] down; [temp] was at the position of the outer one. *)
Fixpoint shift_loop (j : nat) (temp : T) (v : list T) : list T :=
  match j with
  | O => <[0%nat := temp]> v
  | S k => match v !! k with
           | Some x => if cmp temp x then shift_loop k temp (<[j := x]> v) else <[j := temp]> v
           | None => v
           end
  end.

Definition insert_at (v : list T) (i : nat) : list T := match v !! i with Some temp => shift_loop i temp v | None => v end.

Definition compile_time_sort (v : list T) : list T := fold_left insert_at (seq 1 (length v - 1)) v.

(** The value between those that are not greater and those that are, looking from the end. *)
Fixpoint place (temp : T) (behind : list T) (before : list T) : list T :=
  match before with
  | [] => temp :: behind
  | x :: before => if cmp temp x then place temp (x :: behind) before else reverse before ++ x :: temp :: behind
  end.

Lemma shift_loop_place temp before x behind : shift_loop (length before) temp (reverse before ++ x :: behind) = place temp behind before.
Proof.
  revert x behind. induction before as [|y before IH]; intros x behind; [done|]. cbn [length shift_loop place].
  rewrite reverse_cons, <- app_assoc. cbn [app]. rewrite lookup_app_r by (by rewrite length_reverse). rewrite length_reverse, Nat.sub_diag. change ((y :: x :: behind) !! 0%nat) with (Some y). cbv iota.
  assert (Hins : forall z, <[S (length before) := z]> (reverse before ++ y :: x :: behind) = reverse before ++ y :: z :: behind).
  { intros z. rewrite insert_app_r_alt by (rewrite length_reverse; lia). rewrite length_reverse, Nat.sub_succ_l, Nat.sub_diag by lia. done. }
  rewrite !Hins. destruct (cmp temp y); [apply IH|done].
Qed.

(** What the standard requires of a comparison, for the values that are there. *)
Context (values : list T).
Context (cmp_asym : forall x y, x ∈ values -> y ∈ values -> cmp x y = true -> cmp y x = false).
Context (cmp_trans : forall x y z, x ∈ values -> y ∈ values -> z ∈ values -> cmp y x = false -> cmp z y = false -> cmp z x = false).

Definition sorted_by : list T -> Prop := StronglySorted (fun x y => cmp y x = false).

Lemma place_perm temp behind before : place temp behind before ≡ₚ temp :: before ++ behind.
Proof.
  revert behind. induction before as [|x before IH]; intros behind; cbn; [done|]. destruct (cmp temp x).
  - rewrite IH, Permutation_swap. cbn. by rewrite <- Permutation_middle, Permutation_swap.
  - rewrite reverse_Permutation, <- !Permutation_middle. apply Permutation_swap.
Qed.

Lemma place_sorted temp behind before : sorted_by (reverse before ++ behind) -> Forall (fun y => cmp y temp = false) behind ->
  temp ∈ values -> (forall x, x ∈ before ++ behind -> x ∈ values) -> sorted_by (place temp behind before).
Proof.
  unfold sorted_by. revert behind. induction before as [|x before IH]; intros behind Hs Hb Ht Hv; cbn; [apply StronglySorted_cons; split; [exact Hb|exact Hs]|].
  assert (Hx : x ∈ values) by (apply Hv; by left). rewrite reverse_cons, <- app_assoc in Hs. cbn in Hs. destruct (cmp temp x) eqn:Hc.
  - apply IH; [done| |done|].
    + constructor; [|done]. by apply cmp_asym.
    + intros y Hy. apply Hv. rewrite elem_of_app in Hy. cbn. rewrite elem_of_cons, elem_of_app. rewrite elem_of_cons in Hy. tauto.
  - apply StronglySorted_app in Hs as (Hab & Ha & Hxb). apply StronglySorted_cons in Hxb as [Hx' Hbs].
    assert (Htb : StronglySorted (fun x y => cmp y x = false) (x :: temp :: behind)).
    { apply StronglySorted_cons. split; [by constructor|]. by apply StronglySorted_cons. }
    apply StronglySorted_app_2; [|done|done]. intros y z Hy [->|[->|Hz]%elem_of_cons]%elem_of_cons.
    + apply Hab; [done|by left].
    + apply (cmp_trans y x); [|done|done|apply Hab; [done|by left]|done]. apply Hv. cbn. rewrite elem_of_cons, elem_of_app. rewrite elem_of_reverse in Hy. tauto.
    + apply Hab; [done|by right].
Qed.

Lemma sort_loop_sorted n : forall p s, length s = n -> sorted_by p -> (forall x, x ∈ p ++ s -> x ∈ values) ->
  let r := fold_left insert_at (seq (length p) n) (p ++ s) in sorted_by r /\ r ≡ₚ p ++ s.
Proof.
  induction n as [|n IH]; intros p s Hn Hs Hv.
  - destruct s; [|done]. cbn. rewrite app_nil_r. done.
  - destruct s as [|x s]; [done|]. injection Hn as Hn. cbn zeta. cbn [seq fold_left].
    assert (Hsh : insert_at (p ++ x :: s) (length p) = place x s (reverse p)).
    { unfold insert_at. rewrite lookup_app_r, Nat.sub_diag by lia. change ((x :: s) !! 0%nat) with (Some x). cbv iota.
      pose proof (shift_loop_place x (reverse p) x s) as H. by rewrite reverse_involutive, length_reverse in H. }
    rewrite !Hsh.
    assert (Hpl : place x s (reverse p) = place x [] (reverse p) ++ s).
    { clear. generalize (reverse p) as b. intros b. change s with ([] ++ s) at 1. generalize (@nil T) as e. induction b as [|y b IH]; intros e; cbn; [done|].
      destruct (cmp x y); [by rewrite <- (IH (y :: e))|]. by rewrite <- app_assoc. }
    assert (Hperm : place x [] (reverse p) ≡ₚ p ++ [x]). { rewrite place_perm, app_nil_r, reverse_Permutation. apply Permutation_cons_append. }
    assert (Hlen : length (place x [] (reverse p)) = S (length p)) by (rewrite (Permutation_length Hperm), length_app; cbn; lia).
    rewrite Hpl, <- Hlen. destruct (IH (place x [] (reverse p)) s Hn) as [H1 H2].
    + apply place_sorted; [by rewrite reverse_involutive, app_nil_r|done|apply Hv; rewrite elem_of_app; right; by left|].
      intros y. rewrite app_nil_r, elem_of_reverse. intros Hy. apply Hv. rewrite elem_of_app. by left.
    + intros y. rewrite Hperm, <- app_assoc. apply Hv.
    + split; [exact H1|]. rewrite H2, Hperm, <- app_assoc. done.
Qed.

(** With a comparison that orders the elements, the sort sorts them. *)
Theorem insertion_sorts v : (forall x, x ∈ v -> x ∈ values) -> sorted_by (compile_time_sort v) /\ compile_time_sort v ≡ₚ v.
Proof.
  intros Hv. unfold compile_time_sort. destruct v as [|x v]; [split; [constructor|done]|]. cbn [length]. rewrite Nat.sub_succ, Nat.sub_0_r.
  apply (sort_loop_sorted (length v) [x] v); [done|repeat constructor|done].
Qed.

End Comparison.

End CompileTimeSort.

(** ** Sorting strings *)

Module StringOrder.

Import StringSort CompileTimeSort.

(** The array is copied and sorted; the comparison never fails and is [less], by [string_comparisons]. *)
Definition compile_time_str_sort (in_ : list str) : list str := compile_time_sort less in_.

(** The order of terminated strings. *)
Fixpoint lexicographic (a b : list Z) : bool :=
  match a, b with
  | x :: a, y :: b => if x =? y then lexicographic a b else x <? y
  | [], _ :: _ => true
  | _, _ => false
  end.

Definition terminated (s : str) : list Z := map char_value s ++ [0].

Lemma lexicographic_asym a b : lexicographic a b = true -> lexicographic b a = false.
Proof.
  revert b. induction a as [|x a IH]; intros [|y b]; cbn; try done. destruct (Z.eqb_spec x y) as [->|]; [rewrite Z.eqb_refl; apply IH|].
  destruct (Z.eqb_spec y x); [congruence|]. rewrite Z.ltb_lt, Z.ltb_ge. lia.
Qed.

Lemma lexicographic_trans a b c : lexicographic b a = false -> lexicographic c b = false -> lexicographic c a = false.
Proof.
  revert a c. induction b as [|y b IH]; intros [|x a] [|z c]; cbn; try done.
  destruct (Z.eqb_spec y x), (Z.eqb_spec z y), (Z.eqb_spec z x); subst; try congruence; rewrite ?Z.ltb_ge; try lia; try done. apply IH.
Qed.

(** On strings of which none begins another one, [compile_time_string_less] is that order. *)
Lemma less_lexicographic a b : (a `prefix_of` b -> a = b) -> no_nul a -> no_nul b -> less a b = lexicographic (terminated a) (terminated b).
Proof.
  unfold terminated. revert b. induction a as [|x a IH]; intros b Hp Ha Hb.
  - rewrite <- Hp by apply prefix_nil. done.
  - inversion Ha as [|? ? Hx Ha']; subst. rewrite <- char_value_zero in Hx. destruct b as [|y b]; cbn.
    + by destruct (Z.eqb_spec (char_value x) 0).
    + inversion Hb; subst. destruct (Z.eqb_spec (char_value x) (char_value y)) as [He|]; [|done]. apply char_value_inj in He as ->. apply IH; try done.
      intros H. assert (y :: a = y :: b) by (apply Hp; by apply prefix_cons). congruence.
Qed.

(** Strings without a terminator of which none begins another one are sorted lexicographically. *)
Theorem strings_sorted v : Forall no_nul v -> (forall a b, a ∈ v -> b ∈ v -> a `prefix_of` b -> a = b) ->
  StronglySorted (fun a b => lexicographic (terminated b) (terminated a) = false) (compile_time_str_sort v) /\ compile_time_str_sort v ≡ₚ v.
Proof.
  intros Hn Hp. rewrite Forall_forall in Hn.
  assert (Hl : forall a b, a ∈ v -> b ∈ v -> less a b = lexicographic (terminated a) (terminated b)) by (intros a b Ha Hb; apply less_lexicographic; auto).
  destruct (insertion_sorts less v) with (v := v) as [H1 H2]; [| |done|].
  - intros x y Hx Hy. rewrite !Hl by done. apply lexicographic_asym.
  - intros x y z Hx Hy Hz. rewrite !Hl by done. apply lexicographic_trans.
  - split; [|done]. assert (Hin : forall x, x ∈ compile_time_str_sort v -> x ∈ v) by (intros x; unfold compile_time_str_sort; by rewrite H2).
    unfold compile_time_str_sort in *. clear H2. unfold sorted_by in H1. induction H1 as [|x l Hss IH Hx]; [constructor|].
    constructor; [apply IH; intros y Hy; apply Hin; by right|]. rewrite Forall_forall in *. intros y Hy. rewrite <- Hl; [by apply Hx|apply Hin; by right|apply Hin; by left].
Qed.

(** A string that begins another one counts as equal to it, so that strings around it stay
    unsorted. *)
Theorem prefixes_unsorted : let v := map lit ["abd"%string; "ab"%string; "abc"%string] in
  compile_time_str_sort v = v /\ less (lit "abc") (lit "abd") = true.
Proof. by vm_compute. Qed.

(** [MakeUpperCase], for an array with its terminator. *)
Definition upper (c : ascii) : ascii := if (char_value c <? 97) || (122 <? char_value c) then c else chr (uchar c - 32).

Definition MakeUpperCase (s : str) : str := map upper s.

(** Exactly the lower-case letters change, each to its capital. *)
Theorem upper_case s : MakeUpperCase (MakeUpperCase s) = MakeUpperCase s /\ length (MakeUpperCase s) = length s /\
  forall i c, s !! i = Some c -> MakeUpperCase s !! i = Some (if (97 <=? uchar c) && (uchar c <=? 122) then chr (uchar c - 32) else c).
Proof.
  assert (Hu : forall c, upper c = if (97 <=? uchar c) && (uchar c <=? 122) then chr (uchar c - 32) else c).
  { intros c. unfold upper, char_value. cbv zeta. pose proof (uchar_range c). 
    destruct (Z.ltb_spec (uchar c) 128), (Z.leb_spec 97 (uchar c)), (Z.leb_spec (uchar c) 122); cbn [andb];
      repeat match goal with |- context [?x <? ?y] => destruct (Z.ltb_spec x y); try lia end; done. }
  split; [|split].
  - unfold MakeUpperCase. rewrite map_map. apply map_ext. intros c. rewrite !Hu. pose proof (uchar_range c).
    destruct (Z.leb_spec 97 (uchar c)), (Z.leb_spec (uchar c) 122); cbn [andb]; rewrite ?uchar_chr by (unfold in_u; lia);
      repeat match goal with |- context [?x <=? ?y] => destruct (Z.leb_spec x y); try lia end; done.
  - apply length_map.
  - intros i c Hi. unfold MakeUpperCase. rewrite <- Hu. change (map upper s) with (upper <$> s). by rewrite list_lookup_fmap, Hi.
Qed.

End StringOrder.

(** ** Lists of types *)

Module Typelist.

Section Types.

(** The types of the program. *)
Context {ty : Type}.

(** A [typelist]; [size] is its length. *)
Inductive typelist := types (ts : list ty).

Definition elements (l : typelist) : list ty := let 'types ts := l in ts.

Definition size (l : typelist) : nat := length (elements l).
Definition prepend (us : list ty) (l : typelist) : typelist := types (us ++ elements l).
Definition append (us : list ty) (l : typelist) : typelist := types (elements l ++ us).

Definition map_t (l : typelist) (F : ty -> ty) : typelist := types (map F (elements l)).

(** The specializations of [filter], with the list of what was kept. *)
Fixpoint filter_from (ts : list ty) (P : ty -> bool) (out : typelist) : typelist :=
  match ts with
  | [] => out
  | h :: ts => if P h then filter_from ts P (append [h] out) else filter_from ts P out
  end.

Definition filter_t (l : typelist) (P : ty -> bool) : typelist := filter_from (elements l) P (types []).

(** The accumulator is a type too. *)
Fixpoint fold_from (ts : list ty) (i : ty) (Op : ty -> ty -> ty) : ty :=
  match ts with [] => i | h :: ts => fold_from ts (Op i h) Op end.

Definition fold_t (l : typelist) (i : ty) (Op : ty -> ty -> ty) : ty := fold_from (elements l) i Op.

(** [filter] keeps the types with the property, in their order; [fold] of two lists is [fold] of
    the second one from that of the first; both go through [map]. *)
Theorem typelist_laws l us F P Op i :
  elements (filter_t l P) = filter (fun t => P t = true) (elements l) /\
  elements (filter_t (append us l) P) = elements (filter_t l P) ++ elements (filter_t (types us) P) /\
  fold_t (append us l) i Op = fold_t (types us) (fold_t l i Op) Op /\
  fold_t (map_t l F) i Op = fold_t l i (fun a t => Op a (F t)) /\
  elements (filter_t (map_t l F) P) = elements (map_t (filter_t l (fun t => P (F t))) F) /\
  size (map_t l F) = size l.
Proof.
  assert (Hf : forall Q ts out, elements (filter_from ts Q out) = elements out ++ filter (fun t => Q t = true) ts).
  { intros Q ts. induction ts as [|h ts IH]; intros out; cbn [filter_from]; [by rewrite filter_nil, app_nil_r|]. rewrite filter_cons.
    destruct (Q h); rewrite IH; [|done]. cbn. by rewrite <- app_assoc. }
  assert (Hfo : forall O ts j, fold_from ts j O = fold_left O ts j) by (intros O ts; induction ts as [|h ts IH]; intros j; cbn; [done|apply IH]).
  destruct l as [ts]. unfold filter_t, fold_t, size. rewrite !Hf, !Hfo. cbn [elements append map_t app].
  split; [done|]. split; [by rewrite filter_app|]. split; [apply fold_left_app|]. split; [|split; [|apply length_map]].
  - clear. revert i. induction ts as [|h ts IH]; intros i; cbn; [done|apply IH].
  - rewrite Hf. cbn [elements app]. clear. induction ts as [|h ts IH]; [done|]. cbn [map]. rewrite !filter_cons. destruct (P (F h)); cbn [map]; by rewrite IH.
Qed.

End Types.

End Typelist.

(** ** chain_view *)

Module ChainView.

Section Views.

Context {T : Type}.

(** An iterator of a view is what it has still in front of it. *)
Record iterator := mk_iterator { iter1_ : list T; iter2_ : list T; first_part_done_ : bool }.

Definition begin (v1 v2 : list T) : iterator := mk_iterator v1 v2 false.

Definition deref (it : iterator) : outcome T :=
  match (if first_part_done_ it then iter2_ it else iter1_ it) with x :: _ => Ok x | [] => Undef end.

Definition tail (l : list T) : outcome (list T) := match l with _ :: l => Ok l | [] => Undef end.

Definition increment (it : iterator) : outcome iterator :=
  if first_part_done_ it then l ← tail (iter2_ it); Ok (mk_iterator (iter1_ it) l true)
  else l ← tail (iter1_ it); Ok (mk_iterator l (iter2_ it) (match l with [] => true | _ => false end)).

(** The comparison with the sentinel. *)
Definition at_end (it : iterator) : bool := first_part_done_ it && match iter2_ it with [] => true | _ => false end.

(** A range-based loop over the view; [fuel] bounds its steps. *)
Fixpoint traverse (fuel : nat) (it : iterator) : outcome (list T) :=
  match fuel with
  | O => Undef
  | S fuel => if at_end it then Ok [] else x ← deref it; it ← increment it; xs ← traverse fuel it; Ok (x :: xs)
  end.

Lemma traverse_second v1 v2 fuel : (length v2 < fuel)%nat -> traverse fuel (mk_iterator v1 v2 true) = Ok v2.
Proof.
  revert v2. induction fuel as [|fuel IH]; intros v2 Hf; [lia|]. destruct v2 as [|x v2]; [done|]. cbn in *. rewrite IH by lia. done.
Qed.

(** A loop over the view sees the elements of the first range and then those of the second
    one; when the first range is empty, it reads beyond its end at once. *)
Theorem chain_view_elements v1 v2 fuel : (length v1 + length v2 < fuel)%nat ->
  traverse fuel (begin v1 v2) = match v1 with [] => Undef | _ => Ok (v1 ++ v2) end.
Proof.
  revert v1. induction fuel as [|fuel IH]; intros v1 Hf; [lia|]. destruct v1 as [|x v1]; [done|]. cbn in *. destruct v1 as [|y v1].
  - cbn. rewrite traverse_second by (cbn in Hf; lia). done.
  - specialize (IH (y :: v1)). unfold begin in IH. rewrite IH by (cbn in *; lia). done.
Qed.

End Views.

End ChainView.

(** ** Fibonacci numbers with a memo *)

Module Fib.

Definition int_add (x y : Z) : outcome Z := if (- 2 ^ 31 <=? x + y) && (x + y <? 2 ^ 31) then Ok (x + y) else Undef.

(** The value, and the memo after the call; the operands of the sum are evaluated from the left.
    [fuel] is the depth of the recursion at most. *)
Fixpoint fib_loop (fuel : nat) (memo : list Z) (n : nat) : outcome (Z * list Z) :=
  match fuel with
  | O => Undef
  | S fuel =>
      if (n <=? length memo)%nat then
        match n with O => Undef | S k => v ← the (memo !! k); Ok (v, memo) end
      else
        '(a, memo) ← fib_loop fuel memo (n - 1);
        '(b, memo) ← fib_loop fuel memo (n - 2);
        val ← int_add a b;
        Ok (val, memo ++ [val])
  end.

Definition fib (memo : list Z) (n : nat) : outcome (Z * list Z) := fib_loop (S n) memo n.

Lemma fib_loop_step fuel memo n : fib_loop (S fuel) memo n =
  if (n <=? length memo)%nat then match n with O => Undef | S k => v ← the (memo !! k); Ok (v, memo) end
  else '(a, memo) ← fib_loop fuel memo (n - 1); '(b, memo) ← fib_loop fuel memo (n - 2); val ← int_add a b; Ok (val, memo ++ [val]).
Proof. done. Qed.

(** The numbers from 0 on, a pair of neighbours at a time. *)
Fixpoint fibonacci_pair (n : nat) : Z * Z := match n with O => (0, 1) | S n => let '(a, b) := fibonacci_pair n in (b, a + b) end.

Definition fibonacci (n : nat) : Z := fst (fibonacci_pair n).

Lemma fibonacci_next n : fibonacci (S (S n)) = fibonacci n + fibonacci (S n).
Proof. unfold fibonacci. cbn. by destruct (fibonacci_pair n). Qed.

Definition memo_of (k : nat) : list Z := map fibonacci (seq 0 k).

Lemma memo_of_snoc k : memo_of (S k) = memo_of k ++ [fibonacci k].
Proof. unfold memo_of. by rewrite seq_S, map_app. Qed.

Lemma fibonacci_fits n : (n <= 46)%nat -> 0 <= fibonacci n < 2 ^ 31.
Proof.
  intros Hn. assert (H : forall k, (k <= 46)%nat -> bool_decide (0 <= fibonacci k < 2 ^ 31) = true); [|exact (bool_decide_eq_true_1 _ (H n Hn))].
  intros k Hk. assert (Hall : forallb (fun k => bool_decide (0 <= fibonacci k < 2 ^ 31)) (seq 0 47) = true) by (by vm_compute).
  rewrite forallb_forall in Hall. apply Hall, in_seq. lia.
Qed.

Lemma fib_loop_memo fuel : forall k n, (2 <= k)%nat -> (1 <= n <= 47)%nat -> (n < fuel)%nat ->
  fib_loop fuel (memo_of k) n = Ok (fibonacci (n - 1), memo_of (Nat.max k n)).
Proof.
  induction fuel as [|fuel IH]; intros k n Hk Hn Hf; [lia|]. assert (Hlen : forall j, length (memo_of j) = j) by (intros j; unfold memo_of; by rewrite length_map, length_seq).
  cbn [fib_loop]. rewrite Hlen. destruct (Nat.leb_spec n k) as [Hle|Hgt].
  - destruct n as [|n]; [lia|]. rewrite (Nat.max_l k (S n)) by lia. cbn. rewrite Nat.sub_0_r. unfold memo_of.
    change (map fibonacci (seq 0 k)) with (fibonacci <$> seq 0 k). rewrite list_lookup_fmap, lookup_seq_lt by lia. done.
  - rewrite (IH k (n - 1)%nat) by lia. cbn. rewrite (IH (Nat.max k (n - 1)) (n - 2)%nat) by lia. cbn.
    replace (Nat.max (Nat.max k (n - 1)) (n - 2)) with (n - 1)%nat by lia. destruct n as [|[|[|n]]]; [lia|lia|lia|].
    cbn [Nat.sub]. rewrite !Nat.sub_0_r. unfold int_add. pose proof (fibonacci_fits (S (S n)) ltac:(lia)) as Hfit. pose proof (fibonacci_next n) as Hnext.
    destruct (Z.leb_spec (- 2 ^ 31) (fibonacci (S n) + fibonacci n)); [|lia]. destruct (Z.ltb_spec (fibonacci (S n) + fibonacci n) (2 ^ 31)); [|lia]. cbn [andb mbind outcome_bind].
    rewrite Nat.max_r by lia. rewrite (memo_of_snoc (S (S n))). replace (fibonacci (S n) + fibonacci n) with (fibonacci (S (S n))) by lia. done.
Qed.

(** From the memo of the program, or what earlier calls have made of it, the call returns the
    Fibonacci number and leaves the memo of all up to it; up to the 47th there is no overflow, at
    the 48th there is. *)
Theorem fib_memo k n : (2 <= k <= 47)%nat -> (1 <= n <= 48)%nat ->
  fib (memo_of k) n = if decide (n = 48%nat) then Undef else Ok (fibonacci (n - 1), memo_of (Nat.max k n)).
Proof.
  intros Hk Hn. unfold fib. case_decide as H; [|apply fib_loop_memo; lia]. subst n.
  assert (Hlen : length (memo_of k) = k) by (unfold memo_of; by rewrite length_map, length_seq).
  rewrite fib_loop_step.
  rewrite Hlen. destruct (Nat.leb_spec 48 k); [lia|]. change (48 - 1)%nat with 47%nat. change (48 - 2)%nat with 46%nat.
  rewrite (fib_loop_memo 48 k 47) by lia. rewrite bind_ok, (fib_loop_memo 48 (Nat.max k 47) 46) by lia. rewrite bind_ok. by replace (int_add _ _) with (@Undef Z) by (by vm_compute).
Qed.

End Fib.

(** ** Concrete inputs *)

Lemma string_comparisons_witness : StringSort.compile_time_string_equals (lit "ab") (lit "abc") = Ok true /\ StringSort.compile_time_string_less (lit "abc") (lit "abd") = Ok true.
Proof.
  split.
  - destruct (StringSort.string_comparisons (lit "ab") (lit "abc")) as [H _]; [repeat constructor; discriminate|exact H].
  - destruct (StringSort.string_comparisons (lit "abc") (lit "abd")) as [_ H]; [repeat constructor; discriminate|exact H].
Defined.

Lemma insertion_sorts_witness : CompileTimeSort.compile_time_sort Z.ltb [3; 1; 2] = [1; 2; 3] /\ CompileTimeSort.sorted_by Z.ltb (CompileTimeSort.compile_time_sort Z.ltb [3; 1; 2]).
Proof.
  split; [reflexivity|]. apply (CompileTimeSort.insertion_sorts Z.ltb [3; 1; 2]).
  - intros x y _ _ H. apply Z.ltb_lt in H. apply Z.ltb_ge. lia.
  - intros x y z _ _ _ H1 H2. apply Z.ltb_ge in H1, H2. apply Z.ltb_ge. lia.
  - intros x H. exact H.
Defined.

Definition three_names : list str := map lit ["spot"%string; "rex"%string; "ada"%string].

Lemma strings_sorted_witness : StringOrder.compile_time_str_sort three_names = map lit ["ada"%string; "rex"%string; "spot"%string] /\
  StringOrder.compile_time_str_sort three_names ≡ₚ three_names.
Proof.
  split; [vm_compute; reflexivity|]. apply (StringOrder.strings_sorted three_names).
  - repeat constructor; discriminate.
  - intros a b Ha Hb Hp. apply list_elem_of_In in Ha, Hb. destruct Hp as [k Hk].
    destruct Ha as [<-|[<-|[<-|[]]]]; destruct Hb as [<-|[<-|[<-|[]]]]; try reflexivity; exfalso; vm_compute in Hk; discriminate Hk.
Defined.

Lemma chain_view_elements_witness : ChainView.traverse 8 (ChainView.begin [1; 3; 5; 7] [2; 4; 6]) = Ok [1; 3; 5; 7; 2; 4; 6].
Proof. exact (ChainView.chain_view_elements [1; 3; 5; 7] [2; 4; 6] 8 ltac:(cbn; lia)). Defined.

Lemma fib_memo_witness : Fib.fib [0; 1] 6 = Ok (5, [0; 1; 1; 2; 3; 5]).
Proof. exact (Fib.fib_memo 2 6 ltac:(lia) ltac:(lia)). Defined.
