(* ===== verification/Scans.v ===== *)
(** * Exercises that scan an array

    Models, of crack-data-structures-and-algorithms/leetcode, maximum_subarry_q53,
    container_with_most_water_q11, trapping_rain_water_q42, jump_game_q55, gas_station_q134 and
    two_sum_II_q167.  An [int] is a [Z], and an operation on it whose result does not fit is
    undefined.  Loops have [fuel], their theorems say how much is enough. *)

From S2P Require Import Prelude.

#[local] Open Scope Z_scope.

(** The result of an operation on [int]. *)
Definition int32 (x : Z) : outcome Z := if (- 2 ^ 31 <=? x) && (x <? 2 ^ 31) then Ok x else Undef.

Lemma int32_ok x : - 2 ^ 31 <= x < 2 ^ 31 -> int32 x = Ok x.
Proof. intros H. unfold int32. destruct (Z.leb_spec (- 2 ^ 31) x), (Z.ltb_spec x (2 ^ 31)); (done || lia). Qed.

(** ** Sums of prefixes *)

Fixpoint sum (l : list Z) : Z := match l with [] => 0 | x :: l => x + sum l end.

(** The sum of the first [i] elements. *)
Definition prefix_sum (nums : list Z) (i : nat) : Z := sum (take i nums).

Lemma sum_app a b : sum (a ++ b) = sum a + sum b.
Proof. induction a as [|x a IH]; cbn; lia. Qed.

Lemma prefix_sum_S nums i x : nums !! i = Some x -> prefix_sum nums (S i) = prefix_sum nums i + x.
Proof. intros H. unfold prefix_sum. rewrite (take_S_r _ _ _ H), sum_app. cbn. lia. Qed.

(** ** maximum_subarry *)

Module MaxSubArray.

(** The loop of [Solution::maxSubArray]. *)
Fixpoint max_loop (it : list Z) (max_sum accum : Z) : outcome Z :=
  match it with
  | [] => Ok max_sum
  | x :: it => accum ← int32 (accum + x); max_loop it (Z.max max_sum accum) (if accum <? 0 then 0 else accum)
  end.

Definition maxSubArray (nums : list Z) : outcome Z :=
  match nums with [] => Undef | x :: it => max_loop it x (Z.max x 0) end.

(** The loops of [Solution2::max_sub]: [n] elements from [mid - 1] down, and from [mid + 1] up. *)
Fixpoint left_loop (nums : list Z) (first n : nat) (tmp_max left_max : Z) : outcome Z :=
  match n with
  | O => Ok left_max
  | S n => x ← the (nums !! (first + n)%nat); tmp_max ← int32 (tmp_max + x); left_loop nums first n tmp_max (Z.max left_max tmp_max)
  end.

Fixpoint right_loop (nums : list Z) (i n : nat) (tmp_max right_max : Z) : outcome Z :=
  match n with
  | O => Ok right_max
  | S n => x ← the (nums !! i); tmp_max ← int32 (tmp_max + x); right_loop nums (S i) n tmp_max (Z.max right_max tmp_max)
  end.

Fixpoint max_sub (fuel : nat) (nums : list Z) (first last : nat) : outcome Z :=
  match fuel with
  | O => Undef
  | S fuel =>
      if (last <=? first)%nat then Ok 0
      else if (S first =? last)%nat then the (nums !! first)
      else
        let mid := (first + (last - first) / 2)%nat in
        x ← the (nums !! mid);
        left_max ← left_loop nums first (mid - first) x x;
        right_max ← right_loop nums (S mid) (last - S mid) x x;
        both ← int32 (left_max + right_max);
        mc ← int32 (both - x);
        ma ← max_sub fuel nums first mid;
        mb ← max_sub fuel nums mid last;
        Ok (Z.max mc (Z.max ma mb))
  end.

Definition maxSubArray2 (nums : list Z) : outcome Z := max_sub (S (length nums)) nums 0 (length nums).

(** The largest sum of a segment that is not empty, of the elements from [first] on before [last]. *)
Definition largest (nums : list Z) (first last : nat) (m : Z) : Prop :=
  (exists i j, (first <= i < j)%nat /\ (j <= last)%nat /\ m = prefix_sum nums j - prefix_sum nums i) /\
  (forall i j, (first <= i < j)%nat -> (j <= last)%nat -> prefix_sum nums j - prefix_sum nums i <= m).

(** The sums of all the segments lie within the bounds. *)
Definition sums_within (b : Z) (nums : list Z) : Prop := forall i j, (i <= j)%nat -> (j <= length nums)%nat -> - b <= prefix_sum nums j - prefix_sum nums i < b.

Lemma max_loop_largest nums n : forall k max_sum accum, (k + n = length nums)%nat -> (0 < k)%nat -> sums_within (2 ^ 31) nums ->
  largest nums 0 k max_sum ->
  (exists i, (i <= k)%nat /\ accum = prefix_sum nums k - prefix_sum nums i) -> (forall i, (i <= k)%nat -> prefix_sum nums k - prefix_sum nums i <= accum) ->
  exists m, max_loop (drop k nums) max_sum accum = Ok m /\ largest nums 0 (length nums) m.
Proof.
  induction n as [|n IH]; intros k ms acc Hk Hpos Hb [Hex Hall] (i0 & Hi0 & Hacc) Hacc'.
  - rewrite drop_ge by lia. exists ms. split; [done|]. replace (length nums) with k by lia. by split.
  - destruct (nums !! k) as [x|] eqn:Hx; [|apply lookup_ge_None in Hx; lia]. rewrite (drop_S _ _ _ Hx). cbn [max_loop].
    pose proof (prefix_sum_S _ _ _ Hx) as HS. pose proof (Hb i0 (S k) ltac:(lia) ltac:(lia)) as Hfit. rewrite int32_ok by lia. rewrite bind_ok.
    destruct Hex as (i1 & j1 & Hij & Hj & Hms). apply IH; [lia|lia|done| | |].
    + split.
      * destruct (Z.max_spec ms (acc + x)) as [[_ ->]|[_ ->]]; [exists i0, (S k)|exists i1, j1]; (split; [lia|]); (split; [lia|]); lia.
      * intros i j Hi Hj'. destruct (decide (j = S k)) as [->|]; [specialize (Hacc' i ltac:(lia))|specialize (Hall i j ltac:(lia) ltac:(lia))]; lia.
    + destruct (Z.ltb_spec (acc + x) 0); [exists (S k)|exists i0]; split; lia.
    + intros i Hi. destruct (decide (i = S k)) as [->|]; [destruct (Z.ltb_spec (acc + x) 0); lia|]. specialize (Hacc' i ltac:(lia)). destruct (Z.ltb_spec (acc + x) 0); lia.
Qed.

Lemma kadane_largest nums : nums <> [] -> sums_within (2 ^ 31) nums -> exists m, maxSubArray nums = Ok m /\ largest nums 0 (length nums) m.
Proof.
  intros Hn Hb. destruct nums as [|x l]; [done|]. unfold maxSubArray.
  assert (H0 : prefix_sum (x :: l) 0 = 0) by done. assert (H1 : prefix_sum (x :: l) 1 = x) by (unfold prefix_sum; destruct l; cbn; lia).
  apply (max_loop_largest (x :: l) (length l) 1 x (Z.max x 0)); [done|lia|done| | |].
  - split; [exists 0%nat, 1%nat; lia|]. intros i j Hi Hj. replace i with 0%nat by lia. replace j with 1%nat by lia. lia.
  - destruct (Z.max_spec x 0) as [[_ ->]|[_ ->]]; [exists 1%nat|exists 0%nat]; lia.
  - intros i Hi. assert (i = 0 \/ i = 1)%nat as [-> | ->] by lia; lia.
Qed.

Lemma left_loop_max nums first mid n : forall tmp lm, (first + n <= mid)%nat -> (mid < length nums)%nat -> sums_within (2 ^ 30) nums ->
  tmp = prefix_sum nums (S mid) - prefix_sum nums (first + n) ->
  (exists i, (first + n <= i <= mid)%nat /\ lm = prefix_sum nums (S mid) - prefix_sum nums i) ->
  (forall i, (first + n <= i <= mid)%nat -> prefix_sum nums (S mid) - prefix_sum nums i <= lm) ->
  exists m, left_loop nums first n tmp lm = Ok m /\ (exists i, (first <= i <= mid)%nat /\ m = prefix_sum nums (S mid) - prefix_sum nums i) /\
    forall i, (first <= i <= mid)%nat -> prefix_sum nums (S mid) - prefix_sum nums i <= m.
Proof.
  induction n as [|n IH]; intros tmp lm Hf Hm Hb Ht Hex Hall.
  - rewrite Nat.add_0_r in Hex, Hall. by exists lm.
  - cbn [left_loop]. destruct (nums !! (first + n)%nat) as [x|] eqn:Hx; [|apply lookup_ge_None in Hx; lia]. cbn [the]. rewrite bind_ok.
    pose proof (prefix_sum_S _ _ _ Hx) as HS. replace (first + S n)%nat with (S (first + n)) in * by lia. pose proof (Hb (first + n)%nat (S mid) ltac:(lia) ltac:(lia)).
    rewrite int32_ok by lia. rewrite bind_ok. destruct Hex as (i0 & Hi0 & Hlm). apply IH; [lia|lia|done|lia| |].
    + destruct (Z.max_spec lm (tmp + x)) as [[_ ->]|[_ ->]]; [exists (first + n)%nat|exists i0]; split; lia.
    + intros i Hi. destruct (decide (i = first + n)%nat) as [->|]; [lia|]. specialize (Hall i ltac:(lia)). lia.
Qed.

Lemma right_loop_max nums mid n : forall i tmp rm, (i + n <= length nums)%nat -> (mid < i)%nat -> sums_within (2 ^ 30) nums ->
  tmp = prefix_sum nums i - prefix_sum nums mid ->
  (exists j, (mid < j <= i)%nat /\ rm = prefix_sum nums j - prefix_sum nums mid) ->
  (forall j, (mid < j <= i)%nat -> prefix_sum nums j - prefix_sum nums mid <= rm) ->
  exists m, right_loop nums i n tmp rm = Ok m /\ (exists j, (mid < j <= i + n)%nat /\ m = prefix_sum nums j - prefix_sum nums mid) /\
    forall j, (mid < j <= i + n)%nat -> prefix_sum nums j - prefix_sum nums mid <= m.
Proof.
  induction n as [|n IH]; intros i tmp rm Hl Hm Hb Ht Hex Hall.
  - rewrite Nat.add_0_r. by exists rm.
  - cbn [right_loop]. destruct (nums !! i) as [x|] eqn:Hx; [|apply lookup_ge_None in Hx; lia]. cbn [the]. rewrite bind_ok.
    pose proof (prefix_sum_S _ _ _ Hx) as HS. pose proof (Hb mid (S i) ltac:(lia) ltac:(lia)). rewrite int32_ok by lia. rewrite bind_ok.
    destruct Hex as (j0 & Hj0 & Hrm). replace (i + S n)%nat with (S i + n)%nat by lia. apply IH; [lia|lia|done|lia| |].
    + destruct (Z.max_spec rm (tmp + x)) as [[_ ->]|[_ ->]]; [exists (S i)|exists j0]; split; lia.
    + intros j Hj. destruct (decide (j = S i)) as [->|]; [lia|]. specialize (Hall j ltac:(lia)). lia.
Qed.

Lemma max_sub_largest nums fuel : forall first last, (first < last)%nat -> (last <= length nums)%nat -> (last - first < fuel)%nat -> sums_within (2 ^ 30) nums ->
  exists m, max_sub fuel nums first last = Ok m /\ largest nums first last m.
Proof.
  induction fuel as [|fuel IH]; intros first last Hfl Hl Hfu Hb; [lia|]. cbn [max_sub]. destruct (Nat.leb_spec last first); [lia|].
  destruct (Nat.eqb_spec (S first) last) as [<-|Hne].
  - destruct (nums !! first) as [x|] eqn:Hx; [|apply lookup_ge_None in Hx; lia]. exists x. split; [done|]. pose proof (prefix_sum_S _ _ _ Hx) as HS.
    split; [exists first, (S first); lia|]. intros i j Hi Hj. replace i with first by lia. replace j with (S first) by lia. lia.
  - cbv zeta. remember (first + (last - first) / 2)%nat as mid eqn:Hmid.
    assert (Hm : (first < mid < last)%nat). { pose proof (Nat.div_mod_eq (last - first) 2). pose proof (Nat.mod_upper_bound (last - first) 2). lia. }
    clear Hmid. destruct (nums !! mid) as [x|] eqn:Hx; [|apply lookup_ge_None in Hx; lia]. cbn [the]. rewrite bind_ok. pose proof (prefix_sum_S _ _ _ Hx) as HS.
    destruct (left_loop_max nums first mid (mid - first) x x) as (lm & -> & (il & Hil & Hlm) & Hlall); [lia|lia|done| | | |].
    { replace (first + (mid - first))%nat with mid by lia. lia. } { exists mid. split; lia. } { intros i Hi. replace i with mid by lia. lia. }
    rewrite bind_ok. destruct (right_loop_max nums mid (last - S mid) (S mid) x x) as (rm & -> & (jr & Hjr & Hrm) & Hrall); [lia|lia|done|lia| | |].
    { exists (S mid). split; lia. } { intros j Hj. replace j with (S mid) by lia. lia. }
    pose proof (Hb il (S mid) ltac:(lia) ltac:(lia)). pose proof (Hb mid jr ltac:(lia) ltac:(lia)). pose proof (Hb il jr ltac:(lia) ltac:(lia)).
    rewrite bind_ok, int32_ok, bind_ok, int32_ok, bind_ok by lia. replace (S mid + (last - S mid))%nat with last in * by lia.
    destruct (IH first mid) as (ma & -> & (ia & ja & Hia & Hja & Hma) & Haall); [lia|lia|lia|done|]. rewrite bind_ok.
    destruct (IH mid last) as (mb & -> & (ib & jb & Hib & Hjb & Hmb) & Hball); [lia|lia|lia|done|]. rewrite bind_ok.
    eexists. split; [done|]. split.
    + destruct (Z.max_spec (lm + rm - x) (Z.max ma mb)) as [[_ ->]|[_ ->]]; [destruct (Z.max_spec ma mb) as [[_ ->]|[_ ->]]; [exists ib, jb|exists ia, ja]; lia|].
      exists il, jr. split; [lia|]. split; [lia|]. lia.
    + intros i j Hi Hj. destruct (decide (j <= mid)%nat); [specialize (Haall i j ltac:(lia) ltac:(lia)); lia|].
      destruct (decide (mid <= i)%nat); [specialize (Hball i j ltac:(lia) ltac:(lia)); lia|]. specialize (Hlall i ltac:(lia)). specialize (Hrall j ltac:(lia)). lia.
Qed.

Lemma largest_unique nums f l m m' : largest nums f l m -> largest nums f l m' -> m = m'.
Proof. intros [(i & j & H1 & H2 & ->) Ha] [(i' & j' & H3 & H4 & ->) Hb]. specialize (Ha i' j' H3 H4). specialize (Hb i j H1 H2). lia. Qed.

(** The scan and the division into halves return the largest sum of a segment, the second one
    as long as twice every sum fits in an int. *)
Theorem max_sub_array_largest nums : nums <> [] ->
  (sums_within (2 ^ 31) nums -> exists m, maxSubArray nums = Ok m /\ largest nums 0 (length nums) m) /\
  (sums_within (2 ^ 30) nums -> exists m, maxSubArray2 nums = Ok m /\ maxSubArray nums = Ok m).
Proof.
  intros Hn. split; [by apply kadane_largest|]. intros Hb. destruct (kadane_largest nums Hn) as (m & Hm & Hl).
  { intros i j Hi Hj. specialize (Hb i j Hi Hj). lia. }
  destruct (max_sub_largest nums (S (length nums)) 0 (length nums)) as (m' & Hm' & Hl'); [|lia|lia|done|].
  - destruct nums; [done|cbn; lia].
  - exists m'. split; [done|]. by rewrite Hm, (largest_unique _ _ _ _ _ Hl Hl').
Qed.

(** [Solution2] adds the element in the middle twice before it takes it away once: the sum may
    overflow where the result fits. *)
Theorem max_sub_overflow : maxSubArray [0; 2 ^ 30] = Ok (2 ^ 30) /\ maxSubArray2 [0; 2 ^ 30] = Undef.
Proof. by vm_compute. Qed.

End MaxSubArray.

(** ** container_with_most_water *)

Module MostWater.

Section Heights.

Context (height : list Z).

Fixpoint area_loop (fuel l r : nat) (max_area : Z) : outcome Z :=
  match fuel with
  | O => Undef
  | S fuel =>
      if (l <? r)%nat then
        x ← the (height !! l); y ← the (height !! r);
        area ← int32 (Z.of_nat (r - l) * Z.min x y);
        if x <? y then area_loop fuel (S l) r (Z.max max_area area) else area_loop fuel l (r - 1) (Z.max max_area area)
      else Ok max_area
  end.

Definition maxArea : outcome Z := area_loop (S (length height)) 0 (length height - 1) 0.

(** The water between two lines. *)
Definition area (i j : nat) : Z := match height !! i, height !! j with Some x, Some y => Z.of_nat (j - i) * Z.min x y | _, _ => 0 end.

Context (heights_ok : Forall (fun x => 0 <= x) height).
Context (areas_fit : forall i j, (i < j < length height)%nat -> area i j < 2 ^ 31).

Lemma area_nonneg i j : 0 <= area i j.
Proof.
  unfold area. rewrite Forall_forall in heights_ok. destruct (height !! i) as [x|] eqn:Hx, (height !! j) as [y|] eqn:Hy; try lia.
  apply list_elem_of_lookup_2, heights_ok in Hx, Hy. nia.
Qed.

Lemma area_loop_largest fuel : forall l r m, (r < length height)%nat -> (l <= r)%nat -> (r - l < fuel)%nat -> 0 <= m ->
  (m = 0 \/ exists i j, (i < j < length height)%nat /\ m = area i j) ->
  (forall i j, (i < j < length height)%nat -> ~ (l <= i /\ j <= r)%nat -> area i j <= m) ->
  exists m', area_loop fuel l r m = Ok m' /\ (m' = 0 \/ exists i j, (i < j < length height)%nat /\ m' = area i j) /\
    forall i j, (i < j < length height)%nat -> area i j <= m'.
Proof.
  induction fuel as [|fuel IH]; intros l r m Hr Hlr Hf Hm Hex Hall; [lia|]. cbn [area_loop]. destruct (Nat.ltb_spec l r) as [Hlt|Hge].
  - destruct (height !! l) as [x|] eqn:Hx; [|apply lookup_ge_None in Hx; lia]. destruct (height !! r) as [y|] eqn:Hy; [|apply lookup_ge_None in Hy; lia].
    cbn [the]. rewrite !bind_ok. assert (Ha : area l r = Z.of_nat (r - l) * Z.min x y) by (unfold area; by rewrite Hx, Hy).
    pose proof (area_nonneg l r). pose proof (areas_fit l r ltac:(lia)). rewrite <- Ha, int32_ok, bind_ok by lia.
    assert (Hex' : Z.max m (area l r) = 0 \/ exists i j, (i < j < length height)%nat /\ Z.max m (area l r) = area i j).
    { destruct (Z.max_spec m (area l r)) as [[_ ->]|[_ ->]]; [|done]. right. exists l, r. split; [lia|done]. }
    assert (Hbound : forall i j, (l <= i < j)%nat -> (j <= r)%nat -> (if x <? y then i = l else j = r) -> area i j <= area l r).
    { intros i j Hi Hj Hend. rewrite Ha. unfold area. pose proof heights_ok as Hpos. rewrite Forall_forall in Hpos.
      destruct (height !! i) as [u|] eqn:Hu; [|apply lookup_ge_None in Hu; lia]. destruct (height !! j) as [v|] eqn:Hv; [|apply lookup_ge_None in Hv; lia].
      pose proof (Hpos x ltac:(by eapply list_elem_of_lookup_2)). pose proof (Hpos y ltac:(by eapply list_elem_of_lookup_2)).
      pose proof (Hpos u ltac:(by eapply list_elem_of_lookup_2)). pose proof (Hpos v ltac:(by eapply list_elem_of_lookup_2)).
      destruct (Z.ltb_spec x y); subst; [assert (u = x) as -> by congruence|assert (v = y) as -> by congruence];
        (apply Z.mul_le_mono_nonneg; lia). }
    destruct (x <? y) eqn:Hxy.
    + apply IH; [lia|lia|lia|lia|done|]. intros i j Hij Hn. destruct (decide (l <= i /\ j <= r)%nat) as [Hin|Hout]; [|specialize (Hall i j Hij Hout); lia].
      pose proof (Hbound i j ltac:(lia) ltac:(lia) ltac:(lia)). lia.
    + apply IH; [lia|lia|lia|lia|done|]. intros i j Hij Hn. destruct (decide (l <= i /\ j <= r)%nat) as [Hin|Hout]; [|specialize (Hall i j Hij Hout); lia].
      pose proof (Hbound i j ltac:(lia) ltac:(lia) ltac:(lia)). lia.
  - exists m. split; [done|]. split; [done|]. intros i j Hij. apply Hall; lia.
Qed.

(** Moving the lower one of two lines inwards misses no container: the result is the largest
    area, when the heights are not negative and the areas fit. *)
Theorem max_area_largest : (2 <= length height)%nat ->
  exists m, maxArea = Ok m /\ (exists i j, (i < j < length height)%nat /\ m = area i j) /\ forall i j, (i < j < length height)%nat -> area i j <= m.
Proof.
  intros Hlen. destruct (area_loop_largest (S (length height)) 0 (length height - 1) 0) as (m & Hm & Hex & Hall); [lia|lia|lia|lia|by left|intros i j Hij Hn; lia|].
  exists m. split; [done|]. split; [|done]. destruct Hex as [->|]; [|done]. exists 0%nat, 1%nat. split; [lia|].
  pose proof (Hall 0%nat 1%nat ltac:(lia)). pose proof (area_nonneg 0 1). lia.
Qed.

End Heights.

End MostWater.

(** ** trapping_rain_water *)

Module RainWater.

Section Heights.

Context (height : list Z).

Fixpoint trap_loop (fuel l r : nat) (upper volume : Z) : outcome Z :=
  match fuel with
  | O => Undef
  | S fuel =>
      if (l <? r)%nat then
        x ← the (height !! l); y ← the (height !! r);
        let lower := Z.min x y in
        let upper := Z.max lower upper in
        volume ← int32 (volume + (upper - lower));
        if x <? y then trap_loop fuel (S l) r upper volume else trap_loop fuel l (r - 1) upper volume
      else Ok volume
  end.

Definition trap : outcome Z := trap_loop (S (length height)) 0 (length height - 1) 0 0.

Fixpoint highest (l : list Z) : Z := match l with [] => 0 | x :: l => Z.max x (highest l) end.

(** The water above position [i]: up to the lower one of the highest walls on its sides. *)
Definition water (i : nat) : Z :=
  match height !! i with Some x => Z.min (highest (take (S i) height)) (highest (drop i height)) - x | None => 0 end.

Definition water_from (i n : nat) : Z := sum (map water (seq i n)).

Context (heights_ok : Forall (fun x => 0 <= x) height).

Lemma highest_app a b : highest (a ++ b) = Z.max (highest a) (highest b).
Proof. induction a as [|x a IH]; cbn; [|lia]. induction b; cbn; lia. Qed.

Lemma highest_take_S i x : height !! i = Some x -> highest (take (S i) height) = Z.max (highest (take i height)) x.
Proof.
  intros Hx. rewrite (take_S_r _ _ _ Hx), highest_app. cbn. rewrite Forall_forall in heights_ok. apply list_elem_of_lookup_2, heights_ok in Hx. lia.
Qed.

Lemma highest_drop i x : height !! i = Some x -> highest (drop i height) = Z.max x (highest (drop (S i) height)).
Proof. intros Hx. by rewrite (drop_S _ _ _ Hx). Qed.

Lemma highest_nonneg l : 0 <= highest l.
Proof. induction l; cbn; lia. Qed.

Lemma water_nonneg i : 0 <= water i.
Proof.
  unfold water. destruct (height !! i) as [x|] eqn:Hx; [|done]. rewrite (highest_take_S _ _ Hx), (highest_drop _ _ Hx). lia.
Qed.

Lemma water_from_nonneg i n : 0 <= water_from i n.
Proof. unfold water_from. revert i. induction n as [|n IH]; intros i; cbn; [done|]. pose proof (water_nonneg i). specialize (IH (S i)). lia. Qed.

Lemma water_from_split i a b : water_from i (a + b) = water_from i a + water_from (i + a) b.
Proof. unfold water_from. by rewrite seq_app, map_app, sum_app. Qed.

Lemma water_from_one i : water_from i 1 = water i.
Proof. unfold water_from. cbn. lia. Qed.

Context (water_fits : water_from 0 (length height) < 2 ^ 31).

(** What is outside of the pointers is done; [upper] is the highest of it, and at most the higher one
    of the two walls at the pointers. *)
Definition trap_inv (l r : nat) (upper volume : Z) : Prop :=
  (l <= r < length height)%nat /\
  volume = water_from 0 l + water_from (S r) (length height - S r) /\
  upper = Z.max (highest (take l height)) (highest (drop (S r) height)) /\
  highest (drop (S r) height) <= highest (take (S l) height) /\
  highest (take l height) <= highest (drop r height) /\
  (forall x y, height !! l = Some x -> height !! r = Some y -> upper <= Z.max x y).

Lemma trap_loop_water fuel : forall l r upper volume, (r - l < fuel)%nat -> trap_inv l r upper volume ->
  trap_loop fuel l r upper volume = Ok (water_from 0 (length height)).
Proof.
  induction fuel as [|fuel IH]; intros l r upper volume Hf (Hlr & Hvol & Hup & Hright & Hleft & Hmax); [lia|]. cbn [trap_loop].
  destruct (height !! l) as [x|] eqn:Hx; [|apply lookup_ge_None in Hx; lia]. destruct (height !! r) as [y|] eqn:Hy; [|apply lookup_ge_None in Hy; lia].
  specialize (Hmax x y eq_refl eq_refl). pose proof (highest_take_S _ _ Hx) as Htx. pose proof (highest_drop _ _ Hx) as Hdx.
  pose proof (highest_take_S _ _ Hy) as Hty. pose proof (highest_drop _ _ Hy) as Hdy.
  assert (Hmono : forall a b, (a <= b)%nat -> highest (drop b height) <= highest (drop a height) /\ highest (take a height) <= highest (take b height)).
  { intros a b Hab. split.
    - replace b with (a + (b - a))%nat by lia. rewrite <- drop_drop. rewrite <- (take_drop (b - a) (drop a height)) at 2. rewrite highest_app. pose proof (highest_nonneg (take (b - a) (drop a height))). lia.
    - replace (take a height) with (take a (take b height)) by (rewrite take_take; f_equal; lia). rewrite <- (take_drop a (take b height)) at 2. rewrite highest_app.
      pose proof (highest_nonneg (drop a (take b height))). lia. }
  assert (Htotal : water_from 0 (length height) = water_from 0 l + water_from l (S r - l) + water_from (S r) (length height - S r)).
  { replace (length height) with (l + (S r - l) + (length height - S r))%nat at 1 by lia. rewrite !water_from_split. cbn [Nat.add]. replace (l + (S r - l))%nat with (S r) by lia. done. }
  destruct (Nat.ltb_spec l r) as [Hlt|Hge].
  - cbn [the]. rewrite !bind_ok. cbv zeta. pose proof (water_from_nonneg 0 l). pose proof (water_from_nonneg (S r) (length height - S r)).
    destruct (Z.ltb_spec x y) as [Hxy|Hxy].
    + assert (Hw : water l = Z.max x upper - x).
      { unfold water. rewrite Hx. destruct (Hmono (S l) r ltac:(lia)) as [Hm _]. lia. }
      assert (Hsplit : water_from l (S r - l) = water l + water_from (S l) (S r - S l)).
      { replace (S r - l)%nat with (1 + (S r - S l))%nat by lia. rewrite water_from_split, water_from_one. do 2 f_equal. lia. }
      pose proof (water_nonneg l). pose proof (water_from_nonneg (S l) (S r - S l)). rewrite Z.min_l by lia. rewrite int32_ok, bind_ok by lia.
      apply IH; [lia|]. split; [lia|]. split; [|split; [|split; [|split]]].
      * replace (S l) with (l + 1)%nat by lia. rewrite water_from_split, water_from_one. cbn [Nat.add]. lia.
      * lia.
      * destruct (Hmono (S l) (S (S l)) ltac:(lia)) as [_ Hm2]. lia.
      * lia.
      * intros x' y' Hx' Hy'. assert (y' = y) as -> by congruence. lia.
    + assert (Hw : water r = Z.max y upper - y).
      { unfold water. rewrite Hy. destruct (Hmono (S l) r ltac:(lia)) as [_ Hm]. lia. }
      assert (Hsplit : water_from l (S r - l) = water_from l (r - l) + water r).
      { replace (S r - l)%nat with ((r - l) + 1)%nat by lia. rewrite water_from_split. replace (l + (r - l))%nat with r by lia. by rewrite water_from_one. }
      pose proof (water_nonneg r). pose proof (water_from_nonneg l (r - l)). rewrite Z.min_r by lia. rewrite int32_ok, bind_ok by lia.
      apply IH; [lia|]. replace (S (r - 1)) with r by lia. split; [lia|]. replace (S (r - 1)) with r by lia. split; [|split; [|split; [|split]]].
      * replace (length height - r)%nat with (1 + (length height - S r))%nat by lia. rewrite water_from_split, water_from_one. replace (r + 1)%nat with (S r) by lia. lia.
      * lia.
      * lia.
      * destruct (Hmono (r - 1)%nat r ltac:(lia)) as [Hm2 _]. lia.
      * intros x' y' Hx' Hy'. assert (x' = x) as -> by congruence. lia.
  - assert (l = r) as -> by lia. f_equal. rewrite Hvol, Htotal. replace (S r - r)%nat with 1%nat by lia. rewrite water_from_one.
    assert (water r = 0); [|lia]. unfold water. rewrite Hy. assert (x = y) as -> by congruence. lia.
Qed.

(** The two pointers add up the water over each position exactly once. *)
Theorem trap_is_water : trap = Ok (water_from 0 (length height)).
Proof.
  destruct (decide (height = [])) as [He|Hne]; [unfold trap, water_from; rewrite He; done|]. assert (0 < length height)%nat by (destruct height; [done|cbn; lia]).
  apply trap_loop_water; [lia|]. replace (S (length height - 1)) with (length height) by lia. split; [lia|]. replace (S (length height - 1)) with (length height) by lia.
  rewrite Nat.sub_diag, drop_ge by lia. split; [done|]. split; [done|]. split; [apply highest_nonneg|]. split; [apply highest_nonneg|].
  intros x y Hx _. rewrite Forall_forall in heights_ok. apply list_elem_of_lookup_2, heights_ok in Hx. cbn. lia.
Qed.

End Heights.

End RainWater.

(** ** jump_game *)

Module JumpGame.

Fixpoint jump_loop (nums : list Z) (steps : Z) : bool :=
  match nums with
  | [] => true
  | num :: nums => if steps <? 0 then false else jump_loop nums ((if steps <? num then num else steps) - 1)
  end.

Definition canJump (nums : list Z) : bool := jump_loop nums 0.

(** The positions that jumps of at most the number at each position lead to. *)
Inductive reachable (nums : list Z) : nat -> Prop :=
| reach_start : reachable nums 0
| reach_jump i j x : reachable nums i -> nums !! i = Some x -> (i <= j)%nat -> Z.of_nat j <= Z.of_nat i + x -> reachable nums j.

(** [steps] after [k] positions: how far beyond [k] the ones before it lead. *)
Definition reach (nums : list Z) (k : nat) (steps : Z) : Prop :=
  (forall i, (i < k)%nat -> reachable nums i) /\
  (forall i x, (i < k)%nat -> nums !! i = Some x -> Z.of_nat i + x <= Z.of_nat k + steps) /\
  (k = 0%nat /\ steps = 0 \/ exists i x, (i < k)%nat /\ nums !! i = Some x /\ Z.of_nat i + x = Z.of_nat k + steps).

Lemma reachable_beyond nums k steps : reach nums k steps -> steps < 0 -> forall j, reachable nums j -> (j < k)%nat.
Proof.
  intros (_ & H2 & H3) Hs j Hj. induction Hj as [|i j x Hi IH Hx Hij Hjx]; [destruct H3 as [[-> ->]|(i & x & Hi & _)]; lia|].
  specialize (H2 i x IH Hx). lia.
Qed.

Lemma reach_here nums k steps : reach nums k steps -> 0 <= steps -> reachable nums k.
Proof.
  intros (H1 & _ & [[-> _]|(i & x & Hi & Hx & Heq)]) Hs; [apply reach_start|]. apply (reach_jump nums i k x); [by apply H1|done|lia|lia].
Qed.

Lemma jump_loop_reaches nums n : forall k steps, (k + n = length nums)%nat -> reach nums k steps -> Forall (fun x => 0 <= x) nums ->
  jump_loop (drop k nums) steps = true <-> forall i, (i < length nums)%nat -> reachable nums i.
Proof.
  induction n as [|n IH]; intros k steps Hk Hre Hpos.
  - rewrite drop_ge by lia. split; [|done]. intros _ i Hi. apply Hre. lia.
  - destruct (nums !! k) as [x|] eqn:Hx; [|apply lookup_ge_None in Hx; lia]. rewrite (drop_S _ _ _ Hx). cbn [jump_loop]. destruct (Z.ltb_spec steps 0) as [Hneg|Hnn].
    + split; [done|]. intros H. specialize (H k ltac:(lia)). pose proof (reachable_beyond _ _ _ Hre Hneg k H). lia.
    + apply IH; [lia| |done]. pose proof (reach_here _ _ _ Hre Hnn) as Hk'. destruct Hre as (H1 & H2 & H3).
      assert (0 <= x) by (rewrite Forall_forall in Hpos; by eapply Hpos, list_elem_of_lookup_2). split; [|split].
      * intros i Hi. destruct (decide (i = k)) as [->|]; [done|]. apply H1. lia.
      * intros i y Hi Hy. destruct (decide (i = k)) as [->|]; [assert (y = x) as -> by congruence|specialize (H2 i y ltac:(lia) Hy)]; destruct (Z.ltb_spec steps x); lia.
      * right. destruct (Z.ltb_spec steps x); [exists k, x; split; [lia|]; split; [done|lia]|].
        destruct H3 as [[-> ->]|(i & y & Hi & Hy & Heq)]; [exists 0%nat, x|exists i, y]; (split; [lia|]); (split; [done|lia]).
Qed.

(** [canJump] says whether jumps lead to the last position. *)
Theorem can_jump_reaches nums : nums <> [] -> Forall (fun x => 0 <= x) nums -> canJump nums = true <-> reachable nums (length nums - 1).
Proof.
  intros Hne Hpos. assert (0 < length nums)%nat by (destruct nums; [done|cbn; lia]).
  assert (Hall : canJump nums = true <-> forall i, (i < length nums)%nat -> reachable nums i).
  { apply (jump_loop_reaches nums (length nums) 0 0); [lia| |done]. split; [intros i Hi; lia|]. split; [intros i x Hi; lia|by left]. }
  rewrite Hall. split; [intros H'; apply H'; lia|]. intros Hlast i Hi.
  (* what leads to the last position leads to all before it *)
  remember (length nums - 1)%nat as j eqn:Hj. assert (Hij : (i <= j)%nat) by lia. clear Hj Hi Hall. revert i Hij.
  induction Hlast as [|i0 j x Hi0 IH Hx Hij Hjx]; intros i Hi; [replace i with 0%nat by lia; apply reach_start|].
  destruct (decide (i <= i0)%nat) as [|]; [by apply IH|]. apply (reach_jump nums i0 i x); [done|done|lia|lia].
Qed.

End JumpGame.

(** ** gas_station *)

Module GasStation.

(** [i] counts the stations that were passed. *)
Fixpoint circuit_loop (gas cost : list Z) (i total accum start : Z) : outcome Z :=
  match gas, cost with
  | [], _ => Ok (if total <? 0 then -1 else start)
  | g :: gas, c :: cost =>
      delta ← int32 (g - c);
      total ← int32 (total + delta);
      accum ← int32 (accum + delta);
      if accum <? 0 then circuit_loop gas cost (i + 1) total 0 (i + 1) else circuit_loop gas cost (i + 1) total accum start
  | _ :: _, [] => Undef
  end.

Definition canCompleteCircuit (gas cost : list Z) : outcome Z := circuit_loop gas cost 0 0 0 0.

(** What is in the tank after [k] of the [length deltas] stations of the circle, from station [s]. *)
Definition tank (deltas : list Z) (s k : nat) : Z :=
  prefix_sum (deltas ++ deltas) (s + k) - prefix_sum (deltas ++ deltas) s.

Lemma prefix_sum_app_l a b i : (i <= length a)%nat -> prefix_sum (a ++ b) i = prefix_sum a i.
Proof. intros H. unfold prefix_sum. by rewrite take_app_le. Qed.

Lemma prefix_sum_app_r a b i : prefix_sum (a ++ b) (length a + i) = prefix_sum a (length a) + prefix_sum b i.
Proof. unfold prefix_sum. rewrite take_app_add, sum_app. by rewrite (take_ge a (length a)) by lia. Qed.

Definition differences (gas cost : list Z) : list Z := zip_with Z.sub gas cost.

(** [start] is where the sum of the differences was lowest. *)
Lemma circuit_loop_lowest gas cost n : forall k start, (k + n = length gas)%nat -> length cost = length gas -> (start <= k)%nat ->
  let d := differences gas cost in
  MaxSubArray.sums_within (2 ^ 31) d ->
  (forall j, (j <= k)%nat -> prefix_sum d start <= prefix_sum d j) -> (forall j, (j < start)%nat -> prefix_sum d start < prefix_sum d j) ->
  exists s, (s <= length gas)%nat /\ (forall j, (j <= length gas)%nat -> prefix_sum d s <= prefix_sum d j) /\ (forall j, (j < s)%nat -> prefix_sum d s < prefix_sum d j) /\
    circuit_loop (drop k gas) (drop k cost) (Z.of_nat k) (prefix_sum d k) (prefix_sum d k - prefix_sum d start) (Z.of_nat start) =
    Ok (if prefix_sum d (length gas) <? 0 then -1 else Z.of_nat s).
Proof.
  cbn zeta. induction n as [|n IH]; intros k start Hk Hlen Hst Hb Hlow Hfirst.
  - rewrite !drop_ge by lia. exists start. replace (length gas) with k by lia. done.
  - destruct (gas !! k) as [g|] eqn:Hg; [|apply lookup_ge_None in Hg; lia]. destruct (cost !! k) as [c|] eqn:Hc; [|apply lookup_ge_None in Hc; lia].
    rewrite (drop_S _ _ _ Hg), (drop_S _ _ _ Hc). cbn [circuit_loop]. unfold differences in *.
    assert (Hd : zip_with Z.sub gas cost !! k = Some (g - c)) by (by rewrite lookup_zip_with, Hg, Hc).
    assert (Hl : length (zip_with Z.sub gas cost) = length gas) by (rewrite length_zip_with; lia).
    pose proof (prefix_sum_S _ _ _ Hd) as HS. pose proof (Hb k (S k) ltac:(lia) ltac:(lia)). pose proof (Hb 0%nat (S k) ltac:(lia) ltac:(lia)). pose proof (Hb start (S k) ltac:(lia) ltac:(lia)).
    change (prefix_sum (zip_with Z.sub gas cost) 0) with 0 in *. rewrite (int32_ok (g - c)), bind_ok by lia. rewrite (int32_ok (prefix_sum (zip_with Z.sub gas cost) k + (g - c))), bind_ok by lia.
    rewrite (int32_ok (prefix_sum (zip_with Z.sub gas cost) k - prefix_sum (zip_with Z.sub gas cost) start + (g - c))), bind_ok by lia. rewrite <- HS.
    replace (prefix_sum (zip_with Z.sub gas cost) k - prefix_sum (zip_with Z.sub gas cost) start + (g - c)) with (prefix_sum (zip_with Z.sub gas cost) (S k) - prefix_sum (zip_with Z.sub gas cost) start) by lia.
    replace (Z.of_nat k + 1) with (Z.of_nat (S k)) by lia. destruct (Z.ltb_spec (prefix_sum (zip_with Z.sub gas cost) (S k) - prefix_sum (zip_with Z.sub gas cost) start) 0).
    + pose proof (IH (S k) (S k)) as HI. rewrite Z.sub_diag in HI. apply HI; [lia|done|lia|done| |].
      * intros j Hj. destruct (decide (j = S k)) as [->|]; [lia|]. specialize (Hlow j ltac:(lia)). lia.
      * intros j Hj. specialize (Hlow j ltac:(lia)). lia.
    + apply IH; [lia|done|lia|done| |done]. intros j Hj. destruct (decide (j = S k)) as [->|]; [lia|]. apply Hlow. lia.
Qed.

(** From the station that is returned the tank is never below zero on the whole circle; when -1 is
    returned, every station runs dry. *)
Theorem circuit_completes gas cost : gas <> [] -> length cost = length gas -> MaxSubArray.sums_within (2 ^ 31) (differences gas cost) ->
  exists r, canCompleteCircuit gas cost = Ok r /\
  ((r = -1 /\ forall s, (s < length gas)%nat -> tank (differences gas cost) s (length gas) < 0) \/
   (exists s, r = Z.of_nat s /\ (s < length gas)%nat /\ forall k, (k <= length gas)%nat -> 0 <= tank (differences gas cost) s k)).
Proof.
  intros Hne Hlen Hb. assert (0 < length gas)%nat by (destruct gas; [done|cbn; lia]).
  destruct (circuit_loop_lowest gas cost (length gas) 0 0) as (s & Hs & Hlow & Hfirst & Heq); [lia|done|lia|done|intros j Hj; by replace j with 0%nat by lia|intros j Hj; lia|].
  remember (differences gas cost) as d eqn:Hd. assert (Hl : length d = length gas) by (subst d; unfold differences; rewrite length_zip_with; lia).
  change (prefix_sum d 0) with 0 in Heq. rewrite !drop_0 in Heq. unfold canCompleteCircuit. change (Z.of_nat 0) with 0 in Heq. change (0 - 0) with 0 in Heq. rewrite Heq. eexists. split; [done|].
  assert (Hwrap : forall a b, (a <= length gas)%nat -> (b <= length gas)%nat -> (length gas <= a + b)%nat ->
    tank d a b = prefix_sum d (length gas) + prefix_sum d (a + b - length gas) - prefix_sum d a).
  { intros a b Ha Hbb Hab. unfold tank. rewrite (prefix_sum_app_l d d a) by lia. replace (a + b)%nat with (length d + (a + b - length gas))%nat at 1 by lia. rewrite prefix_sum_app_r, Hl. lia. }
  destruct (Z.ltb_spec (prefix_sum d (length gas)) 0) as [Hneg|Hnn].
  - left. split; [done|]. intros s' Hs'. rewrite Hwrap by lia. replace (s' + length gas - length gas)%nat with s' by lia. lia.
  - right. pose proof (Hlow 0%nat ltac:(lia)) as H0. change (prefix_sum d 0) with 0 in H0.
    assert (Hlt : (s < length gas)%nat). { destruct (decide (s = length gas)) as [->|]; [|lia]. specialize (Hfirst 0%nat ltac:(lia)). change (prefix_sum d 0) with 0 in Hfirst. lia. }
    exists s. split; [done|]. split; [done|]. intros k Hk. destruct (decide (s + k <= length gas)%nat) as [Hle|Hgt].
    + unfold tank. rewrite !prefix_sum_app_l by lia. specialize (Hlow (s + k)%nat Hle). lia.
    + rewrite Hwrap by lia. specialize (Hlow (s + k - length gas)%nat ltac:(lia)). lia.
Qed.

End GasStation.

(** ** two_sum_II *)

Module TwoSum.

Fixpoint two_loop (fuel : nat) (numbers : list Z) (target : Z) (l r : nat) : outcome (list nat) :=
  match fuel with
  | O => Undef
  | S fuel =>
      if (l <? r)%nat then
        x ← the (numbers !! l); y ← the (numbers !! r);
        sum ← int32 (x + y);
        if target <? sum then two_loop fuel numbers target l (r - 1)
        else if sum <? target then two_loop fuel numbers target (S l) r
        else Ok [S l; S r]
      else Ok []
  end.

Definition twoSum (numbers : list Z) (target : Z) : outcome (list nat) := two_loop (S (length numbers)) numbers target 0 (length numbers - 1).

Definition pair_of (numbers : list Z) (target : Z) (i j : nat) : Prop :=
  (i < j)%nat /\ exists x y, numbers !! i = Some x /\ numbers !! j = Some y /\ x + y = target.

Definition ordered (numbers : list Z) : Prop := forall i j x y, (i <= j)%nat -> numbers !! i = Some x -> numbers !! j = Some y -> x <= y.

Lemma two_loop_finds numbers target fuel : forall l r, (r - l < fuel)%nat -> (r < length numbers)%nat -> ordered numbers ->
  (forall i j x y, (i < j)%nat -> numbers !! i = Some x -> numbers !! j = Some y -> i32 (x + y)) ->
  (forall i j, pair_of numbers target i j -> (l <= i /\ j <= r)%nat) ->
  (exists i j, two_loop fuel numbers target l r = Ok [S i; S j] /\ pair_of numbers target i j) \/
  (two_loop fuel numbers target l r = Ok [] /\ forall i j, ~ pair_of numbers target i j).
Proof.
  induction fuel as [|fuel IH]; intros l r Hf Hr Hord Hfit Hin; [lia|]. cbn [two_loop]. destruct (Nat.ltb_spec l r) as [Hlt|Hge].
  - destruct (numbers !! l) as [x|] eqn:Hx; [|apply lookup_ge_None in Hx; lia]. destruct (numbers !! r) as [y|] eqn:Hy; [|apply lookup_ge_None in Hy; lia].
    cbn [the]. pose proof (Hfit l r x y Hlt Hx Hy) as Hs. rewrite !bind_ok, int32_ok, bind_ok by (unfold in_i in Hs; lia).
    destruct (Z.ltb_spec target (x + y)) as [Hgt|Hle]; [|destruct (Z.ltb_spec (x + y) target) as [Hlt'|Hge']].
    + apply IH; [lia|lia|done|done|]. intros i j Hp. destruct (Hin i j Hp) as [Hi Hj]. split; [done|]. destruct (decide (j = r)) as [->|]; [|lia].
      destruct Hp as (Hij & u & v & Hu & Hv & Huv). assert (v = y) as -> by congruence. pose proof (Hord l i x u Hi Hx Hu). lia.
    + apply IH; [lia|lia|done|done|]. intros i j Hp. destruct (Hin i j Hp) as [Hi Hj]. split; [|done]. destruct (decide (i = l)) as [->|]; [|lia].
      destruct Hp as (Hij & u & v & Hu & Hv & Huv). assert (u = x) as -> by congruence. pose proof (Hord j r v y Hj Hv Hy). lia.
    + left. exists l, r. split; [done|]. split; [done|]. exists x, y. split; [done|]. split; [done|lia].
  - right. split; [done|]. intros i j Hp. destruct (Hin i j Hp). destruct Hp. lia.
Qed.

(** In a sorted array the two pointers find a pair with the sum, if there is one. *)
Theorem two_sum_finds numbers target : ordered numbers ->
  (forall i j x y, (i < j)%nat -> numbers !! i = Some x -> numbers !! j = Some y -> i32 (x + y)) ->
  (exists i j, twoSum numbers target = Ok [S i; S j] /\ pair_of numbers target i j) \/
  (twoSum numbers target = Ok [] /\ forall i j, ~ pair_of numbers target i j).
Proof.
  intros Hord Hfit. destruct numbers as [|x l] eqn:Hn.
  - right. split; [done|]. intros i j (_ & x & y & Hx & _). by rewrite lookup_nil in Hx.
  - apply two_loop_finds; [cbn; lia|cbn; lia|done|done|]. intros i j (_ & u & v & _ & Hv & _). apply lookup_lt_Some in Hv. cbn in *. lia.
Qed.

End TwoSum.

(** ** Concrete inputs *)

(** Bounds of all segments, by evaluation. *)
Definition sums_within_b (b : Z) (nums : list Z) : bool :=
  forallb (fun i => forallb (fun j => let d := prefix_sum nums j - prefix_sum nums i in (- b <=? d) && (d <? b)) (seq i (S (length nums) - i))) (seq 0 (S (length nums))).

Lemma sums_within_b_ok b nums : sums_within_b b nums = true -> MaxSubArray.sums_within b nums.
Proof.
  unfold sums_within_b. intros H i j Hij Hj. rewrite forallb_forall in H. specialize (H i ltac:(apply in_seq; lia)). cbn in H. rewrite forallb_forall in H.
  specialize (H j ltac:(apply in_seq; lia)). apply andb_true_iff in H as [H1 H2]. apply Z.leb_le in H1. apply Z.ltb_lt in H2. lia.
Qed.

Lemma max_sub_array_largest_witness : MaxSubArray.maxSubArray2 [-2; 1; -3; 4; -1; 2; 1; -5; 4] = Ok 6 /\ MaxSubArray.largest [-2; 1; -3; 4; -1; 2; 1; -5; 4] 0 9 6.
Proof.
  split; [reflexivity|]. destruct (MaxSubArray.max_sub_array_largest [-2; 1; -3; 4; -1; 2; 1; -5; 4] ltac:(discriminate)) as [H _].
  destruct H as (m & Hm & Hl); [apply sums_within_b_ok; vm_compute; reflexivity|]. vm_compute in Hm. injection Hm as <-. exact Hl.
Defined.

Lemma max_area_largest_witness : MostWater.maxArea [1; 8; 6; 2; 5; 4; 8; 3; 7] = Ok 49 /\ exists m, MostWater.maxArea [1; 8; 6; 2; 5; 4; 8; 3; 7] = Ok m /\
  MostWater.area [1; 8; 6; 2; 5; 4; 8; 3; 7] 1 8 <= m.
Proof.
  split; [reflexivity|]. destruct (MostWater.max_area_largest [1; 8; 6; 2; 5; 4; 8; 3; 7]) as (m & Hm & _ & Hall).
  - repeat constructor; lia.
  - intros i j Hij. cbn in Hij. unfold MostWater.area.
    assert (Hle : forall x, x ∈ [1; 8; 6; 2; 5; 4; 8; 3; 7] -> 0 <= x <= 8) by (intros x Hx; repeat (apply elem_of_cons in Hx as [->|Hx]; [lia|]); by apply elem_of_nil in Hx).
    destruct ([1; 8; 6; 2; 5; 4; 8; 3; 7] !! i) as [x|] eqn:Hx; [|lia]. destruct ([1; 8; 6; 2; 5; 4; 8; 3; 7] !! j) as [y|] eqn:Hy; [|lia].
    apply list_elem_of_lookup_2, Hle in Hx, Hy. nia.
  - cbn. lia.
  - exists m. split; [exact Hm|]. apply Hall. cbn. lia.
Defined.

Lemma trap_is_water_witness : RainWater.trap [0; 1; 0; 2; 1; 0; 1; 3; 2; 1; 2; 1] = Ok 6.
Proof. refine (RainWater.trap_is_water [0; 1; 0; 2; 1; 0; 1; 3; 2; 1; 2; 1] _ _); [repeat constructor; lia|vm_compute; reflexivity]. Defined.

Lemma can_jump_reaches_witness : JumpGame.canJump [3; 2; 1; 0; 4] = false /\ JumpGame.reachable [2; 3; 1; 1; 4] 4.
Proof.
  split; [reflexivity|]. apply (JumpGame.can_jump_reaches [2; 3; 1; 1; 4]); [discriminate|repeat constructor; lia|reflexivity].
Defined.

Lemma circuit_completes_witness : GasStation.canCompleteCircuit [1; 2; 3; 4; 5] [3; 4; 5; 1; 2] = Ok 3 /\
  forall k, (k <= 5)%nat -> 0 <= GasStation.tank (GasStation.differences [1; 2; 3; 4; 5] [3; 4; 5; 1; 2]) 3 k.
Proof.
  split; [reflexivity|]. destruct (GasStation.circuit_completes [1; 2; 3; 4; 5] [3; 4; 5; 1; 2]) as (r & Hr & H); [discriminate|reflexivity|apply sums_within_b_ok; vm_compute; reflexivity|].
  vm_compute in Hr. injection Hr as <-. destruct H as [[H _]|(s & Hs & _ & H)]; [discriminate H|]. assert (s = 3%nat) as -> by lia. exact H.
Defined.

Lemma two_sum_finds_witness : TwoSum.twoSum [2; 7; 11; 15] 9 = Ok [1; 2]%nat /\ exists i j, TwoSum.pair_of [2; 7; 11; 15] 9 i j.
Proof.
  split; [reflexivity|]. destruct (TwoSum.two_sum_finds [2; 7; 11; 15] 9) as [(i & j & _ & H)|[H _]].
  - intros i j x y Hij Hx Hy. destruct i as [|[|[|[|i]]]]; destruct j as [|[|[|[|j]]]]; cbn in Hx, Hy; try discriminate; try lia; injection Hx as <-; injection Hy as <-; lia.
  - intros i j x y _ Hx Hy. assert (Hle : forall x, x ∈ [2; 7; 11; 15] -> 2 <= x <= 15) by (intros z Hz; repeat (apply elem_of_cons in Hz as [->|Hz]; [lia|]); by apply elem_of_nil in Hz).
    apply list_elem_of_lookup_2, Hle in Hx, Hy. unfold in_i. lia.
  - exists i, j. exact H.
  - vm_compute in H. discriminate H.
Defined.
