(* ===== verification/Searches.v ===== *)
(** * Exercises on brackets and searches

    Models, of crack-data-structures-and-algorithms/leetcode, valid_parentheses_q20,
    generate_parentheses_q22, first_missing_positive_q41, find_the_duplicate_number_q287, sqrt_x_q69
    and merge_intervals_q56.  An [int] is a [Z]. *)

From Stdlib Require Import Sorted.
From stdpp Require Import sorting.
From S2P Require Import Prelude.

#[local] Open Scope Z_scope.

(** ** valid_parentheses *)

Module ValidParentheses.

Definition is_left (ch : ascii) : bool :=
  bool_decide (ch = "("%char) || bool_decide (ch = "["%char) || bool_decide (ch = "{"%char).

Definition left_paren (right_pan : ascii) : ascii :=
  if bool_decide (right_pan = ")"%char) then "("%char else if bool_decide (right_pan = "]"%char) then "["%char else "{"%char.

(** The back of the stack is the head of the list. *)
Fixpoint valid_loop (s : str) (left_pan : list ascii) : bool :=
  match s with
  | [] => match left_pan with [] => true | _ => false end
  | ch :: s =>
      if is_left ch then valid_loop s (ch :: left_pan)
      else match left_pan with
           | [] => false
           | top :: left_pan => if bool_decide (top <> left_paren ch) then false else valid_loop s left_pan
           end
  end.

Definition isValid (s : str) : bool := match s with [] => true | _ => valid_loop s [] end.

(** What closes what: whatever is no bracket counts as a closing brace. *)
Definition closes (c o : ascii) : Prop := is_left c = false /\ left_paren c = o.

Inductive balanced : str -> Prop :=
| balanced_nil : balanced []
| balanced_pair o c a b : is_left o = true -> closes c o -> balanced a -> balanced b -> balanced (o :: a ++ c :: b).

(** What follows closes the brackets of the stack, one after the other. *)
Fixpoint completes (st : list ascii) (s : str) : Prop :=
  match st with
  | [] => balanced s
  | o :: st => exists a c b, s = a ++ c :: b /\ balanced a /\ closes c o /\ completes st b
  end.

Lemma completes_nil st : completes st [] <-> st = [].
Proof.
  destruct st as [|o st]; cbn; [split; [done|intros _; constructor]|]. split; [|done]. intros (a & c & b & H & _). by destruct a.
Qed.

Lemma completes_open st o s : is_left o = true -> completes st (o :: s) <-> completes (o :: st) s.
Proof.
  intros Ho. split.
  - destruct st as [|o' st]; cbn.
    + inversion 1 as [|o0 c a b H1 H2 H3 H4]; subst. by exists a, c, b.
    + intros (a & c & b & Heq & Ha & Hc & Hb). destruct Ha as [|o0 c0 a1 a2 H1 H2 H3 H4]; injection Heq as -> Heq; [by destruct Hc; congruence|].
      exists a1, c0, (a2 ++ c :: b). split; [by rewrite Heq, <- app_assoc|]. split; [done|]. split; [done|]. by exists a2, c, b.
  - cbn. intros (a & c & b & -> & Ha & Hc & Hb). destruct st as [|o' st]; cbn in *; [by constructor|].
    destruct Hb as (a' & c' & b' & -> & Ha' & Hc' & Hb'). exists (o :: a ++ c :: a'), c', b'. split; [cbn; by rewrite <- app_assoc|]. split; [by constructor|done].
Qed.

Lemma completes_close st c s : is_left c = false -> completes st (c :: s) <-> exists o st', st = o :: st' /\ left_paren c = o /\ completes st' s.
Proof.
  intros Hc. destruct st as [|o st]; cbn.
  - split; [inversion 1; congruence|]. by intros (? & ? & ? & _).
  - split.
    + intros (a & c' & b & Heq & Ha & [Hc1 Hc2] & Hb). destruct Ha as [|o0 c0 a1 a2 H1]; injection Heq as -> Heq; [|congruence]. subst. by exists (left_paren c'), st.
    + intros (o' & st' & [= -> ->] & <- & H). exists [], c, s. split; [done|]. split; [constructor|done].
Qed.

Lemma valid_loop_completes s : forall st, valid_loop s st = true <-> completes st s.
Proof.
  induction s as [|c s IH]; intros st; cbn [valid_loop]; [rewrite completes_nil; by destruct st|].
  destruct (is_left c) eqn:Hc; [by rewrite IH, completes_open|]. rewrite completes_close by done. destruct st as [|o st]; [split; [done|by intros (? & ? & ? & _)]|].
  destruct (bool_decide_reflect (o <> left_paren c)) as [Hne|He].
  - split; [done|]. intros (o' & st' & [= -> ->] & H & _). by symmetry in H.
  - apply dec_stable in He as ->. rewrite IH. split; [intros H; by exists (left_paren c), st|]. by intros (o' & st' & [= -> ->] & _ & H).
Qed.

(** Exactly the texts in which every bracket is closed by one of its kind are valid, where a
    character that is no bracket closes a brace. *)
Theorem is_valid_balanced s : isValid s = true <-> balanced s.
Proof. rewrite <- (valid_loop_completes s []). by destruct s. Qed.

End ValidParentheses.

(** ** generate_parentheses *)

Module GenerateParentheses.

Import ValidParentheses.

(** [fuel]: more than the brackets that are left. *)
Fixpoint generate (fuel lpn rpn : nat) (combi : str) (result : list str) : list str :=
  match fuel with
  | O => result
  | S fuel =>
      if (lpn =? 0)%nat && (rpn =? 0)%nat then result ++ [combi]
      else if (rpn <? lpn)%nat then result
      else
        let result := if (0 <? lpn)%nat then generate fuel (lpn - 1) rpn (combi ++ ["("%char]) result else result in
        generate fuel lpn (rpn - 1) (combi ++ [")"%char]) result
  end.

Definition generateParenthesis (n : nat) : list str := generate (S (n + n)) n n [] [].

(** What is still to come: so many brackets of each kind, none closed before it is opened. *)
Definition ending (lpn rpn : nat) (s : str) : Prop :=
  length s = (lpn + rpn)%nat /\ Forall (fun c => c = "("%char \/ c = ")"%char) s /\ (lpn <= rpn)%nat /\ valid_loop s (replicate (rpn - lpn) "("%char) = true.

Lemma ending_nil lpn rpn : ending lpn rpn [] <-> lpn = 0%nat /\ rpn = 0%nat.
Proof. unfold ending. cbn. split; [intros (H & _); lia|]. intros [-> ->]. done. Qed.

Lemma ending_left lpn rpn s : ending lpn rpn ("("%char :: s) <-> (0 < lpn <= rpn)%nat /\ ending (lpn - 1) rpn s.
Proof.
  unfold ending. rewrite Forall_cons. cbn [length valid_loop]. change (is_left "(") with true. cbv iota. change ("("%char :: replicate (rpn - lpn) "("%char) with (replicate (S (rpn - lpn)) "("%char).
  split.
  - intros (H1 & (_ & H2) & H3 & H4). destruct lpn as [|l]; [|replace (rpn - (S l - 1))%nat with (S (rpn - S l)) by lia; repeat (split; [lia||done|]); done].
    exfalso. cbn in H1. assert (Hcount : forall t k, Forall (fun c => c = "("%char \/ c = ")"%char) t -> valid_loop t (replicate k "("%char) = true -> (k <= length t)%nat).
    { induction t as [|c t IH]; intros k Ht Hv; [destruct k; [cbn; lia|done]|]. inversion Ht as [|? ? [->| ->] Ht']; subst.
      - cbn in Hv. specialize (IH (S k) Ht' Hv). cbn. lia.
      - destruct k; [done|]. cbn in Hv. specialize (IH k Ht' Hv). cbn. lia. }
    specialize (Hcount s _ H2 H4). lia.
  - intros (Hl & H1 & H2 & H3 & H4). replace (S (rpn - lpn)) with (rpn - (lpn - 1))%nat by lia. repeat (split; [lia||done||(split; [by left|done])|]). done.
Qed.

Lemma ending_right lpn rpn s : ending lpn rpn (")"%char :: s) <-> (lpn < rpn)%nat /\ ending lpn (rpn - 1) s.
Proof.
  unfold ending. rewrite Forall_cons. cbn [length valid_loop]. change (is_left ")") with false. cbv iota. split.
  - intros (H1 & (_ & H2) & H3 & H4). destruct (rpn - lpn)%nat as [|k] eqn:Hk; [done|]. cbn in H4. replace (rpn - 1 - lpn)%nat with k by lia. repeat (split; [lia||done|]). done.
  - intros (Hl & H1 & H2 & H3 & H4). replace (rpn - lpn)%nat with (S (rpn - 1 - lpn)) by lia. cbn. repeat (split; [lia||done||(split; [by right|done])|]). done.
Qed.

Lemma generate_endings fuel : forall lpn rpn combi result, (lpn + rpn < fuel)%nat ->
  exists out, generate fuel lpn rpn combi result = result ++ map (app combi) out /\ NoDup out /\ forall s, s ∈ out <-> ending lpn rpn s.
Proof.
  induction fuel as [|fuel IH]; intros lpn rpn combi result Hf; [lia|]. cbn [generate]. destruct (Nat.eqb_spec lpn 0) as [->|Hl]; [destruct (Nat.eqb_spec rpn 0) as [->|Hr]|].
  - exists [[]]. cbn. rewrite app_nil_r. split; [done|]. split; [apply NoDup_singleton|]. intros s. rewrite list_elem_of_singleton. split; [intros ->; by apply ending_nil|]. intros (H & _). by destruct s.
  - cbn [andb]. replace (rpn <? 0)%nat with false by (symmetry; apply Nat.ltb_ge; lia). cbn [Nat.ltb]. change (0 <? 0)%nat with false. cbv zeta iota.
    destruct (IH 0%nat (rpn - 1)%nat (combi ++ [")"%char]) result) as (out & -> & Hnd & Hout); [lia|]. exists (map (cons ")"%char) out). split; [|split].
    + rewrite map_map. f_equal. apply map_ext. intros a. by rewrite <- app_assoc.
    + apply NoDup_fmap_2; [|done]. intros a b. congruence.
    + intros s. change (map (cons ")"%char) out) with (cons ")"%char <$> out). rewrite list_elem_of_fmap. setoid_rewrite Hout. split.
      * intros (y & -> & Hy). apply ending_right. split; [lia|done].
      * intros Hs. destruct s as [|c s]; [apply ending_nil in Hs; lia|]. destruct Hs as (H1 & H2 & H3). inversion H2 as [|? ? [->| ->] H4]; subst.
        -- assert (ending 0 rpn ("("%char :: s)) as H%ending_left by done. lia.
        -- exists s. split; [done|]. by apply (ending_right 0 rpn s).
  - cbn [andb]. destruct (Nat.ltb_spec rpn lpn) as [Hlt|Hge].
    + exists []. rewrite app_nil_r. split; [done|]. split; [constructor|]. intros s. split; [by intros H%elem_of_nil|]. intros (_ & _ & H & _). lia.
    + replace (0 <? lpn)%nat with true by (symmetry; apply Nat.ltb_lt; lia). cbv zeta iota.
      destruct (IH (lpn - 1)%nat rpn (combi ++ ["("%char]) result) as (o1 & -> & Hnd1 & Ho1); [lia|].
      destruct (IH lpn (rpn - 1)%nat (combi ++ [")"%char]) (result ++ map (app (combi ++ ["("%char])) o1)) as (o2 & -> & Hnd2 & Ho2); [lia|].
      exists (map (cons "("%char) o1 ++ map (cons ")"%char) o2). split; [|split].
      * rewrite map_app, !map_map, <- app_assoc. f_equal. f_equal; apply map_ext; intros a; by rewrite <- app_assoc.
      * apply NoDup_app. split; [apply NoDup_fmap_2; [intros a b; congruence|done]|]. split; [|apply NoDup_fmap_2; [intros a b; congruence|done]].
        intros s Hs1 Hs2. change (map (cons "("%char) o1) with (cons "("%char <$> o1) in Hs1. change (map (cons ")"%char) o2) with (cons ")"%char <$> o2) in Hs2.
        apply list_elem_of_fmap in Hs1 as (a & -> & _). apply list_elem_of_fmap in Hs2 as (b & Hb & _). congruence.
      * intros s. change (map (cons "("%char) o1) with (cons "("%char <$> o1). change (map (cons ")"%char) o2) with (cons ")"%char <$> o2).
        rewrite elem_of_app, !list_elem_of_fmap. setoid_rewrite Ho1. setoid_rewrite Ho2. split.
        -- intros [(y & -> & Hy)|(y & -> & Hy)]; [apply ending_left; split; [lia|done]|]. apply ending_right. split; [|done]. destruct Hy as (_ & _ & H & _). lia.
        -- intros Hs. destruct s as [|c s]; [apply ending_nil in Hs; lia|]. pose proof Hs as (H1 & H2 & H3). inversion H2 as [|? ? [->| ->] H4]; subst.
           ++ left. exists s. split; [done|]. by apply ending_left in Hs as [_ Hs].
           ++ right. exists s. split; [done|]. by apply ending_right in Hs as [_ Hs].
Qed.

(** The result has every valid text of [n] pairs of parentheses, once, and nothing else. *)
Theorem generate_all_valid n : NoDup (generateParenthesis n) /\
  forall s, s ∈ generateParenthesis n <-> length s = (n + n)%nat /\ Forall (fun c => c = "("%char \/ c = ")"%char) s /\ isValid s = true.
Proof.
  destruct (generate_endings (S (n + n)) n n [] []) as (out & Hg & Hnd & Hout); [lia|]. unfold generateParenthesis. rewrite Hg.
  assert (Hid : [] ++ map (app []) out = out) by exact (map_id out). rewrite Hid. split; [done|]. intros s. rewrite Hout. unfold ending. rewrite Nat.sub_diag.
  assert (Hv : valid_loop s (replicate 0 "("%char) = isValid s) by by destruct s. rewrite Hv. split; [naive_solver|]. intros (H1 & H2 & H3). repeat (split; [done||lia|]). done.
Qed.

End GenerateParentheses.

(** ** first_missing_positive *)

Module FirstMissing.

(** The condition of the swap: [val] has a place of its own that is not taken by it. *)
Definition misplaced (nums : list Z) (val : Z) : bool :=
  (0 <? val) && (val <=? Z.of_nat (length nums)) && negb (bool_decide (nums !! Z.to_nat (val - 1) = Some val)).

Definition swap (i j : nat) (nums : list Z) : outcome (list Z) := x ← the (nums !! i); y ← the (nums !! j); Ok (<[j := x]> (<[i := y]> nums)).

Fixpoint place_loop (fuel i : nat) (nums : list Z) : outcome (list Z) :=
  match fuel with
  | O => Undef
  | S fuel =>
      match nums !! i with
      | None => Ok nums
      | Some val => if misplaced nums val then nums ← swap i (Z.to_nat (val - 1)) nums; place_loop fuel i nums else place_loop fuel (S i) nums
      end
  end.

Fixpoint find_loop (nums : list Z) (i : Z) : Z :=
  match nums with [] => i + 1 | x :: nums => if negb (x =? i + 1) then i + 1 else find_loop nums (i + 1) end.

Definition firstMissingPositive (nums : list Z) : outcome Z :=
  nums ← place_loop (S (length nums + length nums)) 0 nums; Ok (find_loop nums 0).

(** A value in its place. *)
Definition right_at (nums : list Z) (i : nat) : bool := bool_decide (nums !! i = Some (Z.of_nat i + 1)).

Definition wrong (nums : list Z) : nat := length (filter (fun i => right_at nums i = false) (seq 0 (length nums))).

Definition settled (nums : list Z) (j : nat) : Prop := forall v, nums !! j = Some v -> misplaced nums v = false.

Lemma misplaced_false nums v : misplaced nums v = false <-> (0 < v <= Z.of_nat (length nums) -> nums !! Z.to_nat (v - 1) = Some v).
Proof.
  unfold misplaced. destruct (Z.ltb_spec 0 v), (Z.leb_spec v (Z.of_nat (length nums))); cbn; (destruct (bool_decide_reflect (nums !! Z.to_nat (v - 1) = Some v)); cbn; split; intros; (done || lia || naive_solver lia)).
Qed.

Lemma misplaced_true nums v : misplaced nums v = true -> 0 < v <= Z.of_nat (length nums) /\ nums !! Z.to_nat (v - 1) <> Some v.
Proof.
  unfold misplaced. destruct (Z.ltb_spec 0 v), (Z.leb_spec v (Z.of_nat (length nums))); cbn; try done. destruct (bool_decide_reflect (nums !! Z.to_nat (v - 1) = Some v)); done.
Qed.

(** The swap puts the value where it belongs, and takes nothing from its place. *)
Lemma swap_places nums i v : nums !! i = Some v -> misplaced nums v = true -> exists nums', swap i (Z.to_nat (v - 1)) nums = Ok nums' /\
  nums' ≡ₚ nums /\ length nums' = length nums /\ nums' !! Z.to_nat (v - 1) = Some v /\ (forall k, k <> i -> k <> Z.to_nat (v - 1) -> nums' !! k = nums !! k) /\
  right_at nums i = false /\ right_at nums (Z.to_nat (v - 1)) = false /\ i <> Z.to_nat (v - 1).
Proof.
  intros Hi [Hv Hne]%misplaced_true. assert (Hj : (Z.to_nat (v - 1) < length nums)%nat) by lia. destruct (lookup_lt_is_Some_2 nums _ Hj) as [y Hy].
  assert (Hij : i <> Z.to_nat (v - 1)) by (intros ->; congruence). pose proof (lookup_lt_Some _ _ _ Hi) as Hil.
  unfold swap. rewrite Hi, Hy. cbn. eexists. split; [done|]. split; [|split; [|split; [|split; [|split; [|split; [|done]]]]]].
  - apply Permutation_inj. split; [by rewrite !length_insert|]. exists (fun k => if decide (k = i) then Z.to_nat (v - 1) else if decide (k = Z.to_nat (v - 1)) then i else k). split.
    + intros a b Hab. repeat case_decide; congruence.
    + intros k. repeat case_decide; subst.
      * rewrite Hy. rewrite list_lookup_insert_ne by done. by rewrite list_lookup_insert_eq.
      * rewrite Hi. by rewrite list_lookup_insert_eq by (by rewrite length_insert).
      * by rewrite !list_lookup_insert_ne by done.
  - by rewrite !length_insert.
  - by rewrite list_lookup_insert_eq by (by rewrite length_insert).
  - intros k Hk1 Hk2. by rewrite !list_lookup_insert_ne by done.
  - unfold right_at. apply bool_decide_eq_false. rewrite Hi. intros [= ->]. apply Hij. lia.
  - unfold right_at. apply bool_decide_eq_false. rewrite Hy. intros [= ->]. apply Hne. rewrite Hy. f_equal. lia.
Qed.

Lemma filter_shorter (p q : nat -> bool) l j : (forall k, k ∈ l -> p k = true -> q k = true) -> j ∈ l -> q j = true -> p j = false ->
  (length (filter (fun k => p k = true) l) < length (filter (fun k => q k = true) l))%nat.
Proof.
  intros Himp. induction l as [|x l IH]; intros Hj Hq Hp; [by apply elem_of_nil in Hj|].
  assert (Hle : forall l', (forall k, k ∈ l' -> p k = true -> q k = true) -> (length (filter (fun k => p k = true) l') <= length (filter (fun k => q k = true) l'))%nat).
  { clear. induction l' as [|y l' IH]; intros H; [done|]. rewrite !filter_cons. assert (H' : forall k, k ∈ l' -> p k = true -> q k = true) by (intros k Hk; apply H; by right).
    pose proof (H y ltac:(by left)) as Hy. specialize (IH H'). repeat case_decide; cbn; try lia. naive_solver. }
  rewrite !filter_cons. apply elem_of_cons in Hj as [<-|Hj].
  - rewrite decide_False by congruence. rewrite decide_True by done. cbn. pose proof (Hle l ltac:(intros k Hk; apply Himp; by right)). lia.
  - specialize (IH ltac:(intros k Hk; apply Himp; by right) Hj Hq Hp). pose proof (Himp x ltac:(by left)). repeat case_decide; cbn; try lia. naive_solver.
Qed.

Lemma wrong_decreases nums nums' j : length nums' = length nums -> (j < length nums)%nat -> right_at nums j = false -> right_at nums' j = true ->
  (forall k, right_at nums k = true -> right_at nums' k = true) -> (wrong nums' < wrong nums)%nat.
Proof.
  intros Hlen Hj H1 H2 Hk. unfold wrong. rewrite Hlen.
  assert (Heq : forall ns, filter (fun i => right_at ns i = false) (seq 0 (length nums)) = filter (fun i => negb (right_at ns i) = true) (seq 0 (length nums))).
  { intros ns. apply list_filter_iff. intros i. by destruct (right_at ns i). }
  rewrite !Heq. apply (filter_shorter _ _ _ j).
  - intros k _ Hn. apply negb_true_iff in Hn. apply negb_true_iff. destruct (right_at nums k) eqn:E; [apply Hk in E; congruence|done].
  - apply elem_of_seq. lia.
  - by rewrite H1.
  - by rewrite H2.
Qed.

Lemma place_loop_settles fuel : forall i nums, (i <= length nums)%nat -> (wrong nums + (length nums - i) < fuel)%nat -> (forall j, (j < i)%nat -> settled nums j) ->
  exists r, place_loop fuel i nums = Ok r /\ r ≡ₚ nums /\ forall j, settled r j.
Proof.
  induction fuel as [|fuel IH]; intros i nums Hi Hf Hs; [lia|]. cbn [place_loop]. destruct (nums !! i) as [v|] eqn:Hv.
  - pose proof (lookup_lt_Some _ _ _ Hv) as Hlt. destruct (misplaced nums v) eqn:Hm.
    + destruct (swap_places _ _ _ Hv Hm) as (nums' & -> & Hp & Hlen & Hat & Hoth & Hri & Hrj & Hij). rewrite bind_ok. pose proof (proj1 (misplaced_true _ _ Hm)) as Hvr.
      assert (Hkeep : forall k, right_at nums k = true -> right_at nums' k = true).
      { intros k Hk. unfold right_at in *. rewrite Hoth; [done|intros ->; congruence|intros ->; congruence]. }
      destruct (IH i nums') as (r & Hr & Hrp & Hrs).
      * lia.
      * assert (wrong nums' < wrong nums)%nat; [|lia]. apply (wrong_decreases nums nums' (Z.to_nat (v - 1))); [done|lia|done| |done].
        unfold right_at. apply bool_decide_eq_true. rewrite Hat. f_equal. lia.
      * intros j Hj w Hw. apply misplaced_false. intros Hwr. destruct (decide (j = Z.to_nat (v - 1))) as [->|Hne].
        -- assert (w = v) as -> by congruence. done.
        -- rewrite Hoth in Hw by lia. pose proof (Hs j Hj w Hw) as Hset. apply misplaced_false in Hset; [|by rewrite <- Hlen].
           assert (Hrw : right_at nums (Z.to_nat (w - 1)) = true) by (unfold right_at; apply bool_decide_eq_true; rewrite Hset; f_equal; lia).
           rewrite Hoth; [done|intros He; congruence|intros He; congruence].
      * exists r. split; [done|]. split; [by rewrite Hrp|done].
    + apply IH; [lia|lia|]. intros j Hj. destruct (decide (j = i)) as [->|]; [intros w Hw; congruence|]. apply Hs. lia.
  - apply lookup_ge_None in Hv. exists nums. split; [done|]. split; [done|]. intros j w Hw. apply (Hs j); [apply lookup_lt_Some in Hw; lia|done].
Qed.

Lemma find_loop_first nums : forall i, 0 <= i -> let r := find_loop nums i in
  i < r <= i + Z.of_nat (length nums) + 1 /\ (forall k, (Z.of_nat k < r - i - 1) -> nums !! k = Some (i + Z.of_nat k + 1)) /\
  (forall x, nums !! Z.to_nat (r - i - 1) = Some x -> x <> r).
Proof.
  induction nums as [|x nums IH]; intros i Hi; cbn [find_loop]; cbv zeta.
  - split; [cbn; lia|]. split; [intros k Hk; lia|]. intros x Hx. by rewrite lookup_nil in Hx.
  - destruct (Z.eqb_spec x (i + 1)) as [->|Hne]; cbn [negb].
    + destruct (IH (i + 1) ltac:(lia)) as (H1 & H2 & H3). cbn [length]. split; [lia|]. split.
      * intros [|k] Hk; [cbn; f_equal; lia|]. cbn. rewrite H2 by lia. f_equal. lia.
      * intros y Hy. replace (Z.to_nat (find_loop nums (i + 1) - i - 1)) with (S (Z.to_nat (find_loop nums (i + 1) - (i + 1) - 1))) in Hy by lia. by apply H3.
    + split; [cbn; lia|]. split; [intros k Hk; lia|]. intros y Hy. replace (Z.to_nat (i + 1 - i - 1)) with 0%nat in Hy by lia. cbn in Hy. congruence.
Qed.

(** The loop of the swaps ends, and what is returned is the least positive number that is not there. *)
Theorem first_missing nums : exists r, firstMissingPositive nums = Ok r /\ 0 < r /\ r ∉ nums /\ forall k, 0 < k < r -> k ∈ nums.
Proof.
  unfold firstMissingPositive. destruct (place_loop_settles (S (length nums + length nums)) 0 nums) as (p & -> & Hp & Hs).
  - lia.
  - unfold wrong. pose proof (length_filter (fun i => right_at nums i = false) (seq 0 (length nums))) as H. rewrite length_seq in H. lia.
  - intros j Hj. lia.
  - rewrite bind_ok. eexists. split; [done|]. destruct (find_loop_first p 0 ltac:(lia)) as (H1 & H2 & H3). rewrite Z.add_0_l in *. split; [lia|]. split.
    + rewrite <- Hp. intros Hin. apply list_elem_of_lookup in Hin as [j Hj]. pose proof (Hs j _ Hj) as Hset.
      rewrite misplaced_false in Hset. destruct (decide (find_loop p 0 <= Z.of_nat (length p))) as [Hle|].
      * apply (H3 (find_loop p 0)); [|done]. rewrite Z.sub_0_r. apply Hset. lia.
      * (* all places are taken by their own numbers *)
        pose proof (lookup_lt_Some _ _ _ Hj) as Hlt. specialize (H2 j ltac:(lia)). rewrite H2 in Hj. injection Hj as Hj. lia.
    + intros k Hk. rewrite <- Hp. apply list_elem_of_lookup. exists (Z.to_nat (k - 1)). rewrite H2 by lia. f_equal. lia.
Qed.

End FirstMissing.

(** ** find_the_duplicate_number *)

Module FindDuplicate.

Definition lcnt (nums : list Z) (median : Z) : Z := Z.of_nat (length (filter (fun val => val <= median) nums)).

Fixpoint bisect (fuel : nat) (nums : list Z) (low up : Z) : option Z :=
  match fuel with
  | O => None
  | S fuel => if low <? up then let median := (low + up) / 2 in if lcnt nums median <=? median then bisect fuel nums (median + 1) up else bisect fuel nums low median
              else Some low
  end.

(** The sums of two positions fit in an int, by the bound on the size. *)
Definition findDuplicate (nums : list Z) : option Z := bisect (length nums) nums 1 (Z.of_nat (length nums) - 1).

Definition occurrences (nums : list Z) (x : Z) : Z := Z.of_nat (length (filter (fun val => val = x) nums)).

Lemma lcnt_step nums x : lcnt nums x = lcnt nums (x - 1) + occurrences nums x.
Proof.
  unfold lcnt, occurrences. induction nums as [|y nums IH]; [done|]. rewrite !filter_cons. repeat case_decide; cbn [length]; lia.
Qed.

Lemma bisect_finds nums fuel : forall low up, low <= up -> up - low < Z.of_nat fuel -> up < lcnt nums up -> lcnt nums (low - 1) <= low - 1 ->
  exists r, bisect fuel nums low up = Some r /\ low <= r <= up /\ 2 <= occurrences nums r.
Proof.
  induction fuel as [|fuel IH]; intros low up Hlu Hf Hup Hlow; [lia|]. cbn [bisect]. destruct (Z.ltb_spec low up) as [Hlt|Hge].
  - cbv zeta. pose proof (Z.div_mod (low + up) 2 ltac:(lia)) as Hd. pose proof (Z.mod_pos_bound (low + up) 2 ltac:(lia)) as Hm. destruct (Z.leb_spec (lcnt nums ((low + up) / 2)) ((low + up) / 2)) as [Hle|Hgt].
    + destruct (IH ((low + up) / 2 + 1) up) as (r & Hr & Hb & Ho); [lia|lia|done|by rewrite Z.add_simpl_r|]. exists r. split; [done|]. split; [lia|done].
    + destruct (IH low ((low + up) / 2)) as (r & Hr & Hb & Ho); [lia|lia|lia|done|]. exists r. split; [done|]. split; [lia|done].
  - exists low. split; [done|]. split; [lia|]. pose proof (lcnt_step nums low). assert (low = up) as -> by lia. lia.
Qed.

(** Of more numbers than there are values, the bisection finds one that occurs twice. *)
Theorem duplicate_found nums : (2 <= length nums)%nat -> Forall (fun x => 1 <= x <= Z.of_nat (length nums) - 1) nums ->
  exists r, findDuplicate nums = Some r /\ 2 <= occurrences nums r.
Proof.
  intros Hlen Hall. destruct (bisect_finds nums (length nums) 1 (Z.of_nat (length nums) - 1)) as (r & Hr & _ & Ho); [lia|lia| | |by exists r].
  - assert (lcnt nums (Z.of_nat (length nums) - 1) = Z.of_nat (length nums)) as ->; [|lia]. unfold lcnt. f_equal.
    assert (filter (fun val => val <= Z.of_nat (length nums) - 1) nums = nums) as ->; [|done]. clear -Hall. revert Hall. generalize (Z.of_nat (length nums)) as n. intros n Hall. induction Hall as [|x l Hx _ IH]; [done|]. rewrite filter_cons_True by lia. by rewrite IH.
  - unfold lcnt. assert (filter (fun val => val <= 1 - 1) nums = []) as ->; [|done]. apply filter_nil_Forall. eapply Forall_impl; [exact Hall|]. cbn. lia.
Qed.

End FindDuplicate.

(** ** sqrt_x *)

Module SqrtX.

Fixpoint sqrt_loop (fuel : nat) (x l r : Z) : option Z :=
  match fuel with
  | O => None
  | S fuel =>
      if l + 1 <? r then
        let m := l + (r - l) / 2 in
        let quo := x / m in
        if quo =? m then Some m else if quo <? m then sqrt_loop fuel x l m else sqrt_loop fuel x m r
      else Some l
  end.

(** An interval of ints is halved 31 times at most. *)
Definition mySqrt (x : Z) : option Z := if x <=? 1 then Some x else sqrt_loop 33 x 1 x.

Lemma sqrt_loop_root fuel : forall x l r, 0 < l < r -> r - l <= 2 ^ (Z.of_nat fuel - 1) -> (0 < fuel)%nat -> l * l <= x < r * r ->
  exists m, sqrt_loop fuel x l r = Some m /\ 0 < m /\ m * m <= x < (m + 1) * (m + 1).
Proof.
  induction fuel as [|fuel IH]; intros x l r Hlr Hf Hpos Hx; [lia|]. cbn [sqrt_loop]. destruct (Z.ltb_spec (l + 1) r) as [Hlt|Hge].
  - cbv zeta. remember (l + (r - l) / 2) as m eqn:Hm. pose proof (Z.div_mod (r - l) 2 ltac:(lia)) as Hd. pose proof (Z.mod_pos_bound (r - l) 2 ltac:(lia)) as Hmo. assert (Hmr : l < m < r) by lia.
    assert (Hf0 : (0 < fuel)%nat) by (destruct fuel; [change (2 ^ (Z.of_nat 1 - 1)) with 1 in Hf; lia|lia]).
    assert (H2 : 2 ^ (Z.of_nat (S fuel) - 1) = 2 * 2 ^ (Z.of_nat fuel - 1)) by (rewrite <- Z.pow_succ_r by lia; f_equal; lia).
    pose proof (Z.mul_div_le x m ltac:(lia)) as Hq1. pose proof (Z.mul_succ_div_gt x m ltac:(lia)) as Hq2.
    destruct (Z.eqb_spec (x / m) m) as [He|Hne]; [exists m; split; [done|]; split; [lia|]; nia|]. destruct (Z.ltb_spec (x / m) m) as [Hlo|Hhi].
    + apply IH; [lia|lia|done|]. split; [lia|]. nia.
    + apply IH; [lia|lia|done|]. split; [nia|lia].
  - exists l. split; [done|]. split; [lia|]. replace r with (l + 1) in * by lia. lia.
Qed.

(** The bisection ends with the integer square root, for every int that is not negative. *)
Theorem my_sqrt_root x : 0 <= x < 2 ^ 31 -> exists m, mySqrt x = Some m /\ 0 <= m /\ m * m <= x < (m + 1) * (m + 1).
Proof.
  intros Hx. unfold mySqrt. destruct (Z.leb_spec x 1) as [Hle|Hgt]; [exists x; split; [done|]; nia|].
  destruct (sqrt_loop_root 33 x 1 x) as (m & Hm & H1 & H2); [lia| |lia|nia|exists m; split; [done|]; split; [lia|done]]. change (2 ^ (Z.of_nat 33 - 1)) with (2 ^ 32). lia.
Qed.

End SqrtX.

(** ** merge_intervals *)

Module MergeIntervals.

(** An interval is a vector of two ints; [std::sort] compares them lexicographically. *)
Definition interval : Type := Z * Z.

Definition before (a b : interval) : Prop := a.1 < b.1 \/ (a.1 = b.1 /\ a.2 <= b.2).

#[global] Instance before_dec : RelDecision before.
Proof. intros a b. unfold before. apply _. Defined.

#[global] Instance before_total : Total before.
Proof. intros [a1 a2] [b1 b2]. unfold before. cbn. lia. Qed.

#[global] Instance before_trans : Transitive before.
Proof. intros [a1 a2] [b1 b2] [c1 c2]. unfold before. cbn. lia. Qed.

(** The loop: [back] is the back of the result, whose other elements are in [result]. *)
Fixpoint merge_loop (intervals result : list interval) (back : interval) : list interval :=
  match intervals with
  | [] => result ++ [back]
  | i :: intervals => if i.1 <=? back.2 then merge_loop intervals result (back.1, Z.max i.2 back.2) else merge_loop intervals (result ++ [back]) i
  end.

Definition merge (intervals : list interval) : list interval :=
  match merge_sort before intervals with [] => [] | i :: intervals => merge_loop intervals [] i end.

Definition covers (x : Z) (l : list interval) : Prop := exists i, i ∈ l /\ i.1 <= x <= i.2.

(** One after the other, with a gap between. *)
Definition apart : list interval -> Prop := StronglySorted (fun a b => a.2 < b.1).

Lemma covers_cons x i l : covers x (i :: l) <-> i.1 <= x <= i.2 \/ covers x l.
Proof. unfold covers. split; [intros (j & [->|Hj]%elem_of_cons & H); [by left|right; by exists j]|intros [H|(j & Hj & H)]; [exists i; split; [by left|done]|exists j; split; [by right|done]]]. Qed.

Lemma covers_app x a b : covers x (a ++ b) <-> covers x a \/ covers x b.
Proof. unfold covers. setoid_rewrite elem_of_app. naive_solver. Qed.

Lemma merge_loop_merges l : forall result back, StronglySorted before (back :: l) -> Forall (fun i => i.1 <= i.2) (back :: l) ->
  apart (result ++ [back]) -> Forall (fun i => i.1 <= i.2) result ->
  apart (merge_loop l result back) /\ Forall (fun i => i.1 <= i.2) (merge_loop l result back) /\
  forall x, covers x (merge_loop l result back) <-> covers x (result ++ back :: l).
Proof.
  induction l as [|i l IH]; intros result back Hs Hv Hap Hvr; cbn [merge_loop].
  - split; [done|]. split; [|done]. apply Forall_app. split; [done|]. by inversion Hv; constructor.
  - apply StronglySorted_cons in Hs as [Hb Hs]. inversion Hb as [|? ? Hbi Hbl]; subst. inversion Hv as [|? ? Hvb Hvl]; subst. inversion Hvl as [|? ? Hvi Hvl']; subst.
    pose proof Hs as Hs'. apply StronglySorted_cons in Hs' as [Hil Hsl]. destruct (Z.leb_spec i.1 back.2) as [Hle|Hgt].
    + destruct (IH result (back.1, Z.max i.2 back.2)) as (H1 & H2 & H3); [| | |done|].
      * apply StronglySorted_cons. split; [|done]. rewrite Forall_forall in *. intros j Hj. specialize (Hil j Hj). unfold before in *. cbn. 
        destruct (decide (back.1 < j.1)); [by left|]. right. specialize (Hbl j Hj). lia.
      * constructor; [cbn; lia|done].
      * unfold apart in *. apply StronglySorted_app in Hap as (Ha1 & Ha2 & _). apply StronglySorted_app. split; [|split; [done|repeat constructor]].
        intros a b Ha Hbb. apply list_elem_of_singleton in Hbb as ->. cbn. apply (Ha1 a back Ha). by left.
      * split; [done|]. split; [done|]. intros x. rewrite H3, !covers_app, !covers_cons. unfold before in Hbi. cbn. split; [|].
        -- intros [H|[H|H]]; [by left| |by right; right; right]. destruct (decide (x <= back.2)); [right; left; lia|right; right; left; lia].
        -- intros [H|[H|[H|H]]]; [by left|right; left; lia|right; left; lia|by right; right].
    + destruct (IH (result ++ [back]) i) as (H1 & H2 & H3); [done|done| | |].
      * unfold apart in *. apply StronglySorted_app. split; [|split; [done|repeat constructor]]. intros a b Ha Hbb. apply list_elem_of_singleton in Hbb as ->.
        apply elem_of_app in Ha as [Ha|Ha%list_elem_of_singleton]; [|subst; lia]. apply StronglySorted_app in Hap as (Ha1 & _ & _). specialize (Ha1 a back Ha ltac:(by left)). cbn in Ha1. lia.
      * apply Forall_app. split; [done|]. by constructor.
      * split; [done|]. split; [done|]. intros x. by rewrite H3, <- app_assoc.
Qed.

(** The merged intervals lie apart, in their order, and cover the same numbers. *)
Theorem merge_merges intervals : Forall (fun i => i.1 <= i.2) intervals ->
  apart (merge intervals) /\ forall x, covers x (merge intervals) <-> covers x intervals.
Proof.
  intros Hv. unfold merge. pose proof (merge_sort_Permutation before intervals) as Hp. pose proof (StronglySorted_merge_sort before intervals) as Hs.
  destruct (merge_sort before intervals) as [|i l].
  - apply Permutation_nil in Hp as ->. split; [constructor|done].
  - destruct (merge_loop_merges l [] i) as (H1 & _ & H2); [done|by rewrite Hp|repeat constructor|done|]. split; [done|]. intros x. rewrite H2. unfold covers. cbn [app]. by setoid_rewrite Hp.
Qed.

End MergeIntervals.

(** ** Concrete inputs *)

Lemma duplicate_found_witness : FindDuplicate.findDuplicate [1; 3; 4; 2; 2] = Some 2 /\ exists r, FindDuplicate.findDuplicate [1; 3; 4; 2; 2] = Some r /\ 2 <= FindDuplicate.occurrences [1; 3; 4; 2; 2] r.
Proof. split; [reflexivity|]. apply (FindDuplicate.duplicate_found [1; 3; 4; 2; 2]); [cbn; lia|repeat constructor; cbn; lia]. Defined.

Lemma my_sqrt_root_witness : SqrtX.mySqrt 2147395600 = Some 46340 /\ exists m, SqrtX.mySqrt 2147395600 = Some m /\ 0 <= m /\ m * m <= 2147395600 < (m + 1) * (m + 1).
Proof. split; [vm_compute; reflexivity|]. apply (SqrtX.my_sqrt_root 2147395600). lia. Defined.

Lemma merge_merges_witness : MergeIntervals.merge [(1, 3); (8, 10); (2, 6); (15, 18)] = [(1, 6); (8, 10); (15, 18)] /\ MergeIntervals.apart (MergeIntervals.merge [(1, 3); (8, 10); (2, 6); (15, 18)]).
Proof. split; [vm_compute; reflexivity|]. apply (MergeIntervals.merge_merges [(1, 3); (8, 10); (2, 6); (15, 18)]). repeat constructor; cbn; lia. Defined.

Example four_pairs : length (GenerateParentheses.generateParenthesis 4) = 14%nat. Proof. reflexivity. Qed.

Example first_missing_example : FirstMissing.firstMissingPositive [3; 4; -1; 1] = Ok 2. Proof. reflexivity. Qed.
