(* ===== verification/Cgroups.v ===== *)
(** * Control groups of containers

    Models Lumper/lumper/cgroups (util.cpp, memory_subsystem.cpp, cgroup_manager.h,
    cgroup_manager.cpp), write_to_file of Lumper/base/file_util.cpp and the part of
    Lumper/lumper/command_run.cpp that puts a container into its group.  The kernel is a [world]:
    the directories of the groups, their limits and which process is in which group.  How esl
    splits a text, and what the system calls answer, are parameters. *)

From stdpp Require Import gmap.
From S2P Require Import Prelude.

#[local] Open Scope Z_scope.

Record world := mk_world { dirs : gset str; limits : gmap str str; member : gmap Z str }.

Inductive error := cannot_open | mount_point_not_found | cgroup_path_not_found | cannot_mkdir (code : Z) | cannot_write | cannot_spawn.

(** How a call ends; a failed assertion is [Undefined]. *)
Inductive result (A : Type) := Value (a : A) | Thrown (e : error) | Undefined.

Arguments Value {A} a.
Arguments Thrown {A} e.
Arguments Undefined {A}.

(** A file of a group, and what is written to it: a text, or the decimal text of a process id. *)
Inductive file := limit_file (cgroup_path : str) | task_file (cgroup_path : str).
Inductive data := text (s : str) | pid_text (pid : Z).

Section System.

(** [split(line, ' ', skip_empty)] and [split(field, ',')] of esl. *)
Context (split_fields split_tokens : str -> list str).

(** The lines of /proc/self/mountinfo, if it can be opened. *)
Context (mountinfo : option (list str)).

(** Whether a file can be opened, what mkdir answers, and which limits the kernel takes. *)
Context (can_open : world -> file -> bool) (mkdir_errno : world -> str -> option Z) (accepts_limit : str -> bool).

(** Whether an [ofstream] keeps the data in its buffer until it is closed. *)
Context (buffered : data -> bool).

Definition EEXIST : Z := 17.

(** ** util.cpp *)

Fixpoint find_loop (subsystem : str) (lines : list str) : result str :=
  match lines with
  | [] => Value []
  | line :: lines =>
      let fields := split_fields line in
      match last fields, fields !! 4%nat with
      | Some back, Some mount_point => if bool_decide (subsystem ∈ split_tokens back) then Value mount_point else find_loop subsystem lines
      | _, _ => Undefined
      end
  end.

Definition find_mount_point (subsystem : str) : result str :=
  match mountinfo with None => Thrown cannot_open | Some lines => find_loop subsystem lines end.

(** [path::operator/]: an absolute right side replaces the left one. *)
Definition path_append (root name : str) : str :=
  match name with
  | c :: _ => if bool_decide (c = "/"%char) then name else root ++ ["/"%char] ++ name
  | [] => root ++ ["/"%char]
  end.

Definition get_cgroup_path_for_subsystem (subsystem cgroup_name : str) (auto_create : bool) (w : world) : world * result str :=
  match find_mount_point subsystem with
  | Thrown e => (w, Thrown e)
  | Undefined => (w, Undefined)
  | Value [] => (w, Thrown mount_point_not_found)
  | Value cgroup_root =>
      let cgroup_path := path_append cgroup_root cgroup_name in
      if bool_decide (cgroup_path ∈ dirs w) then (w, Value cgroup_path)
      else if negb auto_create then (w, Thrown cgroup_path_not_found)
      else match mkdir_errno w cgroup_path with
           | None => (mk_world ({[cgroup_path]} ∪ dirs w) (limits w) (member w), Value cgroup_path)
           | Some e => if e =? EEXIST then (w, Value cgroup_path) else (w, Thrown (cannot_mkdir e))
           end
  end.

(** ** file_util.cpp *)

(** What the kernel does with a write, and whether it takes it. *)
Definition kernel_write (f : file) (d : data) (w : world) : world * bool :=
  match f, d with
  | limit_file cg, text s => if accepts_limit s then (mk_world (dirs w) (<[cg := s]> (limits w)) (member w), true) else (w, false)
  | task_file cg, pid_text p => match member w !! p with Some _ => (mk_world (dirs w) (limits w) (<[p := cg]> (member w)), true) | None => (w, false) end
  | _, _ => (w, false)
  end.

(** What is buffered is written when the stream is destroyed, where nobody looks at the result. *)
Definition write_to_file (f : file) (d : data) (w : world) : world * result unit :=
  if negb (can_open w f) then (w, Thrown cannot_open)
  else let '(w, taken) := kernel_write f d w in
       if buffered d then (w, Value tt) else if taken : bool then (w, Value tt) else (w, Thrown cannot_write).

(** ** memory_subsystem.cpp *)

Definition memory : str := lit "memory".

(** The constructor returns the member [cgroup_path_]. *)
Definition memory_subsystem (cgroup_name memory_limit : str) (w : world) : world * result str :=
  match cgroup_name, memory_limit with
  | [], _ | _, [] => (w, Undefined)
  | _, _ =>
      match get_cgroup_path_for_subsystem memory cgroup_name true w with
      | (w, Value cgroup_path) =>
          match write_to_file (limit_file cgroup_path) (text memory_limit) w with
          | (w, Value _) => (w, Value cgroup_path)
          | (w, Thrown e) => (w, Thrown e)
          | (w, Undefined) => (w, Undefined)
          end
      | (w, r) => (w, r)
      end
  end.

(** The destructor: rmdir fails while a process is in the group; then only a line is logged. *)
Definition has_tasks (cg : str) (w : world) : bool := negb (bool_decide (map_Forall (fun _ c => c <> cg) (member w))).

Definition destroy_subsystem (cgroup_path : str) (w : world) : world :=
  if has_tasks cgroup_path w then w else mk_world (dirs w ∖ {[cgroup_path]}) (delete cgroup_path (limits w)) (member w).

Definition apply_subsystem (cgroup_path : str) (pid : Z) (w : world) : world * result unit := write_to_file (task_file cgroup_path) (pid_text pid) w.

(** ** cgroup_manager *)

Record resource_config := mk_config { memory_limit_ : str; cpus_ : str; cpu_set_ : str }.

Definition set_memory_limit (limit : str) (c : resource_config) : resource_config := mk_config limit (cpus_ c) (cpu_set_ c).
Definition set_cpus (cpus : str) (c : resource_config) : resource_config := mk_config (memory_limit_ c) cpus (cpu_set_ c).
Definition set_cpu_set (cpu_set : str) (c : resource_config) : resource_config := mk_config (memory_limit_ c) (cpus_ c) cpu_set.

(** The constructor returns the member [subsystems_]. *)
Definition cgroup_manager (name : str) (cfg : resource_config) (w : world) : world * result (list str) :=
  match memory_limit_ cfg with
  | [] => (w, Value [])
  | limit => match memory_subsystem name limit w with
             | (w, Value s) => (w, Value [s])
             | (w, Thrown e) => (w, Thrown e)
             | (w, Undefined) => (w, Undefined)
             end
  end.

Fixpoint apply_all (subsystems : list str) (pid : Z) (w : world) : world * result unit :=
  match subsystems with
  | [] => (w, Value tt)
  | s :: subsystems => match apply_subsystem s pid w with (w, Value _) => apply_all subsystems pid w | r => r end
  end.

Definition destroy_manager (subsystems : list str) (w : world) : world := fold_left (fun w s => destroy_subsystem s w) subsystems w.

(** ** command_run.cpp *)

(** The container forks: the new processes are in the group of their parent. *)
Definition fork_all (pid : Z) (children : list Z) (w : world) : world :=
  match member w !! pid with
  | Some cg => mk_world (dirs w) (limits w) (fold_left (fun m c => <[c := cg]> m) children (member w))
  | None => w
  end.

(** [wait]: the container ends, and the kernel ends all processes of its namespace. *)
Definition container_ends (pids : list Z) (w : world) : world :=
  mk_world (dirs w) (limits w) (fold_left (fun m c => delete c m) pids (member w)).

Definition group_name : str := lit "lumper-cgroup".

(** The container with process [pid] (none when it cannot be spawned) in the group [own] of its
    parent; [early] and [late]: what it forks before and after it is put into its group.  Returned
    are also the groups of the processes when all of them run. *)
Definition process_run (cfg : resource_config) (own : str) (pid : option Z) (early late : list Z) (w : world) : world * result (gmap Z str) :=
  match cgroup_manager group_name cfg w with
  | (w, Value subsystems) =>
      match pid with
      | None => (destroy_manager subsystems w, Thrown cannot_spawn)
      | Some p =>
          let w := mk_world (dirs w) (limits w) (<[p := own]> (member w)) in
          let w := fork_all p early w in
          match apply_all subsystems p w with
          | (w, Value _) =>
              let w := fork_all p late w in
              let running := member w in
              (destroy_manager subsystems (container_ends (p :: early ++ late) w), Value running)
          | (w, Thrown e) => (destroy_manager subsystems (container_ends (p :: early) w), Thrown e)
          | (w, Undefined) => (w, Undefined)
          end
      end
  | (w, Thrown e) => (w, Thrown e)
  | (w, Undefined) => (w, Undefined)
  end.

(** ** What the functions promise *)

(** The mount point is the fifth field of the first line whose last field names the subsystem. *)
Theorem find_mount_point_first subsystem before line fields after :
  mountinfo = Some (before ++ line :: after) -> split_fields line = fields -> (4 < length fields)%nat ->
  (forall back, last fields = Some back -> subsystem ∈ split_tokens back) ->
  Forall (fun l => (4 < length (split_fields l))%nat /\ forall back, last (split_fields l) = Some back -> subsystem ∉ split_tokens back) before ->
  exists mp, fields !! 4%nat = Some mp /\ find_mount_point subsystem = Value mp.
Proof.
  intros Hm Hf Hlen Hin Hbefore. unfold find_mount_point. rewrite Hm.
  assert (Hparts : forall fs : list str, (4 < length fs)%nat -> exists back mp, last fs = Some back /\ fs !! 4%nat = Some mp).
  { intros fs H. destruct (lookup_lt_is_Some_2 fs 4 H) as [mp Hmp]. destruct (last fs) as [back|] eqn:Hl; [by exists back, mp|]. apply last_None in Hl as ->. done. }
  destruct (Hparts fields Hlen) as (back & mp & Hb & Hmp). exists mp. split; [done|]. clear Hm. induction Hbefore as [|l ls [Hl Hno] _ IH]; cbn.
  - rewrite Hf, Hb, Hmp, bool_decide_true by by apply Hin. done.
  - destruct (Hparts _ Hl) as (b & m & Hlb & Hlm). rewrite Hlb, Hlm, bool_decide_false by by apply Hno. exact IH.
Qed.

Lemma fold_delete (pids : list Z) : forall (m : gmap Z str) p, fold_left (fun m c => delete c m) pids m !! p = if decide (p ∈ pids) then None else m !! p.
Proof.
  induction pids as [|q pids IH]; intros m p; cbn; [done|]. rewrite IH. destruct (decide (p ∈ pids)) as [Hin|Hout].
  - rewrite decide_True by by right. done.
  - destruct (decide (p = q)) as [->|Hne]; [rewrite decide_True by (by left); by rewrite lookup_delete_eq|].
    rewrite decide_False by (intros [|]%elem_of_cons; done). by rewrite lookup_delete_ne.
Qed.

Lemma fold_insert (cg : str) (pids : list Z) : forall (m : gmap Z str) p, fold_left (fun m c => <[c := cg]> m) pids m !! p = if decide (p ∈ pids) then Some cg else m !! p.
Proof.
  induction pids as [|q pids IH]; intros m p; cbn; [done|]. rewrite IH. destruct (decide (p ∈ pids)) as [Hin|Hout].
  - rewrite decide_True by by right. done.
  - destruct (decide (p = q)) as [->|Hne]; [rewrite decide_True by (by left); by rewrite lookup_insert_eq|].
    rewrite decide_False by (intros [|]%elem_of_cons; done). by rewrite lookup_insert_ne.
Qed.

Lemma no_tasks cg w : (forall p, member w !! p <> Some cg) -> has_tasks cg w = false.
Proof. intros H. unfold has_tasks. rewrite bool_decide_true; [done|]. intros p c Hp ->. by apply (H p). Qed.

(** The group that [memory_subsystem] makes, when it returns. *)
Lemma memory_subsystem_made name limit w w' cg : memory_subsystem name limit w = (w', Value cg) ->
  dirs w' ⊆ {[cg]} ∪ dirs w /\ member w' = member w /\ limit <> [] /\
  (accepts_limit limit = true -> limits w' = <[cg := limit]> (limits w)) /\ (accepts_limit limit = false -> limits w' = limits w).
Proof.
  unfold memory_subsystem. destruct name as [|n name]; [done|]. destruct limit as [|l limit]; [done|]. unfold get_cgroup_path_for_subsystem.
  destruct (find_mount_point memory) as [[|r root]| |]; try done. cbv zeta. intros H.
  assert (Hget : exists w1, dirs w1 ⊆ {[cg]} ∪ dirs w /\ member w1 = member w /\ limits w1 = limits w /\ write_to_file (limit_file cg) (text (l :: limit)) w1 = (w', Value tt)).
  { destruct (bool_decide (path_append (r :: root) (n :: name) ∈ dirs w)).
    - destruct (write_to_file _ _ w) as [w2 [[]| |]] eqn:Hw; try done. injection H as <- <-. exists w. split; [set_solver|]. done.
    - cbn [negb] in H. destruct (mkdir_errno w (path_append (r :: root) (n :: name))) as [e|].
      + destruct (e =? EEXIST); [|done]. destruct (write_to_file _ _ w) as [w2 [[]| |]] eqn:Hw; try done. injection H as <- <-. exists w. split; [set_solver|]. done.
      + destruct (write_to_file _ _ _) as [w2 [[]| |]] eqn:Hw; try done. injection H as <- <-. eexists. split; [|split; [|split; [|exact Hw]]]; done. }
  destruct Hget as (w1 & Hd & Hmem & Hlim & Hw). unfold write_to_file in Hw. destruct (can_open w1 (limit_file cg)); [|done]. cbn in Hw.
  destruct (accepts_limit (l :: limit)) eqn:Ha; (destruct (buffered (text (l :: limit))); [|]); try discriminate Hw; injection Hw as <-; cbn;
    (split; [done|]); (split; [done|]); (split; [done|]); (split; intros ?; congruence).
Qed.

(** A container leaves nothing behind: when [process_run] returns, no process of it is in any group,
    and its group is gone, unless others are in it; before that, every process that it forked after
    it was put into its group is in this group. *)
Theorem run_cleans_up cfg own pid early late w w' running : process_run cfg own (Some pid) early late w = (w', Value running) ->
  memory_limit_ cfg <> [] -> buffered (pid_text pid) = true -> pid ∉ early -> pid ∉ late ->
  exists cg, (forall p, p ∈ pid :: early ++ late -> member w' !! p = None) /\
    (forall p, p ∈ pid :: late -> running !! p = Some cg) /\
    ((forall p, member w !! p <> Some cg) -> own <> cg -> cg ∉ dirs w').
Proof.
  unfold process_run, cgroup_manager. intros H Hlim Hbuf He Hl. destruct (memory_limit_ cfg) as [|l limit] eqn:Hcfg; [done|].
  destruct (memory_subsystem group_name (l :: limit) w) as [w1 [cg| |]] eqn:Hm; try done. apply memory_subsystem_made in Hm as (Hd & Hmem & _).
  cbn [apply_all] in H. unfold apply_subsystem, write_to_file in H. cbv zeta in H.
  remember (fork_all pid early (mk_world (dirs w1) (limits w1) (<[pid := own]> (member w1)))) as w2 eqn:Hw2.
  assert (H2 : dirs w2 = dirs w1 /\ forall p, member w2 !! p = if decide (p ∈ early) then Some own else if decide (p = pid) then Some own else member w !! p).
  { subst w2. unfold fork_all. cbn [member]. rewrite lookup_insert_eq. cbn. split; [done|]. intros p. rewrite fold_insert, Hmem. case_decide; [done|].
    destruct (decide (p = pid)) as [->|]; [by rewrite lookup_insert_eq|by rewrite lookup_insert_ne]. }
  clear Hw2. destruct H2 as [Hd2 Hm2]. destruct (can_open w2 (task_file cg)); [|done]. cbn in H. assert (Hpid : member w2 !! pid = Some own) by (rewrite Hm2; rewrite decide_False by done; by rewrite decide_True).
  rewrite Hpid in H. rewrite Hbuf in H. injection H as <- <-. exists cg. unfold fork_all. cbn [member]. rewrite lookup_insert_eq. cbn [member].
  assert (Hgone : forall p, member (destroy_manager [cg] (container_ends (pid :: early ++ late)
     (mk_world (dirs w2) (limits w2) (fold_left (fun m c => <[c := cg]> m) late (<[pid := cg]> (member w2)))))) !! p = if decide (p ∈ pid :: early ++ late) then None else member w !! p).
  { intros p. cbn. unfold destroy_subsystem. assert (Hc : forall m : gmap Z str, m = fold_left (fun m c => delete c m) (early ++ late) (delete pid (fold_left (fun m c => <[c := cg]> m) late (<[pid := cg]> (member w2)))) ->
      m !! p = if decide (p ∈ pid :: early ++ late) then None else member w !! p).
    { intros m ->. change (fold_left _ (early ++ late) (delete pid ?mm)) with (fold_left (fun m c => delete c m) (pid :: early ++ late) mm). rewrite fold_delete. case_decide as Hin; [done|].
      rewrite fold_insert. apply not_elem_of_cons in Hin as [Hp Hin]. rewrite not_elem_of_app in Hin. destruct Hin as [Hin1 Hin2]. rewrite decide_False by done. rewrite lookup_insert_ne by done.
      rewrite Hm2. rewrite decide_False by done. by rewrite decide_False. }
    destruct (has_tasks cg _); cbn; by apply Hc. }
  split; [|split].
  - intros p Hp. rewrite Hgone. by rewrite decide_True.
  - intros p Hp. rewrite fold_insert. case_decide; [done|]. apply elem_of_cons in Hp as [->|Hp]; [by rewrite lookup_insert_eq|done].
  - intros Hfree Hown. cbn [destroy_manager fold_left]. unfold destroy_subsystem. rewrite no_tasks; [cbn; set_solver|]. intros p. cbn.
    change (fold_left _ (early ++ late) (delete pid ?mm)) with (fold_left (fun m c => delete c m) (pid :: early ++ late) mm). rewrite fold_delete. case_decide as Hin; [done|].
    rewrite fold_insert. apply not_elem_of_cons in Hin as [Hp Hin]. rewrite not_elem_of_app in Hin. destruct Hin as [Hin1 Hin2]. rewrite decide_False by done. rewrite lookup_insert_ne by done.
    rewrite Hm2. rewrite decide_False by done. rewrite decide_False by done. apply Hfree.
Qed.

(** What the container forks before it is put into its group stays outside, with no limit. *)
Theorem early_forks_escape cfg own pid early late w w' running p : process_run cfg own (Some pid) early late w = (w', Value running) ->
  p ∈ early -> p ∉ late -> p <> pid -> running !! p = Some own.
Proof.
  unfold process_run. intros H Hp Hl Hne. destruct (cgroup_manager group_name cfg w) as [w1 [subs| |]]; try done. cbv zeta in H.
  remember (fork_all pid early (mk_world (dirs w1) (limits w1) (<[pid := own]> (member w1)))) as w2 eqn:Hw2.
  assert (H2 : member w2 !! p = Some own). { subst w2. unfold fork_all. cbn [member]. rewrite lookup_insert_eq. cbn. rewrite fold_insert. by rewrite decide_True. }
  clear Hw2. assert (Happ : forall subs w3 r, apply_all subs pid w2 = (w3, r) -> member w3 !! p = Some own); [|destruct (apply_all subs pid w2) as [w3 [u| |]] eqn:Ha; try done; injection H as _ <-].
  - clear H subs. intros subs. revert w2 H2. induction subs as [|s ss IH]; intros w2 H2 w3 r Ha; cbn in Ha; [by simplify_eq|].
    unfold apply_subsystem, write_to_file in Ha. destruct (can_open w2 (task_file s)); cbn in Ha; [|by simplify_eq]. destruct (member w2 !! pid) eqn:Hpid.
    + assert (H3 : member (mk_world (dirs w2) (limits w2) (<[pid := s]> (member w2))) !! p = Some own) by (cbn; by rewrite lookup_insert_ne).
      destruct (buffered (pid_text pid)); by eapply IH.
    + destruct (buffered (pid_text pid)); [by eapply IH|by simplify_eq].
  - apply Happ in Ha. unfold fork_all. destruct (member w3 !! pid); [|done]. cbn. rewrite fold_insert. by rewrite decide_False.
Qed.

(** A limit that the kernel rejects goes unnoticed when the stream buffers it: the constructor returns, the
    group is there, and it has no limit. *)
Theorem rejected_limit_unnoticed name limit w w' r : memory_subsystem name limit w = (w', r) -> accepts_limit limit = false -> buffered (text limit) = true ->
  r <> Thrown cannot_write /\ limits w' = limits w.
Proof.
  intros H Ha Hb. unfold memory_subsystem in H. destruct name as [|n name]; [by injection H as <- <-|]. destruct limit as [|l limit]; [by injection H as <- <-|].
  unfold get_cgroup_path_for_subsystem in H. destruct (find_mount_point memory) as [[|c root]|e|] eqn:Hf; try (injection H as <- <-; done).
  - cbv zeta in H. assert (Hw : forall w1 cg, limits w1 = limits w -> match write_to_file (limit_file cg) (text (l :: limit)) w1 with
        | (w, Value _) => (w, Value cg) | (w, Thrown e) => (w, Thrown e) | (w, Undefined) => (w, Undefined) end = (w', r) -> r <> Thrown cannot_write /\ limits w' = limits w).
    { intros w1 cg Hl. unfold write_to_file. destruct (can_open w1 (limit_file cg)); cbn; [rewrite Ha, Hb|]; intros H'; injection H' as <- <-; done. }
    destruct (bool_decide _); [by eapply Hw|]. cbn [negb] in H. destruct (mkdir_errno _ _) as [e|]; [|by eapply Hw; [|exact H]].
    destruct (e =? EEXIST); [by eapply Hw|]. injection H as <- <-. done.
  - injection H as <- <-. split; [|done]. intros [= ->]. unfold find_mount_point in Hf. destruct mountinfo as [lines|]; [|done]. clear -Hf.
    induction lines as [|line lines IH]; [done|]. cbn in Hf. destruct (last (split_fields line)); [|done]. destruct (split_fields line !! 4%nat); [|done]. destruct (bool_decide _); [done|auto].
Qed.

(** When the limit cannot be written, the constructor throws, its destructor does not run, and the
    directory that it made stays. *)
Theorem failed_constructor_leaks name limit w cg root : find_mount_point memory = Value root -> root <> [] -> name <> [] -> limit <> [] -> cg = path_append root name ->
  cg ∉ dirs w -> mkdir_errno w cg = None -> (forall w', can_open w' (limit_file cg) = false) ->
  exists w', memory_subsystem name limit w = (w', Thrown cannot_open) /\ cg ∈ dirs w'.
Proof.
  intros Hf Hr Hn Hl -> Hcg Hmk Hopen. unfold memory_subsystem, get_cgroup_path_for_subsystem. destruct name as [|n name]; [done|]. destruct limit as [|l limit]; [done|].
  rewrite Hf. destruct root as [|c root]; [done|]. cbv zeta. rewrite bool_decide_false by done. cbn [negb]. rewrite Hmk. unfold write_to_file. rewrite Hopen. cbn [negb].
  eexists. split; [done|]. cbn. set_solver.
Qed.

End System.

(** ** Concrete inputs *)

Fixpoint split_on (c : ascii) (s cur : str) : list str :=
  match s with
  | [] => [cur]
  | x :: s => if bool_decide (x = c) then cur :: split_on c s [] else split_on c s (cur ++ [x])
  end.

Definition by_spaces (s : str) : list str := filter (fun f => f <> []) (split_on " "%char s []).
Definition by_commas (s : str) : list str := split_on ","%char s [].

Definition mounts : list str := map lit
  ["25 1 8:1 / / rw shared:1 - ext4 /dev/sda1 rw"%string; "33 25 0:29 / /sys/fs/cgroup/memory rw,nosuid shared:14 - cgroup cgroup rw,memory"%string].

Definition memory_root : str := lit "/sys/fs/cgroup/memory".

Definition fresh_world : world := mk_world {[memory_root]} ∅ ∅.

Definition limited : resource_config := mk_config (lit "64m") [] [].

Lemma find_mount_point_first_witness : find_mount_point by_spaces by_commas (Some mounts) memory = Value memory_root.
Proof.
  destruct (find_mount_point_first by_spaces by_commas (Some mounts) memory (take 1 mounts) (lit "33 25 0:29 / /sys/fs/cgroup/memory rw,nosuid shared:14 - cgroup cgroup rw,memory")
    (by_spaces (lit "33 25 0:29 / /sys/fs/cgroup/memory rw,nosuid shared:14 - cgroup cgroup rw,memory")) []) as (mp & Hmp & ->).
  - reflexivity.
  - reflexivity.
  - vm_compute. lia.
  - intros back Hb. vm_compute in Hb. injection Hb as <-. apply (bool_decide_unpack _). vm_compute. exact I.
  - constructor; [|constructor]. split; [vm_compute; lia|]. intros back Hb. vm_compute in Hb. injection Hb as <-. apply (bool_decide_unpack _). vm_compute. exact I.
  - vm_compute in Hmp. injection Hmp as <-. reflexivity.
Defined.

Lemma ran_value : exists w running, process_run by_spaces by_commas (Some mounts) (fun _ _ => true) (fun _ _ => None) (fun _ => true) (fun _ => true) limited (lit "/") (Some 100) [101] [102] fresh_world
  = (w, Value running).
Proof. vm_compute. do 2 eexists. reflexivity. Qed.

Lemma run_cleans_up_witness : exists w running cg,
  process_run by_spaces by_commas (Some mounts) (fun _ _ => true) (fun _ _ => None) (fun _ => true) (fun _ => true) limited (lit "/") (Some 100) [101] [102] fresh_world = (w, Value running) /\
  member w !! 102 = None /\ running !! 102 = Some cg.
Proof.
  destruct ran_value as (w & running & Hr). exists w, running.
  destruct (run_cleans_up by_spaces by_commas (Some mounts) (fun _ _ => true) (fun _ _ => None) (fun _ => true) (fun _ => true) limited (lit "/") 100 [101] [102] fresh_world w running Hr) as (cg & H1 & H2 & _).
  - discriminate.
  - reflexivity.
  - apply (bool_decide_unpack _). vm_compute. exact I.
  - apply (bool_decide_unpack _). vm_compute. exact I.
  - exists cg. split; [exact Hr|]. split; [apply H1|apply H2]; apply (bool_decide_unpack _); vm_compute; exact I.
Defined.

Lemma early_forks_escape_witness : exists w running,
  process_run by_spaces by_commas (Some mounts) (fun _ _ => true) (fun _ _ => None) (fun _ => true) (fun _ => true) limited (lit "/") (Some 100) [101] [102] fresh_world = (w, Value running) /\
  running !! 101 = Some (lit "/").
Proof.
  destruct ran_value as (w & running & Hr). exists w, running. split; [exact Hr|].
  apply (early_forks_escape by_spaces by_commas (Some mounts) (fun _ _ => true) (fun _ _ => None) (fun _ => true) (fun _ => true) limited (lit "/") 100 [101] [102] fresh_world w running 101 Hr);
    [apply (bool_decide_unpack _); vm_compute; exact I|apply (bool_decide_unpack _); vm_compute; exact I|discriminate].
Defined.

Lemma rejected_limit_unnoticed_witness : exists w cg,
  memory_subsystem by_spaces by_commas (Some mounts) (fun _ _ => true) (fun _ _ => None) (fun _ => false) (fun _ => true) group_name (lit "lots") fresh_world = (w, Value cg) /\ limits w = ∅.
Proof.
  destruct (memory_subsystem by_spaces by_commas (Some mounts) (fun _ _ => true) (fun _ _ => None) (fun _ => false) (fun _ => true) group_name (lit "lots") fresh_world) as [w r] eqn:Hr.
  assert (exists cg, r = Value cg) as [cg ->] by (vm_compute in Hr; injection Hr as _ <-; eexists; reflexivity). exists w, cg. split; [reflexivity|].
  exact (proj2 (rejected_limit_unnoticed by_spaces by_commas (Some mounts) (fun _ _ => true) (fun _ _ => None) (fun _ => false) (fun _ => true) group_name (lit "lots") fresh_world w _ Hr eq_refl eq_refl)).
Defined.

Lemma failed_constructor_leaks_witness : exists w',
  memory_subsystem by_spaces by_commas (Some mounts) (fun _ _ => false) (fun _ _ => None) (fun _ => true) (fun _ => true) group_name (lit "64m") fresh_world = (w', Thrown cannot_open) /\
  path_append memory_root group_name ∈ dirs w'.
Proof.
  apply (failed_constructor_leaks by_spaces by_commas (Some mounts) (fun _ _ => false) (fun _ _ => None) (fun _ => true) (fun _ => true) group_name (lit "64m") fresh_world
    (path_append memory_root group_name) memory_root); [vm_compute; reflexivity|discriminate|discriminate|discriminate|reflexivity| |reflexivity|reflexivity].
  apply (bool_decide_unpack _). vm_compute. exact I.
Defined.
