(* ===== verification/Murmur64.v ===== *)
(** * The 64-bit variants of MurmurHash2

    Models MurmurHash64A and MurmurHash64B of bloom-filter/bloom-filter/MurmurHash2.cpp, on a
    little-endian host.  Every step of them can be undone, so that keys that differ in one place
    do not collide. *)

From S2P Require Import Prelude Endian Bloom Murmur.

#[local] Open Scope Z_scope.

(** ** MurmurHash64A *)

Definition m64 : Z := 14313749767032793493.

Definition mul64 (x : Z) : Z := wrap 64 (x * m64).

Definition shift64 (x : Z) : Z := Z.lxor x (Z.shiftr x 47).

Definition mix64 (h k : Z) : Z := mul64 (Z.lxor h (mul64 (shift64 (mul64 k)))).

(** The loop over the words: the hash and the bytes that are left. *)
Fixpoint loop64 (h : Z) (data : str) : Z * str :=
  match data with
  | b0 :: b1 :: b2 :: b3 :: b4 :: b5 :: b6 :: b7 :: data => loop64 (mix64 h (le_value [b0; b1; b2; b3; b4; b5; b6; b7])) data
  | _ => (h, data)
  end.

(** The [switch] that falls through, from byte [n - 1] on. *)
Fixpoint switch64 (n : nat) (h : Z) (data : str) : outcome Z :=
  match n with
  | O => Ok h
  | S n => d ← at_ data n; switch64 n (Z.lxor h (Z.shiftl d (8 * Z.of_nat n))) data
  end.

Definition finish64 (h : Z) : Z := shift64 (mul64 (shift64 h)).

Definition MurmurHash64A (key : str) (seed : Z) : outcome Z :=
  let '(h, data2) := loop64 (Z.lxor seed (mul64 (Z.of_nat (length key)))) key in
  h ← switch64 (length data2) h data2;
  Ok (finish64 (match data2 with [] => h | _ => mul64 h end)).

(** ** MurmurHash64B *)

(** The loop with its two halves: both hashes and the bytes that are left. *)
Fixpoint loop64B (h1 h2 : Z) (data : str) : Z * Z * str :=
  match data with
  | a0 :: a1 :: a2 :: a3 :: b0 :: b1 :: b2 :: b3 :: data => loop64B (mix h1 (word a0 a1 a2 a3)) (mix h2 (word b0 b1 b2 b3)) data
  | _ => (h1, h2, data)
  end.

Definition mul32 (x : Z) : Z := wrap 32 (x * m).

(** The last lines: each half is mixed with the other one in turn. *)
Definition final64B (h1 h2 : Z) : Z * Z :=
  let h1 := mul32 (Z.lxor h1 (Z.shiftr h2 18)) in
  let h2 := mul32 (Z.lxor h2 (Z.shiftr h1 22)) in
  let h1 := mul32 (Z.lxor h1 (Z.shiftr h2 17)) in
  let h2 := mul32 (Z.lxor h2 (Z.shiftr h1 19)) in
  (h1, h2).

Definition MurmurHash64B (key : str) (seed : Z) : outcome Z :=
  let h1 := Z.lxor (wrap 32 seed) (wrap 32 (Z.of_nat (length key))) in
  let h2 := wrap 32 (Z.shiftr seed 32) in
  let '(h1, h2, data) := loop64B h1 h2 key in
  let '(h1, data) := match data with a0 :: a1 :: a2 :: a3 :: data => (mix h1 (word a0 a1 a2 a3), data) | _ => (h1, data) end in
  h2 ← tail_bytes h2 data;
  let '(h1, h2) := final64B h1 h2 in
  Ok (Z.lor (Z.shiftl h1 32) h2).

(** ** Steps that can be undone *)

(** A shift to the right that is mixed in: from the highest bit down, each bit is the one of the
    result and one that is known. *)
Lemma shift_inj w r x y : 0 < r -> in_u w x -> in_u w y -> Z.lxor x (Z.shiftr x r) = Z.lxor y (Z.shiftr y r) -> x = y.
Proof.
  intros Hr Hx Hy He. assert (Hhigh : forall z n, in_u w z -> w <= n -> Z.testbit z n = false).
  { intros z n [H1 H2] Hn. destruct (decide (z = 0)) as [->|]; [apply Z.bits_0|]. apply Z.bits_above_log2; [done|]. pose proof (Z.log2_lt_pow2 z w ltac:(lia)). lia. }
  apply Z.bits_inj'. intros n Hn. remember (Z.to_nat (w - n)) as k eqn:Hk. revert n Hn Hk. induction k as [k IH] using lt_wf_ind. intros n Hn ->.
  destruct (decide (w <= n)) as [|Hlt]; [by rewrite !Hhigh|].
  assert (Hb : Z.testbit (Z.lxor x (Z.shiftr x r)) n = Z.testbit (Z.lxor y (Z.shiftr y r)) n) by (by rewrite He). rewrite !Z.lxor_spec, !Z.shiftr_spec in Hb by done.
  assert (Hr' : Z.testbit x (n + r) = Z.testbit y (n + r)) by (apply (IH (Z.to_nat (w - (n + r)))); lia). rewrite Hr' in Hb.
  destruct (Z.testbit x n), (Z.testbit y n), (Z.testbit y (n + r)); done.
Qed.

(** A multiplication by a number that has an inverse. *)
Lemma mul_inj w c inv x y : 0 <= w -> c * inv mod 2 ^ w = 1 -> in_u w x -> in_u w y -> wrap w (x * c) = wrap w (y * c) -> x = y.
Proof.
  intros Hw Hc Hx Hy He. unfold wrap in He. assert (Hu : forall z, in_u w z -> (z * c mod 2 ^ w) * inv mod 2 ^ w = z).
  { intros z Hz. unfold in_u in Hz. rewrite Z.mul_mod_idemp_l by lia. rewrite <- Z.mul_assoc, Z.mul_mod, Hc, Z.mul_1_r, Z.mod_mod by lia. by apply Z.mod_small. }
  rewrite <- (Hu x Hx), <- (Hu y Hy). by rewrite He.
Qed.

Lemma lxor_inj_r h x y : Z.lxor h x = Z.lxor h y -> x = y.
Proof. intros H. rewrite <- (Z.lxor_0_l x), <- (Z.lxor_0_l y), <- (Z.lxor_nilpotent h), !Z.lxor_assoc. by rewrite H. Qed.

Lemma lxor_inj_l h x y : Z.lxor x h = Z.lxor y h -> x = y.
Proof. rewrite !(Z.lxor_comm _ h). apply lxor_inj_r. Qed.

Lemma mul64_inj x y : u64 x -> u64 y -> mul64 x = mul64 y -> x = y.
Proof. apply (mul_inj 64 m64 6879827495036328381); [done|by vm_compute]. Qed.

Lemma mul32_inj x y : u32 x -> u32 y -> mul32 x = mul32 y -> x = y.
Proof. apply (mul_inj 32 m 3852147133); [done|by vm_compute]. Qed.

Lemma mul64_range x : u64 (mul64 x).
Proof. by apply wrap_range. Qed.

Lemma mul32_range x : u32 (mul32 x).
Proof. by apply wrap_range. Qed.

Lemma shift64_range x : u64 x -> u64 (shift64 x).
Proof. intros H. apply lxor_range; [done|done|]. by apply shiftr_range. Qed.

Lemma shift64_inj x y : u64 x -> u64 y -> shift64 x = shift64 y -> x = y.
Proof. by apply (shift_inj 64 47). Qed.

#[local] Hint Resolve mul64_range mul32_range shift64_range : murmur.

Lemma mix64_range h k : u64 (mix64 h k).
Proof. apply mul64_range. Qed.

Lemma mix64_inj_word h k k' : u64 h -> u64 k -> u64 k' -> mix64 h k = mix64 h k' -> k = k'.
Proof.
  intros Hh Hk Hk' H. unfold mix64 in H. apply mul64_inj in H; [|apply lxor_range; auto with murmur; done..].
  apply lxor_inj_r in H. apply mul64_inj in H; [|auto with murmur..]. apply shift64_inj in H; [|auto with murmur..]. by apply mul64_inj in H.
Qed.

Lemma mix64_inj_hash h h' k : u64 h -> u64 h' -> mix64 h k = mix64 h' k -> h = h'.
Proof. intros Hh Hh' H. unfold mix64 in H. apply mul64_inj in H; [|apply lxor_range; auto with murmur; done..]. by apply lxor_inj_l in H. Qed.

Lemma finish64_inj x y : u64 x -> u64 y -> finish64 x = finish64 y -> x = y.
Proof.
  intros Hx Hy H. unfold finish64 in H. apply shift64_inj in H; [|auto with murmur..]. apply mul64_inj in H; [|auto with murmur..]. by apply shift64_inj.
Qed.

(** ** The loops *)

Lemma loop64_app n : forall h p q, length p = (8 * n)%nat -> loop64 h (p ++ q) = loop64 (loop64 h p).1 q /\ (loop64 h p).2 = [].
Proof.
  induction n as [|n IH]; intros h p q Hp; [by destruct p|]. do 8 (destruct p as [|? p]; [cbn in Hp; lia|]). cbn [app loop64]. apply IH. cbn in Hp. lia.
Qed.

Lemma loop64_short h data : (length data < 8)%nat -> loop64 h data = (h, data).
Proof. intros H. do 8 (destruct data as [|? data]; [done|]). cbn in H. lia. Qed.

Lemma loop64_rest h data : (length (loop64 h data).2 <= 8)%nat.
Proof.
  assert (H : forall n data h, (length data <= n)%nat -> (length (loop64 h data).2 <= 8)%nat); [|by apply (H (length data))].
  clear. induction n as [|n IH]; intros data h Hn; [destruct data; [cbn; lia|cbn in Hn; lia]|].
  destruct (decide (length data < 8)%nat) as [Hs|Hs]; [rewrite loop64_short by done; cbn; lia|]. do 8 (destruct data as [|? data]; [cbn in Hs; lia|]). cbn [loop64].
  apply IH. cbn in Hn. lia.
Qed.

(** What is left does not depend on the hash, and different hashes stay different. *)
Lemma loop64_inj data : forall h h', u64 h -> u64 h' -> (loop64 h data).2 = (loop64 h' data).2 /\ u64 (loop64 h data).1 /\ ((loop64 h data).1 = (loop64 h' data).1 -> h = h').
Proof.
  assert (H : forall n data h h', (length data <= n)%nat -> u64 h -> u64 h' -> (loop64 h data).2 = (loop64 h' data).2 /\ u64 (loop64 h data).1 /\ ((loop64 h data).1 = (loop64 h' data).1 -> h = h')); [|intros h h'; by apply (H (length data))].
  clear. induction n as [|n IH]; intros data h h' Hn Hh Hh'; [destruct data; [done|cbn in Hn; lia]|].
  destruct (decide (length data < 8)%nat) as [Hs|Hs]; [by rewrite !loop64_short|]. do 8 (destruct data as [|? data]; [cbn in Hs; lia|]). cbn [loop64].
  destruct (IH data (mix64 h (le_value [a; a0; a1; a2; a3; a4; a5; a6])) (mix64 h' (le_value [a; a0; a1; a2; a3; a4; a5; a6]))) as (H1 & H2 & H3); [cbn in Hn; lia|apply mix64_range..|].
  split; [done|]. split; [done|]. intros He. apply H3 in He. by eapply mix64_inj_hash.
Qed.

Lemma switch64_ok n : forall h data, (n <= length data)%nat -> switch64 n h data = Ok (Z.lxor h (le_value (take n data))).
Proof.
  induction n as [|n IH]; intros h data Hn; cbn [switch64]; [by rewrite Z.lxor_0_r|]. destruct (lookup_lt_is_Some_2 data n ltac:(lia)) as [c Hc]. unfold at_. rewrite Hc. cbn [the]. rewrite !bind_ok.
  rewrite IH by lia. f_equal. rewrite (take_S_r _ _ _ Hc), le_value_app, length_take, Nat.min_l by lia. rewrite Z.lxor_assoc. f_equal.
  pose proof (le_value_bound (take n data)) as Hb. rewrite length_take, Nat.min_l in Hb by lia.
  assert (Hpow : 256 ^ Z.of_nat n = 2 ^ (8 * Z.of_nat n)) by (change 256 with (2 ^ 8); by rewrite <- Z.pow_mul_r by lia). rewrite lxor_shift by lia. cbn [le_value]. lia.
Qed.

(** The hash without the switch. *)
Lemma MurmurHash64A_value key seed : MurmurHash64A key seed =
  let '(h, rest) := loop64 (Z.lxor seed (mul64 (Z.of_nat (length key)))) key in Ok (finish64 (match rest with [] => h | _ => mul64 (Z.lxor h (le_value rest)) end)).
Proof.
  unfold MurmurHash64A. destruct (loop64 _ key) as [h rest]. rewrite switch64_ok, bind_ok, firstn_all by lia. destruct rest; [|done]. cbn. by rewrite Z.lxor_0_r.
Qed.

Lemma le_value_inj a b : length a = length b -> le_value a = le_value b -> a = b.
Proof. intros Hl He. rewrite <- (le_bytes_value a), <- (le_bytes_value b). by rewrite He, Hl. Qed.

Lemma le_value_u64 a : (length a <= 8)%nat -> u64 (le_value a).
Proof. intros H. pose proof (le_value_lt a 8 H) as Hb. unfold in_u. change (256 ^ Z.of_nat 8) with (2 ^ 64) in Hb. lia. Qed.

(** Keys of the same length that differ in one word only, or only in what comes after the last
    word, have different hashes, and every key has one. *)
Theorem murmur64A_separates p a b s seed : u64 seed -> (exists n, length p = (8 * n)%nat) -> length a = length b ->
  (length a = 8%nat \/ (length a < 8)%nat /\ s = []) ->
  exists x y, MurmurHash64A (p ++ a ++ s) seed = Ok x /\ MurmurHash64A (p ++ b ++ s) seed = Ok y /\ (x = y -> a = b).
Proof.
  intros Hseed [n Hp] Hab Hkind. rewrite !MurmurHash64A_value.
  assert (Hlen : length (p ++ a ++ s) = length (p ++ b ++ s)) by (rewrite !length_app; lia). rewrite Hlen.
  remember (Z.lxor seed (mul64 (Z.of_nat (length (p ++ b ++ s))))) as h0 eqn:Hh0. assert (H0 : u64 h0) by (subst h0; apply lxor_range; auto with murmur; done). clear Hh0 Hlen.
  destruct (loop64_app n h0 p (a ++ s) Hp) as [-> _]. destruct (loop64_app n h0 p (b ++ s) Hp) as [-> _].
  destruct (loop64_inj p h0 h0 H0 H0) as (_ & H1 & _). remember (loop64 h0 p).1 as h eqn:Hh. clear Hh Hp.
  destruct Hkind as [H8|[Hs ->]].
  - destruct (loop64_app 1 h a s) as [-> _]; [lia|]. destruct (loop64_app 1 h b s) as [-> _]; [lia|].
    assert (Ha : forall l : str, length l = 8%nat -> (loop64 h l).1 = mix64 h (le_value l)) by (intros l Hl; do 8 (destruct l as [|? l]; [done|]); by destruct l). rewrite !Ha by lia.
    destruct (loop64_inj s (mix64 h (le_value a)) (mix64 h (le_value b))) as (H2 & H3 & H4); [apply mix64_range..|].
    destruct (loop64_inj s (mix64 h (le_value b)) (mix64 h (le_value b))) as (_ & H5 & _); [apply mix64_range..|].
    destruct (loop64 (mix64 h (le_value a)) s) as [x r] eqn:Hx. destruct (loop64 (mix64 h (le_value b)) s) as [y r'] eqn:Hy. cbn in H2, H3, H4, H5. subst r'.
    do 2 eexists. split; [done|]. split; [done|]. intros He. apply finish64_inj in He; [|by destruct r; [|apply mul64_range]..].
    assert (Hxy : x = y). { destruct r as [|c r]; [done|]. apply mul64_inj in He; [by apply lxor_inj_l in He|..]; (apply lxor_range; [done|done|]); apply le_value_u64;
      [pose proof (f_equal snd Hx) as Hr|pose proof (f_equal snd Hy) as Hr]; cbn [snd] in Hr; rewrite <- Hr; clear; apply loop64_rest. }
    apply H4 in Hxy. apply mix64_inj_word in Hxy; [by apply le_value_inj|done|apply le_value_u64; lia|apply le_value_u64; lia].
  - rewrite !app_nil_r, !loop64_short by lia. do 2 eexists. split; [done|]. split; [done|]. intros He.
    destruct a as [|c a]; [by destruct b|]. destruct b as [|c' b]; [done|].
    apply finish64_inj in He; [|apply mul64_range..]. apply mul64_inj in He; [|apply lxor_range; [done|done|]; apply le_value_u64; lia..].
    apply lxor_inj_r in He. by apply le_value_inj.
Qed.

(** ** The variant for 32-bit hosts *)

Lemma half_inj h x y : u32 h -> u32 x -> u32 y -> forall r, 0 <= r -> mul32 (Z.lxor x (Z.shiftr h r)) = mul32 (Z.lxor y (Z.shiftr h r)) -> x = y.
Proof.
  intros Hh Hx Hy r Hr H. assert (Hs : u32 (Z.shiftr h r)) by by apply shiftr_range. apply mul32_inj in H; [by apply lxor_inj_l in H|by apply lxor_range..].
Qed.

Lemma final64B_inj a1 a2 b1 b2 : u32 a1 -> u32 a2 -> u32 b1 -> u32 b2 -> final64B a1 a2 = final64B b1 b2 -> a1 = b1 /\ a2 = b2.
Proof.
  intros Ha1 Ha2 Hb1 Hb2 H. unfold final64B in H. cbv zeta in H. injection H as H1 H2. rewrite <- H1 in H2.
  apply half_inj in H2; [|apply mul32_range..|done].
  rewrite <- H2 in H1. apply half_inj in H1; [|apply mul32_range..|done].
  rewrite <- H1 in H2. apply half_inj in H2; [|auto with murmur..|done]. subst b2. apply half_inj in H1; [done|done..].
Qed.

Lemma mix_u32 h k : u32 (mix h k).
Proof.
  unfold mix. apply lxor_range; [done|by apply wrap_range|by apply wrap_range].
Qed.

Lemma mix_inj_word h k k' : u32 k -> u32 k' -> mix h k = mix h k' -> k = k'.
Proof.
  intros Hk Hk' H. unfold mix in H. cbv zeta in H. apply lxor_inj_r in H.
  assert (Hs : forall z, u32 (Z.lxor (mul32 z) (Z.shiftr (mul32 z) 24))) by (intros z; apply lxor_range; [done|apply mul32_range|apply shiftr_range; [done|apply mul32_range]]).
  apply mul32_inj in H; [|apply Hs..]. apply (shift_inj 32 24) in H; [|done|apply mul32_range..]. by apply mul32_inj in H.
Qed.

(** On keys of eight bytes [MurmurHash64B] is one-to-one, for every seed, and its result fits in 64
    bits. *)
Theorem murmur64B_one_to_one a b seed : length a = 8%nat -> length b = 8%nat ->
  exists x y, MurmurHash64B a seed = Ok x /\ MurmurHash64B b seed = Ok y /\ u64 x /\ (x = y -> a = b).
Proof.
  intros Ha Hb. do 8 (destruct a as [|? a]; [done|]). destruct a; [|done]. do 8 (destruct b as [|? b]; [done|]). destruct b; [|done].
  unfold MurmurHash64B. cbn [loop64B length tail_bytes]. rewrite !bind_ok.
  match goal with |- context [final64B (mix ?h1 ?k1) (mix ?h2 ?k2)] => remember h1 as s1 eqn:H1; remember h2 as s2 eqn:H2 end. clear H1 H2.
  assert (Hrange : forall u1 u2, u32 (final64B u1 u2).1 /\ u32 (final64B u1 u2).2) by (intros u1 u2; split; apply mul32_range).
  pose proof (Hrange (mix s1 (word a0 a1 a2 a3)) (mix s2 (word a4 a5 a6 a7))) as [Hx1 Hx2]. pose proof (Hrange (mix s1 (word a a8 a9 a10)) (mix s2 (word a11 a12 a13 a14))) as [Hy1 Hy2].
  pose proof (final64B_inj (mix s1 (word a0 a1 a2 a3)) (mix s2 (word a4 a5 a6 a7)) (mix s1 (word a a8 a9 a10)) (mix s2 (word a11 a12 a13 a14))
    (mix_u32 _ _) (mix_u32 _ _) (mix_u32 _ _) (mix_u32 _ _)) as Hinj. clear Hrange.
  destruct (final64B (mix s1 (word a0 a1 a2 a3)) (mix s2 (word a4 a5 a6 a7))) as [x1 x2]. destruct (final64B (mix s1 (word a a8 a9 a10)) (mix s2 (word a11 a12 a13 a14))) as [y1 y2].
  cbn in Hx1, Hx2, Hy1, Hy2. unfold in_u in Hx1, Hx2, Hy1, Hy2. rewrite !Z.shiftl_mul_pow2 by lia. rewrite !lor_add by lia. do 2 eexists. split; [done|]. split; [done|]. split; [unfold in_u; lia|].
  intros He. assert (x1 = y1 /\ x2 = y2) as [-> ->] by lia. destruct (Hinj eq_refl) as [Hm1 Hm2].
  assert (Hw : forall c0 c1 c2 c3, u32 (word c0 c1 c2 c3)) by (intros c0 c1 c2 c3; rewrite word_le; pose proof (le_value_lt [c0; c1; c2; c3] 4 ltac:(cbn; lia)) as H; exact H).
  apply mix_inj_word in Hm1; [|apply Hw..]. apply mix_inj_word in Hm2; [|apply Hw..]. rewrite !word_le in Hm1, Hm2. apply le_value_inj in Hm1; [|done]. apply le_value_inj in Hm2; [|done].
  congruence.
Qed.

(** ** Concrete inputs *)

Lemma murmur64A_separates_witness : exists x y, MurmurHash64A (lit "eightcha") 7 = Ok x /\ MurmurHash64A (lit "eightchb") 7 = Ok y /\ x <> y.
Proof.
  destruct (murmur64A_separates [] (lit "eightcha") (lit "eightchb") [] 7) as (x & y & Hx & Hy & Hxy); [unfold in_u; lia|exists 0%nat; reflexivity|reflexivity|left; reflexivity|].
  exists x, y. split; [exact Hx|]. split; [exact Hy|]. intros He. apply Hxy in He. discriminate He.
Defined.

Lemma murmur64B_one_to_one_witness : exists x y, MurmurHash64B (lit "eightcha") 7 = Ok x /\ MurmurHash64B (lit "eightchb") 7 = Ok y /\ x <> y.
Proof.
  destruct (murmur64B_one_to_one (lit "eightcha") (lit "eightchb") 7) as (x & y & Hx & Hy & _ & Hxy); [reflexivity|reflexivity|].
  exists x, y. split; [exact Hx|]. split; [exact Hy|]. intros He. apply Hxy in He. discriminate He.
Defined.
