(* ===== verification/LinkedLists.v ===== *)
(** * Exercises on linked lists

    Models, of crack-data-structures-and-algorithms/leetcode, reverse_linked_list_q206 (loop and
    recursion), reverse_linked_list_II_q92, reverse_nodes_in_k_group_q25, swap_nodes_in_pair_q24,
    remove_nth_node_from_end_of_list_q19, merge_two_sorted_lists_q21, merge_k_sorted_lists_q23 and
    add_two_numbers_q2.  The nodes live in a heap; a pointer is an address or null, and
    following any other than that of a node is undefined.  The functions relink nodes: the
    theorems say which nodes a list has afterwards, in their order, and that every other node
    and every value stays what it was. *)

From Stdlib Require Import Sorted.
From stdpp Require Import gmap sorting.
From S2P Require Import Prelude Scans.

#[local] Open Scope Z_scope.

Record ListNode := mk_node { val : Z; next : option positive }.

Notation ptr := (option positive).
Notation heap := (gmap positive ListNode).

Definition deref (h : heap) (p : ptr) : outcome ListNode := the (p ≫= fun a => h !! a).

(** [p->next = q] *)
Definition set_next (h : heap) (p q : ptr) : outcome heap :=
  a ← the p; n ← the (h !! a); Ok (<[a := mk_node (val n) q]> h).

(** [new ListNode(x)], and the address of a local one *)
Definition new_node (h : heap) (x : Z) : ptr * heap :=
  let a := fresh (dom h) in (Some a, <[a := mk_node x None]> h).

(** [ListNode dummy(0); dummy.next = head; ...; return dummy.next] *)
Definition with_dummy (h : heap) (head : ptr) (body : heap -> ptr -> outcome heap) : outcome (heap * ptr) :=
  let '(dummy, h) := new_node h 0 in
  h ← set_next h dummy head;
  h ← body h dummy;
  n ← deref h dummy;
  a ← the dummy;
  Ok (delete a h, next n).

(** ** Lists in the heap *)

(** From [p] the nodes [xs] follow each other, up to [q]. *)
Fixpoint lseg (h : heap) (p : ptr) (xs : list positive) (q : ptr) : Prop :=
  match xs with
  | [] => p = q
  | a :: xs => p = Some a /\ exists n, h !! a = Some n /\ lseg h (next n) xs q
  end.

(** Only the pointers of the nodes [xs] differ. *)
Definition frame (xs : list positive) (h h' : heap) : Prop :=
  (forall a, a ∉ xs -> h' !! a = h !! a) /\ (forall a, val <$> h' !! a = val <$> h !! a).

(** The nodes [xs] are now the list of [r], in the order [ys]. *)
Definition relinked (h h' : heap) (xs : list positive) (r : ptr) (ys : list positive) : Prop :=
  lseg h' r ys None /\ frame xs h h'.

Definition value (h : heap) (a : positive) : Z := from_option val 0 (h !! a).
Definition vals (h : heap) (xs : list positive) : list Z := map (value h) xs.

Definition update (h : heap) (a : positive) (q : ptr) : heap := alter (fun n => mk_node (val n) q) a h.

#[export] Instance frame_refl xs : Reflexive (frame xs).
Proof. by split. Qed.

#[export] Instance frame_trans xs : Transitive (frame xs).
Proof. intros h1 h2 h3 [H1 H2] [H3 H4]. split; intros a; [intros Ha; by rewrite H3, H1|by rewrite H4, H2]. Qed.

Lemma frame_weaken xs ys h h' : xs ⊆ ys -> frame xs h h' -> frame ys h h'.
Proof. intros Hs [H1 H2]. split; [intros a Ha; apply H1; set_solver|done]. Qed.

Lemma frame_vals xs ys h h' : frame xs h h' -> vals h' ys = vals h ys.
Proof.
  intros [_ Hv]. apply list_fmap_ext. intros i a _. unfold value. specialize (Hv a).
  by destruct (h !! a), (h' !! a); simplify_eq/=.
Qed.

Lemma frame_is_Some xs h h' a : frame xs h h' -> is_Some (h !! a) -> is_Some (h' !! a).
Proof. intros [_ Hv] [n Hn]. specialize (Hv a). rewrite Hn in Hv. by destruct (h' !! a). Qed.

Lemma frame_update h a q : frame [a] h (update h a q).
Proof.
  split; intros b; unfold update.
  - intros Hb. apply lookup_alter_ne. set_solver.
  - destruct (decide (a = b)) as [<-|Hne]; [|by rewrite lookup_alter_ne]. rewrite lookup_alter_eq. by destruct (h !! a).
Qed.

Lemma set_next_ok h a q : is_Some (h !! a) -> set_next h (Some a) q = Ok (update h a q).
Proof.
  intros [n Hn]. unfold set_next, update. cbn [the]. rewrite bind_ok, Hn. cbn [the]. rewrite bind_ok. f_equal.
  apply map_eq. intros b. destruct (decide (a = b)) as [<-|Hne].
  - by rewrite lookup_insert_eq, lookup_alter_eq, Hn.
  - by rewrite lookup_insert_ne, lookup_alter_ne.
Qed.

Lemma update_eq h a q n : h !! a = Some n -> update h a q !! a = Some (mk_node (val n) q).
Proof. intros H. unfold update. by rewrite lookup_alter_eq, H. Qed.

Lemma update_ne h a b q : a <> b -> update h a q !! b = h !! b.
Proof. apply lookup_alter_ne. Qed.

Lemma deref_node h a n : h !! a = Some n -> deref h (Some a) = Ok n.
Proof. intros H. unfold deref. cbn. by rewrite H. Qed.

Lemma lseg_app h p xs ys q : lseg h p (xs ++ ys) q <-> exists r, lseg h p xs r /\ lseg h r ys q.
Proof.
  revert p. induction xs as [|a xs IH]; intros p; cbn; [naive_solver|]. setoid_rewrite IH. naive_solver.
Qed.

Lemma lseg_is_Some h p xs q a : lseg h p xs q -> a ∈ xs -> is_Some (h !! a).
Proof.
  revert p. induction xs as [|b xs IH]; cbn; intros p; [set_solver|].
  intros (_ & n & Hn & Hl) [->|Ha]%elem_of_cons; [by rewrite Hn|eauto].
Qed.

Lemma lseg_ext h h' p xs q : (forall a, a ∈ xs -> h' !! a = h !! a) -> lseg h p xs q -> lseg h' p xs q.
Proof.
  revert p. induction xs as [|b xs IH]; cbn; intros p Hh; [done|]. intros (-> & n & Hn & Hl). split; [done|].
  exists n. rewrite Hh by set_solver. split; [done|]. apply IH; [|done]. intros a Ha. apply Hh. set_solver.
Qed.

Lemma lseg_frame xs h h' p ys q : frame xs h h' -> xs ## ys -> lseg h p ys q -> lseg h' p ys q.
Proof. intros [Hf _] Hd. apply lseg_ext. intros a Ha. apply Hf. set_solver. Qed.

Lemma lseg_update h a r p xs q : a ∉ xs -> lseg h p xs q -> lseg (update h a r) p xs q.
Proof. intros Ha. apply (lseg_frame [a]); [apply frame_update|set_solver]. Qed.

(** Redirects the last node of a segment. *)
Lemma lseg_redirect h a r p xs q : a ∉ xs -> lseg h p (xs ++ [a]) q -> lseg (update h a r) p (xs ++ [a]) r.
Proof.
  rewrite !lseg_app. intros Ha (s & Hx & (-> & n & Hn & _)). exists (Some a). split; [by apply lseg_update|].
  split; [done|]. eexists. split; [by apply update_eq|done].
Qed.

(** The rest of a list is the same wherever it starts, so that no node occurs in it twice. *)
Lemma lseg_det h p xs ys : lseg h p xs None -> lseg h p ys None -> xs = ys.
Proof.
  revert p ys. induction xs as [|a xs IH]; intros p [|b ys]; cbn; [done|..].
  - by intros -> [? _].
  - by intros [-> _] ?.
  - intros (-> & n & Hn & Hx) (Hb & m & Hm & Hy). simplify_eq. f_equal. eauto.
Qed.

Lemma lseg_NoDup h p xs : lseg h p xs None -> NoDup xs.
Proof.
  revert p. induction xs as [|a xs IH]; cbn; intros p; [constructor|]. intros (-> & n & Hn & Hl). constructor; [|eauto].
  intros (l1 & l2 & ->)%list_elem_of_split. pose proof Hl as Hl'. apply lseg_app in Hl' as (r & _ & -> & m & Hm & Hr).
  simplify_eq. pose proof (lseg_det _ _ _ _ Hl Hr) as He. apply (f_equal length) in He. rewrite length_app in He. cbn in He. lia.
Qed.

(** A list and its frame fix the heap. *)
Lemma relinked_det h h1 h2 xs r1 r2 ys : xs ⊆ ys -> (r1 = r2) ->
  relinked h h1 xs r1 ys -> relinked h h2 xs r2 ys -> h1 = h2.
Proof.
  intros Hs -> [H1 [F1 V1]] [H2 [F2 V2]]. apply map_eq. intros a. destruct (decide (a ∈ ys)) as [Ha|Ha].
  - apply list_elem_of_split in Ha as (l1 & l2 & ->). apply lseg_app in H1 as (s1 & _ & -> & n1 & Hn1 & H1).
    apply lseg_app in H2 as (s2 & _ & -> & n2 & Hn2 & H2). specialize (V1 a). specialize (V2 a). rewrite Hn1, Hn2 in *.
    rewrite <- V2 in V1. destruct n1 as [v1 t1], n2 as [v2 t2]. cbn in *. simplify_eq. do 2 f_equal.
    destruct l2; cbn in *; [congruence|]. destruct H1 as [-> _], H2 as [-> _]. done.
  - rewrite F1, F2; set_solver.
Qed.

(** A fresh node in front of a list, and its removal. *)
Lemma dummy_drop h d n h2 zs r ys :
  h !! d = None -> lseg h2 r ys None -> d ∉ ys -> frame (d :: zs) (<[d := n]> h) h2 -> relinked h (delete d h2) zs r ys.
Proof.
  intros Hd Hl Hn [Hf Hv]. split; [|split; intros a].
  - revert Hl. apply lseg_ext. intros a Ha. apply lookup_delete_ne. by intros ->.
  - intros Ha. destruct (decide (a = d)) as [->|Hne]; [by rewrite lookup_delete_eq|].
    rewrite lookup_delete_ne by done. rewrite Hf by set_solver. by rewrite lookup_insert_ne by done.
  - destruct (decide (a = d)) as [->|Hne]; [by rewrite lookup_delete_eq, Hd|].
    rewrite lookup_delete_ne by done. rewrite Hv. by rewrite lookup_insert_ne by done.
Qed.

Lemma with_dummy_spec h head body zs ys :
  (forall a, a ∈ ys -> is_Some (h !! a)) ->
  (forall d, h !! d = None -> exists h2, body (<[d := mk_node 0 head]> h) (Some d) = Ok h2 /\
     lseg h2 (Some d) (d :: ys) None /\ frame (d :: zs) (<[d := mk_node 0 head]> h) h2) ->
  exists h' r, with_dummy h head body = Ok (h', r) /\ relinked h h' zs r ys.
Proof.
  intros Hin Hb. unfold with_dummy, new_node. set (d := fresh (dom h)).
  assert (Hd : h !! d = None) by (apply not_elem_of_dom, is_fresh). clearbody d.
  destruct (Hb d Hd) as (h2 & E & [_ (n & Hn & Hl)] & Hf). rewrite set_next_ok by (rewrite lookup_insert_eq; eauto).
  rewrite bind_ok. unfold update. rewrite alter_insert_eq. cbn [val]. rewrite E, bind_ok, (deref_node _ _ _ Hn), bind_ok. cbn [the].
  rewrite bind_ok. do 2 eexists. split; [done|].
  eapply dummy_drop; [done|done| |done]. intros Ha. destruct (Hin _ Ha). congruence.
Qed.

Lemma lseg_insert h d n p xs q : h !! d = None -> lseg h p xs q -> lseg (<[d := n]> h) p xs q /\ d ∉ xs.
Proof.
  intros Hd Hl. assert (Hn : d ∉ xs) by (intros Hin; destruct (lseg_is_Some _ _ _ _ _ Hl Hin); congruence).
  split; [|done]. refine (lseg_ext _ _ _ _ _ _ Hl). intros a Ha. apply lookup_insert_ne. by intros ->.
Qed.

(** The common case: the node stands in front of the list that is changed. *)
Lemma with_dummy_list h head body xs ys :
  lseg h head xs None -> ys ⊆ xs ->
  (forall h d, lseg h (Some d) (d :: xs) None -> exists h2, body h (Some d) = Ok h2 /\
     lseg h2 (Some d) (d :: ys) None /\ frame (d :: xs) h h2) ->
  exists h' r, with_dummy h head body = Ok (h', r) /\ relinked h h' xs r ys.
Proof.
  intros Hl Hs Hb. apply with_dummy_spec; [intros a Ha; eapply lseg_is_Some; [done|set_solver]|].
  intros d Hd. apply Hb. split; [done|]. eexists. rewrite lookup_insert_eq. split; [done|].
  by apply lseg_insert.
Qed.

(** ** reverse_linked_list *)

Module ReverseList.

Fixpoint reverse_loop (fuel : nat) (h : heap) (pp p : ptr) : outcome (heap * ptr) :=
  match p, fuel with
  | None, _ => Ok (h, pp)
  | Some _, O => OutOfFuel
  | Some _, S fuel =>
      n ← deref h p;
      let pn := next n in
      h ← set_next h p pp;
      reverse_loop fuel h p pn
  end.

Definition reverseList (fuel : nat) (h : heap) (head : ptr) : outcome (heap * ptr) := reverse_loop fuel h None head.

(** The second version: the new head and tail. *)
Fixpoint reverse (fuel : nat) (h : heap) (head : ptr) : outcome (heap * (ptr * ptr)) :=
  match head with
  | None => Ok (h, (head, head))
  | Some _ =>
      n ← deref h head;
      match next n, fuel with
      | None, _ => Ok (h, (head, head))
      | Some _, O => OutOfFuel
      | Some _, S fuel =>
          '(h, cp) ← reverse fuel h (next n);
          h ← set_next h (snd cp) head;
          h ← set_next h head None;
          Ok (h, (fst cp, head))
      end
  end.

Definition reverseList_rec (fuel : nat) (h : heap) (head : ptr) : outcome (heap * ptr) :=
  '(h, cp) ← reverse fuel h head; Ok (h, fst cp).

Lemma reverse_loop_ok fuel h pp p xs ys :
  lseg h p xs None -> lseg h pp ys None -> NoDup (xs ++ ys) -> (length xs <= fuel)%nat ->
  exists h' r, reverse_loop fuel h pp p = Ok (h', r) /\ relinked h h' xs r (list.reverse xs ++ ys).
Proof.
  revert fuel h pp p ys. induction xs as [|a xs IH]; intros fuel h pp p ys Hx Hy Hd Hf.
  - cbn in Hx. subst p. exists h, pp. split; [by destruct fuel|]. by split.
  - destruct Hx as (-> & n & Hn & Hx), fuel as [|fuel]; [cbn in Hf; lia|]. cbn [reverse_loop].
    rewrite (deref_node _ _ _ Hn), bind_ok, set_next_ok, bind_ok by eauto. apply NoDup_cons in Hd as [Ha Hd].
    destruct (IH fuel (update h a pp) (Some a) (next n) (a :: ys)) as (h' & r & -> & Hl & Hfr).
    + apply lseg_update; [set_solver|done].
    + split; [done|]. eexists. split; [by apply update_eq|]. apply lseg_update; [set_solver|done].
    + by rewrite <- Permutation_middle, NoDup_cons.
    + cbn in Hf. lia.
    + exists h', r. split; [done|]. split; [by rewrite reverse_cons, <- app_assoc|].
      etrans; [apply (frame_weaken [a]); [set_solver|apply frame_update]|apply (frame_weaken xs); [set_solver|done]].
Qed.

Lemma reverse_ok fuel h a xs :
  lseg h (Some a) (a :: xs) None -> (length xs <= fuel)%nat ->
  exists h' r, reverse fuel h (Some a) = Ok (h', (r, Some a)) /\ relinked h h' (a :: xs) r (list.reverse (a :: xs)).
Proof.
  revert fuel h a. induction xs as [|b xs IH]; intros fuel h a Hl Hf; pose proof (lseg_NoDup _ _ _ Hl) as Hd;
    destruct Hl as (_ & n & Hn & Hl).
  - exists h, (Some a). cbn in Hl. split; [|split; [|done]].
    + destruct fuel; cbn [reverse]; rewrite (deref_node _ _ _ Hn), bind_ok, Hl; done.
    + split; [done|]. eauto.
  - destruct fuel as [|fuel]; [cbn in Hf; lia|]. cbn [reverse]. rewrite (deref_node _ _ _ Hn), bind_ok.
    pose proof Hl as [Hb _]. rewrite Hb in *.
    destruct (IH fuel h b Hl) as (h1 & r & -> & Hr & Hfr); [cbn in Hf; lia|]. rewrite bind_ok. cbn [snd fst].
    apply NoDup_cons in Hd as [Ha Hd]. rewrite reverse_cons in Hr.
    assert (Hs1 : is_Some (h1 !! b)) by (eapply lseg_is_Some; [done|set_solver]).
    rewrite set_next_ok, bind_ok by done.
    assert (Hs2 : is_Some (update h1 b (Some a) !! a)).
    { eapply frame_is_Some; [apply frame_update|]. eapply frame_is_Some; eauto. }
    rewrite set_next_ok, bind_ok by done. do 2 eexists. split; [done|]. split.
    + rewrite !reverse_cons. apply lseg_app. exists (Some a). split.
      * apply lseg_update; [set_solver|]. apply (lseg_redirect _ _ _ _ _ None); [|done].
        apply NoDup_cons in Hd as [Hb' _]. set_solver.
      * split; [done|]. destruct Hs2 as [m Hm]. eexists. split; [by apply update_eq|done].
    + etrans; [apply (frame_weaken (b :: xs)); [set_solver|done]|].
      etrans; [apply (frame_weaken [b]); [set_solver|apply frame_update]|].
      apply (frame_weaken [a]); [set_solver|apply frame_update].
Qed.

(** The loop ends; the list is then made of the same nodes in reverse order, and no other node has changed. *)
Theorem reverse_list_reverses fuel h head xs :
  lseg h head xs None -> (length xs <= fuel)%nat ->
  exists h' r, reverseList fuel h head = Ok (h', r) /\ relinked h h' xs r (list.reverse xs).
Proof.
  intros Hl Hf. rewrite <- (app_nil_r (list.reverse xs)). apply reverse_loop_ok; [done|done| |done].
  rewrite app_nil_r. by eapply lseg_NoDup.
Qed.

(** The recursive version leaves the same heap and returns the same head. *)
Theorem reverse_versions_agree fuel h head xs :
  lseg h head xs None -> (length xs <= fuel)%nat -> reverseList_rec fuel h head = reverseList fuel h head.
Proof.
  intros Hl Hf. destruct (reverse_loop_ok fuel h None head xs []) as (h1 & r1 & E & H1); [done|done| |done|].
  { rewrite app_nil_r. by eapply lseg_NoDup. }
  unfold reverseList_rec, reverseList. rewrite E. rewrite app_nil_r in H1. destruct xs as [|a xs].
  - cbn in Hl. subst head. by destruct fuel; cbn in *; simplify_eq.
  - pose proof Hl as [-> _]. destruct (reverse_ok fuel h a xs) as (h2 & r2 & -> & H2); [done|cbn in Hf; lia|].
    rewrite bind_ok. cbn [fst]. assert (r1 = r2) as ->.
    { destruct (list.reverse (a :: xs)) as [|b l] eqn:E'; [apply (f_equal length) in E'; by rewrite length_reverse in E'|].
      destruct H1 as [[-> _] _], H2 as [[-> _] _]. done. }
    f_equal. f_equal. eapply relinked_det; [|done|exact H2|exact H1]. intros x. set_solver.
Qed.

End ReverseList.

(** ** Extract and insert

    What reverse_linked_list_II, reverse_nodes_in_k_group and swap_nodes_in_pair share: the node after
    [p] is taken out and put in again after [pp]. *)

Module ExtractInsert.

Definition extract_insert1 (h : heap) (pp p : ptr) : outcome heap :=
  n ← deref h p;
  let pn := next n in
  m ← deref h pn;
  h ← set_next h p (next m);
  l ← deref h pp;
  h ← set_next h pn (next l);
  set_next h pp pn.

Fixpoint extract_insert (k : nat) (h : heap) (pp p : ptr) : outcome heap :=
  match k with
  | O => Ok h
  | S k => h ← extract_insert1 h pp p; extract_insert k h pp p
  end.

Lemma extract_insert1_ok h pp ys p q zs r :
  lseg h (Some pp) (pp :: ys ++ p :: q :: zs) r -> NoDup (pp :: ys ++ p :: q :: zs) ->
  exists h', extract_insert1 h (Some pp) (Some p) = Ok h' /\
    lseg h' (Some pp) (pp :: q :: ys ++ p :: zs) r /\ frame [pp; p; q] h h'.
Proof.
  intros (_ & l & Hl & Hy) Hd. apply NoDup_cons in Hd as [Hpp Hd]. apply NoDup_app in Hd as (Hdy & Hyz & Hd).
  apply NoDup_cons in Hd as [Hp Hd]. apply NoDup_cons in Hd as [Hq Hd].
  apply lseg_app in Hy as (s & Hy & -> & n & Hn & Hnq & m & Hm & Hz).
  assert (pp <> p /\ pp <> q /\ p <> q) as (N1 & N2 & N3) by set_solver.
  unfold extract_insert1. rewrite (deref_node _ _ _ Hn), bind_ok, Hnq, (deref_node _ _ _ Hm), bind_ok.
  rewrite set_next_ok, bind_ok by eauto. set (h1 := update h p (next m)).
  assert (H1 : h1 !! pp = Some l) by (unfold h1; by rewrite update_ne by done).
  assert (H2 : h1 !! q = Some m) by (unfold h1; by rewrite update_ne by done).
  rewrite (deref_node _ _ _ H1), bind_ok, set_next_ok, bind_ok by eauto. set (h2 := update h1 q (next l)).
  assert (H3 : h2 !! pp = Some l) by (unfold h2; by rewrite update_ne by done).
  rewrite set_next_ok by eauto. eexists. split; [done|]. set (h3 := update h2 pp (Some q)).
  assert (Hf : frame [pp; p; q] h h3).
  { etrans; [apply (frame_weaken [p]); [set_solver|apply frame_update]|].
    etrans; [apply (frame_weaken [q]); [set_solver|apply frame_update]|].
    apply (frame_weaken [pp]); [set_solver|apply frame_update]. }
  split; [|done]. split; [done|]. eexists. split; [by apply update_eq|]. split; [done|]. eexists. split.
  { unfold h3, h2. rewrite update_ne by done. by apply update_eq. }
  cbn [next]. apply lseg_app. exists (Some p). split.
  - eapply lseg_frame; [exact Hf| |exact Hy]. intros x. set_solver.
  - split; [done|]. eexists. split; [unfold h3, h2; rewrite !update_ne by done; by apply update_eq|]. cbn [next].
    eapply lseg_frame; [exact Hf| |exact Hz]. intros x. set_solver.
Qed.

(** After [k] rounds the [k] nodes after [p] stand before it, in reverse order. *)
Lemma extract_insert_ok k h pp ys p zs r :
  lseg h (Some pp) (pp :: ys ++ p :: zs) r -> NoDup (pp :: ys ++ p :: zs) -> (k <= length zs)%nat ->
  exists h', extract_insert k h (Some pp) (Some p) = Ok h' /\
    lseg h' (Some pp) (pp :: list.reverse (take k zs) ++ ys ++ p :: drop k zs) r /\ frame (pp :: p :: zs) h h'.
Proof.
  revert h ys zs. induction k as [|k IH]; intros h ys zs Hl Hd Hk.
  - exists h. split; [done|]. split; [|done]. exact Hl.
  - destruct zs as [|q zs]; [cbn in Hk; lia|]. cbn [extract_insert].
    destruct (extract_insert1_ok _ _ _ _ _ _ _ Hl Hd) as (h1 & -> & Hl1 & Hf1). rewrite bind_ok.
    assert (Hp : pp :: (q :: ys) ++ p :: zs ≡ₚ pp :: ys ++ p :: q :: zs).
    { cbn. f_equiv. rewrite (Permutation_swap q p). exact (Permutation_middle ys (p :: zs) q). }
    destruct (IH h1 (q :: ys) zs) as (h2 & -> & Hl2 & Hf2); [exact Hl1|by rewrite Hp|cbn in Hk; lia|].
    exists h2. split; [done|]. split.
    + cbn [take drop]. by rewrite reverse_cons, <- app_assoc.
    + etrans; [apply (frame_weaken [pp; p; q]); [set_solver|done]|apply (frame_weaken (pp :: p :: zs)); [set_solver|done]].
Qed.

(** *** reverse_linked_list_II *)

(** [for (; pos < m; ++pos) pp = pp->next;] and the like: [k] steps along the list. *)
Fixpoint walk (k : nat) (h : heap) (p : ptr) : outcome ptr :=
  match k with
  | O => Ok p
  | S k => n ← deref h p; walk k h (next n)
  end.

(** [pos] is 1 before the first loop, hence the greater of 1 and [m] before the second. *)
Definition reverseBetween (h : heap) (head : ptr) (m n : Z) : outcome (heap * ptr) :=
  match head with
  | None => Ok (h, None)
  | Some _ =>
      with_dummy h head (fun h dummy =>
        pp ← walk (Z.to_nat (m - 1)) h dummy;
        l ← deref h pp;
        extract_insert (Z.to_nat (n - Z.max 1 m)) h pp (next l))
  end.

Lemma walk_ok h p xs a q : lseg h p (xs ++ [a]) q -> walk (length xs) h p = Ok (Some a).
Proof.
  revert p. induction xs as [|b xs IH]; cbn; intros p; [by intros [-> _]|].
  intros (-> & n & Hn & Hl). rewrite (deref_node _ _ _ Hn), bind_ok. eauto.
Qed.

Definition reverse_range (m n : nat) (xs : list positive) : list positive :=
  take (m - 1) xs ++ list.reverse (take (n - m + 1) (drop (m - 1) xs)) ++ drop n xs.

(** The nodes from the [m]-th to the [n]-th are reversed in place. *)
Theorem reverse_between_reverses h head xs (m n : nat) :
  lseg h head xs None -> (1 <= m <= n)%nat -> (n <= length xs)%nat ->
  exists h' r, reverseBetween h head (Z.of_nat m) (Z.of_nat n) = Ok (h', r) /\ relinked h h' xs r (reverse_range m n xs).
Proof.
  intros Hl Hm Hn. unfold reverseBetween. destruct xs as [|a xs]; [cbn in Hn; lia|]. pose proof Hl as [-> _].
  remember (a :: xs) as l eqn:El. clear El.
  assert (exists pre p mid post, l = pre ++ p :: mid ++ post /\ length pre = (m - 1)%nat /\ length mid = (n - m)%nat)
    as (pre & p & mid & post & -> & Hpre & Hmid).
  { exists (take (m - 1) l). destruct (drop (m - 1) l) as [|p rest] eqn:E; [apply (f_equal length) in E; rewrite length_drop in E; cbn in E; lia|].
    exists p, (take (n - m) rest), (drop (n - m) rest). apply (f_equal length) in E as E'. rewrite length_drop in E'. cbn in E'.
    split_and!; [rewrite take_drop, <- E; by rewrite take_drop|rewrite length_take; lia|rewrite length_take; lia]. }
  assert (reverse_range m n (pre ++ p :: mid ++ post) = pre ++ list.reverse mid ++ p :: post) as ->.
  { unfold reverse_range. rewrite <- Hpre, take_app_length, drop_app_length, Nat.add_1_r. cbn [take].
    assert (drop n (pre ++ p :: mid ++ post) = post) as ->.
    { replace n with (length (pre ++ p :: mid)) by (rewrite length_app; cbn; lia).
      replace (pre ++ p :: mid ++ post) with ((pre ++ p :: mid) ++ post) by (by rewrite <- app_assoc). apply drop_app_length. }
    by rewrite <- Hmid, take_app_length, reverse_cons, <- app_assoc. }
  apply with_dummy_list; [done|intros x; set_solver|]. clear Hl h. intros h d Hl. pose proof (lseg_NoDup _ _ _ Hl) as Hd.
  assert (exists before pp, d :: pre = before ++ [pp] /\ length before = (m - 1)%nat) as (before & pp & E & Hb).
  { destruct pre as [|x pre _] using rev_ind; [by exists [], d|]. exists (d :: pre), x. split; [done|]. rewrite length_app in Hpre. cbn in *. lia. }
  assert (El : d :: pre ++ p :: mid ++ post = before ++ pp :: p :: mid ++ post).
  { rewrite app_comm_cons, E, <- app_assoc. done. }
  rewrite El in *. apply lseg_app in Hl as (s & Hbl & Hl). pose proof Hl as (-> & nd & Hnd & Hp & _).
  replace (Z.to_nat (Z.of_nat m - 1)) with (length before) by lia. rewrite (walk_ok _ _ before pp (next nd)).
  2:{ apply lseg_app. exists (Some pp). split; [done|]. split; [done|]. by exists nd. }
  rewrite bind_ok, (deref_node _ _ _ Hnd), bind_ok, Hp.
  replace (Z.to_nat (Z.of_nat n - Z.max 1 (Z.of_nat m))) with (length mid) by lia. pose proof Hd as Hd'. apply NoDup_app in Hd' as (Hdb & Hdis & Hd').
  destruct (extract_insert_ok (length mid) h pp [] p (mid ++ post) None) as (h' & -> & Hl' & Hf); [done|done|rewrite length_app; lia|].
  exists h'. split; [done|]. rewrite take_app_length, drop_app_length in Hl'. split.
  - rewrite app_comm_cons, E, <- app_assoc. apply lseg_app. exists (Some pp). split; [|done].
    eapply lseg_frame; [exact Hf| |exact Hbl]. intros x Hx1 Hx2. apply (Hdis x); set_solver.
  - apply (frame_weaken (pp :: p :: mid ++ post)); [set_solver|done].
Qed.

(** *** reverse_nodes_in_k_group *)

Fixpoint has_k_nodes (k : nat) (h : heap) (p : ptr) : outcome bool :=
  match k, p with
  | O, _ => Ok true
  | S _, None => Ok false
  | S k, Some _ => n ← deref h p; has_k_nodes k h (next n)
  end.

Fixpoint group_loop (fuel : nat) (k : Z) (h : heap) (pp p : ptr) : outcome heap :=
  b ← has_k_nodes (Z.to_nat k) h p;
  match b, fuel with
  | false, _ => Ok h
  | true, O => OutOfFuel
  | true, S fuel =>
      h ← extract_insert (Z.to_nat (k - 1)) h pp p;
      n ← deref h p;
      group_loop fuel k h p (next n)
  end.

Definition reverseKGroup (fuel : nat) (h : heap) (head : ptr) (k : Z) : outcome (heap * ptr) :=
  match head with
  | None => Ok (h, None)
  | Some _ => with_dummy h head (fun h dummy => group_loop fuel k h dummy head)
  end.

(** Groups of [k] are reversed, what is left over is not. *)
Inductive grouped (k : nat) : list positive -> list positive -> Prop :=
| grouped_rest xs : (length xs < k)%nat -> grouped k xs xs
| grouped_group g xs ys : length g = k -> grouped k xs ys -> grouped k (g ++ xs) (list.reverse g ++ ys).

Lemma grouped_Permutation k xs ys : grouped k xs ys -> ys ≡ₚ xs.
Proof. induction 1 as [|g xs ys _ _ IH]; [done|]. by rewrite reverse_Permutation, IH. Qed.

Lemma grouped_total k xs : exists ys, grouped (S k) xs ys.
Proof.
  remember (length xs) as n eqn:E. revert xs E. induction (lt_wf n) as [n _ IH]; intros xs ->.
  destruct (decide (length xs < S k)%nat) as [Hs|Hs]; [eexists; by constructor|].
  destruct (IH (length (drop (S k) xs)) ltac:(rewrite length_drop; lia) (drop (S k) xs) eq_refl) as [ys Hys].
  exists (list.reverse (take (S k) xs) ++ ys). rewrite <- (take_drop (S k) xs) at 1. constructor; [rewrite length_take; lia|done].
Qed.

Lemma grouped_det k xs ys zs : grouped k xs ys -> grouped k xs zs -> ys = zs.
Proof.
  intros Hy. revert zs. induction Hy as [l Hs|g l ys Hg _ IH]; intros zs H; inversion H as [l' Hs' E1 E2|g' l' zs' Hg' H' E1]; subst; [done|..].
  - rewrite length_app in Hs. lia.
  - rewrite length_app in Hs'. lia.
  - apply app_inj_1 in E1 as [-> ->]; [|done]. by rewrite (IH zs').
Qed.

Lemma has_k_nodes_ok k h p xs : lseg h p xs None -> has_k_nodes k h p = Ok (bool_decide (k <= length xs)%nat).
Proof.
  revert p xs. induction k as [|k IH]; intros p xs; [done|]. destruct xs as [|a xs]; cbn [lseg]; [by intros ->|].
  intros (-> & n & Hn & Hl). cbn [has_k_nodes]. rewrite (deref_node _ _ _ Hn), bind_ok, (IH _ _ Hl). f_equal.
  apply bool_decide_ext. cbn. lia.
Qed.

Lemma group_loop_groups fuel k h pp p xs :
  lseg h (Some pp) (pp :: xs) None -> lseg h p xs None -> (length xs <= fuel)%nat ->
  exists h' ys, group_loop fuel (Z.of_nat (S k)) h (Some pp) p = Ok h' /\ grouped (S k) xs ys /\
    lseg h' (Some pp) (pp :: ys) None /\ frame (pp :: xs) h h'.
Proof.
  revert h pp p xs. induction fuel as [|fuel IH]; intros h pp p xs Hl Hp Hf; cbn [group_loop];
    rewrite Nat2Z.id, (has_k_nodes_ok _ _ _ _ Hp), bind_ok; case_bool_decide as Hk.
  - lia.
  - exists h, xs. split; [done|]. split; [constructor; lia|done].
  - destruct xs as [|a zs]; [cbn in Hk; lia|]. pose proof Hp as [-> _]. cbn in Hk, Hf. pose proof (lseg_NoDup _ _ _ Hl) as Hd.
    replace (Z.to_nat (Z.of_nat (S k) - 1)) with k by lia.
    destruct (extract_insert_ok k h pp [] a zs None) as (h1 & -> & Hl1 & Hf1); [done|done|lia|]. rewrite bind_ok. cbn [app] in Hl1.
    pose proof (take_drop k zs) as Hz. remember (take k zs) as g. remember (drop k zs) as rest.
    assert (length g = k) by (subst g; rewrite length_take; lia). rewrite app_comm_cons in Hl1.
    apply lseg_app in Hl1 as (s & Hg & Hr). pose proof Hr as (-> & n & Hn & Hnx). rewrite (deref_node _ _ _ Hn), bind_ok.
    destruct (IH h1 a (next n) rest) as (h' & ys & E & Hgr & Hl' & Hf'); [done|done|subst rest; rewrite length_drop; lia|].
    rewrite <- Hz in Hd, Hf1 |- *. exists h', (list.reverse (a :: g) ++ ys). split; [done|]. split; [|split].
    + rewrite app_comm_cons. apply grouped_group; [cbn; lia|done].
    + rewrite reverse_cons, <- app_assoc, app_comm_cons. apply lseg_app. exists (Some a). split; [|done].
      eapply lseg_frame; [exact Hf'| |exact Hg]. rewrite !NoDup_cons, NoDup_app in Hd. intros x. set_solver.
    + etrans; [exact Hf1|]. apply (frame_weaken (a :: rest)); [intros x; set_solver|done].
  - exists h, xs. split; [done|]. split; [constructor; lia|done].
Qed.

Lemma reverse_groups_ok fuel h head xs k :
  lseg h head xs None -> (length xs <= fuel)%nat ->
  exists h' r ys, reverseKGroup fuel h head (Z.of_nat (S k)) = Ok (h', r) /\ grouped (S k) xs ys /\ relinked h h' xs r ys.
Proof.
  intros Hl Hf. unfold reverseKGroup. destruct xs as [|a xs].
  - cbn in Hl. subst head. exists h, None, []. split; [done|]. split; [constructor; cbn; lia|]. by split.
  - pose proof Hl as [-> _]. remember (a :: xs) as l eqn:El. destruct (grouped_total k l) as [ys Hg].
    destruct (with_dummy_list h (Some a) (fun h dummy => group_loop fuel (Z.of_nat (S k)) h dummy (Some a)) l ys) as (h' & r & E & H).
    + done.
    + rewrite (grouped_Permutation _ _ _ Hg). done.
    + clear Hl h. intros h d Hl. pose proof Hl as (_ & n & Hn & Hl'). pose proof Hl' as Hl2. rewrite El in Hl2. destruct Hl2 as [Hx _].
      rewrite Hx in Hl'. destruct (group_loop_groups fuel k h d (Some a) l) as (h2 & zs & E & Hz & H); [done|done|done|].
      rewrite (grouped_det _ _ _ _ Hz Hg) in H. eauto.
    + exists h', r, ys. split; [exact E|]. by split.
Qed.

(** The loop ends; every full group of [k] nodes is reversed, and nothing else is. *)
Theorem reverse_k_groups fuel h head xs (k : Z) :
  lseg h head xs None -> 1 <= k -> (length xs <= fuel)%nat ->
  exists h' r ys, reverseKGroup fuel h head k = Ok (h', r) /\ grouped (Z.to_nat k) xs ys /\ relinked h h' xs r ys.
Proof.
  intros Hl Hk Hf. replace k with (Z.of_nat (S (Z.to_nat (k - 1)))) by lia. rewrite Nat2Z.id. by apply reverse_groups_ok.
Qed.

(** *** swap_nodes_in_pair *)

Fixpoint swap_loop (fuel : nat) (h : heap) (pp p : ptr) : outcome heap :=
  match p with
  | None => Ok h
  | Some _ =>
      n ← deref h p;
      match next n, fuel with
      | None, _ => Ok h
      | Some _, O => OutOfFuel
      | Some _, S fuel =>
          h ← extract_insert1 h pp p;
          n ← deref h p;
          swap_loop fuel h p (next n)
      end
  end.

Definition swapPairs (fuel : nat) (h : heap) (head : ptr) : outcome (heap * ptr) :=
  match head with
  | None => Ok (h, None)
  | Some _ => with_dummy h head (fun h dummy => swap_loop fuel h dummy head)
  end.

(** Pairs are groups of two. *)
Lemma swap_group_loop fuel h pp p h' : group_loop fuel 2 h pp p = Ok h' -> swap_loop fuel h pp p = Ok h'.
Proof.
  revert h pp p. induction fuel as [|fuel IH]; intros h pp p; cbn [swap_loop group_loop]; change (Z.to_nat 2) with 2%nat;
    destruct p as [a|]; try done; cbn [has_k_nodes]; destruct (deref h (Some a)) as [n| | |]; try done; rewrite !bind_ok;
    destruct (next n) as [b|]; try done; cbn [has_k_nodes]; destruct (deref h (Some b)) as [m| | |]; try done.
  rewrite !bind_ok. change (Z.to_nat (2 - 1)) with 1%nat. cbn [extract_insert].
  destruct (extract_insert1 h pp (Some a)) as [h1| | |]; try done. rewrite !bind_ok.
  destruct (deref h1 (Some a)) as [l| | |]; try done. rewrite !bind_ok. apply IH.
Qed.

Lemma with_dummy_mono h head body body' h' r :
  (forall h d h', body h d = Ok h' -> body' h d = Ok h') ->
  with_dummy h head body = Ok (h', r) -> with_dummy h head body' = Ok (h', r).
Proof.
  intros Hb. unfold with_dummy. destruct (new_node h 0) as [d h1]. destruct (set_next h1 d head) as [h2| | |]; try done.
  rewrite !bind_ok. destruct (body h2 d) as [h3| | |] eqn:E; try done. by rewrite (Hb _ _ _ E).
Qed.

(** Swapping pairs is reversing groups of two: it ends, and a last odd node stays. *)
Theorem swap_pairs_groups fuel h head xs :
  lseg h head xs None -> (length xs <= fuel)%nat ->
  exists h' r ys, swapPairs fuel h head = Ok (h', r) /\ reverseKGroup fuel h head 2 = Ok (h', r) /\
    grouped 2 xs ys /\ relinked h h' xs r ys.
Proof.
  intros Hl Hf. destruct (reverse_groups_ok fuel h head xs 1 Hl Hf) as (h' & r & ys & E & H).
  exists h', r, ys. split; [|by split]. unfold swapPairs, reverseKGroup in *. destruct head as [a|]; [|exact E].
  eapply with_dummy_mono; [|exact E]. intros. by apply swap_group_loop.
Qed.

End ExtractInsert.

(** ** remove_nth_node_from_end_of_list *)

Module RemoveNth.

Import ExtractInsert.

Fixpoint advance (fuel : nat) (h : heap) (fast slow : ptr) : outcome ptr :=
  n ← deref h fast;
  match next n, fuel with
  | None, _ => Ok slow
  | Some _, O => OutOfFuel
  | Some _, S fuel => m ← deref h slow; advance fuel h (next n) (next m)
  end.

Definition removeNthFromEnd (fuel : nat) (h : heap) (head : ptr) (n : Z) : outcome (heap * ptr) :=
  with_dummy h head (fun h dummy =>
    fast ← walk (Z.to_nat n) h dummy;
    slow ← advance fuel h fast dummy;
    s ← deref h slow;
    let pn := next s in
    l ← deref h pn;
    set_next h slow (next l)).

Lemma split_at (k : nat) (xs : list positive) :
  (k < length xs)%nat -> exists pre t post, xs = pre ++ t :: post /\ length pre = k.
Proof.
  intros [t Ht]%lookup_lt_is_Some. exists (take k xs), t, (drop (S k) xs). split; [by rewrite take_drop_middle|].
  apply lookup_lt_Some in Ht. rewrite length_take. lia.
Qed.

Lemma advance_ok fuel h f fs z s ss q r :
  lseg h f (fs ++ [z]) None -> lseg h s (ss ++ [q]) r -> length fs = length ss -> (length ss <= fuel)%nat ->
  advance fuel h f s = Ok (Some q).
Proof.
  revert fuel f s ss. induction fs as [|a fs IH]; intros fuel f s [|b ss]; try done; cbn [app lseg length].
  - intros (-> & n & Hn & Hz) (-> & m & Hm & _) _ _. destruct fuel; cbn [advance]; by rewrite (deref_node _ _ _ Hn), bind_ok, Hz.
  - intros (-> & n & Hn & Hf) (-> & m & Hm & Hs) Hl Hfuel. destruct fuel as [|fuel]; [lia|]. cbn [advance].
    rewrite (deref_node _ _ _ Hn), bind_ok. assert (exists c, next n = Some c) as [c Hc] by (destruct fs; destruct Hf; eauto).
    rewrite Hc, (deref_node _ _ _ Hm), bind_ok, <- Hc. apply (IH _ _ _ ss); [done|done|lia|lia].
Qed.

Lemma walk_past k h p xs : lseg h p xs None -> (length xs <= k)%nat -> walk k h p = Ok None \/ walk k h p = Undef.
Proof.
  revert p xs. induction k as [|k IH]; intros p [|a xs]; cbn [lseg length walk].
  - intros -> _. by left.
  - lia.
  - intros -> _. by right.
  - intros (-> & n & Hn & Hl) Hk. rewrite (deref_node _ _ _ Hn), bind_ok. apply (IH _ xs); [done|lia].
Qed.

Lemma with_dummy_undef h head body xs :
  lseg h head xs None -> (forall h d, lseg h (Some d) (d :: xs) None -> body h (Some d) = Undef) ->
  with_dummy h head body = Undef.
Proof.
  intros Hl Hb. unfold with_dummy, new_node. set (d := fresh (dom h)).
  assert (Hd : h !! d = None) by (apply not_elem_of_dom, is_fresh). clearbody d.
  rewrite set_next_ok by (rewrite lookup_insert_eq; eauto). rewrite bind_ok. unfold update. rewrite alter_insert_eq. cbn [val].
  rewrite Hb; [done|]. split; [done|]. eexists. rewrite lookup_insert_eq. split; [done|].
  by apply lseg_insert.
Qed.

(** The [n]-th node from the end is taken out. *)
Theorem remove_nth_removes fuel h head xs (n : Z) :
  lseg h head xs None -> 1 <= n <= Z.of_nat (length xs) -> (length xs <= fuel)%nat ->
  exists h' r, removeNthFromEnd fuel h head n = Ok (h', r) /\
    relinked h h' xs r (delete (length xs - Z.to_nat n)%nat xs).
Proof.
  intros Hl Hn Hf. destruct (split_at (length xs - Z.to_nat n) xs) as (pre & t & post & Hxs & Hpre); [lia|]. rewrite <- Hpre.
  replace (delete (length pre) xs) with (pre ++ post) by (rewrite Hxs; by rewrite delete_middle).
  apply with_dummy_list; [done|rewrite Hxs; intros x; set_solver|]. clear Hl h. intros h d Hl. pose proof (lseg_NoDup _ _ _ Hl) as Hd.
  destruct (split_at (Z.to_nat n) (d :: xs)) as (P & f & R & HP & Hlen); [cbn; lia|].
  destruct (split_at (length pre) (d :: pre)) as (A & s & [|? ?] & HA & HlA); [cbn; lia| |apply (f_equal length) in HA; rewrite length_app in HA; cbn in HA; lia].
  assert (Hall : d :: xs = (A ++ [s]) ++ t :: post) by (by rewrite <- HA, Hxs).
  pose proof Hl as Hw. rewrite HP, cons_middle, app_assoc in Hw. apply lseg_app in Hw as (q & Hw & HR).
  rewrite <- Hlen, (walk_ok _ _ _ _ _ Hw), bind_ok. apply lseg_app in Hw as (? & _ & -> & nf & Hnf & Hq). cbn in Hq.
  assert (Hff : lseg h (Some f) (f :: R) None) by (split; [done|]; exists nf; split; [done|]; by rewrite Hq).
  destruct (exists_last (l := f :: R)) as (fs & z & Hz); [done|]. rewrite Hz in Hff.
  assert (length fs = length A).
  { apply (f_equal length) in HP, Hz, Hall. rewrite !length_app in *. cbn in *. lia. }
  rewrite Hall in Hl. apply lseg_app in Hl as (q' & HAs & -> & nt & Hnt & Hpost).
  assert (length A <= fuel)%nat by (apply (f_equal length) in Hxs; rewrite length_app in Hxs; lia).
  rewrite (advance_ok _ _ _ fs z _ A s (Some t)) by done. rewrite bind_ok. pose proof HAs as HAs'.
  apply lseg_app in HAs as (? & _ & -> & ns & Hns & Hnext). cbn in Hnext. rewrite (deref_node _ _ _ Hns), bind_ok, Hnext. cbv zeta. rewrite (deref_node _ _ _ Hnt), bind_ok.
  rewrite set_next_ok by eauto. eexists. split; [done|]. rewrite Hall in Hd. apply NoDup_app in Hd as (HdA & Hdis & Hdt).
  apply NoDup_app in HdA as (_ & HAs2 & _). split.
  - rewrite app_comm_cons, HA. apply lseg_app. exists (next nt). split.
    + apply (lseg_redirect _ _ _ _ _ (Some t)); [|done]. intros Hs. apply (HAs2 s); set_solver.
    + apply lseg_update; [|done]. intros Hs. apply (Hdis s); set_solver.
  - rewrite Hall. apply (frame_weaken [s]); [set_solver|apply frame_update].
Qed.

(** With any other [n] the code follows a null pointer. *)
Theorem remove_nth_undefined fuel h head xs (n : Z) :
  lseg h head xs None -> ~ (1 <= n <= Z.of_nat (length xs)) -> (length xs <= fuel)%nat ->
  removeNthFromEnd fuel h head n = Undef.
Proof.
  intros Hl Hn Hf. eapply with_dummy_undef; [done|]. clear Hl h. intros h d Hl. destruct (decide (n <= 0)) as [H0|H0].
  - replace (Z.to_nat n) with 0%nat by lia. cbn [walk]. rewrite bind_ok.
    assert (exists ys z, d :: xs = ys ++ [z]) as (ys & z & E) by (destruct (exists_last (l := d :: xs)) as (ys & z & ->); [done|eauto]).
    assert (length ys = length xs) as Hlen by (apply (f_equal length) in E; rewrite length_app in E; cbn in E; lia).
    rewrite E in Hl. rewrite (advance_ok _ _ _ ys z _ ys z None) by (done || lia). rewrite bind_ok.
    apply lseg_app in Hl as (s & _ & -> & m & Hm & Hnx). rewrite (deref_node _ _ _ Hm), bind_ok. cbn in Hnx. cbv zeta. by rewrite Hnx.
  - destruct (walk_past (Z.to_nat n) h (Some d) (d :: xs)) as [->| ->]; [done|cbn; lia| |done]. by destruct fuel.
Qed.

End RemoveNth.

(** ** merge_two_sorted_lists, merge_k_sorted_lists *)

Module MergeLists.

(** [if (l) p->next = l;] *)
Definition append_rest (h : heap) (p l : ptr) : outcome heap :=
  match l with Some _ => set_next h p l | None => Ok h end.

Fixpoint merge_loop (fuel : nat) (h : heap) (p l1 l2 : ptr) : outcome heap :=
  match l1, l2, fuel with
  | Some _, Some _, O => OutOfFuel
  | Some _, Some _, S fuel =>
      n1 ← deref h l1;
      n2 ← deref h l2;
      if val n1 <? val n2 then
        h ← set_next h p l1;
        n1 ← deref h l1;
        np ← deref h p;
        merge_loop fuel h (next np) (next n1) l2
      else
        h ← set_next h p l2;
        n2 ← deref h l2;
        np ← deref h p;
        merge_loop fuel h (next np) l1 (next n2)
  | _, _, _ => h ← append_rest h p l1; append_rest h p l2
  end.

(** The node that the merged list hangs from is allocated and never freed. *)
Definition mergeTwoLists (fuel : nat) (h : heap) (l1 l2 : ptr) : outcome (heap * ptr) :=
  let '(dummy, h) := new_node h 0 in
  h ← merge_loop fuel h dummy l1 l2;
  n ← deref h dummy;
  Ok (h, next n).

Definition merge_two_lists (fuel : nat) (h : heap) (l1 l2 : ptr) : outcome (heap * ptr) :=
  with_dummy h None (fun h dummy => merge_loop fuel h dummy l1 l2).

(** [for (auto l = 0; l < r; ++l, --r)] *)
Fixpoint merge_round (fuel : nat) (loop : nat) (h : heap) (lists : list ptr) (l r : nat) : outcome (heap * list ptr * nat) :=
  if decide (l < r)%nat then
    match loop with
    | O => OutOfFuel
    | S loop =>
        l1 ← the (lists !! l);
        l2 ← the (lists !! r);
        '(h, new_list) ← merge_two_lists fuel h l1 l2;
        merge_round fuel loop h (<[l := new_list]> lists) (S l) (r - 1)
    end
  else Ok (h, lists, r).

(** [while (r > 0)] *)
Fixpoint merge_rounds (fuel : nat) (loop : nat) (h : heap) (lists : list ptr) (r : nat) : outcome (heap * list ptr) :=
  match r, loop with
  | O, _ => Ok (h, lists)
  | S _, O => OutOfFuel
  | S _, S loop =>
      '(h, lists, r) ← merge_round fuel r h lists 0 r;
      merge_rounds fuel loop h lists r
  end.

Definition mergeKLists (fuel : nat) (h : heap) (lists : list ptr) : outcome (heap * ptr) :=
  match lists with
  | [] => Ok (h, None)
  | _ =>
      let r := (length lists - 1)%nat in
      '(h, lists) ← merge_rounds fuel r h lists r;
      p ← the (lists !! 0%nat);
      Ok (h, p)
  end.

(** *** Merging nodes by their values *)

Definition smaller (h : heap) (a b : positive) : Prop := value h a < value h b.

#[export] Instance smaller_dec h : RelDecision (smaller h).
Proof. intros a b. unfold smaller. apply _. Defined.

Definition merged (h : heap) : list positive -> list positive -> list positive := list_merge (smaller h).

Definition sorted (h : heap) (xs : list positive) : Prop := StronglySorted Z.le (vals h xs).

Lemma merged_nil_r h xs : merged h xs [] = xs.
Proof. by destruct xs. Qed.

Lemma merged_cons h a xs b ys :
  merged h (a :: xs) (b :: ys) = if decide (smaller h a b) then a :: merged h xs (b :: ys) else b :: merged h (a :: xs) ys.
Proof. apply list_merge_cons. Qed.

Lemma merged_Permutation h xs ys : merged h xs ys ≡ₚ xs ++ ys.
Proof. apply merge_Permutation. Qed.

Lemma merged_ext h h' xs ys : (forall a, a ∈ xs ++ ys -> value h' a = value h a) -> merged h' xs ys = merged h xs ys.
Proof.
  revert ys. induction xs as [|a xs IHx]; intros ys Hv; [by destruct ys|]. induction ys as [|b ys IHy]; [done|].
  rewrite !merged_cons, IHx by set_solver. rewrite IHy by set_solver.
  assert (smaller h' a b <-> smaller h a b) as Hiff by (unfold smaller; rewrite !Hv by set_solver; done).
  by destruct (decide (smaller h' a b)), (decide (smaller h a b)); try tauto.
Qed.

Lemma frame_value xs h h' a : frame xs h h' -> value h' a = value h a.
Proof. intros Hf. apply (frame_vals _ [a]) in Hf. by injection Hf. Qed.

Lemma sorted_cons h a xs : sorted h (a :: xs) <-> sorted h xs /\ forall b, b ∈ xs -> value h a <= value h b.
Proof.
  unfold sorted, vals. cbn [map]. split.
  - intros H. apply StronglySorted_inv in H as [Hs Hf]. split; [done|]. intros b Hb. rewrite Forall_forall in Hf. apply Hf.
    by apply list_elem_of_fmap_2.
  - intros [Hs Hf]. constructor; [done|]. apply Forall_forall. intros v (b & -> & Hb)%list_elem_of_fmap. eauto.
Qed.

Lemma sorted_merged h xs ys : sorted h xs -> sorted h ys -> sorted h (merged h xs ys).
Proof.
  revert ys. induction xs as [|a xs IHx]; intros ys Hx Hy; [by destruct ys|]. induction ys as [|b ys IHy]; [done|].
  rewrite merged_cons. pose proof Hx as Hx'. pose proof Hy as Hy'. apply sorted_cons in Hx' as [Hx' Ha], Hy' as [Hy' Hb].
  unfold smaller in *. case_decide as Hab; apply sorted_cons; (split; [auto|]); intros c; rewrite merged_Permutation.
  - intros [Hc|[->|Hc]%elem_of_cons]%elem_of_app; [auto|lia|]. specialize (Hb _ Hc). lia.
  - intros [[->|Hc]%elem_of_cons|Hc]%elem_of_app; [lia| |auto]. specialize (Ha _ Hc). lia.
Qed.

Lemma sorted_frame zs h h' xs : frame zs h h' -> sorted h xs -> sorted h' xs.
Proof. intros Hf. unfold sorted. by rewrite (frame_vals _ xs _ _ Hf). Qed.

(** *** The loop *)

Lemma prepend h h' p n a zs ws vs :
  h !! p = Some n -> lseg h' (Some a) (a :: zs) None -> frame ws (update h p (Some a)) h' -> p ∉ ws -> ws ⊆ vs ->
  lseg h' (Some p) (p :: a :: zs) None /\ frame (p :: vs) h h'.
Proof.
  intros Hn Hl Hf Hp Hs. split.
  - split; [done|]. exists (mk_node (val n) (Some a)). split; [|exact Hl]. destruct Hf as [Hf _]. rewrite Hf by done.
    by apply update_eq.
  - etrans; [apply (frame_weaken [p]); [set_solver|apply frame_update]|]. apply (frame_weaken ws); [set_solver|exact Hf].
Qed.

Lemma append_rest_ok h p n l xs ys :
  h !! p = Some n -> lseg h l xs None -> p ∉ xs -> (xs = [] -> next n = None) -> xs ⊆ ys ->
  exists h', append_rest h (Some p) l = Ok h' /\ lseg h' (Some p) (p :: xs) None /\ frame (p :: ys) h h'.
Proof.
  intros Hn Hl Hp Hnil Hs. destruct xs as [|a xs].
  - cbn in Hl. subst l. exists h. split; [done|]. split; [|done]. split; [done|]. exists n. split; [done|]. by apply Hnil.
  - pose proof Hl as [-> _]. cbn [append_rest]. rewrite set_next_ok by eauto. eexists. split; [done|].
    eapply (prepend _ _ _ _ _ _ []); [done| |done|set_solver|set_solver]. by apply lseg_update.
Qed.

Lemma link_ok h p n a na (k : heap -> ptr -> ptr -> outcome heap) :
  h !! p = Some n -> h !! a = Some na -> p <> a ->
  (h ← set_next h (Some p) (Some a);
   n1 ← deref h (Some a);
   np ← deref h (Some p);
   k h (next np) (next n1)) = k (update h p (Some a)) (Some a) (next na).
Proof.
  intros Hp Ha Hne. rewrite set_next_ok, bind_ok by eauto.
  rewrite (deref_node _ a na) by (by rewrite update_ne). rewrite bind_ok, (deref_node _ p (mk_node (val n) (Some a))) by (by apply update_eq).
  by rewrite bind_ok.
Qed.

Lemma merge_loop_ok fuel h p n l1 l2 xs ys :
  h !! p = Some n -> lseg h l1 xs None -> lseg h l2 ys None -> NoDup (p :: xs ++ ys) ->
  (xs = [] -> ys = [] -> next n = None) -> (length xs + length ys <= fuel)%nat ->
  exists h', merge_loop fuel h (Some p) l1 l2 = Ok h' /\
    lseg h' (Some p) (p :: merged h xs ys) None /\ frame (p :: xs ++ ys) h h'.
Proof.
  revert h p n l1 l2 xs ys. induction fuel as [|fuel IH]; intros h p n l1 l2 xs ys Hn Hx Hy Hd Hnil Hf;
    pose proof Hd as [Hp Hd']%NoDup_cons; rewrite elem_of_app in Hp; destruct xs as [|a xs], ys as [|b ys]; try (cbn in Hf; lia).
  1, 2: cbn in Hx, Hy; subst l1 l2; exists h; split; [done|]; split; [|done]; split; [done|]; exists n; split; [done|by apply Hnil].
  - cbn in Hx. subst l1. destruct (append_rest_ok h p n l2 (b :: ys) (b :: ys)) as (h' & E & H); [done|done|tauto|done|set_solver|].
    exists h'. split; [exact E|exact H].
  - cbn in Hy. subst l2. pose proof Hx as [-> _]. cbn [merge_loop]. rewrite merged_nil_r.
    destruct (append_rest_ok h p n (Some a) (a :: xs) ((a :: xs) ++ [])) as (h' & -> & H); [done|done|tauto|done|set_solver|].
    exists h'. split; [done|exact H].
  - pose proof Hx as (-> & na & Hna & Hx'). pose proof Hy as (-> & nb & Hnb & Hy'). cbn [merge_loop].
    rewrite (deref_node _ _ _ Hna), bind_ok, (deref_node _ _ _ Hnb), bind_ok, merged_cons.
    assert (p <> a /\ p <> b) as [Nxa Nxb] by set_solver.
    assert (smaller h a b <-> val na < val nb) as Hab by (unfold smaller, value; by rewrite Hna, Hnb).
    assert (Hv : forall q, frame [p] h (update h p q)) by (intros q; apply frame_update).
    destruct (val na <? val nb) eqn:E; zify_bool.
    + rewrite decide_True, (link_ok _ _ _ _ _ (fun h q l1 => merge_loop fuel h q l1 (Some b)) Hn Hna) by tauto.
      destruct (IH (update h p (Some a)) a na (next na) (Some b) xs (b :: ys)) as (h' & -> & Hl & Hfr);
        [by rewrite update_ne|apply lseg_update; [set_solver|done]..|exact Hd'|done|cbn in *; lia|].
      exists h'. split; [done|]. rewrite (merged_ext h) in Hl by (intros c _; apply (frame_value _ _ _ _ (Hv _))).
      eapply prepend; [done|exact Hl|exact Hfr|set_solver|set_solver].
    + rewrite decide_False, (link_ok _ _ _ _ _ (fun h q l2 => merge_loop fuel h q (Some a) l2) Hn Hnb) by (done || rewrite Hab; lia).
      assert (Hperm : b :: (a :: xs) ++ ys ≡ₚ (a :: xs) ++ b :: ys) by apply Permutation_middle.
      destruct (IH (update h p (Some b)) b nb (Some a) (next nb) (a :: xs) ys) as (h' & -> & Hl & Hfr);
        [by rewrite update_ne|apply lseg_update; [set_solver|done]..|by rewrite Hperm|done|cbn in *; lia|].
      exists h'. split; [done|]. rewrite (merged_ext h) in Hl by (intros c _; apply (frame_value _ _ _ _ (Hv _))).
      eapply prepend; [done|exact Hl|exact Hfr|rewrite Hperm, elem_of_app; tauto|by rewrite Hperm].
Qed.

Lemma value_insert h d n a : h !! d = None -> a <> d -> value (<[d := n]> h) a = value h a.
Proof. intros _ Hne. unfold value. by rewrite lookup_insert_ne. Qed.

(** The loop on a fresh node. *)
Lemma merge_loop_dummy fuel h d l1 l2 xs ys :
  h !! d = None -> lseg h l1 xs None -> lseg h l2 ys None -> NoDup (xs ++ ys) -> (length xs + length ys <= fuel)%nat ->
  exists h2, merge_loop fuel (<[d := mk_node 0 None]> h) (Some d) l1 l2 = Ok h2 /\
    lseg h2 (Some d) (d :: merged h xs ys) None /\ frame (d :: xs ++ ys) (<[d := mk_node 0 None]> h) h2.
Proof.
  intros Hd Hx Hy Hnd Hf. destruct (lseg_insert h d (mk_node 0 None) _ _ _ Hd Hx) as [Hx' Hdx], (lseg_insert h d (mk_node 0 None) _ _ _ Hd Hy) as [Hy' Hdy].
  rewrite <- (merged_ext h (<[d := mk_node 0 None]> h)) by (intros a Ha; apply value_insert; [done|]; intros ->; set_solver).
  eapply merge_loop_ok; [by rewrite lookup_insert_eq|done|done| |done|done]. constructor; [set_solver|done].
Qed.

Lemma merge_two_ok fuel h l1 l2 xs ys :
  lseg h l1 xs None -> lseg h l2 ys None -> NoDup (xs ++ ys) -> (length xs + length ys <= fuel)%nat ->
  exists h' r, merge_two_lists fuel h l1 l2 = Ok (h', r) /\ relinked h h' (xs ++ ys) r (merged h xs ys).
Proof.
  intros Hx Hy Hd Hf. apply with_dummy_spec.
  - intros a. rewrite merged_Permutation. intros [Ha|Ha]%elem_of_app; [exact (lseg_is_Some _ _ _ _ _ Hx Ha)|exact (lseg_is_Some _ _ _ _ _ Hy Ha)].
  - intros d Hdum. by apply merge_loop_dummy.
Qed.

(** The merged list has the nodes of both, those with smaller values first; sorted lists make a sorted one.  The
    node that the list was built on stays in the heap. *)
Theorem merge_two_sorted fuel h l1 l2 xs ys :
  lseg h l1 xs None -> lseg h l2 ys None -> NoDup (xs ++ ys) -> (length xs + length ys <= fuel)%nat ->
  exists h' r d, mergeTwoLists fuel h l1 l2 = Ok (h', r) /\ h !! d = None /\ is_Some (h' !! d) /\
    relinked h (delete d h') (xs ++ ys) r (merged h xs ys) /\
    (sorted h xs -> sorted h ys -> sorted h (merged h xs ys)).
Proof.
  intros Hx Hy Hd Hf. unfold mergeTwoLists, new_node. set (d := fresh (dom h)).
  assert (Hdum : h !! d = None) by (apply not_elem_of_dom, is_fresh). clearbody d.
  destruct (merge_loop_dummy fuel h d l1 l2 xs ys) as (h2 & -> & [_ (n & Hn & Hl)] & Hfr); [done..|].
  rewrite bind_ok, (deref_node _ _ _ Hn), bind_ok. exists h2, (next n), d. split; [done|]. split; [done|]. split; [eauto|].
  split; [|apply sorted_merged].
  assert (Hdm : d ∉ merged h xs ys).
  { rewrite merged_Permutation. intros [Ha|Ha]%elem_of_app; [destruct (lseg_is_Some _ _ _ _ _ Hx Ha)|destruct (lseg_is_Some _ _ _ _ _ Hy Ha)]; congruence. }
  by eapply dummy_drop.
Qed.

(** *** The vector of lists *)

Definition is_sorted_list (h : heap) (p : ptr) (xs : list positive) : Prop := lseg h p xs None /\ sorted h xs.

(** The lists [0 .. r] of the vector are sorted lists of the nodes [xss]. *)
Definition holds (h : heap) (lists : list ptr) (r : nat) (xss : list (list positive)) : Prop :=
  exists ps junk, lists = ps ++ junk /\ length ps = S r /\ Forall2 (is_sorted_list h) ps xss.

Lemma is_sorted_frame zs h h' p xs : frame zs h h' -> zs ## xs -> is_sorted_list h p xs -> is_sorted_list h' p xs.
Proof. intros Hf Hd [Hl Hs]. split; [by eapply lseg_frame|by eapply sorted_frame]. Qed.

Lemma is_sorted_frame_all zs h h' ps xss :
  frame zs h h' -> zs ## concat xss -> Forall2 (is_sorted_list h) ps xss -> Forall2 (is_sorted_list h') ps xss.
Proof.
  intros Hf Hd H. induction H as [|p xs ps xss Hp _ IH]; [done|]. cbn in Hd. constructor; [|apply IH; set_solver].
  eapply is_sorted_frame; [done| |done]. set_solver.
Qed.

(** One merge of a round: the lists [l] and [r] become the list [l]. *)
Lemma merge_pair_step fuel h lists l r xss :
  holds h lists r xss -> (l < r)%nat -> NoDup (concat xss) -> (length (concat xss) <= fuel)%nat ->
  exists l1 l2 h' p xss', lists !! l = Some l1 /\ lists !! r = Some l2 /\ merge_two_lists fuel h l1 l2 = Ok (h', p) /\
    holds h' (<[l := p]> lists) (r - 1) xss' /\ concat xss' ≡ₚ concat xss /\ frame (concat xss) h h'.
Proof.
  intros (ps & junk & -> & Hlen & H) Hlr Hd Hf.
  assert (exists A l1 B l2, ps = A ++ l1 :: B ++ [l2] /\ length A = l /\ S (length A + length B) = r) as (A & l1 & B & l2 & -> & HA & HB).
  { destruct ps as [|l2 ps _] using rev_ind; [done|]. rewrite length_app in Hlen. cbn in Hlen.
    destruct (lookup_lt_is_Some_2 ps l) as [l1 Hl1]; [lia|]. exists (take l ps), l1, (drop (S l) ps), l2.
    split; [by rewrite app_comm_cons, app_assoc, take_drop_middle|]. rewrite length_take, length_drop. lia. }
  apply Forall2_app_inv_l in H as (XA & XR & HXA & HXR & ->). apply Forall2_cons_inv_l in HXR as (x1 & XR' & [H1 S1] & HXR & ->).
  apply Forall2_app_inv_l in HXR as (XB & X2 & HXB & HX2 & ->). apply Forall2_cons_inv_l in HX2 as (x2 & X2' & [H2 S2] & HX2 & ->).
  apply Forall2_nil_inv_l in HX2 as ->. set (all := concat (XA ++ x1 :: XB ++ [x2])) in *.
  assert (Hall : all ≡ₚ (x1 ++ x2) ++ concat XA ++ concat XB).
  { unfold all. rewrite concat_app. cbn. rewrite concat_app. cbn. rewrite app_nil_r. solve_Permutation. }
  rewrite Hall in Hd. apply NoDup_app in Hd as (Hd12 & Hdis & _).
  assert (Hn12 : (length x1 + length x2 <= fuel)%nat) by (rewrite Hall, !length_app in Hf; lia).
  destruct (merge_two_ok fuel h l1 l2 x1 x2 H1 H2 Hd12 Hn12) as (h' & p & E & Hl & Hfr).
  exists l1, l2, h', p, (XA ++ merged h x1 x2 :: XB). split_and!.
  - rewrite <- !app_assoc, <- HA. by apply list_lookup_middle.
  - rewrite <- HB, <- app_assoc, <- app_comm_cons, <- app_assoc, <- Nat.add_succ_r, lookup_app_r, Nat.add_sub_swap, Nat.sub_diag by lia.
    cbn. by apply list_lookup_middle.
  - exact E.
  - exists (A ++ p :: B), (l2 :: junk). split; [|split].
    + rewrite <- HA, <- !app_assoc. cbn. rewrite insert_app_r_alt, Nat.sub_diag by lia. cbn. by rewrite <- !app_assoc.
    + rewrite length_app. cbn. lia.
    + apply Forall2_app; [|constructor]; [eapply is_sorted_frame_all; [exact Hfr|set_solver|done]| |eapply is_sorted_frame_all; [exact Hfr|set_solver|done]].
      split; [done|]. eapply sorted_frame; [exact Hfr|]. by apply sorted_merged.
  - rewrite Hall, concat_app. cbn. rewrite merged_Permutation. solve_Permutation.
  - apply (frame_weaken (x1 ++ x2)); [rewrite Hall; set_solver|done].
Qed.

Lemma merge_round_ok fuel loop h lists l r xss :
  holds h lists r xss -> NoDup (concat xss) -> (length (concat xss) <= fuel)%nat -> (r - l <= loop)%nat ->
  exists h' lists' r' xss', merge_round fuel loop h lists l r = Ok (h', lists', r') /\ holds h' lists' r' xss' /\
    concat xss' ≡ₚ concat xss /\ frame (concat xss) h h' /\ (r' <= r)%nat /\ ((l < r)%nat -> (r' < r)%nat).
Proof.
  revert h lists l r xss. induction loop as [|loop IH]; intros h lists l r xss H Hd Hf Hl; cbn [merge_round]; case_decide as Hlr.
  - lia.
  - exists h, lists, r, xss. split_and!; [done..|lia].
  - destruct (merge_pair_step fuel h lists l r xss) as (l1 & l2 & h1 & p & xss1 & E1 & E2 & E & H1 & Hp & Hfr); [done..|].
    rewrite E1, E2. cbn [the]. rewrite !bind_ok, E, bind_ok.
    destruct (IH h1 (<[l := p]> lists) (S l) (r - 1)%nat xss1) as (h2 & lists2 & r2 & xss2 & -> & H2 & Hp2 & Hf2 & Hr & _);
      [done|by rewrite Hp|by rewrite Hp|lia|].
    exists h2, lists2, r2, xss2. split_and!; [done|done|by rewrite Hp2| |lia|lia].
    etrans; [exact Hfr|]. apply (frame_weaken (concat xss1)); [by rewrite Hp|done].
  - exists h, lists, r, xss. split_and!; [done..|lia].
Qed.

Lemma merge_rounds_ok fuel loop h lists r xss :
  holds h lists r xss -> NoDup (concat xss) -> (length (concat xss) <= fuel)%nat -> (r <= loop)%nat ->
  exists h' lists' xss', merge_rounds fuel loop h lists r = Ok (h', lists') /\ holds h' lists' 0 xss' /\
    concat xss' ≡ₚ concat xss /\ frame (concat xss) h h'.
Proof.
  revert h lists r xss. induction loop as [|loop IH]; intros h lists r xss H Hd Hf Hl.
  - replace r with 0%nat in * by lia. exists h, lists, xss. by split_and!.
  - destruct r as [|r]; [exists h, lists, xss; by split_and!|]. cbn [merge_rounds].
    destruct (merge_round_ok fuel (S r) h lists 0 (S r) xss) as (h1 & lists1 & r1 & xss1 & -> & H1 & Hp & Hfr & _ & Hlt); [done..|lia|].
    rewrite bind_ok. destruct (IH h1 lists1 r1 xss1) as (h2 & lists2 & xss2 & -> & H2 & Hp2 & Hf2);
      [done|by rewrite Hp|by rewrite Hp|specialize (Hlt ltac:(lia)); lia|].
    exists h2, lists2, xss2. split_and!; [done|done|by rewrite Hp2|].
    etrans; [exact Hfr|]. apply (frame_weaken (concat xss1)); [by rewrite Hp|done].
Qed.

(** C40: The rounds end; the list returned is sorted and has the nodes of all the lists. *)
Theorem merge_k_sorted fuel h lists xss :
  Forall2 (is_sorted_list h) lists xss -> NoDup (concat xss) -> (length (concat xss) <= fuel)%nat ->
  exists h' r ys, mergeKLists fuel h lists = Ok (h', r) /\ relinked h h' (concat xss) r ys /\
    ys ≡ₚ concat xss /\ sorted h ys.
Proof.
  intros H Hd Hf. destruct lists as [|p lists].
  - apply Forall2_nil_inv_l in H as ->. exists h, None, []. split_and!; [done|by split|done|constructor].
  - unfold mergeKLists. remember (p :: lists) as ps eqn:E. assert (Hlen : length ps = S (length ps - 1)) by (subst ps; cbn; lia).
    destruct (merge_rounds_ok fuel (length ps - 1) h ps (length ps - 1) xss) as (h1 & ls & xss1 & -> & (qs & junk & -> & Hq & H1) & Hp & Hfr);
      [exists ps, []; by rewrite app_nil_r|done|done|done|].
    destruct qs as [|q [|? ?]]; try done. apply Forall2_cons_inv_l in H1 as (ys & zss & [Hl Hs] & Hz & ->).
    apply Forall2_nil_inv_l in Hz as ->. rewrite bind_ok. cbn in *. rewrite app_nil_r in Hp. exists h1, q, ys. split_and!; [done|by split|done|].
    revert Hs. unfold sorted. by rewrite (frame_vals _ ys _ _ Hfr).
Qed.

End MergeLists.

(** ** add_two_numbers *)

Module AddTwo.

(** [l ? l->val : 0], and [if (l) l = l->next;] *)
Definition val_or_zero (h : heap) (l : ptr) : outcome Z :=
  match l with Some _ => n ← deref h l; Ok (val n) | None => Ok 0 end.
Definition advance_list (h : heap) (l : ptr) : outcome ptr :=
  match l with Some _ => n ← deref h l; Ok (next n) | None => Ok l end.

Fixpoint add_loop (fuel : nat) (h : heap) (p : ptr) (carry : Z) (l1 l2 : ptr) : outcome heap :=
  if bool_decide (l1 <> None) || bool_decide (l2 <> None) then
    match fuel with
    | O => OutOfFuel
    | S fuel =>
        val1 ← val_or_zero h l1;
        val2 ← val_or_zero h l2;
        sum ← int32 (val1 + val2);
        sum ← int32 (sum + carry);
        let carry := Z.quot sum 10 in
        let '(q, h) := new_node h (Z.rem sum 10) in
        h ← set_next h p q;
        np ← deref h p;
        l1 ← advance_list h l1;
        l2 ← advance_list h l2;
        add_loop fuel h (next np) carry l1 l2
    end
  else if 0 <? carry then
    let '(q, h) := new_node h 1 in set_next h p q
  else Ok h.

Definition addTwoNumbers (fuel : nat) (h : heap) (l1 l2 : ptr) : outcome (heap * ptr) :=
  let '(dummy, h) := new_node h 0 in
  h ← add_loop fuel h dummy 0 l1 l2;
  n ← deref h dummy;
  Ok (h, next n).

(** The digits of a number, the least significant first. *)
Definition number (ds : list Z) : Z := foldr (fun d acc => d + 10 * acc) 0 ds.
Definition digit (d : Z) : Prop := 0 <= d < 10.
Definition digits (h : heap) (xs : list positive) : Prop := Forall digit (vals h xs).

Lemma val_or_zero_ok h l xs :
  lseg h l xs None -> digits h xs ->
  exists v l' xs', val_or_zero h l = Ok v /\ digit v /\ number (vals h xs) = v + 10 * number (vals h xs') /\
    advance_list h l = Ok l' /\ lseg h l' xs' None /\ digits h xs' /\ xs' ⊆ xs /\ length xs' = (length xs - 1)%nat.
Proof.
  intros Hl Hd. destruct xs as [|a xs].
  - cbn in Hl. subst l. exists 0, None, []. by split_and!.
  - destruct Hl as (-> & n & Hn & Hl). apply Forall_cons in Hd as [Hd Hds]. exists (val n), (next n), xs.
    assert (value h a = val n) as Hv by (unfold value; by rewrite Hn). rewrite Hv in Hd. cbn [val_or_zero advance_list].
    rewrite (deref_node _ _ _ Hn). split_and!; try done.
    + cbn. by rewrite Hv.
    + set_solver.
    + cbn. lia.
Qed.

Lemma new_link h p n x :
  h !! p = Some n -> exists a h', new_node h x = (Some a, h') /\ h !! a = None /\ a <> p /\
    set_next h' (Some p) (Some a) = Ok (<[p := mk_node (val n) (Some a)]> (<[a := mk_node x None]> h)).
Proof.
  intros Hp. unfold new_node. set (a := fresh (dom h)). assert (Ha : h !! a = None) by (apply not_elem_of_dom, is_fresh).
  clearbody a. assert (a <> p) by congruence. exists a. eexists. split; [done|]. split; [done|]. split; [done|].
  unfold set_next. cbn [the]. rewrite bind_ok, lookup_insert_ne, Hp by done. done.
Qed.

Definition sum_below (h h' : heap) (p : positive) (zs : list positive) (total : Z) : Prop :=
  lseg h' (Some p) (p :: zs) None /\ (forall a, a <> p -> is_Some (h !! a) -> h' !! a = h !! a) /\ value h' p = value h p /\
  (forall a, a ∈ zs -> h !! a = None) /\ digits h' zs /\ number (vals h' zs) = total.

(** One digit more in front of a sum. *)
Lemma sum_cons h h' p n a d zs total :
  h !! p = Some n -> h !! a = None -> a <> p -> digit d ->
  sum_below (<[p := mk_node (val n) (Some a)]> (<[a := mk_node d None]> h)) h' a zs total ->
  sum_below h h' p (a :: zs) (d + 10 * total).
Proof.
  intros Hp Ha Hne Hd (Hl & Hold & Hv & Hnew & Hds & Htot). set (h1 := <[p := _]> _) in *.
  assert (H1p : h1 !! p = Some (mk_node (val n) (Some a))) by (unfold h1; by rewrite lookup_insert_eq).
  assert (H1a : h1 !! a = Some (mk_node d None)) by (unfold h1; by rewrite lookup_insert_ne, lookup_insert_eq).
  assert (Hp' : h' !! p = Some (mk_node (val n) (Some a))) by (rewrite Hold; eauto).
  assert (Hva : value h' a = d) by (rewrite Hv; unfold value; by rewrite H1a).
  unfold sum_below. split_and!.
  - split; [done|]. eauto.
  - intros b Hb Hs. assert (b <> a) by (intros ->; destruct Hs; congruence).
    assert (h1 !! b = h !! b) as Hh by (unfold h1; by rewrite !lookup_insert_ne). rewrite <- Hh. apply Hold; [done|by rewrite Hh].
  - unfold value. by rewrite Hp, Hp'.
  - intros b [->|Hb]%elem_of_cons; [done|]. specialize (Hnew b Hb). unfold h1 in Hnew.
    apply lookup_insert_None in Hnew as [Hnew _]. by apply lookup_insert_None in Hnew as [? _].
  - unfold digits, vals in *. cbn. rewrite Hva. by constructor.
  - cbn. by rewrite Hva, <- Htot.
Qed.

Lemma list_kept h h1 l xs : lseg h l xs None -> (forall b, b ∈ xs -> h1 !! b = h !! b) -> lseg h1 l xs None /\ vals h1 xs = vals h xs.
Proof.
  intros Hl Hk. split; [by apply (lseg_ext h)|]. unfold vals. apply map_ext_in. intros b Hb. unfold value.
  by rewrite Hk by (by apply list_elem_of_In).
Qed.

Lemma advance_kept h h1 l xs : lseg h l xs None -> (forall b, b ∈ xs -> h1 !! b = h !! b) -> advance_list h1 l = advance_list h l.
Proof. destruct xs as [|a xs]; [by intros ->|]. intros [-> _] Hk. unfold advance_list, deref. cbn. by rewrite Hk by set_solver. Qed.

(** The last carry. *)
Lemma add_end h p n carry :
  h !! p = Some n -> next n = None -> 0 <= carry <= 1 ->
  exists h' zs, (if 0 <? carry then let '(q, h) := new_node h 1 in set_next h (Some p) q else Ok h) = Ok h' /\
    sum_below h h' p zs carry.
Proof.
  intros Hp Hn Hc. destruct (0 <? carry) eqn:E; zify_bool.
  - replace carry with (1 + 10 * 0) by lia. destruct (new_link h p n 1 Hp) as (a & h0 & -> & Ha & Hne & ->).
    eexists _, [a]. split; [done|]. eapply sum_cons; [done|done|done|by unfold digit|].
    unfold sum_below. split_and!; [|done..| |constructor|done].
    + split; [done|]. eexists. rewrite lookup_insert_ne, lookup_insert_eq by done. by split.
    + intros b. set_solver.
  - assert (carry = 0) as -> by lia. exists h, []. split; [done|]. unfold sum_below. split_and!; [|done..| |constructor|done].
    + split; [done|]. eauto.
    + intros b. set_solver.
Qed.

Lemma add_digits_ok fuel h p n carry l1 l2 xs ys :
  h !! p = Some n -> next n = None -> p ∉ xs ++ ys -> lseg h l1 xs None -> lseg h l2 ys None ->
  digits h xs -> digits h ys -> 0 <= carry <= 1 -> (length xs <= fuel)%nat -> (length ys <= fuel)%nat ->
  exists h' zs, add_loop fuel h (Some p) carry l1 l2 = Ok h' /\
    sum_below h h' p zs (number (vals h xs) + number (vals h ys) + carry).
Proof.
  assert (Hend : forall h l, lseg h None l None -> l = []) by (intros h0 [|? ?]; [done|by intros [? _]]).
  revert h p n carry l1 l2 xs ys. induction fuel as [|fuel IH]; intros h p n carry l1 l2 xs ys Hp Hn Hpn Hx Hy Hdx Hdy Hc Hfx Hfy;
    cbn [add_loop]; destruct (bool_decide (l1 <> None) || bool_decide (l2 <> None)) eqn:E.
  2, 4: apply orb_false_iff in E as [E1%bool_decide_eq_false E2%bool_decide_eq_false];
    apply dec_stable in E1, E2; subst l1 l2; apply Hend in Hx as ->, Hy as ->; by eapply add_end.
  - destruct xs, ys; cbn in Hfx, Hfy; try lia. cbn in Hx, Hy. by subst l1 l2.
  - destruct (val_or_zero_ok h l1 xs Hx Hdx) as (v1 & l1' & xs' & -> & D1 & N1 & A1 & Hx' & Hdx' & Sx & Lx).
    destruct (val_or_zero_ok h l2 ys Hy Hdy) as (v2 & l2' & ys' & -> & D2 & N2 & A2 & Hy' & Hdy' & Sy & Ly).
    unfold digit in D1, D2. rewrite bind_ok, bind_ok, int32_ok, bind_ok, int32_ok, bind_ok by lia. cbv zeta.
    set (s := v1 + v2 + carry). pose proof (Z.quot_rem' s 10). pose proof (Z.rem_bound_pos s 10 ltac:(lia) ltac:(lia)).
    destruct (new_link h p n (Z.rem s 10) Hp) as (a & h0 & -> & Ha & Hne & ->). rewrite bind_ok.
    set (h1 := <[p := _]> _). assert (H1p : h1 !! p = Some (mk_node (val n) (Some a))) by (unfold h1; by rewrite lookup_insert_eq).
    assert (Hk : forall b, b ∈ xs \/ b ∈ ys -> b <> a /\ h1 !! b = h !! b).
    { intros b Hb. assert (is_Some (h !! b)) as [m Hm] by (destruct Hb; eauto using lseg_is_Some).
      assert (b <> a) by congruence. assert (b <> p) by set_solver. unfold h1. by rewrite !lookup_insert_ne. }
    rewrite (deref_node _ _ _ H1p), bind_ok, (advance_kept h h1 l1 xs Hx), A1, bind_ok, (advance_kept h h1 l2 ys Hy), A2, bind_ok
      by (intros b Hb; apply Hk; tauto). cbn [next].
    destruct (list_kept h h1 l1' xs' Hx') as [Hx1 Vx]; [intros b Hb; apply Hk; left; by apply Sx|].
    destruct (list_kept h h1 l2' ys' Hy') as [Hy1 Vy]; [intros b Hb; apply Hk; right; by apply Sy|].
    destruct (IH h1 a (mk_node (Z.rem s 10) None) (Z.quot s 10) l1' l2' xs' ys') as (h' & zs & -> & H').
    + unfold h1. by rewrite lookup_insert_ne, lookup_insert_eq by done.
    + done.
    + intros [Hb|Hb]%elem_of_app; [destruct (Hk a (or_introl (Sx _ Hb)))|destruct (Hk a (or_intror (Sy _ Hb)))]; done.
    + done.
    + done.
    + unfold digits. by rewrite Vx.
    + unfold digits. by rewrite Vy.
    + subst s. lia.
    + lia.
    + lia.
    + exists h', (a :: zs). split; [done|]. rewrite Vx, Vy in H'.
      replace (number (vals h xs) + number (vals h ys) + carry) with (Z.rem s 10 + 10 * (number (vals h xs') + number (vals h ys') + Z.quot s 10))
        by (subst s; lia).
      by eapply sum_cons.
Qed.

(** The digits of the sum, in new nodes; the lists of the numbers stay as they are. *)
Theorem add_two_numbers_adds fuel h l1 l2 xs ys :
  lseg h l1 xs None -> lseg h l2 ys None -> digits h xs -> digits h ys -> (length xs <= fuel)%nat -> (length ys <= fuel)%nat ->
  exists h' r zs, addTwoNumbers fuel h l1 l2 = Ok (h', r) /\ lseg h' r zs None /\ digits h' zs /\
    number (vals h' zs) = number (vals h xs) + number (vals h ys) /\
    (forall a, is_Some (h !! a) -> h' !! a = h !! a) /\ (forall a, a ∈ zs -> h !! a = None).
Proof.
  intros Hx Hy Hdx Hdy Hfx Hfy. unfold addTwoNumbers, new_node. set (d := fresh (dom h)).
  assert (Hd : h !! d = None) by (apply not_elem_of_dom, is_fresh). clearbody d. set (h1 := <[d := mk_node 0 None]> h).
  destruct (lseg_insert h d (mk_node 0 None) _ _ _ Hd Hx) as [Hx1 Hdx1], (lseg_insert h d (mk_node 0 None) _ _ _ Hd Hy) as [Hy1 Hdy1].
  fold h1 in Hx1, Hy1. assert (Hold : forall a, is_Some (h !! a) -> h1 !! a = h !! a).
  { intros a [m Hm]. unfold h1. rewrite lookup_insert_ne; [done|congruence]. }
  destruct (list_kept h h1 l1 xs Hx) as [_ Vx]; [intros a Ha; eauto using lseg_is_Some|].
  destruct (list_kept h h1 l2 ys Hy) as [_ Vy]; [intros a Ha; eauto using lseg_is_Some|].
  destruct (add_digits_ok fuel h1 d (mk_node 0 None) 0 l1 l2 xs ys) as (h' & zs & -> & [_ (n & Hn & Hl)] & Hkept & _ & Hnew & Hds & Htot).
  1: unfold h1; by rewrite lookup_insert_eq.
  all: try done; try (unfold digits; by rewrite ?Vx, ?Vy); try set_solver.
  rewrite bind_ok, (deref_node _ _ _ Hn), bind_ok. exists h', (next n), zs. rewrite Vx, Vy, Z.add_0_r in Htot. split_and!; try done.
  - intros a Ha. rewrite <- (Hold a Ha). apply Hkept; [|by rewrite Hold]. intros ->. destruct Ha. congruence.
  - intros a Ha. specialize (Hnew a Ha). destruct (h !! a) eqn:E; [|done]. rewrite Hold in Hnew by (rewrite E; eauto). congruence.
Qed.

End AddTwo.

(** ** Concrete inputs *)

(** The list 1 -> 2 -> 3 -> 4 -> 5 of the values 2, 4, 6, 8, 9, and the list 6 -> 7 of the values 1, 5. *)
Definition example_heap : heap := list_to_map
  [(1%positive, mk_node 2 (Some 2%positive)); (2%positive, mk_node 4 (Some 3%positive)); (3%positive, mk_node 6 (Some 4%positive));
   (4%positive, mk_node 8 (Some 5%positive)); (5%positive, mk_node 9 None);
   (6%positive, mk_node 1 (Some 7%positive)); (7%positive, mk_node 5 None)].
Definition five : list positive := [1; 2; 3; 4; 5]%positive.
Definition two : list positive := [6; 7]%positive.

Ltac walk_lseg := repeat (split; [reflexivity|eexists; split; [reflexivity|]]); reflexivity.

Lemma five_list : lseg example_heap (Some 1%positive) five None.
Proof. walk_lseg. Qed.

Lemma two_list : lseg example_heap (Some 6%positive) two None.
Proof. walk_lseg. Qed.

Lemma five_sorted : MergeLists.sorted example_heap five.
Proof. change (StronglySorted Z.le [2; 4; 6; 8; 9]). repeat first [constructor|lia]. Qed.

Lemma two_sorted : MergeLists.sorted example_heap two.
Proof. change (StronglySorted Z.le [1; 5]). repeat first [constructor|lia]. Qed.

Lemma five_are_digits : AddTwo.digits example_heap five.
Proof. change (Forall AddTwo.digit [2; 4; 6; 8; 9]). repeat (apply Forall_cons; split; [unfold AddTwo.digit; lia|]). apply Forall_nil_2. Qed.

Lemma two_are_digits : AddTwo.digits example_heap two.
Proof. change (Forall AddTwo.digit [1; 5]). repeat (apply Forall_cons; split; [unfold AddTwo.digit; lia|]). apply Forall_nil_2. Qed.

Lemma both_distinct : NoDup (five ++ two).
Proof. apply (bool_decide_unpack _). vm_compute. exact I. Qed.

Lemma reverse_list_witness : exists h' r, ReverseList.reverseList 5 example_heap (Some 1%positive) = Ok (h', r) /\
  relinked example_heap h' five r [5; 4; 3; 2; 1]%positive.
Proof. apply (ReverseList.reverse_list_reverses 5 example_heap (Some 1%positive) five five_list). cbn. lia. Defined.

Lemma reverse_versions_witness : ReverseList.reverseList_rec 5 example_heap (Some 1%positive) = ReverseList.reverseList 5 example_heap (Some 1%positive).
Proof. apply (ReverseList.reverse_versions_agree 5 example_heap (Some 1%positive) five five_list). cbn. lia. Defined.

Lemma reverse_between_witness : exists h' r, ExtractInsert.reverseBetween example_heap (Some 1%positive) 2 4 = Ok (h', r) /\
  relinked example_heap h' five r [1; 4; 3; 2; 5]%positive.
Proof. apply (ExtractInsert.reverse_between_reverses example_heap (Some 1%positive) five 2 4 five_list); cbn; lia. Defined.

Lemma reverse_k_groups_witness : exists h' r ys, ExtractInsert.reverseKGroup 5 example_heap (Some 1%positive) 2 = Ok (h', r) /\
  ExtractInsert.grouped 2 five ys /\ relinked example_heap h' five r ys.
Proof. apply (ExtractInsert.reverse_k_groups 5 example_heap (Some 1%positive) five 2 five_list); cbn; lia. Defined.

Lemma swap_pairs_witness : exists h' r ys, ExtractInsert.swapPairs 5 example_heap (Some 1%positive) = Ok (h', r) /\
  ExtractInsert.reverseKGroup 5 example_heap (Some 1%positive) 2 = Ok (h', r) /\ ExtractInsert.grouped 2 five ys /\ relinked example_heap h' five r ys.
Proof. apply (ExtractInsert.swap_pairs_groups 5 example_heap (Some 1%positive) five five_list). cbn. lia. Defined.

Lemma remove_nth_witness : exists h' r, RemoveNth.removeNthFromEnd 5 example_heap (Some 1%positive) 2 = Ok (h', r) /\
  relinked example_heap h' five r [1; 2; 3; 5]%positive.
Proof. apply (RemoveNth.remove_nth_removes 5 example_heap (Some 1%positive) five 2 five_list); cbn; lia. Defined.

Lemma remove_nth_undefined_witness : RemoveNth.removeNthFromEnd 5 example_heap (Some 1%positive) 6 = Undef.
Proof. apply (RemoveNth.remove_nth_undefined 5 example_heap (Some 1%positive) five 6 five_list); cbn; lia. Defined.

Lemma merge_two_witness : exists h' r d, MergeLists.mergeTwoLists 7 example_heap (Some 1%positive) (Some 6%positive) = Ok (h', r) /\
  example_heap !! d = None /\ is_Some (h' !! d) /\ relinked example_heap (delete d h') (five ++ two) r [6; 1; 2; 7; 3; 4; 5]%positive /\
  (MergeLists.sorted example_heap five -> MergeLists.sorted example_heap two -> MergeLists.sorted example_heap [6; 1; 2; 7; 3; 4; 5]%positive).
Proof. apply (MergeLists.merge_two_sorted 7 example_heap (Some 1%positive) (Some 6%positive) five two five_list two_list both_distinct). cbn. lia. Defined.

Lemma merge_k_witness : exists h' r ys, MergeLists.mergeKLists 7 example_heap [Some 1; None; Some 6]%positive = Ok (h', r) /\
  relinked example_heap h' (concat [five; []; two]) r ys /\ ys ≡ₚ concat [five; []; two] /\ MergeLists.sorted example_heap ys.
Proof.
  apply (MergeLists.merge_k_sorted 7 example_heap [Some 1; None; Some 6]%positive [five; []; two]).
  - constructor; [split; [exact five_list|exact five_sorted]|]. constructor; [split; [reflexivity|exact (SSorted_nil _)]|].
    constructor; [split; [exact two_list|exact two_sorted]|constructor].
  - exact both_distinct.
  - cbn. lia.
Defined.

Lemma add_two_witness : exists h' r zs, AddTwo.addTwoNumbers 5 example_heap (Some 1%positive) (Some 6%positive) = Ok (h', r) /\
  lseg h' r zs None /\ AddTwo.digits h' zs /\ AddTwo.number (vals h' zs) = 98693 /\
  (forall a, is_Some (example_heap !! a) -> h' !! a = example_heap !! a) /\ (forall a, a ∈ zs -> example_heap !! a = None).
Proof.
  apply (AddTwo.add_two_numbers_adds 5 example_heap (Some 1%positive) (Some 6%positive) five two five_list two_list); [exact five_are_digits|exact two_are_digits|cbn; lia|cbn; lia].
Defined.
